(* ===== verification/_CoqProject ===== *)
-Q . S2P
Prelude.v
Doubles.v
BigIntLimbs.v
BigIntDiv.v
BigIntObj.v
BigIntText.v
Values.v
HashTable.v
ObjMap.v
ObjSet.v
CycleGc.v
Bytecode.v
Artifact.v
ArtifactLoad.v
Lexer.v
LexerSpec.v
LexerProps.v
FileSystem.v
PathUtils.v
PathSpec.v
PathProps.v
Operators.v
Machine.v
Jit.v
JitProps.v
JitQueue.v
Validate.v
Ast.v
Syntax.v
Parser.v
ParserComplete.v
ParserErrors.v
ParserRoundTrip.v
ParserStatements.v
Types.v
Checker.v
MatchCheck.v
MatchProps.v
JitSummary.v
Superinstr.v
SuperinstrStep.v
SuperinstrProps.v
Eval.v
TypeCheck.v
ConstFold.v
CodeGen.v
CodeGenSteps.v
CodeGenProps.v
CodeGenCorrect.v
