(* ===== verification/Prelude.v ===== *)
(** * TabloLang: verification development

    TabloLang is a statically typed scripting language written in C. A source
    text goes through a lexer ([src/src/lexer.c]), a parser, a type checker and
    a bytecode compiler ([compiler.c]) into functions that a stack machine
    ([vm.c]) interprets. Compiled programs can be saved to and loaded from
    artifact files ([artifact.c]); the embedding runtime ([runtime.c])
    validates what was loaded before it runs. Hot functions of simple shape
    are executed from a plan instead of their bytecode ([jit.c], with plans
    that the compiler stores or that are recovered from the bytecode). Values
    of a running program are reference counted, with a cycle collector
    ([cycle_gc.c]) for containers; integers beyond 64 bits are big integers
    ([bigint.c]). File access of programs is confined to a sandbox directory
    ([path_utils.c]).

    ** Files and what they model

    - [Prelude]: machine integers with their wrap-around, C strings, shared
      list lemmas, the tactics [zpow] and [zbounds] and the hint database
      [machine].
    - [BigIntLimbs], [BigIntDiv], [BigIntObj], [BigIntText] ([bigint.c]): limb
      vectors and the routines on them; [bigint_divmod_abs_limbs] with its
      one-limb, small-quotient and schoolbook paths; the signed object
      [ObjBigInt] and its operations; parsing and printing.
    - [Values], [HashTable], [ObjMap], [ObjSet] ([vm.c], [vm.h]): values, their
      hashes and key comparison; the open-addressing table that maps and sets
      share, against the class [TableKey] of what it needs from its payload;
      the [obj_map_] and [obj_set_] operations as instances of it. Reference
      counting is a trace of retain and release events.
    - [CycleGc] ([cycle_gc.c] and the object lifetimes of [vm.c]): a heap of
      containers with reference counts, the linked list of collector nodes,
      collection, creation and release.
    - [Bytecode], [Artifact], [ArtifactLoad] ([bytecode.c], [vm.h],
      [artifact.c]): code buffers, constant pools and function objects; the
      writer and the loader of artifact files, versions 2 to 16, as a writer
      state with limited room and a reader with a cursor and an error.
    - [Lexer], [LexerSpec], [LexerProps] ([lexer.c]): the scanner as a state
      passed from call to call.
    - [FileSystem], [PathUtils], [PathSpec], [PathProps] ([path_utils.c]):
      inodes, directories and links with the system calls the code uses;
      joining, resolving and opening, where any change of the file system by
      other processes may happen between two calls.
    - [Doubles], [Operators] ([vm.c]): doubles as their bits with the IEEE
      operations; what the arithmetic, comparison, bitwise and conversion
      instructions compute from values.
    - [Machine] ([vm_run_loop] of [vm.c]): the dispatch loop on code over
      integers, booleans, doubles, big integers and strings.
    - [Jit], [JitProps], [JitQueue] ([jit.c], [vm_jit_native_compiled_entry]
      of [vm.c]): plans, their recovery from bytecode, their execution, the
      counting and the queue of hot functions.
    - [Validate] ([runtime.c], the checks that
      [runtime_validate_loaded_artifact_semantics] makes): each with
      its message.
    - [Ast] ([ast.h], [types.h]): the part of the syntax tree that checker and
      compiler share here.
    - [Syntax], [Parser] ([ast.h], [ast.c], [types.c], [ast_clone.c],
      [parser.c]): the whole syntax tree, and every parsing function with its
      look-ahead, errors and recovery, as actions on the parser's state.
      [ParserComplete] is a logic for such actions and says what each function
      gives; [ParserErrors] has the inputs on which recovery fails;
      [ParserRoundTrip] and [ParserStatements] print types, expressions,
      statements and programs and read them back.
    - [Types] ([types.c], [types.h]): types, their copies, equality,
      assignability and printed form, with the values that a type describes.
    - [Checker] ([typechecker.c]): symbol tables, interfaces and their
      implementations, constraints, the inference and substitution of type
      arguments, and the resolution of named types.
    - [MatchCheck], [MatchProps] ([typechecker.c], the [match_] functions):
      whether patterns cover a type, by expanding a matrix of patterns column
      by column, against the values that patterns match.
    - [JitSummary] ([compiler.c], the [compiler_jit_] functions): which bodies
      the compiler recognises in the syntax tree, the summary and plan it
      stores, and an evaluator of such bodies to compare them with.
    - [Superinstr], [SuperinstrStep], [SuperinstrProps] ([peephole_optimize]
      and [superinstruction_optimize] of [compiler.c]): every pattern of the
      passes over finished code, and what single instructions do.
    - [Eval]: the meaning of expressions, the reference for what follows; it
      models no code.
    - [TypeCheck] ([typechecker.c]): scopes and the checks of literals,
      variables, operators and casts.
    - [ConstFold] ([fold_expression_recursive] of [compiler.c]): constant
      folding.
    - [CodeGen] ([compiler.c]): emitting, constants and jumps, and the
      compilation of expressions and of [return]; [CodeGenSteps],
      [CodeGenProps] and [CodeGenCorrect] prove it correct.

    ** What the theorems show

    - Big integers compute the operations of [Z]: the ring operations, bitwise
      operations as infinite two's complement, comparison, conversion to and
      from [int64_t], parsing and printing. Division is exact wherever no digit
      estimate overflows; [bigint_division_defect] is an input where one does
      and the quotient is wrong.
    - Any history of operations on a map or a set ends and refines the same
      history on a finite map or set; the table keeps its load and its bounds,
      and the reference counts of stored keys and values stay balanced.
    - A collection frees exactly what is not reachable from outside the heap,
      uses no freed memory and keeps the counts exact; creating a container is
      safe even where it starts a collection.
    - A program written to a file loads as itself; whatever loads is well
      formed; a file does not load if it is cut or extended; a program from an
      older version can be saved and loaded again.
    - The validation accepts what the compiler stores and is stable under
      saving; a plan it accepts reads only the arguments, never divides by
      zero and is undefined only on overflow. Artifacts before version 10 load
      and are always rejected.
    - A plan gives the result of what it replaces: a recovered plan against
      interpreting the bytecode, a plan of the compiler against evaluating the
      body. [jit_guard_defect] is the recovered shape for which this fails;
      [jit_native_equivalent] excludes it.
    - The value of a checked expression has the type the checker found.
      Constant folding keeps it. The code that the compiler emits for it, with
      or without the fusion of instructions, makes the machine return it, and
      where the evaluation fails the machine stops with the same message.
      Fusion keeps the outcome of any function whose jumps do not lead into a
      fused group; [superinstruction_defect] is a function where one does.
      [typecheck_dynamic_gap] and [fold_defects] are the limits of the first
      two statements.
    - Assignability of types is sound for data and, without [any], an order up
      to the names of enumerations ([type_assignable_sound],
      [type_assignable_order]; [type_assignable_gaps] has its limits).
      Inference of type arguments inverts their substitution
      ([generic_inference_exact]). A match taken for exhaustive has a pattern
      for every value without [nil] at a nullable type
      ([match_patterns_sound]); [match_exhaustive_gaps] shows complete matches
      that are rejected, a [nil] that is not matched and a check that never
      ends, and [mutual_constraints_diverge] constraints for which none does.
    - The queue of hot functions holds exactly the queued functions, each
      function is compiled at most once, in order, and a function that gets hot
      is compiled at once under automatic compilation.
    - The tokens of a source are the source cut into pieces; the lexer ends on
      every source; words, integer literals and strings are the ones of their
      own descriptions.
    - The parser reads back every program of the printed language: operators
      with their precedence and associativity, casts, types, declarations,
      functions, branches and loops ([parser_roundtrip]). A program that it
      accepts has no missing part ([parser_complete]). Its recovery from errors
      can loop for ever ([parser_match_hangs], [parser_depth_hangs]) or read
      what nothing has set ([parser_undefined]).
    - A file opened through the sandbox lies in it whatever other processes
      do; without interference it is the very file the path names. The
      backslash is a separator for this code and not for the file system, and
      [sandbox_backslash_escape] is how that leaves the sandbox.

    ** Conventions, bounds and fuel

    A pointer that the code compares with [NULL] is an [option]; an operation
    that fails returns its message or [None]; undefined behaviour of C (signed
    overflow, a read outside the stack, use of freed memory) is an outcome of
    its own. Machine integers are [Z] with the truncation of their type
    written out. Loops are structural where the code walks an array, and carry
    fuel elsewhere:
    - probe loops: the number of slots; [None] would be a loop that does not
      end, and the refinement theorems exclude it;
    - growth of a table: 32 doublings, from a capacity of at least 16 to the
      limit of [int];
    - quotient correction: 3 rounds, since the divisor is normalised and each
      round adds at least half of the base to the remainder; small quotients:
      the limit of the code;
    - decimal chunks: [2 * count + 1], the capacity the code allocates;
    - collector: the mark stack takes each node once, and a cascade of
      releases is no deeper than the number of objects, which is the fuel;
    - lexer: the number of characters left;
    - parser: one number bounds the nesting of calls and each loop, and the
      number of tokens is enough for a printed program; [parser_match_hangs]
      is a loop for which no fuel is enough;
    - the matrix of a match: the number of expansions; a result does not
      change with more depth ([matrix_depth]), and [match_exhaustive_gaps] has a matrix
      for which no depth is; assignability with constraints: the number of
      constraints followed;
    - resolving a path: the limit of links that the system call has;
    - compiling an expression: the number of its nodes
      ([compile_expression_total]); running compiled code: some number, which
      the theorems say exists;
    - draining the queue: its length; interpreting a recovered shape: 5
      instructions, the longest of them.

    ** Not modelled

    Of the parser the printed diagnostics, positions in the tree, the
    description of an unexpected token and the freeing of trees that are only
    parsed; of the checker calls, containers, statements and declarations, the
    instances of generic declarations and the messages about missing patterns;
    of the compiler everything but expressions of literals, variables,
    operators and casts; the interpreter's instructions on
    containers, calls, globals, exceptions and tasks, which are the outcome
    [Unmodelled] of
    [Machine]; the builtin functions, most of them glue to the C library,
    sockets, SQLite and TLS; the entry points of the runtime, its cache and
    event queues; module loading, native extensions, the command line, the
    debugger and the language server, which are input and output; compression
    and cryptography; Windows branches; allocation failure, which ends the
    process. [strtod] is an argument of the lexer.

    ** Order of further work

    Assignments, branches and loops in [CodeGen]; calls and globals in [Machine]; the cache of the runtime. *)

From stdpp Require Export prelude list numbers.
From Stdlib Require Export ZArith Lia.

Open Scope Z_scope.

(** ** Machine integers

    A C integer of width [w] is a [Z]; every operation whose C result is
    reduced to its type is wrapped by the truncation written here. *)

Declare Scope machine_scope.
Delimit Scope machine_scope with machine.

Definition u8 (x : Z) : Z := x mod 2 ^ 8.
Definition u16 (x : Z) : Z := x mod 2 ^ 16.
Definition u32 (x : Z) : Z := x mod 2 ^ 32.
Definition u64 (x : Z) : Z := x mod 2 ^ 64.

(** Two's-complement reading of the low [w] bits. *)
Definition signed (w x : Z) : Z :=
  let y := x mod 2 ^ w in if y <? 2 ^ (w - 1) then y else y - 2 ^ w.
Definition i16 (x : Z) : Z := signed 16 x.
Definition i32 (x : Z) : Z := signed 32 x.
Definition i64 (x : Z) : Z := signed 64 x.

Definition INT_MAX : Z := 2 ^ 31 - 1.
Definition INT64_MAX : Z := 2 ^ 63 - 1.
Definition INT64_MIN : Z := - 2 ^ 63.
Definition UINT32_MAX : Z := 2 ^ 32 - 1.

Notation "x >> k" := (Z.shiftr x k) (at level 35) : machine_scope.
Notation "x << k" := (Z.shiftl x k) (at level 35) : machine_scope.

(** Whether a number is in the range of a type. *)
Definition is_u8 (x : Z) : Prop := 0 <= x < 2 ^ 8.
Definition is_u32 (x : Z) : Prop := 0 <= x < 2 ^ 32.
Definition is_u64 (x : Z) : Prop := 0 <= x < 2 ^ 64.
Definition is_i32 (x : Z) : Prop := - 2 ^ 31 <= x < 2 ^ 31.
Definition is_i64 (x : Z) : Prop := - 2 ^ 63 <= x < 2 ^ 63.

Create HintDb machine.
#[export] Hint Unfold is_u8 is_u32 is_u64 is_i32 is_i64 : machine.

(** [zbounds] turns the powers of two of the widths in use into numerals and
    calls [lia]. *)
Ltac zpow :=
  change (2 ^ 8) with 256 in *;
  change (2 ^ 16) with 65536 in *;
  change (2 ^ 31) with 2147483648 in *;
  change (2 ^ 32) with 4294967296 in *;
  change (2 ^ 33) with 8589934592 in *;
  change (2 ^ 63) with 9223372036854775808 in *;
  change (2 ^ 64) with 18446744073709551616 in *.
Ltac zbounds := unfold is_u8, is_u32, is_u64, is_i32, is_i64 in *; zpow; lia.

Lemma u8_range x : is_u8 (u8 x).
Proof. apply Z.mod_pos_bound; lia. Qed.
Lemma u32_range x : is_u32 (u32 x).
Proof. apply Z.mod_pos_bound; lia. Qed.
Lemma u64_range x : is_u64 (u64 x).
Proof. apply Z.mod_pos_bound; lia. Qed.
#[export] Hint Resolve u8_range u32_range u64_range : machine.

Lemma u8_small x : is_u8 x -> u8 x = x.
Proof. apply Z.mod_small. Qed.
Lemma u32_small x : is_u32 x -> u32 x = x.
Proof. apply Z.mod_small. Qed.
Lemma u64_small x : is_u64 x -> u64 x = x.
Proof. apply Z.mod_small. Qed.

(** Truncating to 64 bits first does not change the low 32 bits. *)
Lemma u32_u64 x : u32 (u64 x) = u32 x.
Proof.
  unfold u32, u64. change (2 ^ 64) with (2 ^ 32 * 2 ^ 32).
  rewrite Z.rem_mul_r by lia. rewrite (Z.mul_comm (2 ^ 32)), Z.mod_add by lia.
  by rewrite Z.mod_mod by lia.
Qed.

(** A negative difference wraps once. *)
Lemma u32_neg x : - 2 ^ 32 <= x < 0 -> u32 x = x + 2 ^ 32.
Proof. intros. symmetry. apply Z.mod_unique_pos with (-1); lia. Qed.

Lemma signed_range w x :
  0 < w -> - 2 ^ (w - 1) <= signed w x < 2 ^ (w - 1).
Proof.
  intros Hw. unfold signed.
  assert (2 ^ w = 2 * 2 ^ (w - 1)) as E.
  { rewrite <- Z.pow_succ_r by lia. f_equal. lia. }
  pose proof (Z.mod_pos_bound x (2 ^ w) ltac:(apply Z.pow_pos_nonneg; lia)).
  case (Z.ltb_spec (x mod 2 ^ w) (2 ^ (w - 1))); lia.
Qed.

Lemma signed_small w x :
  0 < w -> - 2 ^ (w - 1) <= x < 2 ^ (w - 1) -> signed w x = x.
Proof.
  intros Hw Hx. unfold signed.
  assert (2 ^ w = 2 * 2 ^ (w - 1)) as E.
  { rewrite <- Z.pow_succ_r by lia. f_equal. lia. }
  destruct (Z.ltb_spec x 0).
  - assert (x mod 2 ^ w = x + 2 ^ w) as ->.
    { symmetry. apply Z.mod_unique_pos with (-1); lia. }
    case (Z.ltb_spec (x + 2 ^ w) (2 ^ (w - 1))); lia.
  - rewrite Z.mod_small by lia.
    case (Z.ltb_spec x (2 ^ (w - 1))); lia.
Qed.

(** A signed value is congruent to the bits it was read from. *)
Lemma signed_mod w x : 0 < w -> signed w x mod 2 ^ w = x mod 2 ^ w.
Proof.
  intros Hw. unfold signed.
  assert (0 < 2 ^ w) by (apply Z.pow_pos_nonneg; lia).
  case (Z.ltb_spec (x mod 2 ^ w) (2 ^ (w - 1))); intros.
  - by rewrite Z.mod_mod by lia.
  - rewrite <- (Z.mod_add _ 1) by lia.
    rewrite Z.mul_1_l, Z.sub_add. by rewrite Z.mod_mod by lia.
Qed.

Lemma i64_small x : is_i64 x -> i64 x = x.
Proof. intros H. apply signed_small; [lia | exact H]. Qed.
Lemma i32_small x : is_i32 x -> i32 x = x.
Proof. intros H. apply signed_small; [lia | exact H]. Qed.
Lemma i64_range x : is_i64 (i64 x).
Proof. apply (signed_range 64); lia. Qed.
Lemma i32_range x : is_i32 (i32 x).
Proof. apply (signed_range 32); lia. Qed.
#[export] Hint Resolve i32_range i64_range : machine.

(** The bits of a signed value read back as that value. *)
Lemma signed_unsigned w x :
  0 < w -> - 2 ^ (w - 1) <= x < 2 ^ (w - 1) -> signed w (x mod 2 ^ w) = x.
Proof.
  intros Hw Hx. rewrite <- (signed_small w x Hw Hx) at 2.
  unfold signed. by rewrite Z.mod_mod by (apply Z.pow_nonzero; lia).
Qed.

(** *** Shifts and masks as division *)
Lemma shiftr_div x k : 0 <= k -> Z.shiftr x k = x / 2 ^ k.
Proof. apply Z.shiftr_div_pow2. Qed.

Lemma land_mask x k : 0 <= k -> Z.land x (2 ^ k - 1) = x mod 2 ^ k.
Proof.
  intros. rewrite <- Z.land_ones by done. f_equal. by rewrite Z.ones_equiv, Z.sub_1_r.
Qed.

(** A high part shifted over a low part does not overlap it: [lor] is [+]. *)
Lemma lor_shiftl_add hi lo k :
  0 <= k -> 0 <= lo < 2 ^ k -> Z.lor (Z.shiftl hi k) lo = hi * 2 ^ k + lo.
Proof.
  intros Hk Hlo.
  assert (Z.land (Z.shiftl hi k) lo = 0) as E.
  { apply Z.bits_inj'. intros n Hn. rewrite Z.land_spec, Z.bits_0.
    destruct (Z.ltb_spec n k).
    - rewrite Z.shiftl_spec_low by done. done.
    - rewrite <- (Z.mod_small lo (2 ^ k)) by done.
      rewrite Z.mod_pow2_bits_high by lia. by rewrite andb_false_r. }
  rewrite <- Z.lxor_lor by exact E. rewrite <- Z.add_nocarry_lxor by exact E.
  by rewrite Z.shiftl_mul_pow2 by done.
Qed.

Lemma div_mod_pow x k : 0 <= k -> x = x mod 2 ^ k + 2 ^ k * (x / 2 ^ k).
Proof.
  intros. rewrite Z.add_comm. apply Z.div_mod.
  apply Z.pow_nonzero; lia.
Qed.

(** ** C strings *)

(** The string in a buffer ends at its first NUL. *)
Fixpoint c_string (buf : list Z) : list Z :=
  match buf with
  | [] => []
  | c :: buf' => if c =? 0 then [] else c :: c_string buf'
  end.

Lemma c_string_id s : Forall (fun c => c <> 0) s -> c_string s = s.
Proof.
  induction 1 as [|c s Hc Hs IH]; [done|]. cbn [c_string].
  destruct (Z.eqb_spec c 0); [done|by rewrite IH].
Qed.

Lemma c_string_nonzero s : Forall (fun c => c <> 0) (c_string s).
Proof.
  induction s as [|c s IH]; [constructor|]. cbn [c_string].
  destruct (Z.eqb_spec c 0); by constructor.
Qed.

Lemma c_string_length s : (length (c_string s) <= length s)%nat.
Proof. induction s as [|c s IH]; [done|]. cbn [c_string]. destruct (c =? 0); simpl; lia. Qed.

Lemma c_string_Forall (P : Z -> Prop) s : Forall P s -> Forall P (c_string s).
Proof. induction 1 as [|c s Hc Hs IH]; [constructor|]. cbn [c_string]. destruct (c =? 0); by constructor. Qed.

(** ** Guards *)

Definition guarded_by {A} (b : bool) (k : option A) : option A := if b then k else None.
Definition obind {A B} (m : option A) (k : A -> option B) : option B := match m with Some a => k a | None => None end.
Notation "'let?' x ':=' m 'in' k" := (obind m (fun x => k)) (at level 10, x pattern, k at level 200).
Notation "'when' b ';' k" := (guarded_by b k) (at level 10, b at level 99, k at level 200).
