(* ===== verification/Doubles.v ===== *)
(** * Double precision numbers

    The C type [double]: its values are the 64 bits that stand for them, with
    the IEEE operations of the Standard Library. A result that is not a number
    is the quiet NaN. The file has the operations the interpreter and the
    compiler use, and the laws that constant folding relies on. *)

From S2P Require Import Prelude.
From Stdlib Require Import SpecFloat.

Open Scope Z_scope.

(** ** Operations *)

(** The number a double's bits stand for. *)
Definition double_of_bits (bits : Z) : spec_float :=
  let s := Z.testbit bits 63 in
  let e := Z.land (Z.shiftr bits 52) 2047 in
  let m := Z.land bits (2 ^ 52 - 1) in
  if e =? 0 then match m with Zpos p => S754_finite s p (-1074) | _ => S754_zero s end
  else if e =? 2047 then if m =? 0 then S754_infinity s else S754_nan
  else match m + 2 ^ 52 with Zpos p => S754_finite s p (e - 1075) | _ => S754_nan end.

Definition sign_bit (s : bool) : Z := if s then 2 ^ 63 else 0.
Definition bits_of_double (f : spec_float) : Z :=
  match f with
  | S754_zero s => sign_bit s
  | S754_infinity s => sign_bit s + Z.shiftl 2047 52
  | S754_nan => Z.shiftl 4095 51
  | S754_finite s m e =>
      sign_bit s + (if Zpos m <? 2 ^ 52 then Zpos m else Z.shiftl (e + 1075) 52 + (Zpos m - 2 ^ 52))
  end.

Inductive double_op := DAdd | DSub | DMul | DDiv.

Definition double_arith (op : double_op) (a b : Z) : Z :=
  let x := double_of_bits a in
  let y := double_of_bits b in
  bits_of_double
    (match op with
     | DAdd => SFadd 53 1024 x y
     | DSub => SFsub 53 1024 x y
     | DMul => SFmul 53 1024 x y
     | DDiv => SFdiv 53 1024 x y
     end).

Definition double_neg (a : Z) : Z := Z.lxor a (2 ^ 63).

Definition double_eq (a b : Z) : bool :=
  match SFcompare (double_of_bits a) (double_of_bits b) with Some Eq => true | _ => false end.

Inductive cmp_op := CLt | CLe | CGt | CGe.

Definition double_compare (op : cmp_op) (a b : Z) : bool :=
  match op, SFcompare (double_of_bits a) (double_of_bits b) with
  | (CLt | CLe), Some Lt | (CGt | CGe), Some Gt | (CLe | CGe), Some Eq => true
  | _, _ => false
  end.

Definition double_isnan (a : Z) : bool := match double_of_bits a with S754_nan => true | _ => false end.
Definition double_isinf (a : Z) : bool := match double_of_bits a with S754_infinity _ => true | _ => false end.

(** [(double)z] for an integer [z]. *)
Definition double_of_int (z : Z) : Z := bits_of_double (binary_normalize 53 1024 z 0 false).

(** The integer part of a finite double, towards zero. *)
Definition double_trunc (a : Z) : Z :=
  match double_of_bits a with
  | S754_finite s m e => cond_Zopp s (Z.shiftl (Zpos m) e)
  | _ => 0
  end.

(** The bits of 1.0. *)
Definition double_one : Z := Z.shiftl 1023 52.

(** ** Bits and numbers *)

Lemma digits2_log2 p : Zpos (digits2_pos p) = Z.log2 (Zpos p) + 1.
Proof.
  induction p as [p IH|p IH|]; [| |done]; cbn [digits2_pos]; rewrite Pos2Z.inj_succ, IH.
  - by rewrite Pos2Z.inj_xI, Z.log2_succ_double.
  - by rewrite Pos2Z.inj_xO, Z.log2_double.
Qed.

(** The fields of an encoding. *)
Lemma fields s e m : 0 <= e < 2 ^ 11 -> 0 <= m < 2 ^ 52 ->
  let a := sign_bit s + (Z.shiftl e 52 + m) in
  Z.testbit a 63 = s /\ Z.land (Z.shiftr a 52) 2047 = e /\ Z.land a (2 ^ 52 - 1) = m.
Proof.
  intros He Hm a. assert (a = Z.b2z s * 2 ^ 63 + e * 2 ^ 52 + m) as ->.
  { unfold a, sign_bit. rewrite Z.shiftl_mul_pow2 by lia. destruct s; simpl Z.b2z; lia. }
  change 2047 with (Z.ones 11). change (2 ^ 52 - 1) with (Z.ones 52).
  rewrite !Z.land_ones, Z.shiftr_div_pow2, Z.testbit_eqb by lia. split; [|split].
  - replace ((Z.b2z s * 2 ^ 63 + e * 2 ^ 52 + m) / 2 ^ 63) with (Z.b2z s); [by destruct s|].
    apply (Z.div_unique _ _ _ (e * 2 ^ 52 + m)); lia.
  - replace ((Z.b2z s * 2 ^ 63 + e * 2 ^ 52 + m) / 2 ^ 52) with (Z.b2z s * 2 ^ 11 + e).
    + symmetry. apply (Z.mod_unique _ _ (Z.b2z s)); lia.
    + apply (Z.div_unique _ _ _ m); lia.
  - symmetry. apply (Z.mod_unique _ _ (Z.b2z s * 2 ^ 11 + e)); lia.
Qed.

Definition valid (f : spec_float) : Prop := valid_binary 53 1024 f = true.

Lemma double_of_bits_valid a : valid (double_of_bits a).
Proof.
  unfold valid, double_of_bits, valid_binary, bounded, canonical_mantissa, fexp, emin.
  assert (0 <= Z.land (Z.shiftr a 52) 2047 < 2 ^ 11) as He.
  { change 2047 with (Z.ones 11). rewrite Z.land_ones by lia. apply Z.mod_pos_bound. lia. }
  assert (0 <= Z.land a (2 ^ 52 - 1) < 2 ^ 52) as Hm.
  { change (2 ^ 52 - 1) with (Z.ones 52). rewrite Z.land_ones by lia. apply Z.mod_pos_bound. lia. }
  set (e := Z.land (Z.shiftr a 52) 2047) in *. set (m := Z.land a (2 ^ 52 - 1)) in *.
  destruct (Z.eqb_spec e 0) as [E|E].
  - destruct m as [|p|p] eqn:Em; [done| |lia]. rewrite digits2_log2.
    assert (0 <= Z.log2 (Zpos p) < 52) by (split; [apply Z.log2_nonneg|apply Z.log2_lt_pow2; lia]).
    apply andb_true_iff; split; [apply Z.eqb_eq|apply Z.leb_le]; lia.
  - destruct (Z.eqb_spec e 2047); [by destruct (m =? 0)|].
    destruct (m + 2 ^ 52) as [|p|p] eqn:Em; [lia| |lia]. rewrite digits2_log2.
    assert (Z.log2 (Zpos p) = 52) as -> by (apply Z.log2_unique; lia).
    apply andb_true_iff; split; [apply Z.eqb_eq|apply Z.leb_le]; lia.
Qed.

Lemma bits_of_finite s m e : bounded 53 1024 m e = true -> double_of_bits (bits_of_double (S754_finite s m e)) = S754_finite s m e.
Proof.
  unfold bounded, canonical_mantissa, fexp, emin. rewrite digits2_log2. intros [Hc Hm]%andb_true_iff.
  apply Z.eqb_eq in Hc. apply Z.leb_le in Hm. pose proof (Z.log2_spec (Zpos m) ltac:(lia)) as Hl.
  pose proof (Z.log2_nonneg (Zpos m)). unfold bits_of_double. destruct (Z.ltb_spec (Zpos m) (2 ^ 52)) as [Hs|Hs].
  - assert (Z.log2 (Zpos m) < 52) by (apply Z.log2_lt_pow2; lia). assert (e = -1074) as -> by lia.
    destruct (fields s 0 (Zpos m)) as (H1 & H2 & H3); [lia..|]. change (Z.shiftl 0 52 + Zpos m) with (Zpos m) in *.
    unfold double_of_bits. by rewrite H1, H2, H3.
  - assert (52 <= Z.log2 (Zpos m)) by (apply Z.log2_le_pow2; lia). assert (Z.log2 (Zpos m) = 52) as E52 by lia.
    rewrite E52 in Hl. destruct (fields s (e + 1075) (Zpos m - 2 ^ 52)) as (H1 & H2 & H3); [lia..|].
    unfold double_of_bits. rewrite H1, H2, H3.
    destruct (Z.eqb_spec (e + 1075) 0); [lia|]. destruct (Z.eqb_spec (e + 1075) 2047); [lia|].
    replace (Zpos m - 2 ^ 52 + 2 ^ 52) with (Zpos m) by lia. f_equal. lia.
Qed.

Lemma bits_of_valid f : valid f -> double_of_bits (bits_of_double f) = f.
Proof. destruct f as [[]|[]| |s m e]; try reflexivity. apply bits_of_finite. Qed.

(** ** Laws *)

(** Addition and multiplication of doubles commute. *)
Lemma SFadd_comm prec emax x y : SFadd prec emax x y = SFadd prec emax y x.
Proof.
  destruct x as [[]|[]| |sx mx ex], y as [[]|[]| |sy my ey]; try done.
  unfold SFadd. by rewrite (Z.min_comm ey), (Z.add_comm (cond_Zopp sy _)).
Qed.
Lemma SFmul_comm prec emax x y : SFmul prec emax x y = SFmul prec emax y x.
Proof.
  destruct x, y; try done; unfold SFmul; rewrite xorb_comm; try done. by rewrite Pos.mul_comm, (Z.add_comm e0).
Qed.

(** Rounding a number that needs none, written with [k] bits more. *)
Lemma iter_pos_shr p : forall m, iter_pos shr_1 p (Build_shr_record (Zpos m * 2 ^ Zpos p) false false) = Build_shr_record (Zpos m) false false.
Proof.
  assert (forall q m, shr_1 (Build_shr_record (Zpos m * 2 ^ (Zpos q + 1)) false false) = Build_shr_record (Zpos m * 2 ^ Zpos q) false false) as H1.
  { intros q m. replace (Zpos m * 2 ^ (Zpos q + 1)) with (2 * (Zpos m * 2 ^ Zpos q)) by (rewrite Z.pow_add_r by lia; lia).
    by destruct (Zpos m * 2 ^ Zpos q) eqn:E; [lia| |lia]. }
  assert (forall q n m, (forall m, iter_pos shr_1 q (Build_shr_record (Zpos m * 2 ^ Zpos q) false false) = Build_shr_record (Zpos m) false false) ->
    iter_pos shr_1 q (Build_shr_record (Zpos m * 2 ^ (Zpos q + Zpos n)) false false) = Build_shr_record (Zpos m * 2 ^ Zpos n) false false) as H2.
  { intros q n m IH. replace (Zpos m * 2 ^ (Zpos q + Zpos n)) with ((Zpos m * 2 ^ Zpos n) * 2 ^ Zpos q) by (rewrite Z.pow_add_r by lia; lia).
    by destruct (Zpos m * 2 ^ Zpos n) eqn:E; [lia| |lia]. }
  induction p as [p IH|p IH|]; intros m; cbn [iter_pos].
  - replace (Zpos p~1) with (Zpos (p + p) + 1) by lia. rewrite H1.
    replace (Zpos (p + p)) with (Zpos p + Zpos p) by lia. by rewrite (H2 p p m IH).
  - replace (Zpos p~0) with (Zpos p + Zpos p) by lia. by rewrite (H2 p p m IH).
  - by replace (Zpos m * 2 ^ 1) with (Zpos m~0) by lia.
Qed.

Lemma round_exact s m e k : 0 <= k -> bounded 53 1024 m e = true ->
  binary_round_aux 53 1024 s (Zpos m * 2 ^ k) (e - k) loc_Exact = S754_finite s m e.
Proof.
  unfold bounded, canonical_mantissa. intros Hk [Hc Hm]%andb_true_iff. apply Z.eqb_eq in Hc.
  assert (shr_fexp 53 1024 (Zpos m * 2 ^ k) (e - k) loc_Exact = (Build_shr_record (Zpos m) false false, e)) as H1.
  { unfold shr_fexp. replace (Zdigits2 (Zpos m * 2 ^ k) + (e - k)) with (Zpos (digits2_pos m) + e).
    - rewrite Hc. replace (e - (e - k)) with k by lia. destruct k as [|k|k]; [|cbn [shr shr_record_of_loc]; rewrite iter_pos_shr; f_equal; lia|lia].
      cbn [shr shr_record_of_loc]. rewrite Z.pow_0_r, Z.mul_1_r. f_equal. lia.
    - destruct (Zpos m * 2 ^ k) as [|q|q] eqn:E; [lia| |lia]. cbn [Zdigits2]. rewrite !digits2_log2, <- E, Z.log2_mul_pow2 by lia. lia. }
  unfold binary_round_aux. rewrite H1. cbn [shr_m loc_of_shr_record round_nearest_even]. unfold shr_fexp. cbn [Zdigits2].
  rewrite Hc, Z.sub_diag. cbn [shr shr_record_of_loc shr_m]. by rewrite Hm.
Qed.

Lemma double_one_finite : double_of_bits double_one = S754_finite false (2 ^ 52) (-52).
Proof. reflexivity. Qed.

Lemma SFmul_one f : valid f -> SFmul 53 1024 f (double_of_bits double_one) = f.
Proof.
  rewrite double_one_finite. destruct f as [s|s| |s m e]; intros Hv; cbn [SFmul]; try (by rewrite xorb_false_r); try done.
  rewrite xorb_false_r. change (e + -52) with (e - 52). rewrite Pos2Z.inj_mul. by apply (round_exact s m e 52).
Qed.

Lemma SFdiv_one f : valid f -> SFdiv 53 1024 f (double_of_bits double_one) = f.
Proof.
  rewrite double_one_finite. destruct f as [s|s| |s m e]; intros Hv; cbn [SFdiv]; try (by rewrite xorb_false_r); try done.
  rewrite xorb_false_r. unfold valid, valid_binary in Hv. pose proof Hv as Hb. unfold bounded, canonical_mantissa, fexp, emin in Hb.
  apply andb_true_iff in Hb as [Hc _]. apply Z.eqb_eq in Hc.
  unfold SFdiv_core_binary. cbn [Zdigits2]. change (Zpos (digits2_pos (2 ^ 52))) with 53. unfold fexp, emin.
  set (d := Zpos (digits2_pos m)) in *. set (e' := Z.min _ _).
  assert (e' = e \/ e' = e - 1) as He' by lia. set (k := e - e'). assert (e - -52 - e' = 52 + k) as -> by lia.
  assert (0 <= k <= 1) as Hk by lia.
  assert (match 52 + k with Z0 => Zpos m | Zpos _ => Z.shiftl (Zpos m) (52 + k) | Zneg _ => 0 end = Zpos m * 2 ^ k * Zpos (2 ^ 52)) as ->.
  { destruct (52 + k) eqn:E; [lia| |lia]. rewrite <- E, Z.shiftl_mul_pow2 by lia.
    rewrite <- Z.mul_assoc. f_equal. rewrite Z.add_comm, Z.pow_add_r by lia. done. }
  assert (Z.div_eucl (Zpos m * 2 ^ k * Zpos (2 ^ 52)) (Zpos (2 ^ 52)) = (Zpos m * 2 ^ k, 0)) as ->.
  { pose proof (Z.div_mul (Zpos m * 2 ^ k) (Zpos (2 ^ 52)) ltac:(lia)) as H1. pose proof (Z.mod_mul (Zpos m * 2 ^ k) (Zpos (2 ^ 52)) ltac:(lia)) as H2.
    unfold Z.div, Z.modulo in H1, H2. destruct (Z.div_eucl _ _). congruence. }
  change (new_location (Zpos (2 ^ 52)) 0) with loc_Exact. assert (e' = e - k) as Hek by lia. rewrite Hek. apply round_exact; [lia|done].
Qed.

(** Two numbers that are the same up to the sign of zero. The bits of doubles
    that are close stand for such numbers; NaNs are all the same. *)
Definition near (f g : spec_float) : Prop := f = g \/ match f, g with S754_zero _, S754_zero _ => True | _, _ => False end.
Definition double_close (a b : Z) : Prop := near (double_of_bits a) (double_of_bits b).

#[global] Instance near_equivalence : Equivalence near.
Proof.
  unfold near. split.
  - by left.
  - intros f g [->|H]; [by left|right]. by destruct f, g.
  - intros f g h [->|H] [->|H']; [by left|by right|by right|right]. by destruct f, g, h.
Qed.
#[global] Instance double_close_equivalence : Equivalence double_close.
Proof.
  unfold double_close. split; [intros a; reflexivity|intros a b H; by symmetry|intros a b c H H'; by etransitivity].
Qed.

Lemma near_compare f f' g g' : near f f' -> near g g' -> SFcompare f g = SFcompare f' g'.
Proof. intros [->|H] [->|H']; destruct f', g'; try destruct f; try destruct g; done. Qed.

#[global] Instance double_eq_proper : Proper (double_close ==> double_close ==> eq) double_eq.
Proof. intros a a' H b b' H'. unfold double_eq. by rewrite (near_compare _ _ _ _ H H'). Qed.
#[global] Instance double_compare_proper op : Proper (double_close ==> double_close ==> eq) (double_compare op).
Proof. intros a a' H b b' H'. unfold double_compare. by rewrite (near_compare _ _ _ _ H H'). Qed.

Lemma double_eq_zero a : double_eq a 0 = true <-> exists s, double_of_bits a = S754_zero s.
Proof.
  unfold double_eq. change (double_of_bits 0) with (S754_zero false). destruct (double_of_bits a) as [s|[]| |[]]; cbn; split; try done; eauto; by intros [].
Qed.
Lemma double_eq_one a : double_eq a double_one = true -> double_of_bits a = double_of_bits double_one.
Proof.
  unfold double_eq. rewrite double_one_finite. destruct (double_of_bits a) as [|[]| |[] m e]; try done.
  cbn [SFcompare]. destruct (Z.compare_spec e (-52)) as [->| |]; try done.
  destruct (Pos.compare_cont Eq m (2 ^ 52)) eqn:E; try done. by apply Pos.compare_eq in E as ->.
Qed.

Definition special (f : spec_float) : bool := match f with S754_finite _ _ _ => false | _ => true end.
(** What [near_bits] needs of two results. *)
Definition agrees (f g : spec_float) : Prop := f = g \/ special f && special g = true /\ near f g.
Lemma near_bits f g : agrees f g -> near (double_of_bits (bits_of_double f)) (double_of_bits (bits_of_double g)).
Proof.
  intros [->|[E H]]; [reflexivity|]. apply andb_true_iff in E as [Ef Eg]. rewrite !bits_of_valid; [done|by destruct g|by destruct f].
Qed.

Definition double_fun (op : double_op) : spec_float -> spec_float -> spec_float :=
  match op with DAdd => SFadd 53 1024 | DSub => SFsub 53 1024 | DMul => SFmul 53 1024 | DDiv => SFdiv 53 1024 end.
Lemma double_arith_fun op a b : double_arith op a b = bits_of_double (double_fun op (double_of_bits a) (double_of_bits b)).
Proof. by destruct op. Qed.

Ltac agree := first [left; reflexivity | right; split; [reflexivity|first [left; reflexivity | right; exact I]]].
Lemma agrees_zero_left op s s' g : agrees (double_fun op (S754_zero s) g) (double_fun op (S754_zero s') g).
Proof. destruct op, s, s', g as [[]|[]| |[] ? ?]; agree. Qed.
Lemma agrees_zero_right op s s' f : op <> DDiv -> agrees (double_fun op f (S754_zero s)) (double_fun op f (S754_zero s')).
Proof. intros H. destruct op; [..|done]; destruct s, s', f as [[]|[]| |[] ? ?]; agree. Qed.

(** The operations do not tell zeros apart, if the divisor is not zero. *)
Lemma double_arith_close op a a' b b' :
  (op = DDiv -> double_eq b 0 = false) -> double_close a a' -> double_close b b' -> double_close (double_arith op a b) (double_arith op a' b').
Proof.
  intros Hd Ha Hb. transitivity (double_arith op a' b); rewrite !double_arith_fun; unfold double_close in *.
  - destruct Ha as [->|Ha]; [reflexivity|]. apply near_bits.
    destruct (double_of_bits a), (double_of_bits a'); try done. apply agrees_zero_left.
  - destruct Hb as [->|Hb]; [reflexivity|]. apply near_bits. destruct (double_of_bits b) as [s| | |] eqn:Eb, (double_of_bits b'); try done.
    apply agrees_zero_right. intros E. specialize (Hd E). assert (double_eq b 0 = true) by (apply double_eq_zero; eauto). congruence.
Qed.

(** Adding zero, subtracting it, and multiplying and dividing by one. *)
Lemma double_add_zero a b : double_eq b 0 = true -> double_close (double_arith DAdd a b) a.
Proof.
  intros [s H]%double_eq_zero. unfold double_close, double_arith. rewrite H. pose proof (double_of_bits_valid a) as Hv.
  assert (near (SFadd 53 1024 (double_of_bits a) (S754_zero s)) (double_of_bits a) /\ valid (SFadd 53 1024 (double_of_bits a) (S754_zero s))) as [Hn Hr].
  { destruct (double_of_bits a) as [[]|[]| |], s; split; try done; try (by left); by right. }
  by rewrite bits_of_valid.
Qed.
Lemma double_sub_zero a b : double_eq b 0 = true -> double_close (double_arith DSub a b) a.
Proof.
  intros [s H]%double_eq_zero. unfold double_close, double_arith. rewrite H. pose proof (double_of_bits_valid a) as Hv.
  assert (near (SFsub 53 1024 (double_of_bits a) (S754_zero s)) (double_of_bits a) /\ valid (SFsub 53 1024 (double_of_bits a) (S754_zero s))) as [Hn Hr].
  { destruct (double_of_bits a) as [[]|[]| |], s; split; try done; try (by left); by right. }
  by rewrite bits_of_valid.
Qed.
Lemma double_add_comm a b : double_arith DAdd a b = double_arith DAdd b a.
Proof. unfold double_arith. by rewrite SFadd_comm. Qed.
Lemma double_mul_comm a b : double_arith DMul a b = double_arith DMul b a.
Proof. unfold double_arith. by rewrite SFmul_comm. Qed.
Lemma double_mul_one a b : double_eq b double_one = true -> double_close (double_arith DMul a b) a.
Proof.
  intros H%double_eq_one. unfold double_close, double_arith. pose proof (double_of_bits_valid a).
  rewrite H, SFmul_one, bits_of_valid by done. reflexivity.
Qed.
Lemma double_div_one a b : double_eq b double_one = true -> double_close (double_arith DDiv a b) a.
Proof.
  intros H%double_eq_one. unfold double_close, double_arith. pose proof (double_of_bits_valid a).
  rewrite H, SFdiv_one, bits_of_valid by done. reflexivity.
Qed.

(** ** Integers as doubles *)

Lemma shr_m_1 r : 0 <= shr_m r -> shr_m (shr_1 r) = shr_m r / 2.
Proof.
  destruct r as [[|[p|p|]|] ? ?]; cbn [shr_1 shr_m]; intros H; try lia; try done;
    [apply (Z.div_unique _ _ _ 1)|apply (Z.div_unique _ _ _ 0)]; lia.
Qed.
Lemma shr_m_iter k : forall r, 0 <= shr_m r -> shr_m (iter_pos shr_1 k r) = shr_m r / 2 ^ Zpos k.
Proof.
  assert (forall x a b, 0 <= x -> x / 2 ^ Zpos a / 2 ^ Zpos b = x / 2 ^ (Zpos a + Zpos b)) as Hd
    by (intros; rewrite Z.div_div, <- Z.pow_add_r by lia; done).
  induction k as [k IH|k IH|]; intros r Hr; cbn [iter_pos]; [| |by apply shr_m_1].
  - pose proof (shr_m_1 r Hr) as H1. assert (0 <= shr_m (shr_1 r)) as H0 by (rewrite H1; apply Z.div_pos; lia).
    pose proof (IH _ H0) as H2. rewrite IH, H2, H1, Hd by (rewrite ?H2, <- ?H1; try apply Z.div_pos; lia).
    rewrite Z.div_div by lia. f_equal.
    replace (Zpos k~1) with (Z.succ (Zpos k + Zpos k)) by lia. rewrite Z.pow_succ_r by lia. done.
  - pose proof (IH r Hr) as H1. rewrite IH, H1, Hd by (rewrite ?H1; try apply Z.div_pos; lia). do 2 f_equal. lia.
Qed.

(** The significand of 53 bits that [shr_fexp] leaves. *)
Lemma shr_fexp_53 m e l : 2 ^ 52 <= m -> -1074 <= e ->
  exists r, shr_fexp 53 1024 m e l = (r, e + (Z.log2 m - 52)) /\ shr_m r = m / 2 ^ (Z.log2 m - 52).
Proof.
  intros Hm He. assert (52 <= Z.log2 m) as Hl by (apply Z.log2_le_pow2; lia).
  assert (shr_m (shr_record_of_loc m l) = m) as Hr by (destruct l as [|[]]; done).
  unfold shr_fexp. destruct m as [|p|]; [lia| |lia]. cbn [Zdigits2]. rewrite digits2_log2. unfold fexp, emin.
  replace (Z.max (Z.log2 (Zpos p) + 1 + e - 53) (3 - 1024 - 53) - e) with (Z.log2 (Zpos p) - 52) by lia.
  destruct (Z.log2 (Zpos p) - 52) as [|k|] eqn:E; [| |lia]; cbn [shr].
  - eexists. split; [f_equal; lia|]. by rewrite Hr, Z.pow_0_r, Z.div_1_r.
  - eexists. split; [done|]. by rewrite shr_m_iter, Hr by (rewrite Hr; lia).
Qed.

Lemma round_large s m e : 2 ^ 52 <= m -> -1074 <= e ->
  binary_round_aux 53 1024 s m e loc_Exact = S754_infinity s \/
  exists m' e', binary_round_aux 53 1024 s m e loc_Exact = S754_finite s m' e' /\ bounded 53 1024 m' e' = true.
Proof.
  intros Hm He. assert (52 <= Z.log2 m) as Hl by (apply Z.log2_le_pow2; lia).
  destruct (shr_fexp_53 m e loc_Exact Hm He) as (r & Hr & Hrm). unfold binary_round_aux. rewrite Hr.
  assert (2 ^ 52 <= shr_m r < 2 ^ 53) as Hb.
  { rewrite Hrm. pose proof (Z.log2_spec m ltac:(lia)) as [H1 H2].
    split; [apply Z.div_le_lower_bound|apply Z.div_lt_upper_bound]; try lia; rewrite <- Z.pow_add_r by lia.
    - by replace (Z.log2 m - 52 + 52) with (Z.log2 m) by lia.
    - by replace (Z.log2 m - 52 + 53) with (Z.succ (Z.log2 m)) by lia. }
  set (e1 := e + _). set (m2 := round_nearest_even _ _).
  assert (2 ^ 52 <= m2 <= 2 ^ 53) as Hb2.
  { unfold m2, round_nearest_even. destruct (loc_of_shr_record r) as [|[]]; try lia. destruct (Z.even _); lia. }
  destruct (shr_fexp_53 m2 e1 loc_Exact ltac:(lia) ltac:(lia)) as (r2 & Hr2 & Hrm2). rewrite Hr2.
  assert (2 ^ 52 <= shr_m r2 < 2 ^ 53 /\ 52 <= Z.log2 m2) as [Hb3 Hl2].
  { rewrite Hrm2. destruct (decide (m2 = 2 ^ 53)) as [->|]; [split; vm_compute; done|].
    assert (Z.log2 m2 = 52) as -> by (apply Z.log2_unique; lia). rewrite Z.sub_diag, Z.pow_0_r, Z.div_1_r. lia. }
  destruct (shr_m r2) as [|m3|] eqn:E3; [lia| |lia]. destruct (Z.leb_spec (e1 + (Z.log2 m2 - 52)) (1024 - 53)) as [H|]; [right|by left].
  do 2 eexists. split; [done|]. unfold bounded, canonical_mantissa. rewrite digits2_log2.
  assert (Z.log2 (Zpos m3) = 52) as -> by (apply Z.log2_unique; lia). unfold fexp, emin.
  apply andb_true_iff; split; [apply Z.eqb_eq|apply Z.leb_le]; lia.
Qed.

Lemma iter_xO p k : Zpos (Pos.iter xO p k) = Zpos p * 2 ^ Zpos k.
Proof.
  induction k as [|k IH] using Pos.peano_ind; [by rewrite Z.pow_1_r, Z.mul_comm|].
  rewrite Pos.iter_succ, Pos2Z.inj_xO, IH, Pos2Z.inj_succ, Z.pow_succ_r by lia. lia.
Qed.

(** An integer is rounded to a number that is not zero. *)
Lemma round_int s p : binary_round 53 1024 s p 0 = S754_infinity s \/
  exists m e, binary_round 53 1024 s p 0 = S754_finite s m e /\ bounded 53 1024 m e = true.
Proof.
  unfold binary_round. rewrite digits2_log2. unfold shl_align, fexp, emin. pose proof (Z.log2_nonneg (Zpos p)) as H0.
  pose proof (Z.log2_spec (Zpos p) ltac:(lia)) as [H1 _].
  replace (Z.max (Z.log2 (Zpos p) + 1 + 0 - 53) (3 - 1024 - 53) - 0) with (Z.log2 (Zpos p) - 52) by lia.
  destruct (Z.log2 (Zpos p) - 52) as [|k|k] eqn:E.
  1,2: apply round_large; [|lia]; etransitivity; [|exact H1]; apply Z.pow_le_mono_r; lia.
  apply round_large; [|lia]. rewrite iter_xO. replace 52 with (Z.log2 (Zpos p) + Zpos k) by lia.
  rewrite Z.pow_add_r by lia. apply Z.mul_le_mono_nonneg_r; lia.
Qed.
Lemma double_of_int_zero x : double_eq (double_of_int x) 0 = (x =? 0).
Proof.
  assert (forall s p, double_eq (bits_of_double (binary_round 53 1024 s p 0)) 0 = false) as H.
  { intros s p. apply not_true_iff_false. intros [s' Hz]%double_eq_zero. destruct (round_int s p) as [Hr|(m & e & Hr & Hb)]; rewrite Hr in Hz.
    - by rewrite bits_of_valid in Hz.
    - by rewrite bits_of_finite in Hz. }
  destruct x as [|p|p]; [reflexivity|apply H..].
Qed.
