(* ===== verification/BigIntLimbs.v ===== *)
(** * Limb arithmetic of [src/src/bigint.c]

    A magnitude is an array of 32-bit limbs, least significant first, with a
    count; it is the list of its [count] limbs here. The loops over an index
    are recursions over the limbs in the same order; a read past the end of an
    operand ([i < a_count ? a[i] : 0]) is the head of an empty list. All
    intermediate values are truncated to the width the C code computes them
    in, and the lemmas show that nothing is lost by that. *)

From S2P Require Import Prelude.

Notation BASE := 4294967296.

Fixpoint limbs_val (l : list Z) : Z :=
  match l with
  | [] => 0
  | x :: l' => x + BASE * limbs_val l'
  end.

Definition wf_limbs (l : list Z) : Prop := Forall is_u32 l.

(** Weight of the limb at index [n]. *)
Definition weight (n : nat) : Z := 2 ^ (32 * Z.of_nat n).

(** No leading zero limb: what [bigint_trim_count] establishes. *)
Definition normalized (l : list Z) : Prop := nth (pred (length l)) l 1 <> 0.

(** ** The operations *)

Fixpoint bigint_trim_count (limbs : list Z) (count : nat) : nat :=
  match count with
  | O => O
  | S c => if nth c limbs 0 =? 0 then bigint_trim_count limbs c else S c
  end.

Definition trim (limbs : list Z) : list Z :=
  take (bigint_trim_count limbs (length limbs)) limbs.

Fixpoint compare_from (i : nat) (a b : list Z) : Z :=
  match i with
  | O => 0
  | S k =>
      let av := nth k a 0 in
      let bv := nth k b 0 in
      if av <? bv then -1 else if bv <? av then 1 else compare_from k a b
  end.

Definition bigint_compare_abs_limbs (a b : list Z) : Z :=
  if (length a <? length b)%nat then -1
  else if (length b <? length a)%nat then 1
  else compare_from (length a) a b.

Fixpoint add_loop (n : nat) (a b : list Z) (carry : Z) : list Z * Z :=
  match n with
  | O => ([], carry)
  | S n' =>
      let sum := u64 (u64 (carry + hd 0 a) + hd 0 b) in
      let '(out, c) := add_loop n' (tl a) (tl b) (Z.shiftr sum 32) in
      (u32 sum :: out, c)
  end.

Definition bigint_add_abs_limbs (a b : list Z) : list Z :=
  let '(out, carry) := add_loop (max (length a) (length b)) a b 0 in
  trim (if carry =? 0 then out else out ++ [u32 carry]).

Fixpoint sub_loop (n : nat) (a b : list Z) (borrow : Z) : list Z * Z :=
  match n with
  | O => ([], borrow)
  | S n' =>
      let av := hd 0 a in
      let sub := u64 (hd 0 b + borrow) in
      let borrow' := if av <? sub then 1 else 0 in
      let '(out, c) := sub_loop n' (tl a) (tl b) borrow' in
      (u32 (u64 (av - sub)) :: out, c)
  end.

Definition bigint_sub_abs_limbs (a b : list Z) : list Z :=
  trim (fst (sub_loop (length a) a b 0)).

(** [while (carry != 0 && k < len)]: [out] is the array from index [k] on. *)
Fixpoint carry_loop (out : list Z) (carry : Z) : list Z :=
  match out with
  | [] => []
  | o :: out' =>
      if carry =? 0 then out
      else let cur := u64 (o + carry) in
           u32 cur :: carry_loop out' (Z.shiftr cur 32)
  end.

(** One pass of the outer loop of the product; [out] is the array from index
    [i] on. *)
Fixpoint mul_row (ai : Z) (b out : list Z) (carry : Z) : list Z :=
  match b, out with
  | bj :: b', o :: out' =>
      let cur := u64 (u64 (o + u64 (ai * bj)) + carry) in
      u32 cur :: mul_row ai b' out' (Z.shiftr cur 32)
  | _, _ => carry_loop out carry
  end.

Fixpoint mul_rows (a b out : list Z) : list Z :=
  match a with
  | [] => out
  | ai :: a' =>
      match mul_row ai b out 0 with
      | [] => []
      | o :: out' => o :: mul_rows a' b out'
      end
  end.

Definition bigint_mul_abs_limbs (a b : list Z) : list Z :=
  match a, b with
  | [], _ | _, [] => []
  | _, _ => trim (mul_rows a b (replicate (length a + length b + 1) 0))
  end.

Fixpoint mul_small_loop (a : list Z) (m carry : Z) : list Z * Z :=
  match a with
  | [] => ([], carry)
  | x :: a' =>
      let cur := u64 (u64 (x * m) + carry) in
      let '(out, c) := mul_small_loop a' m (Z.shiftr cur 32) in
      (u32 cur :: out, c)
  end.

Definition bigint_mul_small (a : list Z) (m : Z) : list Z :=
  match a with
  | [] => []
  | _ =>
      if m =? 0 then []
      else let '(out, carry) := mul_small_loop a m 0 in
           if carry =? 0 then out else out ++ [u32 carry]
  end.

Definition bigint_mul_add_small_inplace (limbs : list Z) (m add : Z) : list Z :=
  match limbs with
  | [] => if add =? 0 then [] else [add]
  | _ =>
      let '(out, carry) := mul_small_loop limbs m add in
      trim (if carry =? 0 then out else out ++ [u32 carry])
  end.

(** The loop runs from the most significant limb down: the remainder of the
    higher limbs is computed first. *)
Fixpoint divmod_small_loop (a : list Z) (d : Z) : list Z * Z :=
  match a with
  | [] => ([], 0)
  | x :: a' =>
      let '(q, rem) := divmod_small_loop a' d in
      let cur := Z.lor (u64 (Z.shiftl rem 32)) x in
      (u32 (cur / d) :: q, cur mod d)
  end.

Definition bigint_divmod_small (a : list Z) (d : Z) : list Z * Z :=
  let '(q, rem) := divmod_small_loop a d in (trim q, u32 rem).

Definition bigint_divmod_small_inplace (limbs : list Z) (d : Z) : list Z * Z :=
  if d =? 0 then ([], 0) else bigint_divmod_small limbs d.

(** [u] is the dividend from index [j] on; the result tells whether the
    difference was negative. *)
Fixpoint bigint_sub_mul (u v : list Z) (qhat carry borrow : Z) : list Z * bool :=
  match v, u with
  | vi :: v', ui :: u' =>
      let p := u64 (u64 (qhat * vi) + carry) in
      let t := ui - u32 p - borrow in
      let t' := if t <? 0 then t + BASE else t in
      let borrow' := if t <? 0 then 1 else 0 in
      let '(out, neg) := bigint_sub_mul u' v' qhat (Z.shiftr p 32) borrow' in
      (u32 t' :: out, neg)
  | [], ui :: u' =>
      let t := ui - carry - borrow in
      if t <? 0 then (u32 (t + BASE) :: u', true) else (u32 t :: u', false)
  | _, [] => ([], false)
  end.

Fixpoint bigint_add_back (u v : list Z) (carry : Z) : list Z :=
  match v, u with
  | vi :: v', ui :: u' =>
      let sum := u64 (u64 (ui + vi) + carry) in
      u32 sum :: bigint_add_back u' v' (Z.shiftr sum 32)
  | _, _ => carry_loop u carry
  end.

(** ** Values and weights *)

Lemma weight_0 : weight 0 = 1.
Proof. done. Qed.

Lemma weight_S n : weight (S n) = BASE * weight n.
Proof.
  unfold weight. replace (32 * Z.of_nat (S n)) with (32 + 32 * Z.of_nat n) by lia.
  rewrite Z.pow_add_r by lia. done.
Qed.

Lemma weight_pos n : 0 < weight n.
Proof. apply Z.pow_pos_nonneg; lia. Qed.

Lemma weight_add n m : weight (n + m) = weight n * weight m.
Proof.
  unfold weight. rewrite <- Z.pow_add_r by lia. f_equal. lia.
Qed.

Lemma weight_mono n m : (n <= m)%nat -> weight n <= weight m.
Proof. intros. unfold weight. apply Z.pow_le_mono_r; lia. Qed.

#[global] Opaque weight.

(** A 64-bit value is its low limb plus its carry. *)
Lemma split32 s :
  is_u64 s ->
  s = u32 s + BASE * Z.shiftr s 32 /\ is_u32 (u32 s) /\ is_u32 (Z.shiftr s 32).
Proof.
  intros H. rewrite shiftr_div by lia. unfold u32, is_u64, is_u32 in *. zpow.
  pose proof (Z.div_mod s BASE). pose proof (Z.mod_pos_bound s BASE).
  split_and!; lia || (try apply Z.div_pos; lia) || apply Z.div_lt_upper_bound; lia.
Qed.

(** Names the low limb and the carry of [s] in the goal. *)
Ltac split_limb s lo hi :=
  let H := fresh in
  destruct (split32 s) as (H & ? & ?); [try zbounds |
    set (lo := u32 s) in *; set (hi := Z.shiftr s 32) in *;
    clearbody lo hi; unfold is_u32 in *; zpow].

Lemma wf_limbs_cons x l : wf_limbs (x :: l) <-> is_u32 x /\ wf_limbs l.
Proof. apply Forall_cons_iff. Qed.

Lemma wf_limbs_hd l : wf_limbs l -> is_u32 (hd 0 l).
Proof. destruct l; [intros; simpl; zbounds | by intros [? _]%wf_limbs_cons]. Qed.

Lemma wf_limbs_tl l : wf_limbs l -> wf_limbs (tl l).
Proof. destruct l; [done | by intros [_ ?]%wf_limbs_cons]. Qed.

Lemma wf_limbs_app l1 l2 : wf_limbs (l1 ++ l2) <-> wf_limbs l1 /\ wf_limbs l2.
Proof. apply Forall_app. Qed.

Lemma wf_limbs_nth l i d : wf_limbs l -> is_u32 d -> is_u32 (nth i l d).
Proof.
  intros Hl Hd. revert i. induction Hl; intros [|i]; simpl; auto.
Qed.

Lemma wf_limbs_take n l : wf_limbs l -> wf_limbs (take n l).
Proof. apply Forall_take. Qed.

Lemma wf_limbs_drop n l : wf_limbs l -> wf_limbs (drop n l).
Proof. apply Forall_drop. Qed.

Lemma wf_limbs_zeros n : wf_limbs (replicate n 0).
Proof. apply Forall_replicate. zbounds. Qed.

Create HintDb limbs.
#[export] Hint Resolve wf_limbs_hd wf_limbs_tl wf_limbs_take wf_limbs_drop
  wf_limbs_zeros u32_range : limbs.

Lemma limbs_val_hd_tl l : limbs_val l = hd 0 l + BASE * limbs_val (tl l).
Proof. by destruct l. Qed.

Lemma limbs_val_app l1 l2 :
  limbs_val (l1 ++ l2) = limbs_val l1 + weight (length l1) * limbs_val l2.
Proof.
  induction l1 as [|x l1 IH]; simpl; [rewrite weight_0; lia|].
  rewrite IH, weight_S. ring.
Qed.

Lemma limbs_val_bound l : wf_limbs l -> 0 <= limbs_val l < weight (length l).
Proof.
  induction 1 as [|x l Hx _ IH]; simpl; [rewrite weight_0; lia|].
  rewrite weight_S. zbounds.
Qed.

Lemma limbs_val_zeros n : limbs_val (replicate n 0) = 0.
Proof. induction n; simpl; lia. Qed.

Lemma limbs_val_take_drop n l :
  (n <= length l)%nat ->
  limbs_val l = limbs_val (take n l) + weight n * limbs_val (drop n l).
Proof.
  intros. rewrite <- (take_drop n l) at 1.
  rewrite limbs_val_app, length_take, Nat.min_l by lia. done.
Qed.

(** ** Trimming *)

Lemma trim_count_le l n : (bigint_trim_count l n <= n)%nat.
Proof. induction n; simpl; [lia|]. case_match; lia. Qed.

Lemma trim_count_app l l' n :
  (n <= length l)%nat -> bigint_trim_count (l ++ l') n = bigint_trim_count l n.
Proof.
  induction n; simpl; intros; [done|].
  rewrite app_nth1 by lia. rewrite IHn by lia. done.
Qed.

Lemma trim_snoc l x : trim (l ++ [x]) = if x =? 0 then trim l else l ++ [x].
Proof.
  unfold trim. rewrite length_app. replace (length l + length [x])%nat with (S (length l)) by (simpl; lia).
  simpl. rewrite app_nth2, Nat.sub_diag by lia. simpl.
  destruct (x =? 0).
  - rewrite trim_count_app by lia. apply take_app_le. apply trim_count_le.
  - apply take_ge. rewrite length_app. simpl. lia.
Qed.

Lemma trim_val l : limbs_val (trim l) = limbs_val l.
Proof.
  induction l as [|x l IH] using rev_ind; [done|].
  rewrite trim_snoc. destruct (Z.eqb_spec x 0) as [->|]; [|done].
  rewrite IH, limbs_val_app. simpl. lia.
Qed.

Lemma trim_wf l : wf_limbs l -> wf_limbs (trim l).
Proof. apply wf_limbs_take. Qed.

Lemma trim_length l : (length (trim l) <= length l)%nat.
Proof. unfold trim. rewrite length_take. lia. Qed.

Lemma normalized_nil : normalized [].
Proof. done. Qed.

Lemma normalized_snoc l x : normalized (l ++ [x]) <-> x <> 0.
Proof.
  unfold normalized. rewrite length_app. simpl.
  replace (pred (length l + 1)) with (length l) by lia.
  by rewrite app_nth2, Nat.sub_diag by lia.
Qed.

Lemma trim_normalized l : normalized (trim l).
Proof.
  induction l as [|x l IH] using rev_ind; [done|].
  rewrite trim_snoc. destruct (Z.eqb_spec x 0); [done|]. by apply normalized_snoc.
Qed.

Lemma trim_id l : normalized l -> trim l = l.
Proof.
  destruct l as [|x l _] using rev_ind; [done|].
  intros H%normalized_snoc. rewrite trim_snoc. by case (Z.eqb_spec x 0).
Qed.

#[export] Hint Resolve trim_wf trim_normalized normalized_nil : limbs.

(** The length of a normalized magnitude is fixed by its value. *)
Lemma normalized_lower l :
  wf_limbs l -> normalized l -> l <> [] -> weight (pred (length l)) <= limbs_val l.
Proof.
  destruct l as [|x l _] using rev_ind; [done|]. intros [Hl Hx]%wf_limbs_app Hn _.
  apply normalized_snoc in Hn. apply wf_limbs_cons in Hx as [Hx _].
  rewrite length_app, limbs_val_app. simpl.
  replace (pred (length l + 1)) with (length l) by lia.
  pose proof (limbs_val_bound l Hl). pose proof (weight_pos (length l)).
  assert (1 <= x) by zbounds. nia.
Qed.

Lemma normalized_length_lt a b :
  wf_limbs a -> wf_limbs b -> normalized b ->
  (length a < length b)%nat -> limbs_val a < limbs_val b.
Proof.
  intros Ha Hb Hn Hlt.
  pose proof (limbs_val_bound a Ha).
  pose proof (normalized_lower b Hb Hn ltac:(by destruct b; simpl in *; [lia|])).
  pose proof (weight_mono (length a) (pred (length b)) ltac:(lia)). lia.
Qed.

Lemma limbs_val_zero_nil l : wf_limbs l -> normalized l -> limbs_val l = 0 -> l = [].
Proof.
  intros Hl Hn H0. destruct l as [|x l]; [done|].
  pose proof (normalized_lower _ Hl Hn ltac:(done)).
  pose proof (weight_pos (pred (length (x :: l)))). lia.
Qed.

Lemma limbs_val_inj_len a b :
  wf_limbs a -> wf_limbs b -> length a = length b ->
  limbs_val a = limbs_val b -> a = b.
Proof.
  intros Ha. revert b. induction Ha as [|x a Hx Ha IH]; intros [|y b] Hb Hlen Hv; try done.
  apply wf_limbs_cons in Hb as [Hy Hb]. simpl in *.
  assert (x = y /\ limbs_val a = limbs_val b) as [-> ?] by zbounds.
  f_equal. apply IH; [done|lia|done].
Qed.

(** A value has one normalized magnitude. *)
Lemma limbs_val_inj a b :
  wf_limbs a -> wf_limbs b -> normalized a -> normalized b ->
  limbs_val a = limbs_val b -> a = b.
Proof.
  intros Ha Hb Hna Hnb Hv.
  destruct (Nat.lt_trichotomy (length a) (length b)) as [Hl | [Hl | Hl]].
  - pose proof (normalized_length_lt a b Ha Hb Hnb Hl). lia.
  - by apply limbs_val_inj_len.
  - pose proof (normalized_length_lt b a Hb Ha Hna Hl). lia.
Qed.

(** ** Comparison *)

(** The C convention: [-1], [0] or [1]. *)
Definition cmp_code (c : comparison) : Z :=
  match c with Lt => -1 | Eq => 0 | Gt => 1 end.

Lemma compare_from_spec i a b :
  wf_limbs a -> wf_limbs b -> (i <= length a)%nat -> (i <= length b)%nat ->
  compare_from i a b = cmp_code (limbs_val (take i a) ?= limbs_val (take i b)).
Proof.
  intros Ha Hb. induction i as [|i IH]; intros Hla Hlb; [done|].
  assert (forall l, wf_limbs l -> (S i <= length l)%nat ->
    limbs_val (take (S i) l) = limbs_val (take i l) + weight i * nth i l 0
    /\ 0 <= limbs_val (take i l) < weight i) as Hstep.
  { intros l Hl Hlen. split.
    - rewrite (take_S_r _ _ (nth i l 0)), limbs_val_app, length_take, Nat.min_l by
        (lia || (apply nth_lookup_Some_2 || (rewrite nth_lookup; destruct (lookup_lt_is_Some_2 l i ltac:(lia)) as [y Hy]; by rewrite Hy))).
      simpl. lia.
    - pose proof (limbs_val_bound (take i l) ltac:(auto with limbs)) as H.
      rewrite length_take, Nat.min_l in H by lia. done. }
  destruct (Hstep a Ha Hla) as [-> Ba], (Hstep b Hb Hlb) as [-> Bb].
  simpl. rewrite IH by lia.
  pose proof (weight_pos i).
  destruct (Z.ltb_spec (nth i a 0) (nth i b 0)).
  { symmetry. assert (limbs_val (take i a) + weight i * nth i a 0 < limbs_val (take i b) + weight i * nth i b 0) as Hlt by nia.
    apply Z.compare_lt_iff in Hlt. by rewrite Hlt. }
  destruct (Z.ltb_spec (nth i b 0) (nth i a 0)).
  { symmetry. assert (limbs_val (take i b) + weight i * nth i b 0 < limbs_val (take i a) + weight i * nth i a 0) as Hlt by nia.
    apply Z.compare_gt_iff in Hlt. by rewrite Hlt. }
  assert (nth i a 0 = nth i b 0) as -> by lia.
  by rewrite (Z.add_comm (limbs_val (take i a))), (Z.add_comm (limbs_val (take i b))), Z.add_compare_mono_l.
Qed.

(** On normalized magnitudes the limb comparison is the comparison of values. *)
Lemma compare_abs_limbs_spec a b :
  wf_limbs a -> wf_limbs b -> normalized a -> normalized b ->
  bigint_compare_abs_limbs a b = cmp_code (limbs_val a ?= limbs_val b).
Proof.
  intros Ha Hb Hna Hnb. unfold bigint_compare_abs_limbs.
  destruct (Nat.ltb_spec (length a) (length b)) as [Hl|Hl].
  { pose proof (normalized_length_lt a b Ha Hb Hnb Hl) as H.
    apply Z.compare_lt_iff in H. by rewrite H. }
  destruct (Nat.ltb_spec (length b) (length a)) as [Hl'|Hl'].
  { pose proof (normalized_length_lt b a Hb Ha Hna Hl') as H.
    apply Z.compare_gt_iff in H. by rewrite H. }
  rewrite compare_from_spec by (done || lia).
  by rewrite !take_ge by lia.
Qed.

Lemma cmp_code_neg x y : cmp_code (x ?= y) < 0 <-> x < y.
Proof. destruct (Z.compare_spec x y); simpl; lia. Qed.
Lemma cmp_code_zero x y : cmp_code (x ?= y) = 0 <-> x = y.
Proof. destruct (Z.compare_spec x y); simpl; lia. Qed.
Lemma cmp_code_pos x y : 0 < cmp_code (x ?= y) <-> y < x.
Proof. destruct (Z.compare_spec x y); simpl; lia. Qed.

(** ** Sum and difference *)

Lemma add_loop_spec n a b carry out c :
  wf_limbs a -> wf_limbs b -> 0 <= carry <= 1 ->
  (length a <= n)%nat -> (length b <= n)%nat ->
  add_loop n a b carry = (out, c) ->
  limbs_val out + weight n * c = limbs_val a + limbs_val b + carry /\
  wf_limbs out /\ length out = n /\ 0 <= c <= 1.
Proof.
  revert a b carry out c.
  induction n as [|n IH]; intros a b carry out c Ha Hb Hc Hla Hlb H; simpl in H.
  { simplify_eq. destruct a, b; simpl in *; try lia. rewrite weight_0. split_and!; lia || constructor. }
  pose proof (wf_limbs_hd a Ha). pose proof (wf_limbs_hd b Hb).
  rewrite (u64_small (carry + hd 0 a)), u64_small in H by zbounds.
  set (s := carry + hd 0 a + hd 0 b) in *.
  assert (0 <= s < 2 * BASE) as Hs by zbounds.
  destruct (add_loop n (tl a) (tl b) (Z.shiftr s 32)) as [out' c'] eqn:E.
  split_limb s lo hi.
  apply IH in E as (Hv & Hw & Hl & Hc'); auto with limbs; try lia.
  2: { destruct a; simpl in *; lia. } 2: { destruct b; simpl in *; lia. }
  simplify_eq. simpl. rewrite weight_S.
  rewrite (limbs_val_hd_tl a), (limbs_val_hd_tl b).
  split_and!; try lia; [|simpl; lia..].
  apply wf_limbs_cons. split; [zbounds|done].
Qed.

Lemma add_abs_limbs_spec a b :
  wf_limbs a -> wf_limbs b ->
  limbs_val (bigint_add_abs_limbs a b) = limbs_val a + limbs_val b /\
  wf_limbs (bigint_add_abs_limbs a b) /\ normalized (bigint_add_abs_limbs a b).
Proof.
  intros Ha Hb. unfold bigint_add_abs_limbs.
  destruct (add_loop _ a b 0) as [out c] eqn:E.
  apply add_loop_spec in E as (Hv & Hw & Hl & Hc); try done; try lia.
  rewrite trim_val. split_and!; auto with limbs.
  - destruct (Z.eqb_spec c 0) as [->|]; [lia|].
    rewrite limbs_val_app, u32_small, Hl by zbounds. simpl. lia.
  - apply trim_wf. destruct (Z.eqb_spec c 0); [done|].
    apply wf_limbs_app. split; [done|]. apply wf_limbs_cons. split; [auto with limbs|constructor].
Qed.

Lemma sub_loop_spec n a b borrow out c :
  wf_limbs a -> wf_limbs b -> 0 <= borrow <= 1 ->
  (length a <= n)%nat -> (length b <= n)%nat ->
  sub_loop n a b borrow = (out, c) ->
  limbs_val out = limbs_val a - limbs_val b - borrow + weight n * c /\
  wf_limbs out /\ length out = n /\ 0 <= c <= 1.
Proof.
  revert a b borrow out c.
  induction n as [|n IH]; intros a b borrow out c Ha Hb Hc Hla Hlb H; simpl in H.
  { simplify_eq. destruct a, b; simpl in *; try lia. rewrite weight_0. split_and!; lia || constructor. }
  pose proof (wf_limbs_hd a Ha). pose proof (wf_limbs_hd b Hb).
  rewrite (u64_small (hd 0 b + borrow)) in H by zbounds.
  set (s := hd 0 b + borrow) in *.
  assert (0 <= s <= BASE) as Hs by zbounds.
  set (bw := if hd 0 a <? s then 1 else 0) in *.
  destruct (sub_loop n (tl a) (tl b) bw) as [out' c'] eqn:E.
  assert (u32 (u64 (hd 0 a - s)) = hd 0 a - s + BASE * bw /\ 0 <= bw <= 1) as [Hd Hbw].
  { rewrite u32_u64. unfold bw. destruct (Z.ltb_spec (hd 0 a) s).
    - rewrite u32_neg by zbounds. split; zbounds.
    - rewrite u32_small by zbounds. split; lia. }
  apply IH in E as (Hv & Hw & Hl & Hc'); auto with limbs; try lia.
  2: { destruct a; simpl in *; lia. } 2: { destruct b; simpl in *; lia. }
  simplify_eq. simpl. rewrite weight_S.
  rewrite (limbs_val_hd_tl a), (limbs_val_hd_tl b), Hd.
  split_and!; try lia; [|simpl; lia..].
  apply wf_limbs_cons. rewrite <- Hd. split; [auto with limbs|done].
Qed.

(** With [b <= a] the last borrow is zero, and the difference is exact. *)
Lemma sub_loop_exact a b :
  wf_limbs a -> wf_limbs b -> (length b <= length a)%nat ->
  limbs_val b <= limbs_val a ->
  limbs_val (fst (sub_loop (length a) a b 0)) = limbs_val a - limbs_val b /\
  wf_limbs (fst (sub_loop (length a) a b 0)) /\
  length (fst (sub_loop (length a) a b 0)) = length a.
Proof.
  intros Ha Hb Hlen Hle.
  destruct (sub_loop (length a) a b 0) as [out c] eqn:E.
  apply sub_loop_spec in E as (Hv & Hw & Hl & Hc); try done; try lia. simpl.
  pose proof (limbs_val_bound out Hw) as Hb1. rewrite Hl in Hb1.
  pose proof (limbs_val_bound a Ha) as Hb2. pose proof (limbs_val_bound b Hb) as Hb3.
  assert (c = 0) as -> by nia. split_and!; try done; lia.
Qed.

Lemma sub_abs_limbs_spec a b :
  wf_limbs a -> wf_limbs b -> (length b <= length a)%nat -> limbs_val b <= limbs_val a ->
  limbs_val (bigint_sub_abs_limbs a b) = limbs_val a - limbs_val b /\
  wf_limbs (bigint_sub_abs_limbs a b) /\ normalized (bigint_sub_abs_limbs a b).
Proof.
  intros Ha Hb Hl Hle. unfold bigint_sub_abs_limbs. rewrite trim_val.
  destruct (sub_loop_exact a b Ha Hb Hl Hle) as (? & ? & ?).
  split_and!; auto with limbs.
Qed.

Lemma normalized_le_length a b :
  wf_limbs a -> wf_limbs b -> normalized b -> limbs_val b <= limbs_val a ->
  (length b <= length a)%nat.
Proof.
  intros Ha Hb Hn Hle. destruct (Nat.le_gt_cases (length b) (length a)); [done|].
  pose proof (normalized_length_lt a b Ha Hb Hn). lia.
Qed.

(** ** Carry propagation and products *)

Lemma carry_loop_spec out carry :
  wf_limbs out -> is_u32 carry ->
  limbs_val out + carry < weight (length out) ->
  limbs_val (carry_loop out carry) = limbs_val out + carry /\
  wf_limbs (carry_loop out carry) /\ length (carry_loop out carry) = length out.
Proof.
  intros Hw. revert carry. induction Hw as [|o out Ho Hw IH]; intros carry Hc Hlt; simpl in *.
  { rewrite weight_0 in Hlt. split_and!; [zbounds|constructor|done]. }
  destruct (Z.eqb_spec carry 0) as [->|].
  { simpl. split_and!; [lia|by constructor|done]. }
  rewrite weight_S in Hlt. rewrite u64_small by zbounds.
  split_limb (o + carry) lo hi.
  destruct (IH hi) as (Hv & Hw' & Hl); [zbounds|nia|]. simpl.
  split_and!; [lia|apply wf_limbs_cons; split; [zbounds|done]|lia].
Qed.

(** A carry that runs off the end of the array is dropped. *)
Lemma carry_loop_mod out carry :
  wf_limbs out -> is_u32 carry ->
  (exists k, 0 <= k <= 1 /\
    limbs_val (carry_loop out carry) = limbs_val out + carry - k * weight (length out) \/ out = []) /\
  wf_limbs (carry_loop out carry) /\ length (carry_loop out carry) = length out.
Proof.
  intros Hw. revert carry. induction Hw as [|o out Ho Hw IH]; intros carry Hc; simpl in *.
  { split_and!; [exists 0; right; done|constructor|done]. }
  destruct (Z.eqb_spec carry 0) as [->|].
  { simpl. split_and!; [exists 0; left; lia|by constructor|done]. }
  rewrite u64_small by zbounds.
  split_limb (o + carry) lo hi.
  destruct (IH hi) as ((k & [[Hk Hv] | ->]) & Hw' & Hl); [zbounds|..]; simpl.
  - split_and!; [exists k; left; rewrite weight_S; lia
                |apply wf_limbs_cons; split; [zbounds|done]|lia].
  - split_and!; [exists hi; left; rewrite weight_S, weight_0; zbounds
                |apply wf_limbs_cons; split; [zbounds|done]|lia].
Qed.

Lemma mul_row_spec ai b out carry :
  is_u32 ai -> wf_limbs b -> wf_limbs out -> is_u32 carry ->
  (length b <= length out)%nat ->
  limbs_val out + ai * limbs_val b + carry < weight (length out) ->
  limbs_val (mul_row ai b out carry) = limbs_val out + ai * limbs_val b + carry /\
  wf_limbs (mul_row ai b out carry) /\ length (mul_row ai b out carry) = length out.
Proof.
  intros Hai Hb. revert out carry.
  induction Hb as [|bj b Hbj Hb IH]; intros out carry Hout Hc Hlen Hlt.
  { simpl in *. destruct (carry_loop_spec out carry) as (? & ? & ?); try done; [lia|].
    split_and!; [lia|done..]. }
  destruct Hout as [|o out Ho Hout]; [simpl in *; lia|]. simpl in *.
  assert (0 <= ai * bj <= (BASE - 1) * (BASE - 1)) as Hp by (unfold is_u32 in *; zpow; nia).
  rewrite (u64_small (ai * bj)), (u64_small (o + ai * bj)), u64_small by zbounds.
  split_limb (o + ai * bj + carry) lo hi. rewrite weight_S in Hlt.
  destruct (IH out hi) as (Hv & Hw & Hl); [done|zbounds|lia|nia|]. simpl.
  split_and!; [rewrite Hv; lia|apply wf_limbs_cons; split; [zbounds|done]|lia].
Qed.

Lemma mul_rows_spec a b out :
  wf_limbs a -> wf_limbs b -> wf_limbs out ->
  (length a + length b <= length out)%nat ->
  limbs_val out + limbs_val a * limbs_val b < weight (length out) ->
  limbs_val (mul_rows a b out) = limbs_val out + limbs_val a * limbs_val b /\
  wf_limbs (mul_rows a b out).
Proof.
  intros Ha Hb. revert out. induction Ha as [|ai a Hai Ha IH]; intros out Hout Hlen Hlt.
  { simpl in *. split; [lia|done]. }
  pose proof (limbs_val_bound a Ha) as Ba. pose proof (limbs_val_bound b Hb) as Bb.
  simpl in Hlt, Hlen |- *.
  destruct (mul_row_spec ai b out 0) as (Hv & Hw & Hl); try done;
    [lia|unfold is_u32 in *; nia|].
  destruct (mul_row ai b out 0) as [|o out'] eqn:E; [simpl in *; lia|].
  apply wf_limbs_cons in Hw as [Ho Hw]. simpl in Hl, Hv. rewrite <- Hl, weight_S in Hlt.
  destruct (IH out') as [Hv' Hw']; [done|lia|unfold is_u32 in *; zpow; nia|].
  simpl. split; [lia|]. by apply wf_limbs_cons.
Qed.

Lemma mul_abs_limbs_spec a b :
  wf_limbs a -> wf_limbs b ->
  limbs_val (bigint_mul_abs_limbs a b) = limbs_val a * limbs_val b /\
  wf_limbs (bigint_mul_abs_limbs a b) /\ normalized (bigint_mul_abs_limbs a b).
Proof.
  intros Ha Hb. unfold bigint_mul_abs_limbs.
  destruct a as [|x a]; [simpl; split_and!; [lia|constructor|done]|].
  destruct b as [|y b]; [simpl limbs_val at 1 3; split_and!; [lia|constructor|done]|].
  revert Ha Hb. generalize (x :: a) (y :: b). clear x a y b. intros a b Ha Hb.
  pose proof (limbs_val_bound a Ha) as Ba. pose proof (limbs_val_bound b Hb) as Bb.
  destruct (mul_rows_spec a b (replicate (length a + length b + 1) 0)) as [Hv Hw];
    auto with limbs.
  - rewrite length_replicate. lia.
  - rewrite limbs_val_zeros, length_replicate, !weight_add.
    pose proof (weight_pos (length a)). pose proof (weight_pos (length b)).
    rewrite weight_S, weight_0. nia.
  - rewrite trim_val, Hv, limbs_val_zeros. split_and!; auto with limbs.
Qed.

Lemma mul_small_loop_spec a m carry out c :
  wf_limbs a -> is_u32 m -> is_u32 carry ->
  mul_small_loop a m carry = (out, c) ->
  limbs_val out + weight (length a) * c = limbs_val a * m + carry /\
  wf_limbs out /\ length out = length a /\ is_u32 c.
Proof.
  intros Ha Hm. revert carry out c.
  induction Ha as [|x a Hx Ha IH]; intros carry out c Hc H; simpl in H.
  { simplify_eq. simpl. rewrite weight_0. split_and!; [lia|constructor|done..]. }
  assert (0 <= x * m <= (BASE - 1) * (BASE - 1)) as Hp by (unfold is_u32 in *; zpow; nia).
  rewrite (u64_small (x * m)), u64_small in H by zbounds.
  destruct (mul_small_loop a m (Z.shiftr (x * m + carry) 32)) as [out' c'] eqn:E.
  split_limb (x * m + carry) lo hi.
  apply IH in E as (Hv & Hw & Hl & Hc'); [|zbounds].
  simplify_eq. simpl. rewrite weight_S.
  split_and!; [lia|apply wf_limbs_cons; split; [zbounds|done]|lia|zbounds..].
Qed.

(** The product of a normalized magnitude by a non-zero limb needs no trim. *)
Lemma mul_small_spec a m :
  wf_limbs a -> is_u32 m ->
  limbs_val (bigint_mul_small a m) = limbs_val a * m /\ wf_limbs (bigint_mul_small a m).
Proof.
  intros Ha Hm. unfold bigint_mul_small. destruct a as [|x a]; [simpl; split; [lia|constructor]|].
  destruct (Z.eqb_spec m 0) as [->|]; [simpl limbs_val at 1; split; [lia|constructor]|].
  destruct (mul_small_loop (x :: a) m 0) as [out c] eqn:E.
  apply mul_small_loop_spec in E as (Hv & Hw & Hl & Hc); [|done..|zbounds].
  destruct (Z.eqb_spec c 0) as [->|]; [split; [lia|done]|].
  rewrite limbs_val_app, u32_small, Hl by done. simpl limbs_val at 2. split; [lia|].
  apply wf_limbs_app. split; [done|]. apply wf_limbs_cons. split; [done|constructor].
Qed.

Lemma mul_small_length a m :
  wf_limbs a -> is_u32 m -> a <> [] -> m <> 0 ->
  (length (bigint_mul_small a m) = length a \/
   length (bigint_mul_small a m) = S (length a) /\
   weight (length a) <= limbs_val (bigint_mul_small a m)).
Proof.
  intros Ha Hm Hne Hm0. unfold bigint_mul_small. destruct a as [|x a]; [done|].
  destruct (Z.eqb_spec m 0) as [->|]; [done|].
  destruct (mul_small_loop (x :: a) m 0) as [out c] eqn:E.
  apply mul_small_loop_spec in E as (Hv & Hw & Hl & Hc); [|done..|zbounds].
  destruct (Z.eqb_spec c 0) as [->|]; [by left|right].
  rewrite length_app, limbs_val_app, Hl, u32_small by done. simpl length.
  split; [simpl; lia|].
  pose proof (limbs_val_bound out Hw). pose proof (weight_pos (S (length a))).
  assert (1 <= c) by zbounds. cbn [limbs_val]. nia.
Qed.

Lemma mul_add_small_spec a m add :
  wf_limbs a -> is_u32 m -> is_u32 add ->
  limbs_val (bigint_mul_add_small_inplace a m add) = limbs_val a * m + add /\
  wf_limbs (bigint_mul_add_small_inplace a m add) /\
  normalized (bigint_mul_add_small_inplace a m add).
Proof.
  intros Ha Hm Hadd. unfold bigint_mul_add_small_inplace. destruct a as [|x a].
  { destruct (Z.eqb_spec add 0) as [->|]; simpl.
    - split_and!; [lia|constructor|done].
    - split_and!; [lia|apply wf_limbs_cons; split; [done|constructor]|done]. }
  destruct (mul_small_loop (x :: a) m add) as [out c] eqn:E.
  apply mul_small_loop_spec in E as (Hv & Hw & Hl & Hc); [|done..].
  rewrite trim_val. split_and!; auto with limbs.
  - destruct (Z.eqb_spec c 0) as [->|]; [lia|].
    rewrite limbs_val_app, u32_small, Hl by done. simpl limbs_val at 2. lia.
  - apply trim_wf. destruct (Z.eqb_spec c 0); [done|].
    apply wf_limbs_app. split; [done|]. apply wf_limbs_cons. split; [auto with limbs|constructor].
Qed.

(** ** Division by one limb *)

Lemma divmod_small_loop_spec a d q rem :
  wf_limbs a -> 0 < d < BASE ->
  divmod_small_loop a d = (q, rem) ->
  limbs_val a = d * limbs_val q + rem /\ 0 <= rem < d /\
  wf_limbs q /\ length q = length a.
Proof.
  intros Ha Hd. revert q rem. induction Ha as [|x a Hx Ha IH]; intros q rem H; simpl in H.
  { simplify_eq. simpl. split_and!; [lia..|constructor|done]. }
  destruct (divmod_small_loop a d) as [q' rem'] eqn:E.
  destruct (IH _ _ eq_refl) as (Hv & Hr & Hw & Hl).
  rewrite u64_small, lor_shiftl_add in H by
    (rewrite ?Z.shiftl_mul_pow2 by lia; zbounds).
  zpow. set (cur := rem' * BASE + x) in *.
  pose proof (Z.div_mod cur d ltac:(lia)) as Hdm.
  pose proof (Z.mod_pos_bound cur d ltac:(lia)) as Hm.
  assert (is_u32 (cur / d)) as Hq.
  { unfold is_u32. zpow. split; [apply Z.div_pos; zbounds|].
    apply Z.div_lt_upper_bound; [lia|]. unfold is_u32 in *. zpow. nia. }
  rewrite u32_small in H by done. simplify_eq. simpl.
  split_and!; [rewrite Hv; lia|lia..|by apply wf_limbs_cons|lia].
Qed.

Lemma divmod_small_spec a d q rem :
  wf_limbs a -> 0 < d < BASE -> bigint_divmod_small a d = (q, rem) ->
  limbs_val a = d * limbs_val q + rem /\ 0 <= rem < d /\ wf_limbs q /\ normalized q.
Proof.
  intros Ha Hd H. unfold bigint_divmod_small in H.
  destruct (divmod_small_loop a d) as [q' rem'] eqn:E. simplify_eq.
  apply divmod_small_loop_spec in E as (? & ? & ? & ?); [|done..].
  rewrite trim_val, u32_small by zbounds. split_and!; auto with limbs; lia.
Qed.

(** Quotient and remainder in terms of [Z]. *)
Lemma divmod_small_eq a d :
  wf_limbs a -> 0 < d < BASE ->
  limbs_val (fst (bigint_divmod_small a d)) = limbs_val a / d /\
  snd (bigint_divmod_small a d) = limbs_val a mod d /\
  wf_limbs (fst (bigint_divmod_small a d)) /\ normalized (fst (bigint_divmod_small a d)).
Proof.
  intros Ha Hd. destruct (bigint_divmod_small a d) as [q rem] eqn:E.
  apply divmod_small_spec in E as (Hv & Hr & ? & ?); [|done..]. simpl.
  split_and!; [|..]; try done.
  - apply Z.div_unique_pos with rem; lia.
  - apply Z.mod_unique_pos with (limbs_val q); lia.
Qed.
