(* ===== verification/BigIntDiv.v ===== *)
(** * Long division of [src/src/bigint.c]

    [bigint_divmod_abs_limbs] with its three paths: one-limb divisors, small
    quotients by repeated subtraction, and the schoolbook (Knuth D) loop. The
    loop's quotient estimate is exact except where the first estimate exceeds
    one limb: there the code corrects its remainder [rhat] by one divisor limb
    only and shifts it without checking that it still fits, and the estimate
    can end below the quotient digit. [step_estimate_ok] is the condition
    under which that does not happen; every result below is exact under it,
    and [bigint_division_defect] of BigIntObj.v is an input where it fails. *)

From S2P Require Import Prelude BigIntLimbs.

(** ** The operations *)

(** [while (qhat * v[n-2] > (rhat << 32) + ujn2)]. With a normalized divisor
    the body runs at most twice, see [qhat_adjust_spec]. *)
Fixpoint qhat_adjust (fuel : nat) (qhat rhat v1 v2 ujn2 : Z) : Z :=
  match fuel with
  | O => qhat
  | S f =>
      if u64 (u64 (Z.shiftl rhat 32) + ujn2) <? u64 (qhat * v2) then
        let qhat' := u64 (qhat - 1) in
        let rhat' := u64 (rhat + v1) in
        if BASE <=? rhat' then qhat' else qhat_adjust f qhat' rhat' v1 v2 ujn2
      else qhat
  end.

Definition qhat_fuel : nat := 3.

(** The digit estimate of one iteration, from the three top limbs of the
    dividend window and the two top limbs of the divisor. *)
Definition qhat_estimate (ujn ujn1 ujn2 v1 v2 : Z) : Z :=
  let numerator := Z.lor (u64 (Z.shiftl ujn 32)) ujn1 in
  let qhat := numerator / v1 in
  let rhat := numerator mod v1 in
  if UINT32_MAX <? qhat
  then qhat_adjust qhat_fuel UINT32_MAX (u64 (rhat + v1)) v1 v2 ujn2
  else qhat_adjust qhat_fuel qhat rhat v1 v2 ujn2.

(** One iteration of [for (j = m + 1; j-- > 0;)]: the new dividend array and
    the quotient digit. *)
Definition knuth_step (u v : list Z) (j : nat) : list Z * Z :=
  let n := length v in
  let qhat := qhat_estimate (nth (j + n) u 0) (nth (j + n - 1) u 0) (nth (j + n - 2) u 0)
                (nth (n - 1) v 0) (nth (n - 2) v 0) in
  let '(w, negative) := bigint_sub_mul (drop j u) v qhat 0 0 in
  if negative then (take j u ++ bigint_add_back w v 0, u32 (u64 (qhat - 1)))
  else (take j u ++ w, u32 qhat).

Fixpoint knuth_loop (k : nat) (u v : list Z) : list Z * list Z :=
  match k with
  | O => ([], u)
  | S j =>
      let '(u', qj) := knuth_step u v j in
      let '(q, u'') := knuth_loop j u' v in
      (q ++ [qj], u'')
  end.

Definition knuth_normalizer (b : list Z) : Z :=
  u32 (BASE / (nth (length b - 1) b 0 + 1)).

Definition knuth_dividend (a b : list Z) (d : Z) : list Z :=
  let u := bigint_mul_small a d in
  let u := if (length u =? length a)%nat then u ++ [0] else u in
  if (length u <=? length b)%nat then u ++ replicate (length b + 1 - length u) 0 else u.

Definition knuth_divisor (b : list Z) (d : Z) : list Z :=
  let v := bigint_mul_small b d in
  if (length v =? length b)%nat then v else take (length b) v.

Definition knuth_divmod (a b : list Z) : list Z * list Z :=
  let d := knuth_normalizer b in
  let u := knuth_dividend a b d in
  let v := knuth_divisor b d in
  let '(q, u') := knuth_loop (length u - length v) u v in
  let r := take (length v) u' in
  (trim q, if d =? 1 then trim r else fst (bigint_divmod_small r d)).

Definition SMALL_Q_LIMIT : Z := 16.

(** [while (q < SMALL_Q_LIMIT)]; the fuel is the number of iterations left. *)
Fixpoint small_q_loop (fuel : nat) (rem b : list Z) (q : Z) : list Z * Z :=
  match fuel with
  | O => (rem, q)
  | S f =>
      if bigint_compare_abs_limbs rem b <? 0 then (rem, q)
      else small_q_loop f (trim (fst (sub_loop (length rem) rem b 0))) b (q + 1)
  end.

(** The fast path: [Some (q, rem)] when it applies and finishes. *)
Definition small_quotient (a b : list Z) : option (list Z * list Z) :=
  if (length a =? length b)%nat || (length a =? length b + 1)%nat then
    let bh := nth (length b - 1) b 0 in
    if bh =? 0 then None
    else
      let q_est :=
        if (length a =? length b)%nat then nth (length a - 1) a 0 / bh
        else Z.lor (u64 (Z.shiftl (nth (length a - 1) a 0) 32)) (nth (length a - 2) a 0) / bh in
      if q_est <? SMALL_Q_LIMIT then
        let '(rem, q) := small_q_loop (Z.to_nat SMALL_Q_LIMIT) a b 0 in
        if bigint_compare_abs_limbs rem b <? 0
        then Some (if q =? 0 then [] else [q], rem) else None
      else None
  else None.

(** What the routine stores through [div_by_zero], [q_out] and [r_out]; an
    output that was not asked for is [None]. *)
Record divmod_out := {
  dm_div_by_zero : bool;
  dm_q : option (list Z);
  dm_r : option (list Z)
}.

Definition bigint_divmod_abs_limbs (a b : list Z) (want_q want_r : bool) : divmod_out :=
  let store z q r :=
    {| dm_div_by_zero := z;
       dm_q := if want_q then Some q else None;
       dm_r := if want_r then Some r else None |} in
  match b, a with
  | [], _ => store true [] []
  | _, [] => store false [] []
  | b0 :: b', _ =>
      let cmp := bigint_compare_abs_limbs a b in
      if cmp <? 0 then store false [] a
      else if cmp =? 0 then store false [1] []
      else match b' with
           | [] =>
               let '(q, rem) := bigint_divmod_small a b0 in
               store false q (if rem =? 0 then [] else [rem])
           | _ =>
               match (if want_q || want_r then small_quotient a b else None) with
               | Some (q, r) => store false q r
               | None => let '(q, r) := knuth_divmod a b in store false q r
               end
           end
  end.

(** ** Where the estimate is exact *)

Definition step_estimate_ok (u v : list Z) (j : nat) : bool :=
  let n := length v in
  let v1 := nth (n - 1) v 0 in
  let ujn := nth (j + n) u 0 in
  let ujn1 := nth (j + n - 1) u 0 in
  (ujn <? v1) || ((ujn1 <? v1) && (ujn1 + v1 <? BASE)).

Fixpoint loop_estimates_ok (k : nat) (u v : list Z) : bool :=
  match k with
  | O => true
  | S j => step_estimate_ok u v j && loop_estimates_ok j (fst (knuth_step u v j)) v
  end.

(** No digit of the division of [a] by [b] meets the defective case. *)
Definition division_estimates_ok (a b : list Z) : bool :=
  let d := knuth_normalizer b in
  let u := knuth_dividend a b d in
  let v := knuth_divisor b d in
  loop_estimates_ok (length u - length v) u v.

(** ** Multiply-subtract and add-back *)

Lemma sub_mul_spec v qhat u carry borrow out neg :
  wf_limbs v -> wf_limbs u -> (length v < length u)%nat ->
  0 <= qhat < BASE -> is_u32 carry -> 0 <= borrow <= 1 ->
  bigint_sub_mul u v qhat carry borrow = (out, neg) ->
  exists o, out = o ++ drop (S (length v)) u /\ length o = S (length v) /\ wf_limbs o /\
    limbs_val o = limbs_val (take (S (length v)) u) - qhat * limbs_val v - carry - borrow
                  + (if neg then weight (S (length v)) else 0).
Proof.
  intros Hv. revert u carry borrow out neg.
  induction Hv as [|vi v Hvi Hv IH]; intros u carry borrow out neg Hu Hlen Hq Hc Hb H;
    (destruct Hu as [|ui u Hui Hu]; [simpl in *; lia|]); simpl in H.
  - set (t := ui - carry - borrow) in *. assert (- BASE <= t < BASE) by zbounds.
    destruct (Z.ltb_spec t 0); simplify_eq; simpl.
    + rewrite u32_small by zbounds. exists [t + BASE].
      rewrite weight_S, weight_0. split_and!; [done..|by constructor; [zbounds|]|simpl; lia].
    + rewrite u32_small by zbounds. exists [t].
      split_and!; [done..|by constructor; [zbounds|]|simpl; lia].
  - assert (0 <= qhat * vi <= (BASE - 1) * (BASE - 1)) as Hp by (unfold is_u32 in *; zpow; nia).
    rewrite (u64_small (qhat * vi)), u64_small in H by zbounds.
    split_limb (qhat * vi + carry) lo hi.
    set (t := ui - lo - borrow) in *. assert (- BASE <= t < BASE) by zbounds.
    destruct (bigint_sub_mul u v qhat hi (if t <? 0 then 1 else 0)) as [out' neg'] eqn:E.
    apply IH in E as (o & -> & Hl & Hw & Hval); [|done|simpl in *; lia|done|zbounds|case_match; lia].
    simplify_eq. exists (u32 (if t <? 0 then t + BASE else t) :: o).
    assert (u32 (if t <? 0 then t + BASE else t) = t + BASE * (if t <? 0 then 1 else 0)) as Ht.
    { rewrite u32_small by (destruct (Z.ltb_spec t 0); zbounds). destruct (Z.ltb_spec t 0); lia. }
    rewrite Ht. simpl. rewrite weight_S.
    split_and!; [done|lia|rewrite <- Ht; apply wf_limbs_cons; auto with limbs|].
    rewrite Hval. destruct neg; lia.
Qed.

Lemma add_back_spec v u carry :
  wf_limbs v -> wf_limbs u -> (length v < length u)%nat -> 0 <= carry <= 1 ->
  wf_limbs (bigint_add_back u v carry) /\ length (bigint_add_back u v carry) = length u /\
  exists k, 0 <= k <= 1 /\
    limbs_val (take (S (length v)) (bigint_add_back u v carry)) =
    limbs_val (take (S (length v)) u) + limbs_val v + carry - k * weight (S (length v)).
Proof.
  intros Hv. revert u carry.
  induction Hv as [|vi v Hvi Hv IH]; intros u carry Hu Hlen Hc;
    (destruct Hu as [|ui u Hui Hu]; [simpl in *; lia|]).
  - assert (wf_limbs (ui :: u)) as Hw by by constructor.
    destruct (carry_loop_mod (ui :: u) carry Hw ltac:(zbounds)) as (_ & Hw' & Hl').
    change (bigint_add_back (ui :: u) [] carry) with (carry_loop (ui :: u) carry).
    split_and!; [done..|]. simpl. destruct (Z.eqb_spec carry 0) as [->|].
    { exists 0. simpl. split; lia. }
    rewrite u64_small by zbounds. split_limb (ui + carry) lo hi.
    exists hi. rewrite weight_S, weight_0. simpl. split; lia.
  - simpl. rewrite (u64_small (ui + vi)), u64_small by zbounds.
    split_limb (ui + vi + carry) lo hi.
    destruct (IH u hi) as (Hw & Hl & k & Hk & Hval); [done|simpl in *; lia|lia|].
    split_and!; [apply wf_limbs_cons; split; [zbounds|done]|lia|].
    exists k. rewrite weight_S. simpl in Hval |- *. rewrite Hval. split; lia.
Qed.

(** ** The digit estimate *)

Section Estimate.
(** A divisor [V] with two leading limbs [v1], [v2], and a window [W] of the
    dividend with three leading limbs, both in units of [P]. *)
Context (V W P v1 v2 ujn ujn1 ujn2 : Z).
Hypothesis HP : 0 < P.
Hypothesis Hv1 : 2 ^ 31 <= v1 < BASE.
Hypothesis Hv2 : is_u32 v2.
Hypothesis Hu0 : is_u32 ujn.
Hypothesis Hu1 : is_u32 ujn1.
Hypothesis Hu2 : is_u32 ujn2.
Hypothesis HV : (v1 * BASE + v2) * P <= V < (v1 * BASE + v2 + 1) * P.
Hypothesis HW :
  ((ujn * BASE + ujn1) * BASE + ujn2) * P <= W < ((ujn * BASE + ujn1) * BASE + ujn2 + 1) * P.

Let num := ujn * BASE + ujn1.

Lemma estimate_V_pos : 0 < V.
Proof. unfold is_u32 in *. zpow. nia. Qed.

(** The estimate exceeds the digit when the test of the loop holds... *)
Lemma estimate_too_big qhat rhat :
  0 <= qhat -> qhat * v1 + rhat = num -> rhat * BASE + ujn2 < qhat * v2 -> W / V < qhat.
Proof.
  intros Hq0 Hr Ht. apply Z.div_lt_upper_bound; [apply estimate_V_pos|].
  assert ((num * BASE + ujn2 + 1) * P <= qhat * (v1 * BASE + v2) * P)
    by (apply Z.mul_le_mono_nonneg_r; nia).
  assert (qhat * ((v1 * BASE + v2) * P) <= qhat * V) by (apply Z.mul_le_mono_nonneg_l; lia).
  unfold num in *. lia.
Qed.

(** ...and by at most one when it does not. *)
Lemma estimate_close qhat rhat :
  0 <= qhat < BASE -> qhat * v1 + rhat = num -> qhat * v2 <= rhat * BASE + ujn2 ->
  qhat <= W / V + 1.
Proof.
  intros Hq0 Hr Ht.
  assert (qhat - 1 <= W / V); [|lia].
  apply Z.div_le_lower_bound; [apply estimate_V_pos|].
  assert (qhat * (v1 * BASE + v2) * P <= (num * BASE + ujn2) * P)
    by (apply Z.mul_le_mono_nonneg_r; nia).
  assert (qhat * V <= qhat * ((v1 * BASE + v2 + 1) * P)) by (apply Z.mul_le_mono_nonneg_l; lia).
  assert (qhat * P <= BASE * P) by (apply Z.mul_le_mono_nonneg_r; lia).
  assert (BASE * P <= V). { unfold is_u32 in *. zpow. nia. }
  unfold num in *. lia.
Qed.

Lemma qhat_adjust_spec fuel qhat rhat :
  W / V <= qhat -> 0 <= W / V -> 0 <= qhat < BASE -> 0 <= rhat < BASE ->
  qhat * v1 + rhat = num -> BASE <= rhat + Z.of_nat fuel * v1 ->
  W / V <= qhat_adjust fuel qhat rhat v1 v2 ujn2 <= W / V + 1 /\
  qhat_adjust fuel qhat rhat v1 v2 ujn2 < BASE.
Proof.
  revert qhat rhat. induction fuel as [|fuel IH]; intros qhat rhat Hge H0 Hq Hr Heq Hf; [lia|].
  simpl. rewrite Z.shiftl_mul_pow2 by lia. zpow.
  assert (0 <= qhat * v2 <= (BASE - 1) * (BASE - 1)) by (unfold is_u32 in *; zpow; nia).
  rewrite (u64_small (rhat * BASE)), u64_small, (u64_small (qhat * v2)) by zbounds.
  destruct (Z.ltb_spec (rhat * BASE + ujn2) (qhat * v2)) as [Ht|Ht].
  2: { pose proof (estimate_close qhat rhat Hq Heq ltac:(lia)). lia. }
  pose proof (estimate_too_big qhat rhat ltac:(lia) Heq Ht).
  rewrite (u64_small (qhat - 1)), (u64_small (rhat + v1)) by zbounds.
  destruct (Z.leb_spec BASE (rhat + v1)).
  - pose proof (estimate_close (qhat - 1) (rhat + v1) ltac:(lia) ltac:(lia)).
    assert (0 <= (qhat - 1) * v2 <= (BASE - 1) * (BASE - 1)) by (unfold is_u32 in *; zpow; nia).
    zbounds.
  - apply IH; lia.
Qed.

Hypothesis Hwin : W < BASE * V.
Hypothesis Hok : ujn < v1 \/ ujn1 < v1 /\ ujn1 + v1 < BASE.

Lemma qhat_estimate_spec :
  W / V <= qhat_estimate ujn ujn1 ujn2 v1 v2 <= W / V + 1 /\
  qhat_estimate ujn ujn1 ujn2 v1 v2 < BASE.
Proof.
  pose proof estimate_V_pos as HVpos.
  assert (0 <= W / V < BASE) as Hdig.
  { split; [apply Z.div_pos; unfold is_u32 in *; nia|apply Z.div_lt_upper_bound; lia]. }
  assert (W / V * v1 <= num) as Hle.
  { pose proof (Z.mul_div_le W V HVpos).
    assert (W / V * ((v1 * BASE) * P) <= W / V * V)
      by (apply Z.mul_le_mono_nonneg_l; unfold is_u32 in *; nia).
    assert (W / V * v1 * (BASE * P) < (num + 1) * (BASE * P)) as Hlt.
    { unfold is_u32, num in *. zpow. nia. }
    apply Z.mul_lt_mono_pos_r in Hlt; nia. }
  unfold qhat_estimate.
  rewrite (u64_small (Z.shiftl ujn 32)) by (rewrite Z.shiftl_mul_pow2 by lia; zbounds).
  rewrite lor_shiftl_add by zbounds. change (2 ^ 32) with BASE. fold num.
  pose proof (Z.div_mod num v1 ltac:(lia)) as Hdm.
  pose proof (Z.mod_pos_bound num v1 ltac:(lia)) as Hmod.
  assert (W / V <= num / v1) by (apply Z.div_le_lower_bound; lia).
  unfold UINT32_MAX, qhat_fuel. zpow.
  destruct (Z.ltb_spec (BASE - 1) (num / v1)) as [Hbig|Hsmall].
  - assert (v1 * BASE <= v1 * (num / v1)) by (apply Z.mul_le_mono_nonneg_l; lia).
    assert (v1 <= ujn) by (unfold num in *; zbounds).
    destruct Hok as [|[Hlt Hfit]]; [lia|].
    assert (ujn = v1) as Hujn.
    { assert (num * (BASE * P) <= W) by (unfold num, is_u32 in *; nia).
      assert (num < v1 * BASE + v2 + 1).
      { apply Z.mul_lt_mono_pos_r with (BASE * P); lia. }
      unfold num in *. zbounds. }
    assert (num / v1 = BASE /\ num mod v1 = ujn1) as [Hq Hrm].
    { assert (num = v1 * BASE + ujn1) as E by (unfold num; rewrite Hujn; lia).
      assert (0 <= ujn1 < v1) by (unfold is_u32 in *; lia).
      split; symmetry; [apply Z.div_unique_pos with ujn1|apply Z.mod_unique_pos with BASE]; done. }
    rewrite Hrm, u64_small by zbounds.
    apply qhat_adjust_spec; zbounds.
  - apply qhat_adjust_spec; zbounds.
Qed.
End Estimate.

(** ** One iteration *)

(** The leading limb of a magnitude of [S n] limbs. *)
Lemma limbs_val_top n l :
  length l = S n -> limbs_val l = limbs_val (take n l) + weight n * nth n l 0.
Proof.
  intros Hl. rewrite (limbs_val_take_drop n l) by lia. f_equal. f_equal.
  destruct (drop n l) as [|x [|y t]] eqn:E;
    assert (length (drop n l) = 1%nat) as Hd by (rewrite length_drop; lia); rewrite E in Hd; try done.
  rewrite <- (take_drop n l), app_nth2, E by (rewrite length_take; lia).
  rewrite length_take, Nat.min_l, Nat.sub_diag by lia. simpl. lia.
Qed.

Lemma limbs_top_bound n l :
  wf_limbs l -> length l = S n ->
  weight n * nth n l 0 <= limbs_val l < weight n * (nth n l 0 + 1).
Proof.
  intros Hw Hl. rewrite (limbs_val_top n) by done.
  pose proof (limbs_val_bound (take n l) ltac:(auto with limbs)) as H.
  rewrite length_take, Nat.min_l in H by lia. lia.
Qed.

Lemma nth_take_lt {A} (l : list A) i n d : (i < n)%nat -> nth i (take n l) d = nth i l d.
Proof.
  revert i n. induction l as [|x l IH]; intros [|i] [|n] ?; simpl; try done; try lia.
  apply IH. lia.
Qed.

Lemma nth_drop {A} (l : list A) i j d : nth i (drop j l) d = nth (j + i) l d.
Proof. revert j. induction l as [|x l IH]; intros [|j]; simpl; try done. by destruct i. Qed.

(** Two and three leading limbs in units of the weight below them. *)
Lemma two_top_limbs n l :
  wf_limbs l -> length l = S (S n) ->
  (nth (S n) l 0 * BASE + nth n l 0) * weight n <= limbs_val l
    < (nth (S n) l 0 * BASE + nth n l 0 + 1) * weight n.
Proof.
  intros Hw Hl. rewrite (limbs_val_top (S n)) by done.
  pose proof (limbs_top_bound n (take (S n) l) ltac:(auto with limbs)) as H.
  rewrite length_take, nth_take_lt in H by lia. rewrite weight_S.
  specialize (H ltac:(lia)). nia.
Qed.

Lemma three_top_limbs n l :
  wf_limbs l -> length l = S (S (S n)) ->
  ((nth (S (S n)) l 0 * BASE + nth (S n) l 0) * BASE + nth n l 0) * weight n <= limbs_val l
    < ((nth (S (S n)) l 0 * BASE + nth (S n) l 0) * BASE + nth n l 0 + 1) * weight n.
Proof.
  intros Hw Hl. rewrite (limbs_val_top (S (S n))) by done.
  pose proof (two_top_limbs n (take (S (S n)) l) ltac:(auto with limbs)) as H.
  rewrite length_take, !nth_take_lt in H by lia. rewrite !weight_S.
  specialize (H ltac:(lia)). nia.
Qed.

Section Step.
Context (v : list Z) (n : nat).
Hypothesis Hv : wf_limbs v.
Hypothesis Hn : length v = S (S n).
Hypothesis Htop : 2 ^ 31 <= nth (S n) v 0.
Let V := limbs_val v.

Lemma divisor_bounds : 0 < V < weight (S (S n)).
Proof.
  pose proof (limbs_val_bound v Hv) as Hb. rewrite Hn in Hb.
  pose proof (two_top_limbs n v Hv Hn). pose proof (weight_pos n).
  pose proof (wf_limbs_nth v n 0 Hv ltac:(zbounds)). unfold V, is_u32 in *. zpow. nia.
Qed.

(** The window of an iteration is below the divisor times the base. *)
Lemma window_lt u j :
  wf_limbs u -> (j + S (S (S n)) <= length u)%nat ->
  limbs_val (take (S (S n)) (drop (S j) u)) < V ->
  limbs_val (take (S (S (S n))) (drop j u)) < BASE * V.
Proof.
  intros Hu Hlen Hlt.
  assert (is_u32 (hd 0 (drop j u))) as Hx by auto with limbs.
  rewrite (limbs_val_hd_tl (take _ (drop j u))).
  assert (tl (drop j u) = drop (S j) u) as E by (by rewrite <- Nat.add_1_r, <- drop_drop).
  pose proof divisor_bounds.
  destruct (drop j u) as [|x t]; simpl in *; [lia|]. rewrite E. zbounds.
Qed.

(** The digit estimate of an iteration is the digit or one more. *)
Lemma knuth_digit u j :
  wf_limbs u -> (j + S (S (S n)) <= length u)%nat ->
  limbs_val (take (S (S n)) (drop (S j) u)) < V -> step_estimate_ok u v j = true ->
  let W := limbs_val (take (S (S (S n))) (drop j u)) in
  let qhat := qhat_estimate (nth (j + length v) u 0) (nth (j + length v - 1) u 0)
    (nth (j + length v - 2) u 0) (nth (length v - 1) v 0) (nth (length v - 2) v 0) in
  W / V <= qhat <= W / V + 1 /\ qhat < BASE /\ 0 <= W.
Proof.
  intros Hu Hlen Hlt Hok W qhat. pose proof (window_lt u j Hu Hlen Hlt) as HWV.
  assert (wf_limbs (take (S (S (S n))) (drop j u))) as Hwin by auto with limbs.
  pose proof (three_top_limbs n _ Hwin ltac:(rewrite length_take, length_drop; lia)) as HW.
  rewrite !nth_take_lt, !nth_drop in HW by lia.
  pose proof (two_top_limbs n v Hv Hn) as HV.
  unfold step_estimate_ok in Hok. subst qhat. rewrite Hn in *.
  replace (j + S (S n) - 1)%nat with (j + S n)%nat in * by lia.
  replace (j + S (S n) - 2)%nat with (j + n)%nat by lia.
  replace (S (S n) - 1)%nat with (S n) in * by lia.
  replace (S (S n) - 2)%nat with n by lia.
  assert (forall i, is_u32 (nth i u 0)) as Hui by (intros; apply wf_limbs_nth; [done|zbounds]).
  assert (forall i, is_u32 (nth i v 0)) as Hvi by (intros; apply wf_limbs_nth; [done|zbounds]).
  destruct (qhat_estimate_spec V W (weight n) (nth (S n) v 0) (nth n v 0)
    (nth (j + S (S n)) u 0) (nth (j + S n) u 0) (nth (j + n) u 0)) as [Hest Hqb];
    auto using weight_pos.
  { pose proof (Hvi (S n)). zbounds. }
  { apply orb_true_iff in Hok. rewrite andb_true_iff, !Z.ltb_lt in Hok. lia. }
  apply limbs_val_bound in Hwin. split_and!; done || lia.
Qed.

(** Under [step_estimate_ok] an iteration divides the window exactly. *)
Lemma knuth_step_spec u j u' qj :
  wf_limbs u -> (j + S (S (S n)) <= length u)%nat ->
  limbs_val (take (S (S n)) (drop (S j) u)) < V -> step_estimate_ok u v j = true ->
  knuth_step u v j = (u', qj) ->
  exists w, u' = take j u ++ w /\ wf_limbs u' /\ length u' = length u /\ is_u32 qj /\
    limbs_val (take (S (S (S n))) (drop j u)) = qj * V + limbs_val (take (S (S (S n))) w) /\
    limbs_val (take (S (S (S n))) w) < V.
Proof.
  intros Hu Hlen Hlt Hok Hstep. pose proof divisor_bounds as HVb.
  pose proof (knuth_digit u j Hu Hlen Hlt Hok) as Hest. unfold knuth_step in Hstep.
  cbv zeta in Hest, Hstep. set (qhat := qhat_estimate _ _ _ _ _) in *. clearbody qhat.
  set (W := limbs_val (take (S (S (S n))) (drop j u))) in *. destruct Hest as (Hest & Hqb & HW0).
  destruct (bigint_sub_mul (drop j u) v qhat 0 0) as [w neg] eqn:E.
  assert (0 <= W / V) by (apply Z.div_pos; lia).
  pose proof (Z.div_mod W V ltac:(lia)) as Hdm. pose proof (Z.mod_pos_bound W V ltac:(lia)) as Hm.
  apply sub_mul_spec in E as (o & -> & Hol & How & Hov); [|auto with limbs|auto with limbs
    |rewrite length_drop; lia|lia|zbounds|lia].
  rewrite Hn in Hol, Hov, Hstep.
  pose proof (limbs_val_bound o How) as Hob. rewrite Hol in Hob. fold W V in Hov.
  assert (weight (S (S (S n))) = BASE * weight (S (S n))) as HwS by apply weight_S.
  destruct neg; injection Hstep as <- <-.
  - (* one too large: add the divisor back *)
    assert (qhat = W / V + 1) as -> by nia.
    set (rest := drop (S (S (S n))) (drop j u)) in *.
    destruct (add_back_spec v (o ++ rest) 0) as (Hbw & Hbl & k & Hk & Hbv);
      [done|apply wf_limbs_app; split; [done|unfold rest; auto with limbs]
      |rewrite length_app; lia|lia|].
    rewrite Hn, take_app_length' in Hbv by done.
    pose proof (limbs_val_bound (take (S (S (S n))) (bigint_add_back (o ++ rest) v 0)) ltac:(auto with limbs)) as Hrb.
    rewrite length_take, Hbl, length_app, Hol, Nat.min_l in Hrb by lia.
    exists (bigint_add_back (o ++ rest) v 0). fold V in Hbv.
    assert (k = 1) as -> by nia.
    rewrite u64_small, u32_small by zbounds.
    split; [done|]. split; [apply wf_limbs_app; split; [auto with limbs|done]|].
    split. { rewrite length_app, Hbl, length_app, length_take, Hol. unfold rest. rewrite !length_drop. lia. }
    split; [zbounds|]. lia.
  - assert (qhat = W / V) as -> by nia.
    exists (o ++ drop (S (S (S n))) (drop j u)).
    rewrite take_app_length' by done. rewrite u32_small by zbounds.
    split; [done|]. split; [repeat (apply wf_limbs_app; split); auto with limbs|].
    split. { rewrite !length_app, length_take, Hol, !length_drop. lia. }
    split; [zbounds|]. lia.
Qed.

(** ** The loop *)

Lemma knuth_loop_spec k u q u' :
  wf_limbs u -> (k + S (S n) <= length u)%nat ->
  limbs_val (take (S (S n)) (drop k u)) < V ->
  loop_estimates_ok k u v = true ->
  knuth_loop k u v = (q, u') ->
  limbs_val (take (k + S (S n)) u) = limbs_val q * V + limbs_val (take (S (S n)) u') /\
  limbs_val (take (S (S n)) u') < V /\ wf_limbs q /\ length q = k /\ wf_limbs u' /\
  length u' = length u.
Proof.
  revert u q u'. induction k as [|j IH]; intros u q u' Hu Hlen Hlt Hok H; simpl in H, Hok.
  { simplify_eq. rewrite drop_0 in Hlt. simpl. split_and!; done || constructor || lia. }
  apply andb_true_iff in Hok as [Hok1 Hok2].
  destruct (knuth_step u v j) as [u1 qj] eqn:E1. simpl in Hok2.
  destruct (knuth_loop j u1 v) as [q1 u2] eqn:E2. simplify_eq.
  apply knuth_step_spec in E1 as (w & -> & Hw1 & Hl1 & Hqj & Heq & Hr); [|done|lia|done..].
  rewrite length_app, length_take, Nat.min_l in Hl1 by lia.
  assert (wf_limbs w) as Hww by (by apply wf_limbs_app in Hw1 as [_ ?]).
  (* the leading limb of the new window is zero *)
  assert (limbs_val (take (S (S (S n))) w) = limbs_val (take (S (S n)) w)) as Hz.
  { rewrite (limbs_val_top (S (S n))) by (rewrite length_take; lia).
    pose proof (limbs_top_bound (S (S n)) (take (S (S (S n))) w)
      ltac:(auto with limbs) ltac:(rewrite length_take; lia)) as Hb.
    pose proof divisor_bounds. pose proof (wf_limbs_nth (take (S (S (S n))) w) (S (S n)) 0
      ltac:(auto with limbs) ltac:(zbounds)) as Ht. unfold is_u32 in Ht.
    assert (nth (S (S n)) (take (S (S (S n))) w) 0 = 0) as -> by nia.
    rewrite take_take, Nat.min_l by lia. lia. }
  rewrite Hz in *.
  apply IH in E2 as (Hv2 & Hr2 & Hwq & Hlq & Hwu & Hlu).
  - rewrite take_app_ge, length_take, Nat.min_l in Hv2 by (rewrite ?length_take; lia).
    replace (j + S (S n) - j)%nat with (S (S n)) in Hv2 by lia.
    rewrite limbs_val_app, length_take, Nat.min_l in Hv2 by lia.
    rewrite length_app, length_take, Nat.min_l in Hlu by lia.
    split; [|split_and!; [done|apply wf_limbs_app; split; [done|apply wf_limbs_cons; split; [done|constructor]]
      |rewrite length_app; simpl; lia|done|lia]].
    rewrite (limbs_val_take_drop j) by (rewrite length_take; lia).
    rewrite take_take, Nat.min_l, skipn_firstn_comm by lia.
    replace (S j + S (S n) - j)%nat with (S (S (S n))) by lia.
    rewrite limbs_val_app, Hlq, Heq. simpl. lia.
  - done.
  - rewrite length_app, length_take. lia.
  - rewrite drop_app_length' by (rewrite length_take; lia). done.
  - done.
Qed.
End Step.

(** ** Normalization *)

(** The multiplier moves the leading limb into the upper half of the range. *)
Lemma normalizer_range bt :
  0 < bt < BASE ->
  let d := BASE / (bt + 1) in 0 < d < BASE /\ 2 ^ 31 <= bt * d /\ (bt + 1) * d <= BASE.
Proof.
  intros Hb d. pose proof (Z.mul_div_le BASE (bt + 1) ltac:(lia)) as H1. fold d in H1.
  pose proof (Z.mod_pos_bound BASE (bt + 1) ltac:(lia)) as H2.
  pose proof (Z.div_mod BASE (bt + 1) ltac:(lia)) as H3. fold d in H3.
  assert (1 <= d) by (apply Z.div_le_lower_bound; lia).
  split; [nia|]. split; [|lia]. zpow.
  destruct (Z.le_gt_cases 2147483648 bt); [nia|].
  destruct (Z.le_gt_cases 2147483648 (bt * d)); [done|exfalso].
  assert (0 <= (bt - 1) * (2147483648 - bt - 1)) by nia. nia.
Qed.

Lemma length_pos_nonnil {A} (l : list A) n : (S n <= length l)%nat -> l <> [].
Proof. intros H ->. simpl in H. lia. Qed.

Section Normalized.
Context (a b : list Z) (n : nat).
Hypothesis Ha : wf_limbs a.
Hypothesis Hb : wf_limbs b.
Hypothesis Hnb : normalized b.
Hypothesis Hlb : length b = S (S n).
Hypothesis Hla : (S (S n) <= length a)%nat.
Let bt := nth (S n) b 0.
Let d := knuth_normalizer b.

Lemma divisor_top_range : 0 < bt < BASE.
Proof.
  pose proof (wf_limbs_nth b (S n) 0 Hb ltac:(zbounds)) as H. fold bt in H.
  unfold normalized in Hnb. rewrite Hlb in Hnb. simpl pred in Hnb.
  rewrite (nth_indep b 1 0) in Hnb by lia. fold bt in Hnb. zbounds.
Qed.

Lemma normalizer_facts :
  0 < d < BASE /\ 2 ^ 31 <= bt * d /\ (bt + 1) * d <= BASE.
Proof.
  pose proof (normalizer_range bt divisor_top_range) as H. cbv zeta in H.
  assert (d = BASE / (bt + 1)) as ->; [|done].
  unfold d, knuth_normalizer. rewrite Hlb. replace (S (S n) - 1)%nat with (S n) by lia.
  fold bt. apply u32_small. zbounds.
Qed.

Lemma knuth_divisor_spec :
  let v := knuth_divisor b d in
  wf_limbs v /\ length v = S (S n) /\ limbs_val v = limbs_val b * d /\ 2 ^ 31 <= nth (S n) v 0.
Proof.
  destruct normalizer_facts as (Hd & Hlo & Hhi).
  pose proof (limbs_top_bound (S n) b Hb Hlb) as Hbv. fold bt in Hbv.
  destruct (mul_small_spec b d Hb ltac:(zbounds)) as [Hv Hw].
  pose proof (weight_pos (S n)).
  assert (length (bigint_mul_small b d) = S (S n)) as Hl.
  { destruct (mul_small_length b d) as [->|[_ Hge]]; [done|zbounds|apply (length_pos_nonnil b (S n)); lia|lia|done|].
    rewrite Hlb, (weight_S (S n)) in Hge. nia. }
  unfold knuth_divisor. rewrite Hl, Hlb, Nat.eqb_refl. split_and!; try done.
  pose proof (limbs_top_bound (S n) (bigint_mul_small b d) Hw Hl). zpow.
  destruct (Z.le_gt_cases 2147483648 (nth (S n) (bigint_mul_small b d) 0)); [done|]. nia.
Qed.

Lemma knuth_dividend_spec :
  let u := knuth_dividend a b d in
  wf_limbs u /\ length u = S (length a) /\ limbs_val u = limbs_val a * d.
Proof.
  destruct normalizer_facts as (Hd & _). unfold knuth_dividend. cbv zeta.
  destruct (mul_small_spec a d Ha ltac:(zbounds)) as [Hv Hw].
  set (u := bigint_mul_small a d) in *.
  set (u' := if (length u =? length a)%nat then u ++ [0] else u).
  assert (wf_limbs u' /\ length u' = S (length a) /\ limbs_val u' = limbs_val a * d) as (? & Hl & ?).
  { unfold u'. destruct (mul_small_length a d) as [E|[E _]]; [done|zbounds|apply (length_pos_nonnil a (S n)); lia|lia|..];
      fold u in E; rewrite E.
    - rewrite Nat.eqb_refl, limbs_val_app, length_app. simpl.
      split_and!; [apply wf_limbs_app; split; [done|apply (wf_limbs_zeros 1)]|lia..].
    - rewrite (proj2 (Nat.eqb_neq _ _)) by lia. split_and!; done. }
  rewrite Hl, Hlb. replace (S (length a) <=? S (S n))%nat with false
    by (symmetry; apply Nat.leb_gt; lia). split_and!; done.
Qed.

(** The leading limbs of the dividend are below the divisor, so that the
    first digit fits a limb. *)
Lemma knuth_initial_window :
  let u := knuth_dividend a b d in
  limbs_val (take (S (S n)) (drop (S (length a) - S (S n)) u)) < limbs_val b * d.
Proof.
  destruct normalizer_facts as (Hd & _). cbv zeta.
  destruct knuth_dividend_spec as (Hw & Hl & Hv). set (u := knuth_dividend a b d) in *.
  rewrite take_ge by (rewrite length_drop; lia).
  set (k := (S (length a) - S (S n))%nat).
  pose proof (limbs_val_take_drop k u ltac:(lia)) as Hs.
  pose proof (limbs_val_bound a Ha) as Hba.
  replace (length a) with (k + S n)%nat in Hba by lia. rewrite weight_add in Hba.
  pose proof (limbs_val_bound (take k u) ltac:(auto with limbs)) as Hlo.
  pose proof (normalized_lower b Hb Hnb ltac:(apply (length_pos_nonnil b (S n)); lia)) as Hbl. rewrite Hlb in Hbl. simpl in Hbl.
  pose proof (weight_pos k). pose proof (weight_pos (S n)).
  apply Z.mul_lt_mono_pos_l with (weight k); [done|].
  assert (limbs_val a * d < weight k * weight (S n) * d) by (apply Z.mul_lt_mono_pos_r; lia).
  assert (weight k * (weight (S n) * d) <= weight k * (limbs_val b * d))
    by (apply Z.mul_le_mono_nonneg_l, Z.mul_le_mono_nonneg_r; lia).
  lia.
Qed.

Lemma knuth_divmod_spec q r :
  division_estimates_ok a b = true -> knuth_divmod a b = (q, r) ->
  limbs_val q = limbs_val a / limbs_val b /\ limbs_val r = limbs_val a mod limbs_val b /\
  wf_limbs q /\ wf_limbs r /\ normalized q /\ normalized r.
Proof.
  unfold division_estimates_ok, knuth_divmod. cbv zeta. fold d. intros Hok H.
  destruct normalizer_facts as (Hd & _). destruct knuth_divisor_spec as (Hvw & Hvl & Hvv & Hvt).
  destruct knuth_dividend_spec as (Huw & Hul & Huv). pose proof knuth_initial_window as Hw0.
  cbv zeta in Hw0. set (u := knuth_dividend a b d) in *. set (v := knuth_divisor b d) in *.
  rewrite Hul, Hvl in Hok, H.
  destruct (knuth_loop (S (length a) - S (S n)) u v) as [q0 u'] eqn:E. injection H as <- <-.
  apply (knuth_loop_spec v n) in E as (Hv & Hr & Hqw & _ & Hu'w & Hu'l);
    [|done..|lia|by rewrite Hvv|done].
  rewrite take_ge, Huv, Hvv in Hv by lia. rewrite Hvv in Hr.
  set (R := limbs_val (take (S (S n)) u')) in *.
  assert (R = d * (limbs_val a - limbs_val q0 * limbs_val b)) as HR by lia.
  assert (0 <= R) by (apply limbs_val_bound; auto with limbs).
  assert (0 <= limbs_val a - limbs_val q0 * limbs_val b < limbs_val b) as Hlt by nia.
  assert (limbs_val q0 = limbs_val a / limbs_val b) as Hq by
    (apply Z.div_unique_pos with (limbs_val a - limbs_val q0 * limbs_val b); lia).
  assert (limbs_val a - limbs_val q0 * limbs_val b = limbs_val a mod limbs_val b) as Hm by
    (apply Z.mod_unique_pos with (limbs_val q0); lia).
  rewrite trim_val. destruct (Z.eqb_spec d 1) as [E1|].
  - rewrite trim_val. fold R. split_and!; auto with limbs. lia.
  - destruct (divmod_small_eq (take (S (S n)) u') d) as (Hq1 & _ & ? & ?); auto with limbs.
    split_and!; auto with limbs. rewrite Hq1. fold R. rewrite HR, Z.mul_comm, Z.div_mul by lia. done.
Qed.
End Normalized.

(** ** Small quotients *)

Lemma small_q_loop_spec fuel rem b q rem' q' :
  wf_limbs rem -> normalized rem -> wf_limbs b -> normalized b -> 0 < limbs_val b ->
  small_q_loop fuel rem b q = (rem', q') ->
  limbs_val rem = limbs_val rem' + (q' - q) * limbs_val b /\
  wf_limbs rem' /\ normalized rem' /\ q <= q' <= q + Z.of_nat fuel /\
  (limbs_val rem / limbs_val b <= Z.of_nat fuel -> limbs_val rem' < limbs_val b).
Proof.
  intros Hr Hnr Hb Hnb Hpos. revert rem q Hr Hnr.
  induction fuel as [|f IH]; intros rem q Hr Hnr H; simpl in H.
  { simplify_eq. split_and!; try done; try lia. intros Hq.
    pose proof (Z.mul_succ_div_gt (limbs_val rem') (limbs_val b) Hpos). simpl in Hq. nia. }
  rewrite compare_abs_limbs_spec in H by done.
  destruct (Z.ltb_spec (cmp_code (limbs_val rem ?= limbs_val b)) 0) as [Hc|Hc].
  { rewrite cmp_code_neg in Hc. simplify_eq. split_and!; try done; try lia. }
  rewrite Z.le_ngt, cmp_code_neg in Hc.
  destruct (sub_abs_limbs_spec rem b) as (Hv & Hw & Hn);
    [done..|apply normalized_le_length; done || lia|lia|].
  apply IH in H as (Hv' & Hw' & Hn' & Hq & Hlt); [|done..].
  unfold bigint_sub_abs_limbs in Hv. split_and!; try done; try lia.
  intros Hd. apply Hlt. rewrite Hv.
  replace (limbs_val rem - limbs_val b) with (limbs_val rem + -1 * limbs_val b) by lia.
  rewrite Z.div_add by lia. lia.
Qed.

Lemma small_quotient_spec a b q r :
  wf_limbs a -> normalized a -> wf_limbs b -> normalized b -> 0 < limbs_val b ->
  small_quotient a b = Some (q, r) ->
  limbs_val q = limbs_val a / limbs_val b /\ limbs_val r = limbs_val a mod limbs_val b /\
  wf_limbs q /\ wf_limbs r /\ normalized q /\ normalized r.
Proof.
  intros Ha Hna Hb Hnb Hpos H. unfold small_quotient in H. cbv zeta in H.
  destruct (_ || _); [|done]. destruct (nth (length b - 1) b 0 =? 0); [done|].
  destruct (_ <? SMALL_Q_LIMIT); [|done].
  destruct (small_q_loop _ a b 0) as [rem qz] eqn:E.
  apply small_q_loop_spec in E as (Hv & Hw & Hn & Hq & _); [|done..].
  destruct (bigint_compare_abs_limbs rem b <? 0) eqn:Hc; [|done]. injection H as <- <-.
  rewrite compare_abs_limbs_spec, Z.ltb_lt, cmp_code_neg in Hc by done.
  pose proof (limbs_val_bound rem Hw).
  assert (limbs_val a / limbs_val b = qz) as -> by
    (symmetry; apply Z.div_unique_pos with (limbs_val rem); lia).
  assert (limbs_val a mod limbs_val b = limbs_val rem) as -> by
    (symmetry; apply Z.mod_unique_pos with qz; lia).
  change (Z.of_nat (Z.to_nat SMALL_Q_LIMIT)) with 16 in Hq.
  destruct (Z.eqb_spec qz 0); simpl; split_and!; try done; try lia; [constructor|].
  apply wf_limbs_cons. split; [zbounds|constructor].
Qed.

(** The estimate of the fast path is an upper bound of the quotient, so that
    the loop always finishes there. *)
Lemma small_quotient_finishes a b n :
  wf_limbs a -> normalized a -> wf_limbs b -> normalized b -> length b = S n ->
  (length a = S n /\ nth n a 0 / nth n b 0 < SMALL_Q_LIMIT \/
   length a = S (S n) /\ (nth (S n) a 0 * BASE + nth n a 0) / nth n b 0 < SMALL_Q_LIMIT) ->
  is_Some (small_quotient a b).
Proof.
  intros Ha Hna Hb Hnb Hlb Hcase.
  assert (forall i, is_u32 (nth i a 0)) as Hai by (intros; apply wf_limbs_nth; [done|zbounds]).
  assert (0 < nth n b 0) as Hbt.
  { pose proof (wf_limbs_nth b n 0 Hb ltac:(zbounds)). unfold normalized in Hnb.
    rewrite Hlb in Hnb. simpl in Hnb. rewrite (nth_indep b 1 0) in Hnb by lia. zbounds. }
  pose proof (limbs_top_bound n b Hb Hlb) as Hbv. pose proof (weight_pos n) as Hw.
  assert (0 < limbs_val b) as Hpos by nia.
  set (est := if (length a =? length b)%nat then nth (length a - 1) a 0 / nth n b 0
    else Z.lor (u64 (Z.shiftl (nth (length a - 1) a 0) 32)) (nth (length a - 2) a 0) / nth n b 0).
  assert (est < 16 /\ limbs_val a / limbs_val b <= est) as [Hest Hle].
  { assert (forall t, limbs_val a < weight n * (t + 1) -> limbs_val a / limbs_val b <= t / nth n b 0) as Hub.
    { intros t Ht. apply Z.div_le_lower_bound; [done|].
      pose proof (Z.mul_div_le (limbs_val a) (limbs_val b) Hpos).
      assert (0 <= limbs_val a / limbs_val b) by (apply Z.div_pos; [apply limbs_val_bound; done|done]).
      assert (weight n * (nth n b 0 * (limbs_val a / limbs_val b)) < weight n * (t + 1)) as Hm by nia.
      apply Z.mul_lt_mono_pos_l in Hm; lia. }
    unfold est. destruct Hcase as [[Hl Hq]|[Hl Hq]]; rewrite Hl, Hlb.
    - rewrite Nat.eqb_refl. replace (S n - 1)%nat with n by lia. split; [done|].
      apply Hub. apply limbs_top_bound; done.
    - rewrite (proj2 (Nat.eqb_neq (S (S n)) (S n))) by lia.
      replace (S (S n) - 1)%nat with (S n) by lia. replace (S (S n) - 2)%nat with n by lia.
      rewrite (u64_small (Z.shiftl _ _)), lor_shiftl_add by
        (try rewrite Z.shiftl_mul_pow2 by lia; pose proof (Hai (S n)); pose proof (Hai n); zbounds).
      change (2 ^ 32) with BASE. split; [done|]. apply Hub.
      pose proof (two_top_limbs n a Ha Hl). lia. }
  unfold small_quotient.
  replace ((length a =? length b)%nat || (length a =? length b + 1)%nat) with true
    by (symmetry; apply orb_true_iff; rewrite !Nat.eqb_eq; lia).
  replace (length b - 1)%nat with n by lia. rewrite (proj2 (Z.eqb_neq _ 0)) by lia. fold est.
  unfold SMALL_Q_LIMIT at 1. rewrite (proj2 (Z.ltb_lt est 16) Hest).
  destruct (small_q_loop (Z.to_nat SMALL_Q_LIMIT) a b 0) as [rem q] eqn:E.
  apply small_q_loop_spec in E as (_ & Hrw & Hrn & _ & Hlt); [|done..].
  rewrite compare_abs_limbs_spec by done.
  rewrite (proj2 (Z.ltb_lt _ 0)); [done|]. rewrite cmp_code_neg. apply Hlt.
  change (Z.of_nat (Z.to_nat SMALL_Q_LIMIT)) with 16. lia.
Qed.

(** ** The whole routine *)

(** Whether the division of [a] by [b] avoids the defective digit estimate;
    the other paths do not use it. *)
Definition digit_estimates_ok (a b : list Z) : bool :=
  match b with
  | [] | [_] => true
  | _ =>
      if bigint_compare_abs_limbs a b <=? 0 then true
      else match small_quotient a b with
           | Some _ => true
           | None => division_estimates_ok a b
           end
  end.

Lemma divmod_abs_limbs_spec a b want_q want_r :
  wf_limbs a -> wf_limbs b -> normalized a -> normalized b -> b <> [] ->
  want_q || want_r = true -> digit_estimates_ok a b = true ->
  exists q r,
    bigint_divmod_abs_limbs a b want_q want_r =
      {| dm_div_by_zero := false;
         dm_q := if want_q then Some q else None;
         dm_r := if want_r then Some r else None |} /\
    limbs_val q = limbs_val a / limbs_val b /\ limbs_val r = limbs_val a mod limbs_val b /\
    wf_limbs q /\ wf_limbs r /\ normalized q /\ normalized r.
Proof.
  intros Ha Hb Hna Hnb Hne Hwant Hok.
  assert (0 < limbs_val b) as Hpos.
  { pose proof (normalized_lower b Hb Hnb Hne). pose proof (weight_pos (pred (length b))). lia. }
  pose proof (limbs_val_bound a Ha) as Hab.
  unfold bigint_divmod_abs_limbs, digit_estimates_ok in *.
  destruct b as [|b0 b']; [done|]. destruct a as [|a0 a'].
  { exists [], []. change (limbs_val []) with 0. rewrite Z.div_0_l, Z.mod_0_l by lia.
    split_and!; done || constructor. }
  set (a := a0 :: a') in *. clearbody a. clear a0 a'. set (b := b0 :: b') in *.
  rewrite compare_abs_limbs_spec in * by done.
  destruct (Z.ltb_spec (cmp_code (limbs_val a ?= limbs_val b)) 0) as [Hc|Hc].
  { rewrite cmp_code_neg in Hc. exists [], a. rewrite Z.div_small, Z.mod_small by lia.
    split_and!; done || constructor. }
  destruct (Z.eqb_spec (cmp_code (limbs_val a ?= limbs_val b)) 0) as [Hz|Hz].
  { rewrite cmp_code_zero in Hz. exists [1], []. rewrite Hz, Z.div_same, Z.mod_same by lia.
    split_and!; try done; [|constructor]. apply wf_limbs_cons. split; [zbounds|constructor]. }
  rewrite (proj2 (Z.leb_gt _ 0)) in Hok by lia.
  destruct b' as [|b1 b''].
  { apply wf_limbs_cons in Hb as [Hb0 _]. assert (limbs_val b = b0) as -> by (simpl; lia).
    destruct (divmod_small_eq a b0) as (Hq & Hr & Hqw & Hqn); [done|simpl in Hpos; zbounds|].
    destruct (bigint_divmod_small a b0) as [q rem]. simpl in Hq, Hr, Hqw, Hqn.
    exists q, (if rem =? 0 then [] else [rem]). subst rem.
    pose proof (Z.mod_pos_bound (limbs_val a) b0 ltac:(simpl in Hpos; lia)).
    destruct (Z.eqb_spec (limbs_val a mod b0) 0) as [E|]; split_and!; try done;
      simpl; try lia; [constructor|].
    apply wf_limbs_cons. split; [zbounds|constructor]. }
  rewrite Hwant. destruct (small_quotient a b) as [[q r]|] eqn:E.
  { exists q, r. split; [done|]. by apply small_quotient_spec. }
  destruct (knuth_divmod a b) as [q r] eqn:E'.
  exists q, r. split; [done|].
  apply (knuth_divmod_spec a b (length b'')) in E'; try done.
  apply (normalized_le_length a b); try done.
  destruct (Z.compare_spec (limbs_val a) (limbs_val b)); simpl in *; lia.
Qed.

(** ** A sufficient condition on the divisor *)

(** If the two leading limbs of the normalized divisor sum to less than the
    base, the defective case is never met. *)
Lemma step_estimate_ok_of_divisor u v n j :
  wf_limbs u -> wf_limbs v -> length v = S (S n) -> (j + S (S (S n)) <= length u)%nat ->
  2 ^ 31 <= nth (S n) v 0 -> nth (S n) v 0 + nth n v 0 < BASE ->
  limbs_val (take (S (S n)) (drop (S j) u)) < limbs_val v ->
  step_estimate_ok u v j = true.
Proof.
  intros Hu Hv Hlv Hlen Htop Hsum Hlt. unfold step_estimate_ok. rewrite Hlv.
  replace (j + S (S n) - 1)%nat with (j + S n)%nat by lia.
  replace (S (S n) - 1)%nat with (S n) by lia.
  pose proof (two_top_limbs n v Hv Hlv) as HV.
  pose proof (two_top_limbs n (take (S (S n)) (drop (S j) u)) ltac:(auto with limbs)
    ltac:(rewrite length_take, length_drop; lia)) as HW.
  rewrite !nth_take_lt, !nth_drop in HW by lia.
  replace (S j + S n)%nat with (j + S (S n))%nat in HW by lia.
  replace (S j + n)%nat with (j + S n)%nat in HW by lia.
  assert (forall i, is_u32 (nth i u 0)) as Hui by (intros; apply wf_limbs_nth; [done|zbounds]).
  pose proof (Hui (j + S (S n))%nat). pose proof (Hui (j + S n)%nat).
  pose proof (wf_limbs_nth v n 0 Hv ltac:(zbounds)). pose proof (weight_pos n).
  set (ujn := nth (j + S (S n)) u 0) in *. set (ujn1 := nth (j + S n) u 0) in *.
  assert (ujn * BASE + ujn1 < nth (S n) v 0 * BASE + nth n v 0 + 1) as Hle.
  { apply Z.mul_lt_mono_pos_r with (weight n); lia. }
  apply orb_true_iff. rewrite andb_true_iff, !Z.ltb_lt. zbounds.
Qed.

Lemma loop_estimates_ok_of_divisor k u v n :
  wf_limbs u -> wf_limbs v -> length v = S (S n) -> (k + S (S n) <= length u)%nat ->
  2 ^ 31 <= nth (S n) v 0 -> nth (S n) v 0 + nth n v 0 < BASE ->
  limbs_val (take (S (S n)) (drop k u)) < limbs_val v ->
  loop_estimates_ok k u v = true.
Proof.
  intros Hu Hv Hlv Hlen Htop Hsum. revert u Hu Hlen.
  induction k as [|j IH]; intros u Hu Hlen Hlt; [done|]. simpl.
  pose proof (step_estimate_ok_of_divisor u v n j Hu Hv Hlv ltac:(lia) Htop Hsum Hlt) as Hok.
  rewrite Hok. simpl. destruct (knuth_step u v j) as [u' qj] eqn:E. simpl.
  apply (knuth_step_spec v n) in E as (w & -> & Hw & Hl & _ & _ & Hr); try done; try lia.
  apply IH; [done|lia|]. rewrite drop_app_length' by (rewrite length_take; lia).
  apply wf_limbs_app in Hw as [_ Hw].
  pose proof (limbs_val_take_drop (S (S n)) (take (S (S (S n))) w)) as Hs.
  rewrite length_app, length_take in Hl. rewrite length_take, take_take, !Nat.min_l in Hs by lia.
  pose proof (limbs_val_bound (drop (S (S n)) (take (S (S (S n))) w)) ltac:(auto with limbs)).
  pose proof (weight_pos (S (S n))). specialize (Hs ltac:(lia)).
  assert (0 <= weight (S (S n)) * limbs_val (drop (S (S n)) (take (S (S (S n))) w)))
    by (apply Z.mul_nonneg_nonneg; lia). lia.
Qed.

Lemma division_estimates_ok_of_divisor a b n :
  wf_limbs a -> wf_limbs b -> normalized b -> length b = S (S n) -> (S (S n) <= length a)%nat ->
  (let v := knuth_divisor b (knuth_normalizer b) in nth (S n) v 0 + nth n v 0 < BASE) ->
  division_estimates_ok a b = true.
Proof.
  intros Ha Hb Hnb Hlb Hla Hsum. unfold division_estimates_ok. cbv zeta in *.
  destruct (knuth_divisor_spec a b n Hb Hnb Hlb Hla) as (Hvw & Hvl & Hvv & Hvt).
  destruct (knuth_dividend_spec a b n Ha Hb Hnb Hlb Hla) as (Huw & Hul & _).
  rewrite Hvl, Hul. apply (loop_estimates_ok_of_divisor _ _ _ n); try done; [lia|].
  rewrite Hvv. by apply (knuth_initial_window a b n).
Qed.
