(* ===== verification/BigIntObj.v ===== *)
(** * Signed big integers: [ObjBigInt] of [src/src/vm.h] and the operations of
    [src/src/bigint.c]

    A pointer argument that the code tests for [NULL] is an [option]. The
    operations return fresh objects with reference count 1; allocation failure
    (a [longjmp] out of [safe_malloc]) is not modelled. The abstract value of
    an object is the integer [bi_val], and each operation is shown to compute
    the operation of [Z] on it. *)

From S2P Require Import Prelude BigIntLimbs BigIntDiv.

Record ObjBigInt := mkBigInt {
  ref_count : Z;
  sign : Z;
  limbs : list Z
}.

Definition bi_val (b : ObjBigInt) : Z := sign b * limbs_val (limbs b).

(** Representation invariant: limbs in range, no leading zero, and a sign that
    is zero exactly for the empty magnitude. *)
Definition bi_wf (b : ObjBigInt) : Prop :=
  wf_limbs (limbs b) /\ normalized (limbs b) /\
  (limbs b = [] /\ sign b = 0 \/ limbs b <> [] /\ (sign b = 1 \/ sign b = -1)).

(** ** Construction *)

Definition bigint_from_limbs (s : Z) (l : list Z) : ObjBigInt :=
  match trim l with
  | [] => mkBigInt 1 0 []
  | l' => mkBigInt 1 (if s <? 0 then -1 else 1) l'
  end.

Definition bigint_zero : ObjBigInt := bigint_from_limbs 0 [].

Definition bigint_copy (src : option ObjBigInt) : ObjBigInt :=
  match src with
  | None => bigint_zero
  | Some b => match limbs b with
              | [] => bigint_zero
              | l => bigint_from_limbs (sign b) l
              end
  end.

(** [while (abs_val > 0)] on a 64-bit magnitude: at most two limbs. *)
Fixpoint limbs_of_u64 (fuel : nat) (x : Z) : list Z :=
  match fuel with
  | O => []
  | S f => if 0 <? x then u32 x :: limbs_of_u64 f (Z.shiftr x 32) else []
  end.

Definition obj_bigint_from_int64 (value : Z) : ObjBigInt :=
  if value =? 0 then bigint_zero
  else
    let abs_val := if value <? 0 then u64 (u64 (- (value + 1)) + 1) else u64 value in
    bigint_from_limbs (if value <? 0 then -1 else 1) (limbs_of_u64 2 abs_val).

(** ** Reference counts *)

Definition obj_bigint_retain (b : option ObjBigInt) : option ObjBigInt :=
  match b with
  | None => None
  | Some b => Some (mkBigInt (ref_count b + 1) (sign b) (limbs b))
  end.

(** [None]: the object was freed. *)
Definition obj_bigint_release (b : option ObjBigInt) : option ObjBigInt :=
  match b with
  | None => None
  | Some b =>
      let n := ref_count b - 1 in
      if n <=? 0 then None else Some (mkBigInt n (sign b) (limbs b))
  end.

(** ** Comparison and arithmetic *)

Definition obj_bigint_compare_abs (a b : option ObjBigInt) : Z :=
  match a, b with
  | Some a, Some b => bigint_compare_abs_limbs (limbs a) (limbs b)
  | _, _ => 0
  end.

Definition obj_bigint_compare (a b : option ObjBigInt) : Z :=
  match a, b with
  | Some a, Some b =>
      if sign a =? sign b then
        if sign a =? 0 then 0
        else let cmp := bigint_compare_abs_limbs (limbs a) (limbs b) in
             if sign a <? 0 then - cmp else cmp
      else if sign a <? sign b then -1 else 1
  | _, _ => 0
  end.

Definition obj_bigint_add (a b : option ObjBigInt) : ObjBigInt :=
  match a, b with
  | Some x, Some y =>
      if sign x =? 0 then bigint_copy b
      else if sign y =? 0 then bigint_copy a
      else if sign x =? sign y then
        bigint_from_limbs (sign x) (bigint_add_abs_limbs (limbs x) (limbs y))
      else
        let cmp := bigint_compare_abs_limbs (limbs x) (limbs y) in
        if cmp =? 0 then bigint_zero
        else if 0 <? cmp then
          bigint_from_limbs (sign x) (bigint_sub_abs_limbs (limbs x) (limbs y))
        else bigint_from_limbs (sign y) (bigint_sub_abs_limbs (limbs y) (limbs x))
  | _, _ => bigint_zero
  end.

Definition obj_bigint_sub (a b : option ObjBigInt) : ObjBigInt :=
  match a, b with
  | Some _, Some y => obj_bigint_add a (Some (mkBigInt (ref_count y) (- sign y) (limbs y)))
  | _, _ => bigint_zero
  end.

Definition obj_bigint_mul (a b : option ObjBigInt) : ObjBigInt :=
  match a, b with
  | Some x, Some y =>
      if (sign x =? 0) || (sign y =? 0) then bigint_zero
      else match limbs x, limbs y with
           | [m], _ => bigint_from_limbs (sign x * sign y) (bigint_mul_small (limbs y) m)
           | _, [m] => bigint_from_limbs (sign x * sign y) (bigint_mul_small (limbs x) m)
           | _, _ => bigint_from_limbs (sign x * sign y) (bigint_mul_abs_limbs (limbs x) (limbs y))
           end
  | _, _ => bigint_zero
  end.

(** The result and the object after the call. *)
Definition obj_bigint_mul_small_inplace (a : option ObjBigInt) (m : Z) : bool * option ObjBigInt :=
  match a with
  | None => (false, None)
  | Some x =>
      if (sign x =? 0) || (length (limbs x) =? 0)%nat then (true, a)
      else if m =? 0 then (true, Some (mkBigInt (ref_count x) 0 []))
      else if m =? 1 then (true, a)
      else
        let l := bigint_mul_add_small_inplace (limbs x) m 0 in
        (true, Some (mkBigInt (ref_count x) (if (length l =? 0)%nat then 0 else sign x) l))
  end.

(** The quotient and the [div_by_zero] flag. *)
Definition obj_bigint_div (a b : option ObjBigInt) : ObjBigInt * bool :=
  match a, b with
  | Some x, Some y =>
      if sign y =? 0 then (bigint_zero, true)
      else if sign x =? 0 then (bigint_zero, false)
      else
        let out := bigint_divmod_abs_limbs (limbs x) (limbs y) true false in
        let q := default [] (dm_q out) in
        (bigint_from_limbs (if (length q =? 0)%nat then 0 else sign x * sign y) q,
         dm_div_by_zero out)
  | _, _ => (bigint_zero, false)
  end.

Definition obj_bigint_mod (a b : option ObjBigInt) : ObjBigInt * bool :=
  match a, b with
  | Some x, Some y =>
      if sign y =? 0 then (bigint_zero, true)
      else if sign x =? 0 then (bigint_zero, false)
      else
        let out := bigint_divmod_abs_limbs (limbs x) (limbs y) false true in
        let r := default [] (dm_r out) in
        (bigint_from_limbs (if (length r =? 0)%nat then 0 else sign x) r,
         dm_div_by_zero out)
  | _, _ => (bigint_zero, false)
  end.

Definition obj_bigint_negate (a : option ObjBigInt) : ObjBigInt :=
  match a with
  | None => bigint_zero
  | Some x => if sign x =? 0 then bigint_copy a else bigint_from_limbs (- sign x) (limbs x)
  end.

Definition obj_bigint_is_even (a : option ObjBigInt) : bool :=
  match a with
  | None => false
  | Some x => match limbs x with [] => true | l0 :: _ => Z.land l0 1 =? 0 end
  end.

(** ** Conversion to [int64_t] *)

(** The limbs from the most significant down; [None] is the early [false]. *)
Fixpoint to_int64_loop (l : list Z) (limit : Z) : option Z :=
  match l with
  | [] => Some 0
  | limb :: l' =>
      match to_int64_loop l' limit with
      | None => None
      | Some acc =>
          if Z.shiftr (u64 (limit - limb)) 32 <? acc then None
          else Some (Z.lor (u64 (Z.shiftl acc 32)) limb)
      end
  end.

Definition obj_bigint_to_int64 (b : option ObjBigInt) : option Z :=
  match b with
  | None => None
  | Some x =>
      if sign x =? 0 then Some 0
      else
        let limit := if sign x <? 0 then u64 (INT64_MAX + 1) else INT64_MAX in
        match to_int64_loop (limbs x) limit with
        | None => None
        | Some acc =>
            if sign x <? 0 then
              Some (if acc =? limit then INT64_MIN else - i64 acc)
            else Some (i64 acc)
        end
  end.

(** ** Bitwise operations on two's complement limbs *)

Definition bigint_abs_limb_at (bi : option ObjBigInt) (index : nat) : Z :=
  match bi with
  | None => 0
  | Some b => nth index (limbs b) 0
  end.

(** The limb and the carry after it. *)
Definition bigint_twos_complement_limb_at (bi : option ObjBigInt) (index : nat) (carry : Z) : Z * Z :=
  let limb := bigint_abs_limb_at bi index in
  match bi with
  | None => (limb, carry)
  | Some b =>
      if 0 <=? sign b then (limb, carry)
      else let sum := u64 ((UINT32_MAX - limb) + carry) in (u32 sum, Z.shiftr sum 32)
  end.

Fixpoint negate_loop (l : list Z) (carry : Z) : list Z :=
  match l with
  | [] => []
  | x :: l' =>
      let sum := u64 ((UINT32_MAX - x) + carry) in
      u32 sum :: negate_loop l' (Z.shiftr sum 32)
  end.

Definition bigint_from_twos_complement_limbs (l : list Z) : ObjBigInt :=
  match l with
  | [] => bigint_zero
  | _ =>
      if Z.land (nth (length l - 1) l 0) (2 ^ 31) =? 0 then bigint_from_limbs 1 l
      else bigint_from_limbs (-1) (negate_loop l 1)
  end.

Inductive BigIntBitOp := BIGINT_BITOP_AND | BIGINT_BITOP_OR | BIGINT_BITOP_XOR.

Definition apply_bitop (op : BigIntBitOp) (x y : Z) : Z :=
  match op with
  | BIGINT_BITOP_AND => Z.land x y
  | BIGINT_BITOP_OR => Z.lor x y
  | BIGINT_BITOP_XOR => Z.lxor x y
  end.

(** [for (i = 0; i < out_count; i++)]: [n] iterations are left, [i] is next. *)
Fixpoint bitop_loop (op : BigIntBitOp) (a b : option ObjBigInt) (n i : nat) (ca cb : Z) : list Z :=
  match n with
  | O => []
  | S n' =>
      let '(la, ca') := bigint_twos_complement_limb_at a i ca in
      let '(lb, cb') := bigint_twos_complement_limb_at b i cb in
      apply_bitop op la lb :: bitop_loop op a b n' (S i) ca' cb'
  end.

Definition count_of (a : option ObjBigInt) : nat :=
  match a with None => 0 | Some x => length (limbs x) end.
Definition is_negative (a : option ObjBigInt) : bool :=
  match a with None => false | Some x => sign x <? 0 end.

Definition bigint_bitwise_binary_op (a b : option ObjBigInt) (op : BigIntBitOp) : ObjBigInt :=
  let out_count := S (max (count_of a) (count_of b)) in
  bigint_from_twos_complement_limbs
    (bitop_loop op a b out_count 0 (if is_negative a then 1 else 0) (if is_negative b then 1 else 0)).

Definition obj_bigint_bit_and a b := bigint_bitwise_binary_op a b BIGINT_BITOP_AND.
Definition obj_bigint_bit_or a b := bigint_bitwise_binary_op a b BIGINT_BITOP_OR.
Definition obj_bigint_bit_xor a b := bigint_bitwise_binary_op a b BIGINT_BITOP_XOR.

Fixpoint bit_not_loop (a : option ObjBigInt) (n i : nat) (carry : Z) : list Z :=
  match n with
  | O => []
  | S n' =>
      let '(l, carry') := bigint_twos_complement_limb_at a i carry in
      (UINT32_MAX - l) :: bit_not_loop a n' (S i) carry'
  end.

Definition obj_bigint_bit_not (a : option ObjBigInt) : ObjBigInt :=
  bigint_from_twos_complement_limbs
    (bit_not_loop a (S (count_of a)) 0 (if is_negative a then 1 else 0)).

(** ** Representation lemmas *)

Create HintDb bigint.

Lemma bi_wf_limbs b : bi_wf b -> wf_limbs (limbs b).
Proof. by intros (? & _). Qed.
Lemma bi_wf_normalized b : bi_wf b -> normalized (limbs b).
Proof. by intros (_ & ? & _). Qed.
#[export] Hint Resolve bi_wf_limbs bi_wf_normalized : bigint limbs.

Lemma limbs_val_pos l : wf_limbs l -> normalized l -> l <> [] -> 0 < limbs_val l.
Proof.
  intros Hl Hn Hne. pose proof (normalized_lower l Hl Hn Hne).
  pose proof (weight_pos (pred (length l))). lia.
Qed.

(** The sign field is the sign of the value, and the magnitude its absolute
    value. *)
Lemma bi_wf_sign b : bi_wf b -> sign b = Z.sgn (bi_val b).
Proof.
  intros (Hw & Hn & [[Hl Hs] | [Hl Hs]]); unfold bi_val.
  - by rewrite Hs.
  - pose proof (limbs_val_pos _ Hw Hn Hl). destruct Hs as [-> | ->]; lia.
Qed.

Lemma bi_wf_abs b : bi_wf b -> limbs_val (limbs b) = Z.abs (bi_val b).
Proof.
  intros (Hw & Hn & [[Hl Hs] | [Hl Hs]]); unfold bi_val.
  - by rewrite Hs, Hl.
  - pose proof (limbs_val_pos _ Hw Hn Hl). destruct Hs as [-> | ->]; lia.
Qed.

Lemma bi_wf_zero b : bi_wf b -> (sign b = 0 <-> bi_val b = 0).
Proof. intros H. rewrite (bi_wf_sign b H). lia. Qed.

Lemma from_limbs_spec s l :
  wf_limbs l ->
  bi_wf (bigint_from_limbs s l) /\
  bi_val (bigint_from_limbs s l) = (if s <? 0 then - limbs_val l else limbs_val l) /\
  ref_count (bigint_from_limbs s l) = 1.
Proof.
  intros Hl. pose proof (trim_wf l Hl) as Hw. pose proof (trim_normalized l) as Hn.
  pose proof (trim_val l) as Hv. unfold bigint_from_limbs.
  destruct (trim l) as [|x t].
  - simpl in Hv. rewrite <- Hv. split; [|by unfold bi_val; simpl; case_match].
    split; [constructor|]. split; [done|by left].
  - split; [|unfold bi_val; simpl sign; simpl limbs; split; [|done]; rewrite Hv; case_match; lia].
    split; [done|]. split; [done|]. right. split; [done|]. simpl. case_match; auto.
Qed.

Lemma zero_spec : bi_wf bigint_zero /\ bi_val bigint_zero = 0 /\ ref_count bigint_zero = 1.
Proof. apply (from_limbs_spec 0 []). constructor. Qed.

(** Two well-formed objects with the same value have the same fields. *)
Lemma bi_val_inj a b : bi_wf a -> bi_wf b -> bi_val a = bi_val b -> sign a = sign b /\ limbs a = limbs b.
Proof.
  intros Ha Hb Hv. split; [by rewrite (bi_wf_sign a Ha), (bi_wf_sign b Hb), Hv|].
  apply limbs_val_inj; auto with bigint.
  by rewrite (bi_wf_abs a Ha), (bi_wf_abs b Hb), Hv.
Qed.

(** What every operation returns: a well-formed object of value [z] owned by
    the caller. *)
Definition returns (b : ObjBigInt) (z : Z) : Prop := bi_wf b /\ bi_val b = z /\ ref_count b = 1.

Lemma returns_zero : returns bigint_zero 0.
Proof. apply zero_spec. Qed.

Lemma returns_from_limbs s l z :
  wf_limbs l -> (if s <? 0 then - limbs_val l else limbs_val l) = z ->
  returns (bigint_from_limbs s l) z.
Proof. intros Hl <-. by apply from_limbs_spec. Qed.
#[export] Hint Resolve returns_zero : bigint.

Lemma copy_spec b : bi_wf b -> returns (bigint_copy (Some b)) (bi_val b).
Proof.
  intros Hb. unfold bigint_copy. destruct (limbs b) as [|x l] eqn:E.
  - assert (bi_val b = 0) as -> by (unfold bi_val; rewrite E; simpl; lia). auto with bigint.
  - rewrite <- E. apply returns_from_limbs; [auto with bigint|].
    pose proof (bi_wf_abs b Hb). rewrite (bi_wf_sign b Hb).
    destruct (Z.ltb_spec (Z.sgn (bi_val b)) 0); lia.
Qed.

(** ** Comparison *)

Lemma compare_spec a b :
  bi_wf a -> bi_wf b ->
  obj_bigint_compare (Some a) (Some b) = cmp_code (bi_val a ?= bi_val b).
Proof.
  intros Ha Hb. unfold obj_bigint_compare.
  rewrite compare_abs_limbs_spec, (bi_wf_abs a Ha), (bi_wf_abs b Hb) by auto with bigint.
  rewrite (bi_wf_sign a Ha), (bi_wf_sign b Hb).
  destruct (Z.compare_spec (bi_val a) (bi_val b)) as [H|H|H];
    destruct (Z.eqb_spec (Z.sgn (bi_val a)) (Z.sgn (bi_val b))) as [E|E];
    destruct (Z.eqb_spec (Z.sgn (bi_val a)) 0);
    destruct (Z.ltb_spec (Z.sgn (bi_val a)) (Z.sgn (bi_val b)));
    destruct (Z.ltb_spec (Z.sgn (bi_val a)) 0);
    destruct (Z.compare_spec (Z.abs (bi_val a)) (Z.abs (bi_val b))); simpl; lia.
Qed.

(** ** Arithmetic *)

Lemma add_spec a b :
  bi_wf a -> bi_wf b -> returns (obj_bigint_add (Some a) (Some b)) (bi_val a + bi_val b).
Proof.
  intros Ha Hb. unfold obj_bigint_add.
  pose proof (bi_wf_abs a Ha) as Aa. pose proof (bi_wf_abs b Hb) as Ab.
  pose proof (bi_wf_sign a Ha) as Sa. pose proof (bi_wf_sign b Hb) as Sb.
  destruct (Z.eqb_spec (sign a) 0).
  { replace (bi_val a + bi_val b) with (bi_val b) by lia. by apply copy_spec. }
  destruct (Z.eqb_spec (sign b) 0).
  { replace (bi_val a + bi_val b) with (bi_val a) by lia. by apply copy_spec. }
  destruct (Z.eqb_spec (sign a) (sign b)).
  { destruct (add_abs_limbs_spec (limbs a) (limbs b)) as (Hv & Hw & _); [auto with bigint..|].
    apply returns_from_limbs; [done|]. rewrite Hv, Aa, Ab.
    destruct (Z.ltb_spec (sign a) 0); lia. }
  rewrite compare_abs_limbs_spec by auto with bigint.
  destruct (Z.eqb_spec (cmp_code (limbs_val (limbs a) ?= limbs_val (limbs b))) 0) as [Hc|Hc].
  { rewrite cmp_code_zero in Hc. replace (bi_val a + bi_val b) with 0 by lia. auto with bigint. }
  destruct (Z.ltb_spec 0 (cmp_code (limbs_val (limbs a) ?= limbs_val (limbs b)))) as [Hp|Hp].
  - rewrite cmp_code_pos in Hp.
    destruct (sub_abs_limbs_spec (limbs a) (limbs b)) as (Hv & Hw & _);
      [auto with bigint..|apply normalized_le_length; auto with bigint; lia|lia|].
    apply returns_from_limbs; [done|]. rewrite Hv, Aa, Ab. destruct (Z.ltb_spec (sign a) 0); lia.
  - assert (limbs_val (limbs a) < limbs_val (limbs b)) by (rewrite <- cmp_code_neg; lia).
    destruct (sub_abs_limbs_spec (limbs b) (limbs a)) as (Hv & Hw & _);
      [auto with bigint..|apply normalized_le_length; auto with bigint; lia|lia|].
    apply returns_from_limbs; [done|]. rewrite Hv, Aa, Ab. destruct (Z.ltb_spec (sign b) 0); lia.
Qed.

Lemma neg_view_spec b :
  bi_wf b -> bi_wf (mkBigInt (ref_count b) (- sign b) (limbs b)) /\
             bi_val (mkBigInt (ref_count b) (- sign b) (limbs b)) = - bi_val b.
Proof.
  intros (Hw & Hn & Hs). split; [|unfold bi_val; simpl; lia].
  split; [done|]. split; [done|]. simpl.
  destruct Hs as [[-> ->] | [? [-> | ->]]]; [by left|right; split; [done|lia]..].
Qed.

Lemma sub_spec a b :
  bi_wf a -> bi_wf b -> returns (obj_bigint_sub (Some a) (Some b)) (bi_val a - bi_val b).
Proof.
  intros Ha Hb. unfold obj_bigint_sub. destruct (neg_view_spec b Hb) as [Hw Hv].
  rewrite <- Z.add_opp_r, <- Hv. by apply add_spec.
Qed.

Lemma mul_spec a b :
  bi_wf a -> bi_wf b -> returns (obj_bigint_mul (Some a) (Some b)) (bi_val a * bi_val b).
Proof.
  intros Ha Hb. unfold obj_bigint_mul.
  pose proof (bi_wf_abs a Ha) as Aa. pose proof (bi_wf_abs b Hb) as Ab.
  pose proof (bi_wf_sign a Ha) as Sa. pose proof (bi_wf_sign b Hb) as Sb.
  destruct ((sign a =? 0) || (sign b =? 0)) eqn:Hz.
  { apply orb_true_iff in Hz. rewrite !Z.eqb_eq in Hz.
    replace (bi_val a * bi_val b) with 0 by nia. auto with bigint. }
  apply orb_false_iff in Hz. rewrite !Z.eqb_neq in Hz.
  assert (forall l, limbs_val l = Z.abs (bi_val a) * Z.abs (bi_val b) -> wf_limbs l ->
    returns (bigint_from_limbs (sign a * sign b) l) (bi_val a * bi_val b)) as Hret.
  { intros l Hl Hw. apply returns_from_limbs; [done|]. rewrite Hl, <- Z.abs_mul, Sa, Sb, <- Z.sgn_mul.
    destruct (Z.ltb_spec (Z.sgn (bi_val a * bi_val b)) 0); lia. }
  pose proof (bi_wf_limbs a Ha) as Wa. pose proof (bi_wf_limbs b Hb) as Wb.
  destruct (mul_abs_limbs_spec (limbs a) (limbs b) Wa Wb) as (Hv & Hw & _).
  assert (forall m, limbs a = [m] -> returns (bigint_from_limbs (sign a * sign b)
    (bigint_mul_small (limbs b) m)) (bi_val a * bi_val b)) as Hone.
  { intros m Em. rewrite Em in Wa, Aa. apply wf_limbs_cons in Wa as [Wm _].
    destruct (mul_small_spec (limbs b) m Wb Wm) as [Hv' Hw']. apply Hret; [|done].
    rewrite Hv', Ab, <- Aa. simpl. lia. }
  assert (forall m, limbs b = [m] -> returns (bigint_from_limbs (sign a * sign b)
    (bigint_mul_small (limbs a) m)) (bi_val a * bi_val b)) as Hone'.
  { intros m Em. rewrite Em in Wb, Ab. apply wf_limbs_cons in Wb as [Wm _].
    destruct (mul_small_spec (limbs a) m Wa Wm) as [Hv' Hw']. apply Hret; [|done].
    rewrite Hv', Aa, <- Ab. simpl. lia. }
  rewrite Aa, Ab in Hv.
  destruct (limbs a) as [|a0 [|a1 a']], (limbs b) as [|b0 [|b1 b']]; auto.
Qed.

(** ** The remaining arithmetic *)

Lemma mul_small_inplace_spec a m :
  bi_wf a -> is_u32 m ->
  exists b, obj_bigint_mul_small_inplace (Some a) m = (true, Some b) /\
    bi_wf b /\ bi_val b = bi_val a * m /\ ref_count b = ref_count a.
Proof.
  intros Ha Hm. unfold obj_bigint_mul_small_inplace.
  pose proof (bi_wf_abs a Ha) as Aa. pose proof (bi_wf_sign a Ha) as Sa.
  destruct ((sign a =? 0) || (length (limbs a) =? 0)%nat) eqn:Hz.
  { exists a. split; [done|]. split; [done|]. split; [|done].
    assert (bi_val a = 0); [|lia].
    apply orb_true_iff in Hz as [Hz|Hz]; [lia|].
    apply Nat.eqb_eq, nil_length_inv in Hz. rewrite Hz in Aa. simpl in Aa. lia. }
  destruct (Z.eqb_spec m 0) as [->|Hm0].
  { eexists. split; [done|]. split; [split; [constructor|split; [done|by left]]|].
    split; [unfold bi_val; simpl; lia|done]. }
  destruct (Z.eqb_spec m 1) as [->|Hm1]; [exists a; split; [done|split; [done|split; [lia|done]]]|].
  apply orb_false_iff in Hz as [Hz Hlen]. apply Z.eqb_neq in Hz. apply Nat.eqb_neq in Hlen.
  destruct (mul_add_small_spec (limbs a) m 0) as (Hv & Hw & Hn); [auto with bigint..|zbounds|].
  eexists. split; [done|].
  assert (0 < limbs_val (bigint_mul_add_small_inplace (limbs a) m 0)) by (unfold is_u32 in Hm; nia).
  destruct (bigint_mul_add_small_inplace (limbs a) m 0) as [|x l] eqn:E; [simpl in *; lia|].
  split; [|split; [unfold bi_val; simpl sign; simpl limbs; rewrite Hv; nia|done]].
  split; [done|]. split; [done|]. right. split; [done|]. simpl. lia.
Qed.

Lemma negate_spec a : bi_wf a -> returns (obj_bigint_negate (Some a)) (- bi_val a).
Proof.
  intros Ha. unfold obj_bigint_negate.
  pose proof (bi_wf_abs a Ha) as Aa. pose proof (bi_wf_sign a Ha) as Sa.
  destruct (Z.eqb_spec (sign a) 0).
  - replace (- bi_val a) with (bi_val a) by lia. by apply copy_spec.
  - apply returns_from_limbs; [auto with bigint|]. rewrite Aa.
    destruct (Z.ltb_spec (- sign a) 0); lia.
Qed.

Lemma is_even_spec a : bi_wf a -> obj_bigint_is_even (Some a) = Z.even (bi_val a).
Proof.
  intros Ha. unfold obj_bigint_is_even, bi_val.
  destruct Ha as (_ & _ & Hs). destruct (limbs a) as [|x l].
  { destruct Hs as [[_ ->]|[? _]]; done. }
  destruct Hs as [[? _]|[_ Hs]]; [done|].
  change 1 with (Z.ones 1). rewrite Z.land_ones by done. change (2 ^ 1) with 2.
  rewrite <- Zeven_mod, Z.even_mul. simpl limbs_val.
  rewrite Z.even_add, Z.even_mul. destruct Hs as [-> | ->]; simpl; by destruct (Z.even x).
Qed.

Lemma div_spec a b :
  bi_wf a -> bi_wf b -> bi_val b <> 0 -> digit_estimates_ok (limbs a) (limbs b) = true ->
  exists q, obj_bigint_div (Some a) (Some b) = (q, false) /\
    returns q (Z.quot (bi_val a) (bi_val b)).
Proof.
  intros Ha Hb Hnz Hok. unfold obj_bigint_div.
  pose proof (bi_wf_abs a Ha) as Aa. pose proof (bi_wf_abs b Hb) as Ab.
  pose proof (bi_wf_sign a Ha) as Sa. pose proof (bi_wf_sign b Hb) as Sb.
  destruct (Z.eqb_spec (sign b) 0); [lia|]. destruct (Z.eqb_spec (sign a) 0).
  { exists bigint_zero. split; [done|]. replace (bi_val a) with 0 by lia.
    rewrite Z.quot_0_l by done. auto with bigint. }
  assert (limbs b <> []) by (intros E; rewrite E in Ab; simpl in Ab; lia).
  destruct (divmod_abs_limbs_spec (limbs a) (limbs b) true false)
    as (q & r & -> & Hq & _ & Hqw & _); [auto with bigint..|].
  simpl. eexists. split; [done|]. apply returns_from_limbs; [done|].
  rewrite Hq, Aa, Ab, Z.quot_div by done. rewrite <- Sa, <- Sb.
  pose proof (Z.div_pos (Z.abs (bi_val a)) (Z.abs (bi_val b)) ltac:(lia) ltac:(lia)).
  destruct (Nat.eqb_spec (length q) 0) as [E|E].
  - apply nil_length_inv in E. rewrite E in Hq. simpl in Hq. rewrite Aa, Ab in Hq.
    rewrite <- Hq. simpl. lia.
  - destruct (Z.ltb_spec (sign a * sign b) 0); nia.
Qed.

Lemma mod_spec a b :
  bi_wf a -> bi_wf b -> bi_val b <> 0 -> digit_estimates_ok (limbs a) (limbs b) = true ->
  exists r, obj_bigint_mod (Some a) (Some b) = (r, false) /\
    returns r (Z.rem (bi_val a) (bi_val b)).
Proof.
  intros Ha Hb Hnz Hok. unfold obj_bigint_mod.
  pose proof (bi_wf_abs a Ha) as Aa. pose proof (bi_wf_abs b Hb) as Ab.
  pose proof (bi_wf_sign a Ha) as Sa. pose proof (bi_wf_sign b Hb) as Sb.
  destruct (Z.eqb_spec (sign b) 0); [lia|]. destruct (Z.eqb_spec (sign a) 0).
  { exists bigint_zero. split; [done|]. replace (bi_val a) with 0 by lia.
    rewrite Z.rem_0_l by done. auto with bigint. }
  assert (limbs b <> []) by (intros E; rewrite E in Ab; simpl in Ab; lia).
  destruct (divmod_abs_limbs_spec (limbs a) (limbs b) false true)
    as (q & r & -> & _ & Hr & _ & Hrw & _); [auto with bigint..|].
  simpl. eexists. split; [done|]. apply returns_from_limbs; [done|].
  rewrite Hr, Aa, Ab, Z.rem_mod by done. rewrite <- Sa.
  destruct (Nat.eqb_spec (length r) 0) as [E|E].
  - apply nil_length_inv in E. rewrite E in Hr. simpl in Hr. rewrite Aa, Ab in Hr.
    rewrite <- Hr. simpl. lia.
  - destruct (Z.ltb_spec (sign a) 0); nia.
Qed.

Lemma div_by_zero_spec a b :
  bi_wf b -> bi_val b = 0 ->
  obj_bigint_div (Some a) (Some b) = (bigint_zero, true) /\
  obj_bigint_mod (Some a) (Some b) = (bigint_zero, true).
Proof.
  intros Hb Hz. unfold obj_bigint_div, obj_bigint_mod.
  apply (bi_wf_zero b Hb) in Hz. by rewrite Hz.
Qed.

(** ** [int64_t] conversions *)

Lemma limbs_of_u64_spec n x :
  0 <= x < weight n -> wf_limbs (limbs_of_u64 n x) /\ limbs_val (limbs_of_u64 n x) = x.
Proof.
  revert x. induction n as [|n IH]; intros x Hx; simpl.
  - rewrite weight_0 in Hx. split; [constructor|simpl; lia].
  - rewrite weight_S in Hx. destruct (Z.ltb_spec 0 x); [|split; [constructor|simpl; lia]].
    rewrite shiftr_div by lia. change (2 ^ 32) with BASE.
    destruct (IH (x / BASE)) as [Hw Hv].
    { split; [apply Z.div_pos; lia|apply Z.div_lt_upper_bound; lia]. }
    split; [apply wf_limbs_cons; auto with machine|].
    simpl. rewrite Hv. unfold u32. change (2 ^ 32) with BASE.
    pose proof (Z.div_mod x BASE). lia.
Qed.

Lemma from_int64_spec z : is_i64 z -> returns (obj_bigint_from_int64 z) z.
Proof.
  intros Hz. unfold obj_bigint_from_int64.
  destruct (Z.eqb_spec z 0) as [->|Hnz]; [auto with bigint|].
  set (x := if z <? 0 then u64 (u64 (- (z + 1)) + 1) else u64 z).
  assert (x = Z.abs z) as Hx.
  { unfold x. destruct (Z.ltb_spec z 0).
    - rewrite (u64_small (- (z + 1))) by zbounds. rewrite u64_small; zbounds.
    - rewrite u64_small; zbounds. }
  destruct (limbs_of_u64_spec 2 x) as [Hw Hv].
  { rewrite !weight_S, weight_0. zbounds. }
  apply returns_from_limbs; [done|]. rewrite Hv, Hx.
  destruct (Z.ltb_spec z 0); simpl; lia.
Qed.

Lemma to_int64_loop_spec l limit :
  wf_limbs l -> 2 ^ 32 <= limit < 2 ^ 64 ->
  to_int64_loop l limit = if limbs_val l <=? limit then Some (limbs_val l) else None.
Proof.
  intros Hl Hlim. induction Hl as [|x l Hx Hl IH]; cbn [to_int64_loop limbs_val].
  { destruct (Z.leb_spec 0 limit); [reflexivity|zbounds]. }
  rewrite IH. pose proof (limbs_val_bound l Hl) as Hb.
  destruct (Z.leb_spec (limbs_val l) limit).
  2:{ destruct (Z.leb_spec (x + BASE * limbs_val l) limit); [zbounds|done]. }
  rewrite u64_small, shiftr_div by zbounds. change (2 ^ 32) with BASE.
  pose proof (Z.div_mod (limit - x) BASE ltac:(lia)).
  pose proof (Z.mod_pos_bound (limit - x) BASE ltac:(lia)).
  destruct (Z.ltb_spec ((limit - x) / BASE) (limbs_val l));
    destruct (Z.leb_spec (x + BASE * limbs_val l) limit); try lia; [done|].
  f_equal. rewrite u64_small by (rewrite Z.shiftl_mul_pow2; zbounds).
  rewrite lor_shiftl_add by (zbounds || exact Hx). zpow. lia.
Qed.

Lemma to_int64_spec b :
  bi_wf b -> obj_bigint_to_int64 (Some b) =
    if (INT64_MIN <=? bi_val b) && (bi_val b <=? INT64_MAX) then Some (bi_val b) else None.
Proof.
  intros Hb. unfold obj_bigint_to_int64, INT64_MIN, INT64_MAX.
  pose proof (bi_wf_abs b Hb) as Ab. pose proof (bi_wf_sign b Hb) as Sb.
  destruct (Z.eqb_spec (sign b) 0).
  { replace (bi_val b) with 0 by lia. done. }
  rewrite (u64_small (2 ^ 63 - 1 + 1)) by zbounds.
  rewrite to_int64_loop_spec by (auto with bigint; case_match; zbounds).
  rewrite Ab. zpow.
  destruct (Z.ltb_spec (sign b) 0);
    destruct (Z.leb_spec (Z.opp 9223372036854775808) (bi_val b));
    destruct (Z.leb_spec (bi_val b) (9223372036854775808 - 1));
    simpl andb; cbv iota; try lia.
  - destruct (Z.leb_spec (Z.abs (bi_val b)) (9223372036854775808 - 1 + 1)); [|lia].
    destruct (Z.eqb_spec (Z.abs (bi_val b)) (9223372036854775808 - 1 + 1)).
    + f_equal. lia.
    + rewrite i64_small by zbounds. f_equal. lia.
  - destruct (Z.leb_spec (Z.abs (bi_val b)) (9223372036854775808 - 1 + 1)); [lia|done].
  - destruct (Z.leb_spec (Z.abs (bi_val b)) (9223372036854775808 - 1)); [|lia].
    rewrite i64_small by zbounds. f_equal. lia.
  - destruct (Z.leb_spec (Z.abs (bi_val b)) (9223372036854775808 - 1)); [lia|done].
Qed.

(** ** Two's complement limbs

    [limb_of z i] is limb [i] of the infinite two's complement expansion of
    [z]; the code produces these limbs from the magnitude with a running
    carry, and reads a finite prefix of them back. *)

Definition limb_of (z : Z) (i : nat) : Z := (z / weight i) mod BASE.
Definition tc_limbs (z : Z) (i n : nat) : list Z := map (limb_of z) (seq i n).

Lemma weight_pow n : weight n = 2 ^ (32 * Z.of_nat n).
Proof. reflexivity. Qed.

Lemma limb_of_wf z i : is_u32 (limb_of z i).
Proof. apply Z.mod_pos_bound; lia. Qed.

Lemma tc_limbs_wf z i n : wf_limbs (tc_limbs z i n).
Proof. revert i. induction n; intros; constructor; [apply limb_of_wf|apply IHn]. Qed.

Lemma tc_limbs_length z i n : length (tc_limbs z i n) = n.
Proof. unfold tc_limbs. by rewrite length_map, length_seq. Qed.

Lemma tc_limbs_val z i n : limbs_val (tc_limbs z i n) = (z / weight i) mod weight n.
Proof.
  revert i. induction n as [|n IH]; intros i; [by rewrite weight_0, Z.mod_1_r|].
  change (tc_limbs z i (S n)) with (limb_of z i :: tc_limbs z (S i) n).
  cbn [limbs_val]. rewrite IH, (weight_S n), (weight_S i). unfold limb_of.
  pose proof (weight_pos n). pose proof (weight_pos i).
  rewrite Z.rem_mul_r, Z.div_div by lia. by rewrite (Z.mul_comm (weight i)).
Qed.

Lemma nth_limb_of l i : wf_limbs l -> nth i l 0 = limb_of (limbs_val l) i.
Proof.
  intros Hl. unfold limb_of. revert i. induction Hl as [|x l Hx Hl IH]; intros i.
  - cbn [limbs_val]. rewrite Z.div_0_l by (pose proof (weight_pos i); lia). by destruct i.
  - destruct i as [|i]; cbn [nth limbs_val].
    + rewrite weight_0, Z.div_1_r, (Z.mul_comm BASE), Z.mod_add, Z.mod_small by zbounds. done.
    + rewrite IH, weight_S. pose proof (weight_pos i).
      rewrite <- Z.div_div, (Z.mul_comm BASE), Z.div_add, (Z.div_small x) by zbounds. done.
Qed.

(** The carry into limb [i] of the negation of magnitude [m]: one exactly when
    all limbs below are zero. *)
Definition neg_carry (m : Z) (i : nat) : Z := if m mod weight i =? 0 then 1 else 0.

Lemma neg_carry_0 m : neg_carry m 0 = 1.
Proof. unfold neg_carry. by rewrite weight_0, Z.mod_1_r. Qed.

Lemma neg_limb_step m i :
  let sum := u64 ((UINT32_MAX - limb_of m i) + neg_carry m i) in
  u32 sum = limb_of (- m) i /\ Z.shiftr sum 32 = neg_carry m (S i).
Proof.
  intros sum. unfold sum, UINT32_MAX, neg_carry. pose proof (limb_of_wf m i) as Hr.
  rewrite u64_small by (case_match; zbounds).
  rewrite shiftr_div by lia. unfold u32, limb_of in *. rewrite weight_S.
  pose proof (weight_pos i) as Hw. rewrite (Z.mul_comm BASE), Z.rem_mul_r by lia.
  set (q := m / weight i) in *. set (r := m mod weight i).
  pose proof (Z.mod_pos_bound m (weight i) Hw) as Hr'. fold r in Hr'.
  assert (m = weight i * q + r) as Hm by (apply Z.div_mod; lia).
  pose proof (Z.div_mod q BASE ltac:(lia)) as Hq. zpow.
  set (ql := q mod BASE) in *. set (qh := q / BASE) in *. unfold is_u32 in Hr. zpow.
  destruct (Z.eqb_spec r 0) as [E|E].
  - assert (- m / weight i = - q) as ->
      by (symmetry; apply Z.div_unique_pos with 0; lia).
    destruct (Z.eqb_spec (r + weight i * ql) 0) as [E'|E'].
    + assert (ql = 0) by nia. split; [|by rewrite H].
      rewrite H. change ((BASE - 1 - 0 + 1) mod BASE) with 0.
      apply Z.mod_unique_pos with (- qh); lia.
    + assert (ql <> 0) by (intros H; apply E'; rewrite H; lia).
      rewrite Z.mod_small, Z.div_small by lia. split; [|done].
      apply Z.mod_unique_pos with (- qh - 1); lia.
  - assert (- m / weight i = - q - 1) as ->
      by (symmetry; apply Z.div_unique_pos with (weight i - r); lia).
    destruct (Z.eqb_spec (r + weight i * ql) 0) as [E'|E']; [nia|].
    rewrite Z.mod_small, Z.div_small by lia. split; [|done].
    apply Z.mod_unique_pos with (- qh - 1); lia.
Qed.

(** The carry that [bigint_twos_complement_limb_at] threads. *)
Definition tc_carry (a : ObjBigInt) (i : nat) : Z :=
  if sign a <? 0 then neg_carry (limbs_val (limbs a)) i else 0.

Lemma twos_complement_limb_spec a i :
  bi_wf a ->
  bigint_twos_complement_limb_at (Some a) i (tc_carry a i) =
    (limb_of (bi_val a) i, tc_carry a (S i)).
Proof.
  intros Ha. unfold bigint_twos_complement_limb_at, bigint_abs_limb_at, tc_carry.
  rewrite nth_limb_of by auto with bigint.
  pose proof (bi_wf_abs a Ha) as Aa. pose proof (bi_wf_sign a Ha) as Sa.
  destruct (Z.leb_spec 0 (sign a)), (Z.ltb_spec (sign a) 0); try lia.
  - by rewrite Aa, Z.abs_eq by lia.
  - destruct (neg_limb_step (limbs_val (limbs a)) i) as [-> ->].
    by rewrite Aa, Z.abs_neq, Z.opp_involutive by lia.
Qed.

Lemma tc_carry_0 a : tc_carry a 0 = if is_negative (Some a) then 1 else 0.
Proof. unfold tc_carry, is_negative. by rewrite neg_carry_0. Qed.

Lemma negate_loop_spec m i n :
  negate_loop (tc_limbs m i n) (neg_carry m i) = tc_limbs (- m) i n.
Proof.
  revert i. induction n as [|n IH]; intros i; [done|].
  change (tc_limbs m i (S n)) with (limb_of m i :: tc_limbs m (S i) n).
  cbn [negate_loop]. destruct (neg_limb_step m i) as [-> ->]. by rewrite IH.
Qed.

Lemma land_top_bit x : is_u32 x -> (Z.land x (2 ^ 31) =? 0) = (x <? 2 ^ 31).
Proof.
  intros Hx. assert (Z.land x (2 ^ 31) = if x <? 2 ^ 31 then 0 else 2 ^ 31) as ->.
  2:{ by destruct (x <? 2 ^ 31). }
  apply Z.bits_inj'. intros n Hn. rewrite Z.land_spec, Z.pow2_bits_eqb by lia.
  destruct (Z.eqb_spec 31 n) as [<-|Hne].
  - rewrite andb_true_r. destruct (Z.ltb_spec x (2 ^ 31)).
    + rewrite Z.bits_0. apply Z.bits_above_log2; [zbounds|].
      destruct (Z.eq_dec x 0) as [->|]; [done|]. apply Z.log2_lt_pow2; zbounds.
    + rewrite Z.pow2_bits_eqb, Z.eqb_refl by lia.
      rewrite <- (Z.log2_unique x 31) by zbounds. apply Z.bit_log2. zbounds.
  - rewrite andb_false_r. destruct (x <? 2 ^ 31); [by rewrite Z.bits_0|].
    rewrite Z.pow2_bits_eqb by lia. by destruct (Z.eqb_spec 31 n).
Qed.

(** Reading [S k] two's complement limbs back. *)
Lemma from_twos_complement_spec z k :
  - (2 ^ 31 * weight k) <= z < 2 ^ 31 * weight k ->
  returns (bigint_from_twos_complement_limbs (tc_limbs z 0 (S k))) z.
Proof.
  intros Hz. pose proof (weight_pos k) as Hw. unfold bigint_from_twos_complement_limbs.
  rewrite tc_limbs_length. replace (S k - 1)%nat with k by lia.
  assert (nth k (tc_limbs z 0 (S k)) 0 = limb_of z k) as ->.
  { unfold tc_limbs. rewrite (nth_indep _ 0 (limb_of z 0)) by (rewrite length_map, length_seq; lia).
    by rewrite map_nth, seq_nth by lia. }
  rewrite land_top_bit by apply limb_of_wf. unfold tc_limbs at 1. cbn [seq map].
  assert (limb_of z k <? 2 ^ 31 = (0 <=? z)) as ->.
  { unfold limb_of. zpow.
    assert (- 2147483648 <= z / weight k < 2147483648)
      by (split; [apply Z.div_le_lower_bound|apply Z.div_lt_upper_bound]; lia).
    destruct (Z.leb_spec 0 z).
    - pose proof (Z.div_pos z (weight k) ltac:(lia) Hw).
      rewrite Z.mod_small by lia. lia.
    - pose proof (Z.div_lt_upper_bound z (weight k) 0 Hw ltac:(lia)).
      rewrite <- (Z.mod_unique_pos (z / weight k) BASE (-1) (z / weight k + BASE)) by lia.
      lia. }
  pose proof (weight_S k). destruct (Z.leb_spec 0 z).
  - apply returns_from_limbs; [apply tc_limbs_wf|].
    rewrite tc_limbs_val, weight_0, Z.div_1_r. apply Z.mod_small. zbounds.
  - rewrite <- (neg_carry_0 z), negate_loop_spec. apply returns_from_limbs; [apply tc_limbs_wf|].
    rewrite tc_limbs_val, weight_0, Z.div_1_r, Z.mod_small by zbounds. simpl. lia.
Qed.

Lemma limb_of_bits z i : limb_of z i = Z.land (Z.shiftr z (32 * Z.of_nat i)) (Z.ones 32).
Proof.
  unfold limb_of. rewrite weight_pow, Z.shiftr_div_pow2, Z.land_ones by lia. done.
Qed.

Lemma apply_bitop_spec op x y n :
  Z.testbit (apply_bitop op x y) n =
  match op with
  | BIGINT_BITOP_AND => Z.testbit x n && Z.testbit y n
  | BIGINT_BITOP_OR => Z.testbit x n || Z.testbit y n
  | BIGINT_BITOP_XOR => xorb (Z.testbit x n) (Z.testbit y n)
  end.
Proof. destruct op; [apply Z.land_spec|apply Z.lor_spec|apply Z.lxor_spec]. Qed.

Lemma apply_bitop_shiftr op x y k :
  0 <= k ->
  Z.shiftr (apply_bitop op x y) k = apply_bitop op (Z.shiftr x k) (Z.shiftr y k).
Proof. intros. destruct op; [apply Z.shiftr_land|apply Z.shiftr_lor|apply Z.shiftr_lxor]. Qed.

Lemma apply_bitop_limb op x y i :
  apply_bitop op (limb_of x i) (limb_of y i) = limb_of (apply_bitop op x y) i.
Proof.
  rewrite !limb_of_bits. apply Z.bits_inj'. intros n Hn.
  rewrite Z.land_spec, apply_bitop_shiftr, !apply_bitop_spec, !Z.land_spec by lia.
  destruct op, (Z.testbit (Z.shiftr x _) n), (Z.testbit (Z.shiftr y _) n),
    (Z.testbit (Z.ones 32) n); done.
Qed.

Lemma in_range_shiftr z k :
  0 <= k -> - 2 ^ k <= z < 2 ^ k <-> Z.shiftr z k = 0 \/ Z.shiftr z k = -1.
Proof.
  intros Hk. rewrite Z.shiftr_div_pow2 by done.
  pose proof (Z.pow_pos_nonneg 2 k ltac:(lia) Hk) as Hp.
  pose proof (Z.div_mod z (2 ^ k) ltac:(lia)). pose proof (Z.mod_pos_bound z (2 ^ k) Hp).
  split; [|nia]. intros Hz. assert (-1 <= z / 2 ^ k < 1); [|lia].
  split; [apply Z.div_le_lower_bound|apply Z.div_lt_upper_bound]; lia.
Qed.

Lemma apply_bitop_range op x y k :
  0 <= k -> - 2 ^ k <= x < 2 ^ k -> - 2 ^ k <= y < 2 ^ k ->
  - 2 ^ k <= apply_bitop op x y < 2 ^ k.
Proof.
  intros Hk. rewrite !in_range_shiftr, apply_bitop_shiftr by done.
  intros [-> | ->] [-> | ->]; destruct op; auto.
Qed.

Lemma bitop_loop_spec op a b n i :
  bi_wf a -> bi_wf b ->
  bitop_loop op (Some a) (Some b) n i (tc_carry a i) (tc_carry b i) =
    tc_limbs (apply_bitop op (bi_val a) (bi_val b)) i n.
Proof.
  intros Ha Hb. revert i. induction n as [|n IH]; intros i; [done|].
  cbn [bitop_loop]. rewrite !twos_complement_limb_spec by done.
  by rewrite IH, apply_bitop_limb.
Qed.

Lemma bi_val_range a k :
  bi_wf a -> (length (limbs a) <= k)%nat -> - weight k <= bi_val a < weight k.
Proof.
  intros Ha Hk. pose proof (limbs_val_bound (limbs a) (bi_wf_limbs a Ha)).
  pose proof (weight_mono _ _ Hk). pose proof (bi_wf_abs a Ha). lia.
Qed.

Lemma bitwise_spec op a b :
  bi_wf a -> bi_wf b ->
  returns (bigint_bitwise_binary_op (Some a) (Some b) op) (apply_bitop op (bi_val a) (bi_val b)).
Proof.
  intros Ha Hb. unfold bigint_bitwise_binary_op.
  rewrite <- !tc_carry_0, bitop_loop_spec by done.
  set (k := Nat.max (count_of (Some a)) (count_of (Some b))).
  apply from_twos_complement_spec.
  pose proof (bi_val_range a k Ha ltac:(unfold k; simpl; lia)) as Ra.
  pose proof (bi_val_range b k Hb ltac:(unfold k; simpl; lia)) as Rb.
  rewrite weight_pow in Ra, Rb.
  pose proof (apply_bitop_range op _ _ (32 * Z.of_nat k) ltac:(lia) Ra Rb) as Hr.
  rewrite <- weight_pow in Hr. pose proof (weight_pos k). zpow. lia.
Qed.

Lemma limb_of_lnot z i : UINT32_MAX - limb_of z i = limb_of (Z.lnot z) i.
Proof.
  unfold limb_of, Z.lnot, UINT32_MAX. pose proof (weight_pos i) as Hw.
  assert (Z.pred (- z) / weight i = - (z / weight i) - 1) as ->.
  { pose proof (Z.div_mod z (weight i) ltac:(lia)). pose proof (Z.mod_pos_bound z (weight i) Hw).
    symmetry. apply Z.div_unique_pos with (weight i - 1 - z mod weight i); lia. }
  set (q := z / weight i). pose proof (Z.div_mod q BASE ltac:(lia)).
  pose proof (Z.mod_pos_bound q BASE ltac:(lia)). zpow.
  apply Z.mod_unique_pos with (- (q / BASE) - 1); lia.
Qed.

Lemma bit_not_loop_spec a n i :
  bi_wf a -> bit_not_loop (Some a) n i (tc_carry a i) = tc_limbs (Z.lnot (bi_val a)) i n.
Proof.
  intros Ha. revert i. induction n as [|n IH]; intros i; [done|].
  cbn [bit_not_loop]. rewrite twos_complement_limb_spec by done.
  by rewrite IH, limb_of_lnot.
Qed.

Lemma bit_not_spec a :
  bi_wf a -> returns (obj_bigint_bit_not (Some a)) (Z.lnot (bi_val a)).
Proof.
  intros Ha. unfold obj_bigint_bit_not. rewrite <- tc_carry_0, bit_not_loop_spec by done.
  apply from_twos_complement_spec. pose proof (bi_val_range a _ Ha (le_n _)).
  pose proof (weight_pos (length (limbs a))). unfold Z.lnot, count_of in *. zpow. lia.
Qed.

(** ** Deciding the invariant on concrete objects *)

Definition bi_wfb (b : ObjBigInt) : bool :=
  forallb (fun x => (0 <=? x) && (x <? BASE)) (limbs b) &&
  negb (nth (pred (length (limbs b))) (limbs b) 1 =? 0) &&
  match limbs b with
  | [] => sign b =? 0
  | _ => (sign b =? 1) || (sign b =? -1)
  end.

Lemma bi_wfb_true b : bi_wfb b = true -> bi_wf b.
Proof.
  unfold bi_wfb, bi_wf, normalized. rewrite !andb_true_iff, negb_true_iff, Z.eqb_neq.
  intros [[Hl Hn] Hs]. split; [|split; [done|]].
  - apply Forall_forall. rewrite forallb_forall in Hl. intros x Hx.
    specialize (Hl x Hx). zbounds.
  - destruct (limbs b); [left; split; [done|lia]|right]. split; [done|]. lia.
Qed.

(** ** Properties *)

(** C1: addition, subtraction, multiplication and negation of well-formed
    big integers return a well-formed object owned by the caller whose value
    is the exact sum, difference, product or opposite. *)
Theorem bigint_ring_correct a b :
  bi_wf a -> bi_wf b ->
  returns (obj_bigint_add (Some a) (Some b)) (bi_val a + bi_val b) /\
  returns (obj_bigint_sub (Some a) (Some b)) (bi_val a - bi_val b) /\
  returns (obj_bigint_mul (Some a) (Some b)) (bi_val a * bi_val b) /\
  returns (obj_bigint_negate (Some a)) (- bi_val a).
Proof.
  intros Ha Hb. split; [by apply add_spec|]. split; [by apply sub_spec|].
  split; [by apply mul_spec|by apply negate_spec].
Qed.

Definition ex_a : ObjBigInt := mkBigInt 1 (-1) [0; 4294967295; 7].
Definition ex_b : ObjBigInt := mkBigInt 1 1 [12; 4294967295].

Lemma bigint_ring_correct_witness :
  returns (obj_bigint_mul (Some ex_a) (Some ex_b)) (bi_val ex_a * bi_val ex_b).
Proof.
  apply (bigint_ring_correct ex_a ex_b); apply bi_wfb_true; vm_compute; reflexivity.
Defined.

(** C21: division and remainder truncate toward zero, for every pair on which
    no digit estimate of the schoolbook loop overflows its limb; a zero
    divisor yields zero and raises the [div_by_zero] flag. *)
Theorem bigint_division_correct a b :
  bi_wf a -> bi_wf b -> digit_estimates_ok (limbs a) (limbs b) = true ->
  (bi_val b <> 0 ->
    exists q r, obj_bigint_div (Some a) (Some b) = (q, false) /\
      obj_bigint_mod (Some a) (Some b) = (r, false) /\
      returns q (Z.quot (bi_val a) (bi_val b)) /\ returns r (Z.rem (bi_val a) (bi_val b)) /\
      bi_val a = bi_val q * bi_val b + bi_val r) /\
  (bi_val b = 0 ->
    obj_bigint_div (Some a) (Some b) = (bigint_zero, true) /\
    obj_bigint_mod (Some a) (Some b) = (bigint_zero, true)).
Proof.
  intros Ha Hb Hok. split; [intros Hnz|by apply div_by_zero_spec].
  destruct (div_spec a b Ha Hb Hnz Hok) as (q & Eq & Hq).
  destruct (mod_spec a b Ha Hb Hnz Hok) as (r & Er & Hr).
  exists q, r. repeat (split; [assumption|]).
  destruct Hq as (_ & -> & _), Hr as (_ & -> & _).
  pose proof (Z.quot_rem' (bi_val a) (bi_val b)). lia.
Qed.

Definition ex_dividend : ObjBigInt := mkBigInt 1 (-1) [5; 6; 7; 8; 9].
Definition ex_divisor : ObjBigInt := mkBigInt 1 1 [1; 2; 3].

Lemma bigint_division_correct_witness :
  exists q r, obj_bigint_div (Some ex_dividend) (Some ex_divisor) = (q, false) /\
    obj_bigint_mod (Some ex_dividend) (Some ex_divisor) = (r, false) /\
    returns q (Z.quot (bi_val ex_dividend) (bi_val ex_divisor)) /\
    returns r (Z.rem (bi_val ex_dividend) (bi_val ex_divisor)) /\
    bi_val ex_dividend = bi_val q * bi_val ex_divisor + bi_val r.
Proof.
  apply (bigint_division_correct ex_dividend ex_divisor);
    [apply bi_wfb_true; vm_compute; reflexivity..|vm_compute; reflexivity|].
  vm_compute. discriminate.
Defined.

(** division by any non-zero value of one limb, which covers every
    32-bit divisor, is exact without further condition. *)
Theorem bigint_division_small_divisor a b :
  bi_wf a -> bi_wf b -> 0 < Z.abs (bi_val b) < 2 ^ 32 ->
  exists q r, obj_bigint_div (Some a) (Some b) = (q, false) /\
    obj_bigint_mod (Some a) (Some b) = (r, false) /\
    returns q (Z.quot (bi_val a) (bi_val b)) /\ returns r (Z.rem (bi_val a) (bi_val b)).
Proof.
  intros Ha Hb Hv.
  assert (digit_estimates_ok (limbs a) (limbs b) = true) as Hok.
  { pose proof (bi_wf_abs b Hb) as Hab. pose proof (normalized_lower (limbs b)) as Hlow.
    destruct (limbs b) as [|x [|y l]] eqn:E; [done..|]. rewrite <- E in *.
    pose proof (Hlow (bi_wf_limbs b Hb) (bi_wf_normalized b Hb) ltac:(by rewrite E)) as Hlow'.
    rewrite E in Hlow' at 1. cbn [length pred] in Hlow'.
    rewrite weight_S in Hlow'. pose proof (weight_pos (length l)). zpow. lia. }
  destruct (div_spec a b Ha Hb ltac:(lia) Hok) as (q & Eq & Hq).
  destruct (mod_spec a b Ha Hb ltac:(lia) Hok) as (r & Er & Hr).
  by exists q, r.
Qed.

Lemma bigint_division_small_divisor_witness :
  exists q r, obj_bigint_div (Some ex_a) (Some (obj_bigint_from_int64 (-10))) = (q, false) /\
    obj_bigint_mod (Some ex_a) (Some (obj_bigint_from_int64 (-10))) = (r, false) /\
    returns q (Z.quot (bi_val ex_a) (bi_val (obj_bigint_from_int64 (-10)))) /\
    returns r (Z.rem (bi_val ex_a) (bi_val (obj_bigint_from_int64 (-10)))).
Proof.
  apply (bigint_division_small_divisor ex_a (obj_bigint_from_int64 (-10)));
    [apply bi_wfb_true; vm_compute; reflexivity..|vm_compute; split; reflexivity].
Defined.


(** The three-way comparison orders objects as their values, it is zero
    exactly on equal values, and equal values have one representation. *)
Theorem bigint_compare_correct a b :
  bi_wf a -> bi_wf b ->
  (obj_bigint_compare (Some a) (Some b) < 0 <-> bi_val a < bi_val b) /\
  (obj_bigint_compare (Some a) (Some b) = 0 <-> sign a = sign b /\ limbs a = limbs b) /\
  obj_bigint_compare (Some b) (Some a) = - obj_bigint_compare (Some a) (Some b).
Proof.
  intros Ha Hb. rewrite !compare_spec by done.
  rewrite cmp_code_neg, cmp_code_zero, (Z.compare_antisym (bi_val a) (bi_val b)).
  split; [done|]. split; [|by destruct (bi_val a ?= bi_val b)].
  split; [by apply bi_val_inj|]. unfold bi_val. by intros [-> ->].
Qed.

Lemma bigint_compare_correct_witness :
  obj_bigint_compare (Some ex_a) (Some ex_b) < 0 <-> bi_val ex_a < bi_val ex_b.
Proof.
  apply (bigint_compare_correct ex_a ex_b); apply bi_wfb_true; vm_compute; reflexivity.
Defined.

(** [obj_bigint_to_int64] succeeds exactly on the values of the range of
    [int64_t] and returns them, and every [int64_t] survives the round trip
    through a big integer. *)
Theorem bigint_int64_roundtrip b z :
  bi_wf b -> is_i64 z ->
  (obj_bigint_to_int64 (Some b) = Some z <-> bi_val b = z) /\
  (obj_bigint_to_int64 (Some b) = None <-> ~ is_i64 (bi_val b)) /\
  returns (obj_bigint_from_int64 z) z /\
  obj_bigint_to_int64 (Some (obj_bigint_from_int64 z)) = Some z.
Proof.
  intros Hb Hz. destruct (from_int64_spec z Hz) as (Hw & Hv & Hr).
  rewrite !to_int64_spec by done. rewrite Hv. unfold is_i64, INT64_MIN, INT64_MAX in *.
  destruct (Z.leb_spec (- 2 ^ 63) (bi_val b)), (Z.leb_spec (bi_val b) (2 ^ 63 - 1)),
    (Z.leb_spec (- 2 ^ 63) z), (Z.leb_spec z (2 ^ 63 - 1)); simpl andb; cbv iota; try lia;
    (split; [split; intros; simplify_eq; try done; try lia|]);
    (split; [split; intros; simplify_eq; try done; lia|done]).
Qed.

Lemma bigint_int64_roundtrip_witness :
  obj_bigint_to_int64 (Some ex_a) = None <-> ~ is_i64 (bi_val ex_a).
Proof.
  apply (bigint_int64_roundtrip ex_a (-9223372036854775808));
    [apply bi_wfb_true; vm_compute; reflexivity|vm_compute; split; [discriminate|reflexivity]].
Defined.

(** C25: the bitwise operations on sign-magnitude objects compute the infinite
    two's complement operations on the values. *)
Theorem bigint_bitwise_correct a b :
  bi_wf a -> bi_wf b ->
  returns (obj_bigint_bit_and (Some a) (Some b)) (Z.land (bi_val a) (bi_val b)) /\
  returns (obj_bigint_bit_or (Some a) (Some b)) (Z.lor (bi_val a) (bi_val b)) /\
  returns (obj_bigint_bit_xor (Some a) (Some b)) (Z.lxor (bi_val a) (bi_val b)) /\
  returns (obj_bigint_bit_not (Some a)) (Z.lnot (bi_val a)).
Proof.
  intros Ha Hb. split; [by apply (bitwise_spec BIGINT_BITOP_AND)|].
  split; [by apply (bitwise_spec BIGINT_BITOP_OR)|].
  split; [by apply (bitwise_spec BIGINT_BITOP_XOR)|by apply bit_not_spec].
Qed.

Lemma bigint_bitwise_correct_witness :
  returns (obj_bigint_bit_and (Some ex_a) (Some ex_b)) (Z.land (bi_val ex_a) (bi_val ex_b)).
Proof.
  apply (bigint_bitwise_correct ex_a ex_b); apply bi_wfb_true; vm_compute; reflexivity.
Defined.
