(* ===== verification/BigIntText.v ===== *)
(** * Text of big integers: parsing and printing of [src/src/bigint.c]

    A C string is the list of its bytes before the terminating NUL, as
    numbers. [bigint_parse_string] reads an optional sign and decimal or [0x]
    hexadecimal digits; [obj_bigint_to_string] and [obj_bigint_to_hex_string]
    write them. The loops are bounded by the length of the string or by
    [2 * count + 1] decimal chunks, the capacity the code allocates;
    [dec_chunks_complete] shows the bound is never reached. *)

From S2P Require Import Prelude BigIntLimbs BigIntDiv BigIntObj.

Definition BIGINT_DEC_BASE : Z := 1000000000.
Definition BIGINT_DEC_BASE_DIGITS : nat := 9.

(** Character codes. *)
Definition c_minus : Z := 45.
Definition c_plus : Z := 43.
Definition c_0 : Z := 48.
Definition c_x : Z := 120.
Definition c_X : Z := 88.

Definition isdigit (c : Z) : bool := (48 <=? c) && (c <=? 57).

Definition bigint_hex_digit_value (c : Z) : Z :=
  if (48 <=? c) && (c <=? 57) then c - 48
  else if (97 <=? c) && (c <=? 102) then c - 97 + 10
  else if (65 <=? c) && (c <=? 70) then c - 65 + 10
  else -1.

(** ** Parsing *)

(** [while ( *p == '0' && p[1] != '\0') p++]. *)
Fixpoint skip_zeros (p : list Z) : list Z :=
  match p with
  | c :: ((_ :: _) as p') => if c =? c_0 then skip_zeros p' else p
  | _ => p
  end.

(** One hexadecimal limb, [limb = (limb << 4) | digit]. *)
Definition hex_limb (s : list Z) : Z :=
  fold_left (fun limb c => Z.lor (u32 (Z.shiftl limb 4)) (bigint_hex_digit_value c)) s 0.

(** [while (pos > 0)]: groups of eight digits from the end of the string. *)
Fixpoint hex_limbs (fuel : nat) (p : list Z) (pos : nat) : list Z :=
  match fuel with
  | O => []
  | S f =>
      if (pos =? 0)%nat then []
      else
        let start := if (8 <=? pos)%nat then (pos - 8)%nat else 0%nat in
        hex_limb (take (pos - start) (drop start p)) :: hex_limbs f p start
  end.

Definition dec_chunk (s : list Z) : Z :=
  fold_left (fun chunk c => u32 (u32 (chunk * 10) + u32 (c - c_0))) s 0.

(** [while (offset < len)]: a first group of [first_digits] digits, then
    groups of nine. *)
Fixpoint dec_limbs (fuel : nat) (p : list Z) (first_digits offset : nat) (limbs : list Z) : list Z :=
  match fuel with
  | O => limbs
  | S f =>
      if (offset <? length p)%nat then
        let chunk_len := if (offset =? 0)%nat then first_digits else BIGINT_DEC_BASE_DIGITS in
        let chunk := dec_chunk (take chunk_len (drop offset p)) in
        dec_limbs f p first_digits (offset + chunk_len)
          (bigint_mul_add_small_inplace limbs BIGINT_DEC_BASE chunk)
      else limbs
  end.

Definition parse_hex (sign : Z) (p : list Z) : option (Z * list Z) :=
  if (length p =? 0)%nat then None
  else if negb (forallb (fun c => 0 <=? bigint_hex_digit_value c) p) then None
  else
    let p := skip_zeros p in
    if bool_decide (p = [c_0]) then Some (0, [])
    else
      let limbs := hex_limbs (length p) p (length p) in
      if (length limbs =? 0)%nat then Some (0, [])
      else Some (if sign <? 0 then -1 else 1, limbs).

Definition parse_dec (sign : Z) (p : list Z) : option (Z * list Z) :=
  if negb (forallb isdigit p) then None
  else
    let p := skip_zeros p in
    if bool_decide (p = [c_0]) then Some (0, [])
    else
      let first := (length p mod BIGINT_DEC_BASE_DIGITS)%nat in
      let first_digits := if (first =? 0)%nat then BIGINT_DEC_BASE_DIGITS else first in
      let limbs := dec_limbs (length p) p first_digits 0 [] in
      if (length limbs =? 0)%nat then Some (0, [])
      else Some (if sign <? 0 then -1 else 1, limbs).

(** The sign and limbs, or [None] where the code returns [false]. *)
Definition bigint_parse_string (str : list Z) : option (Z * list Z) :=
  let '(sign, p) :=
    match str with
    | c :: p => if c =? c_minus then (-1, p) else if c =? c_plus then (1, p) else (1, str)
    | [] => (1, [])
    end in
  match p with
  | [] => None
  | c0 :: c1 :: p' =>
      if (c0 =? c_0) && ((c1 =? c_x) || (c1 =? c_X)) then parse_hex sign p' else parse_dec sign p
  | _ => parse_dec sign p
  end.

Definition obj_bigint_from_string (str : list Z) : ObjBigInt :=
  match bigint_parse_string str with
  | None => bigint_from_limbs 0 []
  | Some (sign, limbs) => bigint_from_limbs sign limbs
  end.

Definition obj_bigint_try_from_string (str : list Z) : option ObjBigInt :=
  match bigint_parse_string str with
  | None => None
  | Some (sign, limbs) => Some (bigint_from_limbs sign limbs)
  end.

(** ** Printing *)

Definition bigint_digits_u32 (value : Z) : nat :=
  if 100000000 <=? value then 9
  else if 10000000 <=? value then 8
  else if 1000000 <=? value then 7
  else if 100000 <=? value then 6
  else if 10000 <=? value then 5
  else if 1000 <=? value then 4
  else if 100 <=? value then 3
  else if 10 <=? value then 2
  else 1.

(** [while (work_count > 0)]: the decimal chunks, least significant first. *)
Fixpoint dec_chunks (fuel : nat) (work : list Z) : list Z :=
  match fuel with
  | O => []
  | S f =>
      match work with
      | [] => []
      | _ =>
          let '(q, rem) := bigint_divmod_small_inplace work BIGINT_DEC_BASE in
          rem :: dec_chunks f q
      end
  end.

Definition chunk_fuel (l : list Z) : nat := 2 * length l + 1.

Definition obj_bigint_decimal_digits (b : option ObjBigInt) : nat :=
  match b with
  | None => 1
  | Some x =>
      if (length (limbs x) =? 0)%nat then 1%nat
      else
        let chunks := dec_chunks (chunk_fuel (limbs x)) (limbs x) in
        if (length chunks =? 0)%nat then 1%nat
        else ((length chunks - 1) * BIGINT_DEC_BASE_DIGITS
              + bigint_digits_u32 (nth (length chunks - 1) chunks 0%Z))%nat
  end.

(** The conversions [%u] and [%09u] of [snprintf] for a 32-bit value. *)
Fixpoint udigits (fuel : nat) (n : Z) : list Z :=
  match fuel with
  | O => []
  | S f => if n <? 10 then [c_0 + n] else udigits f (n / 10) ++ [c_0 + n mod 10]
  end.
Definition fmt_u (n : Z) : list Z := udigits 10 n.
Definition fmt_09u (n : Z) : list Z :=
  let s := fmt_u n in replicate (9 - length s) c_0 ++ s.

(** What [snprintf] leaves of a text in the [w] cells the cursor then skips,
    its terminating NUL included when the text is shorter. *)
Definition cells (w : nat) (s : list Z) : list Z := take w (s ++ [0]).

Definition obj_bigint_to_string (b : option ObjBigInt) : list Z :=
  match b with
  | None => [c_0]
  | Some x =>
      if (length (limbs x) =? 0)%nat then [c_0]
      else
        let chunks := dec_chunks (chunk_fuel (limbs x)) (limbs x) in
        if (length chunks =? 0)%nat then [c_0]
        else
          let ms_chunk := nth (length chunks - 1) chunks 0 in
          let ms_digits := bigint_digits_u32 ms_chunk in
          c_string ((if sign x <? 0 then [c_minus] else []) ++
            cells ms_digits (fmt_u ms_chunk) ++
            flat_map (fun c => cells BIGINT_DEC_BASE_DIGITS (fmt_09u c))
              (rev (take (length chunks - 1) chunks)))
  end.

(** ["0123456789abcdef"]. *)
Definition hex_digits : list Z :=
  [48; 49; 50; 51; 52; 53; 54; 55; 56; 57; 97; 98; 99; 100; 101; 102].

Definition hex_nibble (limb : Z) (i : nat) : Z := Z.land (Z.shiftr limb (Z.of_nat i * 4)) 15.
Definition hex_char (limb : Z) (i : nat) : Z := nth (Z.to_nat (hex_nibble limb i)) hex_digits 0.

(** [while (ms_nibbles > 1)]. *)
Fixpoint ms_nibbles (n : nat) (ms : Z) : nat :=
  match n with
  | S ((S _) as n') => if hex_nibble ms n' =? 0 then ms_nibbles n' ms else n
  | _ => n
  end.

(** Nibbles [n-1] down to 0 of a limb. *)
Fixpoint hex_text (n : nat) (limb : Z) : list Z :=
  match n with
  | O => []
  | S n' => hex_char limb n' :: hex_text n' limb
  end.

Definition obj_bigint_to_hex_string (b : option ObjBigInt) : list Z :=
  match b with
  | None => [c_0; c_x; c_0]
  | Some x =>
      if (length (limbs x) =? 0)%nat || (sign x =? 0) then [c_0; c_x; c_0]
      else
        let ms := nth (length (limbs x) - 1) (limbs x) 0 in
        (if sign x <? 0 then [c_minus] else []) ++ [c_0; c_x] ++
        hex_text (ms_nibbles 8 ms) ms ++
        flat_map (hex_text 8) (rev (take (length (limbs x) - 1) (limbs x)))
  end.

(** ** Positional values *)

(** The number a digit string denotes, [dv] giving the value of a digit. *)
Definition digits_val (base : Z) (dv : Z -> Z) (s : list Z) : Z :=
  fold_left (fun acc c => acc * base + dv c) s 0.

Definition dec_value (c : Z) : Z := c - c_0.
Notation dec_val := (digits_val 10 dec_value).
Notation hex_val := (digits_val 16 bigint_hex_digit_value).

Lemma fold_digits base dv s acc :
  fold_left (fun acc c => acc * base + dv c) s acc =
  acc * base ^ Z.of_nat (length s) + digits_val base dv s.
Proof.
  unfold digits_val. revert acc. induction s as [|c s IH]; intros acc; cbn [fold_left length].
  { rewrite Z.pow_0_r. lia. }
  rewrite IH, (IH (0 * base + dv c)), Nat2Z.inj_succ, Z.pow_succ_r by lia. ring.
Qed.

Lemma digits_val_app base dv s t :
  digits_val base dv (s ++ t) =
  digits_val base dv s * base ^ Z.of_nat (length t) + digits_val base dv t.
Proof. unfold digits_val at 1. by rewrite fold_left_app, fold_digits. Qed.

Lemma digits_val_cons base dv c s :
  digits_val base dv (c :: s) = dv c * base ^ Z.of_nat (length s) + digits_val base dv s.
Proof. unfold digits_val at 1. cbn [fold_left]. by rewrite fold_digits. Qed.

Lemma digits_val_range base dv s :
  0 < base -> Forall (fun c => 0 <= dv c < base) s ->
  0 <= digits_val base dv s < base ^ Z.of_nat (length s).
Proof.
  intros Hb. induction 1 as [|c s Hc Hs IH]; [by rewrite Z.pow_0_r|].
  rewrite digits_val_cons. cbn [length]. rewrite Nat2Z.inj_succ, Z.pow_succ_r by lia. nia.
Qed.

(** ** Parsing *)

Lemma skip_zeros_spec base dv s :
  dv c_0 = 0 -> s <> [] ->
  digits_val base dv (skip_zeros s) = digits_val base dv s /\ skip_zeros s <> [] /\
  (hd 0 (skip_zeros s) = c_0 -> skip_zeros s = [c_0]) /\
  (forall P : Z -> Prop, Forall P s -> Forall P (skip_zeros s)).
Proof.
  intros H0. induction s as [|c [|c' s] IH]; intros Hs; [done| |].
  { simpl. split; [done|]. split; [done|]. split; [by intros ->|done]. }
  change (skip_zeros (c :: c' :: s))
    with (if c =? c_0 then skip_zeros (c' :: s) else c :: c' :: s).
  destruct (Z.eqb_spec c c_0) as [->|Hc].
  - destruct (IH ltac:(done)) as (Hv & Hne & Hh & Hall). rewrite Hv.
    split; [by rewrite (digits_val_cons _ _ c_0), H0|]. split; [done|]. split; [done|].
    intros P [_ HP]%Forall_cons_iff. by apply Hall.
  - done.
Qed.

Lemma take_split {A} (l : list A) i n : take (i + n) l = take i l ++ take n (drop i l).
Proof. by rewrite take_take_drop. Qed.

Definition is_hex (c : Z) : Prop := 0 <= bigint_hex_digit_value c.
Definition is_dec (c : Z) : Prop := isdigit c = true.

Lemma hex_digit_range c : is_hex c -> 0 <= bigint_hex_digit_value c < 16.
Proof.
  unfold is_hex, bigint_hex_digit_value. repeat case_match; lia.
Qed.

Lemma dec_digit_range c : is_dec c -> 0 <= dec_value c < 10.
Proof. unfold is_dec, isdigit, dec_value, c_0. lia. Qed.

Lemma hex_digits_range s : Forall is_hex s -> 0 <= hex_val s < 16 ^ Z.of_nat (length s).
Proof. intros H. apply digits_val_range; [lia|]. revert H; apply Forall_impl, hex_digit_range. Qed.

Lemma dec_digits_range s : Forall is_dec s -> 0 <= dec_val s < 10 ^ Z.of_nat (length s).
Proof. intros H. apply digits_val_range; [lia|]. revert H; apply Forall_impl, dec_digit_range. Qed.

Lemma digits_val_snoc base dv s c :
  digits_val base dv (s ++ [c]) = digits_val base dv s * base + dv c.
Proof. unfold digits_val. by rewrite fold_left_app. Qed.

Lemma hex_limb_spec s : Forall is_hex s -> (length s <= 8)%nat -> hex_limb s = hex_val s.
Proof.
  unfold hex_limb. induction s as [|c s IH] using rev_ind; intros Hs Hl; [done|].
  rewrite length_app in Hl. cbn [length] in Hl.
  apply Forall_app in Hs as [Hs Hc]. apply Forall_cons_iff in Hc as [Hc _].
  rewrite fold_left_app. cbn [fold_left]. rewrite IH, digits_val_snoc by (done || lia).
  pose proof (hex_digits_range s Hs) as Hr. pose proof (hex_digit_range c Hc).
  pose proof (Z.pow_le_mono_r 16 (Z.of_nat (length s)) 7 ltac:(lia) ltac:(lia)) as Hp.
  change (16 ^ 7) with 268435456 in Hp.
  rewrite u32_small by (rewrite Z.shiftl_mul_pow2 by lia; change (2 ^ 4) with 16; zbounds).
  rewrite lor_shiftl_add by (change (2 ^ 4) with 16; lia). done.
Qed.

Lemma dec_chunk_spec s : Forall is_dec s -> (length s <= 9)%nat -> dec_chunk s = dec_val s.
Proof.
  unfold dec_chunk. induction s as [|c s IH] using rev_ind; intros Hs Hl; [done|].
  rewrite length_app in Hl. cbn [length] in Hl.
  apply Forall_app in Hs as [Hs Hc]. apply Forall_cons_iff in Hc as [Hc _].
  rewrite fold_left_app. cbn [fold_left]. rewrite IH, digits_val_snoc by (done || lia).
  pose proof (dec_digits_range s Hs) as Hr. pose proof (dec_digit_range c Hc) as Hd.
  pose proof (Z.pow_le_mono_r 10 (Z.of_nat (length s)) 8 ltac:(lia) ltac:(lia)) as Hp.
  change (10 ^ 8) with 100000000 in Hp. change (dec_value c) with (c - c_0) in *.
  rewrite (u32_small (dec_val s * 10)), (u32_small (c - c_0)), u32_small by zbounds. done.
Qed.

Lemma hex_limbs_spec fuel p pos :
  Forall is_hex p -> (pos <= fuel)%nat -> (pos <= length p)%nat ->
  wf_limbs (hex_limbs fuel p pos) /\ limbs_val (hex_limbs fuel p pos) = hex_val (take pos p).
Proof.
  intros Hp. revert pos. induction fuel as [|f IH]; intros pos Hf Hpos; cbn [hex_limbs].
  { replace pos with 0%nat by lia. split; [constructor|done]. }
  destruct (Nat.eqb_spec pos 0) as [->|Hne]; [split; [constructor|done]|].
  set (start := if (8 <=? pos)%nat then (pos - 8)%nat else 0%nat).
  assert ((pos - start <= 8)%nat /\ (start < pos)%nat /\ (start = 0 \/ pos - start = 8)%nat) as (Hs1 & Hs2 & Hs3)
    by (unfold start; destruct (Nat.leb_spec 8 pos); lia).
  set (s := take (pos - start) (drop start p)).
  assert (Forall is_hex s) as Hs by (by apply Forall_take, Forall_drop).
  assert (length s = pos - start)%nat as Hls by (unfold s; rewrite length_take, length_drop; lia).
  destruct (IH start ltac:(lia) ltac:(lia)) as [Hw Hv].
  rewrite (hex_limb_spec s Hs ltac:(lia)). pose proof (hex_digits_range s Hs) as Hr.
  pose proof (Z.pow_le_mono_r 16 (Z.of_nat (length s)) 8 ltac:(lia) ltac:(lia)) as Hp8.
  change (16 ^ 8) with BASE in Hp8.
  split; [apply wf_limbs_cons; split; [zbounds|done]|]. cbn [limbs_val]. rewrite Hv.
  assert (take pos p = take start p ++ s) as ->.
  { replace pos with (start + (pos - start))%nat at 1 by lia. apply take_split. }
  rewrite digits_val_app. destruct Hs3 as [E|E].
  - rewrite E. unfold digits_val at 2 3. simpl. lia.
  - rewrite Hls, E. change (16 ^ Z.of_nat 8) with BASE. lia.
Qed.

Lemma dec_limbs_spec fuel p first offset limbs :
  Forall is_dec p -> (length p - offset <= fuel)%nat -> (offset <= length p)%nat ->
  (1 <= first <= 9)%nat -> (first <= length p)%nat ->
  (exists k, length p = first + 9 * k)%nat ->
  (offset = 0 \/ exists k, length p = offset + 9 * k)%nat ->
  wf_limbs limbs -> normalized limbs -> limbs_val limbs = dec_val (take offset p) ->
  wf_limbs (dec_limbs fuel p first offset limbs) /\
  normalized (dec_limbs fuel p first offset limbs) /\
  limbs_val (dec_limbs fuel p first offset limbs) = dec_val p.
Proof.
  intros Hp. revert offset limbs. induction fuel as [|f IH];
    intros offset limbs Hf Ho Hfirst Hfl Hk Hko Hw Hn Hv; cbn [dec_limbs].
  { split; [done|]. split; [done|]. rewrite Hv, take_ge by lia. done. }
  destruct (Nat.ltb_spec offset (length p)).
  2:{ split; [done|]. split; [done|]. rewrite Hv, take_ge by lia. done. }
  set (n := if (offset =? 0)%nat then first else BIGINT_DEC_BASE_DIGITS).
  assert ((1 <= n <= 9)%nat /\ (offset + n <= length p)%nat /\ (offset = 0 \/ n = 9)%nat /\
    exists k, (length p = offset + n + 9 * k)%nat) as (Hn1 & Hn2 & Hn3 & Hn4).
  { unfold n, BIGINT_DEC_BASE_DIGITS in *. destruct (Nat.eqb_spec offset 0) as [->|].
    - destruct Hk as [k Hk]. split; [lia|]. split; [lia|]. split; [lia|]. exists k. lia.
    - destruct Hko as [|[[|k] Hko]]; [lia..|].
      split; [lia|]. split; [lia|]. split; [lia|]. exists k. lia. }
  set (s := take n (drop offset p)).
  assert (Forall is_dec s) as Hs by (by apply Forall_take, Forall_drop).
  assert (length s = n) as Hls by (unfold s; rewrite length_take, length_drop; lia).
  rewrite (dec_chunk_spec s Hs ltac:(lia)). pose proof (dec_digits_range s Hs) as Hr.
  pose proof (Z.pow_le_mono_r 10 (Z.of_nat (length s)) 9 ltac:(lia) ltac:(lia)) as Hp9.
  change (10 ^ 9) with 1000000000 in Hp9.
  destruct (mul_add_small_spec limbs BIGINT_DEC_BASE (dec_val s)) as (Hv' & Hw' & Hn');
    [done|unfold BIGINT_DEC_BASE; zbounds|zbounds|].
  apply IH; try done; [lia|by right|].
  rewrite Hv', take_split, digits_val_app, Hv. fold s. destruct Hn3 as [E|E].
  - rewrite E. unfold digits_val at 1 3. simpl. lia.
  - rewrite Hls, E. done.
Qed.

(** *** What the parser accepts *)

Inductive numeral : list Z -> Z -> Prop :=
| numeral_dec s : s <> [] -> Forall is_dec s -> numeral s (dec_val s)
| numeral_hex c s : c = c_x \/ c = c_X -> s <> [] -> Forall is_hex s ->
    numeral (c_0 :: c :: s) (hex_val s).

Inductive signed_numeral : list Z -> Z -> Prop :=
| signed_none s v : numeral s v -> signed_numeral s v
| signed_plus s v : numeral s v -> signed_numeral (c_plus :: s) v
| signed_minus s v : numeral s v -> signed_numeral (c_minus :: s) (- v).

Lemma forallb_Forall {A} (f : A -> bool) (P : A -> Prop) l :
  (forall x, f x = true <-> P x) -> forallb f l = true <-> Forall P l.
Proof.
  intros Hf. induction l as [|x l IH]; cbn [forallb]; [by split|].
  by rewrite andb_true_iff, IH, Hf, Forall_cons_iff.
Qed.

Lemma isdigits_spec p : forallb isdigit p = true <-> Forall is_dec p.
Proof. by apply forallb_Forall. Qed.

Lemma ishex_spec p : forallb (fun c => 0 <=? bigint_hex_digit_value c) p = true <-> Forall is_hex p.
Proof. apply forallb_Forall. intros. unfold is_hex. lia. Qed.

(** A parse result denotes the signed value [v]. *)
Definition parsed (r : option (Z * list Z)) (v : Z) : Prop :=
  exists s l, r = Some (s, l) /\ wf_limbs l /\ (if s <? 0 then - limbs_val l else limbs_val l) = v.

Lemma parsed_limbs sign l v :
  (sign = 1 \/ sign = -1) -> wf_limbs l -> limbs_val l = v ->
  parsed (if (length l =? 0)%nat then Some (0, []) else Some (if sign <? 0 then -1 else 1, l)) (sign * v).
Proof.
  intros Hs Hw <-. destruct (Nat.eqb_spec (length l) 0) as [E|E].
  - exists 0, []. apply nil_length_inv in E. subst l. split; [done|]. split; [constructor|]. simpl. lia.
  - eexists _, l. split; [done|]. split; [done|]. destruct Hs as [-> | ->]; simpl; lia.
Qed.

Lemma parse_zero_case dv p :
  dv c_0 = 0 -> skip_zeros p = [c_0] -> p <> [] -> forall base, digits_val base dv p = 0.
Proof.
  intros H0 E Hp base. destruct (skip_zeros_spec base dv p H0 Hp) as (<- & _). rewrite E.
  unfold digits_val. simpl. lia.
Qed.

Lemma parsed_zero : parsed (Some (0, [])) 0.
Proof. exists 0, []. split; [done|]. split; [constructor|done]. Qed.

Lemma parse_hex_spec sign p :
  (sign = 1 \/ sign = -1) -> p <> [] -> Forall is_hex p -> parsed (parse_hex sign p) (sign * hex_val p).
Proof.
  intros Hs Hp Hall. unfold parse_hex. apply ishex_spec in Hall as Hb. rewrite Hb. cbn [negb].
  destruct (Nat.eqb_spec (length p) 0) as [E|_]; [by apply nil_length_inv in E|].
  destruct (skip_zeros_spec 16 bigint_hex_digit_value p eq_refl Hp) as (Hv & Hne & _ & HP).
  case_bool_decide as E.
  { rewrite (parse_zero_case _ p eq_refl E Hp), Z.mul_0_r. apply parsed_zero. }
  specialize (HP is_hex Hall).
  destruct (hex_limbs_spec (length (skip_zeros p)) (skip_zeros p) (length (skip_zeros p)) HP) as [Hw Hl]; [lia..|].
  apply parsed_limbs; [done..|]. by rewrite Hl, firstn_all, Hv.
Qed.

Lemma first_group n :
  (n <> 0)%nat ->
  let first := if (n mod 9 =? 0)%nat then 9%nat else (n mod 9)%nat in
  (1 <= first <= 9)%nat /\ (first <= n)%nat /\ exists k, (n = first + 9 * k)%nat.
Proof.
  intros Hn first. unfold first. pose proof (Nat.div_mod_eq n 9).
  pose proof (Nat.mod_upper_bound n 9 ltac:(lia)).
  destruct (Nat.eqb_spec (n mod 9) 0).
  - split; [lia|]. split; [lia|]. exists (n / 9 - 1)%nat. lia.
  - split; [lia|]. split; [lia|]. exists (n / 9)%nat. lia.
Qed.

Lemma parse_dec_spec sign p :
  (sign = 1 \/ sign = -1) -> p <> [] -> Forall is_dec p -> parsed (parse_dec sign p) (sign * dec_val p).
Proof.
  intros Hs Hp Hall. unfold parse_dec. apply isdigits_spec in Hall as Hb. rewrite Hb. cbn [negb].
  destruct (skip_zeros_spec 10 dec_value p eq_refl Hp) as (Hv & Hne & _ & HP).
  case_bool_decide as E.
  { rewrite (parse_zero_case _ p eq_refl E Hp), Z.mul_0_r. apply parsed_zero. }
  specialize (HP is_dec Hall). set (s := skip_zeros p) in *.
  assert (length s <> 0)%nat as Hlen by (intros H0; by apply nil_length_inv in H0).
  destruct (first_group (length s) Hlen) as (H1 & H2 & H3).
  destruct (dec_limbs_spec (length s) s _ 0 [] HP ltac:(lia) ltac:(lia) H1 H2 H3)
    as (Hw & _ & Hl); [by left|constructor|done..|].
  apply parsed_limbs; [done..|]. by rewrite <- Hv.
Qed.

Lemma parse_hex_None sign p : parse_hex sign p <> None -> p <> [] /\ Forall is_hex p.
Proof.
  unfold parse_hex. rewrite <- ishex_spec. destruct p; [done|]. simpl length. cbn [Nat.eqb].
  destruct (forallb _ _); done.
Qed.

Lemma parse_dec_None sign p : parse_dec sign p <> None -> Forall is_dec p.
Proof. unfold parse_dec. rewrite <- isdigits_spec. by destruct (forallb isdigit p). Qed.

(** The part after the sign. *)
Definition parse_body (sign : Z) (p : list Z) : option (Z * list Z) :=
  match p with
  | [] => None
  | c0 :: c1 :: p' =>
      if (c0 =? c_0) && ((c1 =? c_x) || (c1 =? c_X)) then parse_hex sign p' else parse_dec sign p
  | _ => parse_dec sign p
  end.

Lemma parse_body_spec sign p v :
  (sign = 1 \/ sign = -1) -> numeral p v -> parsed (parse_body sign p) (sign * v).
Proof.
  intros Hs Hn. destruct Hn as [s Hne Hs'|c s Hc Hne Hs'].
  - destruct s as [|c0 [|c1 s]]; [done|by apply parse_dec_spec|]. unfold parse_body.
    destruct ((c0 =? c_0) && ((c1 =? c_x) || (c1 =? c_X))) eqn:E; [|by apply parse_dec_spec].
    apply Forall_cons_iff in Hs' as [_ [H1 _]%Forall_cons_iff].
    unfold is_dec, isdigit, c_x, c_X in *. lia.
  - unfold parse_body. rewrite Z.eqb_refl.
    assert ((c =? c_x) || (c =? c_X) = true) as -> by (unfold c_x, c_X in *; lia).
    by apply parse_hex_spec.
Qed.

Lemma parse_body_numeral sign p : parse_body sign p <> None -> exists v, numeral p v.
Proof.
  destruct p as [|c0 [|c1 s]]; [done| |]; unfold parse_body; intros H.
  - exists (dec_val [c0]). apply numeral_dec; [done|]. by apply parse_dec_None in H.
  - destruct ((c0 =? c_0) && ((c1 =? c_x) || (c1 =? c_X))) eqn:E.
    + apply andb_true_iff in E as [->%Z.eqb_eq Hc]. apply parse_hex_None in H as [Hne Hs].
      exists (hex_val s). apply numeral_hex; [lia|done..].
    + exists (dec_val (c0 :: c1 :: s)). apply numeral_dec; [done|]. by apply parse_dec_None in H.
Qed.

Lemma numeral_head p v : numeral p v -> exists c p', p = c :: p' /\ c <> c_minus /\ c <> c_plus.
Proof.
  destruct 1 as [s Hne Hs|c s Hc Hne Hs]; [|by exists c_0, (c :: s)].
  destruct s as [|c s]; [done|]. exists c, s. apply Forall_cons_iff in Hs as [H _].
  unfold is_dec, isdigit, c_minus, c_plus in *. split; [done|lia].
Qed.

Lemma parse_string_spec str v : signed_numeral str v -> parsed (bigint_parse_string str) v.
Proof.
  destruct 1 as [s v Hn|s v Hn|s v Hn].
  - destruct (numeral_head s v Hn) as (c & p & -> & Hm & Hp). unfold bigint_parse_string.
    apply Z.eqb_neq in Hm, Hp. rewrite Hm, Hp.
    apply (parse_body_spec 1) in Hn; [|by left]. by rewrite Z.mul_1_l in Hn.
  - apply (parse_body_spec 1) in Hn; [|by left]. by rewrite Z.mul_1_l in Hn.
  - apply (parse_body_spec (-1)) in Hn; [|by right].
    by replace (-1 * v) with (- v) in Hn by lia.
Qed.

Lemma parse_string_accepts str : bigint_parse_string str <> None -> exists v, signed_numeral str v.
Proof.
  destruct str as [|c p]; [done|]. unfold bigint_parse_string.
  destruct (Z.eqb_spec c c_minus) as [->|]; [|destruct (Z.eqb_spec c c_plus) as [->|]];
    intros H.
  - destruct (parse_body_numeral (-1) p H) as [v Hv]. exists (- v). by constructor.
  - destruct (parse_body_numeral 1 p H) as [v Hv]. exists v. by constructor.
  - destruct (parse_body_numeral 1 (c :: p) H) as [v Hv]. exists v. by constructor.
Qed.

Lemma try_from_string_spec str v :
  signed_numeral str v ->
  exists b, obj_bigint_try_from_string str = Some b /\ obj_bigint_from_string str = b /\ returns b v.
Proof.
  intros (s & l & E & Hw & Hv)%parse_string_spec.
  unfold obj_bigint_try_from_string, obj_bigint_from_string. rewrite E.
  eexists. split; [done|]. split; [done|]. by apply returns_from_limbs.
Qed.

(** ** Decimal printing *)

(** The value of decimal chunks, least significant first. *)
Fixpoint chunks_val (cs : list Z) : Z :=
  match cs with
  | [] => 0
  | c :: cs' => c + BIGINT_DEC_BASE * chunks_val cs'
  end.

Definition chunk_ok (c : Z) : Prop := 0 <= c < BIGINT_DEC_BASE.

Lemma chunks_val_app cs ds :
  chunks_val (cs ++ ds) = chunks_val cs + BIGINT_DEC_BASE ^ Z.of_nat (length cs) * chunks_val ds.
Proof.
  induction cs as [|c cs IH]; cbn [app chunks_val length]; [rewrite Z.pow_0_r; lia|].
  rewrite IH, Nat2Z.inj_succ, Z.pow_succ_r by lia. ring.
Qed.

(** With enough fuel the chunks are complete, and the last one is not zero. *)
Lemma dec_chunks_spec fuel work :
  wf_limbs work -> normalized work -> limbs_val work < BIGINT_DEC_BASE ^ Z.of_nat fuel ->
  Forall chunk_ok (dec_chunks fuel work) /\
  chunks_val (dec_chunks fuel work) = limbs_val work /\
  (work <> [] -> exists cs c, dec_chunks fuel work = cs ++ [c] /\ 0 < c).
Proof.
  revert work. induction fuel as [|f IH]; intros work Hw Hn Hlt.
  { rewrite Z.pow_0_r in Hlt. pose proof (limbs_val_bound work Hw).
    assert (work = []) as -> by (apply limbs_val_zero_nil; [done..|lia]).
    split; [constructor|]. split; [done|by intros []]. }
  destruct work as [|x l] eqn:E; [split; [constructor|]; split; [done|by intros []]|].
  rewrite <- E in *. assert (work <> []) as Hne by (by rewrite E).
  assert (dec_chunks (S f) work = let '(q, rem) := bigint_divmod_small work BIGINT_DEC_BASE in
    rem :: dec_chunks f q) as -> by (by rewrite E). clear E x l.
  destruct (bigint_divmod_small work BIGINT_DEC_BASE) as [q rem] eqn:E.
  apply divmod_small_spec in E as (Hv & Hr & Hqw & Hqn); [|done|unfold BIGINT_DEC_BASE; lia].
  rewrite Nat2Z.inj_succ, Z.pow_succ_r in Hlt by lia.
  destruct (IH q Hqw Hqn) as (Hc & Hcv & Hlast); [unfold BIGINT_DEC_BASE in *; nia|].
  split; [by constructor|]. split; [cbn [chunks_val]; lia|]. intros _.
  destruct q as [|y q'].
  - exists [], rem. simpl in Hv. pose proof (limbs_val_pos work Hw Hn Hne).
    split; [by destruct f|lia].
  - destruct (Hlast ltac:(done)) as (cs & c & -> & Hc0). by exists (rem :: cs), c.
Qed.

(** The capacity [2 * count + 1] is enough chunks. *)
Lemma chunk_fuel_enough l :
  wf_limbs l -> limbs_val l < BIGINT_DEC_BASE ^ Z.of_nat (chunk_fuel l).
Proof.
  intros Hl. pose proof (limbs_val_bound l Hl) as [_ Hb]. unfold chunk_fuel.
  apply Z.lt_le_trans with (weight (length l)); [done|]. clear Hb Hl. rewrite weight_pow.
  replace (Z.of_nat (2 * length l + 1)) with (2 * Z.of_nat (length l) + 1) by lia.
  rewrite Z.pow_add_r, !Z.pow_mul_r by lia. unfold BIGINT_DEC_BASE.
  pose proof (Z.pow_le_mono_l (2 ^ 32) (1000000000 ^ 2) (Z.of_nat (length l))) as H.
  specialize (H ltac:(lia)). pose proof (Z.pow_pos_nonneg (2 ^ 32) (Z.of_nat (length l))). lia.
Qed.

Lemma dec_chunks_complete b :
  bi_wf b ->
  Forall chunk_ok (dec_chunks (chunk_fuel (limbs b)) (limbs b)) /\
  chunks_val (dec_chunks (chunk_fuel (limbs b)) (limbs b)) = Z.abs (bi_val b) /\
  (limbs b <> [] -> exists cs c, dec_chunks (chunk_fuel (limbs b)) (limbs b) = cs ++ [c] /\ 0 < c).
Proof.
  intros Hb. rewrite <- (bi_wf_abs b Hb).
  apply dec_chunks_spec; auto using chunk_fuel_enough with bigint.
Qed.

(** *** The conversions *)

Lemma udigits_spec fuel n :
  0 <= n < 10 ^ Z.of_nat fuel -> fuel <> O ->
  Forall is_dec (udigits fuel n) /\ dec_val (udigits fuel n) = n.
Proof.
  revert n. induction fuel as [|f IH]; intros n Hn Hf; [done|]. cbn [udigits].
  rewrite Nat2Z.inj_succ, Z.pow_succ_r in Hn by lia.
  destruct (Z.ltb_spec n 10).
  - split; [repeat constructor; unfold is_dec, isdigit, c_0; lia|].
    unfold digits_val, dec_value. cbn [fold_left]. lia.
  - pose proof (Z.div_mod n 10 ltac:(lia)). pose proof (Z.mod_pos_bound n 10 ltac:(lia)).
    assert (0 <= n / 10 < 10 ^ Z.of_nat f)
      by (split; [apply Z.div_pos; lia|apply Z.div_lt_upper_bound; lia]).
    destruct (IH (n / 10)) as [Hd Hv]; [done|intros ->; rewrite Z.pow_0_r in *; lia|].
    split.
    + apply Forall_app. split; [done|]. repeat constructor. unfold is_dec, isdigit, c_0. lia.
    + rewrite digits_val_snoc, Hv. unfold dec_value, c_0. lia.
Qed.

Lemma udigits_length fuel n k :
  (k < fuel)%nat -> 10 ^ Z.of_nat k <= n < 10 ^ Z.of_nat (S k) -> length (udigits fuel n) = S k.
Proof.
  revert n k. induction fuel as [|f IH]; intros n k Hk Hn; [lia|]. cbn [udigits].
  rewrite Nat2Z.inj_succ, Z.pow_succ_r in Hn by lia. destruct k as [|k].
  - rewrite Z.pow_0_r in Hn. destruct (Z.ltb_spec n 10); [done|lia].
  - rewrite Nat2Z.inj_succ, Z.pow_succ_r in Hn by lia.
    pose proof (Z.pow_pos_nonneg 10 (Z.of_nat k)). destruct (Z.ltb_spec n 10); [lia|].
    rewrite length_app, (IH (n / 10) k); [simpl; lia|lia|].
    rewrite Nat2Z.inj_succ, Z.pow_succ_r by lia.
    split; [apply Z.div_le_lower_bound; lia|apply Z.div_lt_upper_bound; lia].
Qed.

Lemma fmt_u_spec n :
  0 <= n < BIGINT_DEC_BASE ->
  Forall is_dec (fmt_u n) /\ dec_val (fmt_u n) = n /\ length (fmt_u n) = bigint_digits_u32 n.
Proof.
  intros Hn. unfold BIGINT_DEC_BASE in Hn. unfold fmt_u.
  destruct (udigits_spec 10 n) as [Hd Hv]; [change (10 ^ Z.of_nat 10) with 10000000000; lia|done|].
  split; [done|]. split; [done|]. clear Hd Hv.
  destruct (Z.eqb_spec n 0) as [->|Hnz]; [done|]. unfold bigint_digits_u32.
  repeat case_match; (apply udigits_length; [lia|]);
    match goal with |- 10 ^ Z.of_nat ?k <= _ < 10 ^ Z.of_nat ?m =>
      let a := eval vm_compute in (10 ^ Z.of_nat k) in
      let b := eval vm_compute in (10 ^ Z.of_nat m) in
      change (10 ^ Z.of_nat k) with a; change (10 ^ Z.of_nat m) with b end; lia.
Qed.

Lemma digits_u32_bounds n : (1 <= bigint_digits_u32 n <= 9)%nat.
Proof. unfold bigint_digits_u32. repeat case_match; lia. Qed.

Lemma zeros_val n : dec_val (replicate n c_0) = 0 /\ Forall is_dec (replicate n c_0).
Proof.
  induction n as [|n [IH1 IH2]]; [by split|]. cbn [replicate].
  rewrite digits_val_cons, IH1. split; [done|by constructor].
Qed.

Lemma fmt_09u_spec n :
  0 <= n < BIGINT_DEC_BASE ->
  Forall is_dec (fmt_09u n) /\ dec_val (fmt_09u n) = n /\ length (fmt_09u n) = 9%nat.
Proof.
  intros Hn. destruct (fmt_u_spec n Hn) as (Hd & Hv & Hl). unfold fmt_09u.
  destruct (zeros_val (9 - length (fmt_u n))) as [Hz Hzd]. pose proof (digits_u32_bounds n).
  split; [by apply Forall_app|]. rewrite digits_val_app, Hz, Hv. split; [lia|].
  rewrite length_app, length_replicate. lia.
Qed.

Lemma cells_exact w s : length s = w -> cells w s = s.
Proof. intros <-. unfold cells. by rewrite take_app_length. Qed.

Lemma is_dec_nonzero s : Forall is_dec s -> Forall (fun c => c <> 0) s.
Proof. apply Forall_impl. intros c. unfold is_dec, isdigit. lia. Qed.

Definition chunk_cells (c : Z) : list Z := cells BIGINT_DEC_BASE_DIGITS (fmt_09u c).

Lemma low_chunks_text t cs :
  Forall chunk_ok cs ->
  let s := flat_map chunk_cells (rev cs) in
  Forall is_dec s /\ length s = (length cs * 9)%nat /\
  dec_val (t ++ s) = dec_val t * BIGINT_DEC_BASE ^ Z.of_nat (length cs) + chunks_val cs.
Proof.
  induction 1 as [|c cs Hc Hcs IH]; cbn [rev flat_map chunks_val].
  { rewrite app_nil_r. split; [constructor|]. split; [done|]. cbn [length]. lia. }
  destruct (fmt_09u_spec c Hc) as (Hd & Hv & Hl). destruct IH as (IH1 & IH2 & IH3).
  assert (chunk_cells c = fmt_09u c) as Ec by (by apply cells_exact).
  rewrite flat_map_app. cbn [flat_map]. rewrite app_nil_r, Ec.
  split; [by apply Forall_app|]. split; [rewrite length_app; simpl; lia|].
  rewrite app_assoc, digits_val_app, IH3, Hv, Hl. cbn [length].
  change (10 ^ Z.of_nat 9) with BIGINT_DEC_BASE.
  rewrite Nat2Z.inj_succ, Z.pow_succ_r by lia. ring.
Qed.

(** The digits printed for a non-zero magnitude. *)
Definition dec_text (cs : list Z) (ms : Z) : list Z := fmt_u ms ++ flat_map chunk_cells (rev cs).

Lemma dec_text_spec cs ms :
  Forall chunk_ok (cs ++ [ms]) ->
  Forall is_dec (dec_text cs ms) /\ dec_val (dec_text cs ms) = chunks_val (cs ++ [ms]) /\
  length (dec_text cs ms) = (length cs * 9 + bigint_digits_u32 ms)%nat.
Proof.
  intros [Hcs [Hms _]%Forall_cons_iff]%Forall_app. unfold dec_text.
  destruct (fmt_u_spec ms Hms) as (Hd & Hv & Hl).
  destruct (low_chunks_text (fmt_u ms) cs Hcs) as (Hd' & Hl' & Hv').
  split; [by apply Forall_app|]. rewrite Hv', Hv, chunks_val_app, length_app. cbn [chunks_val].
  split; lia.
Qed.

Lemma to_string_eq b :
  bi_wf b -> limbs b <> [] ->
  exists cs ms, Forall chunk_ok (cs ++ [ms]) /\ 0 < ms /\
    chunks_val (cs ++ [ms]) = Z.abs (bi_val b) /\
    obj_bigint_to_string (Some b) =
      (if bi_val b <? 0 then [c_minus] else []) ++ dec_text cs ms /\
    obj_bigint_decimal_digits (Some b) = length (dec_text cs ms).
Proof.
  intros Hb Hne. destruct (dec_chunks_complete b Hb) as (Hok & Hv & Hlast).
  destruct (Hlast Hne) as (cs & ms & E & Hms). rewrite E in Hok, Hv.
  exists cs, ms. split; [done|]. split; [done|]. split; [done|].
  destruct (dec_text_spec cs ms Hok) as (Hd & _ & Hlen).
  unfold obj_bigint_to_string, obj_bigint_decimal_digits. rewrite E, length_app. cbn [length].
  destruct (Nat.eqb_spec (length (limbs b)) 0) as [E'|_]; [by apply nil_length_inv in E'|].
  replace (length cs + 1 - 1)%nat with (length cs) by lia.
  destruct (Nat.eqb_spec (length cs + 1) 0) as [E'|_]; [lia|].
  rewrite take_app_length, nth_middle. split; [|done].
  apply Forall_app in Hok as [_ [Hms' _]%Forall_cons_iff].
  destruct (fmt_u_spec ms Hms') as (_ & _ & Hl). rewrite (cells_exact _ _ Hl).
  rewrite (bi_wf_sign b Hb). destruct (Z.ltb_spec (Z.sgn (bi_val b)) 0), (Z.ltb_spec (bi_val b) 0); try lia;
    (apply c_string_id, Forall_app; split; [repeat constructor; done|by apply is_dec_nonzero]).
Qed.

(** ** Hexadecimal printing *)

Lemma hex_nibble_spec limb i : hex_nibble limb i = (limb / 16 ^ Z.of_nat i) mod 16.
Proof.
  unfold hex_nibble. change 15 with (Z.ones 4). rewrite Z.land_ones, Z.shiftr_div_pow2 by lia.
  rewrite Z.mul_comm, Z.pow_mul_r by lia. done.
Qed.

Lemma hex_nibble_range limb i : 0 <= hex_nibble limb i < 16.
Proof. rewrite hex_nibble_spec. apply Z.mod_pos_bound. lia. Qed.

Lemma hex_table d : 0 <= d < 16 -> bigint_hex_digit_value (nth (Z.to_nat d) hex_digits 0) = d.
Proof.
  intros Hd. rewrite <- (Z2Nat.id d) at 2 by lia.
  assert (Z.to_nat d < 16)%nat as H by lia. revert H. generalize (Z.to_nat d). intros n Hn.
  do 16 (destruct n as [|n]; [reflexivity|]). lia.
Qed.

Lemma hex_char_value limb i : bigint_hex_digit_value (hex_char limb i) = hex_nibble limb i.
Proof. apply hex_table, hex_nibble_range. Qed.

Lemma hex_text_spec n limb :
  Forall is_hex (hex_text n limb) /\ length (hex_text n limb) = n /\
  hex_val (hex_text n limb) = limb mod 16 ^ Z.of_nat n.
Proof.
  induction n as [|n (IH1 & IH2 & IH3)]; cbn [hex_text length].
  { rewrite Z.mod_1_r. split; [constructor|done]. }
  pose proof (hex_nibble_range limb n). split; [|split; [by rewrite IH2|]].
  - constructor; [|done]. unfold is_hex. rewrite hex_char_value. lia.
  - rewrite digits_val_cons, IH3, IH2, hex_char_value, hex_nibble_spec, Nat2Z.inj_succ, Z.pow_succ_r by lia.
    rewrite (Z.mul_comm 16), Z.rem_mul_r by lia. lia.
Qed.

Lemma ms_nibbles_spec n ms :
  0 <= ms < 16 ^ Z.of_nat (S n) ->
  0 <= ms < 16 ^ Z.of_nat (ms_nibbles (S n) ms).
Proof.
  induction n as [|n IH]; intros Hms; [done|].
  change (ms_nibbles (S (S n)) ms)
    with (if hex_nibble ms (S n) =? 0 then ms_nibbles (S n) ms else S (S n)).
  destruct (Z.eqb_spec (hex_nibble ms (S n)) 0) as [E|E]; [|done]. apply IH.
  rewrite hex_nibble_spec in E. pose proof (Z.pow_pos_nonneg 16 (Z.of_nat (S n)) ltac:(lia) ltac:(lia)).
  rewrite (Nat2Z.inj_succ (S n)), Z.pow_succ_r in Hms by lia.
  assert (0 <= ms / 16 ^ Z.of_nat (S n) < 16)
    by (split; [apply Z.div_pos; lia|apply Z.div_lt_upper_bound; lia]).
  rewrite Z.mod_small in E by lia. apply Z.div_small_iff in E; lia.
Qed.

Lemma ms_nibbles_pos n ms : ms_nibbles (S n) ms <> O.
Proof.
  induction n as [|n IH]; [done|].
  change (ms_nibbles (S (S n)) ms)
    with (if hex_nibble ms (S n) =? 0 then ms_nibbles (S n) ms else S (S n)).
  by destruct (hex_nibble ms (S n) =? 0).
Qed.

Lemma low_limbs_text t l :
  wf_limbs l ->
  let s := flat_map (hex_text 8) (rev l) in
  Forall is_hex s /\ hex_val (t ++ s) = hex_val t * weight (length l) + limbs_val l.
Proof.
  induction 1 as [|x l Hx Hl IH]; cbn [rev flat_map limbs_val].
  { rewrite app_nil_r. split; [constructor|]. cbn [length]. rewrite weight_0. lia. }
  destruct (hex_text_spec 8 x) as (Hd & Hn & Hv). destruct IH as [IH1 IH2].
  rewrite flat_map_app. cbn [flat_map]. rewrite app_nil_r.
  split; [by apply Forall_app|].
  rewrite app_assoc, digits_val_app, IH2, Hv, Hn. cbn [length].
  change (16 ^ Z.of_nat 8) with BASE. rewrite Z.mod_small, weight_S by exact Hx. ring.
Qed.

Lemma to_hex_string_eq b :
  bi_wf b -> limbs b <> [] ->
  exists s, s <> [] /\ Forall is_hex s /\ hex_val s = Z.abs (bi_val b) /\
    obj_bigint_to_hex_string (Some b) =
      (if bi_val b <? 0 then [c_minus] else []) ++ [c_0; c_x] ++ s.
Proof.
  intros Hb Hne. pose proof (bi_wf_abs b Hb) as Ab. pose proof (bi_wf_sign b Hb) as Sb.
  pose proof (limbs_val_pos _ (bi_wf_limbs b Hb) (bi_wf_normalized b Hb) Hne).
  pose proof (bi_wf_limbs b Hb) as Hw.
  unfold obj_bigint_to_hex_string.
  destruct (limbs b) as [|ms l _] eqn:E using rev_ind; [done|].
  rewrite length_app. cbn [length]. replace (length l + 1 - 1)%nat with (length l) by lia.
  rewrite take_app_length, nth_middle. apply wf_limbs_app in Hw as [Hl [Hms _]%wf_limbs_cons].
  destruct (hex_text_spec (ms_nibbles 8 ms) ms) as (Hd & Hn & Hv).
  destruct (low_limbs_text (hex_text (ms_nibbles 8 ms) ms) l Hl) as [Hd' Hv'].
  exists (hex_text (ms_nibbles 8 ms) ms ++ flat_map (hex_text 8) (rev l)).
  split; [|split; [by apply Forall_app|]].
  { destruct (hex_text (ms_nibbles 8 ms) ms); [|done]. by destruct (ms_nibbles_pos 7 ms). }
  split.
  - rewrite Hv', Hv, Z.mod_small, <- Ab, limbs_val_app by (apply (ms_nibbles_spec 7); exact Hms).
    cbn [limbs_val]. ring.
  - destruct (Nat.eqb_spec (length l + 1) 0); [lia|].
    destruct (Z.eqb_spec (sign b) 0); [lia|]. cbn [orb].
    by destruct (Z.ltb_spec (sign b) 0), (Z.ltb_spec (bi_val b) 0); try lia.
Qed.

(** ** Printed text is accepted back *)

Lemma signed_text b s :
  numeral s (Z.abs (bi_val b)) ->
  signed_numeral ((if bi_val b <? 0 then [c_minus] else []) ++ s) (bi_val b).
Proof.
  intros Hn. destruct (Z.ltb_spec (bi_val b) 0).
  - replace (bi_val b) with (- Z.abs (bi_val b)) by lia. by constructor.
  - rewrite Z.abs_eq in Hn by done. by constructor.
Qed.

Lemma to_string_numeral b : bi_wf b -> signed_numeral (obj_bigint_to_string (Some b)) (bi_val b).
Proof.
  intros Hb. destruct (decide (limbs b = [])) as [E|Hne].
  { unfold obj_bigint_to_string, bi_val. rewrite E. simpl. rewrite Z.mul_0_r.
    constructor. apply (numeral_dec [c_0]); [done|by repeat constructor]. }
  destruct (to_string_eq b Hb Hne) as (cs & ms & Hok & Hms & Hv & -> & _).
  destruct (dec_text_spec cs ms Hok) as (Hd & Hdv & Hlen).
  apply signed_text. rewrite <- Hv, <- Hdv. apply numeral_dec; [|done].
  intros E. rewrite E in Hlen. pose proof (digits_u32_bounds ms). simpl in Hlen. lia.
Qed.

Lemma to_hex_string_numeral b : bi_wf b -> signed_numeral (obj_bigint_to_hex_string (Some b)) (bi_val b).
Proof.
  intros Hb. destruct (decide (limbs b = [])) as [E|Hne].
  { unfold obj_bigint_to_hex_string, bi_val. rewrite E. simpl. rewrite Z.mul_0_r.
    constructor. apply (numeral_hex c_x [c_0]); [by left|done|].
    constructor; [|constructor]. vm_compute. discriminate. }
  destruct (to_hex_string_eq b Hb Hne) as (s & Hs & Hh & Hv & ->).
  apply signed_text. rewrite <- Hv. apply numeral_hex; [by left|done..].
Qed.

(** Two objects with the same fields except the reference count. *)
Definition same_number (a b : ObjBigInt) : Prop := sign a = sign b /\ limbs a = limbs b.

Lemma reparse b str :
  bi_wf b -> signed_numeral str (bi_val b) ->
  exists b', obj_bigint_try_from_string str = Some b' /\ same_number b' b /\ ref_count b' = 1.
Proof.
  intros Hb (b' & E & _ & Hw & Hv & Hr)%try_from_string_spec.
  exists b'. split; [done|]. split; [by apply bi_val_inj|done].
Qed.

(** ** Properties *)

(** C26: the parser accepts exactly the signed decimal and [0x] hexadecimal
    numerals and builds the number they denote; on any other string
    [obj_bigint_try_from_string] fails and [obj_bigint_from_string] is zero. *)
Theorem bigint_parse_correct str :
  (forall v, signed_numeral str v ->
    exists b, obj_bigint_try_from_string str = Some b /\ obj_bigint_from_string str = b /\
      returns b v) /\
  ((forall v, ~ signed_numeral str v) ->
    obj_bigint_try_from_string str = None /\ obj_bigint_from_string str = bigint_zero).
Proof.
  split; [apply try_from_string_spec|]. intros Hno.
  unfold obj_bigint_try_from_string, obj_bigint_from_string.
  destruct (bigint_parse_string str) eqn:E; [|done].
  destruct (parse_string_accepts str) as [v Hv]; [by rewrite E|]. by destruct (Hno v).
Qed.

(** C22: decimal printing followed by parsing gives back the same number, and
    [obj_bigint_decimal_digits] is the number of digits printed. *)
Theorem bigint_decimal_roundtrip b :
  bi_wf b ->
  (exists b', obj_bigint_try_from_string (obj_bigint_to_string (Some b)) = Some b' /\
    same_number b' b /\ ref_count b' = 1) /\
  length (obj_bigint_to_string (Some b)) =
    ((if (sign b <? 0)%Z then 1 else 0) + obj_bigint_decimal_digits (Some b))%nat.
Proof.
  intros Hb. split; [by apply reparse, to_string_numeral|].
  destruct (decide (limbs b = [])) as [E|Hne].
  { destruct Hb as (_ & _ & [[_ Hs]|[? _]]); [|done].
    unfold obj_bigint_to_string, obj_bigint_decimal_digits. by rewrite E, Hs. }
  destruct (to_string_eq b Hb Hne) as (cs & ms & _ & _ & _ & -> & ->).
  rewrite length_app, (bi_wf_sign b Hb).
  by destruct (Z.ltb_spec (Z.sgn (bi_val b)) 0), (Z.ltb_spec (bi_val b) 0); try lia.
Qed.

Lemma bigint_decimal_roundtrip_witness :
  exists b', obj_bigint_try_from_string (obj_bigint_to_string (Some ex_a)) = Some b' /\
    same_number b' ex_a /\ ref_count b' = 1.
Proof.
  apply (bigint_decimal_roundtrip ex_a). apply bi_wfb_true. vm_compute. reflexivity.
Defined.

(** hexadecimal printing followed by parsing gives back the same number. *)
Theorem bigint_hex_roundtrip b :
  bi_wf b ->
  exists b', obj_bigint_try_from_string (obj_bigint_to_hex_string (Some b)) = Some b' /\
    same_number b' b /\ ref_count b' = 1.
Proof. intros Hb. by apply reparse, to_hex_string_numeral. Qed.

Lemma bigint_hex_roundtrip_witness :
  exists b', obj_bigint_try_from_string (obj_bigint_to_hex_string (Some ex_a)) = Some b' /\
    same_number b' ex_a /\ ref_count b' = 1.
Proof. apply (bigint_hex_roundtrip ex_a). apply bi_wfb_true. vm_compute. reflexivity. Defined.
