(* ===== verification/Values.v ===== *)
(** * Values and hashing: [Value] of [src/src/vm.h], the hash and key
    comparison functions of [src/src/vm.c]

    A value is a tag with its payload. Heap objects other than strings and big
    integers are their address: the tables store and hand them on without
    looking inside. A string is its bytes and its cached hash; two pointers to
    one string object have the same bytes, so the pointer comparisons with
    which the code shortcuts a byte comparison are absorbed by it. The effect
    of [value_retain] and [value_free] on the reference counts is a trace of
    events. *)

From S2P Require Import Prelude BigIntLimbs BigIntDiv BigIntObj.
From stdpp Require Export countable gmap.

Open Scope Z_scope.

(** ** Values *)

(** [chars = None] is the [NULL] pointer; [shash = UINT32_MAX] means that the
    hash is not cached. *)
Record ObjString := mkStr { shash : Z; chars : option (list Z) }.

Definition address := nat.

Inductive Value :=
| VAL_INT (i : Z)
| VAL_BOOL (b : bool)
| VAL_DOUBLE (bits : Z)
| VAL_BIGINT (b : option ObjBigInt)
| VAL_STRING (s : option ObjString)
| VAL_BYTES (p : option address)
| VAL_ARRAY (p : option address)
| VAL_NIL
| VAL_FUNCTION (p : option address)
| VAL_NATIVE (p : option address)
| VAL_RECORD (p : option address)
| VAL_TUPLE (p : option address)
| VAL_MAP (p : option address)
| VAL_SET (p : option address)
| VAL_SOCKET (p : option address)
| VAL_FILE (p : option address).

#[export] Instance ObjBigInt_eq_dec : EqDecision ObjBigInt.
Proof. solve_decision. Defined.
#[export] Instance ObjString_eq_dec : EqDecision ObjString.
Proof. solve_decision. Defined.
#[export] Instance Value_eq_dec : EqDecision Value.
Proof. solve_decision. Defined.

(** ** Reference-count events *)

Inductive rc_event :=
| Retain (v : Value)   (* one more reference *)
| Free (v : Value)     (* one reference fewer *)
| Alloc (v : Value).   (* a new object with one reference *)

(** The references a trace takes and gives up. *)
Definition acquired (tr : list rc_event) : list Value :=
  omap (fun e => match e with Retain v | Alloc v => Some v | Free _ => None end) tr.
Definition released (tr : list rc_event) : list Value :=
  omap (fun e => match e with Free v => Some v | _ => None end) tr.

(** Whether the value points to a counted object. *)
Definition has_object (v : Value) : bool :=
  match v with
  | VAL_STRING (Some _) | VAL_BIGINT (Some _) => true
  | VAL_BYTES (Some _) | VAL_ARRAY (Some _) | VAL_FUNCTION (Some _) | VAL_NATIVE (Some _)
  | VAL_RECORD (Some _) | VAL_TUPLE (Some _) | VAL_MAP (Some _) | VAL_SET (Some _)
  | VAL_SOCKET (Some _) | VAL_FILE (Some _) => true
  | _ => false
  end.

Definition value_retain (v : Value) : list rc_event := if has_object v then [Retain v] else [].
Definition value_free (v : Value) : list rc_event := if has_object v then [Free v] else [].

(** ** Hash functions *)

Definition hash_mix64 (h : Z) : Z :=
  let h := Z.lxor h (Z.shiftr h 30) in
  let h := u64 (h * 0xbf58476d1ce4e5b9) in
  let h := Z.lxor h (Z.shiftr h 27) in
  let h := u64 (h * 0x94d049bb133111eb) in
  Z.lxor h (Z.shiftr h 31).

Definition hash_mix32 (h : Z) : Z :=
  let h := Z.lxor h (Z.shiftr h 16) in
  let h := u32 (h * 0x7feb352d) in
  let h := Z.lxor h (Z.shiftr h 15) in
  let h := u32 (h * 0x846ca68b) in
  Z.lxor h (Z.shiftr h 16).

Definition hash_fold64_to32 (h : Z) : Z :=
  let mixed := hash_mix64 h in
  hash_mix32 (u32 (Z.lxor mixed (Z.shiftr mixed 32))).

Definition FNV_BASIS : Z := 1469598103934665603.
Definition FNV_PRIME : Z := 1099511628211.

(** FNV-1a over bytes. *)
Definition fnv_step (hash byte : Z) : Z := u64 (Z.lxor hash byte * FNV_PRIME).

Definition hash_string_internal64 (str : list Z) : Z :=
  hash_mix64 (Z.lxor (fold_left fnv_step str FNV_BASIS) (Z.of_nat (length str))).

Definition limb_bytes (limb : Z) : list Z :=
  [Z.land limb 255; Z.land (Z.shiftr limb 8) 255;
   Z.land (Z.shiftr limb 16) 255; Z.land (Z.shiftr limb 24) 255].

Definition value_hash (v : Value) : Z :=
  match v with
  | VAL_INT i => hash_fold64_to32 (Z.lxor (u64 i) 0x9e3779b97f4a7c15)
  | VAL_STRING (Some s) =>
      match chars s with
      | None => 0
      | Some cs =>
          if shash s =? UINT32_MAX then hash_fold64_to32 (hash_string_internal64 cs) else shash s
      end
  | VAL_BIGINT (Some b) =>
      match limbs b with
      | [] => 0
      | l =>
          let hash := fold_left fnv_step (flat_map limb_bytes l) FNV_BASIS in
          hash_fold64_to32
            (Z.lxor hash (if sign b <? 0 then 0xa5a5a5a5a5a5a5a5 else 0x5a5a5a5a5a5a5a5a))
      end
  | _ => 0
  end.

Definition map_string_hash_chars (cs : option (list Z)) : Z :=
  match cs with
  | None => 0
  | Some cs => hash_fold64_to32 (hash_string_internal64 cs)
  end.

(** The hash and the string object after its cache is filled. *)
Definition map_string_hash_obj (key : option ObjString) : Z * option ObjString :=
  match key with
  | None => (0, None)
  | Some k =>
      match chars k with
      | None => (0, key)
      | Some cs =>
          if shash k =? UINT32_MAX then
            let h := map_string_hash_chars (Some cs) in (h, Some (mkStr h (Some cs)))
          else (shash k, key)
      end
  end.

(** ** Equality *)

(** [strcmp(a, b) == 0]: the bytes up to the first NUL are the same. *)
Fixpoint cstr_eq (a b : list Z) : bool :=
  match a, b with
  | [], [] => true
  | [], y :: _ => y =? 0
  | x :: _, [] => x =? 0
  | x :: a', y :: b' => if x =? y then (if x =? 0 then true else cstr_eq a' b') else false
  end.

Definition value_equals_strict (a b : Value) : bool :=
  match a, b with
  | VAL_INT x, VAL_INT y => x =? y
  | VAL_BIGINT x, VAL_BIGINT y => obj_bigint_compare x y =? 0
  | VAL_STRING None, VAL_STRING None => true
  | VAL_STRING (Some x), VAL_STRING (Some y) =>
      match chars x, chars y with
      | Some cx, Some cy => (length cx =? length cy)%nat && cstr_eq cx cy
      | _, _ => false
      end
  | _, _ => false
  end.

Definition bytes_eq (a b : list Z) : bool := bool_decide (a = b).

(** Same length and [memcmp] over that length. *)
Definition string_eq (a b : ObjString) : bool :=
  match chars a, chars b with
  | Some ca, Some cb => bytes_eq ca cb
  | _, _ => false
  end.

Definition value_equals_key_fast (a b : Value) : bool :=
  match a, b with
  | VAL_INT x, VAL_INT y => x =? y
  | VAL_STRING (Some x), VAL_STRING (Some y) => string_eq x y
  | _, _ => false
  end.

(** [map_slot_key_equals_string_chars], [set_slot_value_equals_string_chars]. *)
Definition key_equals_string_chars (k : Value) (cs : list Z) : bool :=
  match k with
  | VAL_STRING (Some s) => match chars s with Some c => bytes_eq c cs | None => false end
  | _ => false
  end.

Definition key_equals_string_obj (k : Value) (key : ObjString) : bool :=
  match k with
  | VAL_STRING (Some s) => string_eq s key
  | _ => false
  end.

(** ** Abstract keys *)

Inductive Key := KInt (i : Z) | KStr (s : list Z).

#[export] Instance Key_eq_dec : EqDecision Key.
Proof. solve_decision. Defined.
#[export] Instance Key_countable : Countable Key.
Proof.
  refine (inj_countable'
    (fun k => match k with KInt i => inl i | KStr s => inr s end)
    (fun k => match k with inl i => KInt i | inr s => KStr s end) _).
  by intros [].
Defined.

Definition key_of (v : Value) : option Key :=
  match v with
  | VAL_INT i => Some (KInt i)
  | VAL_STRING (Some s) => match chars s with Some cs => Some (KStr cs) | None => None end
  | _ => None
  end.

(** The stored hash of a key: [value_hash(key) | 2U]. *)
Definition key_hash (k : Key) : Z :=
  Z.lor (match k with
         | KInt i => hash_fold64_to32 (Z.lxor (u64 i) 0x9e3779b97f4a7c15)
         | KStr s => map_string_hash_chars (Some s)
         end) 2.

(** A string's cache is unset or holds the hash of its bytes. *)
Definition cache_ok (s : ObjString) : Prop :=
  match chars s with
  | None => True
  | Some cs => shash s = UINT32_MAX \/ shash s = map_string_hash_chars (Some cs)
  end.
Definition value_ok (v : Value) : Prop :=
  match v with
  | VAL_INT i => is_i64 i
  | VAL_STRING (Some s) => cache_ok s
  | _ => True
  end.

(** ** Ranges *)

Lemma lxor_range w x y : 0 <= w -> 0 <= x < 2 ^ w -> 0 <= y < 2 ^ w -> 0 <= Z.lxor x y < 2 ^ w.
Proof.
  intros Hw Hx Hy. split; [apply Z.lxor_nonneg; lia|].
  assert (Z.lxor x y = Z.lxor x y mod 2 ^ w) as ->; [|apply Z.mod_pos_bound; lia].
  apply Z.bits_inj'. intros n Hn. destruct (Z.ltb_spec n w).
  - by rewrite Z.mod_pow2_bits_low.
  - rewrite Z.mod_pow2_bits_high, Z.lxor_spec by lia.
    rewrite <- (Z.mod_small x (2 ^ w)), <- (Z.mod_small y (2 ^ w)) by lia.
    by rewrite !Z.mod_pow2_bits_high by lia.
Qed.

Lemma shiftr_range w x k : 0 <= w -> 0 <= k -> 0 <= x < 2 ^ w -> 0 <= Z.shiftr x k < 2 ^ w.
Proof.
  intros Hw Hk Hx. rewrite shiftr_div by done.
  pose proof (Z.pow_pos_nonneg 2 k ltac:(lia) Hk).
  split; [apply Z.div_pos; lia|]. apply Z.div_lt_upper_bound; [lia|nia].
Qed.

Lemma hash_mix32_range h : is_u32 h -> is_u32 (hash_mix32 h).
Proof.
  intros Hh. unfold hash_mix32. unfold is_u32 in *.
  repeat first [apply lxor_range | apply shiftr_range | apply u32_range | lia | exact Hh].
Qed.

Lemma hash_fold_range h : is_u32 (hash_fold64_to32 h).
Proof. apply hash_mix32_range, u32_range. Qed.

(** From here on the hash functions are used through their range only. *)
#[global] Opaque hash_fold64_to32 hash_string_internal64.

(** Setting bit 1 marks the slot as occupied: the stored hash is at least 2
    and fits its field. *)
Lemma lor_2_range h : is_u32 h -> 2 <= Z.lor h 2 < 2 ^ 32.
Proof.
  intros Hh. assert (0 <= Z.lor h 2) by (apply Z.lor_nonneg; zbounds).
  assert (Z.lor h 2 = Z.lor h 2 mod 2 ^ 32) as E.
  { apply Z.bits_inj'. intros n Hn. destruct (Z.ltb_spec n 32).
    - by rewrite Z.mod_pow2_bits_low.
    - rewrite Z.mod_pow2_bits_high, Z.lor_spec by lia.
      rewrite <- (Z.mod_small h (2 ^ 32)) by exact Hh. rewrite Z.mod_pow2_bits_high by lia.
      change 2 with (2 mod 2 ^ 32). by rewrite Z.mod_pow2_bits_high by lia. }
  split; [|rewrite E; apply Z.mod_pos_bound; lia].
  assert (Z.testbit (Z.lor h 2) 1 = true) as Hb by (by rewrite Z.lor_spec, orb_true_r).
  destruct (Z.le_gt_cases 2 (Z.lor h 2)); [done|].
  assert (Z.lor h 2 = 0 \/ Z.lor h 2 = 1) as [E'|E'] by lia; by rewrite E' in Hb.
Qed.

Lemma key_hash_range k : 2 <= key_hash k < 2 ^ 32.
Proof. unfold key_hash. apply lor_2_range. destruct k; apply hash_fold_range. Qed.

Lemma value_hash_key v k : value_ok v -> key_of v = Some k -> Z.lor (value_hash v) 2 = key_hash k.
Proof.
  intros Hok Hk. destruct v as [i| | | |[s|]| | | | | | | | | | | ]; try discriminate Hk.
  { injection Hk as <-. unfold key_hash. cbn [value_hash]. reflexivity. }
  cbn [value_ok key_of value_hash] in *. unfold cache_ok in Hok.
  destruct (chars s) as [cs|]; [|discriminate Hk]. injection Hk as <-. unfold key_hash. f_equal.
  destruct (Z.eqb_spec (shash s) UINT32_MAX); [reflexivity|]. by destruct Hok.
Qed.

Lemma string_hash_key s cs :
  cache_ok s -> chars s = Some cs ->
  exists s', map_string_hash_obj (Some s) = (map_string_hash_chars (Some cs), Some s') /\
    chars s' = Some cs /\ cache_ok s'.
Proof.
  intros Hc E. unfold map_string_hash_obj. rewrite E.
  assert (cache_ok (mkStr (map_string_hash_chars (Some cs)) (Some cs))) as Hc' by (by right).
  unfold cache_ok in Hc. rewrite E in Hc.
  destruct (Z.eqb_spec (shash s) UINT32_MAX).
  - eexists. split; [done|]. by split.
  - destruct Hc as [|Hc]; [done|]. exists s. rewrite Hc. split; [done|]. split; [done|].
    unfold cache_ok. rewrite E. by right.
Qed.

(** The key comparisons decide equality of the abstract keys. *)
Lemma equals_key_fast_spec a b k :
  key_of b = Some k -> value_equals_key_fast a b = bool_decide (key_of a = Some k).
Proof.
  intros Hb. destruct b as [j| | | |[t|]| | | | | | | | | | | ]; simpl in Hb; try done.
  - destruct a as [i| | | |[s|]| | | | | | | | | | | ]; simpl; simplify_eq; try done.
    + destruct (Z.eqb_spec i j); case_bool_decide; congruence.
    + by destruct (chars s).
  - destruct a as [i| | | |[s|]| | | | | | | | | | | ]; simpl; try done.
    + by destruct (chars t); simplify_eq; case_bool_decide.
    + unfold string_eq, bytes_eq. destruct (chars s), (chars t); simplify_eq; [|done..].
      repeat case_bool_decide; congruence.
Qed.

Lemma key_equals_string_chars_spec a cs :
  key_equals_string_chars a cs = bool_decide (key_of a = Some (KStr cs)).
Proof.
  destruct a as [i| | | |[s|]| | | | | | | | | | | ]; simpl; try done.
  destruct (chars s) as [c|]; [|done]. unfold bytes_eq. repeat case_bool_decide; congruence.
Qed.

Lemma key_equals_string_obj_spec a s cs :
  chars s = Some cs -> key_equals_string_obj a s = bool_decide (key_of a = Some (KStr cs)).
Proof.
  intros E. destruct a as [i| | | |[t|]| | | | | | | | | | | ]; simpl; try done.
  unfold string_eq, bytes_eq. rewrite E. destruct (chars t); [|done].
  repeat case_bool_decide; congruence.
Qed.
