(* ===== verification/HashTable.v ===== *)
(** * Open-addressing tables: the slot arrays of [ObjMap] and [ObjSet]

    [src/src/vm.c] holds the same table twice, with slots that carry a key and
    a value (map) or a value alone (set). Here it is written once over the
    payload [P] of a slot: linear probing from [hash & mask], a hash of 0 for
    an empty slot, deletion by shifting the following entries back, growth at
    three quarters and shrinking at one eighth. ObjMap.v and ObjSet.v
    instantiate it.

    The loops of the code have no bound of their own. They are written with
    the number of slots as fuel, [None] standing for a loop that does not
    end; the theorems show that on a well-formed table it is never [None]. *)

From S2P Require Import Prelude.
From stdpp Require Import gmap.

Open Scope Z_scope.

(** What the table needs of its payload: the payload of a cleared slot, the
    key of a payload, and the hash stored for a key, which marks a slot as
    occupied because it is at least 2. *)
Class TableKey (P K : Type) := {
  tk_nil : P;
  tk_key : P -> option K;
  tk_hash : K -> Z;
  tk_hash_range : forall k, 2 <= tk_hash k < 2 ^ 32
}.

Record slot (P : Type) := mkSlot { hash : Z; data : P }.
Arguments mkSlot {P} _ _.
Arguments hash {P} _.
Arguments data {P} _.

Record table (P : Type) := mkTable {
  slots : list (slot P);
  capacity : Z;
  count : Z;
  used : Z
}.
Arguments mkTable {P} _ _ _ _.
Arguments slots {P} _.
Arguments capacity {P} _.
Arguments count {P} _.
Arguments used {P} _.

(** ** Operations *)

Section Operations.
Context {P K : Type} `{TK : TableKey P K}.

Definition empty_slot : slot P := mkSlot 0 tk_nil.
Definition get (l : list (slot P)) (i : Z) : slot P := nth (Z.to_nat i) l empty_slot.
Definition put (l : list (slot P)) (i : Z) (s : slot P) : list (slot P) := <[Z.to_nat i := s]> l.

Definition calloc_slots (n : Z) : list (slot P) := replicate (Z.to_nat n) empty_slot.

Definition create : table P := mkTable (calloc_slots 16) 16 0 0.

Definition mask_of (cap : Z) : Z := u32 (cap - 1).

(** The probe loop shared by lookup, insertion and deletion: the index where
    it stops and whether the key was found there. *)
Fixpoint find_slot (fuel : nat) (l : list (slot P)) (mask idx h : Z) (eq : P -> bool)
    : option (Z * bool) :=
  match fuel with
  | O => None
  | S f =>
      let s := get l idx in
      if hash s =? 0 then Some (idx, false)
      else if (hash s =? h) && eq (data s) then Some (idx, true)
      else find_slot f l mask (Z.land (u32 (idx + 1)) mask) h eq
  end.

(** [while (new_slots[idx].hash != 0)]. *)
Fixpoint find_empty (fuel : nat) (l : list (slot P)) (mask idx : Z) : option Z :=
  match fuel with
  | O => None
  | S f =>
      if hash (get l idx) =? 0 then Some idx
      else find_empty f l mask (Z.land (u32 (idx + 1)) mask)
  end.

(** The loop over the old slots: the new slots and the number moved. *)
Fixpoint rehash (old new : list (slot P)) (mask n : Z) : option (list (slot P) * Z) :=
  match old with
  | [] => Some (new, n)
  | s :: old' =>
      if hash s <? 2 then rehash old' new mask n
      else
        match find_empty (length new) new mask (Z.land (hash s) mask) with
        | None => None
        | Some idx => rehash old' (put new idx s) mask (n + 1)
        end
  end.

Definition adjust_capacity (t : table P) (new_capacity : Z) : option (table P) :=
  if new_capacity <? 16 then Some t
  else if negb (Z.land new_capacity (new_capacity - 1) =? 0) then Some t
  else
    match rehash (slots t) (calloc_slots new_capacity) (mask_of new_capacity) 0 with
    | None => None
    | Some (new, n) => Some (mkTable new new_capacity n n)
    end.

Definition max_load_of (cap : Z) : Z := Z.quot (i32 (cap * 3)) 4.

(** [do { new_capacity *= 2; ... } while (needed > max_load)]. *)
Fixpoint grow (fuel : nat) (new_capacity needed : Z) : option Z :=
  match fuel with
  | O => None
  | S f =>
      let new_capacity := i32 (new_capacity * 2) in
      if max_load_of new_capacity <? needed then grow f new_capacity needed
      else Some new_capacity
  end.

Definition ensure_capacity (t : table P) (additional : Z) : option (table P) :=
  if additional <=? 0 then Some t
  else
    let max_load := max_load_of (capacity t) in
    let needed := i32 (count t + additional) in
    if (needed <=? max_load) && (used t <=? max_load) then Some t
    else if max_load <? needed then
      match grow 32 (capacity t) needed with
      | None => None
      | Some c => adjust_capacity t c
      end
    else adjust_capacity t (capacity t).

(** [while (new_capacity > 16 && count <= (new_capacity >> 3))]. *)
Fixpoint shrink (fuel : nat) (new_capacity n : Z) : Z :=
  match fuel with
  | O => new_capacity
  | S f =>
      if (16 <? new_capacity) && (n <=? Z.shiftr new_capacity 3)
      then shrink f (Z.shiftr new_capacity 1) n else new_capacity
  end.

Definition maybe_compact_after_delete (t : table P) : option (table P) :=
  if capacity t <? 16 then Some t
  else if count t =? 0 then
    if 16 <? capacity t then adjust_capacity t 16
    else Some (mkTable (calloc_slots (capacity t)) (capacity t) (count t) 0)
  else if (16 <? capacity t) && (count t <=? Z.shiftr (capacity t) 3) then
    let c := shrink 32 (capacity t) (count t) in
    if negb (c =? capacity t) then adjust_capacity t c else Some t
  else Some t.

(** [while (slots[scan].hash >= 2)]: the slots and the final hole. *)
Fixpoint backshift_loop (fuel : nat) (l : list (slot P)) (mask hole scan : Z)
    : option (list (slot P) * Z) :=
  match fuel with
  | O => None
  | S f =>
      let s := get l scan in
      if 2 <=? hash s then
        let home := Z.land (hash s) mask in
        let dist_scan := Z.land (u32 (scan - home)) mask in
        let dist_hole := Z.land (u32 (hole - home)) mask in
        let next := Z.land (u32 (scan + 1)) mask in
        if dist_hole <? dist_scan
        then backshift_loop f (put l hole s) mask scan next
        else backshift_loop f l mask hole next
      else Some (l, hole)
  end.

Definition backshift_delete_at (t : table P) (hole_idx : Z) : option (table P) :=
  if capacity t <=? 0 then Some t
  else
    let mask := mask_of (capacity t) in
    match backshift_loop (length (slots t)) (slots t) mask hole_idx
            (Z.land (u32 (hole_idx + 1)) mask) with
    | None => None
    | Some (l, hole) =>
        Some (mkTable (put l hole empty_slot) (capacity t)
                (if 0 <? count t then count t - 1 else count t)
                (if 0 <? used t then used t - 1 else used t))
    end.

(** The probe of a lookup from the start position of a hash. *)
Definition probe (t : table P) (h : Z) (eq : P -> bool) : option (Z * bool) :=
  let mask := mask_of (capacity t) in
  find_slot (length (slots t)) (slots t) mask (Z.land h mask) h eq.

(** The payloads of the occupied slots in slot order. *)
Definition entries (t : table P) : list P :=
  map data (filter (fun s => ~ hash s < 2) (slots t)).

(** ** Well-formed slot arrays *)

Definition occ (s : slot P) : Prop := hash s <> 0.

Definition size_of (l : list (slot P)) : Z := Z.of_nat (length l).

(** The slot at an index taken modulo the capacity. *)
Definition at_ (l : list (slot P)) (i : Z) : slot P := get l (i mod size_of l).

Definition slot_ok (s : slot P) : Prop :=
  occ s -> exists k, tk_key (data s) = Some k /\ hash s = tk_hash k.

(** No key occurs twice. *)
Definition uniq (l : list (slot P)) : Prop :=
  forall i j s s', l !! i = Some s -> l !! j = Some s' -> occ s -> occ s' ->
    tk_key (data s) = tk_key (data s') -> i = j.

(** How far a slot's entry is from the position its hash asks for. *)
Definition displ (l : list (slot P)) (i : Z) : Z := (i - hash (at_ l i)) mod size_of l.

(** Every entry is reached from its home position without crossing an empty
    slot. *)
Definition path_ok (l : list (slot P)) : Prop :=
  forall i j, occ (at_ l i) -> 0 < j <= displ l i -> occ (at_ l (i - j)).

Record slots_ok (l : list (slot P)) : Prop := {
  ok_slots : Forall slot_ok l;
  ok_uniq : uniq l;
  ok_path : path_ok l
}.

Definition contains (l : list (slot P)) (k : K) (p : P) : Prop :=
  exists s, s ∈ l /\ occ s /\ data s = p /\ tk_key p = Some k.

Fixpoint occ_count (l : list (slot P)) : Z :=
  match l with
  | [] => 0
  | s :: l' => (if hash s =? 0 then 0 else 1) + occ_count l'
  end.

(** The invariant of a table: a power of two of slots, at most three quarters
    of them occupied, counters that agree with the slots. The bound on the
    capacity is the largest for which [capacity * 3] is an [int]. *)
Record wf_table (t : table P) : Prop := {
  wf_cap : exists k, 4 <= k <= 29 /\ capacity t = 2 ^ k;
  wf_len : size_of (slots t) = capacity t;
  wf_count : count t = occ_count (slots t);
  wf_used : used t = count t;
  wf_load : 4 * count t <= 3 * capacity t;
  wf_slots : slots_ok (slots t)
}.

End Operations.

(** ** Cyclic indexing *)

Lemma u32_mod_pow x k : 0 <= k <= 32 -> u32 x mod 2 ^ k = x mod 2 ^ k.
Proof.
  intros Hk. unfold u32. apply Z.mod_mod_divide. exists (2 ^ (32 - k)).
  rewrite <- Z.pow_add_r by lia. f_equal. lia.
Qed.

Lemma mask_mod k x : 0 <= k <= 32 -> Z.land (u32 x) (mask_of (2 ^ k)) = x mod 2 ^ k.
Proof.
  intros Hk. unfold mask_of. pose proof (Z.pow_pos_nonneg 2 k ltac:(lia) ltac:(lia)).
  pose proof (Z.pow_le_mono_r 2 k 32 ltac:(lia) ltac:(lia)).
  rewrite (u32_small (2 ^ k - 1)) by (unfold is_u32; lia).
  rewrite land_mask by lia. by apply u32_mod_pow.
Qed.

Lemma mod_diff i p n : 0 < n -> i mod n = p mod n -> exists q, i = p + q * n.
Proof.
  intros Hn E. exists (i / n - p / n).
  pose proof (Z.div_mod i n ltac:(lia)). pose proof (Z.div_mod p n ltac:(lia)). lia.
Qed.

Lemma mod_eq_shift i p n : (i + n * p) mod n = i mod n.
Proof. by rewrite Z.mul_comm, Z_mod_plus_full. Qed.

(** A least index with a decidable property. *)
Lemma least_nat (Q : nat -> Prop) `{forall n, Decision (Q n)} n :
  Q n -> exists m, (m <= n)%nat /\ Q m /\ forall m', (m' < m)%nat -> ~ Q m'.
Proof.
  induction n as [n IH] using lt_wf_ind. intros Hn.
  destruct (decide (Exists Q (seq 0 n))) as [He|He].
  - apply Exists_exists in He as (m & Hm & HQ). apply elem_of_seq in Hm.
    destruct (IH m ltac:(lia) HQ) as (m' & ? & ? & ?). exists m'. split; [lia|done].
  - exists n. split; [done|]. split; [done|]. intros m' Hm' HQ. apply He, Exists_exists.
    exists m'. split; [|done]. apply elem_of_seq. lia.
Qed.

Section Proofs.
Context {P K : Type} `{TK : TableKey P K}.
Implicit Types (l : list (slot P)) (s : slot P) (t : table P).

#[export] Instance occ_dec s : Decision (occ s).
Proof. unfold occ. apply _. Defined.

Lemma not_occ s : ~ occ s <-> hash s = 0.
Proof. unfold occ. lia. Qed.

Lemma size_pos l : l <> [] -> 0 < size_of l.
Proof. destruct l; unfold size_of; simpl; [done|lia]. Qed.

Lemma at_lookup l i : l <> [] -> l !! Z.to_nat (i mod size_of l) = Some (at_ l i).
Proof.
  intros Hl. pose proof (size_pos l Hl) as Hn.
  pose proof (Z.mod_pos_bound i (size_of l) Hn) as Hi. unfold at_, get.
  destruct (nth_lookup_or_length l (Z.to_nat (i mod size_of l)) empty_slot); [done|].
  unfold size_of in *. lia.
Qed.

Lemma at_elem l i : l <> [] -> at_ l i ∈ l.
Proof. intros Hl. eapply list_elem_of_lookup_2, at_lookup, Hl. Qed.

Lemma lookup_at l (j : nat) s : l !! j = Some s -> at_ l (Z.of_nat j) = s /\ Z.of_nat j < size_of l.
Proof.
  intros H. pose proof (lookup_lt_Some _ _ _ H). unfold at_, get, size_of.
  rewrite Z.mod_small, Nat2Z.id by lia. split; [by apply nth_lookup_Some|lia].
Qed.

Lemma elem_at l s : s ∈ l -> exists i, at_ l i = s /\ 0 <= i < size_of l.
Proof.
  intros [j Hj]%list_elem_of_lookup_1. exists (Z.of_nat j).
  destruct (lookup_at l j s Hj). split; [done|lia].
Qed.

Lemma at_congr l i j : i mod size_of l = j mod size_of l -> at_ l i = at_ l j.
Proof. unfold at_. by intros ->. Qed.

Lemma size_put l i s : size_of (put l i s) = size_of l.
Proof. unfold size_of, put. by rewrite length_insert. Qed.

Lemma at_put l p s i :
  l <> [] ->
  at_ (put l (p mod size_of l) s) i = if i mod size_of l =? p mod size_of l then s else at_ l i.
Proof.
  intros Hl. pose proof (size_pos l Hl) as Hn. unfold at_. rewrite size_put. unfold get, put.
  pose proof (Z.mod_pos_bound i _ Hn). pose proof (Z.mod_pos_bound p _ Hn). unfold size_of in *.
  rewrite !nth_lookup. destruct (Z.eqb_spec (i mod Z.of_nat (length l)) (p mod Z.of_nat (length l))) as [E|E].
  - rewrite E, list_lookup_insert_eq by lia. done.
  - rewrite list_lookup_insert_ne by lia. done.
Qed.

Lemma put_nonnil l i s : l <> [] -> put l i s <> [].
Proof. intros Hl. pose proof (size_pos l Hl). pose proof (size_put l i s). intros E. rewrite E in *. unfold size_of in *. simpl in *. lia. Qed.

(** *** Counting *)

Definition occ_num s : Z := if hash s =? 0 then 0 else 1.

Lemma occ_count_range l : 0 <= occ_count l <= size_of l.
Proof.
  unfold size_of. induction l as [|s l IH]; simpl occ_count; simpl length; [lia|].
  destruct (hash s =? 0); lia.
Qed.

Lemma occ_count_insert l i s s' :
  l !! i = Some s -> occ_count (<[i := s']> l) = occ_count l - occ_num s + occ_num s'.
Proof.
  revert i. induction l as [|x l IH]; intros [|i] H; try done; simpl in *.
  - simplify_eq. unfold occ_num. lia.
  - rewrite (IH i H). lia.
Qed.

Lemma occ_count_put l p s' :
  l <> [] -> occ_count (put l (p mod size_of l) s') = occ_count l - occ_num (at_ l p) + occ_num s'.
Proof. intros Hl. apply occ_count_insert, at_lookup, Hl. Qed.

Lemma occ_num_occ s : occ s -> occ_num s = 1.
Proof. unfold occ, occ_num. intros. by destruct (Z.eqb_spec (hash s) 0). Qed.

Lemma occ_num_empty s : hash s = 0 -> occ_num s = 0.
Proof. unfold occ_num. by intros ->. Qed.

(** A table with fewer entries than slots has an empty slot, and one is met
    within a full turn from any position. *)
Lemma exists_empty l : occ_count l < size_of l -> exists s, s ∈ l /\ hash s = 0.
Proof.
  unfold size_of. induction l as [|s l IH]; simpl; [lia|]. intros H.
  destruct (Z.eqb_spec (hash s) 0) as [E|E]; [exists s; split; [left|done]|].
  destruct IH as (s' & Hs' & E'); [lia|]. exists s'. split; [by right|done].
Qed.

Lemma empty_after l i :
  occ_count l < size_of l -> exists j : nat, Z.of_nat j < size_of l /\ hash (at_ l (i + Z.of_nat j)) = 0.
Proof.
  intros H. destruct (exists_empty l H) as (s & Hs & E).
  destruct (elem_at l s Hs) as (p & Hp & Hr).
  pose proof (Z.mod_pos_bound (p - i) (size_of l) ltac:(lia)) as Hm.
  exists (Z.to_nat ((p - i) mod size_of l)). rewrite Z2Nat.id by lia. split; [lia|].
  rewrite (at_congr l _ p), Hp; [done|].
  rewrite Zplus_mod_idemp_r. f_equal. lia.
Qed.

(** ** Probing *)

(** Where a probe for hash [h] and test [eq] stops. *)
Definition stops (h : Z) (eq : P -> bool) s : Prop :=
  hash s = 0 \/ hash s = h /\ eq (data s) = true.

#[export] Instance stops_dec h eq s : Decision (stops h eq s).
Proof. unfold stops. apply _. Defined.

Section Power.
Context (k : Z) (Hk : 4 <= k <= 29).

Lemma next_index i : Z.land (u32 (i mod 2 ^ k + 1)) (mask_of (2 ^ k)) = (i + 1) mod 2 ^ k.
Proof. rewrite mask_mod by lia. by rewrite Zplus_mod_idemp_l. Qed.

Lemma get_at l i : size_of l = 2 ^ k -> get l (i mod 2 ^ k) = at_ l i.
Proof. unfold at_. by intros ->. Qed.

Lemma find_slot_stop l h eq (j : nat) : forall fuel i,
  size_of l = 2 ^ k -> (j < fuel)%nat ->
  (forall j', (j' < j)%nat -> ~ stops h eq (at_ l (i + Z.of_nat j'))) ->
  stops h eq (at_ l (i + Z.of_nat j)) ->
  find_slot fuel l (mask_of (2 ^ k)) (i mod 2 ^ k) h eq =
    Some ((i + Z.of_nat j) mod 2 ^ k, negb (hash (at_ l (i + Z.of_nat j)) =? 0)).
Proof.
  induction j as [|j IH]; intros [|f] i Hs Hf Hbefore Hstop; try lia; cbn [find_slot];
    rewrite (get_at l i Hs).
  - rewrite Z.add_0_r in *.
    destruct (Z.eqb_spec (hash (at_ l i)) 0) as [E|E]; [done|].
    destruct Hstop as [|[Hh He]]; [done|]. by rewrite Hh, Z.eqb_refl, He.
  - pose proof (Hbefore 0%nat ltac:(lia)) as H0. rewrite Z.add_0_r in H0. unfold stops in H0.
    rewrite next_index.
    destruct (Z.eqb_spec (hash (at_ l i)) 0) as [E|E]; [tauto|].
    destruct (_ && _) eqn:Eb.
    { apply andb_true_iff in Eb as [?%Z.eqb_eq ?]. tauto. }
    replace (i + Z.of_nat (S j)) with (i + 1 + Z.of_nat j) in * by lia.
    rewrite IH; [done|done|lia| |done].
    intros j' Hj'. replace (i + 1 + Z.of_nat j') with (i + Z.of_nat (S j')) by lia. apply Hbefore. lia.
Qed.

(** A probe always ends, at the first slot where it stops. *)
Lemma find_slot_total l h eq i :
  size_of l = 2 ^ k -> occ_count l < 2 ^ k ->
  exists j, 0 <= j < 2 ^ k /\
    find_slot (length l) l (mask_of (2 ^ k)) (i mod 2 ^ k) h eq =
      Some ((i + j) mod 2 ^ k, negb (hash (at_ l (i + j)) =? 0)) /\
    stops h eq (at_ l (i + j)) /\ (forall j', 0 <= j' < j -> ~ stops h eq (at_ l (i + j'))).
Proof.
  intros Hs Hc. destruct (empty_after l i) as (e & He & Hee); [lia|].
  destruct (least_nat (fun j => stops h eq (at_ l (i + Z.of_nat j))) e) as (j & Hje & Hj & Hmin);
    [by left|].
  exists (Z.of_nat j). split; [lia|]. split.
  - apply find_slot_stop; auto. unfold size_of in *. lia.
  - split; [done|]. intros j' Hj'. replace j' with (Z.of_nat (Z.to_nat j')) by lia.
    apply Hmin. lia.
Qed.

Lemma find_empty_find_slot fuel l mask idx :
  find_empty fuel l mask idx = fst <$> find_slot fuel l mask idx 0 (fun _ => false).
Proof.
  revert idx. induction fuel as [|f IH]; intros idx; [done|]. cbn [find_empty find_slot].
  destruct (hash (get l idx) =? 0); [done|]. rewrite andb_false_r. apply IH.
Qed.

Lemma home_index h : 0 <= h < 2 ^ 32 -> Z.land h (mask_of (2 ^ k)) = h mod 2 ^ k.
Proof. intros Hh. rewrite <- (u32_small h Hh) at 1. apply mask_mod. lia. Qed.

Lemma pow_pos : 0 < 2 ^ k.
Proof. apply Z.pow_pos_nonneg; lia. Qed.

Lemma sized_nonnil l : size_of l = 2 ^ k -> l <> [].
Proof. pose proof pow_pos. intros E ->. unfold size_of in E. simpl in E. lia. Qed.

Lemma slot_ok_at l i : slots_ok l -> size_of l = 2 ^ k -> slot_ok (at_ l i).
Proof.
  intros Hok Hs. apply (proj1 (Forall_forall _ _) (ok_slots l Hok)).
  apply at_elem. by apply sized_nonnil.
Qed.

(** An entry sits [displ] slots after the home position of its hash. *)
Lemma displ_home l i :
  size_of l = 2 ^ k -> (hash (at_ l i) + displ l i) mod 2 ^ k = i mod 2 ^ k /\ 0 <= displ l i < 2 ^ k.
Proof.
  intros Hs. pose proof pow_pos. unfold displ. rewrite Hs.
  split; [|by apply Z.mod_pos_bound]. rewrite Zplus_mod_idemp_r. f_equal. lia.
Qed.

Lemma at_home l i c :
  size_of l = 2 ^ k -> at_ l (hash (at_ l i) + (displ l i - c)) = at_ l (i - c).
Proof.
  intros Hs. destruct (displ_home l i Hs) as [Hh _]. apply at_congr. rewrite Hs.
  rewrite Z.add_sub_assoc. rewrite <- (Zminus_mod_idemp_l _ c), Hh. by rewrite Zminus_mod_idemp_l.
Qed.

(** If a probe for [kk] reaches an empty slot first, the key is not there. *)
Lemma not_contained l kk eq j :
  slots_ok l -> size_of l = 2 ^ k -> (forall p, eq p = true <-> tk_key p = Some kk) -> 0 <= j ->
  hash (at_ l (tk_hash kk + j)) = 0 ->
  (forall j', 0 <= j' < j -> ~ stops (tk_hash kk) eq (at_ l (tk_hash kk + j'))) ->
  forall p, ~ contains l kk p.
Proof.
  intros Hok Hs Heq Hj He Hbefore p (s & Hin & Hocc & Hd & Hkey).
  destruct (elem_at l s Hin) as (i & <- & _).
  destruct (slot_ok_at l i Hok Hs Hocc) as (k' & Hk' & Hh). rewrite Hd, Hkey in Hk'.
  injection Hk' as <-. destruct (displ_home l i Hs) as [_ Hrange].
  pose proof (at_home l i) as Hat. rewrite Hh in Hat. set (d := displ l i) in *.
  destruct (Z.le_gt_cases j d).
  - specialize (Hat (d - j) Hs). replace (d - (d - j)) with j in Hat by lia.
    rewrite Hat in He. destruct (Z.eq_dec j d) as [->|].
    + by rewrite Z.sub_diag, Z.sub_0_r in He.
    + by apply (ok_path l Hok i (d - j)); [|unfold d in *; lia|].
  - apply (Hbefore d); [lia|]. specialize (Hat 0 Hs). rewrite !Z.sub_0_r in Hat. rewrite Hat.
    right. split; [done|]. apply Heq. by rewrite Hd.
Qed.

(** The result of a probe for a key. *)
Lemma find_key l kk eq :
  slots_ok l -> size_of l = 2 ^ k -> occ_count l < 2 ^ k ->
  (forall p, eq p = true <-> tk_key p = Some kk) ->
  exists j, 0 <= j < 2 ^ k /\
    let i := tk_hash kk + j in
    (find_slot (length l) l (mask_of (2 ^ k)) (Z.land (tk_hash kk) (mask_of (2 ^ k))) (tk_hash kk) eq
       = Some (i mod 2 ^ k, true) /\
     occ (at_ l i) /\ hash (at_ l i) = tk_hash kk /\ tk_key (data (at_ l i)) = Some kk \/
     find_slot (length l) l (mask_of (2 ^ k)) (Z.land (tk_hash kk) (mask_of (2 ^ k))) (tk_hash kk) eq
       = Some (i mod 2 ^ k, false) /\
     hash (at_ l i) = 0 /\ (forall j', 0 <= j' < j -> occ (at_ l (tk_hash kk + j'))) /\
     forall p, ~ contains l kk p).
Proof.
  intros Hok Hs Hc Heq. pose proof (tk_hash_range kk) as Hr. rewrite home_index by lia.
  destruct (find_slot_total l (tk_hash kk) eq (tk_hash kk) Hs Hc) as (j & Hj & Hf & Hstop & Hb).
  exists j. split; [done|]. cbv zeta. rewrite Hf.
  destruct (Z.eqb_spec (hash (at_ l (tk_hash kk + j))) 0) as [E|E]; [right|left].
  - split; [done|]. split; [done|]. split.
    + intros j' Hj' Ho. apply (Hb j' Hj'). by left.
    + eapply not_contained; eauto. lia.
  - destruct Hstop as [|[Hh He]]; [done|]. split; [done|]. split; [done|]. split; [done|].
    by apply Heq.
Qed.

(** ** Insertion *)

Lemma put_at l p s i :
  size_of l = 2 ^ k -> at_ (put l (p mod 2 ^ k) s) i = if i mod 2 ^ k =? p mod 2 ^ k then s else at_ l i.
Proof. intros Hs. pose proof (at_put l p s i (sized_nonnil l Hs)) as H. by rewrite Hs in H. Qed.

(** The entry of key [kk] in a slot other than the one at [p]. *)
Definition contains_except l p kk q : Prop :=
  exists i, i mod 2 ^ k <> p mod 2 ^ k /\ occ (at_ l i) /\ data (at_ l i) = q /\ tk_key q = Some kk.

Definition holds s (kk : K) q : Prop := occ s /\ data s = q /\ tk_key q = Some kk.

Lemma contains_at l kk q : size_of l = 2 ^ k -> contains l kk q <-> exists i, holds (at_ l i) kk q.
Proof.
  intros Hs. split.
  - intros (s & (i & <- & _)%elem_at & H). by exists i.
  - intros [i H]. exists (at_ l i). split; [apply at_elem, sized_nonnil, Hs|done].
Qed.

Lemma contains_split l p kk q :
  size_of l = 2 ^ k -> contains l kk q <-> contains_except l p kk q \/ holds (at_ l p) kk q.
Proof.
  intros Hs. rewrite contains_at by done. split.
  - intros [i H]. destruct (Z.eq_dec (i mod 2 ^ k) (p mod 2 ^ k)) as [E|E]; [right|left; by exists i].
    by rewrite <- (at_congr l i p) by (by rewrite Hs).
  - intros [(i & _ & H)|H]; [by exists i|by exists p].
Qed.

Lemma contains_put l p s kk q :
  size_of l = 2 ^ k ->
  contains (put l (p mod 2 ^ k) s) kk q <-> contains_except l p kk q \/ holds s kk q.
Proof.
  intros Hs. rewrite (contains_split _ p) by (by rewrite size_put).
  rewrite put_at, Z.eqb_refl by done. apply or_iff_compat_r. unfold contains_except.
  split; intros (i & Hi & H); exists i; rewrite put_at in * by done;
    destruct (Z.eqb_spec (i mod 2 ^ k) (p mod 2 ^ k)); done.
Qed.

Lemma uniq_at l :
  size_of l = 2 ^ k ->
  uniq l <-> forall i j, occ (at_ l i) -> occ (at_ l j) ->
    tk_key (data (at_ l i)) = tk_key (data (at_ l j)) -> i mod 2 ^ k = j mod 2 ^ k.
Proof.
  intros Hs. pose proof (sized_nonnil l Hs) as Hne. pose proof pow_pos as Hp. split.
  - intros Hu i j Hi Hj Hkey.
    pose proof (Hu _ _ _ _ (at_lookup l i Hne) (at_lookup l j Hne) Hi Hj Hkey) as E. rewrite Hs in E.
    pose proof (Z.mod_pos_bound i _ Hp). pose proof (Z.mod_pos_bound j _ Hp). lia.
  - intros Ha i j s s' Hi Hj Ho Ho' Hkey.
    destruct (lookup_at l i s Hi) as [<- Hli]. destruct (lookup_at l j s' Hj) as [<- Hlj].
    specialize (Ha _ _ Ho Ho' Hkey). rewrite !Z.mod_small in Ha by lia. lia.
Qed.

Lemma Forall_at l (Q : slot P -> Prop) :
  size_of l = 2 ^ k -> Forall Q l <-> forall i, Q (at_ l i).
Proof.
  intros Hs. rewrite Forall_forall. split.
  - intros H i. apply H, at_elem, sized_nonnil, Hs.
  - intros H s (i & <- & _)%elem_at. apply H.
Qed.

(** The three clauses of [slots_ok] through indices. *)
Lemma slots_ok_at l :
  size_of l = 2 ^ k ->
  slots_ok l <->
    (forall i, slot_ok (at_ l i)) /\
    (forall i j, occ (at_ l i) -> occ (at_ l j) ->
       tk_key (data (at_ l i)) = tk_key (data (at_ l j)) -> i mod 2 ^ k = j mod 2 ^ k) /\
    path_ok l.
Proof.
  intros Hs. rewrite <- uniq_at, <- (Forall_at l) by done. split; [by intros []|by intros (? & ? & ?)].
Qed.

Lemma displ_put l p s i :
  size_of l = 2 ^ k ->
  displ (put l (p mod 2 ^ k) s) i =
    if i mod 2 ^ k =? p mod 2 ^ k then (i - hash s) mod 2 ^ k else displ l i.
Proof.
  intros Hs. unfold displ. rewrite size_put, Hs, put_at by done. by destruct (_ =? _).
Qed.

(** Filling the empty slot that ends a key's probe path. *)
Lemma insert_ok l kk p j :
  slots_ok l -> size_of l = 2 ^ k -> 0 <= j < 2 ^ k -> tk_key p = Some kk ->
  hash (at_ l (tk_hash kk + j)) = 0 -> (forall j', 0 <= j' < j -> occ (at_ l (tk_hash kk + j'))) ->
  (forall q, ~ contains l kk q) ->
  slots_ok (put l ((tk_hash kk + j) mod 2 ^ k) (mkSlot (tk_hash kk) p)).
Proof.
  intros Hok Hs Hj Hkey He Hpath Hno. set (s := mkSlot (tk_hash kk) p). set (x := tk_hash kk + j).
  pose proof (tk_hash_range kk) as Hr. pose proof (sized_nonnil l Hs) as Hne.
  assert (forall i, occ (at_ l i) -> tk_key (data (at_ l i)) <> Some kk) as Hno'.
  { intros i Ho Hk'. apply (Hno (data (at_ l i))). exists (at_ l i). split; [by apply at_elem|done]. }
  apply slots_ok_at in Hok as (Hsl & Hu & Hp); [|done].
  apply slots_ok_at; [by rewrite size_put|]. split; [|split].
  - intros i. rewrite put_at by done. destruct (_ =? _); [|done]. intros _. by exists kk.
  - intros i i'. rewrite !put_at by done.
    destruct (Z.eqb_spec (i mod 2 ^ k) (x mod 2 ^ k)), (Z.eqb_spec (i' mod 2 ^ k) (x mod 2 ^ k));
      simpl data; rewrite ?Hkey; [congruence| | |by apply Hu].
    + intros _ Ho E. by destruct (Hno' i' Ho).
    + intros Ho _ E. by destruct (Hno' i Ho).
  - intros i c. rewrite displ_put, !put_at by done. intros Ho Hc.
    destruct (Z.eqb_spec ((i - c) mod 2 ^ k) (x mod 2 ^ k)) as [_|_]; [unfold occ, s; simpl; lia|].
    destruct (Z.eqb_spec (i mod 2 ^ k) (x mod 2 ^ k)) as [E|E]; [|by apply Hp].
    assert ((i - hash s) mod 2 ^ k = j) as Hd.
    { unfold s. simpl hash. rewrite <- Zminus_mod_idemp_l, E, Zminus_mod_idemp_l.
      unfold x. rewrite Z.add_simpl_l. by apply Z.mod_small. }
    rewrite Hd in Hc. rewrite (at_congr l _ (tk_hash kk + (j - c))); [apply Hpath; lia|].
    rewrite Hs, <- (Zminus_mod_idemp_l i), E, Zminus_mod_idemp_l. unfold x. f_equal. lia.
Qed.

(** Replacing the payload of an entry by one with the same key. *)
Lemma update_ok l kk i p :
  slots_ok l -> size_of l = 2 ^ k -> occ (at_ l i) -> hash (at_ l i) = tk_hash kk ->
  tk_key (data (at_ l i)) = Some kk -> tk_key p = Some kk ->
  slots_ok (put l (i mod 2 ^ k) (mkSlot (tk_hash kk) p)).
Proof.
  intros Hok Hs Ho Hh Hd Hkey. set (s := mkSlot (tk_hash kk) p).
  pose proof (tk_hash_range kk) as Hr.
  assert (forall i', i' mod 2 ^ k = i mod 2 ^ k -> at_ l i' = at_ l i) as Hc
    by (intros; apply at_congr; by rewrite Hs).
  apply slots_ok_at in Hok as (Hsl & Hu & Hp); [|done].
  apply slots_ok_at; [by rewrite size_put|].
  assert (forall i', occ (at_ (put l (i mod 2 ^ k) s) i') <-> occ (at_ l i')) as Hocc.
  { intros i'. rewrite put_at by done. destruct (Z.eqb_spec (i' mod 2 ^ k) (i mod 2 ^ k)) as [E|E]; [|done].
    rewrite (Hc i' E). unfold occ, s. simpl. lia. }
  assert (forall i', tk_key (data (at_ (put l (i mod 2 ^ k) s) i')) = tk_key (data (at_ l i')) /\
                     hash (at_ (put l (i mod 2 ^ k) s) i') = hash (at_ l i')) as Hsame.
  { intros i'. rewrite put_at by done. destruct (Z.eqb_spec (i' mod 2 ^ k) (i mod 2 ^ k)) as [E|E]; [|done].
    rewrite (Hc i' E), Hd, Hh. done. }
  split; [|split].
  - intros i' Ho'. destruct (Hsame i') as [-> ->]. by apply Hsl, Hocc.
  - intros a b Ha Hb. rewrite (proj1 (Hsame a)), (proj1 (Hsame b)). apply Hu; by apply Hocc.
  - intros a c Ha Hc'. apply Hocc. apply Hp; [by apply Hocc|].
    revert Hc'. unfold displ. by rewrite size_put, (proj2 (Hsame a)).
Qed.

(** ** Deletion by shifting back *)

Lemma displ_congr l i j : size_of l = 2 ^ k -> i mod 2 ^ k = j mod 2 ^ k -> displ l i = displ l j.
Proof.
  intros Hs E. unfold displ. rewrite (at_congr l i j), Hs by (by rewrite Hs).
  rewrite <- (Zminus_mod_idemp_l i), E. apply Zminus_mod_idemp_l.
Qed.

Lemma mod_ne a b : 0 < b - a < 2 ^ k -> b mod 2 ^ k <> a mod 2 ^ k.
Proof.
  intros H E. destruct (mod_diff b a (2 ^ k) pow_pos E) as [q Hq].
  assert (q <= 0 \/ 1 <= q) as [|] by lia; nia.
Qed.

(** State of the loop: the entry at [hole] is stale, everything else is a
    table in which [hole] counts as occupied, and no entry between [hole] and
    [scan] needs the hole on its path. The first empty slot is at [e]. *)
Record shifting l (hole scan e : Z) : Prop := {
  sh_size : size_of l = 2 ^ k;
  sh_slots : forall i, slot_ok (at_ l i);
  sh_uniq : forall i j, i mod 2 ^ k <> hole mod 2 ^ k -> j mod 2 ^ k <> hole mod 2 ^ k ->
    occ (at_ l i) -> occ (at_ l j) -> tk_key (data (at_ l i)) = tk_key (data (at_ l j)) ->
    i mod 2 ^ k = j mod 2 ^ k;
  sh_hole : occ (at_ l hole);
  sh_path : forall i c, i mod 2 ^ k <> hole mod 2 ^ k -> occ (at_ l i) -> 0 < c <= displ l i ->
    occ (at_ l (i - c));
  sh_between : forall i, hole < i < scan -> displ l i < i - hole;
  sh_order : hole < scan <= e /\ e < hole + 2 ^ k;
  sh_empty : hash (at_ l e) = 0
}.

Lemma shifting_init l hole :
  slots_ok l -> size_of l = 2 ^ k -> occ_count l < 2 ^ k -> occ (at_ l hole) ->
  exists e, shifting l hole (hole + 1) e.
Proof.
  intros Hok Hs Hc Ho. destruct (empty_after l (hole + 1)) as (j & Hj & Hje); [lia|].
  apply slots_ok_at in Hok as (Hsl & Hu & Hp); [|done].
  exists (hole + 1 + Z.of_nat j). constructor; auto; [lia|].
  destruct (Z.eq_dec (Z.of_nat j) (2 ^ k - 1)) as [E|]; [|lia].
  replace (hole + 1 + Z.of_nat j) with (hole + 2 ^ k * 1) in Hje by lia.
  by rewrite (at_congr l _ hole) in Hje by (rewrite Hs; apply mod_eq_shift).
Qed.

(** The code's comparison of distances: the hole is on the path of the entry
    at [scan]. *)
Lemma dist_hole_spec l hole scan :
  size_of l = 2 ^ k -> 0 < scan - hole < 2 ^ k ->
  (hole - hash (at_ l scan)) mod 2 ^ k =
    if scan - hole <=? displ l scan then displ l scan - (scan - hole)
    else displ l scan - (scan - hole) + 2 ^ k.
Proof.
  intros Hs Hr. destruct (displ_home l scan Hs) as [_ Hd].
  assert ((hole - hash (at_ l scan)) mod 2 ^ k = (displ l scan - (scan - hole)) mod 2 ^ k) as ->.
  { unfold displ. rewrite Hs, Zminus_mod_idemp_l. f_equal. lia. }
  destruct (Z.leb_spec (scan - hole) (displ l scan)).
  - apply Z.mod_small. lia.
  - symmetry. apply Z.mod_unique_pos with (-1); lia.
Qed.

Lemma shifting_move l hole scan e :
  shifting l hole scan e -> occ (at_ l scan) -> scan - hole <= displ l scan ->
  shifting (put l (hole mod 2 ^ k) (at_ l scan)) scan (scan + 1) e.
Proof.
  intros [Hs Hsl Hu Hh Hp Hb Ho He] Hocc Hd.
  assert (scan mod 2 ^ k <> hole mod 2 ^ k) as Hne by (apply mod_ne; lia).
  assert (scan <> e) as Hse by (by intros ->).
  assert (forall x, occ (at_ l x) -> occ (at_ (put l (hole mod 2 ^ k) (at_ l scan)) x)) as Hmono.
  { intros x Hx. rewrite put_at by done. by destruct (_ =? _). }
  constructor; try lia.
  - by rewrite size_put.
  - intros i. rewrite put_at by done. destruct (_ =? _); apply Hsl.
  - intros i j Hi Hj. rewrite !put_at by done.
    destruct (Z.eqb_spec (i mod 2 ^ k) (hole mod 2 ^ k)), (Z.eqb_spec (j mod 2 ^ k) (hole mod 2 ^ k));
      [congruence| | |by apply Hu].
    + intros ? ? E. by destruct Hj; rewrite (Hu scan j).
    + intros ? ? E. by destruct Hi; rewrite (Hu scan i).
  - by apply Hmono.
  - intros i c Hi Ho' Hc. rewrite displ_put in Hc by done. rewrite put_at in Ho' by done.
    apply Hmono. destruct (Z.eqb_spec (i mod 2 ^ k) (hole mod 2 ^ k)) as [E|E]; [|by apply Hp].
    rewrite <- (Zminus_mod_idemp_l i), E, Zminus_mod_idemp_l in Hc.
    rewrite dist_hole_spec in Hc by (done || lia).
    destruct (Z.leb_spec (scan - hole) (displ l scan)); [|lia].
    rewrite (at_congr l _ (scan - (c + (scan - hole)))); [apply Hp; [done..|lia]|].
    rewrite Hs, <- (Zminus_mod_idemp_l i), E, Zminus_mod_idemp_l. f_equal. lia.
  - rewrite put_at by done.
    destruct (Z.eqb_spec (e mod 2 ^ k) (hole mod 2 ^ k)) as [E|E]; [|done].
    exfalso. apply (mod_ne hole e); [lia|done].
Qed.

Lemma contains_move l hole scan kk q :
  size_of l = 2 ^ k -> scan mod 2 ^ k <> hole mod 2 ^ k ->
  contains_except (put l (hole mod 2 ^ k) (at_ l scan)) scan kk q <-> contains_except l hole kk q.
Proof.
  intros Hs Hne. split.
  - intros (i & Hi & H). rewrite put_at in H by done.
    destruct (Z.eqb_spec (i mod 2 ^ k) (hole mod 2 ^ k)); [by exists scan|by exists i].
  - intros (i & Hi & H). destruct (Z.eq_dec (i mod 2 ^ k) (scan mod 2 ^ k)) as [E|E].
    + exists hole. split; [done|]. rewrite put_at, Z.eqb_refl by done.
      by rewrite <- (at_congr l i scan) by (by rewrite Hs).
    + exists i. split; [done|]. rewrite put_at by done.
      by destruct (Z.eqb_spec (i mod 2 ^ k) (hole mod 2 ^ k)).
Qed.

Lemma shifting_skip l hole scan e :
  shifting l hole scan e -> occ (at_ l scan) -> displ l scan < scan - hole ->
  shifting l hole (scan + 1) e.
Proof.
  intros [Hs Hsl Hu Hh Hp Hb Ho He] Hocc Hd. assert (scan <> e) as Hse by (by intros ->).
  constructor; auto; [|lia]. intros i Hi. destruct (Z.eq_dec i scan) as [->|]; [done|apply Hb; lia].
Qed.

(** When [scan] meets an empty slot the hole can be cleared. *)
Lemma shifting_done l hole scan e :
  shifting l hole scan e -> hash (at_ l scan) = 0 ->
  slots_ok (put l (hole mod 2 ^ k) empty_slot).
Proof.
  intros [Hs Hsl Hu Hh Hp Hb Ho He] Hscan. apply slots_ok_at; [by rewrite size_put|].
  assert (~ occ empty_slot) as Hemp by (unfold occ; simpl; lia).
  split; [|split].
  - intros i. rewrite put_at by done. destruct (_ =? _); [by intros Hx|apply Hsl].
  - intros i j. rewrite !put_at by done.
    destruct (Z.eqb_spec (i mod 2 ^ k) (hole mod 2 ^ k)), (Z.eqb_spec (j mod 2 ^ k) (hole mod 2 ^ k));
      [done..|by apply Hu].
  - intros i c. rewrite displ_put, !put_at by done.
    destruct (Z.eqb_spec (i mod 2 ^ k) (hole mod 2 ^ k)) as [|Ei]; [done|]. intros Hi Hc.
    destruct (Z.eqb_spec ((i - c) mod 2 ^ k) (hole mod 2 ^ k)) as [E|]; [|by apply Hp].
    assert ((hole + c) mod 2 ^ k = i mod 2 ^ k) as Ei'.
    { rewrite <- Zplus_mod_idemp_l, <- E, Zplus_mod_idemp_l. f_equal. lia. }
    rewrite <- (displ_congr l _ _ Hs Ei') in Hc.
    rewrite <- (at_congr l (hole + c) i) in Hi by (by rewrite Hs).
    assert ((hole + c) mod 2 ^ k <> hole mod 2 ^ k) as Hne by (by rewrite Ei').
    destruct (Z.lt_trichotomy (hole + c) scan) as [Hlt|[Heq|Hgt]].
    + specialize (Hb (hole + c) ltac:(lia)). lia.
    + by rewrite Heq in Hi.
    + pose proof (Hp (hole + c) (hole + c - scan) Hne Hi ltac:(lia)) as Hx.
      replace (hole + c - (hole + c - scan)) with scan in Hx by lia. done.
Qed.

Lemma occ_hash l i : slot_ok (at_ l i) -> (2 <=? hash (at_ l i)) = negb (hash (at_ l i) =? 0).
Proof.
  intros Hok. destruct (Z.eqb_spec (hash (at_ l i)) 0) as [->|E]; [done|].
  destruct (Hok E) as (kk & _ & ->). pose proof (tk_hash_range kk). cbn [negb]. lia.
Qed.

Lemma hash_u32 l i : slot_ok (at_ l i) -> occ (at_ l i) -> 0 <= hash (at_ l i) < 2 ^ 32.
Proof. intros Hok Ho. destruct (Hok Ho) as (kk & _ & ->). pose proof (tk_hash_range kk). lia. Qed.

Lemma dist_mod x h : 0 <= h < 2 ^ 32 ->
  Z.land (u32 (x mod 2 ^ k - Z.land h (mask_of (2 ^ k)))) (mask_of (2 ^ k)) = (x - h) mod 2 ^ k.
Proof.
  intros Hh. rewrite (home_index h), mask_mod by lia.
  by rewrite Zminus_mod_idemp_l, Zminus_mod_idemp_r.
Qed.

Lemma backshift_loop_spec fuel : forall l hole scan e,
  shifting l hole scan e -> e - scan < Z.of_nat fuel ->
  exists l' hole', backshift_loop fuel l (mask_of (2 ^ k)) (hole mod 2 ^ k) (scan mod 2 ^ k)
      = Some (l', hole' mod 2 ^ k) /\
    size_of l' = 2 ^ k /\ slots_ok (put l' (hole' mod 2 ^ k) empty_slot) /\
    occ (at_ l' hole') /\ occ_count l' = occ_count l /\
    forall kk q, contains_except l' hole' kk q <-> contains_except l hole kk q.
Proof.
  induction fuel as [|f IH]; intros l hole scan e Hsh Hf;
    pose proof Hsh as [Hs Hsl _ Hh _ _ Ho He]; [lia|].
  cbn [backshift_loop]. rewrite get_at by done. rewrite occ_hash by done.
  destruct (Z.eqb_spec (hash (at_ l scan)) 0) as [E|E]; cbn [negb].
  { exists l, hole. split; [done|]. split; [done|]. split; [by eapply shifting_done|].
    split; [done|]. by split. }
  assert (scan <> e) by (by intros ->).
  assert (scan mod 2 ^ k <> hole mod 2 ^ k) as Hne by (apply mod_ne; lia).
  pose proof (hash_u32 l scan (Hsl scan) E). rewrite !dist_mod by done. rewrite next_index.
  assert ((scan - hash (at_ l scan)) mod 2 ^ k = displ l scan) as -> by (unfold displ; by rewrite Hs).
  destruct (displ_home l scan Hs) as [_ Hd]. rewrite dist_hole_spec by (done || lia).
  destruct (Z.leb_spec (scan - hole) (displ l scan)) as [Hle|Hgt].
  - destruct (Z.ltb_spec (displ l scan - (scan - hole)) (displ l scan)); [|lia].
    destruct (IH _ _ _ _ (shifting_move l hole scan e Hsh E Hle)) as (l' & hole' & Hl' & Hs' & Hok & Ho' & Hc & Hct);
      [lia|].
    exists l', hole'. split; [done|]. split; [done|]. split; [done|]. split; [done|]. split.
    + rewrite Hc. pose proof (occ_count_put l hole (at_ l scan) (sized_nonnil l Hs)) as Hcnt.
      rewrite Hs in Hcnt. rewrite Hcnt, !occ_num_occ by done. lia.
    + intros. rewrite Hct. by apply contains_move.
  - destruct (Z.ltb_spec (displ l scan - (scan - hole) + 2 ^ k) (displ l scan)); [lia|].
    apply (IH _ _ _ e); [by apply shifting_skip|lia].
Qed.

(** ** Moving the entries to a new array *)

Lemma find_empty_spec l h :
  0 <= h < 2 ^ 32 -> size_of l = 2 ^ k -> occ_count l < 2 ^ k ->
  exists j, 0 <= j < 2 ^ k /\
    find_empty (length l) l (mask_of (2 ^ k)) (Z.land h (mask_of (2 ^ k))) = Some ((h + j) mod 2 ^ k) /\
    hash (at_ l (h + j)) = 0 /\ forall j', 0 <= j' < j -> occ (at_ l (h + j')).
Proof.
  intros Hh Hs Hc. rewrite home_index, find_empty_find_slot by done.
  destruct (find_slot_total l 0 (fun _ => false) h Hs Hc) as (j & Hj & -> & Hst & Hb).
  exists j. split; [done|]. split; [done|]. split.
  - by destruct Hst as [|[_ ?]].
  - intros j' Hj' E. apply (Hb j' Hj'). by left.
Qed.

Lemma contains_cons s l kk q : contains (s :: l) kk q <-> holds s kk q \/ contains l kk q.
Proof.
  unfold contains, holds. setoid_rewrite elem_of_cons. split.
  - intros (s' & [->|Hin] & H); [by left|right; by exists s'].
  - intros [H|(s' & Hin & H)]; [exists s|exists s']; auto.
Qed.

Lemma holds_empty s kk q : hash s = 0 -> ~ holds s kk q.
Proof. by intros E [Ho _]. Qed.

Lemma uniq_cons s l : uniq (s :: l) -> uniq l /\ forall kk q q', holds s kk q -> ~ contains l kk q'.
Proof.
  intros Hu. split.
  - intros i j a b Hi Hj Ha Hb E. by injection (Hu (S i) (S j) a b Hi Hj Ha Hb E).
  - intros kk q q' (Ho & <- & Hkey) (s' & [i Hi]%list_elem_of_lookup_1 & Ho' & <- & Hkey').
    by pose proof (Hu 0%nat (S i) s s' eq_refl Hi Ho Ho' ltac:(by rewrite Hkey, Hkey')).
Qed.

Lemma rehash_spec old : forall new n,
  size_of new = 2 ^ k -> slots_ok new -> Forall slot_ok old -> uniq old ->
  (forall kk q q', contains old kk q -> ~ contains new kk q') ->
  occ_count new + occ_count old < 2 ^ k ->
  exists new', rehash old new (mask_of (2 ^ k)) n = Some (new', n + occ_count old) /\
    size_of new' = 2 ^ k /\ slots_ok new' /\
    occ_count new' = occ_count new + occ_count old /\
    forall kk q, contains new' kk q <-> contains new kk q \/ contains old kk q.
Proof.
  induction old as [|s old IH]; intros new n Hs Hok Hold Hu Hdis Hc.
  { exists new. cbn [rehash occ_count] in *. rewrite !Z.add_0_r. split; [done|]. split; [done|].
    split; [done|]. split; [done|]. intros kk q. split; [by left|].
    intros [?|(s & Hin & _)]; [done|by apply not_elem_of_nil in Hin]. }
  apply Forall_cons_iff in Hold as [Hsok Hold]. apply uniq_cons in Hu as [Hu Hus].
  pose proof (occ_count_range old) as Hcr. cbn [rehash occ_count] in *.
  destruct (Z.eqb_spec (hash s) 0) as [E|E].
  { rewrite E. cbn [Z.ltb Z.compare]. rewrite Z.add_0_l in *.
    destruct (IH new n Hs Hok Hold Hu) as (new' & -> & ? & ? & ? & Hct); [|done|].
    { intros kk q q' H. apply (Hdis kk q). apply contains_cons. by right. }
    exists new'. do 4 (split; [done|]). intros kk q. rewrite Hct, contains_cons.
    pose proof (holds_empty s kk q E). tauto. }
  destruct (Hsok E) as (kk & Hkey & Hh). pose proof (tk_hash_range kk) as Hr.
  destruct (Z.ltb_spec (hash s) 2); [lia|].
  assert (holds s kk (data s)) as Hhold by done.
  destruct (find_empty_spec new (hash s)) as (j & Hj & -> & He & Hpath); [lia|done|lia|].
  assert (slots_ok (put new ((hash s + j) mod 2 ^ k) s)) as Hok'.
  { destruct s as [h p]. simpl in *. subst h. apply insert_ok; try done.
    intros q. apply (Hdis kk p). apply contains_cons. by left. }
  assert (forall kk' q, contains (put new ((hash s + j) mod 2 ^ k) s) kk' q <->
            contains new kk' q \/ holds s kk' q) as Hput.
  { intros kk' q. rewrite contains_put, (contains_split new (hash s + j)) by done.
    pose proof (holds_empty _ kk' q He). tauto. }
  destruct (IH (put new ((hash s + j) mod 2 ^ k) s) (n + 1)) as (new' & -> & ? & ? & Hcnt & Hct); try done.
  - by rewrite size_put.
  - intros kk' q q' H1 [H2|H2]%Hput.
    + apply (Hdis kk' q q'); [|done]. apply contains_cons. by right.
    + by apply (Hus kk' q' q).
  - pose proof (occ_count_put new (hash s + j) s (sized_nonnil new Hs)) as Hcp.
    rewrite Hs, (occ_num_empty _ He), (occ_num_occ s E) in Hcp. lia.
  - exists new'. pose proof (occ_count_put new (hash s + j) s (sized_nonnil new Hs)) as Hcp.
    rewrite Hs, (occ_num_empty _ He), (occ_num_occ s E) in Hcp.
    split; [do 2 f_equal; lia|]. split; [done|]. split; [done|]. split; [lia|].
    intros kk' q. rewrite Hct, Hput, contains_cons. tauto.
Qed.

Lemma calloc_size : size_of (calloc_slots (2 ^ k) : list (slot P)) = 2 ^ k.
Proof.
  pose proof pow_pos. unfold size_of, calloc_slots. rewrite length_replicate. lia.
Qed.

Lemma calloc_at i : at_ (calloc_slots (2 ^ k)) i = empty_slot.
Proof.
  unfold at_, get, calloc_slots. rewrite nth_lookup.
  destruct (_ !! _) eqn:E; [|done]. by apply lookup_replicate in E as [-> _].
Qed.

Lemma calloc_ok : slots_ok (calloc_slots (2 ^ k) : list (slot P)).
Proof.
  apply slots_ok_at; [apply calloc_size|]. unfold path_ok, slot_ok.
  split; [|split]; intros; rewrite calloc_at in *; unfold occ, empty_slot in *; simpl in *; lia.
Qed.

Lemma calloc_contains kk q : ~ contains (calloc_slots (2 ^ k)) kk q.
Proof. rewrite contains_at by apply calloc_size. intros [i H]. rewrite calloc_at in H. by apply (holds_empty _ kk q) in H. Qed.

Lemma calloc_count n : occ_count (calloc_slots n : list (slot P)) = 0.
Proof. unfold calloc_slots. induction (Z.to_nat n); simpl; lia. Qed.

Lemma pow_land : Z.land (2 ^ k) (2 ^ k - 1) = 0.
Proof. rewrite land_mask by lia. apply Z.mod_same. pose proof pow_pos. lia. Qed.

Lemma adjust_spec t :
  Forall slot_ok (slots t) -> uniq (slots t) -> count t = occ_count (slots t) ->
  4 * count t <= 3 * 2 ^ k ->
  exists t', adjust_capacity t (2 ^ k) = Some t' /\ wf_table t' /\ capacity t' = 2 ^ k /\
    count t' = count t /\ forall kk q, contains (slots t') kk q <-> contains (slots t) kk q.
Proof.
  intros Hsl Hu Hc Hload. pose proof pow_pos. pose proof (occ_count_range (slots t)).
  unfold adjust_capacity. rewrite pow_land. cbn [Z.eqb negb].
  assert (16 <= 2 ^ k) by (change 16 with (2 ^ 4); apply Z.pow_le_mono_r; lia).
  destruct (Z.ltb_spec (2 ^ k) 16); [lia|].
  destruct (rehash_spec (slots t) (calloc_slots (2 ^ k)) 0 calloc_size calloc_ok Hsl Hu)
    as (new & -> & Hsize & Hok & Hcnt & Hct).
  - intros ? ? ? _. apply calloc_contains.
  - rewrite calloc_count. lia.
  - rewrite calloc_count, Z.add_0_l in *. eexists. split; [done|]. split.
    + constructor; simpl; try done; [by exists k|lia].
    + split; [done|]. split; [done|]. intros kk q. rewrite Hct.
      pose proof (calloc_contains kk q). tauto.
Qed.
End Power.
End Proofs.

(** ** Tables as finite maps *)

Section Tables.
Context {P K : Type} `{TK : TableKey P K} `{Countable K}.
Implicit Types (t : table P) (m : gmap K P).

(** The abstraction relation. *)
Definition represents t m : Prop := forall kk q, m !! kk = Some q <-> contains (slots t) kk q.

(** A well-formed table that holds the finite map [m]. *)
Definition table_is t m : Prop := wf_table t /\ represents t m.

Lemma table_room t : wf_table t -> occ_count (slots t) < capacity t.
Proof.
  intros [(k & Hk & Ek) _ Hc _ Hl _]. assert (0 < 2 ^ k) by (apply Z.pow_pos_nonneg; lia). lia.
Qed.

Lemma create_spec : table_is create ∅.
Proof.
  split.
  - constructor; [by exists 4|apply (calloc_size 4); lia|done..|apply (calloc_ok 4); lia].
  - intros kk q. rewrite lookup_empty. split; [done|].
    intros Hc. exfalso. revert Hc. apply (calloc_contains 4); lia.
Qed.

Definition decides (eq : P -> bool) (kk : K) : Prop := forall p, eq p = true <-> tk_key p = Some kk.

(** A probe ends; it finds the slot of the key exactly when the map has it. *)
Lemma probe_spec t m kk eq :
  table_is t m -> decides eq kk ->
  exists j, 0 <= j < capacity t /\
  let i := tk_hash kk + j in let idx := i mod capacity t in
  (probe t (tk_hash kk) eq = Some (idx, true) /\ occ (at_ (slots t) i) /\
     hash (at_ (slots t) i) = tk_hash kk /\ tk_key (data (at_ (slots t) i)) = Some kk /\
     m !! kk = Some (data (at_ (slots t) i)) /\ get (slots t) idx = at_ (slots t) i \/
   probe t (tk_hash kk) eq = Some (idx, false) /\ m !! kk = None /\
     hash (at_ (slots t) i) = 0 /\ get (slots t) idx = at_ (slots t) i /\
     forall j', 0 <= j' < j -> occ (at_ (slots t) (tk_hash kk + j'))).
Proof.
  intros [Hwf Hrep] Heq. pose proof (table_room t Hwf) as Hroom.
  destruct Hwf as [(k & Hk & Ek) Hlen Hcount Hused Hload Hok].
  unfold probe. rewrite Ek in *.
  destruct (find_key k Hk (slots t) kk eq Hok Hlen Hroom Heq) as (j & Hj & Hf).
  exists j. split; [done|]. cbv zeta in *. rewrite get_at by done.
  destruct Hf as [(-> & Ho & Hh & Hkey)|(-> & He & Hpath & Hno)]; [left|right].
  - do 4 (split; [done|]). split; [|done]. apply Hrep, (contains_at k); [done..|]. by eexists.
  - split; [done|]. split; [|done].
    destruct (m !! kk) as [q|] eqn:E; [|done]. apply Hrep in E. by apply Hno in E.
Qed.

(** Filling the slot where a probe for an absent key stopped. *)
Lemma fill_spec t m kk p j :
  table_is t m -> tk_key p = Some kk -> 0 <= j < capacity t -> m !! kk = None ->
  hash (at_ (slots t) (tk_hash kk + j)) = 0 ->
  (forall j', 0 <= j' < j -> occ (at_ (slots t) (tk_hash kk + j'))) ->
  4 * (count t + 1) <= 3 * capacity t ->
  table_is (mkTable (put (slots t) ((tk_hash kk + j) mod capacity t) (mkSlot (tk_hash kk) p))
              (capacity t) (count t + 1) (used t + 1)) (<[kk := p]> m).
Proof.
  intros [Hwf Hrep] Hkey Hj Hnone He Hpath Hload.
  destruct Hwf as [(k & Hk & Ek) Hlen Hcount Hused _ Hok]. rewrite Ek in *.
  pose proof (tk_hash_range kk) as Hr. set (s := mkSlot (tk_hash kk) p).
  assert (occ s) as Hs by (unfold occ, s; simpl; lia).
  split.
  - constructor; simpl; [by exists k|by rewrite size_put| |lia|lia|].
    + pose proof (occ_count_put (slots t) (tk_hash kk + j) s (sized_nonnil k Hk _ Hlen)) as Hc.
      rewrite Hlen, (occ_num_empty _ He), (occ_num_occ s Hs) in Hc. lia.
    + apply (insert_ok k Hk); try done. intros q Hq. apply Hrep in Hq. congruence.
  - intros kk' q. cbn [slots]. rewrite (contains_put k Hk) by done.
    pose proof (contains_split k Hk (slots t) (tk_hash kk + j) kk' q Hlen) as Hsp.
    pose proof (holds_empty _ kk' q He) as Hne. rewrite <- (Hrep kk' q) in Hsp.
    unfold holds at 1, s. simpl. destruct (decide (kk' = kk)) as [->|Hd].
    + rewrite lookup_insert_eq. split; [intros [= <-]; by right|].
      intros [Hx|(_ & -> & _)]; [|done]. assert (m !! kk = Some q) by tauto. congruence.
    + rewrite lookup_insert_ne by done. rewrite Hsp. split; [tauto|].
      intros [?|(_ & <- & ?)]; [by left|congruence].
Qed.

(** Overwriting the payload of the slot where a probe found its key. *)
Lemma overwrite_spec t m kk i p :
  table_is t m -> tk_key p = Some kk -> occ (at_ (slots t) i) ->
  hash (at_ (slots t) i) = tk_hash kk -> tk_key (data (at_ (slots t) i)) = Some kk ->
  table_is (mkTable (put (slots t) (i mod capacity t) (mkSlot (tk_hash kk) p))
              (capacity t) (count t) (used t)) (<[kk := p]> m).
Proof.
  intros [Hwf Hrep] Hkey Ho Hh Hd.
  destruct Hwf as [(k & Hk & Ek) Hlen Hcount Hused Hload Hok]. rewrite Ek in *.
  pose proof (tk_hash_range kk) as Hr. set (s := mkSlot (tk_hash kk) p).
  assert (occ s) as Hs by (unfold occ, s; simpl; lia).
  split.
  - constructor; simpl; [by exists k|by rewrite size_put| |lia|lia|].
    + pose proof (occ_count_put (slots t) i s (sized_nonnil k Hk _ Hlen)) as Hc.
      rewrite Hlen, !occ_num_occ in Hc by done. lia.
    + by apply (update_ok k Hk).
  - intros kk' q. cbn [slots]. rewrite (contains_put k Hk) by done.
    pose proof (contains_split k Hk (slots t) i kk' q Hlen) as Hsp.
    rewrite <- (Hrep kk' q) in Hsp. destruct (decide (kk' = kk)) as [->|Hne].
    + rewrite lookup_insert_eq. split; [intros [= <-]; right; by unfold holds|].
      intros [(i' & Hi' & Ho' & Hd' & Hkey')|(_ & <- & _)]; [|done].
      apply slots_ok_at with (k := k) in Hok as (_ & Hu & _); [|done..].
      destruct Hi'. apply Hu; [done..|]. by rewrite Hd, Hd', Hkey'.
    + rewrite lookup_insert_ne by done. rewrite Hsp. split.
      * intros [?|(_ & <- & ?)]; [by left|congruence].
      * intros [?|(_ & <- & ?)]; [by left|]. unfold s in *. simpl in *. congruence.
Qed.

(** Deleting the entry where a probe found its key. *)
Lemma delete_spec t m kk i :
  table_is t m -> occ (at_ (slots t) i) -> tk_key (data (at_ (slots t) i)) = Some kk ->
  exists t', backshift_delete_at t (i mod capacity t) = Some t' /\
    table_is t' (delete kk m) /\ count t' = count t - 1 /\ capacity t' = capacity t.
Proof.
  intros [Hwf Hrep] Ho Hd. pose proof (table_room t Hwf) as Hroom.
  destruct Hwf as [(k & Hk & Ek) Hlen Hcount Hused Hload Hok]. rewrite Ek in *.
  assert (0 < 2 ^ k) by (apply Z.pow_pos_nonneg; lia).
  destruct (shifting_init k Hk (slots t) i Hok Hlen Hroom Ho) as [e Hsh].
  unfold backshift_delete_at. rewrite Ek. destruct (Z.leb_spec (2 ^ k) 0); [lia|].
  rewrite next_index by done.
  destruct (backshift_loop_spec k Hk (length (slots t)) (slots t) i (i + 1) e Hsh)
    as (l' & hole & -> & Hs' & Hok' & Ho' & Hc' & Hct).
  { pose proof (sh_order _ _ _ _ _ Hsh). unfold size_of in Hlen. lia. }
  pose proof (occ_count_put l' hole empty_slot (sized_nonnil k Hk _ Hs')) as Hcp.
  rewrite Hs', (occ_num_occ _ Ho'), (occ_num_empty (empty_slot : slot P)) in Hcp by done.
  pose proof (occ_count_range (put l' (hole mod 2 ^ k) empty_slot)).
  eexists. split; [done|]. destruct (Z.ltb_spec 0 (count t)), (Z.ltb_spec 0 (used t)); try lia.
  split; [|done]. split.
  - constructor; simpl; [by exists k|by rewrite size_put|lia|lia|lia|done].
  - intros kk' q. cbn [slots]. rewrite (contains_put k Hk) by done. rewrite Hct.
    pose proof (holds_empty (empty_slot : slot P) kk' q eq_refl) as Hem.
    pose proof (contains_split k Hk (slots t) i kk' q Hlen) as Hsp.
    rewrite <- (Hrep kk' q) in Hsp. destruct (decide (kk' = kk)) as [->|Hne].
    + rewrite lookup_delete_eq. split; [done|]. intros [(i' & Hi' & Hx & Hd' & Hk')|?]; [|done].
      apply slots_ok_at with (k := k) in Hok as (_ & Hu & _); [|done..].
      destruct Hi'. apply Hu; [done..|]. by rewrite Hd, Hd', Hk'.
    + rewrite lookup_delete_ne by done. rewrite Hsp. split; [|tauto].
      intros [?|(_ & <- & ?)]; [by left|congruence].
Qed.

(** *** Growing and shrinking *)

Lemma pow_split k : 2 <= k -> 2 ^ k = 4 * 2 ^ (k - 2).
Proof. intros. change 4 with (2 ^ 2). rewrite <- Z.pow_add_r by lia. f_equal. lia. Qed.

Lemma max_load_pow k : 4 <= k <= 29 -> max_load_of (2 ^ k) = 3 * 2 ^ (k - 2).
Proof.
  intros Hk. unfold max_load_of. pose proof (Z.pow_pos_nonneg 2 (k - 2) ltac:(lia) ltac:(lia)).
  pose proof (Z.pow_le_mono_r 2 k 29 ltac:(lia) ltac:(lia)) as Hm. change (2 ^ 29) with 536870912 in Hm.
  rewrite i32_small by zbounds. rewrite (pow_split k) by lia.
  replace (4 * 2 ^ (k - 2) * 3) with (3 * 2 ^ (k - 2) * 4) by lia. by rewrite Z.quot_mul.
Qed.

Lemma grow_spec fuel k needed :
  4 <= k < 29 -> 29 - k <= Z.of_nat fuel -> needed <= 3 * 2 ^ 27 ->
  exists k', k < k' <= 29 /\ grow fuel (2 ^ k) needed = Some (2 ^ k') /\ 4 * needed <= 3 * 2 ^ k'.
Proof.
  revert k. induction fuel as [|f IH]; intros k Hk Hf Hn; [lia|]. cbn [grow].
  pose proof (Z.pow_le_mono_r 2 k 28 ltac:(lia) ltac:(lia)) as Hm. change (2 ^ 28) with 268435456 in Hm.
  pose proof (Z.pow_pos_nonneg 2 k ltac:(lia) ltac:(lia)).
  rewrite i32_small by zbounds. replace (2 ^ k * 2) with (2 ^ (k + 1)) by (rewrite Z.pow_add_r by lia; lia).
  rewrite max_load_pow by lia. destruct (Z.ltb_spec (3 * 2 ^ (k + 1 - 2)) needed) as [Hlt|Hge].
  - destruct (Z.eq_dec k 28) as [->|]; [change (28 + 1 - 2) with 27 in Hlt; lia|].
    destruct (IH (k + 1)) as (k' & Hk' & Hg & Hld); [lia..|]. exists k'. split; [lia|done].
  - exists (k + 1). split; [lia|]. split; [done|]. rewrite (pow_split (k + 1)) by lia. lia.
Qed.

Lemma represents_same t t' m :
  represents t m -> (forall kk q, contains (slots t') kk q <-> contains (slots t) kk q) -> represents t' m.
Proof. intros Hr Hs kk q. by rewrite Hs. Qed.

(** Rebuilding a well-formed table at a capacity its entries fit. *)
Lemma rebuild_spec t m k :
  table_is t m -> 4 <= k <= 29 -> 4 * count t <= 3 * 2 ^ k ->
  exists t', adjust_capacity t (2 ^ k) = Some t' /\ table_is t' m /\
    count t' = count t /\ capacity t' = 2 ^ k.
Proof.
  intros [Hwf Hrep] Hk Hl. destruct Hwf as [_ _ Hc _ _ Hok].
  destruct (adjust_spec k Hk t (ok_slots _ Hok) (ok_uniq _ Hok) Hc Hl) as (t' & E & Hw & Hcap & Hcnt & Hct).
  exists t'. split; [done|]. split; [|done]. split; [done|]. by eapply represents_same.
Qed.

Lemma ensure_capacity_spec t m :
  table_is t m -> count t + 1 <= 3 * 2 ^ 27 ->
  exists t', ensure_capacity t 1 = Some t' /\ table_is t' m /\ count t' = count t /\
    4 * (count t' + 1) <= 3 * capacity t'.
Proof.
  intros Ht Hn. pose proof Ht as [[(k & Hk & Ek) _ Hcount Hused Hload _] _].
  pose proof (occ_count_range (slots t)). unfold ensure_capacity. cbn [Z.leb Z.compare].
  rewrite Ek, max_load_pow, i32_small by (done || (zpow; unfold is_i32; lia)).
  rewrite Ek, (pow_split k) in Hload by lia.
  destruct (Z.leb_spec (count t + 1) (3 * 2 ^ (k - 2))).
  - destruct (Z.leb_spec (used t) (3 * 2 ^ (k - 2))); [|lia]. exists t.
    split; [done|]. split; [done|]. split; [done|]. rewrite Ek, (pow_split k) by lia. lia.
  - cbn [andb]. destruct (Z.ltb_spec (3 * 2 ^ (k - 2)) (count t + 1)); [|lia].
    assert (k <> 29) by (intros ->; change (29 - 2) with 27 in *; lia).
    destruct (grow_spec 32 k (count t + 1)) as (k' & Hk' & -> & Hld); [lia..|].
    destruct (rebuild_spec t m k' Ht) as (t' & -> & Ht' & Hc' & Hcap); [lia..|].
    exists t'. split; [done|]. split; [done|]. split; [done|]. rewrite Hcap, Hc'. lia.
Qed.

Lemma shrink_spec fuel k n :
  4 <= k -> k - 4 < Z.of_nat fuel -> 0 <= n ->
  exists k', 4 <= k' <= k /\ shrink fuel (2 ^ k) n = 2 ^ k' /\ (k' = k \/ 4 * n <= 2 ^ k') /\
    ~ (16 < 2 ^ k' /\ n <= Z.shiftr (2 ^ k') 3).
Proof.
  revert k. induction fuel as [|f IH]; intros k Hk Hf Hn; [lia|]. cbn [shrink].
  destruct ((16 <? 2 ^ k) && (n <=? Z.shiftr (2 ^ k) 3)) eqn:E.
  - apply andb_true_iff in E as [E1%Z.ltb_lt E2%Z.leb_le].
    assert (k <> 4) by (by intros ->). rewrite Z.shiftr_div_pow2 in E2 by lia.
    assert (Z.shiftr (2 ^ k) 1 = 2 ^ (k - 1)) as ->.
    { rewrite Z.shiftr_div_pow2 by lia. replace k with (k - 1 + 1) at 1 by lia.
      rewrite Z.pow_add_r, Z.div_mul by lia. done. }
    assert (2 ^ k / 2 ^ 3 = 2 ^ (k - 3)) as Hd3.
    { replace k with (k - 3 + 3) at 1 by lia. by rewrite Z.pow_add_r, Z.div_mul by lia. }
    assert (2 ^ (k - 1) = 4 * 2 ^ (k - 3)) as Hd1
      by (rewrite (pow_split (k - 1)) by lia; do 2 f_equal; lia).
    destruct (IH (k - 1)) as (k' & Hk' & -> & Hor & Hex); [lia..|].
    exists k'. split; [lia|]. split; [done|]. split; [|done]. right.
    destruct Hor as [->|]; [lia|done].
  - exists k. split; [lia|]. split; [done|]. split; [by left|].
    intros [H1%Z.ltb_lt H2%Z.leb_le]. by rewrite H1, H2 in E.
Qed.

Lemma count_zero_empty t m : table_is t m -> count t = 0 -> forall kk q, ~ contains (slots t) kk q.
Proof.
  intros [[_ _ Hc _ _ _] _] H0 kk q (s & Hin & Ho & _). rewrite H0 in Hc. clear H0.
  induction (slots t) as [|x l IH]; [by apply not_elem_of_nil in Hin|].
  simpl in Hc. pose proof (occ_count_range l). apply elem_of_cons in Hin as [->|Hin].
  - destruct (Z.eqb_spec (hash x) 0); [by apply Ho|lia].
  - apply IH; [destruct (hash x =? 0); lia|done].
Qed.

Lemma compact_spec t m :
  table_is t m ->
  exists t', maybe_compact_after_delete t = Some t' /\ table_is t' m /\ count t' = count t.
Proof.
  intros Ht. pose proof Ht as [[(k & Hk & Ek) Hlen Hcount Hused Hload Hok] Hrep].
  pose proof (occ_count_range (slots t)). unfold maybe_compact_after_delete.
  assert (16 <= 2 ^ k) by (change 16 with (2 ^ 4); apply Z.pow_le_mono_r; lia).
  rewrite Ek. destruct (Z.ltb_spec (2 ^ k) 16); [lia|].
  destruct (Z.eqb_spec (count t) 0) as [E|E].
  { destruct (Z.ltb_spec 16 (2 ^ k)).
    - destruct (rebuild_spec t m 4 Ht) as (t' & Ha & Ht' & Hc' & _); [lia..|]. by exists t'.
    - eexists. split; [done|]. split; [|done]. split.
      + constructor; simpl; [by exists k|by apply calloc_size|by rewrite calloc_count|done|lia|by apply calloc_ok].
      + apply (represents_same t); [done|]. intros kk q. cbn [slots].
        pose proof (count_zero_empty t m Ht E kk q). pose proof (calloc_contains k Hk kk q). tauto. }
  destruct ((16 <? 2 ^ k) && (count t <=? Z.shiftr (2 ^ k) 3)); [|by exists t].
  destruct (shrink_spec 32 k (count t)) as (k' & Hk' & -> & Hor & _); [lia..|].
  destruct (Z.eqb_spec (2 ^ k') (2 ^ k)) as [E'|E']; cbn [negb]; [by exists t|].
  destruct Hor as [->|Hor]; [done|].
  destruct (rebuild_spec t m k' Ht) as (t' & Ha & Ht' & Hc' & _); [lia..|]. by exists t'.
Qed.

(** *** Size and enumeration *)

Lemma entries_cons s l :
  map data (filter (fun s : slot P => ~ hash s < 2) (s :: l)) =
    if hash s <? 2 then map data (filter (fun s : slot P => ~ hash s < 2) l)
    else data s :: map data (filter (fun s : slot P => ~ hash s < 2) l).
Proof. rewrite filter_cons. destruct (Z.ltb_spec (hash s) 2); case_decide; try lia; done. Qed.

Lemma entries_permutation t m :
  table_is t m -> (map_to_list m).*2 ≡ₚ entries t.
Proof.
  intros [[_ _ _ _ _ [Hsl Hu _]] Hrep]. unfold entries, represents in *.
  revert m Hrep. induction (slots t) as [|s l IH]; intros m Hrep.
  { assert (m = ∅) as ->; [|by rewrite map_to_list_empty].
    apply map_empty. intros kk. apply eq_None_not_Some. intros [q Hq].
    apply Hrep in Hq as (s & Hin & _). by apply not_elem_of_nil in Hin. }
  apply Forall_cons_iff in Hsl as [Hs Hsl]. apply uniq_cons in Hu as [Hu Hus].
  rewrite entries_cons. destruct (decide (occ s)) as [Ho|Ho].
  - destruct (Hs Ho) as (kk & Hkey & Hh). pose proof (tk_hash_range kk).
    destruct (Z.ltb_spec (hash s) 2); [lia|].
    assert (m !! kk = Some (data s)) as Hm by (apply Hrep, contains_cons; by left).
    rewrite <- (insert_delete_id m kk (data s) Hm), map_to_list_insert by apply lookup_delete_eq.
    rewrite fmap_cons. simpl. constructor. apply IH; [done..|]. intros kk' q.
    destruct (decide (kk' = kk)) as [->|Hne].
    + rewrite lookup_delete_eq. split; [done|]. intros Hc. by apply (Hus kk (data s) q) in Hc.
    + rewrite lookup_delete_ne, Hrep, contains_cons by done. split; [|by right].
      intros [(_ & <- & ?)|?]; [congruence|done].
  - apply not_occ in Ho as E. destruct (Z.ltb_spec (hash s) 2); [|lia].
    apply IH; [done..|]. intros kk q. rewrite Hrep, contains_cons.
    pose proof (holds_empty s kk q E). tauto.
Qed.

Lemma entries_length l :
  Forall slot_ok l -> Z.of_nat (length (map data (filter (fun s : slot P => ~ hash s < 2) l))) = occ_count l.
Proof.
  induction 1 as [|s l Hs Hl IH]; [done|]. rewrite entries_cons. cbn [occ_count].
  destruct (Z.eqb_spec (hash s) 0) as [E|E].
  - rewrite E. cbn [Z.ltb Z.compare]. lia.
  - destruct (Hs E) as (kk & _ & Hh). pose proof (tk_hash_range kk).
    destruct (Z.ltb_spec (hash s) 2); [lia|]. simpl length. lia.
Qed.

Lemma count_size t m : table_is t m -> count t = Z.of_nat (size m).
Proof.
  intros Ht. pose proof (entries_permutation t m Ht) as Hp%Permutation_length.
  destruct Ht as [[_ _ Hc _ _ [Hsl _ _]] _]. unfold entries in Hp.
  rewrite Hc, <- entries_length, <- Hp, length_fmap, length_map_to_list by done. done.
Qed.
End Tables.
