(* ===== verification/ObjMap.v ===== *)
(** * Hash maps: [ObjMap] of [src/src/vm.h] and the [obj_map_] operations of
    [src/src/vm.c]

    A map is a table (HashTable.v) whose slots carry a key and a value. Keys
    are integers and strings; the string operations come in three forms (a
    string object, bytes with a length, a C string) that share the probe loop.
    An operation returns the map after it and the trace of reference-count
    events, or [None] if its loop did not end. A [NULL] map is [None].

    The abstract state of a map is a finite map from [Key] to [Value]; every
    operation is shown to implement the corresponding operation on it. The
    garbage-collector node of the map is part of CycleGc.v. *)

From S2P Require Import Prelude Values HashTable.

Open Scope Z_scope.

#[export] Instance map_slot_key : TableKey (Value * Value) Key := {
  tk_nil := (VAL_NIL, VAL_NIL);
  tk_key p := key_of (fst p);
  tk_hash := key_hash;
  tk_hash_range := key_hash_range
}.

Record ObjMap := mkMap { map_table : table (Value * Value); map_ref_count : Z }.

(** The result of an operation: [None] is a loop that does not end. *)
Definition outcome (A : Type) : Type := option (A * list rc_event).

Definition obj_map_create : ObjMap := mkMap create 1.

Definition obj_map_retain (map : option ObjMap) : option ObjMap :=
  match map with
  | None => None
  | Some m => Some (mkMap (map_table m) (map_ref_count m + 1))
  end.

(** Releasing every key and value of the occupied slots. *)
Definition obj_map_free (map : option ObjMap) : list rc_event :=
  match map with
  | None => []
  | Some m =>
      flat_map (fun s => if hash s <? 2 then []
                         else value_free (fst (data s)) ++ value_free (snd (data s)))
        (slots (map_table m))
  end.

(** [None] in the first component: the map was freed. *)
Definition obj_map_release (map : option ObjMap) : option ObjMap * list rc_event :=
  match map with
  | None => (None, [])
  | Some m =>
      let m' := mkMap (map_table m) (map_ref_count m - 1) in
      if map_ref_count m' <=? 0 then (None, obj_map_free (Some m')) else (Some m', [])
  end.

(** ** Writing *)

(** What the three setters do at the slot where the probe stopped: replace
    the value, or fill the slot with a key whose reference was taken by
    [key_events]. *)
Definition map_store (m : ObjMap) (t : table (Value * Value)) (h idx : Z) (found : bool)
    (key value : Value) (key_events : list rc_event) : ObjMap * list rc_event :=
  let s := get (slots t) idx in
  if found then
    (mkMap (mkTable (put (slots t) idx (mkSlot (hash s) (fst (data s), value)))
              (capacity t) (count t) (used t)) (map_ref_count m),
     value_free (snd (data s)) ++ value_retain value)
  else
    (mkMap (mkTable (put (slots t) idx (mkSlot h (key, value)))
              (capacity t) (count t + 1) (if hash s =? 0 then used t + 1 else used t))
       (map_ref_count m),
     key_events ++ value_retain value).

Definition obj_map_set_string (map : option ObjMap) (key : option ObjString) (value : Value)
    : outcome (option ObjMap) :=
  match map, key with
  | Some m, Some k =>
      match chars k with
      | None => Some (map, [])
      | Some _ =>
          match ensure_capacity (map_table m) 1 with
          | None => None
          | Some t =>
              let '(h0, key') := map_string_hash_obj key in
              let h := Z.lor h0 2 in
              match probe t h (fun p => key_equals_string_obj (fst p) k) with
              | None => None
              | Some (idx, found) =>
                  let '(m', tr) :=
                    map_store m t h idx found (VAL_STRING key') value (value_retain (VAL_STRING key')) in
                  Some (Some m', tr)
              end
          end
      end
  | _, _ => Some (map, [])
  end.

Definition obj_string_create (cs : list Z) : ObjString := mkStr UINT32_MAX (Some cs).

Definition obj_map_set_cstr_n (map : option ObjMap) (key_chars : option (list Z)) (key_length : Z)
    (value : Value) : outcome (option ObjMap) :=
  match map, key_chars with
  | Some m, Some buf =>
      if key_length <? 0 then Some (map, [])
      else
        let cs := take (Z.to_nat key_length) buf in
        match ensure_capacity (map_table m) 1 with
        | None => None
        | Some t =>
            let h := Z.lor (map_string_hash_chars (Some cs)) 2 in
            match probe t h (fun p => key_equals_string_chars (fst p) cs) with
            | None => None
            | Some (idx, found) =>
                let key := VAL_STRING (Some (obj_string_create cs)) in
                let '(m', tr) := map_store m t h idx found key value [Alloc key] in
                Some (Some m', tr)
            end
        end
  | _, _ => Some (map, [])
  end.

(** A C string is the list of its bytes, whose length is [strlen]. *)
Definition strlen (s : list Z) : Z := Z.of_nat (length s).

Definition obj_map_set_cstr (map : option ObjMap) (key_chars : option (list Z)) (value : Value)
    : outcome (option ObjMap) :=
  match key_chars with
  | None => Some (map, [])
  | Some cs => obj_map_set_cstr_n map key_chars (strlen cs) value
  end.

Definition obj_map_set (map : option ObjMap) (key value : Value) : outcome (option ObjMap) :=
  match map with
  | None => Some (None, [])
  | Some m =>
      match key with
      | VAL_STRING s => obj_map_set_string map s value
      | VAL_INT _ =>
          match ensure_capacity (map_table m) 1 with
          | None => None
          | Some t =>
              let h := Z.lor (value_hash key) 2 in
              match probe t h (fun p => value_equals_key_fast (fst p) key) with
              | None => None
              | Some (idx, found) =>
                  let '(m', tr) := map_store m t h idx found key value (value_retain key) in
                  Some (Some m', tr)
              end
          end
      | _ => Some (map, [])
      end
  end.

(** ** Reading *)

(** The value at the slot where the probe stopped, retained for the caller. *)
Definition map_fetch (t : table (Value * Value)) (h : Z) (eq : Value * Value -> bool) : outcome Value :=
  match probe t h eq with
  | None => None
  | Some (_, false) => Some (VAL_NIL, [])
  | Some (idx, true) => let v := snd (data (get (slots t) idx)) in Some (v, value_retain v)
  end.

Definition obj_map_get_string (map : option ObjMap) (key : option ObjString) : outcome Value :=
  match map, key with
  | Some m, Some k =>
      match chars k with
      | None => Some (VAL_NIL, [])
      | Some _ =>
          map_fetch (map_table m) (Z.lor (fst (map_string_hash_obj key)) 2)
            (fun p => key_equals_string_obj (fst p) k)
      end
  | _, _ => Some (VAL_NIL, [])
  end.

Definition obj_map_get_cstr_n (map : option ObjMap) (key_chars : option (list Z)) (key_length : Z)
    : outcome Value :=
  match map, key_chars with
  | Some m, Some buf =>
      if key_length <? 0 then Some (VAL_NIL, [])
      else
        let cs := take (Z.to_nat key_length) buf in
        map_fetch (map_table m) (Z.lor (map_string_hash_chars (Some cs)) 2)
          (fun p => key_equals_string_chars (fst p) cs)
  | _, _ => Some (VAL_NIL, [])
  end.

Definition obj_map_get_cstr (map : option ObjMap) (key_chars : option (list Z)) : outcome Value :=
  match key_chars with
  | None => Some (VAL_NIL, [])
  | Some cs => obj_map_get_cstr_n map key_chars (strlen cs)
  end.

Definition obj_map_get (map : option ObjMap) (key : Value) : outcome Value :=
  match map with
  | None => Some (VAL_NIL, [])
  | Some m =>
      match key with
      | VAL_STRING s => obj_map_get_string map s
      | VAL_INT _ =>
          map_fetch (map_table m) (Z.lor (value_hash key) 2) (fun p => value_equals_key_fast (fst p) key)
      | _ => Some (VAL_NIL, [])
      end
  end.

Definition map_member (t : table (Value * Value)) (h : Z) (eq : Value * Value -> bool) : option bool :=
  match probe t h eq with
  | None => None
  | Some (_, found) => Some found
  end.

Definition obj_map_has_string (map : option ObjMap) (key : option ObjString) : option bool :=
  match map, key with
  | Some m, Some k =>
      match chars k with
      | None => Some false
      | Some _ =>
          map_member (map_table m) (Z.lor (fst (map_string_hash_obj key)) 2)
            (fun p => key_equals_string_obj (fst p) k)
      end
  | _, _ => Some false
  end.

Definition obj_map_has_cstr_n (map : option ObjMap) (key_chars : option (list Z)) (key_length : Z)
    : option bool :=
  match map, key_chars with
  | Some m, Some buf =>
      if key_length <? 0 then Some false
      else
        let cs := take (Z.to_nat key_length) buf in
        map_member (map_table m) (Z.lor (map_string_hash_chars (Some cs)) 2)
          (fun p => key_equals_string_chars (fst p) cs)
  | _, _ => Some false
  end.

Definition obj_map_has_cstr (map : option ObjMap) (key_chars : option (list Z)) : option bool :=
  match key_chars with
  | None => Some false
  | Some cs => obj_map_has_cstr_n map key_chars (strlen cs)
  end.

Definition obj_map_has (map : option ObjMap) (key : Value) : option bool :=
  match map with
  | None => Some false
  | Some m =>
      match key with
      | VAL_STRING s => obj_map_has_string map s
      | VAL_INT _ =>
          map_member (map_table m) (Z.lor (value_hash key) 2) (fun p => value_equals_key_fast (fst p) key)
      | _ => Some false
      end
  end.

(** The result and the content of [*out]. *)
Definition obj_map_try_get_cstr (map : option ObjMap) (key : option (list Z)) : outcome (bool * Value) :=
  match map, key with
  | Some m, Some buf =>
      let cs := take (Z.to_nat (strlen buf)) buf in
      match probe (map_table m) (Z.lor (map_string_hash_chars (Some cs)) 2)
              (fun p => key_equals_string_chars (fst p) cs) with
      | None => None
      | Some (_, false) => Some ((false, VAL_NIL), [])
      | Some (idx, true) =>
          let v := snd (data (get (slots (map_table m)) idx)) in Some ((true, v), value_retain v)
      end
  | _, _ => Some ((false, VAL_NIL), [])
  end.

(** ** Deleting *)

Definition map_remove (m : ObjMap) (h : Z) (eq : Value * Value -> bool) : outcome (option ObjMap) :=
  let t := map_table m in
  if capacity t <=? 0 then Some (Some m, [])
  else
    match probe t h eq with
    | None => None
    | Some (_, false) => Some (Some m, [])
    | Some (idx, true) =>
        let p := data (get (slots t) idx) in
        match backshift_delete_at t idx with
        | None => None
        | Some t' =>
            match maybe_compact_after_delete t' with
            | None => None
            | Some t'' => Some (Some (mkMap t'' (map_ref_count m)), value_free (fst p) ++ value_free (snd p))
            end
        end
    end.

Definition obj_map_delete_string (map : option ObjMap) (key : option ObjString) : outcome (option ObjMap) :=
  match map, key with
  | Some m, Some k =>
      match chars k with
      | None => Some (map, [])
      | Some _ =>
          map_remove m (Z.lor (fst (map_string_hash_obj key)) 2) (fun p => key_equals_string_obj (fst p) k)
      end
  | _, _ => Some (map, [])
  end.

Definition obj_map_delete_cstr_n (map : option ObjMap) (key_chars : option (list Z)) (key_length : Z)
    : outcome (option ObjMap) :=
  match map, key_chars with
  | Some m, Some buf =>
      if key_length <? 0 then Some (map, [])
      else
        let cs := take (Z.to_nat key_length) buf in
        map_remove m (Z.lor (map_string_hash_chars (Some cs)) 2) (fun p => key_equals_string_chars (fst p) cs)
  | _, _ => Some (map, [])
  end.

Definition obj_map_delete_cstr (map : option ObjMap) (key_chars : option (list Z))
    : outcome (option ObjMap) :=
  match key_chars with
  | None => Some (map, [])
  | Some cs => obj_map_delete_cstr_n map key_chars (strlen cs)
  end.

Definition obj_map_delete (map : option ObjMap) (key : Value) : outcome (option ObjMap) :=
  match map with
  | None => Some (None, [])
  | Some m =>
      match key with
      | VAL_STRING s => obj_map_delete_string map s
      | VAL_INT _ => map_remove m (Z.lor (value_hash key) 2) (fun p => value_equals_key_fast (fst p) key)
      | _ => Some (map, [])
      end
  end.

(** ** Size and enumeration *)

Definition obj_map_count (map : option ObjMap) : Z :=
  match map with None => 0 | Some m => count (map_table m) end.

(** The values appended to the result array, each retained. *)
Definition obj_map_keys (map : option ObjMap) : list Value * list rc_event :=
  match map with
  | None => ([], [])
  | Some m => let out := List.map fst (entries (map_table m)) in (out, flat_map value_retain out)
  end.

Definition obj_map_values (map : option ObjMap) : list Value * list rc_event :=
  match map with
  | None => ([], [])
  | Some m => let out := List.map snd (entries (map_table m)) in (out, flat_map value_retain out)
  end.

(** ** Refinement of finite maps *)

(** The slots hold the finite map [m] of stored keys and values. *)
Definition map_is (o : ObjMap) (m : gmap Key (Value * Value)) : Prop := table_is (map_table o) m.

(** What the program sees of it. *)
Definition contents (m : gmap Key (Value * Value)) : gmap Key Value := snd <$> m.

Definition MAX_ENTRIES : Z := 3 * 2 ^ 27.

(** *** Key tests decide keys *)

Lemma decides_fast key k :
  key_of key = Some k -> decides (fun p : Value * Value => value_equals_key_fast (fst p) key) k.
Proof.
  intros Hk p. simpl. rewrite (equals_key_fast_spec _ _ k Hk).
  by rewrite bool_decide_eq_true.
Qed.

Lemma decides_chars cs :
  decides (fun p : Value * Value => key_equals_string_chars (fst p) cs) (KStr cs).
Proof. intros p. simpl. by rewrite key_equals_string_chars_spec, bool_decide_eq_true. Qed.

Lemma decides_obj s cs :
  chars s = Some cs -> decides (fun p : Value * Value => key_equals_string_obj (fst p) s) (KStr cs).
Proof. intros E p. simpl. by rewrite (key_equals_string_obj_spec _ s cs E), bool_decide_eq_true. Qed.

Lemma string_hash_fst s cs :
  cache_ok s -> chars s = Some cs -> Z.lor (fst (map_string_hash_obj (Some s))) 2 = key_hash (KStr cs).
Proof. intros Hc E. by destruct (string_hash_key s cs Hc E) as (s' & -> & _). Qed.

(** *** Setting *)

Definition stored_key (m : gmap Key (Value * Value)) (k : Key) (key : Value) : Value :=
  default key (fst <$> m !! k).

Definition set_events (m : gmap Key (Value * Value)) (k : Key) (value : Value)
    (key_events : list rc_event) : list rc_event :=
  (match m !! k with Some p => value_free (snd p) | None => key_events end) ++ value_retain value.

Definition set_result (r : outcome (option ObjMap)) (o : ObjMap) (m : gmap Key (Value * Value))
    (k : Key) (key value : Value) (key_events : list rc_event) : Prop :=
  exists o', r = Some (Some o', set_events m k value key_events) /\
    map_is o' (<[k := (stored_key m k key, value)]> m) /\ map_ref_count o' = map_ref_count o.

Lemma store_spec o m k eq key value kev :
  map_is o m -> decides eq k -> key_of key = Some k -> Z.of_nat (size m) < MAX_ENTRIES ->
  set_result
    (match ensure_capacity (map_table o) 1 with
     | None => None
     | Some t =>
         match probe t (key_hash k) eq with
         | None => None
         | Some (idx, found) =>
             let '(o', tr) := map_store o t (key_hash k) idx found key value kev in Some (Some o', tr)
         end
     end) o m k key value kev.
Proof.
  intros Ho Heq Hkey Hsize. unfold MAX_ENTRIES in Hsize.
  destruct (ensure_capacity_spec (map_table o) m Ho) as (t & -> & Ht & Hc & Hload).
  { rewrite (count_size _ m Ho). lia. }
  destruct (probe_spec t m k eq Ht Heq) as (j & Hj & Hp). cbv zeta in Hp.
  set (i := key_hash k + j) in *. change (tk_hash k) with (key_hash k) in *. fold i in Hp.
  unfold set_result, set_events, stored_key.
  destruct Hp as [(-> & Hocc & Hh & Hdk & Hm & Hg)|(-> & Hm & Hh & Hg & Hpath)];
    unfold map_store; rewrite Hg, Hm, Hh; eexists; (split; [reflexivity|]); (split; [|reflexivity]).
  - exact (overwrite_spec t m k i (fst (data (at_ (slots t) i)), value) Ht Hdk Hocc Hh Hdk).
  - exact (fill_spec t m k (key, value) j Ht Hkey Hj Hm Hh Hpath Hload).
Qed.

Lemma set_string_spec o m s cs value :
  map_is o m -> cache_ok s -> chars s = Some cs -> Z.of_nat (size m) < MAX_ENTRIES ->
  exists s', chars s' = Some cs /\ cache_ok s' /\
  set_result (obj_map_set_string (Some o) (Some s) value) o m (KStr cs) (VAL_STRING (Some s')) value
    (value_retain (VAL_STRING (Some s'))).
Proof.
  intros Ho Hc E Hsize. destruct (string_hash_key s cs Hc E) as (s' & Es & Ec & Hc').
  exists s'. split; [done|]. split; [done|]. unfold obj_map_set_string. rewrite E, Es.
  change (Z.lor (map_string_hash_chars (Some cs)) 2) with (key_hash (KStr cs)).
  apply store_spec; [done|by apply decides_obj| |done]. simpl. by rewrite Ec.
Qed.

Lemma set_cstr_n_spec o m buf n value :
  map_is o m -> 0 <= n -> Z.of_nat (size m) < MAX_ENTRIES ->
  let cs := take (Z.to_nat n) buf in
  let key := VAL_STRING (Some (obj_string_create cs)) in
  set_result (obj_map_set_cstr_n (Some o) (Some buf) n value) o m (KStr cs) key value [Alloc key].
Proof.
  intros Ho Hn Hsize cs key. unfold obj_map_set_cstr_n. destruct (Z.ltb_spec n 0); [lia|].
  apply (store_spec o m (KStr cs)); [done|apply decides_chars|done|done].
Qed.

(** The key object that a set stores for a new key. *)
Definition same_key (key key' : Value) : Prop := key_of key = key_of key' /\ has_object key = has_object key'.

Lemma set_spec o m key k value :
  map_is o m -> value_ok key -> key_of key = Some k -> Z.of_nat (size m) < MAX_ENTRIES ->
  exists key', same_key key key' /\
    set_result (obj_map_set (Some o) key value) o m k key' value (value_retain key').
Proof.
  intros Ho Hok Hkey Hsize. destruct key as [i| | | |[s|]| | | | | | | | | | | ]; try discriminate Hkey.
  - exists (VAL_INT i). split; [done|]. unfold obj_map_set.
    rewrite (value_hash_key (VAL_INT i) k Hok Hkey). by apply store_spec, Hsize; [|apply decides_fast|].
  - simpl in Hkey. destruct (chars s) as [cs|] eqn:E; [|discriminate]. injection Hkey as <-.
    destruct (set_string_spec o m s cs value Ho Hok E Hsize) as (s' & Ec & _ & Hr).
    exists (VAL_STRING (Some s')). split; [|done]. unfold same_key. simpl. by rewrite E, Ec.
Qed.

(** *** Reading *)

Lemma fetch_spec o m k eq :
  map_is o m -> decides eq k ->
  map_fetch (map_table o) (key_hash k) eq =
    Some (match m !! k with Some p => (snd p, value_retain (snd p)) | None => (VAL_NIL, []) end).
Proof.
  intros Ho Heq. unfold map_fetch. destruct (probe_spec _ m k eq Ho Heq) as (j & Hj & Hp).
  change (tk_hash k) with (key_hash k) in Hp. cbv zeta in Hp.
  destruct Hp as [(-> & _ & _ & _ & -> & ->)|(-> & -> & _)]; done.
Qed.

Lemma member_spec o m k eq :
  map_is o m -> decides eq k ->
  map_member (map_table o) (key_hash k) eq = Some (bool_decide (is_Some (m !! k))).
Proof.
  intros Ho Heq. unfold map_member. destruct (probe_spec _ m k eq Ho Heq) as (j & Hj & Hp).
  change (tk_hash k) with (key_hash k) in Hp. cbv zeta in Hp.
  destruct Hp as [(-> & _ & _ & _ & -> & _)|(-> & -> & _)]; reflexivity.
Qed.

Lemma try_get_spec o m k eq :
  map_is o m -> decides eq k ->
  (match probe (map_table o) (key_hash k) eq with
   | None => None
   | Some (_, false) => Some ((false, VAL_NIL), [])
   | Some (idx, true) =>
       let v := snd (data (get (slots (map_table o)) idx)) in Some ((true, v), value_retain v)
   end) =
  Some (match m !! k with Some p => ((true, snd p), value_retain (snd p)) | None => ((false, VAL_NIL), []) end).
Proof.
  intros Ho Heq. destruct (probe_spec _ m k eq Ho Heq) as (j & Hj & Hp).
  change (tk_hash k) with (key_hash k) in Hp. cbv zeta in Hp.
  destruct Hp as [(-> & _ & _ & _ & -> & ->)|(-> & -> & _)]; done.
Qed.

(** *** Deleting *)

Definition delete_events (m : gmap Key (Value * Value)) (k : Key) : list rc_event :=
  match m !! k with Some p => value_free (fst p) ++ value_free (snd p) | None => [] end.

Definition delete_result (r : outcome (option ObjMap)) (o : ObjMap) (m : gmap Key (Value * Value))
    (k : Key) : Prop :=
  exists o', r = Some (Some o', delete_events m k) /\ map_is o' (delete k m) /\
    map_ref_count o' = map_ref_count o.

Lemma remove_spec o m k eq :
  map_is o m -> decides eq k -> delete_result (map_remove o (key_hash k) eq) o m k.
Proof.
  intros Ho Heq. unfold map_remove, delete_result, delete_events.
  destruct (Z.leb_spec (capacity (map_table o)) 0) as [Hc|_].
  { destruct Ho as [[(x & Hx & Ex) _ _ _ _ _] _]. pose proof (Z.pow_pos_nonneg 2 x). lia. }
  destruct (probe_spec _ m k eq Ho Heq) as (j & Hj & Hp).
  change (tk_hash k) with (key_hash k) in Hp. cbv zeta in Hp.
  destruct Hp as [(-> & Hocc & Hh & Hdk & -> & ->)|(-> & Hm & _)].
  - destruct (delete_spec _ m k (key_hash k + j) Ho Hocc Hdk) as (t' & -> & Ht' & _).
    destruct (compact_spec t' (delete k m) Ht') as (t'' & -> & Ht'' & _).
    eexists. split; [done|]. split; done.
  - rewrite Hm. exists o. split; [done|]. split; [|done]. unfold map_is. by rewrite delete_id.
Qed.

Lemma delete_key_spec o m key k :
  map_is o m -> value_ok key -> key_of key = Some k ->
  delete_result (obj_map_delete (Some o) key) o m k.
Proof.
  intros Ho Hok Hkey. destruct key as [i| | | |[s|]| | | | | | | | | | | ]; try discriminate Hkey.
  - unfold obj_map_delete. rewrite (value_hash_key (VAL_INT i) k Hok Hkey).
    by apply remove_spec, decides_fast.
  - simpl in Hkey. destruct (chars s) as [cs|] eqn:E; [|discriminate]. injection Hkey as <-.
    unfold obj_map_delete, obj_map_delete_string. rewrite E, (string_hash_fst s cs Hok E).
    by apply remove_spec, decides_obj.
Qed.

Lemma get_key_spec o m key k :
  map_is o m -> value_ok key -> key_of key = Some k ->
  obj_map_get (Some o) key =
    Some (match m !! k with Some p => (snd p, value_retain (snd p)) | None => (VAL_NIL, []) end).
Proof.
  intros Ho Hok Hkey. destruct key as [i| | | |[s|]| | | | | | | | | | | ]; try discriminate Hkey.
  - unfold obj_map_get. rewrite (value_hash_key (VAL_INT i) k Hok Hkey).
    by apply fetch_spec, decides_fast.
  - simpl in Hkey. destruct (chars s) as [cs|] eqn:E; [|discriminate]. injection Hkey as <-.
    unfold obj_map_get, obj_map_get_string. rewrite E, (string_hash_fst s cs Hok E).
    by apply fetch_spec, decides_obj.
Qed.

Lemma has_key_spec o m key k :
  map_is o m -> value_ok key -> key_of key = Some k ->
  obj_map_has (Some o) key = Some (bool_decide (is_Some (m !! k))).
Proof.
  intros Ho Hok Hkey. destruct key as [i| | | |[s|]| | | | | | | | | | | ]; try discriminate Hkey.
  - unfold obj_map_has. rewrite (value_hash_key (VAL_INT i) k Hok Hkey).
    by apply member_spec, decides_fast.
  - simpl in Hkey. destruct (chars s) as [cs|] eqn:E; [|discriminate]. injection Hkey as <-.
    unfold obj_map_has, obj_map_has_string. rewrite E, (string_hash_fst s cs Hok E).
    by apply member_spec, decides_obj.
Qed.

(** *** References *)

(** The references to counted objects that an entry holds. *)
Definition object_of (v : Value) : list Value := if has_object v then [v] else [].
Definition entry_refs (p : Value * Value) : list Value := object_of (fst p) ++ object_of (snd p).
Definition refs (m : gmap Key (Value * Value)) : list Value :=
  (map_to_list m).*2 ≫= entry_refs.

Lemma refs_insert m k p : m !! k = None -> refs (<[k := p]> m) ≡ₚ entry_refs p ++ refs m.
Proof.
  intros Hm. unfold refs. rewrite map_to_list_insert by done. by rewrite fmap_cons, bind_cons.
Qed.

Lemma refs_split m k p : m !! k = Some p -> refs m ≡ₚ entry_refs p ++ refs (delete k m).
Proof.
  intros Hm. rewrite <- (insert_delete_id m k p Hm) at 1. apply refs_insert, lookup_delete_eq.
Qed.

Lemma refs_replace m k p : refs (<[k := p]> m) ≡ₚ entry_refs p ++ refs (delete k m).
Proof. rewrite <- insert_delete_eq. apply refs_insert, lookup_delete_eq. Qed.

Lemma acquired_app t1 t2 : acquired (t1 ++ t2) = acquired t1 ++ acquired t2.
Proof. apply omap_app. Qed.
Lemma released_app t1 t2 : released (t1 ++ t2) = released t1 ++ released t2.
Proof. apply omap_app. Qed.
Lemma acquired_retain v : acquired (value_retain v) = object_of v.
Proof. unfold value_retain, object_of. by destruct (has_object v). Qed.
Lemma released_retain v : released (value_retain v) = [].
Proof. unfold value_retain. by destruct (has_object v). Qed.
Lemma acquired_free v : acquired (value_free v) = [].
Proof. unfold value_free. by destruct (has_object v). Qed.
Lemma released_free v : released (value_free v) = object_of v.
Proof. unfold value_free, object_of. by destruct (has_object v). Qed.

(** The references held before and those taken are the references held after
    and those given up. *)
Definition balanced (m m' : gmap Key (Value * Value)) (tr : list rc_event) : Prop :=
  refs m' ++ released tr ≡ₚ refs m ++ acquired tr.

Lemma set_balanced m k key value kev :
  acquired kev = object_of key -> released kev = [] ->
  balanced m (<[k := (stored_key m k key, value)]> m) (set_events m k value kev).
Proof.
  intros Ha Hr. unfold balanced, set_events, stored_key.
  rewrite refs_replace, acquired_app, released_app, acquired_retain, released_retain, app_nil_r.
  destruct (m !! k) as [p|] eqn:Hm.
  - rewrite (refs_split m k p Hm), acquired_free, released_free. unfold entry_refs. simpl.
    solve_Permutation.
  - rewrite Ha, Hr, delete_id by done. unfold entry_refs. simpl. solve_Permutation.
Qed.

Lemma delete_balanced m k : balanced m (delete k m) (delete_events m k).
Proof.
  unfold balanced, delete_events. destruct (m !! k) as [p|] eqn:Hm.
  - rewrite (refs_split m k p Hm), acquired_app, released_app, !acquired_free, !released_free.
    unfold entry_refs. rewrite app_nil_r. apply Permutation_app_comm.
  - by rewrite delete_id.
Qed.

(** ** Histories *)

Inductive map_op := OpSet (key value : Value) | OpDelete (key : Value).

Definition step_map (o : ObjMap) (op : map_op) : option ObjMap :=
  match (match op with
         | OpSet key value => obj_map_set (Some o) key value
         | OpDelete key => obj_map_delete (Some o) key
         end) with
  | Some (Some o', _) => Some o'
  | _ => None
  end.

Fixpoint run_map (o : ObjMap) (ops : list map_op) : option ObjMap :=
  match ops with
  | [] => Some o
  | op :: ops' => match step_map o op with None => None | Some o' => run_map o' ops' end
  end.

Definition op_ok (op : map_op) : Prop :=
  match op with OpSet key _ | OpDelete key => value_ok key end.

(** The same operations on the abstract map; a key that is neither an integer
    nor a string is ignored. *)
Definition abs_step (M : gmap Key Value) (op : map_op) : gmap Key Value :=
  match op with
  | OpSet key v => match key_of key with Some k => <[k := v]> M | None => M end
  | OpDelete key => match key_of key with Some k => delete k M | None => M end
  end.

Lemma set_unsupported o key value :
  key_of key = None -> obj_map_set (Some o) key value = Some (Some o, []).
Proof.
  destruct key as [i| | | |[s|]| | | | | | | | | | | ]; try done. simpl.
  by destruct (chars s).
Qed.

Lemma delete_unsupported o key :
  key_of key = None -> obj_map_delete (Some o) key = Some (Some o, []).
Proof.
  destruct key as [i| | | |[s|]| | | | | | | | | | | ]; try done. simpl.
  by destruct (chars s).
Qed.

Lemma contents_insert m k key v : contents (<[k := (key, v)]> m) = <[k := v]> (contents m).
Proof. apply fmap_insert. Qed.
Lemma contents_delete m k : contents (delete k m) = delete k (contents m).
Proof. apply fmap_delete. Qed.
Lemma contents_lookup m k : contents m !! k = snd <$> m !! k.
Proof. apply lookup_fmap. Qed.
Lemma contents_size m : size (contents m) = size m.
Proof. apply map_size_fmap. Qed.

Lemma step_map_spec o m op :
  map_is o m -> op_ok op -> Z.of_nat (size m) < MAX_ENTRIES ->
  exists o' m', step_map o op = Some o' /\ map_is o' m' /\ contents m' = abs_step (contents m) op /\
    (size m' <= S (size m))%nat /\ map_ref_count o' = map_ref_count o.
Proof.
  intros Ho Hok Hsize. unfold step_map, abs_step. destruct op as [key v|key]; simpl in Hok.
  - destruct (key_of key) as [k|] eqn:Hk.
    + destruct (set_spec o m key k v Ho Hok Hk Hsize) as (key' & _ & o' & -> & Ho' & Hrc).
      eexists _, _. split; [done|]. split; [done|]. split; [apply contents_insert|].
      split; [|done]. rewrite map_size_insert. case_match; simpl; lia.
    + rewrite set_unsupported by done. exists o, m. repeat (split; [done|]). split; [lia|done].
  - destruct (key_of key) as [k|] eqn:Hk.
    + destruct (delete_key_spec o m key k Ho Hok Hk) as (o' & -> & Ho' & Hrc).
      eexists _, _. split; [done|]. split; [done|]. split; [apply contents_delete|].
      split; [|done]. rewrite map_size_delete. case_match; simpl; lia.
    + rewrite delete_unsupported by done. exists o, m. repeat (split; [done|]). split; [lia|done].
Qed.

Lemma run_map_spec ops : forall o m,
  map_is o m -> Forall op_ok ops -> Z.of_nat (size m + length ops) <= MAX_ENTRIES ->
  exists o' m', run_map o ops = Some o' /\ map_is o' m' /\
    contents m' = fold_left abs_step ops (contents m) /\ map_ref_count o' = map_ref_count o.
Proof.
  induction ops as [|op ops IH]; intros o m Ho Hok Hsize; [by exists o, m|].
  apply Forall_cons_iff in Hok as [Hop Hok]. simpl length in Hsize.
  destruct (step_map_spec o m op Ho Hop) as (o1 & m1 & E & Ho1 & Hc1 & Hs1 & Hr1); [lia|].
  cbn [run_map fold_left]. rewrite E, <- Hc1, <- Hr1. apply IH; [done..|lia].
Qed.

(** *** Freeing and enumerating *)

Lemma free_released o : released (obj_map_free (Some o)) = entries (map_table o) ≫= entry_refs.
Proof.
  unfold obj_map_free, entries. induction (slots (map_table o)) as [|s l IH]; [done|].
  cbn [flat_map]. rewrite released_app, IH, entries_cons. destruct (hash s <? 2); [done|].
  by rewrite released_app, !released_free, bind_cons.
Qed.

Lemma free_acquired o : acquired (obj_map_free (Some o)) = [].
Proof.
  unfold obj_map_free. induction (slots (map_table o)) as [|s l IH]; [done|].
  cbn [flat_map]. rewrite acquired_app, IH. destruct (hash s <? 2); [done|].
  by rewrite acquired_app, !acquired_free.
Qed.

Lemma free_refs o m : map_is o m -> released (obj_map_free (Some o)) ≡ₚ refs m.
Proof. intros Ho. rewrite free_released, <- (entries_permutation _ m Ho). done. Qed.

(** The stored key of an entry has the entry's key. *)
Lemma stored_key_of o m k p : map_is o m -> m !! k = Some p -> key_of (fst p) = Some k.
Proof. intros [_ Hrep] Hm. apply Hrep in Hm as (s & _ & _ & _ & Hk). done. Qed.

Lemma enumerate_spec o m :
  map_is o m ->
  (fst (obj_map_values (Some o)) ≡ₚ (map_to_list (contents m)).*2) /\
  (List.map key_of (fst (obj_map_keys (Some o))) ≡ₚ Some <$> (map_to_list (contents m)).*1).
Proof.
  intros Ho. pose proof (entries_permutation _ m Ho) as Hp. unfold obj_map_values, obj_map_keys. simpl.
  unfold contents. rewrite map_to_list_fmap, <- Hp. split.
  - rewrite <- !list_fmap_compose. done.
  - change (List.map key_of (List.map fst ((map_to_list m).*2)) ≡ₚ
      Some <$> (prod_map id snd <$> map_to_list m).*1).
    rewrite List.map_map. change (List.map (fun p => key_of (fst p)) (map_to_list m).*2)
      with ((fun p => key_of (fst p)) <$> (map_to_list m).*2).
    rewrite <- !list_fmap_compose. apply reflexive_eq, list_fmap_ext.
    intros i [k p] Hi. simpl. apply list_elem_of_lookup_2, elem_of_map_to_list in Hi.
    by apply (stored_key_of o m).
Qed.

(** ** Properties *)

(** C2: every sequence of set and delete operations on a new map ends, leaves
    a well-formed table that holds exactly the entries the same sequence
    leaves in a finite map, and lookups, membership tests and the count then
    answer as the finite map does. *)
Theorem obj_map_history_refines ops :
  Forall op_ok ops -> Z.of_nat (length ops) <= MAX_ENTRIES ->
  exists o m, run_map obj_map_create ops = Some o /\ map_is o m /\
    let M := fold_left abs_step ops ∅ in
    contents m = M /\ obj_map_count (Some o) = Z.of_nat (size M) /\
    (forall key k, value_ok key -> key_of key = Some k ->
       obj_map_has (Some o) key = Some (bool_decide (is_Some (M !! k))) /\
       exists tr, obj_map_get (Some o) key = Some (default VAL_NIL (M !! k), tr)).
Proof.
  intros Hok Hlen. destruct (run_map_spec ops obj_map_create ∅ create_spec Hok) as (o & m & E & Ho & Hc & _);
    [by rewrite map_size_empty|].
  unfold contents in Hc at 2. rewrite fmap_empty in Hc.
  exists o, m. split; [done|]. split; [done|]. cbv zeta. rewrite <- Hc.
  rewrite contents_size. split; [done|]. split; [by apply count_size|].
  intros key k Hk Ek. rewrite (has_key_spec o m key k), (get_key_spec o m key k), contents_lookup by done.
  split; [|by destruct (m !! k); eexists].
  f_equal. apply bool_decide_ext. by rewrite fmap_is_Some.
Qed.

Definition ex_ops : list map_op :=
  [OpSet (VAL_INT 7) (VAL_BOOL true); OpSet (VAL_STRING (Some (obj_string_create [97; 98]))) (VAL_INT 3);
   OpSet (VAL_INT (-1)) VAL_NIL; OpSet VAL_NIL (VAL_INT 9); OpDelete (VAL_INT 7);
   OpSet (VAL_STRING (Some (obj_string_create [97; 98]))) (VAL_INT 4)].

Lemma ex_ops_ok : Forall op_ok ex_ops.
Proof.
  repeat constructor; simpl; try (unfold is_i64; lia); try (by left).
Qed.

Lemma obj_map_history_refines_witness :
  exists o m, run_map obj_map_create ex_ops = Some o /\ map_is o m /\
    let M := fold_left abs_step ex_ops ∅ in
    contents m = M /\ obj_map_count (Some o) = Z.of_nat (size M) /\
    (forall key k, value_ok key -> key_of key = Some k ->
       obj_map_has (Some o) key = Some (bool_decide (is_Some (M !! k))) /\
       exists tr, obj_map_get (Some o) key = Some (default VAL_NIL (M !! k), tr)).
Proof.
  apply (obj_map_history_refines ex_ops); [exact ex_ops_ok|].
  vm_compute. discriminate.
Defined.

(** C24: setting an entry through a value, through a string object or through
    bytes, and deleting one, change the map as stated and keep its references
    balanced: what the map held and what the operation retained or created is
    what it holds afterwards and what was released. Freeing the map releases
    exactly the references it holds. *)
Theorem obj_map_references_balanced o m key k value :
  map_is o m -> value_ok key -> key_of key = Some k -> Z.of_nat (size m) < MAX_ENTRIES ->
  (exists o' m' tr, obj_map_set (Some o) key value = Some (Some o', tr) /\ map_is o' m' /\
     contents m' = <[k := value]> (contents m) /\ balanced m m' tr) /\
  (forall cs, k = KStr cs -> exists o' m' tr,
     obj_map_set_cstr_n (Some o) (Some cs) (strlen cs) value = Some (Some o', tr) /\ map_is o' m' /\
     contents m' = <[k := value]> (contents m) /\ balanced m m' tr) /\
  (exists o' m' tr, obj_map_delete (Some o) key = Some (Some o', tr) /\ map_is o' m' /\
     contents m' = delete k (contents m) /\ balanced m m' tr) /\
  (released (obj_map_free (Some o)) ≡ₚ refs m /\ acquired (obj_map_free (Some o)) = []).
Proof.
  intros Ho Hok Hk Hs. split; [|split; [|split]].
  - destruct (set_spec o m key k value Ho Hok Hk Hs) as (key' & _ & o' & E & Ho' & _).
    eexists o', _, _. split; [exact E|]. split; [exact Ho'|]. split; [apply contents_insert|].
    apply set_balanced; [apply acquired_retain|apply released_retain].
  - intros cs ->. destruct (set_cstr_n_spec o m cs (strlen cs) value Ho ltac:(unfold strlen; lia) Hs)
      as (o' & E & Ho' & _).
    unfold strlen in Ho' at 1 2 3. rewrite Nat2Z.id, firstn_all in Ho'.
    unfold strlen in E at 2 3. rewrite Nat2Z.id, firstn_all in E.
    eexists o', _, _. split; [exact E|]. split; [exact Ho'|]. split; [apply contents_insert|].
    by apply set_balanced.
  - destruct (delete_key_spec o m key k Ho Hok Hk) as (o' & E & Ho' & _).
    eexists o', _, _. split; [exact E|]. split; [exact Ho'|]. split; [apply contents_delete|].
    apply delete_balanced.
  - split; [by apply free_refs|apply free_acquired].
Qed.

Lemma obj_map_references_balanced_witness :
  exists o' m' tr, obj_map_set (Some obj_map_create) (VAL_INT 5) (VAL_ARRAY (Some 3%nat)) = Some (Some o', tr) /\
    map_is o' m' /\ contents m' = <[KInt 5 := VAL_ARRAY (Some 3%nat)]> (contents ∅) /\ balanced ∅ m' tr.
Proof.
  refine (proj1 (obj_map_references_balanced obj_map_create ∅ (VAL_INT 5) (KInt 5)
    (VAL_ARRAY (Some 3%nat)) _ _ _ _)).
  - exact create_spec.
  - simpl. unfold is_i64. lia.
  - reflexivity.
  - vm_compute. reflexivity.
Defined.

(** The string entry points agree: looking a string up by value, by
    string object, by bytes and length or as a C string gives the same answer,
    which is that of the finite map, and so do the membership tests and
    [obj_map_try_get_cstr]. *)
Theorem obj_map_string_lookups_agree o m s cs :
  map_is o m -> cache_ok s -> chars s = Some cs ->
  let v := default VAL_NIL (contents m !! KStr cs) in
  let r := Some (v, match m !! KStr cs with Some p => value_retain (snd p) | None => [] end) in
  let b := bool_decide (is_Some (contents m !! KStr cs)) in
  obj_map_get (Some o) (VAL_STRING (Some s)) = r /\ obj_map_get_string (Some o) (Some s) = r /\
  obj_map_get_cstr_n (Some o) (Some cs) (strlen cs) = r /\ obj_map_get_cstr (Some o) (Some cs) = r /\
  obj_map_has (Some o) (VAL_STRING (Some s)) = Some b /\ obj_map_has_string (Some o) (Some s) = Some b /\
  obj_map_has_cstr_n (Some o) (Some cs) (strlen cs) = Some b /\
  obj_map_has_cstr (Some o) (Some cs) = Some b /\
  option_map fst (obj_map_try_get_cstr (Some o) (Some cs)) = Some (b, v).
Proof.
  intros Ho Hc E. cbv zeta. rewrite !contents_lookup.
  unfold obj_map_get, obj_map_get_cstr, obj_map_get_string, obj_map_get_cstr_n, obj_map_has,
    obj_map_has_string, obj_map_has_cstr, obj_map_has_cstr_n, obj_map_try_get_cstr, strlen.
  rewrite E, (string_hash_fst s cs Hc E). destruct (Z.ltb_spec (Z.of_nat (length cs)) 0); [lia|].
  rewrite Nat2Z.id, firstn_all.
  change (Z.lor (map_string_hash_chars (Some cs)) 2) with (key_hash (KStr cs)).
  rewrite !(fetch_spec o m (KStr cs)), !(member_spec o m (KStr cs)), (try_get_spec o m (KStr cs))
    by (done || apply decides_chars || by apply decides_obj).
  destruct (m !! KStr cs) as [p|]; simpl; repeat (split; [done|]); done.
Qed.

Definition ex_key : ObjString := obj_string_create [104; 105].

Lemma obj_map_string_lookups_agree_witness :
  obj_map_get (Some obj_map_create) (VAL_STRING (Some ex_key)) =
    Some (default VAL_NIL (contents ∅ !! KStr [104; 105]),
          match (∅ : gmap Key (Value * Value)) !! KStr [104; 105] with
          | Some p => value_retain (snd p) | None => [] end).
Proof.
  refine (proj1 (obj_map_string_lookups_agree obj_map_create ∅ ex_key [104; 105] _ _ _)).
  - exact create_spec.
  - left. reflexivity.
  - reflexivity.
Defined.

(** [obj_map_values] lists the values of the map and [obj_map_keys] its
    keys, each once, in the same order. *)
Theorem obj_map_enumeration o m :
  map_is o m ->
  (fst (obj_map_values (Some o)) ≡ₚ (map_to_list (contents m)).*2) /\
  (List.map key_of (fst (obj_map_keys (Some o))) ≡ₚ Some <$> (map_to_list (contents m)).*1) /\
  NoDup (List.map key_of (fst (obj_map_keys (Some o)))) /\
  Z.of_nat (length (fst (obj_map_keys (Some o)))) = obj_map_count (Some o).
Proof.
  intros Ho. destruct (enumerate_spec o m Ho) as [Hv Hk]. split; [done|]. split; [done|]. split.
  - rewrite Hk. apply NoDup_fmap_2; [apply _|]. apply NoDup_fst_map_to_list.
  - apply Permutation_length in Hk. rewrite List.length_map, !length_fmap, length_map_to_list in Hk.
    rewrite Hk, contents_size. symmetry. by apply count_size.
Qed.

Lemma obj_map_enumeration_witness :
  fst (obj_map_values (Some obj_map_create)) ≡ₚ (map_to_list (contents ∅)).*2.
Proof. refine (proj1 (obj_map_enumeration obj_map_create ∅ _)). exact create_spec. Defined.

(** The table of a map that holds a finite map keeps a power of two of at
    least 16 slots, at most three quarters of them occupied, no leftover
    markers of deleted entries, and counters whose arithmetic stays within
    [int]. *)
Theorem obj_map_table_bounds o m :
  map_is o m ->
  let t := map_table o in
  (exists k, 4 <= k <= 29 /\ capacity t = 2 ^ k) /\
  Z.of_nat (length (slots t)) = capacity t /\
  used t = count t /\ 4 * count t <= 3 * capacity t /\
  0 <= capacity t * 3 <= INT_MAX /\ 0 <= count t + 1 <= INT_MAX.
Proof.
  intros Ho. cbv zeta. pose proof (count_size _ m Ho) as Hc. destruct Ho as [[(k & Hk & Ek) Hl _ Hu Hld _] _].
  split; [by exists k|]. split; [done|]. split; [done|]. split; [done|].
  pose proof (Z.pow_le_mono_r 2 k 29 ltac:(lia) ltac:(lia)) as Hm.
  pose proof (Z.pow_pos_nonneg 2 k ltac:(lia) ltac:(lia)).
  change (2 ^ 29) with 536870912 in Hm. unfold INT_MAX. zpow. lia.
Qed.

Lemma obj_map_table_bounds_witness :
  exists k, 4 <= k <= 29 /\ capacity (map_table obj_map_create) = 2 ^ k.
Proof. refine (proj1 (obj_map_table_bounds obj_map_create ∅ _)). exact create_spec. Defined.
