(* ===== verification/ObjSet.v ===== *)
(** * Hash sets: [ObjSet] of [src/src/vm.h] and the [obj_set_] operations of
    [src/src/vm.c]

    A set is the table of HashTable.v with a value per slot. Its abstract
    state is a finite map from the keys of its elements to the stored values,
    and what the program sees of it the finite set of those keys. *)

From S2P Require Import Prelude Values HashTable ObjMap.

Open Scope Z_scope.

#[export] Instance set_slot_key : TableKey Value Key := {
  tk_nil := VAL_NIL;
  tk_key := key_of;
  tk_hash := key_hash;
  tk_hash_range := key_hash_range
}.

Record ObjSet := mkSet { set_table : table Value; set_ref_count : Z }.

Definition obj_set_create : ObjSet := mkSet create 1.

Definition obj_set_retain (set : option ObjSet) : option ObjSet :=
  match set with
  | None => None
  | Some x => Some (mkSet (set_table x) (set_ref_count x + 1))
  end.

Definition obj_set_free (set : option ObjSet) : list rc_event :=
  match set with
  | None => []
  | Some x => flat_map (fun s => if hash s <? 2 then [] else value_free (data s)) (slots (set_table x))
  end.

Definition obj_set_release (set : option ObjSet) : option ObjSet * list rc_event :=
  match set with
  | None => (None, [])
  | Some x =>
      let x' := mkSet (set_table x) (set_ref_count x - 1) in
      if set_ref_count x' <=? 0 then (None, obj_set_free (Some x')) else (Some x', [])
  end.

(** The end of both insertions: a found element stays, an empty slot is
    filled with the retained value. *)
Definition set_store (x : ObjSet) (t : table Value) (h idx : Z) (found : bool) (value : Value)
    : ObjSet * list rc_event :=
  if found then (mkSet t (set_ref_count x), [])
  else
    (mkSet (mkTable (put (slots t) idx (mkSlot h value)) (capacity t) (count t + 1)
              (if hash (get (slots t) idx) =? 0 then used t + 1 else used t)) (set_ref_count x),
     value_retain value).

Definition obj_set_add_string (set : option ObjSet) (value : option ObjString) : outcome (option ObjSet) :=
  match set, value with
  | Some x, Some s =>
      match chars s with
      | None => Some (set, [])
      | Some cs =>
          match ensure_capacity (set_table x) 1 with
          | None => None
          | Some t =>
              let '(h0, value') := map_string_hash_obj value in
              let h := Z.lor h0 2 in
              match probe t h (fun v => key_equals_string_chars v cs) with
              | None => None
              | Some (idx, found) =>
                  let '(x', tr) := set_store x t h idx found (VAL_STRING value') in Some (Some x', tr)
              end
          end
      end
  | _, _ => Some (set, [])
  end.

Definition obj_set_add (set : option ObjSet) (value : Value) : outcome (option ObjSet) :=
  match set with
  | None => Some (None, [])
  | Some x =>
      match value with
      | VAL_STRING (Some s) => obj_set_add_string set (Some s)
      | VAL_INT _ =>
          match ensure_capacity (set_table x) 1 with
          | None => None
          | Some t =>
              let h := Z.lor (value_hash value) 2 in
              match probe t h (fun v => value_equals_key_fast v value) with
              | None => None
              | Some (idx, found) =>
                  let '(x', tr) := set_store x t h idx found value in Some (Some x', tr)
              end
          end
      | _ => Some (set, [])
      end
  end.

Definition set_drop (x : ObjSet) (h : Z) (eq : Value -> bool) : outcome (option ObjSet) :=
  let t := set_table x in
  if capacity t <=? 0 then Some (Some x, [])
  else
    match probe t h eq with
    | None => None
    | Some (_, false) => Some (Some x, [])
    | Some (idx, true) =>
        let v := data (get (slots t) idx) in
        match backshift_delete_at t idx with
        | None => None
        | Some t' =>
            match maybe_compact_after_delete t' with
            | None => None
            | Some t'' => Some (Some (mkSet t'' (set_ref_count x)), value_free v)
            end
        end
    end.

Definition obj_set_remove_string (set : option ObjSet) (value : option ObjString) : outcome (option ObjSet) :=
  match set, value with
  | Some x, Some s =>
      match chars s with
      | None => Some (set, [])
      | Some cs =>
          set_drop x (Z.lor (fst (map_string_hash_obj value)) 2) (fun v => key_equals_string_chars v cs)
      end
  | _, _ => Some (set, [])
  end.

Definition obj_set_remove (set : option ObjSet) (value : Value) : outcome (option ObjSet) :=
  match set with
  | None => Some (None, [])
  | Some x =>
      match value with
      | VAL_STRING (Some s) => obj_set_remove_string set (Some s)
      | VAL_INT _ => set_drop x (Z.lor (value_hash value) 2) (fun v => value_equals_key_fast v value)
      | _ => Some (set, [])
      end
  end.

Definition set_member (t : table Value) (h : Z) (eq : Value -> bool) : option bool :=
  match probe t h eq with
  | None => None
  | Some (_, found) => Some found
  end.

Definition obj_set_has_string (set : option ObjSet) (value : option ObjString) : option bool :=
  match set, value with
  | Some x, Some s =>
      match chars s with
      | None => Some false
      | Some cs =>
          set_member (set_table x) (Z.lor (fst (map_string_hash_obj value)) 2)
            (fun v => key_equals_string_chars v cs)
      end
  | _, _ => Some false
  end.

Definition obj_set_has (set : option ObjSet) (value : Value) : option bool :=
  match set with
  | None => Some false
  | Some x =>
      match value with
      | VAL_STRING (Some s) => obj_set_has_string set (Some s)
      | VAL_INT _ =>
          set_member (set_table x) (Z.lor (value_hash value) 2) (fun v => value_equals_key_fast v value)
      | _ => Some false
      end
  end.

Definition obj_set_count (set : option ObjSet) : Z :=
  match set with None => 0 | Some x => count (set_table x) end.

Definition obj_set_to_array (set : option ObjSet) : list Value * list rc_event :=
  match set with
  | None => ([], [])
  | Some x => let out := entries (set_table x) in (out, flat_map value_retain out)
  end.

(** ** Refinement of finite sets *)

Definition set_is (x : ObjSet) (m : gmap Key Value) : Prop := table_is (set_table x) m.

Lemma set_decides_fast v k :
  key_of v = Some k -> decides (fun u : Value => value_equals_key_fast u v) k.
Proof. intros Hk u. simpl. by rewrite (equals_key_fast_spec _ _ k Hk), bool_decide_eq_true. Qed.

Lemma set_decides_chars cs : decides (fun u : Value => key_equals_string_chars u cs) (KStr cs).
Proof. intros u. simpl. by rewrite key_equals_string_chars_spec, bool_decide_eq_true. Qed.

(** The value kept for a key and the events of adding it. *)
Definition kept (m : gmap Key Value) (k : Key) (v : Value) : Value := default v (m !! k).
Definition add_events (m : gmap Key Value) (k : Key) (v : Value) : list rc_event :=
  match m !! k with Some _ => [] | None => value_retain v end.

Definition add_result (r : outcome (option ObjSet)) (x : ObjSet) (m : gmap Key Value) (k : Key) (v : Value)
    : Prop :=
  exists x', r = Some (Some x', add_events m k v) /\ set_is x' (<[k := kept m k v]> m) /\
    set_ref_count x' = set_ref_count x.

Lemma set_store_spec x m k eq v :
  set_is x m -> decides eq k -> key_of v = Some k -> Z.of_nat (size m) < MAX_ENTRIES ->
  add_result
    (match ensure_capacity (set_table x) 1 with
     | None => None
     | Some t =>
         match probe t (key_hash k) eq with
         | None => None
         | Some (idx, found) => let '(x', tr) := set_store x t (key_hash k) idx found v in Some (Some x', tr)
         end
     end) x m k v.
Proof.
  intros Hx Heq Hkey Hsize. unfold MAX_ENTRIES in Hsize.
  destruct (ensure_capacity_spec (set_table x) m Hx) as (t & -> & Ht & Hc & Hload).
  { rewrite (count_size _ m Hx). lia. }
  destruct (probe_spec t m k eq Ht Heq) as (j & Hj & Hp). cbv zeta in Hp.
  set (i := key_hash k + j) in *. change (tk_hash k) with (key_hash k) in *. fold i in Hp.
  unfold add_result, add_events, kept.
  destruct Hp as [(-> & Hocc & Hh & Hdk & Hm & Hg)|(-> & Hm & Hh & Hg & Hpath)];
    unfold set_store; rewrite ?Hg, Hm; eexists; (split; [reflexivity|]); (split; [|reflexivity]).
  - unfold set_is. cbn [set_table default]. by rewrite insert_id.
  - cbn [default]. rewrite Hh. exact (fill_spec t m k v j Ht Hkey Hj Hm Hh Hpath Hload).
Qed.

Lemma set_add_spec x m v k :
  set_is x m -> value_ok v -> key_of v = Some k -> Z.of_nat (size m) < MAX_ENTRIES ->
  exists v', same_key v v' /\ add_result (obj_set_add (Some x) v) x m k v'.
Proof.
  intros Hx Hok Hkey Hsize. destruct v as [i| | | |[s|]| | | | | | | | | | | ]; try discriminate Hkey.
  - exists (VAL_INT i). split; [done|]. unfold obj_set_add.
    rewrite (value_hash_key (VAL_INT i) k Hok Hkey).
    by apply set_store_spec, Hsize; [|apply set_decides_fast|].
  - simpl in Hkey. destruct (chars s) as [cs|] eqn:E; [|discriminate]. injection Hkey as <-.
    destruct (string_hash_key s cs Hok E) as (s' & Es & Ec & _).
    exists (VAL_STRING (Some s')). split; [unfold same_key; simpl; by rewrite E, Ec|].
    unfold obj_set_add, obj_set_add_string. rewrite E, Es.
    change (Z.lor (map_string_hash_chars (Some cs)) 2) with (key_hash (KStr cs)).
    apply set_store_spec; [done|apply set_decides_chars| |done]. simpl. by rewrite Ec.
Qed.

Definition remove_events (m : gmap Key Value) (k : Key) : list rc_event :=
  match m !! k with Some v => value_free v | None => [] end.

Lemma set_drop_spec x m k eq :
  set_is x m -> decides eq k ->
  exists x', set_drop x (key_hash k) eq = Some (Some x', remove_events m k) /\
    set_is x' (delete k m) /\ set_ref_count x' = set_ref_count x.
Proof.
  intros Hx Heq. unfold set_drop, remove_events.
  destruct (Z.leb_spec (capacity (set_table x)) 0) as [Hc|_].
  { destruct Hx as [[(y & Hy & Ey) _ _ _ _ _] _]. pose proof (Z.pow_pos_nonneg 2 y). lia. }
  destruct (probe_spec _ m k eq Hx Heq) as (j & Hj & Hp).
  change (tk_hash k) with (key_hash k) in Hp. cbv zeta in Hp.
  destruct Hp as [(-> & Hocc & Hh & Hdk & -> & ->)|(-> & Hm & _)].
  - destruct (delete_spec _ m k (key_hash k + j) Hx Hocc Hdk) as (t' & -> & Ht' & _).
    destruct (compact_spec t' (delete k m) Ht') as (t'' & -> & Ht'' & _).
    eexists. split; [done|]. split; done.
  - rewrite Hm. exists x. split; [done|]. split; [|done]. unfold set_is. by rewrite delete_id.
Qed.

Lemma set_remove_spec x m v k :
  set_is x m -> value_ok v -> key_of v = Some k ->
  exists x', obj_set_remove (Some x) v = Some (Some x', remove_events m k) /\
    set_is x' (delete k m) /\ set_ref_count x' = set_ref_count x.
Proof.
  intros Hx Hok Hkey. destruct v as [i| | | |[s|]| | | | | | | | | | | ]; try discriminate Hkey.
  - unfold obj_set_remove. rewrite (value_hash_key (VAL_INT i) k Hok Hkey).
    by apply set_drop_spec, set_decides_fast.
  - simpl in Hkey. destruct (chars s) as [cs|] eqn:E; [|discriminate]. injection Hkey as <-.
    unfold obj_set_remove, obj_set_remove_string. rewrite E, (string_hash_fst s cs Hok E).
    by apply set_drop_spec, set_decides_chars.
Qed.

Lemma set_member_spec x m k eq :
  set_is x m -> decides eq k ->
  set_member (set_table x) (key_hash k) eq = Some (bool_decide (is_Some (m !! k))).
Proof.
  intros Hx Heq. unfold set_member. destruct (probe_spec _ m k eq Hx Heq) as (j & Hj & Hp).
  change (tk_hash k) with (key_hash k) in Hp. cbv zeta in Hp.
  destruct Hp as [(-> & _ & _ & _ & -> & _)|(-> & -> & _)]; reflexivity.
Qed.

Lemma set_has_spec x m v k :
  set_is x m -> value_ok v -> key_of v = Some k ->
  obj_set_has (Some x) v = Some (bool_decide (is_Some (m !! k))).
Proof.
  intros Hx Hok Hkey. destruct v as [i| | | |[s|]| | | | | | | | | | | ]; try discriminate Hkey.
  - unfold obj_set_has. rewrite (value_hash_key (VAL_INT i) k Hok Hkey).
    by apply set_member_spec, set_decides_fast.
  - simpl in Hkey. destruct (chars s) as [cs|] eqn:E; [|discriminate]. injection Hkey as <-.
    unfold obj_set_has, obj_set_has_string. rewrite E, (string_hash_fst s cs Hok E).
    by apply set_member_spec, set_decides_chars.
Qed.

(** ** Histories *)

Inductive set_op := OpAdd (v : Value) | OpRemove (v : Value).

Definition step_set (x : ObjSet) (op : set_op) : option ObjSet :=
  match (match op with OpAdd v => obj_set_add (Some x) v | OpRemove v => obj_set_remove (Some x) v end) with
  | Some (Some x', _) => Some x'
  | _ => None
  end.

Fixpoint run_set (x : ObjSet) (ops : list set_op) : option ObjSet :=
  match ops with
  | [] => Some x
  | op :: ops' => match step_set x op with None => None | Some x' => run_set x' ops' end
  end.

Definition set_op_ok (op : set_op) : Prop := match op with OpAdd v | OpRemove v => value_ok v end.

Definition abs_set_step (S : gset Key) (op : set_op) : gset Key :=
  match op with
  | OpAdd v => match key_of v with Some k => {[k]} ∪ S | None => S end
  | OpRemove v => match key_of v with Some k => S ∖ {[k]} | None => S end
  end.

Lemma add_unsupported x v : key_of v = None -> obj_set_add (Some x) v = Some (Some x, []).
Proof.
  destruct v as [i| | | |[s|]| | | | | | | | | | | ]; try done. simpl. by destruct (chars s).
Qed.

Lemma remove_unsupported x v : key_of v = None -> obj_set_remove (Some x) v = Some (Some x, []).
Proof.
  destruct v as [i| | | |[s|]| | | | | | | | | | | ]; try done. simpl. by destruct (chars s).
Qed.

Lemma step_set_spec x m op :
  set_is x m -> set_op_ok op -> Z.of_nat (size m) < MAX_ENTRIES ->
  exists x' m', step_set x op = Some x' /\ set_is x' m' /\
    dom m' = abs_set_step (dom m) op /\ (size m' <= S (size m))%nat.
Proof.
  intros Hx Hok Hsize. unfold step_set, abs_set_step. destruct op as [v|v]; simpl in Hok;
    destruct (key_of v) as [k|] eqn:Hk.
  - destruct (set_add_spec x m v k Hx Hok Hk Hsize) as (v' & _ & x' & -> & Hx' & _).
    eexists _, _. split; [done|]. split; [done|]. split; [apply dom_insert_L|].
    rewrite map_size_insert. case_match; simpl; lia.
  - rewrite add_unsupported by done. exists x, m. repeat (split; [done|]). lia.
  - destruct (set_remove_spec x m v k Hx Hok Hk) as (x' & -> & Hx' & _).
    eexists _, _. split; [done|]. split; [done|]. split; [apply dom_delete_L|].
    rewrite map_size_delete. case_match; simpl; lia.
  - rewrite remove_unsupported by done. exists x, m. repeat (split; [done|]). lia.
Qed.

Lemma run_set_spec ops : forall x m,
  set_is x m -> Forall set_op_ok ops -> Z.of_nat (size m + length ops) <= MAX_ENTRIES ->
  exists x' m', run_set x ops = Some x' /\ set_is x' m' /\ dom m' = fold_left abs_set_step ops (dom m).
Proof.
  induction ops as [|op ops IH]; intros x m Hx Hok Hsize; [by exists x, m|].
  apply Forall_cons_iff in Hok as [Hop Hok]. simpl length in Hsize.
  destruct (step_set_spec x m op Hx Hop) as (x1 & m1 & E & Hx1 & Hc1 & Hs1); [lia|].
  cbn [run_set fold_left]. rewrite E, <- Hc1. apply IH; [done..|lia].
Qed.

Lemma to_array_spec x m :
  set_is x m -> List.map key_of (fst (obj_set_to_array (Some x))) ≡ₚ Some <$> elements (dom m).
Proof.
  intros Hx. simpl. rewrite <- (entries_permutation _ m Hx).
  assert (List.map key_of (map_to_list m).*2 = Some <$> (map_to_list m).*1) as ->.
  { change (key_of <$> (map_to_list m).*2 = Some <$> (map_to_list m).*1).
    rewrite <- !list_fmap_compose. apply list_fmap_ext. intros i [k v] Hi. simpl.
    apply list_elem_of_lookup_2, elem_of_map_to_list in Hi. destruct Hx as [_ Hrep].
    by apply Hrep in Hi as (s & _ & _ & _ & Hk). }
  apply fmap_Permutation. apply NoDup_Permutation;
    [apply NoDup_fst_map_to_list|apply NoDup_elements|].
  intros k. rewrite elem_of_elements, elem_of_dom, list_elem_of_fmap. split.
  - intros ([k' v] & -> & Hi). apply elem_of_map_to_list in Hi. by exists v.
  - intros [v Hv]. exists (k, v). split; [done|]. by apply elem_of_map_to_list.
Qed.

(** ** Properties *)

(** C23: every sequence of additions and removals on a new set ends and leaves
    exactly the elements the same sequence leaves in a finite set; membership
    tests, the count and the array of elements agree with it. *)
Theorem obj_set_history_refines ops :
  Forall set_op_ok ops -> Z.of_nat (length ops) <= MAX_ENTRIES ->
  exists x m, run_set obj_set_create ops = Some x /\ set_is x m /\
    let S := fold_left abs_set_step ops ∅ in
    dom m = S /\ obj_set_count (Some x) = Z.of_nat (size S) /\
    (List.map key_of (fst (obj_set_to_array (Some x))) ≡ₚ Some <$> elements S) /\
    forall v k, value_ok v -> key_of v = Some k -> obj_set_has (Some x) v = Some (bool_decide (k ∈ S)).
Proof.
  intros Hok Hlen. destruct (run_set_spec ops obj_set_create ∅ create_spec Hok) as (x & m & E & Hx & Hc);
    [by rewrite map_size_empty|].
  rewrite dom_empty_L in Hc. exists x, m. split; [done|]. split; [done|]. cbv zeta. rewrite <- Hc.
  split; [done|]. split; [rewrite size_dom; by apply count_size|]. split; [by apply to_array_spec|].
  intros v k Hv Hk. rewrite (set_has_spec x m v k) by done.
  f_equal. apply bool_decide_ext. by rewrite elem_of_dom.
Qed.

Definition ex_set_ops : list set_op :=
  [OpAdd (VAL_INT 1); OpAdd (VAL_STRING (Some (obj_string_create []))); OpAdd (VAL_INT 1); OpAdd VAL_NIL;
   OpRemove (VAL_INT 2); OpRemove (VAL_STRING (Some (obj_string_create [])))].

Lemma obj_set_history_refines_witness :
  exists x m, run_set obj_set_create ex_set_ops = Some x /\ set_is x m /\
    let S := fold_left abs_set_step ex_set_ops ∅ in
    dom m = S /\ obj_set_count (Some x) = Z.of_nat (size S) /\
    (List.map key_of (fst (obj_set_to_array (Some x))) ≡ₚ Some <$> elements S) /\
    forall v k, value_ok v -> key_of v = Some k -> obj_set_has (Some x) v = Some (bool_decide (k ∈ S)).
Proof.
  apply (obj_set_history_refines ex_set_ops).
  - repeat constructor; simpl; try (unfold is_i64; lia); try (by left).
  - vm_compute. discriminate.
Defined.
