(* ===== verification/CycleGc.v ===== *)
(** * The cycle collector: [src/src/cycle_gc.c] and the object lifetimes of
    [src/src/vm.c] it works on

    Arrays, records, tuples and maps are reference counted; the collector
    finds the ones that only keep each other alive. The heap maps an address
    to an object (its contents and reference count) and to its collector node
    (list links, working count, mark). An object is in the heap until it is
    freed, so a use of freed memory is a lookup that fails, and the operations
    return [None] there. Objects of other kinds hold no references to
    containers that the collector would have to follow; giving up a reference
    to one of them is an event.

    The main result, [vm_gc_collect_correct], is that a collection frees
    exactly the objects that no reference from outside the heap reaches,
    leaves every other object as it was, and keeps the node list and the
    reference counts exact. *)

From S2P Require Import Prelude Values HashTable ObjMap.

Open Scope Z_scope.

(** ** State *)

(** What an object holds: the arrays of values of an [ObjArray] of boxed or
    unboxed kind, an [ObjRecord], an [ObjTuple], the slots of an [ObjMap]. *)
Inductive body :=
| Boxed (elements : list Value)
| Unboxed (count : Z)
| Fields (fields : list Value)
| Elements (elements : list Value)
| Slots (t : table (Value * Value)).

Record Obj := mkObj { o_body : body; o_ref_count : Z }.

(** [owner] tells whether the node is linked into the collector's list. *)
Record CycleGcNode := mkNode {
  prev : option address;
  next : option address;
  owner : bool;
  gc_refs : Z;
  reachable_flag : bool
}.

Record CycleGc := mkGc {
  objs : gmap address Obj;
  nodes : gmap address CycleGcNode;
  head : option address;
  tail : option address;
  tracked_count : Z;
  allocations_since_collect : Z;
  threshold : Z;
  is_collecting : bool;
  last_reclaimed : Z;
  total_collections : Z;
  events : list rc_event
}.

Definition with_objs (f : gmap address Obj -> gmap address Obj) (g : CycleGc) : CycleGc :=
  mkGc (f (objs g)) (nodes g) (head g) (tail g) (tracked_count g) (allocations_since_collect g)
    (threshold g) (is_collecting g) (last_reclaimed g) (total_collections g) (events g).
Definition with_nodes (f : gmap address CycleGcNode -> gmap address CycleGcNode) (g : CycleGc) : CycleGc :=
  mkGc (objs g) (f (nodes g)) (head g) (tail g) (tracked_count g) (allocations_since_collect g)
    (threshold g) (is_collecting g) (last_reclaimed g) (total_collections g) (events g).
Definition with_list (h t : option address) (n : Z) (g : CycleGc) : CycleGc :=
  mkGc (objs g) (nodes g) h t n (allocations_since_collect g)
    (threshold g) (is_collecting g) (last_reclaimed g) (total_collections g) (events g).
Definition with_counters (allocs : Z) (collecting : bool) (reclaimed total : Z) (g : CycleGc) : CycleGc :=
  mkGc (objs g) (nodes g) (head g) (tail g) (tracked_count g) allocs
    (threshold g) collecting reclaimed total (events g).
Definition log_events (tr : list rc_event) (g : CycleGc) : CycleGc :=
  mkGc (objs g) (nodes g) (head g) (tail g) (tracked_count g) (allocations_since_collect g)
    (threshold g) (is_collecting g) (last_reclaimed g) (total_collections g) (events g ++ tr).

(** ** The node list *)

Definition cycle_gc_node_init : CycleGcNode := mkNode None None false 0 false.

Definition cycle_gc_init : CycleGc := mkGc ∅ ∅ None None 0 0 256 false 0 0 [].

Definition cycle_gc_increment_allocations_since_collect (g : CycleGc) : CycleGc :=
  with_counters (allocations_since_collect g + 1) (is_collecting g) (last_reclaimed g) (total_collections g) g.

Definition cycle_gc_reset_allocations_since_collect (g : CycleGc) : CycleGc :=
  with_counters 0 (is_collecting g) (last_reclaimed g) (total_collections g) g.

Definition set_next (n : option address) (x : CycleGcNode) : CycleGcNode :=
  mkNode (prev x) n (owner x) (gc_refs x) (reachable_flag x).
Definition set_prev (p : option address) (x : CycleGcNode) : CycleGcNode :=
  mkNode p (next x) (owner x) (gc_refs x) (reachable_flag x).
Definition set_links (p n : option address) (o : bool) (x : CycleGcNode) : CycleGcNode :=
  mkNode p n o (gc_refs x) (reachable_flag x).

Definition cycle_gc_track (g : CycleGc) (a : address) : CycleGc :=
  match nodes g !! a with
  | None => g
  | Some n =>
      if owner n then g
      else
        let g := with_nodes (alter (set_links (tail g) None true) a) g in
        let g :=
          match tail g with
          | Some t => with_list (head g) (Some a) (tracked_count g + 1) (with_nodes (alter (set_next (Some a)) t) g)
          | None => with_list (Some a) (Some a) (tracked_count g + 1) g
          end in
        cycle_gc_increment_allocations_since_collect g
  end.

Definition cycle_gc_untrack (g : CycleGc) (a : address) : CycleGc :=
  match nodes g !! a with
  | None => g
  | Some n =>
      if negb (owner n) then g
      else
        let g :=
          match prev n with
          | Some p => with_nodes (alter (set_next (next n)) p) g
          | None => with_list (next n) (tail g) (tracked_count g) g
          end in
        let g :=
          match next n with
          | Some x => with_nodes (alter (set_prev (prev n)) x) g
          | None => with_list (head g) (prev n) (tracked_count g) g
          end in
        let g := with_nodes (alter (set_links None None false) a) g in
        with_list (head g) (tail g)
          (if 0 <? tracked_count g then tracked_count g - 1 else tracked_count g) g
  end.

(** ** Values of an object *)

(** The container a value points to. *)
Definition container (v : Value) : option address :=
  match v with
  | VAL_ARRAY p | VAL_RECORD p | VAL_TUPLE p | VAL_MAP p => p
  | _ => None
  end.

(** The values the collector scans and the ones that are freed with the
    object, which for a map includes the keys. *)
Definition scanned_values (b : body) : list Value :=
  match b with
  | Boxed es | Fields es | Elements es => es
  | Unboxed _ => []
  | Slots t => List.map snd (entries t)
  end.

Definition owned_values (b : body) : list Value :=
  match b with
  | Boxed es | Fields es | Elements es => es
  | Unboxed _ => []
  | Slots t => flat_map (fun p => [fst p; snd p]) (entries t)
  end.

(** [cycle_gc_clear_children] leaves these contents. *)
Definition cleared (b : body) : body :=
  match b with
  | Boxed _ => Boxed []
  | Unboxed _ => Unboxed 0
  | Fields fs => Fields (List.map (fun _ => VAL_NIL) fs)
  | Elements _ => Elements []
  | Slots t =>
      Slots (mkTable (List.map (fun s => if hash s <? 2 then s else mkSlot 0 (VAL_NIL, VAL_NIL)) (slots t))
               (capacity t) 0 0)
  end.

(** ** Reference counting *)

Definition set_ref_count (z : Z) (o : Obj) : Obj := mkObj (o_body o) z.
Definition set_body (b : body) (o : Obj) : Obj := mkObj b (o_ref_count o).

(** [obj_array_retain] and its siblings. *)
Definition obj_retain (g : CycleGc) (a : address) : option CycleGc :=
  match objs g !! a with
  | None => None
  | Some o => Some (with_objs (<[a := set_ref_count (o_ref_count o + 1) o]>) g)
  end.

(** [obj_array_release], [obj_array_free] and their siblings, together with
    the [value_free] of the contents. The fuel bounds the depth of the cascade
    of frees; each level frees an object, so the size of the heap is enough.
    Freeing the memory of an object a second time is an error like any other
    use of a freed object. *)
Fixpoint obj_release (fuel : nat) (g : CycleGc) (a : address) : option CycleGc :=
  match fuel with
  | O => None
  | S f =>
      match objs g !! a with
      | None => None
      | Some o =>
          let rc := o_ref_count o - 1 in
          let g := with_objs (<[a := set_ref_count rc o]>) g in
          if rc <=? 0 then
            let g := cycle_gc_untrack g a in
            match fold_left
                    (fun acc v =>
                       match acc with
                       | None => None
                       | Some g =>
                           match container v with
                           | Some c => obj_release f g c
                           | None => Some (log_events (value_free v) g)
                           end
                       end) (owned_values (o_body o)) (Some g) with
            | None => None
            | Some g =>
                match objs g !! a with
                | None => None
                | Some _ => Some (with_nodes (delete a) (with_objs (delete a) g))
                end
            end
          else Some g
      end
  end.

Definition gc_value_free (fuel : nat) (g : CycleGc) (v : Value) : option CycleGc :=
  match container v with
  | Some c => obj_release fuel g c
  | None => Some (log_events (value_free v) g)
  end.

Definition gc_free_values (fuel : nat) (g : CycleGc) (vs : list Value) : option CycleGc :=
  fold_left (fun acc v => match acc with None => None | Some g => gc_value_free fuel g v end) vs (Some g).

(** ** Collection *)

Definition cycle_gc_obj_ref_count (g : CycleGc) (a : address) : Z :=
  match objs g !! a with Some o => o_ref_count o | None => 0 end.

(** The node of the container a value points to, if this collector owns it. *)
Definition cycle_gc_node_from_value (g : CycleGc) (v : Value) : option address :=
  match container v with
  | None => None
  | Some c =>
      match nodes g !! c with
      | Some n => if owner n then Some c else None
      | None => None
      end
  end.

Definition body_of (g : CycleGc) (a : address) : body :=
  match objs g !! a with Some o => o_body o | None => Unboxed 0 end.

Definition add_refs (d : Z) (x : CycleGcNode) : CycleGcNode :=
  mkNode (prev x) (next x) (owner x) (gc_refs x + d) (reachable_flag x).
Definition start_refs (r : Z) (x : CycleGcNode) : CycleGcNode :=
  mkNode (prev x) (next x) (owner x) r false.
Definition mark (x : CycleGcNode) : CycleGcNode :=
  mkNode (prev x) (next x) (owner x) (gc_refs x) true.

Definition cycle_gc_subtract_children_refs (g : CycleGc) (a : address) : CycleGc :=
  fold_left
    (fun g v => match cycle_gc_node_from_value g v with
                | Some c => with_nodes (alter (add_refs (-1)) c) g
                | None => g
                end) (scanned_values (body_of g a)) g.

(** The stack holds at most [cap] nodes. *)
Definition cycle_gc_mark_reachable (cap : nat) (s : CycleGc * list address) (a : address)
    : CycleGc * list address :=
  let '(g, stack) := s in
  match nodes g !! a with
  | None => s
  | Some n =>
      if reachable_flag n then s
      else if (cap <=? length stack)%nat then s
      else (with_nodes (alter mark a) g, a :: stack)
  end.

Definition cycle_gc_mark_children_reachable (cap : nat) (s : CycleGc * list address) (a : address)
    : CycleGc * list address :=
  fold_left
    (fun s v => match cycle_gc_node_from_value (fst s) v with
                | Some c => cycle_gc_mark_reachable cap s c
                | None => s
                end) (scanned_values (body_of (fst s) a)) s.

(** [while (stack_top > 0)]: every iteration takes a node off the stack and
    every node is put on it once, so the number of nodes is enough fuel. *)
Fixpoint mark_loop (fuel : nat) (cap : nat) (s : CycleGc * list address) : CycleGc * list address :=
  match fuel with
  | O => s
  | S f =>
      match snd s with
      | [] => s
      | a :: stack => mark_loop f cap (cycle_gc_mark_children_reachable cap (fst s, stack) a)
      end
  end.

(** The list from a node on, at most [cap] nodes. *)
Fixpoint cycle_gc_snapshot_nodes (g : CycleGc) (n : option address) (cap : nat) : list address :=
  match cap, n with
  | S c, Some a =>
      a :: cycle_gc_snapshot_nodes g (match nodes g !! a with Some x => next x | None => None end) c
  | _, _ => []
  end.

(** [!node || node->owner != gc]. *)
Definition is_owned (g : CycleGc) (a : address) : bool :=
  match nodes g !! a with Some n => owner n | None => false end.

Definition is_marked (g : CycleGc) (a : address) : bool :=
  match nodes g !! a with Some n => reachable_flag n | None => false end.

Definition refs_of (g : CycleGc) (a : address) : Z :=
  match nodes g !! a with Some n => gc_refs n | None => 0 end.

Definition init_pass (g : CycleGc) (l : list address) : CycleGc :=
  fold_left (fun g a => if is_owned g a
                        then with_nodes (alter (start_refs (cycle_gc_obj_ref_count g a)) a) g else g) l g.

Definition subtract_pass (g : CycleGc) (l : list address) : CycleGc :=
  fold_left (fun g a => if is_owned g a then cycle_gc_subtract_children_refs g a else g) l g.

Definition root_pass (cap : nat) (g : CycleGc) (l : list address) : CycleGc * list address :=
  fold_left (fun s a => if is_owned (fst s) a
                        then if 0 <? refs_of (fst s) a then cycle_gc_mark_reachable cap s a else s
                        else s) l (g, []).

Definition unreachable_nodes (g : CycleGc) (l : list address) : list address :=
  List.filter (fun a => is_owned g a && negb (is_marked g a)) l.

Definition fold_opt {A} (f : CycleGc -> A -> option CycleGc) (l : list A) (g : CycleGc) : option CycleGc :=
  fold_left (fun acc x => match acc with None => None | Some g => f g x end) l (Some g).

(** Freeing the contents of a node, which keep their slots. *)
Definition cycle_gc_clear_children (fuel : nat) (g : CycleGc) (a : address) : option CycleGc :=
  match gc_free_values fuel g (owned_values (body_of g a)) with
  | None => None
  | Some g => Some (with_objs (alter (fun o => set_body (cleared (o_body o)) o) a) g)
  end.

(** The number of reclaimed objects and the state after the collection. *)
Definition vm_gc_collect (g : CycleGc) : option (CycleGc * Z) :=
  if is_collecting g then Some (g, 0)
  else if tracked_count g <=? 0 then Some (g, 0)
  else
    let g := with_counters (allocations_since_collect g) true 0 (total_collections g + 1) g in
    let l := cycle_gc_snapshot_nodes g (head g) (Z.to_nat (tracked_count g)) in
    let cap := length l in
    if (cap =? 0)%nat then
      Some (with_counters 0 false (last_reclaimed g) (total_collections g) g, 0)
    else
      let fuel := S (size (objs g)) in
      let g := init_pass g l in
      let g := subtract_pass g l in
      let '(g, _) := mark_loop cap cap (root_pass cap g l) in
      let unreachable := unreachable_nodes g l in
      match fold_opt obj_retain unreachable g with
      | None => None
      | Some g =>
          match fold_opt (cycle_gc_clear_children fuel) unreachable g with
          | None => None
          | Some g =>
              match fold_opt (obj_release fuel) unreachable g with
              | None => None
              | Some g =>
                  let n := Z.of_nat (length unreachable) in
                  Some (with_counters 0 false n (total_collections g) g, n)
              end
          end
      end.

Definition vm_gc_tracked_count (g : CycleGc) : Z := tracked_count g.

Definition vm_gc_maybe_collect (g : CycleGc) : option CycleGc :=
  if threshold g <=? 0 then Some g
  else if threshold g <=? allocations_since_collect g then
    match vm_gc_collect g with Some (g, _) => Some g | None => None end
  else Some g.

(** Creating a container at a free address: the object with one reference,
    its node tracked, and a collection if the threshold is reached. *)
Definition obj_create (g : CycleGc) (a : address) (b : body) : option CycleGc :=
  let g := with_nodes (<[a := cycle_gc_node_init]>) (with_objs (<[a := mkObj b 1]>) g) in
  vm_gc_maybe_collect (cycle_gc_track g a).

Definition obj_array_create (g : CycleGc) (a : address) : option CycleGc := obj_create g a (Boxed []).
Definition obj_tuple_create (g : CycleGc) (a : address) (n : nat) : option CycleGc :=
  obj_create g a (Elements (replicate n (VAL_INT 0))).
Definition obj_record_create_with_count (g : CycleGc) (a : address) (n : Z) : option CycleGc :=
  obj_create g a (Fields (replicate (Z.to_nat n) VAL_NIL)).
Definition gc_map_create (g : CycleGc) (a : address) : option CycleGc := obj_create g a (Slots create).

(** ** Sums and multiplicities *)

Definition sumz {A} (f : A -> Z) (l : list A) : Z := fold_right (fun x acc => f x + acc) 0 l.

Lemma sumz_app {A} (f : A -> Z) l1 l2 : sumz f (l1 ++ l2) = sumz f l1 + sumz f l2.
Proof. induction l1 as [|x l1 IH]; simpl; lia. Qed.

Lemma sumz_nonneg {A} (f : A -> Z) l : (forall x, 0 <= f x) -> 0 <= sumz f l.
Proof. intros H. induction l as [|x l IH]; simpl; [lia|]. specialize (H x). lia. Qed.

Lemma sumz_ext {A} (f g : A -> Z) l : (forall x, x ∈ l -> f x = g x) -> sumz f l = sumz g l.
Proof.
  intros H. induction l as [|x l IH]; simpl; [done|]. rewrite (H x), IH; [done| |left].
  intros y Hy. apply H. by right.
Qed.

Lemma sumz_split {A} (f : A -> Z) (p : A -> bool) l :
  sumz f l = sumz f (List.filter p l) + sumz f (List.filter (fun x => negb (p x)) l).
Proof. induction l as [|x l IH]; simpl; [done|]. destruct (p x); simpl; lia. Qed.

Lemma sumz_zero {A} (f : A -> Z) l : (forall x, x ∈ l -> f x = 0) -> sumz f l = 0.
Proof.
  intros H. induction l as [|x l IH]; simpl; [done|]. rewrite (H x), IH; [done| |left].
  intros y Hy. apply H. by right.
Qed.

Lemma sumz_elem {A} (f : A -> Z) l x : (forall y, 0 <= f y) -> x ∈ l -> f x <= sumz f l.
Proof.
  intros H Hin. induction l as [|y l IH]; [by apply not_elem_of_nil in Hin|]. simpl.
  pose proof (sumz_nonneg f l H). pose proof (H y). apply elem_of_cons in Hin as [->|Hin]; [lia|].
  specialize (IH Hin). lia.
Qed.

(** How often a list of values points to the container [c]. *)
Definition points_to (c : address) (v : Value) : Z := if bool_decide (container v = Some c) then 1 else 0.
Definition mult (c : address) (vs : list Value) : Z := sumz (points_to c) vs.

Lemma points_to_nonneg c v : 0 <= points_to c v.
Proof. unfold points_to. case_bool_decide; lia. Qed.

Lemma mult_nonneg c vs : 0 <= mult c vs.
Proof. apply sumz_nonneg, points_to_nonneg. Qed.

Lemma mult_cons c v vs : mult c (v :: vs) = points_to c v + mult c vs.
Proof. done. Qed.

Lemma mult_pos c vs : 0 < mult c vs <-> exists v, v ∈ vs /\ container v = Some c.
Proof.
  split.
  - induction vs as [|v vs IH]; [unfold mult; simpl; lia|]. rewrite mult_cons. unfold points_to.
    case_bool_decide as E; intros H; [exists v; split; [left|done]|].
    destruct IH as (w & Hw & Ew); [lia|]. exists w. split; [by right|done].
  - intros (v & Hv & E). assert (points_to c v = 1) as E1 by (unfold points_to; by rewrite bool_decide_eq_true_2).
    pose proof (sumz_elem (points_to c) vs v (points_to_nonneg c) Hv). unfold mult. lia.
Qed.

(** A body whose map keys are not containers; then the scanned and the owned
    values point to the same containers. *)
Definition body_ok (b : body) : Prop :=
  match b with
  | Slots t => Forall (fun p => container (fst p) = None) (entries t)
  | _ => True
  end.

Lemma owned_scanned b c : body_ok b -> mult c (owned_values b) = mult c (scanned_values b).
Proof.
  destruct b as [| | | |t]; simpl; try done. induction (entries t) as [|p ps IH]; [done|].
  intros [Hp Hps]%Forall_cons_iff. cbn [flat_map List.map app]. rewrite !mult_cons, IH by done.
  unfold points_to at 1. by rewrite Hp.
Qed.

Lemma cleared_owned b : Forall (fun v => v = VAL_NIL) (owned_values (cleared b)).
Proof.
  destruct b as [es|n|fs|es|t]; simpl; try constructor.
  - induction fs; constructor; auto.
  - unfold entries. cbn [slots]. induction (slots t) as [|s l IH]; [constructor|]. cbn [List.map].
    rewrite entries_cons. destruct (Z.ltb_spec (hash s) 2) as [E|E].
    + destruct (Z.ltb_spec (hash s) 2); [done|lia].
    + done.
Qed.

(** ** The node list as a sequence *)

(** The nodes of [l] are linked in order between [p] and [nx]. *)
Fixpoint dseg (N : gmap address CycleGcNode) (p : option address) (l : list address) (nx : option address)
    : Prop :=
  match l with
  | [] => True
  | a :: l' =>
      (exists n, N !! a = Some n /\ owner n = true /\ prev n = p /\
         next n = match l' with [] => nx | b :: _ => Some b end) /\
      dseg N (Some a) l' nx
  end.

Record dlist (g : CycleGc) (l : list address) : Prop := {
  dl_nodup : NoDup l;
  dl_head : head g = List.hd_error l;
  dl_tail : tail g = last l;
  dl_seg : dseg (nodes g) None l None
}.

Definition links (n : CycleGcNode) : option address * option address * bool := (prev n, next n, owner n).

Definition first_or (l : list address) (x : option address) : option address :=
  match l with [] => x | b :: _ => Some b end.
Definition last_or (l : list address) (x : option address) : option address :=
  match last l with None => x | Some b => Some b end.

Lemma dseg_app N p l1 l2 nx :
  dseg N p (l1 ++ l2) nx <-> dseg N p l1 (first_or l2 nx) /\ dseg N (last_or l1 p) l2 nx.
Proof.
  revert p. induction l1 as [|a l1 IH]; intros p; [simpl; tauto|].
  cbn [app dseg]. rewrite IH. assert (last_or (a :: l1) p = last_or l1 (Some a)) as ->.
  { unfold last_or. destruct l1 as [|b l1]; [done|]. 
    change (last (a :: b :: l1)) with (last (b :: l1)).
    destruct (last (b :: l1)) eqn:E; [done|]. by apply last_None in E. }
  destruct l1 as [|b l1]; [|tauto]. simpl. destruct l2; simpl; tauto.
Qed.

Lemma dseg_links N N' p l nx :
  (forall a, a ∈ l -> links <$> N' !! a = links <$> N !! a) -> dseg N p l nx -> dseg N' p l nx.
Proof.
  revert p. induction l as [|a l IH]; intros p Hl Hd; [done|]. destruct Hd as [(n & Hn & Ho & Hp & Hx) Hd].
  split; [|apply IH; [|done]; intros b Hb; apply Hl; by right].
  specialize (Hl a ltac:(left)). rewrite Hn in Hl. simpl in Hl.
  destruct (N' !! a) as [n'|]; [|done]. injection Hl as E1 E2 E3. exists n'.
  rewrite E1, E2, E3. done.
Qed.

(** Changing the links of a node outside the segment. *)
Lemma dseg_alter N f a p l nx : a ∉ l -> dseg N p l nx -> dseg (alter f a N) p l nx.
Proof.
  intros Ha. apply dseg_links. intros b Hb. by rewrite lookup_alter_ne by (by intros ->).
Qed.

Lemma dseg_delete N a p l nx : a ∉ l -> dseg N p l nx -> dseg (delete a N) p l nx.
Proof.
  intros Ha. apply dseg_links. intros b Hb. by rewrite lookup_delete_ne by (by intros ->).
Qed.

(** Redirecting the end of a segment. *)
Lemma dseg_set_next N p l a nx nx' :
  a ∉ l -> dseg N p (l ++ [a]) nx -> dseg (alter (set_next nx') a N) p (l ++ [a]) nx'.
Proof.
  rewrite !dseg_app. intros Ha [H1 [(n & Hn & Ho & Hp & Hx) _]]. split.
  - by apply dseg_alter.
  - split; [|done]. exists (set_next nx' n). by rewrite lookup_alter, decide_True, Hn by done.
Qed.

(** Redirecting its start. *)
Lemma dseg_set_prev N p p' l a nx :
  a ∉ l -> dseg N p (a :: l) nx -> dseg (alter (set_prev p') a N) p' (a :: l) nx.
Proof.
  intros Ha [(n & Hn & Ho & Hp & Hx) Hd]. split; [|by apply dseg_alter].
  exists (set_prev p' n). by rewrite lookup_alter, decide_True, Hn by done.
Qed.

Lemma dseg_owned N p l nx a : dseg N p l nx -> a ∈ l -> exists n, N !! a = Some n /\ owner n = true.
Proof.
  revert p. induction l as [|b l IH]; intros p Hd Ha; [by apply not_elem_of_nil in Ha|].
  destruct Hd as [(n & Hn & Ho & _) Hd]. apply elem_of_cons in Ha as [->|Ha]; [by exists n|by eapply IH].
Qed.

Lemma snapshot_dseg g l p cap :
  dseg (nodes g) p l None -> (length l <= cap)%nat -> cycle_gc_snapshot_nodes g (first_or l None) cap = l.
Proof.
  revert p cap. induction l as [|a l IH]; intros p [|cap] Hd Hc; try done; [simpl in Hc; lia|].
  destruct Hd as [(n & Hn & _ & _ & Hx) Hd]. cbn [first_or cycle_gc_snapshot_nodes]. rewrite Hn, Hx.
  f_equal. eapply IH; [done|]. simpl in Hc. lia.
Qed.

(** *** Tracking appends, untracking removes *)

Lemma last_split (l : list address) t : last l = Some t -> exists l', l = l' ++ [t].
Proof. intros H. by apply last_Some in H. Qed.

Lemma hd_error_snoc (l : list address) a :
  List.hd_error (l ++ [a]) = match l with [] => Some a | b :: _ => Some b end.
Proof. by destruct l. Qed.

Lemma alter_is_Some f a (N : gmap address CycleGcNode) b : is_Some (alter f a N !! b) <-> is_Some (N !! b).
Proof. rewrite lookup_alter. case_decide; [subst; by rewrite fmap_is_Some|done]. Qed.

(** Ending the segment before a node, and starting the one after it, at
    another neighbour. *)
Definition relink_next (p nx : option address) (N : gmap address CycleGcNode) :=
  match p with Some p => alter (set_next nx) p N | None => N end.
Definition relink_prev (x p : option address) (N : gmap address CycleGcNode) :=
  match x with Some x => alter (set_prev p) x N | None => N end.

Lemma relink_next_dseg N l nx nx' :
  NoDup l -> dseg N None l nx -> dseg (relink_next (last l) nx' N) None l nx'.
Proof.
  intros Hnd Hd. destruct l as [|t l _] using rev_ind; [done|]. rewrite last_snoc.
  apply NoDup_app in Hnd as (_ & Hdis & _).
  eapply dseg_set_next; [|done]. intros Hin. apply (Hdis t Hin). left.
Qed.

Lemma relink_prev_dseg N l p p' :
  NoDup l -> dseg N p l None -> dseg (relink_prev (List.hd_error l) p' N) p' l None.
Proof.
  intros Hnd Hd. destruct l as [|a l]; [done|]. apply NoDup_cons in Hnd as [Ha _].
  by eapply dseg_set_prev.
Qed.

Lemma track_dlist g l a :
  dlist g l -> a ∉ l -> nodes g !! a = Some cycle_gc_node_init -> tracked_count g = Z.of_nat (length l) ->
  let g' := cycle_gc_track g a in
  dlist g' (l ++ [a]) /\ tracked_count g' = Z.of_nat (length (l ++ [a])) /\ objs g' = objs g /\
  allocations_since_collect g' = allocations_since_collect g + 1 /\
  (forall b, is_Some (nodes g' !! b) <-> is_Some (nodes g !! b)).
Proof.
  intros [Hnd Hh Ht Hs] Ha Hn Hc. unfold cycle_gc_track. rewrite Hn. cbn [owner cycle_gc_node_init].
  set (N := alter (set_links (tail g) None true) a (nodes g)).
  assert (NoDup (l ++ [a])) as Hnd'.
  { apply NoDup_app. split; [done|]. split; [set_solver|apply NoDup_singleton]. }
  assert (dseg (relink_next (last l) (Some a) N) None (l ++ [a]) None) as Hseg.
  { apply dseg_app. split.
    - apply relink_next_dseg with (nx := None); [done|]. by apply dseg_alter.
    - split; [|done]. exists (set_links (tail g) None true cycle_gc_node_init).
      assert (relink_next (last l) (Some a) N !! a = N !! a) as ->.
      { destruct (last l) as [t|] eqn:E; [|done]. apply last_Some in E as [l0 ->]. simpl.
        apply lookup_alter_ne. set_solver. }
      unfold N. rewrite lookup_alter, decide_True, Hn by done. split; [done|]. split; [done|].
      split; [|done]. simpl. rewrite Ht. unfold last_or. by destruct (last l). }
  rewrite length_app. change (tail (with_nodes (alter (set_links (tail g) None true) a) g)) with (tail g).
  unfold N in Hseg. clear N. rewrite Ht in *. destruct (last l) as [t|] eqn:El; cbn.
  - split; [|split; [simpl; lia|split; [done|split; [done|intros b; by rewrite !alter_is_Some]]]].
    constructor; [done| |by rewrite last_snoc|done]. cbn. rewrite Hh. by destruct l.
  - apply last_None in El. subst l.
    split; [|split; [simpl in *; lia|split; [done|split; [done|intros b; by rewrite !alter_is_Some]]]].
    by constructor.
Qed.

(** The links and list ends after untracking the node between [l1] and [l2]. *)
Lemma untrack_links g l1 a l2 :
  dlist g (l1 ++ a :: l2) -> tracked_count g = Z.of_nat (length (l1 ++ a :: l2)) ->
  let g' := cycle_gc_untrack g a in
  nodes g' = alter (set_links None None false) a
    (relink_prev (List.hd_error l2) (last l1) (relink_next (last l1) (List.hd_error l2) (nodes g))) /\
  head g' = List.hd_error (l1 ++ l2) /\ tail g' = last (l1 ++ l2) /\
  tracked_count g' = Z.of_nat (length (l1 ++ l2)).
Proof.
  intros [Hnd Hh Ht Hs] Hc. unfold cycle_gc_untrack.
  apply dseg_app in Hs as [_ [(n & Hn & Ho & Hp & Hx) _]].
  rewrite Hn, Ho. cbn [negb]. rewrite length_app in Hc. simpl in Hc.
  assert (prev n = last l1) as -> by (rewrite Hp; unfold last_or; by destruct (last l1)).
  assert (next n = List.hd_error l2) as -> by (rewrite Hx; by destruct l2).
  assert (tracked_count g - 1 = Z.of_nat (length (l1 ++ l2))) as E by (rewrite length_app; lia).
  assert (0 <? tracked_count g = true) as Hpos by lia.
  destruct (last l1) as [t|] eqn:El, (List.hd_error l2) as [x|] eqn:Ex; cbn; rewrite Hpos;
    (split; [done|]); (split; [|split; [|done]]); rewrite ?Hh, ?Ht;
    try (apply last_None in El; subst l1); try (destruct l2; [|done]); try done.
  - by destruct l1.
  - destruct l2 as [|y l2]; [done|]. by rewrite !last_app_cons.
  - by destruct l1; [|rewrite app_nil_r].
  - by rewrite app_nil_r.
Qed.

Lemma untrack_dlist g l1 a l2 :
  dlist g (l1 ++ a :: l2) -> tracked_count g = Z.of_nat (length (l1 ++ a :: l2)) ->
  dlist (cycle_gc_untrack g a) (l1 ++ l2).
Proof.
  intros Hd Hc. destruct (untrack_links g l1 a l2 Hd Hc) as (HN & Hhd & Htl & _).
  destruct Hd as [Hnd _ _ Hs]. apply dseg_app in Hs as [H1 [_ H2]]. cbn [first_or] in H1.
  apply NoDup_app in Hnd as (Hnd1 & Hdis & [Ha2 Hnd2]%NoDup_cons).
  assert (a ∉ l1) as Ha1 by (intros Hin; apply (Hdis a Hin); left).
  assert (forall x, x ∈ l1 -> x ∉ l2) as Hdis' by (intros x Hx Hx2; apply (Hdis x Hx); by right).
  constructor; [by apply NoDup_app|done|done|]. rewrite HN. apply dseg_alter; [set_solver|].
  apply dseg_app. split.
  - assert (dseg (relink_next (last l1) (List.hd_error l2) (nodes g)) None l1 (first_or l2 None)) as Hl.
    { assert (first_or l2 None = List.hd_error l2) as -> by (by destruct l2).
      by apply relink_next_dseg with (nx := Some a). }
    destruct l2 as [|y l2]; [done|]. simpl. apply dseg_alter; [|done]. intros Hy. apply (Hdis' y Hy). left.
  - assert (last_or l1 None = last l1) as -> by (unfold last_or; by destruct (last l1)).
    apply relink_prev_dseg with (p := Some a); [done|].
    destruct (last l1) as [t|] eqn:El; [|done]. apply last_Some in El as [l0 ->].
    simpl. apply dseg_alter; [|done]. apply Hdis'. set_solver.
Qed.

(** Untracking changes nothing else. *)
Lemma untrack_rest g a :
  let g' := cycle_gc_untrack g a in
  objs g' = objs g /\ (forall b, is_Some (nodes g' !! b) <-> is_Some (nodes g !! b)) /\
  allocations_since_collect g' = allocations_since_collect g /\ threshold g' = threshold g /\
  is_collecting g' = is_collecting g /\ last_reclaimed g' = last_reclaimed g /\
  total_collections g' = total_collections g.
Proof.
  unfold cycle_gc_untrack. destruct (nodes g !! a) as [n|]; [|done].
  destruct (owner n); [|done]. destruct (prev n), (next n); cbn;
    (split; [done|]); (split; [intros b; by rewrite !alter_is_Some|done]).
Qed.

(** ** Heap invariant *)

Definition values_at (g : CycleGc) (a : address) : list Value := scanned_values (body_of g a).

(** How many references to [c] the objects of [l] hold. *)
Definition indegree (g : CycleGc) (l : list address) (c : address) : Z :=
  sumz (fun b => mult c (values_at g b)) l.

(** The tracked objects are the heap, in list order [l]; every reference
    leads to one of them; and a reference count is the number of references
    from the heap plus [ext], the references held elsewhere (stack, globals,
    other objects). *)
Record gc_ok (g : CycleGc) (l : list address) (ext : address -> Z) : Prop := {
  ok_list : dlist g l;
  ok_count : tracked_count g = Z.of_nat (length l);
  ok_nodes : forall a, is_Some (nodes g !! a) <-> a ∈ l;
  ok_objs : forall a, is_Some (objs g !! a) <-> a ∈ l;
  ok_bodies : forall a, body_ok (body_of g a);
  ok_closed : forall a c, 0 < mult c (values_at g a) -> c ∈ l;
  ok_refs : forall a, a ∈ l -> cycle_gc_obj_ref_count g a = ext a + indegree g l a;
  ok_ext : forall a, 0 <= ext a
}.

(** What a reference from outside the heap reaches. *)
Inductive reaches (g : CycleGc) (ext : address -> Z) (l : list address) : address -> Prop :=
| reaches_root a : a ∈ l -> 0 < ext a -> reaches g ext l a
| reaches_step a c : reaches g ext l a -> 0 < mult c (values_at g a) -> reaches g ext l c.

(** ** The counting passes *)

(** Two states that differ in the working counts and marks only. *)
Definition with_N (N : gmap address CycleGcNode) (g : CycleGc) : CycleGc := with_nodes (fun _ => N) g.

Definition all_owned (N : gmap address CycleGcNode) : Prop := forall a n, N !! a = Some n -> owner n = true.

Lemma with_N_id g : with_N (nodes g) g = g.
Proof. by destruct g. Qed.

Lemma all_owned_alter N f a :
  (forall n, owner (f n) = owner n) -> all_owned N -> all_owned (alter f a N).
Proof.
  intros Hf Ho b n. rewrite lookup_alter. case_decide; [|apply Ho]. subst b.
  destruct (N !! a) as [n'|] eqn:E; [|done]. simpl. intros [= <-]. rewrite Hf. by apply (Ho a).
Qed.

Lemma is_owned_all N g a : all_owned N -> is_owned (with_N N g) a = bool_decide (is_Some (N !! a)).
Proof.
  intros Ho. unfold is_owned. simpl. destruct (N !! a) as [n|] eqn:E; [|done]. by rewrite (Ho a n E).
Qed.

Lemma init_pass_spec g l : forall N,
  all_owned N ->
  exists N', init_pass (with_N N g) l = with_N N' g /\ all_owned N' /\
    forall a, N' !! a = (if decide (a ∈ l) then start_refs (cycle_gc_obj_ref_count g a) <$> N !! a else N !! a).
Proof.
  unfold init_pass. induction l as [|b l IH]; intros N Ho; cbn [fold_left].
  { exists N. split; [done|]. split; [done|]. intros a. rewrite decide_False; [done|apply not_elem_of_nil]. }
  rewrite is_owned_all by done. case_bool_decide as Hb.
  - change (with_nodes (alter (start_refs (cycle_gc_obj_ref_count (with_N N g) b)) b) (with_N N g))
      with (with_N (alter (start_refs (cycle_gc_obj_ref_count g b)) b N) g).
    destruct (IH (alter (start_refs (cycle_gc_obj_ref_count g b)) b N)) as (N' & -> & Ho' & HN').
    { by apply all_owned_alter. }
    exists N'. split; [done|]. split; [done|]. intros a. rewrite HN', lookup_alter.
    destruct (decide (b = a)) as [->|Hne].
    + rewrite (decide_True (P := a ∈ a :: l)) by left. case_decide; [|done]. by destruct (N !! a).
    + assert (a ∈ b :: l <-> a ∈ l) as Hiff by set_solver.
      destruct (decide (a ∈ l)), (decide (a ∈ b :: l)); tauto || done.
  - destruct (IH N Ho) as (N' & -> & Ho' & HN'). exists N'. split; [done|]. split; [done|]. intros a.
    rewrite HN'. destruct (decide (a = b)) as [->|Hne].
    + apply eq_None_not_Some in Hb. rewrite Hb. by destruct (decide _), (decide _).
    + assert (a ∈ b :: l <-> a ∈ l) as Hiff by set_solver.
      destruct (decide (a ∈ l)), (decide (a ∈ b :: l)); tauto || done.
Qed.

Lemma add_refs_0 n : add_refs 0 n = n.
Proof. destruct n. unfold add_refs. simpl. by rewrite Z.add_0_r. Qed.

Lemma add_refs_add d e n : add_refs d (add_refs e n) = add_refs (e + d) n.
Proof. destruct n. unfold add_refs. simpl. by rewrite Z.add_assoc. Qed.

Lemma add_refs_fmap_0 (x : option CycleGcNode) : add_refs 0 <$> x = x.
Proof. destruct x; simpl; [by rewrite add_refs_0|done]. Qed.

(** Subtracting the references of one list of values. *)
Definition subtract_values (vs : list Value) (g : CycleGc) : CycleGc :=
  fold_left
    (fun g v => match cycle_gc_node_from_value g v with
                | Some c => with_nodes (alter (add_refs (-1)) c) g
                | None => g
                end) vs g.

Lemma subtract_values_spec g vs : forall N,
  all_owned N ->
  exists N', subtract_values vs (with_N N g) = with_N N' g /\ all_owned N' /\
    forall c, N' !! c = add_refs (- mult c vs) <$> N !! c.
Proof.
  unfold subtract_values. induction vs as [|v vs IH]; intros N Ho; cbn [fold_left].
  { exists N. split; [done|]. split; [done|]. intros c. by rewrite add_refs_fmap_0. }
  assert (exists N1, (match cycle_gc_node_from_value (with_N N g) v with
    | Some c => with_nodes (alter (add_refs (-1)) c) (with_N N g) | None => with_N N g end) = with_N N1 g /\
    all_owned N1 /\ forall c, N1 !! c = add_refs (- points_to c v) <$> N !! c) as (N1 & -> & Ho1 & HN1).
  { unfold cycle_gc_node_from_value, points_to. simpl. destruct (container v) as [c|] eqn:E.
    2:{ exists N. split; [done|]. split; [done|]. intros c. by rewrite add_refs_fmap_0. }
    destruct (N !! c) as [n|] eqn:En.
    - rewrite (Ho c n En). exists (alter (add_refs (-1)) c N). split; [done|].
      split; [by apply all_owned_alter|]. intros d. rewrite lookup_alter.
      destruct (decide (c = d)) as [->|Hne]; [by rewrite bool_decide_eq_true_2|].
      rewrite bool_decide_eq_false_2 by congruence. by rewrite add_refs_fmap_0.
    - exists N. split; [done|]. split; [done|]. intros d. case_bool_decide as Hd; [|by rewrite add_refs_fmap_0].
      injection Hd as <-. by rewrite En. }
  destruct (IH N1 Ho1) as (N' & -> & Ho' & HN'). exists N'. split; [done|]. split; [done|].
  intros c. rewrite HN', HN1, mult_cons, <- option_fmap_compose. apply option_fmap_ext. intros n. simpl.
  rewrite add_refs_add. f_equal. lia.
Qed.

Lemma subtract_pass_spec g l : forall N,
  all_owned N -> (forall a, a ∈ l -> is_Some (N !! a)) ->
  exists N', subtract_pass (with_N N g) l = with_N N' g /\ all_owned N' /\
    forall c, N' !! c = add_refs (- indegree g l c) <$> N !! c.
Proof.
  unfold subtract_pass. induction l as [|b l IH]; intros N Ho Hin; cbn [fold_left].
  { exists N. split; [done|]. split; [done|]. intros c. by rewrite add_refs_fmap_0. }
  rewrite is_owned_all by done. rewrite bool_decide_eq_true_2 by (apply Hin; left).
  change (cycle_gc_subtract_children_refs (with_N N g) b)
    with (subtract_values (values_at g b) (with_N N g)).
  destruct (subtract_values_spec g (values_at g b) N Ho) as (N1 & -> & Ho1 & HN1).
  destruct (IH N1 Ho1) as (N' & -> & Ho' & HN').
  { intros a Ha. rewrite HN1, fmap_is_Some. apply Hin. by right. }
  exists N'. split; [done|]. split; [done|]. intros c.
  rewrite HN', HN1, <- option_fmap_compose. apply option_fmap_ext. intros n. simpl.
  rewrite add_refs_add. f_equal. unfold indegree. simpl. lia.
Qed.

(** ** Marking *)

Definition unmark (n : CycleGcNode) : CycleGcNode := mkNode (prev n) (next n) (owner n) (gc_refs n) false.
Definition marked (N : gmap address CycleGcNode) (a : address) : Prop :=
  exists n, N !! a = Some n /\ reachable_flag n = true.

#[export] Instance marked_dec N a : Decision (marked N a).
Proof.
  unfold marked. destruct (N !! a) as [n|] eqn:E.
  - destruct (reachable_flag n) eqn:F; [left; by exists n|right]. intros (n' & [= <-] & ?). congruence.
  - right. by intros (n & ? & _).
Defined.

Lemma marked_alter N a b : marked (alter mark a N) b <-> (a = b /\ is_Some (N !! b)) \/ marked N b.
Proof.
  unfold marked. rewrite lookup_alter. destruct (decide (a = b)) as [->|Hne].
  - destruct (N !! b) as [n|] eqn:E; simpl.
    + split; [left; by split|]. intros _. by eexists.
    + split; [by intros (? & ? & _)|]. intros [[_ [? ?]]|(? & ? & _)]; done.
  - split; [by right|]. intros [[? _]|?]; done.
Qed.

Lemma node_from_value_owned g N v c n :
  container v = Some c -> N !! c = Some n -> owner n = true ->
  cycle_gc_node_from_value (with_N N g) v = Some c.
Proof. intros Ev Hn Ho. unfold cycle_gc_node_from_value. rewrite Ev. simpl. by rewrite Hn, Ho. Qed.

Lemma node_from_value_None g N v :
  container v = None -> cycle_gc_node_from_value (with_N N g) v = None.
Proof. intros Ev. unfold cycle_gc_node_from_value. by rewrite Ev. Qed.

(** The number of nodes of a list that are not marked. *)
Fixpoint unmarked_count (N : gmap address CycleGcNode) (l : list address) : nat :=
  match l with
  | [] => 0
  | a :: l' => (if decide (marked N a) then 0 else 1) + unmarked_count N l'
  end.

Lemma unmarked_count_le N l : (unmarked_count N l <= length l)%nat.
Proof. induction l; simpl; [lia|]. case_decide; lia. Qed.

Lemma unmarked_count_notin N a l : a ∉ l -> unmarked_count (alter mark a N) l = unmarked_count N l.
Proof.
  induction l as [|b l IH]; intros Ha; [done|]. cbn [unmarked_count].
  apply not_elem_of_cons in Ha as [Hne Ha]. rewrite IH by done. f_equal.
  destruct (decide (marked N b)), (decide (marked (alter mark a N) b)) as [Hm|Hm]; try done.
  - destruct Hm. apply marked_alter. by right.
  - apply marked_alter in Hm as [[? _]|?]; congruence.
Qed.

Lemma unmarked_count_mark N a l :
  NoDup l -> a ∈ l -> is_Some (N !! a) -> ~ marked N a ->
  S (unmarked_count (alter mark a N) l) = unmarked_count N l.
Proof.
  intros Hnd Ha Hs Hn. induction Hnd as [|b l Hb Hnd IH]; [by apply not_elem_of_nil in Ha|].
  cbn [unmarked_count]. destruct (decide (a = b)) as [->|Hne].
  - rewrite unmarked_count_notin by done. rewrite (decide_False (P := marked N b)) by done.
    rewrite decide_True; [done|]. apply marked_alter. by left.
  - apply elem_of_cons in Ha as [?|Ha]; [done|]. rewrite <- (IH Ha).
    destruct (decide (marked N b)), (decide (marked (alter mark a N) b)) as [Hm|Hm]; try lia.
    + destruct Hm. apply marked_alter. by right.
    + apply marked_alter in Hm as [[? _]|?]; congruence.
Qed.

Section Marking.
Context (g : CycleGc) (N0 : gmap address CycleGcNode) (l : list address) (ext : address -> Z).
Context (Hnd : NoDup l).
Context (Howned : all_owned N0).
Context (Hdom : forall a, is_Some (N0 !! a) <-> a ∈ l).
Context (Hunmarked : forall a n, N0 !! a = Some n -> reachable_flag n = false).
Context (Hclosed : forall a c, 0 < mult c (values_at g a) -> c ∈ l).

Notation reach := (reaches g ext l).

(** The state of the marking with the nodes on the stack; [cur] is the node
    whose children are being marked. *)
Record marking (N : gmap address CycleGcNode) (stack : list address) (cur : option address) : Prop := {
  mk_same : forall a, unmark <$> N !! a = N0 !! a;
  mk_sound : forall a, marked N a -> reach a;
  mk_stack : forall a, a ∈ stack -> marked N a;
  mk_nodup : NoDup stack;
  mk_done : forall a c, marked N a -> a ∉ stack -> Some a <> cur -> 0 < mult c (values_at g a) -> marked N c
}.

Lemma mark_dom N s cur a : marking N s cur -> is_Some (N !! a) <-> a ∈ l.
Proof.
  intros Hm. rewrite <- Hdom, <- (mk_same _ _ _ Hm a). by rewrite fmap_is_Some.
Qed.

Lemma mark_owned N s cur : marking N s cur -> all_owned N.
Proof.
  intros Hm a n Hn. pose proof (mk_same _ _ _ Hm a) as E. rewrite Hn in E. simpl in E.
  by apply (Howned a (unmark n)).
Qed.

Lemma marked_in N s cur a : marking N s cur -> marked N a -> a ∈ l.
Proof. intros Hm (n & Hn & _). apply (mark_dom N s cur a Hm). by exists n. Qed.

Lemma stack_length N s cur c :
  marking N s cur -> c ∈ l -> ~ marked N c -> (length s < length l)%nat.
Proof.
  intros Hm Hc Hn. assert (NoDup (c :: s)) as Hnd'.
  { constructor; [|apply (mk_nodup _ _ _ Hm)]. intros Hin. by apply Hn, (mk_stack _ _ _ Hm). }
  assert (c :: s ⊆ l) as Hsub.
  { intros x [->|Hx]%elem_of_cons; [done|]. by eapply marked_in, (mk_stack _ _ _ Hm). }
  pose proof (NoDup_submseteq _ _ Hnd' Hsub) as Hle%submseteq_length. simpl in Hle. lia.
Qed.

(** Marking a reachable node succeeds: the stack has room for it. *)
Lemma mark_reachable_spec N s cur c :
  marking N s cur -> c ∈ l -> reach c ->
  exists N' s', cycle_gc_mark_reachable (length l) (with_N N g, s) c = (with_N N' g, s') /\
    marking N' s' cur /\ marked N' c /\ (forall a, marked N a -> marked N' a) /\
    (unmarked_count N' l + length s' = unmarked_count N l + length s)%nat /\ (forall a, a ∈ s -> a ∈ s') /\
    (forall a, a ∈ s' -> a ∉ s -> ~ marked N a).
Proof.
  intros Hm Hc Hr. unfold cycle_gc_mark_reachable. simpl.
  destruct (proj2 (mark_dom N s cur c Hm) Hc) as [n Hn]. rewrite Hn.
  destruct (reachable_flag n) eqn:Ef.
  { exists N, s. split; [done|]. split; [done|]. split; [by exists n|]. split; [done|]. split; [done|].
    split; [done|]. intros a ? ?; done. }
  assert (~ marked N c) as Hnm by (intros (n' & Hn' & ?); congruence).
  pose proof (stack_length N s cur c Hm Hc Hnm) as Hlen.
  destruct (Nat.leb_spec (length l) (length s)); [lia|].
  assert (c ∉ s) as Hcs by (intros Hin; by apply Hnm, (mk_stack _ _ _ Hm)).
  exists (alter mark c N), (c :: s). split; [done|].
  destruct Hm as [Hsame Hsound Hstack Hnds Hdone].
  split; [constructor|].
  - intros a. rewrite <- (Hsame a), lookup_alter. case_decide; [subst a|done]. by rewrite Hn.
  - intros a [[<- _]|Ha]%marked_alter; [done|by apply Hsound].
  - intros a [->|Ha]%elem_of_cons; apply marked_alter; [left; by rewrite Hn|right; by apply Hstack].
  - by constructor.
  - intros a d [[<- _]|Ha]%marked_alter Hs' Hcur Hmul; [by destruct Hs'; left|].
    apply marked_alter. right. apply (Hdone a d); [done| |done|done]. intros Hin. apply Hs'. by right.
  - split; [apply marked_alter; left; by rewrite Hn|]. split; [intros a Ha; apply marked_alter; by right|].
    split; [|split; [intros a Ha; by right|]].
    + pose proof (unmarked_count_mark N c l Hnd Hc ltac:(by exists n) Hnm). simpl. lia.
    + intros a [->|Ha]%elem_of_cons Has; [done|by destruct Has].
Qed.

Definition mark_values (vs : list Value) (s : CycleGc * list address) : CycleGc * list address :=
  fold_left
    (fun s v => match cycle_gc_node_from_value (fst s) v with
                | Some c => cycle_gc_mark_reachable (length l) s c
                | None => s
                end) vs s.

Lemma mark_values_spec vs : forall N s cur,
  marking N s cur -> (forall c, 0 < mult c vs -> c ∈ l /\ reach c) ->
  exists N' s', mark_values vs (with_N N g, s) = (with_N N' g, s') /\ marking N' s' cur /\
    (forall c, 0 < mult c vs -> marked N' c) /\ (forall a, marked N a -> marked N' a) /\
    (unmarked_count N' l + length s' = unmarked_count N l + length s)%nat.
Proof.
  unfold mark_values. induction vs as [|v vs IH]; intros N s cur Hm Hvs; cbn [fold_left].
  { exists N, s. split; [done|]. split; [done|]. split; [unfold mult; simpl; lia|]. by split. }
  assert (forall c, 0 < mult c vs -> c ∈ l /\ reach c) as Hvs'.
  { intros c Hc. apply Hvs. rewrite mult_cons. pose proof (points_to_nonneg c v). lia. }
  change (fst (with_N N g, s)) with (with_N N g).
  destruct (container v) as [c|] eqn:Ev.
  - assert (0 < mult c (v :: vs)) as Hpos.
    { apply mult_pos. exists v. split; [left|done]. }
    destruct (Hvs c Hpos) as [Hcl Hcr]. destruct (proj2 (mark_dom N s cur c Hm) Hcl) as [n Hn].
    rewrite (node_from_value_owned g N v c n Ev Hn (mark_owned N s cur Hm c n Hn)).
    destruct (mark_reachable_spec N s cur c Hm Hcl Hcr) as (N1 & s1 & -> & Hm1 & Hc1 & Hmono & Hcnt & _).
    destruct (IH N1 s1 cur Hm1 Hvs') as (N' & s' & -> & Hm' & Hall & Hmono' & Hcnt').
    exists N', s'. split; [done|]. split; [done|]. split; [|split; [by auto|lia]].
    intros d (w & [->|Hw]%elem_of_cons & Ew)%mult_pos.
    + rewrite Ev in Ew. injection Ew as <-. by apply Hmono'.
    + apply Hall. apply mult_pos. by exists w.
  - rewrite (node_from_value_None g N v Ev).
    destruct (IH N s cur Hm Hvs') as (N' & s' & -> & Hm' & Hall & Hmono' & Hcnt').
    exists N', s'. split; [done|]. split; [done|]. split; [|done].
    intros d (w & [->|Hw]%elem_of_cons & Ew)%mult_pos; [congruence|].
    apply Hall. apply mult_pos. by exists w.
Qed.

(** The loop empties the stack: every round takes one node off and every
    node is put on once. *)
Lemma mark_loop_spec fuel : forall N s,
  marking N s None -> (unmarked_count N l + length s <= fuel)%nat ->
  exists N', mark_loop fuel (length l) (with_N N g, s) = (with_N N' g, []) /\
    marking N' [] None /\ forall a, marked N a -> marked N' a.
Proof.
  induction fuel as [|f IH]; intros N s Hm Hf.
  { assert (s = []) as -> by (apply nil_length_inv; lia). by exists N. }
  destruct s as [|a s]; [by exists N|]. cbn [mark_loop snd fst].
  pose proof (mk_stack _ _ _ Hm a ltac:(left)) as Ha. pose proof (mk_sound _ _ _ Hm a Ha) as Hra.
  assert (marking N s (Some a)) as Hm1.
  { destruct Hm as [Hsame Hsound Hstack Hnds Hdone]. apply NoDup_cons in Hnds as [Has Hnds].
    constructor; try done.
    - intros b Hb. apply Hstack. by right.
    - intros b c Hb Hbs Hcur. apply Hdone; [done| |done]. intros [->|?]%elem_of_cons; done. }
  change (cycle_gc_mark_children_reachable (length l) (with_N N g, s) a)
    with (mark_values (values_at g a) (with_N N g, s)).
  destruct (mark_values_spec (values_at g a) N s (Some a) Hm1) as (N1 & s1 & -> & Hm2 & Hall & Hmono & Hcnt).
  { intros c Hc. split; [by apply (Hclosed a)|by apply (reaches_step _ _ _ a)]. }
  destruct (IH N1 s1) as (N' & -> & Hm' & Hmono').
  - destruct Hm2 as [Hsame Hsound Hstack Hnds Hdone]. constructor; try done.
    intros b c Hb Hbs _ Hc. destruct (decide (b = a)) as [->|Hne]; [by apply Hall|].
    apply (Hdone b c); congruence.
  - simpl in Hf. lia.
  - exists N'. split; [done|]. split; [done|]. auto.
Qed.

Context (Hrefs : forall a n, N0 !! a = Some n -> gc_refs n = ext a).

Lemma root_pass_spec l' : forall N s,
  marking N s None -> (forall a, a ∈ l' -> a ∈ l) ->
  exists N' s',
    fold_left (fun s a => if is_owned (fst s) a
                          then if 0 <? refs_of (fst s) a then cycle_gc_mark_reachable (length l) s a else s
                          else s) l' (with_N N g, s) = (with_N N' g, s') /\
    marking N' s' None /\ (forall a, a ∈ l' -> 0 < ext a -> marked N' a) /\
    (forall a, marked N a -> marked N' a) /\
    (unmarked_count N' l + length s' = unmarked_count N l + length s)%nat.
Proof.
  induction l' as [|a l' IH]; intros N s Hm Hin; cbn [fold_left].
  { exists N, s. split; [done|]. split; [done|]. split; [|done].
    intros a Ha. by apply not_elem_of_nil in Ha. }
  cbn [fst]. rewrite is_owned_all by (by eapply mark_owned).
  destruct (proj2 (mark_dom N s None a Hm) (Hin a ltac:(left))) as [n Hn].
  rewrite bool_decide_eq_true_2 by (by exists n).
  assert (refs_of (with_N N g) a = ext a) as ->.
  { unfold refs_of. simpl. rewrite Hn. pose proof (mk_same _ _ _ Hm a) as E. rewrite Hn in E.
    simpl in E. symmetry in E. apply Hrefs in E. done. }
  assert (forall b, b ∈ l' -> b ∈ l) as Hin' by (intros b Hb; apply Hin; by right).
  destruct (Z.ltb_spec 0 (ext a)) as [Hext|Hext].
  - destruct (mark_reachable_spec N s None a Hm (Hin a ltac:(left))) as (N1 & s1 & -> & Hm1 & Ha1 & Hmono & Hcnt & _).
    { apply reaches_root; [apply Hin; left|done]. }
    destruct (IH N1 s1 Hm1 Hin') as (N' & s' & -> & Hm' & Hall & Hmono' & Hcnt').
    exists N', s'. split; [done|]. split; [done|]. split; [|split; [by auto|lia]].
    intros b [->|Hb]%elem_of_cons Hb'; [by apply Hmono'|by apply Hall].
  - destruct (IH N s Hm Hin') as (N' & s' & -> & Hm' & Hall & Hmono' & Hcnt').
    exists N', s'. split; [done|]. split; [done|]. split; [|done].
    intros b [->|Hb]%elem_of_cons Hb'; [lia|by apply Hall].
Qed.

(** After the marking phase the marked nodes are the reachable ones. *)
Lemma mark_phase_spec :
  exists N', mark_loop (length l) (length l) (root_pass (length l) (with_N N0 g) l) = (with_N N' g, []) /\
    (forall a, unmark <$> N' !! a = N0 !! a) /\ (forall a, marked N' a <-> reach a).
Proof.
  assert (marking N0 [] None) as Hm0.
  { assert (forall a, ~ marked N0 a) as Hno by (intros a (n & Hn & Hf); rewrite (Hunmarked a n Hn) in Hf; done).
    constructor; try (intros; by destruct (Hno a)).
    - intros a. destruct (N0 !! a) as [n|] eqn:E; [|done]. simpl. f_equal.
      pose proof (Hunmarked a n E). destruct n. unfold unmark. simpl in *. congruence.
    - intros a Ha. by apply not_elem_of_nil in Ha.
    - constructor. }
  destruct (root_pass_spec l N0 [] Hm0) as (N1 & s1 & E1 & Hm1 & Hall & _ & Hcnt); [done|].
  unfold root_pass. rewrite E1.
  destruct (mark_loop_spec (length l) N1 s1 Hm1) as (N' & -> & Hm' & Hmono).
  { pose proof (unmarked_count_le N0 l). simpl in Hcnt. lia. }
  exists N'. split; [done|]. split; [apply (mk_same _ _ _ Hm')|]. intros a. split; [apply (mk_sound _ _ _ Hm')|].
  induction 1 as [a Ha Hext|a c Hr IH Hc].
  - by apply Hmono, Hall.
  - apply (mk_done _ _ _ Hm' a c); [done| |done|done]. apply not_elem_of_nil.
Qed.
End Marking.

(** ** Holding, clearing and dropping *)

Lemma fold_opt_None {A} (f : CycleGc -> A -> option CycleGc) l :
  fold_left (fun acc x => match acc with None => None | Some g => f g x end) l None = None.
Proof. by induction l. Qed.

Lemma fold_opt_cons {A} (f : CycleGc -> A -> option CycleGc) x l g :
  fold_opt f (x :: l) g = match f g x with None => None | Some g' => fold_opt f l g' end.
Proof.
  unfold fold_opt. cbn [fold_left]. destruct (f g x); [done|apply fold_opt_None].
Qed.

(** Everything but the objects and the events. *)
Definition ctrl (g : CycleGc) :=
  (nodes g, head g, tail g, tracked_count g, allocations_since_collect g, threshold g,
   (is_collecting g, last_reclaimed g, total_collections g)).

Definition dec_rc (d : Z) (o : Obj) : Obj := mkObj (o_body o) (o_ref_count o - d).

Lemma dec_rc_0 (x : option Obj) : dec_rc 0 <$> x = x.
Proof. destruct x as [[b r]|]; [|done]. simpl. unfold dec_rc. simpl. by rewrite Z.sub_0_r. Qed.

Lemma dec_rc_add d e (x : option Obj) : dec_rc d <$> (dec_rc e <$> x) = dec_rc (e + d) <$> x.
Proof. destruct x as [[b r]|]; [|done]. simpl. unfold dec_rc. simpl. do 2 f_equal. lia. Qed.

(** Giving up one of several references frees nothing. *)
Lemma release_alive f g c o :
  objs g !! c = Some o -> 2 <= o_ref_count o ->
  exists g', obj_release (S f) g c = Some g' /\ ctrl g' = ctrl g /\
    forall d, objs g' !! d = dec_rc (if decide (d = c) then 1 else 0) <$> objs g !! d.
Proof.
  intros Ho Hr. cbn [obj_release]. rewrite Ho. destruct (Z.leb_spec (o_ref_count o - 1) 0); [lia|].
  eexists. split; [done|]. split; [done|]. intros d. simpl. destruct (decide (d = c)) as [->|Hne].
  - by rewrite lookup_insert_eq, Ho.
  - rewrite lookup_insert_ne by done. by rewrite dec_rc_0.
Qed.

Lemma free_values_spec f vs : forall g,
  (forall c, 0 < mult c vs -> exists o, objs g !! c = Some o /\ mult c vs < o_ref_count o) ->
  exists g', gc_free_values (S f) g vs = Some g' /\ ctrl g' = ctrl g /\
    forall c, objs g' !! c = dec_rc (mult c vs) <$> objs g !! c.
Proof.
  change (gc_free_values (S f)) with (fun g vs => fold_opt (gc_value_free (S f)) vs g).
  induction vs as [|v vs IH]; intros g Hrc.
  { exists g. split; [done|]. split; [done|]. intros c. by rewrite dec_rc_0. }
  rewrite fold_opt_cons.
  assert (exists g1, gc_value_free (S f) g v = Some g1 /\ ctrl g1 = ctrl g /\
            forall d, objs g1 !! d = dec_rc (points_to d v) <$> objs g !! d) as (g1 & -> & Hc1 & Ho1).
  { unfold gc_value_free. destruct (container v) as [c|] eqn:Ev.
    - destruct (Hrc c) as (o & Ho & Hlt); [apply mult_pos; exists v; split; [left|done]|].
      assert (points_to c v = 1) as Ep by (unfold points_to; by rewrite bool_decide_eq_true_2).
      rewrite mult_cons, Ep in Hlt. pose proof (mult_nonneg c vs).
      destruct (release_alive f g c o Ho ltac:(lia)) as (g1 & E1 & Hc1 & Ho1).
      exists g1. split; [done|]. split; [done|]. intros d. rewrite Ho1. unfold points_to. rewrite Ev.
      destruct (decide (d = c)) as [->|Hne]; [by rewrite bool_decide_eq_true_2|].
      by rewrite bool_decide_eq_false_2 by congruence.
    - eexists. split; [done|]. split; [done|]. intros d. unfold points_to. rewrite Ev. by rewrite dec_rc_0. }
  destruct (IH g1) as (g' & -> & Hc' & Ho').
  { intros c Hc. destruct (Hrc c) as (o & Ho & Hlt).
    { rewrite mult_cons. pose proof (points_to_nonneg c v). lia. }
    exists (dec_rc (points_to c v) o). rewrite Ho1, Ho. split; [done|].
    rewrite mult_cons in Hlt. simpl. lia. }
  exists g'. split; [done|]. split; [congruence|]. intros c. by rewrite Ho', Ho1, dec_rc_add, mult_cons.
Qed.

Lemma hold_spec us : forall g,
  NoDup us -> (forall u, u ∈ us -> is_Some (objs g !! u)) ->
  exists g', fold_opt obj_retain us g = Some g' /\ ctrl g' = ctrl g /\
    forall c, objs g' !! c = dec_rc (if decide (c ∈ us) then -1 else 0) <$> objs g !! c.
Proof.
  induction us as [|u us IH]; intros g Hnd Hin.
  { exists g. split; [done|]. split; [done|]. intros c.
    rewrite decide_False by apply not_elem_of_nil. by rewrite dec_rc_0. }
  apply NoDup_cons in Hnd as [Hu Hnd]. rewrite fold_opt_cons. unfold obj_retain at 1.
  destruct (Hin u ltac:(left)) as [o Ho]. rewrite Ho.
  destruct (IH (with_objs (<[u := set_ref_count (o_ref_count o + 1) o]>) g)) as (g' & -> & Hc' & Ho'); [done| |].
  { intros x Hx. simpl. rewrite lookup_insert_ne by (by intros ->). apply Hin. by right. }
  exists g'. split; [done|]. split; [done|]. intros c. rewrite Ho'. simpl.
  destruct (decide (c = u)) as [->|Hne].
  - rewrite lookup_insert_eq, decide_False, (decide_True (P := u ∈ u :: us)), Ho by (done || left).
    simpl. unfold dec_rc, set_ref_count. simpl. do 2 f_equal. lia.
  - rewrite lookup_insert_ne by done. assert (c ∈ u :: us <-> c ∈ us) as Hiff by set_solver.
    by destruct (decide (c ∈ us)), (decide (c ∈ u :: us)); try tauto.
Qed.

(** Clearing one object. *)
Definition clear_obj (u c : address) (d : Z) (o : Obj) : Obj :=
  mkObj (if decide (c = u) then cleared (o_body o) else o_body o) (o_ref_count o - d).

Lemma clear_spec f g u :
  let ov := owned_values (body_of g u) in
  (forall c, 0 < mult c ov -> exists o, objs g !! c = Some o /\ mult c ov < o_ref_count o) ->
  exists g', cycle_gc_clear_children (S f) g u = Some g' /\ ctrl g' = ctrl g /\
    forall c, objs g' !! c = clear_obj u c (mult c ov) <$> objs g !! c.
Proof.
  intros ov Hrc. unfold cycle_gc_clear_children.
  destruct (free_values_spec f ov g Hrc) as (g1 & E & Hc1 & Ho1). fold ov. rewrite E.
  eexists. split; [done|]. split; [done|]. intros c. simpl. rewrite lookup_alter.
  unfold clear_obj. destruct (decide (u = c)) as [->|Hne]; rewrite Ho1;
    destruct (objs g !! c) as [o|]; simpl; try done.
  - by rewrite decide_True by done.
  - by rewrite decide_False by done.
Qed.

Section Clearing.
(** [O] is the heap before clearing, [ov] the owned values of its objects. *)
Context (O : gmap address Obj).
Definition ov_of (u : address) : list Value :=
  match O !! u with Some o => owned_values (o_body o) | None => [] end.

Definition cleared_by (us : list address) (c : address) (o : Obj) : Obj :=
  mkObj (if decide (c ∈ us) then cleared (o_body o) else o_body o)
    (o_ref_count o - sumz (fun u => mult c (ov_of u)) us).

Lemma clear_pass_spec f todo : forall D g,
  NoDup (D ++ todo) -> (forall c, objs g !! c = cleared_by D c <$> O !! c) ->
  (forall c u, u ∈ todo -> 0 < mult c (ov_of u) ->
     exists o, O !! c = Some o /\ sumz (fun u => mult c (ov_of u)) (D ++ todo) < o_ref_count o) ->
  exists g', fold_opt (cycle_gc_clear_children (S f)) todo g = Some g' /\ ctrl g' = ctrl g /\
    forall c, objs g' !! c = cleared_by (D ++ todo) c <$> O !! c.
Proof.
  induction todo as [|u todo IH]; intros D g Hnd Hobj Hrc.
  { exists g. rewrite app_nil_r. done. }
  assert (u ∉ D) as HuD.
  { apply NoDup_app in Hnd as (_ & Hd & _). intros Hin. apply (Hd u Hin). left. }
  rewrite fold_opt_cons. assert (owned_values (body_of g u) = ov_of u) as Eov.
  { unfold body_of, ov_of. rewrite Hobj. destruct (O !! u) as [o|]; [|done]. simpl.
    by rewrite decide_False by done. }
  assert (forall c, sumz (fun u => mult c (ov_of u)) (D ++ u :: todo) =
    sumz (fun u => mult c (ov_of u)) D + mult c (ov_of u) + sumz (fun u => mult c (ov_of u)) todo) as Hsum.
  { intros c. rewrite sumz_app. simpl. lia. }
  destruct (clear_spec f g u) as (g1 & -> & Hc1 & Ho1); rewrite ?Eov in *.
  { intros c Hc. destruct (Hrc c u ltac:(left) Hc) as (o & Ho & Hlt). rewrite Hobj, Ho. eexists. split; [done|].
    simpl. rewrite Hsum in Hlt. pose proof (sumz_nonneg (fun u => mult c (ov_of u)) todo (fun u => mult_nonneg c _)).
    lia. }
  rewrite (cons_middle u D todo) in *. rewrite app_assoc in *.
  destruct (IH (D ++ [u]) g1 Hnd) as (g' & -> & Hc' & Ho').
  - intros c. rewrite Ho1, Hobj. destruct (O !! c) as [o|]; [|done]. simpl. unfold clear_obj, cleared_by. simpl.
    f_equal. f_equal; [|rewrite sumz_app; simpl; lia].
    destruct (decide (c = u)) as [->|Hne].
    + by rewrite decide_False, (decide_True (P := u ∈ D ++ [u])) by (done || set_solver).
    + assert (c ∈ D ++ [u] <-> c ∈ D) as Hiff by set_solver.
      by destruct (decide (c ∈ D)), (decide (c ∈ D ++ [u])); try tauto.
  - intros c x Hx Hc. apply (Hrc c x); [by right|done].
  - exists g'. split; [done|]. split; [congruence|done].
Qed.
End Clearing.

(** *** Dropping the last reference of an emptied object *)

Lemma free_nils f vs : forall g,
  Forall (fun v => v = VAL_NIL) vs ->
  fold_left
    (fun acc v => match acc with
                  | None => None
                  | Some g => match container v with
                              | Some c => obj_release f g c
                              | None => Some (log_events (value_free v) g)
                              end
                  end) vs (Some g) = Some g.
Proof.
  induction vs as [|v vs IH]; intros g Hv; [done|]. apply Forall_cons_iff in Hv as [-> Hv].
  cbn [fold_left container]. change (value_free VAL_NIL) with (@nil rc_event).
  assert (log_events [] g = g) as -> by (destruct g; unfold log_events; simpl; by rewrite app_nil_r).
  by apply IH.
Qed.

Definition counters (g : CycleGc) := (allocations_since_collect g, threshold g, is_collecting g, total_collections g).

Lemma drop_one f g l1 u l2 o :
  dlist g (l1 ++ u :: l2) -> tracked_count g = Z.of_nat (length (l1 ++ u :: l2)) ->
  objs g !! u = Some o -> o_ref_count o = 1 -> Forall (fun v => v = VAL_NIL) (owned_values (o_body o)) ->
  exists g', obj_release (S f) g u = Some g' /\ dlist g' (l1 ++ l2) /\
    tracked_count g' = Z.of_nat (length (l1 ++ l2)) /\ objs g' = delete u (objs g) /\
    (forall b, is_Some (nodes g' !! b) <-> b <> u /\ is_Some (nodes g !! b)) /\ counters g' = counters g.
Proof.
  intros Hd Hc Ho Hrc Hnil. cbn [obj_release]. rewrite Ho, Hrc. cbn [Z.leb Z.sub Z.compare Z.add Z.opp].
  set (g1 := with_objs (<[u := set_ref_count (1 - 1) o]>) g). simpl Z.leb. cbv iota.
  rewrite free_nils by done.
  assert (dlist g1 (l1 ++ u :: l2)) as Hd1 by (by destruct Hd).
  destruct (untrack_links g1 l1 u l2 Hd1 Hc) as (_ & _ & _ & Hcnt).
  destruct (untrack_dlist g1 l1 u l2 Hd1 Hc) as [Hnd Hh Ht Hs].
  destruct (untrack_rest g1 u) as (Eo & En & Ea & Eth & Ei & _ & Et).
  assert (u ∉ l1 ++ l2) as Hu.
  { destruct Hd as [Hnd0 _ _ _]. apply NoDup_app in Hnd0 as (_ & Hx & [Hy _]%NoDup_cons).
    intros [Hin|Hin]%elem_of_app; [by apply (Hx u Hin); left|done]. }
  assert (objs (cycle_gc_untrack g1 u) !! u = Some (set_ref_count (1 - 1) o)) as Eu
    by (rewrite Eo; apply lookup_insert_eq).
  rewrite Eu. eexists. split; [reflexivity|]. split; [|split; [exact Hcnt|]].
  { constructor; [done..|]. by apply dseg_delete. }
  split; [cbn [objs with_nodes with_objs]; rewrite Eo; apply delete_insert_eq|]. split.
  - intros b. cbn [nodes with_nodes with_objs]. destruct (decide (b = u)) as [->|Hne].
    + rewrite lookup_delete_eq. split; [by intros []|by intros []].
    + rewrite lookup_delete_ne, En by done. split; [done|by intros []].
  - unfold counters. cbn. by rewrite Ea, Eth, Ei, Et.
Qed.

Definition without (us l : list address) : list address := filter (fun a => a ∉ us) l.

Lemma without_cons u us l1 l2 :
  NoDup (l1 ++ u :: l2) -> without (u :: us) (l1 ++ u :: l2) = without us (l1 ++ l2).
Proof.
  intros Hnd. apply NoDup_app in Hnd as (_ & Hx & [Hy _]%NoDup_cons). unfold without.
  rewrite !filter_app, filter_cons, decide_False by (intros Hu; apply Hu; left).
  assert (forall l : list address, u ∉ l -> filter (fun a => a ∉ u :: us) l = filter (fun a => a ∉ us) l) as Hf.
  { induction l as [|a l IH]; intros Hl; [done|]. apply not_elem_of_cons in Hl as [Hne Hl].
    rewrite !filter_cons, IH by done. assert (a ∉ u :: us <-> a ∉ us) as Hiff.
    { rewrite not_elem_of_cons. split; [by intros []|]. intros. split; [congruence|done]. }
    by destruct (decide (a ∉ us)), (decide (a ∉ u :: us)); try tauto. }
  rewrite !Hf; [done|done|]. intros Hu. apply (Hx u Hu). left.
Qed.

Lemma drop_pass_spec f us : forall g l,
  dlist g l -> tracked_count g = Z.of_nat (length l) -> NoDup us -> (forall u, u ∈ us -> u ∈ l) ->
  (forall u, u ∈ us -> exists o, objs g !! u = Some o /\ o_ref_count o = 1 /\
     Forall (fun v => v = VAL_NIL) (owned_values (o_body o))) ->
  exists g', fold_opt (obj_release (S f)) us g = Some g' /\ dlist g' (without us l) /\
    tracked_count g' = Z.of_nat (length (without us l)) /\
    (forall c, objs g' !! c = if decide (c ∈ us) then None else objs g !! c) /\
    (forall c, is_Some (nodes g' !! c) <-> c ∉ us /\ is_Some (nodes g !! c)) /\ counters g' = counters g.
Proof.
  induction us as [|u us IH]; intros g l Hd Hc Hnd Hin Hus.
  { exists g. assert (without [] l = l) as ->.
    { unfold without. clear. induction l as [|a l IH]; [done|].
      by rewrite filter_cons_True, IH by apply not_elem_of_nil. }
    split; [done|]. split; [done|]. split; [done|].
    split; [intros c; by rewrite decide_False by apply not_elem_of_nil|].
    split; [|done]. intros c. split; [|by intros []]. split; [apply not_elem_of_nil|done]. }
  apply NoDup_cons in Hnd as [Hu Hnd]. rewrite fold_opt_cons.
  destruct (list_elem_of_split l u (Hin u ltac:(left))) as (l1 & l2 & ->).
  destruct (Hus u ltac:(left)) as (o & Ho & Hrc & Hnil).
  destruct (drop_one f g l1 u l2 o Hd Hc Ho Hrc Hnil) as (g1 & -> & Hd1 & Hc1 & Eo1 & En1 & Ect).
  rewrite without_cons by apply (dl_nodup _ _ Hd).
  destruct (IH g1 (l1 ++ l2) Hd1 Hc1 Hnd) as (g' & -> & Hd' & Hc' & Eo' & En' & Ect').
  - intros x Hx. assert (x ∈ l1 ++ u :: l2) as Hx' by (apply Hin; by right). set_solver.
  - intros x Hx. destruct (Hus x ltac:(by right)) as (ox & Hox & ?). exists ox.
    rewrite Eo1, lookup_delete_ne by (by intros ->). done.
  - exists g'. split; [done|]. split; [done|]. split; [done|]. split; [|split; [|congruence]].
    + intros c. rewrite Eo', Eo1. destruct (decide (c = u)) as [->|Hne].
      * rewrite lookup_delete_eq, (decide_True (P := u ∈ u :: us)) by left. by case_decide.
      * rewrite lookup_delete_ne by done. assert (c ∈ u :: us <-> c ∈ us) as Hiff by set_solver.
        by destruct (decide (c ∈ us)), (decide (c ∈ u :: us)); try tauto.
    + intros c. rewrite En', En1, not_elem_of_cons. tauto.
Qed.

(** ** A whole collection *)

Lemma gc_ok_counters al co re to g l ext : gc_ok g l ext -> gc_ok (with_counters al co re to g) l ext.
Proof. intros []. constructor; try done. by destruct ok_list0. Qed.

Lemma gc_ok_owned g l ext : gc_ok g l ext -> all_owned (nodes g).
Proof.
  intros Hok a n Hn. assert (a ∈ l) as Ha by (apply (ok_nodes _ _ _ Hok); by exists n).
  destruct (dseg_owned _ _ _ _ a (dl_seg _ _ (ok_list _ _ _ Hok)) Ha) as (n' & Hn' & Ho). congruence.
Qed.

(** After the first three phases the marked nodes are the reachable ones, and
    nothing but working counts and marks has changed. *)
Lemma collect_marks g l ext :
  gc_ok g l ext ->
  exists N, mark_loop (length l) (length l) (root_pass (length l) (subtract_pass (init_pass g l) l) l)
      = (with_N N g, []) /\
    (forall a, links <$> N !! a = links <$> nodes g !! a) /\ all_owned N /\
    (forall a, marked N a <-> reaches g ext l a).
Proof.
  intros Hok. pose proof (gc_ok_owned g l ext Hok) as Ho. destruct Hok as [Hlist _ Hnodes Hobjs _ Hclosed Hrefs _].
  destruct (init_pass_spec g l (nodes g) Ho) as (N1 & E1 & Ho1 & H1).
  rewrite with_N_id in E1. rewrite E1.
  destruct (subtract_pass_spec g l N1 Ho1) as (N2 & -> & Ho2 & H2).
  { intros a Ha. rewrite H1, decide_True, fmap_is_Some by done. by apply Hnodes. }
  assert (forall a, N2 !! a = (fun n => mkNode (prev n) (next n) (owner n) (ext a) false) <$> nodes g !! a) as H12.
  { intros a. rewrite H2, H1. destruct (decide (a ∈ l)) as [Ha|Ha].
    - destruct (nodes g !! a) as [n|]; [|done]. simpl. unfold start_refs, add_refs. simpl.
      do 2 f_equal. rewrite (Hrefs a Ha). lia.
    - assert (nodes g !! a = None) as ->; [|done]. apply eq_None_not_Some. by rewrite Hnodes. }
  destruct (mark_phase_spec g N2 l ext) as (N3 & E & Hsame & Hmarked).
  - apply (dl_nodup _ _ Hlist).
  - done.
  - intros a. rewrite H12, fmap_is_Some. apply Hnodes.
  - intros a n. rewrite H12. destruct (nodes g !! a); [|done]. simpl. by intros [= <-].
  - done.
  - intros a n. rewrite H12. destruct (nodes g !! a); [|done]. simpl. by intros [= <-].
  - exists N3. split; [done|]. split; [|split; [|done]].
    + intros a. specialize (Hsame a). rewrite H12 in Hsame.
      destruct (N3 !! a), (nodes g !! a); simpl in *; try done.
      injection Hsame as Ep En Eo _. unfold links. by rewrite Ep, En, Eo.
    + intros a n Hn. specialize (Hsame a). rewrite Hn in Hsame. symmetry in Hsame.
      by apply (Ho2 a (unmark n)).
Qed.

Definition survivors (g : CycleGc) (l : list address) : list address :=
  List.filter (fun a => negb (is_owned g a && negb (is_marked g a))) l.

Lemma filter_without l (p : address -> bool) :
  without (List.filter p l) l = List.filter (fun a => negb (p a)) l.
Proof.
  unfold without. assert (forall l', (forall a, a ∈ l' -> a ∈ l) ->
    filter (fun a => a ∉ List.filter p l) l' = List.filter (fun a => negb (p a)) l') as H; [|by apply H].
  induction l' as [|a l' IH]; intros Hin; [done|]. rewrite filter_cons. simpl.
  rewrite IH by (intros b Hb; apply Hin; by right).
  assert (a ∈ List.filter p l <-> p a = true) as Hiff.
  { rewrite list_elem_of_In, List.filter_In, <- list_elem_of_In. split; [by intros []|].
    intros Hp. split; [apply Hin; left|done]. }
  destruct (decide _) as [Hd|Hd], (p a); simpl; try done; exfalso; naive_solver.
Qed.

Lemma elem_List_filter (p : address -> bool) l a : a ∈ List.filter p l <-> a ∈ l /\ p a = true.
Proof. by rewrite !list_elem_of_In, List.filter_In. Qed.

Lemma NoDup_List_filter (p : address -> bool) l : NoDup l -> NoDup (List.filter p l).
Proof. rewrite !NoDup_ListNoDup. apply List.NoDup_filter. Qed.

(** The counts that the held heap leaves after the garbage gave up its
    references: enough to keep every object alive until it is dropped. *)
Section Sweep.
Context (g : CycleGc) (l : list address) (ext : address -> Z) (N : gmap address CycleGcNode).
Context (Hok : gc_ok g l ext).
Context (Hlinks : forall a, links <$> N !! a = links <$> nodes g !! a).
Context (Hown : all_owned N).
Context (Hmark : forall a, marked N a <-> reaches g ext l a).

Notation us := (unreachable_nodes (with_N N g) l).
Notation rest := (survivors (with_N N g) l).

Lemma sweep_test a : a ∈ l -> is_owned (with_N N g) a && negb (is_marked (with_N N g) a) = true <-> ~ reaches g ext l a.
Proof.
  intros Ha. rewrite <- Hmark, is_owned_all by done.
  assert (is_Some (N !! a)) as [n Hn].
  { apply (ok_nodes _ _ _ Hok) in Ha as [n Hn]. specialize (Hlinks a). rewrite Hn in Hlinks.
    destruct (N !! a); [by eexists|done]. }
  rewrite bool_decide_eq_true_2 by (by exists n). unfold is_marked, marked. simpl. rewrite Hn.
  destruct (reachable_flag n) eqn:E; simpl; split; try done.
  - intros Hx. destruct Hx. by exists n.
  - intros _ (n' & [= <-] & ?). congruence.
Qed.

Lemma garbage_elem a : a ∈ us <-> a ∈ l /\ ~ reaches g ext l a.
Proof.
  unfold unreachable_nodes. rewrite elem_List_filter. split; intros [Ha H]; (split; [done|]); by apply sweep_test.
Qed.

Lemma survivor_elem a : a ∈ rest <-> a ∈ l /\ reaches g ext l a.
Proof.
  unfold survivors. rewrite elem_List_filter. split; intros [Ha H]; (split; [done|]).
  - apply negb_true_iff in H. pose proof (sweep_test a Ha) as Ht. apply Hmark.
    destruct (decide (marked N a)) as [|Hn]; [done|]. rewrite <- Hmark, H in Ht.
    destruct Ht as [_ Ht]. by specialize (Ht Hn).
  - apply negb_true_iff. pose proof (sweep_test a Ha) as Ht. apply not_true_iff_false. tauto.
Qed.

Lemma garbage_nodup : NoDup us.
Proof. apply NoDup_List_filter, (dl_nodup _ _ (ok_list _ _ _ Hok)). Qed.

Definition from_garbage (c : address) : Z := sumz (fun u => mult c (values_at g u)) us.
Definition from_survivors (c : address) : Z := sumz (fun u => mult c (values_at g u)) rest.

Lemma indegree_split c : indegree g l c = from_garbage c + from_survivors c.
Proof. apply sumz_split. Qed.

Lemma garbage_no_refs c : c ∈ us -> ext c = 0 /\ from_survivors c = 0.
Proof.
  intros [Hc Hn]%garbage_elem. split.
  - pose proof (ok_ext _ _ _ Hok c). destruct (Z.eq_dec (ext c) 0); [done|].
    destruct Hn. apply reaches_root; [done|lia].
  - apply sumz_zero. intros b [Hb Hr]%survivor_elem. pose proof (mult_nonneg c (values_at g b)).
    destruct (Z.eq_dec (mult c (values_at g b)) 0); [done|]. destruct Hn.
    apply (reaches_step _ _ _ b); [done|lia].
Qed.

Lemma survivor_kept c : reaches g ext l c -> 0 < ext c + from_survivors c.
Proof.
  intros Hr. pose proof (ok_ext _ _ _ Hok c) as He.
  assert (0 <= from_survivors c) as Hf by (apply sumz_nonneg; intros; apply mult_nonneg).
  destruct Hr as [c Hc Hx|a c Ha Hm]; [lia|].
  assert (a ∈ rest) as Har.
  { apply survivor_elem. split; [|done]. destruct Ha as [a Ha _|a' a _ Ha]; [done|].
    by apply (ok_closed _ _ _ Hok a'). }
  pose proof (sumz_elem (fun u => mult c (values_at g u)) rest a (fun u => mult_nonneg c _) Har) as Hle.
  simpl in Hle. unfold from_survivors in *. lia.
Qed.

(** The reference count of an object while the garbage is held. *)
Lemma held_bound c :
  c ∈ l -> from_garbage c < cycle_gc_obj_ref_count g c + (if decide (c ∈ us) then 1 else 0).
Proof.
  intros Hc. rewrite (ok_refs _ _ _ Hok c Hc), indegree_split. pose proof (ok_ext _ _ _ Hok c).
  assert (0 <= from_survivors c) by (apply sumz_nonneg; intros; apply mult_nonneg).
  case_decide as Hu; [lia|]. assert (reaches g ext l c) as Hr; [|pose proof (survivor_kept c Hr); lia].
  apply Hmark. destruct (decide (marked N c)) as [|Hn]; [done|]. destruct Hu. apply garbage_elem.
  split; [done|]. by rewrite <- Hmark.
Qed.

Lemma owned_sum c vs_of :
  (forall u, u ∈ us -> vs_of u = owned_values (body_of g u)) ->
  sumz (fun u => mult c (vs_of u)) us = from_garbage c.
Proof.
  intros H. apply sumz_ext. intros u Hu. rewrite (H u Hu). apply owned_scanned, (ok_bodies _ _ _ Hok).
Qed.

(** The three last phases free the garbage and nothing else. *)
Lemma sweep_spec f :
  exists g1 g2 g3,
    fold_opt obj_retain us (with_N N g) = Some g1 /\
    fold_opt (cycle_gc_clear_children (S f)) us g1 = Some g2 /\
    fold_opt (obj_release (S f)) us g2 = Some g3 /\
    dlist g3 rest /\ tracked_count g3 = Z.of_nat (length rest) /\
    (forall c, is_Some (nodes g3 !! c) <-> c ∈ rest) /\
    (forall c, objs g3 !! c = if decide (c ∈ us) then None else dec_rc (from_garbage c) <$> objs g !! c) /\
    counters g3 = counters g.
Proof.
  pose proof garbage_nodup as Hnd. pose proof Hok as [Hlist Hcnt Hnodes Hobjs Hbodies Hclosed Hrefs _].
  destruct (hold_spec us (with_N N g) Hnd) as (g1 & E1 & Hc1 & Ho1).
  { intros u [Hu _]%garbage_elem. by apply Hobjs. }
  assert (forall u, ov_of (objs g1) u = owned_values (body_of g u)) as Hov.
  { intros u. unfold ov_of, body_of. rewrite Ho1. simpl. by destruct (objs g !! u). }
  assert (forall c, sumz (fun u => mult c (ov_of (objs g1) u)) us = from_garbage c) as Hsum
    by (intros c; apply owned_sum; intros; apply Hov).
  destruct (clear_pass_spec (objs g1) f us [] g1) as (g2 & E2 & Hc2 & Ho2); [done| | |].
  { intros c. destruct (objs g1 !! c) as [[b r]|]; [|done]. simpl. unfold cleared_by.
    rewrite decide_False by apply not_elem_of_nil. simpl. by rewrite Z.sub_0_r. }
  { intros c u Hu Hm. rewrite app_nil_l, Hsum. rewrite Hov, owned_scanned in Hm by apply Hbodies.
    pose proof (Hclosed u c Hm) as Hc. pose proof (held_bound c Hc) as Hb.
    unfold cycle_gc_obj_ref_count in Hb. rewrite Ho1. apply Hobjs in Hc as [o Ho]. rewrite Ho in *. simpl.
    rewrite Ho. eexists. split; [done|]. simpl. destruct (decide (c ∈ us)); lia. }
  rewrite app_nil_l in *.
  injection Hc2 as En2 Eh2 Et2 Etc2 Ea2 Eth2 Ei2 _ Eto2. injection Hc1 as En1 Eh1 Et1 Etc1 Ea1 Eth1 Ei1 _ Eto1.
  destruct (drop_pass_spec f us g2 l) as (g3 & E3 & Hd3 & Htc3 & Ho3 & Hn3 & Hct3); [| |done| | |].
  - destruct Hlist as [Hl1 Hl2 Hl3 Hl4]. constructor; [done|by rewrite Eh2, Eh1|by rewrite Et2, Et1|].
    rewrite En2, En1. simpl. by apply (dseg_links (nodes g)).
  - by rewrite Etc2, Etc1.
  - intros u [Hu _]%garbage_elem. done.
  - intros u Hu. pose proof Hu as [Hul _]%garbage_elem. rewrite Ho2, Ho1. simpl.
    pose proof (Hrefs u Hul) as Hr. unfold cycle_gc_obj_ref_count in Hr.
    apply Hobjs in Hul as [o Ho]. rewrite Ho in *. simpl. eexists. split; [done|]. simpl.
    rewrite Hsum. destruct (decide (u ∈ us)); [|done]. split; [|apply cleared_owned].
    rewrite Hr, indegree_split. destruct (garbage_no_refs u Hu) as [-> ->]. lia.
  - exists g1, g2, g3. split; [done|]. split; [done|]. split; [done|].
    unfold unreachable_nodes in Hd3, Htc3. rewrite filter_without in Hd3, Htc3.
    split; [done|]. split; [done|]. split; [|split].
    + intros c. rewrite Hn3, En2, En1. simpl.
      assert (is_Some (N !! c) <-> c ∈ l) as ->.
      { rewrite <- Hnodes. specialize (Hlinks c). destruct (N !! c), (nodes g !! c); naive_solver. }
      rewrite garbage_elem, survivor_elem. split; [|intros [? ?]; tauto].
      intros [Hx Hc]. split; [done|]. apply Hmark. destruct (decide (marked N c)) as [|Hm]; [done|].
      destruct Hx. split; [done|]. by rewrite <- Hmark.
    + intros c. rewrite Ho3. destruct (decide (c ∈ us)) as [|Hu]; [done|].
      rewrite Ho2, Ho1. simpl. destruct (objs g !! c) as [o|]; [|done]. simpl. unfold cleared_by, dec_rc. simpl.
      rewrite Hsum. destruct (decide (c ∈ us)); [done|]. do 2 f_equal. lia.
    + rewrite Hct3. unfold counters. by rewrite Ea2, Eth2, Ei2, Eto2, Ea1, Eth1, Ei1, Eto1.
Qed.
End Sweep.

Lemma filter_partition_length (p : address -> bool) l :
  (length (List.filter p l) + length (List.filter (fun a => negb (p a)) l) = length l)%nat.
Proof. induction l as [|a l IH]; [done|]. simpl. destruct (p a); simpl; lia. Qed.

(** The swept heap satisfies the invariant again. *)
Lemma sweep_ok g l ext N g3 :
  gc_ok g l ext -> (forall a, links <$> N !! a = links <$> nodes g !! a) -> all_owned N ->
  (forall a, marked N a <-> reaches g ext l a) ->
  let rest := survivors (with_N N g) l in
  let us := unreachable_nodes (with_N N g) l in
  dlist g3 rest -> tracked_count g3 = Z.of_nat (length rest) ->
  (forall c, is_Some (nodes g3 !! c) <-> c ∈ rest) ->
  (forall c, objs g3 !! c = if decide (c ∈ us) then None else dec_rc (from_garbage g l N c) <$> objs g !! c) ->
  gc_ok g3 rest ext /\ (forall a, a ∈ rest -> body_of g3 a = body_of g a).
Proof.
  intros Hok Hlinks Hown Hmark rest us Hd Hc Hn Ho.
  assert (forall a, a ∈ rest <-> a ∈ l /\ reaches g ext l a) as Hrest by (intros a; by apply survivor_elem).
  assert (forall a, a ∈ rest -> a ∉ us) as Hdisj.
  { intros a [_ Hr]%Hrest Hu. by apply (garbage_elem g l ext N Hok Hlinks Hown Hmark) in Hu as [_ ?]. }
  assert (forall a, a ∈ l -> a ∉ us -> a ∈ rest) as Hcover.
  { intros a Ha Hu. apply Hrest. split; [done|]. apply Hmark. destruct (decide (marked N a)) as [|Hm]; [done|].
    destruct Hu. apply (garbage_elem g l ext N Hok Hlinks Hown Hmark). split; [done|]. by rewrite <- Hmark. }
  assert (forall a, a ∈ rest -> body_of g3 a = body_of g a) as Hbody.
  { intros a Ha. unfold body_of. rewrite Ho, decide_False by (by apply Hdisj). by destruct (objs g !! a). }
  assert (forall a, a ∉ rest -> body_of g3 a = Unboxed 0) as Hgone.
  { intros a Ha. unfold body_of. rewrite Ho. destruct (decide (a ∈ us)) as [|Hu]; [done|].
    destruct (objs g !! a) as [o|] eqn:E; [|done]. destruct Ha. apply Hcover; [|done].
    apply (ok_objs _ _ _ Hok). by exists o. }
  split; [|done]. constructor; try done.
  - intros a. rewrite Ho. destruct (decide (a ∈ us)) as [Hu|Hu].
    + split; [by intros []|]. intros Ha. by destruct (Hdisj a Ha).
    + rewrite fmap_is_Some, (ok_objs _ _ _ Hok). split; [by intros; apply Hcover|by intros [? _]%Hrest].
  - intros a. destruct (decide (a ∈ rest)) as [Ha|Ha]; [rewrite Hbody by done; apply (ok_bodies _ _ _ Hok)|].
    by rewrite Hgone.
  - intros a c Hm. unfold values_at in Hm. destruct (decide (a ∈ rest)) as [Ha|Ha].
    + rewrite Hbody in Hm by done. apply Hrest. pose proof (ok_closed _ _ _ Hok a c Hm). split; [done|].
      apply (reaches_step _ _ _ a); [by apply Hrest|done].
    + rewrite Hgone in Hm by done. unfold mult in Hm. simpl in Hm. lia.
  - intros a Ha. pose proof (proj1 (proj1 (Hrest a) Ha)) as Hal. pose proof (ok_refs _ _ _ Hok a Hal) as Hr.
    unfold cycle_gc_obj_ref_count in *. rewrite Ho, decide_False by (by apply Hdisj).
    assert (indegree g3 rest a = from_survivors g l N a) as ->.
    { apply sumz_ext. intros b Hb. unfold values_at. by rewrite Hbody. }
    rewrite (indegree_split g l N) in Hr. apply (ok_objs _ _ _ Hok) in Hal as [o Eo]. rewrite Eo in *. simpl in *. lia.
  - apply (ok_ext _ _ _ Hok).
Qed.

Lemma reaches_values g1 g2 ext l a :
  (forall b, values_at g1 b = values_at g2 b) -> reaches g1 ext l a -> reaches g2 ext l a.
Proof.
  intros Hv. induction 1 as [a Ha Hx|a c Hr IH Hm]; [by apply reaches_root|].
  apply (reaches_step _ _ _ a); [done|]. by rewrite <- Hv.
Qed.

Lemma collect_spec g l ext :
  gc_ok g l ext -> is_collecting g = false ->
  exists g' l', vm_gc_collect g = Some (g', Z.of_nat (length l) - Z.of_nat (length l')) /\
    gc_ok g' l' ext /\ is_collecting g' = false /\
    (forall a, a ∈ l' <-> a ∈ l /\ reaches g ext l a) /\
    (forall a, a ∈ l' -> body_of g' a = body_of g a) /\
    (l <> [] -> last_reclaimed g' = Z.of_nat (length l) - Z.of_nat (length l') /\
      allocations_since_collect g' = 0 /\ total_collections g' = total_collections g + 1) /\
    threshold g' = threshold g.
Proof.
  intros Hok Hidle. unfold vm_gc_collect. rewrite Hidle, (ok_count _ _ _ Hok).
  destruct l as [|x l0] eqn:El.
  { exists g, []. split; [done|]. split; [done|]. split; [done|].
    split; [|done]. intros a. split; [|by intros []]. intros Ha. by apply not_elem_of_nil in Ha. }
  rewrite <- El in *. assert (length l <> 0)%nat as Hlen by (rewrite El; simpl; lia).
  destruct (Z.leb_spec (Z.of_nat (length l)) 0); [lia|].
  set (g0 := with_counters (allocations_since_collect g) true 0 (total_collections g + 1) g).
  pose proof (gc_ok_counters (allocations_since_collect g) true 0 (total_collections g + 1) g l ext Hok) as Hok0.
  fold g0 in Hok0.
  assert (cycle_gc_snapshot_nodes g0 (head g0) (Z.to_nat (tracked_count g0)) = l) as Hsnap.
  { destruct Hok0 as [[_ Hh _ Hs] Hc _ _ _ _ _ _]. rewrite Hh, Hc, Nat2Z.id.
    assert (List.hd_error l = first_or l None) as -> by (by destruct l).
    by eapply snapshot_dseg. }
  change (tracked_count g) with (tracked_count g0).
  rewrite <- (ok_count _ _ _ Hok), Hsnap. cbv zeta.
  destruct (Nat.eqb_spec (length l) 0); [lia|].
  destruct (collect_marks g0 l ext Hok0) as (N & -> & Hlinks & Hown & Hmark).
  destruct (sweep_spec g0 l ext N Hok0 Hlinks Hown Hmark (size (objs g0)))
    as (g1 & g2 & g3 & -> & -> & -> & Hd3 & Hc3 & Hn3 & Ho3 & Hct3).
  destruct (sweep_ok g0 l ext N g3 Hok0 Hlinks Hown Hmark Hd3 Hc3 Hn3 Ho3) as [Hok3 Hb3].
  assert (length (unreachable_nodes (with_N N g0) l) + length (survivors (with_N N g0) l) = length l)%nat as Hpl
    by exact (filter_partition_length _ l).
  assert (Z.of_nat (length (unreachable_nodes (with_N N g0) l)) =
    Z.of_nat (length l) - Z.of_nat (length (survivors (with_N N g0) l))) as En by lia.
  rewrite En, (ok_count _ _ _ Hok). eexists _, (survivors (with_N N g0) l). split; [reflexivity|].
  split; [by apply gc_ok_counters|]. split; [done|].
  split.
  { intros a. rewrite (survivor_elem g0 l ext N Hok0 Hlinks Hown Hmark).
    split; (intros [Ha Hr]; split; [done|]); [by apply (reaches_values g0 g)|by apply (reaches_values g g0)]. }
  split; [done|].
  injection Hct3 as Ea3 Eth3 Ei3 Et3. split; [|done]. intros _.
  cbn [last_reclaimed allocations_since_collect total_collections with_counters].
  split; [lia|]. split; [done|]. by rewrite Et3.
Qed.

(** ** Creating objects *)

Definition update (ext : address -> Z) (a : address) (z : Z) : address -> Z :=
  fun b => if decide (b = a) then z else ext b.

(** A new object with no references of its own, held once from outside. *)
Lemma insert_object_ok g l ext a b :
  gc_ok g l ext -> a ∉ l -> body_ok b -> (forall c, mult c (scanned_values b) = 0) ->
  gc_ok (cycle_gc_track (with_nodes (<[a := cycle_gc_node_init]>) (with_objs (<[a := mkObj b 1]>) g)) a)
    (l ++ [a]) (update ext a 1).
Proof.
  intros Hok Ha Hb Hm. destruct Hok as [Hlist Hcnt Hnodes Hobjs Hbodies Hclosed Hrefs Hext].
  set (g1 := with_nodes (<[a := cycle_gc_node_init]>) (with_objs (<[a := mkObj b 1]>) g)).
  assert (dlist g1 l) as Hd1.
  { destruct Hlist as [H1 H2 H3 H4]. constructor; [done..|]. eapply dseg_links; [|exact H4].
    intros x Hx. simpl. by rewrite lookup_insert_ne by (by intros ->). }
  destruct (track_dlist g1 l a Hd1 Ha) as (Hd2 & Hc2 & Ho2 & _ & Hn2); [apply lookup_insert_eq|done|].
  assert (forall x, body_of (cycle_gc_track g1 a) x = if decide (x = a) then b else body_of g x) as Hbody.
  { intros x. unfold body_of. rewrite Ho2. simpl. destruct (decide (x = a)) as [->|Hne].
    - by rewrite lookup_insert_eq. - by rewrite lookup_insert_ne by done. }
  assert (forall x c, mult c (values_at (cycle_gc_track g1 a) x) = if decide (x = a) then 0 else mult c (values_at g x)) as Hval.
  { intros x c. unfold values_at. rewrite Hbody. case_decide; [apply Hm|done]. }
  constructor; [done|done|..].
  - intros x. rewrite Hn2. simpl. destruct (decide (x = a)) as [->|Hne].
    + rewrite lookup_insert_eq. split; [set_solver|by eexists].
    + rewrite lookup_insert_ne, Hnodes by done. set_solver.
  - intros x. rewrite Ho2. simpl. destruct (decide (x = a)) as [->|Hne].
    + rewrite lookup_insert_eq. split; [set_solver|by eexists].
    + rewrite lookup_insert_ne, Hobjs by done. set_solver.
  - intros x. rewrite Hbody. by case_decide.
  - intros x c. rewrite Hval. case_decide; [lia|]. intros Hx. apply Hclosed in Hx. set_solver.
  - intros x Hx. unfold cycle_gc_obj_ref_count, update. rewrite Ho2. simpl.
    assert (indegree (cycle_gc_track g1 a) (l ++ [a]) x = indegree g l x) as ->.
    { unfold indegree. rewrite sumz_app. simpl. rewrite Hval, decide_True by done.
      rewrite (sumz_ext _ (fun b => mult x (values_at g b)) l); [lia|].
      intros y Hy. rewrite Hval, decide_False; [done|by intros ->]. }
    destruct (decide (x = a)) as [->|Hne].
    + rewrite lookup_insert_eq. simpl. assert (indegree g l a = 0) as ->; [|lia].
      apply sumz_zero. intros y Hy. pose proof (mult_nonneg a (values_at g y)).
      destruct (Z.eq_dec (mult a (values_at g y)) 0); [done|]. destruct Ha. apply (Hclosed y). lia.
    + rewrite lookup_insert_ne by done. apply Hrefs. set_solver.
  - intros x. unfold update. case_decide; [lia|apply Hext].
Qed.

Lemma track_idle g a : is_collecting (cycle_gc_track g a) = is_collecting g.
Proof.
  unfold cycle_gc_track. destruct (nodes g !! a) as [n|]; [|done]. destruct (owner n); [done|].
  simpl. by destruct (tail g).
Qed.

Lemma create_ok g l ext a b :
  gc_ok g l ext -> is_collecting g = false -> a ∉ l -> body_ok b -> (forall c, mult c (scanned_values b) = 0) ->
  exists g' l', obj_create g a b = Some g' /\ gc_ok g' l' (update ext a 1) /\ is_collecting g' = false /\
    a ∈ l' /\ body_of g' a = b /\ (forall x, x ∈ l' -> x = a \/ x ∈ l) /\
    (forall x, x ∈ l -> reaches g ext l x -> x ∈ l' /\ body_of g' x = body_of g x).
Proof.
  intros Hok Hidle Ha Hb Hm. unfold obj_create, vm_gc_maybe_collect.
  set (g0 := with_nodes (<[a := cycle_gc_node_init]>) (with_objs (<[a := mkObj b 1]>) g)).
  pose proof (insert_object_ok g l ext a b Hok Ha Hb Hm) as Hok1. fold g0 in Hok1.
  set (g1 := cycle_gc_track g0 a) in *.
  assert (is_collecting g1 = false) as Hid1 by (unfold g1; by rewrite track_idle).
  assert (objs g1 = <[a := mkObj b 1]> (objs g)) as Eo.
  { unfold g1, cycle_gc_track. simpl. rewrite lookup_insert_eq. simpl. by destruct (tail g). }
  assert (body_of g1 a = b) as Hba by (unfold body_of; by rewrite Eo, lookup_insert_eq).
  assert (forall x, x ∈ l -> body_of g1 x = body_of g x) as Hbx.
  { intros x Hx. unfold body_of. by rewrite Eo, lookup_insert_ne by (by intros ->). }
  assert (a ∈ l ++ [a]) as Hal by set_solver.
  assert (exists g' l', (if threshold g1 <=? 0 then Some g1 else
            if threshold g1 <=? allocations_since_collect g1 then
              match vm_gc_collect g1 with Some (g, _) => Some g | None => None end else Some g1) = Some g' /\
          gc_ok g' l' (update ext a 1) /\ is_collecting g' = false /\
          (forall x, x ∈ l' -> x ∈ l ++ [a] /\ body_of g' x = body_of g1 x) /\
          (forall x, x ∈ l ++ [a] -> reaches g1 (update ext a 1) (l ++ [a]) x -> x ∈ l'))
    as (g' & l' & -> & Hok' & Hid' & Hsub & Hkeep).
  { destruct (threshold g1 <=? 0); [by exists g1, (l ++ [a])|].
    destruct (threshold g1 <=? allocations_since_collect g1); [|by exists g1, (l ++ [a])].
    destruct (collect_spec g1 (l ++ [a]) (update ext a 1) Hok1 Hid1) as (g' & l' & -> & Hok' & Hid' & Hl' & Hb' & _).
    exists g', l'. split; [done|]. split; [done|]. split; [done|]. split.
    - intros x Hx. split; [by apply Hl'|by apply Hb'].
    - intros x Hx Hr. by apply Hl'. }
  assert (a ∈ l') as Hal'.
  { apply Hkeep; [done|]. apply reaches_root; [done|]. unfold update. rewrite decide_True by done. lia. }
  exists g', l'. split; [done|]. split; [done|]. split; [done|]. split; [done|].
  split; [by rewrite (proj2 (Hsub a Hal'))|]. split; [intros x Hx; apply Hsub in Hx as [Hx _]; set_solver|].
  intros x Hx Hr. assert (x ∈ l') as Hx'.
  { apply Hkeep; [set_solver|]. clear Hsub Hkeep. induction Hr as [y Hy Hext|y c Hr IH Hmul].
    - apply reaches_root; [set_solver|]. unfold update. rewrite decide_False; [done|by intros ->].
    - assert (y ∈ l) as Hyl by (destruct Hr as [? ? _|? ? _ Hz]; [done|by apply (ok_closed _ _ _ Hok _ _ Hz)]).
      apply (reaches_step _ _ _ y); [by apply IH|]. unfold values_at. by rewrite Hbx. }
  split; [done|]. rewrite (proj2 (Hsub x Hx')). by apply Hbx.
Qed.

(** ** Properties *)

Lemma reaches_in g l ext a : gc_ok g l ext -> reaches g ext l a -> a ∈ l.
Proof. intros Hok [? ? _|? ? _ Hm]; [done|by apply (ok_closed _ _ _ Hok _ _ Hm)]. Qed.

(** What is reachable stays so when the survivors keep their contents. *)
Lemma reaches_survive g g' l l' ext a :
  gc_ok g l ext -> (forall x, x ∈ l' <-> x ∈ l /\ reaches g ext l x) ->
  (forall x, x ∈ l' -> body_of g' x = body_of g x) ->
  reaches g ext l a -> reaches g' ext l' a.
Proof.
  intros Hok Hl Hb Hr. induction Hr as [a Ha Hx|a c Hr IH Hm].
  - apply reaches_root; [|done]. apply Hl. split; [done|by apply reaches_root].
  - apply (reaches_step _ _ _ a); [done|]. unfold values_at. rewrite Hb; [done|].
    apply Hl. split; [by apply (reaches_in g l ext)|done].
Qed.

(** Two collections in a row. *)
Lemma collect_twice g l ext :
  gc_ok g l ext -> is_collecting g = false ->
  exists g1 n g2, vm_gc_collect g = Some (g1, n) /\ vm_gc_collect g1 = Some (g2, 0) /\
    forall a, is_Some (objs g2 !! a) <-> is_Some (objs g1 !! a).
Proof.
  intros Hok Hid. destruct (collect_spec g l ext Hok Hid) as (g1 & l1 & E1 & Hok1 & Hid1 & Hl1 & Hb1 & _).
  destruct (collect_spec g1 l1 ext Hok1 Hid1) as (g2 & l2 & E2 & Hok2 & Hid2 & Hl2 & Hb2 & _).
  assert (forall a, a ∈ l2 <-> a ∈ l1) as Heq.
  { intros a. rewrite Hl2. split; [by intros [? _]|]. intros Ha. split; [done|].
    apply (reaches_survive g g1 l l1 ext); [done..|]. by apply Hl1. }
  assert (length l2 = length l1) as Elen.
  { apply Permutation_length, NoDup_Permutation; [apply (ok_list _ _ _ Hok2)|apply (ok_list _ _ _ Hok1)|done]. }
  rewrite Elen, Z.sub_diag in E2. exists g1, (Z.of_nat (length l) - Z.of_nat (length l1)), g2.
  split; [done|]. split; [done|]. intros a. by rewrite (ok_objs _ _ _ Hok2), (ok_objs _ _ _ Hok1).
Qed.

Lemma mult_replicate c n v : container v = None -> mult c (replicate n v) = 0.
Proof.
  intros Hv. induction n as [|n IH]; [done|]. simpl replicate. rewrite mult_cons, IH.
  unfold points_to. by rewrite Hv.
Qed.


(** A collection is complete: a second one right after it frees nothing. *)
Theorem vm_gc_collect_idempotent (g : CycleGc) (l : list address) (ext : address -> Z) :
  gc_ok g l ext -> is_collecting g = false ->
  exists g1 n g2, vm_gc_collect g = Some (g1, n) /\ vm_gc_collect g1 = Some (g2, 0) /\
    forall a, is_Some (objs g2 !! a) <-> is_Some (objs g1 !! a).
Proof. apply collect_twice. Qed.


(** The node list behaves as a sequence: tracking a fresh node appends
    it, untracking a node removes it wherever it is, the count is the length,
    and a snapshot lists the nodes in the order they were tracked. *)
Theorem gc_node_list_correct (g : CycleGc) (l : list address) :
  dlist g l -> tracked_count g = Z.of_nat (length l) ->
  cycle_gc_snapshot_nodes g (head g) (Z.to_nat (tracked_count g)) = l /\
  (forall a, a ∉ l -> nodes g !! a = Some cycle_gc_node_init ->
    dlist (cycle_gc_track g a) (l ++ [a]) /\
    tracked_count (cycle_gc_track g a) = Z.of_nat (length (l ++ [a]))) /\
  (forall l1 a l2, l = l1 ++ a :: l2 ->
    dlist (cycle_gc_untrack g a) (l1 ++ l2) /\
    tracked_count (cycle_gc_untrack g a) = Z.of_nat (length (l1 ++ l2))).
Proof.
  intros Hd Hc. split.
  { destruct Hd as [_ Hh _ Hs]. rewrite Hh, Hc, Nat2Z.id.
    assert (List.hd_error l = first_or l None) as -> by (by destruct l).
    by eapply snapshot_dseg. }
  split.
  - intros a Ha Hn. by destruct (track_dlist g l a Hd Ha Hn Hc) as (? & ? & _).
  - intros l1 a l2 ->. split; [by apply untrack_dlist|].
    by destruct (untrack_links g l1 a l2 Hd Hc) as (_ & _ & _ & ?).
Qed.

(** A heap with an array at 1, held from outside, that refers to a record at
    2, and two arrays at 3 and 4 that refer to each other only. *)
Definition sample_heap : CycleGc :=
  mkGc (list_to_map [(1%nat, mkObj (Boxed [VAL_RECORD (Some 2%nat); VAL_INT 7]) 1); (2%nat, mkObj (Fields [VAL_NIL]) 1);
                     (3%nat, mkObj (Boxed [VAL_ARRAY (Some 4%nat)]) 1); (4%nat, mkObj (Boxed [VAL_ARRAY (Some 3%nat)]) 1)])
    (list_to_map [(1%nat, mkNode None (Some 2%nat) true 0 false); (2%nat, mkNode (Some 1%nat) (Some 3%nat) true 0 false);
                  (3%nat, mkNode (Some 2%nat) (Some 4%nat) true 0 false); (4%nat, mkNode (Some 3%nat) None true 0 false)])
    (Some 1%nat) (Some 4%nat) 4 4 256 false 0 0 [].
Definition sample_list : list address := [1; 2; 3; 4]%nat.
Definition sample_ext (a : address) : Z := if decide (a = 1%nat) then 1 else 0.

Lemma sample_dlist : dlist sample_heap sample_list.
Proof.
  constructor; [|done|done|].
  - apply (bool_decide_unpack _). by vm_compute.
  - repeat (split; [eexists; by repeat split|]). done.
Qed.

Lemma sample_lookup {A} (m : gmap address A) a :
  dom m = list_to_set sample_list -> is_Some (m !! a) <-> a ∈ sample_list.
Proof. intros Hm. rewrite <- elem_of_dom, Hm. by rewrite elem_of_list_to_set. Qed.

Lemma sample_ok : gc_ok sample_heap sample_list sample_ext.
Proof.
  assert (forall a, is_Some (objs sample_heap !! a) <-> a ∈ sample_list) as Ho
    by (intros a; apply sample_lookup; by vm_compute).
  assert (forall (P : address -> Prop), (forall a, a ∉ sample_list -> P a) -> P 1%nat -> P 2%nat -> P 3%nat -> P 4%nat -> forall a, P a)
    as Hcase.
  { intros P H0 H1 H2 H3 H4 a. destruct (decide (a ∈ sample_list)) as [Ha|Ha]; [|by apply H0].
    unfold sample_list in Ha. set_unfold in Ha. by destruct Ha as [->|[->|[->|[->|[]]]]]. }
  assert (forall a, a ∉ sample_list -> body_of sample_heap a = Unboxed 0) as Hnone.
  { intros a Ha. unfold body_of. rewrite <- Ho in Ha. apply eq_None_not_Some in Ha. by rewrite Ha. }
  constructor.
  - exact sample_dlist.
  - done.
  - intros a. apply sample_lookup. by vm_compute.
  - exact Ho.
  - apply Hcase; [|done..]. intros a Ha. by rewrite Hnone.
  - apply (Hcase (fun a => forall c, _ -> _)).
    + intros a Ha c. unfold values_at. rewrite Hnone by done. cbn. lia.
    + intros c (v & Hv & E)%mult_pos. unfold values_at in Hv. cbn in Hv. set_unfold in Hv.
      destruct Hv as [->|[->|[]]]; simplify_eq/=. set_solver.
    + intros c (v & Hv & E)%mult_pos. unfold values_at in Hv. cbn in Hv. set_unfold in Hv. by destruct Hv as [->|[]].
    + intros c (v & Hv & E)%mult_pos. unfold values_at in Hv. cbn in Hv. set_unfold in Hv.
      destruct Hv as [->|[]]; simplify_eq/=. set_solver.
    + intros c (v & Hv & E)%mult_pos. unfold values_at in Hv. cbn in Hv. set_unfold in Hv.
      destruct Hv as [->|[]]; simplify_eq/=. set_solver.
  - intros a Ha. unfold sample_list in Ha. set_unfold in Ha. by destruct Ha as [->|[->|[->|[->|[]]]]].
  - intros a. unfold sample_ext. case_decide; lia.
Qed.


Lemma vm_gc_collect_idempotent_witness :
  exists g1 n g2, vm_gc_collect sample_heap = Some (g1, n) /\ vm_gc_collect g1 = Some (g2, 0) /\
    forall a, is_Some (objs g2 !! a) <-> is_Some (objs g1 !! a).
Proof. exact (vm_gc_collect_idempotent sample_heap sample_list sample_ext sample_ok eq_refl). Defined.


Lemma gc_node_list_correct_witness :
  cycle_gc_snapshot_nodes sample_heap (head sample_heap) 4 = sample_list /\
  dlist (cycle_gc_untrack sample_heap 3%nat) [1; 2; 4]%nat.
Proof.
  split; [exact (proj1 (gc_node_list_correct sample_heap sample_list sample_dlist eq_refl))|].
  refine (proj1 (proj2 (proj2 (gc_node_list_correct sample_heap sample_list sample_dlist eq_refl)) [1; 2]%nat 3%nat [4]%nat _)).
  reflexivity.
Defined.
