(* ===== verification/Bytecode.v ===== *)
(** * Compiled functions: [src/src/bytecode.h], [src/src/bytecode.c] and the
    [ObjFunction] of [src/src/vm.h]

    The code buffer and the constant pool of a function with the operations
    that build them, and the function object that the artifact writer saves
    and the virtual machine runs. A buffer is the list of its initialised
    cells, its capacity is a field of its own; a pointer is an [option]. *)

From S2P Require Import Prelude.

Open Scope Z_scope.

(** ** Data *)

Record DebugInfo := mkDebug { d_index : Z; d_line : Z }.

Record Chunk := mkChunk {
  code : option (list Z);
  debug_info : option (list DebugInfo);
  code_count : Z;
  code_capacity : Z
}.

(** The members of the anonymous union of [Constant]; a double is its bit
    pattern, a string its bytes without the terminating NUL. *)
Inductive constant_payload :=
| as_int (i : Z)
| as_double (bits : Z)
| as_string (s : option (list Z)).

Record Constant := mkConstant { payload : constant_payload; type_index : Z }.

Record ConstantPool := mkPool {
  constants : option (list Constant);
  constant_count : Z;
  constant_capacity : Z
}.

(** Enumerations are integers: the loader stores what it reads without a
    check of the range. *)
Record JitFunctionSummary := mkSummary {
  s_kind : Z; s_op : Z; slot0 : Z; slot1 : Z; s_const0 : Z; s_const1 : Z
}.

Record JitFunctionProfile := mkProfile {
  p_flags : Z; support_mask : Z; native_family_mask : Z;
  p_param_count : Z; p_local_count : Z; p_capture_count : Z;
  summary : JitFunctionSummary
}.

Record JitCompiledPlan := mkPlan {
  h_kind : Z; h_op : Z; h_flags : Z; local_slot : Z; local_slot_b : Z; h_const0 : Z; h_const1 : Z
}.

(** The part of [ObjFunction] that describes the compiled function. *)
Record ObjFunction := mkFunction {
  chunk : Chunk;
  pool : ConstantPool;
  param_count : Z;
  local_count : Z;
  debug_local_names : option (list (option (list Z)));
  capture_count : Z;
  capture_local_slots : option (list Z);
  is_async : bool;
  defer_handler_ip : Z;
  defer_return_slot : Z;
  name : option (list Z);
  source_file : option (list Z);
  jit_profile : JitFunctionProfile;
  jit_hint_plan : JitCompiledPlan
}.

(** Enumeration values of [vm.h] the loader looks at. *)
Definition JIT_SUMMARY_KIND_NONE : Z := 0.
Definition JIT_SUMMARY_KIND_INT_LOCAL_CONST_BINARY : Z := 1.
Definition JIT_SUMMARY_KIND_INT_GUARDED_LOCAL_CONST_BINARY : Z := 2.
Definition JIT_SUMMARY_KIND_INT_TWOARG_BINARY : Z := 3.
Definition JIT_SUMMARY_KIND_INT_GUARDED_TWOARG_BINARY : Z := 4.
Definition JIT_SUMMARY_KIND_BOOL_TWOARG_COMPARE : Z := 5.
Definition JIT_SUMMARY_KIND_BOOL_GUARDED_TWOARG_COMPARE : Z := 6.
Definition JIT_SUMMARY_KIND_INT_TWOARG_SELECTOR : Z := 7.
Definition JIT_SUMMARY_KIND_INT_GUARDED_TWOARG_SELECTOR : Z := 8.
Definition JIT_SUMMARY_KIND_BOOL_LOCAL_CONST_COMPARE : Z := 9.
Definition JIT_SUMMARY_KIND_INT_LOCAL_CONST_SELECTOR : Z := 10.
Definition JIT_SUMMARY_KIND_INT_GUARDED_LOCAL_CONST_SELECTOR : Z := 11.
Definition JIT_COMPILED_KIND_NONE : Z := 0.
Definition JIT_PROFILE_FLAG_ASYNC : Z := 1.
Definition JIT_PROFILE_FLAG_HAS_CAPTURES : Z := 2.
Definition JIT_PROFILE_SUPPORT_NONE : Z := 0.
Definition JIT_PROFILE_SUPPORT_STUB : Z := 1.
Definition JIT_PROFILE_SUPPORT_NATIVE_SUMMARY : Z := 2.
Definition JIT_PROFILE_NATIVE_FAMILY_NONE : Z := 0.
Definition JIT_PROFILE_NATIVE_FAMILY_ARITHMETIC : Z := 1.
Definition JIT_PROFILE_NATIVE_FAMILY_COMPARE : Z := 2.
Definition JIT_PROFILE_NATIVE_FAMILY_SELECTOR : Z := 4.

(** ** Operations *)

Definition chunk_init : Chunk := mkChunk None None 0 0.

Definition buffer {A} (p : option (list A)) : list A := match p with Some l => l | None => [] end.

(** A store at index [i] of a buffer whose initialised cells are [l]: the next
    cell or one written before. *)
Definition store {A} (i : Z) (x : A) (p : option (list A)) : option (list A) :=
  Some (take (Z.to_nat i) (buffer p) ++ [x] ++ drop (S (Z.to_nat i)) (buffer p)).

Definition chunk_set_debug_info (c : Chunk) (pc line : Z) : Chunk :=
  if (0 <=? pc) && (pc <? code_count c)
  then mkChunk (code c) (store pc (mkDebug pc line) (debug_info c)) (code_count c) (code_capacity c)
  else c.

(** Returns the chunk and the index of the new byte. *)
Definition chunk_emit (c : Chunk) (byte line : Z) : Chunk * Z :=
  let n := code_count c + 1 in
  let cap := if code_capacity c <? n then n * 2 else code_capacity c in
  let c := mkChunk (store (n - 1) byte (code c)) (debug_info c) n cap in
  (chunk_set_debug_info c (n - 1) line, n - 1).

Definition chunk_get (c : Chunk) (offset : Z) : Z :=
  if (0 <=? offset) && (offset <? code_count c)
  then nth (Z.to_nat offset) (buffer (code c)) 0 else 0.

Definition constant_pool_init : ConstantPool := mkPool None 0 0.

(** [safe_strdup] copies the bytes of a string. *)
Definition constant_pool_add (p : ConstantPool) (c : Constant) : ConstantPool * Z :=
  let n := constant_count p + 1 in
  let cap := if constant_capacity p <? n then n * 2 else constant_capacity p in
  (mkPool (store (n - 1) c (constants p)) n cap, n - 1).

(** [jit_hint_plan.op] and [jit_hint_plan.flags] are not initialised by
    [obj_function_create]: [junk] is what the memory held. *)
Definition obj_function_create (junk : Z * Z) : ObjFunction :=
  mkFunction chunk_init constant_pool_init 0 0 None 0 None false (-1) (-1) None None
    (mkProfile 0 0 0 0 0 0 (mkSummary JIT_SUMMARY_KIND_NONE 0 0 0 0 0))
    (mkPlan JIT_COMPILED_KIND_NONE (fst junk) (snd junk) 0 0 0 0).

(** ** Emitting *)

(** What the compiler relies on: the buffers are as long as the count and fit
    the capacity. *)
Record chunk_ok (c : Chunk) : Prop := {
  ck_count : code_count c = Z.of_nat (length (buffer (code c)));
  ck_debug : length (buffer (debug_info c)) = length (buffer (code c));
  ck_cap : code_count c <= code_capacity c
}.

Lemma store_end {A} (x : A) p :
  store (Z.of_nat (length (buffer p))) x p = Some (buffer p ++ [x]).
Proof.
  unfold store. rewrite Nat2Z.id, take_ge, drop_ge by lia. by rewrite app_nil_r.
Qed.

Lemma chunk_emit_spec c byte line :
  chunk_ok c ->
  let '(c', pc) := chunk_emit c byte line in
  chunk_ok c' /\ pc = code_count c /\ code_count c' = code_count c + 1 /\
  buffer (code c') = buffer (code c) ++ [byte] /\
  buffer (debug_info c') = buffer (debug_info c) ++ [mkDebug pc line].
Proof.
  intros [Hc Hd Hcap]. unfold chunk_emit, chunk_set_debug_info. cbn [code_count code debug_info code_capacity].
  assert (code_count c + 1 - 1 = code_count c) as -> by lia.
  assert ((0 <=? code_count c) && (code_count c <? code_count c + 1) = true) as -> by lia.
  assert (store (code_count c) byte (code c) = Some (buffer (code c) ++ [byte])) as -> by (rewrite Hc; apply store_end).
  assert (store (code_count c) (mkDebug (code_count c) line) (debug_info c) =
    Some (buffer (debug_info c) ++ [mkDebug (code_count c) line])) as ->.
  { rewrite Hc, <- Hd at 1. apply store_end. }
  split; [|done]. constructor; cbn [code_count code debug_info code_capacity buffer]; rewrite ?length_app; simpl; [lia..|].
  destruct (Z.ltb_spec (code_capacity c) (code_count c + 1)); lia.
Qed.

(** Emitting a sequence of bytes with their lines. *)
Definition emit_all (bs : list (Z * Z)) (c : Chunk) : Chunk :=
  fold_left (fun c b => fst (chunk_emit c (fst b) (snd b))) bs c.

Lemma emit_all_spec bs : forall c,
  chunk_ok c ->
  chunk_ok (emit_all bs c) /\ buffer (code (emit_all bs c)) = buffer (code c) ++ map fst bs /\
  map d_line (buffer (debug_info (emit_all bs c))) = map d_line (buffer (debug_info c)) ++ map snd bs /\
  code_count (emit_all bs c) = code_count c + Z.of_nat (length bs).
Proof.
  unfold emit_all. induction bs as [|[b n] bs IH]; intros c Hc; cbn [fold_left].
  { rewrite !app_nil_r. simpl. split; [done|]. split; [done|]. split; [done|lia]. }
  pose proof (chunk_emit_spec c b n Hc) as H. cbn [fst snd]. destruct (chunk_emit c b n) as [c' pc]. cbn [fst].
  destruct H as (Hc' & -> & Hn & Hb & Hl). destruct (IH c' Hc') as (H1 & H2 & H3 & H4).
  split; [done|]. rewrite H2, H3, H4, Hb, Hl, Hn, !map_app. simpl. rewrite <- !app_assoc.
  split; [done|]. split; [done|lia].
Qed.

Lemma chunk_get_spec c i x :
  chunk_ok c -> buffer (code c) !! i = Some x -> chunk_get c (Z.of_nat i) = x.
Proof.
  intros [Hc _ _] Hi. pose proof (lookup_lt_Some _ _ _ Hi). unfold chunk_get.
  assert ((0 <=? Z.of_nat i) && (Z.of_nat i <? code_count c) = true) as -> by lia.
  rewrite Nat2Z.id. by apply nth_lookup_Some.
Qed.

(** The bytes emitted into a new chunk are the bytes the machine reads
    back, each at the index [chunk_emit] returned for it and with the line it
    was emitted for; reads outside the code give zero. *)
Theorem chunk_emit_get (bs : list (Z * Z)) :
  let c := emit_all bs chunk_init in
  chunk_ok c /\ code_count c = Z.of_nat (length bs) /\
  (forall i b line, bs !! i = Some (b, line) ->
     chunk_get c (Z.of_nat i) = b /\ snd (chunk_emit (emit_all (take i bs) chunk_init) b line) = Z.of_nat i /\
     map d_line (buffer (debug_info c)) !! i = Some line) /\
  (forall i, i < 0 \/ Z.of_nat (length bs) <= i -> chunk_get c i = 0).
Proof.
  assert (chunk_ok chunk_init) as H0 by (by constructor).
  destruct (emit_all_spec bs chunk_init H0) as (Hc & Hb & Hl & Hn). cbn zeta.
  split; [done|]. split; [exact Hn|]. split.
  - intros i b line Hi. split; [apply chunk_get_spec; [done|]|split].
    + rewrite Hb. simpl. by rewrite list_lookup_fmap, Hi.
    + destruct (emit_all_spec (take i bs) chunk_init H0) as (_ & _ & _ & Hm). unfold chunk_emit. simpl. rewrite Hm.
      apply lookup_lt_Some in Hi. rewrite length_take. simpl. lia.
    + rewrite Hl. simpl. by rewrite list_lookup_fmap, Hi.
  - intros i Hi. unfold chunk_get. rewrite Hn. cbn [chunk_init code_count].
    destruct ((0 <=? i) && (i <? 0 + Z.of_nat (length bs))) eqn:E; [lia|done].
Qed.
