(* ===== verification/Artifact.v ===== *)
(** * Bytecode artifacts: [src/src/artifact.c]

    The file format of compiled programs: the writer, which produces version
    16, and the loader, which accepts versions 2 to 16 and supplies what older
    files lack. A file that is written is a state with the bytes so far and
    the room that is left on the device, so that every [fwrite] can fail; the
    loader reads from a byte array through a cursor and checks every read
    against the end of the array. The writer's [false] and the loader's
    [false] with its message are error values; allocation failures are not
    modelled.

    This file holds the model, the encoding of a well-formed program as a list
    of bytes, and the two halves of the round trip: the writer produces the
    encoding and the loader decodes it. [ArtifactLoad] has the behaviour of the
    loader on any input and the properties. *)

From S2P Require Import Prelude Bytecode.
From Stdlib Require Import String.
From stdpp Require Import list.

Open Scope Z_scope.
Open Scope list_scope.

Definition ARTIFACT_MAGIC : list Z := [84; 66; 76; 67].
Definition ARTIFACT_VERSION : Z := 16.
Definition ARTIFACT_MIN_SUPPORTED_VERSION : Z := 2.
Definition ARTIFACT_MAX_COUNT : Z := 100000000.
Definition ARTIFACT_MAX_STRING_BYTES : Z := 2 ^ 28.

(** ** Programs *)

Record ArtifactDependencyInfo := mkDep { dep_path : option (list Z); mtime : Z }.

Record InterfaceDispatchEntry := mkEntry {
  interface_name : option (list Z);
  record_name : option (list Z);
  method_name : option (list Z);
  function_name : option (list Z)
}.

Record LoadedBytecodeArtifact := mkLoaded {
  init_function : option ObjFunction;
  functions : list (option ObjFunction);
  function_count : Z;
  main_index : Z;
  typecheck_flags : Z;
  dependencies : option (list ArtifactDependencyInfo);
  dependency_count : Z;
  interface_dispatch_entries : option (list InterfaceDispatchEntry);
  interface_dispatch_count : Z
}.

(** What [memset] and [main_index = -1] leave, and [artifact_loaded_free]. *)
Definition artifact_empty : LoadedBytecodeArtifact := mkLoaded None [] 0 (-1) 0 None 0 None 0.

Inductive artifact_error :=
| NoMessage
| Message (text : string)
| UnsupportedVersion (version : Z)
| UnsupportedConstant (index : Z).

(** ** Writing *)

Record FILE := mkFile { written : list Z; room : nat }.

Definition writer := FILE -> option FILE.

Definition fwrite (bs : list Z) : writer := fun f =>
  if (length bs <=? room f)%nat then Some (mkFile (written f ++ bs) (room f - length bs)) else None.

Definition skip : writer := fun f => Some f.
Definition fail_write : writer := fun _ => None.
Definition andthen (w1 w2 : writer) : writer := fun f => match w1 f with Some f => w2 f | None => None end.
Definition guard (b : bool) : writer := if b then skip else fail_write.

Declare Scope artifact_scope.
Delimit Scope artifact_scope with artifact.
Notation "w1 ;; w2" := (andthen w1 w2) (at level 100, w2 at level 200, right associativity) : artifact_scope.
Open Scope artifact_scope.

(** [for (int i = 0; i < n; i++)]. *)
Fixpoint for_from (i : Z) (n : nat) (body : Z -> writer) : writer :=
  match n with
  | O => skip
  | S n' => body i ;; for_from (i + 1) n' body
  end.
Definition for_ (n : Z) (body : Z -> writer) : writer := for_from 0 (Z.to_nat n) body.

(** Element [i] of an array behind a pointer; nothing on a null pointer or
    outside the array. *)
Definition at_index {A} (p : option (list A)) (i : Z) : option A :=
  match p with Some l => if 0 <=? i then l !! Z.to_nat i else None | None => None end.
Definition with_elem {A} (x : option A) (k : A -> writer) : writer :=
  match x with Some a => k a | None => fail_write end.

Definition byte_of (v k : Z) : Z := u8 (Z.land (Z.shiftr v k) 255).

Definition write_u8 (v : Z) : writer := fwrite [u8 v].
Definition write_u32_le (v : Z) : writer :=
  fwrite [byte_of v 0; byte_of v 8; byte_of v 16; byte_of v 24].
Definition write_i32_le (v : Z) : writer := write_u32_le (u32 v).
Definition write_u64_le (v : Z) : writer :=
  fwrite [byte_of v 0; byte_of v 8; byte_of v 16; byte_of v 24;
          byte_of v 32; byte_of v 40; byte_of v 48; byte_of v 56].
Definition write_i64_le (v : Z) : writer := write_u64_le (u64 v).
(** A double is its bit pattern. *)
Definition write_double_le (bits : Z) : writer := write_u64_le bits.

(** The bytes of a possibly null string. *)
Definition str_or_empty (s : option (list Z)) : list Z := match s with Some b => b | None => [] end.

Definition write_string (s : option (list Z)) : writer :=
  let b := str_or_empty s in
  let len := Z.of_nat (length b) in
  guard (len <=? UINT32_MAX) ;;
  write_u32_le len ;;
  (if len =? 0 then skip else fwrite b).

Definition write_constant (c : Constant) : writer :=
  write_i32_le (type_index c) ;;
  (if (type_index c =? 0) || (type_index c =? 4) then
     match payload c with as_int i => write_i64_le i | _ => fail_write end
   else if type_index c =? 1 then
     match payload c with as_double d => write_double_le d | _ => fail_write end
   else if (type_index c =? 2) || (type_index c =? 3) then
     match payload c with as_string s => write_string s | _ => fail_write end
   else fail_write).

Definition write_hint_plan (p : JitCompiledPlan) : writer :=
  write_i32_le (h_kind p) ;; write_i32_le (h_op p) ;; write_u8 (h_flags p) ;;
  write_u8 (local_slot p) ;; write_u8 (local_slot_b p) ;;
  write_i64_le (h_const0 p) ;; write_i64_le (h_const1 p).

Definition write_profile (p : JitFunctionProfile) : writer :=
  write_u8 (p_flags p) ;; write_u8 (support_mask p) ;; write_u8 (native_family_mask p) ;;
  write_i32_le (p_param_count p) ;; write_i32_le (p_local_count p) ;; write_i32_le (p_capture_count p) ;;
  write_i32_le (s_kind (summary p)) ;; write_i32_le (s_op (summary p)) ;;
  write_u8 (slot0 (summary p)) ;; write_u8 (slot1 (summary p)) ;;
  write_i64_le (s_const0 (summary p)) ;; write_i64_le (s_const1 (summary p)).

Definition artifact_write_function (func : option ObjFunction) : writer :=
  with_elem func (fun f =>
  write_string (name f) ;;
  write_string (source_file f) ;;
  write_u8 (if is_async f then 1 else 0) ;;
  write_i32_le (defer_handler_ip f) ;;
  write_i32_le (defer_return_slot f) ;;
  guard (negb ((param_count f <? 0) || (local_count f <? 0))) ;;
  write_u32_le (u32 (param_count f)) ;;
  write_u32_le (u32 (local_count f)) ;;
  guard (negb ((capture_count f <? 0) || (local_count f <? capture_count f))) ;;
  write_u32_le (u32 (capture_count f)) ;;
  for_ (capture_count f) (fun i =>
    with_elem (at_index (capture_local_slots f) i) (fun slot =>
      guard (negb ((slot <? param_count f) || (local_count f <=? slot))) ;;
      write_u32_le (u32 slot))) ;;
  for_ (local_count f) (fun i =>
    match debug_local_names f with
    | Some _ => with_elem (at_index (debug_local_names f) i) write_string
    | None => write_string None
    end) ;;
  guard (negb (code_count (chunk f) <? 0)) ;;
  write_u32_le (u32 (code_count (chunk f))) ;;
  (if 0 <? code_count (chunk f) then
     with_elem (code (chunk f)) (fun bytes =>
       guard (code_count (chunk f) <=? Z.of_nat (length bytes)) ;;
       fwrite (take (Z.to_nat (code_count (chunk f))) bytes))
   else skip) ;;
  write_u32_le (u32 (code_count (chunk f))) ;;
  for_ (code_count (chunk f)) (fun i =>
    match debug_info (chunk f) with
    | Some _ => with_elem (at_index (debug_info (chunk f)) i) (fun d => write_i32_le (i32 (d_line d)))
    | None => write_i32_le 0
    end) ;;
  guard (negb (constant_count (pool f) <? 0)) ;;
  write_u32_le (u32 (constant_count (pool f))) ;;
  for_ (constant_count (pool f)) (fun i => with_elem (at_index (constants (pool f)) i) write_constant) ;;
  write_hint_plan (jit_hint_plan f) ;;
  write_profile (jit_profile f)).

Definition write_dependency (d : ArtifactDependencyInfo) : writer :=
  write_string (dep_path d) ;; write_i64_le (mtime d).

Definition write_entry (e : InterfaceDispatchEntry) : writer :=
  write_string (interface_name e) ;; write_string (record_name e) ;;
  write_string (method_name e) ;; write_string (function_name e).

Definition write_artifact (a : LoadedBytecodeArtifact) : writer :=
  fwrite ARTIFACT_MAGIC ;;
  write_u32_le ARTIFACT_VERSION ;;
  write_u32_le (typecheck_flags a) ;;
  write_u32_le (u32 (dependency_count a)) ;;
  for_ (dependency_count a) (fun i => with_elem (at_index (dependencies a) i) write_dependency) ;;
  write_u32_le (u32 (interface_dispatch_count a)) ;;
  for_ (interface_dispatch_count a) (fun i => with_elem (at_index (interface_dispatch_entries a) i) write_entry) ;;
  write_u32_le (u32 (function_count a)) ;;
  write_i32_le (main_index a) ;;
  write_u8 (match init_function a with Some _ => 1 | None => 0 end) ;;
  for_ (function_count a) (fun i => with_elem (at_index (Some (functions a)) i) artifact_write_function) ;;
  (match init_function a with Some f => artifact_write_function (Some f) | None => skip end).

(** The contents of the file that is left at [path], or an error, after which
    there is none. [opened] is the result of [fopen], the new file by the room it
    has, and [closed] tells whether [fclose] succeeds; the arguments that describe the program are the
    fields of [a]. *)
Definition artifact_write_file (path : list Z) (opened : option nat) (closed : bool) (a : LoadedBytecodeArtifact)
    : artifact_error + list Z :=
  match path with
  | [] => inl (Message "Output artifact path is empty")
  | _ =>
    if function_count a <=? 0 then inl (Message "Artifact requires at least one function")
    else if (main_index a <? 0) || (function_count a <=? main_index a) then inl (Message "Main function index is out of range")
    else if dependency_count a <? 0 then inl (Message "Dependency count is invalid")
    else if interface_dispatch_count a <? 0 then inl (Message "Interface dispatch mapping count is invalid")
    else if (0 <? interface_dispatch_count a) &&
            match interface_dispatch_entries a with None => true | Some _ => false end
         then inl (Message "Interface dispatch mapping payload is missing")
    else
      match opened with
      | None => inl (Message "Failed to open output artifact")
      | Some n =>
          match write_artifact a (mkFile [] n) with
          | None => inl (Message "Failed while writing artifact")
          | Some f => if closed then inr (written f) else inl (Message "Failed to finalize artifact")
          end
      end
  end.

(** ** Reading *)

Record ArtifactReader := mkReader { data : list Z; offset : Z }.

Definition size (r : ArtifactReader) : Z := Z.of_nat (length (data r)).

Definition reader (A : Type) := ArtifactReader -> artifact_error + (A * ArtifactReader).

Definition ret {A} (a : A) : reader A := fun r => inr (a, r).
Definition fail_read {A} (e : artifact_error) : reader A := fun _ => inl e.
Definition bind {A B} (m : reader A) (k : A -> reader B) : reader B := fun r =>
  match m r with inl e => inl e | inr (a, r) => k a r end.
(** [set_error] with a message when the call fails. *)
Definition or_message {A} (m : reader A) (text : string) : reader A := fun r =>
  match m r with inl _ => inl (Message text) | inr x => inr x end.
Definition check (b : bool) (e : artifact_error) : reader unit := if b then ret tt else fail_read e.

Notation "'let!' x ':=' m 'in' k" := (bind m (fun x => k)) (at level 10, x pattern, k at level 200) : artifact_scope.
Notation "m '<?>' text" := (or_message m text) (at level 90) : artifact_scope.

Definition artifact_reader_read (bytes : Z) : reader (list Z) := fun r =>
  if (size r <? bytes) || (size r - bytes <? offset r) then inl NoMessage
  else inr (take (Z.to_nat bytes) (drop (Z.to_nat (offset r)) (data r)), mkReader (data r) (offset r + bytes)).

(** Bytes read into an array, as the word they make up. *)
Definition word_le (bs : list Z) : Z := fold_right (fun b acc => Z.lor b (Z.shiftl acc 8)) 0 bs.

Definition read_u8 : reader Z := let! bs := artifact_reader_read 1 in ret (word_le bs).
Definition read_u32_le : reader Z := let! bs := artifact_reader_read 4 in ret (word_le bs).
Definition read_i32_le : reader Z := let! v := read_u32_le in ret (i32 v).
Definition read_u64_le : reader Z := let! bs := artifact_reader_read 8 in ret (word_le bs).
Definition read_i64_le : reader Z := let! v := read_u64_le in ret (i64 v).
Definition read_double_le : reader Z := read_u64_le.

(** The buffer that was read is used as a C string, up to its first NUL. *)
Definition read_string : reader (list Z) :=
  let! len := read_u32_le in
  let! _ := check (len <=? ARTIFACT_MAX_STRING_BYTES) NoMessage in
  if 0 <? len then let! s := artifact_reader_read len in ret (c_string s) else ret [].

(** [n] calls in a loop that stops at the first failure. *)
Fixpoint read_loop {A} (n : nat) (m : reader A) : reader (list A) :=
  match n with
  | O => ret []
  | S n' => let! a := m in let! l := read_loop n' m in ret (a :: l)
  end.
Definition read_n {A} (n : Z) (m : reader A) : reader (list A) := read_loop (Z.to_nat n) m.

Definition nonempty (s : list Z) : option (list Z) := match s with [] => None | _ => Some s end.

(** [if (version >= v) ...], with the value that is left otherwise. *)
Definition since {A} (version v : Z) (m : reader A) (old : A) : reader A :=
  if v <=? version then m else ret old.

Definition read_capture_slot (param_count local_count : Z) : reader Z :=
  let! slot := read_u32_le <?> "Failed to read closure capture slot" in
  let! _ := check (negb ((INT_MAX <? slot) || (slot <? param_count) || (local_count <=? slot)))
              (Message "Closure capture slot out of range") in
  ret (i32 slot).

Definition read_captures (param_count local_count : Z) : reader (Z * option (list Z)) :=
  let! n := read_u32_le <?> "Failed to read closure capture count" in
  let! _ := check (negb ((INT_MAX <? n) || (local_count <? n))) (Message "Closure capture count out of range") in
  if 0 <? n then
    let! slots := read_n n (read_capture_slot param_count local_count) in ret (n, Some slots)
  else ret (n, None).

Definition read_constant : reader Constant :=
  let! t := read_i32_le <?> "Failed to read constant type" in
  if (t =? 0) || (t =? 4) then
    let! v := read_i64_le <?> "Failed to read integer constant" in ret (mkConstant (as_int v) t)
  else if t =? 1 then
    let! v := read_double_le <?> "Failed to read double constant" in ret (mkConstant (as_double v) t)
  else if (t =? 2) || (t =? 3) then
    let! s := read_string <?> "Failed to read string constant" in ret (mkConstant (as_string (Some s)) t)
  else fail_read (UnsupportedConstant t).

Definition read_chunk : reader Chunk :=
  let! n := read_u32_le <?> "Failed to read function bytecode length" in
  let! _ := check (negb ((ARTIFACT_MAX_COUNT <? n) || (INT_MAX <? n))) (Message "Function bytecode length is too large") in
  let! bytes := (if 0 <? n then artifact_reader_read n <?> "Failed to read function bytecode" else ret []) in
  let! m := read_u32_le <?> "Failed to read function debug length" in
  let! _ := check (m =? n) (Message "Function debug metadata does not match bytecode length") in
  let! lines := read_n n (read_i32_le <?> "Failed to read debug line table") in
  ret (if 0 <? n then mkChunk (Some bytes) (Some (imap (fun i l => mkDebug (Z.of_nat i) l) lines)) n n else chunk_init).

Definition read_pool : reader ConstantPool :=
  let! n := read_u32_le <?> "Failed to read constant pool length" in
  let! _ := check (negb ((ARTIFACT_MAX_COUNT <? n) || (INT_MAX <? n))) (Message "Constant pool length is too large") in
  if 0 <? n then let! cs := read_n n read_constant in ret (mkPool (Some cs) n n) else ret constant_pool_init.

Definition read_hint_plan (version : Z) : reader JitCompiledPlan :=
  let! kind := read_i32_le in
  let! op := since version 13 read_i32_le 0 in
  let! flags := since version 13 read_u8 0 in
  let! slot := read_u8 in
  let! slot_b := read_u8 in
  let! c0 := read_i64_le in
  let! c1 := read_i64_le in
  ret (mkPlan kind op flags slot slot_b c0 c1).

(** The fields before the summary, by version; [old] holds the defaults. *)
Definition read_profile_head (version : Z) (old : Z * Z * Z * Z * Z * Z) : reader (Z * Z * Z * Z * Z * Z) :=
  if 14 <=? version then
    let! flags := read_u8 in
    let! support := since version 15 read_u8 JIT_PROFILE_SUPPORT_NONE in
    let! family := since version 16 read_u8 JIT_PROFILE_NATIVE_FAMILY_NONE in
    let! params := read_i32_le in
    let! locals := read_i32_le in
    let! captures := read_i32_le in
    ret (flags, support, family, params, locals, captures)
  else ret old.

Definition read_summary : reader JitFunctionSummary :=
  let! kind := read_i32_le in
  let! op := read_i32_le in
  let! s0 := read_u8 in
  let! s1 := read_u8 in
  let! c0 := read_i64_le in
  let! c1 := read_i64_le in
  ret (mkSummary kind op s0 s1 c0 c1).

Definition default_flags (async : bool) (captures : Z) : Z :=
  Z.lor (if async then JIT_PROFILE_FLAG_ASYNC else 0) (if negb (captures =? 0) then JIT_PROFILE_FLAG_HAS_CAPTURES else 0).

Definition default_support (async : bool) (captures summary_kind hint_kind : Z) : Z :=
  Z.lor (if negb async then JIT_PROFILE_SUPPORT_STUB else 0)
    (if negb (summary_kind =? JIT_SUMMARY_KIND_NONE) && negb (hint_kind =? JIT_COMPILED_KIND_NONE) &&
        (captures =? 0) && negb async then JIT_PROFILE_SUPPORT_NATIVE_SUMMARY else 0).

Definition default_family (kind : Z) : Z :=
  if (kind =? JIT_SUMMARY_KIND_INT_LOCAL_CONST_BINARY) || (kind =? JIT_SUMMARY_KIND_INT_GUARDED_LOCAL_CONST_BINARY) ||
     (kind =? JIT_SUMMARY_KIND_INT_TWOARG_BINARY) || (kind =? JIT_SUMMARY_KIND_INT_GUARDED_TWOARG_BINARY)
  then JIT_PROFILE_NATIVE_FAMILY_ARITHMETIC
  else if (kind =? JIT_SUMMARY_KIND_BOOL_TWOARG_COMPARE) || (kind =? JIT_SUMMARY_KIND_BOOL_LOCAL_CONST_COMPARE) ||
          (kind =? JIT_SUMMARY_KIND_BOOL_GUARDED_TWOARG_COMPARE)
  then JIT_PROFILE_NATIVE_FAMILY_COMPARE
  else if (kind =? JIT_SUMMARY_KIND_INT_TWOARG_SELECTOR) || (kind =? JIT_SUMMARY_KIND_INT_GUARDED_TWOARG_SELECTOR) ||
          (kind =? JIT_SUMMARY_KIND_INT_LOCAL_CONST_SELECTOR) || (kind =? JIT_SUMMARY_KIND_INT_GUARDED_LOCAL_CONST_SELECTOR)
  then JIT_PROFILE_NATIVE_FAMILY_SELECTOR
  else JIT_PROFILE_NATIVE_FAMILY_NONE.

Definition read_profile (version params locals captures : Z) (async : bool) (hint_kind : Z) : reader JitFunctionProfile :=
  let! (flags, support, family, params, locals, captures') :=
    read_profile_head version (0, JIT_PROFILE_SUPPORT_NONE, JIT_PROFILE_NATIVE_FAMILY_NONE, params, locals, captures)
      <?> "Failed to read function JIT profile metadata" in
  let! s := read_summary <?> "Failed to read function JIT summary metadata" in
  ret (mkProfile (if 14 <=? version then flags else default_flags async captures)
         (if 15 <=? version then support else default_support async captures (s_kind s) hint_kind)
         (if 16 <=? version then family else default_family (s_kind s))
         params locals captures' s).

(** [junk] is the uninitialised memory of [obj_function_create]. *)
Definition artifact_read_function (junk : Z * Z) (version : Z) : reader ObjFunction :=
  let func := obj_function_create junk in
  let! nm := read_string <?> "Failed to read function name" in
  let! src := since version 3 (read_string <?> "Failed to read function source file") [] in
  let! async := since version 6 (read_u8 <?> "Failed to read async function flag") 0 in
  let! (ip, slot) :=
    since version 7 ((let! ip := read_i32_le in let! slot := read_i32_le in ret (ip, slot)) <?> "Failed to read defer metadata")
      (defer_handler_ip func, defer_return_slot func) in
  let! (params, locals) :=
    (let! p := read_u32_le in let! l := read_u32_le in ret (p, l)) <?> "Failed to read function signature counts" in
  let! _ := check (negb ((INT_MAX <? params) || (INT_MAX <? locals))) (Message "Function parameter/local count out of range") in
  let! (captures, slots) := since version 4 (read_captures params locals) (capture_count func, capture_local_slots func) in
  let! names :=
    (if 8 <=? version
     then let! l := read_n locals (read_string <?> "Failed to read debug local name") in ret (map nonempty l)
     else ret (replicate (Z.to_nat locals) None)) in
  let! c := read_chunk in
  let! cs := read_pool in
  let! plan := since version 9 (read_hint_plan version <?> "Failed to read function JIT hint metadata") (jit_hint_plan func) in
  let! profile := since version 10 (read_profile version params locals captures (negb (async =? 0)) (h_kind plan)) (jit_profile func) in
  ret (mkFunction c cs params locals (if 0 <? locals then Some names else None) captures slots (negb (async =? 0))
         ip slot (nonempty nm) (nonempty src) profile plan).

Definition read_dependency : reader ArtifactDependencyInfo :=
  let! p := read_string in let! t := read_i64_le in ret (mkDep (Some p) t).

Definition read_entry : reader InterfaceDispatchEntry :=
  let! i := read_string in let! r := read_string in let! m := read_string in let! f := read_string in
  ret (mkEntry (Some i) (Some r) (Some m) (Some f)).

(** A counted array, [NULL] when it is empty. *)
Definition read_array {A} (m : reader A) : reader (Z * option (list A)) :=
  let! n := read_u32_le in
  let! _ := check (negb ((ARTIFACT_MAX_COUNT <? n) || (INT_MAX <? n))) NoMessage in
  if 0 <? n then let! l := read_n n m in ret (n, Some l) else ret (n, None).

Definition read_artifact (junk : Z * Z) : reader LoadedBytecodeArtifact :=
  let! magic := artifact_reader_read 4 in
  let! _ := check (bool_decide (magic = ARTIFACT_MAGIC)) (Message "File is not a TabloLang bytecode artifact") in
  let! version := read_u32_le in
  let! _ := check (negb ((version <? ARTIFACT_MIN_SUPPORTED_VERSION) || (ARTIFACT_VERSION <? version)))
              (UnsupportedVersion version) in
  let! flags := read_u32_le in
  let! (ndeps, deps) := read_array read_dependency in
  let! (nentries, entries) := since version 5 (read_array read_entry) (0, None) in
  let! nfuns := read_u32_le in
  let! _ := check (negb ((nfuns =? 0) || (ARTIFACT_MAX_COUNT <? nfuns) || (INT_MAX <? nfuns))) NoMessage in
  let! main := read_i32_le in
  let! has_init := read_u8 in
  let! _ := check (negb ((main <? 0) || (nfuns <=? main))) (Message "Artifact main function index is invalid") in
  let! funs := read_n nfuns (artifact_read_function junk version) in
  let! ini := (if negb (has_init =? 0) then let! f := artifact_read_function junk version in ret (Some f) else ret None) in
  ret (mkLoaded ini (map Some funs) nfuns main flags deps ndeps entries nentries).

(** Failures without a message of their own get the general one. *)
Definition artifact_load_bytes (junk : Z * Z) (bytes : list Z) : artifact_error + LoadedBytecodeArtifact :=
  match bytes with
  | [] => inl (Message "Artifact data is empty")
  | _ =>
      match read_artifact junk (mkReader bytes 0) with
      | inl NoMessage => inl (Message "Failed to read artifact bytes (possibly truncated or corrupted)")
      | inl e => inl e
      | inr (a, r) => if offset r =? size r then inr a else inl (Message "Artifact contains trailing data")
      end
  end.

(** The file as [fopen], [ftell] and [fread] give it: nothing if it cannot be
    opened. *)
Definition artifact_load_file (junk : Z * Z) (path : list Z) (file : option (list Z)) : artifact_error + LoadedBytecodeArtifact :=
  match path, file with
  | [], _ => inl (Message "Artifact path is empty")
  | _, None => inl (Message "Failed to open artifact")
  | _, Some [] => inl (Message "Artifact is empty or unreadable")
  | _, Some bytes => artifact_load_bytes junk bytes
  end.

Definition artifact_file_is_bytecode (path : list Z) (file : option (list Z)) : bool :=
  match path, file with
  | _ :: _, Some bytes => bool_decide (take 4 bytes = ARTIFACT_MAGIC)
  | _, _ => false
  end.

(** ** Encodings *)

Definition enc (n : nat) (v : Z) : list Z := map (fun i => byte_of v (8 * Z.of_nat i)) (seq 0 n).
Definition enc_string (s : option (list Z)) : list Z := enc 4 (Z.of_nat (length (str_or_empty s))) ++ str_or_empty s.

Definition enc_constant (c : Constant) : list Z :=
  enc 4 (u32 (type_index c)) ++
  match payload c with
  | as_int i => enc 8 (u64 i)
  | as_double d => enc 8 d
  | as_string s => enc_string s
  end.

Definition enc_plan (p : JitCompiledPlan) : list Z :=
  enc 4 (u32 (h_kind p)) ++ enc 4 (u32 (h_op p)) ++ [u8 (h_flags p)] ++ [u8 (local_slot p)] ++ [u8 (local_slot_b p)] ++
  enc 8 (u64 (h_const0 p)) ++ enc 8 (u64 (h_const1 p)).

Definition enc_profile (p : JitFunctionProfile) : list Z :=
  [u8 (p_flags p)] ++ [u8 (support_mask p)] ++ [u8 (native_family_mask p)] ++
  enc 4 (u32 (p_param_count p)) ++ enc 4 (u32 (p_local_count p)) ++ enc 4 (u32 (p_capture_count p)) ++
  enc 4 (u32 (s_kind (summary p))) ++ enc 4 (u32 (s_op (summary p))) ++
  [u8 (slot0 (summary p))] ++ [u8 (slot1 (summary p))] ++
  enc 8 (u64 (s_const0 (summary p))) ++ enc 8 (u64 (s_const1 (summary p))).

(** The names and lines that are written where the function has none. *)
Definition names_of (f : ObjFunction) : list (option (list Z)) :=
  match debug_local_names f with Some l => l | None => replicate (Z.to_nat (local_count f)) None end.
Definition lines_of (c : Chunk) : list Z :=
  match debug_info c with Some l => map d_line l | None => replicate (Z.to_nat (code_count c)) 0 end.

Definition enc_function (f : ObjFunction) : list Z :=
  enc_string (name f) ++ enc_string (source_file f) ++ [if is_async f then 1 else 0] ++
  enc 4 (u32 (defer_handler_ip f)) ++ enc 4 (u32 (defer_return_slot f)) ++
  enc 4 (u32 (param_count f)) ++ enc 4 (u32 (local_count f)) ++ enc 4 (u32 (capture_count f)) ++
  mjoin (map (fun s => enc 4 (u32 s)) (buffer (capture_local_slots f))) ++
  mjoin (map enc_string (names_of f)) ++
  enc 4 (u32 (code_count (chunk f))) ++ buffer (code (chunk f)) ++
  enc 4 (u32 (code_count (chunk f))) ++ mjoin (map (fun l => enc 4 (u32 (i32 l))) (lines_of (chunk f))) ++
  enc 4 (u32 (constant_count (pool f))) ++ mjoin (map enc_constant (buffer (constants (pool f)))) ++
  enc_plan (jit_hint_plan f) ++ enc_profile (jit_profile f).

Definition enc_dependency (d : ArtifactDependencyInfo) : list Z := enc_string (dep_path d) ++ enc 8 (u64 (mtime d)).
Definition enc_entry (e : InterfaceDispatchEntry) : list Z :=
  enc_string (interface_name e) ++ enc_string (record_name e) ++ enc_string (method_name e) ++ enc_string (function_name e).
Definition enc_opt (f : option ObjFunction) : list Z := match f with Some f => enc_function f | None => [] end.

Definition enc_artifact (a : LoadedBytecodeArtifact) : list Z :=
  ARTIFACT_MAGIC ++ enc 4 ARTIFACT_VERSION ++ enc 4 (typecheck_flags a) ++
  enc 4 (u32 (dependency_count a)) ++ mjoin (map enc_dependency (buffer (dependencies a))) ++
  enc 4 (u32 (interface_dispatch_count a)) ++ mjoin (map enc_entry (buffer (interface_dispatch_entries a))) ++
  enc 4 (u32 (function_count a)) ++ enc 4 (u32 (main_index a)) ++
  [match init_function a with Some _ => 1 | None => 0 end] ++
  mjoin (map enc_opt (functions a)) ++ enc_opt (init_function a).

(** ** Well-formed programs *)

(** A C string the loader accepts: bytes, none of them NUL. *)
Definition string_ok (s : option (list Z)) : Prop :=
  Forall (fun b => 0 < b < 256) (str_or_empty s) /\ Z.of_nat (length (str_or_empty s)) <= ARTIFACT_MAX_STRING_BYTES.

Definition constant_ok (c : Constant) : Prop :=
  match payload c with
  | as_int i => (type_index c = 0 \/ type_index c = 4) /\ is_i64 i
  | as_double d => type_index c = 1 /\ is_u64 d
  | as_string s => (type_index c = 2 \/ type_index c = 3) /\ string_ok s
  end.

Record plan_ok (p : JitCompiledPlan) : Prop := {
  pl_kind : is_i32 (h_kind p); pl_op : is_i32 (h_op p); pl_flags : is_u8 (h_flags p);
  pl_slot : is_u8 (local_slot p); pl_slot_b : is_u8 (local_slot_b p);
  pl_c0 : is_i64 (h_const0 p); pl_c1 : is_i64 (h_const1 p)
}.

Record profile_ok (p : JitFunctionProfile) : Prop := {
  pf_flags : is_u8 (p_flags p); pf_support : is_u8 (support_mask p); pf_family : is_u8 (native_family_mask p);
  pf_params : is_i32 (p_param_count p); pf_locals : is_i32 (p_local_count p); pf_captures : is_i32 (p_capture_count p);
  pf_kind : is_i32 (s_kind (summary p)); pf_op : is_i32 (s_op (summary p));
  pf_s0 : is_u8 (slot0 (summary p)); pf_s1 : is_u8 (slot1 (summary p));
  pf_c0 : is_i64 (s_const0 (summary p)); pf_c1 : is_i64 (s_const1 (summary p))
}.

(** A count with the array it is the length of. *)
Definition counted {A} (n : Z) (l : list A) : Prop := n = Z.of_nat (length l).

Record function_ok (f : ObjFunction) : Prop := {
  fo_name : string_ok (name f);
  fo_source : string_ok (source_file f);
  fo_ip : is_i32 (defer_handler_ip f);
  fo_slot : is_i32 (defer_return_slot f);
  fo_params : 0 <= param_count f <= INT_MAX;
  fo_locals : 0 <= local_count f <= INT_MAX;
  fo_captures : capture_count f <= local_count f;
  fo_slots : counted (capture_count f) (buffer (capture_local_slots f));
  fo_slot_range : Forall (fun s => param_count f <= s < local_count f) (buffer (capture_local_slots f));
  fo_names : counted (local_count f) (names_of f);
  fo_names_ok : Forall string_ok (names_of f);
  fo_code : counted (code_count (chunk f)) (buffer (code (chunk f)));
  fo_code_max : code_count (chunk f) <= ARTIFACT_MAX_COUNT;
  fo_code_ok : Forall is_u8 (buffer (code (chunk f)));
  fo_lines : counted (code_count (chunk f)) (lines_of (chunk f));
  fo_lines_ok : Forall is_i32 (lines_of (chunk f));
  fo_pool : counted (constant_count (pool f)) (buffer (constants (pool f)));
  fo_pool_max : constant_count (pool f) <= ARTIFACT_MAX_COUNT;
  fo_pool_ok : Forall constant_ok (buffer (constants (pool f)));
  fo_plan : plan_ok (jit_hint_plan f);
  fo_profile : profile_ok (jit_profile f)
}.

Definition dependency_ok (d : ArtifactDependencyInfo) : Prop := string_ok (dep_path d) /\ is_i64 (mtime d).
Definition entry_ok (e : InterfaceDispatchEntry) : Prop :=
  string_ok (interface_name e) /\ string_ok (record_name e) /\ string_ok (method_name e) /\ string_ok (function_name e).

Record artifact_ok (a : LoadedBytecodeArtifact) : Prop := {
  ao_flags : is_u32 (typecheck_flags a);
  ao_deps : counted (dependency_count a) (buffer (dependencies a));
  ao_deps_max : dependency_count a <= ARTIFACT_MAX_COUNT;
  ao_deps_ok : Forall dependency_ok (buffer (dependencies a));
  ao_entries : counted (interface_dispatch_count a) (buffer (interface_dispatch_entries a));
  ao_entries_max : interface_dispatch_count a <= ARTIFACT_MAX_COUNT;
  ao_entries_ok : Forall entry_ok (buffer (interface_dispatch_entries a));
  ao_functions : counted (function_count a) (functions a);
  ao_functions_max : function_count a <= ARTIFACT_MAX_COUNT;
  ao_functions_ok : Forall (fun f => exists g, f = Some g /\ function_ok g) (functions a);
  ao_main : 0 <= main_index a < function_count a;
  ao_init : match init_function a with Some f => function_ok f | None => True end
}.

(** What is left of a program after it was written and loaded: null and empty
    strings are not told apart, debug information is completed, empty arrays
    are null. *)
Definition saved_string (s : option (list Z)) : option (list Z) := Some (str_or_empty s).
Definition saved_name (s : option (list Z)) : option (list Z) := nonempty (str_or_empty s).
Definition saved_constant (c : Constant) : Constant :=
  match payload c with as_string s => mkConstant (as_string (saved_string s)) (type_index c) | _ => c end.
Definition saved_list {A} (p : option (list A)) : option (list A) := match buffer p with [] => None | l => Some l end.
Definition saved_chunk (c : Chunk) : Chunk :=
  match buffer (code c) with
  | [] => chunk_init
  | bytes => mkChunk (Some bytes) (Some (imap (fun i l => mkDebug (Z.of_nat i) l) (lines_of c))) (code_count c) (code_count c)
  end.
Definition saved_pool (p : ConstantPool) : ConstantPool :=
  match buffer (constants p) with
  | [] => constant_pool_init
  | cs => mkPool (Some (map saved_constant cs)) (constant_count p) (constant_count p)
  end.

Definition saved_function (f : ObjFunction) : ObjFunction :=
  mkFunction (saved_chunk (chunk f)) (saved_pool (pool f)) (param_count f) (local_count f)
    (saved_list (Some (map saved_name (names_of f)))) (capture_count f) (saved_list (capture_local_slots f)) (is_async f)
    (defer_handler_ip f) (defer_return_slot f) (saved_name (name f)) (saved_name (source_file f))
    (jit_profile f) (jit_hint_plan f).

Definition saved_dependency (d : ArtifactDependencyInfo) := mkDep (saved_string (dep_path d)) (mtime d).
Definition saved_entry (e : InterfaceDispatchEntry) :=
  mkEntry (saved_string (interface_name e)) (saved_string (record_name e))
    (saved_string (method_name e)) (saved_string (function_name e)).

Definition saved_artifact (a : LoadedBytecodeArtifact) : LoadedBytecodeArtifact :=
  mkLoaded (saved_function <$> init_function a) (map (fmap saved_function) (functions a)) (function_count a) (main_index a)
    (typecheck_flags a) (saved_list (map saved_dependency <$> dependencies a)) (dependency_count a)
    (saved_list (map saved_entry <$> interface_dispatch_entries a)) (interface_dispatch_count a).

(** ** What the writer writes *)

(** Writing in pieces is writing the bytes at once. *)
Definition writes (w : writer) (bs : list Z) : Prop := forall f, w f = fwrite bs f.

Lemma writes_andthen w1 w2 b1 b2 : writes w1 b1 -> writes w2 b2 -> writes (w1 ;; w2) (b1 ++ b2).
Proof.
  intros H1 H2 f. unfold andthen. rewrite H1. unfold fwrite. rewrite length_app.
  destruct (Nat.leb_spec (length b1) (room f)); [|destruct (Nat.leb_spec (length b1 + length b2) (room f)); [lia|done]].
  rewrite H2. unfold fwrite. simpl.
  destruct (Nat.leb_spec (length b2) (room f - length b1)), (Nat.leb_spec (length b1 + length b2) (room f)); try lia; [|done].
  rewrite <- app_assoc. do 2 f_equal. lia.
Qed.

Lemma writes_skip : writes skip [].
Proof. intros [bs n]. unfold skip, fwrite. simpl. by rewrite app_nil_r, Nat.sub_0_r. Qed.

Lemma writes_guard b w bs : b = true -> writes w bs -> writes (guard b ;; w) bs.
Proof. intros -> Hw f. unfold andthen, guard, skip. apply Hw. Qed.

Lemma writes_fwrite bs : writes (fwrite bs) bs.
Proof. by intros f. Qed.

Lemma writes_eq w bs bs' : writes w bs -> bs = bs' -> writes w bs'.
Proof. by intros H <-. Qed.

Lemma for_from_writes {A} (l : list A) (e : A -> list Z) (body : Z -> writer) : forall i,
  (forall k x, l !! k = Some x -> writes (body (i + Z.of_nat k)) (e x)) ->
  writes (for_from i (length l) body) (mjoin (map e l)).
Proof.
  induction l as [|x l IH]; intros i Hb; cbn [for_from length map mjoin]; [apply writes_skip|].
  apply writes_andthen.
  - rewrite <- (Z.add_0_r i). by apply (Hb 0%nat).
  - apply IH. intros k y Hy. replace (i + 1 + Z.of_nat k) with (i + Z.of_nat (S k)) by lia. by apply Hb.
Qed.

Lemma for_writes {A} n (l : list A) (e : A -> list Z) (body : Z -> writer) :
  counted n l -> (forall k x, l !! k = Some x -> writes (body (Z.of_nat k)) (e x)) ->
  writes (for_ n body) (mjoin (map e l)).
Proof. intros -> Hb. unfold for_. rewrite Nat2Z.id. by apply for_from_writes. Qed.

(** A loop over the elements of an array. *)
Lemma for_elems_writes {A} n (p : option (list A)) (e : A -> list Z) (k : A -> writer) :
  counted n (buffer p) -> Forall (fun x => writes (k x) (e x)) (buffer p) ->
  writes (for_ n (fun i => with_elem (at_index p i) k)) (mjoin (map e (buffer p))).
Proof.
  intros Hn Hk. apply for_writes; [done|]. intros i x Hx. destruct p as [l|]; [|done]. simpl in *.
  assert ((0 <=? Z.of_nat i) = true) as -> by (apply Z.leb_le, Nat2Z.is_nonneg). rewrite Nat2Z.id, Hx. simpl.
  rewrite Forall_lookup in Hk. by apply Hk in Hx.
Qed.

Lemma writes_u8 v : writes (write_u8 v) [u8 v].
Proof. apply writes_fwrite. Qed.
Lemma writes_u32 v : writes (write_u32_le v) (enc 4 v).
Proof. apply writes_fwrite. Qed.
Lemma writes_i32 v : writes (write_i32_le v) (enc 4 (u32 v)).
Proof. apply writes_u32. Qed.
Lemma writes_u64 v : writes (write_u64_le v) (enc 8 v).
Proof. apply writes_fwrite. Qed.
Lemma writes_i64 v : writes (write_i64_le v) (enc 8 (u64 v)).
Proof. apply writes_u64. Qed.

Lemma writes_string s : string_ok s -> writes (write_string s) (enc_string s).
Proof.
  intros [_ Hl]. unfold write_string, enc_string. set (b := str_or_empty s) in *.
  apply writes_guard; [unfold UINT32_MAX, ARTIFACT_MAX_STRING_BYTES in *; zpow; lia|].
  apply writes_andthen; [apply writes_u32|].
  destruct (Z.eqb_spec (Z.of_nat (length b)) 0) as [E|E]; [|apply writes_fwrite].
  destruct b; [apply writes_skip|simpl in E; lia].
Qed.

Create HintDb writing.
#[export] Hint Constants Opaque : writing.
#[export] Hint Resolve writes_skip writes_fwrite writes_u8 writes_u32 writes_i32 writes_u64 writes_i64 writes_string : writing.

(** Splits a sequence of writes; what remains are guards and loops. *)
Ltac writing :=
  repeat first
    [ solve [eauto 2 with writing]
    | simple apply writes_guard
    | simple apply writes_andthen ].

Lemma writes_constant c : constant_ok c -> writes (write_constant c) (enc_constant c).
Proof.
  unfold constant_ok, write_constant, enc_constant. destruct c as [[i|d|s] t]; cbn [payload type_index].
  - intros [[->| ->] _]; cbn [Z.eqb Pos.eqb orb]; writing.
  - intros [-> _]; cbn [Z.eqb Pos.eqb orb]; writing.
  - intros [[->| ->] Hs]; cbn [Z.eqb Pos.eqb orb]; writing.
Qed.

Lemma writes_plan p : writes (write_hint_plan p) (enc_plan p).
Proof. unfold write_hint_plan, enc_plan. writing. Qed.

Lemma writes_profile p : writes (write_profile p) (enc_profile p).
Proof. unfold write_profile, enc_profile. writing. Qed.
#[export] Hint Resolve writes_constant writes_plan writes_profile : writing.

Lemma counted_nonneg {A} n (l : list A) : counted n l -> 0 <= n.
Proof. intros ->. lia. Qed.

Lemma counted_bytes {A} n (p : option (list A)) :
  counted n (buffer p) -> 0 < n -> exists l, p = Some l /\ length l = Z.to_nat n.
Proof. unfold counted. intros -> Hn. destruct p as [l|]; [exists l; by rewrite Nat2Z.id|simpl in Hn; lia]. Qed.

Lemma writes_captures f :
  function_ok f ->
  writes (for_ (capture_count f) (fun i =>
    with_elem (at_index (capture_local_slots f) i) (fun slot =>
      guard (negb ((slot <? param_count f) || (local_count f <=? slot))) ;;
      write_u32_le (u32 slot)))) (mjoin (map (fun s => enc 4 (u32 s)) (buffer (capture_local_slots f)))).
Proof.
  intros Hf. apply for_elems_writes; [apply (fo_slots f Hf)|].
  eapply Forall_impl; [apply (fo_slot_range f Hf)|]. intros s Hs. writing. cbv beta in Hs. lia.
Qed.

Lemma writes_names f :
  function_ok f ->
  writes (for_ (local_count f) (fun i =>
    match debug_local_names f with
    | Some _ => with_elem (at_index (debug_local_names f) i) write_string
    | None => write_string None
    end)) (mjoin (map enc_string (names_of f))).
Proof.
  intros Hf. pose proof (fo_names f Hf) as Hn. pose proof (fo_names_ok f Hf) as Hs. unfold names_of in *.
  destruct (debug_local_names f) as [l|].
  - apply for_elems_writes; [done|]. eapply Forall_impl; [exact Hs|]. eauto with writing.
  - apply for_writes; [done|]. intros k x Hx. apply lookup_replicate in Hx as [-> _].
    apply writes_string. by split; [constructor|].
Qed.

Lemma writes_lines f :
  function_ok f ->
  writes (for_ (code_count (chunk f)) (fun i =>
    match debug_info (chunk f) with
    | Some _ => with_elem (at_index (debug_info (chunk f)) i) (fun d => write_i32_le (i32 (d_line d)))
    | None => write_i32_le 0
    end)) (mjoin (map (fun l => enc 4 (u32 (i32 l))) (lines_of (chunk f)))).
Proof.
  intros Hf. pose proof (fo_lines f Hf) as Hn. unfold lines_of in *. destruct (debug_info (chunk f)) as [l|].
  - assert (counted (code_count (chunk f)) (buffer (Some l))) as Hn' by (unfold counted in *; by rewrite length_map in Hn).
    rewrite map_map. apply for_elems_writes; [done|]. apply Forall_true. intros d. apply writes_i32.
  - apply for_writes; [done|]. intros k x Hx. apply lookup_replicate in Hx as [-> _]. apply writes_i32.
Qed.

Lemma writes_function f : function_ok f -> writes (artifact_write_function (Some f)) (enc_function f).
Proof.
  intros Hf. unfold artifact_write_function, enc_function. cbn [with_elem].
  pose proof (fo_params f Hf). pose proof (fo_locals f Hf). pose proof (fo_captures f Hf).
  pose proof (counted_nonneg _ _ (fo_slots f Hf)). pose proof (counted_nonneg _ _ (fo_code f Hf)) as Hc0.
  pose proof (counted_nonneg _ _ (fo_pool f Hf)).
  pose proof (fo_name f Hf). pose proof (fo_source f Hf).
  writing; try lia.
  - by destruct (is_async f).
  - by apply writes_captures.
  - by apply writes_names.
  - destruct (Z.ltb_spec 0 (code_count (chunk f))) as [Hc|Hc].
    + destruct (counted_bytes _ _ (fo_code f Hf) Hc) as (l & -> & Hl). simpl. writing; [lia|].
      rewrite take_ge by lia. apply writes_fwrite.
    + assert (code_count (chunk f) = 0) as E by lia. pose proof (fo_code f Hf) as Hb. unfold counted in Hb.
      destruct (buffer (code (chunk f))); [apply writes_skip|simpl in Hb; lia].
  - by apply writes_lines.
  - apply for_elems_writes; [apply (fo_pool f Hf)|]. eapply Forall_impl; [apply (fo_pool_ok f Hf)|]. eauto with writing.
Qed.

Lemma writes_artifact a : artifact_ok a -> writes (write_artifact a) (enc_artifact a).
Proof.
  intros Ha. unfold write_artifact, enc_artifact. writing.
  - apply for_elems_writes; [apply (ao_deps a Ha)|]. eapply Forall_impl; [apply (ao_deps_ok a Ha)|].
    intros d [Hd _]. unfold write_dependency, enc_dependency. writing.
  - apply for_elems_writes; [apply (ao_entries a Ha)|]. eapply Forall_impl; [apply (ao_entries_ok a Ha)|].
    intros e (? & ? & ? & ?). unfold write_entry, enc_entry. writing.
  - by destruct (init_function a).
  - apply (for_elems_writes _ (Some (functions a))); [apply (ao_functions a Ha)|].
    eapply Forall_impl; [apply (ao_functions_ok a Ha)|]. intros f (g & -> & Hg). by apply writes_function.
  - pose proof (ao_init a Ha). destruct (init_function a); [by apply writes_function|apply writes_skip].
Qed.

(** ** What the loader reads *)

(** [m] consumes [bs], wherever it stands, and returns [a]. *)
Definition decodes {A} (m : reader A) (bs : list Z) (a : A) : Prop :=
  forall pre post,
    m (mkReader (pre ++ bs ++ post) (Z.of_nat (length pre))) =
    inr (a, mkReader (pre ++ bs ++ post) (Z.of_nat (length (pre ++ bs)))).

Lemma decodes_ret {A} (a : A) : decodes (ret a) [] a.
Proof. intros pre post. unfold ret. by rewrite app_nil_r. Qed.

Lemma decodes_bind {A B} (m : reader A) (k : A -> reader B) b1 b2 a b :
  decodes m b1 a -> decodes (k a) b2 b -> decodes (bind m k) (b1 ++ b2) b.
Proof.
  intros H1 H2 pre post. unfold bind. rewrite <- app_assoc, H1.
  specialize (H2 (pre ++ b1) post). rewrite <- app_assoc in H2. rewrite H2. by rewrite <- app_assoc.
Qed.

Lemma decodes_message {A} (m : reader A) bs a t : decodes m bs a -> decodes (m <?> t) bs a.
Proof. intros H pre post. unfold or_message. by rewrite H. Qed.

Lemma decodes_check b e : b = true -> decodes (check b e) [] tt.
Proof. intros ->. apply decodes_ret. Qed.

Lemma decodes_since {A} version v (m : reader A) old bs a :
  (v <=? version) = true -> decodes m bs a -> decodes (since version v m old) bs a.
Proof. unfold since. by intros ->. Qed.

Lemma decodes_val {A} (m : reader A) bs a a' : decodes m bs a -> a = a' -> decodes m bs a'.
Proof. by intros H <-. Qed.

Lemma decodes_read n bs : n = Z.of_nat (length bs) -> decodes (artifact_reader_read n) bs bs.
Proof.
  intros -> pre post. unfold artifact_reader_read, size. cbn [data offset]. rewrite !length_app.
  destruct (Z.ltb_spec (Z.of_nat (length pre + (length bs + length post))) (Z.of_nat (length bs))); [lia|].
  destruct (Z.ltb_spec (Z.of_nat (length pre + (length bs + length post)) - Z.of_nat (length bs)) (Z.of_nat (length pre))); [lia|].
  cbn [orb]. rewrite !Nat2Z.id, drop_app_length, take_app_length. do 3 f_equal. lia.
Qed.

(** A word is the sum of its bytes. *)
Lemma word_le_cons b bs : is_u8 b -> word_le (b :: bs) = b + 256 * word_le bs.
Proof.
  intros Hb. change (word_le (b :: bs)) with (Z.lor b (Z.shiftl (word_le bs) 8)).
  rewrite Z.lor_comm, lor_shiftl_add by (done || lia). change (2 ^ 8) with 256. lia.
Qed.

Lemma byte_of_range v k : is_u8 (byte_of v k).
Proof. apply u8_range. Qed.

Lemma byte_of_spec v k : 0 <= k -> byte_of v k = v / 2 ^ k mod 256.
Proof.
  intros Hk. unfold byte_of. change 255 with (2 ^ 8 - 1). rewrite land_mask, shiftr_div by lia.
  rewrite u8_small; [done|]. apply Z.mod_pos_bound. lia.
Qed.

Lemma enc_S n v : enc (S n) v = byte_of v 0 :: enc n (v / 256).
Proof.
  unfold enc. cbn [seq map]. f_equal. rewrite <- seq_shift, map_map. apply map_ext. intros i.
  rewrite !byte_of_spec by lia. rewrite Z.div_div by lia. do 2 f_equal.
  change 256 with (2 ^ 8). rewrite <- Z.pow_add_r by lia. f_equal. lia.
Qed.

Lemma word_le_enc n : forall v, 0 <= v < 2 ^ (8 * Z.of_nat n) -> word_le (enc n v) = v.
Proof.
  induction n as [|n IH]; intros v Hv; [unfold enc, word_le; simpl in *; lia|].
  rewrite enc_S, word_le_cons by apply byte_of_range. rewrite IH.
  - rewrite byte_of_spec by lia. rewrite Z.pow_0_r, Z.div_1_r. rewrite Z.add_comm. symmetry. apply Z.div_mod. lia.
  - replace (8 * Z.of_nat (S n)) with (8 + 8 * Z.of_nat n) in Hv by lia. rewrite Z.pow_add_r in Hv by lia.
    split; [apply Z.div_pos; lia|]. apply Z.div_lt_upper_bound; [lia|]. change 256 with (2 ^ 8). lia.
Qed.

Lemma enc_length n v : length (enc n v) = n.
Proof. unfold enc. by rewrite length_map, length_seq. Qed.

Lemma decodes_word n v :
  0 <= v < 2 ^ (8 * Z.of_nat n) ->
  decodes (let! bs := artifact_reader_read (Z.of_nat n) in ret (word_le bs)) (enc n v) v.
Proof.
  intros Hv. rewrite <- (app_nil_r (enc n v)). eapply decodes_bind.
  - apply decodes_read. by rewrite enc_length.
  - rewrite word_le_enc by done. apply decodes_ret.
Qed.

Lemma decodes_u32 v : is_u32 v -> decodes read_u32_le (enc 4 v) v.
Proof. apply (decodes_word 4). Qed.
Lemma decodes_u64 v : is_u64 v -> decodes read_u64_le (enc 8 v) v.
Proof. apply (decodes_word 8). Qed.
Lemma decodes_double v : is_u64 v -> decodes read_double_le (enc 8 v) v.
Proof. apply decodes_u64. Qed.

Lemma decodes_map {A B} (m : reader A) (g : A -> B) bs a b :
  decodes m bs a -> g a = b -> decodes (bind m (fun x => ret (g x))) bs b.
Proof. intros Hm <-. rewrite <- (app_nil_r bs). eapply decodes_bind; [exact Hm|apply decodes_ret]. Qed.

Lemma decodes_u8 v : is_u8 v -> decodes read_u8 [u8 v] v.
Proof.
  intros Hv. unfold read_u8. eapply decodes_map; [by apply decodes_read|].
  rewrite u8_small by done. rewrite word_le_cons by done. unfold word_le. simpl. lia.
Qed.
Lemma decodes_i32 v : is_i32 v -> decodes read_i32_le (enc 4 (u32 v)) v.
Proof.
  intros Hv. eapply decodes_map; [apply decodes_u32, u32_range|]. apply (signed_unsigned 32); [lia|exact Hv].
Qed.
Lemma decodes_i64 v : is_i64 v -> decodes read_i64_le (enc 8 (u64 v)) v.
Proof.
  intros Hv. eapply decodes_map; [apply decodes_u64, u64_range|]. apply (signed_unsigned 64); [lia|exact Hv].
Qed.

Lemma decodes_string s : string_ok s -> decodes read_string (enc_string s) (str_or_empty s).
Proof.
  intros [Hb Hl]. unfold read_string, enc_string. set (b := str_or_empty s) in *.
  eapply decodes_bind; [apply decodes_u32; unfold ARTIFACT_MAX_STRING_BYTES in *; zbounds|].
  rewrite <- (app_nil_l b) at 2. eapply decodes_bind; [apply decodes_check; lia|].
  destruct (Z.ltb_spec 0 (Z.of_nat (length b))) as [H|H].
  - eapply decodes_map; [by apply decodes_read|]. apply c_string_id.
    eapply Forall_impl; [exact Hb|]. intros c ?. simpl in *. lia.
  - destruct b; [apply decodes_ret|simpl in H; lia].
Qed.

Lemma decodes_bind_check {B} b e (k : unit -> reader B) bs a :
  b = true -> decodes (k tt) bs a -> decodes (bind (check b e) k) bs a.
Proof. intros Hb Hk. rewrite <- (app_nil_l bs). eapply decodes_bind; [by apply decodes_check|done]. Qed.

Lemma decodes_loop {A B} (m : reader B) (e : A -> list Z) (g : A -> B) l :
  Forall (fun x => decodes m (e x) (g x)) l -> decodes (read_loop (length l) m) (mjoin (map e l)) (map g l).
Proof.
  induction 1 as [|x l Hx Hl IH]; cbn [read_loop length map mjoin]; [apply decodes_ret|].
  eapply decodes_bind; [exact Hx|]. eapply decodes_map; [exact IH|done].
Qed.

Lemma decodes_n {A B} n (m : reader B) (e : A -> list Z) (g : A -> B) l :
  counted n l -> Forall (fun x => decodes m (e x) (g x)) l -> decodes (read_n n m) (mjoin (map e l)) (map g l).
Proof. intros -> H. unfold read_n. rewrite Nat2Z.id. by apply decodes_loop. Qed.

Create HintDb reading.
#[export] Hint Constants Opaque : reading.
#[export] Hint Resolve decodes_u8 decodes_u32 decodes_i32 decodes_u64 decodes_i64 decodes_double decodes_string : reading.

(** Follows a sequence of reads; what remains are the bounds and the loops. *)
Ltac decoding :=
  repeat first
    [ simple apply decodes_bind_check
    | simple eapply decodes_bind
    | simple apply decodes_message
    | simple apply decodes_ret
    | solve [eauto 3 with reading] ].

Lemma decodes_nil {A} (m : reader A) bs a : decodes m (bs ++ []) a -> decodes m bs a.
Proof. by rewrite app_nil_r. Qed.

Lemma u32_count n : 0 <= n <= INT_MAX -> is_u32 n /\ u32 n = n /\ i32 n = n.
Proof. unfold INT_MAX. intros H. split; [zbounds|]. split; [apply u32_small|apply i32_small]; zbounds. Qed.

Lemma max_count n : n <= ARTIFACT_MAX_COUNT -> n <= INT_MAX.
Proof. unfold ARTIFACT_MAX_COUNT, INT_MAX. zpow. lia. Qed.

Lemma decodes_constant c : constant_ok c -> decodes read_constant (enc_constant c) (saved_constant c).
Proof.
  unfold constant_ok, read_constant, enc_constant, saved_constant. destruct c as [[i|d|s] t]; cbn [payload type_index].
  all: intros [Ht Hp]; eapply decodes_bind; [apply decodes_message, decodes_i32; zbounds|].
  - destruct Ht as [->| ->]; cbn [Z.eqb Pos.eqb orb]; by eapply decodes_map; [apply decodes_message, decodes_i64|].
  - subst t. cbn [Z.eqb Pos.eqb orb]. by eapply decodes_map; [apply decodes_message, decodes_double|].
  - destruct Ht as [->| ->]; cbn [Z.eqb Pos.eqb orb]; by eapply decodes_map; [apply decodes_message, decodes_string|].
Qed.

(** Resolves the version tests for the version that is written. *)
Ltac current_version :=
  repeat match goal with |- context [?v <=? ARTIFACT_VERSION] => change (v <=? ARTIFACT_VERSION) with true end; cbv iota.

Lemma decodes_plan p : plan_ok p -> decodes (read_hint_plan ARTIFACT_VERSION) (enc_plan p) p.
Proof.
  intros []. unfold read_hint_plan, since. current_version.
  apply decodes_nil. unfold enc_plan. rewrite <- !app_assoc.
  eapply decodes_val; [decoding|by destruct p].
Qed.

(** The part of a profile before its summary, and the summary. *)
Definition enc_profile_head (p : JitFunctionProfile) : list Z :=
  [u8 (p_flags p)] ++ [u8 (support_mask p)] ++ [u8 (native_family_mask p)] ++
  enc 4 (u32 (p_param_count p)) ++ enc 4 (u32 (p_local_count p)) ++ enc 4 (u32 (p_capture_count p)).
Definition enc_summary (s : JitFunctionSummary) : list Z :=
  enc 4 (u32 (s_kind s)) ++ enc 4 (u32 (s_op s)) ++ [u8 (slot0 s)] ++ [u8 (slot1 s)] ++
  enc 8 (u64 (s_const0 s)) ++ enc 8 (u64 (s_const1 s)).

Lemma enc_profile_split p : enc_profile p ++ [] = enc_profile_head p ++ enc_summary (summary p) ++ [].
Proof. unfold enc_profile, enc_profile_head, enc_summary. by rewrite <- !app_assoc. Qed.

Lemma decodes_profile p params locals captures async hint :
  profile_ok p -> decodes (read_profile ARTIFACT_VERSION params locals captures async hint) (enc_profile p) p.
Proof.
  intros []. unfold read_profile, read_profile_head, read_summary, since. current_version.
  apply decodes_nil. rewrite enc_profile_split. eapply decodes_val.
  - eapply decodes_bind; [apply decodes_message, decodes_nil; unfold enc_profile_head; rewrite <- !app_assoc; decoding|]. cbv beta iota.
    eapply decodes_bind; [apply decodes_message, decodes_nil; unfold enc_summary; rewrite <- !app_assoc; decoding|]. decoding.
  - by destruct p as [? ? ? ? ? ? []].
Qed.

Lemma map_ext_Forall {A B} (f g : A -> B) l : Forall (fun x => f x = g x) l -> map f l = map g l.
Proof. induction 1; simpl; congruence. Qed.

Lemma map_Forall_id {A} (f : A -> A) l : Forall (fun x => f x = x) l -> map f l = l.
Proof. intros H. rewrite (map_ext_Forall _ id) by done. apply map_id. Qed.

(** A counted array behind a pointer. *)
Lemma counted_cases {A} n (l : list A) : counted n l -> (n = 0 /\ l = []) \/ (0 < n /\ l <> []).
Proof. intros ->. destruct l; [by left|right; split; [simpl; lia|done]]. Qed.

Lemma decodes_chunk f :
  function_ok f ->
  decodes read_chunk (enc 4 (u32 (code_count (chunk f))) ++ buffer (code (chunk f)) ++
    enc 4 (u32 (code_count (chunk f))) ++ mjoin (map (fun l => enc 4 (u32 (i32 l))) (lines_of (chunk f))))
    (saved_chunk (chunk f)).
Proof.
  intros Hf. pose proof (counted_nonneg _ _ (fo_code f Hf)). pose proof (fo_code_max f Hf) as Hmax.
  pose proof (max_count _ Hmax). destruct (u32_count (code_count (chunk f))) as (Hu & -> & _); [done|].
  assert (decodes (if 0 <? code_count (chunk f)
                   then artifact_reader_read (code_count (chunk f)) <?> "Failed to read function bytecode" else ret [])
            (buffer (code (chunk f))) (buffer (code (chunk f)))) as Hbytes.
  { destruct (counted_cases _ _ (fo_code f Hf)) as [[-> ->]|[Hpos Hne]]; [apply decodes_ret|].
    assert ((0 <? code_count (chunk f)) = true) as -> by lia. apply decodes_message, decodes_read, (fo_code f Hf). }
  unfold read_chunk. eapply decodes_bind; [by apply decodes_message, decodes_u32|].
  apply decodes_bind_check; [lia|]. eapply decodes_bind; [exact Hbytes|].
  eapply decodes_bind; [by apply decodes_message, decodes_u32|]. apply decodes_bind_check; [lia|].
  eapply decodes_map.
  - apply (decodes_n _ _ _ id); [apply (fo_lines f Hf)|]. eapply Forall_impl; [apply (fo_lines_ok f Hf)|].
    intros l Hl. apply decodes_message. cbv beta in Hl. rewrite (i32_small l Hl). by apply decodes_i32.
  - cbv beta. rewrite map_id. unfold saved_chunk.
    destruct (counted_cases _ _ (fo_code f Hf)) as [[-> ->]|[Hpos Hne]]; [done|].
    assert ((0 <? code_count (chunk f)) = true) as -> by lia. by destruct (buffer (code (chunk f))).
Qed.

Lemma decodes_pool f :
  function_ok f ->
  decodes read_pool (enc 4 (u32 (constant_count (pool f))) ++ mjoin (map enc_constant (buffer (constants (pool f)))))
    (saved_pool (pool f)).
Proof.
  intros Hf. pose proof (counted_nonneg _ _ (fo_pool f Hf)). pose proof (fo_pool_max f Hf) as Hmax.
  pose proof (max_count _ Hmax). destruct (u32_count (constant_count (pool f))) as (Hu & -> & _); [done|].
  unfold read_pool, saved_pool. eapply decodes_bind; [by apply decodes_message, decodes_u32|].
  apply decodes_bind_check; [lia|]. destruct (counted_cases _ _ (fo_pool f Hf)) as [[-> ->]|[Hpos Hne]]; [apply decodes_ret|].
  assert ((0 <? constant_count (pool f)) = true) as -> by lia. eapply decodes_map.
  - apply decodes_n with (g := saved_constant); [apply (fo_pool f Hf)|].
    eapply Forall_impl; [apply (fo_pool_ok f Hf)|]. apply decodes_constant.
  - cbv beta. by destruct (buffer (constants (pool f))).
Qed.

Lemma decodes_captures f :
  function_ok f ->
  decodes (read_captures (param_count f) (local_count f))
    (enc 4 (u32 (capture_count f)) ++ mjoin (map (fun s => enc 4 (u32 s)) (buffer (capture_local_slots f))))
    (capture_count f, saved_list (capture_local_slots f)).
Proof.
  intros Hf. pose proof (counted_nonneg _ _ (fo_slots f Hf)). pose proof (fo_captures f Hf). pose proof (fo_locals f Hf).
  pose proof (fo_params f Hf). destruct (u32_count (capture_count f)) as (Hu & -> & _); [lia|].
  unfold read_captures, saved_list. eapply decodes_bind; [by apply decodes_message, decodes_u32|].
  apply decodes_bind_check; [lia|]. destruct (counted_cases _ _ (fo_slots f Hf)) as [[-> ->]|[Hpos Hne]]; [apply decodes_ret|].
  assert ((0 <? capture_count f) = true) as -> by lia. eapply decodes_map.
  - apply decodes_n with (g := id); [apply (fo_slots f Hf)|]. eapply Forall_impl; [apply (fo_slot_range f Hf)|].
    intros s Hs. cbv beta in Hs. destruct (u32_count s) as (Hus & -> & Hi); [lia|]. unfold read_capture_slot.
    apply decodes_nil. eapply decodes_bind; [by apply decodes_message, decodes_u32|]. apply decodes_bind_check; [lia|].
    unfold id. rewrite <- Hi at 2. apply decodes_ret.
  - cbv beta. rewrite map_id. by destruct (buffer (capture_local_slots f)).
Qed.

Lemma decodes_names f :
  function_ok f ->
  decodes (let! l := read_n (local_count f) (read_string <?> "Failed to read debug local name") in ret (map nonempty l))
    (mjoin (map enc_string (names_of f))) (map saved_name (names_of f)).
Proof.
  intros Hf. eapply decodes_map.
  - apply decodes_n with (g := str_or_empty); [apply (fo_names f Hf)|]. eapply Forall_impl; [apply (fo_names_ok f Hf)|].
    intros s Hs. by apply decodes_message, decodes_string.
  - by rewrite map_map.
Qed.

Lemma decodes_two_i32 v w :
  is_i32 v -> is_i32 w ->
  decodes (let! a := read_i32_le in let! b := read_i32_le in ret (a, b)) (enc 4 (u32 v) ++ enc 4 (u32 w)) (v, w).
Proof. intros. eapply decodes_bind; [by apply decodes_i32|]. by eapply decodes_map; [apply decodes_i32|]. Qed.

Lemma decodes_two_u32 v w :
  is_u32 v -> is_u32 w ->
  decodes (let! a := read_u32_le in let! b := read_u32_le in ret (a, b)) (enc 4 v ++ enc 4 w) (v, w).
Proof. intros. eapply decodes_bind; [by apply decodes_u32|]. by eapply decodes_map; [apply decodes_u32|]. Qed.

(** The encoding of a function in the groups the loader reads. *)
Lemma enc_function_split f :
  enc_function f =
  enc_string (name f) ++ enc_string (source_file f) ++ [u8 (if is_async f then 1 else 0)] ++
  (enc 4 (u32 (defer_handler_ip f)) ++ enc 4 (u32 (defer_return_slot f))) ++
  (enc 4 (u32 (param_count f)) ++ enc 4 (u32 (local_count f))) ++
  (enc 4 (u32 (capture_count f)) ++ mjoin (map (fun s => enc 4 (u32 s)) (buffer (capture_local_slots f)))) ++
  mjoin (map enc_string (names_of f)) ++
  (enc 4 (u32 (code_count (chunk f))) ++ buffer (code (chunk f)) ++
   enc 4 (u32 (code_count (chunk f))) ++ mjoin (map (fun l => enc 4 (u32 (i32 l))) (lines_of (chunk f)))) ++
  (enc 4 (u32 (constant_count (pool f))) ++ mjoin (map enc_constant (buffer (constants (pool f))))) ++
  enc_plan (jit_hint_plan f) ++ enc_profile (jit_profile f).
Proof. unfold enc_function. rewrite <- !app_assoc. by destruct (is_async f). Qed.

Lemma decodes_function junk f :
  function_ok f -> decodes (artifact_read_function junk ARTIFACT_VERSION) (enc_function f) (saved_function f).
Proof.
  intros Hf. pose proof (fo_params f Hf) as Hp. pose proof (fo_locals f Hf) as Hl.
  destruct (u32_count (param_count f) Hp) as (Hup & Ep & _). destruct (u32_count (local_count f) Hl) as (Hul & El & _).
  rewrite enc_function_split, Ep, El. unfold artifact_read_function, since. current_version. cbv zeta.
  eapply decodes_bind; [by apply decodes_message, decodes_string, (fo_name f Hf)|].
  eapply decodes_bind; [by apply decodes_message, decodes_string, (fo_source f Hf)|].
  eapply decodes_bind; [apply decodes_message, decodes_u8; by destruct (is_async f)|].
  eapply decodes_bind; [apply decodes_message, decodes_two_i32; [apply (fo_ip f Hf)|apply (fo_slot f Hf)]|]. cbv beta iota.
  eapply decodes_bind; [by apply decodes_message, decodes_two_u32|]. cbv beta iota.
  apply decodes_bind_check; [lia|].
  eapply decodes_bind; [by apply decodes_captures|]. cbv beta iota.
  eapply decodes_bind; [by apply decodes_names|].
  eapply decodes_bind; [by apply decodes_chunk|].
  eapply decodes_bind; [by apply decodes_pool|].
  eapply decodes_bind; [apply decodes_message, decodes_plan, (fo_plan f Hf)|].
  eapply decodes_map; [apply decodes_profile, (fo_profile f Hf)|].
  cbv beta. unfold saved_function. f_equal; [|by destruct (is_async f)].
  destruct (counted_cases _ _ (fo_names f Hf)) as [[-> ->]|[Hpos Hne]]; [done|].
  assert ((0 <? local_count f) = true) as -> by lia. unfold saved_list. simpl. by destruct (names_of f).
Qed.

Lemma decodes_array {A B} n (p : option (list A)) (m : reader B) (e : A -> list Z) (g : A -> B) :
  counted n (buffer p) -> n <= ARTIFACT_MAX_COUNT -> Forall (fun x => decodes m (e x) (g x)) (buffer p) ->
  decodes (read_array m) (enc 4 (u32 n) ++ mjoin (map e (buffer p))) (n, saved_list (map g <$> p)).
Proof.
  intros Hn Hmax He. pose proof (counted_nonneg _ _ Hn). pose proof (max_count _ Hmax).
  destruct (u32_count n) as (Hu & -> & _); [done|]. unfold read_array.
  eapply decodes_bind; [by apply decodes_u32|]. apply decodes_bind_check; [lia|].
  destruct (counted_cases _ _ Hn) as [[-> Hnil]|[Hpos Hne]].
  - destruct p as [[|x l]|]; [apply decodes_ret|done|apply decodes_ret].
  - assert ((0 <? n) = true) as -> by lia. eapply decodes_map; [by apply decodes_n|].
    destruct p as [[|x l]|]; done.
Qed.

Lemma decodes_dependency d : dependency_ok d -> decodes read_dependency (enc_dependency d) (saved_dependency d).
Proof.
  intros [Hp Ht]. eapply decodes_bind; [by apply decodes_string|]. by eapply decodes_map; [apply decodes_i64|].
Qed.

Lemma decodes_entry e : entry_ok e -> decodes read_entry (enc_entry e) (saved_entry e).
Proof.
  intros (? & ? & ? & ?). do 3 (eapply decodes_bind; [by apply decodes_string|]).
  by eapply decodes_map; [apply decodes_string|].
Qed.

Lemma decodes_functions junk l :
  Forall (fun f => exists g, f = Some g /\ function_ok g) l ->
  decodes (read_loop (length l) (artifact_read_function junk ARTIFACT_VERSION)) (mjoin (map enc_opt l))
    (omap (fmap saved_function) l).
Proof.
  induction 1 as [|f l (g & -> & Hg) Hl IH]; cbn [length read_loop map mjoin omap]; [apply decodes_ret|].
  eapply decodes_bind; [by apply decodes_function|]. by eapply decodes_map.
Qed.

Lemma map_Some_omap l :
  Forall (fun f => exists g, f = Some g /\ function_ok g) l ->
  map Some (omap (fmap saved_function) l) = map (fmap saved_function) l.
Proof. induction 1 as [|f l (g & -> & Hg) Hl IH]; [done|]. simpl. by rewrite <- IH. Qed.

(** The encoding of a program in the groups the loader reads. *)
Lemma enc_artifact_split a :
  enc_artifact a =
  ARTIFACT_MAGIC ++ enc 4 ARTIFACT_VERSION ++ enc 4 (typecheck_flags a) ++
  (enc 4 (u32 (dependency_count a)) ++ mjoin (map enc_dependency (buffer (dependencies a)))) ++
  (enc 4 (u32 (interface_dispatch_count a)) ++ mjoin (map enc_entry (buffer (interface_dispatch_entries a)))) ++
  enc 4 (u32 (function_count a)) ++ enc 4 (u32 (main_index a)) ++
  [u8 (match init_function a with Some _ => 1 | None => 0 end)] ++
  mjoin (map enc_opt (functions a)) ++ enc_opt (init_function a).
Proof. unfold enc_artifact. rewrite <- !app_assoc. by destruct (init_function a). Qed.

Lemma decodes_artifact junk a :
  artifact_ok a -> decodes (read_artifact junk) (enc_artifact a) (saved_artifact a).
Proof.
  intros Ha. pose proof (ao_functions_max a Ha) as Hmax. pose proof (max_count _ Hmax) as Hi.
  pose proof (ao_main a Ha). destruct (u32_count (function_count a)) as (Hu & Eu & _); [lia|].
  rewrite enc_artifact_split, Eu. unfold read_artifact.
  eapply decodes_bind; [by apply decodes_read|]. apply decodes_bind_check; [by apply bool_decide_eq_true|].
  eapply decodes_bind; [by apply decodes_u32|]. apply decodes_bind_check; [done|].
  eapply decodes_bind; [by apply decodes_u32, (ao_flags a Ha)|].
  eapply decodes_bind.
  { apply decodes_array with (g := saved_dependency); [apply (ao_deps a Ha)|apply (ao_deps_max a Ha)|].
    eapply Forall_impl; [apply (ao_deps_ok a Ha)|]. apply decodes_dependency. }
  cbv beta iota. unfold since. current_version. eapply decodes_bind.
  { apply decodes_array with (g := saved_entry); [apply (ao_entries a Ha)|apply (ao_entries_max a Ha)|].
    eapply Forall_impl; [apply (ao_entries_ok a Ha)|]. apply decodes_entry. }
  cbv beta iota. eapply decodes_bind; [by apply decodes_u32|]. apply decodes_bind_check; [lia|].
  eapply decodes_bind; [apply decodes_i32; unfold INT_MAX in *; zbounds|].
  eapply decodes_bind; [apply decodes_u8; by destruct (init_function a)|]. apply decodes_bind_check; [lia|].
  eapply decodes_bind.
  { unfold read_n. rewrite (ao_functions a Ha), Nat2Z.id. apply decodes_functions, (ao_functions_ok a Ha). }
  eapply decodes_map with (a := saved_function <$> init_function a).
  - pose proof (ao_init a Ha). destruct (init_function a); simpl; [|apply decodes_ret].
    by eapply decodes_map; [apply decodes_function|].
  - unfold saved_artifact. by rewrite map_Some_omap by apply (ao_functions_ok a Ha).
Qed.

(** Writing a well-formed program leaves its encoding, if the device has room
    for it, and loading that gives the program back. *)
Lemma write_spec a path n :
  artifact_ok a -> path <> [] -> (length (enc_artifact a) <= n)%nat ->
  artifact_write_file path (Some n) true a = inr (enc_artifact a).
Proof.
  intros Ha Hpath Hn. unfold artifact_write_file. destruct path; [done|].
  pose proof (ao_main a Ha). pose proof (counted_nonneg _ _ (ao_deps a Ha)).
  pose proof (counted_nonneg _ _ (ao_entries a Ha)).
  destruct (Z.leb_spec (function_count a) 0); [lia|].
  assert ((main_index a <? 0) || (function_count a <=? main_index a) = false) as -> by lia.
  destruct (Z.ltb_spec (dependency_count a) 0); [lia|]. destruct (Z.ltb_spec (interface_dispatch_count a) 0); [lia|].
  assert ((0 <? interface_dispatch_count a) &&
    match interface_dispatch_entries a with None => true | Some _ => false end = false) as ->.
  { pose proof (ao_entries a Ha) as E. unfold counted in E. destruct (interface_dispatch_entries a); [apply andb_false_r|].
    simpl in E. rewrite E. done. }
  rewrite (writes_artifact a Ha). unfold fwrite. simpl room. apply Nat.leb_le in Hn. by rewrite Hn.
Qed.

Lemma load_spec junk a : artifact_ok a -> artifact_load_bytes junk (enc_artifact a) = inr (saved_artifact a).
Proof.
  intros Ha. unfold artifact_load_bytes. pose proof (decodes_artifact junk a Ha [] []) as H.
  rewrite !app_nil_l, !app_nil_r in H. change (Z.of_nat (length [])) with 0 in H. destruct (enc_artifact a) as [|b bs] eqn:E; [done|]. rewrite H. cbn [offset].
  unfold size. cbn [data]. by rewrite Z.eqb_refl.
Qed.
