(* ===== verification/ArtifactLoad.v ===== *)
(** * Loading bytecode artifacts: the loader of [src/src/artifact.c] on any
    input

    A program that loads, from whatever bytes and version, is well formed and
    in the form that writing and loading keeps. A successful load depends on
    all of its input: no proper prefix of the input loads, and nothing may
    follow it. The properties of the writer and the loader follow. *)

From S2P Require Import Prelude.
From Stdlib Require Import String.
From stdpp Require Import list.
From S2P Require Import Bytecode Artifact.

Open Scope Z_scope.
Open Scope list_scope.
Open Scope artifact_scope.

(** ** What the loader returns on any input *)

(** A read that succeeds stays within the data, does not depend on what
    follows, and gives a result with [P]. *)
Definition reads {A} (m : reader A) (P : A -> Prop) : Prop :=
  forall d o a r, Forall is_u8 d -> 0 <= o <= Z.of_nat (length d) -> m (mkReader d o) = inr (a, r) ->
    exists o', r = mkReader d o' /\ o <= o' <= Z.of_nat (length d) /\ P a /\
      forall e, m (mkReader (d ++ e) o) = inr (a, mkReader (d ++ e) o').

Lemma reads_ret {A} (a : A) (P : A -> Prop) : P a -> reads (ret a) P.
Proof. intros Ha d o b r Hd Ho [= <- <-]. exists o. split; [done|]. split; [lia|done]. Qed.

Lemma reads_bind {A B} (m : reader A) (k : A -> reader B) P Q :
  reads m P -> (forall a, P a -> reads (k a) Q) -> reads (bind m k) Q.
Proof.
  intros Hm Hk d o b r Hd Ho. unfold bind. destruct (m (mkReader d o)) as [e|[a r1]] eqn:E; [done|].
  destruct (Hm d o a r1 Hd Ho E) as (o1 & -> & Ho1 & Ha & He). intros Hr.
  destruct (Hk a Ha d o1 b r Hd) as (o2 & -> & Ho2 & Hb & Hf); [lia|done|].
  exists o2. split; [done|]. split; [lia|]. split; [done|]. intros e. by rewrite He, Hf.
Qed.

Lemma reads_message {A} (m : reader A) t P : reads m P -> reads (m <?> t) P.
Proof.
  intros Hm d o a r Hd Ho. unfold or_message. destruct (m (mkReader d o)) as [e|x] eqn:E; [done|]. intros [= ->].
  destruct (Hm d o a r Hd Ho E) as (o1 & -> & Ho1 & Ha & He). exists o1. split; [done|]. split; [done|].
  split; [done|]. intros e. by rewrite He.
Qed.

Lemma reads_fail {A} e (P : A -> Prop) : reads (fail_read e) P.
Proof. by intros d o a r Hd Ho Hx. Qed.

Lemma reads_check b e : reads (check b e) (fun _ => b = true).
Proof. destruct b; [by apply reads_ret|apply reads_fail]. Qed.

Lemma reads_impl {A} (m : reader A) (P Q : A -> Prop) : reads m P -> (forall a, P a -> Q a) -> reads m Q.
Proof.
  intros Hm HPQ d o a r Hd Ho E. destruct (Hm d o a r Hd Ho E) as (o1 & ? & ? & Ha & ?). exists o1. by auto.
Qed.

Lemma reads_since {A} version v (m : reader A) old P : reads m P -> P old -> reads (since version v m old) P.
Proof. intros Hm Ho. unfold since. destruct (v <=? version); [done|by apply reads_ret]. Qed.

Lemma reads_if {A} (b : bool) (m1 m2 : reader A) P :
  (b = true -> reads m1 P) -> (b = false -> reads m2 P) -> reads (if b then m1 else m2) P.
Proof. intros H1 H2. destruct b; auto. Qed.

Lemma reads_read n :
  0 <= n -> reads (artifact_reader_read n) (fun bs => Z.of_nat (length bs) = n /\ Forall is_u8 bs).
Proof.
  intros Hn d o a r Hd Ho. unfold artifact_reader_read, size. cbn [data offset].
  destruct (Z.ltb_spec (Z.of_nat (length d)) n); [done|].
  destruct (Z.ltb_spec (Z.of_nat (length d) - n) o); [done|]. cbn [orb]. intros [= <- <-].
  exists (o + n). split; [done|]. split; [lia|]. split.
  - split; [rewrite length_take, length_drop; lia|by apply Forall_take, Forall_drop].
  - intros e. rewrite length_app.
    destruct (Z.ltb_spec (Z.of_nat (length d + length e)) n); [lia|].
    destruct (Z.ltb_spec (Z.of_nat (length d + length e) - n) o); [lia|]. cbn [orb]. do 2 f_equal.
    rewrite drop_app_le by lia. rewrite take_app_le; [done|]. rewrite length_drop. lia.
Qed.

Lemma word_le_range bs : Forall is_u8 bs -> 0 <= word_le bs < 2 ^ (8 * Z.of_nat (length bs)).
Proof.
  induction 1 as [|b bs Hb Hbs IH]; [simpl; lia|]. rewrite word_le_cons by done. cbn [length].
  replace (8 * Z.of_nat (S (length bs))) with (8 + 8 * Z.of_nat (length bs)) by lia. rewrite Z.pow_add_r by lia.
  change (2 ^ 8) with 256 in *. unfold is_u8 in Hb. change (2 ^ 8) with 256 in Hb. lia.
Qed.

Lemma reads_word n :
  0 <= n -> reads (let! bs := artifact_reader_read n in ret (word_le bs)) (fun v => 0 <= v < 2 ^ (8 * n)).
Proof.
  intros Hn. eapply reads_bind; [by apply reads_read|]. intros bs [<- Hb]. by apply reads_ret, word_le_range.
Qed.

Lemma reads_u8 : reads read_u8 is_u8.
Proof. by apply (reads_word 1). Qed.
Lemma reads_u32 : reads read_u32_le is_u32.
Proof. by apply (reads_word 4). Qed.
Lemma reads_u64 : reads read_u64_le is_u64.
Proof. by apply (reads_word 8). Qed.
Lemma reads_i32 : reads read_i32_le is_i32.
Proof. eapply reads_bind; [apply reads_u32|]. intros v _. apply reads_ret, i32_range. Qed.
Lemma reads_i64 : reads read_i64_le is_i64.
Proof. eapply reads_bind; [apply reads_u64|]. intros v _. apply reads_ret, i64_range. Qed.

Lemma reads_string : reads read_string (fun s => string_ok (Some s)).
Proof.
  eapply reads_bind; [apply reads_u32|]. intros len Hlen. eapply reads_bind; [apply reads_check|].
  intros [] Hmax. apply reads_if; intros Hpos; [|apply reads_ret; by split; [constructor|]].
  eapply reads_bind; [apply reads_read; lia|]. intros bs [Hl Hb]. apply reads_ret. split; simpl.
  - pose proof (c_string_nonzero bs) as Hz. pose proof (c_string_Forall _ bs Hb) as Hr.
    rewrite Forall_forall in *. intros b Hin. specialize (Hz b Hin). specialize (Hr b Hin). zbounds.
  - pose proof (c_string_length bs). lia.
Qed.

Lemma reads_loop {A} n (m : reader A) P : reads m P -> reads (read_loop n m) (fun l => length l = n /\ Forall P l).
Proof.
  intros Hm. induction n as [|n IH]; cbn [read_loop]; [by apply reads_ret|].
  eapply reads_bind; [exact Hm|]. intros a Ha. eapply reads_bind; [exact IH|]. intros l [Hl HP].
  apply reads_ret. split; [simpl; by rewrite Hl|by constructor].
Qed.

Lemma reads_n {A} n (m : reader A) P : 0 <= n -> reads m P -> reads (read_n n m) (fun l => counted n l /\ Forall P l).
Proof.
  intros Hn Hm. eapply reads_impl; [by apply reads_loop|]. intros l [Hl HP]. split; [unfold counted; lia|done].
Qed.

#[export] Hint Resolve reads_u8 reads_u32 reads_u64 reads_i32 reads_i64 reads_string reads_message reads_check reads_ret : reading.

(** Reads the next part of a sequence with a known result. *)
Ltac read_next := eapply reads_bind; [solve [eauto 3 with reading]|].

(** *** Parts of a function *)

(** A string as the loader stores a name: null instead of empty. *)
Definition loaded_name (s : option (list Z)) : Prop := string_ok s /\ saved_name s = s.

Lemma nonempty_loaded s : string_ok (Some s) -> loaded_name (nonempty s).
Proof. intros Hs. by destruct s. Qed.

Lemma None_loaded : loaded_name None.
Proof. by split; [split; [constructor|]|]. Qed.

Definition loaded_constant (c : Constant) : Prop := constant_ok c /\ saved_constant c = c.

Lemma reads_constant : reads read_constant loaded_constant.
Proof.
  read_next. intros t Ht. apply reads_if; intros E1; [|apply reads_if; intros E2; [|apply reads_if; intros E3]].
  - read_next. intros v Hv. apply reads_ret. split; [|done]. simpl. split; [simpl; lia|done].
  - eapply reads_bind; [apply reads_message, reads_u64|]. intros v Hv. apply reads_ret. split; [|done].
    split; [simpl; lia|done].
  - read_next. intros s Hs. apply reads_ret. split; [|done]. split; [simpl; lia|done].
  - apply reads_fail.
Qed.

(** Counts up to the limit. *)
Lemma count_checked n : is_u32 n -> negb ((ARTIFACT_MAX_COUNT <? n) || (INT_MAX <? n)) = true -> 0 <= n <= ARTIFACT_MAX_COUNT.
Proof. unfold is_u32. intros. lia. Qed.

Record loaded_chunk (c : Chunk) : Prop := {
  lc_code : counted (code_count c) (buffer (code c));
  lc_max : code_count c <= ARTIFACT_MAX_COUNT;
  lc_bytes : Forall is_u8 (buffer (code c));
  lc_lines : counted (code_count c) (lines_of c);
  lc_lines_ok : Forall is_i32 (lines_of c);
  lc_saved : saved_chunk c = c
}.

Lemma map_line_imap l : map d_line (imap (fun i l => mkDebug (Z.of_nat i) l) l) = l.
Proof.
  apply list_eq. intros i. rewrite list_lookup_fmap, list_lookup_imap. by destruct (l !! i).
Qed.

Lemma reads_chunk : reads read_chunk loaded_chunk.
Proof.
  unfold read_chunk. read_next. intros n Hn. read_next. intros [] Hc. pose proof (count_checked n Hn Hc).
  eapply (reads_bind _ _ (fun bs => counted n bs /\ Forall is_u8 bs)).
  { apply reads_if; intros Hpos; [|apply reads_ret; split; [unfold counted; simpl; lia|done]].
    apply reads_message. eapply reads_impl; [apply reads_read; lia|]. intros bs [Hl Hb]. by split. }
  intros bs [Hb Hbs]. read_next. intros m Hm. read_next. intros [] Hmn.
  eapply reads_bind; [apply reads_n; [lia|apply reads_message, reads_i32]|]. intros lines [Hl Hls]. apply reads_ret.
  destruct (Z.ltb_spec 0 n) as [Hpos|Hpos].
  - constructor; unfold lines_of; simpl; rewrite ?map_line_imap; try done; [lia|].
    unfold saved_chunk. simpl. destruct bs as [|b bs]; [unfold counted in Hb; simpl in Hb; lia|]. unfold lines_of. cbn [debug_info]. by rewrite map_line_imap.
  - constructor; simpl; done || constructor.
Qed.

Record loaded_pool (p : ConstantPool) : Prop := {
  lp_count : counted (constant_count p) (buffer (constants p));
  lp_max : constant_count p <= ARTIFACT_MAX_COUNT;
  lp_ok : Forall constant_ok (buffer (constants p));
  lp_saved : saved_pool p = p
}.

Lemma reads_pool : reads read_pool loaded_pool.
Proof.
  unfold read_pool. read_next. intros n Hn. read_next. intros [] Hc. pose proof (count_checked n Hn Hc).
  apply reads_if; intros Hpos; [|apply reads_ret; constructor; done || constructor].
  eapply reads_bind; [apply reads_n; [lia|apply reads_constant]|]. intros cs [Hl Hcs]. apply reads_ret.
  assert (Forall constant_ok cs) as Hok by (eapply Forall_impl; [exact Hcs|by intros c []]).
  assert (map saved_constant cs = cs) as Hsv by (apply map_Forall_id; eapply Forall_impl; [exact Hcs|by intros c []]).
  constructor; simpl; [done|lia|done|]. unfold saved_pool. cbn [constants buffer constant_count].
  destruct cs; [unfold counted in Hl; simpl in Hl; lia|by rewrite Hsv].
Qed.

Definition loaded_captures (params locals : Z) (x : Z * option (list Z)) : Prop :=
  counted (fst x) (buffer (snd x)) /\ fst x <= locals /\
  Forall (fun s => params <= s < locals) (buffer (snd x)) /\ saved_list (snd x) = snd x.

Lemma reads_captures params locals :
  0 <= params <= INT_MAX -> 0 <= locals <= INT_MAX -> reads (read_captures params locals) (loaded_captures params locals).
Proof.
  intros Hp Hl. unfold read_captures. read_next. intros n Hn. read_next. intros [] Hc.
  assert (0 <= n) by (unfold is_u32 in Hn; lia).
  apply reads_if; intros Hpos; [|apply reads_ret; split; [unfold counted; simpl; lia|split; [simpl; lia|by split; [constructor|]]]].
  eapply reads_bind.
  { apply (reads_n _ _ (fun s => params <= s < locals)); [lia|]. unfold read_capture_slot. read_next. intros s Hs.
    read_next. intros [] Hcs. apply reads_ret. rewrite i32_small; [lia|]. unfold INT_MAX in *. zbounds. }
  intros slots [Hc' Hs]. apply reads_ret. split; [done|]. split; [simpl; lia|]. split; [done|]. simpl.
  destruct slots; [unfold counted in Hc'; simpl in *; lia|done].
Qed.

Lemma reads_plan version : reads (read_hint_plan version) plan_ok.
Proof.
  unfold read_hint_plan. read_next. intros k Hk.
  eapply reads_bind; [apply (reads_since _ _ _ _ is_i32); [apply reads_i32|zbounds]|]. intros op Hop.
  eapply reads_bind; [apply (reads_since _ _ _ _ is_u8); [apply reads_u8|zbounds]|]. intros fl Hfl.
  do 4 (read_next; intros ? ?). apply reads_ret. by constructor.
Qed.

Lemma default_flags_range async captures : is_u8 (default_flags async captures).
Proof. unfold default_flags. by destruct async, (captures =? 0). Qed.
Lemma default_support_range async captures kind hint : is_u8 (default_support async captures kind hint).
Proof. unfold default_support. by destruct async, (captures =? 0), (kind =? _), (hint =? _). Qed.
Lemma default_family_range kind : is_u8 (default_family kind).
Proof. unfold default_family. by repeat case_match. Qed.

Lemma reads_summary : reads read_summary (fun s => is_i32 (s_kind s) /\ is_i32 (s_op s) /\ is_u8 (slot0 s) /\
  is_u8 (slot1 s) /\ is_i64 (s_const0 s) /\ is_i64 (s_const1 s)).
Proof. unfold read_summary. do 6 (read_next; intros ? ?). by apply reads_ret. Qed.

Definition head_ok (x : Z * Z * Z * Z * Z * Z) : Prop :=
  let '(flags, support, family, params, locals, captures) := x in
  is_u8 flags /\ is_u8 support /\ is_u8 family /\ is_i32 params /\ is_i32 locals /\ is_i32 captures.

Lemma reads_profile version params locals captures async hint :
  is_i32 params -> is_i32 locals -> is_i32 captures ->
  reads (read_profile version params locals captures async hint) profile_ok.
Proof.
  intros Hp Hl Hc. unfold read_profile. eapply (reads_bind _ _ head_ok).
  { apply reads_message. unfold read_profile_head. apply reads_if; intros _; [|apply reads_ret; repeat (split; [done|]); done].
    read_next. intros ? ?. do 2 (eapply reads_bind; [apply (reads_since _ _ _ _ is_u8); [apply reads_u8|done]|]; intros ? ?).
    do 3 (read_next; intros ? ?). by apply reads_ret. }
  intros [[[[[fl su] fa] pa] lo] ca] (? & ? & ? & ? & ? & ?).
  eapply reads_bind; [apply reads_message, reads_summary|]. intros s (? & ? & ? & ? & ? & ?). apply reads_ret.
  pose proof (default_flags_range async captures). pose proof (default_support_range async captures (s_kind s) hint).
  pose proof (default_family_range (s_kind s)). constructor; simpl; try done; by case_match.
Qed.

(** *** Functions *)

Definition junk_ok (junk : Z * Z) : Prop := is_i32 (fst junk) /\ is_u8 (snd junk).

Definition loaded_function (f : ObjFunction) : Prop := function_ok f /\ saved_function f = f.

Lemma create_plan_ok junk : junk_ok junk -> plan_ok (jit_hint_plan (obj_function_create junk)).
Proof. intros []. by constructor. Qed.

Lemma create_profile_ok junk : profile_ok (jit_profile (obj_function_create junk)).
Proof. by constructor. Qed.

Lemma loaded_function_intro c cs params locals names captures slots async ip slot nm src profile plan :
  loaded_chunk c -> loaded_pool cs -> 0 <= params <= INT_MAX -> 0 <= locals <= INT_MAX ->
  counted locals names -> Forall loaded_name names -> loaded_captures params locals (captures, slots) ->
  is_i32 ip -> is_i32 slot -> string_ok (Some nm) -> string_ok (Some src) -> profile_ok profile -> plan_ok plan ->
  loaded_function (mkFunction c cs params locals (if 0 <? locals then Some names else None) captures slots async
    ip slot (nonempty nm) (nonempty src) profile plan).
Proof.
  intros [] [] Hp Hl Hn Hns (Hc1 & Hc2 & Hc3 & Hc4) Hip Hsl Hnm Hsrc Hpr Hpl. simpl in *.
  destruct (nonempty_loaded nm Hnm) as [Hnm1 Hnm2]. destruct (nonempty_loaded src Hsrc) as [Hsrc1 Hsrc2].
  assert (names_of (mkFunction c cs params locals (if 0 <? locals then Some names else None) captures slots async
    ip slot (nonempty nm) (nonempty src) profile plan) = names) as En.
  { unfold names_of. simpl. destruct (counted_cases _ _ Hn) as [[-> ->]|[Hpos _]]; [done|].
    by assert ((0 <? locals) = true) as -> by lia. }
  split.
  - constructor; rewrite ?En; simpl; try done. eapply Forall_impl; [exact Hns|]. by intros s [].
  - unfold saved_function. rewrite En. cbn [chunk pool param_count local_count capture_count capture_local_slots is_async
      defer_handler_ip defer_return_slot name source_file jit_profile jit_hint_plan].
    rewrite lc_saved0, lp_saved0, Hc4, Hnm2, Hsrc2. f_equal. unfold saved_list. simpl.
    rewrite map_Forall_id by (eapply Forall_impl; [exact Hns|by intros s []]).
    destruct (counted_cases _ _ Hn) as [[-> ->]|[Hpos Hne]]; [done|].
    assert ((0 <? locals) = true) as -> by lia. by destruct names.
Qed.

Lemma reads_function junk version : junk_ok junk -> reads (artifact_read_function junk version) loaded_function.
Proof.
  intros Hj. unfold artifact_read_function. cbv zeta. read_next. intros nm Hnm.
  eapply reads_bind; [apply (reads_since _ _ _ _ (fun s => string_ok (Some s)));
    [apply reads_message, reads_string|by split; [constructor|]]|]. intros src Hsrc.
  eapply reads_bind; [apply (reads_since _ _ _ _ is_u8); [apply reads_message, reads_u8|zbounds]|]. intros async _.
  eapply reads_bind; [apply (reads_since _ _ _ _ (fun x => is_i32 (fst x) /\ is_i32 (snd x)))|].
  { apply reads_message. do 2 (read_next; intros ? ?). by apply reads_ret. }
  { simpl. split; zbounds. }
  intros [ip slot] [Hip Hslot].
  eapply (reads_bind _ _ (fun x => is_u32 (fst x) /\ is_u32 (snd x))).
  { apply reads_message. do 2 (read_next; intros ? ?). by apply reads_ret. }
  intros [params locals] [Hp Hl]. simpl in Hp, Hl. read_next. intros [] Hrange.
  assert (0 <= params <= INT_MAX) as Hp' by (unfold is_u32 in Hp; lia).
  assert (0 <= locals <= INT_MAX) as Hl' by (unfold is_u32 in Hl; lia).
  eapply reads_bind; [apply (reads_since _ _ _ _ (loaded_captures params locals)); [by apply reads_captures|]|].
  { split; [done|]. split; [simpl; lia|]. by split; [constructor|]. }
  intros [captures slots] Hcap. eapply (reads_bind _ _ (fun l => counted locals l /\ Forall loaded_name l)).
  { apply reads_if; intros _.
    - eapply reads_bind; [apply reads_n; [lia|apply reads_message, reads_string]|]. intros l [Hc Hs].
      apply reads_ret. split; [unfold counted; by rewrite length_map|].
      apply Forall_map. eapply Forall_impl; [exact Hs|]. intros s. apply nonempty_loaded.
    - apply reads_ret. split; [unfold counted; rewrite length_replicate; lia|]. apply Forall_replicate, None_loaded. }
  intros names [Hn Hns]. eapply reads_bind; [apply reads_chunk|]. intros c Hc.
  eapply reads_bind; [apply reads_pool|]. intros cs Hcs.
  eapply reads_bind; [apply (reads_since _ _ _ _ plan_ok); [apply reads_message, reads_plan|by apply create_plan_ok]|].
  intros plan Hplan. eapply reads_bind.
  { apply (reads_since _ _ _ _ profile_ok); [|apply create_profile_ok]. destruct Hcap as (Hc1 & Hc2 & _). simpl in *.
    apply counted_nonneg in Hc1. apply reads_profile; unfold INT_MAX in *; zbounds. }
  intros profile Hprofile. apply reads_ret. by apply loaded_function_intro.
Qed.

(** *** Programs *)

Definition loaded_array {A} (P : A -> Prop) (x : Z * option (list A)) : Prop :=
  counted (fst x) (buffer (snd x)) /\ fst x <= ARTIFACT_MAX_COUNT /\ Forall P (buffer (snd x)) /\ saved_list (snd x) = snd x.

Lemma reads_array {A} (m : reader A) P : reads m P -> reads (read_array m) (loaded_array P).
Proof.
  intros Hm. unfold read_array. read_next. intros n Hn. read_next. intros [] Hc. pose proof (count_checked n Hn Hc).
  apply reads_if; intros Hpos.
  - eapply reads_bind; [apply reads_n; [lia|exact Hm]|]. intros l [Hl HP]. apply reads_ret.
    split; [done|]. split; [simpl; lia|]. split; [done|]. simpl. destruct l; [unfold counted in Hl; simpl in *; lia|done].
  - apply reads_ret. split; [unfold counted; simpl; lia|]. split; [simpl; lia|]. by split; [constructor|].
Qed.

Definition loaded_dependency (d : ArtifactDependencyInfo) : Prop := dependency_ok d /\ saved_dependency d = d.
Definition loaded_entry (e : InterfaceDispatchEntry) : Prop := entry_ok e /\ saved_entry e = e.

Lemma reads_dependency : reads read_dependency loaded_dependency.
Proof. unfold read_dependency. do 2 (read_next; intros ? ?). by apply reads_ret. Qed.

Lemma reads_entry : reads read_entry loaded_entry.
Proof. unfold read_entry. do 4 (read_next; intros ? ?). by apply reads_ret. Qed.

Definition loaded_artifact (a : LoadedBytecodeArtifact) : Prop := artifact_ok a /\ saved_artifact a = a.

Lemma saved_array {A} (g : A -> A) (P : A -> Prop) n p :
  loaded_array (fun x => P x /\ g x = x) (n, p) -> saved_list (map g <$> p) = p.
Proof.
  intros (_ & _ & HP & Hs). simpl in *. rewrite <- Hs at 2. destruct p as [l|]; [|done]. simpl in *.
  rewrite map_Forall_id; [done|]. eapply Forall_impl; [exact HP|]. by intros x [].
Qed.

Lemma loaded_array_ok {A} (P Q : A -> Prop) n p :
  loaded_array (fun x => P x /\ Q x) (n, p) ->
  counted n (buffer p) /\ n <= ARTIFACT_MAX_COUNT /\ Forall P (buffer p).
Proof. intros (? & ? & HP & _). split; [done|]. split; [done|]. eapply Forall_impl; [exact HP|]. by intros x []. Qed.

Lemma loaded_artifact_intro ini funs nfuns main flags deps ndeps entries nentries :
  is_u32 flags -> loaded_array loaded_dependency (ndeps, deps) -> loaded_array loaded_entry (nentries, entries) ->
  counted nfuns funs -> 0 <= main < nfuns -> nfuns <= ARTIFACT_MAX_COUNT -> Forall loaded_function funs ->
  match ini with Some f => loaded_function f | None => True end ->
  loaded_artifact (mkLoaded ini (map Some funs) nfuns main flags deps ndeps entries nentries).
Proof.
  intros Hfl Hd He Hn Hm Hmax Hf Hi. destruct (loaded_array_ok _ _ _ _ Hd) as (? & ? & ?).
  destruct (loaded_array_ok _ _ _ _ He) as (? & ? & ?). split.
  - constructor; simpl; try done.
    + unfold counted. by rewrite length_map.
    + apply Forall_map. eapply Forall_impl; [exact Hf|]. intros f [Hok _]. by exists f.
    + destruct ini; [apply Hi|done].
  - unfold saved_artifact. simpl. rewrite (saved_array _ _ _ _ Hd), (saved_array _ _ _ _ He). f_equal.
    + destruct ini as [f|]; [|done]. destruct Hi as [_ Hs]. simpl. by rewrite Hs.
    + rewrite map_map. apply map_ext_Forall. eapply Forall_impl; [exact Hf|]. intros f [_ Hs]. simpl. by rewrite Hs.
Qed.

Lemma reads_artifact junk : junk_ok junk -> reads (read_artifact junk) loaded_artifact.
Proof.
  intros Hj. unfold read_artifact. eapply reads_bind; [by apply reads_read|]. intros magic _. read_next. intros [] _.
  read_next. intros version _. read_next. intros [] _. read_next. intros flags Hfl.
  eapply reads_bind; [apply reads_array, reads_dependency|]. intros [ndeps deps] Hd.
  eapply reads_bind; [apply (reads_since _ _ _ _ (loaded_array loaded_entry)); [apply reads_array, reads_entry|]|].
  { split; [done|]. split; [done|]. by split; [constructor|]. }
  intros [nentries entries] He. read_next. intros nfuns Hn. read_next. intros [] Hn'.
  read_next. intros main Hm. read_next. intros has_init _. read_next. intros [] Hm'.
  eapply reads_bind; [apply reads_n; [unfold is_u32 in Hn; lia|by apply reads_function]|]. intros funs [Hf Hfs].
  eapply (reads_bind _ _ (fun ini => match ini with Some f => loaded_function f | None => True end)).
  { apply reads_if; intros _; [|by apply reads_ret].
    eapply reads_bind; [by apply reads_function|]. intros f Hf'. by apply reads_ret. }
  intros ini Hi. apply reads_ret. apply loaded_artifact_intro; try done; lia.
Qed.

(** A load that succeeds has read the bytes to their end. *)
Lemma load_inv junk bytes a :
  artifact_load_bytes junk bytes = inr a ->
  exists r, read_artifact junk (mkReader bytes 0) = inr (a, r) /\ offset r = size r.
Proof.
  unfold artifact_load_bytes. destruct bytes as [|b bs]; [done|].
  destruct (read_artifact junk (mkReader (b :: bs) 0)) as [[]|[a' r]]; try done.
  destruct (Z.eqb_spec (offset r) (size r)); [|done]. intros [= ->]. by exists r.
Qed.

Lemma load_reads junk bytes a :
  junk_ok junk -> Forall is_u8 bytes -> artifact_load_bytes junk bytes = inr a ->
  loaded_artifact a /\
  forall e, read_artifact junk (mkReader (bytes ++ e) 0) = inr (a, mkReader (bytes ++ e) (Z.of_nat (length bytes))).
Proof.
  intros Hj Hb Hl. destruct (load_inv junk bytes a Hl) as (r & Hr & Hend).
  destruct (reads_artifact junk Hj bytes 0 a r Hb) as (o & -> & _ & Ha & He); [lia|done|].
  split; [done|]. intros e. rewrite He. unfold size in Hend. simpl in Hend. by rewrite Hend.
Qed.

Lemma load_extended junk bytes e a :
  junk_ok junk -> Forall is_u8 bytes -> artifact_load_bytes junk bytes = inr a -> e <> [] ->
  artifact_load_bytes junk (bytes ++ e) = inl (Message "Artifact contains trailing data"%string).
Proof.
  intros Hj Hb Hl He. destruct (load_reads junk bytes a Hj Hb Hl) as [_ Hr]. unfold artifact_load_bytes.
  specialize (Hr e). destruct (bytes ++ e) as [|b bs] eqn:E; [by apply app_eq_nil in E as [_ ->]|].
  rewrite Hr. unfold size. cbn [offset data]. rewrite <- E, length_app.
  destruct (Z.eqb_spec (Z.of_nat (length bytes)) (Z.of_nat (length bytes + length e))); [|done].
  destruct e; [done|simpl in *; lia].
Qed.

(** ** Properties *)

(** C4: What is written loads back: a well-formed program is written when the
    device has room for it, and loading the file gives the program again, up
    to empty strings for null ones and the completed debug information. *)
Theorem artifact_roundtrip (a : LoadedBytecodeArtifact) (path : list Z) (n : nat) (junk : Z * Z) :
  artifact_ok a -> path <> [] -> (length (enc_artifact a) <= n)%nat ->
  exists bytes, artifact_write_file path (Some n) true a = inr bytes /\
    artifact_file_is_bytecode path (Some bytes) = true /\
    artifact_load_file junk path (Some bytes) = inr (saved_artifact a).
Proof.
  intros Ha Hp Hn. exists (enc_artifact a). split; [by apply write_spec|].
  destruct path as [|c path]; [done|]. split; [by apply bool_decide_eq_true|].
  rewrite <- (load_spec junk a Ha). unfold artifact_load_file. by destruct (enc_artifact a) eqn:E.
Qed.

(** C5: Whatever the bytes and their version, a program that loads is well
    formed: every count is the length of its array, the main function exists,
    captured slots lie between the parameters and the end of the locals, the
    line table covers the code, strings have no NUL, and all numbers fit their
    types; and saving it would lose nothing. *)
Theorem artifact_load_wellformed (junk : Z * Z) (bytes : list Z) (a : LoadedBytecodeArtifact) :
  junk_ok junk -> Forall is_u8 bytes -> artifact_load_bytes junk bytes = inr a ->
  artifact_ok a /\ saved_artifact a = a.
Proof. intros Hj Hb Hl. apply (load_reads junk bytes a Hj Hb Hl). Qed.

(** A program loaded from any supported version can be written in the
    current version and loads from it again, unchanged. *)
Theorem artifact_upgrade (junk : Z * Z) (bytes : list Z) (a : LoadedBytecodeArtifact) (path : list Z) (n : nat) :
  junk_ok junk -> Forall is_u8 bytes -> artifact_load_bytes junk bytes = inr a ->
  path <> [] -> (length (enc_artifact a) <= n)%nat ->
  exists bytes', artifact_write_file path (Some n) true a = inr bytes' /\
    forall junk', artifact_load_bytes junk' bytes' = inr a.
Proof.
  intros Hj Hb Hl Hp Hn. destruct (load_reads junk bytes a Hj Hb Hl) as [[Ha Hs] _].
  exists (enc_artifact a). split; [by apply write_spec|]. intros junk'. by rewrite (load_spec junk' a Ha), Hs.
Qed.

(** A file is accepted as a whole or not at all: if some bytes load, no
    proper prefix of them does, and with anything appended they are rejected
    with the message about trailing data. *)
Theorem artifact_load_exact (junk : Z * Z) (bytes : list Z) (a : LoadedBytecodeArtifact) :
  junk_ok junk -> Forall is_u8 bytes -> artifact_load_bytes junk bytes = inr a ->
  (forall e, e <> [] -> artifact_load_bytes junk (bytes ++ e) = inl (Message "Artifact contains trailing data"%string)) /\
  (forall k b, (k < length bytes)%nat -> artifact_load_bytes junk (take k bytes) <> inr b).
Proof.
  intros Hj Hb Hl. split; [intros e He; by apply (load_extended junk bytes e a)|].
  intros k b Hk Hload. pose proof (load_extended junk (take k bytes) (drop k bytes) b Hj) as H.
  rewrite take_drop, Hl in H. discriminate H; [by apply Forall_take|done|].
  intros E. apply (f_equal length) in E. rewrite length_drop in E. simpl in E. lia.
Qed.

(** The writer and the loader have different limits: a string of more than
    2^28 bytes is written without an error and the loader refuses it. *)
Theorem artifact_string_limit_gap (s : list Z) (f : FILE) (pre post : list Z) :
  ARTIFACT_MAX_STRING_BYTES < Z.of_nat (length s) <= UINT32_MAX -> (4 + length s <= room f)%nat ->
  write_string (Some s) f = Some (mkFile (written f ++ enc 4 (Z.of_nat (length s)) ++ s) (room f - (4 + length s))) /\
  read_string (mkReader (pre ++ (enc 4 (Z.of_nat (length s)) ++ s) ++ post) (Z.of_nat (length pre))) = inl NoMessage.
Proof.
  intros Hl Hr. split.
  - assert (writes (write_string (Some s)) (enc 4 (Z.of_nat (length s)) ++ s)) as ->.
    { unfold write_string. cbn [str_or_empty]. apply writes_guard; [lia|]. apply writes_andthen; [apply writes_u32|].
      destruct (Z.eqb_spec (Z.of_nat (length s)) 0); [|apply writes_fwrite].
      unfold ARTIFACT_MAX_STRING_BYTES in Hl. lia. }
    unfold fwrite. rewrite length_app, enc_length. apply Nat.leb_le in Hr. by rewrite Hr.
  - unfold read_string, bind at 1. rewrite <- app_assoc.
    rewrite (decodes_u32 (Z.of_nat (length s))); [|unfold UINT32_MAX, ARTIFACT_MAX_STRING_BYTES in Hl; zbounds].
    unfold bind, check. by assert ((Z.of_nat (length s) <=? ARTIFACT_MAX_STRING_BYTES) = false) as -> by lia.
Qed.

(** *** Witnesses *)

(** A program with two functions, one of them with a capture, constants and no
    debug information. *)
Definition sample_function : ObjFunction :=
  mkFunction (mkChunk (Some [1; 0; 41]) None 3 8)
    (mkPool (Some [mkConstant (as_int (-5)) 0; mkConstant (as_double 4607182418800017408) 1;
                   mkConstant (as_string None) 2; mkConstant (as_string (Some [104; 105])) 3]) 4 4)
    1 3 None 1 (Some [2]) true (-1) (-1) (Some [109]) None
    (mkProfile 3 0 0 1 3 1 (mkSummary 0 0 0 0 0 0)) (mkPlan 0 0 0 0 0 0 (-9)).

Definition sample_artifact : LoadedBytecodeArtifact :=
  mkLoaded None [Some sample_function; Some (obj_function_create (0, 0))] 2 1 7
    (Some [mkDep (Some [97]) 1700000000]) 1 None 0.

Lemma created_function_ok : function_ok (obj_function_create (0, 0)).
Proof. constructor; try done; simpl; try (repeat constructor; done). Qed.

Lemma sample_function_ok : function_ok sample_function.
Proof.
  constructor; simpl; try done; try (by repeat constructor); try (repeat constructor; simpl; lia).
  all: try (repeat constructor; unfold constant_ok, string_ok; simpl; repeat split; try zbounds; repeat constructor; lia).
Qed.

Lemma sample_artifact_ok : artifact_ok sample_artifact.
Proof.
  constructor; simpl; try done; try (repeat constructor; done).
  repeat constructor; eexists; (split; [reflexivity|]); [apply sample_function_ok|apply created_function_ok].
Qed.

Lemma artifact_roundtrip_witness :
  exists bytes, artifact_write_file [97] (Some 1000%nat) true sample_artifact = inr bytes /\
    artifact_file_is_bytecode [97] (Some bytes) = true /\
    artifact_load_file (3, 4) [97] (Some bytes) = inr (saved_artifact sample_artifact).
Proof.
  refine (artifact_roundtrip sample_artifact [97] 1000 (3, 4) sample_artifact_ok _ _); [done|].
  apply Nat.leb_le. by vm_compute.
Defined.

(** A file of version 2 with one function. *)
Definition sample_v2 : list Z :=
  ARTIFACT_MAGIC ++ [2; 0; 0; 0] ++ [0; 0; 0; 0] ++ [0; 0; 0; 0] ++ [1; 0; 0; 0] ++ [0; 0; 0; 0] ++ [0] ++
  [1; 0; 0; 0; 102] ++ [0; 0; 0; 0] ++ [1; 0; 0; 0] ++ [2; 0; 0; 0; 9; 41] ++ [2; 0; 0; 0] ++
  [1; 0; 0; 0; 2; 0; 0; 0] ++ [0; 0; 0; 0].

Definition sample_v2_loaded : LoadedBytecodeArtifact :=
  mkLoaded None
    [Some (mkFunction (mkChunk (Some [9; 41]) (Some [mkDebug 0 1; mkDebug 1 2]) 2 2) constant_pool_init 0 1 (Some [None]) 0 None
       false (-1) (-1) (Some [102]) None (jit_profile (obj_function_create (0, 0))) (jit_hint_plan (obj_function_create (5, 6))))]
    1 0 0 None 0 None 0.

Lemma sample_v2_loads : artifact_load_bytes (5, 6) sample_v2 = inr sample_v2_loaded.
Proof. by vm_compute. Qed.

Lemma sample_v2_bytes : Forall is_u8 sample_v2.
Proof. repeat constructor; done. Qed.

Lemma sample_junk : junk_ok (5, 6).
Proof. split; simpl; zbounds. Qed.

Lemma artifact_load_wellformed_witness : artifact_ok sample_v2_loaded /\ saved_artifact sample_v2_loaded = sample_v2_loaded.
Proof. exact (artifact_load_wellformed (5, 6) sample_v2 sample_v2_loaded sample_junk sample_v2_bytes sample_v2_loads). Defined.

Lemma artifact_upgrade_witness :
  exists bytes', artifact_write_file [97] (Some 1000%nat) true sample_v2_loaded = inr bytes' /\
    forall junk', artifact_load_bytes junk' bytes' = inr sample_v2_loaded.
Proof.
  refine (artifact_upgrade (5, 6) sample_v2 sample_v2_loaded [97] 1000 sample_junk sample_v2_bytes sample_v2_loads _ _); [done|].
  apply Nat.leb_le. by vm_compute.
Defined.

Lemma artifact_load_exact_witness : artifact_load_bytes (5, 6) (take 59 sample_v2) <> inr sample_v2_loaded.
Proof.
  refine (proj2 (artifact_load_exact (5, 6) sample_v2 sample_v2_loaded sample_junk sample_v2_bytes sample_v2_loads) 59%nat _ _).
  apply Nat.ltb_lt. by vm_compute.
Defined.

(** A string one byte longer than the loader accepts. *)
Definition long_string : list Z := replicate (Z.to_nat (ARTIFACT_MAX_STRING_BYTES + 1)) 97.

Lemma long_string_length : Z.of_nat (length long_string) = ARTIFACT_MAX_STRING_BYTES + 1.
Proof. unfold long_string. rewrite length_replicate, Z2Nat.id; [done|by vm_compute]. Qed.

Lemma artifact_string_limit_gap_witness :
  read_string (mkReader ([] ++ (enc 4 (Z.of_nat (length long_string)) ++ long_string) ++ []) (Z.of_nat 0)) = inl NoMessage.
Proof.
  refine (proj2 (artifact_string_limit_gap long_string (mkFile [] (4 + length long_string)) [] [] _ _)).
  - rewrite long_string_length. split; [lia|]. by vm_compute.
  - apply Nat.le_refl.
Defined.
