(* ===== verification/Lexer.v ===== *)
(** * The lexer: [src/src/lexer.c]

    The scanner reads the bytes of a NUL-terminated source through a cursor
    and returns one token per call. Characters are bytes as numbers, the
    character classes of [ctype.h] are those of the C locale (the program never
    sets another), and a loop carries the number of characters left as its
    fuel. [strtod] is an argument: it converts a text to the bits of a double
    or reports a range error.

    [LexerSpec] and [LexerProps] have the theorems. *)

From S2P Require Import Prelude.
From Stdlib Require Import String Ascii.
From stdpp Require Import list.

Open Scope Z_scope.
Open Scope list_scope.

(** ** Tokens *)

Inductive TokenType :=
| TOKEN_EOF | TOKEN_IDENTIFIER | TOKEN_NUMBER_INT | TOKEN_NUMBER_BIGINT
| TOKEN_NUMBER_DOUBLE | TOKEN_STRING | TOKEN_KEYWORD_INT | TOKEN_KEYWORD_BOOL
| TOKEN_KEYWORD_DOUBLE | TOKEN_KEYWORD_BIGINT | TOKEN_KEYWORD_STRING | TOKEN_KEYWORD_BYTES
| TOKEN_KEYWORD_ARRAY | TOKEN_KEYWORD_ANY | TOKEN_KEYWORD_NIL | TOKEN_KEYWORD_VAR
| TOKEN_KEYWORD_CONST | TOKEN_KEYWORD_PUBLIC | TOKEN_KEYWORD_PRIVATE | TOKEN_KEYWORD_TYPE
| TOKEN_KEYWORD_INTERFACE | TOKEN_KEYWORD_IMPL | TOKEN_KEYWORD_ASYNC | TOKEN_KEYWORD_AWAIT
| TOKEN_KEYWORD_FUNC | TOKEN_KEYWORD_IF | TOKEN_KEYWORD_ELSE | TOKEN_KEYWORD_LET
| TOKEN_KEYWORD_WHILE | TOKEN_KEYWORD_FOREACH | TOKEN_KEYWORD_BREAK | TOKEN_KEYWORD_CONTINUE
| TOKEN_KEYWORD_RETURN | TOKEN_KEYWORD_DEFER | TOKEN_KEYWORD_IMPORT | TOKEN_KEYWORD_RECORD
| TOKEN_KEYWORD_ENUM | TOKEN_KEYWORD_MATCH | TOKEN_KEYWORD_SWITCH | TOKEN_KEYWORD_CASE
| TOKEN_KEYWORD_DEFAULT | TOKEN_KEYWORD_MAP | TOKEN_KEYWORD_SET | TOKEN_TRUE
| TOKEN_FALSE | TOKEN_PLUS | TOKEN_PLUS_EQ | TOKEN_MINUS
| TOKEN_MINUS_EQ | TOKEN_STAR | TOKEN_STAR_EQ | TOKEN_SLASH
| TOKEN_SLASH_EQ | TOKEN_PERCENT | TOKEN_PERCENT_EQ | TOKEN_EQ_EQ
| TOKEN_BANG_EQ | TOKEN_LT | TOKEN_LT_EQ | TOKEN_GT
| TOKEN_GT_EQ | TOKEN_AND | TOKEN_OR | TOKEN_NOT
| TOKEN_BIT_AND | TOKEN_BIT_OR | TOKEN_BIT_XOR | TOKEN_BIT_NOT
| TOKEN_ASSIGN | TOKEN_LPAREN | TOKEN_RPAREN | TOKEN_LBRACE
| TOKEN_RBRACE | TOKEN_LBRACKET | TOKEN_RBRACKET | TOKEN_COMMA
| TOKEN_COLON | TOKEN_SEMICOLON | TOKEN_DOT | TOKEN_DOT_DOT
| TOKEN_QUESTION | TOKEN_AS | TOKEN_IN | TOKEN_ERROR.

(** The members of the union of [Token] that the type makes valid. *)
Inductive token_value :=
| no_value
| as_int (i : Z)
| as_double (bits : Z)
| as_string (s : list Z).

Record Token := mkToken { type : TokenType; lexeme : list Z; t_line : Z; t_column : Z; value : token_value }.

(** ** State *)

(** [position] and [length] count bytes; [pending_error] is a message. *)
Record Lexer := mkLexer {
  source : list Z;
  pending_error : option string;
  length : nat;
  position : nat;
  line : Z;
  column : Z
}.

Definition MAX_TOKEN_LENGTH : Z := 65536.

(** The bytes of a text. *)
Definition bytes (s : string) : list Z := map (fun a => Z.of_nat (nat_of_ascii a)) (list_ascii_of_string s).

Definition keywords : list (list Z * TokenType) :=
  map (fun p => (bytes (fst p), snd p))
  [
   ("int"%string, TOKEN_KEYWORD_INT); ("bool"%string, TOKEN_KEYWORD_BOOL); ("double"%string, TOKEN_KEYWORD_DOUBLE);
   ("bigint"%string, TOKEN_KEYWORD_BIGINT); ("string"%string, TOKEN_KEYWORD_STRING); ("bytes"%string, TOKEN_KEYWORD_BYTES);
   ("array"%string, TOKEN_KEYWORD_ARRAY); ("any"%string, TOKEN_KEYWORD_ANY); ("nil"%string, TOKEN_KEYWORD_NIL);
   ("var"%string, TOKEN_KEYWORD_VAR); ("const"%string, TOKEN_KEYWORD_CONST); ("public"%string, TOKEN_KEYWORD_PUBLIC);
   ("private"%string, TOKEN_KEYWORD_PRIVATE); ("type"%string, TOKEN_KEYWORD_TYPE); ("interface"%string, TOKEN_KEYWORD_INTERFACE);
   ("impl"%string, TOKEN_KEYWORD_IMPL); ("async"%string, TOKEN_KEYWORD_ASYNC); ("await"%string, TOKEN_KEYWORD_AWAIT);
   ("func"%string, TOKEN_KEYWORD_FUNC); ("if"%string, TOKEN_KEYWORD_IF); ("else"%string, TOKEN_KEYWORD_ELSE);
   ("let"%string, TOKEN_KEYWORD_LET); ("while"%string, TOKEN_KEYWORD_WHILE); ("foreach"%string, TOKEN_KEYWORD_FOREACH);
   ("break"%string, TOKEN_KEYWORD_BREAK); ("continue"%string, TOKEN_KEYWORD_CONTINUE); ("return"%string, TOKEN_KEYWORD_RETURN);
   ("defer"%string, TOKEN_KEYWORD_DEFER); ("import"%string, TOKEN_KEYWORD_IMPORT); ("record"%string, TOKEN_KEYWORD_RECORD);
   ("enum"%string, TOKEN_KEYWORD_ENUM); ("match"%string, TOKEN_KEYWORD_MATCH); ("switch"%string, TOKEN_KEYWORD_SWITCH);
   ("case"%string, TOKEN_KEYWORD_CASE); ("default"%string, TOKEN_KEYWORD_DEFAULT); ("map"%string, TOKEN_KEYWORD_MAP);
   ("set"%string, TOKEN_KEYWORD_SET); ("true"%string, TOKEN_TRUE); ("false"%string, TOKEN_FALSE);
   ("as"%string, TOKEN_AS); ("in"%string, TOKEN_IN)].

(** Moving the cursor over [n] characters of a line, and over a newline. *)
Definition move (n : nat) (l : Lexer) : Lexer :=
  mkLexer (source l) (pending_error l) (length l) (position l + n) (line l) (column l + Z.of_nat n).
Definition newline (l : Lexer) : Lexer :=
  mkLexer (source l) (pending_error l) (length l) (position l) (line l + 1) 0.
Definition skip1 (l : Lexer) : Lexer :=
  mkLexer (source l) (pending_error l) (length l) (position l + 1) (line l) (column l).
Definition set_pending (e : option string) (l : Lexer) : Lexer :=
  mkLexer (source l) e (length l) (position l) (line l) (column l).
Definition step_back (l : Lexer) : Lexer :=
  mkLexer (source l) (pending_error l) (length l) (position l - 1) (line l) (column l - 1).

(** [source[i]]; past the end there is the terminating NUL. *)
Definition char_at (l : Lexer) (i : nat) : Z := nth i (source l) 0.

Definition lexer_init (src : list Z) : Lexer :=
  mkLexer src None
    (if INT_MAX <? Z.of_nat (List.length src) then Z.to_nat INT_MAX else List.length src) 0 1 1.

Definition at_end (l : Lexer) : bool := (length l <=? position l)%nat.

Definition lexer_peek (l : Lexer) : Z := if at_end l then 0 else char_at l (position l).

Definition lexer_advance (l : Lexer) : Z * Lexer :=
  if at_end l then
    (0, if (length l <? position l)%nat
        then mkLexer (source l) (pending_error l) (length l) (length l) (line l) (column l) else l)
  else (char_at l (position l), move 1 l).

Definition lexer_match (l : Lexer) (expected : Z) : bool * Lexer :=
  if at_end l then (false, l)
  else if negb (char_at l (position l) =? expected) then (false, l)
  else (true, move 1 l).

(** ** Characters *)

Definition c_newline : Z := 10.
Definition c_quote : Z := 34.
Definition c_star : Z := 42.
Definition c_dot : Z := 46.
Definition c_slash : Z := 47.
Definition c_backslash : Z := 92.
Definition c_underscore : Z := 95.

Definition between (a b c : Z) : bool := (a <=? c) && (c <=? b).

Definition isdigit (c : Z) : bool := between 48 57 c.
Definition isxdigit (c : Z) : bool := between 48 57 c || between 65 70 c || between 97 102 c.
Definition isalpha (c : Z) : bool := between 65 90 c || between 97 122 c.
Definition isalnum (c : Z) : bool := isdigit c || isalpha c.

Definition lexer_is_utf8_continuation (c : Z) : bool := Z.land c 192 =? 128.
Definition lexer_is_digit (c : Z) : bool := isdigit c.
Definition lexer_is_hex_digit (c : Z) : bool := isxdigit c.
Definition lexer_is_alpha (c : Z) : bool :=
  if isalpha c then true else (128 <=? c) && negb (lexer_is_utf8_continuation c).
Definition lexer_is_alnum (c : Z) : bool := if isalnum c then true else 128 <=? c.

Definition lexer_hex_value (c : Z) : Z :=
  if between 48 57 c then c - 48
  else if between 97 102 c then 10 + (c - 97)
  else if between 65 70 c then 10 + (c - 65)
  else -1.

(** Appends the encoding of a code point to [out], which may hold [capacity]
    bytes. *)
Definition lexer_append_utf8 (out : list Z) (capacity : nat) (codepoint : Z) : option (list Z) :=
  let put bs := if (capacity <? List.length out + List.length bs)%nat then None else Some (out ++ bs) in
  if codepoint <=? 127 then put [u8 codepoint]
  else if codepoint <=? 2047 then
    put [u8 (Z.lor 192 (Z.shiftr codepoint 6)); u8 (Z.lor 128 (Z.land codepoint 63))]
  else if codepoint <=? 65535 then
    put [u8 (Z.lor 224 (Z.shiftr codepoint 12)); u8 (Z.lor 128 (Z.land (Z.shiftr codepoint 6) 63));
         u8 (Z.lor 128 (Z.land codepoint 63))]
  else if codepoint <=? 1114111 then
    put [u8 (Z.lor 240 (Z.shiftr codepoint 18)); u8 (Z.lor 128 (Z.land (Z.shiftr codepoint 12) 63));
         u8 (Z.lor 128 (Z.land (Z.shiftr codepoint 6) 63)); u8 (Z.lor 128 (Z.land codepoint 63))]
  else None.

(** ** Whitespace and comments *)

(** The loop over a line comment. *)
Fixpoint skip_line (fuel : nat) (l : Lexer) : Lexer :=
  match fuel with
  | O => l
  | S f => if negb (at_end l) && negb (lexer_peek l =? c_newline) then skip_line f (move 1 l) else l
  end.

(** The character after the cursor, if there is one. *)
Definition next_is (l : Lexer) (c : Z) : bool :=
  (position l + 1 <? length l)%nat && (char_at l (position l + 1) =? c).

(** The loop over a block comment; the flag is [terminated]. *)
Fixpoint skip_block (fuel : nat) (l : Lexer) : bool * Lexer :=
  match fuel with
  | O => (false, l)
  | S f =>
      if at_end l then (false, l)
      else
        let cc := lexer_peek l in
        if cc =? c_newline then skip_block f (skip1 (newline l))
        else if (cc =? c_star) && next_is l c_slash then (true, move 2 l)
        else skip_block f (move 1 l)
  end.

(** The fuel is spent by the iterations, each of which moves the cursor. *)
Fixpoint skip_loop (fuel : nat) (l : Lexer) : Lexer :=
  match fuel with
  | O => l
  | S f =>
      let c := lexer_peek l in
      if (c =? 32) || (c =? 9) || (c =? 13) then skip_loop f (snd (lexer_advance l))
      else if c =? c_newline then skip_loop f (skip1 (newline l))
      else if (c =? c_slash) && next_is l c_slash then skip_loop f (skip_line (length l) l)
      else if (c =? c_slash) && next_is l c_star then
        match skip_block (length l) (move 2 l) with
        | (true, l) => skip_loop f l
        | (false, l) => set_pending (Some "Unterminated multi-line comment"%string) l
        end
      else l
  end.

Definition lexer_skip_whitespace (l : Lexer) : Lexer := skip_loop (S (length l)) l.

(** ** Making tokens *)

(** The source from [start] to the cursor. *)
Definition slice (l : Lexer) (start : nat) : list Z := take (position l - start) (drop start (source l)).

Definition error_text (s : string) : list Z := bytes s.

Definition lexer_error_token (l : Lexer) (message : string) : Token :=
  mkToken TOKEN_ERROR (error_text message) (line l) (column l) no_value.

(** The numeral at the start of a text that begins with a digit, as [strtoll]
    reads it: its value without bounds and the rest of the text. *)
Fixpoint strtol_digits (base : Z) (acc : Z) (s : list Z) : Z * list Z :=
  match s with
  | c :: s' => if (0 <=? lexer_hex_value c) && (lexer_hex_value c <? base)
               then strtol_digits base (acc * base + lexer_hex_value c) s' else (acc, s)
  | [] => (acc, [])
  end.

Definition strip_0x (s : list Z) : list Z :=
  match s with
  | 48 :: x :: c :: s' => if ((x =? 120) || (x =? 88)) && isxdigit c then c :: s' else s
  | _ => s
  end.

(** The value, unless it is out of range or text is left over. *)
Definition strtoll (s : list Z) (base : Z) : option Z :=
  let '(v, rest) := strtol_digits base 0 (if base =? 16 then strip_0x s else s) in
  if INT64_MAX <? v then None else match rest with [] => Some v | _ => None end.

(** The escape sequences of a string: the decoded bytes or a message. The
    argument [raw] is what is left to decode, the fuel its length. *)
Fixpoint decode_escapes (fuel : nat) (capacity : nat) (raw : list Z) (out : list Z) : string + list Z :=
  match fuel with
  | O => inr out
  | S f =>
      match raw with
      | [] => inr out
      | c :: raw1 =>
          match (if c =? c_backslash then raw1 else []) with
          | esc :: rest =>
              if esc =? 110 then decode_escapes f capacity rest (out ++ [10])
              else if esc =? 114 then decode_escapes f capacity rest (out ++ [13])
              else if esc =? 116 then decode_escapes f capacity rest (out ++ [9])
              else if esc =? 98 then decode_escapes f capacity rest (out ++ [8])
              else if esc =? 102 then decode_escapes f capacity rest (out ++ [12])
              else if esc =? c_backslash then decode_escapes f capacity rest (out ++ [c_backslash])
              else if esc =? c_quote then decode_escapes f capacity rest (out ++ [c_quote])
              else if esc =? 117 then
                match rest with
                | a :: b :: c :: d :: rest' =>
                    let h0 := lexer_hex_value a in let h1 := lexer_hex_value b in
                    let h2 := lexer_hex_value c in let h3 := lexer_hex_value d in
                    if (h0 <? 0) || (h1 <? 0) || (h2 <? 0) || (h3 <? 0)
                    then inl "Invalid Unicode escape sequence"%string
                    else
                      let codepoint := Z.lor (Z.lor (Z.lor (Z.shiftl h0 12) (Z.shiftl h1 8)) (Z.shiftl h2 4)) h3 in
                      if (55296 <=? codepoint) && (codepoint <=? 57343)
                      then inl "Invalid Unicode surrogate in string escape"%string
                      else
                        match lexer_append_utf8 out capacity codepoint with
                        | None => inl "Failed to decode Unicode escape"%string
                        | Some out => decode_escapes f capacity rest' out
                        end
                | _ => inl "Invalid Unicode escape sequence"%string
                end
              else decode_escapes f capacity rest (out ++ [esc])
          | [] => decode_escapes f capacity raw1 (out ++ [c])
          end
      end
  end.

Section Scanning.
Context (strtod : list Z -> option Z).

Definition lexer_make_token (ty : TokenType) (l : Lexer) (start_pos : nat) : Token :=
  let len := Z.of_nat (position l) - Z.of_nat start_pos in
  let tok := mkToken ty (slice l start_pos) (line l) (column l - len) in
  let err s := mkToken TOKEN_ERROR (error_text s) (line l) (column l - len) no_value in
  if MAX_TOKEN_LENGTH <? len then err "Token too long"%string
  else
    match ty with
    | TOKEN_NUMBER_INT =>
        match strtoll (slice l start_pos) 10 with
        | Some v => tok (as_int v)
        | None => err "Integer overflow or invalid number"%string
        end
    | TOKEN_NUMBER_DOUBLE =>
        match strtod (slice l start_pos) with
        | Some d => tok (as_double d)
        | None => err "Double overflow or invalid number"%string
        end
    | TOKEN_STRING =>
        if len <? 2 then err "Invalid string token"%string
        else
          let n := (position l - start_pos - 2)%nat in
          match decode_escapes n n (take n (drop (S start_pos) (source l))) [] with
          | inl m => err m
          | inr out => tok (as_string (c_string out))
          end
    | _ => tok no_value
    end.

Fixpoint string_loop (fuel : nat) (l : Lexer) (start_pos : nat) : Token * Lexer :=
  match fuel with
  | O => (lexer_error_token l "Unterminated string"%string, l)
  | S f =>
      if at_end l then (lexer_error_token l "Unterminated string"%string, l)
      else
        let c := lexer_peek l in
        if c =? c_quote then
          let l := snd (lexer_advance l) in (lexer_make_token TOKEN_STRING l start_pos, l)
        else if c =? c_backslash then
          let l := snd (lexer_advance l) in
          if at_end l then (lexer_error_token l "Unterminated string"%string, l)
          else
            let l := if lexer_peek l =? c_newline then newline l else l in
            string_loop f (snd (lexer_advance l)) start_pos
        else
          let l := if c =? c_newline then newline l else l in
          string_loop f (snd (lexer_advance l)) start_pos
  end.

Definition lexer_string (l : Lexer) (start_pos : nat) : Token * Lexer :=
  string_loop (S (length l)) l start_pos.

(** [while (p(lexer_peek(lexer))) lexer_advance(lexer)]. *)
Fixpoint advance_while (fuel : nat) (p : Z -> bool) (l : Lexer) : Lexer :=
  match fuel with
  | O => l
  | S f => if p (lexer_peek l) then advance_while f p (snd (lexer_advance l)) else l
  end.

(** The integer literal that ends at the cursor. *)
Definition integer_token (l : Lexer) (start_pos : nat) (is_hex : bool) : Token * Lexer :=
  let force_bigint := (lexer_peek l =? 110) || (lexer_peek l =? 78) in
  let l := if force_bigint then snd (lexer_advance l) else l in
  let end_pos := (if force_bigint then position l - 1 else position l)%nat in
  let token_len := (end_pos - start_pos)%nat in
  if MAX_TOKEN_LENGTH <? Z.of_nat token_len then (lexer_error_token l "Token too long"%string, l)
  else
    let text := take token_len (drop start_pos (source l)) in
    let tok ty := mkToken ty text (line l) (column l - (Z.of_nat (position l) - Z.of_nat start_pos)) in
    if force_bigint then (tok TOKEN_NUMBER_BIGINT (as_string text), l)
    else
      match strtoll text (if is_hex then 16 else 10) with
      | Some v => (tok TOKEN_NUMBER_INT (as_int v), l)
      | None => (tok TOKEN_NUMBER_BIGINT (as_string text), l)
      end.

Definition lexer_number (l : Lexer) (start_pos : nat) : Token * Lexer :=
  if (lexer_peek l =? 48) && (next_is l 120 || next_is l 88) then
    let l := snd (lexer_advance (snd (lexer_advance l))) in
    if negb (lexer_is_hex_digit (lexer_peek l)) then (lexer_error_token l "Invalid hexadecimal literal"%string, l)
    else integer_token (advance_while (length l) lexer_is_hex_digit l) start_pos true
  else
    let l := advance_while (length l) lexer_is_digit l in
    if (lexer_peek l =? c_dot) && lexer_is_digit (char_at l (position l + 1)) then
      let l := advance_while (length l) lexer_is_digit (snd (lexer_advance l)) in
      (lexer_make_token TOKEN_NUMBER_DOUBLE l start_pos, l)
    else integer_token l start_pos false.

(** The first keyword equal to the text. *)
Definition keyword_type (text : list Z) : TokenType :=
  match List.find (fun k => bool_decide (fst k = text)) keywords with
  | Some k => snd k
  | None => TOKEN_IDENTIFIER
  end.

Definition is_ident (c : Z) : bool := lexer_is_alnum c || (c =? c_underscore).

Definition lexer_identifier (l : Lexer) (start_pos : nat) : Token * Lexer :=
  let l := advance_while (length l) is_ident l in
  (lexer_make_token (keyword_type (slice l start_pos)) l start_pos, l).

(** One character, or two if the second follows. *)
Definition one (ty : TokenType) (l : Lexer) (start_pos : nat) : Token * Lexer :=
  (lexer_make_token ty l start_pos, l).
Definition one_or_two (c : Z) (two single : TokenType) (l : Lexer) (start_pos : nat) : Token * Lexer :=
  let '(b, l) := lexer_match l c in
  if b then (lexer_make_token two l start_pos, l) else (lexer_make_token single l start_pos, l).

(** The [switch] on the first character of a token and the tests after it. *)
Definition lexer_switch (c : Z) (l : Lexer) (start_pos : nat) : Token * Lexer :=
  if c =? 40 then one TOKEN_LPAREN l start_pos
  else if c =? 41 then one TOKEN_RPAREN l start_pos
  else if c =? 123 then one TOKEN_LBRACE l start_pos
  else if c =? 125 then one TOKEN_RBRACE l start_pos
  else if c =? 91 then one TOKEN_LBRACKET l start_pos
  else if c =? 93 then one TOKEN_RBRACKET l start_pos
  else if c =? 59 then one TOKEN_SEMICOLON l start_pos
  else if c =? 44 then one TOKEN_COMMA l start_pos
  else if c =? 46 then one_or_two 46 TOKEN_DOT_DOT TOKEN_DOT l start_pos
  else if c =? 63 then one TOKEN_QUESTION l start_pos
  else if c =? 58 then one TOKEN_COLON l start_pos
  else if c =? 43 then one_or_two 61 TOKEN_PLUS_EQ TOKEN_PLUS l start_pos
  else if c =? 45 then one_or_two 61 TOKEN_MINUS_EQ TOKEN_MINUS l start_pos
  else if c =? 42 then one_or_two 61 TOKEN_STAR_EQ TOKEN_STAR l start_pos
  else if c =? 37 then one_or_two 61 TOKEN_PERCENT_EQ TOKEN_PERCENT l start_pos
  else if c =? 47 then one_or_two 61 TOKEN_SLASH_EQ TOKEN_SLASH l start_pos
  else if c =? 33 then one_or_two 61 TOKEN_BANG_EQ TOKEN_NOT l start_pos
  else if c =? 61 then one_or_two 61 TOKEN_EQ_EQ TOKEN_ASSIGN l start_pos
  else if c =? 60 then one_or_two 61 TOKEN_LT_EQ TOKEN_LT l start_pos
  else if c =? 62 then one_or_two 61 TOKEN_GT_EQ TOKEN_GT l start_pos
  else if c =? 38 then one_or_two 38 TOKEN_AND TOKEN_BIT_AND l start_pos
  else if c =? 124 then one_or_two 124 TOKEN_OR TOKEN_BIT_OR l start_pos
  else if c =? 94 then one TOKEN_BIT_XOR l start_pos
  else if c =? 126 then one TOKEN_BIT_NOT l start_pos
  else if c =? 34 then lexer_string l start_pos
  else if lexer_is_digit c then lexer_number (step_back l) start_pos
  else if lexer_is_alpha c || (c =? c_underscore) then lexer_identifier (step_back l) start_pos
  else (lexer_error_token l "Unexpected character"%string, l).

Definition lexer_next_token (l : Lexer) : Token * Lexer :=
  let l := lexer_skip_whitespace l in
  match pending_error l with
  | Some message => let l := set_pending None l in (lexer_error_token l message, l)
  | None =>
      let start_pos := position l in
      if at_end l then one TOKEN_EOF l start_pos
      else
        let '(c, l) := lexer_advance l in
        if c =? 0 then one TOKEN_EOF l start_pos
        else lexer_switch c l start_pos
  end.

(** The token of a copy of the lexer. *)
Definition lexer_peek_token (l : Lexer) : Token := fst (lexer_next_token l).
End Scanning.
