(* ===== verification/LexerSpec.v ===== *)
(** * What the lexer recognises: theorems about [src/src/lexer.c]

    Every call of [lexer_next_token] skips whitespace and comments, consumes
    the text of one token and stops; the lexer reaches the end of any source.
    Words, numbers and strings are compared with descriptions of their own:
    the longest run of identifier characters with the keyword table, the
    integer literals with the numerals of the big-integer parser, and strings
    with the escapes they were written with. *)

From S2P Require Import Prelude.
From Stdlib Require Import String Ascii.
From stdpp Require Import list.
From S2P Require Import BigIntObj BigIntText Lexer.

Open Scope Z_scope.
Open Scope list_scope.

(** ** The rest of the source *)

Definition rest (l : Lexer) : list Z := take (length l - position l) (drop (position l) (source l)).

Record lexer_ok (l : Lexer) : Prop := {
  lx_pos : (position l <= length l)%nat;
  lx_len : (length l <= List.length (source l))%nat;
  lx_chars : Forall (fun c => 0 < c < 256) (source l)
}.

(** The cursor moves over [txt]. *)
Record consumes (l : Lexer) (txt : list Z) (l' : Lexer) : Prop := {
  cs_source : source l' = source l;
  cs_length : length l' = length l;
  cs_rest : rest l = txt ++ rest l';
  cs_position : position l' = (position l + List.length txt)%nat
}.

Lemma rest_length l : lexer_ok l -> List.length (rest l) = (length l - position l)%nat.
Proof. intros [Hp Hl _]. unfold rest. rewrite length_take, length_drop. lia. Qed.

Lemma rest_chars l : lexer_ok l -> Forall (fun c => 0 < c < 256) (rest l).
Proof. intros [_ _ Hc]. by apply Forall_take, Forall_drop. Qed.

Lemma at_end_rest l : lexer_ok l -> at_end l = true <-> rest l = [].
Proof.
  intros Hl. pose proof (rest_length l Hl) as E. unfold at_end. rewrite Nat.leb_le. destruct (rest l); simpl in E.
  - split; [done|lia]. - split; [lia|done].
Qed.

Lemma at_end_cons l c s : lexer_ok l -> rest l = c :: s -> at_end l = false.
Proof. intros Hl E. destruct (at_end l) eqn:H; [|done]. apply (at_end_rest l Hl) in H. congruence. Qed.

Lemma lookup_rest l i : lexer_ok l -> (position l + i < length l)%nat -> rest l !! i = Some (char_at l (position l + i)).
Proof.
  intros [Hp Hl _] Hi. unfold rest, char_at. rewrite lookup_take_lt by lia. rewrite lookup_drop.
  destruct (nth_lookup_or_length (source l) (position l + i) 0) as [E|E]; [done|lia].
Qed.

Lemma peek_cons l c s : lexer_ok l -> rest l = c :: s -> lexer_peek l = c.
Proof.
  intros Hl E. unfold lexer_peek. rewrite (at_end_cons l c s) by done.
  pose proof (rest_length l Hl) as Hn. rewrite E in Hn. simpl in Hn.
  pose proof (lookup_rest l 0 Hl) as H. rewrite E, Nat.add_0_r in H. simpl in H.
  specialize (H ltac:(lia)). congruence.
Qed.

Lemma peek_nil l : lexer_ok l -> rest l = [] -> lexer_peek l = 0.
Proof. intros Hl E. unfold lexer_peek. by rewrite (proj2 (at_end_rest l Hl) E). Qed.

Lemma next_is_spec l c c1 s :
  lexer_ok l -> rest l = c :: s -> next_is l c1 = true <-> exists s', s = c1 :: s'.
Proof.
  intros Hl E. unfold next_is. pose proof (rest_length l Hl) as Hn. rewrite E in Hn. simpl in Hn.
  rewrite andb_true_iff, Nat.ltb_lt, Z.eqb_eq. split.
  - intros [Hlt Hc]. pose proof (lookup_rest l 1 Hl Hlt) as H. rewrite E in H. simpl in H.
    destruct s as [|y s]; [done|]. simpl in H. exists s. congruence.
  - intros (s' & ->). simpl in Hn. split; [lia|]. pose proof (lookup_rest l 1 Hl ltac:(lia)) as H.
    rewrite E in H. simpl in H. congruence.
Qed.

(** The cursor after [n] characters, whatever the line and column. *)
Lemma consumes_at l l' n :
  lexer_ok l -> (n <= List.length (rest l))%nat ->
  source l' = source l -> length l' = length l -> position l' = (position l + n)%nat ->
  consumes l (take n (rest l)) l'.
Proof.
  intros Hl Hn Hs Hlen Hp. pose proof (rest_length l Hl) as Hr. destruct Hl as [H1 H2 _].
  constructor; [done|done| |rewrite length_take; lia].
  rewrite <- (take_drop n (rest l)) at 1. f_equal. unfold rest. rewrite Hs, Hlen, Hp, skipn_firstn_comm, drop_drop.
  f_equal. lia.
Qed.

Lemma consumes_ok l txt l' : lexer_ok l -> consumes l txt l' -> lexer_ok l'.
Proof.
  intros Hl [Hs Hlen Hr Hp]. pose proof (rest_length l Hl) as E. rewrite Hr, length_app in E. destruct Hl as [H1 H2 H3].
  constructor; rewrite ?Hs, ?Hlen; [|done|done]. rewrite Hp. lia.
Qed.

Lemma consumes_refl l l' :
  source l' = source l -> length l' = length l -> position l' = position l -> consumes l [] l'.
Proof. intros Hs Hl Hp. constructor; [done|done| |simpl; lia]. unfold rest. by rewrite Hs, Hl, Hp. Qed.

Lemma consumes_trans l l1 l2 t1 t2 : consumes l t1 l1 -> consumes l1 t2 l2 -> consumes l (t1 ++ t2) l2.
Proof.
  intros [A1 A2 A3 A4] [B1 B2 B3 B4]. constructor; [congruence|congruence| |rewrite length_app; lia].
  by rewrite A3, B3, app_assoc.
Qed.

Lemma consumes_char l l' c s :
  lexer_ok l -> rest l = c :: s -> source l' = source l -> length l' = length l -> position l' = S (position l) ->
  consumes l [c] l' /\ rest l' = s.
Proof.
  intros Hl E Hs Hlen Hp. assert (consumes l (take 1 (rest l)) l') as H.
  { apply consumes_at; [done|rewrite E; simpl; lia|done|done|lia]. }
  rewrite E in H. simpl in H. split; [done|]. destruct H as [_ _ Hr _]. rewrite E in Hr. by injection Hr as ->.
Qed.

Lemma advance_cons l c s :
  lexer_ok l -> rest l = c :: s ->
  fst (lexer_advance l) = c /\ consumes l [c] (snd (lexer_advance l)) /\ rest (snd (lexer_advance l)) = s /\
  line (snd (lexer_advance l)) = line l /\ column (snd (lexer_advance l)) = column l + 1 /\
  pending_error (snd (lexer_advance l)) = pending_error l.
Proof.
  intros Hl E. pose proof (peek_cons l c s Hl E) as Hc. unfold lexer_peek in Hc.
  unfold lexer_advance. rewrite (at_end_cons l c s) in * by done. cbn [fst snd].
  split; [done|]. destruct (consumes_char l (move 1 l) c s Hl E) as [H1 H2]; [done|done|simpl; lia|]. done.
Qed.

(** The text a token covers. *)
Lemma slice_consumes l txt l' :
  lexer_ok l -> consumes l txt l' -> slice l' (position l) = txt.
Proof.
  intros Hl [Hs Hlen Hr Hp]. unfold slice. rewrite Hs, Hp. replace (position l + List.length txt - position l)%nat
    with (List.length txt) by lia.
  assert (List.length txt <= length l - position l)%nat as Hn.
  { pose proof (rest_length l Hl) as E. rewrite Hr, length_app in E. lia. }
  assert (take (List.length txt) (rest l) = txt) as E by (by rewrite Hr, take_app_length).
  unfold rest in E. rewrite take_take in E. by rewrite Nat.min_l in E by lia.
Qed.

(** ** Whitespace and comments *)

Definition blank (c : Z) : Prop := c = 32 \/ c = 9 \/ c = 13 \/ c = c_newline.

(** The text of a block comment does not contain its end mark. *)
Definition no_close (body : list Z) : Prop := forall a b, body <> a ++ [c_star; c_slash] ++ b.

(** Whitespace and comments; a line comment runs to the end of the line. *)
Inductive trivia : list Z -> Prop :=
| trivia_nil : trivia []
| trivia_blank c s : blank c -> trivia s -> trivia (c :: s)
| trivia_line body s :
    Forall (fun c => c <> c_newline) body -> (s = [] \/ exists s', s = c_newline :: s') -> trivia s ->
    trivia ([c_slash; c_slash] ++ body ++ s)
| trivia_block body s : no_close body -> trivia s -> trivia ([c_slash; c_star] ++ body ++ [c_star; c_slash] ++ s).

Lemma no_close_nil : no_close [].
Proof. intros [|? ?] b; discriminate. Qed.

Lemma no_close_cons c body :
  no_close body -> (c <> c_star \/ head body <> Some c_slash) -> no_close (c :: body).
Proof.
  intros Hb Hc [|x a] b E; simpl in E.
  - injection E as -> ->. destruct Hc as [Hc|Hc]; by apply Hc.
  - injection E as -> E. by apply (Hb a b).
Qed.

(** A cursor that moved keeps the pending error. *)
Definition same_error (l l' : Lexer) : Prop := pending_error l' = pending_error l.

Lemma same_error_trans l1 l2 l3 : same_error l1 l2 -> same_error l2 l3 -> same_error l1 l3.
Proof. unfold same_error. congruence. Qed.

Lemma skip_line_spec fuel : forall l,
  lexer_ok l -> (List.length (rest l) <= fuel)%nat ->
  exists body, consumes l body (skip_line fuel l) /\ same_error l (skip_line fuel l) /\
    Forall (fun c => c <> c_newline) body /\
    (rest (skip_line fuel l) = [] \/ exists s, rest (skip_line fuel l) = c_newline :: s).
Proof.
  induction fuel as [|f IH]; intros l Hl Hf; cbn [skip_line].
  { exists []. split; [by apply consumes_refl|]. split; [done|]. split; [done|]. left. by destruct (rest l); [|simpl in Hf; lia]. }
  destruct (rest l) as [|c s] eqn:E.
  { rewrite (proj2 (at_end_rest l Hl) E). exists []. split; [by apply consumes_refl|]. split; [done|]. split; [done|by left]. }
  rewrite (at_end_cons l c s), (peek_cons l c s) by done. cbn [negb andb].
  destruct (Z.eqb_spec c c_newline) as [->|Hc]; cbn [negb].
  { exists []. split; [by apply consumes_refl|]. split; [done|]. split; [done|]. right. by exists s. }
  destruct (consumes_char l (move 1 l) c s Hl E) as [H1 H2]; [done|done|simpl; lia|].
  destruct (IH (move 1 l)) as (body & Hb & He & Hn & Hr); [by apply (consumes_ok l [c])|rewrite H2; simpl in Hf; lia|].
  exists (c :: body). split; [by apply (consumes_trans l (move 1 l) _ [c])|]. split; [done|]. split; [by constructor|done].
Qed.

Lemma skip_block_spec fuel : forall l,
  lexer_ok l -> (List.length (rest l) < fuel)%nat ->
  exists txt, consumes l txt (snd (skip_block fuel l)) /\ same_error l (snd (skip_block fuel l)) /\
    if fst (skip_block fuel l)
    then exists body, txt = body ++ [c_star; c_slash] /\ no_close body
    else rest (snd (skip_block fuel l)) = [].
Proof.
  induction fuel as [|f IH]; intros l Hl Hf; [lia|]. cbn [skip_block].
  destruct (rest l) as [|c s] eqn:E.
  { rewrite (proj2 (at_end_rest l Hl) E). exists []. split; [by apply consumes_refl|]. by split. }
  rewrite (at_end_cons l c s), (peek_cons l c s) by done. cbn zeta.
  assert (forall l1, source l1 = source l -> length l1 = length l -> position l1 = S (position l) ->
            same_error l l1 -> (c <> c_star \/ next_is l c_slash = false) ->
    exists txt, consumes l txt (snd (skip_block f l1)) /\ same_error l (snd (skip_block f l1)) /\
      if fst (skip_block f l1) then exists body, txt = body ++ [c_star; c_slash] /\ no_close body
      else rest (snd (skip_block f l1)) = []) as Hstep.
  { intros l1 Hs Hlen Hp He1 Hc. destruct (consumes_char l l1 c s Hl E Hs Hlen Hp) as [H1 H2].
    destruct (IH l1) as (txt & Ht & He & Hr); [by apply (consumes_ok l [c])|rewrite H2; simpl in Hf; lia|].
    exists (c :: txt). split; [by apply (consumes_trans l l1 _ [c])|]. split; [unfold same_error in *; congruence|].
    destruct (fst (skip_block f l1)); [|done]. destruct Hr as (body & -> & Hb). exists (c :: body). split; [done|].
    apply no_close_cons; [done|]. destruct Hc as [Hc|Hc]; [by left|]. destruct (Z.eq_dec c c_star) as [->|]; [|by left].
    right. intros Hh. destruct Ht as [_ _ Hr _]. rewrite H2 in Hr. destruct body as [|b body]; [done|].
    injection Hh as ->. assert (next_is l c_slash = true); [|congruence].
    apply (next_is_spec l c_star c_slash s Hl E). rewrite Hr. by eexists. }
  destruct (Z.eqb_spec c c_newline) as [->|Hc].
  { apply Hstep; [done|done|simpl; lia|done|by left]. }
  destruct (Z.eqb_spec c c_star) as [->|Hc']; cbn [andb].
  2: { apply Hstep; [done|done|simpl; lia|done|by left]. }
  destruct (next_is l c_slash) eqn:Hn.
  2: { apply Hstep; [done|done|simpl; lia|done|by right]. }
  apply (next_is_spec l c_star c_slash s Hl E) in Hn as [s' ->]. exists [c_star; c_slash]. cbn [fst snd].
  split; [|split; [done|exists []; split; [done|apply no_close_nil]]].
  assert (take 2 (rest l) = [c_star; c_slash]) as <- by (by rewrite E).
  apply consumes_at; [done|rewrite E; simpl; lia|done|done|done].
Qed.

Lemma blank_test c : (c =? 32) || (c =? 9) || (c =? 13) = true \/ c = c_newline -> blank c.
Proof. unfold blank. intros [H|H]; [lia|lia]. Qed.

(** Where the skipping stops: at the end of the text, or in front of a
    character that starts neither whitespace nor a comment. *)
Definition token_start (s : list Z) : Prop :=
  match s with
  | [] => True
  | c :: s' => ~ blank c /\ (c = c_slash -> head s' <> Some c_slash /\ head s' <> Some c_star)
  end.

(** The outcome of skipping: trivia up to the start of a token, or a comment
    that is not closed and the end of the text. *)
Definition skipped (l : Lexer) (txt : list Z) (l' : Lexer) : Prop :=
  consumes l txt l' /\
  ((pending_error l' = None /\ trivia txt /\ token_start (rest l')) \/
   (pending_error l' = Some "Unterminated multi-line comment"%string /\ rest l' = [] /\ txt <> [])).

(** One step of the loop before the rest of it. *)
Lemma skipped_step l l1 l' t1 t2 :
  t1 <> [] -> consumes l t1 l1 -> skipped l1 t2 l' ->
  (trivia t2 -> token_start (rest l') -> trivia (t1 ++ t2)) -> skipped l (t1 ++ t2) l'.
Proof.
  intros Hne H1 [H2 Hc] Ht. split; [by apply (consumes_trans l l1)|].
  destruct Hc as [(Hp & Hv & Hs)|(Hp & Hr & Hn)]; [left; auto|right]. split; [done|]. split; [done|].
  by destruct t1.
Qed.

Lemma skip_loop_spec fuel : forall l,
  lexer_ok l -> pending_error l = None -> (List.length (rest l) < fuel)%nat ->
  exists txt, skipped l txt (skip_loop fuel l).
Proof.
  induction fuel as [|f IH]; intros l Hl He Hf; [lia|]. cbn [skip_loop].
  destruct (rest l) as [|c s] eqn:E.
  { rewrite (peek_nil l Hl E). simpl. exists []. split; [by apply consumes_refl|]. left. rewrite E. repeat split; [done|constructor]. }
  rewrite (peek_cons l c s) by done. cbn zeta.
  assert (forall l1 t1 s1, t1 <> [] -> consumes l t1 l1 -> pending_error l1 = None -> rest l1 = s1 ->
            (forall t2, trivia t2 -> (exists s2, s1 = t2 ++ s2 /\ token_start s2) -> trivia (t1 ++ t2)) ->
            exists txt, skipped l txt (skip_loop f l1)) as Hnext.
  { intros l1 t1 s1 Hne H1 Hp1 <- Ht.
    destruct (IH l1) as (t2 & H2); [by apply (consumes_ok l t1)|done| |].
    { destruct H1 as [_ _ Hr _]. rewrite E in Hr. apply (f_equal List.length) in Hr. rewrite length_app in Hr.
      destruct t1; [done|]. simpl in *. lia. }
    exists (t1 ++ t2). apply (skipped_step l l1); [done..|]. intros Hv Hs. apply Ht; [done|].
    destruct H2 as [[_ _ Hr _] _]. eauto. }
  destruct ((c =? 32) || (c =? 9) || (c =? 13)) eqn:Hb.
  { destruct (advance_cons l c s Hl E) as (_ & H1 & H2 & _ & _ & Hp). apply (Hnext _ [c] s); [done|done|congruence|done|].
    intros t2 Ht _. constructor; [apply blank_test; by left|done]. }
  destruct (Z.eqb_spec c c_newline) as [->|Hc].
  { destruct (consumes_char l (skip1 (newline l)) c_newline s Hl E) as [H1 H2]; [done|done|simpl; lia|].
    apply (Hnext _ [c_newline] s); [done|done|done|done|]. intros t2 Ht _. constructor; [|done]. apply blank_test. by right. }
  destruct (Z.eqb_spec c c_slash) as [->|Hs]; cbn [andb].
  2: { exists []. split; [by apply consumes_refl|]. left. split; [done|]. split; [constructor|]. rewrite E. simpl.
       split; [|done]. unfold blank. intros [?|[?|[?|?]]]; lia. }
  pose proof (rest_length l Hl) as Hlen. rewrite E in Hlen. simpl in Hlen, Hf.
  destruct (next_is l c_slash) eqn:Hn.
  { apply (next_is_spec l c_slash c_slash s Hl E) in Hn as [s' ->].
    destruct (skip_line_spec (length l) l Hl) as (body & H1 & H2 & H3 & H4); [rewrite E; simpl in *; lia|].
    assert (exists body', body = [c_slash; c_slash] ++ body') as [body' ->].
    { destruct H1 as [_ _ Hr _]. rewrite E in Hr.
      destruct body as [|x [|y body]]; simpl in Hr; [|injection Hr as <- Hr|injection Hr as <- <- Hr; by exists body];
        destruct H4 as [H4|[s4 H4]]; rewrite H4 in Hr; unfold c_slash, c_newline in Hr; discriminate Hr. }
    apply Forall_app in H3 as [_ H3].
    apply (Hnext _ ([c_slash; c_slash] ++ body') (rest (skip_line (length l) l)));
      [done|done|unfold same_error in H2; congruence|done|].
    intros t2 Ht (s2 & Hs2 & Hst). rewrite <- app_assoc. constructor; [done| |done]. rewrite Hs2 in H4.
    destruct t2 as [|x t2]; [by left|]. right. destruct H4 as [H4|[s4 H4]]; [done|]. injection H4 as -> _. by exists t2. }
  destruct (next_is l c_star) eqn:Hn'.
  { apply (next_is_spec l c_slash c_star s Hl E) in Hn' as [s' ->].
    assert (consumes l [c_slash; c_star] (move 2 l)) as H1.
    { assert (take 2 (rest l) = [c_slash; c_star]) as <- by (by rewrite E).
      apply consumes_at; [done|rewrite E; simpl; lia|done|done|done]. }
    pose proof (cs_rest _ _ _ H1) as Hr. rewrite E in Hr. injection Hr as Hr.
    destruct (skip_block_spec (length l) (move 2 l)) as (txt & H2 & H3 & H4);
      [by apply (consumes_ok l [c_slash; c_star])|rewrite <- Hr; simpl in *; lia|].
    destruct (skip_block (length l) (move 2 l)) as [[] l2]; cbn [fst snd] in *.
    - destruct H4 as (body & -> & Hb2). apply (Hnext _ ([c_slash; c_star] ++ body ++ [c_star; c_slash]) (rest l2));
        [done|by apply (consumes_trans l (move 2 l))|unfold same_error in H3; by rewrite H3|done|].
      intros t2 Ht _. rewrite <- !app_assoc. by constructor.
    - exists ([c_slash; c_star] ++ txt). split; [|right; split; [done|]; split; [|done]].
      + apply (consumes_trans l (move 2 l)); [done|]. destruct H2 as [A1 A2 A3 A4]. by constructor.
      + by destruct H2. }
  exists []. split; [by apply consumes_refl|]. left. split; [done|]. split; [constructor|]. rewrite E. simpl.
  split; [unfold blank; intros [?|[?|[?|?]]]; lia|]. intros _. destruct s as [|x s]; [done|]. simpl.
  split; intros [= ->].
  - apply not_true_iff_false in Hn. apply Hn, (next_is_spec l c_slash c_slash _ Hl E). by eexists.
  - apply not_true_iff_false in Hn'. apply Hn', (next_is_spec l c_slash c_star _ Hl E). by eexists.
Qed.

(** ** Scanning one token *)

Lemma advance_while_spec p fuel : forall l,
  p 0 = false -> lexer_ok l -> (List.length (rest l) <= fuel)%nat ->
  exists txt, consumes l txt (advance_while fuel p l) /\ same_error l (advance_while fuel p l) /\
    Forall (fun c => p c = true) txt /\
    match rest (advance_while fuel p l) with [] => True | c :: _ => p c = false end.
Proof.
  intros l Hp. revert l. induction fuel as [|f IH]; intros l Hl Hf; cbn [advance_while].
  { exists []. split; [by apply consumes_refl|]. split; [done|]. split; [done|]. by destruct (rest l); [|simpl in Hf; lia]. }
  destruct (rest l) as [|c s] eqn:E.
  { rewrite (peek_nil l Hl E), Hp. exists []. split; [by apply consumes_refl|]. split; [done|]. by rewrite E. }
  rewrite (peek_cons l c s Hl E). destruct (p c) eqn:Hc.
  - destruct (advance_cons l c s Hl E) as (_ & H1 & H2 & _ & _ & H3).
    destruct (IH (snd (lexer_advance l))) as (txt & A1 & A2 & A3 & A4);
      [by apply (consumes_ok l [c])|rewrite H2; simpl in Hf; lia|].
    exists (c :: txt). split; [by apply (consumes_trans l (snd (lexer_advance l)) _ [c])|].
    split; [unfold same_error in *; congruence|]. split; [by constructor|done].
  - exists []. split; [by apply consumes_refl|]. split; [done|]. split; [done|]. by rewrite E.
Qed.

(** One character, which may be counted as a newline. *)
Lemma advance_line l c s l2 :
  lexer_ok l -> rest l = c :: s -> (l2 = l \/ l2 = newline l) ->
  consumes l [c] (snd (lexer_advance l2)) /\ same_error l (snd (lexer_advance l2)) /\ rest (snd (lexer_advance l2)) = s.
Proof.
  intros Hl E [->| ->].
  - destruct (advance_cons l c s Hl E) as (_ & A1 & A2 & _ & _ & A3). done.
  - assert (lexer_ok (newline l)) as Hn by (destruct Hl; by constructor).
    destruct (advance_cons (newline l) c s Hn E) as (_ & [B1 B2 B3 B4] & A2 & _ & _ & A3).
    split; [by constructor|done].
Qed.

Section Tokens.
Context (strtod : list Z -> option Z).

(** A token that covers the text [txt] in front of [l0]. *)
Definition covers (t : Token) (txt : list Z) : Prop :=
  type t = TOKEN_ERROR \/ lexeme t = txt \/
  (type t = TOKEN_NUMBER_BIGINT /\ exists n, (n = 110 \/ n = 78) /\ txt = lexeme t ++ [n]).

Record scanned (l : Lexer) (txt : list Z) (t : Token) (l' : Lexer) : Prop := {
  sc_text : txt <> [];
  sc_moves : consumes l txt l';
  sc_error : same_error l l';
  sc_type : type t <> TOKEN_EOF;
  sc_covers : covers t txt
}.

Lemma make_token_spec ty l start :
  (type (lexer_make_token strtod ty l start) = ty /\ lexeme (lexer_make_token strtod ty l start) = slice l start) \/
  type (lexer_make_token strtod ty l start) = TOKEN_ERROR.
Proof. unfold lexer_make_token. case_match; [by right|]. destruct ty; repeat case_match; auto. Qed.

Lemma make_token_scanned l txt ty l' :
  lexer_ok l -> consumes l txt l' -> same_error l l' -> txt <> [] -> ty <> TOKEN_EOF ->
  scanned l txt (lexer_make_token strtod ty l' (position l)) l'.
Proof.
  intros Hl Hc He Hne Hty. constructor; [done|done|done| |].
  - destruct (make_token_spec ty l' (position l)) as [[-> _]| ->]; done.
  - destruct (make_token_spec ty l' (position l)) as [[_ E]|E]; [right; left|by left].
    by rewrite E, (slice_consumes l txt l').
Qed.

Lemma error_scanned l txt m l' :
  consumes l txt l' -> same_error l l' -> txt <> [] -> scanned l txt (lexer_error_token l' m) l'.
Proof. intros. constructor; [done..|]. by left. Qed.

(** Something consumed in front of a scan that starts later. *)
Definition scans (l : Lexer) (r : Token * Lexer) : Prop := exists txt, scanned l txt (fst r) (snd r).

Lemma string_loop_spec l0 fuel : forall l txt,
  lexer_ok l0 -> consumes l0 txt l -> same_error l0 l -> txt <> [] -> (List.length (rest l) < fuel)%nat ->
  scans l0 (string_loop strtod fuel l (position l0)).
Proof.
  induction fuel as [|f IH]; intros l txt Hl0 H0 He Hne Hf; [lia|]. cbn [string_loop].
  pose proof (consumes_ok l0 txt l Hl0 H0) as Hl. destruct (rest l) as [|c s] eqn:E.
  { rewrite (proj2 (at_end_rest l Hl) E). exists txt. by apply error_scanned. }
  rewrite (at_end_cons l c s), (peek_cons l c s) by done. cbn zeta.
  destruct (Z.eqb_spec c c_quote) as [->|Hq].
  { destruct (advance_line l c_quote s l Hl E) as (A1 & A2 & A3); [by left|].
    exists (txt ++ [c_quote]). apply make_token_scanned; [done| | |by destruct txt|done].
    - by apply (consumes_trans l0 l). - by apply (same_error_trans l0 l). }
  destruct (Z.eqb_spec c c_backslash) as [->|Hb].
  - destruct (advance_line l c_backslash s l Hl E) as (A1 & A2 & A3); [by left|].
    set (l1 := snd (lexer_advance l)) in *. assert (consumes l0 (txt ++ [c_backslash]) l1) as C1 by (by apply (consumes_trans l0 l)).
    assert (same_error l0 l1) as E1 by (by apply (same_error_trans l0 l)).
    assert (txt ++ [c_backslash] <> []) as N1 by (by destruct txt).
    pose proof (consumes_ok l0 _ l1 Hl0 C1) as Hl1. destruct s as [|c1 s1].
    { rewrite (proj2 (at_end_rest l1 Hl1) A3). eexists. by apply error_scanned. }
    rewrite (at_end_cons l1 c1 s1) by done.
    destruct (advance_line l1 c1 s1 (if lexer_peek l1 =? c_newline then newline l1 else l1) Hl1 A3) as (B1 & B2 & B3);
      [case_match; auto|].
    apply (IH _ ((txt ++ [c_backslash]) ++ [c1])); [done|by apply (consumes_trans l0 l1)| |by destruct txt|].
    + by apply (same_error_trans l0 l1).
    + rewrite B3. simpl in Hf. lia.
  - destruct (advance_line l c s (if c =? c_newline then newline l else l) Hl E) as (B1 & B2 & B3); [case_match; auto|].
    apply (IH _ (txt ++ [c])); [done|by apply (consumes_trans l0 l)| |by destruct txt|].
    + by apply (same_error_trans l0 l).
    + rewrite B3. simpl in Hf. lia.
Qed.

(** The integer literal that ends at the cursor: its text is [txt], an [n]
    after it is consumed too and makes it a big integer. *)
Lemma integer_token_spec l0 txt l hex :
  lexer_ok l0 -> consumes l0 txt l -> same_error l0 l -> txt <> [] ->
  let '(t, l') := integer_token l (position l0) hex in
  exists suffix, consumes l0 (txt ++ suffix) l' /\ same_error l0 l' /\
    match rest l with
    | c :: _ => if (c =? 110) || (c =? 78) then suffix = [c] else suffix = []
    | [] => suffix = []
    end /\
    (type t, lexeme t, value t) =
      if MAX_TOKEN_LENGTH <? Z.of_nat (List.length txt) then (TOKEN_ERROR, bytes "Token too long", no_value)
      else match suffix, strtoll txt (if hex then 16 else 10) with
           | [], Some v => (TOKEN_NUMBER_INT, txt, as_int v)
           | _, _ => (TOKEN_NUMBER_BIGINT, txt, as_string txt)
           end.
Proof.
  intros Hl0 Hc He Hne. pose proof (consumes_ok l0 txt l Hl0 Hc) as Hl. unfold integer_token.
  assert (take (List.length txt) (drop (position l0) (source l0)) = txt) as Htxt.
  { rewrite <- (slice_consumes l0 txt l Hl0 Hc) at 2. destruct Hc as [Hs _ _ Hp]. unfold slice. rewrite Hs, Hp.
    f_equal. lia. }
  assert (position l - position l0 = List.length txt)%nat as Hlen by (destruct Hc; lia).
  assert (forall l' suffix, consumes l0 (txt ++ suffix) l' -> same_error l0 l' ->
    take (List.length txt) (drop (position l0) (source l')) = txt) as Htxt'.
  { intros l' suffix [Hs _ _ _] _. by rewrite Hs. }
  assert (suffix_none : consumes l0 (txt ++ []) l) by (by rewrite app_nil_r).
  destruct (rest l) as [|c s] eqn:E; [rewrite (peek_nil l Hl E)|rewrite (peek_cons l c s Hl E)].
  2: destruct ((c =? 110) || (c =? 78)) eqn:Hn.
  2: { destruct (advance_cons l c s Hl E) as (_ & A1 & _ & _ & _ & A3). set (l1 := snd (lexer_advance l)) in *.
    assert (consumes l0 (txt ++ [c]) l1) as C1 by (by apply (consumes_trans l0 l)).
    assert (same_error l0 l1) as E1 by (by apply (same_error_trans l0 l)).
    assert (position l1 - 1 - position l0 = List.length txt)%nat as -> by (destruct A1 as [_ _ _ ->]; simpl; lia).
    rewrite (Htxt' l1 [c]) by done. destruct (MAX_TOKEN_LENGTH <? _); by exists [c]. }
  all: cbn [Z.eqb orb]; rewrite Hlen, (Htxt' l []) by done.
  all: destruct (MAX_TOKEN_LENGTH <? _); [by exists []|]; destruct (strtoll _ _); by exists [].
Qed.

Lemma integer_token_scans l0 txt l hex :
  lexer_ok l0 -> consumes l0 txt l -> same_error l0 l -> txt <> [] -> scans l0 (integer_token l (position l0) hex).
Proof.
  intros Hl0 Hc He Hne. pose proof (integer_token_spec l0 txt l hex Hl0 Hc He Hne) as H.
  destruct (integer_token l (position l0) hex) as [t l']. destruct H as (suffix & C & E & Hs & Hv).
  exists (txt ++ suffix). constructor; [by destruct txt|done|done| |]; cbn [fst].
  - destruct (MAX_TOKEN_LENGTH <? _); [congruence|].
    destruct suffix as [|c suffix]; [destruct (strtoll txt (if hex then 16 else 10))|]; congruence.
  - unfold covers. destruct (MAX_TOKEN_LENGTH <? _); [left; congruence|]. right.
    destruct suffix as [|c suffix].
    + left. rewrite app_nil_r. destruct (strtoll txt (if hex then 16 else 10)); congruence.
    + right. split; [congruence|]. destruct (rest l) as [|c' s]; [done|].
      destruct ((c' =? 110) || (c' =? 78)) eqn:Hn; [|done]. injection Hs as -> ->. exists c'. split; [lia|].
      do 2 f_equal. congruence.
Qed.

(** A hexadecimal literal is the longest run of hexadecimal digits. *)
Lemma number_hex l x s :
  lexer_ok l -> rest l = 48 :: x :: s -> (x = 120 \/ x = 88) ->
  match s with
  | h :: _ => if isxdigit h then
      exists hs l1, consumes l (48 :: x :: hs) l1 /\ same_error l l1 /\ hs <> [] /\ Forall (fun c => isxdigit c = true) hs /\
        match rest l1 with [] => True | c :: _ => isxdigit c = false end /\
        lexer_number strtod l (position l) = integer_token l1 (position l) true
    else scans l (lexer_number strtod l (position l)) /\ type (fst (lexer_number strtod l (position l))) = TOKEN_ERROR
  | [] => scans l (lexer_number strtod l (position l)) /\ type (fst (lexer_number strtod l (position l))) = TOKEN_ERROR
  end.
Proof.
  intros Hl E Hx. unfold lexer_number. rewrite (peek_cons l 48 (x :: s) Hl E). cbn [Z.eqb Pos.eqb andb].
  assert (next_is l 120 || next_is l 88 = true) as ->.
  { apply orb_true_iff. destruct Hx as [->| ->]; [left|right]; apply (next_is_spec l 48 _ _ Hl E); by eexists. }
  destruct (advance_cons l 48 (x :: s) Hl E) as (_ & A1 & A2 & _ & _ & A3). set (l1 := snd (lexer_advance l)) in *.
  pose proof (consumes_ok l _ l1 Hl A1) as Hl1.
  destruct (advance_cons l1 x s Hl1 A2) as (_ & B1 & B2 & _ & _ & B3). set (l2 := snd (lexer_advance l1)) in *.
  pose proof (consumes_ok l1 _ l2 Hl1 B1) as Hl2. assert (consumes l [48; x] l2) as C by (by apply (consumes_trans l l1 _ [48] [x])).
  assert (same_error l l2) as He by (by apply (same_error_trans l l1)).
  assert (forall t, scans l (lexer_error_token l2 t, l2)) as Herr by (intros t; exists [48; x]; by apply error_scanned).
  destruct s as [|h s]; [rewrite (peek_nil l2 Hl2 B2); split; [apply Herr|done]|].
  rewrite (peek_cons l2 h s Hl2 B2).
  change (lexer_is_hex_digit h) with (isxdigit h). destruct (isxdigit h) eqn:Hh; cbn [negb]; [|split; [apply Herr|done]].
  pose proof (rest_length l2 Hl2) as Hlen.
  destruct (advance_while_spec lexer_is_hex_digit (length l2) l2) as (hs & D1 & D2 & D3 & D4); [done|done|lia|].
  exists hs, (advance_while (length l2) lexer_is_hex_digit l2). split; [by apply (consumes_trans l l2 _ [48; x])|].
  split; [by apply (same_error_trans l l2)|]. split; [|done].
  intros ->. destruct D1 as [_ _ Hr _]. rewrite B2 in Hr. simpl in Hr. rewrite <- Hr in D4.
  unfold lexer_is_hex_digit in D4. congruence.
Qed.

(** Other numbers start with the longest run of digits. *)
Lemma number_dec l d s :
  lexer_ok l -> rest l = d :: s -> isdigit d = true ->
  ~ (d = 48 /\ (head s = Some 120 \/ head s = Some 88)) ->
  exists ds l1, consumes l ds l1 /\ same_error l l1 /\ ds <> [] /\ Forall (fun c => isdigit c = true) ds /\
    match rest l1 with [] => True | c :: _ => isdigit c = false end /\
    lexer_number strtod l (position l) =
      if (lexer_peek l1 =? c_dot) && isdigit (char_at l1 (position l1 + 1)) then
        let l2 := advance_while (length l1) lexer_is_digit (snd (lexer_advance l1)) in
        (lexer_make_token strtod TOKEN_NUMBER_DOUBLE l2 (position l), l2)
      else integer_token l1 (position l) false.
Proof.
  intros Hl E Hd Hx. unfold lexer_number. rewrite (peek_cons l d s Hl E).
  assert ((d =? 48) && (next_is l 120 || next_is l 88) = false) as ->.
  { apply not_true_iff_false. intros [H1 H2]%andb_true_iff. apply Hx. split; [lia|].
    apply orb_true_iff in H2 as [H2|H2]; apply (next_is_spec l d _ _ Hl E) in H2 as [s' ->]; [by left|by right]. }
  pose proof (rest_length l Hl) as Hlen.
  destruct (advance_while_spec lexer_is_digit (length l) l) as (ds & D1 & D2 & D3 & D4); [done|done|lia|].
  exists ds, (advance_while (length l) lexer_is_digit l). split; [done|]. split; [done|]. split; [|split; [done|split; [done|]]].
  - intros ->. destruct D1 as [_ _ Hr _]. rewrite E in Hr. simpl in Hr. rewrite <- Hr in D4. unfold lexer_is_digit in D4. congruence.
  - done.
Qed.

Lemma number_scans l d s :
  lexer_ok l -> rest l = d :: s -> isdigit d = true -> scans l (lexer_number strtod l (position l)).
Proof.
  intros Hl E Hd. destruct (decide (d = 48 /\ (head s = Some 120 \/ head s = Some 88))) as [[-> Hx]|Hx].
  - assert (exists x s', s = x :: s' /\ (x = 120 \/ x = 88)) as (x & s' & -> & Hx').
    { destruct s as [|x s']; [by destruct Hx|]. exists x, s'. split; [done|]. destruct Hx as [[= ->]|[= ->]]; auto. }
    pose proof (number_hex l x s' Hl E Hx') as H. destruct s' as [|h s']; [apply H|].
    destruct (isxdigit h); [|apply H]. destruct H as (hs & l1 & C & He & _ & _ & _ & ->). by eapply integer_token_scans.
  - destruct (number_dec l d s Hl E Hd Hx) as (ds & l1 & C & He & Hne & _ & _ & ->).
    destruct ((lexer_peek l1 =? c_dot) && isdigit (char_at l1 (position l1 + 1))) eqn:Hdot; [|by eapply integer_token_scans].
    pose proof (consumes_ok l ds l1 Hl C) as Hl1. destruct (rest l1) as [|c s1] eqn:E1.
    { rewrite (peek_nil l1 Hl1 E1) in Hdot. done. }
    destruct (advance_cons l1 c s1 Hl1 E1) as (_ & A1 & A2 & _ & _ & A3). set (l2 := snd (lexer_advance l1)) in *.
    pose proof (consumes_ok l1 _ l2 Hl1 A1) as Hl2. pose proof (rest_length l2 Hl2) as Hlen.
    destruct (advance_while_spec lexer_is_digit (length l1) l2) as (ds2 & D1 & D2 & _ & _); [done|done| |].
    { destruct A1 as [_ <- _ _]. lia. }
    eexists. apply make_token_scanned; [done|by apply (consumes_trans l l2), D1; apply (consumes_trans l l1)| |by destruct ds|done].
    apply (same_error_trans l l2); [by apply (same_error_trans l l1)|done].
Qed.

(** A word is the longest run of identifier characters. *)
Lemma identifier_spec l c s :
  lexer_ok l -> rest l = c :: s -> is_ident c = true ->
  exists w l1, consumes l w l1 /\ same_error l l1 /\ w <> [] /\ Forall (fun c => is_ident c = true) w /\
    match rest l1 with [] => True | c :: _ => is_ident c = false end /\
    lexer_identifier strtod l (position l) = (lexer_make_token strtod (keyword_type w) l1 (position l), l1).
Proof.
  intros Hl E Hc. pose proof (rest_length l Hl) as Hlen.
  destruct (advance_while_spec is_ident (length l) l) as (w & D1 & D2 & D3 & D4); [done|done|lia|].
  exists w, (advance_while (length l) is_ident l). split; [done|]. split; [done|]. split.
  { intros ->. destruct D1 as [_ _ Hr _]. rewrite E in Hr. simpl in Hr. rewrite <- Hr in D4. congruence. }
  split; [done|]. split; [done|]. unfold lexer_identifier. by rewrite (slice_consumes l w).
Qed.

Lemma keyword_not_eof w : keyword_type w <> TOKEN_EOF.
Proof.
  unfold keyword_type. destruct (List.find _ keywords) as [k|] eqn:E; [|done]. apply find_some in E as [E _].
  assert (Forall (fun k => snd k <> TOKEN_EOF) keywords) as H by (repeat constructor; done).
  rewrite List.Forall_forall in H. by apply H.
Qed.

Lemma one_or_two_scans l0 l c c1 ty1 ty2 :
  lexer_ok l0 -> consumes l0 [c] l -> same_error l0 l -> ty1 <> TOKEN_EOF -> ty2 <> TOKEN_EOF ->
  scans l0 (one_or_two strtod c1 ty1 ty2 l (position l0)).
Proof.
  intros Hl0 Hc He H1 H2. pose proof (consumes_ok l0 _ l Hl0 Hc) as Hl. unfold one_or_two, lexer_match.
  destruct (rest l) as [|x s] eqn:E.
  { rewrite (proj2 (at_end_rest l Hl) E). eexists. by apply make_token_scanned. }
  rewrite (at_end_cons l x s) by done. destruct (negb _); [eexists; by apply make_token_scanned|].
  destruct (consumes_char l (move 1 l) x s Hl E) as [A1 A2]; [done|done|simpl; lia|].
  eexists. apply make_token_scanned; [done|by apply (consumes_trans l0 l)| |done|done].
  by apply (same_error_trans l0 l).
Qed.

Lemma one_scans l0 l c ty :
  lexer_ok l0 -> consumes l0 [c] l -> same_error l0 l -> ty <> TOKEN_EOF -> scans l0 (one strtod ty l (position l0)).
Proof. intros. eexists. by apply make_token_scanned. Qed.

(** One call: trivia and a token, or the end of the source after trivia, or
    the rest of the source as an unclosed comment. *)
Inductive reads_token (l : Lexer) : Token * Lexer -> Prop :=
| read_eof gap t l' :
    trivia gap -> consumes l gap l' -> rest l' = [] -> pending_error l' = None ->
    type t = TOKEN_EOF -> lexeme t = [] -> reads_token l (t, l')
| read_token gap txt l1 t l' :
    trivia gap -> consumes l gap l1 -> token_start (rest l1) -> scanned l1 txt t l' -> pending_error l' = None ->
    reads_token l (t, l')
| read_unclosed txt t l' :
    consumes l txt l' -> txt <> [] -> rest l' = [] -> pending_error l' = None ->
    type t = TOKEN_ERROR -> lexeme t = bytes "Unterminated multi-line comment" -> reads_token l (t, l').

(** The position does not depend on how the cursor got there. *)
Lemma step_back_advance l c s :
  lexer_ok l -> rest l = c :: s -> step_back (snd (lexer_advance l)) = l.
Proof.
  intros Hl E. unfold lexer_advance. rewrite (at_end_cons l c s) by done. destruct l. unfold step_back, move. simpl.
  f_equal; lia.
Qed.

Lemma switch_scans l c s :
  lexer_ok l -> rest l = c :: s -> scans l (lexer_switch strtod c (snd (lexer_advance l)) (position l)).
Proof.
  intros Hl E. destruct (advance_cons l c s Hl E) as (_ & A1 & A2 & _ & _ & A3). unfold lexer_switch.
  repeat (match goal with |- context [if c =? ?k then _ else _] => destruct (c =? k) end;
    [first [by apply (one_scans l _ c) | by apply (one_or_two_scans l _ c) | idtac] |]).
  - apply (string_loop_spec l _ (snd (lexer_advance l)) [c]); [done..|]. rewrite A2.
    pose proof (rest_length l Hl) as Hn. rewrite E in Hn. destruct A1 as [_ -> _ _]. simpl in Hn. lia.
  - rewrite (step_back_advance l c s Hl E). destruct (lexer_is_digit c) eqn:Hd; [by apply (number_scans l c s)|].
    destruct (lexer_is_alpha c || (c =? c_underscore)) eqn:Ha; [|exists [c]; by apply error_scanned].
    destruct (identifier_spec l c s Hl E) as (w & l1 & C & He & Hne & _ & _ & ->).
    { unfold is_ident, lexer_is_alpha, lexer_is_alnum, isalnum in *. destruct (isalpha c); [by rewrite orb_true_r|].
      destruct (isdigit c); [done|]. destruct (128 <=? c); [done|]. done. }
    exists w. apply make_token_scanned; [done..|]. apply keyword_not_eof.
Qed.

Lemma next_token_spec l :
  lexer_ok l -> pending_error l = None -> reads_token l (lexer_next_token strtod l).
Proof.
  intros Hl Hp. unfold lexer_next_token, lexer_skip_whitespace. pose proof (rest_length l Hl) as Hlen.
  destruct (skip_loop_spec (S (length l)) l Hl Hp) as (gap & C & Hs); [lia|].
  set (l1 := skip_loop (S (length l)) l) in *. pose proof (consumes_ok l gap l1 Hl C) as Hl1.
  destruct Hs as [(Hpe & Hgap & Hst)|(Hpe & Hr & Hne)]; rewrite Hpe.
  2: { apply (read_unclosed l gap); [|done|done|done|done|done]. destruct C as [A1 A2 A3 A4]. by constructor. }
  destruct (rest l1) as [|c s] eqn:E.
  { rewrite (proj2 (at_end_rest l1 Hl1) E). unfold one.
    assert (slice l1 (position l1) = []) as Esl by (unfold slice; by rewrite Nat.sub_diag).
    assert ((MAX_TOKEN_LENGTH <? Z.of_nat (position l1) - Z.of_nat (position l1)) = false) as Em by (unfold MAX_TOKEN_LENGTH; lia).
    by apply (read_eof l gap); [done..| |]; unfold lexer_make_token; rewrite Em. }
  rewrite (at_end_cons l1 c s) by done. pose proof (switch_scans l1 c s Hl1 E) as (txt & Hsc).
  destruct (advance_cons l1 c s Hl1 E) as (Ec & _). destruct (lexer_advance l1) as [c' l2]. simpl in Ec. subst c'.
  cbn [snd] in Hsc. pose proof (rest_chars l1 Hl1) as Hch. rewrite E in Hch. apply Forall_cons in Hch as [Hc0 _].
  destruct (Z.eqb_spec c 0); [lia|]. destruct (lexer_switch strtod c l2 (position l1)) as [t l'].
  cbn [fst snd] in Hsc. apply (read_token l gap txt l1); [done|done|by rewrite E|done|].
  by rewrite (sc_error _ _ _ _ Hsc).
Qed.
End Tokens.
