(* ===== verification/LexerProps.v ===== *)
(** * Properties of the lexer of [src/src/lexer.c]

    The whole token sequence of a source, words against the keyword table,
    integer literals against the numerals of the big-integer parser, strings
    against their escapes, and the columns of tokens. *)

From S2P Require Import Prelude.
From Stdlib Require Import String Ascii.
From stdpp Require Import list.
From S2P Require Import BigIntObj BigIntText Lexer LexerSpec.

Open Scope Z_scope.
Open Scope list_scope.

Lemma init_ok src :
  Z.of_nat (List.length src) <= INT_MAX -> Forall (fun c => 0 < c < 256) src ->
  lexer_ok (lexer_init src) /\ rest (lexer_init src) = src.
Proof.
  intros Hl Hc. unfold lexer_init. destruct (Z.ltb_spec INT_MAX (Z.of_nat (List.length src))); [lia|].
  split; [constructor; simpl; [lia|lia|done]|]. unfold rest. simpl. by rewrite drop_0, Nat.sub_0_r, firstn_all.
Qed.

(** ** Token sequences *)

Definition is_eof (t : Token) : bool := match type t with TOKEN_EOF => true | _ => false end.

(** The tokens the parser gets, up to the first end of file. *)
Fixpoint all_tokens (strtod : list Z -> option Z) (fuel : nat) (l : Lexer) : option (list Token) :=
  match fuel with
  | O => None
  | S f =>
      let '(t, l) := lexer_next_token strtod l in
      if is_eof t then Some [t]
      else match all_tokens strtod f l with Some ts => Some (t :: ts) | None => None end
  end.

(** A source cut into whitespace, comments and the texts of tokens. *)
Inductive lexed : list Z -> list Token -> Prop :=
| lexed_eof gap t : trivia gap -> type t = TOKEN_EOF -> lexeme t = [] -> lexed gap [t]
| lexed_token gap txt s t ts :
    trivia gap -> token_start (txt ++ s) -> txt <> [] -> type t <> TOKEN_EOF -> covers t txt ->
    lexed s ts -> lexed (gap ++ txt ++ s) (t :: ts)
| lexed_unclosed txt t ts :
    txt <> [] -> type t = TOKEN_ERROR -> lexeme t = bytes "Unterminated multi-line comment" ->
    lexed [] ts -> lexed txt (t :: ts).

Lemma all_tokens_spec strtod fuel : forall l,
  lexer_ok l -> pending_error l = None -> (List.length (rest l) < fuel)%nat ->
  exists ts, all_tokens strtod fuel l = Some ts /\ lexed (rest l) ts /\ (List.length ts <= S (List.length (rest l)))%nat.
Proof.
  induction fuel as [|f IH]; intros l Hl Hp Hf; [lia|]. cbn [all_tokens].
  pose proof (next_token_spec strtod l Hl Hp) as H. destruct (lexer_next_token strtod l) as [t l'].
  inversion H as [gap t' l1 Hg Hc Hr Hpe Hty Hlx|gap txt l1 t' l2 Hg Hc Hst Hsc Hpe|txt t' l1 Hc Hne Hr Hpe Hty Hlx]; subst.
  - exists [t]. unfold is_eof. rewrite Hty. split; [done|]. destruct Hc as [_ _ -> _]. rewrite Hr, app_nil_r.
    split; [by constructor|simpl; lia].
  - destruct Hsc as [Hne Hm He Hty Hcov]. pose proof (consumes_ok l gap l1 Hl Hc) as Hl1.
    pose proof (consumes_ok l1 txt l' Hl1 Hm) as Hl'. destruct Hc as [_ _ Hr1 _]. destruct Hm as [_ _ Hr2 _].
    rewrite Hr1, Hr2 in Hf |- *. rewrite !length_app in Hf |- *. assert (List.length txt <> 0)%nat by (by destruct txt).
    destruct (IH l' Hl' Hpe) as (ts & -> & Hlx & Hlen); [lia|]. exists (t :: ts).
    split; [unfold is_eof; by destruct (type t)|]. split; [|simpl; lia]. constructor; try done. by rewrite <- Hr2.
  - pose proof (consumes_ok l txt l' Hl Hc) as Hl'. destruct Hc as [_ _ Hr1 _]. rewrite Hr, app_nil_r in Hr1.
    assert (List.length txt <> 0)%nat by (by destruct txt).
    destruct (IH l' Hl' Hpe) as (ts & -> & Hlx' & Hlen); [rewrite Hr; rewrite Hr1 in Hf; simpl; lia|].
    rewrite Hr in Hlx', Hlen. exists (t :: ts). split; [unfold is_eof; by rewrite Hty|]. rewrite Hr1.
    split; [by constructor|]. simpl in *. lia.
Qed.

(** ** Words *)

Definition word_start (c : Z) : bool := lexer_is_alpha c || (c =? c_underscore).

(** Whether the text continues with a character of the class. *)
Definition stops (p : Z -> bool) (s : list Z) : Prop := match s with [] => True | c :: _ => p c = false end.

(** The longest run of a class is unique. *)
Lemma run_unique (p : Z -> bool) a1 s1 a2 s2 :
  Forall (fun c => p c = true) a1 -> stops p s1 -> Forall (fun c => p c = true) a2 -> stops p s2 ->
  a1 ++ s1 = a2 ++ s2 -> a1 = a2.
Proof.
  intros H1 Hs1 H2 Hs2. revert a2 H2. induction H1 as [|c a1 Hc H1 IH]; intros a2 H2 E.
  - destruct H2 as [|c2 a2 Hc2 H2]; [done|]. simpl in E. subst s1. simpl in Hs1. congruence.
  - destruct H2 as [|c2 a2 Hc2 H2]; simpl in E; [subst s2; simpl in Hs2; congruence|].
    injection E as -> E. f_equal. by apply IH.
Qed.

Lemma keyword_type_spec w :
  ((w, keyword_type w) ∈ keywords \/ (keyword_type w = TOKEN_IDENTIFIER /\ w ∉ (fst <$> keywords))).
Proof.
  unfold keyword_type. destruct (List.find _ keywords) as [k|] eqn:E.
  - left. apply find_some in E as [E1 E2]. apply bool_decide_eq_true in E2. subst w. destruct k. by apply list_elem_of_In.
  - right. split; [done|]. intros (k & -> & Hk)%list_elem_of_fmap. apply list_elem_of_In in Hk.
    apply (find_none _ _ E) in Hk. by apply bool_decide_eq_false in Hk.
Qed.

(** A token starts here: nothing is skipped. *)
Lemma trivia_not_start gap s : trivia gap -> gap <> [] -> ~ token_start (gap ++ s).
Proof.
  intros [] Hne Hs; [done|..]; simpl in Hs.
  - by destruct Hs as [Hs _].
  - destruct Hs as [_ Hs]. by destruct (Hs eq_refl) as [Hs' _].
  - destruct Hs as [_ Hs]. by destruct (Hs eq_refl) as [_ Hs'].
Qed.

Section Texts.
Context (strtod : list Z -> option Z).

(** At the start of a token the scan begins at once. *)
Lemma next_token_switch l c s :
  lexer_ok l -> pending_error l = None -> rest l = c :: s -> token_start (c :: s) ->
  lexer_next_token strtod l = lexer_switch strtod c (snd (lexer_advance l)) (position l).
Proof.
  intros Hl Hp E Hst. unfold lexer_next_token. assert (lexer_skip_whitespace l = l) as ->.
  { unfold lexer_skip_whitespace. cbn [skip_loop]. rewrite (peek_cons l c s Hl E). cbn zeta.
    destruct Hst as [Hb Hc]. unfold blank in Hb.
    destruct ((c =? 32) || (c =? 9) || (c =? 13)) eqn:H1; [lia|]. destruct (Z.eqb_spec c c_newline); [lia|].
    destruct (Z.eqb_spec c c_slash) as [->|]; [|done]. cbn [andb]. destruct (Hc eq_refl) as [H2 H3].
    destruct (next_is l c_slash) eqn:Hn.
    { apply (next_is_spec l c_slash c_slash s Hl E) in Hn as [s' ->]. done. }
    destruct (next_is l c_star) eqn:Hn'; [|done].
    apply (next_is_spec l c_slash c_star s Hl E) in Hn' as [s' ->]. done. }
  rewrite Hp, (at_end_cons l c s) by done. destruct (advance_cons l c s Hl E) as (Ec & _).
  destruct (lexer_advance l) as [c' l2]. simpl in Ec. subst c'. cbn [snd].
  pose proof (rest_chars l Hl) as Hch. rewrite E in Hch. apply Forall_cons in Hch as [Hc0 _].
  destruct (Z.eqb_spec c 0); [lia|done].
Qed.

Lemma word_switch l c s :
  lexer_ok l -> rest l = c :: s -> word_start c = true ->
  lexer_switch strtod c (snd (lexer_advance l)) (position l) = lexer_identifier strtod l (position l) /\ token_start (c :: s).
Proof.
  intros Hl E Hc. unfold lexer_switch. rewrite (step_back_advance l c s Hl E).
  assert (isdigit c = false /\ (65 <= c <= 90 \/ 97 <= c <= 122 \/ c = 95 \/ 128 <= c)) as [Hd Hr].
  { unfold word_start, lexer_is_alpha, isalpha, isdigit, between, c_underscore in *.
    destruct ((65 <=? c) && (c <=? 90) || (97 <=? c) && (c <=? 122)) eqn:H1; [lia|].
    destruct ((128 <=? c) && negb (lexer_is_utf8_continuation c)) eqn:H2; [lia|]. simpl in Hc. lia. }
  repeat match goal with |- context [if c =? ?k then _ else _] => destruct (Z.eqb_spec c k); [lia|] end.
  unfold lexer_is_digit. rewrite Hd. unfold word_start in Hc. rewrite Hc. split; [done|].
  simpl. unfold blank, c_newline, c_slash. split; lia.
Qed.

Lemma word_token l w s :
  lexer_ok l -> pending_error l = None -> rest l = w ++ s -> Z.of_nat (List.length w) <= MAX_TOKEN_LENGTH ->
  match w with c :: _ => word_start c = true | [] => False end -> Forall (fun c => is_ident c = true) w -> stops is_ident s ->
  exists t l', lexer_next_token strtod l = (t, l') /\ consumes l w l' /\ type t = keyword_type w /\ lexeme t = w.
Proof.
  intros Hl Hp E Hlen Hw Hi Hs. destruct w as [|c w]; [done|].
  destruct (word_switch l c (w ++ s) Hl E Hw) as [Hsw Hst].
  rewrite (next_token_switch l c (w ++ s) Hl Hp E Hst), Hsw. apply Forall_cons_iff in Hi as Hic.
  destruct (identifier_spec strtod l c (w ++ s) Hl E) as (w' & l' & C & He & Hne & Hi' & Hr & ->); [by destruct Hic|].
  assert (w' = c :: w) as ->.
  { symmetry. destruct C as [_ _ Hr2 _]. rewrite E in Hr2. by apply (run_unique is_ident _ s _ (rest l')). }
  exists (lexer_make_token strtod (keyword_type (c :: w)) l' (position l)), l'. split; [done|]. split; [done|].
  assert (slice l' (position l) = c :: w) as Esl by (by apply slice_consumes).
  unfold lexer_make_token. rewrite Esl. assert (Z.of_nat (position l') - Z.of_nat (position l) = Z.of_nat (List.length (c :: w))) as ->
    by (destruct C as [_ _ _ ->]; lia).
  destruct (Z.ltb_spec MAX_TOKEN_LENGTH (Z.of_nat (List.length (c :: w)))); [lia|].
  assert (keyword_type (c :: w) <> TOKEN_NUMBER_INT /\ keyword_type (c :: w) <> TOKEN_NUMBER_DOUBLE /\
          keyword_type (c :: w) <> TOKEN_STRING) as (H1 & H2 & H3).
  { destruct (keyword_type_spec (c :: w)) as [Hk|[-> _]]; [|done].
    assert (Forall (fun k => snd k <> TOKEN_NUMBER_INT /\ snd k <> TOKEN_NUMBER_DOUBLE /\ snd k <> TOKEN_STRING) keywords) as Hf
      by (repeat constructor; done).
    rewrite Forall_forall in Hf. apply (Hf _ Hk). }
  by destruct (keyword_type (c :: w)).
Qed.

(** ** Integer literals *)

Lemma hex_value_eq c : lexer_hex_value c = bigint_hex_digit_value c.
Proof. unfold lexer_hex_value, bigint_hex_digit_value, between. repeat case_match; lia. Qed.

Lemma strtol_digits_spec base s : forall acc,
  Forall (fun c => 0 <= bigint_hex_digit_value c < base) s ->
  strtol_digits base acc s = (fold_left (fun acc c => acc * base + bigint_hex_digit_value c) s acc, []).
Proof.
  induction s as [|c s IH]; intros acc Hs; [done|]. apply Forall_cons in Hs as [Hc Hs]. cbn [strtol_digits fold_left].
  rewrite !hex_value_eq. assert ((0 <=? bigint_hex_digit_value c) && (bigint_hex_digit_value c <? base) = true) as -> by lia.
  by apply IH.
Qed.

Lemma dec_hex_value c : is_dec c -> bigint_hex_digit_value c = dec_value c /\ 0 <= dec_value c < 10.
Proof.
  intros Hc. pose proof (dec_digit_range c Hc). split; [|done]. unfold is_dec, BigIntText.isdigit in Hc.
  unfold bigint_hex_digit_value, dec_value, c_0. by rewrite Hc.
Qed.

Lemma is_hex_xdigit c : is_hex c <-> isxdigit c = true.
Proof.
  unfold is_hex, bigint_hex_digit_value, isxdigit, between.
  destruct ((48 <=? c) && (c <=? 57)) eqn:H1, ((97 <=? c) && (c <=? 102)) eqn:H2, ((65 <=? c) && (c <=? 70)) eqn:H3; simpl; split; try done; lia.
Qed.

Definition in_range (v : Z) : option Z := if INT64_MAX <? v then None else Some v.

Lemma strtoll_dec s : s <> [] -> Forall is_dec s -> strtoll s 10 = in_range (digits_val 10 dec_value s).
Proof.
  intros _ Hs. unfold strtoll. change (10 =? 16) with false. cbv iota. rewrite strtol_digits_spec.
  - assert (fold_left (fun acc c => acc * 10 + bigint_hex_digit_value c) s 0 = digits_val 10 dec_value s) as ->; [|done].
    unfold digits_val. generalize 0. induction Hs as [|c s Hc Hs IH]; intros acc; [done|]. cbn [fold_left].
    rewrite IH. by rewrite (proj1 (dec_hex_value c Hc)).
  - eapply Forall_impl; [exact Hs|]. intros c Hc. cbv beta in Hc. by rewrite (proj1 (dec_hex_value c Hc)); apply dec_hex_value.
Qed.

Lemma strtoll_hex x s :
  (x = 120 \/ x = 88) -> s <> [] -> Forall is_hex s ->
  strtoll (48 :: x :: s) 16 = in_range (digits_val 16 bigint_hex_digit_value s).
Proof.
  intros Hx Hne Hs. unfold strtoll. destruct s as [|c s]; [done|]. cbn [Z.eqb Pos.eqb strip_0x].
  apply Forall_cons in Hs as Hc. destruct Hc as [Hc _]. apply is_hex_xdigit in Hc.
  rewrite Hc. assert ((x =? 120) || (x =? 88) = true) as -> by lia. cbn [andb]. rewrite strtol_digits_spec; [done|].
  eapply Forall_impl; [exact Hs|]. intros y Hy. by apply hex_digit_range.
Qed.

(** The literal ends here: no digit follows, nor a fraction, nor the [x] of a
    hexadecimal literal. *)
Definition hex_prefix (txt : list Z) : bool :=
  match txt with c :: x :: _ => (c =? 48) && ((x =? 120) || (x =? 88)) | _ => false end.

Definition literal_ends (txt s : list Z) : Prop :=
  stops (if hex_prefix txt then isxdigit else isdigit) s /\
  (hex_prefix txt = false -> forall d s', s = c_dot :: d :: s' -> isdigit d = false) /\
  (txt = [48] -> head s <> Some 120 /\ head s <> Some 88).

Lemma number_switch l c s :
  lexer_ok l -> rest l = c :: s -> isdigit c = true ->
  lexer_switch strtod c (snd (lexer_advance l)) (position l) = lexer_number strtod l (position l) /\ token_start (c :: s).
Proof.
  intros Hl E Hc. unfold lexer_switch. rewrite (step_back_advance l c s Hl E).
  assert (48 <= c <= 57) as Hr by (unfold isdigit, between in Hc; lia).
  repeat match goal with |- context [if c =? ?k then _ else _] => destruct (Z.eqb_spec c k); [lia|] end.
  unfold lexer_is_digit. rewrite Hc. split; [done|]. simpl. unfold blank, c_newline, c_slash. split; lia.
Qed.

(** The character behind the next one, when the lexer sees the whole source. *)
Lemma char_after l c s :
  lexer_ok l -> length l = List.length (source l) -> rest l = c :: s ->
  char_at l (position l + 1) = match s with [] => 0 | d :: _ => d end.
Proof.
  intros Hl Hfull E. pose proof (rest_length l Hl) as Hn. rewrite E in Hn. simpl in Hn. destruct s as [|d s].
  - unfold char_at. apply nth_overflow. simpl in Hn. lia.
  - simpl in Hn. pose proof (lookup_rest l 1 Hl ltac:(lia)) as H. rewrite E in H. by injection H.
Qed.

(** The scan of a literal that is a numeral. *)
Lemma literal_dec l ds s :
  lexer_ok l -> length l = List.length (source l) -> pending_error l = None -> rest l = ds ++ s ->
  ds <> [] -> Forall is_dec ds -> literal_ends ds s ->
  exists l1, consumes l ds l1 /\ same_error l l1 /\ lexer_next_token strtod l = integer_token l1 (position l) false.
Proof.
  intros Hl Hfull Hp E Hne Hds (He1 & He2 & He3). destruct ds as [|d ds]; [done|].
  apply Forall_cons in Hds as Hd. destruct Hd as [Hd Hds'].
  assert (hex_prefix (d :: ds) = false) as Hx.
  { destruct ds as [|x ds]; [done|]. apply Forall_cons in Hds' as [Hx _]. unfold is_dec, BigIntText.isdigit in Hx. simpl. lia. }
  rewrite Hx in He1. specialize (He2 Hx).
  destruct (number_switch l d (ds ++ s) Hl E Hd) as [Hsw Hst].
  rewrite (next_token_switch l d (ds ++ s) Hl Hp E Hst), Hsw.
  destruct (number_dec strtod l d (ds ++ s) Hl E Hd) as (ds' & l1 & C & He & Hne' & Hds1 & Hr & ->).
  { intros [-> Hh]. destruct ds as [|x ds]; [destruct (He3 eq_refl), Hh; done|].
    apply Forall_cons in Hds' as [Hxd _]. destruct Hh as [[= ->]|[= ->]]; done. }
  assert (ds' = d :: ds) as ->.
  { symmetry. destruct C as [_ _ Hr2 _]. rewrite E in Hr2. by apply (run_unique isdigit _ s _ (rest l1)). }
  exists l1. split; [done|]. split; [done|].
  assert ((lexer_peek l1 =? c_dot) && isdigit (char_at l1 (position l1 + 1)) = false) as ->; [|done].
  pose proof (consumes_ok l _ l1 Hl C) as Hl1.
  assert (rest l1 = s) as Er by (destruct C as [_ _ Hr2 _]; rewrite E in Hr2; by apply app_inv_head in Hr2).
  destruct s as [|c s]; [by rewrite (peek_nil l1 Hl1 Er)|]. rewrite (peek_cons l1 c s Hl1 Er).
  destruct (Z.eqb_spec c c_dot) as [->|]; [|done]. cbn [andb].
  rewrite (char_after l1 c_dot s Hl1); [|destruct C as [-> -> _ _]; done|done].
  destruct s as [|d' s]; [done|]. by apply (He2 d' s).
Qed.

Lemma literal_hex l x hs s :
  lexer_ok l -> pending_error l = None -> rest l = (48 :: x :: hs) ++ s -> (x = 120 \/ x = 88) ->
  hs <> [] -> Forall is_hex hs -> stops isxdigit s ->
  exists l1, consumes l (48 :: x :: hs) l1 /\ same_error l l1 /\ lexer_next_token strtod l = integer_token l1 (position l) true.
Proof.
  intros Hl Hp E Hx Hne Hhs Hs.
  destruct (number_switch l 48 (x :: hs ++ s) Hl E) as [Hsw Hst]; [done|].
  rewrite (next_token_switch l 48 (x :: hs ++ s) Hl Hp E Hst), Hsw.
  pose proof (number_hex strtod l x (hs ++ s) Hl E Hx) as H. destruct hs as [|h hs]; [done|]. cbn [app] in H.
  apply Forall_cons in Hhs as Hh. destruct Hh as [Hh _]. apply is_hex_xdigit in Hh. rewrite Hh in H.
  destruct H as (hs' & l1 & C & He & Hne' & Hhs' & Hr & ->). assert (hs' = h :: hs) as ->.
  { symmetry. destruct C as [_ _ Hr2 _]. rewrite E in Hr2. injection Hr2 as Hr2.
    apply (run_unique isxdigit _ s _ (rest l1)); [|done|done|done|done].
    eapply Forall_impl; [exact Hhs|]. intros c. apply is_hex_xdigit. }
  by exists l1.
Qed.

Lemma literal_scan l txt s v :
  lexer_ok l -> length l = List.length (source l) -> pending_error l = None -> rest l = txt ++ s ->
  numeral txt v -> literal_ends txt s ->
  exists l1 hex, consumes l txt l1 /\ same_error l l1 /\
    strtoll txt (if hex : bool then 16 else 10) = in_range v /\
    lexer_next_token strtod l = integer_token l1 (position l) hex.
Proof.
  intros Hl Hfull Hp E Hn He. destruct Hn as [ds Hne Hds|x hs Hx Hne Hhs].
  - destruct (literal_dec l ds s Hl Hfull Hp E Hne Hds He) as (l1 & C & He' & ->). exists l1, false.
    split; [done|]. split; [done|]. split; [by apply strtoll_dec|done].
  - assert (hex_prefix (c_0 :: x :: hs) = true) as Hpre by (unfold hex_prefix, c_0, c_x, c_X in *; lia).
    destruct He as (He & _ & _). rewrite Hpre in He.
    destruct (literal_hex l x hs s Hl Hp E Hx Hne Hhs He) as (l1 & C & He' & ->). exists l1, true.
    split; [done|]. split; [done|]. split; [by apply strtoll_hex|done].
Qed.

(** ** Strings *)

Definition hex_digit (v : Z) : Z := if v <? 10 then 48 + v else 87 + v.

(** A way to write a byte in a string literal. *)
Definition escape_char (c : Z) : list Z :=
  if c =? 10 then [c_backslash; 110]
  else if c =? 13 then [c_backslash; 114]
  else if c =? 9 then [c_backslash; 116]
  else if c =? 8 then [c_backslash; 98]
  else if c =? 12 then [c_backslash; 102]
  else if c =? c_backslash then [c_backslash; c_backslash]
  else if c =? c_quote then [c_backslash; c_quote]
  else if c <? 32 then [c_backslash; 117; 48; 48; hex_digit (c / 16); hex_digit (c mod 16)]
  else [c].

Definition escape (s : list Z) : list Z := mjoin (map escape_char s).

Lemma hex_digit_value v : 0 <= v < 16 -> lexer_hex_value (hex_digit v) = v.
Proof. intros Hv. unfold lexer_hex_value, hex_digit, between. destruct (Z.ltb_spec v 10); repeat case_match; lia. Qed.

Lemma decode_byte f cap c raw out :
  0 < c < 256 -> (List.length out < cap)%nat ->
  decode_escapes (S f) cap (escape_char c ++ raw) out = decode_escapes f cap raw (out ++ [c]).
Proof.
  intros Hc Hcap. unfold escape_char.
  repeat match goal with |- context [if c =? ?k then _ else _] =>
    destruct (Z.eqb_spec c k) as [->|]; [done|] end.
  destruct (Z.ltb_spec c 32) as [Hlt|Hge].
  - cbn [app decode_escapes]. cbn [Z.eqb Pos.eqb c_backslash].
    change (lexer_hex_value 48) with 0. rewrite !hex_digit_value by (try apply Z.mod_pos_bound; lia || (split; [apply Z.div_pos; lia|apply Z.div_lt_upper_bound; lia])).
    pose proof (Z.div_mod c 16 ltac:(lia)) as Hdm. pose proof (Z.mod_pos_bound c 16 ltac:(lia)) as Hm.
    assert (0 <= c / 16) as Hd by (apply Z.div_pos; lia).
    destruct (Z.ltb_spec (c / 16) 0); [lia|]. destruct (Z.ltb_spec (c mod 16) 0); [lia|]. cbn [Z.ltb Z.compare orb].
    assert (Z.lor (Z.lor (Z.lor (Z.shiftl 0 12) (Z.shiftl 0 8)) (Z.shiftl (c / 16) 4)) (c mod 16) = c) as ->.
    { change (Z.lor (Z.shiftl 0 12) (Z.shiftl 0 8)) with 0. rewrite Z.lor_0_l, lor_shiftl_add by lia.
      change (2 ^ 4) with 16. lia. }
    assert ((55296 <=? c) && (c <=? 57343) = false) as -> by lia.
    unfold lexer_append_utf8. destruct (Z.leb_spec c 127); [|lia].
    destruct (Nat.ltb_spec cap (List.length out + List.length [u8 c])) as [Hx|Hx]; [simpl in Hx; lia|].
    rewrite u8_small by (unfold is_u8; change (2 ^ 8) with 256; lia). done.
  - cbn [app decode_escapes].
    destruct (Z.eqb_spec c c_backslash); [done|done].
Qed.

Lemma escape_cons c s : escape (c :: s) = escape_char c ++ escape s.
Proof. done. Qed.

Lemma escape_char_length c : (1 <= List.length (escape_char c))%nat.
Proof. unfold escape_char. repeat case_match; simpl; lia. Qed.

Lemma decode_escape s : forall f cap out,
  Forall (fun c => 0 < c < 256) s -> (List.length (escape s) <= f)%nat ->
  (List.length out + List.length (escape s) <= cap)%nat ->
  decode_escapes f cap (escape s) out = inr (out ++ s).
Proof.
  induction s as [|c s IH]; intros f cap out Hs Hf Hcap; [destruct f; simpl; by rewrite app_nil_r|].
  apply Forall_cons in Hs as [Hc Hs]. rewrite escape_cons in *. rewrite !length_app in *.
  pose proof (escape_char_length c). destruct f as [|f]; [lia|].
  rewrite decode_byte by (done || lia).
  rewrite IH; [by rewrite <- app_assoc|done|lia|]. rewrite length_app. simpl. lia.
Qed.

(** What may stand between the quotes. *)
Inductive string_body : list Z -> Prop :=
| body_nil : string_body []
| body_plain c s : c <> c_quote -> c <> c_backslash -> string_body s -> string_body (c :: s)
| body_escaped c s : string_body s -> string_body (c_backslash :: c :: s).

Lemma body_app s1 s2 : string_body s1 -> string_body s2 -> string_body (s1 ++ s2).
Proof. induction 1; intros; simpl; [done|by constructor; auto..]. Qed.

Lemma hex_digit_plain v s : 0 <= v < 16 -> string_body s -> string_body (hex_digit v :: s).
Proof. intros Hv Hs. apply body_plain; [..|done]; unfold hex_digit, c_quote, c_backslash; case_match; lia. Qed.

Lemma escape_body s : Forall (fun c => 0 < c < 256) s -> string_body (escape s).
Proof.
  induction 1 as [|c s Hc Hs IH]; [constructor|]. rewrite escape_cons. apply body_app; [|done]. unfold escape_char.
  repeat match goal with |- context [if c =? ?k then _ else _] =>
    destruct (Z.eqb_spec c k); [apply body_escaped; constructor|] end.
  destruct (c <? 32); [apply body_escaped|apply body_plain; [done|done|constructor]].
  do 2 (apply body_plain; [done|done|]). apply hex_digit_plain, hex_digit_plain; [..|constructor].
  - split; [apply Z.div_pos; lia|apply Z.div_lt_upper_bound; lia].
  - apply Z.mod_pos_bound. lia.
Qed.

Lemma string_loop_body body : string_body body -> forall f l0 pre l tail,
  lexer_ok l0 -> consumes l0 pre l -> same_error l0 l -> rest l = body ++ c_quote :: tail -> (List.length (rest l) < f)%nat ->
  exists l', consumes l0 (pre ++ body ++ [c_quote]) l' /\ same_error l0 l' /\
    string_loop strtod f l (position l0) = (lexer_make_token strtod TOKEN_STRING l' (position l0), l').
Proof.
  induction 1 as [|c s Hq Hb Hs IH|c s Hs IH]; intros f l0 pre l tail Hl0 C He E Hf;
    (destruct f as [|f]; [lia|]); pose proof (consumes_ok l0 pre l Hl0 C) as Hl; cbn [string_loop]; simpl in E;
    rewrite (at_end_cons l _ _ Hl E), (peek_cons l _ _ Hl E); cbn zeta.
  - cbn [Z.eqb Pos.eqb c_quote]. destruct (advance_line l c_quote tail l Hl E) as (A1 & A2 & A3); [by left|].
    exists (snd (lexer_advance l)). split; [by apply (consumes_trans l0 l)|]. split; [by apply (same_error_trans l0 l)|done].
  - destruct (Z.eqb_spec c c_quote); [done|]. destruct (Z.eqb_spec c c_backslash); [done|].
    destruct (advance_line l c (s ++ c_quote :: tail) (if c =? c_newline then newline l else l) Hl E) as (A1 & A2 & A3);
      [case_match; auto|].
    destruct (IH f l0 (pre ++ [c]) _ tail Hl0 (consumes_trans _ _ _ _ _ C A1) (same_error_trans _ _ _ He A2) A3) as (l' & D1 & D2 & D3).
    { rewrite A3. rewrite E in Hf. simpl in Hf. lia. }
    exists l'. rewrite D3. split; [|done]. by rewrite <- app_assoc in D1.
  - cbn [Z.eqb Pos.eqb c_quote c_backslash].
    destruct (advance_line l c_backslash (c :: s ++ c_quote :: tail) l Hl E) as (A1 & A2 & A3); [by left|].
    set (l1 := snd (lexer_advance l)) in *. pose proof (consumes_ok l _ l1 Hl A1) as Hl1.
    rewrite (at_end_cons l1 _ _ Hl1 A3).
    destruct (advance_line l1 c (s ++ c_quote :: tail) (if lexer_peek l1 =? c_newline then newline l1 else l1) Hl1 A3) as (B1 & B2 & B3);
      [case_match; auto|].
    destruct (IH f l0 ((pre ++ [c_backslash]) ++ [c]) _ tail Hl0
      (consumes_trans _ _ _ _ _ (consumes_trans _ _ _ _ _ C A1) B1)
      (same_error_trans _ _ _ (same_error_trans _ _ _ He A2) B2) B3) as (l' & D1 & D2 & D3).
    { rewrite B3. rewrite E in Hf. simpl in Hf. lia. }
    exists l'. rewrite D3. split; [|done]. by rewrite <- !app_assoc in D1.
Qed.

Lemma string_token l s tail :
  lexer_ok l -> pending_error l = None -> rest l = [c_quote] ++ escape s ++ [c_quote] ++ tail ->
  Forall (fun c => 0 < c < 256) s -> Z.of_nat (List.length (escape s)) + 2 <= MAX_TOKEN_LENGTH ->
  exists t l', lexer_next_token strtod l = (t, l') /\ consumes l ([c_quote] ++ escape s ++ [c_quote]) l' /\
    type t = TOKEN_STRING /\ value t = as_string s.
Proof.
  intros Hl Hp E Hs Hlen. rewrite (next_token_switch l c_quote (escape s ++ [c_quote] ++ tail) Hl Hp E).
  2: { simpl. unfold blank, c_newline, c_quote, c_slash. split; lia. }
  change (lexer_switch strtod c_quote (snd (lexer_advance l)) (position l))
    with (string_loop strtod (S (length (snd (lexer_advance l)))) (snd (lexer_advance l)) (position l)).
  destruct (advance_line l c_quote (escape s ++ [c_quote] ++ tail) l Hl E) as (A1 & A2 & A3); [by left|].
  destruct (string_loop_body (escape s) (escape_body s Hs) (S (length (snd (lexer_advance l)))) l [c_quote] _ tail Hl A1 A2 A3)
    as (l' & C & He & ->).
  { pose proof (rest_length _ (consumes_ok _ _ _ Hl A1)). lia. }
  exists (lexer_make_token strtod TOKEN_STRING l' (position l)), l'. split; [done|]. split; [done|].
  assert (position l' = position l + (List.length (escape s) + 2))%nat as Hpos.
  { destruct C as [_ _ _ ->]. rewrite !length_app. simpl. lia. }
  assert (take (List.length (escape s)) (drop (S (position l)) (source l')) = escape s) as Hraw.
  { pose proof (slice_consumes l _ l' Hl C) as Hsl. unfold slice in Hsl. rewrite Hpos in Hsl.
    replace (position l + (List.length (escape s) + 2) - position l)%nat with (S (S (List.length (escape s)))) in Hsl by lia.
    replace (S (position l)) with (position l + 1)%nat by lia. rewrite <- drop_drop.
    destruct (drop (position l) (source l')) as [|q d]; [done|]. cbn [take app] in Hsl. injection Hsl as _ Hsl. cbn [drop].
    apply (f_equal (take (List.length (escape s)))) in Hsl. change (c_quote :: []) with [c_quote] in Hsl.
    rewrite take_app_length in Hsl. rewrite <- Hsl at 2. change (take (S (List.length (escape s))) d)
      with (firstn (S (List.length (escape s))) d). rewrite take_take. f_equal. lia. }
  unfold lexer_make_token. rewrite Hpos.
  destruct (Z.ltb_spec MAX_TOKEN_LENGTH (Z.of_nat (position l + (List.length (escape s) + 2)) - Z.of_nat (position l))); [lia|].
  destruct (Z.ltb_spec (Z.of_nat (position l + (List.length (escape s) + 2)) - Z.of_nat (position l)) 2); [lia|].
  replace (position l + (List.length (escape s) + 2) - position l - 2)%nat with (List.length (escape s)) by lia.
  rewrite Hraw, decode_escape; [|done|lia|simpl; lia]. cbn [app type value]. split; [done|]. f_equal. apply c_string_id.
  eapply Forall_impl; [exact Hs|]. intros c Hc. cbv beta in Hc. lia.
Qed.
End Texts.

(** ** Code points *)

(** Reads one encoded code point: the value of the first byte and of the
    continuation bytes, shortest form only. *)
Definition continuation (b : Z) : option Z := if between 128 191 b then Some (b - 128) else None.

Definition utf8_decode (bs : list Z) : option Z :=
  match bs with
  | [a] => if between 0 127 a then Some a else None
  | [a; b] =>
      match continuation b with
      | Some y => if between 194 223 a then Some ((a - 192) * 64 + y) else None
      | None => None
      end
  | [a; b; c] =>
      match continuation b, continuation c with
      | Some y, Some z =>
          let v := (a - 224) * 4096 + y * 64 + z in
          if between 224 239 a && (2048 <=? v) then Some v else None
      | _, _ => None
      end
  | [a; b; c; d] =>
      match continuation b, continuation c, continuation d with
      | Some x, Some y, Some z =>
          let v := (a - 240) * 262144 + x * 4096 + y * 64 + z in
          if between 240 244 a && (65536 <=? v) then Some v else None
      | _, _, _ => None
      end
  | _ => None
  end.

(** Setting the high bits of a byte whose low bits are a smaller number. *)
Lemma set_high h x k : 0 <= k -> h = h / 2 ^ k * 2 ^ k -> 0 <= x < 2 ^ k -> Z.lor h x = h + x.
Proof. intros Hk Hh Hx. rewrite Hh at 1. rewrite <- Z.shiftl_mul_pow2 by done. rewrite lor_shiftl_add by done. lia. Qed.

Lemma cont_byte x : 0 <= x -> u8 (Z.lor 128 (Z.land x 63)) = 128 + x mod 64 /\ continuation (128 + x mod 64) = Some (x mod 64).
Proof.
  intros Hx. change 63 with (2 ^ 6 - 1). rewrite land_mask by lia. change (2 ^ 6) with 64.
  pose proof (Z.mod_pos_bound x 64 ltac:(lia)). rewrite (set_high 128 _ 7) by (done || (change (2 ^ 7) with 128; lia)).
  rewrite u8_small by (unfold is_u8; change (2 ^ 8) with 256; lia). split; [done|].
  unfold continuation, between. assert ((128 <=? 128 + x mod 64) && (128 + x mod 64 <=? 191) = true) as -> by lia.
  f_equal. lia.
Qed.

Lemma lead_byte h x k :
  0 <= k -> h = h / 2 ^ k * 2 ^ k -> 0 <= h -> h + 2 ^ k <= 256 -> 0 <= x < 2 ^ k -> u8 (Z.lor h x) = h + x.
Proof.
  intros Hk Hh H0 H1 Hx. rewrite (set_high h x k) by done. apply u8_small. unfold is_u8. change (2 ^ 8) with 256. lia.
Qed.

Lemma append_utf8_spec out cap cp :
  0 <= cp <= 1114111 -> (List.length out + 4 <= cap)%nat ->
  exists bs, lexer_append_utf8 out cap cp = Some (out ++ bs) /\ utf8_decode bs = Some cp /\ Forall is_u8 bs /\
    (cp <> 0 -> Forall (fun b => b <> 0) bs).
Proof.
  intros Hcp Hcap. unfold lexer_append_utf8. pose proof (Z.div_mod cp 64 ltac:(lia)) as E6.
  pose proof (Z.mod_pos_bound cp 64 ltac:(lia)) as M6. pose proof (Z.div_mod (cp / 64) 64 ltac:(lia)) as E12.
  pose proof (Z.mod_pos_bound (cp / 64) 64 ltac:(lia)) as M12. pose proof (Z.div_mod (cp / 64 / 64) 64 ltac:(lia)) as E18.
  pose proof (Z.mod_pos_bound (cp / 64 / 64) 64 ltac:(lia)) as M18.
  assert (Z.shiftr cp 6 = cp / 64) as -> by (by rewrite shiftr_div by lia).
  assert (Z.shiftr cp 12 = cp / 64 / 64) as -> by (by rewrite shiftr_div, Z.div_div by lia).
  assert (Z.shiftr cp 18 = cp / 64 / 64 / 64) as -> by (by rewrite shiftr_div, !Z.div_div by lia).
  assert (0 <= cp / 64) as P6 by (apply Z.div_pos; lia). assert (0 <= cp / 64 / 64) as P12 by (apply Z.div_pos; lia).
  destruct (cont_byte cp) as [-> C1]; [lia|]. destruct (cont_byte (cp / 64) P6) as [-> C2].
  destruct (cont_byte (cp / 64 / 64) P12) as [-> C3].
  set (p := cp / 64) in *. set (q := p / 64) in *. set (r := q / 64) in *.
  set (x0 := cp mod 64) in *. set (x1 := p mod 64) in *. set (x2 := q mod 64) in *. clearbody x0 x1 x2 r. clearbody q. clearbody p.
  assert (forall n, (n <= 4)%nat -> (cap <? List.length out + n)%nat = false) as Hfit by (intros n Hn; apply Nat.ltb_ge; lia).
  destruct (Z.leb_spec cp 127); [|destruct (Z.leb_spec cp 2047); [|destruct (Z.leb_spec cp 65535);
    [|destruct (Z.leb_spec cp 1114111); [|lia]]]]; cbn [List.length]; rewrite Hfit by lia; eexists; (split; [reflexivity|]).
  - rewrite u8_small by (unfold is_u8; change (2 ^ 8) with 256; lia). simpl.
    assert (between 0 127 cp = true) as -> by (unfold between; lia). split; [done|].
    split; [repeat constructor; change (2 ^ 8) with 256; lia|]. intros Hz. by repeat constructor.
  - rewrite (lead_byte 192 p 5) by (done || lia || (change (2 ^ 5) with 32; lia)). cbn [utf8_decode]. rewrite C1.
    assert (between 194 223 (192 + p) = true) as -> by (unfold between; lia). split; [f_equal; lia|].
    split; [repeat constructor; change (2 ^ 8) with 256; lia|]. intros _. repeat constructor; lia.
  - rewrite (lead_byte 224 q 4) by (done || lia || (change (2 ^ 4) with 16; lia)). cbn [utf8_decode]. rewrite C1, C2.
    assert (between 224 239 (224 + q) && (2048 <=? (224 + q - 224) * 4096 + x1 * 64 + x0) = true) as -> by (unfold between; lia).
    split; [f_equal; lia|]. split; [repeat constructor; change (2 ^ 8) with 256; lia|]. intros _. repeat constructor; lia.
  - rewrite (lead_byte 240 r 3) by (done || lia || (change (2 ^ 3) with 8; lia)). cbn [utf8_decode]. rewrite C1, C2, C3.
    assert (between 240 244 (240 + r) && (65536 <=? (240 + r - 240) * 262144 + x2 * 4096 + x1 * 64 + x0) = true) as ->
      by (unfold between; lia).
    split; [f_equal; lia|]. split; [repeat constructor; change (2 ^ 8) with 256; lia|]. intros _. repeat constructor; lia.
Qed.

(** ** Properties *)

Lemma lexed_last s ts : lexed s ts ->
  exists ts' t, ts = ts' ++ [t] /\ type t = TOKEN_EOF /\ Forall (fun t => type t <> TOKEN_EOF) ts'.
Proof.
  induction 1 as [gap t Hg Ht|gap txt s t ts Hg Hst Hne Ht Hc Hl IH|txt t ts Hne Ht Hlx Hl IH].
  - by exists [], t.
  - destruct IH as (ts' & t' & -> & He & Hf). exists (t :: ts'), t'. split; [done|]. split; [done|by constructor].
  - destruct IH as (ts' & t' & -> & He & Hf). exists (t :: ts'), t'. split; [done|]. split; [done|].
    constructor; [congruence|done].
Qed.

Definition source_ok (src : list Z) : Prop :=
  Z.of_nat (List.length src) <= INT_MAX /\ Forall (fun c => 0 < c < 256) src.

Lemma source_tokens strtod src :
  source_ok src ->
  exists ts, all_tokens strtod (S (List.length src)) (lexer_init src) = Some ts /\ lexed src ts /\
    (List.length ts <= S (List.length src))%nat.
Proof.
  intros [Hl Hc]. destruct (init_ok src Hl Hc) as [Hok Hr].
  destruct (all_tokens_spec strtod (S (List.length src)) (lexer_init src) Hok) as (ts & H1 & H2 & H3); [done|by rewrite Hr; lia|].
  rewrite Hr in H2, H3. by exists ts.
Qed.


(** C29: The tokens cut the source into pieces: it is the texts of the tokens
    in their order with whitespace and comments between them, a token's lexeme
    is its text (without the [n] of a big-integer literal), and a token never
    starts with what could be skipped. *)
Theorem lexer_partition (strtod : list Z -> option Z) (src : list Z) :
  source_ok src ->
  exists ts, all_tokens strtod (S (List.length src)) (lexer_init src) = Some ts /\ lexed src ts.
Proof. intros Hs. destruct (source_tokens strtod src Hs) as (ts & H1 & H2 & _). by exists ts. Qed.

(** A word is lexed as a whole: the token covers the longest run of
    identifier characters, and its type is the one the keyword table has for
    it, or identifier if the table does not have it. *)
Theorem lexer_word (strtod : list Z -> option Z) (l : Lexer) (w s : list Z) :
  lexer_ok l -> pending_error l = None -> rest l = w ++ s -> Z.of_nat (List.length w) <= MAX_TOKEN_LENGTH ->
  match w with c :: _ => word_start c = true | [] => False end -> Forall (fun c => is_ident c = true) w -> stops is_ident s ->
  exists t l', lexer_next_token strtod l = (t, l') /\ consumes l w l' /\ lexeme t = w /\
    ((w, type t) ∈ keywords \/ (type t = TOKEN_IDENTIFIER /\ w ∉ (fst <$> keywords))).
Proof.
  intros Hl Hp E Hn Hw Hi Hs. destruct (word_token strtod l w s Hl Hp E Hn Hw Hi Hs) as (t & l' & H1 & H2 & H3 & H4).
  exists t, l'. split; [done|]. split; [done|]. split; [done|]. rewrite H3. apply keyword_type_spec.
Qed.

(** Integer literals have the value of their digits: a decimal or
    hexadecimal numeral becomes an integer token with its value when that fits
    64 bits and no [n] follows, and otherwise a big-integer token whose text
    the big-integer parser reads as the value. *)
Theorem lexer_integer_literal (strtod : list Z -> option Z) (l : Lexer) (txt s : list Z) (v : Z) :
  lexer_ok l -> length l = List.length (source l) -> pending_error l = None -> rest l = txt ++ s ->
  numeral txt v -> literal_ends txt s -> Z.of_nat (List.length txt) <= MAX_TOKEN_LENGTH ->
  exists t l' suffix, lexer_next_token strtod l = (t, l') /\ consumes l (txt ++ suffix) l' /\ lexeme t = txt /\
    (suffix = [] /\ v <= INT64_MAX /\ type t = TOKEN_NUMBER_INT /\ value t = as_int v \/
     (suffix <> [] \/ INT64_MAX < v) /\ type t = TOKEN_NUMBER_BIGINT /\ value t = as_string txt /\
       exists b, obj_bigint_try_from_string txt = Some b /\ returns b v) /\
    (suffix = [] <-> head s <> Some 110 /\ head s <> Some 78).
Proof.
  intros Hl Hfull Hp E Hn He Hlen.
  destruct (literal_scan strtod l txt s v Hl Hfull Hp E Hn He) as (l1 & hex & C & Her & Hst & ->).
  assert (txt <> []) as Hne by (by destruct Hn).
  pose proof (integer_token_spec l txt l1 hex Hl C Her Hne) as H. rewrite Hst in H.
  destruct (integer_token l1 (position l) hex) as [t l']. destruct H as (suffix & D1 & D2 & D3 & D4).
  destruct (Z.ltb_spec MAX_TOKEN_LENGTH (Z.of_nat (List.length txt))); [lia|].
  assert (rest l1 = s) as Er by (destruct C as [_ _ Hr2 _]; rewrite E in Hr2; by apply app_inv_head in Hr2).
  rewrite Er in D3. destruct (try_from_string_spec txt v (signed_none txt v Hn)) as (b & Hb & _ & Hret).
  exists t, l', suffix. split; [done|]. split; [done|].
  assert (suffix = [] <-> head s <> Some 110 /\ head s <> Some 78) as Hsuf.
  { destruct s as [|c s]; [by split|]. simpl. destruct ((c =? 110) || (c =? 78)) eqn:Hc; rewrite D3.
    - split; [done|]. intros [H1 H2]. exfalso. assert (c = 110 \/ c = 78) as [->| ->] by lia; done.
    - split; [|done]. intros _. split; intros [= ->]; done. }
  unfold in_range in D4. destruct suffix as [|c suffix].
  - destruct (Z.ltb_spec INT64_MAX v); injection D4 as -> -> ->; (split; [done|]); (split; [|done]).
    + right. split; [by right|]. eauto.
    + by left.
  - injection D4 as -> -> ->. split; [done|]. split; [|done]. right. split; [by left|]. eauto.
Qed.

(** C31: Strings survive quoting: any bytes without NUL, written with escapes
    between quotes, are lexed as one string token with those bytes. *)
Theorem lexer_string_roundtrip (strtod : list Z -> option Z) (l : Lexer) (s tail : list Z) :
  lexer_ok l -> pending_error l = None -> rest l = [c_quote] ++ escape s ++ [c_quote] ++ tail ->
  Forall (fun c => 0 < c < 256) s -> Z.of_nat (List.length (escape s)) + 2 <= MAX_TOKEN_LENGTH ->
  exists t l', lexer_next_token strtod l = (t, l') /\ consumes l ([c_quote] ++ escape s ++ [c_quote]) l' /\
    type t = TOKEN_STRING /\ value t = as_string s.
Proof. apply string_token. Qed.

(** The encoder of Unicode escapes produces valid UTF-8 in its shortest
    form: decoding the bytes gives the code point back, and only code point
    zero produces a NUL. *)
Theorem lexer_utf8_roundtrip (out : list Z) (capacity : nat) (codepoint : Z) :
  0 <= codepoint <= 1114111 -> (List.length out + 4 <= capacity)%nat ->
  exists bs, lexer_append_utf8 out capacity codepoint = Some (out ++ bs) /\ utf8_decode bs = Some codepoint /\
    Forall is_u8 bs /\ (codepoint <> 0 -> Forall (fun b => b <> 0) bs).
Proof. apply append_utf8_spec. Qed.

(** Columns count from 1 on the first line and from 0 on the others: in
    the two lines [a] and [b] the first token is at column 1 and the second at
    column 0. *)
Theorem lexer_column_base (strtod : list Z -> option Z) :
  match all_tokens strtod 4 (lexer_init [97; 10; 98]) with
  | Some [a; b; eof] =>
      (lexeme a, t_line a, t_column a) = ([97], 1, 1) /\ (lexeme b, t_line b, t_column b) = ([98], 2, 0) /\
      type eof = TOKEN_EOF
  | _ => False
  end.
Proof. by vm_compute. Qed.

(** *** Witnesses *)

(** A declaration with a line comment, and on the next line a string with an
    escaped quote. *)
Definition sample_source : list Z := bytes "let x = 0xFF // c" ++ [10] ++ [c_quote; 97; c_backslash; c_quote; 98; c_quote].

Lemma sample_source_ok : source_ok sample_source.
Proof. split; [by vm_compute|]. repeat constructor; done. Qed.

Definition no_doubles (s : list Z) : option Z := None.


Lemma lexer_partition_witness :
  (exists ts, all_tokens no_doubles (S (List.length sample_source)) (lexer_init sample_source) = Some ts /\
    lexed sample_source ts) /\
  option_map (map type) (all_tokens no_doubles 30 (lexer_init sample_source)) =
    Some [TOKEN_KEYWORD_LET; TOKEN_IDENTIFIER; TOKEN_ASSIGN; TOKEN_NUMBER_INT; TOKEN_STRING; TOKEN_EOF].
Proof. split; [|by vm_compute]. exact (lexer_partition no_doubles sample_source sample_source_ok). Defined.

Lemma sample_init : lexer_ok (lexer_init sample_source) /\ rest (lexer_init sample_source) = sample_source.
Proof. apply init_ok; apply sample_source_ok. Qed.

Lemma lexer_word_witness :
  exists t l', lexer_next_token no_doubles (lexer_init sample_source) = (t, l') /\
    consumes (lexer_init sample_source) (bytes "let") l' /\ lexeme t = bytes "let" /\
    ((bytes "let", type t) ∈ keywords \/ (type t = TOKEN_IDENTIFIER /\ bytes "let" ∉ (fst <$> keywords))).
Proof.
  refine (lexer_word no_doubles (lexer_init sample_source) (bytes "let") (drop 3 sample_source) (proj1 sample_init)
    eq_refl _ _ _ _ _); [by vm_compute|by vm_compute|done|by repeat constructor|done].
Defined.

(** The literal [9223372036854775808], one more than fits. *)
Definition big_literal : list Z := bytes "9223372036854775808".

Lemma big_literal_ok : lexer_ok (lexer_init (big_literal ++ [59])) /\ rest (lexer_init (big_literal ++ [59])) = big_literal ++ [59].
Proof. apply init_ok; [by vm_compute|]. repeat constructor; done. Qed.

Lemma lexer_integer_literal_witness :
  exists t l' suffix, lexer_next_token no_doubles (lexer_init (big_literal ++ [59])) = (t, l') /\
    consumes (lexer_init (big_literal ++ [59])) (big_literal ++ suffix) l' /\ lexeme t = big_literal /\
    (suffix = [] /\ 2 ^ 63 <= INT64_MAX /\ type t = TOKEN_NUMBER_INT /\ value t = as_int (2 ^ 63) \/
     (suffix <> [] \/ INT64_MAX < 2 ^ 63) /\ type t = TOKEN_NUMBER_BIGINT /\ value t = as_string big_literal /\
       exists b, obj_bigint_try_from_string big_literal = Some b /\ returns b (2 ^ 63)) /\
    (suffix = [] <-> head [59] <> Some 110 /\ head [59] <> Some 78).
Proof.
  refine (lexer_integer_literal no_doubles (lexer_init (big_literal ++ [59])) big_literal [59] (2 ^ 63)
    (proj1 big_literal_ok) _ eq_refl (proj2 big_literal_ok) _ _ _).
  - by vm_compute.
  - apply (numeral_dec big_literal); [done|by repeat constructor].
  - split; [done|]. split; [done|]. intros [=].
  - by vm_compute.
Defined.

Lemma quoted_ok :
  lexer_ok (lexer_init ([c_quote] ++ escape [7; 34; 10; 200] ++ [c_quote] ++ [59])) /\
  rest (lexer_init ([c_quote] ++ escape [7; 34; 10; 200] ++ [c_quote] ++ [59])) =
    [c_quote] ++ escape [7; 34; 10; 200] ++ [c_quote] ++ [59].
Proof. apply init_ok; [by vm_compute|]. repeat constructor; done. Qed.

Lemma lexer_string_roundtrip_witness :
  exists t l', lexer_next_token no_doubles (lexer_init ([c_quote] ++ escape [7; 34; 10; 200] ++ [c_quote] ++ [59])) = (t, l') /\
    consumes (lexer_init ([c_quote] ++ escape [7; 34; 10; 200] ++ [c_quote] ++ [59]))
      ([c_quote] ++ escape [7; 34; 10; 200] ++ [c_quote]) l' /\
    type t = TOKEN_STRING /\ value t = as_string [7; 34; 10; 200].
Proof.
  refine (lexer_string_roundtrip no_doubles _ [7; 34; 10; 200] [59] (proj1 quoted_ok) eq_refl (proj2 quoted_ok) _ _).
  - repeat constructor; done.
  - by vm_compute.
Defined.

Lemma lexer_utf8_roundtrip_witness :
  exists bs, lexer_append_utf8 [] 6 8364 = Some ([] ++ bs) /\ utf8_decode bs = Some 8364 /\
    Forall is_u8 bs /\ (8364 <> 0 -> Forall (fun b => b <> 0) bs).
Proof. refine (lexer_utf8_roundtrip [] 6 8364 _ _); [lia|simpl; lia]. Defined.
