(* ===== verification/FileSystem.v ===== *)
(** * The file system calls the path utilities use

    [src/src/path_utils.c] calls POSIX [realpath], [open], [openat] and
    [fstat]. This file gives them a meaning on a small file system: inodes
    that are directories, regular files with a link count, or symbolic links.
    Permissions and file contents play no part. *)

From S2P Require Import Prelude.
From stdpp Require Import gmap.

Open Scope Z_scope.

(** A path is the bytes of a C string before its NUL. *)
Notation path := (list Z) (only parsing).
Notation name := (list Z) (only parsing).
Notation inode := positive (only parsing).

Definition slash : Z := 47.
Definition backslash : Z := 92.
Definition dot : name := [46].
Definition dotdot : name := [46; 46].

(** ** Nodes *)

Inductive node :=
  | Dir (parent : inode) (entries : gmap name inode)
  | Reg (st_nlink : Z)
  | Link (target : path).

Record fs := mkFs { nodes : gmap inode node; root : inode; cwd : list name }.

Definition entry (f : fs) (d : inode) (n : name) : option inode :=
  match nodes f !! d with
  | Some (Dir _ es) => es !! n
  | _ => None
  end.

Definition is_dir (f : fs) (i : inode) : bool :=
  match nodes f !! i with Some (Dir _ _) => true | _ => false end.

Definition parent_of (f : fs) (d : inode) : option inode :=
  match nodes f !! d with
  | Some (Dir p _) => Some p
  | _ => None
  end.

(** ** Paths and their components *)

(** The texts between the slashes, empty ones included. *)
Fixpoint split_at (sep : Z -> bool) (p : path) : list name :=
  match p with
  | [] => [[]]
  | c :: p' =>
      if sep c then [] :: split_at sep p'
      else match split_at sep p' with
           | n :: ns => (c :: n) :: ns
           | [] => [[c]]
           end
  end.
Definition components (p : path) : list name := split_at (Z.eqb slash) p.

Definition absolute (p : path) : bool := match p with c :: _ => c =? slash | [] => false end.

(** Every name after a slash. *)
Definition spell (ns : list name) : path := concat (map (cons slash) ns).
(** The text of an absolute path. *)
Definition spell_path (ns : list name) : path := match ns with [] => [slash] | _ => spell ns end.

(** ** Resolution of paths *)

(** The number of symbolic links a resolution may follow. *)
Definition MAXSYMLINKS : nat := 40.

(** The directories passed on the way, the last one first, each with its name
    and inode. *)
Definition here (f : fs) (stack : list (name * inode)) : inode :=
  match stack with
  | (_, i) :: _ => i
  | [] => root f
  end.

(** The walk of [realpath]: it follows every link and keeps the names. *)
Fixpoint walk (links : nat) (f : fs) : list name -> list (name * inode) -> option (list (name * inode)) :=
  fix go (ns : list name) (stack : list (name * inode)) :=
    match ns with
    | [] => Some stack
    | n :: ns' =>
        if negb (is_dir f (here f stack)) then None
        else if bool_decide (n = []) || bool_decide (n = dot) then go ns' stack
        else if bool_decide (n = dotdot) then go ns' (tail stack)
        else
          match entry f (here f stack) n with
          | None => None
          | Some i =>
              match nodes f !! i with
              | None => None
              | Some (Link target) =>
                  match links with
                  | O => None
                  | S links' =>
                      if bool_decide (target = []) then None
                      else walk links' f (components target ++ ns') (if absolute target then [] else stack)
                  end
              | Some _ => go ns' ((n, i) :: stack)
              end
          end
    end.

(** The absolute path without links that names the same file as [p]. *)
Definition realpath (f : fs) (p : path) : option path :=
  match p with
  | [] => None
  | _ =>
      stack ← walk MAXSYMLINKS f ((if absolute p then [] else cwd f) ++ components p) [];
      Some (spell_path (reverse (map fst stack)))
  end.

(** The inode a path leads to from a directory, links followed. *)
Fixpoint namei (links : nat) (f : fs) : list name -> inode -> option inode :=
  fix go (ns : list name) (cur : inode) :=
    match ns with
    | [] => Some cur
    | n :: ns' =>
        if negb (is_dir f cur) then None
        else if bool_decide (n = []) || bool_decide (n = dot) then go ns' cur
        else if bool_decide (n = dotdot) then
          match parent_of f cur with Some p => go ns' p | None => None end
        else
          match entry f cur n with
          | None => None
          | Some i =>
              match nodes f !! i with
              | None => None
              | Some (Link target) =>
                  match links with
                  | O => None
                  | S links' =>
                      if bool_decide (target = []) then None
                      else namei links' f (components target ++ ns') (if absolute target then root f else cur)
                  end
              | Some _ => go ns' i
              end
          end
    end.

(** ** Opening files *)

(** The flags have their Linux values. *)
Definition O_RDONLY : Z := 0.
Definition O_WRONLY : Z := 1.
Definition O_RDWR : Z := 2.
Definition O_CREAT : Z := 64.
Definition O_EXCL : Z := 128.
Definition O_TRUNC : Z := 512.
Definition O_APPEND : Z := 1024.
Definition O_DIRECTORY : Z := 65536.
Definition O_NOFOLLOW : Z := 131072.
Definition O_CLOEXEC : Z := 524288.

Definition flag_set (flags flag : Z) : bool := negb (Z.land flags flag =? 0).
Definition for_writing (flags : Z) : bool := flag_set flags (Z.lor O_WRONLY O_RDWR).

(** Opening the node a name leads to, which is not a link. *)
Definition open_node (f : fs) (flags : Z) (i : inode) : option inode :=
  match nodes f !! i with
  | Some (Dir _ _) => if for_writing flags || flag_set flags O_CREAT then None else Some i
  | Some (Reg _) => if flag_set flags O_DIRECTORY then None else Some i
  | _ => None
  end.

(** A new regular file with one name. *)
Definition create_file (f : fs) (d : inode) (n : name) : fs * option inode :=
  match nodes f !! d with
  | Some (Dir p es) =>
      let i := fresh (dom (nodes f)) in
      (mkFs (<[i := Reg 1]> (<[d := Dir p (<[n := i]> es)]> (nodes f))) (root f) (cwd f), Some i)
  | _ => (f, None)
  end.

(** Opening the name [n] of a directory: the descriptor is the inode. *)
Definition openat (f : fs) (d : inode) (n : name) (flags : Z) : fs * option inode :=
  if negb (is_dir f d) || bool_decide (n = []) then (f, None)
  else
    let found :=
      if bool_decide (n = dot) then Some d
      else if bool_decide (n = dotdot) then parent_of f d
      else entry f d n in
    match found with
    | Some i =>
        if flag_set flags O_CREAT && flag_set flags O_EXCL then (f, None)
        else
          match nodes f !! i with
          | Some (Link target) =>
              if flag_set flags O_NOFOLLOW then (f, None)
              else (f, j ← namei MAXSYMLINKS f (components target) (if absolute target then root f else d);
                       open_node f flags j)
          | _ => (f, open_node f flags i)
          end
    | None =>
        if flag_set flags O_CREAT && negb (flag_set flags O_DIRECTORY) then create_file f d n else (f, None)
    end.

(** Opening a path that exists. *)
Definition open (f : fs) (p : path) (flags : Z) : fs * option inode :=
  match p with
  | [] => (f, None)
  | _ => (f, i ← namei MAXSYMLINKS f ((if absolute p then [] else cwd f) ++ components p) (root f);
             open_node f flags i)
  end.

(** The link count of an open regular file, [None] for other files. *)
Definition fstat (f : fs) (i : inode) : option (option Z) :=
  match nodes f !! i with
  | Some (Reg n) => Some (Some n)
  | Some _ => Some None
  | None => None
  end.
