(* ===== verification/PathUtils.v ===== *)
(** * Sandboxed paths: model of [src/src/path_utils.c]

    The POSIX side of the file: joining an untrusted path to the sandbox root,
    resolving it, and opening the result component by component. A [char*] that
    may be [NULL] is an option, a function that fails returns its message.
    Other processes may change the file system between any two system calls:
    the argument [env] is what they do before each call. *)

From S2P Require Import Prelude.
From Stdlib Require Import String.
From stdpp Require Import gmap.
From S2P Require Import FileSystem.

Open Scope Z_scope.
Open Scope list_scope.

(** ** Separators and prefixes *)

Definition path_is_sep (c : Z) : bool := (c =? slash) || (c =? backslash).

Definition path_is_drive_root (p : path) (len : nat) : bool := (len =? 1)%nat.

(** The loop of [path_trim_trailing_seps] on the length. *)
Fixpoint trim_len (p : path) (len : nat) : nat :=
  match len with
  | O => O
  | S m => if (1 <? len)%nat && path_is_sep (nth m p 0) && negb (path_is_drive_root p len) then trim_len p m else len
  end.
Definition path_trim_trailing_seps (p : path) : path := take (trim_len p (length p)) p.

(** The comparison loop of [path_prefix_matches]. *)
Fixpoint same_prefix (p r : path) : bool :=
  match r, p with
  | [], _ => true
  | b :: r', a :: p' => if negb (a =? b) then false else same_prefix p' r'
  | _ :: _, [] => false
  end.

Definition path_prefix_matches (p r : path) : bool :=
  if (length r =? 0)%nat || (length p <? length r)%nat then false
  else if negb (same_prefix p r) then false
  else if (length p =? length r)%nat then true
  else path_is_sep (nth (length r) p 0).

Definition path_is_absolute (p : option path) : bool :=
  match p with
  | None | Some [] => false
  | Some (c :: _) => c =? slash
  end.

(** [strrchr]: the last position of a character. *)
Fixpoint strrchr (p : path) (c : Z) : option nat :=
  match p with
  | [] => None
  | x :: p' =>
      match strrchr p' c with
      | Some i => Some (S i)
      | None => if x =? c then Some O else None
      end
  end.

(** The last separator of either kind. *)
Definition last_sep (p : path) : option nat :=
  match strrchr p slash, strrchr p backslash with
  | Some a, Some b => Some (if (b <? a)%nat then a else b)
  | Some a, None => Some a
  | None, b => b
  end.

Definition path_dirname_alloc (p : option path) : path :=
  match p with
  | None | Some [] => dot
  | Some p =>
      match last_sep p with
      | None => dot
      | Some O => [nth 0 p 0]
      | Some dir_len => take dir_len p
      end
  end.

Definition pick_join_sep (r : path) : Z := slash.

(** ** Joining *)

Fixpoint skip_seps (p : path) : path :=
  match p with
  | c :: p' => if path_is_sep c then skip_seps p' else p
  | [] => []
  end.

(** The text up to the next separator, and the rest. *)
Fixpoint span_segment (p : path) : path * path :=
  match p with
  | c :: p' => if negb (path_is_sep c) then let '(s, q) := span_segment p' in (c :: s, q) else ([], p)
  | [] => ([], [])
  end.

(** The loop over the segments of the user path; [segments] has the ones kept. *)
Fixpoint join_loop (fuel : nat) (p : path) (segments : list name) : string + list name :=
  match fuel with
  | O => inr segments
  | S f =>
      match p with
      | [] => inr segments
      | _ =>
          let '(seg, rest) := span_segment (skip_seps p) in
          if (length seg =? 0)%nat then inr segments
          else if bool_decide (seg = dot) then join_loop f rest segments
          else if bool_decide (seg = dotdot) then
            if (length segments =? 0)%nat then inl "Path escapes sandbox"%string
            else join_loop f rest (removelast segments)
          else join_loop f rest (segments ++ [seg])
      end
  end.

(** The segments with the separator between them. *)
Fixpoint join_segments (sep : Z) (segments : list name) : path :=
  match segments with
  | [] => []
  | [s] => s
  | s :: rest => s ++ [sep] ++ join_segments sep rest
  end.

(** The loop that drops the separators at the end of the root. *)
Fixpoint trimmed_root_len (r : path) (len : nat) : nat :=
  match len with
  | O => O
  | S m => if (1 <? len)%nat && path_is_sep (nth m r 0) then trimmed_root_len r m else len
  end.

Definition path_sandbox_join_alloc (sandbox_root user_path : option path) : string + path :=
  match sandbox_root with
  | None | Some [] => inl "Sandbox root not set"%string
  | Some r =>
      match user_path with
      | None | Some [] => inl "Empty path"%string
      | Some u =>
          if path_is_absolute user_path then inl "Absolute paths are not allowed"%string
          else
            match join_loop (length u) u [] with
            | inl e => inl e
            | inr segments =>
                if (length segments =? 0)%nat then inl "Path resolves to empty"%string
                else
                  let sep := pick_join_sep r in
                  let n := trimmed_root_len r (length r) in
                  let root_has_sep := (0 <? n)%nat && path_is_sep (nth (n - 1) r 0) in
                  inr (take n r ++ (if root_has_sep then [] else [sep]) ++ join_segments sep segments)
            end
      end
  end.

(** ** File modes *)

(** The characters after the first: [plus] and [exclusive]. *)
Fixpoint mode_suffix (m : path) (plus exclusive : bool) : option (bool * bool) :=
  match m with
  | [] => Some (plus, exclusive)
  | c :: m' =>
      if c =? 43 then mode_suffix m' true exclusive
      else if (c =? 98) || (c =? 116) then mode_suffix m' plus exclusive
      else if c =? 120 then mode_suffix m' plus true
      else None
  end.

Definition path_mode_to_open_flags (mode : path) : option Z :=
  match mode with
  | [] => None
  | primary :: m =>
      match mode_suffix m false false with
      | None => None
      | Some (plus, exclusive) =>
          let add flags := Some (if exclusive then Z.lor flags (Z.lor O_CREAT O_EXCL) else flags) in
          if primary =? 114 then add (if plus then O_RDWR else O_RDONLY)
          else if primary =? 119 then add (Z.lor (Z.lor (if plus then O_RDWR else O_WRONLY) O_CREAT) O_TRUNC)
          else if primary =? 97 then add (Z.lor (Z.lor (if plus then O_RDWR else O_WRONLY) O_CREAT) O_APPEND)
          else None
      end
  end.

(** ** System calls *)

(** The file system, the number of calls made and of descriptors open. *)
Record world := mkWorld { w_fs : fs; w_now : nat; w_fds : nat }.

Section Calls.
Context (env : nat -> fs -> fs).

(** What a call sees. *)
Definition view (w : world) : fs := env (w_now w) (w_fs w).

Definition do_realpath (p : path) (w : world) : option path * world :=
  (realpath (view w) p, mkWorld (view w) (S (w_now w)) (w_fds w)).

Definition opened (r : fs * option inode) (w : world) : option inode * world :=
  (snd r, mkWorld (fst r) (S (w_now w)) (match snd r with Some _ => S (w_fds w) | None => w_fds w end)).
Definition do_open (p : path) (flags : Z) (w : world) : option inode * world := opened (open (view w) p flags) w.
Definition do_openat (d : inode) (n : name) (flags : Z) (w : world) : option inode * world :=
  opened (openat (view w) d n flags) w.

Definition do_fstat (i : inode) (w : world) : option (option Z) * world :=
  (fstat (view w) i, mkWorld (view w) (S (w_now w)) (w_fds w)).

Definition close (w : world) : world := mkWorld (w_fs w) (w_now w) (pred (w_fds w)).

(** ** Resolving *)

Definition path_canonical_existing_alloc (p : path) (w : world) : option path * world :=
  match p with
  | [] => (None, w)
  | _ => do_realpath p w
  end.

(** The parent of a missing file and its last name, joined. *)
Definition join_leaf (parent_real leaf : path) : path :=
  let parent_len := length parent_real in
  let parent_has_sep := (0 <? parent_len)%nat && path_is_sep (nth (parent_len - 1) parent_real 0) in
  parent_real ++ (if parent_has_sep then [] else [pick_join_sep parent_real]) ++ leaf.

Definition resolve_missing (joined root_real : path) (w : world) : (string + path) * world :=
  let parent := path_dirname_alloc (Some joined) in
  let leaf := match last_sep joined with Some i => drop (S i) joined | None => joined end in
  if (length leaf =? 0)%nat then (inl "Invalid file name"%string, w)
  else
    let '(parent_real, w) := path_canonical_existing_alloc parent w in
    match parent_real with
    | None => (inl "Parent path does not exist"%string, w)
    | Some parent_real =>
        let parent_real := path_trim_trailing_seps parent_real in
        if negb (path_prefix_matches parent_real root_real) then (inl "Path escapes sandbox"%string, w)
        else (inr (join_leaf parent_real leaf), w)
    end.

Definition path_sandbox_resolve_alloc (sandbox_root user_path : option path) (allow_missing_leaf : bool) (w : world) :
    (string + path) * world :=
  match path_sandbox_join_alloc sandbox_root user_path with
  | inl join_err => (inl join_err, w)
  | inr joined =>
      let '(root_real, w) := path_canonical_existing_alloc (default [] sandbox_root) w in
      match root_real with
      | None => (inl "Sandbox root does not exist"%string, w)
      | Some root_real =>
          let root_real := path_trim_trailing_seps root_real in
          let '(target_real, w) := path_canonical_existing_alloc joined w in
          match target_real with
          | Some target_real =>
              let target_real := path_trim_trailing_seps target_real in
              if negb (path_prefix_matches target_real root_real) then (inl "Path escapes sandbox"%string, w)
              else (inr target_real, w)
          | None =>
              if negb allow_missing_leaf then (inl "Path does not exist"%string, w)
              else resolve_missing joined root_real w
          end
      end
  end.

(** ** Opening *)

(** The message if the open file must not be used. *)
Definition path_validate_opened_sandbox_file_fd (file_fd : inode) (w : world) : option string * world :=
  let '(st, w) := do_fstat file_fd w in
  match st with
  | None => (Some "Failed to inspect opened file"%string, w)
  | Some (Some st_nlink) =>
      if 1 <? st_nlink then (Some "Hardlinked files are not allowed in sandbox"%string, w) else (None, w)
  | Some None => (None, w)
  end.

(** The loop over the components below [dir_fd]. *)
Fixpoint open_loop (fuel : nat) (dir_fd : inode) (p : path) (open_flags : Z) (w : world) : (string + inode) * world :=
  match fuel with
  | O => (inl "Invalid file name"%string, close w)
  | S f =>
      match skip_seps p with
      | [] => (inl "Invalid file name"%string, close w)
      | start =>
          let '(component, rest) := span_segment start in
          match skip_seps rest with
          | [] =>
              let final_flags := Z.lor (Z.lor open_flags O_NOFOLLOW) O_CLOEXEC in
              let '(file_fd, w) := do_openat dir_fd component final_flags w in
              let w := close w in
              match file_fd with
              | None => (inl "Failed to open file"%string, w)
              | Some file_fd =>
                  let '(err, w) := path_validate_opened_sandbox_file_fd file_fd w in
                  match err with
                  | Some e => (inl e, close w)
                  | None => (inr file_fd, w)
                  end
              end
          | q =>
              let next_dir_flags := Z.lor (Z.lor (Z.lor O_RDONLY O_DIRECTORY) O_NOFOLLOW) O_CLOEXEC in
              let '(next_fd, w) := do_openat dir_fd component next_dir_flags w in
              match next_fd with
              | None => (inl "Path changed during secure open"%string, close w)
              | Some next_fd => open_loop f next_fd q open_flags (close w)
              end
          end
      end
  end.

Definition path_open_sandbox_resolved_fd (sandbox_root_real resolved_path : path) (open_flags : Z) (w : world) :
    (string + inode) * world :=
  if negb (path_prefix_matches resolved_path sandbox_root_real) then (inl "Path escapes sandbox"%string, w)
  else
    let rel := skip_seps (drop (length sandbox_root_real) resolved_path) in
    match rel with
    | [] => (inl "Invalid file name"%string, w)
    | _ =>
        let '(dir_fd, w) := do_open sandbox_root_real (Z.lor (Z.lor O_RDONLY O_DIRECTORY) O_CLOEXEC) w in
        match dir_fd with
        | None => (inl "Failed to open sandbox root"%string, w)
        | Some dir_fd => open_loop (length rel) dir_fd rel open_flags w
        end
    end.

(** [fdopen_ok] is whether [fdopen] could wrap the descriptor. *)
Definition path_sandbox_fopen_resolved (fdopen_ok : bool) (sandbox_root resolved_path mode : option path) (w : world) :
    (string + inode) * world :=
  match sandbox_root, resolved_path, mode with
  | Some ((_ :: _) as r), Some resolved, Some ((_ :: _) as m) =>
      let '(root_real, w) := path_canonical_existing_alloc r w in
      match root_real with
      | None => (inl "Sandbox root does not exist"%string, w)
      | Some root_real =>
          let root_real := path_trim_trailing_seps root_real in
          match path_mode_to_open_flags m with
          | None => (inl "Unsupported file mode"%string, w)
          | Some open_flags =>
              let '(res, w) := path_open_sandbox_resolved_fd root_real resolved open_flags w in
              match res with
              | inl e => (inl e, w)
              | inr file_fd => if fdopen_ok then (inr file_fd, w) else (inl "Failed to wrap file handle"%string, close w)
              end
          end
      end
  | _, _, _ => (inl "Invalid sandbox open arguments"%string, w)
  end.
End Calls.
