(* ===== verification/PathSpec.v ===== *)
(** * Paths as lists of names

    The loops of [src/src/path_utils.c] over the characters of a path, read as
    operations on the list of its segments, and the meaning of canonical
    paths in a file system. *)

From S2P Require Import Prelude.
From Stdlib Require Import String.
From stdpp Require Import gmap.
From S2P Require Import FileSystem PathUtils.

Open Scope Z_scope.
Open Scope list_scope.

(** ** Segments *)

(** A text without separators. *)
Definition solid (s : name) : Prop := Forall (fun c => path_is_sep c = false) s.
(** A name other than the empty one and the two special ones. *)
Definition plain (s : name) : Prop := solid s /\ s <> [] /\ s <> dot /\ s <> dotdot.
(** The end of a segment. *)
Definition sep_or_end (q : path) : Prop := match q with [] => True | c :: _ => path_is_sep c = true end.

#[export] Instance solid_dec s : Decision (solid s).
Proof. apply _. Defined.

Definition segs (p : path) : list name := filter (fun s => s <> []) (split_at path_is_sep p).

Lemma split_at_solid sep s : Forall (fun c => sep c = false) s -> split_at sep s = [s].
Proof. induction 1 as [|c s Hc Hs IH]; [done|]. simpl. by rewrite Hc, IH. Qed.

Lemma split_at_app sep s c q :
  Forall (fun c => sep c = false) s -> sep c = true -> split_at sep (s ++ c :: q) = s :: split_at sep q.
Proof. intros Hs Hc. induction Hs as [|x s Hx Hs IH]; simpl; [by rewrite Hc|]. by rewrite Hx, IH. Qed.

Lemma segs_nil : segs [] = [].
Proof. done. Qed.

Lemma segs_sep c q : path_is_sep c = true -> segs (c :: q) = segs q.
Proof. intros Hc. unfold segs. simpl. by rewrite Hc. Qed.

Lemma segs_solid s q : solid s -> s <> [] -> sep_or_end q -> segs (s ++ q) = s :: segs q.
Proof.
  intros Hs Hn Hq. unfold segs. destruct q as [|c q].
  - rewrite app_nil_r, split_at_solid by done. rewrite filter_cons_True by done. done.
  - rewrite split_at_app by done. rewrite filter_cons_True by done. simpl. by rewrite Hq.
Qed.

Lemma skip_seps_spec p : segs (skip_seps p) = segs p /\ (length (skip_seps p) <= length p)%nat /\
  match skip_seps p with [] => True | c :: _ => path_is_sep c = false end.
Proof.
  induction p as [|c p IH]; [done|]. simpl. destruct (path_is_sep c) eqn:E; [|by rewrite E].
  rewrite segs_sep by done. destruct IH as (H1 & H2 & H3). split; [done|]. split; [lia|done].
Qed.

Lemma span_segment_spec p s q :
  span_segment p = (s, q) -> p = s ++ q /\ solid s /\ sep_or_end q.
Proof.
  revert s q. induction p as [|c p IH]; intros s q; simpl.
  - intros [= <- <-]. split; [done|]. split; [constructor|done].
  - destruct (path_is_sep c) eqn:E; simpl.
    + intros [= <- <-]. split; [done|]. split; [constructor|done].
    + destruct (span_segment p) as [s' q'] eqn:Ep. intros [= <- <-].
      destruct (IH s' q' eq_refl) as (-> & H2 & H3). split; [done|]. split; [by constructor|done].
Qed.

(** The first segment after the separators, if there is one. *)
Lemma next_segment p s q :
  span_segment (skip_seps p) = (s, q) ->
  (s = [] /\ segs p = []) \/
  (s <> [] /\ solid s /\ sep_or_end q /\ segs p = s :: segs q /\ (length q < length p)%nat).
Proof.
  intros E. destruct (skip_seps_spec p) as (H1 & H2 & H3).
  destruct (span_segment_spec _ _ _ E) as (E2 & Hs & Hq). destruct s as [|c s].
  - left. split; [done|]. rewrite <- H1. destruct (skip_seps p) as [|c' p']; [done|].
    simpl in E2. subst q. simpl in Hq. congruence.
  - right. rewrite <- H1, E2. rewrite segs_solid by done. rewrite E2, length_app in H2. simpl in H2.
    repeat split; try done. lia.
Qed.

Lemma skip_seps_nil p : skip_seps p = [] <-> segs p = [].
Proof.
  destruct (skip_seps_spec p) as (H1 & _ & H3). split; intros E.
  - by rewrite <- H1, E.
  - destruct (span_segment (skip_seps p)) as [s q] eqn:Es.
    destruct (next_segment p s q Es) as [[-> _]|(_ & _ & _ & H & _)]; [|congruence].
    apply span_segment_spec in Es as (E2 & _ & Hq). rewrite E2 in H3 |- *. simpl in *.
    destruct q; [done|]. simpl in Hq. congruence.
Qed.

(** Segments of a path cut at a separator. *)
Lemma segs_app p q : sep_or_end q -> segs (p ++ q) = segs p ++ segs q.
Proof.
  intros Hq. remember (length p) as n eqn:Hn. revert p Hn.
  induction n as [n IH] using lt_wf_ind. intros p ->.
  destruct p as [|c p]; [done|]. destruct (path_is_sep c) eqn:Ec.
  - simpl. rewrite !segs_sep by done. by apply (IH (length p)); simpl; [lia|].
  - destruct (span_segment (c :: p)) as [s r] eqn:Es.
    destruct (span_segment_spec _ _ _ Es) as (E2 & Hs & Hr). simpl in Es. rewrite Ec in Es. simpl in Es.
    destruct (span_segment p) as [s' r'] eqn:Ep. injection Es as <- <-.
    assert (length r' < length (c :: p))%nat by (rewrite E2, length_app; simpl; lia).
    rewrite E2, <- app_assoc. rewrite (segs_solid (c :: s') r'), (segs_solid (c :: s') (r' ++ q)); try done.
    + simpl. f_equal. by apply (IH (length r')).
    + by destruct r'.
Qed.

Lemma segs_Forall_solid p : Forall (fun s => solid s /\ s <> []) (segs p).
Proof.
  remember (length p) as n eqn:Hn. revert p Hn. induction n as [n IH] using lt_wf_ind. intros p ->.
  destruct (span_segment (skip_seps p)) as [s q] eqn:E.
  destruct (next_segment p s q E) as [[_ ->]|(H1 & H2 & _ & -> & Hl)]; [constructor|].
  constructor; [done|]. by apply (IH (length q)).
Qed.

(** ** The meaning of a user path *)

(** [lexical ns st]: walking down and up the names [ns] ends at the names
    [st] below the starting point and never above it. *)
Inductive lexical : list name -> list name -> Prop :=
  | lex_here : lexical [] []
  | lex_dot ns st : lexical ns st -> lexical (ns ++ [dot]) st
  | lex_up ns st n : lexical ns (st ++ [n]) -> lexical (ns ++ [dotdot]) st
  | lex_down ns st n : n <> dot -> n <> dotdot -> lexical ns st -> lexical (ns ++ [n]) (st ++ [n]).

(** The walk as a function. *)
Fixpoint normalize (ns acc : list name) : option (list name) :=
  match ns with
  | [] => Some acc
  | n :: ns' =>
      if bool_decide (n = dot) then normalize ns' acc
      else if bool_decide (n = dotdot) then
        match acc with [] => None | _ => normalize ns' (removelast acc) end
      else normalize ns' (acc ++ [n])
  end.

Lemma normalize_app ns ms acc :
  normalize (ns ++ ms) acc = match normalize ns acc with Some st => normalize ms st | None => None end.
Proof.
  revert acc. induction ns as [|n ns IH]; intros acc; [done|]. simpl.
  repeat case_bool_decide; try apply IH. destruct acc; [done|apply IH].
Qed.

Lemma removelast_snoc {A} (l : list A) x : removelast (l ++ [x]) = l.
Proof. apply removelast_last. Qed.

Lemma lexical_normalize ns st : lexical ns st <-> normalize ns [] = Some st.
Proof.
  split.
  - induction 1 as [|ns st H IH|ns st n H IH|ns st n H1 H2 H IH]; [done|..]; rewrite normalize_app, IH; simpl.
    + done.
    + rewrite removelast_snoc. by destruct st.
    + by rewrite !bool_decide_eq_false_2.
  - revert st. induction ns as [|n ns IH] using rev_ind; intros st; [intros [= <-]; constructor|].
    rewrite normalize_app. destruct (normalize ns []) as [st'|] eqn:E; [|done]. specialize (IH st' eq_refl). simpl.
    case_bool_decide as H1; [intros [= <-]; subst; by constructor|].
    case_bool_decide as H2; [|intros [= <-]; by constructor]. subst n.
    destruct st' as [|n' st'' _] using rev_ind; [done|].
    rewrite removelast_snoc. intros E'. apply (lex_up ns st n'). destruct (st'' ++ [n']) eqn:E3; [by destruct st''|].
    injection E' as <-. by rewrite E3.
Qed.

Lemma join_loop_spec fuel p acc :
  (length p <= fuel)%nat ->
  join_loop fuel p acc =
    match normalize (segs p) acc with Some st => inr st | None => inl "Path escapes sandbox"%string end.
Proof.
  revert p acc. induction fuel as [|fuel IH]; intros p acc Hl; [by destruct p; [|simpl in Hl; lia]|].
  cbn [join_loop]. destruct p as [|c p]; [done|].
  destruct (span_segment (skip_seps (c :: p))) as [s q] eqn:E.
  destruct (next_segment _ s q E) as [[-> ->]|(H1 & H2 & H3 & -> & Hlt)]; [done|].
  destruct s as [|x s]; [done|]. cbn [length Nat.eqb normalize].
  assert (length q <= fuel)%nat by lia.
  repeat case_bool_decide; [by apply IH| |by apply IH].
  destruct acc as [|y acc]; [done|]. cbn [length Nat.eqb]. by apply IH.
Qed.

(** The names a walk ends at are among those it was given. *)
Lemma normalize_names ns acc st :
  normalize ns acc = Some st -> Forall (fun s => solid s /\ s <> []) ns -> Forall plain acc -> Forall plain st.
Proof.
  revert acc. induction ns as [|n ns IH]; intros acc; [by intros [= <-]|]. simpl.
  intros E Hn Ha. apply Forall_cons in Hn as [[Hn1 Hn2] Hn].
  case_bool_decide; [by eapply IH|]. case_bool_decide.
  - destruct acc as [|a acc]; [done|]. eapply IH; [done|done|].
    destruct (exists_last (l:=a::acc)) as (l & x & E2); [done|]. rewrite E2 in *. rewrite removelast_snoc.
    by apply Forall_app in Ha as [? _].
  - eapply IH; [done|done|]. apply Forall_app. split; [done|]. by repeat constructor.
Qed.

(** ** Joined paths *)

(** What precedes the names in a joined path. *)
Definition sandbox_base (r : path) : path :=
  let n := trimmed_root_len r (length r) in
  take n r ++ (if (0 <? n)%nat && path_is_sep (nth (n - 1) r 0) then [] else [slash]).

Lemma trimmed_root_len_spec r n :
  (n <= length r)%nat -> n <> O ->
  let m := trimmed_root_len r n in
  (0 < m <= n)%nat /\ segs (take m r) = segs (take n r).
Proof.
  induction n as [|n IH]; intros Hl Hn; [done|]. cbn [trimmed_root_len]. cbv zeta.
  destruct ((1 <? S n)%nat && path_is_sep (nth n r 0)) eqn:E; [|split; [lia|done]].
  apply andb_prop in E as [E1 E2]. apply Nat.ltb_lt in E1. destruct IH as [H1 H2]; [lia|lia|].
  split; [lia|]. rewrite H2. rewrite (take_S_r r n (nth n r 0)).
  - rewrite segs_app by done. rewrite segs_sep, segs_nil by done. by rewrite app_nil_r.
  - destruct (nth_lookup_or_length r n 0); [done|lia].
Qed.

Lemma sandbox_base_spec r :
  r <> [] -> segs (sandbox_base r) = segs r /\ exists y c, sandbox_base r = y ++ [c] /\ path_is_sep c = true.
Proof.
  intros Hr. unfold sandbox_base. assert (length r <> 0%nat) by (by destruct r).
  destruct (trimmed_root_len_spec r (length r)) as [H1 H2]; [lia|done|].
  set (n := trimmed_root_len r (length r)) in *. cbv zeta. rewrite firstn_all in H2. rewrite <- H2.
  assert ((0 <? n)%nat = true) as -> by (apply Nat.ltb_lt; lia). simpl.
  destruct (path_is_sep (nth (n - 1) r 0)) eqn:E.
  - rewrite app_nil_r. split; [done|]. exists (take (n - 1) r), (nth (n - 1) r 0). split; [|done].
    replace n with (S (n - 1)) at 1 by lia. apply take_S_r.
    destruct (nth_lookup_or_length r (n - 1) 0); [done|lia].
  - rewrite segs_app by done. rewrite (segs_sep slash), segs_nil by done. rewrite app_nil_r. split; [done|].
    by exists (take n r), slash.
Qed.

(** Writing separators after names does not change the segments before. *)
Lemma segs_after_sep y c q : path_is_sep c = true -> segs ((y ++ [c]) ++ q) = segs (y ++ [c]) ++ segs q.
Proof.
  intros Hc. rewrite <- app_assoc. rewrite (segs_app y), (segs_app y [c]) by done. simpl. rewrite !segs_sep by done.
  by rewrite segs_nil, app_nil_r.
Qed.

Lemma segs_join names : Forall plain names -> segs (join_segments slash names) = names.
Proof.
  induction 1 as [|n names [Hn1 [Hn2 _]] Hns IH]; [done|]. destruct names as [|m names].
  - simpl. rewrite <- (app_nil_r n) at 1. by rewrite segs_solid.
  - change (join_segments slash (n :: m :: names)) with (n ++ slash :: join_segments slash (m :: names)).
    rewrite segs_solid, segs_sep by done. by rewrite IH.
Qed.

Lemma join_segments_last names n :
  join_segments slash (names ++ [n]) =
    match names with [] => n | _ => join_segments slash names ++ [slash] ++ n end.
Proof.
  induction names as [|m names IH]; [done|]. destruct names as [|m' names]; [done|].
  change (join_segments slash ((m :: m' :: names) ++ [n])) with (m ++ [slash] ++ join_segments slash ((m' :: names) ++ [n])).
  rewrite IH. change (join_segments slash (m :: m' :: names)) with (m ++ [slash] ++ join_segments slash (m' :: names)).
  by rewrite <- !app_assoc.
Qed.

(** The outcome of joining. *)
Lemma join_cases r u :
  r <> [] -> u <> [] ->
  match path_sandbox_join_alloc (Some r) (Some u) with
  | inr p => absolute u = false /\ exists names, lexical (segs u) names /\ names <> [] /\ Forall plain names /\
      p = sandbox_base r ++ join_segments slash names
  | inl e => (absolute u = true /\ e = "Absolute paths are not allowed"%string) \/
      (absolute u = false /\ (forall names, ~ lexical (segs u) names) /\ e = "Path escapes sandbox"%string) \/
      (absolute u = false /\ lexical (segs u) [] /\ e = "Path resolves to empty"%string)
  end.
Proof.
  intros Hr Hu. destruct r as [|x r]; [done|]. destruct u as [|c u]; [done|].
  unfold path_sandbox_join_alloc. cbn [path_is_absolute absolute].
  destruct (c =? slash); [by left|]. rewrite join_loop_spec by done.
  destruct (normalize (segs (c :: u)) []) as [st|] eqn:E.
  - destruct st as [|n st]; cbn [length Nat.eqb].
    + right. right. by rewrite lexical_normalize.
    + split; [done|]. exists (n :: st). rewrite lexical_normalize. split; [done|]. split; [done|].
      split; [eapply normalize_names; [done|apply segs_Forall_solid|done]|].
      unfold sandbox_base. by rewrite <- app_assoc.
  - right. left. split; [done|]. split; [|done]. intros names. rewrite lexical_normalize. congruence.
Qed.

(** ** The last name *)

Lemma strrchr_app y c s x :
  Forall (fun d => d <> x) s ->
  strrchr (y ++ c :: s) x = if c =? x then Some (length y) else strrchr y x.
Proof.
  intros Hs. induction y as [|d y IH]; simpl.
  - assert (strrchr s x = None) as ->; [|done]. clear -Hs. induction Hs as [|d s Hd Hs IH]; [done|].
    simpl. rewrite IH. by destruct (Z.eqb_spec d x).
  - rewrite IH. by destruct (c =? x).
Qed.

Lemma strrchr_lt y x i : strrchr y x = Some i -> (i < length y)%nat.
Proof.
  revert i. induction y as [|d y IH]; intros i; [done|]. simpl. destruct (strrchr y x) as [j|].
  - intros [= <-]. specialize (IH j eq_refl). lia.
  - destruct (d =? x); [|done]. intros [= <-]. lia.
Qed.

Lemma last_sep_spec y c s : path_is_sep c = true -> solid s -> last_sep (y ++ c :: s) = Some (length y).
Proof.
  intros Hc Hs. unfold last_sep. rewrite !strrchr_app.
  2,3: eapply Forall_impl; [exact Hs|]; intros d Hd ->; done.
  unfold path_is_sep in Hc. destruct (Z.eqb_spec c slash) as [->|].
  - simpl. destruct (strrchr y backslash) as [i|] eqn:E; [|done]. apply strrchr_lt in E.
    by assert ((i <? length y)%nat = true) as -> by (by apply Nat.ltb_lt).
  - simpl in Hc. rewrite Hc. destruct (strrchr y slash) as [i|] eqn:E; [|done]. apply strrchr_lt in E.
    by assert ((length y <? i)%nat = false) as -> by (apply Nat.ltb_ge; lia).
Qed.

(** ** Canonical paths *)

Lemma spell_path_shape ns :
  Forall plain ns -> exists y c, spell_path ns = y ++ [c] /\ (path_is_sep c = false \/ y = []).
Proof.
  intros H. destruct ns as [|n ns _] using rev_ind; [exists [], slash; auto|].
  apply Forall_app in H as [_ H]. apply Forall_cons in H as [[Hs [Hn _]] _].
  destruct n as [|c n _] using rev_ind; [done|]. apply Forall_app in Hs as [_ Hs]. apply Forall_cons in Hs as [Hs _].
  exists (spell ns ++ slash :: n), c. split; [|by left].
  assert (spell_path (ns ++ [n ++ [c]]) = spell (ns ++ [n ++ [c]])) as -> by (by destruct ns).
  unfold spell. rewrite map_app, concat_app. simpl. by rewrite app_nil_r, <- app_assoc.
Qed.

Lemma trim_canonical ns : Forall plain ns -> path_trim_trailing_seps (spell_path ns) = spell_path ns.
Proof.
  intros H. unfold path_trim_trailing_seps. destruct (spell_path_shape ns H) as (y & c & -> & Hc).
  rewrite length_app. simpl. rewrite Nat.add_1_r. cbn [trim_len].
  rewrite app_nth2 by lia. rewrite Nat.sub_diag. cbn [nth].
  assert ((1 <? S (length y))%nat && path_is_sep c && negb (path_is_drive_root (y ++ [c]) (S (length y))) = false) as ->.
  { destruct Hc as [-> | ->]; [by rewrite andb_false_r|done]. }
  apply take_ge. rewrite length_app. simpl. lia.
Qed.

Lemma sep_or_end_spell ns : sep_or_end (spell ns).
Proof. by destruct ns. Qed.

Lemma segs_spell ns : Forall plain ns -> segs (spell ns) = ns.
Proof.
  induction 1 as [|n ns [Hs [Hn _]] Hns IH]; [done|]. change (spell (n :: ns)) with (slash :: n ++ spell ns).
  rewrite segs_sep by done. rewrite segs_solid; [by rewrite IH|done|done|apply sep_or_end_spell].
Qed.

Lemma segs_spell_path ns : Forall plain ns -> segs (spell_path ns) = ns.
Proof. intros H. destruct ns; [done|by apply segs_spell]. Qed.

Lemma components_spell n ns : Forall plain (n :: ns) -> components (spell (n :: ns)) = [] :: n :: ns.
Proof.
  unfold components. revert n. induction ns as [|m ns IH]; intros n H.
  - apply Forall_cons in H as [[Hs _] _]. change (spell [n]) with ([] ++ slash :: n ++ []).
    rewrite app_nil_r, split_at_app by done. rewrite split_at_solid; [done|].
    eapply Forall_impl; [exact Hs|]. intros c Hc. unfold path_is_sep in Hc. by apply orb_false_elim in Hc as [? _];
      rewrite Z.eqb_sym.
  - apply Forall_cons in H as [[Hs _] H]. change (spell (n :: m :: ns)) with ([] ++ slash :: n ++ slash :: m ++ spell ns).
    rewrite split_at_app by done. rewrite split_at_app; [|eapply Forall_impl; [exact Hs|]|done].
    2: { intros c Hc. unfold path_is_sep in Hc. by apply orb_false_elim in Hc as [? _]; rewrite Z.eqb_sym. }
    specialize (IH m H). change (spell (m :: ns)) with ([] ++ slash :: m ++ spell ns) in IH.
    rewrite split_at_app in IH by done. by injection IH as ->.
Qed.

(** A path below another, cut at the end of the other. *)
Lemma prefix_matches_spec p r :
  path_prefix_matches p r = true -> exists q, p = r ++ q /\ sep_or_end q.
Proof.
  unfold path_prefix_matches. destruct ((length r =? 0)%nat || (length p <? length r)%nat) eqn:E; [done|].
  destruct (same_prefix p r) eqn:Es; [|done]. cbn [negb].
  assert (exists q, p = r ++ q) as [q ->].
  { clear E. revert p Es. induction r as [|b r IH]; intros p; [by exists p|]. destruct p as [|a p]; [done|]. simpl.
    destruct (Z.eqb_spec a b) as [->|]; [|done]. intros Es. destruct (IH p Es) as [q ->]. by exists q. }
  intros H. exists q. split; [done|]. destruct q as [|c q]; [done|].
  rewrite length_app, app_nth2, Nat.sub_diag in H by lia. simpl in H.
  assert ((length r + S (length q) =? length r)%nat = false) as E2 by (apply Nat.eqb_neq; lia). by rewrite E2 in H.
Qed.

Lemma prefix_matches_app r q : r <> [] -> sep_or_end q -> path_prefix_matches (r ++ q) r = true.
Proof.
  intros Hr Hq. unfold path_prefix_matches. rewrite length_app.
  assert ((length r =? 0)%nat = false) as -> by (by destruct r).
  assert ((length r + length q <? length r)%nat = false) as -> by (apply Nat.ltb_ge; lia).
  assert (same_prefix (r ++ q) r = true) as ->.
  { clear. induction r as [|b r IH]; [by destruct q|]. simpl. by rewrite Z.eqb_refl, IH. }
  simpl. destruct q as [|c q]; [by rewrite Nat.add_0_r, Nat.eqb_refl|].
  assert ((length r + length (c :: q) =? length r)%nat = false) as -> by (apply Nat.eqb_neq; simpl; lia).
  by rewrite app_nth2, Nat.sub_diag by lia.
Qed.

(** ** Walking down without links *)

(** File systems whose names contain no separator: no name has a backslash. *)
Definition names_ok (f : fs) : Prop := forall d n i, entry f d n = Some i -> plain n.

Definition is_link (f : fs) (i : inode) : bool :=
  match nodes f !! i with Some (Link _) => true | _ => false end.

(** The inode below [d] along entries that are not links. *)
Fixpoint descend (f : fs) (d : inode) (ns : list name) : option inode :=
  match ns with
  | [] => Some d
  | n :: ns' =>
      match entry f d n with
      | Some i => if is_link f i then None else descend f i ns'
      | None => None
      end
  end.

Lemma descend_app f d ns ms :
  descend f d (ns ++ ms) = match descend f d ns with Some i => descend f i ms | None => None end.
Proof.
  revert d. induction ns as [|n ns IH]; intros d; [done|]. simpl. destruct (entry f d n) as [i|]; [|done].
  destruct (is_link f i); [done|apply IH].
Qed.

Lemma entry_is_dir f d n i : entry f d n = Some i -> is_dir f d = true.
Proof. unfold entry, is_dir. by destruct (nodes f !! d) as [[]|]. Qed.

(** A path down existing entries leads where it says. *)
Lemma namei_descend links f ns d i :
  Forall plain ns -> descend f d ns = Some i -> is_Some (nodes f !! i) -> namei links f ns d = Some i.
Proof.
  intros Hp Hd Hi. revert d Hd. induction ns as [|n ns IH]; intros d Hd; [by destruct links|].
  apply Forall_cons in Hp as [(_ & H1 & H2 & H3) Hp]. simpl in Hd.
  destruct (entry f d n) as [j|] eqn:E; [|done]. destruct (is_link f j) eqn:El; [done|].
  assert (is_Some (nodes f !! j)) as [nd Ej].
  { destruct ns as [|m ns]; [by injection Hd as ->|]. simpl in Hd. unfold entry in Hd. by destruct (nodes f !! j). }
  pose proof (IH Hp j Hd) as IH'. unfold is_link in El. rewrite Ej in El.
  destruct links; simpl; rewrite (entry_is_dir f d n j E); simpl;
    rewrite !bool_decide_eq_false_2 by done; simpl; rewrite E, Ej; by destruct nd.
Qed.

(** The stack of a walk is a way down from the root. *)
Fixpoint linked (f : fs) (st : list (name * inode)) : Prop :=
  match st with
  | [] => True
  | (n, i) :: st' =>
      entry f (here f st') n = Some i /\ is_Some (nodes f !! i) /\ is_link f i = false /\ linked f st'
  end.

Lemma linked_tail f st : linked f st -> linked f (tail st).
Proof. destruct st as [|[n i] st]; [done|]. by intros (_ & _ & _ & H). Qed.

Lemma walk_linked links f ns st st' : walk links f ns st = Some st' -> linked f st -> linked f st'.
Proof.
  revert ns st. induction links as [|links IHl]; intros ns;
    induction ns as [|n ns IH]; intros st; simpl; try (by intros [= <-]);
    (destruct (is_dir f (here f st)); [|done]); simpl;
    (destruct (bool_decide (n = []) || bool_decide (n = dot)); [by apply IH|]);
    (case_bool_decide; [intros E Hl; eapply IH; [done|by apply linked_tail]|]);
    (destruct (entry f (here f st) n) as [i|] eqn:E; [|done]);
    (destruct (nodes f !! i) as [nd|] eqn:Ei; [|done]).
  - destruct nd; [| |done]; intros Ew Hl; (eapply IH; [exact Ew|]); simpl; unfold is_link; rewrite Ei; by eauto.
  - destruct nd as [| |t]; [| |case_bool_decide; [done|]].
    1,2: intros Ew Hl; (eapply IH; [exact Ew|]); simpl; unfold is_link; rewrite Ei; by eauto.
    intros Ew Hl. eapply IHl; [exact Ew|]. by destruct (absolute t).
Qed.

Lemma linked_descend f st : linked f st -> descend f (root f) (reverse (map fst st)) = Some (here f st).
Proof.
  induction st as [|[n i] st IH]; [done|]. intros (E & _ & Hl & H). cbn [map fst]. rewrite reverse_cons, descend_app.
  rewrite (IH H). simpl. by rewrite E, Hl.
Qed.

Lemma linked_plain f st : names_ok f -> linked f st -> Forall plain (map fst st).
Proof.
  intros Hf. induction st as [|[n i] st IH]; [constructor|]. intros (E & _ & _ & H). simpl.
  constructor; [by eapply Hf|by apply IH].
Qed.

Lemma linked_exists f st : is_Some (nodes f !! root f) -> linked f st -> is_Some (nodes f !! here f st).
Proof. destruct st as [|[n i] st]; [done|]. by intros _ (_ & H & _). Qed.

(** What [realpath] returns is the spelling of the way to the file. *)
Lemma realpath_spec f p q :
  names_ok f -> realpath f p = Some q ->
  exists st, linked f st /\ walk MAXSYMLINKS f ((if absolute p then [] else cwd f) ++ components p) [] = Some st /\
    Forall plain (reverse (map fst st)) /\ q = spell_path (reverse (map fst st)) /\
    descend f (root f) (reverse (map fst st)) = Some (here f st).
Proof.
  intros Hf. unfold realpath. destruct p as [|c p]; [done|].
  destruct (walk _ _ _ _) as [st|] eqn:E; [|done]. intros [= <-]. exists st.
  assert (linked f st) as Hl by (by eapply walk_linked).
  split; [done|]. split; [done|]. split; [|split; [done|by apply linked_descend]].
  rewrite reverse_Permutation. by eapply linked_plain.
Qed.
