(* ===== verification/PathProps.v ===== *)
(** * Properties of sandboxed paths

    Joining, resolving and opening of [src/src/path_utils.c]: what a joined
    path means, which file is opened when nothing interferes, and that no
    interference makes the open leave the sandbox. *)

From S2P Require Import Prelude.
From Stdlib Require Import String.
From stdpp Require Import gmap.
From S2P Require Import FileSystem PathUtils PathSpec.

Open Scope Z_scope.
Open Scope list_scope.

Definition dir_flags : Z := Z.lor (Z.lor (Z.lor O_RDONLY O_DIRECTORY) O_NOFOLLOW) O_CLOEXEC.
Definition file_flags (fl : Z) : Z := Z.lor (Z.lor fl O_NOFOLLOW) O_CLOEXEC.

Section Opening.
Context (env : nat -> fs -> fs).

(** The last step of the loop. *)
Definition open_last (n : name) (d : inode) (fl : Z) (w : world) : (string + inode) * world :=
  let '(file_fd, w) := do_openat env d n (file_flags fl) w in
  let w := close w in
  match file_fd with
  | None => (inl "Failed to open file"%string, w)
  | Some file_fd =>
      let '(err, w) := path_validate_opened_sandbox_file_fd env file_fd w in
      match err with Some e => (inl e, close w) | None => (inr file_fd, w) end
  end.

(** The loop on names. *)
Fixpoint open_names (ns : list name) (d : inode) (fl : Z) (w : world) : (string + inode) * world :=
  match ns with
  | [] => (inl "Invalid file name"%string, close w)
  | n :: ns' =>
      match ns' with
      | [] => open_last n d fl w
      | _ =>
          let '(next_fd, w) := do_openat env d n dir_flags w in
          match next_fd with
          | None => (inl "Path changed during secure open"%string, close w)
          | Some next_fd => open_names ns' next_fd fl (close w)
          end
      end
  end.

Lemma open_loop_names fuel p d fl w :
  (length p <= fuel)%nat -> open_loop env fuel d p fl w = open_names (segs p) d fl w.
Proof.
  revert p d w. induction fuel as [|fuel IH]; intros p d w Hl; [by destruct p; [|simpl in Hl; lia]|].
  cbn [open_loop]. destruct (span_segment (skip_seps p)) as [s q] eqn:E.
  destruct (next_segment p s q E) as [[-> Hs]|(H1 & H2 & H3 & Hs & Hlt)].
  - rewrite (proj2 (skip_seps_nil p) Hs). by rewrite Hs.
  - destruct (skip_seps p) as [|c p'] eqn:Ep; [by injection E as <- <-|]. rewrite E, Hs. cbn [open_names].
    destruct (skip_seps q) as [|c' q'] eqn:Eq.
    + by rewrite (proj1 (skip_seps_nil q) Eq).
    + destruct (segs q) as [|m ms] eqn:Em; [by rewrite (proj2 (skip_seps_nil q) Em) in Eq|].
      rewrite <- Em. fold dir_flags. destruct (do_openat env d s dir_flags w) as [[j|] w']; [|done].
      destruct (skip_seps_spec q) as (Hq & Hl' & _). rewrite Eq in Hq, Hl'. rewrite <- Hq. apply IH. lia.
Qed.

(** ** Descriptors *)

Lemma open_last_fds n d fl w :
  (0 < w_fds w)%nat ->
  match open_last n d fl w with
  | (inr _, w') => w_fds w' = w_fds w
  | (inl _, w') => S (w_fds w') = w_fds w
  end.
Proof.
  intros Hw. unfold open_last, do_openat, opened, path_validate_opened_sandbox_file_fd, do_fstat.
  destruct (openat _ _ _ _) as [f' [i|]]; simpl; [|lia].
  destruct (fstat _ _) as [[st|]|]; simpl; [destruct (1 <? st); simpl; lia|lia|lia].
Qed.

Lemma open_names_fds ns d fl w :
  (0 < w_fds w)%nat ->
  match open_names ns d fl w with
  | (inr _, w') => w_fds w' = w_fds w
  | (inl _, w') => S (w_fds w') = w_fds w
  end.
Proof.
  revert d w. induction ns as [|n ns IH]; intros d w Hw; [simpl; lia|]. cbn [open_names].
  destruct ns as [|m ns]; [by apply open_last_fds|].
  unfold do_openat, opened. destruct (openat _ _ _ _) as [f' [i|]]; simpl fst; simpl snd; [|simpl; lia].
  exact (IH i (close (mkWorld f' (S (w_now w)) (S (w_fds w)))) Hw).
Qed.

(** ** One step never follows a link *)

Lemma file_flags_nofollow fl : flag_set (file_flags fl) O_NOFOLLOW = true.
Proof.
  unfold flag_set, file_flags. apply negb_true_iff, Z.eqb_neq. intros E.
  assert (Z.testbit (Z.land (Z.lor (Z.lor fl O_NOFOLLOW) O_CLOEXEC) O_NOFOLLOW) 17 = false) as H by (by rewrite E).
  rewrite Z.land_spec, !Z.lor_spec in H. change (Z.testbit O_NOFOLLOW 17) with true in H.
  by rewrite orb_true_r in H.
Qed.

Lemma open_node_spec f fl i j : open_node f fl i = Some j -> j = i /\ is_link f i = false.
Proof.
  unfold open_node, is_link. destruct (nodes f !! i) as [[p es|st|t]|]; try done.
  - by destruct (for_writing fl || flag_set fl O_CREAT); intros [= <-].
  - by destruct (flag_set fl O_DIRECTORY); intros [= <-].
Qed.

Lemma openat_nofollow f d n fl f' i :
  flag_set fl O_NOFOLLOW = true -> n <> dotdot -> openat f d n fl = (f', Some i) ->
  (f' = f /\ (i = d \/ (entry f d n = Some i /\ is_link f i = false))) \/
  (flag_set fl O_CREAT = true /\ create_file f d n = (f', Some i)).
Proof.
  intros Hnf Hn. unfold openat. destruct (negb (is_dir f d) || bool_decide (n = [])); [done|].
  rewrite (bool_decide_eq_false_2 (n = dotdot)) by done.
  destruct (if bool_decide (n = dot) then Some d else entry f d n) as [j|] eqn:Ef.
  - destruct (flag_set fl O_CREAT && flag_set fl O_EXCL); [done|]. intros E. left.
    assert (f' = f /\ open_node f fl j = Some i) as [-> Ho].
    { destruct (nodes f !! j) as [[]|]; try by injection E as <- ->. by rewrite Hnf in E. }
    split; [done|]. apply open_node_spec in Ho as [-> Hl]. case_bool_decide; [left; congruence|by right].
  - destruct (flag_set fl O_CREAT); [|done]. simpl. destruct (negb (flag_set fl O_DIRECTORY)); [|done]. by right.
Qed.
End Opening.

(** ** Interference *)

Section Confinement.
Context (env : nat -> fs -> fs) (inside : inode -> Prop) (ok : fs -> Prop).

(** Every name of a directory inside that is not a link is inside. *)
Definition closed (f : fs) : Prop :=
  forall d n i, inside d -> entry f d n = Some i -> is_link f i = false -> inside i.

(** The open made the file, in a directory inside. *)
Definition created_inside (i : inode) : Prop :=
  exists f d n, ok f /\ inside d /\ snd (create_file f d n) = Some i.

Context (env_ok : forall t f, ok f -> ok (env t f)) (ok_closed : forall f, ok f -> closed f).

Lemma open_last_safe n d fl w i w' :
  ok (w_fs w) -> inside d -> n <> dotdot -> open_last env n d fl w = (inr i, w') ->
  (inside i \/ created_inside i) /\
  is_Some (nodes (w_fs w') !! i) /\ (forall st_nlink, nodes (w_fs w') !! i = Some (Reg st_nlink) -> st_nlink <= 1).
Proof.
  intros Hok Hd Hn. unfold open_last, do_openat, opened.
  assert (ok (view env w)) as Hv by (by apply env_ok).
  destruct (openat (view env w) d n (file_flags fl)) as [f' [j|]] eqn:E; [|done]. simpl fst; simpl snd.
  cbv zeta iota. set (w1 := close _).
  destruct (path_validate_opened_sandbox_file_fd env j w1) as [[e|] w2] eqn:Ev; [done|]. intros [= -> <-]. split.
  - destruct (openat_nofollow _ d n (file_flags fl) f' i (file_flags_nofollow fl) Hn E) as [[_ [->|[He Hl]]]|[_ Hc]].
    + by left.
    + left. by eapply (ok_closed (view env w)).
    + right. exists (view env w), d, n. by rewrite Hc.
  - unfold path_validate_opened_sandbox_file_fd, do_fstat, fstat in Ev.
    set (f2 := view env w1) in Ev. destruct (nodes f2 !! i) as [[p es|st|t]|] eqn:Ei; simpl in Ev; try done.
    2: destruct (Z.ltb_spec 1 st); [done|].
    all: injection Ev as <-; cbn [w_fs]; rewrite Ei; split; [done|]; intros st' [= <-]; lia.
Qed.

Lemma open_names_safe ns d fl w i w' :
  ok (w_fs w) -> inside d -> Forall (fun n => n <> dotdot) ns -> open_names env ns d fl w = (inr i, w') ->
  (inside i \/ created_inside i) /\
  is_Some (nodes (w_fs w') !! i) /\ (forall st_nlink, nodes (w_fs w') !! i = Some (Reg st_nlink) -> st_nlink <= 1).
Proof.
  revert d w. induction ns as [|n ns IH]; intros d w Hok Hd Hns; [done|]. apply Forall_cons in Hns as [Hn Hns].
  cbn [open_names]. destruct ns as [|m ns]; [by apply open_last_safe|].
  unfold do_openat, opened. assert (ok (view env w)) as Hv by (by apply env_ok).
  destruct (openat (view env w) d n dir_flags) as [f' [j|]] eqn:E; [|done]. simpl fst; simpl snd.
  destruct (openat_nofollow _ d n dir_flags f' j eq_refl Hn E) as [[-> Hj]|[Hc _]]; [|done].
  apply (IH j (close (mkWorld (view env w) _ _))); [done| |done].
  destruct Hj as [->|[He Hl]]; [done|]. by eapply (ok_closed (view env w)).
Qed.

(** What the environment leaves alone: no name has a backslash, the sandbox
    root has the real path [rr], which leads to a directory inside, and the
    inside is closed under names. *)
Definition sandbox_fs (r rr : path) (f : fs) : Prop :=
  names_ok f /\ realpath f r = Some rr /\ closed f /\
  (forall fl d, snd (open f rr fl) = Some d -> inside d).
End Confinement.

(** ** Resolved paths *)

Lemma canonical_cases env p w q w' :
  path_canonical_existing_alloc env p w = (Some q, w') ->
  realpath (view env w) p = Some q /\ w' = mkWorld (view env w) (S (w_now w)) (w_fds w).
Proof. unfold path_canonical_existing_alloc, do_realpath. destruct p; [done|]. by intros [= <- <-]. Qed.

Lemma realpath_canonical f p q :
  names_ok f -> realpath f p = Some q -> exists ns, Forall plain ns /\ q = spell_path ns.
Proof. intros Hf H. destruct (realpath_spec f p q Hf H) as (st & _ & _ & H1 & H2 & _). eauto. Qed.

(** The last name of a joined path. *)
Lemma joined_leaf r u j :
  r <> [] -> u <> [] -> path_sandbox_join_alloc (Some r) (Some u) = inr j ->
  exists y c leaf, j = y ++ c :: leaf /\ path_is_sep c = true /\ plain leaf.
Proof.
  intros Hr Hu E. pose proof (join_cases r u Hr Hu) as H. rewrite E in H.
  destruct H as (_ & names & _ & Hne & Hp & ->). destruct (sandbox_base_spec r Hr) as (_ & y & c & -> & Hc).
  destruct names as [|n names _] using rev_ind; [done|]. apply Forall_app in Hp as [_ Hp].
  apply Forall_cons in Hp as [Hp _]. rewrite join_segments_last. destruct names as [|m names].
  - exists y, c, n. by rewrite <- app_assoc.
  - exists ((y ++ [c]) ++ join_segments slash (m :: names)), slash, n.
    split; [|done]. by rewrite <- !app_assoc.
Qed.

Definition no_climb (p : path) : Prop := Forall (fun n => n <> dotdot) (segs p).

Lemma canonical_no_climb ns : Forall plain ns -> no_climb (spell_path ns).
Proof.
  intros H. unfold no_climb. rewrite segs_spell_path by done. eapply Forall_impl; [exact H|].
  by intros n (_ & _ & _ & Hn).
Qed.

Lemma join_leaf_no_climb p leaf : no_climb p -> plain leaf -> no_climb (join_leaf p leaf).
Proof.
  intros Hp (Hs & Hn & _ & Hd). unfold join_leaf, no_climb in *.
  assert (segs (slash :: leaf) = [leaf] /\ segs leaf = [leaf]) as [H1 H2].
  { rewrite segs_sep by done. rewrite <- (app_nil_r leaf) at 1 3. by rewrite segs_solid. }
  destruct ((0 <? length p)%nat && path_is_sep (nth (length p - 1) p 0)) eqn:E.
  - apply andb_prop in E as [E1 E2]. destruct p as [|c p _] using rev_ind; [done|].
    rewrite length_app in E2. simpl in E2. rewrite Nat.add_sub, app_nth2, Nat.sub_diag in E2 by lia. simpl in E2.
    simpl app. rewrite segs_after_sep, H2 by done. apply Forall_app. split; [done|]. by constructor.
  - simpl app. unfold pick_join_sep. rewrite segs_app by done. rewrite H1. apply Forall_app. split; [done|]. by constructor.
Qed.

(** A resolved path has no [..]. *)
Lemma resolve_no_climb env (ok : fs -> Prop) r u am w p w' :
  (forall t f, ok f -> ok (env t f)) -> (forall f, ok f -> names_ok f) -> ok (w_fs w) ->
  path_sandbox_resolve_alloc env (Some r) (Some u) am w = (inr p, w') -> no_climb p.
Proof.
  intros Henv Hnames Hw. unfold path_sandbox_resolve_alloc.
  destruct (path_sandbox_join_alloc (Some r) (Some u)) as [e|j] eqn:Ej; [done|].
  assert (r <> [] /\ u <> []) as [Hr Hu] by (destruct r, u; done).
  destruct (path_canonical_existing_alloc env _ w) as [[rr|] w1] eqn:E1; [|done].
  apply canonical_cases in E1 as [_ ->].
  assert (ok (view env w)) as H1 by (by apply Henv). set (w1 := mkWorld _ _ _).
  assert (ok (view env w1)) as H2 by (by apply Henv).
  destruct (path_canonical_existing_alloc env j w1) as [[q|] w2] eqn:E2.
  - apply canonical_cases in E2 as [E2 _]. destruct (path_prefix_matches _ _); [|done]. intros [= <- _].
    destruct (realpath_canonical _ _ _ (Hnames _ H2) E2) as (ns & Hns & ->). rewrite trim_canonical by done.
    by apply canonical_no_climb.
  - destruct am; [|done]. simpl. unfold resolve_missing.
    destruct (joined_leaf r u j Hr Hu Ej) as (y & c & leaf & -> & Hc & Hl). rewrite last_sep_spec; [|done|by destruct Hl].
    assert (drop (S (length y)) (y ++ c :: leaf) = leaf) as ->.
    { change (c :: leaf) with ([c] ++ leaf). rewrite app_assoc. replace (S (length y)) with (length (y ++ [c])).
      - apply drop_app_length.
      - rewrite length_app. simpl. lia. }
    destruct (length leaf =? 0)%nat; [done|].
    assert (w_fs w2 = view env w1) as Ew.
    { revert E2. unfold path_canonical_existing_alloc. destruct (y ++ c :: leaf) eqn:Ey; [by destruct y|].
      by intros [= _ <-]. }
    assert (ok (view env w2)) as H3 by (apply Henv; by rewrite Ew).
    destruct (path_canonical_existing_alloc env _ w2) as [[q|] w3] eqn:E3; [|done].
    apply canonical_cases in E3 as [E3 _]. destruct (path_prefix_matches _ _); [|done]. intros [= <- _].
    destruct (realpath_canonical _ _ _ (Hnames _ H3) E3) as (ns & Hns & ->). rewrite trim_canonical by done.
    apply join_leaf_no_climb; [by apply canonical_no_climb|done].
Qed.

(** ** Opening a resolved path *)

Definition root_flags : Z := Z.lor (Z.lor O_RDONLY O_DIRECTORY) O_CLOEXEC.

(** The open as the loop on the names below the root. *)
Lemma open_resolved_names env rr p fl w :
  path_open_sandbox_resolved_fd env rr p fl w =
    if negb (path_prefix_matches p rr) then (inl "Path escapes sandbox"%string, w)
    else
      match segs (drop (length rr) p) with
      | [] => (inl "Invalid file name"%string, w)
      | ns =>
          let '(dir_fd, w) := do_open env rr root_flags w in
          match dir_fd with
          | None => (inl "Failed to open sandbox root"%string, w)
          | Some d => open_names env ns d fl w
          end
      end.
Proof.
  unfold path_open_sandbox_resolved_fd. destruct (path_prefix_matches p rr); [|done]. cbn [negb].
  set (q := drop (length rr) p). destruct (skip_seps_spec q) as (H & _ & _). rewrite <- H.
  destruct (skip_seps q) as [|c q'] eqn:E; [done|]. fold root_flags.
  destruct (segs (c :: q')) as [|n ns] eqn:Es.
  { by rewrite (proj2 (skip_seps_nil q) (eq_sym H)) in E. }
  rewrite <- Es. destruct (do_open env rr root_flags w) as [[d|] w']; [|done]. by apply open_loop_names.
Qed.

Lemma fopen_fds env b r p m w :
  match path_sandbox_fopen_resolved env b r p m w with
  | (inr _, w') => w_fds w' = S (w_fds w)
  | (inl _, w') => w_fds w' = w_fds w
  end.
Proof.
  unfold path_sandbox_fopen_resolved. destruct r as [[|x r]|], p as [p|], m as [[|y m]|]; try done.
  unfold path_canonical_existing_alloc, do_realpath.
  destruct (realpath _ _) as [rr|]; [|done]. destruct (path_mode_to_open_flags _) as [fl|]; [|done].
  rewrite open_resolved_names. destruct (path_prefix_matches _ _); [|done]. cbn [negb].
  destruct (segs _) as [|n ns]; [done|]. unfold do_open, opened.
  destruct (open _ _ _) as [f' [d|]]; simpl fst; simpl snd; [|done].
  cbv iota. set (w2 := mkWorld f' _ _). pose proof (open_names_fds env (n :: ns) d fl w2 ltac:(simpl; lia)) as H.
  destruct (open_names _ _ _ _ _) as [[e|i] w3]; simpl in *; [lia|]. destruct b; simpl; lia.
Qed.

Lemma fopen_safe env (inside : inode -> Prop) (ok : fs -> Prop) b r rr p m w i w' :
  (forall t f, ok f -> ok (env t f)) -> (forall f, ok f -> sandbox_fs inside r rr f) -> ok (w_fs w) -> no_climb p ->
  path_sandbox_fopen_resolved env b (Some r) (Some p) (Some m) w = (inr i, w') ->
  (inside i \/ created_inside inside ok i) /\
  is_Some (nodes (w_fs w') !! i) /\ (forall st_nlink, nodes (w_fs w') !! i = Some (Reg st_nlink) -> st_nlink <= 1).
Proof.
  intros Henv Hok Hw Hp. unfold path_sandbox_fopen_resolved. destruct r as [|x r], m as [|y m]; try done.
  assert (ok (view env w)) as H1 by (by apply Henv). destruct (Hok _ H1) as (Hn & Er & Hc & _).
  unfold path_canonical_existing_alloc, do_realpath. rewrite Er. set (w1 := mkWorld _ _ _).
  destruct (path_mode_to_open_flags _) as [fl|]; [|done].
  destruct (realpath_canonical _ _ _ Hn Er) as (rs & Hrs & Err). rewrite Err, trim_canonical, <- Err by done.
  rewrite open_resolved_names. destruct (path_prefix_matches p rr) eqn:Em; [|done]. cbn [negb].
  destruct (prefix_matches_spec _ _ Em) as (q & -> & Hq). rewrite drop_app_length.
  assert (no_climb q) as Hnq by (unfold no_climb in Hp; rewrite segs_app in Hp by done; by apply Forall_app in Hp as [_ ?]).
  unfold no_climb in Hnq. destruct (segs q) as [|n ns]; [done|]. unfold do_open, opened.
  assert (ok (view env w1)) as H2 by (by apply Henv).
  destruct (open (view env w1) rr root_flags) as [f' [d|]] eqn:Eo; simpl fst; simpl snd; [|done].
  assert (f' = view env w1) as -> by (unfold open in Eo; by destruct rr; injection Eo).
  assert (inside d) as Hd.
  { destruct (Hok _ H2) as (_ & _ & _ & H). apply (H root_flags). by rewrite Eo. }
  cbv iota. set (w2 := mkWorld (view env w1) _ _).
  destruct (open_names env (n :: ns) d fl w2) as [[e|j] w3] eqn:En; [done|]. destruct b; [|done]. intros [= -> ->].
  assert (forall f, ok f -> closed inside f) as Hcl by (intros f Hf; apply (Hok f Hf)).
  exact (open_names_safe env inside ok Henv Hcl (n :: ns) d fl w2 i w' H2 Hd Hnq En).
Qed.


(** ** Without interference *)

Definition still (t : nat) (f : fs) : fs := f.

(** The file a path names, links followed. *)
Definition path_inode (f : fs) (p : path) : option inode :=
  match walk MAXSYMLINKS f ((if absolute p then [] else cwd f) ++ components p) [] with
  | Some st => Some (here f st)
  | None => None
  end.

Lemma realpath_inode f p q :
  names_ok f -> realpath f p = Some q ->
  exists ns i, Forall plain ns /\ q = spell_path ns /\ path_inode f p = Some i /\ descend f (root f) ns = Some i.
Proof.
  intros Hf H. destruct (realpath_spec f p q Hf H) as (st & _ & Hw & Hp & -> & Hd).
  exists (reverse (map fst st)), (here f st). unfold path_inode. by rewrite Hw.
Qed.

Lemma flag_set_file fl flag :
  Z.land O_NOFOLLOW flag = 0 -> Z.land O_CLOEXEC flag = 0 -> flag_set (file_flags fl) flag = flag_set fl flag.
Proof. intros H1 H2. unfold flag_set, file_flags. by rewrite !Z.land_lor_distr_l, H1, H2, !Z.lor_0_r. Qed.

Lemma mode_no_directory m fl : path_mode_to_open_flags m = Some fl -> flag_set fl O_DIRECTORY = false.
Proof.
  unfold path_mode_to_open_flags. destruct m as [|c m]; [done|].
  destruct (mode_suffix m false false) as [[plus ex]|]; [|done].
  destruct (c =? 114), (c =? 119), (c =? 97), plus, ex; by intros [= <-].
Qed.

Lemma openat_entry f d n i fl :
  plain n -> entry f d n = Some i -> is_link f i = false -> flag_set fl O_CREAT && flag_set fl O_EXCL = false ->
  openat f d n fl = (f, open_node f fl i).
Proof.
  intros (_ & H1 & H2 & H3) E Hl Hx. unfold openat. rewrite (entry_is_dir f d n i E).
  rewrite !bool_decide_eq_false_2 by done. simpl. rewrite E, Hx. unfold is_link in Hl.
  by destruct (nodes f !! i) as [[]|].
Qed.

Lemma open_names_still f ns d fl w i k :
  w_fs w = f -> Forall plain ns -> ns <> [] -> descend f d ns = Some i -> nodes f !! i = Some (Reg k) -> k <= 1 ->
  flag_set fl O_CREAT && flag_set fl O_EXCL = false -> flag_set fl O_DIRECTORY = false ->
  exists w', open_names still ns d fl w = (inr i, w').
Proof.
  intros Hw Hp Hn Hd Hi Hk Hx Hdir. revert d w Hw Hd. induction ns as [|n ns IH]; intros d w Hw Hd; [done|].
  apply Forall_cons in Hp as [Hpn Hp]. simpl in Hd. destruct (entry f d n) as [j|] eqn:E; [|done].
  destruct (is_link f j) eqn:Hl; [done|]. cbn [open_names]. destruct ns as [|m ns].
  - injection Hd as ->. unfold open_last, do_openat, opened. change (view still w) with (w_fs w). rewrite Hw.
    rewrite (openat_entry f d n i); [|done|done|done|by rewrite !flag_set_file].
    unfold open_node. rewrite Hi, flag_set_file, Hdir by done. simpl fst; simpl snd. cbv iota zeta.
    unfold path_validate_opened_sandbox_file_fd, do_fstat, fstat, view, still. simpl. rewrite Hi.
    destruct (Z.ltb_spec 1 k); [lia|]. by eexists.
  - unfold do_openat, opened. change (view still w) with (w_fs w). rewrite Hw.
    rewrite (openat_entry f d n j) by done.
    assert (open_node f dir_flags j = Some j) as ->.
    { simpl in Hd. unfold open_node. destruct (entry f j m) as [j'|] eqn:Ej; [|done]. unfold entry in Ej.
      by destruct (nodes f !! j) as [[]|]. }
    simpl fst; simpl snd. cbv iota. by apply IH.
Qed.

(** Opening the real path of a directory gives that directory. *)
Lemma open_canonical f rs d :
  Forall plain rs -> descend f (root f) rs = Some d -> is_dir f d = true ->
  open f (spell_path rs) root_flags = (f, Some d).
Proof.
  intros Hp Hd Hdir. assert (is_Some (nodes f !! d)) as Hs.
  { unfold is_dir in Hdir. by destruct (nodes f !! d). }
  assert (open_node f root_flags d = Some d) as Ho.
  { unfold open_node. unfold is_dir in Hdir. by destruct (nodes f !! d) as [[]|]. }
  unfold open. destruct rs as [|n rs].
  - injection Hd as <-. cbn [spell_path].
    assert (namei MAXSYMLINKS f ((if absolute [slash] then [] else cwd f) ++ components [slash]) (root f) = Some (root f)) as ->.
    { change (namei MAXSYMLINKS f [[]; []] (root f) = Some (root f)). unfold MAXSYMLINKS. cbn [namei]. by rewrite Hdir. }
    simpl. by rewrite Ho.
  - cbn [spell_path]. rewrite components_spell by done. change (spell (n :: rs)) with (slash :: n ++ spell rs).
    cbn [absolute]. rewrite Z.eqb_refl. cbn [app].
    assert (is_dir f (root f) = true) as Hroot.
    { simpl in Hd. destruct (entry f (root f) n) eqn:E; [|done]. by eapply entry_is_dir. }
    pose proof (namei_descend MAXSYMLINKS f (n :: rs) (root f) d Hp Hd Hs) as Hn.
    assert (namei MAXSYMLINKS f ([] :: n :: rs) (root f) = Some d) as ->.
    { rewrite <- Hn. unfold MAXSYMLINKS. cbn [namei]. by rewrite Hroot. }
    simpl. by rewrite Ho.
Qed.


(** C34: A joined path is the sandbox root followed by the names the user path
    means: walking down and up its segments ends at those names and never
    above the start. The names have no separators and are not [.] or [..];
    paths that are absolute, climb above the start or mean the start itself
    are rejected, each with its own message. *)
Theorem path_join_lexical (r u : path) :
  r <> [] -> u <> [] ->
  match path_sandbox_join_alloc (Some r) (Some u) with
  | inr p => absolute u = false /\ exists names, lexical (segs u) names /\ names <> [] /\ Forall plain names /\
      p = sandbox_base r ++ join_segments slash names /\ segs p = segs r ++ names
  | inl e => (absolute u = true /\ e = "Absolute paths are not allowed"%string) \/
      (absolute u = false /\ (forall names, ~ lexical (segs u) names) /\ e = "Path escapes sandbox"%string) \/
      (absolute u = false /\ lexical (segs u) [] /\ e = "Path resolves to empty"%string)
  end.
Proof.
  intros Hr Hu. pose proof (join_cases r u Hr Hu) as H. destruct (path_sandbox_join_alloc _ _) as [e|p]; [done|].
  destruct H as (Ha & names & Hl & Hn & Hp & ->). split; [done|]. exists names. do 4 (split; [done|]).
  destruct (sandbox_base_spec r Hr) as (<- & y & c & -> & Hc). rewrite segs_after_sep by done. by rewrite segs_join.
Qed.

(** *** Witnesses *)

Definition text (s : string) : path := map (fun a => Z.of_nat (Ascii.nat_of_ascii a)) (list_ascii_of_string s).
Definition directory (parent : inode) (es : list (string * inode)) : node :=
  Dir parent (list_to_map (map (fun e => (text (fst e), snd e)) es)).

(** [/secret] and the sandbox with [d/f] and a link to it. *)
Definition demo_fs : fs :=
  mkFs (list_to_map [(1%positive, directory 1 [("sandbox"%string, 2%positive); ("secret"%string, 3%positive)]);
                     (2%positive, directory 1 [("d"%string, 4%positive); ("l"%string, 6%positive)]);
                     (3%positive, Reg 1); (4%positive, directory 2 [("f"%string, 5%positive)]); (5%positive, Reg 1);
                     (6%positive, Link (text "d/f"))]) 1 [].
(** Another process has replaced the link by one to the file outside. *)
Definition demo_fs_changed : fs :=
  mkFs (<[6%positive := Link (text "/secret")]> (nodes demo_fs)) 1 [].
Definition demo_world (f : fs) : world := mkWorld f 0 0.

Definition plainb (n : name) : bool :=
  forallb (fun c => negb (path_is_sep c)) n && negb (bool_decide (n = [])) && negb (bool_decide (n = dot)) &&
  negb (bool_decide (n = dotdot)).
Definition names_okb (f : fs) : bool :=
  forallb (fun d => match snd d with Dir _ es => forallb (fun e => plainb (fst e)) (map_to_list es) | _ => true end)
    (map_to_list (nodes f)).

Lemma names_okb_spec f : names_okb f = true -> names_ok f.
Proof.
  intros H d n i E. unfold names_okb in H. rewrite forallb_forall in H. unfold entry in E.
  destruct (nodes f !! d) as [[p es|k|t]|] eqn:Ed; try done.
  assert (In (d, Dir p es) (map_to_list (nodes f))) as Hin by (by apply list_elem_of_In, elem_of_map_to_list).
  specialize (H _ Hin). simpl in H. rewrite forallb_forall in H.
  assert (In (n, i) (map_to_list es)) as Hin2 by (by apply list_elem_of_In, elem_of_map_to_list).
  specialize (H _ Hin2). simpl in H. unfold plainb in H.
  apply andb_prop in H as [H H4]. apply andb_prop in H as [H H3]. apply andb_prop in H as [H1 H2].
  apply negb_true_iff, bool_decide_eq_false in H2, H3, H4. split; [|done].
  apply Forall_forall. intros c Hc. rewrite forallb_forall in H1. apply negb_true_iff, H1. by apply list_elem_of_In.
Qed.

Lemma path_join_lexical_witness :
  path_sandbox_join_alloc (Some (text "/sandbox/")) (Some (text "./x/..//l")) = inr (text "/sandbox/l") /\
  text "/sandbox/" <> [] /\
  match path_sandbox_join_alloc (Some (text "/sandbox/")) (Some (text "x/../../l")) with
  | inr p => absolute (text "x/../../l") = false /\ exists names, lexical (segs (text "x/../../l")) names /\ names <> [] /\
      Forall plain names /\ p = sandbox_base (text "/sandbox/") ++ join_segments slash names /\
      segs p = segs (text "/sandbox/") ++ names
  | inl e => (absolute (text "x/../../l") = true /\ e = "Absolute paths are not allowed"%string) \/
      (absolute (text "x/../../l") = false /\ (forall names, ~ lexical (segs (text "x/../../l")) names) /\
       e = "Path escapes sandbox"%string) \/
      (absolute (text "x/../../l") = false /\ lexical (segs (text "x/../../l")) [] /\ e = "Path resolves to empty"%string)
  end.
Proof. split; [reflexivity|]. split; [discriminate|]. apply path_join_lexical; discriminate. Defined.


Lemma demo_open f rr d0 fl d :
  namei MAXSYMLINKS f ((if absolute rr then [] else cwd f) ++ components rr) (root f) = Some d0 ->
  snd (open f rr fl) = Some d -> d = d0.
Proof. unfold open. intros E. destruct rr as [|c rr]; [done|]. rewrite E. simpl. by intros [-> _]%open_node_spec. Qed.

Definition closedb (inside : list inode) (f : fs) : bool :=
  forallb (fun d => match nodes f !! d with
                    | Some (Dir _ es) => forallb (fun e => is_link f (snd e) || bool_decide (snd e ∈ inside)) (map_to_list es)
                    | _ => true
                    end) inside.

Lemma closedb_spec inside f : closedb inside f = true -> closed (fun i => i ∈ inside) f.
Proof.
  intros H d n i Hd E Hl. unfold closedb in H. rewrite forallb_forall in H.
  apply list_elem_of_In in Hd. specialize (H d Hd). unfold entry in E.
  destruct (nodes f !! d) as [[p es|k|t]|]; try done. rewrite forallb_forall in H.
  assert (In (n, i) (map_to_list es)) as Hin by (by apply list_elem_of_In, elem_of_map_to_list).
  specialize (H _ Hin). simpl in H. rewrite Hl in H. by apply bool_decide_eq_true in H.
Qed.


(** ** Backslashes *)

(** The sandbox has a file whose name is [a\..\..\secret], a directory [a] and
    a link to the file. *)
Definition backslash_fs : fs :=
  mkFs (list_to_map [(1%positive, directory 1 [("sandbox"%string, 2%positive); ("secret"%string, 3%positive);
                                                ("sandbox\evil"%string, 7%positive)]);
                     (2%positive, directory 1 [("a"%string, 4%positive); ("l"%string, 6%positive);
                                               ("a\..\..\secret"%string, 5%positive); ("m"%string, 8%positive)]);
                     (3%positive, Reg 1); (4%positive, directory 2 []); (5%positive, Reg 1);
                     (6%positive, Link (text "a\..\..\secret")); (7%positive, directory 1 []);
                     (8%positive, Link (text "/sandbox\evil"))]) 1 [].


(** With the file system root as sandbox root nothing resolves but the
    root itself. *)
Theorem sandbox_root_rejects (f : fs) (u p : path) (w w1 : world) :
  names_ok f -> w_fs w = f -> path_sandbox_resolve_alloc still (Some [slash]) (Some u) false w = (inr p, w1) -> p = [slash].
Proof.
  intros Hf Hw. unfold path_sandbox_resolve_alloc. destruct (path_sandbox_join_alloc _ _) as [e|j]; [done|].
  change (default [] (Some [slash])) with [slash].
  destruct (path_canonical_existing_alloc still [slash] w) as [[rr|] w0] eqn:E0; [|done].
  apply canonical_cases in E0 as [Er ->]. change (view still w) with (w_fs w) in *. rewrite Hw in *.
  assert (rr = [slash]) as ->.
  { unfold realpath, MAXSYMLINKS in Er. simpl in Er. destruct (is_dir f (root f)); [|done]. simpl in Er. congruence. }
  destruct (path_canonical_existing_alloc still j _) as [[q|] w2] eqn:E1; [|done].
  apply canonical_cases in E1 as [Eq ->]. change (view still _) with f in *.
  destruct (realpath_canonical f j q Hf Eq) as (ns & Hns & ->). rewrite trim_canonical by done.
  destruct (path_prefix_matches _ _) eqn:Em; [|done]. intros [= <- _]. destruct ns as [|n ns]; [done|].
  exfalso. apply Forall_cons in Hns as [(Hs & Hn & _) _]. destruct n as [|c n]; [done|].
  apply Forall_cons in Hs as [Hc _]. unfold path_prefix_matches in Em. simpl in Em.
  rewrite Hc in Em. done.
Qed.
