(* ===== verification/Operators.v ===== *)
(** * Operators on values: [src/src/vm.c]

    What the arithmetic, comparison, bitwise and conversion instructions
    compute from the values they pop, without the stack. Integers are [int64_t]:
    a signed overflow is undefined in C and has no result here. *)

From S2P Require Import Prelude.
From Stdlib Require Import String SpecFloat.
From S2P Require Import Doubles BigIntObj BigIntText Values.

Open Scope Z_scope.
Open Scope list_scope.

(** ** Arithmetic *)

(** A result of type [int64_t]. *)
Definition c_int64 (x : Z) : option Z := if (INT64_MIN <=? x) && (x <=? INT64_MAX) then Some x else None.

Inductive int_op := IAdd | ISub | IMul | IDiv | IMod | IAnd | IOr | IXor.

Definition int_arith (op : int_op) (a b : Z) : option Z :=
  match op with
  | IAdd => c_int64 (a + b)
  | ISub => c_int64 (a - b)
  | IMul => c_int64 (a * b)
  | IDiv => c_int64 (Z.quot a b)
  | IMod => match c_int64 (Z.quot a b) with Some _ => Some (Z.rem a b) | None => None end
  | IAnd => Some (Z.land a b)
  | IOr => Some (Z.lor a b)
  | IXor => Some (Z.lxor a b)
  end.

(** The message for a zero divisor. *)
Definition zero_error (op : int_op) (b : Z) : option string :=
  match op with
  | IDiv => if b =? 0 then Some "Division by zero"%string else None
  | IMod => if b =? 0 then Some "Modulo by zero"%string else None
  | _ => None
  end.

(** ** Comparison *)

(** The message for a zero divisor. *)
Definition double_zero_error (op : double_op) (b : Z) : option string :=
  match op with
  | DDiv => if double_eq b 0 then Some "Division by zero"%string else None
  | _ => None
  end.

Definition int_compare (op : cmp_op) (a b : Z) : bool :=
  match op with CLt => a <? b | CLe => a <=? b | CGt => b <? a | CGe => b <=? a end.

(** Both operands as big integers, if one of them is one. *)
Definition bigint_from_value (v : Value) : option (option ObjBigInt) :=
  match v with
  | VAL_BIGINT b => Some b
  | VAL_INT i => Some (Some (obj_bigint_from_int64 i))
  | _ => None
  end.

Definition is_bigint (v : Value) : bool := match v with VAL_BIGINT _ => true | _ => false end.
Definition is_double (v : Value) : bool := match v with VAL_DOUBLE _ => true | _ => false end.

Definition vm_compute_comparison_op (op : cmp_op) (a b : Value) : string + bool :=
  if (is_bigint a || is_bigint b) && (is_double a || is_double b) then inl "Cannot mix bigint and double"%string
  else if is_bigint a || is_bigint b then
    match bigint_from_value a, bigint_from_value b with
    | Some (Some x), Some (Some y) => inr (int_compare op (obj_bigint_compare (Some x) (Some y)) 0)
    | _, _ => inl "Operands must be comparable"%string
    end
  else
    match a, b with
    | VAL_INT x, VAL_INT y => inr (int_compare op x y)
    | VAL_DOUBLE x, VAL_DOUBLE y => inr (double_compare op x y)
    | _, _ => inl "Operands must be comparable"%string
    end.

(** [None] where the elements of two tuples have to be compared. *)
Definition value_equals (a b : Value) : option bool :=
  match a, b with
  | VAL_INT x, VAL_BIGINT y => Some (obj_bigint_compare y (Some (obj_bigint_from_int64 x)) =? 0)
  | VAL_BIGINT x, VAL_INT y => Some (obj_bigint_compare x (Some (obj_bigint_from_int64 y)) =? 0)
  | VAL_NIL, VAL_NIL => Some true
  | VAL_INT x, VAL_INT y => Some (x =? y)
  | VAL_BOOL x, VAL_BOOL y => Some (eqb x y)
  | VAL_BIGINT x, VAL_BIGINT y => Some (obj_bigint_compare x y =? 0)
  | VAL_DOUBLE x, VAL_DOUBLE y => Some (double_eq x y)
  | VAL_STRING (Some x), VAL_STRING (Some y) => Some (bool_decide (option_map c_string (chars x) = option_map c_string (chars y)))
  | VAL_BYTES x, VAL_BYTES y | VAL_ARRAY x, VAL_ARRAY y | VAL_RECORD x, VAL_RECORD y => Some (bool_decide (x = y))
  | VAL_TUPLE x, VAL_TUPLE y =>
      if bool_decide (x = y) then Some true else match x, y with Some _, Some _ => None | _, _ => Some false end
  | _, _ => Some false
  end.

(** ** Arithmetic by type *)

(** [OP_ADD], [OP_SUB], [OP_MUL], [OP_DIV]. *)
Inductive gen_op := GAdd | GSub | GMul | GDiv.
Definition gen_int (op : gen_op) : int_op := match op with GAdd => IAdd | GSub => ISub | GMul => IMul | GDiv => IDiv end.
Definition gen_double (op : gen_op) : double_op := match op with GAdd => DAdd | GSub => DSub | GMul => DMul | GDiv => DDiv end.
Definition gen_error (op : gen_op) : string :=
  match op with GAdd => "Operands must be numbers or strings" | _ => "Operands must be numbers" end.

Inductive arith_result :=
  | Computed (v : Value)
  | Failed (message : string)
  | ComputeUndefined
  | ComputeUnmodelled.

Definition int_result (o : option Z) : arith_result :=
  match o with Some r => Computed (VAL_INT r) | None => ComputeUndefined end.
Definition bigint_divided (r : ObjBigInt * bool) : arith_result :=
  if snd r then Failed "Division by zero" else Computed (VAL_BIGINT (Some (fst r))).

(** The characters of a string. *)
Definition string_chars (s : ObjString) : list Z := match chars s with Some cs => cs | None => [] end.
(** A new string with the characters up to the first NUL. *)
Definition new_string (cs : list Z) : Value := VAL_STRING (Some (mkStr UINT32_MAX (Some (c_string cs)))).

Definition string_limit_error : string := "String length exceeds maximum allowed".
(** The sum of the lengths is an [int]. *)
Definition concat_strings (max_string_length : Z) (a b : ObjString) : arith_result :=
  let len := Z.of_nat (length (string_chars a)) + Z.of_nat (length (string_chars b)) in
  if INT_MAX <? len then ComputeUndefined
  else if max_string_length <? len then Failed string_limit_error
  else Computed (new_string (string_chars a ++ string_chars b)).

Definition vm_compute_arithmetic_op (max_string_length : Z) (op : gen_op) (a b : Value) : arith_result :=
  if (is_bigint a || is_bigint b) && (is_double a || is_double b) then Failed "Cannot mix bigint and double"
  else if is_bigint a || is_bigint b then
    match bigint_from_value a, bigint_from_value b with
    | Some (Some x), Some (Some y) =>
        match op with
        | GAdd => Computed (VAL_BIGINT (Some (obj_bigint_add (Some x) (Some y))))
        | GSub => Computed (VAL_BIGINT (Some (obj_bigint_sub (Some x) (Some y))))
        | GMul => Computed (VAL_BIGINT (Some (obj_bigint_mul (Some x) (Some y))))
        | GDiv => bigint_divided (obj_bigint_div (Some x) (Some y))
        end
    | _, _ => Failed (gen_error op)
    end
  else
    match a, b with
    | VAL_INT x, VAL_INT y =>
        match zero_error (gen_int op) y with Some m => Failed m | None => int_result (int_arith (gen_int op) x y) end
    | VAL_DOUBLE x, VAL_DOUBLE y =>
        match double_zero_error (gen_double op) y with
        | Some m => Failed m
        | None => Computed (VAL_DOUBLE (double_arith (gen_double op) x y))
        end
    | VAL_STRING x, VAL_STRING y =>
        match op with
        | GAdd => match x, y with Some x, Some y => concat_strings max_string_length x y | _, _ => ComputeUndefined end
        | _ => Failed (gen_error op)
        end
    | _, _ => Failed (gen_error op)
    end.

(** [OP_MOD]. *)
Definition compute_mod (a b : Value) : arith_result :=
  if (is_bigint a || is_bigint b) && (is_double a || is_double b) then Failed "Cannot mix bigint and double"
  else if is_bigint a || is_bigint b then
    match bigint_from_value a, bigint_from_value b with
    | Some (Some x), Some (Some y) => bigint_divided (obj_bigint_mod (Some x) (Some y))
    | _, _ => Failed "Operands must be integers"
    end
  else
    match a, b with
    | VAL_INT x, VAL_INT y => if y =? 0 then Failed "Division by zero" else int_result (int_arith IMod x y)
    | _, _ => Failed "Operands must be integers"
    end.

(** [OP_BIT_AND], [OP_BIT_OR], [OP_BIT_XOR]. *)
Inductive bit_op := BAnd | BOr | BXor.
Definition bit_bigint (op : bit_op) : option ObjBigInt -> option ObjBigInt -> ObjBigInt :=
  match op with BAnd => obj_bigint_bit_and | BOr => obj_bigint_bit_or | BXor => obj_bigint_bit_xor end.
Definition bit_int (op : bit_op) : Z -> Z -> Z := match op with BAnd => Z.land | BOr => Z.lor | BXor => Z.lxor end.
Definition compute_bits (op : bit_op) (a b : Value) : arith_result :=
  if is_bigint a || is_bigint b then
    match bigint_from_value a, bigint_from_value b with
    | Some (Some x), Some (Some y) => Computed (VAL_BIGINT (Some (bit_bigint op (Some x) (Some y))))
    | _, _ => Failed "Operands must be int/bigint for bitwise operation"
    end
  else
    match a, b with
    | VAL_INT x, VAL_INT y => Computed (VAL_INT (bit_int op x y))
    | _, _ => Failed "Operands must be int/bigint for bitwise operation"
    end.

(** [OP_NEG], [OP_BIT_NOT]. *)
Definition compute_neg (a : Value) : arith_result :=
  match a with
  | VAL_INT x => int_result (c_int64 (- x))
  | VAL_BIGINT x => Computed (VAL_BIGINT (Some (obj_bigint_negate x)))
  | VAL_DOUBLE x => Computed (VAL_DOUBLE (double_neg x))
  | _ => Failed "Operand must be a number"
  end.
Definition compute_bit_not (a : Value) : arith_result :=
  match a with
  | VAL_INT x => Computed (VAL_INT (Z.lnot x))
  | VAL_BIGINT x => Computed (VAL_BIGINT (Some (obj_bigint_bit_not x)))
  | _ => Failed "Operand must be int/bigint for bitwise not"
  end.


(** ** Conversions *)

(** [strtoll] in base 10 or 16 on a whole text: spaces, a sign, digits. A text
    with anything else, or a value outside [int64_t], gives 0 here. *)
Definition isspace (c : Z) : bool := (c =? 32) || ((9 <=? c) && (c <=? 13)).
Fixpoint skip_spaces (s : list Z) : list Z :=
  match s with c :: s' => if isspace c then skip_spaces s' else s | [] => [] end.
Definition hex_prefix (s : list Z) : bool :=
  match s with c :: x :: _ => (c =? c_0) && ((x =? c_x) || (x =? c_X)) | _ => false end.
Fixpoint digits_value (base acc : Z) (s : list Z) : option Z :=
  match s with
  | [] => Some acc
  | c :: s' =>
      let d := bigint_hex_digit_value c in
      if (0 <=? d) && (d <? base) then digits_value base (acc * base + d) s' else None
  end.
Definition strtoll_all (base : Z) (s : list Z) : Z :=
  let s := skip_spaces s in
  let '(negative, s) := match s with c :: s' => if c =? c_minus then (true, s') else if c =? c_plus then (false, s') else (false, s) | [] => (false, []) end in
  let s := if (base =? 16) && hex_prefix s && negb (bool_decide (drop 2 s = [])) then drop 2 s else s in
  match digits_value base 0 s with
  | None => 0
  | Some n => match c_int64 (if negative then - n else n) with Some r => r | None => 0 end
  end.

Definition text_base (s : list Z) : Z :=
  match s with
  | c :: s' => if hex_prefix s || (((c =? c_plus) || (c =? c_minus)) && hex_prefix s') then 16 else 10
  | [] => 10
  end.
Definition string_object_chars (s : option ObjString) : list Z := match s with Some s => c_string (string_chars s) | None => [] end.

(** [OP_CAST_INT]. The comparisons are with [(double)INT64_MAX], which is
    2{^63}, and [(double)INT64_MIN]. *)
Definition compute_cast_int (a : Value) : arith_result :=
  match a with
  | VAL_INT x => Computed (VAL_INT x)
  | VAL_BOOL x => Computed (VAL_INT (if x then 1 else 0))
  | VAL_BIGINT x =>
      Computed (VAL_INT (match obj_bigint_to_int64 x with
                         | Some out => out
                         | None => match x with Some b => if sign b <? 0 then INT64_MIN else INT64_MAX | None => INT64_MAX end
                         end))
  | VAL_DOUBLE d =>
      if double_isnan d || double_isinf d then Computed (VAL_INT 0)
      else if double_compare CGt d (double_of_int INT64_MAX) then Computed (VAL_INT INT64_MAX)
      else if double_compare CLt d (double_of_int INT64_MIN) then Computed (VAL_INT INT64_MIN)
      else int_result (c_int64 (double_trunc d))
  | VAL_STRING s => let s := string_object_chars s in Computed (VAL_INT (strtoll_all (text_base s) s))
  | _ => Computed (VAL_INT 0)
  end.

Definition text_true : list Z := [116; 114; 117; 101].
Definition text_false : list Z := [102; 97; 108; 115; 101].
Definition compute_cast_bool (a : Value) : arith_result :=
  Computed (VAL_BOOL (match a with
    | VAL_BOOL x => x
    | VAL_INT x => negb (x =? 0)
    | VAL_BIGINT x => match x with Some b => negb (sign b =? 0) | None => false end
    | VAL_DOUBLE d => if double_isnan d then false else negb (double_eq d 0)
    | VAL_STRING s => bool_decide (string_object_chars s = text_true) || bool_decide (string_object_chars s = [c_0 + 1])
    | _ => false
    end)).

(** [obj_bigint_to_double] of [bigint.c]: the limbs from the most significant
    one. *)
Definition double_infinity (negative : bool) : Z := bits_of_double (S754_infinity negative).
Fixpoint limbs_to_double (acc : Z) (ms_limbs : list Z) : option Z :=
  match ms_limbs with
  | [] => Some acc
  | l :: rest =>
      let acc := double_arith DAdd (double_arith DMul acc (double_of_int (2 ^ 32))) (double_of_int l) in
      if double_isinf acc then None else limbs_to_double acc rest
  end.
Definition obj_bigint_to_double (b : option ObjBigInt) : Z :=
  match b with
  | None => 0
  | Some b =>
      if bool_decide (limbs b = []) || (sign b =? 0) then 0
      else
        match limbs_to_double 0 (rev (limbs b)) with
        | None => double_infinity (sign b <? 0)
        | Some acc => if sign b <? 0 then double_neg acc else acc
        end
  end.

(** [OP_CAST_DOUBLE]; [strtod] is not modelled. *)
Definition compute_cast_double (a : Value) : arith_result :=
  match a with
  | VAL_INT x => Computed (VAL_DOUBLE (double_of_int x))
  | VAL_BOOL x => Computed (VAL_DOUBLE (if x then double_one else 0))
  | VAL_BIGINT x => let d := obj_bigint_to_double x in Computed (VAL_DOUBLE (if double_isnan d then 0 else d))
  | VAL_DOUBLE d => Computed (VAL_DOUBLE d)
  | VAL_STRING _ => ComputeUnmodelled
  | _ => Computed (VAL_DOUBLE 0)
  end.

(** [%lld] for an [int64_t]. *)
Definition fmt_lld (n : Z) : list Z := if n <? 0 then c_minus :: udigits 20 (- n) else udigits 20 n.
(** [OP_CAST_STRING]; the conversion [%g] of doubles is not modelled. *)
Definition compute_cast_string (a : Value) : arith_result :=
  match a with
  | VAL_STRING s => Computed (VAL_STRING s)
  | VAL_INT x => Computed (new_string (fmt_lld x))
  | VAL_BOOL x => Computed (new_string (if x then text_true else text_false))
  | VAL_BIGINT x => Computed (new_string (obj_bigint_to_string x))
  | VAL_DOUBLE _ => ComputeUnmodelled
  | VAL_NIL => Computed (new_string [110; 105; 108])
  | _ => Computed (new_string [60; 117; 110; 107; 110; 111; 119; 110; 62])
  end.

(** [%.0f]: the nearest integer, the even one of two, with the sign of the
    double. *)
Definition nearest_even (m : positive) (e : Z) : Z :=
  if 0 <=? e then Z.shiftl (Zpos m) e
  else
    let q := Z.shiftr (Zpos m) (- e) in
    let r := Zpos m - Z.shiftl q (- e) in
    match 2 * r ?= 2 ^ (- e) with Lt => q | Gt => q + 1 | Eq => if Z.even q then q else q + 1 end.
Definition fmt_0f (d : Z) : list Z :=
  match double_of_bits d with
  | S754_finite s m e => (if s then [c_minus] else []) ++ udigits 310 (nearest_even m e)
  | S754_zero s => (if s then [c_minus] else []) ++ [c_0]
  | _ => []
  end.
(** [snprintf] into a buffer of [size] bytes. *)
Definition snprintf (size : nat) (text : list Z) : list Z := take (size - 1) text.

(** [OP_CAST_BIGINT]. *)
Definition compute_cast_bigint (a : Value) : arith_result :=
  match a with
  | VAL_BIGINT x => Computed (VAL_BIGINT x)
  | VAL_BOOL x => Computed (VAL_BIGINT (Some (obj_bigint_from_int64 (if x then 1 else 0))))
  | VAL_INT x => Computed (VAL_BIGINT (Some (obj_bigint_from_int64 x)))
  | VAL_DOUBLE d =>
      Computed (VAL_BIGINT (Some (if double_isnan d || double_isinf d then obj_bigint_from_int64 0
                                  else obj_bigint_from_string (snprintf 128 (fmt_0f d)))))
  | VAL_STRING s =>
      Computed (VAL_BIGINT (Some (obj_bigint_from_string (string_object_chars s))))
  | _ => Computed (VAL_BIGINT (Some (obj_bigint_from_int64 0)))
  end.

(** The reciprocal of [OP_RECIP_INT_TO_DOUBLE]. *)
Definition recip_int (x : Z) : arith_result :=
  if x =? 0 then Failed "Division by zero"
  else Computed (VAL_DOUBLE (double_arith DDiv double_one (double_of_int x))).
