(* ===== verification/Machine.v ===== *)
(** * The interpreter on scalar code: [vm_run_loop] of [src/src/vm.c]

    One call of a function without captures, from the frame that
    [vm_enter_sync_function_from_call] builds to its [OP_RET]. The fragment has
    the stack, local and constant instructions, the typed arithmetic on
    integers and doubles in its five operand forms, the arithmetic that looks
    at the types of its operands, comparisons, logic and jumps; the other
    opcodes are [Unmodelled]. There is no debugger and there are no
    asynchronous tasks.

    A signed overflow is undefined in C, and so is a read outside the stack:
    both are the outcome [Undefined]. Doubles are their bits, with the IEEE
    operations of the Standard Library; a result that is not a number is the
    quiet NaN, as no instruction tells NaNs apart. Reference counts of the values on
    the stack are not part of this state, and a string constant stands for its
    object in the string pool. *)

From S2P Require Import Prelude.
From Stdlib Require Import String SpecFloat.
From S2P Require Import Doubles BigIntObj BigIntText Values Bytecode Operators.

Open Scope Z_scope.
Open Scope list_scope.

(** ** Opcodes *)

Inductive OpCode :=
  | OP_NOP | OP_CONST | OP_CONST16 | OP_LOAD_LOCAL | OP_STORE_LOCAL | OP_ADD_LOCAL_CONST | OP_SUB_LOCAL_CONST
  | OP_ADD2_LOCAL_CONST | OP_NEGATE_LOCAL | OP_LOAD_GLOBAL | OP_LOAD_GLOBAL16 | OP_STORE_GLOBAL
  | OP_STORE_GLOBAL16 | OP_ADD | OP_SUB | OP_MUL | OP_DIV | OP_MOD | OP_NEG | OP_EQ | OP_NE | OP_LT | OP_LE
  | OP_GT | OP_GE | OP_NOT | OP_AND | OP_OR | OP_BIT_NOT | OP_BIT_AND | OP_BIT_OR | OP_BIT_XOR | OP_JUMP
  | OP_JUMP_IF_FALSE | OP_CALL | OP_CALL_GLOBAL | OP_CALL_GLOBAL16 | OP_DEFER | OP_DEFER_HAS | OP_DEFER_CALL
  | OP_AWAIT | OP_RET | OP_ARRAY_NEW | OP_ARRAY_GET | OP_ARRAY_SET | OP_ARRAY_LEN | OP_ARRAY_PUSH
  | OP_ARRAY_POP | OP_STRING_LEN | OP_STRING_CONCAT | OP_TYPEOF | OP_CAST_INT | OP_CAST_BOOL | OP_CAST_DOUBLE
  | OP_CAST_STRING | OP_CAST_BIGINT | OP_PRINT | OP_PRINTLN | OP_POP | OP_DUP | OP_TRY | OP_THROW | OP_CATCH
  | OP_RECORD_NEW | OP_RECORD_SET_FIELD | OP_RECORD_GET_FIELD | OP_TUPLE_NEW | OP_TUPLE_GET | OP_TUPLE_SET
  | OP_MAP_NEW | OP_MAP_SET | OP_MAP_GET | OP_MAP_HAS | OP_MAP_DELETE | OP_MAP_KEYS | OP_MAP_VALUES
  | OP_SET_NEW | OP_SET_ADD | OP_SET_HAS | OP_SET_REMOVE | OP_SET_TO_ARRAY | OP_ADD_LOCAL_DIV_LOCALS
  | OP_JUMP_IF_LOCAL_LT | OP_JUMP_IF_LOCAL_LE | OP_JUMP_IF_LOCAL_GT | OP_JUMP_IF_LOCAL_GE
  | OP_JUMP_IF_LOCAL_LT_CONST | OP_JUMP_IF_LOCAL_LE_CONST | OP_JUMP_IF_LOCAL_GT_CONST
  | OP_JUMP_IF_LOCAL_GE_CONST | OP_JUMP_IF_FALSE_POP | OP_JUMP_IF_STACK_LT_LOCAL | OP_JUMP_IF_STACK_LE_LOCAL
  | OP_JUMP_IF_STACK_GT_LOCAL | OP_JUMP_IF_STACK_GE_LOCAL | OP_JUMP_IF_STACK_LT_CONST
  | OP_JUMP_IF_STACK_LE_CONST | OP_JUMP_IF_STACK_GT_CONST | OP_JUMP_IF_STACK_GE_CONST | OP_ARRAY_GET_LOCAL
  | OP_ARRAY_GET_LOCAL_CONST | OP_ARRAY_GET_LOCAL_LOCAL | OP_ARRAY_SET_LOCAL | OP_ARRAY_SET_LOCAL_CONST
  | OP_ARRAY_SET_LOCAL_LOCAL | OP_ARRAY_COPY | OP_ARRAY_COPY_LOCAL_LOCAL | OP_ARRAY_REVERSE_PREFIX
  | OP_ARRAY_REVERSE_PREFIX_LOCAL_LOCAL | OP_ARRAY_ROTATE_PREFIX_LEFT
  | OP_ARRAY_ROTATE_PREFIX_LEFT_LOCAL_LOCAL | OP_ARRAY_ROTATE_PREFIX_RIGHT
  | OP_ARRAY_ROTATE_PREFIX_RIGHT_LOCAL_LOCAL | OP_ARRAY_BOUNDS_CHECK_LOCAL_CONST
  | OP_ARRAY_BOUNDS_CHECK_LOCAL_LOCAL | OP_ARRAY_GET_FIELD_LOCAL_CONST | OP_ARRAY_GET_FIELD_LOCAL_LOCAL
  | OP_ARRAY_SET_FIELD_LOCAL_CONST | OP_ARRAY_SET_FIELD_LOCAL_LOCAL | OP_JUMP_IF_ARRAY_FALSE_LOCAL_CONST
  | OP_JUMP_IF_ARRAY_FALSE_LOCAL_LOCAL | OP_SQRT | OP_ADD_INT | OP_SUB_INT | OP_MUL_INT | OP_DIV_INT
  | OP_MOD_INT | OP_NEG_INT | OP_BIT_AND_INT | OP_BIT_OR_INT | OP_BIT_XOR_INT | OP_BIT_NOT_INT | OP_ADD_DOUBLE
  | OP_SUB_DOUBLE | OP_MUL_DOUBLE | OP_DIV_DOUBLE | OP_NEG_DOUBLE | OP_ADD_LOCALS_INT | OP_SUB_LOCALS_INT
  | OP_MUL_LOCALS_INT | OP_DIV_LOCALS_INT | OP_MOD_LOCALS_INT | OP_BIT_AND_LOCALS_INT | OP_BIT_OR_LOCALS_INT
  | OP_BIT_XOR_LOCALS_INT | OP_ADD_LOCALS_DOUBLE | OP_SUB_LOCALS_DOUBLE | OP_MUL_LOCALS_DOUBLE
  | OP_DIV_LOCALS_DOUBLE | OP_MUL_LOCALS_INT_TO_LOCAL | OP_MUL_LOCALS_DOUBLE_TO_LOCAL | OP_SQRT_LOCAL_DOUBLE
  | OP_ARRAY_LEN_LOCAL | OP_ADD_STACK_LOCAL_INT | OP_SUB_STACK_LOCAL_INT | OP_MUL_STACK_LOCAL_INT
  | OP_DIV_STACK_LOCAL_INT | OP_MOD_STACK_LOCAL_INT | OP_BIT_AND_STACK_LOCAL_INT | OP_BIT_OR_STACK_LOCAL_INT
  | OP_BIT_XOR_STACK_LOCAL_INT | OP_ADD_STACK_LOCAL_DOUBLE | OP_SUB_STACK_LOCAL_DOUBLE
  | OP_MUL_STACK_LOCAL_DOUBLE | OP_DIV_STACK_LOCAL_DOUBLE | OP_ADD_STACK_CONST_INT | OP_SUB_STACK_CONST_INT
  | OP_MUL_STACK_CONST_INT | OP_DIV_STACK_CONST_INT | OP_MOD_STACK_CONST_INT | OP_BIT_AND_STACK_CONST_INT
  | OP_BIT_OR_STACK_CONST_INT | OP_BIT_XOR_STACK_CONST_INT | OP_ADD_STACK_CONST_DOUBLE
  | OP_SUB_STACK_CONST_DOUBLE | OP_MUL_STACK_CONST_DOUBLE | OP_DIV_STACK_CONST_DOUBLE | OP_ADD_LOCAL_CONST_INT
  | OP_SUB_LOCAL_CONST_INT | OP_MUL_LOCAL_CONST_INT | OP_DIV_LOCAL_CONST_INT | OP_MOD_LOCAL_CONST_INT
  | OP_BIT_AND_LOCAL_CONST_INT | OP_BIT_OR_LOCAL_CONST_INT | OP_BIT_XOR_LOCAL_CONST_INT
  | OP_ADD_LOCAL_CONST_DOUBLE | OP_SUB_LOCAL_CONST_DOUBLE | OP_MUL_LOCAL_CONST_DOUBLE
  | OP_DIV_LOCAL_CONST_DOUBLE | OP_ARRAY_GET_LOCAL_CONST_INT | OP_ARRAY_GET_LOCAL_LOCAL_INT
  | OP_ARRAY_SET_LOCAL_CONST_INT | OP_ARRAY_SET_LOCAL_LOCAL_INT | OP_ARRAY_GET_LOCAL_CONST_DOUBLE
  | OP_ARRAY_GET_LOCAL_LOCAL_DOUBLE | OP_ARRAY_SET_LOCAL_CONST_DOUBLE | OP_ARRAY_SET_LOCAL_LOCAL_DOUBLE
  | OP_ARRAY_GET_LOCAL_CONST_INT_TO_LOCAL | OP_ARRAY_GET_LOCAL_LOCAL_INT_TO_LOCAL
  | OP_ARRAY_GET_LOCAL_CONST_DOUBLE_TO_LOCAL | OP_ARRAY_GET_LOCAL_LOCAL_DOUBLE_TO_LOCAL
  | OP_ADD_LOCAL_STACK_INT | OP_SUB_LOCAL_STACK_INT | OP_ADD_LOCAL_STACK_DOUBLE | OP_SUB_LOCAL_STACK_DOUBLE
  | OP_MADD_LOCAL_ARRAY_LOCAL_INT | OP_MADD_LOCAL_ARRAY_LOCAL_DOUBLE | OP_EVALA_RECIP_LOCALS_DOUBLE
  | OP_EVALA_MADD_LOCAL_ARRAY_LOCAL_DOUBLE | OP_RECIP_INT_TO_DOUBLE | OP_JUMP_IF_LOCAL_EQ
  | OP_JUMP_IF_LOCAL_NE | OP_JUMP_IF_LOCAL_EQ_CONST | OP_JUMP_IF_LOCAL_NE_CONST | OP_CALL_GLOBAL_SLOT
  | OP_LOAD_GLOBAL_SLOT | OP_STORE_GLOBAL_SLOT | OP_ADD_GLOBAL_GLOBAL_TO_GLOBAL
  | OP_SUB_GLOBAL_GLOBAL_TO_GLOBAL | OP_MUL_GLOBAL_GLOBAL_TO_GLOBAL | OP_DIV_GLOBAL_GLOBAL_TO_GLOBAL
  | OP_ADD_GLOBAL_SLOT_SLOT_TO_GLOBAL_SLOT | OP_SUB_GLOBAL_SLOT_SLOT_TO_GLOBAL_SLOT
  | OP_MUL_GLOBAL_SLOT_SLOT_TO_GLOBAL_SLOT | OP_DIV_GLOBAL_SLOT_SLOT_TO_GLOBAL_SLOT
  | OP_JUMP_IF_LOCAL_EQ_GLOBAL | OP_JUMP_IF_LOCAL_NE_GLOBAL | OP_JUMP_IF_LOCAL_EQ_GLOBAL_SLOT
  | OP_JUMP_IF_LOCAL_NE_GLOBAL_SLOT | OP_MAKE_CLOSURE | OP_TYPE_TEST_INTERFACE_METHOD | OP_CALL_INTERFACE
  | OP_RECORD_NEW_NAMED.

(** The numbers of the enumeration. *)
Definition op_byte (op : OpCode) : Z :=
  match op with
  | OP_NOP => 0 | OP_CONST => 1 | OP_CONST16 => 2 | OP_LOAD_LOCAL => 3 | OP_STORE_LOCAL => 4
  | OP_ADD_LOCAL_CONST => 5 | OP_SUB_LOCAL_CONST => 6 | OP_ADD2_LOCAL_CONST => 7 | OP_NEGATE_LOCAL => 8
  | OP_LOAD_GLOBAL => 9 | OP_LOAD_GLOBAL16 => 10 | OP_STORE_GLOBAL => 11 | OP_STORE_GLOBAL16 => 12
  | OP_ADD => 13 | OP_SUB => 14 | OP_MUL => 15 | OP_DIV => 16 | OP_MOD => 17 | OP_NEG => 18 | OP_EQ => 19
  | OP_NE => 20 | OP_LT => 21 | OP_LE => 22 | OP_GT => 23 | OP_GE => 24 | OP_NOT => 25 | OP_AND => 26
  | OP_OR => 27 | OP_BIT_NOT => 28 | OP_BIT_AND => 29 | OP_BIT_OR => 30 | OP_BIT_XOR => 31 | OP_JUMP => 32
  | OP_JUMP_IF_FALSE => 33 | OP_CALL => 34 | OP_CALL_GLOBAL => 35 | OP_CALL_GLOBAL16 => 36 | OP_DEFER => 37
  | OP_DEFER_HAS => 38 | OP_DEFER_CALL => 39 | OP_AWAIT => 40 | OP_RET => 41 | OP_ARRAY_NEW => 42
  | OP_ARRAY_GET => 43 | OP_ARRAY_SET => 44 | OP_ARRAY_LEN => 45 | OP_ARRAY_PUSH => 46 | OP_ARRAY_POP => 47
  | OP_STRING_LEN => 48 | OP_STRING_CONCAT => 49 | OP_TYPEOF => 50 | OP_CAST_INT => 51 | OP_CAST_BOOL => 52
  | OP_CAST_DOUBLE => 53 | OP_CAST_STRING => 54 | OP_CAST_BIGINT => 55 | OP_PRINT => 56 | OP_PRINTLN => 57
  | OP_POP => 58 | OP_DUP => 59 | OP_TRY => 60 | OP_THROW => 61 | OP_CATCH => 62 | OP_RECORD_NEW => 63
  | OP_RECORD_SET_FIELD => 64 | OP_RECORD_GET_FIELD => 65 | OP_TUPLE_NEW => 66 | OP_TUPLE_GET => 67
  | OP_TUPLE_SET => 68 | OP_MAP_NEW => 69 | OP_MAP_SET => 70 | OP_MAP_GET => 71 | OP_MAP_HAS => 72
  | OP_MAP_DELETE => 73 | OP_MAP_KEYS => 74 | OP_MAP_VALUES => 75 | OP_SET_NEW => 76 | OP_SET_ADD => 77
  | OP_SET_HAS => 78 | OP_SET_REMOVE => 79 | OP_SET_TO_ARRAY => 80 | OP_ADD_LOCAL_DIV_LOCALS => 81
  | OP_JUMP_IF_LOCAL_LT => 82 | OP_JUMP_IF_LOCAL_LE => 83 | OP_JUMP_IF_LOCAL_GT => 84
  | OP_JUMP_IF_LOCAL_GE => 85 | OP_JUMP_IF_LOCAL_LT_CONST => 86 | OP_JUMP_IF_LOCAL_LE_CONST => 87
  | OP_JUMP_IF_LOCAL_GT_CONST => 88 | OP_JUMP_IF_LOCAL_GE_CONST => 89 | OP_JUMP_IF_FALSE_POP => 90
  | OP_JUMP_IF_STACK_LT_LOCAL => 91 | OP_JUMP_IF_STACK_LE_LOCAL => 92 | OP_JUMP_IF_STACK_GT_LOCAL => 93
  | OP_JUMP_IF_STACK_GE_LOCAL => 94 | OP_JUMP_IF_STACK_LT_CONST => 95 | OP_JUMP_IF_STACK_LE_CONST => 96
  | OP_JUMP_IF_STACK_GT_CONST => 97 | OP_JUMP_IF_STACK_GE_CONST => 98 | OP_ARRAY_GET_LOCAL => 99
  | OP_ARRAY_GET_LOCAL_CONST => 100 | OP_ARRAY_GET_LOCAL_LOCAL => 101 | OP_ARRAY_SET_LOCAL => 102
  | OP_ARRAY_SET_LOCAL_CONST => 103 | OP_ARRAY_SET_LOCAL_LOCAL => 104 | OP_ARRAY_COPY => 105
  | OP_ARRAY_COPY_LOCAL_LOCAL => 106 | OP_ARRAY_REVERSE_PREFIX => 107
  | OP_ARRAY_REVERSE_PREFIX_LOCAL_LOCAL => 108 | OP_ARRAY_ROTATE_PREFIX_LEFT => 109
  | OP_ARRAY_ROTATE_PREFIX_LEFT_LOCAL_LOCAL => 110 | OP_ARRAY_ROTATE_PREFIX_RIGHT => 111
  | OP_ARRAY_ROTATE_PREFIX_RIGHT_LOCAL_LOCAL => 112 | OP_ARRAY_BOUNDS_CHECK_LOCAL_CONST => 113
  | OP_ARRAY_BOUNDS_CHECK_LOCAL_LOCAL => 114 | OP_ARRAY_GET_FIELD_LOCAL_CONST => 115
  | OP_ARRAY_GET_FIELD_LOCAL_LOCAL => 116 | OP_ARRAY_SET_FIELD_LOCAL_CONST => 117
  | OP_ARRAY_SET_FIELD_LOCAL_LOCAL => 118 | OP_JUMP_IF_ARRAY_FALSE_LOCAL_CONST => 119
  | OP_JUMP_IF_ARRAY_FALSE_LOCAL_LOCAL => 120 | OP_SQRT => 121 | OP_ADD_INT => 122 | OP_SUB_INT => 123
  | OP_MUL_INT => 124 | OP_DIV_INT => 125 | OP_MOD_INT => 126 | OP_NEG_INT => 127 | OP_BIT_AND_INT => 128
  | OP_BIT_OR_INT => 129 | OP_BIT_XOR_INT => 130 | OP_BIT_NOT_INT => 131 | OP_ADD_DOUBLE => 132
  | OP_SUB_DOUBLE => 133 | OP_MUL_DOUBLE => 134 | OP_DIV_DOUBLE => 135 | OP_NEG_DOUBLE => 136
  | OP_ADD_LOCALS_INT => 137 | OP_SUB_LOCALS_INT => 138 | OP_MUL_LOCALS_INT => 139 | OP_DIV_LOCALS_INT => 140
  | OP_MOD_LOCALS_INT => 141 | OP_BIT_AND_LOCALS_INT => 142 | OP_BIT_OR_LOCALS_INT => 143
  | OP_BIT_XOR_LOCALS_INT => 144 | OP_ADD_LOCALS_DOUBLE => 145 | OP_SUB_LOCALS_DOUBLE => 146
  | OP_MUL_LOCALS_DOUBLE => 147 | OP_DIV_LOCALS_DOUBLE => 148 | OP_MUL_LOCALS_INT_TO_LOCAL => 149
  | OP_MUL_LOCALS_DOUBLE_TO_LOCAL => 150 | OP_SQRT_LOCAL_DOUBLE => 151 | OP_ARRAY_LEN_LOCAL => 152
  | OP_ADD_STACK_LOCAL_INT => 153 | OP_SUB_STACK_LOCAL_INT => 154 | OP_MUL_STACK_LOCAL_INT => 155
  | OP_DIV_STACK_LOCAL_INT => 156 | OP_MOD_STACK_LOCAL_INT => 157 | OP_BIT_AND_STACK_LOCAL_INT => 158
  | OP_BIT_OR_STACK_LOCAL_INT => 159 | OP_BIT_XOR_STACK_LOCAL_INT => 160 | OP_ADD_STACK_LOCAL_DOUBLE => 161
  | OP_SUB_STACK_LOCAL_DOUBLE => 162 | OP_MUL_STACK_LOCAL_DOUBLE => 163 | OP_DIV_STACK_LOCAL_DOUBLE => 164
  | OP_ADD_STACK_CONST_INT => 165 | OP_SUB_STACK_CONST_INT => 166 | OP_MUL_STACK_CONST_INT => 167
  | OP_DIV_STACK_CONST_INT => 168 | OP_MOD_STACK_CONST_INT => 169 | OP_BIT_AND_STACK_CONST_INT => 170
  | OP_BIT_OR_STACK_CONST_INT => 171 | OP_BIT_XOR_STACK_CONST_INT => 172 | OP_ADD_STACK_CONST_DOUBLE => 173
  | OP_SUB_STACK_CONST_DOUBLE => 174 | OP_MUL_STACK_CONST_DOUBLE => 175 | OP_DIV_STACK_CONST_DOUBLE => 176
  | OP_ADD_LOCAL_CONST_INT => 177 | OP_SUB_LOCAL_CONST_INT => 178 | OP_MUL_LOCAL_CONST_INT => 179
  | OP_DIV_LOCAL_CONST_INT => 180 | OP_MOD_LOCAL_CONST_INT => 181 | OP_BIT_AND_LOCAL_CONST_INT => 182
  | OP_BIT_OR_LOCAL_CONST_INT => 183 | OP_BIT_XOR_LOCAL_CONST_INT => 184 | OP_ADD_LOCAL_CONST_DOUBLE => 185
  | OP_SUB_LOCAL_CONST_DOUBLE => 186 | OP_MUL_LOCAL_CONST_DOUBLE => 187 | OP_DIV_LOCAL_CONST_DOUBLE => 188
  | OP_ARRAY_GET_LOCAL_CONST_INT => 189 | OP_ARRAY_GET_LOCAL_LOCAL_INT => 190
  | OP_ARRAY_SET_LOCAL_CONST_INT => 191 | OP_ARRAY_SET_LOCAL_LOCAL_INT => 192
  | OP_ARRAY_GET_LOCAL_CONST_DOUBLE => 193 | OP_ARRAY_GET_LOCAL_LOCAL_DOUBLE => 194
  | OP_ARRAY_SET_LOCAL_CONST_DOUBLE => 195 | OP_ARRAY_SET_LOCAL_LOCAL_DOUBLE => 196
  | OP_ARRAY_GET_LOCAL_CONST_INT_TO_LOCAL => 197 | OP_ARRAY_GET_LOCAL_LOCAL_INT_TO_LOCAL => 198
  | OP_ARRAY_GET_LOCAL_CONST_DOUBLE_TO_LOCAL => 199 | OP_ARRAY_GET_LOCAL_LOCAL_DOUBLE_TO_LOCAL => 200
  | OP_ADD_LOCAL_STACK_INT => 201 | OP_SUB_LOCAL_STACK_INT => 202 | OP_ADD_LOCAL_STACK_DOUBLE => 203
  | OP_SUB_LOCAL_STACK_DOUBLE => 204 | OP_MADD_LOCAL_ARRAY_LOCAL_INT => 205
  | OP_MADD_LOCAL_ARRAY_LOCAL_DOUBLE => 206 | OP_EVALA_RECIP_LOCALS_DOUBLE => 207
  | OP_EVALA_MADD_LOCAL_ARRAY_LOCAL_DOUBLE => 208 | OP_RECIP_INT_TO_DOUBLE => 209 | OP_JUMP_IF_LOCAL_EQ => 210
  | OP_JUMP_IF_LOCAL_NE => 211 | OP_JUMP_IF_LOCAL_EQ_CONST => 212 | OP_JUMP_IF_LOCAL_NE_CONST => 213
  | OP_CALL_GLOBAL_SLOT => 214 | OP_LOAD_GLOBAL_SLOT => 215 | OP_STORE_GLOBAL_SLOT => 216
  | OP_ADD_GLOBAL_GLOBAL_TO_GLOBAL => 217 | OP_SUB_GLOBAL_GLOBAL_TO_GLOBAL => 218
  | OP_MUL_GLOBAL_GLOBAL_TO_GLOBAL => 219 | OP_DIV_GLOBAL_GLOBAL_TO_GLOBAL => 220
  | OP_ADD_GLOBAL_SLOT_SLOT_TO_GLOBAL_SLOT => 221 | OP_SUB_GLOBAL_SLOT_SLOT_TO_GLOBAL_SLOT => 222
  | OP_MUL_GLOBAL_SLOT_SLOT_TO_GLOBAL_SLOT => 223 | OP_DIV_GLOBAL_SLOT_SLOT_TO_GLOBAL_SLOT => 224
  | OP_JUMP_IF_LOCAL_EQ_GLOBAL => 225 | OP_JUMP_IF_LOCAL_NE_GLOBAL => 226
  | OP_JUMP_IF_LOCAL_EQ_GLOBAL_SLOT => 227 | OP_JUMP_IF_LOCAL_NE_GLOBAL_SLOT => 228 | OP_MAKE_CLOSURE => 229
  | OP_TYPE_TEST_INTERFACE_METHOD => 230 | OP_CALL_INTERFACE => 231 | OP_RECORD_NEW_NAMED => 232
  end.

Definition opcodes : list OpCode :=
  [OP_NOP; OP_CONST; OP_CONST16; OP_LOAD_LOCAL; OP_STORE_LOCAL; OP_ADD_LOCAL_CONST; OP_SUB_LOCAL_CONST; 
   OP_ADD2_LOCAL_CONST; OP_NEGATE_LOCAL; OP_LOAD_GLOBAL; OP_LOAD_GLOBAL16; OP_STORE_GLOBAL; 
   OP_STORE_GLOBAL16; OP_ADD; OP_SUB; OP_MUL; OP_DIV; OP_MOD; OP_NEG; OP_EQ; OP_NE; OP_LT; OP_LE; OP_GT; 
   OP_GE; OP_NOT; OP_AND; OP_OR; OP_BIT_NOT; OP_BIT_AND; OP_BIT_OR; OP_BIT_XOR; OP_JUMP; OP_JUMP_IF_FALSE; 
   OP_CALL; OP_CALL_GLOBAL; OP_CALL_GLOBAL16; OP_DEFER; OP_DEFER_HAS; OP_DEFER_CALL; OP_AWAIT; OP_RET; 
   OP_ARRAY_NEW; OP_ARRAY_GET; OP_ARRAY_SET; OP_ARRAY_LEN; OP_ARRAY_PUSH; OP_ARRAY_POP; OP_STRING_LEN; 
   OP_STRING_CONCAT; OP_TYPEOF; OP_CAST_INT; OP_CAST_BOOL; OP_CAST_DOUBLE; OP_CAST_STRING; OP_CAST_BIGINT; 
   OP_PRINT; OP_PRINTLN; OP_POP; OP_DUP; OP_TRY; OP_THROW; OP_CATCH; OP_RECORD_NEW; OP_RECORD_SET_FIELD; 
   OP_RECORD_GET_FIELD; OP_TUPLE_NEW; OP_TUPLE_GET; OP_TUPLE_SET; OP_MAP_NEW; OP_MAP_SET; OP_MAP_GET; 
   OP_MAP_HAS; OP_MAP_DELETE; OP_MAP_KEYS; OP_MAP_VALUES; OP_SET_NEW; OP_SET_ADD; OP_SET_HAS; 
   OP_SET_REMOVE; OP_SET_TO_ARRAY; OP_ADD_LOCAL_DIV_LOCALS; OP_JUMP_IF_LOCAL_LT; OP_JUMP_IF_LOCAL_LE; 
   OP_JUMP_IF_LOCAL_GT; OP_JUMP_IF_LOCAL_GE; OP_JUMP_IF_LOCAL_LT_CONST; OP_JUMP_IF_LOCAL_LE_CONST; 
   OP_JUMP_IF_LOCAL_GT_CONST; OP_JUMP_IF_LOCAL_GE_CONST; OP_JUMP_IF_FALSE_POP; OP_JUMP_IF_STACK_LT_LOCAL; 
   OP_JUMP_IF_STACK_LE_LOCAL; OP_JUMP_IF_STACK_GT_LOCAL; OP_JUMP_IF_STACK_GE_LOCAL; 
   OP_JUMP_IF_STACK_LT_CONST; OP_JUMP_IF_STACK_LE_CONST; OP_JUMP_IF_STACK_GT_CONST; 
   OP_JUMP_IF_STACK_GE_CONST; OP_ARRAY_GET_LOCAL; OP_ARRAY_GET_LOCAL_CONST; OP_ARRAY_GET_LOCAL_LOCAL; 
   OP_ARRAY_SET_LOCAL; OP_ARRAY_SET_LOCAL_CONST; OP_ARRAY_SET_LOCAL_LOCAL; OP_ARRAY_COPY; 
   OP_ARRAY_COPY_LOCAL_LOCAL; OP_ARRAY_REVERSE_PREFIX; OP_ARRAY_REVERSE_PREFIX_LOCAL_LOCAL; 
   OP_ARRAY_ROTATE_PREFIX_LEFT; OP_ARRAY_ROTATE_PREFIX_LEFT_LOCAL_LOCAL; OP_ARRAY_ROTATE_PREFIX_RIGHT; 
   OP_ARRAY_ROTATE_PREFIX_RIGHT_LOCAL_LOCAL; OP_ARRAY_BOUNDS_CHECK_LOCAL_CONST; 
   OP_ARRAY_BOUNDS_CHECK_LOCAL_LOCAL; OP_ARRAY_GET_FIELD_LOCAL_CONST; OP_ARRAY_GET_FIELD_LOCAL_LOCAL; 
   OP_ARRAY_SET_FIELD_LOCAL_CONST; OP_ARRAY_SET_FIELD_LOCAL_LOCAL; OP_JUMP_IF_ARRAY_FALSE_LOCAL_CONST; 
   OP_JUMP_IF_ARRAY_FALSE_LOCAL_LOCAL; OP_SQRT; OP_ADD_INT; OP_SUB_INT; OP_MUL_INT; OP_DIV_INT; OP_MOD_INT; 
   OP_NEG_INT; OP_BIT_AND_INT; OP_BIT_OR_INT; OP_BIT_XOR_INT; OP_BIT_NOT_INT; OP_ADD_DOUBLE; OP_SUB_DOUBLE; 
   OP_MUL_DOUBLE; OP_DIV_DOUBLE; OP_NEG_DOUBLE; OP_ADD_LOCALS_INT; OP_SUB_LOCALS_INT; OP_MUL_LOCALS_INT; 
   OP_DIV_LOCALS_INT; OP_MOD_LOCALS_INT; OP_BIT_AND_LOCALS_INT; OP_BIT_OR_LOCALS_INT; 
   OP_BIT_XOR_LOCALS_INT; OP_ADD_LOCALS_DOUBLE; OP_SUB_LOCALS_DOUBLE; OP_MUL_LOCALS_DOUBLE; 
   OP_DIV_LOCALS_DOUBLE; OP_MUL_LOCALS_INT_TO_LOCAL; OP_MUL_LOCALS_DOUBLE_TO_LOCAL; OP_SQRT_LOCAL_DOUBLE; 
   OP_ARRAY_LEN_LOCAL; OP_ADD_STACK_LOCAL_INT; OP_SUB_STACK_LOCAL_INT; OP_MUL_STACK_LOCAL_INT; 
   OP_DIV_STACK_LOCAL_INT; OP_MOD_STACK_LOCAL_INT; OP_BIT_AND_STACK_LOCAL_INT; OP_BIT_OR_STACK_LOCAL_INT; 
   OP_BIT_XOR_STACK_LOCAL_INT; OP_ADD_STACK_LOCAL_DOUBLE; OP_SUB_STACK_LOCAL_DOUBLE; 
   OP_MUL_STACK_LOCAL_DOUBLE; OP_DIV_STACK_LOCAL_DOUBLE; OP_ADD_STACK_CONST_INT; OP_SUB_STACK_CONST_INT; 
   OP_MUL_STACK_CONST_INT; OP_DIV_STACK_CONST_INT; OP_MOD_STACK_CONST_INT; OP_BIT_AND_STACK_CONST_INT; 
   OP_BIT_OR_STACK_CONST_INT; OP_BIT_XOR_STACK_CONST_INT; OP_ADD_STACK_CONST_DOUBLE; 
   OP_SUB_STACK_CONST_DOUBLE; OP_MUL_STACK_CONST_DOUBLE; OP_DIV_STACK_CONST_DOUBLE; OP_ADD_LOCAL_CONST_INT; 
   OP_SUB_LOCAL_CONST_INT; OP_MUL_LOCAL_CONST_INT; OP_DIV_LOCAL_CONST_INT; OP_MOD_LOCAL_CONST_INT; 
   OP_BIT_AND_LOCAL_CONST_INT; OP_BIT_OR_LOCAL_CONST_INT; OP_BIT_XOR_LOCAL_CONST_INT; 
   OP_ADD_LOCAL_CONST_DOUBLE; OP_SUB_LOCAL_CONST_DOUBLE; OP_MUL_LOCAL_CONST_DOUBLE; 
   OP_DIV_LOCAL_CONST_DOUBLE; OP_ARRAY_GET_LOCAL_CONST_INT; OP_ARRAY_GET_LOCAL_LOCAL_INT; 
   OP_ARRAY_SET_LOCAL_CONST_INT; OP_ARRAY_SET_LOCAL_LOCAL_INT; OP_ARRAY_GET_LOCAL_CONST_DOUBLE; 
   OP_ARRAY_GET_LOCAL_LOCAL_DOUBLE; OP_ARRAY_SET_LOCAL_CONST_DOUBLE; OP_ARRAY_SET_LOCAL_LOCAL_DOUBLE; 
   OP_ARRAY_GET_LOCAL_CONST_INT_TO_LOCAL; OP_ARRAY_GET_LOCAL_LOCAL_INT_TO_LOCAL; 
   OP_ARRAY_GET_LOCAL_CONST_DOUBLE_TO_LOCAL; OP_ARRAY_GET_LOCAL_LOCAL_DOUBLE_TO_LOCAL; 
   OP_ADD_LOCAL_STACK_INT; OP_SUB_LOCAL_STACK_INT; OP_ADD_LOCAL_STACK_DOUBLE; OP_SUB_LOCAL_STACK_DOUBLE; 
   OP_MADD_LOCAL_ARRAY_LOCAL_INT; OP_MADD_LOCAL_ARRAY_LOCAL_DOUBLE; OP_EVALA_RECIP_LOCALS_DOUBLE; 
   OP_EVALA_MADD_LOCAL_ARRAY_LOCAL_DOUBLE; OP_RECIP_INT_TO_DOUBLE; OP_JUMP_IF_LOCAL_EQ; 
   OP_JUMP_IF_LOCAL_NE; OP_JUMP_IF_LOCAL_EQ_CONST; OP_JUMP_IF_LOCAL_NE_CONST; OP_CALL_GLOBAL_SLOT; 
   OP_LOAD_GLOBAL_SLOT; OP_STORE_GLOBAL_SLOT; OP_ADD_GLOBAL_GLOBAL_TO_GLOBAL; 
   OP_SUB_GLOBAL_GLOBAL_TO_GLOBAL; OP_MUL_GLOBAL_GLOBAL_TO_GLOBAL; OP_DIV_GLOBAL_GLOBAL_TO_GLOBAL; 
   OP_ADD_GLOBAL_SLOT_SLOT_TO_GLOBAL_SLOT; OP_SUB_GLOBAL_SLOT_SLOT_TO_GLOBAL_SLOT; 
   OP_MUL_GLOBAL_SLOT_SLOT_TO_GLOBAL_SLOT; OP_DIV_GLOBAL_SLOT_SLOT_TO_GLOBAL_SLOT; 
   OP_JUMP_IF_LOCAL_EQ_GLOBAL; OP_JUMP_IF_LOCAL_NE_GLOBAL; OP_JUMP_IF_LOCAL_EQ_GLOBAL_SLOT; 
   OP_JUMP_IF_LOCAL_NE_GLOBAL_SLOT; OP_MAKE_CLOSURE; OP_TYPE_TEST_INTERFACE_METHOD; OP_CALL_INTERFACE; 
   OP_RECORD_NEW_NAMED].

Definition decode (b : Z) : option OpCode := opcodes !! Z.to_nat b.

(** ** State *)

Record VmConfig := mkConfig { max_call_depth : Z; max_stack_size : Z; max_string_length : Z; max_instructions : Z }.

Record VM := mkVM {
  stack : list Value;
  frame_count : Z;
  instruction_count : Z;
  error_message : option string;
  config : VmConfig
}.

Definition with_stack (s : list Value) (vm : VM) : VM :=
  mkVM s (frame_count vm) (instruction_count vm) (error_message vm) (config vm).
Definition with_frames (n : Z) (vm : VM) : VM :=
  mkVM (stack vm) n (instruction_count vm) (error_message vm) (config vm).
Definition vm_runtime_error (vm : VM) (message : string) : VM :=
  mkVM (stack vm) (frame_count vm) (instruction_count vm) (Some message) (config vm).

Definition count (vm : VM) : Z := Z.of_nat (length (stack vm)).

(** ** The stack *)

Definition vm_stack_reserve (vm : VM) (additional : Z) : VM :=
  if additional <=? 0 then vm
  else if max_stack_size (config vm) <? count vm + additional then vm_runtime_error vm "Stack overflow"
  else vm.

Definition push (vm : VM) (val : Value) : VM :=
  if max_stack_size (config vm) <=? count vm then vm_runtime_error vm "Stack overflow"
  else
    let vm := vm_stack_reserve vm 1 in
    match error_message vm with
    | Some _ => vm
    | None => with_stack (stack vm ++ [val]) vm
    end.

Definition push_nil_count (vm : VM) (n : Z) : VM :=
  if n <=? 0 then vm
  else
    let vm := vm_stack_reserve vm n in
    match error_message vm with
    | Some _ => vm
    | None => with_stack (stack vm ++ replicate (Z.to_nat n) VAL_NIL) vm
    end.

Definition pop (vm : VM) : Value * VM :=
  match last (stack vm) with
  | None => (VAL_NIL, vm_runtime_error vm "Stack underflow")
  | Some v => (v, with_stack (removelast (stack vm)) vm)
  end.

Definition peek0 (vm : VM) : Value * VM :=
  match last (stack vm) with
  | None => (VAL_NIL, vm_runtime_error vm "Peek out of bounds")
  | Some v => (v, vm)
  end.

Definition stack_pop_to (vm : VM) (target : nat) : VM := with_stack (take target (stack vm)) vm.

(** ** Outcomes *)

(** [Continue] goes on with the next instruction, [Finished] has returned to
    the calling frame, [Exited] has returned from the last frame, [Halted] is
    the return of -1. *)
Inductive outcome :=
  | Continue (vm : VM) (ip : Z)
  | Finished (vm : VM)
  | Exited (vm : VM) (result : Value)
  | Halted (vm : VM)
  | Undefined
  | Unmodelled.

Definition fail (vm : VM) (message : string) : outcome := Halted (vm_runtime_error vm message).

(** ** Instructions *)

Section Frame.
Context (fn : ObjFunction) (slots_start : nat).

Definition code_at (ip : Z) : Z := nth (Z.to_nat ip) (buffer (code (chunk fn))) 0.

(** [VM_ENSURE_IP_BYTES]. *)
Definition ensure (vm : VM) (ip n : Z) (k : outcome) : outcome :=
  if (ip <? 0) || (code_count (chunk fn) <? ip + n)
  then fail vm "Corrupted bytecode: truncated instruction stream" else k.

(** The big-endian offset at [ip], as an [int16_t]. *)
Definition offset_at (ip : Z) : Z := i16 (Z.lor (Z.shiftl (code_at ip) 8) (code_at (ip + 1))).

Definition local (vm : VM) (slot : Z) : option Value := stack vm !! (slots_start + Z.to_nat slot)%nat.
Definition set_local (vm : VM) (slot : Z) (v : Value) : option VM :=
  match local vm slot with
  | Some _ => Some (with_stack (<[(slots_start + Z.to_nat slot)%nat := v]> (stack vm)) vm)
  | None => None
  end.

(** A local that must exist: a slot outside the stack is not checked. *)
Definition with_local (vm : VM) (slot : Z) (k : Value -> outcome) : outcome :=
  match local vm slot with Some v => k v | None => Undefined end.

(** [constants[index]], if the index is in range. *)
Definition with_constant (vm : VM) (index : Z) (k : Constant -> outcome) : outcome :=
  if constant_count (pool fn) <=? index then fail vm "Constant index out of bounds"
  else match buffer (constants (pool fn)) !! Z.to_nat index with Some c => k c | None => Undefined end.

Definition int_constant (c : Constant) : option Z :=
  match payload c with as_int i => if type_index c =? 0 then Some i else None | _ => None end.

Definition vm_push_constant_by_index (vm : VM) (index ip : Z) : outcome :=
  with_constant vm index (fun c =>
    match payload c with
    | as_int i =>
        if type_index c =? 0 then Continue (push vm (VAL_INT i)) ip
        else if type_index c =? 4 then Continue (push vm (VAL_BOOL (negb (i =? 0)))) ip
        else Continue (push vm VAL_NIL) ip
    | as_double d => if type_index c =? 1 then Continue (push vm (VAL_DOUBLE d)) ip else Continue (push vm VAL_NIL) ip
    | as_string s =>
        if type_index c =? 2 then
          match s with
          | None => fail vm "String constant payload missing"
          | Some s => Continue (push vm (VAL_STRING (Some (mkStr UINT32_MAX (Some s))))) ip
          end
        else if type_index c =? 3 then
          match s with
          | None => fail vm "BigInt constant payload missing"
          | Some s => Continue (push vm (VAL_BIGINT (Some (obj_bigint_from_string s)))) ip
          end
        else Continue (push vm VAL_NIL) ip
    end).

(** The integer operation on two operands and what becomes of its result. *)
Definition compute (vm : VM) (op : int_op) (a b : Z) (k : Z -> outcome) : outcome :=
  match zero_error op b with
  | Some message => fail vm message
  | None => match int_arith op a b with Some r => k r | None => Undefined end
  end.

(** [OP_ADD_INT] and the like: the operands are the two top values. *)
Definition exec_stack_int (op : int_op) (vm : VM) (ip : Z) : outcome :=
  match reverse (stack vm) with
  | b :: a :: rest =>
      match a, b with
      | VAL_INT x, VAL_INT y => compute vm op x y (fun r => Continue (with_stack (reverse (VAL_INT r :: rest)) vm) ip)
      | _, _ => fail (with_stack (reverse rest) vm) "Operands must be integer"
      end
  | _ => fail vm "Stack underflow"
  end.

(** [OP_ADD_LOCALS_INT] and the like: two locals. *)
Definition exec_locals_int (op : int_op) (vm : VM) (ip : Z) : outcome :=
  ensure vm ip 4 (
    with_local vm (code_at ip) (fun a => with_local vm (code_at (ip + 1)) (fun b =>
      match a, b with
      | VAL_INT x, VAL_INT y => compute vm op x y (fun r => Continue (push vm (VAL_INT r)) (ip + 4))
      | _, _ => fail vm "Operands must be integer"
      end))).

(** [OP_ADD_LOCAL_CONST_INT] and the like: a local and a constant. *)
Definition exec_local_const_int (op : int_op) (vm : VM) (ip : Z) : outcome :=
  ensure vm ip 4 (
    with_constant vm (code_at (ip + 1)) (fun c => with_local vm (code_at ip) (fun a =>
      match a, int_constant c with
      | VAL_INT x, Some y => compute vm op x y (fun r => Continue (push vm (VAL_INT r)) (ip + 4))
      | _, _ => fail vm "Operands must be integer"
      end))).

(** The top of the stack replaced by the result. *)
Definition set_top (vm : VM) (v : Value) : VM := with_stack (removelast (stack vm) ++ [v]) vm.

(** [OP_ADD_STACK_LOCAL_INT] and the like: the top of the stack and a local. *)
Definition exec_stack_local_int (op : int_op) (vm : VM) (ip : Z) : outcome :=
  ensure vm ip 2 (
    match last (stack vm) with
    | None => fail vm "Stack underflow"
    | Some a => with_local vm (code_at ip) (fun b =>
        match a, b with
        | VAL_INT x, VAL_INT y => compute vm op x y (fun r => Continue (set_top vm (VAL_INT r)) (ip + 2))
        | _, _ => fail vm "Operands must be integer"
        end)
    end).

(** [OP_ADD_STACK_CONST_INT] and the like: the top of the stack and a
    constant. *)
Definition exec_stack_const_int (op : int_op) (vm : VM) (ip : Z) : outcome :=
  ensure vm ip 2 (
    match last (stack vm) with
    | None => fail vm "Stack underflow"
    | Some a => with_constant vm (code_at ip) (fun c =>
        match a, int_constant c with
        | VAL_INT x, Some y => compute vm op x y (fun r => Continue (set_top vm (VAL_INT r)) (ip + 2))
        | _, _ => fail vm "Operands must be integer"
        end)
    end).

(** The double operation on two operands and what becomes of its result. *)
Definition compute_double (vm : VM) (op : double_op) (a b : Z) (k : Z -> outcome) : outcome :=
  match double_zero_error op b with
  | Some message => fail vm message
  | None => k (double_arith op a b)
  end.

Definition double_constant (c : Constant) : option Z :=
  match payload c with as_double d => if type_index c =? 1 then Some d else None | _ => None end.

(** [OP_ADD_DOUBLE] and the like, in the same five forms. *)
Definition exec_stack_double (op : double_op) (vm : VM) (ip : Z) : outcome :=
  match reverse (stack vm) with
  | b :: a :: rest =>
      match a, b with
      | VAL_DOUBLE x, VAL_DOUBLE y =>
          compute_double vm op x y (fun r => Continue (with_stack (reverse (VAL_DOUBLE r :: rest)) vm) ip)
      | _, _ => fail (with_stack (reverse rest) vm) "Operands must be double"
      end
  | _ => fail vm "Stack underflow"
  end.

Definition exec_locals_double (op : double_op) (vm : VM) (ip : Z) : outcome :=
  ensure vm ip 4 (
    with_local vm (code_at ip) (fun a => with_local vm (code_at (ip + 1)) (fun b =>
      match a, b with
      | VAL_DOUBLE x, VAL_DOUBLE y => compute_double vm op x y (fun r => Continue (push vm (VAL_DOUBLE r)) (ip + 4))
      | _, _ => fail vm "Operands must be double"
      end))).

Definition exec_local_const_double (op : double_op) (vm : VM) (ip : Z) : outcome :=
  ensure vm ip 4 (
    with_constant vm (code_at (ip + 1)) (fun c => with_local vm (code_at ip) (fun a =>
      match a, double_constant c with
      | VAL_DOUBLE x, Some y => compute_double vm op x y (fun r => Continue (push vm (VAL_DOUBLE r)) (ip + 4))
      | _, _ => fail vm "Operands must be double"
      end))).

Definition exec_stack_local_double (op : double_op) (vm : VM) (ip : Z) : outcome :=
  ensure vm ip 2 (
    match last (stack vm) with
    | None => fail vm "Stack underflow"
    | Some a => with_local vm (code_at ip) (fun b =>
        match a, b with
        | VAL_DOUBLE x, VAL_DOUBLE y => compute_double vm op x y (fun r => Continue (set_top vm (VAL_DOUBLE r)) (ip + 2))
        | _, _ => fail vm "Operands must be double"
        end)
    end).

Definition exec_stack_const_double (op : double_op) (vm : VM) (ip : Z) : outcome :=
  ensure vm ip 2 (
    match last (stack vm) with
    | None => fail vm "Stack underflow"
    | Some a => with_constant vm (code_at ip) (fun c =>
        match a, double_constant c with
        | VAL_DOUBLE x, Some y => compute_double vm op x y (fun r => Continue (set_top vm (VAL_DOUBLE r)) (ip + 2))
        | _, _ => fail vm "Operands must be double"
        end)
    end).

(** The operations that look at the types of their operands. *)
Definition finish_arith (vm : VM) (ip : Z) (r : arith_result) : outcome :=
  match r with
  | Computed v => Continue (push vm v) ip
  | Failed message => fail vm message
  | ComputeUndefined => Undefined
  | ComputeUnmodelled => Unmodelled
  end.
Definition exec_arith2 (f : Value -> Value -> arith_result) (vm : VM) (ip : Z) : outcome :=
  let '(b, vm) := pop vm in
  let '(a, vm) := pop vm in
  finish_arith vm ip (f a b).
Definition exec_arith1 (f : Value -> arith_result) (vm : VM) (ip : Z) : outcome :=
  let '(a, vm) := pop vm in finish_arith vm ip (f a).

(** [OP_RECIP_INT_TO_DOUBLE]: the top of the stack is replaced. *)
Definition exec_recip (vm : VM) (ip : Z) : outcome :=
  match reverse (stack vm) with
  | [] => fail vm "Stack underflow"
  | VAL_INT x :: _ =>
      match recip_int x with
      | Computed r => Continue (set_top vm r) ip
      | Failed message => fail vm message
      | ComputeUndefined => Undefined
      | ComputeUnmodelled => Unmodelled
      end
  | _ :: rest => fail (with_stack (reverse rest) vm) "Operand must be integer"
  end.

(** [OP_EVALA_RECIP_LOCALS_DOUBLE]: the reciprocal of
    [(i + j) * (i + j + 1) / 2 + i + 1]. *)
Definition evala_denom (i j : Z) : option Z :=
  let? ij := c_int64 (i + j) in
  let? t1 := c_int64 (ij + 1) in
  let odd := negb (Z.land ij 1 =? 0) in
  let? tri := c_int64 (if odd then ij * Z.quot t1 2 else Z.quot ij 2 * t1) in
  let? s := c_int64 (tri + i) in
  c_int64 (s + 1).
Definition exec_evala_recip (vm : VM) (ip : Z) : outcome :=
  ensure vm ip 2 (
    with_local vm (code_at ip) (fun a => with_local vm (code_at (ip + 1)) (fun b =>
      match a, b with
      | VAL_INT i, VAL_INT j =>
          match evala_denom i j with
          | None => Undefined
          | Some denom => finish_arith vm (ip + 2) (recip_int denom)
          end
      | _, _ => fail vm "Operands must be integer"
      end))).

(** [OP_LT] and the like. *)
Definition exec_compare (op : cmp_op) (vm : VM) (ip : Z) : outcome :=
  let '(b, vm) := pop vm in
  let '(a, vm) := pop vm in
  match vm_compute_comparison_op op a b with
  | inl message => fail vm message
  | inr r => Continue (push vm (VAL_BOOL r)) ip
  end.

Definition exec_equal (negate : bool) (vm : VM) (ip : Z) : outcome :=
  let '(b, vm) := pop vm in
  let '(a, vm) := pop vm in
  match value_equals a b with
  | None => Unmodelled
  | Some r => Continue (push vm (VAL_BOOL (if negate then negb r else r))) ip
  end.

Definition exec_logic (op : bool -> bool -> bool) (vm : VM) (ip : Z) : outcome :=
  let '(b, vm) := pop vm in
  let '(a, vm) := pop vm in
  match a, b with
  | VAL_BOOL x, VAL_BOOL y => Continue (push vm (VAL_BOOL (op x y))) ip
  | _, _ => fail vm "Operands must be bool for logical operation"
  end.

(** Two numbers of the same type compared for a jump. *)
Definition jump_compare (op : cmp_op) (a b : Value) : option bool :=
  match a, b with
  | VAL_INT x, VAL_INT y => Some (int_compare op x y)
  | VAL_DOUBLE x, VAL_DOUBLE y => Some (double_compare op x y)
  | _, _ => None
  end.
Definition constant_value (c : Constant) : Value :=
  match payload c with
  | as_int i => if type_index c =? 0 then VAL_INT i else VAL_NIL
  | as_double d => if type_index c =? 1 then VAL_DOUBLE d else VAL_NIL
  | as_string _ => VAL_NIL
  end.
Definition jump_if (vm : VM) (ip offset : Z) (r : option bool) : outcome :=
  match r with
  | Some should_jump => Continue vm (if should_jump then ip + offset else ip)
  | None => fail vm "Operands must be same numeric type"
  end.

Definition exec_jump_locals (op : cmp_op) (vm : VM) (ip : Z) : outcome :=
  ensure vm ip 4 (
    with_local vm (code_at ip) (fun a => with_local vm (code_at (ip + 1)) (fun b =>
      jump_if vm (ip + 4) (offset_at (ip + 2)) (jump_compare op a b)))).

Definition exec_jump_local_const (op : cmp_op) (vm : VM) (ip : Z) : outcome :=
  ensure vm ip 4 (
    with_constant vm (code_at (ip + 1)) (fun c => with_local vm (code_at ip) (fun a =>
      jump_if vm (ip + 4) (offset_at (ip + 2)) (jump_compare op a (constant_value c))))).

(** [None] where the elements of two tuples have to be compared. *)
Definition jump_if_equal (negate : bool) (vm : VM) (ip offset : Z) (r : option bool) : outcome :=
  match r with
  | None => Unmodelled
  | Some eq => Continue vm (if xorb negate eq then ip + offset else ip)
  end.

(** The equality of two locals: on integers, booleans, doubles and strings the
    code compares in place what [value_equals] compares. *)
Definition exec_jump_locals_equal (negate : bool) (vm : VM) (ip : Z) : outcome :=
  ensure vm ip 4 (
    with_local vm (code_at ip) (fun a => with_local vm (code_at (ip + 1)) (fun b =>
      jump_if_equal negate vm (ip + 4) (offset_at (ip + 2)) (value_equals a b)))).

Definition vm_value_equals_constant_fast_for_branch (a : Value) (c : Constant) : bool :=
  match a, payload c with
  | VAL_INT x, as_int y => (type_index c =? 0) && (x =? y)
  | VAL_BOOL x, as_int y => (type_index c =? 4) && eqb x (negb (y =? 0))
  | VAL_DOUBLE x, as_double y => (type_index c =? 1) && double_eq x y
  | VAL_STRING (Some x), as_string (Some y) =>
      (type_index c =? 2) && bool_decide (option_map c_string (chars x) = Some (c_string y))
  | _, _ => false
  end.

Definition exec_jump_local_const_equal (negate : bool) (vm : VM) (ip : Z) : outcome :=
  ensure vm ip 4 (
    with_constant vm (code_at (ip + 1)) (fun c => with_local vm (code_at ip) (fun a =>
      jump_if_equal negate vm (ip + 4) (offset_at (ip + 2)) (Some (vm_value_equals_constant_fast_for_branch a c))))).

Definition drop_top (vm : VM) : VM := with_stack (removelast (stack vm)) vm.

Definition exec_jump_stack_local (op : cmp_op) (vm : VM) (ip : Z) : outcome :=
  ensure vm ip 3 (
    match last (stack vm) with
    | None => fail vm "Stack underflow"
    | Some a => with_local vm (code_at ip) (fun b =>
        match jump_compare op a b with
        | None => fail vm "Operands must be same numeric type"
        | r => jump_if (drop_top vm) (ip + 3) (offset_at (ip + 1)) r
        end)
    end).

Definition exec_jump_stack_const (op : cmp_op) (vm : VM) (ip : Z) : outcome :=
  ensure vm ip 3 (
    with_constant vm (code_at ip) (fun c =>
      match last (stack vm) with
      | None => fail vm "Stack underflow"
      | Some a =>
          match jump_compare op a (constant_value c) with
          | None => fail vm "Operands must be same numeric type"
          | r => jump_if (drop_top vm) (ip + 3) (offset_at (ip + 1)) r
          end
      end)).

Definition exec_jump_if_false (vm : VM) (ip : Z) : outcome :=
  ensure vm ip 2 (
    let '(condition, vm) := peek0 vm in
    match condition with
    | VAL_BOOL c => Continue vm (if negb c then ip + 2 + offset_at ip else ip + 2)
    | _ => fail vm "Condition must be bool"
    end).

Definition exec_jump_if_false_pop (vm : VM) (ip : Z) : outcome :=
  ensure vm ip 3 (
    let '(condition, vm) := peek0 vm in
    match condition with
    | VAL_BOOL c => if negb c then Continue vm (ip + 2 + offset_at ip) else Continue (snd (pop vm)) (ip + 3)
    | _ => fail vm "Condition must be bool"
    end).

(** [local[slot] += c], one half of [OP_ADD2_LOCAL_CONST]. *)
Definition add_local_const (negate : bool) (vm : VM) (slot index : Z) (k : VM -> outcome) : outcome :=
  with_constant vm index (fun c => with_local vm slot (fun a =>
    match a, int_constant c with
    | VAL_INT x, Some y =>
        match int_arith (if negate then ISub else IAdd) x y with
        | None => Undefined
        | Some r => match set_local vm slot (VAL_INT r) with Some vm => k vm | None => Undefined end
        end
    | VAL_DOUBLE x, _ =>
        match double_constant c with
        | Some y =>
            let r := double_arith (if negate then DSub else DAdd) x y in
            match set_local vm slot (VAL_DOUBLE r) with Some vm => k vm | None => Undefined end
        | None => fail vm "Operands must be numbers"
        end
    | _, _ => fail vm "Operands must be numbers"
    end)).

(** [OP_ADD_LOCAL_STACK_INT] and [OP_SUB_LOCAL_STACK_INT]. *)
Definition exec_local_stack_int (op : int_op) (vm : VM) (ip : Z) : outcome :=
  ensure vm ip 1 (
    match last (stack vm) with
    | None => fail vm "Stack underflow"
    | Some rhs => with_local vm (code_at ip) (fun dst =>
        match dst, rhs with
        | VAL_INT x, VAL_INT y =>
            match int_arith op x y with
            | None => Undefined
            | Some r => match set_local vm (code_at ip) (VAL_INT r) with
                        | Some vm => Continue (drop_top vm) (ip + 1)
                        | None => Undefined
                        end
            end
        | _, _ => fail (drop_top vm) "Operands must be integer"
        end)
    end).

(** [OP_ADD_LOCAL_STACK_DOUBLE] and [OP_SUB_LOCAL_STACK_DOUBLE]. *)
Definition exec_local_stack_double (op : double_op) (vm : VM) (ip : Z) : outcome :=
  ensure vm ip 1 (
    match last (stack vm) with
    | None => fail vm "Stack underflow"
    | Some rhs => with_local vm (code_at ip) (fun dst =>
        match dst, rhs with
        | VAL_DOUBLE x, VAL_DOUBLE y =>
            match set_local vm (code_at ip) (VAL_DOUBLE (double_arith op x y)) with
            | Some vm => Continue (drop_top vm) (ip + 1)
            | None => Undefined
            end
        | _, _ => fail (drop_top vm) "Operands must be double"
        end)
    end).

(** [OP_ADD_LOCAL_DIV_LOCALS]. *)
Definition exec_add_local_div_locals (vm : VM) (ip : Z) : outcome :=
  ensure vm ip 3 (
    with_local vm (code_at ip) (fun dst => with_local vm (code_at (ip + 1)) (fun num =>
      with_local vm (code_at (ip + 2)) (fun den =>
        match dst, num, den with
        | VAL_DOUBLE d, VAL_DOUBLE x, VAL_DOUBLE y =>
            compute_double vm DDiv x y (fun q =>
              match set_local vm (code_at ip) (VAL_DOUBLE (double_arith DAdd d q)) with
              | Some vm => Continue vm (ip + 3)
              | None => Undefined
              end)
        | _, _, _ => fail vm "Operands must be double"
        end)))).

(** [OP_MUL_LOCALS_DOUBLE_TO_LOCAL]. *)
Definition exec_mul_double_to_local (vm : VM) (ip : Z) : outcome :=
  ensure vm ip 6 (
    with_local vm (code_at (ip + 1)) (fun a => with_local vm (code_at (ip + 2)) (fun b =>
      match a, b with
      | VAL_DOUBLE x, VAL_DOUBLE y =>
          match set_local vm (code_at ip) (VAL_DOUBLE (double_arith DMul x y)) with
          | Some vm => Continue vm (ip + 6)
          | None => Undefined
          end
      | _, _ => fail vm "Operands must be double"
      end))).

(** [OP_MUL_LOCALS_INT_TO_LOCAL]. *)
Definition exec_mul_to_local (vm : VM) (ip : Z) : outcome :=
  ensure vm ip 6 (
    with_local vm (code_at (ip + 1)) (fun a => with_local vm (code_at (ip + 2)) (fun b =>
      match a, b with
      | VAL_INT x, VAL_INT y => compute vm IMul x y (fun r =>
          match set_local vm (code_at ip) (VAL_INT r) with Some vm => Continue vm (ip + 6) | None => Undefined end)
      | _, _ => fail vm "Operands must be integer"
      end))).

(** [OP_NEG_INT], [OP_BIT_NOT_INT]. *)
Definition exec_unary_int (op : Z -> option Z) (vm : VM) (ip : Z) : outcome :=
  match last (stack vm) with
  | None => fail vm "Stack underflow"
  | Some (VAL_INT x) => match op x with Some r => Continue (set_top vm (VAL_INT r)) ip | None => Undefined end
  | Some _ => fail (drop_top vm) "Operand must be integer"
  end.

Definition exec_neg_double (vm : VM) (ip : Z) : outcome :=
  match last (stack vm) with
  | None => fail vm "Stack underflow"
  | Some (VAL_DOUBLE x) => Continue (set_top vm (VAL_DOUBLE (double_neg x))) ip
  | Some _ => fail (drop_top vm) "Operand must be double"
  end.

(** [OP_RET] of a synchronous frame. *)
Definition exec_return (vm : VM) : outcome :=
  let '(result, vm) := pop vm in
  match error_message vm with
  | Some _ => Halted vm
  | None =>
      let vm := stack_pop_to vm slots_start in
      let vm := with_frames (frame_count vm - 1) vm in
      if frame_count vm =? 0 then Exited vm result else Finished (push vm result)
  end.

(** The [switch] of the loop; [ip] is after the opcode. *)
Definition exec (op : OpCode) (vm : VM) (ip : Z) : outcome :=
  match op with
  | OP_NOP => Continue vm ip
  | OP_POP => Continue (snd (pop vm)) ip
  | OP_DUP => match last (stack vm) with None => fail vm "Stack underflow" | Some v => Continue (push vm v) ip end
  | OP_CONST =>
      ensure vm ip 1 (
        if code_at ip =? 255 then Continue (push vm VAL_NIL) (ip + 1)
        else vm_push_constant_by_index vm (code_at ip) (ip + 1))
  | OP_CONST16 =>
      ensure vm ip 2 (vm_push_constant_by_index vm (Z.lor (Z.shiftl (code_at ip) 8) (code_at (ip + 1))) (ip + 2))
  | OP_LOAD_LOCAL => ensure vm ip 1 (with_local vm (code_at ip) (fun v => Continue (push vm v) (ip + 1)))
  | OP_STORE_LOCAL =>
      ensure vm ip 1 (
        let '(v, vm) := pop vm in
        match set_local vm (code_at ip) v with Some vm => Continue vm (ip + 1) | None => Undefined end)
  | OP_ADD_LOCAL_STACK_INT => exec_local_stack_int IAdd vm ip
  | OP_SUB_LOCAL_STACK_INT => exec_local_stack_int ISub vm ip
  | OP_ADD_LOCAL_CONST =>
      ensure vm ip 2 (add_local_const false vm (code_at ip) (code_at (ip + 1)) (fun vm => Continue vm (ip + 2)))
  | OP_SUB_LOCAL_CONST =>
      ensure vm ip 2 (add_local_const true vm (code_at ip) (code_at (ip + 1)) (fun vm => Continue vm (ip + 2)))
  | OP_ADD2_LOCAL_CONST =>
      ensure vm ip 5 (
        with_constant vm (code_at (ip + 1)) (fun _ => with_constant vm (code_at (ip + 3)) (fun _ =>
          add_local_const false vm (code_at ip) (code_at (ip + 1)) (fun vm =>
            add_local_const false vm (code_at (ip + 2)) (code_at (ip + 3)) (fun vm => Continue vm (ip + 5))))))
  | OP_NEGATE_LOCAL =>
      ensure vm ip 1 (with_local vm (code_at ip) (fun a =>
        match a with
        | VAL_INT x =>
            match c_int64 (- x) with
            | None => Undefined
            | Some r => match set_local vm (code_at ip) (VAL_INT r) with Some vm => Continue vm (ip + 1) | None => Undefined end
            end
        | VAL_DOUBLE x =>
            match set_local vm (code_at ip) (VAL_DOUBLE (double_neg x)) with Some vm => Continue vm (ip + 1) | None => Undefined end
        | _ => fail vm "Operand must be a number"
        end))
  | OP_ADD_INT => exec_stack_int IAdd vm ip | OP_SUB_INT => exec_stack_int ISub vm ip
  | OP_MUL_INT => exec_stack_int IMul vm ip | OP_DIV_INT => exec_stack_int IDiv vm ip
  | OP_MOD_INT => exec_stack_int IMod vm ip | OP_BIT_AND_INT => exec_stack_int IAnd vm ip
  | OP_BIT_OR_INT => exec_stack_int IOr vm ip | OP_BIT_XOR_INT => exec_stack_int IXor vm ip
  | OP_NEG_INT => exec_unary_int (fun x => c_int64 (- x)) vm ip
  | OP_BIT_NOT_INT => exec_unary_int (fun x => Some (Z.lnot x)) vm ip
  | OP_ADD_LOCALS_INT => exec_locals_int IAdd vm ip | OP_SUB_LOCALS_INT => exec_locals_int ISub vm ip
  | OP_MUL_LOCALS_INT => exec_locals_int IMul vm ip | OP_DIV_LOCALS_INT => exec_locals_int IDiv vm ip
  | OP_MOD_LOCALS_INT => exec_locals_int IMod vm ip | OP_BIT_AND_LOCALS_INT => exec_locals_int IAnd vm ip
  | OP_BIT_OR_LOCALS_INT => exec_locals_int IOr vm ip | OP_BIT_XOR_LOCALS_INT => exec_locals_int IXor vm ip
  | OP_MUL_LOCALS_INT_TO_LOCAL => exec_mul_to_local vm ip
  | OP_ADD_LOCAL_CONST_INT => exec_local_const_int IAdd vm ip | OP_SUB_LOCAL_CONST_INT => exec_local_const_int ISub vm ip
  | OP_MUL_LOCAL_CONST_INT => exec_local_const_int IMul vm ip | OP_DIV_LOCAL_CONST_INT => exec_local_const_int IDiv vm ip
  | OP_MOD_LOCAL_CONST_INT => exec_local_const_int IMod vm ip | OP_BIT_AND_LOCAL_CONST_INT => exec_local_const_int IAnd vm ip
  | OP_BIT_OR_LOCAL_CONST_INT => exec_local_const_int IOr vm ip | OP_BIT_XOR_LOCAL_CONST_INT => exec_local_const_int IXor vm ip
  | OP_ADD_STACK_LOCAL_INT => exec_stack_local_int IAdd vm ip | OP_SUB_STACK_LOCAL_INT => exec_stack_local_int ISub vm ip
  | OP_MUL_STACK_LOCAL_INT => exec_stack_local_int IMul vm ip | OP_DIV_STACK_LOCAL_INT => exec_stack_local_int IDiv vm ip
  | OP_MOD_STACK_LOCAL_INT => exec_stack_local_int IMod vm ip | OP_BIT_AND_STACK_LOCAL_INT => exec_stack_local_int IAnd vm ip
  | OP_BIT_OR_STACK_LOCAL_INT => exec_stack_local_int IOr vm ip | OP_BIT_XOR_STACK_LOCAL_INT => exec_stack_local_int IXor vm ip
  | OP_ADD_STACK_CONST_INT => exec_stack_const_int IAdd vm ip | OP_SUB_STACK_CONST_INT => exec_stack_const_int ISub vm ip
  | OP_MUL_STACK_CONST_INT => exec_stack_const_int IMul vm ip | OP_DIV_STACK_CONST_INT => exec_stack_const_int IDiv vm ip
  | OP_MOD_STACK_CONST_INT => exec_stack_const_int IMod vm ip | OP_BIT_AND_STACK_CONST_INT => exec_stack_const_int IAnd vm ip
  | OP_BIT_OR_STACK_CONST_INT => exec_stack_const_int IOr vm ip | OP_BIT_XOR_STACK_CONST_INT => exec_stack_const_int IXor vm ip
  | OP_ADD_DOUBLE => exec_stack_double DAdd vm ip | OP_SUB_DOUBLE => exec_stack_double DSub vm ip
  | OP_MUL_DOUBLE => exec_stack_double DMul vm ip | OP_DIV_DOUBLE => exec_stack_double DDiv vm ip
  | OP_ADD_LOCALS_DOUBLE => exec_locals_double DAdd vm ip | OP_SUB_LOCALS_DOUBLE => exec_locals_double DSub vm ip
  | OP_MUL_LOCALS_DOUBLE => exec_locals_double DMul vm ip | OP_DIV_LOCALS_DOUBLE => exec_locals_double DDiv vm ip
  | OP_ADD_LOCAL_CONST_DOUBLE => exec_local_const_double DAdd vm ip | OP_SUB_LOCAL_CONST_DOUBLE => exec_local_const_double DSub vm ip
  | OP_MUL_LOCAL_CONST_DOUBLE => exec_local_const_double DMul vm ip | OP_DIV_LOCAL_CONST_DOUBLE => exec_local_const_double DDiv vm ip
  | OP_ADD_STACK_LOCAL_DOUBLE => exec_stack_local_double DAdd vm ip | OP_SUB_STACK_LOCAL_DOUBLE => exec_stack_local_double DSub vm ip
  | OP_MUL_STACK_LOCAL_DOUBLE => exec_stack_local_double DMul vm ip | OP_DIV_STACK_LOCAL_DOUBLE => exec_stack_local_double DDiv vm ip
  | OP_ADD_STACK_CONST_DOUBLE => exec_stack_const_double DAdd vm ip | OP_SUB_STACK_CONST_DOUBLE => exec_stack_const_double DSub vm ip
  | OP_MUL_STACK_CONST_DOUBLE => exec_stack_const_double DMul vm ip | OP_DIV_STACK_CONST_DOUBLE => exec_stack_const_double DDiv vm ip
  | OP_NEG_DOUBLE => exec_neg_double vm ip
  | OP_MUL_LOCALS_DOUBLE_TO_LOCAL => exec_mul_double_to_local vm ip
  | OP_ADD_LOCAL_STACK_DOUBLE => exec_local_stack_double DAdd vm ip
  | OP_SUB_LOCAL_STACK_DOUBLE => exec_local_stack_double DSub vm ip
  | OP_ADD_LOCAL_DIV_LOCALS => exec_add_local_div_locals vm ip
  | OP_ADD => exec_arith2 (vm_compute_arithmetic_op (max_string_length (config vm)) GAdd) vm ip | OP_SUB => exec_arith2 (vm_compute_arithmetic_op (max_string_length (config vm)) GSub) vm ip
  | OP_MUL => exec_arith2 (vm_compute_arithmetic_op (max_string_length (config vm)) GMul) vm ip | OP_DIV => exec_arith2 (vm_compute_arithmetic_op (max_string_length (config vm)) GDiv) vm ip
  | OP_MOD => exec_arith2 compute_mod vm ip | OP_NEG => exec_arith1 compute_neg vm ip
  | OP_BIT_AND => exec_arith2 (compute_bits BAnd) vm ip | OP_BIT_OR => exec_arith2 (compute_bits BOr) vm ip
  | OP_BIT_XOR => exec_arith2 (compute_bits BXor) vm ip | OP_BIT_NOT => exec_arith1 compute_bit_not vm ip
  | OP_CAST_INT => exec_arith1 compute_cast_int vm ip | OP_CAST_BOOL => exec_arith1 compute_cast_bool vm ip
  | OP_CAST_DOUBLE => exec_arith1 compute_cast_double vm ip | OP_CAST_STRING => exec_arith1 compute_cast_string vm ip
  | OP_CAST_BIGINT => exec_arith1 compute_cast_bigint vm ip
  | OP_RECIP_INT_TO_DOUBLE => exec_recip vm ip
  | OP_EVALA_RECIP_LOCALS_DOUBLE => exec_evala_recip vm ip
  | OP_JUMP_IF_LOCAL_EQ => exec_jump_locals_equal false vm ip | OP_JUMP_IF_LOCAL_NE => exec_jump_locals_equal true vm ip
  | OP_JUMP_IF_LOCAL_EQ_CONST => exec_jump_local_const_equal false vm ip
  | OP_JUMP_IF_LOCAL_NE_CONST => exec_jump_local_const_equal true vm ip
  | OP_EQ => exec_equal false vm ip | OP_NE => exec_equal true vm ip
  | OP_LT => exec_compare CLt vm ip | OP_LE => exec_compare CLe vm ip
  | OP_GT => exec_compare CGt vm ip | OP_GE => exec_compare CGe vm ip
  | OP_NOT =>
      let '(a, vm) := pop vm in
      match a with VAL_BOOL x => Continue (push vm (VAL_BOOL (negb x))) ip | _ => fail vm "Operand must be bool for logical not" end
  | OP_AND => exec_logic andb vm ip | OP_OR => exec_logic orb vm ip
  | OP_JUMP => ensure vm ip 2 (Continue vm (ip + 2 + offset_at ip))
  | OP_JUMP_IF_LOCAL_LT => exec_jump_locals CLt vm ip | OP_JUMP_IF_LOCAL_LE => exec_jump_locals CLe vm ip
  | OP_JUMP_IF_LOCAL_GT => exec_jump_locals CGt vm ip | OP_JUMP_IF_LOCAL_GE => exec_jump_locals CGe vm ip
  | OP_JUMP_IF_LOCAL_LT_CONST => exec_jump_local_const CLt vm ip | OP_JUMP_IF_LOCAL_LE_CONST => exec_jump_local_const CLe vm ip
  | OP_JUMP_IF_LOCAL_GT_CONST => exec_jump_local_const CGt vm ip | OP_JUMP_IF_LOCAL_GE_CONST => exec_jump_local_const CGe vm ip
  | OP_JUMP_IF_STACK_LT_LOCAL => exec_jump_stack_local CLt vm ip | OP_JUMP_IF_STACK_LE_LOCAL => exec_jump_stack_local CLe vm ip
  | OP_JUMP_IF_STACK_GT_LOCAL => exec_jump_stack_local CGt vm ip | OP_JUMP_IF_STACK_GE_LOCAL => exec_jump_stack_local CGe vm ip
  | OP_JUMP_IF_STACK_LT_CONST => exec_jump_stack_const CLt vm ip | OP_JUMP_IF_STACK_LE_CONST => exec_jump_stack_const CLe vm ip
  | OP_JUMP_IF_STACK_GT_CONST => exec_jump_stack_const CGt vm ip | OP_JUMP_IF_STACK_GE_CONST => exec_jump_stack_const CGe vm ip
  | OP_JUMP_IF_FALSE => exec_jump_if_false vm ip
  | OP_JUMP_IF_FALSE_POP => exec_jump_if_false_pop vm ip
  | OP_RET => exec_return vm
  | _ => Unmodelled
  end.

Definition count_instruction (vm : VM) : VM :=
  mkVM (stack vm) (frame_count vm) (instruction_count vm + 1) (error_message vm) (config vm).

(** One iteration of the loop. *)
Definition step (vm : VM) (ip : Z) : outcome :=
  match error_message vm with
  | Some _ => Halted vm
  | None =>
      let limited := 0 <? max_instructions (config vm) in
      let vm := if limited then count_instruction vm else vm in
      if limited && (max_instructions (config vm) <? instruction_count vm) then fail vm "Execution limit exceeded"
      else
        ensure vm ip 1 (
          match decode (code_at ip) with
          | None => fail vm "Unknown opcode"
          | Some op => exec op vm (ip + 1)
          end)
  end.

(** The iterations until the frame is left; [None] if [fuel] was too little. *)
Fixpoint run (fuel : nat) (vm : VM) (ip : Z) : option outcome :=
  match fuel with
  | O => None
  | S n => match step vm ip with Continue vm ip => run n vm ip | o => Some o end
  end.
End Frame.

(** The frame of a call whose arguments start at [args_base]. A function with
    captures is not modelled. *)
Definition vm_enter_sync_function_from_call (vm : VM) (called_func : ObjFunction) (args_base arg_count : Z) : outcome :=
  if negb (param_count called_func =? arg_count) then fail vm "Wrong number of arguments"
  else if max_call_depth (config vm) <? frame_count vm + 1 then fail vm "Stack overflow: maximum call depth exceeded"
  else if local_count called_func <? arg_count then fail vm "Function local slots less than arguments"
  else if is_async called_func then fail vm "Compiled entry dispatch does not support async functions"
  else if 0 <? capture_count called_func then Unmodelled
  else
    let vm := push_nil_count vm (local_count called_func - arg_count) in
    Continue (with_frames (frame_count vm + 1) vm) 0.

(** A call that is interpreted to its end. *)
Definition interpret (fuel : nat) (vm : VM) (called_func : ObjFunction) (args_base : nat) (arg_count : Z) : option outcome :=
  match vm_enter_sync_function_from_call vm called_func (Z.of_nat args_base) arg_count with
  | Continue vm ip => run called_func args_base fuel vm ip
  | o => Some o
  end.

Lemma decode_op_byte op : decode (op_byte op) = Some op.
Proof. by destruct op. Qed.
