(* ===== verification/Jit.v ===== *)
(** * Compiled plans: [src/src/jit.c] and [vm_jit_native_compiled_entry] of
    [src/src/vm.c]

    A hot function whose body has one of a few shapes is not interpreted: its
    call is computed from a plan. The plan comes from a summary of the body,
    which the bytecode compiler has stored with the function or which is
    recovered from its bytecode by matching exact instruction sequences. This
    file has the plans and summaries, the matching, the execution of a plan,
    and the queue of hot functions. Enumerations are integers, as in the
    function object that the loader fills. *)

From S2P Require Import Prelude.
From Stdlib Require Import String.
From stdpp Require Import gmap.
From S2P Require Import Values Bytecode Doubles Operators Machine.

Open Scope Z_scope.
Open Scope list_scope.

(** ** Enumerations of [vm.h] *)

Definition JIT_COMPILED_KIND_STUB : Z := 1.
Definition JIT_COMPILED_KIND_INT_ADD_LOCAL_CONST : Z := 2.
Definition JIT_COMPILED_KIND_INT_GUARD_GE_CONST_RET_LOCAL_ELSE_ADD_CONST : Z := 3.
Definition JIT_COMPILED_KIND_INT_MUL_LOCAL_CONST : Z := 4.
Definition JIT_COMPILED_KIND_INT_GUARD_GE_CONST_RET_LOCAL_ELSE_MUL_CONST : Z := 5.
Definition JIT_COMPILED_KIND_INT_SUB_LOCAL_CONST : Z := 6.
Definition JIT_COMPILED_KIND_INT_GUARD_GE_CONST_RET_LOCAL_ELSE_SUB_CONST : Z := 7.
Definition JIT_COMPILED_KIND_INT_DIV_LOCAL_CONST : Z := 8.
Definition JIT_COMPILED_KIND_INT_GUARD_GE_CONST_RET_LOCAL_ELSE_DIV_CONST : Z := 9.
Definition JIT_COMPILED_KIND_INT_MOD_LOCAL_CONST : Z := 10.
Definition JIT_COMPILED_KIND_INT_GUARD_GE_CONST_RET_LOCAL_ELSE_MOD_CONST : Z := 11.
Definition JIT_COMPILED_KIND_INT_BIT_AND_LOCAL_CONST : Z := 12.
Definition JIT_COMPILED_KIND_INT_GUARD_GE_CONST_RET_LOCAL_ELSE_BIT_AND_CONST : Z := 13.
Definition JIT_COMPILED_KIND_INT_BIT_OR_LOCAL_CONST : Z := 14.
Definition JIT_COMPILED_KIND_INT_GUARD_GE_CONST_RET_LOCAL_ELSE_BIT_OR_CONST : Z := 15.
Definition JIT_COMPILED_KIND_INT_BIT_XOR_LOCAL_CONST : Z := 16.
Definition JIT_COMPILED_KIND_INT_GUARD_GE_CONST_RET_LOCAL_ELSE_BIT_XOR_CONST : Z := 17.
Definition JIT_COMPILED_KIND_INT_ADD_LOCALS : Z := 18.
Definition JIT_COMPILED_KIND_INT_SUB_LOCALS : Z := 19.
Definition JIT_COMPILED_KIND_INT_MUL_LOCALS : Z := 20.
Definition JIT_COMPILED_KIND_INT_BIT_AND_LOCALS : Z := 21.
Definition JIT_COMPILED_KIND_INT_BIT_OR_LOCALS : Z := 22.
Definition JIT_COMPILED_KIND_INT_BIT_XOR_LOCALS : Z := 23.
Definition JIT_COMPILED_KIND_INT_GUARD_GE_CONST_RET_LOCAL_ELSE_ADD_LOCALS : Z := 24.
Definition JIT_COMPILED_KIND_INT_GUARD_GE_CONST_RET_LOCAL_ELSE_SUB_LOCALS : Z := 25.
Definition JIT_COMPILED_KIND_INT_GUARD_GE_CONST_RET_LOCAL_ELSE_MUL_LOCALS : Z := 26.
Definition JIT_COMPILED_KIND_INT_GUARD_GE_CONST_RET_LOCAL_ELSE_BIT_AND_LOCALS : Z := 27.
Definition JIT_COMPILED_KIND_INT_GUARD_GE_CONST_RET_LOCAL_ELSE_BIT_OR_LOCALS : Z := 28.
Definition JIT_COMPILED_KIND_INT_GUARD_GE_CONST_RET_LOCAL_ELSE_BIT_XOR_LOCALS : Z := 29.
Definition JIT_COMPILED_KIND_BOOL_LT_LOCALS : Z := 30.
Definition JIT_COMPILED_KIND_BOOL_LE_LOCALS : Z := 31.
Definition JIT_COMPILED_KIND_BOOL_EQ_LOCALS : Z := 32.
Definition JIT_COMPILED_KIND_BOOL_NE_LOCALS : Z := 33.
Definition JIT_COMPILED_KIND_BOOL_GT_LOCALS : Z := 34.
Definition JIT_COMPILED_KIND_BOOL_GE_LOCALS : Z := 35.
Definition JIT_COMPILED_KIND_INT_SELECT_LT_LOCALS : Z := 36.
Definition JIT_COMPILED_KIND_INT_SELECT_LE_LOCALS : Z := 37.
Definition JIT_COMPILED_KIND_INT_SELECT_GT_LOCALS : Z := 38.
Definition JIT_COMPILED_KIND_INT_SELECT_GE_LOCALS : Z := 39.
Definition JIT_COMPILED_KIND_INT_GUARD_GE_CONST_RET_LOCAL_ELSE_SELECT_LT_LOCALS : Z := 40.
Definition JIT_COMPILED_KIND_INT_GUARD_GE_CONST_RET_LOCAL_ELSE_SELECT_LE_LOCALS : Z := 41.
Definition JIT_COMPILED_KIND_INT_GUARD_GE_CONST_RET_LOCAL_ELSE_SELECT_GT_LOCALS : Z := 42.
Definition JIT_COMPILED_KIND_INT_GUARD_GE_CONST_RET_LOCAL_ELSE_SELECT_GE_LOCALS : Z := 43.
Definition JIT_COMPILED_KIND_BOOL_GUARD_GE_CONST_RET_BOOL_ELSE_LT_LOCALS : Z := 44.
Definition JIT_COMPILED_KIND_BOOL_GUARD_GE_CONST_RET_BOOL_ELSE_LE_LOCALS : Z := 45.
Definition JIT_COMPILED_KIND_BOOL_GUARD_GE_CONST_RET_BOOL_ELSE_EQ_LOCALS : Z := 46.
Definition JIT_COMPILED_KIND_BOOL_GUARD_GE_CONST_RET_BOOL_ELSE_NE_LOCALS : Z := 47.
Definition JIT_COMPILED_KIND_BOOL_GUARD_GE_CONST_RET_BOOL_ELSE_GT_LOCALS : Z := 48.
Definition JIT_COMPILED_KIND_BOOL_GUARD_GE_CONST_RET_BOOL_ELSE_GE_LOCALS : Z := 49.
Definition JIT_COMPILED_KIND_BOOL_LT_LOCAL_CONST : Z := 50.
Definition JIT_COMPILED_KIND_BOOL_LE_LOCAL_CONST : Z := 51.
Definition JIT_COMPILED_KIND_BOOL_EQ_LOCAL_CONST : Z := 52.
Definition JIT_COMPILED_KIND_BOOL_NE_LOCAL_CONST : Z := 53.
Definition JIT_COMPILED_KIND_BOOL_GT_LOCAL_CONST : Z := 54.
Definition JIT_COMPILED_KIND_BOOL_GE_LOCAL_CONST : Z := 55.
Definition JIT_COMPILED_KIND_INT_SELECT_LT_LOCAL_CONST_RET_LOCAL : Z := 56.
Definition JIT_COMPILED_KIND_INT_SELECT_LT_LOCAL_CONST_RET_CONST : Z := 57.
Definition JIT_COMPILED_KIND_INT_SELECT_LE_LOCAL_CONST_RET_LOCAL : Z := 58.
Definition JIT_COMPILED_KIND_INT_SELECT_LE_LOCAL_CONST_RET_CONST : Z := 59.
Definition JIT_COMPILED_KIND_INT_SELECT_GT_LOCAL_CONST_RET_LOCAL : Z := 60.
Definition JIT_COMPILED_KIND_INT_SELECT_GT_LOCAL_CONST_RET_CONST : Z := 61.
Definition JIT_COMPILED_KIND_INT_SELECT_GE_LOCAL_CONST_RET_LOCAL : Z := 62.
Definition JIT_COMPILED_KIND_INT_SELECT_GE_LOCAL_CONST_RET_CONST : Z := 63.
Definition JIT_COMPILED_KIND_INT_GUARD_GE_CONST_RET_LOCAL_ELSE_SELECT_LT_LOCAL_CONST_RET_LOCAL : Z := 64.
Definition JIT_COMPILED_KIND_INT_GUARD_GE_CONST_RET_LOCAL_ELSE_SELECT_LT_LOCAL_CONST_RET_CONST : Z := 65.
Definition JIT_COMPILED_KIND_INT_GUARD_GE_CONST_RET_LOCAL_ELSE_SELECT_LE_LOCAL_CONST_RET_LOCAL : Z := 66.
Definition JIT_COMPILED_KIND_INT_GUARD_GE_CONST_RET_LOCAL_ELSE_SELECT_LE_LOCAL_CONST_RET_CONST : Z := 67.
Definition JIT_COMPILED_KIND_INT_GUARD_GE_CONST_RET_LOCAL_ELSE_SELECT_GT_LOCAL_CONST_RET_LOCAL : Z := 68.
Definition JIT_COMPILED_KIND_INT_GUARD_GE_CONST_RET_LOCAL_ELSE_SELECT_GT_LOCAL_CONST_RET_CONST : Z := 69.
Definition JIT_COMPILED_KIND_INT_GUARD_GE_CONST_RET_LOCAL_ELSE_SELECT_GE_LOCAL_CONST_RET_LOCAL : Z := 70.
Definition JIT_COMPILED_KIND_INT_GUARD_GE_CONST_RET_LOCAL_ELSE_SELECT_GE_LOCAL_CONST_RET_CONST : Z := 71.
Definition JIT_COMPILED_KIND_BOOL_COMPARE_LOCALS_GENERIC : Z := 72.
Definition JIT_COMPILED_KIND_BOOL_COMPARE_GUARDED_LOCALS_GENERIC : Z := 73.
Definition JIT_COMPILED_KIND_BOOL_COMPARE_LOCAL_CONST_GENERIC : Z := 74.
Definition JIT_COMPILED_KIND_INT_SELECTOR_LOCALS_GENERIC : Z := 75.
Definition JIT_COMPILED_KIND_INT_SELECTOR_GUARDED_LOCALS_GENERIC : Z := 76.
Definition JIT_COMPILED_KIND_INT_SELECTOR_LOCAL_CONST_GENERIC : Z := 77.
Definition JIT_COMPILED_KIND_INT_SELECTOR_GUARDED_LOCAL_CONST_GENERIC : Z := 78.
Definition JIT_COMPILED_KIND_INT_BINARY_LOCAL_CONST_GENERIC : Z := 79.
Definition JIT_COMPILED_KIND_INT_BINARY_GUARDED_LOCAL_CONST_GENERIC : Z := 80.
Definition JIT_COMPILED_KIND_INT_BINARY_LOCALS_GENERIC : Z := 81.
Definition JIT_COMPILED_KIND_INT_BINARY_GUARDED_LOCALS_GENERIC : Z := 82.

Definition JIT_SUMMARY_OP_NONE : Z := 0.
Definition JIT_SUMMARY_OP_ADD : Z := 1.
Definition JIT_SUMMARY_OP_SUB : Z := 2.
Definition JIT_SUMMARY_OP_MUL : Z := 3.
Definition JIT_SUMMARY_OP_DIV : Z := 4.
Definition JIT_SUMMARY_OP_MOD : Z := 5.
Definition JIT_SUMMARY_OP_BIT_AND : Z := 6.
Definition JIT_SUMMARY_OP_BIT_OR : Z := 7.
Definition JIT_SUMMARY_OP_BIT_XOR : Z := 8.
Definition JIT_SUMMARY_OP_LT : Z := 9.
Definition JIT_SUMMARY_OP_LE : Z := 10.
Definition JIT_SUMMARY_OP_EQ : Z := 11.
Definition JIT_SUMMARY_OP_NE : Z := 12.
Definition JIT_SUMMARY_OP_GT : Z := 13.
Definition JIT_SUMMARY_OP_GE : Z := 14.

Definition JIT_PLAN_FLAG_NONE : Z := 0.
Definition JIT_PLAN_FLAG_RETURN_LOCAL_ON_TRUE : Z := 1.

Inductive JitFunctionState :=
  | JIT_FUNC_STATE_COLD | JIT_FUNC_STATE_QUEUED | JIT_FUNC_STATE_COMPILING | JIT_FUNC_STATE_COMPILED_STUB | JIT_FUNC_STATE_COMPILED_NATIVE | JIT_FUNC_STATE_FAILED.
Inductive JitFunctionReason :=
  | JIT_REASON_NONE | JIT_REASON_QUEUED_HOT | JIT_REASON_NATIVE_HINT | JIT_REASON_NATIVE_EXACT | JIT_REASON_STUB_FALLBACK | JIT_REASON_UNSUPPORTED_ASYNC | JIT_REASON_UNSUPPORTED_SHAPE.

Definition kind_in (kinds : list Z) (k : Z) : bool := existsb (Z.eqb k) kinds.
(** The operation a [switch] assigns to a kind. *)
Fixpoint op_of_kind {A} (table : list (Z * A)) (k : Z) : option A :=
  match table with
  | [] => None
  | (k', a) :: table' => if k =? k' then Some a else op_of_kind table' k
  end.

Definition supported_kinds : list Z :=
  [JIT_COMPILED_KIND_INT_ADD_LOCAL_CONST;
   JIT_COMPILED_KIND_INT_GUARD_GE_CONST_RET_LOCAL_ELSE_ADD_CONST;
   JIT_COMPILED_KIND_INT_MUL_LOCAL_CONST;
   JIT_COMPILED_KIND_INT_GUARD_GE_CONST_RET_LOCAL_ELSE_MUL_CONST;
   JIT_COMPILED_KIND_INT_SUB_LOCAL_CONST;
   JIT_COMPILED_KIND_INT_GUARD_GE_CONST_RET_LOCAL_ELSE_SUB_CONST;
   JIT_COMPILED_KIND_INT_DIV_LOCAL_CONST;
   JIT_COMPILED_KIND_INT_GUARD_GE_CONST_RET_LOCAL_ELSE_DIV_CONST;
   JIT_COMPILED_KIND_INT_MOD_LOCAL_CONST;
   JIT_COMPILED_KIND_INT_GUARD_GE_CONST_RET_LOCAL_ELSE_MOD_CONST;
   JIT_COMPILED_KIND_INT_BIT_AND_LOCAL_CONST;
   JIT_COMPILED_KIND_INT_GUARD_GE_CONST_RET_LOCAL_ELSE_BIT_AND_CONST;
   JIT_COMPILED_KIND_INT_BIT_OR_LOCAL_CONST;
   JIT_COMPILED_KIND_INT_GUARD_GE_CONST_RET_LOCAL_ELSE_BIT_OR_CONST;
   JIT_COMPILED_KIND_INT_BIT_XOR_LOCAL_CONST;
   JIT_COMPILED_KIND_INT_GUARD_GE_CONST_RET_LOCAL_ELSE_BIT_XOR_CONST;
   JIT_COMPILED_KIND_INT_ADD_LOCALS;
   JIT_COMPILED_KIND_INT_SUB_LOCALS;
   JIT_COMPILED_KIND_INT_MUL_LOCALS;
   JIT_COMPILED_KIND_INT_BIT_AND_LOCALS;
   JIT_COMPILED_KIND_INT_BIT_OR_LOCALS;
   JIT_COMPILED_KIND_INT_BIT_XOR_LOCALS;
   JIT_COMPILED_KIND_INT_GUARD_GE_CONST_RET_LOCAL_ELSE_ADD_LOCALS;
   JIT_COMPILED_KIND_INT_GUARD_GE_CONST_RET_LOCAL_ELSE_SUB_LOCALS;
   JIT_COMPILED_KIND_INT_GUARD_GE_CONST_RET_LOCAL_ELSE_MUL_LOCALS;
   JIT_COMPILED_KIND_INT_GUARD_GE_CONST_RET_LOCAL_ELSE_BIT_AND_LOCALS;
   JIT_COMPILED_KIND_INT_GUARD_GE_CONST_RET_LOCAL_ELSE_BIT_OR_LOCALS;
   JIT_COMPILED_KIND_INT_GUARD_GE_CONST_RET_LOCAL_ELSE_BIT_XOR_LOCALS;
   JIT_COMPILED_KIND_BOOL_LT_LOCALS;
   JIT_COMPILED_KIND_BOOL_LE_LOCALS;
   JIT_COMPILED_KIND_BOOL_EQ_LOCALS;
   JIT_COMPILED_KIND_BOOL_NE_LOCALS;
   JIT_COMPILED_KIND_BOOL_GT_LOCALS;
   JIT_COMPILED_KIND_BOOL_GE_LOCALS;
   JIT_COMPILED_KIND_INT_SELECT_LT_LOCALS;
   JIT_COMPILED_KIND_INT_SELECT_LE_LOCALS;
   JIT_COMPILED_KIND_INT_SELECT_GT_LOCALS;
   JIT_COMPILED_KIND_INT_SELECT_GE_LOCALS;
   JIT_COMPILED_KIND_INT_GUARD_GE_CONST_RET_LOCAL_ELSE_SELECT_LT_LOCALS;
   JIT_COMPILED_KIND_INT_GUARD_GE_CONST_RET_LOCAL_ELSE_SELECT_LE_LOCALS;
   JIT_COMPILED_KIND_INT_GUARD_GE_CONST_RET_LOCAL_ELSE_SELECT_GT_LOCALS;
   JIT_COMPILED_KIND_INT_GUARD_GE_CONST_RET_LOCAL_ELSE_SELECT_GE_LOCALS;
   JIT_COMPILED_KIND_BOOL_GUARD_GE_CONST_RET_BOOL_ELSE_LT_LOCALS;
   JIT_COMPILED_KIND_BOOL_GUARD_GE_CONST_RET_BOOL_ELSE_LE_LOCALS;
   JIT_COMPILED_KIND_BOOL_GUARD_GE_CONST_RET_BOOL_ELSE_EQ_LOCALS;
   JIT_COMPILED_KIND_BOOL_GUARD_GE_CONST_RET_BOOL_ELSE_NE_LOCALS;
   JIT_COMPILED_KIND_BOOL_GUARD_GE_CONST_RET_BOOL_ELSE_GT_LOCALS;
   JIT_COMPILED_KIND_BOOL_GUARD_GE_CONST_RET_BOOL_ELSE_GE_LOCALS;
   JIT_COMPILED_KIND_BOOL_LT_LOCAL_CONST;
   JIT_COMPILED_KIND_BOOL_LE_LOCAL_CONST;
   JIT_COMPILED_KIND_BOOL_EQ_LOCAL_CONST;
   JIT_COMPILED_KIND_BOOL_NE_LOCAL_CONST;
   JIT_COMPILED_KIND_BOOL_GT_LOCAL_CONST;
   JIT_COMPILED_KIND_BOOL_GE_LOCAL_CONST;
   JIT_COMPILED_KIND_BOOL_COMPARE_LOCALS_GENERIC;
   JIT_COMPILED_KIND_BOOL_COMPARE_GUARDED_LOCALS_GENERIC;
   JIT_COMPILED_KIND_BOOL_COMPARE_LOCAL_CONST_GENERIC;
   JIT_COMPILED_KIND_INT_SELECTOR_LOCALS_GENERIC;
   JIT_COMPILED_KIND_INT_SELECTOR_GUARDED_LOCALS_GENERIC;
   JIT_COMPILED_KIND_INT_SELECTOR_LOCAL_CONST_GENERIC;
   JIT_COMPILED_KIND_INT_SELECTOR_GUARDED_LOCAL_CONST_GENERIC;
   JIT_COMPILED_KIND_INT_BINARY_LOCAL_CONST_GENERIC;
   JIT_COMPILED_KIND_INT_BINARY_GUARDED_LOCAL_CONST_GENERIC;
   JIT_COMPILED_KIND_INT_BINARY_LOCALS_GENERIC;
   JIT_COMPILED_KIND_INT_BINARY_GUARDED_LOCALS_GENERIC].
Definition jit_compiler_hint_kind_supported (kind : Z) : bool := kind_in supported_kinds kind.

Definition jit_compiled_plan_equals (a b : JitCompiledPlan) : bool :=
  (h_kind a =? h_kind b) && (h_op a =? h_op b) && (h_flags a =? h_flags b) && (local_slot a =? local_slot b) &&
  (local_slot_b a =? local_slot_b b) && (h_const0 a =? h_const0 b) && (h_const1 a =? h_const1 b).

(** ** From summaries to plans *)

Definition binary_ops : list Z :=
  [JIT_SUMMARY_OP_ADD; JIT_SUMMARY_OP_SUB; JIT_SUMMARY_OP_MUL; JIT_SUMMARY_OP_DIV; JIT_SUMMARY_OP_MOD;
   JIT_SUMMARY_OP_BIT_AND; JIT_SUMMARY_OP_BIT_OR; JIT_SUMMARY_OP_BIT_XOR].
Definition jit_map_local_const_summary_kind (op : Z) (guarded : bool) : option Z :=
  if kind_in binary_ops op
  then Some (if guarded then JIT_COMPILED_KIND_INT_BINARY_GUARDED_LOCAL_CONST_GENERIC
             else JIT_COMPILED_KIND_INT_BINARY_LOCAL_CONST_GENERIC)
  else None.

Definition twoarg_ops : list Z :=
  [JIT_SUMMARY_OP_ADD; JIT_SUMMARY_OP_SUB; JIT_SUMMARY_OP_MUL; JIT_SUMMARY_OP_BIT_AND; JIT_SUMMARY_OP_BIT_OR;
   JIT_SUMMARY_OP_BIT_XOR].
Definition jit_map_twoarg_int_summary_kind (op : Z) (guarded : bool) : option Z :=
  if kind_in twoarg_ops op
  then Some (if guarded then JIT_COMPILED_KIND_INT_BINARY_GUARDED_LOCALS_GENERIC
             else JIT_COMPILED_KIND_INT_BINARY_LOCALS_GENERIC)
  else None.

Definition compare_ops : list Z :=
  [JIT_SUMMARY_OP_LT; JIT_SUMMARY_OP_LE; JIT_SUMMARY_OP_EQ; JIT_SUMMARY_OP_NE; JIT_SUMMARY_OP_GT; JIT_SUMMARY_OP_GE].
Definition jit_map_twoarg_bool_summary_kind (op : Z) (guarded : bool) : option Z :=
  if kind_in compare_ops op
  then Some (if guarded then JIT_COMPILED_KIND_BOOL_COMPARE_GUARDED_LOCALS_GENERIC
             else JIT_COMPILED_KIND_BOOL_COMPARE_LOCALS_GENERIC)
  else None.
Definition jit_map_local_const_bool_summary_kind (op : Z) : option Z :=
  if kind_in compare_ops op then Some JIT_COMPILED_KIND_BOOL_COMPARE_LOCAL_CONST_GENERIC else None.

Definition order_ops : list Z := [JIT_SUMMARY_OP_LT; JIT_SUMMARY_OP_LE; JIT_SUMMARY_OP_GT; JIT_SUMMARY_OP_GE].
Definition jit_map_twoarg_selector_summary_kind (op : Z) (guarded : bool) : option Z :=
  if kind_in order_ops op
  then Some (if guarded then JIT_COMPILED_KIND_INT_SELECTOR_GUARDED_LOCALS_GENERIC
             else JIT_COMPILED_KIND_INT_SELECTOR_LOCALS_GENERIC)
  else None.
Definition jit_map_local_const_selector_summary_kind (op : Z) (guarded : bool) : option Z :=
  if kind_in order_ops op
  then Some (if guarded then JIT_COMPILED_KIND_INT_SELECTOR_GUARDED_LOCAL_CONST_GENERIC
             else JIT_COMPILED_KIND_INT_SELECTOR_LOCAL_CONST_GENERIC)
  else None.

Definition jit_plan_from_summary (s : JitFunctionSummary) : option JitCompiledPlan :=
  let op := s_op s in
  let return_flag := if negb (slot1 s =? 0) then JIT_PLAN_FLAG_RETURN_LOCAL_ON_TRUE else JIT_PLAN_FLAG_NONE in
  let plan flags b c0 c1 (kind : option Z) :=
    match kind with Some k => Some (mkPlan k op flags (slot0 s) b c0 c1) | None => None end in
  if s_kind s =? JIT_SUMMARY_KIND_INT_LOCAL_CONST_BINARY then
    plan 0 0 (s_const0 s) 0 (jit_map_local_const_summary_kind op false)
  else if s_kind s =? JIT_SUMMARY_KIND_INT_GUARDED_LOCAL_CONST_BINARY then
    plan 0 0 (s_const0 s) (s_const1 s) (jit_map_local_const_summary_kind op true)
  else if s_kind s =? JIT_SUMMARY_KIND_INT_TWOARG_BINARY then
    plan 0 (slot1 s) 0 0 (jit_map_twoarg_int_summary_kind op false)
  else if s_kind s =? JIT_SUMMARY_KIND_INT_GUARDED_TWOARG_BINARY then
    plan 0 (slot1 s) (s_const0 s) 0 (jit_map_twoarg_int_summary_kind op true)
  else if s_kind s =? JIT_SUMMARY_KIND_BOOL_TWOARG_COMPARE then
    plan 0 (slot1 s) 0 0 (jit_map_twoarg_bool_summary_kind op false)
  else if s_kind s =? JIT_SUMMARY_KIND_BOOL_LOCAL_CONST_COMPARE then
    plan 0 0 (s_const0 s) 0 (jit_map_local_const_bool_summary_kind op)
  else if s_kind s =? JIT_SUMMARY_KIND_BOOL_GUARDED_TWOARG_COMPARE then
    plan 0 (slot1 s) (s_const0 s) (s_const1 s) (jit_map_twoarg_bool_summary_kind op true)
  else if s_kind s =? JIT_SUMMARY_KIND_INT_TWOARG_SELECTOR then
    plan 0 (slot1 s) 0 0 (jit_map_twoarg_selector_summary_kind op false)
  else if s_kind s =? JIT_SUMMARY_KIND_INT_GUARDED_TWOARG_SELECTOR then
    plan 0 (slot1 s) (s_const0 s) 0 (jit_map_twoarg_selector_summary_kind op true)
  else if s_kind s =? JIT_SUMMARY_KIND_INT_LOCAL_CONST_SELECTOR then
    plan return_flag 0 (s_const0 s) 0 (jit_map_local_const_selector_summary_kind op false)
  else if s_kind s =? JIT_SUMMARY_KIND_INT_GUARDED_LOCAL_CONST_SELECTOR then
    plan return_flag 0 (s_const0 s) (s_const1 s) (jit_map_local_const_selector_summary_kind op true)
  else None.

(** ** Recovering a summary from bytecode *)

Section Matching.
Context (fn : ObjFunction).

Notation byte := (code_at fn).
Definition is_op (i : Z) (op : OpCode) : bool := byte i =? op_byte op.

Definition jit_has_trailing_nil_return (body_end : Z) : bool :=
  if body_end <? 0 then false
  else if negb (body_end + 3 =? code_count (chunk fn)) then false
  else is_op body_end OP_CONST && (byte (body_end + 1) =? 255) && is_op (body_end + 2) OP_RET.

Definition jit_get_int_constant (const_idx : Z) : option Z :=
  if constant_count (pool fn) <=? const_idx then None
  else match buffer (constants (pool fn)) !! Z.to_nat const_idx with
       | Some c => int_constant c
       | None => None
       end.

Definition jit_get_bool_constant (const_idx : Z) : option bool :=
  if constant_count (pool fn) <=? const_idx then None
  else match buffer (constants (pool fn)) !! Z.to_nat const_idx with
       | Some (mkConstant (as_int i) t) =>
           if t =? 4 then Some (negb (i =? 0))
           else if (t =? 0) && ((i =? 0) || (i =? 1)) then Some (negb (i =? 0))
           else None
       | _ => None
       end.

(** The first tests of every match: a synchronous function with [n] locals,
    all parameters, and code; the end of its body. *)
Definition leaf (n : Z) : bool :=
  match code (chunk fn) with
  | None => false
  | Some _ =>
      negb (is_async fn || negb (capture_count fn =? 0) || negb (param_count fn =? n) || negb (local_count fn =? n))
  end.
Definition body_end : Z :=
  let e := code_count (chunk fn) in if jit_has_trailing_nil_return (e - 3) then e - 3 else e.

Definition divides (op : Z) : bool := (op =? JIT_SUMMARY_OP_DIV) || (op =? JIT_SUMMARY_OP_MOD).
Definition guard {A} (b : bool) (k : option A) : option A := if b then k else None.
Definition two_slots (i j : Z) : bool := negb ((1 <? byte i) || (1 <? byte j) || (byte i =? byte j)).
(** [int16_t] offset of three bytes: over a load or constant and a return. *)
Definition skips3 (i : Z) : bool := offset_at fn i =? 3.

Definition jit_try_match_native_local_const_int_binary (opcode : OpCode) (op : Z) : option JitFunctionSummary :=
  guard (leaf 1 && (body_end =? 6) && is_op 0 opcode && is_op 5 OP_RET && (byte 1 =? 0))
    match jit_get_int_constant (byte 2) with
    | None => None
    | Some rhs_const =>
        guard (negb (divides op && (rhs_const =? 0)))
          (Some (mkSummary JIT_SUMMARY_KIND_INT_LOCAL_CONST_BINARY op (byte 1) 0 rhs_const 0))
    end.

Definition jit_try_match_native_twoarg_locals_int (opcode : OpCode) (op : Z) : option JitFunctionSummary :=
  guard (leaf 2 && (body_end =? 6) && is_op 0 opcode && is_op 5 OP_RET && two_slots 1 2)
    (Some (mkSummary JIT_SUMMARY_KIND_INT_TWOARG_BINARY op (byte 1) (byte 2) 0 0)).

Definition jit_try_match_native_twoarg_locals_bool_cmp (opcode : OpCode) (op : Z) : option JitFunctionSummary :=
  guard (leaf 2 && (body_end =? 6) && is_op 0 OP_LOAD_LOCAL && is_op 2 OP_LOAD_LOCAL && is_op 4 opcode &&
         is_op 5 OP_RET && two_slots 1 3)
    (Some (mkSummary JIT_SUMMARY_KIND_BOOL_TWOARG_COMPARE op (byte 1) (byte 3) 0 0)).

Definition jit_try_match_native_guard_twoarg_locals_bool_cmp (opcode : OpCode) (op : Z) : option JitFunctionSummary :=
  guard (leaf 2 && (body_end =? 14) && is_op 0 OP_JUMP_IF_LOCAL_GE_CONST && is_op 5 OP_CONST && is_op 7 OP_RET &&
         is_op 8 OP_LOAD_LOCAL && is_op 10 OP_LOAD_LOCAL && is_op 12 opcode && is_op 13 OP_RET && two_slots 9 11 &&
         (byte 1 =? byte 9) && skips3 3)
    match jit_get_int_constant (byte 2), jit_get_bool_constant (byte 6) with
    | Some guard_const, Some guard_result =>
        Some (mkSummary JIT_SUMMARY_KIND_BOOL_GUARDED_TWOARG_COMPARE op (byte 9) (byte 11) guard_const
                (if guard_result then 1 else 0))
    | _, _ => None
    end.

Definition jit_try_match_native_twoarg_selector_int (jump_opcode : OpCode) (op : Z) : option JitFunctionSummary :=
  guard (leaf 2 && (body_end =? 11) && is_op 0 jump_opcode && is_op 5 OP_LOAD_LOCAL && is_op 7 OP_RET &&
         is_op 8 OP_LOAD_LOCAL && is_op 10 OP_RET && (byte 1 =? 0) && (byte 2 =? 1) && two_slots 6 9 && skips3 3)
    (Some (mkSummary JIT_SUMMARY_KIND_INT_TWOARG_SELECTOR op (byte 6) (byte 9) 0 0)).

Definition jit_try_match_native_guard_twoarg_selector_int (jump_opcode : OpCode) (op : Z) : option JitFunctionSummary :=
  guard (leaf 2 && (body_end =? 19) && is_op 0 OP_JUMP_IF_LOCAL_GE_CONST && is_op 5 OP_LOAD_LOCAL && is_op 7 OP_RET &&
         is_op 8 jump_opcode && is_op 13 OP_LOAD_LOCAL && is_op 15 OP_RET && is_op 16 OP_LOAD_LOCAL && is_op 18 OP_RET &&
         (byte 1 =? 0) && (byte 6 =? 0) && (byte 9 =? 0) && (byte 10 =? 1) && two_slots 14 17 && skips3 3 && skips3 11)
    match jit_get_int_constant (byte 2) with
    | Some guard_const =>
        Some (mkSummary JIT_SUMMARY_KIND_INT_GUARDED_TWOARG_SELECTOR op (byte 14) (byte 17) guard_const 0)
    | None => None
    end.

Definition jit_try_match_native_guard_local_const_int_binary (opcode : OpCode) (op : Z) : option JitFunctionSummary :=
  guard (leaf 1 && (body_end =? 14) && is_op 0 OP_JUMP_IF_LOCAL_GE_CONST && is_op 5 OP_LOAD_LOCAL && is_op 7 OP_RET &&
         is_op 8 opcode && is_op 13 OP_RET && (byte 1 =? 0) && (byte 6 =? 0) && (byte 9 =? 0) && skips3 3)
    match jit_get_int_constant (byte 2), jit_get_int_constant (byte 10) with
    | Some guard_const, Some rhs_const =>
        guard (negb (divides op && (rhs_const =? 0)))
          (Some (mkSummary JIT_SUMMARY_KIND_INT_GUARDED_LOCAL_CONST_BINARY op (byte 1) 0 guard_const rhs_const))
    | _, _ => None
    end.

Definition jit_try_match_native_guard_twoarg_locals_int (opcode : OpCode) (op : Z) : option JitFunctionSummary :=
  guard (leaf 2 && (body_end =? 14) && is_op 0 OP_JUMP_IF_LOCAL_GE_CONST && is_op 5 OP_LOAD_LOCAL && is_op 7 OP_RET &&
         is_op 8 opcode && is_op 13 OP_RET && (byte 1 =? 0) && (byte 6 =? 0) && two_slots 9 10 && skips3 3)
    match jit_get_int_constant (byte 2) with
    | Some guard_const =>
        Some (mkSummary JIT_SUMMARY_KIND_INT_GUARDED_TWOARG_BINARY op (byte 9) (byte 10) guard_const 0)
    | None => None
    end.

Definition jit_try_match_native_add_local_const : option JitFunctionSummary :=
  jit_try_match_native_local_const_int_binary OP_ADD_LOCAL_CONST_INT JIT_SUMMARY_OP_ADD.
Definition jit_try_match_native_mul_local_const : option JitFunctionSummary :=
  jit_try_match_native_local_const_int_binary OP_MUL_LOCAL_CONST_INT JIT_SUMMARY_OP_MUL.
Definition jit_try_match_native_sub_local_const : option JitFunctionSummary :=
  jit_try_match_native_local_const_int_binary OP_SUB_LOCAL_CONST_INT JIT_SUMMARY_OP_SUB.
Definition jit_try_match_native_div_local_const : option JitFunctionSummary :=
  jit_try_match_native_local_const_int_binary OP_DIV_LOCAL_CONST_INT JIT_SUMMARY_OP_DIV.
Definition jit_try_match_native_mod_local_const : option JitFunctionSummary :=
  jit_try_match_native_local_const_int_binary OP_MOD_LOCAL_CONST_INT JIT_SUMMARY_OP_MOD.
Definition jit_try_match_native_bit_and_local_const : option JitFunctionSummary :=
  jit_try_match_native_local_const_int_binary OP_BIT_AND_LOCAL_CONST_INT JIT_SUMMARY_OP_BIT_AND.
Definition jit_try_match_native_bit_or_local_const : option JitFunctionSummary :=
  jit_try_match_native_local_const_int_binary OP_BIT_OR_LOCAL_CONST_INT JIT_SUMMARY_OP_BIT_OR.
Definition jit_try_match_native_bit_xor_local_const : option JitFunctionSummary :=
  jit_try_match_native_local_const_int_binary OP_BIT_XOR_LOCAL_CONST_INT JIT_SUMMARY_OP_BIT_XOR.
Definition jit_try_match_native_guard_add : option JitFunctionSummary :=
  jit_try_match_native_guard_local_const_int_binary OP_ADD_LOCAL_CONST_INT JIT_SUMMARY_OP_ADD.
Definition jit_try_match_native_guard_mul : option JitFunctionSummary :=
  jit_try_match_native_guard_local_const_int_binary OP_MUL_LOCAL_CONST_INT JIT_SUMMARY_OP_MUL.
Definition jit_try_match_native_guard_sub : option JitFunctionSummary :=
  jit_try_match_native_guard_local_const_int_binary OP_SUB_LOCAL_CONST_INT JIT_SUMMARY_OP_SUB.
Definition jit_try_match_native_guard_div : option JitFunctionSummary :=
  jit_try_match_native_guard_local_const_int_binary OP_DIV_LOCAL_CONST_INT JIT_SUMMARY_OP_DIV.
Definition jit_try_match_native_guard_mod : option JitFunctionSummary :=
  jit_try_match_native_guard_local_const_int_binary OP_MOD_LOCAL_CONST_INT JIT_SUMMARY_OP_MOD.
Definition jit_try_match_native_guard_bit_and : option JitFunctionSummary :=
  jit_try_match_native_guard_local_const_int_binary OP_BIT_AND_LOCAL_CONST_INT JIT_SUMMARY_OP_BIT_AND.
Definition jit_try_match_native_guard_bit_or : option JitFunctionSummary :=
  jit_try_match_native_guard_local_const_int_binary OP_BIT_OR_LOCAL_CONST_INT JIT_SUMMARY_OP_BIT_OR.
Definition jit_try_match_native_guard_bit_xor : option JitFunctionSummary :=
  jit_try_match_native_guard_local_const_int_binary OP_BIT_XOR_LOCAL_CONST_INT JIT_SUMMARY_OP_BIT_XOR.

(** The first match. *)
Fixpoint first_match (l : list (option JitFunctionSummary)) : option JitFunctionSummary :=
  match l with
  | [] => None
  | Some s :: _ => Some s
  | None :: l' => first_match l'
  end.

Definition jit_try_recover_arithmetic_summary : option JitFunctionSummary :=
  first_match
    [jit_try_match_native_add_local_const;
     jit_try_match_native_mul_local_const;
     jit_try_match_native_sub_local_const;
     jit_try_match_native_div_local_const;
     jit_try_match_native_mod_local_const;
     jit_try_match_native_bit_and_local_const;
     jit_try_match_native_bit_or_local_const;
     jit_try_match_native_bit_xor_local_const;
     jit_try_match_native_guard_add;
     jit_try_match_native_guard_mul;
     jit_try_match_native_guard_sub;
     jit_try_match_native_guard_div;
     jit_try_match_native_guard_mod;
     jit_try_match_native_guard_bit_and;
     jit_try_match_native_guard_bit_or;
     jit_try_match_native_guard_bit_xor;
     jit_try_match_native_twoarg_locals_int OP_ADD_LOCALS_INT JIT_SUMMARY_OP_ADD;
     jit_try_match_native_twoarg_locals_int OP_SUB_LOCALS_INT JIT_SUMMARY_OP_SUB;
     jit_try_match_native_twoarg_locals_int OP_MUL_LOCALS_INT JIT_SUMMARY_OP_MUL;
     jit_try_match_native_twoarg_locals_int OP_BIT_AND_LOCALS_INT JIT_SUMMARY_OP_BIT_AND;
     jit_try_match_native_twoarg_locals_int OP_BIT_OR_LOCALS_INT JIT_SUMMARY_OP_BIT_OR;
     jit_try_match_native_twoarg_locals_int OP_BIT_XOR_LOCALS_INT JIT_SUMMARY_OP_BIT_XOR;
     jit_try_match_native_guard_twoarg_locals_int OP_ADD_LOCALS_INT JIT_SUMMARY_OP_ADD;
     jit_try_match_native_guard_twoarg_locals_int OP_SUB_LOCALS_INT JIT_SUMMARY_OP_SUB;
     jit_try_match_native_guard_twoarg_locals_int OP_MUL_LOCALS_INT JIT_SUMMARY_OP_MUL;
     jit_try_match_native_guard_twoarg_locals_int OP_BIT_AND_LOCALS_INT JIT_SUMMARY_OP_BIT_AND;
     jit_try_match_native_guard_twoarg_locals_int OP_BIT_OR_LOCALS_INT JIT_SUMMARY_OP_BIT_OR;
     jit_try_match_native_guard_twoarg_locals_int OP_BIT_XOR_LOCALS_INT JIT_SUMMARY_OP_BIT_XOR].

Definition recover_compare : option JitFunctionSummary :=
  first_match
    [jit_try_match_native_twoarg_locals_bool_cmp OP_LT JIT_SUMMARY_OP_LT;
     jit_try_match_native_twoarg_locals_bool_cmp OP_LE JIT_SUMMARY_OP_LE;
     jit_try_match_native_twoarg_locals_bool_cmp OP_EQ JIT_SUMMARY_OP_EQ;
     jit_try_match_native_twoarg_locals_bool_cmp OP_NE JIT_SUMMARY_OP_NE;
     jit_try_match_native_twoarg_locals_bool_cmp OP_GT JIT_SUMMARY_OP_GT;
     jit_try_match_native_twoarg_locals_bool_cmp OP_GE JIT_SUMMARY_OP_GE;
     jit_try_match_native_guard_twoarg_locals_bool_cmp OP_LT JIT_SUMMARY_OP_LT;
     jit_try_match_native_guard_twoarg_locals_bool_cmp OP_LE JIT_SUMMARY_OP_LE;
     jit_try_match_native_guard_twoarg_locals_bool_cmp OP_EQ JIT_SUMMARY_OP_EQ;
     jit_try_match_native_guard_twoarg_locals_bool_cmp OP_NE JIT_SUMMARY_OP_NE;
     jit_try_match_native_guard_twoarg_locals_bool_cmp OP_GT JIT_SUMMARY_OP_GT;
     jit_try_match_native_guard_twoarg_locals_bool_cmp OP_GE JIT_SUMMARY_OP_GE].

Definition recover_selector : option JitFunctionSummary :=
  first_match
    [jit_try_match_native_twoarg_selector_int OP_JUMP_IF_LOCAL_GE JIT_SUMMARY_OP_LT;
     jit_try_match_native_twoarg_selector_int OP_JUMP_IF_LOCAL_GT JIT_SUMMARY_OP_LE;
     jit_try_match_native_twoarg_selector_int OP_JUMP_IF_LOCAL_LE JIT_SUMMARY_OP_GT;
     jit_try_match_native_twoarg_selector_int OP_JUMP_IF_LOCAL_LT JIT_SUMMARY_OP_GE;
     jit_try_match_native_guard_twoarg_selector_int OP_JUMP_IF_LOCAL_GE JIT_SUMMARY_OP_LT;
     jit_try_match_native_guard_twoarg_selector_int OP_JUMP_IF_LOCAL_GT JIT_SUMMARY_OP_LE;
     jit_try_match_native_guard_twoarg_selector_int OP_JUMP_IF_LOCAL_LE JIT_SUMMARY_OP_GT;
     jit_try_match_native_guard_twoarg_selector_int OP_JUMP_IF_LOCAL_LT JIT_SUMMARY_OP_GE].

Definition in_family (mask : Z) : bool := negb (Z.land (native_family_mask (jit_profile fn)) mask =? 0).

Definition jit_try_recover_exact_summary : option JitFunctionSummary :=
  first_match
    [guard (in_family JIT_PROFILE_NATIVE_FAMILY_ARITHMETIC) jit_try_recover_arithmetic_summary;
     guard (in_family JIT_PROFILE_NATIVE_FAMILY_COMPARE) recover_compare;
     guard (in_family JIT_PROFILE_NATIVE_FAMILY_SELECTOR) recover_selector].
End Matching.

(** ** Executing a plan *)

Section Native.
Context (args_base : nat).

Definition finish (vm : VM) (result : Value) : outcome :=
  let vm := push (stack_pop_to vm args_base) result in
  match error_message vm with Some _ => Halted vm | None => Finished vm end.
Definition vm_finish_native_compiled_call_int (vm : VM) (result : Z) : outcome := finish vm (VAL_INT result).
Definition vm_finish_native_compiled_call_bool (vm : VM) (result : bool) : outcome := finish vm (VAL_BOOL result).

(** An argument; the slot is not checked against the stack. *)
Definition with_arg (vm : VM) (slot : Z) (k : Value -> outcome) : outcome :=
  match stack vm !! (args_base + Z.to_nat slot)%nat with Some v => k v | None => Undefined end.
Definition with_int (vm : VM) (message : string) (slot : Z) (k : Z -> outcome) : outcome :=
  with_arg vm slot (fun v => match v with VAL_INT x => k x | _ => fail vm message end).
Definition with_ints (vm : VM) (a b : Z) (k : Z -> Z -> outcome) : outcome :=
  with_int vm "Operands must be integer" a (fun x => with_int vm "Operands must be integer" b (fun y => k x y)).

Definition const_kinds : list (Z * int_op) :=
  [(JIT_COMPILED_KIND_INT_ADD_LOCAL_CONST, IAdd); (JIT_COMPILED_KIND_INT_MUL_LOCAL_CONST, IMul);
   (JIT_COMPILED_KIND_INT_SUB_LOCAL_CONST, ISub); (JIT_COMPILED_KIND_INT_DIV_LOCAL_CONST, IDiv);
   (JIT_COMPILED_KIND_INT_MOD_LOCAL_CONST, IMod); (JIT_COMPILED_KIND_INT_BIT_AND_LOCAL_CONST, IAnd);
   (JIT_COMPILED_KIND_INT_BIT_OR_LOCAL_CONST, IOr); (JIT_COMPILED_KIND_INT_BIT_XOR_LOCAL_CONST, IXor)].
Definition guarded_const_kinds : list (Z * int_op) :=
  [(JIT_COMPILED_KIND_INT_GUARD_GE_CONST_RET_LOCAL_ELSE_ADD_CONST, IAdd);
   (JIT_COMPILED_KIND_INT_GUARD_GE_CONST_RET_LOCAL_ELSE_MUL_CONST, IMul);
   (JIT_COMPILED_KIND_INT_GUARD_GE_CONST_RET_LOCAL_ELSE_SUB_CONST, ISub);
   (JIT_COMPILED_KIND_INT_GUARD_GE_CONST_RET_LOCAL_ELSE_DIV_CONST, IDiv);
   (JIT_COMPILED_KIND_INT_GUARD_GE_CONST_RET_LOCAL_ELSE_MOD_CONST, IMod);
   (JIT_COMPILED_KIND_INT_GUARD_GE_CONST_RET_LOCAL_ELSE_BIT_AND_CONST, IAnd);
   (JIT_COMPILED_KIND_INT_GUARD_GE_CONST_RET_LOCAL_ELSE_BIT_OR_CONST, IOr);
   (JIT_COMPILED_KIND_INT_GUARD_GE_CONST_RET_LOCAL_ELSE_BIT_XOR_CONST, IXor)].

Definition vm_finish_native_int_const_op (vm : VM) (kind input constant_value : Z) : outcome :=
  match op_of_kind (const_kinds ++ guarded_const_kinds) kind with
  | Some op => compute vm op input constant_value (vm_finish_native_compiled_call_int vm)
  | None => fail vm "Invalid compiled entry"
  end.

Definition locals_kinds : list (Z * int_op) :=
  [(JIT_COMPILED_KIND_INT_ADD_LOCALS, IAdd); (JIT_COMPILED_KIND_INT_SUB_LOCALS, ISub);
   (JIT_COMPILED_KIND_INT_MUL_LOCALS, IMul); (JIT_COMPILED_KIND_INT_BIT_AND_LOCALS, IAnd);
   (JIT_COMPILED_KIND_INT_BIT_OR_LOCALS, IOr); (JIT_COMPILED_KIND_INT_BIT_XOR_LOCALS, IXor)].
Definition vm_finish_native_int_binary_op (vm : VM) (kind left right : Z) : outcome :=
  match op_of_kind locals_kinds kind with
  | Some op => compute vm op left right (vm_finish_native_compiled_call_int vm)
  | None => fail vm "Invalid compiled entry"
  end.

Definition summary_int_ops : list (Z * int_op) :=
  [(JIT_SUMMARY_OP_ADD, IAdd); (JIT_SUMMARY_OP_SUB, ISub); (JIT_SUMMARY_OP_MUL, IMul); (JIT_SUMMARY_OP_DIV, IDiv);
   (JIT_SUMMARY_OP_MOD, IMod); (JIT_SUMMARY_OP_BIT_AND, IAnd); (JIT_SUMMARY_OP_BIT_OR, IOr);
   (JIT_SUMMARY_OP_BIT_XOR, IXor)].
Definition vm_eval_native_int_binary_summary_op (vm : VM) (op left right : Z) (k : Z -> outcome) : outcome :=
  match op_of_kind summary_int_ops op with
  | Some o => compute vm o left right k
  | None => fail vm "Invalid compiled int op"
  end.
Definition vm_finish_native_int_binary_summary_op (vm : VM) (op left right : Z) : outcome :=
  vm_eval_native_int_binary_summary_op vm op left right (vm_finish_native_compiled_call_int vm).
Definition vm_finish_native_guarded_int_binary_summary_op (vm : VM) (op guarded_value right guard_const : Z) : outcome :=
  if guarded_value <? guard_const then vm_finish_native_compiled_call_int vm guarded_value
  else vm_finish_native_int_binary_summary_op vm op guarded_value right.

Definition summary_compare_ops : list (Z * (Z -> Z -> bool)) :=
  [(JIT_SUMMARY_OP_LT, Z.ltb); (JIT_SUMMARY_OP_LE, Z.leb); (JIT_SUMMARY_OP_EQ, Z.eqb);
   (JIT_SUMMARY_OP_NE, fun a b => negb (a =? b)); (JIT_SUMMARY_OP_GT, fun a b => b <? a);
   (JIT_SUMMARY_OP_GE, fun a b => b <=? a)].
Definition vm_eval_native_int_compare_summary_op (vm : VM) (op left right : Z) (k : bool -> outcome) : outcome :=
  match op_of_kind summary_compare_ops op with
  | Some o => k (o left right)
  | None => fail vm "Invalid compiled compare op"
  end.
Definition vm_eval_native_int_selector_summary_op (vm : VM) (op left right : Z) (k : bool -> outcome) : outcome :=
  if kind_in order_ops op
  then match op_of_kind summary_compare_ops op with
       | Some o => k (o left right)
       | None => fail vm "Invalid compiled selector op"
       end
  else fail vm "Invalid compiled selector op".

Definition vm_finish_native_int_compare_summary_op (vm : VM) (op left right : Z) : outcome :=
  vm_eval_native_int_compare_summary_op vm op left right (vm_finish_native_compiled_call_bool vm).
Definition vm_finish_native_guarded_int_compare_summary_op (vm : VM) (op left right guard_const : Z) (guard_result : bool) : outcome :=
  if left <? guard_const then vm_finish_native_compiled_call_bool vm guard_result
  else vm_finish_native_int_compare_summary_op vm op left right.

(** The summary operation of a kind, or an invalid entry. *)
Definition with_op (vm : VM) (table : list (Z * Z)) (kind : Z) (k : Z -> outcome) : outcome :=
  match op_of_kind table kind with Some op => k op | None => fail vm "Invalid compiled entry" end.

Definition compare_kinds : list (Z * Z) :=
  [(JIT_COMPILED_KIND_BOOL_LT_LOCALS, JIT_SUMMARY_OP_LT); (JIT_COMPILED_KIND_BOOL_LE_LOCALS, JIT_SUMMARY_OP_LE);
   (JIT_COMPILED_KIND_BOOL_EQ_LOCALS, JIT_SUMMARY_OP_EQ); (JIT_COMPILED_KIND_BOOL_NE_LOCALS, JIT_SUMMARY_OP_NE);
   (JIT_COMPILED_KIND_BOOL_GT_LOCALS, JIT_SUMMARY_OP_GT); (JIT_COMPILED_KIND_BOOL_GE_LOCALS, JIT_SUMMARY_OP_GE)].
Definition vm_finish_native_int_compare_op (vm : VM) (kind left right : Z) : outcome :=
  with_op vm compare_kinds kind (fun op => vm_finish_native_int_compare_summary_op vm op left right).

Definition compare_const_kinds : list (Z * Z) :=
  [(JIT_COMPILED_KIND_BOOL_LT_LOCAL_CONST, JIT_SUMMARY_OP_LT); (JIT_COMPILED_KIND_BOOL_LE_LOCAL_CONST, JIT_SUMMARY_OP_LE);
   (JIT_COMPILED_KIND_BOOL_EQ_LOCAL_CONST, JIT_SUMMARY_OP_EQ); (JIT_COMPILED_KIND_BOOL_NE_LOCAL_CONST, JIT_SUMMARY_OP_NE);
   (JIT_COMPILED_KIND_BOOL_GT_LOCAL_CONST, JIT_SUMMARY_OP_GT); (JIT_COMPILED_KIND_BOOL_GE_LOCAL_CONST, JIT_SUMMARY_OP_GE)].
Definition vm_finish_native_int_compare_const_op (vm : VM) (kind left right_const : Z) : outcome :=
  with_op vm compare_const_kinds kind (fun op => vm_finish_native_int_compare_summary_op vm op left right_const).

Definition guarded_compare_kinds : list (Z * Z) :=
  [(JIT_COMPILED_KIND_BOOL_GUARD_GE_CONST_RET_BOOL_ELSE_LT_LOCALS, JIT_SUMMARY_OP_LT);
   (JIT_COMPILED_KIND_BOOL_GUARD_GE_CONST_RET_BOOL_ELSE_LE_LOCALS, JIT_SUMMARY_OP_LE);
   (JIT_COMPILED_KIND_BOOL_GUARD_GE_CONST_RET_BOOL_ELSE_EQ_LOCALS, JIT_SUMMARY_OP_EQ);
   (JIT_COMPILED_KIND_BOOL_GUARD_GE_CONST_RET_BOOL_ELSE_NE_LOCALS, JIT_SUMMARY_OP_NE);
   (JIT_COMPILED_KIND_BOOL_GUARD_GE_CONST_RET_BOOL_ELSE_GT_LOCALS, JIT_SUMMARY_OP_GT);
   (JIT_COMPILED_KIND_BOOL_GUARD_GE_CONST_RET_BOOL_ELSE_GE_LOCALS, JIT_SUMMARY_OP_GE)].
Definition vm_finish_native_guarded_int_compare_op (vm : VM) (kind left right guard_const : Z) (guard_result : bool) : outcome :=
  if left <? guard_const then vm_finish_native_compiled_call_bool vm guard_result
  else with_op vm guarded_compare_kinds kind (fun op => vm_finish_native_int_compare_summary_op vm op left right).

Definition vm_finish_native_int_selector_summary_op (vm : VM) (op left right true_slot false_slot : Z) : outcome :=
  vm_eval_native_int_selector_summary_op vm op left right (fun condition =>
    with_int vm "Operands must be integer" (if condition then true_slot else false_slot)
      (vm_finish_native_compiled_call_int vm)).
Definition vm_finish_native_guarded_int_selector_summary_op (vm : VM) (op left right guard_const true_slot false_slot : Z) : outcome :=
  if left <? guard_const then vm_finish_native_compiled_call_int vm left
  else vm_finish_native_int_selector_summary_op vm op left right true_slot false_slot.

Definition selector_kinds : list (Z * Z) :=
  [(JIT_COMPILED_KIND_INT_SELECT_LT_LOCALS, JIT_SUMMARY_OP_LT); (JIT_COMPILED_KIND_INT_SELECT_LE_LOCALS, JIT_SUMMARY_OP_LE);
   (JIT_COMPILED_KIND_INT_SELECT_GT_LOCALS, JIT_SUMMARY_OP_GT); (JIT_COMPILED_KIND_INT_SELECT_GE_LOCALS, JIT_SUMMARY_OP_GE)].
Definition vm_finish_native_int_selector_op (vm : VM) (kind left right true_slot false_slot : Z) : outcome :=
  with_op vm selector_kinds kind (fun op => vm_finish_native_int_selector_summary_op vm op left right true_slot false_slot).

Definition guarded_selector_kinds : list (Z * Z) :=
  [(JIT_COMPILED_KIND_INT_GUARD_GE_CONST_RET_LOCAL_ELSE_SELECT_LT_LOCALS, JIT_SUMMARY_OP_LT);
   (JIT_COMPILED_KIND_INT_GUARD_GE_CONST_RET_LOCAL_ELSE_SELECT_LE_LOCALS, JIT_SUMMARY_OP_LE);
   (JIT_COMPILED_KIND_INT_GUARD_GE_CONST_RET_LOCAL_ELSE_SELECT_GT_LOCALS, JIT_SUMMARY_OP_GT);
   (JIT_COMPILED_KIND_INT_GUARD_GE_CONST_RET_LOCAL_ELSE_SELECT_GE_LOCALS, JIT_SUMMARY_OP_GE)].
Definition vm_finish_native_guarded_int_selector_op (vm : VM) (kind left right guard_const true_slot false_slot : Z) : outcome :=
  if left <? guard_const then vm_finish_native_compiled_call_int vm left
  else with_op vm guarded_selector_kinds kind (fun op =>
         vm_finish_native_int_selector_summary_op vm op left right true_slot false_slot).

Definition vm_finish_native_int_selector_const_summary_op (vm : VM) (op value selector_const : Z)
    (return_local_when_true : bool) : outcome :=
  vm_eval_native_int_selector_summary_op vm op value selector_const (fun condition =>
    vm_finish_native_compiled_call_int vm (if eqb condition return_local_when_true then value else selector_const)).

(** The kinds of a selector against a constant: the operation and whether the
    local is returned when it holds. *)
Definition selector_const_kinds : list (Z * (Z * bool)) :=
  [(JIT_COMPILED_KIND_INT_SELECT_LT_LOCAL_CONST_RET_LOCAL, (JIT_SUMMARY_OP_LT, true));
   (JIT_COMPILED_KIND_INT_SELECT_LT_LOCAL_CONST_RET_CONST, (JIT_SUMMARY_OP_LT, false));
   (JIT_COMPILED_KIND_INT_SELECT_LE_LOCAL_CONST_RET_LOCAL, (JIT_SUMMARY_OP_LE, true));
   (JIT_COMPILED_KIND_INT_SELECT_LE_LOCAL_CONST_RET_CONST, (JIT_SUMMARY_OP_LE, false));
   (JIT_COMPILED_KIND_INT_SELECT_GT_LOCAL_CONST_RET_LOCAL, (JIT_SUMMARY_OP_GT, true));
   (JIT_COMPILED_KIND_INT_SELECT_GT_LOCAL_CONST_RET_CONST, (JIT_SUMMARY_OP_GT, false));
   (JIT_COMPILED_KIND_INT_SELECT_GE_LOCAL_CONST_RET_LOCAL, (JIT_SUMMARY_OP_GE, true));
   (JIT_COMPILED_KIND_INT_SELECT_GE_LOCAL_CONST_RET_CONST, (JIT_SUMMARY_OP_GE, false))].
Definition vm_finish_native_int_selector_const_op (vm : VM) (kind value selector_const : Z) : outcome :=
  match op_of_kind selector_const_kinds kind with
  | Some (op, local_on_true) => vm_finish_native_int_selector_const_summary_op vm op value selector_const local_on_true
  | None => fail vm "Invalid compiled entry"
  end.

Definition vm_finish_native_guarded_int_selector_const_summary_op (vm : VM) (op value guard_const selector_const : Z)
    (return_local_when_true : bool) : outcome :=
  if value <? guard_const then vm_finish_native_compiled_call_int vm value
  else vm_finish_native_int_selector_const_summary_op vm op value selector_const return_local_when_true.

Definition guarded_selector_const_kinds : list (Z * (Z * bool)) :=
  [(JIT_COMPILED_KIND_INT_GUARD_GE_CONST_RET_LOCAL_ELSE_SELECT_LT_LOCAL_CONST_RET_LOCAL, (JIT_SUMMARY_OP_LT, true));
   (JIT_COMPILED_KIND_INT_GUARD_GE_CONST_RET_LOCAL_ELSE_SELECT_LT_LOCAL_CONST_RET_CONST, (JIT_SUMMARY_OP_LT, false));
   (JIT_COMPILED_KIND_INT_GUARD_GE_CONST_RET_LOCAL_ELSE_SELECT_LE_LOCAL_CONST_RET_LOCAL, (JIT_SUMMARY_OP_LE, true));
   (JIT_COMPILED_KIND_INT_GUARD_GE_CONST_RET_LOCAL_ELSE_SELECT_LE_LOCAL_CONST_RET_CONST, (JIT_SUMMARY_OP_LE, false));
   (JIT_COMPILED_KIND_INT_GUARD_GE_CONST_RET_LOCAL_ELSE_SELECT_GT_LOCAL_CONST_RET_LOCAL, (JIT_SUMMARY_OP_GT, true));
   (JIT_COMPILED_KIND_INT_GUARD_GE_CONST_RET_LOCAL_ELSE_SELECT_GT_LOCAL_CONST_RET_CONST, (JIT_SUMMARY_OP_GT, false));
   (JIT_COMPILED_KIND_INT_GUARD_GE_CONST_RET_LOCAL_ELSE_SELECT_GE_LOCAL_CONST_RET_LOCAL, (JIT_SUMMARY_OP_GE, true));
   (JIT_COMPILED_KIND_INT_GUARD_GE_CONST_RET_LOCAL_ELSE_SELECT_GE_LOCAL_CONST_RET_CONST, (JIT_SUMMARY_OP_GE, false))].
Definition vm_finish_native_guarded_int_selector_const_op (vm : VM) (kind value guard_const selector_const : Z) : outcome :=
  if value <? guard_const then vm_finish_native_compiled_call_int vm value
  else
    match op_of_kind guarded_selector_const_kinds kind with
    | Some (op, local_on_true) =>
        vm_finish_native_guarded_int_selector_const_summary_op vm op value guard_const selector_const local_on_true
    | None => fail vm "Invalid compiled entry"
    end.

(** The unguarded kind of a guarded operation on two locals. *)
Definition guarded_locals_kinds : list (Z * Z) :=
  [(JIT_COMPILED_KIND_INT_GUARD_GE_CONST_RET_LOCAL_ELSE_ADD_LOCALS, JIT_COMPILED_KIND_INT_ADD_LOCALS);
   (JIT_COMPILED_KIND_INT_GUARD_GE_CONST_RET_LOCAL_ELSE_SUB_LOCALS, JIT_COMPILED_KIND_INT_SUB_LOCALS);
   (JIT_COMPILED_KIND_INT_GUARD_GE_CONST_RET_LOCAL_ELSE_MUL_LOCALS, JIT_COMPILED_KIND_INT_MUL_LOCALS);
   (JIT_COMPILED_KIND_INT_GUARD_GE_CONST_RET_LOCAL_ELSE_BIT_AND_LOCALS, JIT_COMPILED_KIND_INT_BIT_AND_LOCALS);
   (JIT_COMPILED_KIND_INT_GUARD_GE_CONST_RET_LOCAL_ELSE_BIT_OR_LOCALS, JIT_COMPILED_KIND_INT_BIT_OR_LOCALS);
   (JIT_COMPILED_KIND_INT_GUARD_GE_CONST_RET_LOCAL_ELSE_BIT_XOR_LOCALS, JIT_COMPILED_KIND_INT_BIT_XOR_LOCALS)].

(** The type test reads the first and the second local, the operation the
    local of the plan: its own test is missing, and another value there is
    read as if it were an integer. *)
Definition exec_guarded_locals (vm : VM) (plan : JitCompiledPlan) : outcome :=
  with_ints vm 0 (local_slot_b plan) (fun guarded arg1 =>
    if guarded <? h_const0 plan then vm_finish_native_compiled_call_int vm guarded
    else with_op vm guarded_locals_kinds (h_kind plan) (fun binary_kind =>
           with_arg vm (local_slot plan) (fun arg0 =>
             match arg0 with
             | VAL_INT x => vm_finish_native_int_binary_op vm binary_kind x arg1
             | _ => Undefined
             end))).

Definition has {A} (table : list (Z * A)) (k : Z) : bool := match op_of_kind table k with Some _ => true | None => false end.
Definition returns_local (plan : JitCompiledPlan) : bool :=
  negb (Z.land (h_flags plan) JIT_PLAN_FLAG_RETURN_LOCAL_ON_TRUE =? 0).

(** The [switch] of the native entry. *)
Definition exec_plan (vm : VM) (plan : JitCompiledPlan) : outcome :=
  let kind := h_kind plan in
  let op := h_op plan in
  let a := local_slot plan in
  let b := local_slot_b plan in
  let c0 := h_const0 plan in
  let c1 := h_const1 plan in
  let int := with_int vm "Operands must be integer" a in
  let number := with_int vm "Operands must be same numeric type" a in
  if has const_kinds kind then int (fun x => vm_finish_native_int_const_op vm kind x c0)
  else if kind =? JIT_COMPILED_KIND_INT_BINARY_LOCAL_CONST_GENERIC then
    int (fun x => vm_finish_native_int_binary_summary_op vm op x c0)
  else if has locals_kinds kind then with_ints vm a b (vm_finish_native_int_binary_op vm kind)
  else if kind =? JIT_COMPILED_KIND_INT_BINARY_LOCALS_GENERIC then
    with_ints vm a b (vm_finish_native_int_binary_summary_op vm op)
  else if has compare_kinds kind then with_ints vm a b (vm_finish_native_int_compare_op vm kind)
  else if has compare_const_kinds kind then int (fun x => vm_finish_native_int_compare_const_op vm kind x c0)
  else if kind =? JIT_COMPILED_KIND_BOOL_COMPARE_LOCALS_GENERIC then
    with_ints vm a b (vm_finish_native_int_compare_summary_op vm op)
  else if kind =? JIT_COMPILED_KIND_BOOL_COMPARE_LOCAL_CONST_GENERIC then
    int (fun x => vm_finish_native_int_compare_summary_op vm op x c0)
  else if has selector_const_kinds kind then int (fun x => vm_finish_native_int_selector_const_op vm kind x c0)
  else if has guarded_selector_const_kinds kind then
    int (fun x => vm_finish_native_guarded_int_selector_const_op vm kind x c0 c1)
  else if kind =? JIT_COMPILED_KIND_INT_SELECTOR_LOCAL_CONST_GENERIC then
    int (fun x => vm_finish_native_int_selector_const_summary_op vm op x c0 (returns_local plan))
  else if kind =? JIT_COMPILED_KIND_INT_SELECTOR_GUARDED_LOCAL_CONST_GENERIC then
    int (fun x => vm_finish_native_guarded_int_selector_const_summary_op vm op x c0 c1 (returns_local plan))
  else if has guarded_compare_kinds kind then
    with_ints vm a b (fun x y => vm_finish_native_guarded_int_compare_op vm kind x y c0 (negb (c1 =? 0)))
  else if kind =? JIT_COMPILED_KIND_BOOL_COMPARE_GUARDED_LOCALS_GENERIC then
    with_ints vm a b (fun x y => vm_finish_native_guarded_int_compare_summary_op vm op x y c0 (negb (c1 =? 0)))
  else if has selector_kinds kind then
    with_ints vm 0 1 (fun x y => vm_finish_native_int_selector_op vm kind x y a b)
  else if kind =? JIT_COMPILED_KIND_INT_SELECTOR_LOCALS_GENERIC then
    with_ints vm 0 1 (fun x y => vm_finish_native_int_selector_summary_op vm op x y a b)
  else if has guarded_selector_kinds kind then
    with_ints vm 0 1 (fun x y => vm_finish_native_guarded_int_selector_op vm kind x y c0 a b)
  else if kind =? JIT_COMPILED_KIND_INT_SELECTOR_GUARDED_LOCALS_GENERIC then
    with_ints vm 0 1 (fun x y => vm_finish_native_guarded_int_selector_summary_op vm op x y c0 a b)
  else if has guarded_locals_kinds kind then exec_guarded_locals vm plan
  else if kind =? JIT_COMPILED_KIND_INT_BINARY_GUARDED_LOCALS_GENERIC then
    with_ints vm a b (fun x y => vm_finish_native_guarded_int_binary_summary_op vm op x y c0)
  else if has guarded_const_kinds kind then
    number (fun x => if x <? c0 then vm_finish_native_compiled_call_int vm x
                     else vm_finish_native_int_const_op vm kind x c1)
  else if kind =? JIT_COMPILED_KIND_INT_BINARY_GUARDED_LOCAL_CONST_GENERIC then
    number (fun x => vm_finish_native_guarded_int_binary_summary_op vm op x c1 c0)
  else fail vm "Invalid compiled entry".

(** The count of compiled calls is kept with the function. *)
Definition vm_jit_native_compiled_entry (vm : VM) (fn : ObjFunction) (plan : JitCompiledPlan) (arg_count : Z) : outcome :=
  if negb (arg_count =? param_count fn) then fail vm "Wrong number of arguments"
  else if count vm <=? Z.of_nat args_base then fail vm "Stack underflow in call"
  else exec_plan vm plan.
End Native.

(** ** Compiling *)

Inductive compiled_entry := NoEntry | StubEntry | NativeEntry.

(** A function object with the fields of the compiler of plans. *)
Record JitFunction := mkJit {
  func : ObjFunction;
  jit_entry_count : Z;
  jit_hot : bool;
  jit_state : JitFunctionState;
  jit_reason : JitFunctionReason;
  jit_compile_attempts : Z;
  jit_compiled_entry : compiled_entry;
  jit_compiled_plan : JitCompiledPlan
}.

Definition set_plan (e : compiled_entry) (p : JitCompiledPlan) (f : JitFunction) : JitFunction :=
  mkJit (func f) (jit_entry_count f) (jit_hot f) (jit_state f) (jit_reason f) (jit_compile_attempts f) e p.
Definition set_state (s : JitFunctionState) (r : JitFunctionReason) (f : JitFunction) : JitFunction :=
  mkJit (func f) (jit_entry_count f) (jit_hot f) s r (jit_compile_attempts f) (jit_compiled_entry f) (jit_compiled_plan f).
Definition count_attempt (f : JitFunction) : JitFunction :=
  mkJit (func f) (jit_entry_count f) (jit_hot f) (jit_state f) (jit_reason f) (u32 (jit_compile_attempts f + 1))
    (jit_compiled_entry f) (jit_compiled_plan f).
Definition count_entry (f : JitFunction) : JitFunction :=
  mkJit (func f) (u64 (jit_entry_count f + 1)) (jit_hot f) (jit_state f) (jit_reason f) (jit_compile_attempts f)
    (jit_compiled_entry f) (jit_compiled_plan f).
Definition set_hot (f : JitFunction) : JitFunction :=
  mkJit (func f) (jit_entry_count f) true (jit_state f) (jit_reason f) (jit_compile_attempts f)
    (jit_compiled_entry f) (jit_compiled_plan f).

Definition supports (mask : Z) (f : JitFunction) : bool :=
  negb (Z.land (support_mask (jit_profile (func f))) mask =? 0).

Definition jit_plan_matches_compiler_metadata (f : JitFunction) (plan : JitCompiledPlan) : bool :=
  match jit_plan_from_summary (summary (jit_profile (func f))) with
  | Some p => jit_compiled_plan_equals plan p
  | None => false
  end || jit_compiled_plan_equals plan (jit_hint_plan (func f)).

(** The function with the plan of a summary, if there is one. *)
Definition apply_summary (f : JitFunction) (s : JitFunctionSummary) : option JitFunction :=
  match jit_plan_from_summary s with
  | Some plan => if jit_compiler_hint_kind_supported (h_kind plan) then Some (set_plan NativeEntry plan f) else None
  | None => None
  end.

Definition jit_try_apply_compiler_summary (f : JitFunction) : option JitFunction :=
  let s := summary (jit_profile (func f)) in
  if s_kind s =? JIT_SUMMARY_KIND_NONE then None
  else if negb (supports JIT_PROFILE_SUPPORT_NATIVE_SUMMARY f) then None
  else apply_summary f s.

Definition jit_try_apply_compiler_hint (f : JitFunction) : option JitFunction :=
  let plan := jit_hint_plan (func f) in
  if h_kind plan =? JIT_COMPILED_KIND_NONE then None
  else if negb (supports JIT_PROFILE_SUPPORT_NATIVE_SUMMARY f) then None
  else if negb (jit_compiler_hint_kind_supported (h_kind plan)) then None
  else Some (set_plan NativeEntry plan f).

Definition jit_try_apply_recovered_summary (f : JitFunction) (s : JitFunctionSummary) : option JitFunction :=
  apply_summary f s.

(** Whether there is a plan, and the function after the attempt. *)
Definition jit_try_compile_native_function (f : JitFunction) : bool * JitFunction :=
  let p := jit_compiled_plan f in
  let f := set_plan NoEntry (mkPlan JIT_COMPILED_KIND_NONE JIT_SUMMARY_OP_NONE JIT_PLAN_FLAG_NONE (local_slot p)
                               (local_slot_b p) (h_const0 p) (h_const1 p)) f in
  if negb (supports JIT_PROFILE_SUPPORT_NATIVE_SUMMARY f) then (false, f)
  else
    let has_compiler_summary := negb (s_kind (summary (jit_profile (func f))) =? JIT_SUMMARY_KIND_NONE) in
    let has_compiler_hint := negb (h_kind (jit_hint_plan (func f)) =? JIT_COMPILED_KIND_NONE) in
    match jit_try_apply_compiler_summary f with
    | Some f => (true, f)
    | None =>
        match jit_try_apply_compiler_hint f with
        | Some f => (true, f)
        | None =>
            if has_compiler_summary || has_compiler_hint then (false, f)
            else
              match jit_try_recover_exact_summary (func f) with
              | None => (false, f)
              | Some s =>
                  match jit_try_apply_recovered_summary f s with
                  | Some f => (true, f)
                  | None => (false, f)
                  end
              end
        end
    end.

Definition jit_stub_compile_function (f : JitFunction) : bool * JitFunction :=
  if negb (supports JIT_PROFILE_SUPPORT_STUB f) then (false, f)
  else
    let p := jit_compiled_plan f in
    (true, set_plan StubEntry (mkPlan JIT_COMPILED_KIND_STUB (h_op p) (h_flags p) (local_slot p) (local_slot_b p)
                                 (h_const0 p) (h_const1 p)) f).

(** The body of the loop of [jit_drain_work_queue] for a queued function. *)
Definition compile_one (f : JitFunction) : JitFunction :=
  let f := count_attempt (set_state JIT_FUNC_STATE_COMPILING JIT_REASON_NONE f) in
  match jit_try_compile_native_function f with
  | (true, f) =>
      set_state JIT_FUNC_STATE_COMPILED_NATIVE
        (if jit_plan_matches_compiler_metadata f (jit_compiled_plan f) then JIT_REASON_NATIVE_HINT else JIT_REASON_NATIVE_EXACT) f
  | (false, f) =>
      match jit_stub_compile_function f with
      | (true, f) => set_state JIT_FUNC_STATE_COMPILED_STUB JIT_REASON_STUB_FALLBACK f
      | (false, f) =>
          set_state JIT_FUNC_STATE_FAILED
            (if negb (Z.land (p_flags (jit_profile (func f))) JIT_PROFILE_FLAG_ASYNC =? 0)
             then JIT_REASON_UNSUPPORTED_ASYNC else JIT_REASON_UNSUPPORTED_SHAPE) f
      end
  end.

(** ** The work queue *)

(** The functions by address, and the fields of the machine for them. *)
Record JitVM := mkJitVM {
  functions : gmap positive JitFunction;
  jit_profile_enabled : bool;
  jit_auto_compile_enabled : bool;
  jit_hot_threshold : Z;
  jit_work_queue : list positive
}.

Definition JIT_DEFAULT_HOT_THRESHOLD : Z := 100.

Definition jit_vm_init (fs : gmap positive JitFunction) : JitVM := mkJitVM fs false false JIT_DEFAULT_HOT_THRESHOLD [].
Definition jit_set_profile_enabled (vm : JitVM) (enabled : bool) : JitVM :=
  mkJitVM (functions vm) enabled (jit_auto_compile_enabled vm) (jit_hot_threshold vm) (jit_work_queue vm).
Definition jit_set_auto_compile_enabled (vm : JitVM) (enabled : bool) : JitVM :=
  mkJitVM (functions vm) (jit_profile_enabled vm) enabled (jit_hot_threshold vm) (jit_work_queue vm).
Definition jit_set_hot_threshold (vm : JitVM) (threshold : Z) : JitVM :=
  mkJitVM (functions vm) (jit_profile_enabled vm) (jit_auto_compile_enabled vm) (if threshold =? 0 then 1 else threshold)
    (jit_work_queue vm).
Definition jit_get_hot_threshold (vm : JitVM) : Z :=
  if 0 <? jit_hot_threshold vm then jit_hot_threshold vm else JIT_DEFAULT_HOT_THRESHOLD.

Definition update (vm : JitVM) (a : positive) (f : JitFunction) : JitVM :=
  mkJitVM (<[a := f]> (functions vm)) (jit_profile_enabled vm) (jit_auto_compile_enabled vm) (jit_hot_threshold vm)
    (jit_work_queue vm).
Definition set_queue (vm : JitVM) (q : list positive) : JitVM :=
  mkJitVM (functions vm) (jit_profile_enabled vm) (jit_auto_compile_enabled vm) (jit_hot_threshold vm) q.

Definition is_cold (f : JitFunction) : bool := match jit_state f with JIT_FUNC_STATE_COLD => true | _ => false end.
Definition is_queued (f : JitFunction) : bool := match jit_state f with JIT_FUNC_STATE_QUEUED => true | _ => false end.

Definition jit_enqueue_hot_function (vm : JitVM) (a : positive) (f : JitFunction) : JitVM :=
  if negb (is_cold f) then vm
  else update (set_queue vm (jit_work_queue vm ++ [a])) a (set_state JIT_FUNC_STATE_QUEUED JIT_REASON_QUEUED_HOT f).

Definition jit_dequeue_hot_function (vm : JitVM) : option (positive * JitVM) :=
  match jit_work_queue vm with
  | [] => None
  | a :: q => Some (a, set_queue vm q)
  end.

(** Each iteration takes one entry off the queue: the fuel is its length. A
    pointer to a released function, which is not in [functions], is
    undefined, and the loop stops there. *)
Fixpoint drain (fuel : nat) (max_items processed : Z) (vm : JitVM) : Z * JitVM :=
  match fuel with
  | O => (processed, vm)
  | S n =>
      if (max_items <=? 0) || (processed <? max_items) then
        match jit_dequeue_hot_function vm with
        | None => (processed, vm)
        | Some (a, vm) =>
            match functions vm !! a with
            | None => (processed, vm)
            | Some f =>
                if negb (is_queued f) then drain n max_items processed vm
                else drain n max_items (processed + 1) (update vm a (compile_one f))
            end
        end
      else (processed, vm)
  end.
Definition jit_drain_work_queue (vm : JitVM) (max_items : Z) : Z * JitVM :=
  drain (length (jit_work_queue vm)) max_items 0 vm.

Definition jit_record_function_entry (vm : JitVM) (a : positive) : JitVM :=
  match functions vm !! a with
  | None => vm
  | Some f =>
      let f := count_entry f in
      if jit_get_hot_threshold vm <=? jit_entry_count f then
        let f := set_hot f in
        let vm := jit_enqueue_hot_function (update vm a f) a f in
        if is_cold f && jit_auto_compile_enabled vm then snd (jit_drain_work_queue vm 1) else vm
      else update vm a f
  end.
