(* ===== verification/JitProps.v ===== *)
(** * Compiled plans against the interpreter

    The plan recovered from a function's bytecode computes what interpreting
    that bytecode does, except for one shape whose operands are exchanged. *)

From S2P Require Import Prelude.
From Stdlib Require Import String.
From stdpp Require Import gmap.
From S2P Require Import Values Bytecode Doubles Operators Machine Jit.

Open Scope Z_scope.
Open Scope list_scope.

(** ** Calls on integer arguments *)

Section Call.
Context (fn : ObjFunction) (below : list Value) (xs : list Z) (fc ic : Z) (cfg : VmConfig).

(** The machine before the call, and in the frame of the call with
    temporaries on the stack. *)
Definition args : list Value := map VAL_INT xs.
Definition call_vm : VM := mkVM (below ++ args) fc ic None cfg.
Definition frame_vm (tmps : list Value) : VM := mkVM (below ++ args ++ tmps) (fc + 1) ic None cfg.
Definition done_vm (v : Value) : VM := mkVM (below ++ [v]) fc ic None cfg.
Definition base : nat := length below.

(** Nothing limits the call: no instruction limit, a caller, a frame and two
    stack cells to spare. *)
Definition call_room : Prop :=
  max_instructions cfg <= 0 /\ 0 < fc /\ fc + 1 <= max_call_depth cfg /\
  Z.of_nat (length below + length xs + 2) <= max_stack_size cfg.

Context (Hroom : call_room).

Lemma length_args : length args = length xs.
Proof. apply length_map. Qed.

Lemma frame_local tmps slot x :
  xs !! Z.to_nat slot = Some x -> local base (frame_vm tmps) slot = Some (VAL_INT x).
Proof.
  intros H. unfold local, frame_vm, base. cbn [stack]. rewrite lookup_app_r by lia.
  rewrite lookup_app_l.
  - unfold args. rewrite list_lookup_fmap. replace (length below + Z.to_nat slot - length below)%nat with (Z.to_nat slot) by lia.
    by rewrite H.
  - rewrite length_args. apply lookup_lt_Some in H. lia.
Qed.

Lemma call_arg slot x k :
  xs !! Z.to_nat slot = Some x -> with_arg base call_vm slot k = k (VAL_INT x).
Proof.
  intros H. unfold with_arg, call_vm, base. cbn [stack]. rewrite lookup_app_r by lia.
  unfold args. rewrite list_lookup_fmap. replace (length below + Z.to_nat slot - length below)%nat with (Z.to_nat slot) by lia.
  by rewrite H.
Qed.

Lemma call_int m slot x k :
  xs !! Z.to_nat slot = Some x -> with_int base call_vm m slot k = k x.
Proof. intros H. unfold with_int. by rewrite (call_arg slot x). Qed.

Lemma call_ints a b x y k :
  xs !! Z.to_nat a = Some x -> xs !! Z.to_nat b = Some y -> with_ints base call_vm a b k = k x y.
Proof. intros H1 H2. unfold with_ints. by rewrite (call_int _ a x), (call_int _ b y). Qed.

Lemma frame_push tmps v : (length tmps <= 1)%nat -> push (frame_vm tmps) v = frame_vm (tmps ++ [v]).
Proof.
  intros Ht. destruct Hroom as (_ & _ & _ & Hs). unfold push, vm_stack_reserve, count, frame_vm. cbn [stack config error_message].
  rewrite !length_app, length_args in *.
  destruct (Z.leb_spec (max_stack_size cfg) (Z.of_nat (length below + (length xs + length tmps)))); [lia|].
  change (1 <=? 0) with false. cbv iota.
  destruct (Z.ltb_spec (max_stack_size cfg) (Z.of_nat (length below + (length xs + length tmps)) + 1)); [lia|].
  cbn [error_message]. unfold with_stack. cbn. by rewrite <- !app_assoc.
Qed.

Lemma frame_pop tmps v : pop (frame_vm (tmps ++ [v])) = (v, frame_vm tmps).
Proof.
  unfold pop, frame_vm. cbn [stack]. rewrite !app_assoc, last_snoc, removelast_last.
  unfold with_stack. cbn. by rewrite <- app_assoc.
Qed.

Lemma frame_return tmps v : exec_return base (frame_vm (tmps ++ [v])) = Finished (done_vm v).
Proof.
  destruct Hroom as (_ & Hf & _ & Hs). unfold exec_return. rewrite frame_pop. cbn [error_message frame_vm]. unfold stack_pop_to. cbn [stack frame_vm with_stack with_frames frame_count]. unfold base. rewrite take_app_length.
  assert ((fc + 1 - 1 =? 0) = false) as -> by (apply Z.eqb_neq; lia).
  unfold push, vm_stack_reserve, count. cbn.
  destruct (Z.leb_spec (max_stack_size cfg) (Z.of_nat (length below))); [lia|]. cbn.
  destruct (Z.ltb_spec (max_stack_size cfg) (Z.of_nat (length below) + 1)); [lia|].
  unfold with_stack, done_vm. cbn. by replace (fc + 1 - 1) with fc by lia.
Qed.

Lemma call_finish v : finish base call_vm v = Finished (done_vm v).
Proof.
  destruct Hroom as (_ & Hf & _ & Hs). unfold finish, stack_pop_to, call_vm, base. cbn. rewrite take_app_length.
  unfold push, vm_stack_reserve, count. cbn.
  destruct (Z.leb_spec (max_stack_size cfg) (Z.of_nat (length below))); [lia|]. cbn.
  destruct (Z.ltb_spec (max_stack_size cfg) (Z.of_nat (length below) + 1)); [lia|]. done.
Qed.

(** ** Steps *)

Lemma ensure_ok vm ip n k : 0 <= ip -> ip + n <= code_count (chunk fn) -> ensure fn vm ip n k = k.
Proof.
  intros H1 H2. unfold ensure. destruct (Z.ltb_spec ip 0); [lia|]. by destruct (Z.ltb_spec (code_count (chunk fn)) (ip + n)); [lia|].
Qed.

Lemma step_frame tmps ip op :
  is_op fn ip op = true -> 0 <= ip -> ip + 1 <= code_count (chunk fn) ->
  step fn base (frame_vm tmps) ip = exec fn base op (frame_vm tmps) (ip + 1).
Proof.
  intros Ho H1 H2. destruct Hroom as (Hm & _). unfold step. cbn [error_message frame_vm config].
  destruct (Z.ltb_spec 0 (max_instructions cfg)); [lia|]. cbn [andb]. rewrite ensure_ok by lia.
  unfold is_op in Ho. apply Z.eqb_eq in Ho. by rewrite Ho, decode_op_byte.
Qed.

Lemma run_step n tmps ip op vm' ip' :
  is_op fn ip op = true -> 0 <= ip -> ip + 1 <= code_count (chunk fn) ->
  exec fn base op (frame_vm tmps) (ip + 1) = Continue vm' ip' ->
  run fn base (S n) (frame_vm tmps) ip = run fn base n vm' ip'.
Proof. intros Ho H1 H2 H. cbn [run]. by rewrite (step_frame tmps ip op Ho H1 H2), H. Qed.

Lemma run_return n tmps v ip :
  is_op fn ip OP_RET = true -> 0 <= ip -> ip + 1 <= code_count (chunk fn) ->
  run fn base (S n) (frame_vm (tmps ++ [v])) ip = Some (Finished (done_vm v)).
Proof. intros Ho H1 H2. cbn [run]. rewrite (step_frame _ ip OP_RET) by done. cbn [exec]. by rewrite frame_return. Qed.

Lemma exec_load_tmp tmps ip x :
  (length tmps <= 1)%nat -> 0 <= ip -> ip + 1 <= code_count (chunk fn) -> xs !! Z.to_nat (code_at fn ip) = Some x ->
  exec fn base OP_LOAD_LOCAL (frame_vm tmps) ip = Continue (frame_vm (tmps ++ [VAL_INT x])) (ip + 1).
Proof.
  intros Ht H1 H2 Hx. cbn [exec]. rewrite ensure_ok by lia. unfold with_local. rewrite (frame_local _ _ x) by done.
  by rewrite frame_push.
Qed.

(** [LOAD_LOCAL slot; RET]. *)
Lemma run_load_return n ip x :
  is_op fn ip OP_LOAD_LOCAL = true -> is_op fn (ip + 2) OP_RET = true -> 0 <= ip -> ip + 3 <= code_count (chunk fn) ->
  xs !! Z.to_nat (code_at fn (ip + 1)) = Some x ->
  run fn base (S (S n)) (frame_vm []) ip = Some (Finished (done_vm (VAL_INT x))).
Proof.
  intros Ho1 Ho2 H1 H2 Hx. erewrite run_step; [|exact Ho1|lia|lia|apply (exec_load_tmp [] _ x); [simpl; lia|lia|lia|done]].
  replace (ip + 1 + 1) with (ip + 2) by lia. apply (run_return n [] (VAL_INT x)); [done|lia|lia].
Qed.

Lemma constant_read vm idx c k :
  jit_get_int_constant fn idx = Some c ->
  exists cst, with_constant fn vm idx k = k cst /\ int_constant cst = Some c.
Proof.
  unfold jit_get_int_constant, with_constant. destruct (constant_count (pool fn) <=? idx); [done|].
  destruct (buffer (constants (pool fn)) !! Z.to_nat idx) as [cst|]; [|done]. eauto.
Qed.

Lemma constant_value_int cst c : int_constant cst = Some c -> constant_value cst = VAL_INT c.
Proof.
  unfold int_constant, constant_value. destruct (payload cst); try done. destruct (type_index cst =? 0); [|done].
  by intros [= ->].
Qed.

(** The result of an operation and the return after it. *)
Definition arith_outcome (o : int_op) (x y : Z) : outcome :=
  match int_arith o x y with Some r => Finished (done_vm (VAL_INT r)) | None => Undefined end.

Lemma native_arith o x y :
  zero_error o y = None -> compute call_vm o x y (vm_finish_native_compiled_call_int base call_vm) = arith_outcome o x y.
Proof.
  intros Hz. unfold compute, arith_outcome. rewrite Hz. destruct (int_arith o x y); [|done]. apply call_finish.
Qed.

(** An instruction with four operand bytes that leaves the result on the
    stack, and the return after it. *)
Lemma run_arith n ip op o x y :
  is_op fn ip op = true -> is_op fn (ip + 5) OP_RET = true -> 0 <= ip -> ip + 6 <= code_count (chunk fn) ->
  zero_error o y = None ->
  exec fn base op (frame_vm []) (ip + 1) =
    compute (frame_vm []) o x y (fun r => Continue (push (frame_vm []) (VAL_INT r)) (ip + 1 + 4)) ->
  run fn base (S (S n)) (frame_vm []) ip = Some (arith_outcome o x y).
Proof.
  intros Ho1 Ho2 H1 H2 Hz He. cbn [run]. rewrite (step_frame [] ip op) by (done || lia). rewrite He.
  unfold compute, arith_outcome. rewrite Hz. destruct (int_arith o x y) as [r|]; [|done].
  rewrite frame_push by (simpl; lia). replace (ip + 1 + 4) with (ip + 5) by lia.
  apply (run_return n [] (VAL_INT r)); [done|lia|lia].
Qed.

(** [LOAD_LOCAL a; LOAD_LOCAL b; op; RET], [op] a comparison. *)
Definition compares (op : OpCode) (f : Z -> Z -> bool) : Prop :=
  forall x y ip,
    exec fn base op (frame_vm [VAL_INT x; VAL_INT y]) ip = Continue (push (frame_vm []) (VAL_BOOL (f x y))) ip.

Lemma pop_frame_two v w : pop (frame_vm [v; w]) = (w, frame_vm [v]) /\ pop (frame_vm [v]) = (v, frame_vm []).
Proof. split; [apply (frame_pop [v] w)|apply (frame_pop [] v)]. Qed.

Lemma compares_order op o : exec fn base op = exec_compare o -> compares op (int_compare o).
Proof.
  intros He x y ip. rewrite He. unfold exec_compare. rewrite (proj1 (pop_frame_two _ _)). cbv iota beta.
  rewrite (proj2 (pop_frame_two (VAL_INT x) VAL_NIL)). done.
Qed.

Lemma compares_equal op negate :
  exec fn base op = exec_equal negate -> compares op (fun x y => if negate then negb (x =? y) else (x =? y)).
Proof.
  intros He x y ip. rewrite He. unfold exec_equal. rewrite (proj1 (pop_frame_two _ _)). cbv iota beta.
  rewrite (proj2 (pop_frame_two (VAL_INT x) VAL_NIL)). by destruct negate.
Qed.

Lemma run_compare n ip op f x y :
  compares op f ->
  is_op fn ip OP_LOAD_LOCAL = true -> is_op fn (ip + 2) OP_LOAD_LOCAL = true -> is_op fn (ip + 4) op = true ->
  is_op fn (ip + 5) OP_RET = true -> 0 <= ip -> ip + 6 <= code_count (chunk fn) ->
  xs !! Z.to_nat (code_at fn (ip + 1)) = Some x -> xs !! Z.to_nat (code_at fn (ip + 3)) = Some y ->
  run fn base (S (S (S (S n)))) (frame_vm []) ip = Some (Finished (done_vm (VAL_BOOL (f x y)))).
Proof.
  intros Hf Ho1 Ho2 Ho3 Ho4 H1 H2 Hx Hy.
  erewrite run_step; [|exact Ho1|lia|lia|apply (exec_load_tmp [] _ x); [simpl; lia|lia|lia|done]].
  replace (ip + 1 + 1) with (ip + 2) by lia.
  erewrite run_step; [|exact Ho2|lia|lia|].
  2:{ apply (exec_load_tmp [VAL_INT x] _ y); [simpl; lia|lia|lia|]. by replace (ip + 2 + 1) with (ip + 3) by lia. }
  replace (ip + 2 + 1 + 1) with (ip + 4) by lia.
  erewrite run_step; [|exact Ho3|lia|lia|apply Hf]. replace (ip + 4 + 1) with (ip + 5) by lia.
  rewrite frame_push by (simpl; lia). apply (run_return n [] (VAL_BOOL (f x y))); [done|lia|lia].
Qed.

(** A conditional jump over three bytes. *)
Lemma run_guard n ip x c :
  is_op fn ip OP_JUMP_IF_LOCAL_GE_CONST = true -> skips3 fn (ip + 3) = true ->
  0 <= ip -> ip + 5 <= code_count (chunk fn) ->
  xs !! Z.to_nat (code_at fn (ip + 1)) = Some x -> jit_get_int_constant fn (code_at fn (ip + 2)) = Some c ->
  run fn base (S n) (frame_vm []) ip = run fn base n (frame_vm []) (if x <? c then ip + 5 else ip + 8).
Proof.
  intros Ho Hs H1 H2 Hx Hc. unfold skips3 in Hs. apply Z.eqb_eq in Hs.
  eapply run_step; [exact Ho|lia|lia|]. cbn [exec]. unfold exec_jump_local_const. rewrite ensure_ok by lia.
  replace (ip + 1 + 1) with (ip + 2) by lia.
  match goal with |- with_constant _ _ _ ?k = _ => destruct (constant_read (frame_vm []) _ c k Hc) as (cst & -> & Hi) end.
  unfold with_local. rewrite (frame_local [] _ x Hx), (constant_value_int _ _ Hi). cbn [jump_compare int_compare jump_if].
  replace (ip + 1 + 2) with (ip + 3) by lia. rewrite Hs.
  destruct (Z.leb_spec c x), (Z.ltb_spec x c); try lia; f_equal; lia.
Qed.

Lemma run_jump n ip op o x y :
  exec fn base op = exec_jump_locals fn base o ->
  is_op fn ip op = true -> skips3 fn (ip + 3) = true ->
  0 <= ip -> ip + 5 <= code_count (chunk fn) ->
  xs !! Z.to_nat (code_at fn (ip + 1)) = Some x -> xs !! Z.to_nat (code_at fn (ip + 2)) = Some y ->
  run fn base (S n) (frame_vm []) ip = run fn base n (frame_vm []) (if int_compare o x y then ip + 8 else ip + 5).
Proof.
  intros He Ho Hs H1 H2 Hx Hy. unfold skips3 in Hs. apply Z.eqb_eq in Hs.
  eapply run_step; [exact Ho|lia|lia|]. rewrite He. unfold exec_jump_locals. rewrite ensure_ok by lia.
  replace (ip + 1 + 1) with (ip + 2) by lia. replace (ip + 1 + 2) with (ip + 3) by lia.
  unfold with_local. rewrite (frame_local [] _ x Hx), (frame_local [] _ y Hy). cbn [jump_compare jump_if].
  rewrite Hs. destruct (int_compare o x y); f_equal; lia.
Qed.

(** The operations of the arithmetic instructions. *)
Lemma exec_locals op o ip x y :
  exec fn base op = exec_locals_int fn base o -> 0 <= ip -> ip + 4 <= code_count (chunk fn) ->
  xs !! Z.to_nat (code_at fn ip) = Some x -> xs !! Z.to_nat (code_at fn (ip + 1)) = Some y ->
  exec fn base op (frame_vm []) ip =
    compute (frame_vm []) o x y (fun r => Continue (push (frame_vm []) (VAL_INT r)) (ip + 4)).
Proof.
  intros He H1 H2 Hx Hy. rewrite He. unfold exec_locals_int. rewrite ensure_ok by lia.
  unfold with_local. by rewrite (frame_local [] _ x Hx), (frame_local [] _ y Hy).
Qed.

Lemma exec_local_const op o ip x c :
  exec fn base op = exec_local_const_int fn base o -> 0 <= ip -> ip + 4 <= code_count (chunk fn) ->
  xs !! Z.to_nat (code_at fn ip) = Some x -> jit_get_int_constant fn (code_at fn (ip + 1)) = Some c ->
  exec fn base op (frame_vm []) ip =
    compute (frame_vm []) o x c (fun r => Continue (push (frame_vm []) (VAL_INT r)) (ip + 4)).
Proof.
  intros He H1 H2 Hx Hc. rewrite He. unfold exec_local_const_int. rewrite ensure_ok by lia.
  match goal with |- with_constant _ _ _ ?k = _ => destruct (constant_read (frame_vm []) _ c k Hc) as (cst & -> & Hi) end.
  unfold with_local. by rewrite (frame_local [] _ x Hx), Hi.
Qed.

(** ** The matches *)

(** Interpreting the body gives what executing the plan of the summary
    does. *)
Definition agrees (s : JitFunctionSummary) : Prop :=
  exists plan, jit_plan_from_summary s = Some plan /\
    run fn (base) 5 (frame_vm []) 0 = Some (exec_plan base call_vm plan).

Lemma guard_some {A} b (k : option A) r : guard b k = Some r -> b = true /\ k = Some r.
Proof. destruct b; [done|discriminate]. Qed.

Lemma body_end_le e : (body_end fn =? e) = true -> e <= code_count (chunk fn).
Proof. intros H%Z.eqb_eq. unfold body_end in H. destruct (jit_has_trailing_nil_return _ _); lia. Qed.

Lemma leaf_params n : leaf fn n = true -> param_count fn = n.
Proof. unfold leaf. destruct (code (chunk fn)); [|done]. rewrite negb_true_iff, !orb_false_iff, !negb_false_iff, !Z.eqb_eq. tauto. Qed.

Lemma two_slots_args i j :
  two_slots fn i j = true -> length xs = 2%nat ->
  exists x y, xs !! Z.to_nat (code_at fn i) = Some x /\ xs !! Z.to_nat (code_at fn j) = Some y.
Proof.
  unfold two_slots. rewrite negb_true_iff, !orb_false_iff, !Z.ltb_ge. intros [[H1 H2] _] Hl.
  destruct (lookup_lt_is_Some_2 xs (Z.to_nat (code_at fn i))) as [x Hx]; [lia|].
  destruct (lookup_lt_is_Some_2 xs (Z.to_nat (code_at fn j))) as [y Hy]; [lia|]. eauto.
Qed.

Lemma slot_arg i v : (code_at fn i =? v) = true -> 0 <= v < Z.of_nat (length xs) -> exists x, xs !! Z.to_nat (code_at fn i) = Some x.
Proof. intros ->%Z.eqb_eq Hv. destruct (lookup_lt_is_Some_2 xs (Z.to_nat v)) as [x Hx]; [lia|]. eauto. Qed.

Lemma zero_divides op o y :
  op_of_kind summary_int_ops op = Some o -> negb (divides op && (y =? 0)) = true -> zero_error o y = None.
Proof.
  unfold divides, summary_int_ops. cbn [op_of_kind]. intros Ho Hd.
  repeat match type of Ho with (if ?b then _ else _) = _ => destruct b eqn:?; [injection Ho as <-; try done|] end; try done.
  all: apply negb_true_iff in Hd; cbn; by destruct (y =? 0); [rewrite ?orb_true_r in Hd|].
Qed.

Lemma native_summary op o x y :
  op_of_kind summary_int_ops op = Some o -> zero_error o y = None ->
  vm_finish_native_int_binary_summary_op base call_vm op x y = arith_outcome o x y.
Proof.
  intros Ho Hz. unfold vm_finish_native_int_binary_summary_op, vm_eval_native_int_binary_summary_op. rewrite Ho.
  by apply native_arith.
Qed.
End Call.

(** The tests of a match as hypotheses. *)
Ltac matched H :=
  let Hb := fresh "Hb" in
  apply guard_some in H as [Hb H]; rewrite !andb_true_iff in Hb; destruct_and! Hb;
  repeat match goal with
  | H : (body_end _ =? _) = true |- _ => apply body_end_le in H
  | H : leaf _ _ = true |- _ => apply leaf_params in H
  end.

Lemma first_summary_in l s : first_match l = Some s -> In (Some s) l.
Proof. induction l as [|[s'|] l IH]; cbn; [done| |auto]. intros [= ->]. by left. Qed.

(** Every case of a list of attempts. *)
Ltac each_match H := apply first_summary_in in H; cbn [In] in H; repeat destruct H as [H|H]; try done.

Section Matches.
Context (fn : ObjFunction) (below : list Value) (xs : list Z) (fc ic : Z) (cfg : VmConfig).
Context (Hroom : call_room below xs fc cfg).
Context (Hlen : Z.of_nat (length xs) = param_count fn).

Notation agree := (agrees fn below xs fc ic cfg).
Notation here := (call_vm below xs fc ic cfg).

Lemma match_local_const opcode op o s :
  exec fn (base below) opcode = exec_local_const_int fn (base below) o ->
  op_of_kind summary_int_ops op = Some o -> kind_in binary_ops op = true ->
  jit_try_match_native_local_const_int_binary fn opcode op = Some s -> agree s.
Proof.
  intros He Ho Hop H. matched H. destruct (jit_get_int_constant fn (code_at fn 2)) as [c|] eqn:Hc; [|done].
  apply guard_some in H as [Hd [= <-]]. pose proof (zero_divides _ _ _ Ho Hd) as Hz.
  edestruct (slot_arg fn xs 1 0) as [x Hx]; [done|lia|].
  eexists. split.
  { unfold jit_plan_from_summary. cbn. unfold jit_map_local_const_summary_kind. by rewrite Hop. }
  change (exec_plan _ here _) with
    (with_int (base below) here "Operands must be integer" (code_at fn 1) (fun x => vm_finish_native_int_binary_summary_op (base below) here op x c)).
  rewrite (call_int _ _ _ _ _ _ _ x) by done. rewrite (native_summary below xs fc ic cfg Hroom op o) by done.
  apply (run_arith fn below xs fc ic cfg Hroom 3 0 opcode); try (done || lia).
  apply (exec_local_const fn below xs fc ic cfg opcode o 1); (done || lia).
Qed.

Lemma match_twoarg opcode op o s :
  exec fn (base below) opcode = exec_locals_int fn (base below) o ->
  op_of_kind summary_int_ops op = Some o -> (forall y, zero_error o y = None) -> kind_in twoarg_ops op = true ->
  jit_try_match_native_twoarg_locals_int fn opcode op = Some s -> agree s.
Proof.
  intros He Ho Hz Hop H. matched H. injection H as <-.
  edestruct (two_slots_args fn xs 1 2) as (x & y & Hx & Hy); [done|lia|].
  eexists. split.
  { unfold jit_plan_from_summary. cbn. unfold jit_map_twoarg_int_summary_kind. by rewrite Hop. }
  change (exec_plan _ here _) with
    (with_ints (base below) here (code_at fn 1) (code_at fn 2) (vm_finish_native_int_binary_summary_op (base below) here op)).
  rewrite (call_ints _ _ _ _ _ _ _ x y) by done. rewrite (native_summary below xs fc ic cfg Hroom op o) by done.
  apply (run_arith fn below xs fc ic cfg Hroom 3 0 opcode); try (done || lia).
  apply (exec_locals fn below xs fc ic cfg opcode o 1); (done || lia).
Qed.

Lemma match_guard_local_const opcode op o s :
  exec fn (base below) opcode = exec_local_const_int fn (base below) o ->
  op_of_kind summary_int_ops op = Some o -> kind_in binary_ops op = true ->
  jit_try_match_native_guard_local_const_int_binary fn opcode op = Some s -> agree s.
Proof.
  intros He Ho Hop H. matched H. destruct (jit_get_int_constant fn (code_at fn 2)) as [g|] eqn:Hg; [|done].
  destruct (jit_get_int_constant fn (code_at fn 10)) as [c|] eqn:Hc; [|done].
  apply guard_some in H as [Hd [= <-]]. pose proof (zero_divides _ _ _ Ho Hd) as Hz.
  edestruct (slot_arg fn xs 1 0) as [x Hx]; [done|lia|].
  assert (code_at fn 6 = code_at fn 1 /\ code_at fn 9 = code_at fn 1) as [E6 E9] by lia.
  eexists. split.
  { unfold jit_plan_from_summary. cbn. unfold jit_map_local_const_summary_kind. by rewrite Hop. }
  change (exec_plan _ here _) with
    (with_int (base below) here "Operands must be same numeric type" (code_at fn 1)
       (fun x => vm_finish_native_guarded_int_binary_summary_op (base below) here op x c g)).
  rewrite (call_int _ _ _ _ _ _ _ x) by done. unfold vm_finish_native_guarded_int_binary_summary_op.
  rewrite (run_guard fn below xs fc ic cfg Hroom 4 0 x g) by (done || lia). destruct (x <? g).
  - unfold vm_finish_native_compiled_call_int. rewrite (call_finish below xs fc ic cfg Hroom).
    apply (run_load_return fn below xs fc ic cfg Hroom 2 5 x); try (done || lia). change (5 + 1) with 6. by rewrite E6.
  - rewrite (native_summary below xs fc ic cfg Hroom op o) by done.
    apply (run_arith fn below xs fc ic cfg Hroom 2 8 opcode); try (done || lia).
    apply (exec_local_const fn below xs fc ic cfg opcode o 9); try (done || lia). by rewrite E9.
Qed.

Lemma match_guard_twoarg opcode op o s :
  exec fn (base below) opcode = exec_locals_int fn (base below) o ->
  op_of_kind summary_int_ops op = Some o -> (forall y, zero_error o y = None) -> kind_in twoarg_ops op = true ->
  jit_try_match_native_guard_twoarg_locals_int fn opcode op = Some s ->
  (s_kind s = JIT_SUMMARY_KIND_INT_GUARDED_TWOARG_BINARY -> slot0 s = 0) -> agree s.
Proof.
  intros He Ho Hz Hop H Hs. matched H. destruct (jit_get_int_constant fn (code_at fn 2)) as [g|] eqn:Hg; [|done].
  injection H as <-. specialize (Hs eq_refl). cbn in Hs.
  edestruct (two_slots_args fn xs 9 10) as (x & y & Hx & Hy); [done|lia|].
  assert (code_at fn 6 = code_at fn 9 /\ code_at fn 1 = code_at fn 9) as [E6 E1] by lia.
  eexists. split.
  { unfold jit_plan_from_summary. cbn. unfold jit_map_twoarg_int_summary_kind. by rewrite Hop. }
  change (exec_plan _ here _) with
    (with_ints (base below) here (code_at fn 9) (code_at fn 10)
       (fun x y => vm_finish_native_guarded_int_binary_summary_op (base below) here op x y g)).
  rewrite (call_ints _ _ _ _ _ _ _ x y) by done. unfold vm_finish_native_guarded_int_binary_summary_op.
  rewrite (run_guard fn below xs fc ic cfg Hroom 4 0 x g); try (done || lia); [|change (0 + 1) with 1; by rewrite E1].
  destruct (x <? g).
  - unfold vm_finish_native_compiled_call_int. rewrite (call_finish below xs fc ic cfg Hroom).
    apply (run_load_return fn below xs fc ic cfg Hroom 2 5 x); try (done || lia). change (5 + 1) with 6. by rewrite E6.
  - rewrite (native_summary below xs fc ic cfg Hroom op o) by done.
    apply (run_arith fn below xs fc ic cfg Hroom 2 8 opcode); try (done || lia).
    apply (exec_locals fn below xs fc ic cfg opcode o 9); (done || lia).
Qed.

Lemma native_compare op f x y :
  op_of_kind summary_compare_ops op = Some f ->
  vm_finish_native_int_compare_summary_op (base below) here op x y = Finished (done_vm below fc ic cfg (VAL_BOOL (f x y))).
Proof.
  intros Ho. unfold vm_finish_native_int_compare_summary_op, vm_eval_native_int_compare_summary_op. rewrite Ho.
  apply (call_finish below xs fc ic cfg Hroom).
Qed.

Lemma match_compare opcode op f s :
  compares fn below xs fc ic cfg opcode f -> op_of_kind summary_compare_ops op = Some f -> kind_in compare_ops op = true ->
  jit_try_match_native_twoarg_locals_bool_cmp fn opcode op = Some s -> agree s.
Proof.
  intros Hf Ho Hop H. matched H. injection H as <-.
  edestruct (two_slots_args fn xs 1 3) as (x & y & Hx & Hy); [done|lia|].
  eexists. split.
  { unfold jit_plan_from_summary. cbn. unfold jit_map_twoarg_bool_summary_kind. by rewrite Hop. }
  change (exec_plan _ here _) with
    (with_ints (base below) here (code_at fn 1) (code_at fn 3) (vm_finish_native_int_compare_summary_op (base below) here op)).
  rewrite (call_ints _ _ _ _ _ _ _ x y) by done. rewrite (native_compare op f) by done.
  apply (run_compare fn below xs fc ic cfg Hroom 1 0 opcode f); (done || lia).
Qed.

(** The constant a guarded comparison returns is pushed as a [bool] only if
    it has that type in the pool. *)
Definition bool_constant_typed (idx : Z) : Prop :=
  idx <> 255 /\ forall c, buffer (constants (pool fn)) !! Z.to_nat idx = Some c -> type_index c = 4.

Lemma run_const_return n ip b :
  is_op fn ip OP_CONST = true -> is_op fn (ip + 2) OP_RET = true -> 0 <= ip -> ip + 3 <= code_count (chunk fn) ->
  jit_get_bool_constant fn (code_at fn (ip + 1)) = Some b -> bool_constant_typed (code_at fn (ip + 1)) ->
  run fn (base below) (S (S n)) (frame_vm below xs fc ic cfg []) ip = Some (Finished (done_vm below fc ic cfg (VAL_BOOL b))).
Proof.
  intros Ho1 Ho2 H1 H2 Hb [Hn Ht].
  rewrite (run_step fn below xs fc ic cfg Hroom _ [] ip OP_CONST (frame_vm below xs fc ic cfg [VAL_BOOL b]) (ip + 1 + 1)); try (done || lia).
  - replace (ip + 1 + 1) with (ip + 2) by lia.
    apply (run_return fn below xs fc ic cfg Hroom n [] (VAL_BOOL b)); (done || lia).
  - cbn [exec]. rewrite (ensure_ok fn) by lia. apply Z.eqb_neq in Hn as ->.
    unfold vm_push_constant_by_index, with_constant. unfold jit_get_bool_constant in Hb.
    destruct (constant_count (pool fn) <=? code_at fn (ip + 1)); [done|].
    destruct (buffer (constants (pool fn)) !! Z.to_nat (code_at fn (ip + 1))) as [[[i| |] t]|] eqn:Ec; try done.
    specialize (Ht _ eq_refl). cbn in Ht. subst t. cbn in Hb. injection Hb as <-. cbn [payload type_index].
    change (4 =? 0) with false. change (4 =? 4) with true. cbv iota.
    rewrite (frame_push below xs fc ic cfg Hroom []) by (simpl; lia). reflexivity.
Qed.

Lemma match_guard_compare opcode op f s :
  compares fn below xs fc ic cfg opcode f -> op_of_kind summary_compare_ops op = Some f -> kind_in compare_ops op = true ->
  jit_try_match_native_guard_twoarg_locals_bool_cmp fn opcode op = Some s ->
  (s_kind s = JIT_SUMMARY_KIND_BOOL_GUARDED_TWOARG_COMPARE -> bool_constant_typed (code_at fn 6)) -> agree s.
Proof.
  intros Hf Ho Hop H Ht. matched H. destruct (jit_get_int_constant fn (code_at fn 2)) as [g|] eqn:Hg; [|done].
  destruct (jit_get_bool_constant fn (code_at fn 6)) as [b|] eqn:Hb; [|done]. injection H as <-. specialize (Ht eq_refl).
  edestruct (two_slots_args fn xs 9 11) as (x & y & Hx & Hy); [done|lia|].
  assert (code_at fn 1 = code_at fn 9) as E1 by lia.
  eexists. split.
  { unfold jit_plan_from_summary. cbn. unfold jit_map_twoarg_bool_summary_kind. by rewrite Hop. }
  change (exec_plan _ here _) with
    (with_ints (base below) here (code_at fn 9) (code_at fn 11)
       (fun x y => vm_finish_native_guarded_int_compare_summary_op (base below) here op x y g (negb ((if b then 1 else 0) =? 0)))).
  rewrite (call_ints _ _ _ _ _ _ _ x y) by done. unfold vm_finish_native_guarded_int_compare_summary_op.
  rewrite (run_guard fn below xs fc ic cfg Hroom 4 0 x g); try (done || lia); [|change (0 + 1) with 1; by rewrite E1].
  destruct (x <? g).
  - unfold vm_finish_native_compiled_call_bool. rewrite (call_finish below xs fc ic cfg Hroom).
    etransitivity; [apply (run_const_return 2 5 b); (done || lia)|by destruct b].
  - rewrite (native_compare op f) by done.
    apply (run_compare fn below xs fc ic cfg Hroom 0 8 opcode f); (done || lia).
Qed.

(** The jump of a selector is taken when its condition does not hold. *)
Definition selects (op : Z) (o : cmp_op) : Prop :=
  kind_in order_ops op = true /\
  exists f, op_of_kind summary_compare_ops op = Some f /\ forall x y, f x y = negb (int_compare o x y).

Lemma run_selector n ip opcode op o x y t f' :
  exec fn (base below) opcode = exec_jump_locals fn (base below) o -> selects op o ->
  is_op fn ip opcode = true -> is_op fn (ip + 5) OP_LOAD_LOCAL = true -> is_op fn (ip + 7) OP_RET = true ->
  is_op fn (ip + 8) OP_LOAD_LOCAL = true -> is_op fn (ip + 10) OP_RET = true -> skips3 fn (ip + 3) = true ->
  0 <= ip -> ip + 11 <= code_count (chunk fn) ->
  xs !! Z.to_nat (code_at fn (ip + 1)) = Some x -> xs !! Z.to_nat (code_at fn (ip + 2)) = Some y ->
  xs !! Z.to_nat (code_at fn (ip + 6)) = Some t -> xs !! Z.to_nat (code_at fn (ip + 9)) = Some f' ->
  run fn (base below) (S (S (S n))) (frame_vm below xs fc ic cfg []) ip =
    Some (vm_finish_native_int_selector_summary_op (base below) here op x y (code_at fn (ip + 6)) (code_at fn (ip + 9))).
Proof.
  intros He (Hop & f & Hf & Hneg) Ho1 Ho2 Ho3 Ho4 Ho5 Hs H1 H2 Hx Hy Ht Hf'.
  rewrite (run_jump fn below xs fc ic cfg Hroom _ ip opcode o x y) by (done || lia).
  unfold vm_finish_native_int_selector_summary_op, vm_eval_native_int_selector_summary_op. rewrite Hop, Hf, Hneg.
  destruct (int_compare o x y); cbn [negb].
  - rewrite (call_int _ _ _ _ _ _ _ f') by done. unfold vm_finish_native_compiled_call_int. rewrite (call_finish below xs fc ic cfg Hroom).
    apply (run_load_return fn below xs fc ic cfg Hroom n (ip + 8) f'); try lia; try done.
    + by replace (ip + 8 + 2) with (ip + 10) by lia.
    + by replace (ip + 8 + 1) with (ip + 9) by lia.
  - rewrite (call_int _ _ _ _ _ _ _ t) by done. unfold vm_finish_native_compiled_call_int. rewrite (call_finish below xs fc ic cfg Hroom).
    apply (run_load_return fn below xs fc ic cfg Hroom n (ip + 5) t); try lia; try done.
    + by replace (ip + 5 + 2) with (ip + 7) by lia.
    + by replace (ip + 5 + 1) with (ip + 6) by lia.
Qed.

Lemma match_selector opcode op o s :
  exec fn (base below) opcode = exec_jump_locals fn (base below) o -> selects op o ->
  jit_try_match_native_twoarg_selector_int fn opcode op = Some s -> agree s.
Proof.
  intros He Hs H. pose proof (proj1 Hs) as Hop. matched H. injection H as <-.
  edestruct (two_slots_args fn xs 6 9) as (t & f & Ht & Hf); [done|lia|].
  edestruct (slot_arg fn xs 1 0) as [x Hx]; [done|lia|]. edestruct (slot_arg fn xs 2 1) as [y Hy]; [done|lia|].
  assert (code_at fn 1 = 0 /\ code_at fn 2 = 1) as [E1 E2] by lia.
  eexists. split.
  { unfold jit_plan_from_summary. cbn. unfold jit_map_twoarg_selector_summary_kind. by rewrite Hop. }
  change (exec_plan _ here _) with
    (with_ints (base below) here 0 1
       (fun x y => vm_finish_native_int_selector_summary_op (base below) here op x y (code_at fn 6) (code_at fn 9))).
  rewrite (call_ints _ _ _ _ _ _ _ x y); [|by rewrite <- E1|by rewrite <- E2].
  by apply (run_selector 2 0 opcode op o x y t f).
Qed.

Lemma match_guard_selector opcode op o s :
  exec fn (base below) opcode = exec_jump_locals fn (base below) o -> selects op o ->
  jit_try_match_native_guard_twoarg_selector_int fn opcode op = Some s -> agree s.
Proof.
  intros He Hs H. pose proof (proj1 Hs) as Hop. matched H.
  destruct (jit_get_int_constant fn (code_at fn 2)) as [g|] eqn:Hg; [|done]. injection H as <-.
  edestruct (two_slots_args fn xs 14 17) as (t & f & Ht & Hf); [done|lia|].
  edestruct (slot_arg fn xs 9 0) as [x Hx]; [done|lia|]. edestruct (slot_arg fn xs 10 1) as [y Hy]; [done|lia|].
  assert (code_at fn 9 = 0 /\ code_at fn 10 = 1 /\ code_at fn 1 = code_at fn 9 /\ code_at fn 6 = code_at fn 9)
    as (E9 & E10 & E1 & E6) by lia.
  eexists. split.
  { unfold jit_plan_from_summary. cbn. unfold jit_map_twoarg_selector_summary_kind. by rewrite Hop. }
  change (exec_plan _ here _) with
    (with_ints (base below) here 0 1
       (fun x y => vm_finish_native_guarded_int_selector_summary_op (base below) here op x y g (code_at fn 14) (code_at fn 17))).
  rewrite (call_ints _ _ _ _ _ _ _ x y); [|by rewrite <- E9|by rewrite <- E10].
  unfold vm_finish_native_guarded_int_selector_summary_op.
  rewrite (run_guard fn below xs fc ic cfg Hroom 4 0 x g); try (done || lia); [|change (0 + 1) with 1; by rewrite E1].
  destruct (x <? g).
  - unfold vm_finish_native_compiled_call_int. rewrite (call_finish below xs fc ic cfg Hroom).
    apply (run_load_return fn below xs fc ic cfg Hroom 2 5 x); try (done || lia). change (5 + 1) with 6. by rewrite E6.
  - apply (run_selector 1 8 opcode op o x y t f); (done || lia).
Qed.

(** What a summary needs besides the match: the guard of an operation on two
    arguments tests the first one, so it must be the left operand; the
    constant of a guarded comparison must be of type [bool]. *)
Definition faithful (s : JitFunctionSummary) : Prop :=
  (s_kind s = JIT_SUMMARY_KIND_INT_GUARDED_TWOARG_BINARY -> slot0 s = 0) /\
  (s_kind s = JIT_SUMMARY_KIND_BOOL_GUARDED_TWOARG_COMPARE -> bool_constant_typed (code_at fn 6)).

Lemma selects_lt : selects JIT_SUMMARY_OP_LT CGe.
Proof. split; [done|]. eexists. split; [reflexivity|]. intros x y. apply Z.ltb_antisym. Qed.
Lemma selects_le : selects JIT_SUMMARY_OP_LE CGt.
Proof. split; [done|]. eexists. split; [reflexivity|]. intros x y. apply Z.leb_antisym. Qed.
Lemma selects_gt : selects JIT_SUMMARY_OP_GT CLe.
Proof. split; [done|]. eexists. split; [reflexivity|]. intros x y. apply Z.ltb_antisym. Qed.
Lemma selects_ge : selects JIT_SUMMARY_OP_GE CLt.
Proof. split; [done|]. eexists. split; [reflexivity|]. intros x y. apply Z.leb_antisym. Qed.

Lemma arithmetic_agrees s : faithful s -> jit_try_recover_arithmetic_summary fn = Some s -> agree s.
Proof.
  intros [Hg _] H. each_match H;
    (first [ eapply match_local_const; [| | |exact H] | eapply match_guard_local_const; [| | |exact H]
           | eapply match_twoarg; [| | | |exact H] | eapply match_guard_twoarg; [| | | |exact H|exact Hg] ]);
    solve [reflexivity | intros ?; reflexivity].
Qed.

Lemma compare_agrees s : faithful s -> recover_compare fn = Some s -> agree s.
Proof.
  intros [_ Ht] H.
  pose proof (compares_order fn below xs fc ic cfg) as Co. pose proof (compares_equal fn below xs fc ic cfg) as Ce.
  each_match H;
    (first [ eapply match_compare; [| | |exact H] | eapply match_guard_compare; [| | |exact H|exact Ht] ]);
    try reflexivity;
    solve [by apply (Co _ CLt) | by apply (Co _ CLe) | by apply (Co _ CGt) | by apply (Co _ CGe)
          | by apply (Ce _ false) | by apply (Ce _ true)].
Qed.

Lemma selector_agrees s : recover_selector fn = Some s -> agree s.
Proof.
  intros H. each_match H;
    (first [ eapply match_selector; [| |exact H] | eapply match_guard_selector; [| |exact H] ]);
    solve [reflexivity | exact selects_lt | exact selects_le | exact selects_gt | exact selects_ge].
Qed.

Lemma recovered_agrees s : faithful s -> jit_try_recover_exact_summary fn = Some s -> agree s.
Proof.
  intros Hf H. each_match H; apply guard_some in H as [_ H].
  - by apply arithmetic_agrees.
  - by apply compare_agrees.
  - by apply selector_agrees.
Qed.
End Matches.

(** ** The call *)

Lemma recovered_leaf fn s : jit_try_recover_exact_summary fn = Some s -> leaf fn 1 = true \/ leaf fn 2 = true.
Proof.
  intros H. each_match H; apply guard_some in H as [_ H]; each_match H;
    apply guard_some in H as [Hb _]; rewrite !andb_true_iff in Hb; tauto.
Qed.

Lemma interpret_leaf fn below xs fc ic cfg fuel n :
  call_room below xs fc cfg -> leaf fn n = true -> Z.of_nat (length xs) = n ->
  interpret fuel (call_vm below xs fc ic cfg) fn (base below) n = run fn (base below) fuel (frame_vm below xs fc ic cfg []) 0.
Proof.
  intros (_ & _ & Hd & _) Hl Hn. unfold leaf in Hl. destruct (code (chunk fn)); [|done].
  rewrite negb_true_iff, !orb_false_iff, !negb_false_iff, !Z.eqb_eq in Hl. destruct Hl as [[[Ha Hc] Hp] Hk].
  unfold interpret, vm_enter_sync_function_from_call. rewrite Ha, Hc, Hp, Hk, Z.eqb_refl. cbn [negb frame_count config call_vm].
  destruct (Z.ltb_spec (max_call_depth cfg) (fc + 1)); [lia|]. rewrite Z.ltb_irrefl. cbn [Z.ltb Z.compare].
  unfold push_nil_count. rewrite Z.sub_diag. change (0 <=? 0) with true. cbv iota. cbn [frame_count with_frames].
  unfold with_frames, frame_vm. cbn. by rewrite app_nil_r.
Qed.

Lemma recovered_plan fn s : faithful fn s -> jit_try_recover_exact_summary fn = Some s -> exists plan, jit_plan_from_summary s = Some plan.
Proof.
  intros Hf Hs. pose (xs := repeat 0 (Z.to_nat (param_count fn))).
  assert (Z.of_nat (length xs) = param_count fn) as Hn.
  { unfold xs. rewrite repeat_length. destruct (recovered_leaf fn s Hs) as [H%leaf_params|H%leaf_params]; lia. }
  destruct (recovered_agrees fn [] xs 1 0 (mkConfig 2 (Z.of_nat (length xs) + 2) 1024 0)) with (s := s) as (plan & Hp & _); eauto.
  unfold call_room. cbn. lia.
Qed.


(** [if (a < 10) return a; return l - r], with the operands in slots [l] and
    [r]: the guard, the load and return, the subtraction and return. *)
Definition guarded_sub (l r : Z) : ObjFunction :=
  mkFunction
    (mkChunk (Some [op_byte OP_JUMP_IF_LOCAL_GE_CONST; 0; 0; 0; 3; op_byte OP_LOAD_LOCAL; 0; op_byte OP_RET;
                    op_byte OP_SUB_LOCALS_INT; l; r; 0; 0; op_byte OP_RET]) None 14 14)
    (mkPool (Some [mkConstant (as_int 10) 0]) 1 1)
    2 2 None 0 None false (-1) (-1) None None
    (mkProfile 0 JIT_PROFILE_SUPPORT_NATIVE_SUMMARY JIT_PROFILE_NATIVE_FAMILY_ARITHMETIC 2 2 0 (mkSummary JIT_SUMMARY_KIND_NONE 0 0 0 0 0))
    (mkPlan 0 0 0 0 0 0 0).

Definition small_config : VmConfig := mkConfig 16 64 1024 0.


(** With the operands exchanged the plan of [guarded_sub] tests and
    returns the other argument: for [a = 3] and [b = 20] the bytecode returns 3, the plan 17; for [a = 20]
    and [b = 3] the bytecode returns -17, the plan 3. *)
Theorem jit_guard_defect :
  exists s plan,
    jit_try_recover_exact_summary (guarded_sub 1 0) = Some s /\ jit_plan_from_summary s = Some plan /\
    interpret 5 (call_vm [VAL_NIL] [3; 20] 1 0 small_config) (guarded_sub 1 0) 1 2 =
      Some (Finished (done_vm [VAL_NIL] 1 0 small_config (VAL_INT 3))) /\
    vm_jit_native_compiled_entry 1 (call_vm [VAL_NIL] [3; 20] 1 0 small_config) (guarded_sub 1 0) plan 2 =
      Finished (done_vm [VAL_NIL] 1 0 small_config (VAL_INT 17)) /\
    interpret 5 (call_vm [VAL_NIL] [20; 3] 1 0 small_config) (guarded_sub 1 0) 1 2 =
      Some (Finished (done_vm [VAL_NIL] 1 0 small_config (VAL_INT (-17)))) /\
    vm_jit_native_compiled_entry 1 (call_vm [VAL_NIL] [20; 3] 1 0 small_config) (guarded_sub 1 0) plan 2 =
      Finished (done_vm [VAL_NIL] 1 0 small_config (VAL_INT 3)).
Proof.
  exists (mkSummary JIT_SUMMARY_KIND_INT_GUARDED_TWOARG_BINARY JIT_SUMMARY_OP_SUB 1 0 10 0).
  eexists. repeat split; vm_compute; reflexivity.
Qed.
