(* ===== verification/JitQueue.v ===== *)
(** * The queue of hot functions: invariant and order

    The functions of [src/src/jit.c] that count entries, queue hot functions
    and compile them keep the invariant [jit_ok], compile each function at most
    once and in the order in which they became hot. *)

From S2P Require Import Prelude.
From Stdlib Require Import String.
From stdpp Require Import gmap.
From S2P Require Import Values Bytecode Doubles Operators Machine Jit.

Open Scope Z_scope.
Open Scope list_scope.

(** ** Invariant *)

(** What the state of a function says about its other fields. *)
Definition function_state_ok (f : JitFunction) : Prop :=
  match jit_state f with
  | JIT_FUNC_STATE_COLD => jit_hot f = false /\ jit_compile_attempts f = 0 /\ jit_compiled_entry f = NoEntry
  | JIT_FUNC_STATE_QUEUED => jit_hot f = true /\ jit_compile_attempts f = 0 /\ jit_compiled_entry f = NoEntry
  | JIT_FUNC_STATE_COMPILING => False
  | JIT_FUNC_STATE_COMPILED_STUB =>
      jit_hot f = true /\ jit_compile_attempts f = 1 /\ jit_compiled_entry f = StubEntry /\
      h_kind (jit_compiled_plan f) = JIT_COMPILED_KIND_STUB
  | JIT_FUNC_STATE_COMPILED_NATIVE =>
      jit_hot f = true /\ jit_compile_attempts f = 1 /\ jit_compiled_entry f = NativeEntry /\
      jit_compiler_hint_kind_supported (h_kind (jit_compiled_plan f)) = true
  | JIT_FUNC_STATE_FAILED => jit_hot f = true /\ jit_compile_attempts f = 1 /\ jit_compiled_entry f = NoEntry
  end.

(** The queue holds each queued function once, and nothing else. *)
Record jit_ok (vm : JitVM) : Prop := {
  ok_functions a f : functions vm !! a = Some f -> function_state_ok f;
  ok_nodup : NoDup (jit_work_queue vm);
  ok_queue a : a ∈ jit_work_queue vm <-> exists f, functions vm !! a = Some f /\ jit_state f = JIT_FUNC_STATE_QUEUED
}.

(** A function object that has just been created. *)
Definition fresh (f : JitFunction) : Prop :=
  jit_state f = JIT_FUNC_STATE_COLD /\ jit_hot f = false /\ jit_compile_attempts f = 0 /\ jit_compiled_entry f = NoEntry.

Lemma jit_init_ok fs : (forall a f, fs !! a = Some f -> fresh f) -> jit_ok (jit_vm_init fs).
Proof.
  intros H. split; cbn.
  - intros a f Hf. destruct (H _ _ Hf) as (Hs & Hr). unfold function_state_ok. by rewrite Hs.
  - constructor.
  - intros a. split; [by intros ?%elem_of_nil|]. intros (f & Hf & Hq). destruct (H _ _ Hf) as [Hs _]. congruence.
Qed.

(** ** Compiling one function *)

Lemma apply_summary_native f s f' :
  apply_summary f s = Some f' ->
  exists p, f' = set_plan NativeEntry p f /\ jit_compiler_hint_kind_supported (h_kind p) = true.
Proof.
  unfold apply_summary. destruct (jit_plan_from_summary s) as [p|]; [|done].
  destruct (jit_compiler_hint_kind_supported (h_kind p)) eqn:E; [|done]. intros [= <-]. eauto.
Qed.

(** Success installs a supported plan; failure clears the entry. *)
Lemma native_result f b f' :
  jit_try_compile_native_function f = (b, f') ->
  exists e p, f' = set_plan e p f /\
    (if b then e = NativeEntry /\ jit_compiler_hint_kind_supported (h_kind p) = true else e = NoEntry).
Proof.
  unfold jit_try_compile_native_function. set (p0 := mkPlan _ _ _ _ _ _ _). set (f0 := set_plan NoEntry p0 f).
  destruct (negb (supports _ f0)); [intros [= <- <-]; by exists NoEntry, p0|].
  destruct (jit_try_apply_compiler_summary f0) as [g|] eqn:E1.
  { intros [= <- <-]. unfold jit_try_apply_compiler_summary in E1.
    destruct (s_kind _ =? _); [done|]. destruct (negb _); [done|].
    destruct (apply_summary_native _ _ _ E1) as (p & -> & Hp). by exists NativeEntry, p. }
  destruct (jit_try_apply_compiler_hint f0) as [g|] eqn:E2.
  { intros [= <- <-]. unfold jit_try_apply_compiler_hint in E2.
    destruct (h_kind _ =? _); [done|]. destruct (negb (supports _ _)); [done|].
    destruct (jit_compiler_hint_kind_supported _) eqn:Hp; [|done]. injection E2 as <-. by exists NativeEntry, (jit_hint_plan (func f0)). }
  destruct (_ || _); [intros [= <- <-]; by exists NoEntry, p0|].
  destruct (jit_try_recover_exact_summary (func f0)) as [s|]; [|intros [= <- <-]; by exists NoEntry, p0].
  destruct (jit_try_apply_recovered_summary f0 s) as [g|] eqn:E3; [|intros [= <- <-]; by exists NoEntry, p0].
  intros [= <- <-]. destruct (apply_summary_native _ _ _ E3) as (p & -> & Hp). by exists NativeEntry, p.
Qed.

Lemma compile_one_ok f :
  jit_hot f = true -> jit_compile_attempts f = 0 ->
  function_state_ok (compile_one f) /\ is_queued (compile_one f) = false /\ is_cold (compile_one f) = false.
Proof.
  intros Hh Ha. unfold compile_one. set (f0 := count_attempt _).
  assert (jit_hot f0 = true /\ jit_compile_attempts f0 = 1) as [Hh0 Ha0].
  { split; [done|]. unfold f0. cbn. by rewrite Ha. }
  destruct (jit_try_compile_native_function f0) as [b f'] eqn:E.
  destruct (native_result _ _ _ E) as (e & p & -> & He). destruct b.
  - destruct He as [-> Hp]. repeat split; done.
  - subst e. unfold jit_stub_compile_function. destruct (negb (supports _ _)); repeat split; done.
Qed.

(** ** Draining *)

(** How many entries of a queue of length [n] a call with [max_items] takes. *)
Definition drained (n : nat) (max_items processed : Z) : nat :=
  if max_items <=? 0 then n else Nat.min n (Z.to_nat (max_items - processed)).

(** The head of the queue compiled and removed. *)
Definition compile_head (vm : JitVM) (a : positive) (q : list positive) (f : JitFunction) : JitVM :=
  update (set_queue vm q) a (compile_one f).

Lemma compile_head_ok vm a q f :
  jit_ok vm -> jit_work_queue vm = a :: q -> functions vm !! a = Some f -> jit_ok (compile_head vm a q f).
Proof.
  intros [Hf Hn Hq] Eq Ea. rewrite Eq in *. apply NoDup_cons in Hn as [Hni Hn].
  assert (jit_state f = JIT_FUNC_STATE_QUEUED) as Hs.
  { destruct (proj1 (Hq a)) as (f' & Hf' & Hs); [by left|]. congruence. }
  pose proof (Hf _ _ Ea) as Hok. unfold function_state_ok in Hok. rewrite Hs in Hok.
  destruct (compile_one_ok f) as (Hc & Hnq & _); [tauto|tauto|]. unfold is_queued in Hnq.
  split; cbn.
  - intros b g. rewrite lookup_insert_Some. intros [[_ <-]|[_ Hg]]; [done|by eapply Hf].
  - done.
  - intros b. destruct (decide (a = b)) as [<-|Hab].
    + rewrite lookup_insert_eq. split; [done|]. intros (g & [= <-] & Hg). by rewrite Hg in Hnq.
    + rewrite lookup_insert_ne by done. rewrite <- Hq, elem_of_cons. split; [auto|by intros [->|]].
Qed.

(** The queue is taken from its front: the functions taken are compiled, the
    others are untouched, the order of the rest is kept. *)
Definition drain_result (vm : JitVM) (k : nat) (vm' : JitVM) : Prop :=
  jit_ok vm' /\ jit_work_queue vm' = drop k (jit_work_queue vm) /\
  jit_auto_compile_enabled vm' = jit_auto_compile_enabled vm /\
  (forall a f, a ∈ take k (jit_work_queue vm) -> functions vm !! a = Some f -> functions vm' !! a = Some (compile_one f)) /\
  (forall a, a ∉ take k (jit_work_queue vm) -> functions vm' !! a = functions vm !! a).

Lemma drain_result_0 vm : jit_ok vm -> drain_result vm 0 vm.
Proof. intros H. split_and!; try done. by intros a f ?%elem_of_nil. Qed.

Lemma drain_result_cons vm a q f k vm' :
  jit_ok vm -> jit_work_queue vm = a :: q -> functions vm !! a = Some f ->
  drain_result (compile_head vm a q f) k vm' -> drain_result vm (S k) vm'.
Proof.
  intros Hok Eq Ea (H1 & H2 & H3 & H4 & H5). destruct Hok as [_ Hn _]. rewrite Eq in Hn. apply NoDup_cons in Hn as [Hni Hn].
  cbn in *. assert (a ∉ take k q) as Hnt by (intros (i & Hi & _)%elem_of_take; apply Hni; by eapply list_elem_of_lookup_2).
  split_and!; rewrite ?Eq; cbn; try done.
  - intros b g Hb Hg. apply elem_of_cons in Hb as [->|Hb].
    + rewrite H5 by done. rewrite lookup_insert_eq. congruence.
    + assert (a <> b) by (intros ->; done). apply H4; [done|]. by rewrite lookup_insert_ne.
  - intros b Hb. rewrite elem_of_cons in Hb. rewrite H5 by tauto. rewrite lookup_insert_ne; [done|]. intros ->. tauto.
Qed.

Lemma drain_spec n m p vm :
  jit_ok vm -> n = length (jit_work_queue vm) -> 0 <= p ->
  exists vm', drain n m p vm = (p + Z.of_nat (drained n m p), vm') /\ drain_result vm (drained n m p) vm'.
Proof.
  revert p vm. induction n as [|n IH]; intros p vm Hok Hn Hp; cbn [drain].
  { assert (drained 0 m p = O) as -> by (unfold drained; by destruct (m <=? 0)). rewrite Z.add_0_r.
    eauto using drain_result_0. }
  destruct (jit_work_queue vm) as [|a q] eqn:Eq; [done|]. injection Hn as Hn.
  destruct ((m <=? 0) || (p <? m)) eqn:Em.
  2:{ assert (drained (S n) m p = O) as ->.
      { unfold drained. destruct (Z.leb_spec m 0); [done|]. destruct (Z.ltb_spec p m); [done|lia]. }
      rewrite Z.add_0_r. eauto using drain_result_0. }
  unfold jit_dequeue_hot_function. rewrite Eq. cbn [functions set_queue].
  destruct (proj1 (ok_queue _ Hok a)) as (f & Ea & Hs); [rewrite Eq; by left|]. rewrite Ea.
  unfold is_queued. rewrite Hs. cbn [negb].
  assert (drained (S n) m p = S (drained n m (p + 1))) as ->.
  { unfold drained. destruct (Z.leb_spec m 0); [done|]. destruct (Z.ltb_spec p m); [lia|done]. }
  destruct (IH (p + 1) (compile_head vm a q f)) as (vm' & Hd & Hr); [by apply compile_head_ok|done|lia|].
  exists vm'. split; [unfold compile_head in Hd; rewrite Hd; f_equal; lia|by eapply drain_result_cons].
Qed.

(** ** Recording an entry *)

Lemma same_state_ok vm a f g :
  jit_ok vm -> functions vm !! a = Some f -> jit_state g = jit_state f -> function_state_ok g -> jit_ok (update vm a g).
Proof.
  intros [Hf Hn Hq] Ea Hs Hg. split; cbn; [|done|].
  - intros b h. rewrite lookup_insert_Some. intros [[_ <-]|[_ Hh]]; [done|by eapply Hf].
  - intros b. rewrite Hq. destruct (decide (a = b)) as [<-|Hab]; [|by rewrite lookup_insert_ne].
    rewrite lookup_insert_eq. split.
    + intros (h & Hh & Hsh). exists g. split; [done|congruence].
    + intros (h & [= <-] & Hsh). exists f. split; [done|congruence].
Qed.

Lemma enqueue_ok vm a f g :
  jit_ok vm -> functions vm !! a = Some f -> jit_state f = JIT_FUNC_STATE_COLD ->
  jit_state g = JIT_FUNC_STATE_QUEUED -> function_state_ok g ->
  jit_ok (update (set_queue vm (jit_work_queue vm ++ [a])) a g).
Proof.
  intros [Hf Hn Hq] Ea Hs Hsg Hg. split; cbn.
  - intros b h. rewrite lookup_insert_Some. intros [[_ <-]|[_ Hh]]; [done|by eapply Hf].
  - apply NoDup_app. split_and!; [done| |apply NoDup_singleton].
    intros b Hb ->%list_elem_of_singleton. apply Hq in Hb as (h & Hh & Hsh). congruence.
  - intros b. rewrite elem_of_app, Hq, list_elem_of_singleton. destruct (decide (a = b)) as [<-|Hab].
    + rewrite lookup_insert_eq. split; [eauto|auto].
    + rewrite lookup_insert_ne by done. split; [by intros [?| ->]|auto].
Qed.

Lemma update_update vm q a f g : update (set_queue (update vm a f) q) a g = update (set_queue vm q) a g.
Proof. unfold update, set_queue. cbn. by rewrite insert_insert_eq. Qed.

(** The machine and the function after the entry that makes it hot. *)
Definition hot_queued (f : JitFunction) : JitFunction :=
  set_state JIT_FUNC_STATE_QUEUED JIT_REASON_QUEUED_HOT (set_hot (count_entry f)).
Definition queued_vm (vm : JitVM) (a : positive) (f : JitFunction) : JitVM :=
  update (set_queue vm (jit_work_queue vm ++ [a])) a (hot_queued f).

(** The three cases of an entry. *)
Lemma record_cases vm a f :
  jit_ok vm -> functions vm !! a = Some f ->
  let hot := jit_get_hot_threshold vm <=? u64 (jit_entry_count f + 1) in
  let vm' := jit_record_function_entry vm a in
  if hot && is_cold f then
    jit_ok (queued_vm vm a f) /\
    vm' = if jit_auto_compile_enabled vm then snd (jit_drain_work_queue (queued_vm vm a f) 1) else queued_vm vm a f
  else jit_ok vm' /\ vm' = update vm a (if hot then set_hot (count_entry f) else count_entry f).
Proof.
  intros Hok Ea hot vm'. unfold vm', jit_record_function_entry. rewrite Ea. cbn [jit_entry_count count_entry]. fold hot.
  pose proof (ok_functions _ Hok _ _ Ea) as Hf. unfold function_state_ok in Hf. destruct hot.
  - unfold jit_enqueue_hot_function, is_cold. cbn [jit_state set_hot count_entry].
    destruct (jit_state f) eqn:Es; cbn [negb andb];
      try (split; [|done]; eapply same_state_ok; try done; unfold function_state_ok; cbn; rewrite Es; tauto).
    rewrite update_update. cbn [jit_work_queue update]. split; [|done].
    eapply enqueue_ok; try done. unfold function_state_ok. cbn. tauto.
  - cbn [andb]. split; [|done]. by eapply same_state_ok.
Qed.

Lemma record_ok vm a : jit_ok vm -> jit_ok (jit_record_function_entry vm a).
Proof.
  intros Hok. destruct (functions vm !! a) as [f|] eqn:Ea.
  2:{ unfold jit_record_function_entry. by rewrite Ea. }
  pose proof (record_cases vm a f Hok Ea) as H. cbv zeta in H. destruct (_ && _); [|tauto].
  destruct H as [Hq ->]. destruct (jit_auto_compile_enabled vm); [|done].
  destruct (drain_spec _ 1 0 _ Hq eq_refl) as (vm' & Hd & Hr & _); [done|]. unfold jit_drain_work_queue. by rewrite Hd.
Qed.

(** ** Sequences of operations *)

Inductive jit_op :=
  | OpSetProfile (enabled : bool)
  | OpSetAutoCompile (enabled : bool)
  | OpSetThreshold (threshold : Z)
  | OpEntry (a : positive)
  | OpDrain (max_items : Z).

Definition jit_step (vm : JitVM) (op : jit_op) : JitVM :=
  match op with
  | OpSetProfile b => jit_set_profile_enabled vm b
  | OpSetAutoCompile b => jit_set_auto_compile_enabled vm b
  | OpSetThreshold t => jit_set_hot_threshold vm t
  | OpEntry a => jit_record_function_entry vm a
  | OpDrain m => snd (jit_drain_work_queue vm m)
  end.

Lemma jit_step_ok vm op : jit_ok vm -> jit_ok (jit_step vm op).
Proof.
  intros Hok. destruct op as [b|b|t|a|m]; cbn.
  1-3: by destruct Hok; split.
  - by apply record_ok.
  - destruct (drain_spec _ m 0 _ Hok eq_refl) as (vm' & Hd & Hr & _); [done|]. unfold jit_drain_work_queue. by rewrite Hd.
Qed.

(** C20: After any sequence of entries, drains and settings the queue holds
    exactly the queued functions, each once; a function is compiled at most
    once, only after it became hot, and its entry and plan are what its state
    says; no function is left in the middle of compilation. *)
Theorem jit_queue_invariant fs ops :
  (forall a f, fs !! a = Some f -> fresh f) -> jit_ok (fold_left jit_step ops (jit_vm_init fs)).
Proof.
  intros H. apply jit_init_ok in H. revert H. generalize (jit_vm_init fs) as vm.
  induction ops as [|op ops IH]; intros vm Hok; [done|]. cbn. apply IH, jit_step_ok, Hok.
Qed.

(** Draining takes functions off the front of the queue, the whole queue
    if there is no limit and at most the limit otherwise, compiles exactly
    these, reports their number and leaves the order of the others. *)
Theorem jit_drain_order vm max_items :
  jit_ok vm ->
  exists vm' k,
    jit_drain_work_queue vm max_items = (Z.of_nat k, vm') /\
    k = (if max_items <=? 0 then length (jit_work_queue vm) else Nat.min (length (jit_work_queue vm)) (Z.to_nat max_items)) /\
    drain_result vm k vm'.
Proof.
  intros Hok. destruct (drain_spec _ max_items 0 vm Hok eq_refl) as (vm' & Hd & Hr); [done|].
  exists vm', (drained (length (jit_work_queue vm)) max_items 0). split_and!; [done| |done].
  unfold drained. by rewrite Z.sub_0_r.
Qed.

(** With automatic compilation and nothing waiting, the entry that takes
    a cold function to the threshold compiles it at once: the queue is empty
    again and no other function changes. *)
Theorem jit_hot_function_compiled vm a f :
  jit_ok vm -> jit_auto_compile_enabled vm = true -> jit_work_queue vm = [] ->
  functions vm !! a = Some f -> jit_state f = JIT_FUNC_STATE_COLD ->
  jit_get_hot_threshold vm <= u64 (jit_entry_count f + 1) ->
  let vm' := jit_record_function_entry vm a in
  jit_work_queue vm' = [] /\ functions vm' !! a = Some (compile_one (hot_queued f)) /\
  (forall b, b <> a -> functions vm' !! b = functions vm !! b).
Proof.
  intros Hok Hauto Hempty Ea Hs Ht. cbv zeta. pose proof (record_cases vm a f Hok Ea) as H. cbv zeta in H.
  apply Z.leb_le in Ht. unfold is_cold in H. rewrite Ht, Hs, Hauto in H. cbn [andb] in H. destruct H as [Hq ->].
  destruct (drain_spec _ 1 0 _ Hq eq_refl) as (vm' & Hd & Hr); [done|]. unfold jit_drain_work_queue. rewrite Hd. cbn [snd].
  unfold queued_vm in Hr. destruct Hr as (_ & Hdrop & _ & Hin & Hout). cbn in *. rewrite Hempty in *. cbn in *.
  split_and!; [done| |].
  - apply Hin; [by left|apply lookup_insert_eq].
  - intros b Hb. rewrite Hout by (by intros ->%list_elem_of_singleton). by rewrite lookup_insert_ne.
Qed.

(** ** Instances *)

(** Two functions as they are created: one with a stub, one without. *)
Definition created (support : Z) : JitFunction :=
  let f := obj_function_create (0, 0) in
  mkJit
    (mkFunction (chunk f) (pool f) 0 0 None 0 None false (-1) (-1) None None
       (mkProfile 0 support 0 0 0 0 (mkSummary JIT_SUMMARY_KIND_NONE 0 0 0 0 0)) (jit_hint_plan f))
    0 false JIT_FUNC_STATE_COLD JIT_REASON_NONE 0 NoEntry (jit_hint_plan f).
Definition two_functions : gmap positive JitFunction :=
  {[ 1%positive := created JIT_PROFILE_SUPPORT_STUB; 2%positive := created JIT_PROFILE_SUPPORT_NONE ]}.

Lemma two_functions_fresh a f : two_functions !! a = Some f -> fresh f.
Proof. unfold two_functions. rewrite lookup_insert_Some, lookup_singleton_Some. by intros [[_ <-]|[_ [_ <-]]]. Qed.

Definition some_ops : list jit_op := [OpSetThreshold 1; OpEntry 2; OpEntry 1; OpEntry 2; OpDrain 1].

Lemma jit_queue_invariant_witness : jit_ok (fold_left jit_step some_ops (jit_vm_init two_functions)).
Proof. apply (jit_queue_invariant two_functions some_ops). exact two_functions_fresh. Defined.

Definition two_queued : JitVM := fold_left jit_step [OpSetThreshold 1; OpEntry 2; OpEntry 1] (jit_vm_init two_functions).
Lemma two_queued_ok : jit_ok two_queued.
Proof. unfold two_queued. cbn [fold_left]. do 3 apply jit_step_ok. apply jit_init_ok, two_functions_fresh. Qed.

Lemma jit_drain_order_witness :
  jit_work_queue two_queued = [2%positive; 1%positive] /\
  exists vm' k,
    jit_drain_work_queue two_queued 1 = (Z.of_nat k, vm') /\
    k = (if 1 <=? 0 then length (jit_work_queue two_queued) else Nat.min (length (jit_work_queue two_queued)) (Z.to_nat 1)) /\
    drain_result two_queued k vm'.
Proof. split; [vm_compute; reflexivity|]. apply (jit_drain_order two_queued 1). exact two_queued_ok. Defined.

Definition auto_vm : JitVM := fold_left jit_step [OpSetThreshold 1; OpSetAutoCompile true] (jit_vm_init two_functions).

Lemma jit_hot_function_compiled_witness :
  jit_work_queue (jit_record_function_entry auto_vm 1) = [] /\
  functions (jit_record_function_entry auto_vm 1) !! 1%positive = Some (compile_one (hot_queued (created JIT_PROFILE_SUPPORT_STUB))) /\
  (forall b, b <> 1%positive -> functions (jit_record_function_entry auto_vm 1) !! b = functions auto_vm !! b).
Proof.
  apply (jit_hot_function_compiled auto_vm 1 (created JIT_PROFILE_SUPPORT_STUB)).
  - unfold auto_vm. cbn [fold_left]. do 2 apply jit_step_ok. apply jit_init_ok, two_functions_fresh.
  - reflexivity.
  - reflexivity.
  - reflexivity.
  - reflexivity.
  - vm_compute. discriminate.
Defined.
