(* ===== verification/Validate.v ===== *)
(** * Validation of loaded programs: [src/src/runtime.c]

    A program loaded from an artifact is checked before it becomes the program
    of a runtime. The checks are functions to an error message: [None] is the
    result [true] of the source, [Some m] is [false] with [m] in the error
    buffer. *)

From S2P Require Import Prelude.
From Stdlib Require Import String.
From stdpp Require Import gmap pretty.
From S2P Require Import Values Bytecode Doubles Operators Machine Jit JitProps JitQueue Artifact ArtifactLoad.

Open Scope Z_scope.
Open Scope list_scope.

(** ** Plans of summaries *)

Definition runtime_map_local_const_summary_kind (op : Z) (guarded : bool) : option Z :=
  if kind_in [JIT_SUMMARY_OP_ADD; JIT_SUMMARY_OP_SUB; JIT_SUMMARY_OP_MUL; JIT_SUMMARY_OP_DIV; JIT_SUMMARY_OP_MOD;
              JIT_SUMMARY_OP_BIT_AND; JIT_SUMMARY_OP_BIT_OR; JIT_SUMMARY_OP_BIT_XOR] op
  then Some (if guarded then JIT_COMPILED_KIND_INT_BINARY_GUARDED_LOCAL_CONST_GENERIC
             else JIT_COMPILED_KIND_INT_BINARY_LOCAL_CONST_GENERIC)
  else None.

Definition runtime_map_twoarg_int_summary_kind (op : Z) (guarded : bool) : option Z :=
  if kind_in [JIT_SUMMARY_OP_ADD; JIT_SUMMARY_OP_SUB; JIT_SUMMARY_OP_MUL; JIT_SUMMARY_OP_BIT_AND; JIT_SUMMARY_OP_BIT_OR;
              JIT_SUMMARY_OP_BIT_XOR] op
  then Some (if guarded then JIT_COMPILED_KIND_INT_BINARY_GUARDED_LOCALS_GENERIC
             else JIT_COMPILED_KIND_INT_BINARY_LOCALS_GENERIC)
  else None.

Definition runtime_compare_ops : list Z :=
  [JIT_SUMMARY_OP_LT; JIT_SUMMARY_OP_LE; JIT_SUMMARY_OP_EQ; JIT_SUMMARY_OP_NE; JIT_SUMMARY_OP_GT; JIT_SUMMARY_OP_GE].
Definition runtime_map_twoarg_bool_summary_kind (op : Z) (guarded : bool) : option Z :=
  if kind_in runtime_compare_ops op
  then Some (if guarded then JIT_COMPILED_KIND_BOOL_COMPARE_GUARDED_LOCALS_GENERIC
             else JIT_COMPILED_KIND_BOOL_COMPARE_LOCALS_GENERIC)
  else None.
Definition runtime_map_local_const_bool_summary_kind (op : Z) : option Z :=
  if kind_in runtime_compare_ops op then Some JIT_COMPILED_KIND_BOOL_COMPARE_LOCAL_CONST_GENERIC else None.

Definition runtime_order_ops : list Z := [JIT_SUMMARY_OP_LT; JIT_SUMMARY_OP_LE; JIT_SUMMARY_OP_GT; JIT_SUMMARY_OP_GE].
Definition runtime_map_twoarg_selector_summary_kind (op : Z) (guarded : bool) : option Z :=
  if kind_in runtime_order_ops op
  then Some (if guarded then JIT_COMPILED_KIND_INT_SELECTOR_GUARDED_LOCALS_GENERIC
             else JIT_COMPILED_KIND_INT_SELECTOR_LOCALS_GENERIC)
  else None.
Definition runtime_map_local_const_selector_summary_kind (op : Z) (guarded return_local_when_true : bool) : option Z :=
  if kind_in runtime_order_ops op
  then Some (if guarded then JIT_COMPILED_KIND_INT_SELECTOR_GUARDED_LOCAL_CONST_GENERIC
             else JIT_COMPILED_KIND_INT_SELECTOR_LOCAL_CONST_GENERIC)
  else None.

Definition runtime_jit_plan_from_summary (s : JitFunctionSummary) : option JitCompiledPlan :=
  let op := s_op s in
  let on_true := negb (slot1 s =? 0) in
  let flags := if on_true then JIT_PLAN_FLAG_RETURN_LOCAL_ON_TRUE else JIT_PLAN_FLAG_NONE in
  let plan (kind : option Z) fl b c0 c1 :=
    match kind with Some k => Some (mkPlan k op fl (slot0 s) b c0 c1) | None => None end in
  if s_kind s =? JIT_SUMMARY_KIND_NONE then None
  else if s_kind s =? JIT_SUMMARY_KIND_INT_LOCAL_CONST_BINARY then
    plan (runtime_map_local_const_summary_kind op false) 0 0 (s_const0 s) 0
  else if s_kind s =? JIT_SUMMARY_KIND_INT_GUARDED_LOCAL_CONST_BINARY then
    plan (runtime_map_local_const_summary_kind op true) 0 0 (s_const0 s) (s_const1 s)
  else if s_kind s =? JIT_SUMMARY_KIND_INT_TWOARG_BINARY then
    plan (runtime_map_twoarg_int_summary_kind op false) 0 (slot1 s) 0 0
  else if s_kind s =? JIT_SUMMARY_KIND_INT_GUARDED_TWOARG_BINARY then
    plan (runtime_map_twoarg_int_summary_kind op true) 0 (slot1 s) (s_const0 s) 0
  else if s_kind s =? JIT_SUMMARY_KIND_BOOL_TWOARG_COMPARE then
    plan (runtime_map_twoarg_bool_summary_kind op false) 0 (slot1 s) 0 0
  else if s_kind s =? JIT_SUMMARY_KIND_BOOL_LOCAL_CONST_COMPARE then
    plan (runtime_map_local_const_bool_summary_kind op) 0 0 (s_const0 s) 0
  else if s_kind s =? JIT_SUMMARY_KIND_BOOL_GUARDED_TWOARG_COMPARE then
    plan (runtime_map_twoarg_bool_summary_kind op true) 0 (slot1 s) (s_const0 s) (s_const1 s)
  else if s_kind s =? JIT_SUMMARY_KIND_INT_TWOARG_SELECTOR then
    plan (runtime_map_twoarg_selector_summary_kind op false) 0 (slot1 s) 0 0
  else if s_kind s =? JIT_SUMMARY_KIND_INT_GUARDED_TWOARG_SELECTOR then
    plan (runtime_map_twoarg_selector_summary_kind op true) 0 (slot1 s) (s_const0 s) 0
  else if s_kind s =? JIT_SUMMARY_KIND_INT_LOCAL_CONST_SELECTOR then
    plan (runtime_map_local_const_selector_summary_kind op false on_true) flags 0 (s_const0 s) 0
  else if s_kind s =? JIT_SUMMARY_KIND_INT_GUARDED_LOCAL_CONST_SELECTOR then
    plan (runtime_map_local_const_selector_summary_kind op true on_true) flags 0 (s_const0 s) (s_const1 s)
  else None.

Definition second_slot_kinds : list Z :=
  [JIT_COMPILED_KIND_INT_ADD_LOCALS; JIT_COMPILED_KIND_INT_SUB_LOCALS; JIT_COMPILED_KIND_INT_MUL_LOCALS;
   JIT_COMPILED_KIND_INT_BIT_AND_LOCALS; JIT_COMPILED_KIND_INT_BIT_OR_LOCALS; JIT_COMPILED_KIND_INT_BIT_XOR_LOCALS;
   JIT_COMPILED_KIND_INT_GUARD_GE_CONST_RET_LOCAL_ELSE_ADD_LOCALS; JIT_COMPILED_KIND_INT_GUARD_GE_CONST_RET_LOCAL_ELSE_SUB_LOCALS;
   JIT_COMPILED_KIND_INT_GUARD_GE_CONST_RET_LOCAL_ELSE_MUL_LOCALS; JIT_COMPILED_KIND_INT_GUARD_GE_CONST_RET_LOCAL_ELSE_BIT_AND_LOCALS;
   JIT_COMPILED_KIND_INT_GUARD_GE_CONST_RET_LOCAL_ELSE_BIT_OR_LOCALS; JIT_COMPILED_KIND_INT_GUARD_GE_CONST_RET_LOCAL_ELSE_BIT_XOR_LOCALS;
   JIT_COMPILED_KIND_BOOL_LT_LOCALS; JIT_COMPILED_KIND_BOOL_LE_LOCALS; JIT_COMPILED_KIND_BOOL_EQ_LOCALS;
   JIT_COMPILED_KIND_BOOL_NE_LOCALS; JIT_COMPILED_KIND_BOOL_GT_LOCALS; JIT_COMPILED_KIND_BOOL_GE_LOCALS;
   JIT_COMPILED_KIND_INT_SELECT_LT_LOCALS; JIT_COMPILED_KIND_INT_SELECT_LE_LOCALS;
   JIT_COMPILED_KIND_INT_SELECT_GT_LOCALS; JIT_COMPILED_KIND_INT_SELECT_GE_LOCALS;
   JIT_COMPILED_KIND_INT_GUARD_GE_CONST_RET_LOCAL_ELSE_SELECT_LT_LOCALS; JIT_COMPILED_KIND_INT_GUARD_GE_CONST_RET_LOCAL_ELSE_SELECT_LE_LOCALS;
   JIT_COMPILED_KIND_INT_GUARD_GE_CONST_RET_LOCAL_ELSE_SELECT_GT_LOCALS; JIT_COMPILED_KIND_INT_GUARD_GE_CONST_RET_LOCAL_ELSE_SELECT_GE_LOCALS;
   JIT_COMPILED_KIND_BOOL_GUARD_GE_CONST_RET_BOOL_ELSE_LT_LOCALS; JIT_COMPILED_KIND_BOOL_GUARD_GE_CONST_RET_BOOL_ELSE_LE_LOCALS;
   JIT_COMPILED_KIND_BOOL_GUARD_GE_CONST_RET_BOOL_ELSE_EQ_LOCALS; JIT_COMPILED_KIND_BOOL_GUARD_GE_CONST_RET_BOOL_ELSE_NE_LOCALS;
   JIT_COMPILED_KIND_BOOL_GUARD_GE_CONST_RET_BOOL_ELSE_GT_LOCALS; JIT_COMPILED_KIND_BOOL_GUARD_GE_CONST_RET_BOOL_ELSE_GE_LOCALS;
   JIT_COMPILED_KIND_BOOL_COMPARE_LOCALS_GENERIC; JIT_COMPILED_KIND_BOOL_COMPARE_GUARDED_LOCALS_GENERIC;
   JIT_COMPILED_KIND_INT_SELECTOR_LOCALS_GENERIC; JIT_COMPILED_KIND_INT_SELECTOR_GUARDED_LOCALS_GENERIC;
   JIT_COMPILED_KIND_INT_BINARY_LOCALS_GENERIC; JIT_COMPILED_KIND_INT_BINARY_GUARDED_LOCALS_GENERIC].
Definition runtime_jit_plan_uses_second_local_slot (kind : Z) : bool := kind_in second_slot_kinds kind.

(** ** The checks *)

(** The first check that fails. *)
Fixpoint checks (l : list (bool * string)) : option string :=
  match l with
  | [] => None
  | (failed, message) :: l' => if failed then Some message else checks l'
  end.
Definition and_then (r k : option string) : option string := match r with Some m => Some m | None => k end.

Definition invalid (label rest : string) : string := "Invalid artifact: " +:+ label +:+ rest.

Definition int_op_kinds : list Z :=
  [JIT_COMPILED_KIND_INT_BINARY_LOCAL_CONST_GENERIC; JIT_COMPILED_KIND_INT_BINARY_GUARDED_LOCAL_CONST_GENERIC;
   JIT_COMPILED_KIND_INT_BINARY_LOCALS_GENERIC; JIT_COMPILED_KIND_INT_BINARY_GUARDED_LOCALS_GENERIC].
Definition compare_op_kinds : list Z :=
  [JIT_COMPILED_KIND_BOOL_COMPARE_LOCALS_GENERIC; JIT_COMPILED_KIND_BOOL_COMPARE_GUARDED_LOCALS_GENERIC;
   JIT_COMPILED_KIND_BOOL_COMPARE_LOCAL_CONST_GENERIC; JIT_COMPILED_KIND_INT_SELECTOR_LOCALS_GENERIC;
   JIT_COMPILED_KIND_INT_SELECTOR_GUARDED_LOCALS_GENERIC; JIT_COMPILED_KIND_INT_SELECTOR_LOCAL_CONST_GENERIC;
   JIT_COMPILED_KIND_INT_SELECTOR_GUARDED_LOCAL_CONST_GENERIC].
Definition flag_kinds : list Z :=
  [JIT_COMPILED_KIND_INT_SELECTOR_LOCAL_CONST_GENERIC; JIT_COMPILED_KIND_INT_SELECTOR_GUARDED_LOCAL_CONST_GENERIC].
Definition guarded_bool_kinds : list Z :=
  [JIT_COMPILED_KIND_BOOL_GUARD_GE_CONST_RET_BOOL_ELSE_LT_LOCALS; JIT_COMPILED_KIND_BOOL_GUARD_GE_CONST_RET_BOOL_ELSE_LE_LOCALS;
   JIT_COMPILED_KIND_BOOL_GUARD_GE_CONST_RET_BOOL_ELSE_EQ_LOCALS; JIT_COMPILED_KIND_BOOL_GUARD_GE_CONST_RET_BOOL_ELSE_NE_LOCALS;
   JIT_COMPILED_KIND_BOOL_GUARD_GE_CONST_RET_BOOL_ELSE_GT_LOCALS; JIT_COMPILED_KIND_BOOL_GUARD_GE_CONST_RET_BOOL_ELSE_GE_LOCALS].

Definition outside (x lo hi : Z) : bool := (x <? lo) || (hi <? x).

Definition check_plan_op (plan : JitCompiledPlan) (label subject : string) : option string :=
  if kind_in int_op_kinds (h_kind plan) then
    checks [(outside (h_op plan) JIT_SUMMARY_OP_ADD JIT_SUMMARY_OP_BIT_XOR, invalid label (" has invalid " +:+ subject +:+ " op"))]
  else if kind_in compare_op_kinds (h_kind plan) then
    checks [(outside (h_op plan) JIT_SUMMARY_OP_LT JIT_SUMMARY_OP_GE, invalid label (" has invalid " +:+ subject +:+ " op"))]
  else checks [(negb (h_op plan =? JIT_SUMMARY_OP_NONE), invalid label (" has unexpected " +:+ subject +:+ " op"))].

(** [flags & ~JIT_PLAN_FLAG_RETURN_LOCAL_ON_TRUE] on an eight-bit field. *)
Definition check_plan_flags (plan : JitCompiledPlan) (label subject : string) : option string :=
  if kind_in flag_kinds (h_kind plan) then
    checks [(negb (Z.land (h_flags plan) (Z.lnot JIT_PLAN_FLAG_RETURN_LOCAL_ON_TRUE) =? 0),
             invalid label (" has invalid " +:+ subject +:+ " selector flags"))]
  else checks [(negb (h_flags plan =? JIT_PLAN_FLAG_NONE), invalid label (" has unexpected " +:+ subject +:+ " flags"))].

Definition check_plan_constants (plan : JitCompiledPlan) (label subject : string) : option string :=
  let kind := h_kind plan in
  let zero0 := h_const0 plan =? 0 in
  let zero1 := h_const1 plan =? 0 in
  if kind =? JIT_COMPILED_KIND_INT_DIV_LOCAL_CONST then
    checks [(zero0, invalid label (" has zero " +:+ subject +:+ " divisor"))]
  else if kind =? JIT_COMPILED_KIND_INT_MOD_LOCAL_CONST then
    checks [(zero0, invalid label (" has zero " +:+ subject +:+ " modulo divisor"))]
  else if kind =? JIT_COMPILED_KIND_INT_GUARD_GE_CONST_RET_LOCAL_ELSE_DIV_CONST then
    checks [(zero1, invalid label (" has zero guarded " +:+ subject +:+ " divisor"))]
  else if kind =? JIT_COMPILED_KIND_INT_GUARD_GE_CONST_RET_LOCAL_ELSE_MOD_CONST then
    checks [(zero1, invalid label (" has zero guarded " +:+ subject +:+ " modulo divisor"))]
  else if kind =? JIT_COMPILED_KIND_INT_BINARY_LOCAL_CONST_GENERIC then
    checks [(divides (h_op plan) && zero0, invalid label (" has zero " +:+ subject +:+ " divisor"))]
  else if kind =? JIT_COMPILED_KIND_INT_BINARY_GUARDED_LOCAL_CONST_GENERIC then
    checks [(divides (h_op plan) && zero1, invalid label (" has zero guarded " +:+ subject +:+ " divisor"))]
  else if kind_in guarded_bool_kinds kind then
    checks [(negb zero1 && negb (h_const1 plan =? 1), invalid label (" has invalid guarded bool " +:+ subject))]
  else None.

Definition runtime_validate_jit_hint_plan (func : ObjFunction) (plan : JitCompiledPlan) (label subject : string) : option string :=
  let kind := h_kind plan in
  if kind =? JIT_COMPILED_KIND_NONE then None
  else
    and_then
      (checks
         [(outside kind JIT_COMPILED_KIND_NONE JIT_COMPILED_KIND_INT_BINARY_GUARDED_LOCALS_GENERIC,
           invalid label (" has unknown " +:+ subject +:+ " kind"));
          ((param_count func <=? 0) || (param_count func <=? local_slot plan),
           invalid label (" has out-of-range " +:+ subject +:+ " local slot"));
          (runtime_jit_plan_uses_second_local_slot kind &&
             ((param_count func <=? 1) || (param_count func <=? local_slot_b plan) || (local_slot_b plan =? local_slot plan)),
           invalid label (" has invalid secondary " +:+ subject +:+ " local slot"))])
      (and_then (check_plan_op plan label subject)
         (and_then (check_plan_flags plan label subject) (check_plan_constants plan label subject))).

Definition JIT_PROFILE_FLAG_NONE : Z := 0.

Definition expected_flags (func : ObjFunction) : Z :=
  Z.lor (if is_async func then JIT_PROFILE_FLAG_ASYNC else JIT_PROFILE_FLAG_NONE)
    (if negb (capture_count func =? 0) then JIT_PROFILE_FLAG_HAS_CAPTURES else 0).
Definition expected_support (func : ObjFunction) : Z :=
  if is_async func then JIT_PROFILE_SUPPORT_NONE
  else
    Z.lor JIT_PROFILE_SUPPORT_STUB
      (if (capture_count func =? 0) && negb (s_kind (summary (jit_profile func)) =? JIT_SUMMARY_KIND_NONE) &&
          negb (h_kind (jit_hint_plan func) =? JIT_COMPILED_KIND_NONE)
       then JIT_PROFILE_SUPPORT_NATIVE_SUMMARY else 0).
Definition expected_native_family_mask (kind : Z) : Z :=
  if kind_in [JIT_SUMMARY_KIND_INT_LOCAL_CONST_BINARY; JIT_SUMMARY_KIND_INT_GUARDED_LOCAL_CONST_BINARY;
              JIT_SUMMARY_KIND_INT_TWOARG_BINARY; JIT_SUMMARY_KIND_INT_GUARDED_TWOARG_BINARY] kind
  then JIT_PROFILE_NATIVE_FAMILY_ARITHMETIC
  else if kind_in [JIT_SUMMARY_KIND_BOOL_TWOARG_COMPARE; JIT_SUMMARY_KIND_BOOL_LOCAL_CONST_COMPARE;
                   JIT_SUMMARY_KIND_BOOL_GUARDED_TWOARG_COMPARE] kind
  then JIT_PROFILE_NATIVE_FAMILY_COMPARE
  else if kind_in [JIT_SUMMARY_KIND_INT_TWOARG_SELECTOR; JIT_SUMMARY_KIND_INT_GUARDED_TWOARG_SELECTOR;
                   JIT_SUMMARY_KIND_INT_LOCAL_CONST_SELECTOR; JIT_SUMMARY_KIND_INT_GUARDED_LOCAL_CONST_SELECTOR] kind
  then JIT_PROFILE_NATIVE_FAMILY_SELECTOR
  else JIT_PROFILE_NATIVE_FAMILY_NONE.

(** The part of the check after the summary is known to be there. *)
Definition check_summary (func : ObjFunction) (label : string) : option string :=
  let s := summary (jit_profile func) in
  and_then
    (checks
       [(outside (s_kind s) JIT_SUMMARY_KIND_NONE JIT_SUMMARY_KIND_INT_GUARDED_LOCAL_CONST_SELECTOR,
         invalid label " has unknown JIT summary kind");
        (outside (s_op s) JIT_SUMMARY_OP_NONE JIT_SUMMARY_OP_GE, invalid label " has unknown JIT summary op");
        (((s_kind s =? JIT_SUMMARY_KIND_INT_LOCAL_CONST_SELECTOR) || (s_kind s =? JIT_SUMMARY_KIND_INT_GUARDED_LOCAL_CONST_SELECTOR)) &&
           (1 <? slot1 s), invalid label " has invalid selector summary branch flag")])
    match runtime_jit_plan_from_summary s with
    | None => Some (invalid label " has unsupported JIT summary metadata")
    | Some summary_plan =>
        and_then (runtime_validate_jit_hint_plan func summary_plan label "JIT summary")
          (checks
             [(negb (h_kind (jit_hint_plan func) =? JIT_COMPILED_KIND_NONE) &&
                 negb (jit_compiled_plan_equals summary_plan (jit_hint_plan func)),
               invalid label " JIT summary does not match JIT hint plan")])
    end.

Definition runtime_validate_jit_profile_semantics (func : ObjFunction) (label : string) : option string :=
  let p := jit_profile func in
  and_then
    (checks
       [(negb (p_param_count p =? param_count func) || negb (p_local_count p =? local_count func) ||
           negb (p_capture_count p =? capture_count func),
         invalid label " JIT profile counts do not match function signature");
        (negb (p_flags p =? expected_flags func), invalid label " JIT profile flags do not match function metadata");
        (negb (support_mask p =? expected_support func), invalid label " JIT profile support mask does not match function metadata");
        (negb (native_family_mask p =? expected_native_family_mask (s_kind (summary p))),
         invalid label " JIT profile native family mask does not match function metadata")])
    (if s_kind (summary p) =? JIT_SUMMARY_KIND_NONE then None else check_summary func label).

Definition runtime_validate_jit_hint_semantics (func : ObjFunction) (label : string) : option string :=
  runtime_validate_jit_hint_plan func (jit_hint_plan func) label "JIT hint".

Definition is_null {A} (p : option A) : bool := match p with None => true | Some _ => false end.

(** The loop over the captured slots. *)
Fixpoint check_capture_slots (func : ObjFunction) (label : string) (slots : list Z) : option string :=
  match slots with
  | [] => None
  | slot :: slots' =>
      if (slot <? param_count func) || (local_count func <=? slot) then
        Some (invalid label (" capture slot " +:+ pretty slot +:+ " is out of bounds (params=" +:+ pretty (param_count func) +:+
                             " locals=" +:+ pretty (local_count func) +:+ ")"))
      else check_capture_slots func label slots'
  end.

(** [stack_limit] is [vm->config.max_stack_size]. *)
Definition runtime_validate_function_semantics (stack_limit : Z) (func : option ObjFunction) (role : string) : option string :=
  let label := if String.eqb role "" then "artifact function"%string else role in
  match func with
  | None => Some (invalid label " is null")
  | Some f =>
      and_then
        (checks
           [((param_count f <? 0) || (local_count f <? 0), invalid label " has negative signature counts");
            (local_count f <? param_count f,
             invalid label (" local_count (" +:+ pretty (local_count f) +:+ ") is smaller than param_count (" +:+
                            pretty (param_count f) +:+ ")"));
            ((capture_count f <? 0) || (local_count f <? capture_count f),
             invalid label (" capture_count (" +:+ pretty (capture_count f) +:+ ") is out of range for local_count (" +:+
                            pretty (local_count f) +:+ ")"));
            ((0 <? capture_count f) && is_null (capture_local_slots f),
             invalid label " is missing closure capture slot metadata")])
      (and_then (check_capture_slots f label (take (Z.to_nat (capture_count f)) (buffer (capture_local_slots f))))
      (and_then
        (checks
           [((0 <? stack_limit) && (stack_limit <? local_count f),
             invalid label (" local_count (" +:+ pretty (local_count f) +:+ ") exceeds VM stack limit (" +:+
                            pretty stack_limit +:+ ")"));
            ((code_count (chunk f) <=? 0) || is_null (code (chunk f)), invalid label " has no bytecode");
            (is_null (debug_info (chunk f)), invalid label " is missing debug metadata");
            (constant_count (pool f) <? 0, invalid label " has negative constant count");
            ((0 <? constant_count (pool f)) && is_null (constants (pool f)), invalid label " has missing constant pool storage")])
      (and_then (runtime_validate_jit_hint_semantics f label) (runtime_validate_jit_profile_semantics f label))))
  end.

Definition empty_name (s : option (list Z)) : bool := match s with Some (c :: _) => c =? 0 | _ => true end.

(** The loops over the dispatch entries and the functions from index [i]. *)
Fixpoint check_entries (i : Z) (entries : list InterfaceDispatchEntry) : option string :=
  match entries with
  | [] => None
  | e :: entries' =>
      and_then
        (checks
           [(is_null (interface_name e) || is_null (record_name e) || is_null (method_name e) || is_null (function_name e),
             ("Invalid artifact: interface dispatch mapping[" +:+ pretty i +:+ "] is incomplete")%string);
            (empty_name (interface_name e) || empty_name (record_name e) || empty_name (method_name e) || empty_name (function_name e),
             ("Invalid artifact: interface dispatch mapping[" +:+ pretty i +:+ "] has empty names")%string)])
        (check_entries (i + 1) entries')
  end.
Fixpoint check_functions (stack_limit i : Z) (fs : list (option ObjFunction)) : option string :=
  match fs with
  | [] => None
  | f :: fs' =>
      and_then (runtime_validate_function_semantics stack_limit f ("function[" +:+ pretty i +:+ "]"))
        (check_functions stack_limit (i + 1) fs')
  end.

(** An array of functions is null when it is empty. *)
Definition runtime_validate_loaded_artifact_semantics (stack_limit : Z) (a : LoadedBytecodeArtifact) : option string :=
  and_then
    (checks
       [((match functions a with [] => true | _ => false end) || (function_count a <=? 0), "Invalid artifact payload"%string);
        ((main_index a <? 0) || (function_count a <=? main_index a), "Artifact main function index is invalid"%string);
        (interface_dispatch_count a <? 0, "Invalid artifact: interface dispatch count is negative"%string);
        ((0 <? interface_dispatch_count a) && is_null (interface_dispatch_entries a),
         "Invalid artifact: missing interface dispatch payload"%string)])
  (and_then (check_entries 0 (take (Z.to_nat (interface_dispatch_count a)) (buffer (interface_dispatch_entries a))))
  (and_then (check_functions stack_limit 0 (take (Z.to_nat (function_count a)) (functions a)))
  match functions a !! Z.to_nat (main_index a) with
  | None | Some None => Some "Invalid artifact: main function pointer is null"%string
  | Some (Some main_fn) =>
      and_then (checks [(negb (param_count main_fn =? 0), "Invalid artifact: main function must not take parameters"%string)])
      match init_function a with
      | None => None
      | Some f =>
          and_then (runtime_validate_function_semantics stack_limit (Some f) "init function")
            (checks [(negb (param_count f =? 0), "Invalid artifact: init function must not take parameters"%string)])
      end
  end)).

(** ** Checks as propositions *)

Lemma checks_cons failed message l : checks ((failed, message) :: l) = None <-> failed = false /\ checks l = None.
Proof. destruct failed; cbn; [split; [done|by intros [? _]]|tauto]. Qed.

Lemma and_then_none r k : and_then r k = None <-> r = None /\ k = None.
Proof. destruct r; cbn; [split; [done|by intros [? _]]|tauto]. Qed.

(** The passed checks as equations of booleans. *)
Ltac passed H := rewrite ?and_then_none, ?checks_cons in H; cbv zeta in H.

(** The copy of the plan construction in the runtime is the one of the
    compiler of plans. *)
Lemma runtime_plan_eq s : runtime_jit_plan_from_summary s = jit_plan_from_summary s.
Proof.
  unfold runtime_jit_plan_from_summary, jit_plan_from_summary. destruct (Z.eqb_spec (s_kind s) JIT_SUMMARY_KIND_NONE) as [->|_]; reflexivity.
Qed.

(** ** Plans of accepted functions *)

Lemma jit_plan_supported s plan : jit_plan_from_summary s = Some plan -> jit_compiler_hint_kind_supported (h_kind plan) = true.
Proof.
  unfold jit_plan_from_summary, jit_map_local_const_summary_kind, jit_map_twoarg_int_summary_kind, jit_map_twoarg_bool_summary_kind,
    jit_map_local_const_bool_summary_kind, jit_map_twoarg_selector_summary_kind, jit_map_local_const_selector_summary_kind.
  intros H.
  repeat match type of H with
  | match (if kind_in ?l ?o then _ else _) with _ => _ end = _ => destruct (kind_in l o); [injection H as <-; reflexivity|discriminate H]
  | (if ?b then _ else _) = _ => destruct b
  end; discriminate H.
Qed.

(** The native entry of an accepted function comes from its summary, whose
    plan passed the check of plans. *)
Lemma accepted_plan limit role f (jf jf' : JitFunction) :
  runtime_validate_function_semantics limit (Some f) role = None -> func jf = f ->
  jit_try_compile_native_function jf = (true, jf') ->
  jit_plan_from_summary (summary (jit_profile f)) = Some (jit_compiled_plan jf') /\
  (exists label, runtime_validate_jit_hint_plan f (jit_compiled_plan jf') label "JIT summary" = None) /\
  0 <= param_count f.
Proof.
  intros H Hf Hc. unfold runtime_validate_function_semantics in H.
  set (label := if String.eqb role "" then "artifact function"%string else role) in H. clearbody label.
  passed H. destruct H as (Hcounts & _ & _ & _ & Hp). apply proj1 in Hcounts. apply orb_false_iff in Hcounts as [Hp0 _].
  apply Z.ltb_ge in Hp0. unfold runtime_validate_jit_profile_semantics in Hp. passed Hp.
  destruct Hp as ((_ & _ & Hs & _) & Hk). apply negb_false_iff, Z.eqb_eq in Hs.
  unfold jit_try_compile_native_function in Hc. set (p0 := mkPlan _ _ _ _ _ _ _) in Hc. set (j0 := set_plan NoEntry p0 jf) in Hc.
  assert (func j0 = f) as Hj0 by done. destruct (supports JIT_PROFILE_SUPPORT_NATIVE_SUMMARY j0) eqn:Hsup; [|done]. cbn [negb] in Hc.
  pose proof Hsup as Hmask. unfold supports in Hmask. rewrite Hj0, Hs in Hmask. unfold expected_support in Hmask.
  destruct (is_async f); [done|]. destruct (s_kind (summary (jit_profile f)) =? JIT_SUMMARY_KIND_NONE) eqn:Esum.
  { rewrite andb_false_r in Hmask. done. }
  unfold check_summary in Hk. passed Hk. destruct Hk as [_ Hk]. rewrite runtime_plan_eq in Hk.
  unfold jit_try_apply_compiler_summary, apply_summary in Hc. rewrite Hsup, Hj0, Esum in Hc. cbn [negb] in Hc.
  destruct (jit_plan_from_summary (summary (jit_profile f))) as [plan|] eqn:Eplan; [|done].
  passed Hk. destruct Hk as [Hk _].
  rewrite (jit_plan_supported _ _ Eplan) in Hc. injection Hc as <-. cbn [jit_compiled_plan set_plan]. eauto.
Qed.

Lemma native_kind_not_none s plan : jit_plan_from_summary s = Some plan -> h_kind plan <> JIT_COMPILED_KIND_NONE.
Proof. intros H E. apply jit_plan_supported in H. by rewrite E in H. Qed.

(** ** Execution of accepted plans *)

Section Accepted.
Context (below args : list Value) (fc ic : Z) (cfg : VmConfig) (plan : JitCompiledPlan).
Context (Hstack : Z.of_nat (length below) + 1 <= max_stack_size cfg).

Definition entry_vm : VM := mkVM (below ++ args) fc ic None cfg.

(** The operands of an integer operation of the plan. *)
Definition plan_operand (y : Z) : Prop := VAL_INT y ∈ args \/ y = h_const0 plan \/ y = h_const1 plan.

(** The results that are allowed: the arguments are replaced by one value; an
    argument is not an integer; or the operation of the plan overflows, on
    operands for which the machine does not define a result either. *)
Definition allowed (o : outcome) : Prop :=
  match o with
  | Finished vm => exists v, vm = mkVM (below ++ [v]) fc ic None cfg
  | Halted vm =>
      (exists v, v ∈ args /\ match v with VAL_INT _ => False | _ => True end) /\
      (vm = vm_runtime_error entry_vm "Operands must be integer" \/
       vm = vm_runtime_error entry_vm "Operands must be same numeric type")
  | Undefined =>
      exists op x y, op_of_kind summary_int_ops (h_op plan) = Some op /\ zero_error op y = None /\
        VAL_INT x ∈ args /\ plan_operand y /\ int_arith op x y = None
  | _ => False
  end.

Lemma finish_allowed v : allowed (finish (length below) entry_vm v).
Proof.
  unfold finish, stack_pop_to, entry_vm. cbn. rewrite take_app_length. unfold push, vm_stack_reserve, count. cbn.
  destruct (Z.leb_spec (max_stack_size cfg) (Z.of_nat (length below))); [lia|]. cbn.
  destruct (Z.ltb_spec (max_stack_size cfg) (Z.of_nat (length below) + 1)); [lia|]. cbn. by exists v.
Qed.

Lemma with_int_allowed m slot k :
  (m = "Operands must be integer"%string \/ m = "Operands must be same numeric type"%string) ->
  slot < Z.of_nat (length args) -> (0 < length args)%nat -> (forall x, VAL_INT x ∈ args -> allowed (k x)) ->
  allowed (with_int (length below) entry_vm m slot k).
Proof.
  intros Hm Hs Hn Hk. unfold with_int, with_arg, entry_vm. cbn [stack]. rewrite lookup_app_r by lia.
  replace (length below + Z.to_nat slot - length below)%nat with (Z.to_nat slot) by lia.
  destruct (lookup_lt_is_Some_2 args (Z.to_nat slot)) as [v Hv]; [lia|]. rewrite Hv.
  apply list_elem_of_lookup_2 in Hv. destruct v; try (by apply Hk);
    (split; [eexists; split; [exact Hv|done]|]; destruct Hm as [-> | ->]; auto).
Qed.

Lemma with_ints_allowed a b k :
  a < Z.of_nat (length args) -> b < Z.of_nat (length args) -> (0 < length args)%nat ->
  (forall x y, VAL_INT x ∈ args -> VAL_INT y ∈ args -> allowed (k x y)) ->
  allowed (with_ints (length below) entry_vm a b k).
Proof. intros Ha Hb Hn Hk. unfold with_ints. apply with_int_allowed; auto. intros x Hx. apply with_int_allowed; auto. Qed.

Lemma binary_allowed op o x y :
  op_of_kind summary_int_ops op = Some o -> h_op plan = op -> zero_error o y = None -> VAL_INT x ∈ args -> plan_operand y ->
  allowed (vm_finish_native_int_binary_summary_op (length below) entry_vm op x y).
Proof.
  intros Ho Hop Hz Hx Hy. unfold vm_finish_native_int_binary_summary_op, vm_eval_native_int_binary_summary_op, compute.
  rewrite Ho, Hz. destruct (int_arith o x y) eqn:E; [apply finish_allowed|]. exists o, x, y. by rewrite Hop.
Qed.

Lemma compare_allowed op f x y :
  op_of_kind summary_compare_ops op = Some f -> allowed (vm_finish_native_int_compare_summary_op (length below) entry_vm op x y).
Proof.
  intros Ho. unfold vm_finish_native_int_compare_summary_op, vm_eval_native_int_compare_summary_op. rewrite Ho. apply finish_allowed.
Qed.

Lemma selector_allowed op x y k :
  kind_in order_ops op = true -> (forall b, allowed (k b)) ->
  allowed (vm_eval_native_int_selector_summary_op entry_vm op x y k).
Proof.
  intros Ho Hk. unfold vm_eval_native_int_selector_summary_op. rewrite Ho.
  unfold kind_in in Ho. cbn [existsb order_ops] in Ho. rewrite !orb_true_iff, !Z.eqb_eq in Ho.
  destruct Ho as [->|[->|[->|[->|[=]]]]]; apply Hk.
Qed.
End Accepted.

Lemma binary_op_some op : kind_in binary_ops op = true -> exists o, op_of_kind summary_int_ops op = Some o.
Proof.
  unfold kind_in. cbn [existsb binary_ops]. rewrite !orb_true_iff, !Z.eqb_eq.
  intros H. repeat destruct H as [->|H]; try done; eexists; reflexivity.
Qed.

Lemma twoarg_op_some op :
  kind_in twoarg_ops op = true -> exists o, op_of_kind summary_int_ops op = Some o /\ forall y, zero_error o y = None.
Proof.
  unfold kind_in. cbn [existsb twoarg_ops]. rewrite !orb_true_iff, !Z.eqb_eq.
  intros H. repeat destruct H as [->|H]; try done; eexists; split; reflexivity.
Qed.

Lemma compare_op_some op : kind_in compare_ops op = true -> exists f, op_of_kind summary_compare_ops op = Some f.
Proof.
  unfold kind_in. cbn [existsb compare_ops]. rewrite !orb_true_iff, !Z.eqb_eq.
  intros H. repeat destruct H as [->|H]; try done; eexists; reflexivity.
Qed.

Lemma hint_plan_facts f plan label subject :
  runtime_validate_jit_hint_plan f plan label subject = None -> h_kind plan <> JIT_COMPILED_KIND_NONE ->
  (0 < param_count f /\ local_slot plan < param_count f) /\
  (runtime_jit_plan_uses_second_local_slot (h_kind plan) = true -> 1 < param_count f /\ local_slot_b plan < param_count f) /\
  (h_kind plan = JIT_COMPILED_KIND_INT_BINARY_LOCAL_CONST_GENERIC -> negb (divides (h_op plan) && (h_const0 plan =? 0)) = true) /\
  (h_kind plan = JIT_COMPILED_KIND_INT_BINARY_GUARDED_LOCAL_CONST_GENERIC -> negb (divides (h_op plan) && (h_const1 plan =? 0)) = true).
Proof.
  intros H Hk. unfold runtime_validate_jit_hint_plan in H. apply Z.eqb_neq in Hk. rewrite Hk in H. passed H.
  destruct H as ((_ & Hslot & Hsecond & _) & _ & _ & Hc).
  apply orb_false_iff in Hslot as [H1 H2]. rewrite Z.leb_gt in H1, H2. split; [done|]. split; [|split].
  - intros Hu. rewrite Hu in Hsecond. cbn [andb] in Hsecond. rewrite !orb_false_iff, !Z.leb_gt in Hsecond. tauto.
  - intros E. unfold check_plan_constants in Hc. rewrite E in Hc. cbn in Hc. destruct (divides (h_op plan) && (h_const0 plan =? 0)); done.
  - intros E. unfold check_plan_constants in Hc. rewrite E in Hc. cbn in Hc. destruct (divides (h_op plan) && (h_const1 plan =? 0)); done.
Qed.

Section AcceptedPlans.
Context (f : ObjFunction) (label subject : string) (below args : list Value) (fc ic : Z) (cfg : VmConfig).
Context (Hstack : Z.of_nat (length below) + 1 <= max_stack_size cfg) (Hlen : Z.of_nat (length args) = param_count f).

Notation ok plan := (runtime_validate_jit_hint_plan f plan label subject = None).
Notation run_plan plan := (exec_plan (length below) (entry_vm below args fc ic cfg) plan).
Notation allow := (allowed below args fc ic cfg).

Lemma local_const_allowed op a c0 :
  let plan := mkPlan JIT_COMPILED_KIND_INT_BINARY_LOCAL_CONST_GENERIC op 0 a 0 c0 0 in
  kind_in binary_ops op = true -> ok plan -> allow plan (run_plan plan).
Proof.
  intros plan Hop Hok. destruct (hint_plan_facts f plan label subject Hok) as ([Hp Ha] & _ & Hz & _); [done|].
  destruct (binary_op_some op Hop) as [o Ho]. pose proof (zero_divides _ _ _ Ho (Hz eq_refl)) as Hze. cbn in Ha, Hze.
  apply with_int_allowed; [auto|simpl; lia|lia|]. intros x Hx. eapply binary_allowed; try done. right. by left.
Qed.

Lemma guarded_local_const_allowed op a c0 c1 :
  let plan := mkPlan JIT_COMPILED_KIND_INT_BINARY_GUARDED_LOCAL_CONST_GENERIC op 0 a 0 c0 c1 in
  kind_in binary_ops op = true -> ok plan -> allow plan (run_plan plan).
Proof.
  intros plan Hop Hok. destruct (hint_plan_facts f plan label subject Hok) as ([Hp Ha] & _ & _ & Hz); [done|].
  destruct (binary_op_some op Hop) as [o Ho]. pose proof (zero_divides _ _ _ Ho (Hz eq_refl)) as Hze. cbn in Ha, Hze.
  apply with_int_allowed; [auto|simpl; lia|lia|]. intros x Hx. unfold vm_finish_native_guarded_int_binary_summary_op.
  destruct (x <? _); [by apply finish_allowed|]. eapply binary_allowed; try done. right. by right.
Qed.

Lemma twoarg_allowed (guarded : bool) op a b c0 :
  let plan := mkPlan (if guarded then JIT_COMPILED_KIND_INT_BINARY_GUARDED_LOCALS_GENERIC
                      else JIT_COMPILED_KIND_INT_BINARY_LOCALS_GENERIC) op 0 a b c0 0 in
  kind_in twoarg_ops op = true -> ok plan -> allow plan (run_plan plan).
Proof.
  intros plan Hop Hok. destruct (hint_plan_facts f plan label subject Hok) as ([Hp Ha] & Hb & _); [by destruct guarded|].
  destruct Hb as [Hp1 Hb]; [by destruct guarded|]. cbn in Ha, Hb. destruct (twoarg_op_some op Hop) as (o & Ho & Hz).
  destruct guarded; apply with_ints_allowed; try (simpl; lia); intros x y Hx Hy.
  - unfold vm_finish_native_guarded_int_binary_summary_op.
    destruct (x <? _); [by apply finish_allowed|]. eapply binary_allowed; try done. by left.
  - eapply binary_allowed; try done. by left.
Qed.

Lemma compare_locals_allowed (guarded : bool) op a b c0 c1 :
  let plan := mkPlan (if guarded then JIT_COMPILED_KIND_BOOL_COMPARE_GUARDED_LOCALS_GENERIC
                      else JIT_COMPILED_KIND_BOOL_COMPARE_LOCALS_GENERIC) op 0 a b c0 c1 in
  kind_in compare_ops op = true -> ok plan -> allow plan (run_plan plan).
Proof.
  intros plan Hop Hok. destruct (hint_plan_facts f plan label subject Hok) as ([Hp Ha] & Hb & _); [by destruct guarded|].
  destruct Hb as [Hp1 Hb]; [by destruct guarded|]. cbn in Ha, Hb. destruct (compare_op_some op Hop) as (g & Hg).
  destruct guarded; apply with_ints_allowed; try (simpl; lia); intros x y Hx Hy.
  - unfold vm_finish_native_guarded_int_compare_summary_op.
    destruct (x <? _); [by apply finish_allowed|]. by eapply compare_allowed.
  - by eapply compare_allowed.
Qed.

Lemma compare_const_allowed op a c0 :
  let plan := mkPlan JIT_COMPILED_KIND_BOOL_COMPARE_LOCAL_CONST_GENERIC op 0 a 0 c0 0 in
  kind_in compare_ops op = true -> ok plan -> allow plan (run_plan plan).
Proof.
  intros plan Hop Hok. destruct (hint_plan_facts f plan label subject Hok) as ([Hp Ha] & _); [done|].
  cbn in Ha. destruct (compare_op_some op Hop) as (g & Hg).
  apply with_int_allowed; [auto|simpl; lia|lia|]. intros x Hx. by eapply compare_allowed.
Qed.

Lemma selector_locals_allowed (guarded : bool) op a b c0 :
  let plan := mkPlan (if guarded then JIT_COMPILED_KIND_INT_SELECTOR_GUARDED_LOCALS_GENERIC
                      else JIT_COMPILED_KIND_INT_SELECTOR_LOCALS_GENERIC) op 0 a b c0 0 in
  kind_in order_ops op = true -> ok plan -> allow plan (run_plan plan).
Proof.
  intros plan Hop Hok. destruct (hint_plan_facts f plan label subject Hok) as ([Hp Ha] & Hb & _); [by destruct guarded|].
  destruct Hb as [Hp1 Hb]; [by destruct guarded|]. cbn in Ha, Hb.
  assert (forall x y, allow plan (vm_finish_native_int_selector_summary_op (length below) (entry_vm below args fc ic cfg) op x y a b)) as Hsel.
  { intros x y. apply selector_allowed; [done|]. intros c. apply with_int_allowed; [auto|destruct c; lia|lia|].
    intros z _. by apply finish_allowed. }
  destruct guarded; apply with_ints_allowed; try (simpl; lia); intros x y _ _; [|apply Hsel].
  unfold vm_finish_native_guarded_int_selector_summary_op. destruct (x <? _); [by apply finish_allowed|apply Hsel].
Qed.

Lemma selector_const_allowed (guarded : bool) op fl a c0 c1 :
  let plan := mkPlan (if guarded then JIT_COMPILED_KIND_INT_SELECTOR_GUARDED_LOCAL_CONST_GENERIC
                      else JIT_COMPILED_KIND_INT_SELECTOR_LOCAL_CONST_GENERIC) op fl a 0 c0 c1 in
  kind_in order_ops op = true -> ok plan -> allow plan (run_plan plan).
Proof.
  intros plan Hop Hok. destruct (hint_plan_facts f plan label subject Hok) as ([Hp Ha] & _); [by destruct guarded|]. cbn in Ha.
  assert (forall x c r, allow plan (vm_finish_native_int_selector_const_summary_op (length below) (entry_vm below args fc ic cfg) op x c r)) as Hsel.
  { intros x c r. apply selector_allowed; [done|]. intros b. by apply finish_allowed. }
  destruct guarded; (apply with_int_allowed; [auto|simpl; lia|lia|]); intros x _; [|apply Hsel].
  unfold vm_finish_native_guarded_int_selector_const_summary_op. destruct (x <? _); [by apply finish_allowed|apply Hsel].
Qed.

Lemma accepted_plan_allowed s plan : jit_plan_from_summary s = Some plan -> ok plan -> allow plan (run_plan plan).
Proof.
  unfold jit_plan_from_summary, jit_map_local_const_summary_kind, jit_map_twoarg_int_summary_kind, jit_map_twoarg_bool_summary_kind,
    jit_map_local_const_bool_summary_kind, jit_map_twoarg_selector_summary_kind, jit_map_local_const_selector_summary_kind.
  intros H Hok.
  repeat match type of H with
  | match (if kind_in ?l ?o then _ else _) with _ => _ end = _ => destruct (kind_in l o) eqn:Hop; [injection H as <-|discriminate H]
  | (if ?b then _ else _) = _ => destruct b
  end; try discriminate H.
  - by apply local_const_allowed.
  - by apply guarded_local_const_allowed.
  - by apply (twoarg_allowed false).
  - by apply (twoarg_allowed true).
  - by apply (compare_locals_allowed false).
  - by apply compare_const_allowed.
  - by apply (compare_locals_allowed true).
  - by apply (selector_locals_allowed false).
  - by apply (selector_locals_allowed true).
  - by apply (selector_const_allowed false).
  - by apply (selector_const_allowed true).
Qed.
End AcceptedPlans.

(** ** Saving keeps a program valid *)

Lemma buffer_saved {A} (p : option (list A)) : buffer (saved_list p) = buffer p.
Proof. unfold saved_list. by destruct (buffer p). Qed.

Lemma counted_positive {A} n (p : option (list A)) : counted n (buffer p) -> 0 < n -> is_null (saved_list p) = false.
Proof. unfold counted, saved_list. intros -> H. by destruct (buffer p). Qed.

Lemma check_slots_saved f label l : check_capture_slots (saved_function f) label l = check_capture_slots f label l.
Proof. induction l as [|x l IH]; [done|]. cbn [check_capture_slots]. by rewrite IH. Qed.

Lemma saved_function_valid limit role f :
  function_ok f -> runtime_validate_function_semantics limit (Some f) role = None ->
  runtime_validate_function_semantics limit (Some (saved_function f)) role = None.
Proof.
  intros Hok H. unfold runtime_validate_function_semantics in *.
  set (label := if String.eqb role "" then "artifact function"%string else role) in *. clearbody label.
  passed H. destruct H as ((H1 & H2 & H3 & H4 & _) & H5 & (H6 & H7 & H8 & H9 & H10 & _) & H11 & H12).
  rewrite !and_then_none, !checks_cons. cbn [saved_function param_count local_count capture_count capture_local_slots chunk pool].
  apply orb_false_iff in H7 as [Hcode _]. apply Z.leb_gt in Hcode.
  pose proof (fo_code _ Hok) as Hc. pose proof (fo_pool _ Hok) as Hp. unfold counted in Hc, Hp.
  split_and!; try done.
  - destruct (Z.ltb_spec 0 (capture_count f)); [|done]. cbn [andb]. by eapply counted_positive; [apply fo_slots|].
  - by rewrite check_slots_saved, buffer_saved.
  - unfold saved_chunk. destruct (buffer (code (chunk f))); [cbn in Hc; lia|]. cbn. rewrite orb_false_r. by apply Z.leb_gt.
  - unfold saved_chunk. by destruct (buffer (code (chunk f))); [cbn in Hc; lia|].
  - unfold saved_pool. by destruct (buffer (constants (pool f))).
  - unfold saved_pool. destruct (buffer (constants (pool f))); cbn; [done|]. apply andb_false_r.
Qed.

Lemma saved_functions_valid limit i fs :
  Forall (fun f => exists g, f = Some g /\ function_ok g) fs -> check_functions limit i fs = None ->
  check_functions limit i (map (fmap saved_function) fs) = None.
Proof.
  intros H. revert i. induction H as [|f fs (g & -> & Hg) _ IH]; intros i; [done|]. cbn [check_functions map].
  rewrite !and_then_none. intros [H1 H2]. split; [by apply saved_function_valid|by apply IH].
Qed.

Lemma saved_entries_valid i l : check_entries i l = None -> check_entries i (map saved_entry l) = None.
Proof.
  revert i. induction l as [|e l IH]; intros i; [done|]. cbn [check_entries map].
  rewrite !and_then_none, !checks_cons. intros [(H1 & H2 & H3) H4]. split_and!; [done| |done|by apply IH].
  assert (forall s, is_null s = false -> empty_name (saved_string s) = empty_name s) as E by (by intros [|]).
  rewrite !orb_false_iff in H1. cbn [saved_entry interface_name record_name method_name function_name]. by rewrite !E by tauto.
Qed.

Lemma saved_artifact_valid limit a :
  artifact_ok a -> runtime_validate_loaded_artifact_semantics limit a = None ->
  runtime_validate_loaded_artifact_semantics limit (saved_artifact a) = None.
Proof.
  intros Hok H. unfold runtime_validate_loaded_artifact_semantics in *. passed H.
  destruct H as ((H1 & H2 & H3 & H4 & _) & H5 & H6 & H7).
  pose proof (ao_functions _ Hok) as Hf. pose proof (ao_entries _ Hok) as He. unfold counted in Hf, He.
  rewrite !and_then_none, !checks_cons.
  cbn [saved_artifact functions function_count main_index interface_dispatch_count interface_dispatch_entries init_function].
  assert (buffer (saved_list (map saved_entry <$> interface_dispatch_entries a)) = map saved_entry (buffer (interface_dispatch_entries a))) as Eb.
  { rewrite buffer_saved. by destruct (interface_dispatch_entries a). }
  split_and!; try done.
  - by destruct (functions a).
  - destruct (Z.ltb_spec 0 (interface_dispatch_count a)); [|done]. cbn [andb].
    unfold saved_list. destruct (interface_dispatch_entries a) as [[|e l]|]; cbn in *; (done || lia).
  - rewrite Eb, <- fmap_take. by apply saved_entries_valid.
  - rewrite <- fmap_take. apply saved_functions_valid; [by apply Forall_take, ao_functions_ok|done].
  - rewrite list_lookup_fmap. destruct (functions a !! Z.to_nat (main_index a)) as [[m|]|]; try done.
    apply and_then_none in H7 as [Hm Hi]. apply and_then_none. split; [exact Hm|].
    pose proof (ao_init _ Hok) as Hio. destruct (init_function a) as [g|]; [|done]. apply and_then_none in Hi as [Hg Hn].
    apply and_then_none. split; [by apply saved_function_valid|exact Hn].
Qed.

(** ** Programs of the versions before profiles *)

(** Every result of a reader. *)
Definition yields {A} (m : reader A) (P : A -> Prop) : Prop := forall r a r', m r = inr (a, r') -> P a.

Lemma yields_ret {A} (a : A) (P : A -> Prop) : P a -> yields (ret a) P.
Proof. by intros H r b r' [= <- _]. Qed.

Lemma yields_bind {A B} (m : reader A) (k : A -> reader B) (P : B -> Prop) :
  (forall a, yields (k a) P) -> yields (bind m k) P.
Proof. intros H r b r'. unfold bind. destruct (m r) as [e|[a r1]]; [done|]. apply H. Qed.

Lemma yields_bind_with {A B} (m : reader A) (k : A -> reader B) (P : A -> Prop) (Q : B -> Prop) :
  yields m P -> (forall a, P a -> yields (k a) Q) -> yields (bind m k) Q.
Proof. intros Hm H r b r'. unfold bind. destruct (m r) as [e|[a r1]] eqn:E; [done|]. apply H. by eapply Hm. Qed.

Lemma yields_loop {A} n (m : reader A) (P : A -> Prop) :
  yields m P -> yields (read_loop n m) (fun l => Forall P l /\ length l = n).
Proof.
  intros Hm. induction n as [|n IH]; cbn [read_loop]; [by apply yields_ret|].
  intros r l r'. unfold bind. destruct (m r) as [e|[a r1]] eqn:Ea; [done|].
  destruct (read_loop n m r1) as [e|[l' r2]] eqn:El; [done|]. intros [= <- _].
  destruct (IH _ _ _ El) as [Hl Hn]. split; [constructor; [by eapply Hm|done]|cbn; by rewrite Hn].
Qed.

Lemma old_function_profile junk version :
  version < 10 -> yields (artifact_read_function junk version) (fun f => jit_profile f = jit_profile (obj_function_create junk)).
Proof.
  intros Hv. unfold artifact_read_function. cbv zeta.
  do 4 (apply yields_bind; intros ?). case_match. apply yields_bind; intros ?. case_match.
  do 2 (apply yields_bind; intros ?). case_match. do 4 (apply yields_bind; intros ?).
  unfold since at 1. destruct (Z.leb_spec 10 version); [lia|]. by apply yields_ret.
Qed.

Lemma old_profile_rejected limit role junk f :
  jit_profile f = jit_profile (obj_function_create junk) -> runtime_validate_function_semantics limit (Some f) role <> None.
Proof.
  intros Hp H. unfold runtime_validate_function_semantics in H.
  set (label := if String.eqb role "" then "artifact function"%string else role) in H. clearbody label.
  passed H. destruct H as (_ & _ & _ & _ & H). unfold runtime_validate_jit_profile_semantics in H. passed H.
  destruct H as ((_ & Hf & Hs & _) & _). rewrite Hp in Hf, Hs. cbn in Hf, Hs. unfold expected_flags, expected_support in *.
  rewrite Hp in Hs. cbn in Hs. rewrite andb_false_r in Hs. destruct (is_async f); [|done].
  by destruct (negb (capture_count f =? 0)).
Qed.

Definition artifact_version (bytes : list Z) : Z := word_le (take 4 (drop 4 bytes)).

(** The functions of the program have the profile of a new object. *)
Definition without_profiles (junk : Z * Z) (a : LoadedBytecodeArtifact) : Prop :=
  Forall (fun f => exists g, f = Some g /\ jit_profile g = jit_profile (obj_function_create junk)) (functions a).

Lemma old_artifact_profiles junk bytes a :
  artifact_load_bytes junk bytes = inr a -> artifact_version bytes < 10 -> without_profiles junk a.
Proof.
  intros H Hv. unfold artifact_load_bytes in H. destruct bytes as [|b bytes]; [done|]. set (all := b :: bytes) in *.
  assert (exists r', read_artifact junk (mkReader all 0) = inr (a, r')) as [r' Hr].
  { destruct (read_artifact junk (mkReader all 0)) as [[]|[a' r']]; try done. destruct (offset r' =? size r'); [|done].
    injection H as ->. eauto. }
  clear H. clearbody all. unfold read_artifact, bind at 1 in Hr. unfold artifact_reader_read in Hr. cbn [offset data] in Hr.
  destruct (_ || _); [done|]. unfold bind at 1 in Hr. unfold check at 1 in Hr. destruct (bool_decide _); [|done].
  cbn [ret] in Hr. unfold read_u32_le at 1 in Hr. unfold bind at 1 2 in Hr. unfold artifact_reader_read at 1 in Hr. cbn [offset data] in Hr.
  destruct (_ || _) in Hr; [done|]. cbn [ret] in Hr. unfold ret at 1 in Hr.
  change (word_le (take (Z.to_nat 4) (drop (Z.to_nat (0 + 4)) all))) with (artifact_version all) in Hr.
  match type of Hr with ?m ?r0 = _ => assert (yields m (without_profiles junk)) as Hy; [|exact (Hy _ _ _ Hr)] end.
  clear Hr. do 2 (apply yields_bind; intros ?). do 2 (apply yields_bind; intros [? ?]). do 5 (apply yields_bind; intros ?).
  eapply yields_bind_with; [apply yields_loop, old_function_profile, Hv|]. intros funs [Hf _].
  apply yields_bind; intros i. apply yields_ret. unfold without_profiles. cbn [functions].
  apply Forall_map. eapply Forall_impl; [exact Hf|]. intros f Hp. by exists f.
Qed.

(** ** Properties *)

(** C15: Native execution of an accepted function is safe, whatever its
    artifact says: the plan reads only arguments of the call, and a call with
    the right number of arguments either replaces them by one result, or stops
    with a type error because an argument is not an integer, or asks for an
    [int64_t] operation of the plan that overflows; it never divides by zero
    and never meets an invalid plan. *)
Theorem validated_native_safe limit role jf jf' below args fc ic cfg :
  runtime_validate_function_semantics limit (Some (func jf)) role = None ->
  jit_try_compile_native_function jf = (true, jf') ->
  Z.of_nat (length below) + 1 <= max_stack_size cfg -> Z.of_nat (length args) = param_count (func jf) ->
  allowed below args fc ic cfg (jit_compiled_plan jf')
    (vm_jit_native_compiled_entry (length below) (entry_vm below args fc ic cfg) (func jf) (jit_compiled_plan jf') (Z.of_nat (length args))).
Proof.
  intros Hv Hc Hs Hl. destruct (accepted_plan limit role (func jf) jf jf' Hv eq_refl Hc) as (Hp & (label & Hok) & _).
  unfold vm_jit_native_compiled_entry. rewrite Hl, Z.eqb_refl. cbn [negb].
  destruct (Z.eqb_spec (h_kind (jit_compiled_plan jf')) JIT_COMPILED_KIND_NONE) as [Ek|Ek].
  { exfalso. clear -Hp Ek. apply native_kind_not_none in Hp. done. }
  destruct (hint_plan_facts _ _ _ _ Hok Ek) as [[Hpos _] _].
  unfold count. cbn [stack entry_vm]. rewrite length_app.
  destruct (Z.leb_spec (Z.of_nat (length below + length args)) (Z.of_nat (length below))); [lia|].
  by apply (accepted_plan_allowed (func jf) label "JIT summary" below args fc ic cfg Hs Hl (summary (jit_profile (func jf)))).
Qed.

(** C37: A valid program stays valid when it is saved: writing it and loading
    the file gives a program that the runtime accepts again. *)
Theorem validation_survives_saving limit a path n junk :
  artifact_ok a -> runtime_validate_loaded_artifact_semantics limit a = None ->
  path <> [] -> (length (enc_artifact a) <= n)%nat ->
  exists bytes a', artifact_write_file path (Some n) true a = inr bytes /\
    artifact_load_file junk path (Some bytes) = inr a' /\ runtime_validate_loaded_artifact_semantics limit a' = None.
Proof.
  intros Ha Hv Hp Hn. exists (enc_artifact a), (saved_artifact a).
  split; [by apply write_spec|]. split; [|by apply saved_artifact_valid].
  destruct path; [done|]. rewrite <- (load_spec junk a Ha). unfold artifact_load_file. by destruct (enc_artifact a) eqn:E.
Qed.

(** The loader accepts the versions 2 to 9, but no program of these
    versions is accepted by the runtime: without a profile the masks of its
    functions do not match what the validation expects. *)
Theorem old_artifacts_rejected limit junk bytes a :
  junk_ok junk -> Forall is_u8 bytes -> artifact_load_bytes junk bytes = inr a -> artifact_version bytes < 10 ->
  runtime_validate_loaded_artifact_semantics limit a <> None.
Proof.
  intros Hj Hb Hl Hv H. pose proof (old_artifact_profiles junk bytes a Hl Hv) as Hf.
  destruct (load_reads junk bytes a Hj Hb Hl) as [[Ha _] _]. pose proof (ao_functions _ Ha) as Hn. pose proof (ao_main _ Ha) as Hm.
  unfold runtime_validate_loaded_artifact_semantics in H. passed H. destruct H as (_ & _ & H & _). unfold counted in Hn.
  unfold without_profiles in Hf. destruct (functions a) as [|f fs]; [cbn in Hn; lia|].
  apply Forall_inv in Hf as (g & -> & Hg). rewrite Hn, Nat2Z.id in H. cbn [length take check_functions] in H. apply and_then_none in H as [H _].
  exact (old_profile_rejected _ _ _ _ Hg H).
Qed.

(** *** Instances *)

(** [return a - b] with its summary and hint, and an empty main function. *)
Definition hinted_sub : ObjFunction :=
  mkFunction
    (mkChunk (Some [op_byte OP_SUB_LOCALS_INT; 0; 1; 0; 0; op_byte OP_RET]) (Some (replicate 6 (mkDebug 0 1))) 6 6)
    constant_pool_init 2 2 None 0 None false (-1) (-1) (Some [115]) None
    (mkProfile 0 3 JIT_PROFILE_NATIVE_FAMILY_ARITHMETIC 2 2 0
       (mkSummary JIT_SUMMARY_KIND_INT_TWOARG_BINARY JIT_SUMMARY_OP_SUB 0 1 0 0))
    (mkPlan JIT_COMPILED_KIND_INT_BINARY_LOCALS_GENERIC JIT_SUMMARY_OP_SUB 0 0 1 0 0).
Definition hinted_jit : JitFunction :=
  mkJit hinted_sub 0 false JIT_FUNC_STATE_COLD JIT_REASON_NONE 0 NoEntry (mkPlan 0 0 0 0 0 0 0).
Definition main_function : ObjFunction :=
  mkFunction (mkChunk (Some [op_byte OP_CONST; 255; op_byte OP_RET]) (Some (replicate 3 (mkDebug 0 1))) 3 3)
    constant_pool_init 0 0 None 0 None false (-1) (-1) (Some [109]) None
    (mkProfile 0 JIT_PROFILE_SUPPORT_STUB 0 0 0 0 (mkSummary JIT_SUMMARY_KIND_NONE 0 0 0 0 0)) (mkPlan 0 0 0 0 0 0 0).
Definition valid_program : LoadedBytecodeArtifact :=
  mkLoaded None [Some hinted_sub; Some main_function] 2 1 0 None 0
    (Some [mkEntry (Some [73]) (Some [82]) (Some [109]) (Some [115])]) 1.

Lemma hinted_sub_ok : function_ok hinted_sub.
Proof. constructor; cbn; try done; try (repeat constructor; done); repeat constructor; unfold string_ok; cbn; try lia; repeat constructor; lia. Qed.

Lemma main_function_ok : function_ok main_function.
Proof. constructor; cbn; try done; try (repeat constructor; done); repeat constructor; unfold string_ok; cbn; try lia; repeat constructor; lia. Qed.

Lemma valid_program_ok : artifact_ok valid_program.
Proof.
  constructor; cbn; try done; try (repeat constructor; done).
  constructor; [exists hinted_sub; split; [done|exact hinted_sub_ok]|].
  constructor; [exists main_function; split; [done|exact main_function_ok]|constructor].
Qed.

Lemma validated_native_safe_witness :
  allowed [VAL_NIL] [VAL_INT 7; VAL_NIL] 1 0 small_config (jit_hint_plan hinted_sub)
    (vm_jit_native_compiled_entry 1 (entry_vm [VAL_NIL] [VAL_INT 7; VAL_NIL] 1 0 small_config) hinted_sub (jit_hint_plan hinted_sub) 2).
Proof.
  apply (validated_native_safe 64 "s" hinted_jit (set_plan NativeEntry (jit_hint_plan hinted_sub) hinted_jit)
           [VAL_NIL] [VAL_INT 7; VAL_NIL] 1 0 small_config).
  - vm_compute. reflexivity.
  - vm_compute. reflexivity.
  - simpl. lia.
  - reflexivity.
Defined.

Lemma validation_survives_saving_witness :
  exists bytes a', artifact_write_file [97] (Some 1000%nat) true valid_program = inr bytes /\
    artifact_load_file (3, 4) [97] (Some bytes) = inr a' /\ runtime_validate_loaded_artifact_semantics 64 a' = None.
Proof.
  apply (validation_survives_saving 64 valid_program [97] 1000 (3, 4)).
  - exact valid_program_ok.
  - vm_compute. reflexivity.
  - discriminate.
  - apply Nat.leb_le. by vm_compute.
Defined.

Lemma old_artifacts_rejected_witness : runtime_validate_loaded_artifact_semantics 64 sample_v2_loaded <> None.
Proof.
  apply (old_artifacts_rejected 64 (5, 6) sample_v2 sample_v2_loaded sample_junk sample_v2_bytes sample_v2_loads).
  by vm_compute.
Defined.
