(* ===== verification/Ast.v ===== *)
(** * Syntax tree: [src/src/ast.h], [src/src/types.h]

    Expressions and statements as the compiler sees them, with the types the
    checker gave them. Source positions are left out. *)

From S2P Require Import Prelude Lexer Bytecode.

Open Scope Z_scope.

Inductive TypeKind :=
  | TYPE_INT | TYPE_BOOL | TYPE_DOUBLE | TYPE_BIGINT | TYPE_STRING | TYPE_BYTES | TYPE_ARRAY | TYPE_NIL | TYPE_VOID
  | TYPE_FUNCTION | TYPE_FUTURE | TYPE_ANY | TYPE_RECORD | TYPE_INTERFACE | TYPE_TUPLE | TYPE_MAP | TYPE_SET | TYPE_TYPE_PARAM.

#[global] Instance TypeKind_eq_dec : EqDecision TypeKind.
Proof. solve_decision. Defined.
#[global] Instance TokenType_eq_dec : EqDecision TokenType.
Proof. solve_decision. Defined.

(** Expressions; a literal holds the member of the union that is in use.
    [EXPR_OTHER] is any other kind, whose contents are not looked at. *)
Inductive Expr :=
  | EXPR_LITERAL (type : option TypeKind) (literal : constant_payload)
  | EXPR_IDENTIFIER (type : option TypeKind) (identifier : list Z)
  | EXPR_BINARY (type : option TypeKind) (left right : Expr) (op : TokenType)
  | EXPR_UNARY (type : option TypeKind) (operand : Expr) (op : TokenType)
  | EXPR_CAST (type : option TypeKind) (value : Expr) (target_type : option TypeKind)
  | EXPR_NIL (type : option TypeKind)
  | EXPR_OTHER (type : option TypeKind).

(** Statements; [STMT_OTHER] is any other kind. *)
#[warnings="-register-all"]
Inductive Stmt :=
  | STMT_RETURN (return_value : option Expr)
  | STMT_IF (condition : option Expr) (then_branch : Stmt) (else_branch : option Stmt)
  | STMT_BLOCK (statements : list Stmt)
  | STMT_OTHER.

Definition type_of (e : Expr) : option TypeKind :=
  match e with
  | EXPR_LITERAL t _ | EXPR_IDENTIFIER t _ | EXPR_BINARY t _ _ _ | EXPR_UNARY t _ _ | EXPR_CAST t _ _ | EXPR_NIL t | EXPR_OTHER t => t
  end.

Definition expr_create_literal_int (value : Z) : Expr := EXPR_LITERAL (Some TYPE_INT) (as_int value).
Definition expr_create_literal_bool (value : bool) : Expr := EXPR_LITERAL (Some TYPE_BOOL) (as_int (if value then 1 else 0)).
Definition expr_create_literal_double (value : Z) : Expr := EXPR_LITERAL (Some TYPE_DOUBLE) (as_double value).
Definition expr_create_literal_string (value : list Z) : Expr := EXPR_LITERAL (Some TYPE_STRING) (as_string (Some value)).
Definition expr_create_cast (value : Expr) (target_type : option TypeKind) : Expr := EXPR_CAST target_type value target_type.

(** The number of nodes. *)
Fixpoint expr_size (e : Expr) : nat :=
  match e with
  | EXPR_BINARY _ l r _ => S (expr_size l + expr_size r)
  | EXPR_UNARY _ o _ => S (expr_size o)
  | EXPR_CAST _ v _ => S (expr_size v)
  | _ => 1
  end.
