(* ===== verification/Syntax.v ===== *)
(** * The tree the parser builds: [src/src/ast.h], [src/src/ast.c], [src/src/ast_clone.c]

    Types, expressions and statements with every kind the grammar has. A
    [NULL] pointer is the constructor [NULL_EXPR] or [NULL_STMT], since the
    parser stores such pointers in the tree after an error. Source positions,
    and the fields that only later stages fill in, are left out. *)

From S2P Require Import Prelude Lexer Bytecode Ast.

Open Scope Z_scope.

(** ** Types *)

Inductive TypeNode :=
  | Simple (kind : TypeKind) (nullable : bool)
  | ArrayOf (nullable : bool) (element_type : TypeNode)
  | MapOf (nullable : bool) (key_type value_type : TypeNode)
  | SetOf (nullable : bool) (element_type : TypeNode)
  | TupleOf (nullable : bool) (element_types : list TypeNode)
  | FunctionOf (nullable : bool) (return_type : TypeNode) (param_types : list TypeNode)
      (type_param_names : list (list Z)) (type_param_constraints : list (option TypeNode))
  | RecordNamed (nullable : bool) (name : list Z) (param_types : list TypeNode)
  | TypeParam (nullable : bool) (name : list Z).

Definition type_int : TypeNode := Simple TYPE_INT false.
Definition type_bool : TypeNode := Simple TYPE_BOOL false.
Definition type_double : TypeNode := Simple TYPE_DOUBLE false.
Definition type_bigint : TypeNode := Simple TYPE_BIGINT false.
Definition type_string : TypeNode := Simple TYPE_STRING false.
Definition type_bytes : TypeNode := Simple TYPE_BYTES false.
Definition type_nil : TypeNode := Simple TYPE_NIL false.
Definition type_void : TypeNode := Simple TYPE_VOID false.
Definition type_any : TypeNode := Simple TYPE_ANY false.
Definition type_array (element_type : TypeNode) : TypeNode := ArrayOf false element_type.
Definition type_map (key_type value_type : TypeNode) : TypeNode := MapOf false key_type value_type.
Definition type_set (element_type : TypeNode) : TypeNode := SetOf false element_type.
Definition type_tuple (element_types : list TypeNode) : TypeNode := TupleOf false element_types.
Definition type_type_param (name : list Z) : TypeNode := TypeParam false name.
(** [param_types] are set after [type_record], [type_function_set_type_params] after [type_function]. *)
Definition type_record (name : list Z) (param_types : list TypeNode) : TypeNode := RecordNamed false name param_types.
Definition type_function (return_type : TypeNode) (param_types : list TypeNode) (names : list (list Z))
    (constraints : list (option TypeNode)) : TypeNode :=
  FunctionOf false return_type param_types names constraints.

(** [t->nullable = true]. *)
Definition set_nullable (t : TypeNode) : TypeNode :=
  match t with
  | Simple k _ => Simple k true
  | ArrayOf _ e => ArrayOf true e
  | MapOf _ k v => MapOf true k v
  | SetOf _ e => SetOf true e
  | TupleOf _ es => TupleOf true es
  | FunctionOf _ r ps ns cs => FunctionOf true r ps ns cs
  | RecordNamed _ n ps => RecordNamed true n ps
  | TypeParam _ n => TypeParam true n
  end.

(** ** Expressions and statements *)

(** The arms of a match are parallel arrays; no guards at all and guards that
    are all [NULL] are the same here, as are no group ids and an empty list. *)
#[warnings="-register-all"]
Inductive Expr :=
  | NULL_EXPR
  | EXPR_LITERAL (type : TypeKind) (literal : constant_payload)
  | EXPR_IDENTIFIER (identifier : list Z)
  | EXPR_BINARY (left right : Expr) (op : TokenType)
  | EXPR_UNARY (operand : Expr) (op : TokenType)
  | EXPR_CALL (callee : Expr) (args : list Expr) (type_args : list TypeNode)
  | EXPR_FUNC_LITERAL (return_type : TypeNode) (params : list (list Z)) (param_types : list TypeNode) (body : Stmt) (is_async : bool)
  | EXPR_INDEX (array index : Expr)
  | EXPR_NIL
  | EXPR_ARRAY_LITERAL (elements : list Expr)
  | EXPR_CAST (value : Expr) (target_type : TypeNode)
  | EXPR_TRY (expr : Expr)
  | EXPR_AWAIT (expr : Expr)
  | EXPR_TYPE_TEST (value : Expr) (target_type : TypeNode)
  | EXPR_IF (condition then_expr else_expr : Expr)
  | EXPR_MATCH (subject : Expr) (patterns guards values : list Expr) (arm_group_ids : list Z) (else_expr : Expr)
  | EXPR_BLOCK (statements : list Stmt) (value : Expr)
  | EXPR_RECORD_LITERAL (field_names : list (list Z)) (field_values : list Expr) (pattern_type : option TypeNode)
      (is_pattern allows_rest : bool)
  | EXPR_FIELD_ACCESS (object : Expr) (field_name : list Z)
  | EXPR_TUPLE_LITERAL (elements : list Expr)
  | EXPR_TUPLE_ACCESS (tuple : Expr) (index : Z)
  | EXPR_MAP_LITERAL (keys values : list Expr)
  | EXPR_SET_LITERAL (elements : list Expr)
with Stmt :=
  | NULL_STMT
  | STMT_VAR_DECL (is_public : bool) (name : list Z) (type_annotation : option TypeNode) (initializer : Expr) (is_mutable : bool)
  | STMT_VAR_TUPLE_DECL (is_public : bool) (names : list (list Z)) (type_annotation : option TypeNode) (initializer : Expr) (is_mutable : bool)
  | STMT_EXPR (expr_stmt : Expr)
  | STMT_ASSIGN (name : list Z) (value : Expr) (op : TokenType)
  | STMT_BLOCK (statements : list Stmt)
  | STMT_IF (condition : Expr) (then_branch else_branch : Stmt)
  | STMT_MATCH (subject : Expr) (patterns guards : list Expr) (bodies : list Stmt) (arm_group_ids : list Z) (else_branch : Stmt)
  | STMT_WHILE (condition : Expr) (body : Stmt)
  | STMT_FOREACH (var_name : list Z) (iterable : Expr) (body : Stmt)
  | STMT_FOR_RANGE (var_name : list Z) (start end_ : Expr) (body : Stmt)
  | STMT_BREAK
  | STMT_CONTINUE
  | STMT_RETURN (return_value : Expr)
  | STMT_DEFER (defer_expr : Expr)
  | STMT_FUNC_DECL (is_public : bool) (return_type : TypeNode) (name : list Z) (type_params : list (list Z))
      (type_param_constraints : list (option TypeNode)) (params : list (list Z)) (param_types : list TypeNode) (body : Stmt) (is_async : bool)
  | STMT_IMPORT (import_path : list Z)
  | STMT_ASSIGN_INDEX (target index value : Expr) (op : TokenType)
  | STMT_ASSIGN_FIELD (object : Expr) (field_name : list Z) (value : Expr) (op : TokenType)
  | STMT_RECORD_DECL (is_public : bool) (name : list Z) (type_params : list (list Z)) (field_names : list (list Z)) (field_types : list TypeNode)
  | STMT_INTERFACE_DECL (is_public : bool) (name : list Z) (method_names : list (list Z)) (method_types : list TypeNode)
  | STMT_IMPL_DECL (interface_name record_name : list Z) (method_names function_names : list (list Z))
  | STMT_TYPE_ALIAS (is_public : bool) (name : list Z) (type_params : list (list Z)) (target_type : TypeNode)
  | STMT_ENUM_DECL (is_public : bool) (name : list Z) (type_params : list (list Z)) (member_names : list (list Z)) (member_values : list Z)
      (member_payload_types : list (list TypeNode)) (has_payload_members : bool).

Definition expr_create_literal_int (value : Z) : Expr := EXPR_LITERAL TYPE_INT (as_int value).
Definition expr_create_literal_bool (value : bool) : Expr := EXPR_LITERAL TYPE_BOOL (as_int (if value then 1 else 0)).
Definition expr_create_literal_double (value : Z) : Expr := EXPR_LITERAL TYPE_DOUBLE (as_double value).
Definition expr_create_literal_bigint (value : list Z) : Expr := EXPR_LITERAL TYPE_BIGINT (as_string (Some value)).
Definition expr_create_literal_string (value : list Z) : Expr := EXPR_LITERAL TYPE_STRING (as_string (Some value)).
Definition expr_create_binary (op : TokenType) (left right : Expr) : Expr := EXPR_BINARY left right op.
Definition expr_create_unary (op : TokenType) (operand : Expr) : Expr := EXPR_UNARY operand op.

Definition is_null (e : Expr) : bool := match e with NULL_EXPR => true | _ => false end.
Definition is_null_stmt (s : Stmt) : bool := match s with NULL_STMT => true | _ => false end.

(** ** Complete trees

    A tree is complete when no pointer in it is [NULL] that later stages
    follow: a variable may lack an initializer, [return] a value, an arm a
    guard, a match or an [if] statement an else branch. *)

Fixpoint complete (e : Expr) : bool :=
  match e with
  | NULL_EXPR => false
  | EXPR_LITERAL _ _ | EXPR_IDENTIFIER _ | EXPR_NIL => true
  | EXPR_BINARY l r _ => complete l && complete r
  | EXPR_UNARY o _ => complete o
  | EXPR_CALL c args _ => complete c && forallb complete args
  | EXPR_FUNC_LITERAL _ _ _ body _ => complete_stmt body
  | EXPR_INDEX a i => complete a && complete i
  | EXPR_ARRAY_LITERAL es | EXPR_TUPLE_LITERAL es | EXPR_SET_LITERAL es => forallb complete es
  | EXPR_CAST v _ | EXPR_TYPE_TEST v _ => complete v
  | EXPR_TRY v | EXPR_AWAIT v => complete v
  | EXPR_IF c t f => complete c && complete t && complete f
  | EXPR_MATCH s ps gs vs _ f =>
      complete s && forallb complete ps && forallb (fun g => is_null g || complete g) gs && forallb complete vs && (is_null f || complete f)
  | EXPR_BLOCK ss v => forallb complete_stmt ss && complete v
  | EXPR_RECORD_LITERAL _ vs _ _ _ => forallb complete vs
  | EXPR_FIELD_ACCESS o _ => complete o
  | EXPR_TUPLE_ACCESS t _ => complete t
  | EXPR_MAP_LITERAL ks vs => forallb complete ks && forallb complete vs
  end
with complete_stmt (s : Stmt) : bool :=
  match s with
  | NULL_STMT => false
  | STMT_VAR_DECL _ _ _ i _ => is_null i || complete i
  | STMT_VAR_TUPLE_DECL _ _ _ i _ => complete i
  | STMT_EXPR e | STMT_DEFER e => complete e
  | STMT_ASSIGN _ v _ => complete v
  | STMT_BLOCK ss => forallb complete_stmt ss
  | STMT_IF c t f => complete c && complete_stmt t && (is_null_stmt f || complete_stmt f)
  | STMT_MATCH s ps gs bs _ f =>
      complete s && forallb complete ps && forallb (fun g => is_null g || complete g) gs && forallb complete_stmt bs
        && (is_null_stmt f || complete_stmt f)
  | STMT_WHILE c b => complete c && complete_stmt b
  | STMT_FOREACH _ i b => complete i && complete_stmt b
  | STMT_FOR_RANGE _ a e b => complete a && complete e && complete_stmt b
  | STMT_BREAK | STMT_CONTINUE => true
  | STMT_RETURN v => is_null v || complete v
  | STMT_FUNC_DECL _ _ _ _ _ _ _ b _ => complete_stmt b
  | STMT_ASSIGN_INDEX t i v _ => complete t && complete i && complete v
  | STMT_ASSIGN_FIELD o _ v _ => complete o && complete v
  | STMT_IMPORT _ | STMT_RECORD_DECL _ _ _ _ _ | STMT_INTERFACE_DECL _ _ _ _ | STMT_IMPL_DECL _ _ _ _
  | STMT_TYPE_ALIAS _ _ _ _ | STMT_ENUM_DECL _ _ _ _ _ _ _ => true
  end.

(** ** Copies *)

(** A node is copied with [memcpy], and then what it points to is copied; types are shared. *)
Fixpoint expr_clone (e : Expr) : Expr :=
  match e with
  | NULL_EXPR => NULL_EXPR
  | EXPR_LITERAL _ _ | EXPR_IDENTIFIER _ | EXPR_NIL => e
  | EXPR_BINARY l r op => EXPR_BINARY (expr_clone l) (expr_clone r) op
  | EXPR_UNARY o op => EXPR_UNARY (expr_clone o) op
  | EXPR_CALL c args ts => EXPR_CALL (expr_clone c) (map expr_clone args) ts
  | EXPR_FUNC_LITERAL r ps ts body a => EXPR_FUNC_LITERAL r ps ts (stmt_clone body) a
  | EXPR_INDEX a i => EXPR_INDEX (expr_clone a) (expr_clone i)
  | EXPR_ARRAY_LITERAL es => EXPR_ARRAY_LITERAL (map expr_clone es)
  | EXPR_CAST v t => EXPR_CAST (expr_clone v) t
  | EXPR_TRY v => EXPR_TRY (expr_clone v)
  | EXPR_AWAIT v => EXPR_AWAIT (expr_clone v)
  | EXPR_TYPE_TEST v t => EXPR_TYPE_TEST (expr_clone v) t
  | EXPR_IF c t f => EXPR_IF (expr_clone c) (expr_clone t) (expr_clone f)
  | EXPR_MATCH s ps gs vs ids f =>
      EXPR_MATCH (expr_clone s) (map expr_clone ps) (map expr_clone gs) (map expr_clone vs) ids (expr_clone f)
  | EXPR_BLOCK ss v => EXPR_BLOCK (map stmt_clone ss) (expr_clone v)
  | EXPR_RECORD_LITERAL ns vs t p r => EXPR_RECORD_LITERAL ns (map expr_clone vs) t p r
  | EXPR_FIELD_ACCESS o n => EXPR_FIELD_ACCESS (expr_clone o) n
  | EXPR_TUPLE_LITERAL es => EXPR_TUPLE_LITERAL (map expr_clone es)
  | EXPR_TUPLE_ACCESS t i => EXPR_TUPLE_ACCESS (expr_clone t) i
  | EXPR_MAP_LITERAL ks vs => EXPR_MAP_LITERAL (map expr_clone ks) (map expr_clone vs)
  | EXPR_SET_LITERAL es => EXPR_SET_LITERAL (map expr_clone es)
  end
with stmt_clone (s : Stmt) : Stmt :=
  match s with
  | NULL_STMT => NULL_STMT
  | STMT_VAR_DECL p n t i m => STMT_VAR_DECL p n t (expr_clone i) m
  | STMT_VAR_TUPLE_DECL p ns t i m => STMT_VAR_TUPLE_DECL p ns t (expr_clone i) m
  | STMT_EXPR e => STMT_EXPR (expr_clone e)
  | STMT_ASSIGN n v op => STMT_ASSIGN n (expr_clone v) op
  | STMT_BLOCK ss => STMT_BLOCK (map stmt_clone ss)
  | STMT_IF c t f => STMT_IF (expr_clone c) (stmt_clone t) (stmt_clone f)
  | STMT_MATCH s ps gs bs ids f =>
      STMT_MATCH (expr_clone s) (map expr_clone ps) (map expr_clone gs) (map stmt_clone bs) ids (stmt_clone f)
  | STMT_WHILE c b => STMT_WHILE (expr_clone c) (stmt_clone b)
  | STMT_FOREACH v i b => STMT_FOREACH v (expr_clone i) (stmt_clone b)
  | STMT_FOR_RANGE v a e b => STMT_FOR_RANGE v (expr_clone a) (expr_clone e) (stmt_clone b)
  | STMT_BREAK => STMT_BREAK
  | STMT_CONTINUE => STMT_CONTINUE
  | STMT_RETURN v => STMT_RETURN (expr_clone v)
  | STMT_DEFER e => STMT_DEFER (expr_clone e)
  | STMT_FUNC_DECL p r n tps cs ps ts b a => STMT_FUNC_DECL p r n tps cs ps ts (stmt_clone b) a
  | STMT_ASSIGN_INDEX t i v op => STMT_ASSIGN_INDEX (expr_clone t) (expr_clone i) (expr_clone v) op
  | STMT_ASSIGN_FIELD o n v op => STMT_ASSIGN_FIELD (expr_clone o) n (expr_clone v) op
  | STMT_IMPORT _ | STMT_RECORD_DECL _ _ _ _ _ | STMT_INTERFACE_DECL _ _ _ _ | STMT_IMPL_DECL _ _ _ _
  | STMT_TYPE_ALIAS _ _ _ _ | STMT_ENUM_DECL _ _ _ _ _ _ _ => s
  end.

(** A copy is the same tree. *)
Lemma map_self {A} (f : A -> A) (f_id : forall a, f a = a) (l : list A) : map f l = l.
Proof. induction l as [|a l IH]; simpl; [done|]. by rewrite f_id, IH. Defined.

Fixpoint expr_clone_id (e : Expr) : expr_clone e = e
with stmt_clone_id (s : Stmt) : stmt_clone s = s.
Proof.
  - destruct e; simpl; rewrite ?expr_clone_id, ?stmt_clone_id, ?(map_self expr_clone expr_clone_id), ?(map_self stmt_clone stmt_clone_id); done.
  - destruct s; simpl; rewrite ?expr_clone_id, ?stmt_clone_id, ?(map_self expr_clone expr_clone_id), ?(map_self stmt_clone stmt_clone_id); done.
Qed.
