(* ===== verification/Parser.v ===== *)
(** * The parser: [src/src/parser.c], [src/src/parser.h]

    A recursive-descent parser over the lexer, one definition per function of
    the source. A parser action takes the state [Parser] and gives a result
    and the next state, or is [Undefined] where the code reads a member of a
    token that nothing has set, or [OutOfFuel].

    The functions of the source call each other in a cycle. Here each takes
    the ones that would close a cycle from a record [calls], and [parsers]
    ties the knot with fuel; loops get the same fuel. Diagnostics that are
    printed, positions in the tree and the text that describes the token met
    are left out. *)

From S2P Require Import Prelude Lexer Bytecode Ast Syntax.
From Stdlib Require Import String.
From stdpp Require Import list pretty.

Open Scope Z_scope.
Open Scope list_scope.

(** ** Token types as numbers *)

Definition token_types : list TokenType :=
  [ TOKEN_EOF; TOKEN_IDENTIFIER; TOKEN_NUMBER_INT; TOKEN_NUMBER_BIGINT; TOKEN_NUMBER_DOUBLE; TOKEN_STRING; TOKEN_KEYWORD_INT;
    TOKEN_KEYWORD_BOOL; TOKEN_KEYWORD_DOUBLE; TOKEN_KEYWORD_BIGINT; TOKEN_KEYWORD_STRING; TOKEN_KEYWORD_BYTES; TOKEN_KEYWORD_ARRAY;
    TOKEN_KEYWORD_ANY; TOKEN_KEYWORD_NIL; TOKEN_KEYWORD_VAR; TOKEN_KEYWORD_CONST; TOKEN_KEYWORD_PUBLIC; TOKEN_KEYWORD_PRIVATE;
    TOKEN_KEYWORD_TYPE; TOKEN_KEYWORD_INTERFACE; TOKEN_KEYWORD_IMPL; TOKEN_KEYWORD_ASYNC; TOKEN_KEYWORD_AWAIT; TOKEN_KEYWORD_FUNC;
    TOKEN_KEYWORD_IF; TOKEN_KEYWORD_ELSE; TOKEN_KEYWORD_LET; TOKEN_KEYWORD_WHILE; TOKEN_KEYWORD_FOREACH; TOKEN_KEYWORD_BREAK;
    TOKEN_KEYWORD_CONTINUE; TOKEN_KEYWORD_RETURN; TOKEN_KEYWORD_DEFER; TOKEN_KEYWORD_IMPORT; TOKEN_KEYWORD_RECORD;
    TOKEN_KEYWORD_ENUM; TOKEN_KEYWORD_MATCH; TOKEN_KEYWORD_SWITCH; TOKEN_KEYWORD_CASE; TOKEN_KEYWORD_DEFAULT; TOKEN_KEYWORD_MAP;
    TOKEN_KEYWORD_SET; TOKEN_TRUE; TOKEN_FALSE; TOKEN_PLUS; TOKEN_PLUS_EQ; TOKEN_MINUS; TOKEN_MINUS_EQ; TOKEN_STAR; TOKEN_STAR_EQ;
    TOKEN_SLASH; TOKEN_SLASH_EQ; TOKEN_PERCENT; TOKEN_PERCENT_EQ; TOKEN_EQ_EQ; TOKEN_BANG_EQ; TOKEN_LT; TOKEN_LT_EQ; TOKEN_GT;
    TOKEN_GT_EQ; TOKEN_AND; TOKEN_OR; TOKEN_NOT; TOKEN_BIT_AND; TOKEN_BIT_OR; TOKEN_BIT_XOR; TOKEN_BIT_NOT; TOKEN_ASSIGN;
    TOKEN_LPAREN; TOKEN_RPAREN; TOKEN_LBRACE; TOKEN_RBRACE; TOKEN_LBRACKET; TOKEN_RBRACKET; TOKEN_COMMA; TOKEN_COLON;
    TOKEN_SEMICOLON; TOKEN_DOT; TOKEN_DOT_DOT; TOKEN_QUESTION; TOKEN_AS; TOKEN_IN; TOKEN_ERROR ].

(** The value of the enumerator. *)
Definition token_code (t : TokenType) : Z :=
  match t with
    | TOKEN_EOF => 0 | TOKEN_IDENTIFIER => 1 | TOKEN_NUMBER_INT => 2 | TOKEN_NUMBER_BIGINT => 3
    | TOKEN_NUMBER_DOUBLE => 4 | TOKEN_STRING => 5 | TOKEN_KEYWORD_INT => 6 | TOKEN_KEYWORD_BOOL => 7
    | TOKEN_KEYWORD_DOUBLE => 8 | TOKEN_KEYWORD_BIGINT => 9 | TOKEN_KEYWORD_STRING => 10 | TOKEN_KEYWORD_BYTES => 11
    | TOKEN_KEYWORD_ARRAY => 12 | TOKEN_KEYWORD_ANY => 13 | TOKEN_KEYWORD_NIL => 14 | TOKEN_KEYWORD_VAR => 15
    | TOKEN_KEYWORD_CONST => 16 | TOKEN_KEYWORD_PUBLIC => 17 | TOKEN_KEYWORD_PRIVATE => 18 | TOKEN_KEYWORD_TYPE => 19
    | TOKEN_KEYWORD_INTERFACE => 20 | TOKEN_KEYWORD_IMPL => 21 | TOKEN_KEYWORD_ASYNC => 22 | TOKEN_KEYWORD_AWAIT => 23
    | TOKEN_KEYWORD_FUNC => 24 | TOKEN_KEYWORD_IF => 25 | TOKEN_KEYWORD_ELSE => 26 | TOKEN_KEYWORD_LET => 27
    | TOKEN_KEYWORD_WHILE => 28 | TOKEN_KEYWORD_FOREACH => 29 | TOKEN_KEYWORD_BREAK => 30
    | TOKEN_KEYWORD_CONTINUE => 31 | TOKEN_KEYWORD_RETURN => 32 | TOKEN_KEYWORD_DEFER => 33
    | TOKEN_KEYWORD_IMPORT => 34 | TOKEN_KEYWORD_RECORD => 35 | TOKEN_KEYWORD_ENUM => 36 | TOKEN_KEYWORD_MATCH => 37
    | TOKEN_KEYWORD_SWITCH => 38 | TOKEN_KEYWORD_CASE => 39 | TOKEN_KEYWORD_DEFAULT => 40 | TOKEN_KEYWORD_MAP => 41
    | TOKEN_KEYWORD_SET => 42 | TOKEN_TRUE => 43 | TOKEN_FALSE => 44 | TOKEN_PLUS => 45 | TOKEN_PLUS_EQ => 46
    | TOKEN_MINUS => 47 | TOKEN_MINUS_EQ => 48 | TOKEN_STAR => 49 | TOKEN_STAR_EQ => 50 | TOKEN_SLASH => 51
    | TOKEN_SLASH_EQ => 52 | TOKEN_PERCENT => 53 | TOKEN_PERCENT_EQ => 54 | TOKEN_EQ_EQ => 55 | TOKEN_BANG_EQ => 56
    | TOKEN_LT => 57 | TOKEN_LT_EQ => 58 | TOKEN_GT => 59 | TOKEN_GT_EQ => 60 | TOKEN_AND => 61 | TOKEN_OR => 62
    | TOKEN_NOT => 63 | TOKEN_BIT_AND => 64 | TOKEN_BIT_OR => 65 | TOKEN_BIT_XOR => 66 | TOKEN_BIT_NOT => 67
    | TOKEN_ASSIGN => 68 | TOKEN_LPAREN => 69 | TOKEN_RPAREN => 70 | TOKEN_LBRACE => 71 | TOKEN_RBRACE => 72
    | TOKEN_LBRACKET => 73 | TOKEN_RBRACKET => 74 | TOKEN_COMMA => 75 | TOKEN_COLON => 76 | TOKEN_SEMICOLON => 77
    | TOKEN_DOT => 78 | TOKEN_DOT_DOT => 79 | TOKEN_QUESTION => 80 | TOKEN_AS => 81 | TOKEN_IN => 82
    | TOKEN_ERROR => 83
  end.

Definition token_eqb (a b : TokenType) : bool := token_code a =? token_code b.

Lemma token_code_lookup t : token_types !! Z.to_nat (token_code t) = Some t.
Proof. by destruct t. Qed.

Lemma token_eqb_spec a b : reflect (a = b) (token_eqb a b).
Proof.
  unfold token_eqb. destruct (Z.eqb_spec (token_code a) (token_code b)) as [E|E]; constructor.
  - assert (Some a = Some b) as [= H] by (by rewrite <- !token_code_lookup, E). done.
  - congruence.
Qed.

(** ** State and actions *)

Definition PARSER_MAX_DEPTH : Z := 256.

(** [first_error] is the first message with its line and column, which the
    code keeps in [first_error_message], [error_line] and [error_column]. *)
Record Parser := mkParser {
  lexer : Lexer;
  current : Token;
  previous : Token;
  had_error : bool;
  panic_mode : bool;
  first_error : option (list Z * Z * Z);
  depth : Z;
  active_type_params : list (list Z);
  synthetic_counter : Z;
  current_function_is_async : bool
}.

Inductive result (A : Type) :=
  | Done (a : A) (p : Parser)
  | Undefined
  | OutOfFuel.
Arguments Done {A}.
Arguments Undefined {A}.
Arguments OutOfFuel {A}.

Definition M (A : Type) : Type := Parser -> result A.
Definition ret {A} (a : A) : M A := fun p => Done a p.
Definition bind {A B} (m : M A) (k : A -> M B) : M B :=
  fun p => match m p with Done a p => k a p | Undefined => Undefined | OutOfFuel => OutOfFuel end.
Definition get {A} (f : Parser -> A) : M A := fun p => Done (f p) p.
Definition update (f : Parser -> Parser) : M unit := fun p => Done tt (f p).
Definition undefined {A} : M A := fun _ => Undefined.
Definition out_of_fuel {A} : M A := fun _ => OutOfFuel.

Declare Scope parser_scope.
Delimit Scope parser_scope with parser.
Notation "'let!' x ':=' m 'in' k" := (bind m (fun x => k)) (at level 10, x pattern, k at level 200) : parser_scope.
Notation "m ;; k" := (bind m (fun _ => k)) (at level 100, k at level 200, right associativity) : parser_scope.
Open Scope parser_scope.

Definition set_tokens (l : Lexer) (cur prev : Token) (p : Parser) : Parser :=
  mkParser l cur prev (had_error p) (panic_mode p) (first_error p) (depth p) (active_type_params p) (synthetic_counter p) (current_function_is_async p).
Definition set_error (had panic : bool) (first : option (list Z * Z * Z)) (p : Parser) : Parser :=
  mkParser (lexer p) (current p) (previous p) had panic first (depth p) (active_type_params p) (synthetic_counter p) (current_function_is_async p).
Definition set_depth (d : Z) (p : Parser) : Parser :=
  mkParser (lexer p) (current p) (previous p) (had_error p) (panic_mode p) (first_error p) d (active_type_params p) (synthetic_counter p) (current_function_is_async p).
Definition set_type_params (ts : list (list Z)) (p : Parser) : Parser :=
  mkParser (lexer p) (current p) (previous p) (had_error p) (panic_mode p) (first_error p) (depth p) ts (synthetic_counter p) (current_function_is_async p).
Definition set_counter (c : Z) (p : Parser) : Parser :=
  mkParser (lexer p) (current p) (previous p) (had_error p) (panic_mode p) (first_error p) (depth p) (active_type_params p) c (current_function_is_async p).
Definition set_async (a : bool) (p : Parser) : Parser :=
  mkParser (lexer p) (current p) (previous p) (had_error p) (panic_mode p) (first_error p) (depth p) (active_type_params p) (synthetic_counter p) a.

Definition cur_type (p : Parser) : TokenType := type (current p).
Definition is_current (t : TokenType) (p : Parser) : bool := token_eqb (cur_type p) t.

(** ** Errors *)

Definition first_of (first : option (list Z * Z * Z)) (message : list Z) (line column : Z) : option (list Z * Z * Z) :=
  match first with Some e => Some e | None => Some (message, line, column) end.

Definition parser_record_first_error (message : list Z) (p : Parser) : Parser :=
  set_error (had_error p) (panic_mode p) (first_of (first_error p) message (t_line (current p)) (t_column (current p))) p.

Definition error_at (message : list Z) (line column : Z) (p : Parser) : Parser :=
  if panic_mode p then p else set_error true true (first_of (first_error p) message line column) p.
Definition parser_error_at (message : string) (line column : Z) : M unit := update (error_at (bytes message) line column).

Definition error_here (message : list Z) (p : Parser) : Parser :=
  if panic_mode p then p
  else let p := parser_record_first_error message p in error_at message (t_line (current p)) (t_column (current p)) p.
Definition parser_error (message : string) : M unit := update (error_here (bytes message)).

(** ** Tokens that start something *)

Definition parser_token_is_identifier_like (t : TokenType) : bool :=
  token_eqb t TOKEN_IDENTIFIER || Lexer.between (token_code TOKEN_KEYWORD_INT) (token_code TOKEN_KEYWORD_SET) (token_code t)
  || token_eqb t TOKEN_TRUE || token_eqb t TOKEN_FALSE || token_eqb t TOKEN_AS || token_eqb t TOKEN_IN.

Definition parser_token_starts_type (t : TokenType) : bool :=
  match t with
  | TOKEN_IDENTIFIER | TOKEN_KEYWORD_INT | TOKEN_KEYWORD_BOOL | TOKEN_KEYWORD_DOUBLE | TOKEN_KEYWORD_BIGINT | TOKEN_KEYWORD_STRING
  | TOKEN_KEYWORD_BYTES | TOKEN_KEYWORD_ARRAY | TOKEN_KEYWORD_ANY | TOKEN_KEYWORD_NIL | TOKEN_KEYWORD_FUNC | TOKEN_KEYWORD_MAP
  | TOKEN_KEYWORD_SET => true
  | _ => false
  end.

Definition parser_token_starts_declaration (t : TokenType) : bool :=
  match t with
  | TOKEN_KEYWORD_PUBLIC | TOKEN_KEYWORD_PRIVATE | TOKEN_KEYWORD_VAR | TOKEN_KEYWORD_CONST | TOKEN_KEYWORD_TYPE | TOKEN_KEYWORD_INTERFACE
  | TOKEN_KEYWORD_IMPL | TOKEN_KEYWORD_ASYNC | TOKEN_KEYWORD_FUNC | TOKEN_KEYWORD_RECORD | TOKEN_KEYWORD_ENUM | TOKEN_KEYWORD_IMPORT => true
  | _ => false
  end.

Definition parser_token_starts_non_expression_statement (t : TokenType) : bool :=
  match t with
  | TOKEN_KEYWORD_IF | TOKEN_KEYWORD_MATCH | TOKEN_KEYWORD_SWITCH | TOKEN_KEYWORD_WHILE | TOKEN_KEYWORD_FOREACH | TOKEN_KEYWORD_BREAK
  | TOKEN_KEYWORD_CONTINUE | TOKEN_KEYWORD_RETURN | TOKEN_KEYWORD_DEFER => true
  | _ => false
  end.

Definition parser_token_starts_expression (t : TokenType) : bool :=
  match t with
  | TOKEN_NUMBER_INT | TOKEN_NUMBER_BIGINT | TOKEN_NUMBER_DOUBLE | TOKEN_STRING | TOKEN_TRUE | TOKEN_FALSE | TOKEN_KEYWORD_NIL
  | TOKEN_KEYWORD_FUNC | TOKEN_KEYWORD_ASYNC | TOKEN_KEYWORD_IF | TOKEN_KEYWORD_MATCH | TOKEN_IDENTIFIER | TOKEN_LPAREN | TOKEN_LBRACKET
  | TOKEN_LBRACE | TOKEN_KEYWORD_AWAIT | TOKEN_MINUS | TOKEN_NOT | TOKEN_BIT_NOT => true
  | _ => false
  end.

Definition parser_token_can_start_type_arg (t : TokenType) : bool :=
  match t with
  | TOKEN_IDENTIFIER | TOKEN_KEYWORD_INT | TOKEN_KEYWORD_BOOL | TOKEN_KEYWORD_DOUBLE | TOKEN_KEYWORD_BIGINT | TOKEN_KEYWORD_STRING
  | TOKEN_KEYWORD_BYTES | TOKEN_KEYWORD_ARRAY | TOKEN_KEYWORD_ANY | TOKEN_KEYWORD_MAP | TOKEN_KEYWORD_SET | TOKEN_KEYWORD_NIL
  | TOKEN_LPAREN => true
  | _ => false
  end.

Definition parser_identifier_looks_type_name (name : list Z) : bool :=
  match name with c :: _ => Lexer.between 65 90 c | [] => false end.

(** The tokens at which [parser_synchronize] stops. *)
Definition synchronizes_at (t : TokenType) : bool :=
  match t with
  | TOKEN_KEYWORD_FUNC | TOKEN_KEYWORD_VAR | TOKEN_KEYWORD_CONST | TOKEN_KEYWORD_PUBLIC | TOKEN_KEYWORD_PRIVATE | TOKEN_KEYWORD_TYPE
  | TOKEN_KEYWORD_INTERFACE | TOKEN_KEYWORD_IMPL | TOKEN_KEYWORD_ASYNC | TOKEN_KEYWORD_IF | TOKEN_KEYWORD_MATCH | TOKEN_KEYWORD_SWITCH
  | TOKEN_KEYWORD_WHILE | TOKEN_KEYWORD_FOREACH | TOKEN_KEYWORD_RETURN | TOKEN_KEYWORD_RECORD | TOKEN_KEYWORD_ENUM | TOKEN_KEYWORD_IMPORT => true
  | _ => false
  end.

(** ** Strings with embedded expressions *)

(** On the text between the quotes. *)
Fixpoint has_interpolation (s : list Z) : bool :=
  match s with
  | c :: s1 =>
      match s1 with
      | c2 :: s2 => if c =? c_backslash then has_interpolation s2 else if (c =? 36) && (c2 =? 123) then true else has_interpolation s1
      | [] => false
      end
  | [] => false
  end.

(** The text between the quotes of a string token. *)
Definition unquoted (raw : list Z) : list Z := removelast (tl raw).

Definition string_has_unescaped_interpolation (raw_quoted : list Z) : bool :=
  if (List.length raw_quoted <? 2)%nat then false else has_interpolation (unquoted raw_quoted).

(** The loop that looks for the end of an embedded expression: the text before
    the closing brace and the text from there on. *)
Fixpoint embedded_text (brace_depth : nat) (in_string escaped : bool) (s : list Z) : list Z * list Z :=
  match s with
  | [] => ([], [])
  | ch :: s' =>
      let next b i e := let '(t, r) := embedded_text b i e s' in (ch :: t, r) in
      if in_string then
        if escaped then next brace_depth true false
        else if ch =? c_backslash then next brace_depth true true
        else next brace_depth (negb (ch =? c_quote)) false
      else if ch =? c_quote then next brace_depth true escaped
      else if ch =? 123 then next (S brace_depth) false escaped
      else if ch =? 125 then
        match brace_depth with
        | O => ([], s)
        | S b => next b false escaped
        end
      else next brace_depth false escaped
  end.

(** ** The functions that close a cycle *)

Record calls := mkCalls {
  call_type : M TypeNode;
  call_expression : M Expr;
  call_unary : M Expr;
  call_pattern_or : M Expr;
  call_pattern_unary : M Expr;
  call_if_expression : M Expr;
  call_statement : M Stmt;
  call_declaration : M Stmt
}.

(** The arrays that the arms of a match fill, and the next group id. *)
Record arms (A : Type) := mkArms { patterns : list Expr; guards : list Expr; bodies : list A; group_ids : list Z; next_group : Z }.
Arguments mkArms {A}.
Arguments patterns {A}.
Arguments guards {A}.
Arguments bodies {A}.
Arguments group_ids {A}.
Arguments next_group {A}.

(** A [case type] branch of a switch. *)
Record SwitchTypeArm := mkTypeArm { arm_types : list TypeNode; arm_binding : option (list Z); arm_body : Stmt }.

(** The variables of the loop over the branches of a switch. *)
Record switch_state := mkSwitch {
  sw_patterns : list Expr;
  sw_bodies : list Stmt;
  sw_type_arms : list SwitchTypeArm;
  sw_else : Stmt;
  saw_type_case : bool;
  saw_value_case : bool
}.

(** The variables of the loop over the members of an enumeration. *)
Record enum_state := mkEnum {
  e_names : list (list Z);
  e_values : list Z;
  e_payloads : list (list TypeNode);
  e_next : Z;
  e_has_payload : bool;
  e_has_explicit : bool
}.

Section Parsing.
Context (strtod : list Z -> option Z).

(** ** Reading tokens *)

Definition advance (p : Parser) : Parser :=
  if is_current TOKEN_EOF p then p
  else
    let '(t, l) := lexer_next_token strtod (lexer p) in
    let p := set_tokens l t (current p) p in
    if is_current TOKEN_ERROR p then error_here (lexeme t) p else p.
Definition parser_advance : M unit := update advance.

Definition parser_consume (t : TokenType) (message : string) : M unit :=
  fun p => if is_current t p then parser_advance p else parser_error message p.

Definition parser_match (t : TokenType) : M bool :=
  fun p => if is_current t p then (parser_advance ;; ret true) p else Done false p.

Definition parser_consume_identifier_like (message : string) : M unit :=
  fun p => if parser_token_is_identifier_like (cur_type p) then parser_advance p else parser_error message p.

(** [parser_match(a) || parser_match(b) || ...]: the type that matched. *)
Fixpoint match_any (ts : list TokenType) : M (option TokenType) :=
  match ts with
  | [] => ret None
  | t :: ts => let! b := parser_match t in if b : bool then ret (Some t) else match_any ts
  end.

(** [PARSER_ENTER] and [PARSER_LEAVE] around a body. *)
Definition with_depth (body : M Expr) : M Expr :=
  update (fun p => set_depth (depth p + 1) p) ;;
  let! d := get depth in
  if PARSER_MAX_DEPTH <? d then parser_error "Maximum recursion depth exceeded" ;; ret NULL_EXPR
  else let! e := body in update (fun p => set_depth (depth p - 1) p) ;; ret e.

(** The fuel is the number of tokens that may be left: each but the last takes
    at least one character. *)
Fixpoint synchronize (fuel : nat) (stop_at_rbrace : bool) (p : Parser) : Parser :=
  match fuel with
  | O => p
  | S f =>
      if is_current TOKEN_EOF p then p
      else if token_eqb (type (previous p)) TOKEN_SEMICOLON
              && ((stop_at_rbrace && is_current TOKEN_RBRACE p) || parser_token_starts_declaration (cur_type p)
                  || parser_token_starts_non_expression_statement (cur_type p) || parser_token_starts_expression (cur_type p)) then p
      else if synchronizes_at (cur_type p) then p
      else if is_current TOKEN_RBRACE p && stop_at_rbrace then p
      else synchronize f stop_at_rbrace (advance p)
  end.
Definition parser_synchronize (stop_at_rbrace : bool) : M unit :=
  update (fun p => synchronize (S (S (Lexer.length (lexer p)))) stop_at_rbrace (set_error (had_error p) false (first_error p) p)).

(** ** Looking ahead, with a copy of the lexer *)

(** The loop of [parser_can_parse_call_type_args]; the result is that of the
    tests and of the token after the loop. *)
Fixpoint type_args_ahead (fuel : nat) (angle_depth tuple_paren_depth type_app_bracket_depth : nat) (saw_type expect_type : bool) (l : Lexer) : bool :=
  match fuel with
  | O => false
  | S f =>
      match angle_depth with
      | O =>
          if negb saw_type || expect_type || negb (tuple_paren_depth =? 0)%nat || negb (type_app_bracket_depth =? 0)%nat then false
          else token_eqb (type (lexer_peek_token strtod l)) TOKEN_LPAREN
      | S angle =>
          let '(t, l) := lexer_next_token strtod l in
          match type t with
          | TOKEN_EOF | TOKEN_ERROR => false
          | TOKEN_LT => if expect_type then false else type_args_ahead f (S angle_depth) tuple_paren_depth type_app_bracket_depth saw_type true l
          | TOKEN_GT =>
              if expect_type || negb (tuple_paren_depth =? 0)%nat || negb (type_app_bracket_depth =? 0)%nat then false
              else type_args_ahead f angle tuple_paren_depth type_app_bracket_depth saw_type expect_type l
          | TOKEN_COMMA => if expect_type then false else type_args_ahead f angle_depth tuple_paren_depth type_app_bracket_depth saw_type true l
          | TOKEN_LPAREN =>
              if negb expect_type then false else type_args_ahead f angle_depth (S tuple_paren_depth) type_app_bracket_depth saw_type true l
          | TOKEN_RPAREN =>
              if (tuple_paren_depth <=? 0)%nat || expect_type then false
              else type_args_ahead f angle_depth (pred tuple_paren_depth) type_app_bracket_depth saw_type expect_type l
          | TOKEN_LBRACKET =>
              if expect_type then false else type_args_ahead f angle_depth tuple_paren_depth (S type_app_bracket_depth) saw_type true l
          | TOKEN_RBRACKET =>
              if (type_app_bracket_depth <=? 0)%nat || expect_type then false
              else type_args_ahead f angle_depth tuple_paren_depth (pred type_app_bracket_depth) saw_type false l
          | TOKEN_QUESTION =>
              if expect_type then false else type_args_ahead f angle_depth tuple_paren_depth type_app_bracket_depth saw_type expect_type l
          | ty =>
              if negb (parser_token_can_start_type_arg ty) || negb expect_type then false
              else type_args_ahead f angle_depth tuple_paren_depth type_app_bracket_depth true false l
          end
      end
  end.

Definition parser_can_parse_call_type_args (p : Parser) : bool :=
  is_current TOKEN_LT p && type_args_ahead (S (S (Lexer.length (lexer p)))) 1 0 0 false true (lexer p).

(** The search for a semicolon at the level of the braces that are open. *)
Fixpoint semicolon_ahead (fuel : nat) (brace_depth : nat) (l : Lexer) : bool :=
  match fuel with
  | O => false
  | S f =>
      let '(t, l) := lexer_next_token strtod l in
      match type t with
      | TOKEN_EOF => false
      | TOKEN_SEMICOLON => if (brace_depth =? 1)%nat then true else semicolon_ahead f brace_depth l
      | TOKEN_LBRACE => semicolon_ahead f (S brace_depth) l
      | TOKEN_RBRACE => if (brace_depth =? 1)%nat then false else semicolon_ahead f (pred brace_depth) l
      | _ => semicolon_ahead f brace_depth l
      end
  end.

Definition parser_match_value_starts_block_expression (p : Parser) : bool :=
  if negb (is_current TOKEN_LBRACE p) then false
  else
    let '(first, lookahead) := lexer_next_token strtod (lexer p) in
    if parser_token_starts_declaration (type first) || parser_token_starts_non_expression_statement (type first) then true
    else if negb (token_eqb (type first) TOKEN_RBRACE) && negb (token_eqb (type first) TOKEN_EOF) then
      if parser_token_is_identifier_like (type first) && token_eqb (type (lexer_peek_token strtod lookahead)) TOKEN_COLON then false
      else semicolon_ahead (S (S (Lexer.length (lexer p)))) 1 (lexer p)
    else false.

(** Past the bracket that closes [bracket_depth] brackets: whether a brace follows. *)
Fixpoint brace_after_brackets (fuel : nat) (bracket_depth : nat) (l : Lexer) : bool :=
  match fuel with
  | O => false
  | S f =>
      match bracket_depth with
      | O => token_eqb (type (lexer_peek_token strtod l)) TOKEN_LBRACE
      | S b =>
          let '(t, l) := lexer_next_token strtod l in
          match type t with
          | TOKEN_EOF | TOKEN_ERROR => false
          | TOKEN_LBRACKET => brace_after_brackets f (S bracket_depth) l
          | TOKEN_RBRACKET => brace_after_brackets f b l
          | _ => brace_after_brackets f bracket_depth l
          end
      end
  end.

Definition parser_pattern_looks_like_type_qualified_record (p : Parser) : bool :=
  if negb (is_current TOKEN_IDENTIFIER p) || negb (parser_identifier_looks_type_name (lexeme (current p))) then false
  else
    let '(next, lookahead) := lexer_next_token strtod (lexer p) in
    if token_eqb (type next) TOKEN_LBRACE then true
    else if token_eqb (type next) TOKEN_LBRACKET then brace_after_brackets (S (S (Lexer.length (lexer p)))) 1 lookahead
    else false.

Definition parser_is_active_type_param (p : Parser) (name : list Z) : bool :=
  existsb (fun t => bool_decide (t = name)) (active_type_params p).

Context (n : nat) (rec : calls).

Definition prev_lexeme : M (list Z) := get (fun p => lexeme (previous p)).

(** [do { item } while (parser_match(parser, separator))]. *)
Fixpoint separated (fuel : nat) (separator : TokenType) {A} (item : M A) : M (list A) :=
  match fuel with
  | O => out_of_fuel
  | S f =>
      let! a := item in
      let! more := parser_match separator in
      if more : bool then let! l := separated f separator item in ret (a :: l) else ret [a]
  end.

Definition list_of {A} (item : M A) : M (list A) := separated n TOKEN_COMMA item.

(** The same behind [if (current != close)]. *)
Definition list_unless {A} (close : TokenType) (item : M A) : M (list A) :=
  let! e := get (is_current close) in if e : bool then ret [] else list_of item.

(** Runs an action with other type parameters in force. *)
Definition with_type_params {A} (ts : list (list Z)) (m : M A) : M A :=
  let! old := get active_type_params in
  update (set_type_params ts) ;; let! a := m in update (set_type_params old) ;; ret a.

(** ** Types *)

Fixpoint type_params_loop (fuel : nat) (constrained : bool) (names : list (list Z)) (constraints : list (option TypeNode)) :
    M (list (list Z) * list (option TypeNode)) :=
  match fuel with
  | O => out_of_fuel
  | S f =>
      parser_consume TOKEN_IDENTIFIER "Expected type parameter name" ;;
      let! name := prev_lexeme in
      let! (names, constraints) :=
        if existsb (fun x => bool_decide (x = name)) names then
          parser_error "Duplicate type parameter name" ;;
          let! c := (if constrained then parser_match TOKEN_COLON else ret false) in
          (if c : bool then call_type rec ;; ret (names, constraints) else ret (names, constraints))
        else
          let names := names ++ [name] in
          let! c := (if constrained then
                       with_type_params names (let! b := parser_match TOKEN_COLON in
                                               if b : bool then let! t := call_type rec in ret (Some t) else ret None)
                     else ret None) in
          ret (names, constraints ++ [c]) in
      let! more := parser_match TOKEN_COMMA in
      if more : bool then type_params_loop f constrained names constraints else ret (names, constraints)
  end.

(** [parse_declaration_type_params] without constraints, [parse_function_type_params] with them. *)
Definition parse_type_params (constrained : bool) : M (list (list Z) * list (option TypeNode)) :=
  let! b := parser_match TOKEN_LBRACKET in
  if b : bool then
    let! r := type_params_loop n constrained [] [] in
    parser_consume TOKEN_RBRACKET "Expected ']' after type parameters" ;; ret r
  else ret ([], []).
Definition parse_declaration_type_params : M (list (list Z)) := let! r := parse_type_params false in ret (fst r).
Definition parse_function_type_params : M (list (list Z) * list (option TypeNode)) := parse_type_params true.

Definition parse_function_type : M TypeNode :=
  let! (names, constraints) := parse_function_type_params in
  let! old := get active_type_params in
  with_type_params (old ++ names)
   (parser_consume TOKEN_LPAREN "Expected '(' after func in function type" ;;
    let! params := list_unless TOKEN_RPAREN (call_type rec) in
    parser_consume TOKEN_RPAREN "Expected ')' after function type parameters" ;;
    let! c := parser_match TOKEN_COLON in
    let! r := (if c : bool then call_type rec else ret type_void) in
    ret (type_function r params names constraints)).

(** The branch taken is the one of the current token, which is consumed. *)
Definition parse_type_internal : M TypeNode :=
  let! t := get cur_type in
  match t with
  | TOKEN_KEYWORD_INT => parser_advance ;; ret type_int
  | TOKEN_KEYWORD_BOOL => parser_advance ;; ret type_bool
  | TOKEN_KEYWORD_DOUBLE => parser_advance ;; ret type_double
  | TOKEN_KEYWORD_BIGINT => parser_advance ;; ret type_bigint
  | TOKEN_KEYWORD_STRING => parser_advance ;; ret type_string
  | TOKEN_KEYWORD_BYTES => parser_advance ;; ret type_bytes
  | TOKEN_KEYWORD_ARRAY =>
      parser_advance ;; parser_consume TOKEN_LT "Expected '<' after array" ;;
      let! e := call_type rec in
      parser_consume TOKEN_GT "Expected '>' after array element type" ;; ret (type_array e)
  | TOKEN_KEYWORD_ANY => parser_advance ;; ret type_any
  | TOKEN_KEYWORD_MAP =>
      parser_advance ;; parser_consume TOKEN_LT "Expected '<' after map" ;;
      let! k := call_type rec in
      parser_consume TOKEN_COMMA "Expected ',' after map key type" ;;
      let! v := call_type rec in
      parser_consume TOKEN_GT "Expected '>' after map value type" ;; ret (type_map k v)
  | TOKEN_KEYWORD_SET =>
      parser_advance ;; parser_consume TOKEN_LT "Expected '<' after set" ;;
      let! e := call_type rec in
      parser_consume TOKEN_GT "Expected '>' after set element type" ;; ret (type_set e)
  | TOKEN_KEYWORD_NIL => parser_advance ;; ret type_nil
  | TOKEN_KEYWORD_FUNC => parser_advance ;; parse_function_type
  | TOKEN_IDENTIFIER =>
      parser_advance ;;
      let! name := prev_lexeme in
      let! active := get (fun p => parser_is_active_type_param p name) in
      if bool_decide (name = bytes "void") then ret type_void
      else if active : bool then ret (type_type_param name)
      else
        let! b := parser_match TOKEN_LBRACKET in
        if b : bool then
          let! e := get (is_current TOKEN_RBRACKET) in
          let! args := (if e : bool then parser_error "Expected at least one type argument" ;; ret [] else list_of (call_type rec)) in
          parser_consume TOKEN_RBRACKET "Expected ']' after type arguments" ;; ret (type_record name args)
        else ret (type_record name [])
  | _ => ret type_any
  end.

(** A question mark after the type. *)
Definition nullable_suffix (t : TypeNode) : M TypeNode :=
  let! q := parser_match TOKEN_QUESTION in if q : bool then ret (set_nullable t) else ret t.

Definition parse_type : M TypeNode :=
  let! tuple := get (fun p => is_current TOKEN_LPAREN p && parser_token_starts_type (type (lexer_peek_token strtod (lexer p)))) in
  if tuple : bool then
    parser_advance ;;
    let! es := list_unless TOKEN_RPAREN (call_type rec) in
    parser_consume TOKEN_RPAREN "Expected ')' after tuple type" ;;
    let! panic := get panic_mode in
    if panic : bool then ret type_any else nullable_suffix (type_tuple es)
  else let! t := parse_type_internal in nullable_suffix t.

Definition parse_call_type_arguments : M (list TypeNode) :=
  parser_consume TOKEN_LT "Expected '<' before generic type arguments" ;;
  let! l := list_of (call_type rec) in
  parser_consume TOKEN_GT "Expected '>' after generic type arguments" ;; ret l.

Definition call_type_arguments_ahead : M (option (list TypeNode)) :=
  let! b := get parser_can_parse_call_type_args in
  if b : bool then let! ts := parse_call_type_arguments in ret (Some ts) else ret None.

(** ** Strings *)

Definition decode_raw_string_segment (segment : list Z) : option (list Z) :=
  let lx := lexer_init ([c_quote] ++ segment ++ [c_quote]) in
  let '(tok, lx) := lexer_next_token strtod lx in
  let '(eof, _) := lexer_next_token strtod lx in
  if token_eqb (type tok) TOKEN_STRING && token_eqb (type eof) TOKEN_EOF
  then Some (match value tok with Lexer.as_string s => s | _ => [] end) else None.

(** A parser at the start of a text. *)
Definition parser_init (source : list Z) : Parser :=
  let '(t, l) := lexer_next_token strtod (lexer_init source) in
  mkParser l t (mkToken TOKEN_ERROR [] 0 0 no_value) false false None 0 [] 0 false.

Definition parse_embedded_interpolation_expr (source : list Z) (line column : Z) : M Expr :=
  match source with
  | [] => parser_error_at "Empty interpolation expression" line column ;; ret NULL_EXPR
  | _ =>
      fun p =>
        match call_expression rec (parser_init source) with
        | Done e inner =>
            if had_error inner || is_null e || negb (is_current TOKEN_EOF inner)
            then (parser_error_at "Invalid interpolation expression" line column ;; ret NULL_EXPR) p
            else Done e p
        | Undefined => Undefined
        | OutOfFuel => OutOfFuel
        end
  end.

(** A piece of literal text, if it is not empty. *)
Definition literal_part (segment : list Z) (line column : Z) : M (option (list Expr)) :=
  match segment with
  | [] => ret (Some [])
  | _ =>
      match decode_raw_string_segment segment with
      | Some text => ret (Some [expr_create_literal_string text])
      | None => parser_error_at "Invalid string interpolation segment" line column ;; ret None
      end
  end.

(** The loop over the text [s]; [segment] is the literal text that was passed.
    [None] is the label [fail]. *)
Fixpoint interpolation_parts (fuel : nat) (line column : Z) (segment s : list Z) (parts : list Expr) : M (option (list Expr)) :=
  match fuel with
  | O => out_of_fuel
  | S f =>
      match s with
      | [] => let! l := literal_part segment line column in ret (match l with Some l => Some (parts ++ l) | None => None end)
      | c :: s1 =>
          match s1 with
          | c2 :: s2 =>
              if c =? c_backslash then interpolation_parts f line column (segment ++ [c; c2]) s2 parts
              else if (c =? 36) && (c2 =? 123) then
                let! l := literal_part segment line column in
                match l with
                | None => ret None
                | Some l =>
                    let '(text, after) := embedded_text 0 false false s2 in
                    match after with
                    | [] => parser_error_at "Unterminated string interpolation; expected '}'" line column ;; ret None
                    | _ :: s3 =>
                        let! e := parse_embedded_interpolation_expr text line column in
                        if is_null e then ret None
                        else interpolation_parts f line column [] s3 (parts ++ l ++ [EXPR_CAST e type_string])
                    end
                end
              else interpolation_parts f line column (segment ++ [c]) s1 parts
          | [] => interpolation_parts f line column (segment ++ [c]) s1 parts
          end
      end
  end.

Definition parse_string_literal_or_interpolation (t : Token) : M Expr :=
  let decoded := match value t with Lexer.as_string s => s | _ => [] end in
  let raw := c_string (lexeme t) in
  if negb (string_has_unescaped_interpolation raw) then ret (expr_create_literal_string decoded)
  else
    let! parts := interpolation_parts (S (List.length raw)) (t_line t) (t_column t) [] (unquoted raw) [] in
    match parts with
    | None => ret NULL_EXPR
    | Some [] => ret (expr_create_literal_string [])
    | Some (e :: es) => ret (fold_left (fun combined part => expr_create_binary TOKEN_PLUS combined part) es e)
    end.

(** ** Statements made of an expression *)

Definition assignment_operators : list TokenType :=
  [TOKEN_ASSIGN; TOKEN_PLUS_EQ; TOKEN_MINUS_EQ; TOKEN_STAR_EQ; TOKEN_SLASH_EQ; TOKEN_PERCENT_EQ].

Definition compound_operator (t : TokenType) : option TokenType :=
  match t with
  | TOKEN_PLUS_EQ => Some TOKEN_PLUS
  | TOKEN_MINUS_EQ => Some TOKEN_MINUS
  | TOKEN_STAR_EQ => Some TOKEN_STAR
  | TOKEN_SLASH_EQ => Some TOKEN_SLASH
  | TOKEN_PERCENT_EQ => Some TOKEN_PERCENT
  | _ => None
  end.

Definition assignment (target v : Expr) (op : TokenType) : M Stmt :=
  match target with
  | EXPR_IDENTIFIER x =>
      ret (STMT_ASSIGN x (match compound_operator op with Some b => expr_create_binary b (EXPR_IDENTIFIER x) v | None => v end) TOKEN_ASSIGN)
  | EXPR_INDEX a i => ret (STMT_ASSIGN_INDEX a i v op)
  | EXPR_FIELD_ACCESS o f => ret (STMT_ASSIGN_FIELD o f v op)
  | _ =>
      parser_error (match compound_operator op with Some _ => "Invalid compound assignment target" | None => "Invalid assignment target" end) ;;
      ret NULL_STMT
  end.

(** The statement, and the trailing value where one is allowed. *)
Definition parser_finish_expression_statement (e : Expr) (allow_trailing_value : bool) : M (Stmt * Expr) :=
  if is_null e then ret (NULL_STMT, NULL_EXPR)
  else
    let! op := match_any assignment_operators in
    match op with
    | Some op =>
        let! v := call_expression rec in
        parser_consume TOKEN_SEMICOLON "Expected ';' after assignment" ;;
        if is_null v then ret (NULL_STMT, NULL_EXPR) else let! s := assignment e v op in ret (s, NULL_EXPR)
    | None =>
        let! semicolon := parser_match TOKEN_SEMICOLON in
        if semicolon : bool then ret (STMT_EXPR e, NULL_EXPR)
        else
          let! close := get (is_current TOKEN_RBRACE) in
          if allow_trailing_value && close then ret (NULL_STMT, e)
          else parser_error "Expected ';' after expression" ;; ret (NULL_STMT, NULL_EXPR)
    end.

Definition block_ends (p : Parser) : bool := is_current TOKEN_RBRACE p || is_current TOKEN_EOF p.

Fixpoint block_loop (fuel : nat) (statements : list Stmt) : M (list Stmt) :=
  match fuel with
  | O => out_of_fuel
  | S f =>
      let! stop := get block_ends in
      if stop : bool then ret statements
      else
        let! s := call_declaration rec in
        if is_null_stmt s then parser_synchronize true ;; block_loop f statements else block_loop f (statements ++ [s])
  end.

Definition parse_block_statement : M Stmt :=
  let! ss := block_loop n [] in
  parser_consume TOKEN_RBRACE "Expected '}' after block" ;; ret (STMT_BLOCK ss).

(** The loop of a block expression: its statements and its value. *)
Fixpoint block_expression_loop (fuel : nat) (statements : list Stmt) : M (list Stmt * Expr) :=
  match fuel with
  | O => out_of_fuel
  | S f =>
      let! stop := get block_ends in
      let! t := get cur_type in
      if stop : bool then ret (statements, NULL_EXPR)
      else if parser_token_starts_declaration t then
        let! s := call_declaration rec in
        if is_null_stmt s then ret (statements, NULL_EXPR) else block_expression_loop f (statements ++ [s])
      else if token_eqb t TOKEN_LBRACE || parser_token_starts_non_expression_statement t then
        let! s := call_statement rec in
        if is_null_stmt s then ret (statements, NULL_EXPR) else block_expression_loop f (statements ++ [s])
      else
        let! e := call_expression rec in
        let! (s, v) := parser_finish_expression_statement e true in
        if negb (is_null v) then ret (statements, v)
        else if is_null_stmt s then ret (statements, NULL_EXPR)
        else block_expression_loop f (statements ++ [s])
  end.

Definition parse_block_expression : M Expr :=
  parser_consume TOKEN_LBRACE "Expected '{' to start block expression" ;;
  let! (ss, v) := block_expression_loop n [] in
  parser_consume TOKEN_RBRACE "Expected '}' after block expression" ;;
  if is_null v then
    let! t := get previous in
    parser_error_at "Block expression requires a trailing value expression" (t_line t) (t_column t) ;; ret (EXPR_BLOCK ss EXPR_NIL)
  else ret (EXPR_BLOCK ss v).

Definition signature_param : M (list Z * TypeNode) :=
  parser_consume TOKEN_IDENTIFIER "Expected parameter name" ;;
  let! name := prev_lexeme in
  parser_consume TOKEN_COLON "Expected ':' after parameter name" ;;
  let! t := call_type rec in ret (name, t).

Definition parse_function_signature : M (list (list Z) * list TypeNode * TypeNode) :=
  parser_consume TOKEN_LPAREN "Expected '(' after function keyword" ;;
  let! params := list_unless TOKEN_RPAREN signature_param in
  parser_consume TOKEN_RPAREN "Expected ')' after parameters" ;;
  let! c := parser_match TOKEN_COLON in
  let! r := (if c : bool then call_type rec else ret type_void) in
  ret (map fst params, map snd params, r).

(** [parse_block_statement] with [current_function_is_async] set. *)
Definition function_body (is_async : bool) : M Stmt :=
  let! old := get current_function_is_async in
  update (set_async is_async) ;; let! body := parse_block_statement in update (set_async old) ;; ret body.

Definition parse_func_literal (is_async : bool) : M Expr :=
  let! (params, types, r) := parse_function_signature in
  parser_consume TOKEN_LBRACE "Expected '{' after function literal signature" ;;
  let! body := function_body is_async in ret (EXPR_FUNC_LITERAL r params types body is_async).

(** ** Literals *)

Definition previous_int : M Z :=
  let! t := get previous in match value t with Lexer.as_int v => ret v | _ => undefined end.
Definition previous_string : M (list Z) :=
  let! t := get previous in match value t with Lexer.as_string s => ret s | _ => undefined end.
Definition previous_double : M Z :=
  let! t := get previous in match value t with Lexer.as_double d => ret d | _ => undefined end.

(** The cases that [parse_primary] and [parse_pattern_primary] begin with. *)
Definition parse_literal : M (option Expr) :=
  let! t := get cur_type in
  match t with
  | TOKEN_NUMBER_INT => parser_advance ;; let! v := previous_int in ret (Some (expr_create_literal_int v))
  | TOKEN_NUMBER_BIGINT => parser_advance ;; let! s := previous_string in ret (Some (expr_create_literal_bigint s))
  | TOKEN_NUMBER_DOUBLE => parser_advance ;; let! d := previous_double in ret (Some (expr_create_literal_double d))
  | TOKEN_STRING =>
      parser_advance ;; let! t := get previous in let! e := parse_string_literal_or_interpolation t in ret (Some e)
  | TOKEN_TRUE => parser_advance ;; ret (Some (expr_create_literal_bool true))
  | TOKEN_FALSE => parser_advance ;; ret (Some (expr_create_literal_bool false))
  | TOKEN_KEYWORD_NIL => parser_advance ;; ret (Some EXPR_NIL)
  | _ => ret None
  end.

(** ** Postfix forms and operators, for expressions and for patterns *)

Definition names_type (e : Expr) : bool :=
  match e with EXPR_IDENTIFIER x => parser_identifier_looks_type_name x | _ => false end.

(** What follows [object.], which is a field, a method call or a static call. *)
Definition parse_member (what : string) (arg : M Expr) (object : Expr) : M Expr :=
  let! t := get current in
  if token_eqb (type t) TOKEN_NUMBER_INT then
    match value t with
    | Lexer.as_int v => parser_advance ;; ret (EXPR_TUPLE_ACCESS object (i32 v))
    | _ => undefined
    end
  else
    parser_consume_identifier_like "Expected field name or number after '.'" ;;
    let! name := prev_lexeme in
    let! type_args := call_type_arguments_ahead in
    let! call := parser_match TOKEN_LPAREN in
    if call : bool then
      let! args := list_unless TOKEN_RPAREN arg in
      parser_consume TOKEN_RPAREN ("Expected ')' after "%string ++ what ++ "method arguments") ;;
      ret (if names_type object then EXPR_CALL (EXPR_FIELD_ACCESS object name) args (default [] type_args)
           else EXPR_CALL (EXPR_IDENTIFIER name) (object :: args) (default [] type_args))
    else ret (EXPR_FIELD_ACCESS object name).

(** The loop of [parse_call] and [parse_pattern_call], which parse arguments
    with [arg] and say [what] they are in; [pending] are type arguments that
    wait for a call. *)
Fixpoint postfix_loop (fuel : nat) (what : string) (arg : M Expr) (e : Expr) (pending : list TypeNode) : M Expr :=
  match fuel with
  | O => out_of_fuel
  | S f =>
      let! type_args := call_type_arguments_ahead in
      let! t := get cur_type in
      match type_args with
      | Some ts => postfix_loop f what arg e ts
      | None =>
          match t with
          | TOKEN_LPAREN =>
              parser_advance ;;
              let! args := list_unless TOKEN_RPAREN arg in
              parser_consume TOKEN_RPAREN ("Expected ')' after "%string ++ what ++ "arguments") ;;
              postfix_loop f what arg (EXPR_CALL e args pending) []
          | TOKEN_LBRACKET =>
              parser_advance ;;
              let! index := call_expression rec in
              parser_consume TOKEN_RBRACKET ("Expected ']' after "%string ++ what ++ "index") ;;
              postfix_loop f what arg (EXPR_INDEX e index) []
          | TOKEN_DOT => parser_advance ;; let! e := parse_member what arg e in postfix_loop f what arg e []
          | TOKEN_QUESTION => parser_advance ;; postfix_loop f what arg (EXPR_TRY e) []
          | _ => ret e
          end
      end
  end.

Definition cast_suffix (e : Expr) : M Expr :=
  let! b := parser_match TOKEN_AS in
  if b : bool then let! t := parse_type in ret (EXPR_CAST e t) else ret e.

Definition prefix_operators : list TokenType := [TOKEN_MINUS; TOKEN_NOT; TOKEN_BIT_NOT].

(** A loop over operators of one level, which associate to the left. *)
Fixpoint operator_loop (fuel : nat) (ops : list TokenType) (operand : M Expr) (e : Expr) : M Expr :=
  match fuel with
  | O => out_of_fuel
  | S f =>
      let! op := match_any ops in
      match op with
      | Some op => let! rhs := operand in operator_loop f ops operand (expr_create_binary op e rhs)
      | None => ret e
      end
  end.

Definition operator_level (ops : list TokenType) (operand : M Expr) : M Expr :=
  with_depth (let! e := operand in operator_loop n ops operand e).

(** ** Patterns *)

Fixpoint pattern_fields (fuel : nat) (names : list (list Z)) (values : list Expr) : M (list (list Z) * list Expr * bool) :=
  match fuel with
  | O => out_of_fuel
  | S f =>
      let! stop := get block_ends in
      if stop : bool then ret (names, values, false)
      else
        let! rest := parser_match TOKEN_DOT_DOT in
        if rest : bool then
          let! close := get (is_current TOKEN_RBRACE) in
          (if close : bool then ret tt else parser_error "Record pattern '..' must be the last entry") ;;
          ret (names, values, true)
        else
          parser_consume_identifier_like "Expected record pattern field name" ;;
          let! name := prev_lexeme in
          let! c := parser_match TOKEN_COLON in
          let! v := (if c : bool then call_pattern_or rec else ret (EXPR_IDENTIFIER name)) in
          let! more := parser_match TOKEN_COMMA in
          if more : bool then pattern_fields f (names ++ [name]) (values ++ [v]) else ret (names ++ [name], values ++ [v], false)
  end.

Definition parse_pattern_record_literal (explicit_type : option TypeNode) : M Expr :=
  let! (names, values, allows_rest) := pattern_fields n [] [] in
  parser_consume TOKEN_RBRACE "Expected '}' after record pattern" ;;
  ret (EXPR_RECORD_LITERAL names values explicit_type true allows_rest).

Definition parse_pattern_primary : M Expr :=
  with_depth
   (let! l := parse_literal in
    let! record := get parser_pattern_looks_like_type_qualified_record in
    let! t := get cur_type in
    match l with
    | Some e => ret e
    | None =>
        if record : bool then
          let! ty := parse_type in
          parser_consume TOKEN_LBRACE "Expected '{' after record pattern type" ;; parse_pattern_record_literal (Some ty)
        else
          match t with
          | TOKEN_IDENTIFIER => parser_advance ;; let! name := prev_lexeme in ret (EXPR_IDENTIFIER name)
          | TOKEN_LPAREN =>
              parser_advance ;;
              let! empty := parser_match TOKEN_RPAREN in
              if empty : bool then ret (EXPR_TUPLE_LITERAL [])
              else
                let! first := call_pattern_or rec in
                let! tuple := parser_match TOKEN_COMMA in
                if tuple : bool then
                  let! es := list_of (call_pattern_or rec) in
                  parser_consume TOKEN_RPAREN "Expected ')' after tuple pattern" ;; ret (EXPR_TUPLE_LITERAL (first :: es))
                else
                  let! e := operator_loop n [TOKEN_BIT_OR] (call_pattern_or rec) first in
                  parser_consume TOKEN_RPAREN "Expected ')' after grouped pattern" ;; ret e
          | TOKEN_LBRACE => parser_advance ;; parse_pattern_record_literal None
          | _ => parser_error "Expected pattern" ;; ret NULL_EXPR
          end
    end).

Definition parse_pattern_call : M Expr :=
  let! e := parse_pattern_primary in postfix_loop n "pattern " (call_pattern_or rec) e [].
Definition parse_pattern_cast : M Expr := let! e := parse_pattern_call in cast_suffix e.
Definition parse_pattern_unary : M Expr :=
  let! op := match_any prefix_operators in
  match op with
  | Some op => let! operand := call_pattern_unary rec in ret (expr_create_unary op operand)
  | None => parse_pattern_cast
  end.
Definition parse_pattern_factor : M Expr := operator_level [TOKEN_STAR; TOKEN_SLASH; TOKEN_PERCENT] parse_pattern_unary.
Definition parse_pattern_term : M Expr := operator_level [TOKEN_PLUS; TOKEN_MINUS] parse_pattern_factor.
Definition parse_pattern_bit_and : M Expr := operator_level [TOKEN_BIT_AND] parse_pattern_term.
Definition parse_pattern_bit_xor : M Expr := operator_level [TOKEN_BIT_XOR] parse_pattern_bit_and.
Definition parse_pattern_comparison : M Expr := operator_level [TOKEN_LT; TOKEN_LT_EQ; TOKEN_GT; TOKEN_GT_EQ] parse_pattern_bit_xor.
Definition parse_pattern_equality : M Expr := operator_level [TOKEN_EQ_EQ; TOKEN_BANG_EQ] parse_pattern_comparison.
Definition parse_pattern_and : M Expr := operator_level [TOKEN_AND] parse_pattern_equality.
Definition parse_pattern_or : M Expr := operator_level [TOKEN_OR] parse_pattern_and.
Definition parse_pattern_list : M (list Expr) := separated n TOKEN_BIT_OR parse_pattern_or.

(** ** Choices *)

Definition parse_if_expression_branch_value : M Expr :=
  let! b := get (is_current TOKEN_LBRACE) in if b : bool then parse_block_expression else call_expression rec.

Definition parse_if_expression : M Expr :=
  parser_consume TOKEN_LPAREN "Expected '(' after 'if'" ;;
  let! c := call_expression rec in
  parser_consume TOKEN_RPAREN "Expected ')' after if expression condition" ;;
  let! t := parse_if_expression_branch_value in
  let! has_else := parser_match TOKEN_KEYWORD_ELSE in
  if negb has_else then parser_error "if expression requires an else branch" ;; ret (EXPR_IF c t EXPR_NIL)
  else
    let! nested := parser_match TOKEN_KEYWORD_IF in
    let! f := (if nested : bool then call_if_expression rec else parse_if_expression_branch_value) in
    ret (EXPR_IF c t f).

Definition parse_match_arm_value : M Expr :=
  let! b := get (fun p => is_current TOKEN_LBRACE p && parser_match_value_starts_block_expression p) in
  if b : bool then parse_block_expression else call_expression rec.

(** Copies for all but the last of [k] places. *)
Definition shared {A} (clone : A -> A) (k : nat) (a : A) : list A :=
  match k with O => [] | S m => replicate m (clone a) ++ [a] end.

Definition add_arm {A} (clone : A -> A) (ps : list Expr) (guard : Expr) (body : A) (a : arms A) : arms A :=
  let k := List.length ps in
  let grouped := (1 <? k)%nat in
  mkArms (patterns a ++ ps) (guards a ++ shared expr_clone k guard) (bodies a ++ shared clone k body)
    (group_ids a ++ replicate k (if grouped then next_group a else 0)) (if grouped then next_group a + 1 else next_group a).

(** The patterns of an arm and its guard, up to the colon. *)
Definition arm_head (message : string) : M (list Expr * Expr) :=
  let! ps := parse_pattern_list in
  let! b := parser_match TOKEN_KEYWORD_IF in
  let! guard := (if b : bool then call_expression rec else ret NULL_EXPR) in
  parser_consume TOKEN_COLON message ;; ret (ps, guard).

Fixpoint match_expression_loop (fuel : nat) (a : arms Expr) (else_expr : Expr) : M (arms Expr * Expr) :=
  match fuel with
  | O => out_of_fuel
  | S f =>
      let! stop := get block_ends in
      if stop : bool then ret (a, else_expr)
      else
        let! is_else := parser_match TOKEN_KEYWORD_ELSE in
        if is_else : bool then
          if negb (is_null else_expr) then parser_error "match expression can only contain one else branch" ;; ret (a, else_expr)
          else
            parser_consume TOKEN_COLON "Expected ':' after else in match expression" ;;
            let! e := parse_match_arm_value in
            let! comma := parser_match TOKEN_COMMA in
            let! close := get (is_current TOKEN_RBRACE) in
            (if close : bool then ret tt
             else if comma : bool then parser_error "else branch must be the last branch in match expression"
             else parser_error "Expected ',' or '}' after match expression else branch") ;;
            match_expression_loop f a e
        else
          let! (ps, guard) := arm_head "Expected ':' after match expression pattern" in
          let! v := parse_match_arm_value in
          let a := add_arm expr_clone ps guard v a in
          let! comma := parser_match TOKEN_COMMA in
          let! close := get (is_current TOKEN_RBRACE) in
          (if (comma : bool) || close then ret tt else parser_error "Expected ',' or '}' after match expression arm") ;;
          match_expression_loop f a else_expr
  end.

Definition match_subject : M Expr :=
  parser_consume TOKEN_LPAREN "Expected '(' after 'match'" ;;
  let! subject := call_expression rec in
  parser_consume TOKEN_RPAREN "Expected ')' after match subject" ;;
  parser_consume TOKEN_LBRACE "Expected '{' after match subject" ;; ret subject.

Definition parse_match_expression : M Expr :=
  let! subject := match_subject in
  let! (a, e) := match_expression_loop n (mkArms [] [] [] [] 1) NULL_EXPR in
  parser_consume TOKEN_RBRACE "Expected '}' after match expression branches" ;;
  (if (List.length (patterns a) =? 0)%nat && is_null e then parser_error "match expression requires at least one branch" else ret tt) ;;
  ret (EXPR_MATCH subject (patterns a) (guards a) (bodies a) (group_ids a) e).

(** ** Primary expressions *)

Definition record_field : M (list Z * Expr) :=
  parser_consume_identifier_like "Expected field name" ;;
  let! name := prev_lexeme in
  parser_consume TOKEN_COLON "Expected ':' after field name" ;;
  let! v := call_expression rec in ret (name, v).

Definition map_entry : M (Expr * Expr) :=
  let! k := call_expression rec in
  parser_consume TOKEN_COLON "Expected ':' after map key" ;;
  let! v := call_expression rec in ret (k, v).

(** [while (parser_match(parser, TOKEN_COMMA)) item]. *)
Definition more_items {A} (item : M A) : M (list A) :=
  let! b := parser_match TOKEN_COMMA in if b : bool then list_of item else ret [].

(** After an opening brace. *)
Definition parse_braces : M Expr :=
  let! record := get (fun p => parser_token_is_identifier_like (cur_type p)
                               && token_eqb (type (lexer_peek_token strtod (lexer p))) TOKEN_COLON) in
  let! empty := get (is_current TOKEN_RBRACE) in
  if record : bool then
    let! fields := list_of record_field in
    parser_consume TOKEN_RBRACE "Expected '}' after record fields" ;;
    ret (EXPR_RECORD_LITERAL (map fst fields) (map snd fields) None false false)
  else if empty : bool then parser_consume TOKEN_RBRACE "Expected '}'" ;; ret (EXPR_MAP_LITERAL [] [])
  else
    let! first := call_expression rec in
    let! is_map := parser_match TOKEN_COLON in
    if is_map : bool then
      let! v := call_expression rec in
      let! entries := more_items map_entry in
      parser_consume TOKEN_RBRACE "Expected '}' after map entries" ;;
      ret (EXPR_MAP_LITERAL (first :: map fst entries) (v :: map snd entries))
    else
      let! es := more_items (call_expression rec) in
      parser_consume TOKEN_RBRACE "Expected '}' after set elements" ;; ret (EXPR_SET_LITERAL (first :: es)).

(** After an opening parenthesis. *)
Definition parse_parens : M Expr :=
  let! empty := parser_match TOKEN_RPAREN in
  if empty : bool then ret (EXPR_TUPLE_LITERAL [])
  else
    let! first := call_expression rec in
    let! tuple := parser_match TOKEN_COMMA in
    if tuple : bool then
      let! es := list_of (call_expression rec) in
      parser_consume TOKEN_RPAREN "Expected ')' after tuple elements" ;; ret (EXPR_TUPLE_LITERAL (first :: es))
    else parser_consume TOKEN_RPAREN "Expected ')' after expression" ;; ret first.

Definition parse_primary : M Expr :=
  with_depth
   (let! l := parse_literal in
    let! t := get cur_type in
    match l with
    | Some e => ret e
    | None =>
        match t with
        | TOKEN_KEYWORD_FUNC => parser_advance ;; parse_func_literal false
        | TOKEN_KEYWORD_ASYNC =>
            parser_advance ;;
            let! t := get previous in
            let! b := parser_match TOKEN_KEYWORD_FUNC in
            if b : bool then
              let! e := parse_func_literal true in
              parser_error_at "Async function literals are not supported yet" (t_line t) (t_column t) ;; ret e
            else parser_error_at "Expected 'func' after 'async'" (t_line t) (t_column t) ;; ret NULL_EXPR
        | TOKEN_KEYWORD_IF => parser_advance ;; parse_if_expression
        | TOKEN_KEYWORD_MATCH => parser_advance ;; parse_match_expression
        | TOKEN_IDENTIFIER => parser_advance ;; let! name := prev_lexeme in ret (EXPR_IDENTIFIER name)
        | TOKEN_LPAREN => parser_advance ;; parse_parens
        | TOKEN_LBRACKET =>
            parser_advance ;;
            let! es := list_unless TOKEN_RBRACKET (call_expression rec) in
            parser_consume TOKEN_RBRACKET "Expected ']' after array elements" ;; ret (EXPR_ARRAY_LITERAL es)
        | TOKEN_LBRACE => parser_advance ;; parse_braces
        | _ => parser_error "Expected expression" ;; ret NULL_EXPR
        end
    end).

(** ** Expressions *)

Definition parse_call : M Expr := let! e := parse_primary in postfix_loop n "" (call_expression rec) e [].
Definition parse_cast : M Expr := let! e := parse_call in cast_suffix e.

Definition parse_unary : M Expr :=
  let! await := parser_match TOKEN_KEYWORD_AWAIT in
  if await : bool then
    let! t := get previous in
    let! async := get current_function_is_async in
    (if async : bool then ret tt else parser_error_at "await is only allowed inside async functions" (t_line t) (t_column t)) ;;
    let! operand := call_unary rec in ret (EXPR_AWAIT operand)
  else
    let! op := match_any prefix_operators in
    match op with
    | Some op => let! operand := call_unary rec in ret (expr_create_unary op operand)
    | None => parse_cast
    end.

Definition parse_factor : M Expr := operator_level [TOKEN_STAR; TOKEN_SLASH; TOKEN_PERCENT] parse_unary.
Definition parse_term : M Expr := operator_level [TOKEN_PLUS; TOKEN_MINUS] parse_factor.
Definition parse_bit_and : M Expr := operator_level [TOKEN_BIT_AND] parse_term.
Definition parse_bit_xor : M Expr := operator_level [TOKEN_BIT_XOR] parse_bit_and.
Definition parse_bit_or : M Expr := operator_level [TOKEN_BIT_OR] parse_bit_xor.
Definition parse_comparison : M Expr := operator_level [TOKEN_LT; TOKEN_LT_EQ; TOKEN_GT; TOKEN_GT_EQ] parse_bit_or.
Definition parse_equality : M Expr := operator_level [TOKEN_EQ_EQ; TOKEN_BANG_EQ] parse_comparison.
Definition parse_and : M Expr := operator_level [TOKEN_AND] parse_equality.
Definition parse_or : M Expr := operator_level [TOKEN_OR] parse_and.
Definition parse_expression : M Expr := parse_or.

(** ** Statements *)

(** [if let] and [while let]: one arm per pattern, in a group when there are several. *)
Definition let_match (subject : Expr) (ps : list Expr) (body else_branch : Stmt) : Stmt :=
  let k := List.length ps in
  STMT_MATCH subject ps (replicate k NULL_EXPR) (shared stmt_clone k body) (if (1 <? k)%nat then replicate k 1 else []) else_branch.

Definition let_head (message : string) : M (list Expr * Expr) :=
  let! ps := parse_pattern_list in
  parser_consume TOKEN_ASSIGN message ;;
  let! subject := call_expression rec in ret (ps, subject).

Definition else_clause : M Stmt :=
  let! b := parser_match TOKEN_KEYWORD_ELSE in if b : bool then call_statement rec else ret NULL_STMT.

Definition parse_if_statement : M Stmt :=
  let! is_let := parser_match TOKEN_KEYWORD_LET in
  if is_let : bool then
    let! (ps, subject) := let_head "Expected '=' after if let pattern" in
    let! t := call_statement rec in
    let! f := else_clause in
    ret (let_match subject ps t (if is_null_stmt f then STMT_BLOCK [] else f))
  else
    parser_consume TOKEN_LPAREN "Expected '(' after 'if'" ;;
    let! c := call_expression rec in
    parser_consume TOKEN_RPAREN "Expected ')' after condition" ;;
    let! t := call_statement rec in
    let! f := else_clause in ret (STMT_IF c t f).

Fixpoint match_statement_loop (fuel : nat) (a : arms Stmt) (else_branch : Stmt) : M (arms Stmt * Stmt) :=
  match fuel with
  | O => out_of_fuel
  | S f =>
      let! stop := get block_ends in
      if stop : bool then ret (a, else_branch)
      else
        let! is_else := parser_match TOKEN_KEYWORD_ELSE in
        if is_else : bool then
          if negb (is_null_stmt else_branch) then parser_error "match can only contain one else branch" ;; ret (a, else_branch)
          else
            parser_consume TOKEN_COLON "Expected ':' after else in match statement" ;;
            let! s := call_statement rec in
            let! close := get (is_current TOKEN_RBRACE) in
            (if close : bool then ret tt else parser_error "else branch must be the last branch in match statement") ;;
            match_statement_loop f a s
        else
          let! (ps, guard) := arm_head "Expected ':' after match pattern" in
          let! s := call_statement rec in
          match_statement_loop f (add_arm stmt_clone ps guard s a) else_branch
  end.

Definition parse_match_statement : M Stmt :=
  let! subject := match_subject in
  let! (a, s) := match_statement_loop n (mkArms [] [] [] [] 1) NULL_STMT in
  parser_consume TOKEN_RBRACE "Expected '}' after match branches" ;;
  (if (List.length (patterns a) =? 0)%nat && is_null_stmt s then parser_error "match statement requires at least one branch" else ret tt) ;;
  ret (STMT_MATCH subject (patterns a) (guards a) (bodies a) (group_ids a) s).

Definition parser_make_synthetic_name (prefix : string) : M (list Z) :=
  let! c := get synthetic_counter in
  update (set_counter (c + 1)) ;; ret (bytes "__" ++ bytes prefix ++ bytes "_" ++ bytes (pretty c)).

Definition parser_build_type_switch_condition (subject_name : list Z) (case_types : list TypeNode) : Expr :=
  match map (EXPR_TYPE_TEST (EXPR_IDENTIFIER subject_name)) case_types with
  | [] => NULL_EXPR
  | t :: ts => fold_left (expr_create_binary TOKEN_OR) ts t
  end.

(** One arm of [parser_lower_type_switch] around the chain of the later ones. *)
Definition lower_type_arm (subject_name : list Z) (arm : SwitchTypeArm) (branch_chain : Stmt) : Stmt :=
  let branch_body :=
    match arm_binding arm, arm_types arm with
    | Some x, [t] => STMT_BLOCK [STMT_VAR_DECL true x (Some t) (EXPR_CAST (EXPR_IDENTIFIER subject_name) t) true; arm_body arm]
    | _, _ => arm_body arm
    end in
  STMT_IF (parser_build_type_switch_condition subject_name (arm_types arm)) branch_body branch_chain.

Definition parser_lower_type_switch (subject : Expr) (type_arms : list SwitchTypeArm) (else_branch : Stmt) : M Stmt :=
  let! temp_name := parser_make_synthetic_name "switch_type_subject" in
  let temp_decl := STMT_VAR_DECL true temp_name None subject true in
  let branch_chain := fold_right (lower_type_arm temp_name) else_branch type_arms in
  ret (STMT_BLOCK (if is_null_stmt branch_chain then [temp_decl] else [temp_decl; branch_chain])).

(** The types after [case type]; the loop ends where no type can start. *)
Fixpoint case_types (fuel : nat) : M (list TypeNode) :=
  match fuel with
  | O => out_of_fuel
  | S f =>
      let! t := get cur_type in
      if negb (parser_token_can_start_type_arg t) then parser_error "Expected type after 'case type'" ;; ret []
      else
        let! ty := parse_type in
        let! more := parser_match TOKEN_COMMA in
        if more : bool then let! l := case_types f in ret (ty :: l) else ret [ty]
  end.

Definition case_binding (types : list TypeNode) : M (option (list Z)) :=
  let! b := parser_match TOKEN_AS in
  if b : bool then
    (if (List.length types =? 1)%nat then ret tt else parser_error "switch type case binding requires exactly one target type") ;;
    parser_consume TOKEN_IDENTIFIER "Expected binding name after 'as' in switch type case" ;;
    let! x := prev_lexeme in ret (Some x)
  else ret None.

Definition mixed_cases (other : bool) : M unit :=
  if other then parser_error "switch cannot mix value cases with 'case type' branches" else ret tt.

Fixpoint switch_loop (fuel : nat) (s : switch_state) : M switch_state :=
  match fuel with
  | O => out_of_fuel
  | S f =>
      let! stop := get block_ends in
      if stop : bool then ret s
      else
        let! is_default := parser_match TOKEN_KEYWORD_DEFAULT in
        if is_default : bool then
          if negb (is_null_stmt (sw_else s)) then parser_error "switch can only contain one default branch" ;; ret s
          else
            parser_consume TOKEN_COLON "Expected ':' after default in switch statement" ;;
            let! b := call_statement rec in
            let! close := get (is_current TOKEN_RBRACE) in
            (if close : bool then ret tt else parser_error "default branch must be the last branch in switch statement") ;;
            switch_loop f (mkSwitch (sw_patterns s) (sw_bodies s) (sw_type_arms s) b (saw_type_case s) (saw_value_case s))
        else
          let! is_case := parser_match TOKEN_KEYWORD_CASE in
          if negb is_case then parser_error "Expected 'case' or 'default' in switch statement" ;; ret s
          else
            let! is_type := parser_match TOKEN_KEYWORD_TYPE in
            if is_type : bool then
              mixed_cases (saw_value_case s) ;;
              let! types := case_types n in
              let! binding := case_binding types in
              parser_consume TOKEN_COLON "Expected ':' after switch type case" ;;
              let! b := call_statement rec in
              switch_loop f (mkSwitch (sw_patterns s) (sw_bodies s)
                (if saw_value_case s then sw_type_arms s else sw_type_arms s ++ [mkTypeArm types binding b]) (sw_else s) true (saw_value_case s))
            else
              mixed_cases (saw_type_case s) ;;
              let! ps := list_of (call_expression rec) in
              parser_consume TOKEN_COLON "Expected ':' after switch case pattern" ;;
              let! b := call_statement rec in
              switch_loop f
                (if saw_type_case s then mkSwitch (sw_patterns s) (sw_bodies s) (sw_type_arms s) (sw_else s) true true
                 else mkSwitch (sw_patterns s ++ ps) (sw_bodies s ++ shared stmt_clone (List.length ps) b) (sw_type_arms s) (sw_else s) false true)
  end.

Definition parse_switch_statement : M Stmt :=
  parser_consume TOKEN_LPAREN "Expected '(' after 'switch'" ;;
  let! subject := call_expression rec in
  parser_consume TOKEN_RPAREN "Expected ')' after switch subject" ;;
  parser_consume TOKEN_LBRACE "Expected '{' after switch subject" ;;
  let! s := switch_loop n (mkSwitch [] [] [] NULL_STMT false false) in
  parser_consume TOKEN_RBRACE "Expected '}' after switch branches" ;;
  (if (List.length (sw_patterns s) =? 0)%nat && (List.length (sw_type_arms s) =? 0)%nat && is_null_stmt (sw_else s)
   then parser_error "switch statement requires at least one case or default branch" else ret tt) ;;
  if saw_type_case s then parser_lower_type_switch subject (sw_type_arms s) (sw_else s)
  else ret (STMT_MATCH subject (sw_patterns s) [] (sw_bodies s) [] (sw_else s)).

Definition parse_while_statement : M Stmt :=
  let! is_let := parser_match TOKEN_KEYWORD_LET in
  if is_let : bool then
    let! (ps, subject) := let_head "Expected '=' after while let pattern" in
    let! b := call_statement rec in
    ret (STMT_WHILE (expr_create_literal_bool true) (let_match subject ps b STMT_BREAK))
  else
    parser_consume TOKEN_LPAREN "Expected '(' after 'while'" ;;
    let! c := call_expression rec in
    parser_consume TOKEN_RPAREN "Expected ')' after condition" ;;
    let! b := call_statement rec in ret (STMT_WHILE c b).

Definition parse_foreach_statement : M Stmt :=
  parser_consume TOKEN_LPAREN "Expected '(' after 'foreach'" ;;
  parser_match TOKEN_KEYWORD_VAR ;;
  parser_consume TOKEN_IDENTIFIER "Expected variable name in foreach" ;;
  let! x := prev_lexeme in
  parser_consume TOKEN_IN "Expected 'in' after variable name" ;;
  let! start := call_expression rec in
  let! is_range := parser_match TOKEN_DOT_DOT in
  let! stop := (if is_range : bool then call_expression rec else ret NULL_EXPR) in
  parser_consume TOKEN_RPAREN "Expected ')' after iterable" ;;
  let! b := call_statement rec in
  ret (if is_range : bool then STMT_FOR_RANGE x start stop b else STMT_FOREACH x start b).

Definition parse_expression_statement : M Stmt :=
  let! e := parse_expression in let! r := parser_finish_expression_statement e false in ret (fst r).

Definition parse_statement : M Stmt :=
  let! t := get cur_type in
  match t with
  | TOKEN_LBRACE => parser_advance ;; parse_block_statement
  | TOKEN_KEYWORD_IF => parser_advance ;; parse_if_statement
  | TOKEN_KEYWORD_MATCH => parser_advance ;; parse_match_statement
  | TOKEN_KEYWORD_SWITCH => parser_advance ;; parse_switch_statement
  | TOKEN_KEYWORD_WHILE => parser_advance ;; parse_while_statement
  | TOKEN_KEYWORD_FOREACH => parser_advance ;; parse_foreach_statement
  | TOKEN_KEYWORD_BREAK => parser_advance ;; parser_consume TOKEN_SEMICOLON "Expected ';' after break" ;; ret STMT_BREAK
  | TOKEN_KEYWORD_CONTINUE => parser_advance ;; parser_consume TOKEN_SEMICOLON "Expected ';' after continue" ;; ret STMT_CONTINUE
  | TOKEN_KEYWORD_DEFER =>
      parser_advance ;; let! e := parse_expression in
      parser_consume TOKEN_SEMICOLON "Expected ';' after defer" ;; ret (STMT_DEFER e)
  | TOKEN_KEYWORD_RETURN =>
      parser_advance ;; let! b := get (is_current TOKEN_SEMICOLON) in
      let! e := (if b : bool then ret NULL_EXPR else parse_expression) in
      parser_consume TOKEN_SEMICOLON "Expected ';' after return" ;; ret (STMT_RETURN e)
  | _ => parse_expression_statement
  end.

(** ** Declarations *)

(** [: type], if it is there. *)
Definition annotation : M (option TypeNode) :=
  let! b := parser_match TOKEN_COLON in if b : bool then let! t := parse_type in ret (Some t) else ret None.

Definition named (message : string) : M (list Z) := parser_consume TOKEN_IDENTIFIER message ;; prev_lexeme.

Definition parse_var_declaration (is_mutable : bool) : M Stmt :=
  let! tuple := parser_match TOKEN_LPAREN in
  if tuple : bool then
    let! names := list_unless TOKEN_RPAREN (named "Expected variable name") in
    parser_consume TOKEN_RPAREN "Expected ')' after variable list" ;;
    let! t := annotation in
    parser_consume TOKEN_ASSIGN "Expected '=' after tuple variable declaration" ;;
    let! e := parse_expression in
    parser_consume TOKEN_SEMICOLON "Expected ';' after variable declaration" ;;
    ret (STMT_VAR_TUPLE_DECL true names t e is_mutable)
  else
    let! name := named "Expected variable name" in
    let! t := annotation in
    let! b := parser_match TOKEN_ASSIGN in
    let! e := (if b : bool then parse_expression else ret NULL_EXPR) in
    (if negb is_mutable && is_null e then parser_error "Const declarations require an initializer" else ret tt) ;;
    parser_consume TOKEN_SEMICOLON "Expected ';' after variable declaration" ;;
    ret (STMT_VAR_DECL true name t e is_mutable).

Definition parse_func_declaration (is_async : bool) : M Stmt :=
  let! name := named "Expected function name" in
  let! (type_params, constraints) := parse_function_type_params in
  let! (params, types, r, body) := with_type_params type_params
   (let! (params, types, r) := parse_function_signature in
    parser_consume TOKEN_LBRACE "Expected '{' after function signature" ;;
    let! body := function_body is_async in ret (params, types, r, body)) in
  ret (STMT_FUNC_DECL true r name type_params constraints params types body is_async).

Definition parse_import_statement : M Stmt :=
  parser_consume TOKEN_STRING "Expected string path for import" ;;
  let! path := previous_string in
  parser_consume TOKEN_SEMICOLON "Expected ';' after import" ;; ret (STMT_IMPORT path).

Definition parse_type_alias_declaration : M Stmt :=
  let! name := named "Expected type alias name" in
  let! type_params := parse_declaration_type_params in
  let! t := with_type_params type_params (parser_consume TOKEN_ASSIGN "Expected '=' in type alias declaration" ;; parse_type) in
  parser_consume TOKEN_SEMICOLON "Expected ';' after type alias declaration" ;; ret (STMT_TYPE_ALIAS true name type_params t).

(** The members of a declaration up to the closing brace, each followed by a
    comma, a semicolon or the brace. *)
Fixpoint members (fuel : nat) (message : string) {A} (item : A -> M A) (acc : A) : M A :=
  match fuel with
  | O => out_of_fuel
  | S f =>
      let! stop := get block_ends in
      if stop : bool then ret acc
      else
        let! acc := item acc in
        let! sep := match_any [TOKEN_COMMA; TOKEN_SEMICOLON] in
        let! close := get (is_current TOKEN_RBRACE) in
        match sep with
        | Some _ => members f message item acc
        | None => if close : bool then members f message item acc else parser_error message ;; ret acc
        end
  end.

(** The brace that ends a declaration, and a semicolon that may follow. *)
Definition close_declaration (message : string) : M unit :=
  parser_consume TOKEN_RBRACE message ;; parser_match TOKEN_SEMICOLON ;; ret tt.

Definition parse_record_declaration : M Stmt :=
  let! name := named "Expected record name" in
  let! type_params := parse_declaration_type_params in
  let! fields := with_type_params type_params
   (parser_consume TOKEN_LBRACE "Expected '{' after record name" ;;
    members n "Expected ',' or ';' after record field"
      (fun fields : list (list Z * TypeNode) =>
         parser_consume_identifier_like "Expected field name" ;;
         let! field_name := prev_lexeme in
         parser_consume TOKEN_COLON "Expected ':' after field name" ;;
         let! t := parse_type in ret (fields ++ [(field_name, t)])) []) in
  close_declaration "Expected '}' after record fields" ;;
  ret (STMT_RECORD_DECL true name type_params (map fst fields) (map snd fields)).

Definition parse_interface_declaration : M Stmt :=
  let! name := named "Expected interface name" in
  parser_consume TOKEN_LBRACE "Expected '{' after interface name" ;;
  let! methods := members n "Expected ',' or ';' after interface method"
    (fun methods : list (list Z * TypeNode) =>
       let! method_name := named "Expected method name" in
       let! (params, types, r) := parse_function_signature in
       ret (methods ++ [(method_name, type_function r types [] [])])) [] in
  close_declaration "Expected '}' after interface methods" ;;
  ret (STMT_INTERFACE_DECL true name (map fst methods) (map snd methods)).

Definition parse_impl_declaration : M Stmt :=
  let! interface_name := named "Expected interface name" in
  parser_consume TOKEN_AS "Expected 'as' after interface name in impl declaration" ;;
  let! record_name := named "Expected record name in impl declaration" in
  let! generic := parser_match TOKEN_LBRACKET in
  (if generic : bool then
     list_of (named "Expected generic type parameter name in impl record target") ;;
     parser_consume TOKEN_RBRACKET "Expected ']' after impl record generic parameters"
   else ret tt) ;;
  parser_consume TOKEN_LBRACE "Expected '{' after impl record name" ;;
  let! methods := members n "Expected ',' or ';' after impl method mapping"
    (fun methods : list (list Z * list Z) =>
       let! method_name := named "Expected interface method name in impl declaration" in
       parser_consume TOKEN_ASSIGN "Expected '=' after interface method name in impl declaration" ;;
       let! function_name := named "Expected function name in impl declaration" in
       ret (methods ++ [(method_name, function_name)])) [] in
  close_declaration "Expected '}' after impl mappings" ;;
  ret (STMT_IMPL_DECL interface_name record_name (map fst methods) (map snd methods)).

(** One member of an enumeration; [e_next] is the value it has by default. *)
Definition enum_member (e : enum_state) : M enum_state :=
  let! name := named "Expected enum member name" in
  let! payload := parser_match TOKEN_LPAREN in
  let! types :=
    (if payload : bool then
       let! empty := parser_match TOKEN_RPAREN in
       if empty : bool then parser_error "Enum payload variant must include at least one payload type" ;; ret []
       else let! ts := list_of parse_type in parser_consume TOKEN_RPAREN "Expected ')' after enum payload types" ;; ret ts
     else ret []) in
  let! explicit := parser_match TOKEN_ASSIGN in
  let! v :=
    (if explicit : bool then
       let! negative := parser_match TOKEN_MINUS in
       parser_consume TOKEN_NUMBER_INT "Expected integer value in enum member assignment" ;;
       let! v := previous_int in
       (if (0 <? List.length types)%nat then parser_error "Enum payload variants cannot use explicit integer assignments" else ret tt) ;;
       ret (if negative : bool then - v else v)
     else ret (e_next e)) in
  if INT64_MAX <=? v then undefined
  else
    ret (mkEnum (e_names e ++ [name]) (e_values e ++ [v]) (e_payloads e ++ [types]) (v + 1)
           (e_has_payload e || payload) (e_has_explicit e || explicit)).

Definition parse_enum_declaration : M Stmt :=
  let! name := named "Expected enum name" in
  let! type_params := parse_declaration_type_params in
  let! e := with_type_params type_params
   (parser_consume TOKEN_LBRACE "Expected '{' after enum name" ;;
    members n "Expected ',' or ';' after enum member" enum_member (mkEnum [] [] [] 0 false false)) in
  close_declaration "Expected '}' after enum members" ;;
  (if e_has_payload e && e_has_explicit e
   then parser_error "Cannot mix payload variants with explicit numeric enum assignments" else ret tt) ;;
  ret (STMT_ENUM_DECL true name type_params (e_names e) (e_values e) (e_payloads e) (e_has_payload e)).

Definition parser_apply_visibility_modifier (s : Stmt) (has_modifier is_public : bool) : M Stmt :=
  if negb has_modifier || is_null_stmt s then ret s
  else
    match s with
    | STMT_VAR_DECL _ x t e m => ret (STMT_VAR_DECL is_public x t e m)
    | STMT_VAR_TUPLE_DECL _ xs t e m => ret (STMT_VAR_TUPLE_DECL is_public xs t e m)
    | STMT_FUNC_DECL _ r x tps cs ps ts b a => ret (STMT_FUNC_DECL is_public r x tps cs ps ts b a)
    | STMT_RECORD_DECL _ x tps fs ts => ret (STMT_RECORD_DECL is_public x tps fs ts)
    | STMT_INTERFACE_DECL _ x ms ts => ret (STMT_INTERFACE_DECL is_public x ms ts)
    | STMT_TYPE_ALIAS _ x tps t => ret (STMT_TYPE_ALIAS is_public x tps t)
    | STMT_ENUM_DECL _ x tps ns vs ps h => ret (STMT_ENUM_DECL is_public x tps ns vs ps h)
    | _ =>
        parser_error "Visibility modifier can only be used with var/const/type/interface/func/record/enum declarations" ;; ret s
    end.

Definition visibility : M (bool * bool) :=
  let! m := match_any [TOKEN_KEYWORD_PUBLIC; TOKEN_KEYWORD_PRIVATE] in
  match m with Some t => ret (true, token_eqb t TOKEN_KEYWORD_PUBLIC) | None => ret (false, true) end.

Definition parse_declaration : M Stmt :=
  let! (has_modifier, is_public) := visibility in
  let modified m := let! s := m in parser_apply_visibility_modifier s has_modifier is_public in
  let! t := get cur_type in
  match t with
  | TOKEN_KEYWORD_VAR => parser_advance ;; modified (parse_var_declaration true)
  | TOKEN_KEYWORD_CONST => parser_advance ;; modified (parse_var_declaration false)
  | TOKEN_KEYWORD_TYPE => parser_advance ;; modified parse_type_alias_declaration
  | TOKEN_KEYWORD_INTERFACE => parser_advance ;; modified parse_interface_declaration
  | TOKEN_KEYWORD_IMPL =>
      parser_advance ;;
      (if has_modifier : bool then parser_error "Visibility modifier cannot be used with impl declarations" else ret tt) ;;
      parse_impl_declaration
  | TOKEN_KEYWORD_ASYNC =>
      parser_advance ;;
      let! b := parser_match TOKEN_KEYWORD_FUNC in
      if negb b then parser_error "Expected 'func' after 'async'" ;; ret NULL_STMT else modified (parse_func_declaration true)
  | TOKEN_KEYWORD_FUNC => parser_advance ;; modified (parse_func_declaration false)
  | TOKEN_KEYWORD_RECORD => parser_advance ;; modified parse_record_declaration
  | TOKEN_KEYWORD_ENUM => parser_advance ;; modified parse_enum_declaration
  | TOKEN_KEYWORD_IMPORT => parser_advance ;; modified parse_import_statement
  | _ =>
      (if has_modifier : bool then parser_error "Visibility modifier must be followed by a declaration" else ret tt) ;; parse_statement
  end.

(** The loop of [parser_parse_internal]. *)
Fixpoint program_loop (fuel : nat) (statements : list Stmt) : M (list Stmt) :=
  match fuel with
  | O => out_of_fuel
  | S f =>
      let! eof := get (is_current TOKEN_EOF) in
      if eof : bool then ret statements
      else
        let! s := parse_declaration in
        let! panic := get panic_mode in
        (if panic : bool then parser_synchronize false else ret tt) ;;
        program_loop f (if is_null_stmt s then statements else statements ++ [s])
  end.
End Parsing.

(** ** All of them together *)

Definition no_calls : calls :=
  mkCalls out_of_fuel out_of_fuel out_of_fuel out_of_fuel out_of_fuel out_of_fuel out_of_fuel out_of_fuel.

(** The functions of the source with calls nested to a depth of [n]. *)
Fixpoint parsers (strtod : list Z -> option Z) (n : nat) : calls :=
  match n with
  | O => no_calls
  | S m =>
      let rec := parsers strtod m in
      mkCalls (parse_type strtod m rec) (parse_expression strtod m rec) (parse_unary strtod m rec) (parse_pattern_or strtod m rec)
        (parse_pattern_unary strtod m rec) (parse_if_expression strtod m rec) (parse_statement strtod m rec) (parse_declaration strtod m rec)
  end.

(** The program and the first error, if there was one. *)
Definition parser_parse (strtod : list Z -> option Z) (n : nat) (source : list Z) : result (list Stmt * option (list Z * Z * Z)) :=
  match program_loop strtod n (parsers strtod n) n [] (parser_init strtod source) with
  | Done statements p =>
      Done (statements, if had_error p then Some (default (bytes "Syntax error in source", 0, 0) (first_error p)) else None) p
  | Undefined => Undefined
  | OutOfFuel => OutOfFuel
  end.
