(* ===== verification/ParserComplete.v ===== *)
(** * A program parsed without error is complete

    A small program logic for parser actions, and with it: what is parsed
    while no error is recorded has no missing parts. *)

From S2P Require Import Prelude Lexer Bytecode Ast Syntax Parser.

Open Scope Z_scope.
Open Scope parser_scope.

(** ** Specifications *)

(** In panic an error has been recorded. *)
Definition panic_ok (p : Parser) : Prop := panic_mode p = true -> had_error p = true.

(** The action keeps errors recorded, and unless one is recorded at its end
    its result satisfies [Q]. *)
Definition gives {A} (m : M A) (Q : A -> Prop) : Prop :=
  forall p, panic_ok p ->
    match m p with
    | Done a p' => panic_ok p' /\ (had_error p = true -> had_error p' = true) /\ (had_error p' = false -> Q a)
    | _ => True
    end.

Lemma gives_weaken {A} (m : M A) (Q R : A -> Prop) : gives m Q -> (forall a, Q a -> R a) -> gives m R.
Proof. intros H HQ p Hp. specialize (H p Hp). destruct (m p); naive_solver. Qed.

Lemma gives_ret {A} (a : A) (Q : A -> Prop) : Q a -> gives (ret a) Q.
Proof. intros H p Hp. done. Qed.

Lemma gives_bind {A B} (m : M A) (k : A -> M B) (Q : A -> Prop) (R : B -> Prop) :
  gives m Q -> (forall a, gives (k a) (fun b => Q a -> R b)) -> gives (bind m k) R.
Proof.
  intros Hm Hk p Hp. unfold bind. specialize (Hm p Hp). destruct (m p) as [a p'| |]; [|done|done].
  destruct Hm as (Hp' & He & HQ). specialize (Hk a p' Hp'). destruct (k a p') as [b p''| |]; [|done|done].
  destruct Hk as (? & He' & HR). split_and!; [done|naive_solver|].
  intros Hn. apply HR; [done|]. apply HQ. destruct (had_error p'); [|done]. by rewrite He' in Hn.
Qed.

Lemma gives_get {A} (f : Parser -> A) : gives (get f) (fun _ => True).
Proof. intros p Hp. done. Qed.

Lemma gives_fuel {A} (Q : A -> Prop) : gives out_of_fuel Q.
Proof. intros p Hp. done. Qed.

Lemma gives_undefined {A} (Q : A -> Prop) : gives undefined Q.
Proof. intros p Hp. done. Qed.

Lemma gives_update f : (forall p, panic_mode (f p) = panic_mode p /\ had_error (f p) = had_error p) -> gives (update f) (fun _ => True).
Proof. intros H p Hp. unfold update, panic_ok in *. destruct (H p) as [-> ->]. done. Qed.

Lemma error_at_recorded m l c p : panic_ok p -> panic_ok (error_at m l c p) /\ had_error (error_at m l c p) = true.
Proof. unfold error_at, panic_ok. destruct (panic_mode p) eqn:E; naive_solver. Qed.

Lemma error_here_recorded m p : panic_ok p -> panic_ok (error_here m p) /\ had_error (error_here m p) = true.
Proof. unfold error_here. destruct (panic_mode p) eqn:E; [unfold panic_ok; naive_solver|]. intros. by apply error_at_recorded. Qed.

(** Reporting an error makes anything true. *)
Lemma gives_error s Q : gives (parser_error s) Q.
Proof. intros p Hp. destruct (error_here_recorded (bytes s) p Hp) as [? E]. cbn. rewrite E. naive_solver. Qed.

Lemma gives_error_at s l c Q : gives (parser_error_at s l c) Q.
Proof. intros p Hp. destruct (error_at_recorded (bytes s) l c p Hp) as [? E]. cbn. rewrite E. naive_solver. Qed.

Section Complete.
Context (strtod : list Z -> option Z).

Lemma advance_gives p : panic_ok p -> panic_ok (advance strtod p) /\ (had_error p = true -> had_error (advance strtod p) = true).
Proof.
  intros Hp. unfold advance. destruct (is_current TOKEN_EOF p); [done|].
  destruct (lexer_next_token strtod (lexer p)) as [t l].
  destruct (is_current _ _); [|done].
  destruct (error_here_recorded (lexeme t) (set_tokens l t (current p) p)) as [? ?]; [done|]. done.
Qed.

Lemma gives_advance : gives (parser_advance strtod) (fun _ => True).
Proof. intros p Hp. cbn. by destruct (advance_gives p Hp). Qed.

Lemma gives_consume t s : gives (parser_consume strtod t s) (fun _ => True).
Proof. intros p. unfold parser_consume. destruct (is_current t p); [apply gives_advance|apply gives_error]. Qed.

Lemma gives_consume_identifier_like s : gives (parser_consume_identifier_like strtod s) (fun _ => True).
Proof. intros p. unfold parser_consume_identifier_like. destruct (parser_token_is_identifier_like _); [apply gives_advance|apply gives_error]. Qed.

Lemma gives_match t : gives (parser_match strtod t) (fun _ => True).
Proof.
  intros p. unfold parser_match. destruct (is_current t p); [|done].
  apply gives_bind with (fun _ => True); [apply gives_advance|]. intros. by apply gives_ret.
Qed.

Lemma gives_match_any ts : gives (match_any strtod ts) (fun _ => True).
Proof.
  induction ts as [|t ts IH]; cbn; [by apply gives_ret|].
  eapply gives_bind; [apply gives_match|]. intros []; [by apply gives_ret|]. eapply gives_weaken; [apply IH|done].
Qed.

Lemma synchronize_gives f b p :
  panic_ok p -> panic_ok (synchronize strtod f b p) /\ (had_error p = true -> had_error (synchronize strtod f b p) = true).
Proof.
  revert p. induction f as [|f IH]; intros p Hp; cbn; [done|]. repeat case_match; try done.
  destruct (advance_gives p Hp) as [Ha Hb]. destruct (IH _ Ha). naive_solver.
Qed.

Lemma gives_synchronize b : gives (parser_synchronize strtod b) (fun _ => True).
Proof.
  intros p Hp. cbn -[synchronize].
  destruct (synchronize_gives (S (S (Lexer.length (lexer p)))) b (set_error (had_error p) false (first_error p) p)); [done|]. done.
Qed.

Lemma gives_with_depth m (Q : Expr -> Prop) : gives m Q -> gives (with_depth m) Q.
Proof.
  intros H. unfold with_depth. eapply gives_bind; [by apply gives_update|]. intros ?.
  eapply gives_bind; [apply gives_get|]. intros d. destruct (_ <? d).
  - eapply gives_bind; [apply (gives_error _ (fun _ => False))|]. intros. by apply gives_ret.
  - eapply gives_bind; [apply H|]. intros e. eapply gives_bind; [by apply gives_update|]. intros. apply gives_ret. naive_solver.
Qed.
End Complete.

(** ** Automation *)

Lemma gives_ret_eq {A} (a : A) : gives (ret a) (fun b => b = a).
Proof. by apply gives_ret. Qed.

Lemma gives_if {A} (b : bool) (m1 m2 : M A) (Q1 Q2 : A -> Prop) :
  gives m1 Q1 -> gives m2 Q2 -> gives (if b then m1 else m2) (fun a => if b then Q1 a else Q2 a).
Proof. by destruct b. Qed.

Lemma gives_error_false s : gives (parser_error s) (fun _ => False).
Proof. apply gives_error. Qed.
Lemma gives_error_at_false s l c : gives (parser_error_at s l c) (fun _ => False).
Proof. apply gives_error_at. Qed.
Lemma gives_fuel_false {A} : gives (@out_of_fuel A) (fun _ => False).
Proof. apply gives_fuel. Qed.
Lemma gives_undefined_false {A} : gives (@undefined A) (fun _ => False).
Proof. apply gives_undefined. Qed.

Lemma gives_error_then {A} s (k : unit -> M A) (R : unit -> A -> Prop) :
  (forall a, gives (k a) (R a)) -> gives (bind (parser_error s) k) (fun _ => False).
Proof. intros H. eapply gives_bind; [apply gives_error_false|]. intros a. eapply gives_weaken; [apply H|done]. Qed.
Lemma gives_error_at_then {A} s l c (k : unit -> M A) (R : unit -> A -> Prop) :
  (forall a, gives (k a) (R a)) -> gives (bind (parser_error_at s l c) k) (fun _ => False).
Proof. intros H. eapply gives_bind; [apply gives_error_at_false|]. intros a. eapply gives_weaken; [apply H|done]. Qed.

Create HintDb parsing.
#[export] Hint Resolve gives_get gives_fuel_false gives_undefined_false gives_error_false gives_error_at_false gives_advance gives_consume
  gives_consume_identifier_like gives_match gives_match_any gives_synchronize gives_with_depth gives_ret_eq : parsing.

Lemma all_true {A} (f : A -> bool) l : Forall (fun a => f a = true) l -> forallb f l = true.
Proof. induction 1; cbn; [done|]. by apply andb_true_iff. Qed.
Lemma all_snd {A B} (f : B -> bool) (l : list (A * B)) : Forall (fun a => f (snd a) = true) l -> forallb f (map snd l) = true.
Proof. induction 1; cbn; [done|]. by apply andb_true_iff. Qed.
Lemma all_fst {A B} (f : A -> bool) (l : list (A * B)) : Forall (fun a => f (fst a) = true) l -> forallb f (map fst l) = true.
Proof. induction 1; cbn; [done|]. by apply andb_true_iff. Qed.
Lemma all_app {A} (f : A -> bool) l1 l2 : forallb f l1 = true -> forallb f l2 = true -> forallb f (l1 ++ l2) = true.
Proof. intros. rewrite forallb_app. by apply andb_true_iff. Qed.
Lemma both_true a b : a = true -> b = true -> a && b = true.
Proof. by intros -> ->. Qed.
Lemma right_true a b : b = true -> a || b = true.
Proof. intros ->. apply orb_true_r. Qed.
#[export] Hint Resolve all_true all_snd all_fst both_true right_true : parsing.
#[export] Hint Extern 1 (forallb _ (_ ++ _) = true) => apply all_app : parsing.

(** Closes what is left at the end of an action. *)
Ltac finish1 :=
  match goal with
  | H : _ /\ _ |- _ => destruct H
  | H : False |- _ => destruct H
  | H : andb _ _ = true |- _ => apply andb_true_iff in H; destruct H
  | H : negb _ = true |- _ => apply negb_true_iff in H
  | H : negb _ = false |- _ => apply negb_false_iff in H
  | H : ?P -> _, H' : ?P |- _ => specialize (H H')
  | H : ?b = true, H' : ?b = false |- _ => congruence
  | H : true = true -> _ |- _ => specialize (H eq_refl)
  | H : True |- _ => clear H
  | |- _ /\ _ => split; intros
  | H : is_null ?e = true |- _ => destruct e; try discriminate H; clear H
  | H : is_null_stmt ?e = true |- _ => destruct e; try discriminate H; clear H
  | H : ?b = _ |- context [if ?b then _ else _] => rewrite H
  | H : ?b = _, H' : context [if ?b then _ else _] |- _ => rewrite H in H'
  | |- context [if ?b then _ else _] => destruct b eqn:?
  | H : context [if ?b then _ else _] |- _ => destruct b eqn:?
  | |- context [match ?o with Some _ => _ | None => _ end] => destruct o eqn:?
  | H : context [match ?o with Some _ => _ | None => _ end] |- _ => destruct o eqn:?
  end.
Ltac finish :=
  cbn; intros; cbn in *; subst; repeat (finish1; simplify_eq/=); eauto 5 with parsing.

(** Finds what an action gives. *)
Ltac infer :=
  match goal with
  | |- gives (if _ then _ else _) _ => eapply gives_if; [infer | infer]
  | |- gives (ret _) _ => eapply gives_ret_eq
  | |- gives (bind (parser_error _) _) _ => eapply gives_error_then; intros ?; infer
  | |- gives (bind (parser_error_at _ _ _) _) _ => eapply gives_error_at_then; intros ?; infer
  | |- gives _ _ => solve [eauto 5 with parsing]
  end.

(** One construct of an action. *)
Ltac walk1 :=
  match goal with
  | |- gives (ret _) _ => apply gives_ret; solve [finish]
  | |- gives (bind _ _) _ => eapply gives_bind; [infer | intros ?]
  | |- gives (if ?b then _ else _) _ => destruct b eqn:?
  | |- gives (match ?x with _ => _ end) _ => destruct x eqn:?
  | |- gives (let _ := _ in _) _ => intros_let
  | |- gives _ _ => eapply gives_weaken; [solve [eauto 5 with parsing] | solve [finish]]
  end
with intros_let := cbv zeta.
Ltac walk := repeat walk1.

(** ** The actions of the parser *)

Notation whole e := (complete e = true).
Notation whole_stmt s := (complete_stmt s = true).

(** What an action needs from those it calls. *)
Record calls_complete (rec : calls) : Prop := mkComplete {
  type_complete : gives (call_type rec) (fun _ => True);
  expression_complete : gives (call_expression rec) (fun e => whole e);
  unary_complete : gives (call_unary rec) (fun e => whole e);
  pattern_or_complete : gives (call_pattern_or rec) (fun e => whole e);
  pattern_unary_complete : gives (call_pattern_unary rec) (fun e => whole e);
  if_expression_complete : gives (call_if_expression rec) (fun e => whole e);
  statement_complete : gives (call_statement rec) (fun s => whole_stmt s);
  declaration_complete : gives (call_declaration rec) (fun s => whole_stmt s)
}.
#[export] Hint Resolve type_complete expression_complete unary_complete pattern_or_complete pattern_unary_complete if_expression_complete
  statement_complete declaration_complete : parsing.

Section Actions.
Context (strtod : list Z -> option Z) (n : nat) (rec : calls).
Hypothesis Hrec : calls_complete rec.

Lemma gives_separated f t {A} (item : M A) (Q : A -> Prop) : gives item Q -> gives (separated strtod f t item) (fun l => Forall Q l).
Proof.
  intros H. induction f as [|f IH]; cbn; [apply gives_fuel|].
  eapply gives_bind; [apply H|]. intros a. eapply gives_bind; [apply gives_match|]. intros [].
  - eapply gives_bind; [apply IH|]. intros l. apply gives_ret. naive_solver.
  - apply gives_ret. naive_solver.
Qed.

Lemma gives_list_of {A} (item : M A) (Q : A -> Prop) : gives item Q -> gives (list_of strtod n item) (fun l => Forall Q l).
Proof. apply gives_separated. Qed.

Lemma gives_list_unless {A} t (item : M A) (Q : A -> Prop) : gives item Q -> gives (list_unless strtod n t item) (fun l => Forall Q l).
Proof. intros H. unfold list_unless. eapply gives_bind; [apply gives_get|]. intros []; [apply gives_ret; constructor|].
  eapply gives_weaken; [by apply gives_list_of|done]. Qed.

Lemma gives_more_items {A} (item : M A) (Q : A -> Prop) : gives item Q -> gives (more_items strtod n item) (fun l => Forall Q l).
Proof. intros H. unfold more_items. eapply gives_bind; [apply gives_match|]. intros []; [|apply gives_ret; constructor].
  eapply gives_weaken; [by apply gives_list_of|done]. Qed.

Lemma gives_with_type_params {A} ts (m : M A) (Q : A -> Prop) : gives m Q -> gives (with_type_params ts m) Q.
Proof.
  intros H. unfold with_type_params. eapply gives_bind; [apply gives_get|]. intros ?. eapply gives_bind; [by apply gives_update|]. intros ?.
  eapply gives_bind; [apply H|]. intros ?. eapply gives_bind; [by apply gives_update|]. intros ?. apply gives_ret. naive_solver.
Qed.

#[local] Hint Resolve Hrec gives_separated gives_list_of gives_list_unless gives_more_items gives_with_type_params : parsing.

Lemma gives_prev_lexeme : gives prev_lexeme (fun _ => True).
Proof. apply gives_get. Qed.
#[local] Hint Resolve gives_prev_lexeme : parsing.

(** *** Types *)

Lemma gives_type_params_loop f c ns cs : gives (type_params_loop strtod rec f c ns cs) (fun _ => True).
Proof.
  revert ns cs. induction f as [|f IH]; intros; cbn [type_params_loop]; [apply gives_fuel|].
  walk1. walk1. eapply gives_bind with (fun _ => True).
  - walk1; [walk|]. apply gives_bind with (fun _ => True); [|intros; walk].
    destruct c; [|walk]. apply gives_with_type_params. walk.
  - intros [ns' cs']. walk1. walk1; [|walk]. eapply gives_weaken; [apply IH|done].
Qed.
#[local] Hint Resolve gives_type_params_loop : parsing.

Lemma gives_type_params c : gives (parse_type_params strtod n rec c) (fun _ => True).
Proof. unfold parse_type_params. walk. Qed.
#[local] Hint Resolve gives_type_params : parsing.

Lemma gives_declaration_type_params : gives (parse_declaration_type_params strtod n rec) (fun _ => True).
Proof. unfold parse_declaration_type_params. walk. Qed.
Lemma gives_function_type_params : gives (parse_function_type_params strtod n rec) (fun _ => True).
Proof. apply gives_type_params. Qed.
#[local] Hint Resolve gives_declaration_type_params gives_function_type_params : parsing.

Lemma gives_function_type : gives (parse_function_type strtod n rec) (fun _ => True).
Proof.
  unfold parse_function_type. walk1. walk1. walk1. eapply gives_weaken; [apply (gives_with_type_params _ _ (fun _ => True))|done]. walk.
Qed.
#[local] Hint Resolve gives_function_type : parsing.

Lemma gives_type_internal : gives (parse_type_internal strtod n rec) (fun _ => True).
Proof. unfold parse_type_internal. walk. Qed.
#[local] Hint Resolve gives_type_internal : parsing.

Lemma gives_nullable_suffix t : gives (nullable_suffix strtod t) (fun _ => True).
Proof. unfold nullable_suffix. walk. Qed.
#[local] Hint Resolve gives_nullable_suffix : parsing.

Lemma gives_type : gives (parse_type strtod n rec) (fun _ => True).
Proof. unfold parse_type. walk. Qed.
#[local] Hint Resolve gives_type : parsing.

Lemma gives_call_type_arguments : gives (parse_call_type_arguments strtod n rec) (fun _ => True).
Proof. unfold parse_call_type_arguments. walk. Qed.
#[local] Hint Resolve gives_call_type_arguments : parsing.

Lemma gives_call_type_arguments_ahead : gives (call_type_arguments_ahead strtod n rec) (fun _ => True).
Proof. unfold call_type_arguments_ahead. walk. Qed.
#[local] Hint Resolve gives_call_type_arguments_ahead : parsing.

(** *** Strings *)

Lemma gives_embedded src l c : gives (parse_embedded_interpolation_expr strtod rec src l c) (fun e => whole e).
Proof.
  unfold parse_embedded_interpolation_expr. destruct src; [walk|].
  assert (forall s, gives (parser_error_at s l c ;; ret NULL_EXPR) (fun e => whole e)) as Hm by (intros; walk).
  intros p Hp. pose proof (expression_complete rec Hrec (parser_init strtod (z :: src))) as H.
  unfold parser_init in *. destruct (lexer_next_token strtod _) as [t lx].
  destruct (call_expression rec _) as [e inner| |]; [|done|done].
  destruct H as (Hi & _ & H); [done|]. destruct (had_error inner) eqn:E; cbn [orb]; [apply (Hm _ p Hp)|].
  specialize (H eq_refl). destruct (_ || _); [apply (Hm _ p Hp)|done].
Qed.
#[local] Hint Resolve gives_embedded : parsing.

Lemma gives_literal_part s l c : gives (literal_part strtod s l c) (fun o => match o with Some es => forallb complete es = true | None => False end).
Proof. unfold literal_part. walk. Qed.
#[local] Hint Resolve gives_literal_part : parsing.

Lemma gives_interpolation_parts f l c seg s parts :
  gives (interpolation_parts strtod rec f l c seg s parts)
    (fun o => forallb complete parts = true -> match o with Some es => forallb complete es = true | None => False end).
Proof.
  revert seg s parts. induction f as [|f IH]; intros; cbn [interpolation_parts]; [apply gives_fuel|].
  destruct s as [|c1 s1]; [walk|]. destruct s1 as [|c2 s2]; [eapply gives_weaken; [apply IH|done]|].
  destruct (c1 =? c_backslash); [eapply gives_weaken; [apply IH|done]|].
  destruct (_ && _); [|eapply gives_weaken; [apply IH|done]].
  walk1. walk1; [|walk]. destruct (embedded_text 0 false false s2) as [text after]. destruct after; [walk|].
  walk1. walk1; [walk|]. eapply gives_weaken; [apply IH|]. cbn. intros o Ho He Hl Hp. subst.
  apply Ho, all_app, all_app; [done..|]. cbn. by rewrite He.
Qed.
#[local] Hint Resolve gives_interpolation_parts : parsing.

Lemma fold_complete op es e : whole e -> forallb complete es = true -> whole (fold_left (expr_create_binary op) es e).
Proof.
  revert e. induction es as [|x es IH]; intros e He Hes; cbn in *; [done|]. apply andb_true_iff in Hes as [Hx Hes].
  apply IH; [|done]. cbn. by rewrite He, Hx.
Qed.

Lemma gives_string t : gives (parse_string_literal_or_interpolation strtod rec t) (fun e => whole e).
Proof.
  unfold parse_string_literal_or_interpolation. walk1; [walk|]. walk1. destruct a as [[|e es]|]; [walk| |walk].
  apply gives_ret. intros H. specialize (H eq_refl). apply andb_true_iff in H as [He Hes]. by apply (fold_complete TOKEN_PLUS).
Qed.
#[local] Hint Resolve gives_string : parsing.

(** *** Blocks and functions *)

Lemma gives_assignment t v op : gives (assignment t v op) (fun s => whole t -> whole v -> whole_stmt s).
Proof. unfold assignment. walk. Qed.
#[local] Hint Resolve gives_assignment : parsing.

(** Either there is a statement or a trailing value, where one is allowed. *)
Lemma gives_finish_expression_statement e b :
  gives (parser_finish_expression_statement strtod rec e b)
    (fun r => whole e -> if is_null (snd r) then whole_stmt (fst r) else b = true /\ whole (snd r)).
Proof. unfold parser_finish_expression_statement. walk. Qed.
#[local] Hint Resolve gives_finish_expression_statement : parsing.

Lemma gives_block_loop f ss : gives (block_loop strtod rec f ss) (fun l => forallb complete_stmt ss = true -> forallb complete_stmt l = true).
Proof.
  revert ss. induction f as [|f IH]; intros; cbn [block_loop]; [apply gives_fuel|]. walk1. walk1; [walk|]. walk1. walk1.
  - walk1. eapply gives_weaken; [apply IH|finish].
  - eapply gives_weaken; [apply IH|]. cbn. intros. apply H. apply all_app; [done|]. cbn. by rewrite H0.
Qed.
#[local] Hint Resolve gives_block_loop : parsing.

Lemma gives_block_statement : gives (parse_block_statement strtod n rec) (fun s => whole_stmt s).
Proof. unfold parse_block_statement. walk. Qed.
#[local] Hint Resolve gives_block_statement : parsing.

Lemma gives_block_expression_loop f ss :
  gives (block_expression_loop strtod rec f ss)
    (fun r => forallb complete_stmt ss = true -> forallb complete_stmt (fst r) = true /\ (is_null (snd r) = false -> whole (snd r))).
Proof.
  assert (forall l s, forallb complete_stmt l = true -> whole_stmt s -> forallb complete_stmt (l ++ [s]) = true) as Hadd.
  { intros l s Hl Hs. apply all_app; [done|]. cbn. by rewrite Hs. }
  revert ss. induction f as [|f IH]; intros; cbn [block_expression_loop]; [apply gives_fuel|]. walk1. walk1. walk1; [walk|].
  walk1; [|walk1].
  1, 2: walk1; walk1; [walk|]; eapply gives_weaken; [apply IH|]; cbn; intros r Hr H1 _ _ Hss; by apply Hr, Hadd.
  walk1. walk1. destruct a2 as [s v]. walk1; [walk|]. walk1; [walk|]. eapply gives_weaken; [apply IH|]. cbn. intros r Hr H1 H2 _ _ Hss.
  apply Hr, Hadd; [done|]. specialize (H1 H2). apply negb_false_iff in Heqb2. by rewrite Heqb2 in H1.
Qed.
#[local] Hint Resolve gives_block_expression_loop : parsing.

Lemma gives_block_expression : gives (parse_block_expression strtod n rec) (fun e => whole e).
Proof. unfold parse_block_expression. walk. Qed.
#[local] Hint Resolve gives_block_expression : parsing.

Lemma gives_signature : gives (parse_function_signature strtod n rec) (fun _ => True).
Proof.
  unfold parse_function_signature. walk1. eapply gives_bind with (fun _ => True); [|intros; walk].
  eapply gives_weaken; [apply (gives_list_unless _ _ (fun _ => True))|done]. unfold signature_param. walk.
Qed.
#[local] Hint Resolve gives_signature : parsing.

Lemma gives_function_body a : gives (function_body strtod n rec a) (fun s => whole_stmt s).
Proof.
  unfold function_body. walk1. eapply gives_bind; [by apply gives_update|]. intros ?. walk1.
  eapply gives_bind; [by apply gives_update|]. intros ?. walk.
Qed.
#[local] Hint Resolve gives_function_body : parsing.

Lemma gives_func_literal a : gives (parse_func_literal strtod n rec a) (fun e => whole e).
Proof. unfold parse_func_literal. walk. Qed.
#[local] Hint Resolve gives_func_literal : parsing.

(** *** Postfix forms and operators *)

Lemma gives_previous_int : gives previous_int (fun _ => True).
Proof. unfold previous_int. walk. Qed.
Lemma gives_previous_string : gives previous_string (fun _ => True).
Proof. unfold previous_string. walk. Qed.
Lemma gives_previous_double : gives previous_double (fun _ => True).
Proof. unfold previous_double. walk. Qed.
#[local] Hint Resolve gives_previous_int gives_previous_string gives_previous_double : parsing.

Lemma gives_literal : gives (parse_literal strtod rec) (fun o => match o with Some e => whole e | None => True end).
Proof. unfold parse_literal. walk. Qed.
#[local] Hint Resolve gives_literal : parsing.

Lemma gives_member w arg o : gives arg (fun e => whole e) -> gives (parse_member strtod n rec w arg o) (fun e => whole o -> whole e).
Proof. intros Harg. unfold parse_member. walk. Qed.
#[local] Hint Resolve gives_member : parsing.

Lemma gives_postfix_loop f w arg e pending :
  gives arg (fun e => whole e) -> gives (postfix_loop strtod n rec f w arg e pending) (fun e' => whole e -> whole e').
Proof.
  intros Harg. revert e pending. induction f as [|f IH]; intros; cbn [postfix_loop]; [apply gives_fuel|]. walk1. walk1.
  destruct a as [ts|]; [eapply gives_weaken; [apply IH|finish]|].
  walk1; try solve [walk]; repeat walk1; (eapply gives_weaken; [apply IH|finish]).
Qed.
#[local] Hint Resolve gives_postfix_loop : parsing.

Lemma gives_cast_suffix e : gives (cast_suffix strtod n rec e) (fun e' => whole e -> whole e').
Proof. unfold cast_suffix. walk. Qed.
#[local] Hint Resolve gives_cast_suffix : parsing.

Lemma gives_operator_loop f ops operand e :
  gives operand (fun e => whole e) -> gives (operator_loop strtod f ops operand e) (fun e' => whole e -> whole e').
Proof.
  intros Ho. revert e. induction f as [|f IH]; intros; cbn [operator_loop]; [apply gives_fuel|]. walk1.
  destruct a; [|walk]. walk1. eapply gives_weaken; [apply IH|]. finish.
Qed.
#[local] Hint Resolve gives_operator_loop : parsing.

Lemma gives_operator_level ops operand : gives operand (fun e => whole e) -> gives (operator_level strtod n ops operand) (fun e => whole e).
Proof. intros Ho. apply gives_with_depth. walk. Qed.
#[local] Hint Resolve gives_operator_level : parsing.

(** *** Patterns *)

Lemma gives_pattern_fields f ns vs :
  gives (pattern_fields strtod rec f ns vs) (fun r => forallb complete vs = true -> forallb complete (r.1.2) = true).
Proof.
  revert ns vs. induction f as [|f IH]; intros; cbn [pattern_fields]; [apply gives_fuel|].
  walk1. walk1; [walk|]. walk1. walk1; [walk|]. walk1. walk1. walk1. walk1. walk1. walk1; [|walk].
  eapply gives_weaken; [apply IH|]. finish.
Qed.
#[local] Hint Resolve gives_pattern_fields : parsing.

Lemma gives_pattern_record t : gives (parse_pattern_record_literal strtod n rec t) (fun e => whole e).
Proof. unfold parse_pattern_record_literal. walk. Qed.
#[local] Hint Resolve gives_pattern_record : parsing.

Lemma gives_pattern_primary : gives (parse_pattern_primary strtod n rec) (fun e => whole e).
Proof. apply gives_with_depth. walk. Qed.
#[local] Hint Resolve gives_pattern_primary : parsing.

Lemma gives_pattern_call : gives (parse_pattern_call strtod n rec) (fun e => whole e).
Proof. unfold parse_pattern_call. walk. Qed.
#[local] Hint Resolve gives_pattern_call : parsing.

Lemma gives_pattern_cast : gives (parse_pattern_cast strtod n rec) (fun e => whole e).
Proof. unfold parse_pattern_cast. walk. Qed.
#[local] Hint Resolve gives_pattern_cast : parsing.

Lemma gives_pattern_unary : gives (parse_pattern_unary strtod n rec) (fun e => whole e).
Proof. unfold parse_pattern_unary. walk. Qed.

Lemma gives_pattern_or : gives (parse_pattern_or strtod n rec) (fun e => whole e).
Proof. repeat apply gives_operator_level. apply gives_pattern_unary. Qed.
#[local] Hint Resolve gives_pattern_unary gives_pattern_or : parsing.

Lemma gives_pattern_list : gives (parse_pattern_list strtod n rec) (fun l => forallb complete l = true).
Proof.
  unfold parse_pattern_list. apply gives_weaken with (fun l => Forall (fun e => whole e) l); [|intros; by apply all_true].
  exact (gives_separated _ _ _ _ gives_pattern_or).
Qed.
#[local] Hint Resolve gives_pattern_list : parsing.

(** *** Choices *)

Lemma gives_branch_value : gives (parse_if_expression_branch_value strtod n rec) (fun e => whole e).
Proof. unfold parse_if_expression_branch_value. walk. Qed.
#[local] Hint Resolve gives_branch_value : parsing.

Lemma gives_if_expression : gives (parse_if_expression strtod n rec) (fun e => whole e).
Proof. unfold parse_if_expression. walk. Qed.

Lemma gives_arm_value : gives (parse_match_arm_value strtod n rec) (fun e => whole e).
Proof. unfold parse_match_arm_value. walk. Qed.
#[local] Hint Resolve gives_if_expression gives_arm_value : parsing.

Definition guard_ok (g : Expr) : bool := is_null g || complete g.

Lemma gives_arm_head m : gives (arm_head strtod n rec m) (fun r => forallb complete (fst r) = true /\ guard_ok (snd r) = true).
Proof. unfold arm_head, guard_ok. walk. Qed.
#[local] Hint Resolve gives_arm_head : parsing.

(** The arrays of a match are complete. *)
Definition arms_ok {A} (ok : A -> bool) (a : arms A) : Prop :=
  forallb complete (patterns a) = true /\ forallb guard_ok (guards a) = true /\ forallb ok (bodies a) = true.

Lemma shared_ok {A} (ok : A -> bool) clone k a : (forall x, clone x = x) -> ok a = true -> forallb ok (shared clone k a) = true.
Proof.
  intros Hc Ha. destruct k as [|k]; [done|]. apply all_app; cbn; [|by rewrite Ha].
  rewrite Hc. induction k; cbn; [done|]. by rewrite Ha.
Qed.

Lemma add_arm_ok {A} (ok : A -> bool) clone ps g b (a : arms A) :
  (forall x, clone x = x) -> forallb complete ps = true -> guard_ok g = true -> ok b = true -> arms_ok ok a -> arms_ok ok (add_arm clone ps g b a).
Proof.
  intros Hc Hps Hg Hb (H1 & H2 & H3). unfold arms_ok, add_arm. cbn [patterns guards bodies].
  split_and!; apply all_app; try done; apply shared_ok; try done. apply expr_clone_id.
Qed.

Lemma gives_match_expression_loop f a e :
  gives (match_expression_loop strtod n rec f a e)
    (fun r => arms_ok complete a -> guard_ok e = true -> arms_ok complete (fst r) /\ guard_ok (snd r) = true).
Proof.
  revert a e. induction f as [|f IH]; intros; cbn [match_expression_loop]; [apply gives_fuel|].
  walk1. walk1; [walk|]. walk1. walk1.
  - walk1; [walk|]. do 5 walk1. eapply gives_weaken; [apply IH|]. cbn. intros r Hr _ _ _ Hv _ _ _ Ha _. apply Hr; [done|].
    unfold guard_ok. by rewrite Hv, orb_true_r.
  - walk1. destruct a2 as [ps g]. do 4 walk1. eapply gives_weaken; [apply IH|]. cbn. intros r Hr _ _ _ Hv [Hps Hg] _ _ Ha He.
    apply Hr; [|done]. apply add_arm_ok; try done. apply expr_clone_id.
Qed.
#[local] Hint Resolve gives_match_expression_loop : parsing.

Lemma gives_match_subject : gives (match_subject strtod rec) (fun e => whole e).
Proof. unfold match_subject. walk. Qed.
#[local] Hint Resolve gives_match_subject : parsing.

Lemma guards_eq l : forallb guard_ok l = forallb (fun g => is_null g || complete g) l.
Proof. done. Qed.

Lemma gives_match_expression : gives (parse_match_expression strtod n rec) (fun e => whole e).
Proof.
  unfold parse_match_expression. walk1. walk1. walk1. walk1. walk1. apply gives_ret. intros _ _ H Hs. cbn.
  destruct H as [(H1 & H2 & H3) H4]; [done..|]. unfold guard_ok in H4. cbn in *. rewrite Hs, H1, H3, H4. by rewrite <- guards_eq, H2.
Qed.
#[local] Hint Resolve gives_match_expression : parsing.

(** *** Expressions *)

Lemma gives_record_field : gives (record_field strtod rec) (fun r => complete (snd r) = true).
Proof. unfold record_field. walk. Qed.
Lemma gives_map_entry : gives (map_entry strtod rec) (fun r => complete (fst r) = true /\ complete (snd r) = true).
Proof. unfold map_entry. walk. Qed.
#[local] Hint Resolve gives_record_field gives_map_entry : parsing.

Lemma entries_complete {A B} (f : A -> bool) (g : B -> bool) (l : list (A * B)) :
  Forall (fun r => f (fst r) = true /\ g (snd r) = true) l -> forallb f (map fst l) = true /\ forallb g (map snd l) = true.
Proof. induction 1 as [|[a b] l [Ha Hb] _ [IH1 IH2]]; cbn; [done|]. cbn in *. by rewrite Ha, Hb, IH1, IH2. Qed.

Lemma gives_braces : gives (parse_braces strtod n rec) (fun e => whole e).
Proof.
  unfold parse_braces. do 2 walk1. walk1; [walk|]. walk1; [walk|]. do 2 walk1. walk1; [|walk].
  walk1. walk1. walk1. apply gives_ret. intros _ H Hv _ Hk _ _. apply entries_complete in H as [H1 H2]. cbn. by rewrite Hk, Hv, H1, H2.
Qed.
Lemma gives_parens : gives (parse_parens strtod n rec) (fun e => whole e).
Proof. unfold parse_parens. walk. Qed.
#[local] Hint Resolve gives_braces gives_parens : parsing.

Lemma gives_primary : gives (parse_primary strtod n rec) (fun e => whole e).
Proof. apply gives_with_depth. walk. Qed.
#[local] Hint Resolve gives_primary : parsing.

Lemma gives_call : gives (parse_call strtod n rec) (fun e => whole e).
Proof. unfold parse_call. walk. Qed.
#[local] Hint Resolve gives_call : parsing.

Lemma gives_cast : gives (parse_cast strtod n rec) (fun e => whole e).
Proof. unfold parse_cast. walk. Qed.
#[local] Hint Resolve gives_cast : parsing.

Lemma gives_unary : gives (parse_unary strtod n rec) (fun e => whole e).
Proof. unfold parse_unary. walk. Qed.

Lemma gives_expression : gives (parse_expression strtod n rec) (fun e => whole e).
Proof. repeat apply gives_operator_level. apply gives_unary. Qed.
#[local] Hint Resolve gives_unary gives_expression : parsing.

(** *** Statements *)

Lemma gives_let_head m : gives (let_head strtod n rec m) (fun r => forallb complete (fst r) = true /\ complete (snd r) = true).
Proof. unfold let_head. walk. Qed.
Lemma gives_else_clause : gives (else_clause strtod rec) (fun s => is_null_stmt s || complete_stmt s = true).
Proof. unfold else_clause. walk1. walk1; [|walk]. eapply gives_weaken; [eauto with parsing|]. intros s H _. by rewrite H, orb_true_r. Qed.
#[local] Hint Resolve gives_let_head gives_else_clause : parsing.

Lemma let_match_complete subject ps body f :
  whole subject -> forallb complete ps = true -> whole_stmt body -> is_null_stmt f || complete_stmt f = true -> whole_stmt (let_match subject ps body f).
Proof.
  intros Hs Hps Hb Hf. cbn. rewrite Hs, Hps, Hf. rewrite (shared_ok complete_stmt) by (done || apply stmt_clone_id).
  replace (forallb _ (replicate _ NULL_EXPR)) with true; [done|]. symmetry. apply all_true, Forall_replicate. done.
Qed.

Lemma gives_if_statement : gives (parse_if_statement strtod n rec) (fun s => whole_stmt s).
Proof.
  unfold parse_if_statement. walk1. walk1; [|walk]. walk1. destruct a0 as [ps subject]. walk1. walk1.
  apply gives_ret. intros Hf Ht [Hps Hs] _. apply let_match_complete; try done. by destruct (is_null_stmt a1) eqn:E; [|rewrite E].
Qed.

Lemma gives_match_statement_loop f a e :
  gives (match_statement_loop strtod n rec f a e)
    (fun r => arms_ok complete_stmt a -> is_null_stmt e || complete_stmt e = true ->
              arms_ok complete_stmt (fst r) /\ is_null_stmt (snd r) || complete_stmt (snd r) = true).
Proof.
  revert a e. induction f as [|f IH]; intros; cbn [match_statement_loop]; [apply gives_fuel|].
  walk1. walk1; [walk|]. walk1. walk1.
  - walk1; [walk|]. do 4 walk1. eapply gives_weaken; [apply IH|]. cbn. intros r Hr _ _ Hv _ _ _ Ha _. apply Hr; [done|].
    by rewrite Hv, orb_true_r.
  - walk1. destruct a2 as [ps g]. walk1. eapply gives_weaken; [apply IH|]. cbn. intros r Hr Hv [Hps Hg] _ _ Ha He.
    apply Hr; [|done]. apply add_arm_ok; try done. apply stmt_clone_id.
Qed.
#[local] Hint Resolve gives_match_statement_loop : parsing.

Lemma gives_match_statement : gives (parse_match_statement strtod n rec) (fun s => whole_stmt s).
Proof.
  unfold parse_match_statement. walk1. walk1. walk1. walk1. walk1. apply gives_ret. intros _ _ H Hs. cbn.
  destruct H as [(H1 & H2 & H3) H4]; [done..|]. cbn in *. rewrite Hs, H1, H3, H4. by rewrite <- guards_eq, H2.
Qed.
#[local] Hint Resolve gives_if_statement gives_match_statement : parsing.

(** A [case type] branch tests some type, and the branches found so far are complete. *)
Definition type_arm_ok (a : SwitchTypeArm) : Prop := arm_types a <> [] /\ whole_stmt (arm_body a).
Definition switch_ok (s : switch_state) : Prop :=
  forallb complete (sw_patterns s) = true /\ forallb complete_stmt (sw_bodies s) = true /\ Forall type_arm_ok (sw_type_arms s)
  /\ is_null_stmt (sw_else s) || complete_stmt (sw_else s) = true.

Lemma gives_case_types f : gives (case_types strtod n rec f) (fun l => l <> []).
Proof.
  induction f as [|f IH]; cbn [case_types]; [apply gives_fuel|]. walk1. walk1; [walk|]. walk1. walk1. walk1; [|walk].
  eapply gives_bind; [apply IH|]. intros ?. apply gives_ret. done.
Qed.
Lemma gives_case_binding ts : gives (case_binding strtod ts) (fun _ => True).
Proof. unfold case_binding. walk. Qed.
Lemma gives_mixed_cases b : gives (mixed_cases b) (fun _ => b = false).
Proof. unfold mixed_cases. walk. Qed.
#[local] Hint Resolve gives_case_types gives_case_binding gives_mixed_cases : parsing.

Lemma gives_switch_loop f s : gives (switch_loop strtod n rec f s) (fun r => switch_ok s -> switch_ok r).
Proof.
  revert s. induction f as [|f IH]; intros; cbn [switch_loop]; [apply gives_fuel|].
  walk1. walk1; [walk|]. walk1. walk1.
  - walk1; [walk|]. do 4 walk1. eapply gives_weaken; [apply IH|]. cbn. intros r Hr _ _ Hv _ _ _ (H1 & H2 & H3 & _).
    apply Hr. split_and!; [done..|]. cbn. by rewrite Hv, orb_true_r.
  - walk1. walk1; [walk|]. walk1. walk1.
    + do 5 walk1. eapply gives_weaken; [apply IH|]. cbn. intros r Hr Hb _ _ Ht Hm _ _ _ _ (H1 & H2 & H3 & H4).
      apply Hr. split_and!; [done..| |done]. cbn. rewrite Hm. apply Forall_app. split; [done|]. by repeat constructor.
    + do 4 walk1. eapply gives_weaken; [apply IH|]. cbn. intros r Hr Hb _ Hps Hm _ _ _ _ (H1 & H2 & H3 & H4).
      apply Hr. rewrite Hm. split_and!; [| |done..]; cbn; apply all_app; try done; [by apply all_true|].
      apply shared_ok; [apply stmt_clone_id|done].
Qed.
#[local] Hint Resolve gives_switch_loop : parsing.

Lemma lower_complete x arms0 e :
  Forall type_arm_ok arms0 -> is_null_stmt e || complete_stmt e = true ->
  let chain := fold_right (lower_type_arm x) e arms0 in is_null_stmt chain || complete_stmt chain = true.
Proof.
  intros H He. induction H as [|a l [Ht Hb] _ IH]; cbn [fold_right]; [done|]. cbn zeta in IH.
  set (chain := fold_right (lower_type_arm x) e l) in *. unfold lower_type_arm. cbn. rewrite IH.
  assert (whole (parser_build_type_switch_condition x (arm_types a))) as ->.
  { unfold parser_build_type_switch_condition. destruct (arm_types a) as [|t ts]; [done|]. apply fold_complete; [done|].
    by apply all_true, Forall_map, Forall_true. }
  destruct (arm_binding a); [destruct (arm_types a) as [|? [|]]|]; cbn; by rewrite Hb.
Qed.

Lemma gives_lower subject arms0 e :
  gives (parser_lower_type_switch subject arms0 e)
    (fun s => whole subject -> Forall type_arm_ok arms0 -> is_null_stmt e || complete_stmt e = true -> whole_stmt s).
Proof.
  unfold parser_lower_type_switch. apply gives_bind with (fun _ => True).
  { unfold parser_make_synthetic_name. walk1. eapply gives_bind; [by apply gives_update|]. walk. intros. walk. }
  intros x. apply gives_ret. intros _ Hs Ha He. pose proof (lower_complete x arms0 e Ha He) as Hc. cbn zeta in Hc.
  destruct (is_null_stmt (fold_right _ _ _)) eqn:E; cbn; rewrite Hs, orb_true_r; [done|]. by cbn in Hc; rewrite Hc.
Qed.
#[local] Hint Resolve gives_lower : parsing.

Lemma gives_switch_statement : gives (parse_switch_statement strtod n rec) (fun s => whole_stmt s).
Proof.
  unfold parse_switch_statement. do 7 walk1. walk1.
  - eapply gives_weaken; [apply gives_lower|]. cbn. intros s H _ _ Hsw _ _ Hs _. destruct Hsw as (H1 & H2 & H3 & H4); [|by apply H].
    split_and!; [done..|constructor|done].
  - apply gives_ret. intros _ _ Hsw _ _ Hs _. destruct Hsw as (H1 & H2 & H3 & H4); [split_and!; [done..|constructor|done]|].
    cbn. by rewrite Hs, H1, H2, H4.
Qed.

Lemma gives_while_statement : gives (parse_while_statement strtod n rec) (fun s => whole_stmt s).
Proof.
  unfold parse_while_statement. walk1. walk1; [|walk]. walk1. destruct a0 as [ps subject]. walk1.
  apply gives_ret. intros Hb [Hps Hs] _. by apply (let_match_complete subject ps a0 STMT_BREAK).
Qed.

Lemma gives_foreach_statement : gives (parse_foreach_statement strtod rec) (fun s => whole_stmt s).
Proof. unfold parse_foreach_statement. walk. Qed.

Lemma gives_expression_statement : gives (parse_expression_statement strtod n rec) (fun s => whole_stmt s).
Proof. unfold parse_expression_statement. walk. Qed.
#[local] Hint Resolve gives_switch_statement gives_while_statement gives_foreach_statement gives_expression_statement : parsing.

Lemma gives_statement : gives (parse_statement strtod n rec) (fun s => whole_stmt s).
Proof. unfold parse_statement. walk. Qed.
#[local] Hint Resolve gives_statement : parsing.

(** *** Declarations *)

Lemma gives_annotation : gives (annotation strtod n rec) (fun _ => True).
Proof. unfold annotation. walk. Qed.
Lemma gives_named m : gives (named strtod m) (fun _ => True).
Proof. unfold named. walk. Qed.
#[local] Hint Resolve gives_annotation gives_named : parsing.

Lemma gives_var_declaration m : gives (parse_var_declaration strtod n rec m) (fun s => whole_stmt s).
Proof. unfold parse_var_declaration. walk. Qed.

Lemma gives_func_declaration a : gives (parse_func_declaration strtod n rec a) (fun s => whole_stmt s).
Proof.
  unfold parse_func_declaration. walk1. walk1. destruct a1 as [tps cs]. eapply gives_bind with (fun r => whole_stmt (snd r)).
  - apply gives_with_type_params. walk.
  - intros [[[ps ts] r] b]. walk.
Qed.

Lemma gives_import_statement : gives (parse_import_statement strtod) (fun s => whole_stmt s).
Proof. unfold parse_import_statement. walk. Qed.

Lemma gives_type_alias : gives (parse_type_alias_declaration strtod n rec) (fun s => whole_stmt s).
Proof.
  unfold parse_type_alias_declaration. do 2 walk1. eapply gives_bind with (fun _ => True); [apply gives_with_type_params|intros]; walk.
Qed.

Lemma gives_members f m {A} (item : A -> M A) acc : (forall a, gives (item a) (fun _ => True)) -> gives (members strtod f m item acc) (fun _ => True).
Proof.
  intros Hi. revert acc. induction f as [|f IH]; intros; cbn [members]; [apply gives_fuel|]. walk1. walk1; [walk|].
  walk1. walk1. walk1. walk1; [eapply gives_weaken; [apply IH|done]|]. walk1; [eapply gives_weaken; [apply IH|done]|walk].
Qed.

Lemma gives_close_declaration m : gives (close_declaration strtod m) (fun _ => True).
Proof. unfold close_declaration. walk. Qed.
#[local] Hint Resolve gives_members gives_close_declaration : parsing.

Lemma gives_record_declaration : gives (parse_record_declaration strtod n rec) (fun s => whole_stmt s).
Proof.
  unfold parse_record_declaration. do 2 walk1. eapply gives_bind with (fun _ => True); [|intros; walk].
  apply gives_with_type_params. walk1. eapply gives_weaken; [apply gives_members|done]. intros. walk.
Qed.

Lemma gives_interface_declaration : gives (parse_interface_declaration strtod n rec) (fun s => whole_stmt s).
Proof.
  unfold parse_interface_declaration. do 2 walk1. eapply gives_bind with (fun _ => True); [|intros; walk]. apply gives_members. intros. walk.
Qed.

Lemma gives_impl_declaration : gives (parse_impl_declaration strtod n) (fun s => whole_stmt s).
Proof.
  unfold parse_impl_declaration. do 4 walk1. eapply gives_bind with (fun _ => True); [walk|intros]. walk1.
  eapply gives_bind with (fun _ => True); [|intros; walk]. apply gives_members. intros. walk.
Qed.

Lemma gives_enum_member e : gives (enum_member strtod n rec e) (fun _ => True).
Proof.
  unfold enum_member. walk1. walk1. eapply gives_bind with (fun _ => True); [walk|intros]. walk1.
  eapply gives_bind with (fun _ => True); [|intros; walk]. walk1; [|walk]. walk.
Qed.

Lemma gives_enum_declaration : gives (parse_enum_declaration strtod n rec) (fun s => whole_stmt s).
Proof.
  unfold parse_enum_declaration. do 2 walk1. eapply gives_bind with (fun _ => True); [|intros; walk].
  apply gives_with_type_params. walk1. eapply gives_weaken; [apply gives_members, gives_enum_member|done].
Qed.
#[local] Hint Resolve gives_var_declaration gives_func_declaration gives_import_statement gives_type_alias gives_record_declaration
  gives_interface_declaration gives_impl_declaration gives_enum_declaration : parsing.

Lemma gives_visibility_modifier s h b : gives (parser_apply_visibility_modifier s h b) (fun s' => whole_stmt s -> whole_stmt s').
Proof. unfold parser_apply_visibility_modifier. walk. Qed.
Lemma gives_visibility : gives (visibility strtod) (fun _ => True).
Proof. unfold visibility. walk. Qed.
#[local] Hint Resolve gives_visibility_modifier gives_visibility : parsing.

Lemma gives_declaration : gives (parse_declaration strtod n rec) (fun s => whole_stmt s).
Proof. unfold parse_declaration. walk. Qed.
#[local] Hint Resolve gives_declaration : parsing.

Lemma gives_program_loop f ss :
  gives (program_loop strtod n rec f ss) (fun l => forallb complete_stmt ss = true -> forallb complete_stmt l = true).
Proof.
  revert ss. induction f as [|f IH]; intros; cbn [program_loop]; [apply gives_fuel|]. walk1. walk1; [walk|]. do 3 walk1.
  eapply gives_weaken; [apply IH|]. cbn. intros l Hl _ _ Hs _ Hss. apply Hl. destruct (is_null_stmt _); [done|].
  apply all_app; [done|]. cbn. by rewrite Hs.
Qed.

Lemma actions_complete :
  calls_complete (mkCalls (parse_type strtod n rec) (parse_expression strtod n rec) (parse_unary strtod n rec) (parse_pattern_or strtod n rec)
    (parse_pattern_unary strtod n rec) (parse_if_expression strtod n rec) (parse_statement strtod n rec) (parse_declaration strtod n rec)).
Proof.
  constructor; cbn [call_type call_expression call_unary call_pattern_or call_pattern_unary call_if_expression call_statement call_declaration].
  - apply gives_type.
  - apply gives_expression.
  - apply gives_unary.
  - apply gives_pattern_or.
  - apply gives_pattern_unary.
  - apply gives_if_expression.
  - apply gives_statement.
  - apply gives_declaration.
Qed.
End Actions.

Lemma parsers_complete strtod n : calls_complete (parsers strtod n).
Proof. induction n as [|n IH]; [constructor; apply gives_fuel|]. by apply actions_complete. Qed.
