(* ===== verification/ParserErrors.v ===== *)
(** * Malformed sources

    What the parser does on input it rejects: a program without error is
    complete; and inputs on which the parser does not end, or reads a member
    of a token that nothing has set. *)

From Stdlib Require Import String.
From S2P Require Import Prelude Lexer Bytecode Ast Syntax Parser ParserComplete.

Open Scope Z_scope.
Open Scope parser_scope.

(** ** Actions that do nothing *)

(** The action ends with [v] and changes nothing in states that satisfy [P],
    if it ends. *)
Definition idle {A} (P : Parser -> Prop) (m : M A) (v : A) : Prop := forall p, P p -> m p = OutOfFuel \/ m p = Done v p.

Lemma idle_bind {A B} P (m : M A) (k : A -> M B) v w : idle P m v -> idle P (k v) w -> idle P (bind m k) w.
Proof. intros Hm Hk p Hp. unfold bind. destruct (Hm p Hp) as [-> | ->]; [by left|auto]. Qed.

Lemma idle_ret {A} P (v : A) : idle P (ret v) v.
Proof. intros p _. by right. Qed.

Lemma idle_get {A} (P : Parser -> Prop) (f : Parser -> A) v : (forall p, P p -> f p = v) -> idle P (get f) v.
Proof. intros H p Hp. right. unfold get. by rewrite H. Qed.

Lemma idle_weaken {A} (P P' : Parser -> Prop) (m : M A) v : (forall p, P' p -> P p) -> idle P m v -> idle P' m v.
Proof. intros H Hm p Hp. apply Hm. auto. Qed.

Lemma idle_fuel {A} P (v : A) : idle P out_of_fuel v.
Proof. intros p _. by left. Qed.

(** ** Tokens at which nothing starts or goes on *)

Definition inert (t : TokenType) : bool :=
  match t with
  | TOKEN_RPAREN | TOKEN_RBRACKET | TOKEN_SEMICOLON | TOKEN_ASSIGN | TOKEN_IN | TOKEN_DOT_DOT | TOKEN_KEYWORD_CASE
  | TOKEN_KEYWORD_DEFAULT | TOKEN_KEYWORD_LET => true
  | _ => false
  end.

(** In panic at such a token, with room for [k] levels. *)
Definition stuck (k : Z) (p : Parser) : Prop := inert (cur_type p) = true /\ panic_mode p = true /\ depth p + k <= PARSER_MAX_DEPTH.

Lemma stuck_not t p k : stuck k p -> inert t = false -> is_current t p = false.
Proof. intros [H _] Ht. unfold is_current. destruct (token_eqb_spec (cur_type p) t) as [E|]; [|done]. by rewrite E, Ht in H. Qed.

Lemma stuck_weaken k j p : j <= k -> stuck k p -> stuck j p.
Proof. intros ? (? & ? & ?). split_and!; [done..|lia]. Qed.

Lemma stuck_idle_weaken {A} k j (m : M A) v : j <= k -> idle (stuck j) m v -> idle (stuck k) m v.
Proof. intros. eapply idle_weaken; [|done]. intros. by eapply stuck_weaken. Qed.

Section Stuck.
Context (strtod : list Z -> option Z).

Lemma idle_match k t : inert t = false -> idle (stuck k) (parser_match strtod t) false.
Proof. intros Ht p Hp. right. unfold parser_match. by rewrite (stuck_not t p k). Qed.

Lemma idle_match_any k ts : forallb (fun t => negb (inert t)) ts = true -> idle (stuck k) (match_any strtod ts) None.
Proof.
  induction ts as [|t ts IH]; cbn; intros H; [apply idle_ret|]. apply andb_true_iff in H as [Ht H].
  eapply idle_bind; [apply idle_match; by destruct (inert t)|]. by apply IH.
Qed.

Lemma idle_error k s : idle (stuck k) (parser_error s) tt.
Proof. intros p (_ & Hp & _). right. unfold parser_error, update, error_here. by rewrite Hp. Qed.

Lemma idle_consume k t s : inert t = false -> idle (stuck k) (parser_consume strtod t s) tt.
Proof. intros Ht p Hp. unfold parser_consume. rewrite (stuck_not t p k) by done. by apply (idle_error k). Qed.

(** The branch for the current token. *)
Lemma idle_cases {A} k (f : TokenType -> M A) v :
  (forall t, inert t = true -> idle (stuck k) (f t) v) -> idle (stuck k) (bind (get cur_type) f) v.
Proof. intros H p Hp. cbn. apply H; [apply Hp|done]. Qed.

Lemma set_depth_back p : set_depth (depth p + 1 - 1) (set_depth (depth p + 1) p) = p.
Proof. destruct p. unfold set_depth. cbn. f_equal. lia. Qed.

Lemma idle_with_depth k m v : 0 <= k -> idle (stuck k) m v -> idle (stuck (k + 1)) (with_depth m) v.
Proof.
  intros Hk Hm p (H1 & H2 & H3). unfold with_depth, bind, update, get.
  change (depth (set_depth (depth p + 1) p)) with (depth p + 1).
  unfold PARSER_MAX_DEPTH in *. destruct (Z.ltb_spec 256 (depth p + 1)) as [|_]; [lia|].
  destruct (Hm (set_depth (depth p + 1) p)) as [-> | ->]; [|by left|].
  - split_and!; [done..|]. cbn. unfold PARSER_MAX_DEPTH. lia.
  - right. unfold ret. f_equal. apply set_depth_back.
Qed.

Lemma idle_operator_loop k f ops operand e : forallb (fun t => negb (inert t)) ops = true -> idle (stuck k) (operator_loop strtod f ops operand e) e.
Proof. intros H. destruct f; [apply idle_fuel|]. cbn [operator_loop]. eapply idle_bind; [by apply idle_match_any|]. apply idle_ret. Qed.

Lemma idle_operator_level k n ops operand e :
  forallb (fun t => negb (inert t)) ops = true -> 1 <= k -> idle (stuck (k - 1)) operand e -> idle (stuck k) (operator_level strtod n ops operand) e.
Proof.
  intros Ho Hk H. replace k with (k - 1 + 1) by lia. apply idle_with_depth; [lia|]. eapply idle_bind; [done|]. by apply idle_operator_loop.
Qed.

Context (n : nat) (rec : calls).

Lemma idle_literal k : idle (stuck k) (parse_literal strtod rec) None.
Proof. apply idle_cases. intros t Ht. destruct t; try discriminate Ht; apply idle_ret. Qed.

Lemma idle_type_arguments k : idle (stuck k) (call_type_arguments_ahead strtod n rec) None.
Proof.
  eapply idle_bind with (v := false); [|apply idle_ret]. apply idle_get. intros p Hp.
  unfold parser_can_parse_call_type_args. by rewrite (stuck_not TOKEN_LT p k).
Qed.

Lemma idle_postfix_loop k f w arg e ts : idle (stuck k) (postfix_loop strtod n rec f w arg e ts) e.
Proof.
  destruct f; [apply idle_fuel|]. cbn [postfix_loop]. eapply idle_bind; [apply idle_type_arguments|].
  apply idle_cases. intros t Ht. destruct t; try discriminate Ht; apply idle_ret.
Qed.

Lemma idle_cast_suffix k e : idle (stuck k) (cast_suffix strtod n rec e) e.
Proof. eapply idle_bind; [by apply idle_match|]. apply idle_ret. Qed.

Lemma idle_error_null k s : idle (stuck k) (parser_error s ;; ret NULL_EXPR) NULL_EXPR.
Proof. eapply idle_bind; [apply idle_error|]. apply idle_ret. Qed.

Lemma idle_primary : idle (stuck 1) (parse_primary strtod n rec) NULL_EXPR.
Proof.
  apply (idle_with_depth 0); [done|]. eapply idle_bind; [apply idle_literal|].
  apply idle_cases. intros t Ht. destruct t; try discriminate Ht; apply idle_error_null.
Qed.

Lemma idle_unary : idle (stuck 1) (parse_unary strtod n rec) NULL_EXPR.
Proof.
  eapply idle_bind; [by apply idle_match|]. eapply idle_bind; [by apply idle_match_any|].
  eapply idle_bind; [|apply idle_cast_suffix]. eapply idle_bind; [apply idle_primary|]. apply idle_postfix_loop.
Qed.

Lemma idle_expression : idle (stuck 10) (parse_expression strtod n rec) NULL_EXPR.
Proof. do 9 (apply idle_operator_level; [done|lia|]). apply idle_unary. Qed.

Lemma idle_pattern_primary : idle (stuck 1) (parse_pattern_primary strtod n rec) NULL_EXPR.
Proof.
  apply (idle_with_depth 0); [done|]. eapply idle_bind; [apply idle_literal|].
  eapply idle_bind with (v := false).
  { apply idle_get. intros p Hp. unfold parser_pattern_looks_like_type_qualified_record. by rewrite (stuck_not TOKEN_IDENTIFIER p 0). }
  apply idle_cases. intros t Ht. destruct t; try discriminate Ht; apply idle_error_null.
Qed.

Lemma idle_pattern_unary : idle (stuck 1) (parse_pattern_unary strtod n rec) NULL_EXPR.
Proof.
  eapply idle_bind; [by apply idle_match_any|].
  eapply idle_bind; [|apply idle_cast_suffix]. eapply idle_bind; [apply idle_pattern_primary|]. apply idle_postfix_loop.
Qed.

Lemma idle_pattern_or : idle (stuck 9) (parse_pattern_or strtod n rec) NULL_EXPR.
Proof. do 8 (apply idle_operator_level; [done|lia|]). apply idle_pattern_unary. Qed.

Lemma idle_separated {A} k f t (item : M A) v : inert t = false -> idle (stuck k) item v -> idle (stuck k) (separated strtod f t item) [v].
Proof.
  intros Ht H. destruct f; [apply idle_fuel|]. cbn [separated].
  eapply idle_bind; [apply H|]. eapply idle_bind; [by apply idle_match|]. apply idle_ret.
Qed.

Lemma idle_pattern_list : idle (stuck 10) (parse_pattern_list strtod n rec) [NULL_EXPR].
Proof.
  unfold parse_pattern_list. apply idle_separated; [done|]. apply (stuck_idle_weaken 10 9); [lia|]. exact idle_pattern_or.
Qed.

Lemma idle_arm_head s : idle (stuck 10) (arm_head strtod n rec s) ([NULL_EXPR], NULL_EXPR).
Proof.
  eapply idle_bind; [apply idle_pattern_list|]. eapply idle_bind; [by apply idle_match|].
  eapply idle_bind; [apply idle_ret|]. eapply idle_bind; [by apply idle_consume|]. apply idle_ret.
Qed.

Lemma idle_statement : idle (stuck 10) (parse_statement strtod n rec) NULL_STMT.
Proof.
  apply idle_cases. intros t Ht.
  assert (idle (stuck 10) (parse_expression_statement strtod n rec) NULL_STMT) as H.
  { eapply idle_bind; [apply idle_expression|]. eapply idle_bind; [apply idle_ret|]. apply idle_ret. }
  destruct t; try discriminate Ht; apply H.
Qed.
End Stuck.

(** ** The loop over the arms of a match does not end *)

Lemma bind_stuck {A B} P (m : M A) (k : A -> M B) v p : idle P m v -> P p -> k v p = OutOfFuel -> bind m k p = OutOfFuel.
Proof. intros Hm Hp Hk. unfold bind. by destruct (Hm p Hp) as [-> | ->]. Qed.

Lemma match_loop_stuck strtod n rec f : idle (stuck 10) (call_statement rec) NULL_STMT ->
  forall a p, stuck 10 p -> match_statement_loop strtod n rec f a NULL_STMT p = OutOfFuel.
Proof.
  intros Hrec. induction f as [|f IH]; intros a p Hp; [done|]. cbn [match_statement_loop].
  apply (bind_stuck (stuck 10) _ _ false); [|done|].
  { apply idle_get. intros q Hq. unfold block_ends. by rewrite !(stuck_not _ q 10). }
  apply (bind_stuck (stuck 10) _ _ false); [by apply idle_match|done|].
  eapply bind_stuck; [apply idle_arm_head|done|]. cbn beta iota. eapply bind_stuck; [apply Hrec|done|]. by apply IH.
Qed.

(** [parsers] calls the statement parser of the level below. *)
Lemma call_statement_idle strtod n : idle (stuck 10) (call_statement (parsers strtod n)) NULL_STMT.
Proof. destruct n; [apply idle_fuel|]. apply idle_statement. Qed.

Lemma done_bind {A B} (m : M A) (k : A -> M B) a p p' : m p = Done a p' -> k a p' = OutOfFuel -> bind m k p = OutOfFuel.
Proof. intros H. unfold bind. by rewrite H. Qed.

Lemma fuel_bind {A B} (m : M A) (k : A -> M B) p : m p = OutOfFuel -> bind m k p = OutOfFuel.
Proof. intros H. unfold bind. by rewrite H. Qed.

(** An arm written with an arrow instead of a colon. *)
Definition arrow_source : list Z := bytes "match (x) { 1 => 2 }".

Section Arrow.
Context (strtod : list Z -> option Z).

(** The state after [k] tokens of that source. *)
Definition arrow_at (k : nat) : Parser := Nat.iter k (advance strtod) (parser_init strtod arrow_source).

Lemma arrow_subject m :
  match_subject strtod (parsers strtod (S (S m))) (arrow_at 1) = Done (EXPR_IDENTIFIER (bytes "x")) (arrow_at 5).
Proof. vm_compute. reflexivity. Qed.

Lemma arrow_arm m rec :
  arm_head strtod (S m) rec "Expected ':' after match pattern" (arrow_at 5)
  = Done ([expr_create_literal_int 1], NULL_EXPR) (error_here (bytes "Expected ':' after match pattern") (arrow_at 6)).
Proof. vm_compute. reflexivity. Qed.

Lemma arrow_stuck : stuck 10 (error_here (bytes "Expected ':' after match pattern") (arrow_at 6)).
Proof. by vm_compute. Qed.

Lemma arrow_loop m f a :
  match_statement_loop strtod (S m) (parsers strtod (S m)) f a NULL_STMT (arrow_at 5) = OutOfFuel.
Proof.
  destruct f as [|f]; [done|]. cbn [match_statement_loop].
  apply (done_bind _ _ false _ (arrow_at 5)); [vm_compute; reflexivity|]. cbn iota.
  apply (done_bind _ _ false _ (arrow_at 5)); [vm_compute; reflexivity|]. cbn iota.
  apply (done_bind _ _ _ _ _ (arrow_arm m _)). cbn beta iota.
  eapply bind_stuck; [apply call_statement_idle|apply arrow_stuck|]. apply match_loop_stuck; [apply call_statement_idle|apply arrow_stuck].
Qed.

Lemma arrow_match m : parse_match_statement strtod (S (S m)) (parsers strtod (S (S m))) (arrow_at 1) = OutOfFuel.
Proof. apply (done_bind _ _ _ _ _ (arrow_subject m)). apply fuel_bind, arrow_loop. Qed.

Lemma arrow_declaration m : parse_declaration strtod (S (S m)) (parsers strtod (S (S m))) (arrow_at 0) = OutOfFuel.
Proof.
  unfold parse_declaration. apply (done_bind _ _ (false, true) _ (arrow_at 0)); [vm_compute; reflexivity|]. cbn beta iota.
  apply (done_bind _ _ TOKEN_KEYWORD_MATCH _ (arrow_at 0)); [vm_compute; reflexivity|]. cbn beta iota.
  apply (done_bind _ _ tt _ (arrow_at 0)); [reflexivity|]. unfold parse_statement.
  apply (done_bind _ _ TOKEN_KEYWORD_MATCH _ (arrow_at 0)); [vm_compute; reflexivity|]. cbn beta iota.
  apply (done_bind _ _ tt _ (arrow_at 1)); [reflexivity|]. apply arrow_match.
Qed.
End Arrow.

(** C40: Error recovery in a match does not always end: on a match whose first
    arm is written with an arrow, the parser loops for ever, whatever the
    fuel. The loop over the arms makes no progress at a token that starts
    neither a pattern nor a statement. *)
Theorem parser_match_hangs (strtod : list Z -> option Z) (n : nat) : parser_parse strtod n (bytes "match (x) { 1 => 2 }") = OutOfFuel.
Proof.
  unfold parser_parse. change (parser_init strtod _) with (arrow_at strtod 0).
  enough (program_loop strtod n (parsers strtod n) n [] (arrow_at strtod 0) = OutOfFuel) as H by (by rewrite H).
  destruct n as [|[|m]]; [done|vm_compute; reflexivity|]. cbn [program_loop].
  apply (done_bind _ _ false _ (arrow_at strtod 0)); [vm_compute; reflexivity|]. cbn iota. apply fuel_bind, arrow_declaration.
Qed.

(** ** Nesting *)

(** Past the limit nothing is read and the level that failed stays counted. *)
Lemma with_depth_exceeded m p :
  PARSER_MAX_DEPTH <= depth p ->
  with_depth m p = Done NULL_EXPR (error_here (bytes "Maximum recursion depth exceeded") (set_depth (depth p + 1) p)).
Proof.
  intros H. unfold with_depth, bind, update, get. change (depth (set_depth (depth p + 1) p)) with (depth p + 1).
  unfold PARSER_MAX_DEPTH in *. by destruct (Z.ltb_spec 256 (depth p + 1)); [|lia].
Qed.

Definition depth_error (p : Parser) : Parser := error_here (bytes "Maximum recursion depth exceeded") (set_depth (depth p + 1) p).

(** At a name, with fewer than [k] levels left, the action fails without reading on. *)
Definition exceeds (k : Z) (m : M Expr) : Prop :=
  forall p, cur_type p = TOKEN_IDENTIFIER -> PARSER_MAX_DEPTH < depth p + k -> m p = OutOfFuel \/ m p = Done NULL_EXPR (depth_error p).

Lemma error_here_fields m p :
  cur_type (error_here m p) = cur_type p /\ previous (error_here m p) = previous p /\ depth (error_here m p) = depth p /\
  panic_mode (error_here m p) = true.
Proof. unfold error_here, error_at. by destruct (panic_mode p) eqn:E; [|cbn; rewrite E]. Qed.

Lemma depth_error_type p : cur_type (depth_error p) = cur_type p.
Proof. apply (error_here_fields (bytes "Maximum recursion depth exceeded") (set_depth (depth p + 1) p)). Qed.

Lemma depth_error_nested p :
  set_depth (depth (depth_error (set_depth (depth p + 1) p)) - 1) (depth_error (set_depth (depth p + 1) p)) = depth_error p.
Proof.
  destruct p as [l c pr h pm fe d ts sc a]. unfold depth_error, error_here, error_at. cbn.
  destruct pm; unfold set_depth, set_error; cbn; f_equal; lia.
Qed.

Section Exceeded.
Context (strtod : list Z -> option Z).

Lemma name_match t p : cur_type p = TOKEN_IDENTIFIER -> token_eqb TOKEN_IDENTIFIER t = false -> parser_match strtod t p = Done false p.
Proof. intros Hp Ht. unfold parser_match, is_current. by rewrite Hp, Ht. Qed.

Lemma name_match_any ts p :
  cur_type p = TOKEN_IDENTIFIER -> forallb (fun t => negb (token_eqb TOKEN_IDENTIFIER t)) ts = true -> match_any strtod ts p = Done None p.
Proof.
  intros Hp. induction ts as [|t ts IH]; cbn; intros H; [done|]. apply andb_true_iff in H as [Ht H]. apply negb_true_iff in Ht.
  unfold bind. rewrite name_match by done. by apply IH.
Qed.

Lemma exceeds_with_depth k m : exceeds k m -> exceeds (k + 1) (with_depth m).
Proof.
  intros Hm p Hp Hd. destruct (Z.le_gt_cases PARSER_MAX_DEPTH (depth p)); [right; by apply with_depth_exceeded|].
  unfold with_depth, bind, update, get. change (depth (set_depth (depth p + 1) p)) with (depth p + 1).
  unfold PARSER_MAX_DEPTH in *. destruct (Z.ltb_spec 256 (depth p + 1)) as [|_]; [lia|].
  destruct (Hm (set_depth (depth p + 1) p)) as [-> | ->]; [done|unfold PARSER_MAX_DEPTH; cbn; lia|by left|].
  right. unfold ret. by rewrite depth_error_nested.
Qed.

Lemma exceeds_then k m f :
  exceeds k m -> (forall p, cur_type p = TOKEN_IDENTIFIER -> f NULL_EXPR p = OutOfFuel \/ f NULL_EXPR p = Done NULL_EXPR p) -> exceeds k (bind m f).
Proof.
  intros Hm Hf p Hp Hd. unfold bind. destruct (Hm p Hp Hd) as [-> | ->]; [by left|]. apply Hf. by rewrite depth_error_type.
Qed.

Lemma exceeds_level k n ops operand :
  forallb (fun t => negb (token_eqb TOKEN_IDENTIFIER t)) ops = true -> exceeds (k - 1) operand -> exceeds k (operator_level strtod n ops operand).
Proof.
  intros Ho H. replace k with (k - 1 + 1) by lia. apply exceeds_with_depth, exceeds_then; [done|]. intros p Hp.
  destruct n; [by left|]. right. cbn [operator_loop]. unfold bind. by rewrite name_match_any.
Qed.

Lemma exceeds_unary n rec : exceeds 1 (parse_unary strtod n rec).
Proof.
  assert (exceeds 1 (parse_cast strtod n rec)) as H.
  { unfold parse_cast, parse_call. apply exceeds_then.
    - apply exceeds_then.
      + intros p Hp Hd. right. apply with_depth_exceeded. lia.
      + intros p Hp. destruct n; [by left|]. right. cbn [postfix_loop]. unfold call_type_arguments_ahead, bind, get, parser_can_parse_call_type_args.
        unfold is_current. rewrite Hp. change (token_eqb TOKEN_IDENTIFIER TOKEN_LT) with false. cbn. by rewrite Hp.
    - intros p Hp. right. unfold cast_suffix, bind. by rewrite name_match. }
  intros p Hp Hd. enough (parse_unary strtod n rec p = parse_cast strtod n rec p) as -> by (by apply H).
  unfold parse_unary, bind at 1. rewrite name_match by done. unfold bind. by rewrite name_match_any.
Qed.

Lemma exceeds_expression n rec : exceeds 10 (parse_expression strtod n rec).
Proof. do 9 (apply exceeds_level; [done|]). apply exceeds_unary. Qed.

Lemma exceeds_declaration n rec p :
  cur_type p = TOKEN_IDENTIFIER -> PARSER_MAX_DEPTH < depth p + 10 ->
  parse_declaration strtod n rec p = OutOfFuel \/ parse_declaration strtod n rec p = Done NULL_STMT (depth_error p).
Proof.
  intros Hp Hd. assert (parse_statement strtod n rec p = parse_expression_statement strtod n rec p) as Es.
  { unfold parse_statement, bind at 1, get at 1. by rewrite Hp. }
  assert (parse_declaration strtod n rec p = parse_statement strtod n rec p) as ->.
  { unfold parse_declaration, visibility, bind at 1 2. rewrite name_match_any by done. unfold ret at 1, bind at 1, get at 1. by rewrite Hp. }
  rewrite Es. unfold parse_expression_statement, bind at 1 3. destruct (exceeds_expression n rec p Hp Hd) as [-> | ->]; [by left|by right].
Qed.
End Exceeded.

(** After 247 uncounted levels the parser loops for ever at the first name
    that follows a semicolon: each attempt to parse it fails at the limit
    without reading a token, and synchronization stops at once. *)
Theorem parser_depth_hangs (strtod : list Z -> option Z) (n : nat) (rec : calls) (f : nat) : forall (ss : list Stmt) (p : Parser),
  cur_type p = TOKEN_IDENTIFIER -> type (previous p) = TOKEN_SEMICOLON -> 247 <= depth p -> program_loop strtod n rec f ss p = OutOfFuel.
Proof.
  induction f as [|f IH]; intros ss p Hp Hs Hd; [done|]. cbn [program_loop].
  assert (is_current TOKEN_EOF p = false) as He by (unfold is_current; by rewrite Hp).
  apply (done_bind _ _ false _ p); [unfold get; by rewrite He|]. cbn iota.
  destruct (exceeds_declaration strtod n rec p Hp) as [H | H]; [unfold PARSER_MAX_DEPTH; lia|by apply fuel_bind|].
  apply (done_bind _ _ _ _ _ H). destruct (error_here_fields (bytes "Maximum recursion depth exceeded") (set_depth (depth p + 1) p)) as (E1 & E2 & E3 & E4).
  fold (depth_error p) in E1, E2, E3, E4. apply (done_bind _ _ true _ (depth_error p)); [unfold get; by rewrite E4|]. cbn iota.
  eapply done_bind; [reflexivity|]. cbn [is_null_stmt].
  set (q := set_error (had_error (depth_error p)) false (first_error (depth_error p)) (depth_error p)).
  assert (cur_type q = TOKEN_IDENTIFIER) as Hq by (change (cur_type (depth_error p) = TOKEN_IDENTIFIER); by rewrite E1).
  assert (type (previous q) = TOKEN_SEMICOLON) as Hq' by (change (type (previous (depth_error p)) = TOKEN_SEMICOLON); by rewrite E2).
  cbn [synchronize]. unfold is_current. rewrite Hq, Hq'. cbn. apply IH; [done..|].
  change (247 <= depth (depth_error p)). rewrite E3. cbn. lia.
Qed.

(** 25 parentheses need more levels than there are, and one stays counted. *)
Definition deep_source : list Z := List.repeat 40 25 ++ bytes "x;".

Lemma depth_leak strtod :
  match parser_parse strtod 40 deep_source with Done (_, e) p => depth p = 1 /\ e <> None | _ => False end.
Proof. vm_compute. split; [reflexivity|discriminate]. Qed.

(** The state of a parser in front of the name in [;x] with that many levels counted. *)
Definition worn_parser (strtod : list Z -> option Z) : Parser := set_depth 247 (advance strtod (parser_init strtod (bytes ";x"))).

Lemma parser_depth_hangs_witness :
  247 <= depth (worn_parser (fun _ => None)) /\
  program_loop (fun _ => None) 9 (parsers (fun _ => None) 9) 9 [] (worn_parser (fun _ => None)) = OutOfFuel.
Proof. split; [cbn; lia|]. apply parser_depth_hangs; [reflexivity|reflexivity|cbn; lia]. Defined.

(** ** Members that nothing has set *)

(** Three rejected declarations make the parser read what nothing has set
    or overflow an integer: an import without a string copies the text at an
    uninitialized pointer, an enumeration member with a name for a value takes
    an uninitialized integer, and the member after the largest integer is
    counted with signed overflow. *)
Theorem parser_undefined (strtod : list Z -> option Z) (n : nat) :
  parser_parse strtod (S n) (bytes "import x;") = Undefined
  /\ parser_parse strtod (S n) (bytes "enum E { A = x }") = Undefined
  /\ parser_parse strtod (S n) (bytes "enum E { A = 9223372036854775807 }") = Undefined.
Proof. split_and!; vm_compute; reflexivity. Qed.

(** ** Accepted programs *)

(** C10: A program for which the parser reports no error is complete: no node
    lacks a part that later stages follow. *)
Theorem parser_complete (strtod : list Z -> option Z) (n : nat) (source : list Z) (statements : list Stmt) (p : Parser) :
  parser_parse strtod n source = Done (statements, None) p -> forallb complete_stmt statements = true.
Proof.
  intros H. unfold parser_parse in H.
  pose proof (gives_program_loop strtod n (parsers strtod n) (parsers_complete strtod n) n [] (parser_init strtod source)) as Hg.
  destruct (program_loop _ _ _ _ _ _) as [ss p'| |]; [|discriminate H..].
  destruct Hg as (_ & _ & Hg); [unfold parser_init; by destruct (lexer_next_token _ _)|].
  destruct (had_error p') eqn:E; [discriminate H|]. injection H as <- <-. by apply Hg.
Qed.

Definition accepted_source : list Z := bytes "func f(a: int): int { if (a < 1) { return -a; } return match (a) { 1 | 2: [a], else: {k: a}[0] }; } f(3).g<int>(4);".

Lemma parser_complete_witness :
  match parser_parse (fun _ => None) 40 accepted_source with
  | Done (ss, None) _ => List.length ss = 2%nat /\ forallb complete_stmt ss = true
  | _ => False
  end.
Proof.
  destruct (parser_parse (fun _ => None) 40 accepted_source) as [[ss [e|]] p| |] eqn:E; [vm_compute in E; discriminate E| |vm_compute in E; discriminate E..].
  split; [|exact (parser_complete _ _ _ _ _ E)]. vm_compute in E. by injection E as <- <-.
Defined.
