(* ===== verification/ParserRoundTrip.v ===== *)
(** * Printing and parsing

    A printer of types and expressions into tokens, with the fewest
    parentheses the grammar needs, and the proof that the parser reads back
    what was printed. The printer models no code: it is the grammar that the
    parser is compared with. *)

From Stdlib Require Import String.
From S2P Require Import Prelude Lexer LexerSpec LexerProps Bytecode Ast Syntax Parser.

Open Scope Z_scope.
Open Scope parser_scope.

(** ** Tokens that are expected *)

(** The type of a token, with its text and its value where they matter. *)
Record item := mkItem { i_type : TokenType; i_lexeme : option (list Z); i_value : option token_value }.

Definition tok (t : TokenType) : item := mkItem t None None.
Definition word (x : list Z) : item := mkItem TOKEN_IDENTIFIER (Some x) None.
Definition number (t : TokenType) (v : token_value) : item := mkItem t None (Some v).

Definition shows (t : Token) (i : item) : Prop :=
  type t = i_type i
  /\ match i_lexeme i with Some x => lexeme t = x | None => True end
  /\ match i_value i with Some v => value t = v | None => True end.

(** Lists between commas. *)
Fixpoint commas (l : list (list item)) : list item :=
  match l with
  | [] => []
  | [x] => x
  | x :: l => x ++ tok TOKEN_COMMA :: commas l
  end.

Section Reading.
Context (strtod : list Z -> option Z).

(** The next tokens of a lexer, and of a parser. *)
Fixpoint nexts (l : Lexer) (items : list item) : Prop :=
  match items with
  | [] => True
  | i :: items => shows (fst (lexer_next_token strtod l)) i /\ nexts (snd (lexer_next_token strtod l)) items
  end.
Definition ahead (p : Parser) (items : list item) : Prop :=
  match items with
  | [] => True
  | i :: items => shows (current p) i /\ nexts (lexer p) items
  end.

(** Only tokens were read: in particular no error was recorded. *)
Definition moved (p p' : Parser) : Prop := p' = set_tokens (lexer p') (current p') (previous p') p.

Lemma moved_refl p : moved p p.
Proof. by destruct p. Qed.
Lemma moved_trans p q r : moved p q -> moved q r -> moved p r.
Proof. unfold moved. intros -> ->. done. Qed.
Lemma moved_depth p q : moved p q -> depth q = depth p.
Proof. by intros ->. Qed.
Lemma moved_type_params p q : moved p q -> active_type_params q = active_type_params p.
Proof. by intros ->. Qed.
Lemma moved_panic p q : moved p q -> panic_mode q = panic_mode p.
Proof. by intros ->. Qed.

(** The type of the first of the tokens that follow. *)
Definition starts (P : TokenType -> Prop) (items : list item) : Prop := match items with i :: _ => P (i_type i) | [] => False end.
Definition no_error (items : list item) : Prop := starts (fun t => t <> TOKEN_ERROR) items.

Lemma ahead_type p i items : ahead p (i :: items) -> cur_type p = i_type i.
Proof. by intros [[? _] _]. Qed.

Lemma advance_ahead p i items :
  ahead p (i :: items) -> i_type i <> TOKEN_EOF -> no_error items ->
  ahead (advance strtod p) items /\ moved p (advance strtod p) /\ previous (advance strtod p) = current p.
Proof.
  intros Ha Hi He. pose proof (ahead_type _ _ _ Ha) as Ht. destruct Ha as [_ Hn]. destruct items as [|j items]; [done|].
  destruct Hn as [Hj Hn]. unfold advance, is_current. rewrite Ht.
  destruct (token_eqb_spec (i_type i) TOKEN_EOF); [done|]. destruct (lexer_next_token strtod (lexer p)) as [t l] eqn:E. cbn [fst snd] in *.
  change (cur_type (set_tokens l t (current p) p)) with (type t). destruct Hj as (Hj & Hj').
  destruct (token_eqb_spec (type t) TOKEN_ERROR) as [Ee|_]; [rewrite Hj in Ee; done|]. done.
Qed.

(** The type parameters in force. *)
Context (active : list (list Z)).

(** Nothing has gone wrong, no asynchronous function is open, and [d] levels
    of nesting are left. *)
Definition ready (d : Z) (p : Parser) : Prop :=
  active_type_params p = active /\ panic_mode p = false /\ current_function_is_async p = false /\ depth p + d <= PARSER_MAX_DEPTH.

Lemma ready_moved d p q : moved p q -> ready d p -> ready d q.
Proof. by intros ->. Qed.

(** The action reads these tokens, if what follows satisfies [stop], and gives
    [a]. *)
Definition reads {A} (d : Z) (stop : list item -> Prop) (m : M A) (items : list item) (a : A) : Prop :=
  forall p rest, ahead p (items ++ rest) -> stop rest -> ready d p ->
    exists p', m p = Done a p' /\ ahead p' rest /\ moved p p'.

Lemma reads_weaken {A} d d' stop stop' (m : M A) items a :
  reads d stop m items a -> d <= d' -> (forall rest, stop' rest -> stop rest) -> reads d' stop' m items a.
Proof.
  intros H Hd Hs p rest Ha Hr (H1 & H2 & H3 & H4). apply H; [done|by apply Hs|]. split_and!; [done..|]. lia.
Qed.

Lemma parse_ret {A} d stop (a : A) : reads d stop (ret a) [] a.
Proof. intros p rest Ha _ _. exists p. split_and!; [done..|]. apply moved_refl. Qed.

Lemma parse_bind {A B} d stop1 stop (m : M A) (k : A -> M B) items1 items2 a b :
  reads d stop1 m items1 a -> reads d stop (k a) items2 b -> (forall rest, stop rest -> stop1 (items2 ++ rest)) ->
  reads d stop (bind m k) (items1 ++ items2) b.
Proof.
  intros Hm Hk Hs p rest Ha Hr Hp. rewrite <- app_assoc in Ha.
  destruct (Hm p (items2 ++ rest)) as (p1 & E1 & Ha1 & Hm1); [done|by apply Hs|done|].
  destruct (Hk p1 rest) as (p2 & E2 & Ha2 & Hm2); [done..|by eapply ready_moved|].
  exists p2. unfold bind. rewrite E1. split_and!; [done..|]. by eapply moved_trans.
Qed.

(** The form in which [parse_bind] is used. *)
Lemma reads_seq {A B} d stop1 stop (m : M A) (k : A -> M B) i items2 a b :
  reads d stop1 m [i] a -> reads d stop (k a) items2 b -> (forall rest, stop rest -> stop1 (items2 ++ rest)) ->
  reads d stop (bind m k) (i :: items2) b.
Proof. apply (parse_bind _ _ _ _ _ [i]). Qed.

Lemma reads_test {A B} d stop1 stop (m : M A) (k : A -> M B) items a b :
  reads d stop1 m [] a -> reads d stop (k a) items b -> (forall rest, stop rest -> stop1 (items ++ rest)) -> reads d stop (bind m k) items b.
Proof. apply (parse_bind _ _ _ _ _ []). Qed.

Lemma reads_advance d i : i_type i <> TOKEN_EOF -> reads d no_error (parser_advance strtod) [i] tt.
Proof. intros Hi p rest Ha Hr _. destruct (advance_ahead p i rest) as (H1 & H2 & _); [done..|]. by exists (advance strtod p). Qed.

Lemma reads_consume d t s : t <> TOKEN_EOF -> reads d no_error (parser_consume strtod t s) [tok t] tt.
Proof.
  intros Ht p rest Ha Hr Hp. unfold parser_consume, is_current. rewrite (ahead_type _ _ _ Ha). cbn [i_type tok].
  destruct (token_eqb_spec t t); [|done]. exact (reads_advance d (tok t) Ht p rest Ha Hr Hp).
Qed.

Lemma reads_match d t : t <> TOKEN_EOF -> reads d no_error (parser_match strtod t) [tok t] true.
Proof.
  intros Ht p rest Ha Hr Hp. unfold parser_match, is_current. rewrite (ahead_type _ _ _ Ha). cbn [i_type tok].
  destruct (token_eqb_spec t t); [|done]. destruct (advance_ahead p (tok t) rest) as (H1 & H2 & _); [done..|]. by exists (advance strtod p).
Qed.

Lemma reads_no_match d t : reads d (starts (fun t' => t' <> t)) (parser_match strtod t) [] false.
Proof.
  intros p [|i rest] Ha Hr Hp; [done|]. unfold parser_match, is_current. rewrite (ahead_type _ _ _ Ha).
  destruct (token_eqb_spec (i_type i) t); [done|]. exists p. split_and!; [done..|]. apply moved_refl.
Qed.

Lemma reads_type d t : reads d (starts (fun t' => t' = t)) (get cur_type) [] t.
Proof.
  intros p [|i rest] Ha Hr Hp; [done|]. exists p. unfold get. rewrite (ahead_type _ _ _ Ha), Hr. split_and!; [done..|]. apply moved_refl.
Qed.

Lemma reads_is_current d t b : reads d (starts (fun t' => token_eqb t' t = b)) (get (is_current t)) [] b.
Proof.
  intros p [|i rest] Ha Hr Hp; [done|]. exists p. unfold get, is_current. rewrite (ahead_type _ _ _ Ha), Hr. split_and!; [done..|]. apply moved_refl.
Qed.

Lemma reads_get_ready {A} d (f : Parser -> A) a : (forall p, ready d p -> f p = a) -> reads d (fun _ => True) (get f) [] a.
Proof. intros H p rest Ha _ Hp. exists p. unfold get. rewrite H by done. split_and!; [done..|]. apply moved_refl. Qed.

(** A token and then its text or its value. *)
Lemma reads_previous {A B} d stop i (f : Token -> A) (k : A -> M B) items a b :
  i_type i <> TOKEN_EOF -> (forall t, shows t i -> f t = a) -> (forall rest, stop rest -> no_error (items ++ rest)) ->
  reads d stop (k a) items b -> reads d stop (parser_advance strtod ;; let! x := get (fun p => f (previous p)) in k x) (i :: items) b.
Proof.
  intros Hi Hf Hs Hk p rest Ha Hr Hp. destruct (advance_ahead p i (items ++ rest)) as (H1 & H2 & H3); [done..|by apply Hs|].
  unfold bind at 1, parser_advance, update. unfold bind, get. rewrite H3, (Hf (current p)) by (by destruct Ha).
  destruct (Hk (advance strtod p) rest) as (p' & E & H4 & H5); [done..|by eapply ready_moved|].
  exists p'. split_and!; [done..|]. by eapply moved_trans.
Qed.

(** Between commas. *)
Lemma reads_list {A} d f (m : M A) (print : A -> list item) l stop1 stop :
  l <> [] -> (List.length l <= f)%nat ->
  (forall a, a ∈ l -> reads d stop1 m (print a) a) -> (forall a rest, a ∈ l -> no_error (print a ++ rest)) ->
  (forall rest, stop1 (tok TOKEN_COMMA :: rest)) -> (forall rest, stop rest -> stop1 rest /\ starts (fun t => t <> TOKEN_COMMA) rest) ->
  reads d stop (separated strtod f TOKEN_COMMA m) (commas (map print l)) l.
Proof.
  intros Hl Hf Hi Hn Hc Hs. revert f Hf. induction l as [|a l IH]; intros f Hf; [done|]. destruct f as [|f]; [cbn in Hf; lia|].
  cbn [separated]. destruct l as [|b l].
  - cbn [map commas]. rewrite <- (app_nil_r (print a)). eapply parse_bind; [apply Hi; set_solver| |intros rest Hr; by apply Hs].
    eapply reads_test; [apply reads_no_match|apply parse_ret|]. intros rest Hr. by apply Hs.
  - change (commas (map print (a :: b :: l))) with (print a ++ tok TOKEN_COMMA :: commas (map print (b :: l))).
    eapply parse_bind; [apply Hi; set_solver| |intros; apply Hc]. eapply reads_seq; [by apply reads_match| |].
    + rewrite <- (app_nil_r (commas _)). eapply parse_bind; [apply IH; [done|intros; apply Hi; set_solver|intros; apply Hn; set_solver|cbn in *; lia]|apply parse_ret|].
      intros rest Hr. exact Hr.
    + intros rest _. cbn [map commas]. destruct (map print l); [apply Hn; set_solver|]. rewrite <- app_assoc. apply Hn. set_solver.
Qed.

(** Type parameters that are the ones in force. *)
Lemma reads_with_params {A} d ts (m : M A) items a stop :
  ts = active -> reads d stop m items a -> reads d stop (with_type_params ts m) items a.
Proof.
  intros -> H p rest Ha Hr Hp. unfold with_type_params, bind at 1, get, bind at 1, update at 1, bind at 1.
  assert (set_type_params active p = p) as -> by (destruct Hp as [<- _]; by destruct p).
  destruct (H p rest Ha Hr Hp) as (p' & -> & H1 & H2). unfold bind, update, ret.
  assert (set_type_params (active_type_params p) p' = p') as -> by (rewrite <- (moved_type_params _ _ H2); by destruct p'). eauto.
Qed.
End Reading.

(** ** Types *)

(** The token of a type that is one token. *)
Definition simple_item (k : TypeKind) : option item :=
  match k with
  | TYPE_INT => Some (tok TOKEN_KEYWORD_INT)
  | TYPE_BOOL => Some (tok TOKEN_KEYWORD_BOOL)
  | TYPE_DOUBLE => Some (tok TOKEN_KEYWORD_DOUBLE)
  | TYPE_BIGINT => Some (tok TOKEN_KEYWORD_BIGINT)
  | TYPE_STRING => Some (tok TOKEN_KEYWORD_STRING)
  | TYPE_BYTES => Some (tok TOKEN_KEYWORD_BYTES)
  | TYPE_ANY => Some (tok TOKEN_KEYWORD_ANY)
  | TYPE_NIL => Some (tok TOKEN_KEYWORD_NIL)
  | TYPE_VOID => Some (word (bytes "void"))
  | _ => None
  end.

Definition mark (nullable : bool) : list item := if nullable then [tok TOKEN_QUESTION] else [].

Fixpoint print_type (t : TypeNode) : list item :=
  match t with
  | Simple k q => default (tok TOKEN_ERROR) (simple_item k) :: mark q
  | ArrayOf q e => tok TOKEN_KEYWORD_ARRAY :: tok TOKEN_LT :: print_type e ++ tok TOKEN_GT :: mark q
  | MapOf q k v => tok TOKEN_KEYWORD_MAP :: tok TOKEN_LT :: print_type k ++ tok TOKEN_COMMA :: print_type v ++ tok TOKEN_GT :: mark q
  | SetOf q e => tok TOKEN_KEYWORD_SET :: tok TOKEN_LT :: print_type e ++ tok TOKEN_GT :: mark q
  | TupleOf q es => tok TOKEN_LPAREN :: commas (map print_type es) ++ tok TOKEN_RPAREN :: mark q
  | FunctionOf q r ps _ _ =>
      tok TOKEN_KEYWORD_FUNC :: tok TOKEN_LPAREN :: commas (map print_type ps) ++ tok TOKEN_RPAREN :: tok TOKEN_COLON :: print_type r
  | RecordNamed q x [] => word x :: mark q
  | RecordNamed q x ps => word x :: tok TOKEN_LBRACKET :: commas (map print_type ps) ++ tok TOKEN_RBRACKET :: mark q
  | TypeParam q x => word x :: mark q
  end.

(** The types that can be written: a tuple begins with a type that is not a
    tuple, a function is not nullable, and names are not taken. *)
Fixpoint writable (active : list (list Z)) (t : TypeNode) : Prop :=
  match t with
  | Simple k _ => simple_item k <> None
  | ArrayOf _ e | SetOf _ e => writable active e
  | MapOf _ k v => writable active k /\ writable active v
  | TupleOf _ es => match es with TupleOf _ _ :: _ | [] => False | _ => True end /\ foldr and True (map (writable active) es)
  | FunctionOf q r ps ns cs => q = false /\ ns = [] /\ cs = [] /\ writable active r /\ foldr and True (map (writable active) ps)
  | RecordNamed _ x ps => x <> bytes "void" /\ x ∉ active /\ foldr and True (map (writable active) ps)
  | TypeParam _ x => x <> bytes "void" /\ x ∈ active
  end.

Definition type_stop (items : list item) : Prop :=
  starts (fun t => t <> TOKEN_QUESTION /\ t <> TOKEN_LBRACKET /\ t <> TOKEN_ERROR) items.

Lemma type_stop_error items : type_stop items -> no_error items.
Proof. destruct items; [done|]. by intros (_ & _ & ?). Qed.

(** The first token of a type. *)
Lemma type_first active t : writable active t ->
  exists i items, print_type t = i :: items
    /\ (parser_token_starts_type (i_type i) = true \/ i_type i = TOKEN_LPAREN /\ match t with TupleOf _ _ => True | _ => False end).
Proof.
  destruct t as [k q| | | | | |q x [|]|]; cbn; intros H; eauto 8. destruct (simple_item k) as [i|] eqn:E; [|done].
  exists i, (mark q). split; [done|]. left. destruct k; cbn in E; congruence || by injection E as <-.
Qed.

Lemma type_first_error active t rest : writable active t -> no_error (print_type t ++ rest).
Proof.
  intros H. destruct (type_first active t H) as (i & items & -> & [E|[E _]]); unfold no_error, starts; cbn [app]; [|by rewrite E].
  intros H'. by rewrite H' in E.
Qed.

Lemma type_first_not active t rest u : writable active t -> parser_token_starts_type u = false -> u <> TOKEN_LPAREN ->
  starts (fun t' => t' <> u) (print_type t ++ rest).
Proof.
  intros H Hu Hu'. destruct (type_first active t H) as (i & items & -> & [E|[E _]]); unfold starts; cbn [app]; [|by rewrite E].
  intros H'. by rewrite H', Hu in E.
Qed.

Lemma types_first_not active t ts rest u : writable active t -> parser_token_starts_type u = false -> u <> TOKEN_LPAREN ->
  starts (fun t' => t' <> u) (commas (map print_type (t :: ts)) ++ rest).
Proof.
  intros. destruct ts as [|t' ts]; [by eapply type_first_not|].
  change (commas (map print_type (t :: t' :: ts))) with (print_type t ++ tok TOKEN_COMMA :: commas (map print_type (t' :: ts))).
  rewrite <- app_assoc. by eapply type_first_not.
Qed.

Lemma starts_eqb u items : starts (fun t => t <> u) items -> starts (fun t => token_eqb t u = false) items.
Proof. destruct items as [|i items]; [done|]. cbn. intros H. by destruct (token_eqb_spec (i_type i) u). Qed.

Lemma foldr_in {A} (P : A -> Prop) l a : foldr and True (map P l) -> a ∈ l -> P a.
Proof. induction l as [|b l IH]; cbn; [set_solver|]. intros [Hb Hl] [->|H]%elem_of_cons; [done|]. by apply IH. Qed.

(** An element of a list is shorter than the list, and a list has at least as many tokens as elements. *)
Lemma commas_in {A} (f : A -> list item) l a : a ∈ l -> (List.length (f a) <= List.length (commas (map f l)))%nat.
Proof.
  induction l as [|b l IH]; [set_solver|]. intros [->|H]%elem_of_cons.
  - destruct l; cbn; [done|]. rewrite length_app. lia.
  - specialize (IH H). destruct l as [|c l]; [set_solver|]. change (commas (map f (b :: c :: l))) with (f b ++ tok TOKEN_COMMA :: commas (map f (c :: l))).
    rewrite length_app. cbn [List.length]. lia.
Qed.

Lemma commas_count {A} (f : A -> list item) l : (forall a, a ∈ l -> f a <> []) -> (List.length l <= List.length (commas (map f l)))%nat.
Proof.
  induction l as [|b l IH]; intros H; [cbn; lia|]. specialize (IH ltac:(intros; apply H; set_solver)).
  assert (0 < List.length (f b))%nat by (destruct (f b) eqn:E; [by destruct (H b); [set_solver|]|cbn; lia]).
  destruct l as [|c l]; [cbn; lia|]. change (commas (map f (b :: c :: l))) with (f b ++ tok TOKEN_COMMA :: commas (map f (c :: l))).
  rewrite length_app. cbn [List.length] in *. lia.
Qed.

Lemma print_type_not_nil active t : writable active t -> print_type t <> [].
Proof. intros H. by destruct (type_first active t H) as (i & items & -> & _). Qed.

Section TypeReading.
Context (strtod : list Z -> option Z) (active : list (list Z)) (d : Z) (n N : nat) (rec : calls).
Notation reads := (reads strtod active).
Hypothesis Hn : (N <= n)%nat.
Hypothesis Hrec : forall t, writable active t -> (List.length (print_type t) < N)%nat -> reads d type_stop (call_type rec) (print_type t) t.

Lemma reads_nullable q t : reads d type_stop (nullable_suffix strtod t) (mark q) (if q then set_nullable t else t).
Proof.
  unfold nullable_suffix. destruct q; cbn [mark].
  - eapply reads_seq; [by apply reads_match|apply parse_ret|]. apply type_stop_error.
  - eapply reads_test; [apply reads_no_match|apply parse_ret|]. intros [|i rest]; [done|]. by intros (? & _).
Qed.

(** A list of types between its brackets. *)
Lemma reads_types ts close stop :
  ts <> [] -> (forall t, t ∈ ts -> writable active t) -> (List.length (commas (map print_type ts)) < N)%nat ->
  (forall rest, stop rest -> starts (fun t => t = close) rest) -> match close with TOKEN_RPAREN | TOKEN_RBRACKET | TOKEN_GT => True | _ => False end ->
  reads d stop (list_of strtod n (call_type rec)) (commas (map print_type ts)) ts.
Proof.
  intros Hts Hw Hl Hs Hc. eapply reads_list with (stop1 := type_stop); [done| | | |done|].
  - pose proof (commas_count print_type ts) as H. specialize (H ltac:(intros; eapply print_type_not_nil; eauto)). lia.
  - intros t Ht. apply Hrec; [by apply Hw|]. pose proof (commas_in print_type ts t Ht). lia.
  - intros t rest Ht. eapply type_first_error, Hw, Ht.
  - intros [|i rest] Hr; [by apply Hs in Hr|]. apply Hs in Hr. cbn in *. rewrite Hr. by destruct close.
Qed.

(** What may follow a type before its question mark. *)
Definition core_stop (items : list item) : Prop := starts (fun t => t <> TOKEN_LBRACKET /\ t <> TOKEN_ERROR) items.

Lemma core_stop_mark q rest : type_stop rest -> core_stop (mark q ++ rest).
Proof. destruct q; [done|]. destruct rest; [done|]. by intros (_ & ? & ?). Qed.

Lemma core_stop_error items : core_stop items -> no_error items.
Proof. destruct items; [done|]. by intros (_ & ?). Qed.

Lemma reads_plain stop i items q t :
  i_type i <> TOKEN_LPAREN -> (forall rest, type_stop rest -> stop (mark q ++ rest)) ->
  reads d stop (parse_type_internal strtod n rec) (i :: items) t ->
  reads d type_stop (parse_type strtod n rec) (i :: items ++ mark q) (if q then set_nullable t else t).
Proof.
  intros Hi Hs H. unfold parse_type. eapply reads_test with (a := false) (stop1 := starts (fun t' => t' <> TOKEN_LPAREN)).
  - intros p [|j rest] Ha Hr Hp; [done|]. exists p. unfold get, is_current. rewrite (ahead_type _ _ _ _ Ha).
    destruct (token_eqb_spec (i_type j) TOKEN_LPAREN); [done|]. split_and!; [done..|]. apply moved_refl.
  - rewrite app_comm_cons. eapply parse_bind; [apply H|apply reads_nullable|done].
  - done.
Qed.

(** Reads the keyword that selects the branch. *)
Lemma reads_keyword {A} (f : TokenType -> M A) t items a stop :
  reads d stop (f t) (tok t :: items) a -> reads d stop (bind (get cur_type) f) (tok t :: items) a.
Proof. intros H. eapply reads_test; [apply reads_type|done|]. done. Qed.

Lemma reads_simple_core k i :
  simple_item k = Some i -> reads d core_stop (parse_type_internal strtod n rec) [i] (Simple k false).
Proof.
  intros Hk. unfold parse_type_internal.
  destruct k; cbn in Hk; try discriminate Hk; injection Hk as <-;
    try (apply reads_keyword; eapply reads_seq; [by apply reads_advance|apply parse_ret|apply core_stop_error]).
  eapply reads_test; [apply reads_type with (t := TOKEN_IDENTIFIER)| |done].
  apply (reads_previous _ _ _ _ _ lexeme) with (a := bytes "void"); [done|by intros t (_ & ? & _)|apply core_stop_error|].
  eapply reads_test; [by apply (reads_get_ready _ _ _ _ (existsb (fun t => bool_decide (t = bytes "void")) active)); intros p (<- & _)| |done].
  rewrite bool_decide_true by done. apply parse_ret.
Qed.

(** [array<t>] and [set<t>]. *)
Lemma reads_element s1 s2 e (f : TypeNode -> TypeNode) t :
  writable active e -> (List.length (print_type e) < N)%nat -> t <> TOKEN_EOF ->
  reads d core_stop (parser_advance strtod ;; parser_consume strtod TOKEN_LT s1 ;; let! x := call_type rec in parser_consume strtod TOKEN_GT s2 ;; ret (f x))
    (tok t :: tok TOKEN_LT :: print_type e ++ [tok TOKEN_GT]) (f e).
Proof.
  intros Hw Hl Ht. eapply reads_seq; [by apply reads_advance| |done]. eapply reads_seq; [by apply reads_consume| |].
  - eapply parse_bind; [by apply Hrec| |done]. eapply reads_seq; [by apply reads_consume|apply parse_ret|apply core_stop_error].
  - intros. rewrite <- app_assoc. by eapply type_first_error.
Qed.

Lemma reads_map_core k v :
  writable active k -> writable active v -> (List.length (print_type k) + List.length (print_type v) < N)%nat ->
  reads d core_stop (parse_type_internal strtod n rec)
    (tok TOKEN_KEYWORD_MAP :: tok TOKEN_LT :: print_type k ++ tok TOKEN_COMMA :: print_type v ++ [tok TOKEN_GT]) (type_map k v).
Proof.
  intros Hk Hv Hl. apply reads_keyword. eapply reads_seq; [by apply reads_advance| |done]. eapply reads_seq; [by apply reads_consume| |].
  - eapply parse_bind; [apply Hrec; [done|lia]| |done]. eapply reads_seq; [by apply reads_consume| |].
    + eapply parse_bind; [apply Hrec; [done|lia]| |done]. eapply reads_seq; [by apply reads_consume|apply parse_ret|apply core_stop_error].
    + intros. rewrite <- app_assoc. by eapply type_first_error.
  - intros. rewrite <- app_assoc. by eapply type_first_error.
Qed.

Lemma reads_record_core x ps :
  x <> bytes "void" -> x ∉ active -> (forall t, t ∈ ps -> writable active t) -> (List.length (commas (map print_type ps)) < N)%nat ->
  reads d core_stop (parse_type_internal strtod n rec)
    (word x :: match ps with [] => [] | _ => tok TOKEN_LBRACKET :: commas (map print_type ps) ++ [tok TOKEN_RBRACKET] end) (type_record x ps).
Proof.
  intros Hv Hx Hps Hl. eapply reads_test; [apply reads_type with (t := TOKEN_IDENTIFIER)| |done]. cbn beta iota.
  apply (reads_previous _ _ _ _ _ lexeme) with (a := x); [done|by intros t (_ & ? & _)|destruct ps; [apply core_stop_error|done]|].
  eapply reads_test; [apply (reads_get_ready _ _ _ _ false)| |done].
  { intros p (Hp & _). unfold parser_is_active_type_param. rewrite Hp. apply not_true_is_false. rewrite existsb_exists.
    intros (y & Hy & E). apply bool_decide_eq_true in E as ->. apply Hx. by apply list_elem_of_In. }
  rewrite bool_decide_false by done. destruct ps as [|t ps].
  - eapply reads_test; [apply reads_no_match|apply parse_ret|]. intros [|i rest]; [done|]. by intros [? _].
  - eapply reads_seq; [by apply reads_match| |].
    + eapply reads_test; [apply (reads_is_current _ _ _ TOKEN_RBRACKET false)| |].
      * eapply parse_bind; [by apply (reads_types _ TOKEN_RBRACKET (starts (fun t => t = TOKEN_RBRACKET)))| |done].
        eapply reads_seq; [by apply reads_consume|apply parse_ret|apply core_stop_error].
      * intros rest _. apply starts_eqb. rewrite <- app_assoc. apply (types_first_not active); [|done..]. apply Hps. set_solver.
    + intros rest _. rewrite <- app_assoc. apply (types_first_not active); [|done..]. apply Hps. set_solver.
Qed.

Lemma reads_param_core x :
  x <> bytes "void" -> x ∈ active -> reads d core_stop (parse_type_internal strtod n rec) [word x] (type_type_param x).
Proof.
  intros Hv Hx. eapply reads_test; [apply reads_type with (t := TOKEN_IDENTIFIER)| |done]. cbn beta iota.
  apply (reads_previous _ _ _ _ _ lexeme) with (a := x); [done|by intros t (_ & ? & _)|apply core_stop_error|].
  eapply reads_test; [apply (reads_get_ready _ _ _ _ true)| |done].
  { intros p (Hp & _). unfold parser_is_active_type_param. rewrite Hp. apply existsb_exists. exists x. split; [by apply list_elem_of_In|].
    by apply bool_decide_true. }
  rewrite bool_decide_false by done. apply parse_ret.
Qed.

(** The parameters of a function type or the elements of a tuple, which may be absent. *)
Lemma reads_types_unless ts :
  (forall t, t ∈ ts -> writable active t) -> (List.length (commas (map print_type ts)) < N)%nat ->
  reads d (starts (fun t => t = TOKEN_RPAREN)) (list_unless strtod n TOKEN_RPAREN (call_type rec)) (commas (map print_type ts)) ts.
Proof.
  intros Hts Hl. unfold list_unless. destruct ts as [|t ts].
  - eapply reads_test; [apply (reads_is_current _ _ _ TOKEN_RPAREN true)|apply parse_ret|]. intros [|i rest]; [done|]. cbn. by intros ->.
  - eapply reads_test; [apply (reads_is_current _ _ _ TOKEN_RPAREN false)|by apply (reads_types _ TOKEN_RPAREN)|].
    intros rest _. apply starts_eqb, (types_first_not active); [|done..]. apply Hts. set_solver.
Qed.

Lemma list_start ts rest :
  (forall t, t ∈ ts -> writable active t) -> no_error (commas (map print_type ts) ++ tok TOKEN_RPAREN :: rest).
Proof. intros H. destruct ts as [|t ts]; [done|]. apply (types_first_not active); [|done..]. apply H. set_solver. Qed.

Lemma reads_function_core r ps :
  writable active r -> (forall t, t ∈ ps -> writable active t) ->
  (List.length (commas (map print_type ps)) + List.length (print_type r) < N)%nat ->
  reads d type_stop (parse_type_internal strtod n rec)
    (tok TOKEN_KEYWORD_FUNC :: tok TOKEN_LPAREN :: commas (map print_type ps) ++ tok TOKEN_RPAREN :: tok TOKEN_COLON :: print_type r)
    (type_function r ps [] []).
Proof.
  intros Hr Hps Hl. apply reads_keyword. eapply reads_seq; [by apply reads_advance| |done].
  unfold parse_function_type, parse_function_type_params, parse_type_params.
  eapply reads_test; [eapply reads_test; [apply reads_no_match|apply parse_ret|]; intros rest Hx; exact Hx| |done]. cbn beta iota.
  eapply reads_test; [by apply (reads_get_ready _ _ _ _ active); intros p (? & _)| |done].
  apply reads_with_params; [apply app_nil_r|].
  eapply reads_seq; [by apply reads_consume| |intros; rewrite <- app_assoc; by apply list_start].
  eapply parse_bind; [apply reads_types_unless; [done|lia]| |done]. eapply reads_seq; [by apply reads_consume| |done].
  eapply reads_seq; [by apply reads_match| |intros; by eapply type_first_error].
  rewrite <- (app_nil_r (print_type r)). eapply parse_bind; [apply Hrec; [done|lia]|apply parse_ret|done].
Qed.

Lemma reads_tuple q es :
  match es with TupleOf _ _ :: _ | [] => False | _ => True end -> (forall t, t ∈ es -> writable active t) ->
  (List.length (commas (map print_type es)) < N)%nat ->
  reads d type_stop (parse_type strtod n rec) (print_type (TupleOf q es)) (TupleOf q es).
Proof.
  intros Hfirst Hes Hl. unfold parse_type. destruct es as [|e es]; [done|].
  eapply reads_test with (a := true)
    (stop1 := fun rest => match rest with i :: j :: _ => i_type i = TOKEN_LPAREN /\ parser_token_starts_type (i_type j) = true | _ => False end).
  - intros p [|i [|j rest]] Ha Hr Hp; [done..|]. exists p. destruct Hr as [Hi Hj]. destruct Ha as [Hi' [Hj' Hrest]].
    unfold get, is_current, cur_type. rewrite (proj1 Hi'), Hi. unfold lexer_peek_token. rewrite (proj1 Hj'), Hj.
    split_and!; [done..|]. apply moved_refl.
  - eapply reads_seq; [by apply reads_advance| |intros; rewrite <- app_assoc; by apply list_start].
    eapply parse_bind; [by apply reads_types_unless| |done]. eapply reads_seq; [by apply reads_consume| |].
    + eapply reads_test; [by apply (reads_get_ready _ _ _ _ false); intros p (_ & ? & _)| |done].
      pose proof (reads_nullable q (type_tuple (e :: es))) as H. by destruct q.
    + intros rest Hr. by apply core_stop_error, core_stop_mark.
  - intros rest _. destruct (type_first active e) as (i & its & E & [Hi|[_ Ht]]); [apply Hes; set_solver| |by destruct e].
    destruct es; cbn [print_type map commas app]; rewrite E; exact (conj eq_refl Hi).
Qed.

Lemma snoc_app {A} (l1 l2 : list A) a : l1 ++ a :: l2 = (l1 ++ [a]) ++ l2.
Proof. by rewrite <- app_assoc. Qed.

(** The same for a type whose tokens are those of [t] before the question mark. *)
Lemma reads_marked (i : item) (items : list item) (q : bool) (t t' : TypeNode) :
  i_type i <> TOKEN_LPAREN -> reads d core_stop (parse_type_internal strtod n rec) (i :: items) t -> t' = (if q then set_nullable t else t) ->
  reads d type_stop (parse_type strtod n rec) (i :: items ++ mark q) t'.
Proof. intros Hi H ->. by apply (reads_plain core_stop); [done|intros; by apply core_stop_mark|]. Qed.

(** One level: the types inside are shorter. *)
Lemma type_step t : writable active t -> (List.length (print_type t) <= N)%nat -> reads d type_stop (parse_type strtod n rec) (print_type t) t.
Proof.
  intros Hw Hl. destruct t as [k q|q e|q k v|q e|q es|q r ps ns cs|q x ps|q x]; cbn [writable] in Hw; cbn [print_type] in Hl |- *.
  - destruct (simple_item k) as [i|] eqn:E; [|done]. apply (reads_marked i [] q (Simple k false)); [|by apply reads_simple_core|by destruct q].
    destruct k; cbn in E; congruence || by injection E as <-.
  - rewrite !length_cons, length_app in Hl. rewrite (snoc_app _ (mark q)), app_comm_cons.
    apply (reads_marked _ _ q (type_array e)); [done| |by destruct q]. apply reads_keyword, reads_element; done || lia.
  - rewrite !length_cons, !length_app, !length_cons, !length_app in Hl. destruct Hw as [Hk Hv].
    rewrite (snoc_app (print_type v) (mark q)), (app_comm_cons _ _ (tok TOKEN_COMMA)), (app_assoc _ _ (mark q)), app_comm_cons.
    apply (reads_marked _ _ q (type_map k v)); [done| |by destruct q]. apply reads_map_core; done || lia.
  - rewrite !length_cons, length_app in Hl. rewrite (snoc_app _ (mark q)), app_comm_cons.
    apply (reads_marked _ _ q (type_set e)); [done| |by destruct q]. apply reads_keyword, reads_element; done || lia.
  - rewrite !length_cons, length_app, length_cons in Hl. destruct Hw as [Hf Hes]. apply (reads_tuple q es); [done| |lia].
    intros t Ht. by apply (foldr_in (writable active) es).
  - destruct Hw as (-> & -> & -> & Hr & Hps). rewrite !length_cons, length_app, !length_cons in Hl.
    rewrite <- (app_nil_r (tok TOKEN_LPAREN :: _)).
    apply (reads_plain type_stop _ _ false (type_function r ps [] [])); [done..|]. apply reads_function_core; [done| |lia].
    intros t Ht. by apply (foldr_in (writable active) ps).
  - destruct Hw as (Hv & Hx & Hps). pose proof (reads_record_core x ps Hv Hx) as H.
    assert (forall t, t ∈ ps -> writable active t) as Hw by (intros t Ht; by apply (foldr_in (writable active) ps)).
    specialize (H Hw). destruct ps as [|t ps].
    + apply (reads_marked _ [] q (type_record x [])); [done| |by destruct q]. apply H. cbn in *. lia.
    + rewrite !length_cons, length_app in Hl. rewrite (snoc_app _ (mark q)), app_comm_cons.
      apply (reads_marked _ _ q (type_record x (t :: ps))); [done| |by destruct q]. apply H. lia.
  - destruct Hw as [Hv Hx]. apply (reads_marked _ [] q (type_type_param x)); [done| |by destruct q]. by apply reads_param_core.
Qed.
End TypeReading.

Lemma type_reads strtod active d m : forall t, writable active t -> (List.length (print_type t) <= m)%nat ->
  reads strtod active d type_stop (parse_type strtod m (parsers strtod m)) (print_type t) t.
Proof.
  induction m as [|m IH]; intros t Hw Hl; (eapply type_step; [reflexivity| |done..]).
  - intros. lia.
  - intros t' Hw' Hl'. apply IH; [done|lia].
Qed.

(** ** Expressions *)

(** How loosely an operator binds: from 3 for products to 11 for [||]. *)
Definition rank_op (t : TokenType) : nat :=
  match t with
  | TOKEN_STAR | TOKEN_SLASH | TOKEN_PERCENT => 3
  | TOKEN_PLUS | TOKEN_MINUS => 4
  | TOKEN_BIT_AND => 5
  | TOKEN_BIT_XOR => 6
  | TOKEN_BIT_OR => 7
  | TOKEN_LT | TOKEN_LT_EQ | TOKEN_GT | TOKEN_GT_EQ => 8
  | TOKEN_EQ_EQ | TOKEN_BANG_EQ => 9
  | TOKEN_AND => 10
  | TOKEN_OR => 11
  | _ => 0
  end.

Definition ops_at (r : nat) : list TokenType :=
  match r with
  | 3 => [TOKEN_STAR; TOKEN_SLASH; TOKEN_PERCENT]
  | 4 => [TOKEN_PLUS; TOKEN_MINUS]
  | 5 => [TOKEN_BIT_AND]
  | 6 => [TOKEN_BIT_XOR]
  | 7 => [TOKEN_BIT_OR]
  | 8 => [TOKEN_LT; TOKEN_LT_EQ; TOKEN_GT; TOKEN_GT_EQ]
  | 9 => [TOKEN_EQ_EQ; TOKEN_BANG_EQ]
  | 10 => [TOKEN_AND]
  | 11 => [TOKEN_OR]
  | _ => []
  end%nat.

(** The rank of an expression: 0 for what is one token or in parentheses, 1
    for a cast, 2 for a prefix operator. *)
Definition rank_of (e : Expr) : nat :=
  match e with
  | EXPR_BINARY _ _ op => rank_op op
  | EXPR_UNARY _ _ => 2
  | EXPR_CAST _ _ => 1
  | _ => 0
  end.

(** Parentheses around tokens of rank [k] where [r] is allowed. *)
Definition wrap (r k : nat) (items : list item) : list item :=
  if (k <=? r)%nat then items else tok TOKEN_LPAREN :: items ++ [tok TOKEN_RPAREN].

(** A comparison to the left of another is put in parentheses, since [a < b >
    (c)] is a call with a type argument. *)
Definition left_rank (op : TokenType) : nat := if (rank_op op =? 8)%nat then 7 else rank_op op.

Definition quoted (s : list Z) : list Z := [c_quote] ++ escape s ++ [c_quote].

Fixpoint body (e : Expr) : list item :=
  match e with
  | EXPR_LITERAL TYPE_INT (as_int v) => [number TOKEN_NUMBER_INT (Lexer.as_int v)]
  | EXPR_LITERAL TYPE_BOOL (as_int v) => [tok (if v =? 1 then TOKEN_TRUE else TOKEN_FALSE)]
  | EXPR_LITERAL TYPE_DOUBLE (as_double v) => [number TOKEN_NUMBER_DOUBLE (Lexer.as_double v)]
  | EXPR_LITERAL TYPE_BIGINT (as_string (Some s)) => [number TOKEN_NUMBER_BIGINT (Lexer.as_string s)]
  | EXPR_LITERAL TYPE_STRING (as_string (Some s)) => [mkItem TOKEN_STRING (Some (quoted s)) (Some (Lexer.as_string s))]
  | EXPR_IDENTIFIER x => [word x]
  | EXPR_NIL => [tok TOKEN_KEYWORD_NIL]
  | EXPR_BINARY l r op => wrap (left_rank op) (rank_of l) (body l) ++ tok op :: wrap (pred (rank_op op)) (rank_of r) (body r)
  | EXPR_UNARY o op => tok op :: wrap 2 (rank_of o) (body o)
  | EXPR_CAST v t => wrap 0 (rank_of v) (body v) ++ tok TOKEN_AS :: print_type t
  | _ => []
  end.
Definition print (r : nat) (e : Expr) : list item := wrap r (rank_of e) (body e).
Definition print_expr (e : Expr) : list item := print 11 e.

Section Printing.
Context (active : list (list Z)).

(** The expressions that are printed. *)
Fixpoint printable (e : Expr) : Prop :=
  match e with
  | EXPR_LITERAL TYPE_INT (as_int _) | EXPR_LITERAL TYPE_DOUBLE (as_double _) | EXPR_LITERAL TYPE_BIGINT (as_string (Some _)) => True
  | EXPR_LITERAL TYPE_BOOL (as_int v) => v = 0 \/ v = 1
  | EXPR_LITERAL TYPE_STRING (as_string (Some s)) => string_has_unescaped_interpolation (c_string (quoted s)) = false
  | EXPR_IDENTIFIER _ | EXPR_NIL => True
  | EXPR_BINARY l r op => (3 <= rank_op op)%nat /\ printable l /\ printable r
  | EXPR_UNARY o op => op ∈ prefix_operators /\ printable o
  | EXPR_CAST v t => printable v /\ writable active t
  | _ => False
  end.

(** The depth of the parentheses that are printed. *)
Definition nest_in (r k : nat) (d : Z) : Z := if (k <=? r)%nat then d else d + 1.
Fixpoint nest (e : Expr) : Z :=
  match e with
  | EXPR_BINARY l r op => Z.max (nest_in (left_rank op) (rank_of l) (nest l)) (nest_in (pred (rank_op op)) (rank_of r) (nest r))
  | EXPR_UNARY o _ => nest_in 2 (rank_of o) (nest o)
  | EXPR_CAST v _ => nest_in 0 (rank_of v) (nest v)
  | _ => 0
  end.
Definition nesting (e : Expr) : Z := nest e.

(** The levels of nesting that are needed from rank [r] on: one for each
    operator level, one for the primary expression, ten for each parenthesis. *)
Definition needs (r : nat) (e : Expr) : Z := Z.of_nat (r - 2) + 1 + 10 * nest_in r (rank_of e) (nest e).

Lemma nest_pos e : 0 <= nest e.
Proof. induction e; cbn; unfold nest_in in *; repeat case_match; lia. Qed.

(** *** What may follow *)

(** The tokens that continue an expression: 0 for those that always do. *)
Definition rank_tok (t : TokenType) : nat :=
  match t with
  | TOKEN_LPAREN | TOKEN_LBRACKET | TOKEN_DOT | TOKEN_QUESTION | TOKEN_COMMA | TOKEN_ERROR => 0
  | TOKEN_AS => 1
  | _ => match rank_op t with O => 100 | r => r end
  end.

(** The look-ahead for type arguments refuses these tokens. *)
Fixpoint refuses (a p b : nat) (saw expect : bool) (items : list item) : Prop :=
  match items with
  | [] => False
  | i :: items =>
      match i_type i with
      | TOKEN_EOF | TOKEN_ERROR => True
      | TOKEN_LT => expect = true \/ refuses (S a) p b saw true items
      | TOKEN_GT => expect = true \/ p <> 0%nat \/ b <> 0%nat
      | TOKEN_COMMA => expect = true \/ refuses a p b saw true items
      | TOKEN_LPAREN => expect = false \/ refuses a (S p) b saw true items
      | TOKEN_RPAREN => p = 0%nat \/ expect = true \/ refuses a (pred p) b saw expect items
      | TOKEN_LBRACKET => expect = true \/ refuses a p (S b) saw true items
      | TOKEN_RBRACKET => b = 0%nat \/ expect = true \/ refuses a p (pred b) saw false items
      | TOKEN_QUESTION => expect = true \/ refuses a p b saw expect items
      | t => parser_token_can_start_type_arg t = false \/ expect = false \/ refuses a p b true false items
      end
  end.

Definition stops (r : nat) (items : list item) : Prop :=
  match items with
  | i :: items => (r < rank_tok (i_type i))%nat /\ (i_type i = TOKEN_LT -> refuses 1 0 0 false true items)
  | [] => False
  end.

Lemma stops_le r r' items : (r <= r')%nat -> stops r' items -> stops r items.
Proof. destruct items; [done|]. cbn. intros ? [? ?]. split; [lia|done]. Qed.

Lemma stops_not r items t : (rank_tok t <= r)%nat -> stops r items -> starts (fun t' => t' <> t) items.
Proof. destruct items as [|i items]; [done|]. cbn. intros ? [? _] E. rewrite E in *. lia. Qed.

Lemma stops_error r items : stops r items -> no_error items.
Proof. apply stops_not. cbn. lia. Qed.

Lemma stops_type r items : stops r items -> type_stop items.
Proof.
  destruct items as [|i items]; [done|]. intros [H _]. cbn. split_and!; intros E; rewrite E in H; cbn in H; lia.
Qed.

(** *** The look-ahead *)

Lemma refuses_after a saw items : stops 8 items -> refuses a 0 0 saw false items.
Proof.
  intros H. destruct items as [|i items]; [done|]. destruct H as [H _]. cbn. destruct (i_type i) eqn:E; cbn in H; auto; lia.
Qed.

Lemma wrap_refuses r k l a p saw rest :
  (forall a p rest, (1 <= p \/ k <= 7)%nat -> (forall a', refuses a' p 0 true false rest) -> refuses a p 0 saw true (l ++ rest)) ->
  (1 <= p \/ r <= 7)%nat -> (forall a', refuses a' p 0 true false rest) -> refuses a p 0 saw true (wrap r k l ++ rest).
Proof.
  intros Hl Hp Hrest. unfold wrap. destruct (Nat.leb_spec k r); [apply Hl; [lia|done]|].
  cbn. right. rewrite <- app_assoc. apply Hl; [lia|]. intros a'. cbn. by right; right.
Qed.

Lemma body_refuses e saw : printable e -> forall a p rest,
  (1 <= p \/ rank_of e <= 7)%nat -> (forall a', refuses a' p 0 true false rest) -> refuses a p 0 saw true (body e ++ rest).
Proof.
  revert saw. induction e; intros saw He a p rest Hp Hr; cbn [printable] in He; try done.
  - destruct type, literal as [|?|[|]]; try done; cbn; auto. destruct (i =? 1); cbn; auto.
  - cbn. auto.
  - destruct He as (Hop & Hl & Hr'). cbn [body]. rewrite <- app_assoc. cbn [rank_of] in Hp.
    apply wrap_refuses; [intros; by apply IHe1| |].
    + unfold left_rank. destruct (Nat.eqb_spec (rank_op op) 8); lia.
    + intros a'. cbn. destruct op; cbn in Hop, Hp; try lia; auto. right.
      apply wrap_refuses; [intros; by apply IHe2|cbn; lia|done].
  - destruct He as [Hop _]. cbn. unfold prefix_operators in Hop. apply elem_of_cons in Hop as [->|Hop]; [cbn; auto|].
    apply elem_of_cons in Hop as [->|Hop]; [cbn; auto|]. apply list_elem_of_singleton in Hop as ->. cbn. auto.
  - cbn. auto.
  - destruct He as [Hv _]. cbn [body]. rewrite <- app_assoc. apply wrap_refuses; [intros; by apply IHe|lia|].
    intros a'. cbn. auto.
Qed.

(** *** The first token *)

(** The tokens that expressions begin with; only those with a prefix operator
    begin with one. *)
Definition atom_start (t : TokenType) : bool :=
  match t with
  | TOKEN_NUMBER_INT | TOKEN_NUMBER_BIGINT | TOKEN_NUMBER_DOUBLE | TOKEN_STRING | TOKEN_TRUE | TOKEN_FALSE | TOKEN_KEYWORD_NIL
  | TOKEN_IDENTIFIER | TOKEN_LPAREN => true
  | _ => false
  end.
Definition expr_start (t : TokenType) : bool := atom_start t || bool_decide (t ∈ prefix_operators).

Definition starts_expr (r : nat) (items : list item) : Prop :=
  starts (fun t => (if (r <=? 1)%nat then atom_start t else expr_start t) = true) items.

Lemma atom_starts_expr t : atom_start t = true -> expr_start t = true.
Proof. unfold expr_start. by intros ->. Qed.

Lemma starts_expr_le r r' items : (r <= r')%nat -> starts_expr r items -> starts_expr r' items.
Proof.
  unfold starts_expr. destruct items; [done|]. cbn. destruct (Nat.leb_spec r 1), (Nat.leb_spec r' 1); try done; try lia.
  intros. by apply atom_starts_expr.
Qed.

Lemma wrap_first r k l : starts_expr k l -> starts_expr r (wrap r k l).
Proof. intros H. unfold wrap. destruct (Nat.leb_spec k r); [by eapply starts_expr_le|]. cbn. by destruct (r <=? 1)%nat. Qed.

Lemma starts_app P l1 l2 : starts P l1 -> starts P (l1 ++ l2).
Proof. by destruct l1. Qed.

Lemma body_first e : printable e -> starts_expr (rank_of e) (body e).
Proof.
  induction e; cbn [printable]; intros He; try done.
  - destruct type, literal as [|?|[|]]; try done. cbn. by destruct (i =? 1).
  - destruct He as (Hop & Hl & _). cbn [body rank_of]. apply starts_app. eapply starts_expr_le; [|by apply wrap_first, IHe1].
    unfold left_rank. destruct (Nat.eqb_spec (rank_op op) 8); lia.
  - destruct He as [Hop _]. cbn. unfold expr_start. rewrite bool_decide_true by done. apply orb_true_r.
  - destruct He as [Hv _]. cbn [body rank_of]. apply starts_app. eapply starts_expr_le; [|by apply wrap_first, IHe]. lia.
Qed.

Lemma print_first r e : printable e -> starts_expr r (print r e).
Proof. intros He. by apply wrap_first, body_first. Qed.

(** A token that starts no expression is not the first. *)
Lemma print_not r e t rest : printable e -> expr_start t = false -> starts (fun t' => t' <> t) (print r e ++ rest).
Proof.
  intros He Ht. pose proof (print_first r e He) as H. apply (starts_expr_le r (2 + r)) in H; [|lia].
  destruct (print r e); [done|]. unfold starts_expr, starts in *. cbn [app]. intros E. rewrite E in H.
  change (2 + r <=? 1)%nat with false in H. congruence.
Qed.

Lemma print_error r e rest : printable e -> no_error (print r e ++ rest).
Proof. intros He. by apply print_not. Qed.
End Printing.

(** *** The look-ahead of the parser *)

Lemma ahead_refuses strtod items : forall a p b saw expect f l,
  nexts strtod l items -> refuses (S a) p b saw expect items -> type_args_ahead strtod f (S a) p b saw expect l = false.
Proof.
  induction items as [|i items IH]; intros a p b saw expect f l Hn Hr; [done|]. destruct f as [|f]; [done|].
  cbn [type_args_ahead]. destruct Hn as [[Ht _] Hn]. destruct (lexer_next_token strtod l) as [t l']. cbn [fst snd] in *. rewrite Ht.
  cbn [refuses] in Hr.
  destruct expect, p as [|p], b as [|b]; destruct (i_type i); cbn in Hr |- *; try done;
    repeat (destruct Hr as [Hr|Hr]; try done); by eapply IH.
Qed.

Section ExprReading.
Context (strtod : list Z -> option Z) (active : list (list Z)).
Notation reads := (reads strtod active).
Notation printable := (printable active).

Lemma reads_any {A B} d stop (f : Parser -> A) (k : A -> M B) items b :
  (forall a, reads d stop (k a) items b) -> reads d stop (bind (get f) k) items b.
Proof. intros H p rest. apply (H (f p) p rest). Qed.

Lemma set_depth_moved p p' : moved (set_depth (depth p + 1) p) p' -> moved p (set_depth (depth p' - 1) p').
Proof. unfold moved. intros ->. destruct p. unfold set_depth, set_tokens. cbn. f_equal. lia. Qed.

Lemma reads_with_depth d stop m items e : 0 <= d -> reads d stop m items e -> reads (d + 1) stop (with_depth m) items e.
Proof.
  intros Hd H p rest Ha Hr (H1 & H2 & H3 & H4). unfold with_depth, bind at 1, update at 1, bind at 1, get.
  change (depth (set_depth (depth p + 1) p)) with (depth p + 1).
  unfold PARSER_MAX_DEPTH in *. destruct (Z.ltb_spec 256 (depth p + 1)); [lia|].
  destruct (H (set_depth (depth p + 1) p) rest) as (p' & E & Ha' & Hm); [done..| |].
  { split_and!; [done..|]. cbn. unfold PARSER_MAX_DEPTH. lia. }
  exists (set_depth (depth p' - 1) p'). unfold bind. rewrite E. split_and!; [done| |by apply set_depth_moved]. by destruct rest.
Qed.

Lemma no_type_arguments d n rec : reads d (stops 0) (call_type_arguments_ahead strtod n rec) [] None.
Proof.
  intros p [|i rest] Ha Hr Hp; [done|]. exists p. unfold call_type_arguments_ahead, bind, get, parser_can_parse_call_type_args, is_current.
  rewrite (ahead_type _ _ _ _ Ha). destruct Hr as [_ Hr]. destruct Ha as [Hi Hn].
  destruct (token_eqb_spec (i_type i) TOKEN_LT) as [E|]; [|split_and!; [done..|apply moved_refl]].
  rewrite (ahead_refuses strtod rest) by auto. split_and!; [done..|apply moved_refl].
Qed.

Lemma postfix_stop d n rec f w arg e : (0 < f)%nat -> reads d (stops 0) (postfix_loop strtod n rec f w arg e []) [] e.
Proof.
  intros Hf. destruct f as [|f]; [lia|]. cbn [postfix_loop]. eapply reads_test; [apply no_type_arguments| |done].
  intros p [|i rest] Ha Hr Hp; [done|]. exists p. unfold bind, get. rewrite (ahead_type _ _ _ _ Ha).
  destruct Hr as [Hr _]. split_and!; [|done|apply moved_refl]. destruct (i_type i); try done; cbn in Hr; lia.
Qed.

(** *** Operators of one rank *)

Fixpoint parse_rank (n : nat) (rec : calls) (r : nat) : M Expr :=
  match r with
  | O => parse_call strtod n rec
  | S r' =>
      match r' with
      | O => parse_cast strtod n rec
      | S O => parse_unary strtod n rec
      | _ => operator_level strtod n (ops_at r) (parse_rank n rec r')
      end
  end.

Lemma parse_rank_expression n rec : parse_rank n rec 11 = parse_expression strtod n rec.
Proof. reflexivity. Qed.

Lemma match_any_hit d r op : rank_op op = r -> (3 <= r)%nat -> reads d no_error (match_any strtod (ops_at r)) [tok op] (Some op).
Proof.
  intros Hop Hr p rest Ha He Hp. destruct (advance_ahead strtod p (tok op) rest) as (H1 & H2 & _); [done|intros E; cbn in E; subst op; cbn in Hop; lia|done|].
  exists (advance strtod p). split_and!; [|done..]. pose proof (ahead_type _ _ _ _ Ha) as Ht. cbn in Ht.
  destruct op; cbn in Hop; try lia; subst r; cbn; unfold bind, parser_match, is_current; repeat (rewrite Ht; cbn); reflexivity.
Qed.

Lemma match_any_miss d ts : reads d (starts (fun t => t ∉ ts)) (match_any strtod ts) [] None.
Proof.
  induction ts as [|t ts IH]; cbn [match_any]; [apply parse_ret|].
  eapply reads_test; [apply reads_no_match|eapply reads_weaken; [apply IH|done|]|].
  - intros [|i rest]; [done|]. cbn. set_solver.
  - intros [|i rest]; [done|]. cbn. set_solver.
Qed.

Lemma ops_rank r t : t ∈ ops_at r -> rank_tok t = r.
Proof.
  destruct r as [|[|[|[|[|[|[|[|[|[|[|[|r]]]]]]]]]]]]; cbn; intros H; repeat (apply elem_of_cons in H as [->|H]; [done|]); by apply elem_of_nil in H.
Qed.

Lemma operators_stop d r : reads d (stops r) (match_any strtod (ops_at r)) [] None.
Proof.
  eapply reads_weaken; [apply match_any_miss|done|]. intros [|i rest]; [done|]. cbn. intros [H _] Hin. apply ops_rank in Hin. lia.
Qed.

(** *** Tokens and the ranks below *)

Lemma reads_token {B} d stop i (k : M B) items b :
  i_type i <> TOKEN_EOF -> (forall rest, stop rest -> no_error (items ++ rest)) ->
  (forall p rest, shows (previous p) i -> ahead strtod p (items ++ rest) -> stop rest -> ready active d p ->
    exists p', k p = Done b p' /\ ahead strtod p' rest /\ moved p p') ->
  reads d stop (parser_advance strtod ;; k) (i :: items) b.
Proof.
  intros Hi Hs Hk p rest Ha Hr Hp. destruct (advance_ahead strtod p i (items ++ rest)) as (H1 & H2 & H3); [done..|by apply Hs|].
  destruct (Hk (advance strtod p) rest) as (p' & E & H4 & H5); [rewrite H3; by destruct Ha|done..|by eapply ready_moved|].
  exists p'. split_and!; [done..|]. by eapply moved_trans.
Qed.

Lemma print_le r e : rank_of e <> S r -> print (S r) e = print r e.
Proof. intros H. unfold print, wrap. destruct (Nat.leb_spec (rank_of e) r), (Nat.leb_spec (rank_of e) (S r)); done || lia. Qed.

Lemma rank_of_max e : (rank_of e <=? 11)%nat = true.
Proof. destruct e; try done. by destruct op. Qed.

Lemma print_length r e : printable e -> (0 < List.length (print r e))%nat.
Proof. intros He. pose proof (print_first active r e He) as H. destruct (print r e); [done|cbn; lia]. Qed.

Lemma print_own e : print (rank_of e) e = body e.
Proof. unfold print, wrap. by rewrite Nat.leb_refl. Qed.

Lemma needs_le r e : rank_of e <> S r -> needs r e + (if (2 <=? r)%nat then 1 else 0) = needs (S r) e.
Proof.
  intros H. unfold needs, nest_in. destruct (Nat.leb_spec (rank_of e) r), (Nat.leb_spec (rank_of e) (S r)), (Nat.leb_spec 2 r); lia.
Qed.

Section OneLevel.
Context (m : nat) (rec : calls).
Hypothesis Hexpr : forall e, printable e -> (List.length (print 11 e) < m)%nat -> reads (needs 11 e) (stops 11) (call_expression rec) (print 11 e) e.
Hypothesis Hunary : forall e, printable e -> (List.length (print 2 e) < m)%nat -> reads (needs 2 e) (stops 2) (call_unary rec) (print 2 e) e.
Hypothesis Htype : forall d t, writable active t -> (List.length (print_type t) <= m)%nat -> reads d type_stop (parse_type strtod m rec) (print_type t) t.

(** Expressions of rank [r] are read by the function of that rank. *)
Definition reads_rank (r : nat) : Prop := forall e,
  printable e -> (List.length (print r e) <= m)%nat -> reads (needs r e) (stops r) (parse_rank m rec r) (print r e) e.

(** Literals. *)
Lemma reads_literal e i :
  printable e -> body e = [i] -> match e with EXPR_LITERAL _ _ | EXPR_NIL => True | _ => False end ->
  reads 0 (stops 0) (parse_literal strtod rec) [i] (Some e).
Proof.
  intros He Hb Hk. unfold parse_literal.
  eapply reads_test with (a := i_type i); [apply reads_type| |done].
  destruct e; try done; [|injection Hb as <-; eapply reads_seq; [by apply reads_advance|apply parse_ret|apply stops_error]].
  destruct type, literal as [|?|[|]]; try done; cbn in Hb; injection Hb as <-; cbn [i_type tok number].
  all: try (apply reads_token; [done|apply stops_error|]; intros p rest (_ & Hl & Hv) Ha Hr Hp; exists p;
    cbn in Hv; unfold bind, previous_int, previous_string, previous_double, parse_string_literal_or_interpolation, bind, get; rewrite Hv).
  - split_and!; [done..|]. apply moved_refl.
  - destruct He as [-> | ->]; (eapply reads_seq; [by apply reads_advance|apply parse_ret|apply stops_error]).
  - split_and!; [done..|]. apply moved_refl.
  - split_and!; [done..|]. apply moved_refl.
  - cbn [i_lexeme] in Hl. rewrite Hl. change (string_has_unescaped_interpolation (c_string (c_quote :: escape l ++ [c_quote])) = false) in He. rewrite He. split_and!; [done..|]. apply moved_refl.
Qed.

Lemma parse_literal_miss i d : i_type i = TOKEN_IDENTIFIER \/ i_type i = TOKEN_LPAREN ->
  reads d (starts (fun t => t = i_type i)) (parse_literal strtod rec) [] None.
Proof. intros Hi. unfold parse_literal. eapply reads_test; [apply reads_type| |done]. destruct Hi as [-> | ->]; apply parse_ret. Qed.

Lemma reads_atom e d : printable e -> rank_of e = 0%nat -> 0 <= d -> reads (d + 1) (stops 0) (parse_primary strtod m rec) (body e) e.
Proof.
  intros He H0 Hd. apply reads_with_depth; [done|].
  destruct e as [|type literal|x| | | | | | | | | | | | | | | | | | | |]; try done; try (pose proof (proj1 He); cbn in H0; lia).
  - assert (exists i, body (EXPR_LITERAL type literal) = [i]) as [i Hi] by (destruct type, literal as [|?|[|]]; done || (eexists; reflexivity)).
    rewrite Hi, <- (app_nil_r [i]). eapply parse_bind; [eapply reads_weaken; [by eapply reads_literal|done|done]| |done].
    apply reads_any. intros t. apply parse_ret.
  - eapply reads_test; [by apply (parse_literal_miss (word x)); left| |done]. cbn [body].
    eapply reads_test; [apply reads_type with (t := TOKEN_IDENTIFIER)| |done]. cbn beta iota.
    apply (reads_previous _ _ _ _ _ lexeme) with (a := x); [done|by intros t (_ & ? & _)|apply stops_error|apply parse_ret].
  - cbn [body]. rewrite <- (app_nil_r [_]). eapply parse_bind; [eapply reads_weaken; [by apply (reads_literal EXPR_NIL)|done|done]| |done].
    apply reads_any. intros t. apply parse_ret.
Qed.

Lemma reads_parentheses e d : printable e -> (List.length (print 11 e) < m)%nat -> needs 11 e <= d ->
  reads (d + 1) (stops 0) (parse_primary strtod m rec) (tok TOKEN_LPAREN :: print 11 e ++ [tok TOKEN_RPAREN]) e.
Proof.
  intros He Hl Hd. apply reads_with_depth.
  { pose proof (nest_pos e). unfold needs, nest_in in Hd. destruct (rank_of e <=? 11)%nat; lia. }
  eapply reads_test; [by apply (parse_literal_miss (tok TOKEN_LPAREN)); right| |done].
  eapply reads_test; [apply reads_type with (t := TOKEN_LPAREN)| |done]. cbn beta iota.
  eapply reads_seq; [by apply reads_advance| |intros; rewrite <- app_assoc; by eapply print_error].
  eapply reads_test; [apply reads_no_match| |intros; rewrite <- app_assoc; by eapply print_not].
  eapply parse_bind; [eapply reads_weaken; [by apply Hexpr|done|intros rest Hr; exact Hr]| |].
  - eapply reads_test; [apply reads_no_match| |done]. eapply reads_seq; [by apply reads_consume|apply parse_ret|apply stops_error].
  - intros rest _. split; [cbn; lia|done].
Qed.

Lemma reads_rank_0 : reads_rank 0.
Proof.
  intros e He Hl. assert (0 < m)%nat by (pose proof (print_length 0 e He); lia).
  rewrite <- (app_nil_r (print 0 e)). cbn [parse_rank]. eapply parse_bind; [|by apply postfix_stop|done].
  pose proof (nest_pos e). unfold print, wrap, needs, nest_in in *. destruct (Nat.leb_spec (rank_of e) 0).
  - eapply reads_weaken; [apply (reads_atom e 0); [done|lia|done]|lia|done].
  - assert (print 11 e = body e) as E by (unfold print, wrap; by rewrite rank_of_max).
    rewrite <- E in *. rewrite length_cons, length_app in Hl. cbn [List.length] in Hl.
    eapply reads_weaken; [apply (reads_parentheses e (needs 11 e)); [done|lia|done]| |done].
    unfold needs, nest_in. rewrite rank_of_max. lia.
Qed.

Lemma reads_rank_1 : reads_rank 0 -> reads_rank 1.
Proof.
  intros IH e He Hl. destruct (decide (rank_of e = 1%nat)) as [E|E].
  - destruct e; try done; cbn in E; try (destruct op; discriminate E).
    destruct He as [Hv Ht]. change (print 1 (EXPR_CAST e target_type)) with (print 0 e ++ tok TOKEN_AS :: print_type target_type) in *.
    rewrite length_app, length_cons in Hl. cbn [parse_rank].
    eapply parse_bind; [eapply reads_weaken; [apply IH; [done|lia]| |intros rest Hr; exact Hr]| |].
    + unfold needs, nest_in. cbn. unfold nest_in. destruct (rank_of e); lia.
    + eapply reads_seq; [by apply reads_match| |intros; by eapply type_first_error].
      rewrite <- (app_nil_r (print_type _)). eapply parse_bind; [apply Htype; [done|lia]|apply parse_ret|intros; by eapply stops_type].
    + intros rest _. split; [cbn; lia|done].
  - rewrite (print_le 0 e E) in *. rewrite <- (needs_le 0 e E), Z.add_0_r. cbn [parse_rank]. rewrite <- (app_nil_r (print 0 e)).
    eapply parse_bind; [by apply IH| |intros rest Hr; by eapply stops_le; [|exact Hr]; lia].
    eapply reads_test; [apply reads_no_match|apply parse_ret|]. intros rest Hr. by eapply stops_not; [|exact Hr]; cbn; lia.
Qed.

Lemma prefix_hit d op : op ∈ prefix_operators -> reads d no_error (match_any strtod prefix_operators) [tok op] (Some op).
Proof.
  intros Hop. unfold prefix_operators in *. cbn [match_any].
  repeat (apply elem_of_cons in Hop as [-> | Hop];
    [repeat (eapply reads_test; [apply reads_no_match| |done]); eapply reads_seq; [by apply reads_match|apply parse_ret|done]|]).
  by apply elem_of_nil in Hop.
Qed.

Lemma reads_rank_2 : reads_rank 1 -> reads_rank 2.
Proof.
  intros IH e He Hl. cbn [parse_rank]. unfold parse_unary.
  eapply reads_test; [apply reads_no_match| |intros; by eapply print_not]. cbn beta iota.
  destruct (decide (rank_of e = 2%nat)) as [E|E].
  - destruct e; try done; cbn in E; try (destruct op; discriminate E).
    destruct He as [Hop Ho]. change (print 2 (EXPR_UNARY e op)) with (tok op :: print 2 e) in *.
    rewrite length_cons in Hl. eapply reads_seq; [by apply prefix_hit| |intros; by eapply print_error].
    rewrite <- (app_nil_r (print 2 e)).
    eapply parse_bind; [eapply reads_weaken; [apply Hunary; [done|lia]| |intros rest Hr; exact Hr]|apply parse_ret|done].
    unfold needs, nest_in. cbn. unfold nest_in. lia.
  - rewrite (print_le 1 e E) in *. rewrite <- (needs_le 1 e E), Z.add_0_r.
    eapply reads_test; [apply match_any_miss| |].
    + eapply reads_weaken; [by apply IH|done|]. intros rest Hr. eapply stops_le; [|exact Hr]. lia.
    + intros rest _. pose proof (print_first active 1 e He) as H. destruct (print 1 e) as [|i l]; [done|]. cbn in *.
      intros Hin. unfold prefix_operators in Hin.
      repeat (apply elem_of_cons in Hin as [Hin|Hin]; [by rewrite Hin in H|]). by apply elem_of_nil in Hin.
Qed.

(** *** Left-associative chains *)

(** An operator and its right operand: what stops the left one. *)
Lemma operator_stops r op e rest :
  rank_op op = r -> (3 <= r)%nat -> printable e -> (r = 8%nat -> stops 8 rest) -> stops (pred r) (tok op :: print (pred r) e ++ rest).
Proof.
  intros <- Hr He H8. assert (rank_tok op = rank_op op) as Et by (destruct op; cbn in *; done || lia). split; [cbn [i_type tok]; lia|].
  cbn [i_type tok]. intros ->. apply (wrap_refuses 7); [|cbn; lia|].
  - intros a p rest'. by apply (body_refuses active).
  - intros a'. by apply refuses_after, H8.
Qed.

Lemma operand_needs r l e op : rank_op op = r -> (3 <= r)%nat ->
  needs (left_rank op) l <= needs r (EXPR_BINARY l e op) /\ needs (pred r) e + 1 <= needs r (EXPR_BINARY l e op)
  /\ (r = 8%nat -> needs 7 l + 1 <= needs r (EXPR_BINARY l e op)).
Proof.
  intros <- Hr. unfold needs, left_rank, nest_in at 2 4 6. cbn [rank_of nest]. rewrite Nat.leb_refl. unfold left_rank.
  split_and!; [|lia|intros ->; cbn; lia]. destruct (Nat.eqb_spec (rank_op op) 8) as [->|]; cbn; lia.
Qed.

(** The loop of one rank from the first operand to the end of [e]: it goes on
    from there with what follows. *)
Lemma chain r : (3 <= r)%nat -> reads_rank (pred r) -> forall e, printable e -> (List.length (print r e) <= m)%nat ->
  forall d F stop items x, needs r e <= d + 1 -> (List.length (print r e) <= F)%nat ->
  (forall f, (F < f + List.length (print r e))%nat -> reads d stop (operator_loop strtod f (ops_at r) (parse_rank m rec (pred r)) e) items x) ->
  (forall rest, stop rest -> stops (pred r) (items ++ rest) /\ (r = 8%nat -> stops 8 (items ++ rest))) ->
  reads d stop (let! y := parse_rank m rec (pred r) in operator_loop strtod F (ops_at r) (parse_rank m rec (pred r)) y) (print r e ++ items) x.
Proof.
  intros Hr IH e. induction (Nat.lt_wf_0_projected (fun e => List.length (body e)) e) as [e _ IHe].
  intros He Hm d F stop items x Hd HF Hk Hs. destruct (decide (rank_of e = r)) as [E|E].
  2:{ destruct r as [|r]; [lia|]. rewrite (print_le r e E) in *. pose proof (needs_le r e E) as Hn.
      destruct (Nat.leb_spec 2 r); [|lia]. cbn [pred] in *.
      eapply parse_bind; [eapply reads_weaken; [by apply IH|lia|intros rest Hx; exact Hx]| |intros rest Hx; by apply Hs].
      apply Hk. pose proof (print_length r e He). lia. }
  destruct e as [| | |l e op| | | | | | | | | | | | | | | | | | |]; cbn in E; try lia. destruct He as (_ & Hl & He).
  destruct (operand_needs r l e op E Hr) as (Hn1 & Hn2 & Hn3).
  assert (print r (EXPR_BINARY l e op) = print (left_rank op) l ++ tok op :: print (pred r) e) as Ep.
  { rewrite <- E. change (rank_op op) with (rank_of (EXPR_BINARY l e op)) at 1. by rewrite print_own. }
  assert (List.length (body l) < List.length (body (EXPR_BINARY l e op)))%nat as Hb.
  { cbn [body]. rewrite length_app, length_cons. unfold wrap. destruct (rank_of l <=? left_rank op)%nat; cbn; rewrite ?length_app; cbn; lia. }
  rewrite Ep, length_app, length_cons in Hm, HF, Hk. rewrite Ep, <- app_assoc. cbn [app].
  assert (forall f, (F <= f + List.length (print (left_rank op) l))%nat ->
    reads d stop (operator_loop strtod (S f) (ops_at r) (parse_rank m rec (pred r)) l) (tok op :: print (pred r) e ++ items) x) as Hloop.
  { intros f Hf. cbn [operator_loop]. eapply reads_seq; [by apply match_any_hit| |intros; rewrite <- app_assoc; by eapply print_error].
    eapply parse_bind; [eapply reads_weaken; [apply IH; [done|lia]|lia|intros rest Hx; exact Hx]|apply Hk; lia|intros rest Hx; by apply Hs]. }
  assert (forall rest, stop rest -> stops (pred r) ((tok op :: print (pred r) e ++ items) ++ rest)) as Hst.
  { intros rest Hx. cbn [app]. rewrite <- app_assoc. apply operator_stops; [done..|]. by apply Hs. }
  unfold left_rank in *. rewrite E in *. destruct (Nat.eqb_spec r 8) as [E8|E8].
  - clear Hn1 E. subst r. specialize (Hn3 eq_refl). cbn [pred] in *.
    eapply parse_bind; [eapply reads_weaken; [apply IH; [done|lia]|lia|intros rest Hx; exact Hx]| |exact Hst].
    pose proof (print_length 7 l Hl). destruct F; [lia|]. apply Hloop. lia.
  - apply IHe; [exact Hb|done|lia|lia|lia| |by intros rest Hx; split; [apply Hst|]].
    intros f Hf. destruct f as [|f]; [lia|]. apply Hloop. lia.
Qed.

Lemma reads_rank_next r : (3 <= r)%nat -> reads_rank (pred r) -> reads_rank r.
Proof.
  intros Hr IH e He Hl. destruct r as [|[|[|r]]]; try lia. cbn [parse_rank]. unfold operator_level.
  replace (needs _ e) with (needs (S (S (S r))) e - 1 + 1) by lia. apply reads_with_depth.
  { pose proof (nest_pos e). unfold needs, nest_in. destruct (rank_of e <=? _)%nat; lia. }
  rewrite <- (app_nil_r (print _ e)). eapply (chain (S (S (S r)))); [lia|done..|lia|done| |].
  - intros f Hf. destruct f as [|f]; [lia|]. cbn [operator_loop]. eapply reads_test; [apply operators_stop|apply parse_ret|done].
  - intros rest Hx. split; [by eapply stops_le; [|exact Hx]; cbn; lia|]. intros E. rewrite E in Hx. done.
Qed.

Lemma every_rank r : reads_rank r.
Proof.
  assert (reads_rank 2) as H2 by (apply reads_rank_2, reads_rank_1, reads_rank_0).
  destruct r as [|[|r]]; [apply reads_rank_0|apply reads_rank_1, reads_rank_0|].
  induction r as [|r IH]; [done|]. by apply reads_rank_next; [lia|].
Qed.
End OneLevel.

(** The parser reads back the tokens of an expression, at every rank. *)
Lemma expr_reads m : forall r, reads_rank m (parsers strtod m) r.
Proof.
  induction m as [|m IH]; intros r; apply every_rank; try (intros; by apply type_reads); intros e He Hl; try lia.
  - apply (IH 11%nat); [done|lia].
  - apply (IH 2%nat); [done|lia].
Qed.
End ExprReading.
