(* ===== verification/ParserStatements.v ===== *)
(** * Printing and parsing: statements and programs

    Statements, functions and whole programs are printed into tokens, and the
    parser reads back what was printed: the tree that is parsed from the text
    of a program is the one that was printed, with no error. The printer
    models no code. *)

From Stdlib Require Import String.
From S2P Require Import Prelude Lexer LexerSpec LexerProps Bytecode Ast Syntax Parser ParserRoundTrip.

Open Scope Z_scope.
Open Scope parser_scope.

(** ** The printer *)

Definition print_init (e : Expr) : list item := match e with NULL_EXPR => [] | _ => tok TOKEN_ASSIGN :: print_expr e end.
Definition print_annotation (t : option TypeNode) : list item := match t with Some t => tok TOKEN_COLON :: print_type t | None => [] end.
Definition print_param (x : list Z * TypeNode) : list item := word (fst x) :: tok TOKEN_COLON :: print_type (snd x).

Fixpoint print_stmt (s : Stmt) : list item :=
  match s with
  | STMT_EXPR e => print_expr e ++ [tok TOKEN_SEMICOLON]
  | STMT_ASSIGN x v _ => word x :: tok TOKEN_ASSIGN :: print_expr v ++ [tok TOKEN_SEMICOLON]
  | STMT_VAR_DECL _ x t e is_mutable =>
      tok (if is_mutable then TOKEN_KEYWORD_VAR else TOKEN_KEYWORD_CONST) :: word x ::
      print_annotation t ++ print_init e ++ [tok TOKEN_SEMICOLON]
  | STMT_BREAK => [tok TOKEN_KEYWORD_BREAK; tok TOKEN_SEMICOLON]
  | STMT_CONTINUE => [tok TOKEN_KEYWORD_CONTINUE; tok TOKEN_SEMICOLON]
  | STMT_RETURN e =>
      tok TOKEN_KEYWORD_RETURN :: match e with NULL_EXPR => [] | _ => print_expr e end ++ [tok TOKEN_SEMICOLON]
  | STMT_DEFER e => tok TOKEN_KEYWORD_DEFER :: print_expr e ++ [tok TOKEN_SEMICOLON]
  | STMT_BLOCK ss => tok TOKEN_LBRACE :: flat_map print_stmt ss ++ [tok TOKEN_RBRACE]
  | STMT_IF c t f =>
      tok TOKEN_KEYWORD_IF :: tok TOKEN_LPAREN :: print_expr c ++ tok TOKEN_RPAREN :: print_stmt t ++
      match f with NULL_STMT => [] | _ => tok TOKEN_KEYWORD_ELSE :: print_stmt f end
  | STMT_WHILE c b => tok TOKEN_KEYWORD_WHILE :: tok TOKEN_LPAREN :: print_expr c ++ tok TOKEN_RPAREN :: print_stmt b
  | STMT_FOREACH x e b =>
      tok TOKEN_KEYWORD_FOREACH :: tok TOKEN_LPAREN :: word x :: tok TOKEN_IN :: print_expr e ++ tok TOKEN_RPAREN :: print_stmt b
  | STMT_FOR_RANGE x l h b =>
      tok TOKEN_KEYWORD_FOREACH :: tok TOKEN_LPAREN :: word x :: tok TOKEN_IN :: print_expr l ++ tok TOKEN_DOT_DOT :: print_expr h ++
      tok TOKEN_RPAREN :: print_stmt b
  | STMT_FUNC_DECL _ r x _ _ ps ts b _ =>
      tok TOKEN_KEYWORD_FUNC :: word x :: tok TOKEN_LPAREN :: commas (map print_param (zip ps ts)) ++
      tok TOKEN_RPAREN :: tok TOKEN_COLON :: print_type r ++ print_stmt b
  | _ => []
  end.

Section Statements.
(** The levels of nesting that expressions may take. *)
Context (d : Z).

Definition expr_ok (e : Expr) : Prop := printable [] e /\ needs 11 e <= d.
Definition is_block (s : Stmt) : Prop := match s with STMT_BLOCK _ => True | _ => False end.

(** The statements that are printed: a branch or the body of a loop is a
    block, so that an [else] belongs to one [if]. *)
Fixpoint stmt_ok (s : Stmt) : Prop :=
  match s with
  | STMT_EXPR e | STMT_DEFER e => expr_ok e
  | STMT_ASSIGN _ v op => op = TOKEN_ASSIGN /\ expr_ok v
  | STMT_VAR_DECL is_public _ t e is_mutable =>
      is_public = true /\ match t with Some t => writable [] t | None => True end /\ (e = NULL_EXPR /\ is_mutable = true \/ expr_ok e)
  | STMT_BREAK | STMT_CONTINUE => True
  | STMT_RETURN e => e = NULL_EXPR \/ expr_ok e
  | STMT_BLOCK ss => foldr and True (map stmt_ok ss)
  | STMT_IF c t f =>
      expr_ok c /\ is_block t /\ stmt_ok t /\ match f with NULL_STMT => True | STMT_BLOCK _ | STMT_IF _ _ _ => stmt_ok f | _ => False end
  | STMT_WHILE c b => expr_ok c /\ is_block b /\ stmt_ok b
  | STMT_FOREACH _ e b => expr_ok e /\ is_block b /\ stmt_ok b
  | STMT_FOR_RANGE _ l h b => expr_ok l /\ expr_ok h /\ is_block b /\ stmt_ok b
  | STMT_FUNC_DECL is_public r _ xs cs ps ts b is_async =>
      is_public = true /\ writable [] r /\ xs = [] /\ cs = [] /\ List.length ps = List.length ts /\ foldr and True (map (writable []) ts)
      /\ is_block b /\ stmt_ok b /\ is_async = false
  | _ => False
  end.

(** *** The first token *)

Definition declares (t : TokenType) : bool :=
  match t with TOKEN_KEYWORD_VAR | TOKEN_KEYWORD_CONST | TOKEN_KEYWORD_FUNC => true | _ => false end.
Definition stmt_start (t : TokenType) : bool :=
  expr_start t || declares t ||
  match t with
  | TOKEN_KEYWORD_BREAK | TOKEN_KEYWORD_CONTINUE | TOKEN_KEYWORD_RETURN | TOKEN_KEYWORD_DEFER | TOKEN_LBRACE | TOKEN_KEYWORD_IF
  | TOKEN_KEYWORD_WHILE | TOKEN_KEYWORD_FOREACH => true
  | _ => false
  end.

Definition is_declaration (s : Stmt) : bool := match s with STMT_VAR_DECL _ _ _ _ _ | STMT_FUNC_DECL _ _ _ _ _ _ _ _ _ => true | _ => false end.

Lemma stmt_first s : stmt_ok s -> starts (fun t => stmt_start t = true /\ declares t = is_declaration s) (print_stmt s).
Proof.
  destruct s; cbn [stmt_ok]; intros H; try done.
  - by destruct is_mutable.
  - destruct H as [H _]. pose proof (print_first [] 11 expr_stmt H) as Hf. cbn [print_stmt].
    apply starts_app. destruct (print_expr expr_stmt) as [|i l] eqn:E; unfold print_expr in E; rewrite E in Hf; [done|]. cbn in Hf |- *.
    unfold stmt_start. rewrite Hf. split; [done|]. by destruct (i_type i).
Qed.

Lemma stmt_not s rest t : stmt_ok s -> stmt_start t = false -> starts (fun t' => t' <> t) (print_stmt s ++ rest).
Proof.
  intros H Ht. pose proof (stmt_first s H) as Hf. destruct (print_stmt s) as [|i l]; [done|]. cbn in *. intros E. rewrite E in Hf. by destruct Hf; congruence.
Qed.

Definition stmt_stop (items : list item) : Prop := starts (fun t => t <> TOKEN_ERROR /\ t <> TOKEN_KEYWORD_ELSE) items.

Lemma stmts_stop ss i rest : (forall s, s ∈ ss -> stmt_ok s) -> i_type i <> TOKEN_ERROR -> i_type i <> TOKEN_KEYWORD_ELSE ->
  stmt_stop (flat_map print_stmt ss ++ i :: rest).
Proof.
  intros Hs Hi Hi'. destruct ss as [|s ss]; [done|]. cbn [flat_map]. rewrite <- app_assoc.
  assert (stmt_ok s) as H by (apply Hs; set_solver).
  pose proof (stmt_not s (flat_map print_stmt ss ++ i :: rest) TOKEN_ERROR H eq_refl) as H1.
  pose proof (stmt_not s (flat_map print_stmt ss ++ i :: rest) TOKEN_KEYWORD_ELSE H eq_refl) as H2.
  destruct (print_stmt s ++ _); [done|]. by split.
Qed.

Lemma stmt_stop_error items : stmt_stop items -> no_error items.
Proof. destruct items; [done|]. by intros [? _]. Qed.

(** A block may be followed by [else]. *)
Definition after (s : Stmt) : list item -> Prop := match s with STMT_BLOCK _ => no_error | _ => stmt_stop end.

Lemma after_stop s items : stmt_stop items -> after s items.
Proof. intros H. destruct s; try done. by apply stmt_stop_error. Qed.

Lemma stmts_count ss : (forall s, s ∈ ss -> stmt_ok s) -> (List.length ss <= List.length (flat_map print_stmt ss))%nat.
Proof.
  induction ss as [|s ss IH]; intros H; [done|]. cbn [flat_map]. rewrite length_app. specialize (IH ltac:(intros; apply H; set_solver)).
  pose proof (stmt_first s (H s ltac:(set_solver))) as Hf. destruct (print_stmt s); [done|]. cbn. lia.
Qed.

Lemma stmts_in ss s : s ∈ ss -> (List.length (print_stmt s) <= List.length (flat_map print_stmt ss))%nat.
Proof.
  induction ss as [|s' ss IH]; [set_solver|]. intros [->|H]%elem_of_cons; cbn [flat_map]; rewrite length_app; [lia|]. specialize (IH H). lia.
Qed.

Lemma expr_not_null e : expr_ok e -> is_null e = false.
Proof. by destruct e; intros []. Qed.
Lemma stmt_not_null s : stmt_ok s -> is_null_stmt s = false.
Proof. by destruct s. Qed.
End Statements.

(** ** Reading statements *)

Section StmtReading.
Context (strtod : list Z -> option Z) (d : Z).
Notation reads := (reads strtod []).
Notation expr_ok := (expr_ok d).
Notation stmt_ok := (stmt_ok d).

Lemma reads_on_type {A} k (f : Parser -> A) (g : TokenType -> A) a :
  (forall p, f p = g (cur_type p)) -> reads k (starts (fun t => g t = a)) (get f) [] a.
Proof.
  intros H p [|i rest] Ha Hr Hp; [done|]. exists p. unfold get. rewrite H, (ahead_type _ _ _ _ Ha), Hr. split_and!; [done..|apply moved_refl].
Qed.

(** A name and what is done with it. *)
Lemma reads_name {B} k stop s x (f : list Z -> M B) items b :
  reads k stop (f x) items b -> (forall rest, stop rest -> no_error (items ++ rest)) ->
  reads k stop (parser_consume strtod TOKEN_IDENTIFIER s ;; let! y := prev_lexeme in f y) (word x :: items) b.
Proof.
  intros Hf Hs p rest Ha Hr Hp. unfold bind at 1, parser_consume, is_current. rewrite (ahead_type _ _ _ _ Ha).
  apply (reads_previous strtod [] k stop (word x) lexeme f items x b); [done|by intros t (_ & ? & _)|done..].
Qed.

Lemma reads_named {B} k stop s x (f : list Z -> M B) items b :
  reads k stop (f x) items b -> (forall rest, stop rest -> no_error (items ++ rest)) ->
  reads k stop (let! y := named strtod s in f y) (word x :: items) b.
Proof.
  intros Hf Hs. apply (reads_seq _ _ _ no_error _ _ _ _ _ x); [|done..].
  apply (reads_name _ _ _ _ ret); [apply parse_ret|done].
Qed.

Section OneLevel.
Context (m : nat) (rec : calls).
Hypothesis Hparse : forall e, expr_ok e -> (List.length (print_expr e) <= m)%nat -> reads d (stops 11) (parse_expression strtod m rec) (print_expr e) e.
Hypothesis Hexpr : forall e, expr_ok e -> (List.length (print_expr e) < m)%nat -> reads d (stops 11) (call_expression rec) (print_expr e) e.
Hypothesis Htype : forall t, writable [] t -> (List.length (print_type t) <= m)%nat -> reads d type_stop (parse_type strtod m rec) (print_type t) t.
Hypothesis Hctype : forall t, writable [] t -> (List.length (print_type t) < m)%nat -> reads d type_stop (call_type rec) (print_type t) t.
Hypothesis Hstmt : forall s, stmt_ok s -> is_declaration s = false -> (List.length (print_stmt s) < m)%nat ->
  reads d (after s) (call_statement rec) (print_stmt s) s.
Hypothesis Hdecl : forall s, stmt_ok s -> (List.length (print_stmt s) < m)%nat -> reads d stmt_stop (call_declaration rec) (print_stmt s) s.

(** An expression and the token that ends it. *)
Lemma reads_expr_then {B} (call : M Expr) stop e i (f : Expr -> M B) items b :
  reads d (stops 11) call (print_expr e) e -> (11 < rank_tok (i_type i))%nat -> reads d stop (f e) (i :: items) b ->
  reads d stop (let! x := call in f x) (print_expr e ++ i :: items) b.
Proof.
  intros He Hi Hf. eapply parse_bind; [exact He|exact Hf|]. intros rest _. split; [done|]. intros E. rewrite E in Hi. cbn in Hi. lia.
Qed.

Lemma reads_semicolon {B} s (a : B) : reads d stmt_stop (parser_consume strtod TOKEN_SEMICOLON s ;; ret a) [tok TOKEN_SEMICOLON] a.
Proof. eapply reads_seq; [by apply reads_consume|apply parse_ret|apply stmt_stop_error]. Qed.

Lemma expr_error e rest : expr_ok e -> no_error (print_expr e ++ rest).
Proof. intros [He _]. by apply (print_error []). Qed.

(** *** Blocks *)

Lemma reads_block_loop ss : (forall s, s ∈ ss -> stmt_ok s) -> (List.length (flat_map print_stmt ss) < m)%nat ->
  forall f acc, (List.length ss < f)%nat ->
  reads d (starts (fun t => t = TOKEN_RBRACE)) (block_loop strtod rec f acc) (flat_map print_stmt ss) (acc ++ ss).
Proof.
  intros Hok Hl. induction ss as [|s ss IH]; intros f acc Hf; (destruct f as [|f]; [lia|]); cbn [block_loop flat_map] in *.
  - rewrite app_nil_r. eapply reads_test; [apply (reads_on_type _ _ (fun t => token_eqb t TOKEN_RBRACE || token_eqb t TOKEN_EOF) true); done|apply parse_ret|].
    intros [|i rest]; [done|]. cbn. by intros ->.
  - assert (stmt_ok s) as Hs by (apply Hok; set_solver). rewrite length_app in Hl.
    eapply reads_test; [apply (reads_on_type _ _ (fun t => token_eqb t TOKEN_RBRACE || token_eqb t TOKEN_EOF) false); done| |].
    + cbn beta iota. eapply parse_bind; [apply Hdecl; [done|lia]| |].
      * rewrite (stmt_not_null d s Hs). rewrite (snoc_app acc ss s). apply IH; [intros; apply Hok; set_solver|lia|cbn in Hf; lia].
      * intros [|i rest] Hr; [done|]. apply (stmts_stop d); [intros; apply Hok; set_solver|by rewrite Hr..].
    + intros rest _. rewrite <- app_assoc. pose proof (stmt_first d s Hs) as Hst. destruct (print_stmt s) as [|i l]; [done|].
      cbn in *. destruct Hst as [Hst _]. by destruct (i_type i).
Qed.

Lemma reads_block ss : stmt_ok (STMT_BLOCK ss) -> (List.length (flat_map print_stmt ss) < m)%nat ->
  reads d no_error (parse_block_statement strtod m rec) (flat_map print_stmt ss ++ [tok TOKEN_RBRACE]) (STMT_BLOCK ss).
Proof.
  intros Hok Hl. assert (forall s, s ∈ ss -> stmt_ok s) as Hs by (intros s; by apply (foldr_in stmt_ok ss)).
  eapply parse_bind; [apply (reads_block_loop ss Hs Hl m []); pose proof (stmts_count d ss Hs); lia| |done].
  eapply reads_seq; [by apply reads_consume|apply parse_ret|done].
Qed.

Lemma block_error ss rest : stmt_ok (STMT_BLOCK ss) -> no_error (flat_map print_stmt ss ++ tok TOKEN_RBRACE :: rest).
Proof. intros Hok. apply stmt_stop_error, (stmts_stop d); [|done..]. intros s. by apply (foldr_in stmt_ok ss). Qed.

(** *** Statements *)

(** The keyword that selects a statement is read. *)
Lemma reads_statement_keyword t (k : M Stmt) items s :
  t <> TOKEN_EOF -> reads d stmt_stop k items s -> (forall rest, stmt_stop rest -> no_error (items ++ rest)) ->
  reads d stmt_stop (parser_advance strtod ;; k) (tok t :: items) s.
Proof. intros Ht Hk Hs. eapply reads_seq; [by apply reads_advance|done|done]. Qed.

Lemma reads_expression_statement e : expr_ok e -> (List.length (print_expr e) <= m)%nat ->
  reads d stmt_stop (parse_expression_statement strtod m rec) (print_expr e ++ [tok TOKEN_SEMICOLON]) (STMT_EXPR e).
Proof.
  intros He Hl. apply reads_expr_then; [by apply Hparse|cbn; lia|]. unfold parser_finish_expression_statement. rewrite (expr_not_null d e He).
  rewrite <- (app_nil_r [_]). eapply parse_bind with (stop1 := no_error) (a := (STMT_EXPR e, NULL_EXPR)); [|apply parse_ret|apply stmt_stop_error].
  eapply reads_test; [apply match_any_miss| |].
  - eapply reads_seq; [by apply reads_match|apply parse_ret|done].
  - intros rest _. cbn. unfold assignment_operators. set_solver.
Qed.

Lemma assign_hit k : reads k no_error (match_any strtod assignment_operators) [tok TOKEN_ASSIGN] (Some TOKEN_ASSIGN).
Proof. eapply reads_seq; [by apply reads_match|apply parse_ret|done]. Qed.

Lemma reads_assignment x v : expr_ok v -> (List.length (print_stmt (STMT_ASSIGN x v TOKEN_ASSIGN)) <= m)%nat -> 10 <= d ->
  reads d stmt_stop (parse_expression_statement strtod m rec) (print_stmt (STMT_ASSIGN x v TOKEN_ASSIGN)) (STMT_ASSIGN x v TOKEN_ASSIGN).
Proof.
  intros Hv Hl Hd. cbn [print_stmt] in *. rewrite !length_cons, length_app in Hl.
  apply (reads_expr_then _ _ (EXPR_IDENTIFIER x) (tok TOKEN_ASSIGN)); [apply Hparse; [split; [done|exact Hd]|cbn; lia]|cbn; lia|].
  cbn [parser_finish_expression_statement is_null].
  rewrite <- (app_nil_r (_ :: _)). eapply parse_bind with (stop1 := stmt_stop) (a := (STMT_ASSIGN x v TOKEN_ASSIGN, NULL_EXPR)); [|apply parse_ret|done].
  eapply reads_seq; [apply assign_hit| |intros; rewrite <- app_assoc; by apply expr_error].
  apply reads_expr_then; [apply Hexpr; [done|lia]|cbn; lia|].
  eapply reads_seq; [by apply reads_consume| |apply stmt_stop_error]. rewrite (expr_not_null d v Hv). apply parse_ret.
Qed.

(** A condition in parentheses and the body that follows. *)
Lemma reads_condition {B} s1 s2 e stop (f : Expr -> M B) items b :
  expr_ok e -> (List.length (print_expr e) < m)%nat ->
  reads d stop (f e) items b -> (forall rest, stop rest -> no_error (items ++ rest)) ->
  reads d stop (parser_consume strtod TOKEN_LPAREN s1 ;; let! c := call_expression rec in parser_consume strtod TOKEN_RPAREN s2 ;; f c)
    (tok TOKEN_LPAREN :: print_expr e ++ tok TOKEN_RPAREN :: items) b.
Proof.
  intros He Hl Hf Hs. eapply reads_seq; [by apply reads_consume| |intros; rewrite <- app_assoc; by apply expr_error].
  apply reads_expr_then; [by apply Hexpr|cbn; lia|]. eapply reads_seq; [by apply reads_consume|done|done].
Qed.

Lemma stmt_error s rest : stmt_ok s -> no_error (print_stmt s ++ rest).
Proof. intros Hs. by apply (stmt_not d). Qed.

Lemma block_not_declaration s : is_block s -> is_declaration s = false.
Proof. by destruct s. Qed.

Lemma reads_body {B} s (f : Stmt -> B) : stmt_ok s -> is_block s -> (List.length (print_stmt s) < m)%nat ->
  reads d stmt_stop (let! b := call_statement rec in ret (f b)) (print_stmt s) (f s).
Proof.
  intros Hs Hb Hl. rewrite <- (app_nil_r (print_stmt s)).
  eapply parse_bind; [apply Hstmt; [done|by apply block_not_declaration|done]|apply parse_ret|apply after_stop].
Qed.

Lemma reads_if_statement c t f : stmt_ok (STMT_IF c t f) -> (List.length (print_stmt (STMT_IF c t f)) <= m)%nat ->
  reads d stmt_stop (parser_advance strtod ;; parse_if_statement strtod m rec) (print_stmt (STMT_IF c t f)) (STMT_IF c t f).
Proof.
  intros (Hc & Hb & Ht & Hf) Hl. cbn [print_stmt] in *. rewrite !length_cons, length_app, length_cons, length_app in Hl.
  apply reads_statement_keyword; [done| |done]. eapply reads_test; [apply reads_no_match| |done]. cbn beta iota.
  apply reads_condition; [done|lia| |intros; rewrite <- app_assoc; by apply stmt_error].
  eapply parse_bind; [apply Hstmt; [done|by apply block_not_declaration|lia]| |].
  - unfold else_clause. destruct (is_null_stmt f) eqn:En; [destruct f; try done|].
    + eapply reads_test; [eapply reads_test; [apply reads_no_match|apply parse_ret|intros rest Hr; exact Hr]|apply parse_ret|].
      intros [|i rest]; [done|]. by intros [_ ?].
    + assert (stmt_ok f /\ is_declaration f = false) as [Hok Hd] by (by destruct f).
      replace (match f with NULL_STMT => [] | _ => _ end) with ((tok TOKEN_KEYWORD_ELSE :: print_stmt f) ++ []) by (rewrite app_nil_r; by destruct f).
      assert (List.length (print_stmt f) < m)%nat by (destruct f; try done; cbn [List.length] in Hl; lia).
      eapply parse_bind; [eapply reads_seq; [by apply reads_match|by apply Hstmt|intros; by apply stmt_error]|apply parse_ret|apply after_stop].
  - intros rest Hr. destruct t; try done. destruct f; try done. by apply stmt_stop_error.
Qed.

Lemma reads_while c b : stmt_ok (STMT_WHILE c b) -> (List.length (print_stmt (STMT_WHILE c b)) <= m)%nat ->
  reads d stmt_stop (parser_advance strtod ;; parse_while_statement strtod m rec) (print_stmt (STMT_WHILE c b)) (STMT_WHILE c b).
Proof.
  intros (Hc & Hb & Hok) Hl. cbn [print_stmt] in *. rewrite !length_cons, length_app, length_cons in Hl.
  apply reads_statement_keyword; [done| |done]. eapply reads_test; [apply reads_no_match| |done]. cbn beta iota.
  apply reads_condition; [done|lia|apply reads_body; [done|done|lia]|intros; by apply stmt_error].
Qed.

(** The head of [foreach]. *)
Lemma reads_foreach_head {B} x e i (f : list Z -> Expr -> M B) items b s1 s2 s3 :
  expr_ok e -> (List.length (print_expr e) < m)%nat -> (11 < rank_tok (i_type i))%nat -> reads d stmt_stop (f x e) (i :: items) b ->
  reads d stmt_stop
    (parser_consume strtod TOKEN_LPAREN s1 ;; parser_match strtod TOKEN_KEYWORD_VAR ;; parser_consume strtod TOKEN_IDENTIFIER s2 ;;
     let! y := prev_lexeme in parser_consume strtod TOKEN_IN s3 ;; let! start := call_expression rec in f y start)
    (tok TOKEN_LPAREN :: word x :: tok TOKEN_IN :: print_expr e ++ i :: items) b.
Proof.
  intros He Hl Hi Hf. eapply reads_seq; [by apply reads_consume| |done]. eapply reads_test; [apply reads_no_match| |done].
  apply reads_name; [|done]. eapply reads_seq; [by apply reads_consume| |intros; rewrite <- app_assoc; by apply expr_error].
  apply reads_expr_then; [by apply Hexpr|done|done].
Qed.

Lemma reads_foreach x e b : stmt_ok (STMT_FOREACH x e b) -> (List.length (print_stmt (STMT_FOREACH x e b)) <= m)%nat ->
  reads d stmt_stop (parser_advance strtod ;; parse_foreach_statement strtod rec) (print_stmt (STMT_FOREACH x e b)) (STMT_FOREACH x e b).
Proof.
  intros (He & Hb & Hok) Hl. cbn [print_stmt] in *. rewrite !length_cons, length_app, length_cons in Hl.
  apply reads_statement_keyword; [done| |done]. apply reads_foreach_head; [done|lia|cbn; lia|].
  eapply reads_test; [apply reads_no_match| |done]. cbn beta iota. eapply reads_test; [apply (parse_ret _ _ _ (fun _ => True))| |done].
  eapply reads_seq; [by apply reads_consume| |intros; by apply stmt_error]. apply reads_body; [done|done|lia].
Qed.

Lemma reads_for_range x l h b : stmt_ok (STMT_FOR_RANGE x l h b) -> (List.length (print_stmt (STMT_FOR_RANGE x l h b)) <= m)%nat ->
  reads d stmt_stop (parser_advance strtod ;; parse_foreach_statement strtod rec) (print_stmt (STMT_FOR_RANGE x l h b)) (STMT_FOR_RANGE x l h b).
Proof.
  intros (Hlo & Hhi & Hb & Hok) Hl. cbn [print_stmt] in *. rewrite !length_cons, length_app, length_cons, length_app, length_cons in Hl.
  apply reads_statement_keyword; [done| |done]. apply reads_foreach_head; [done|lia|cbn; lia|].
  eapply reads_seq; [by apply reads_match| |intros; rewrite <- app_assoc; by apply expr_error]. cbn beta iota.
  apply reads_expr_then; [apply Hexpr; [done|lia]|cbn; lia|].
  eapply reads_seq; [by apply reads_consume| |intros; by apply stmt_error]. apply reads_body; [done|done|lia].
Qed.

(** The type of the first token selects the branch. *)
Lemma reads_by_type {A} P stop (f : TokenType -> M A) items a :
  starts P items -> (forall t, P t -> reads d stop (f t) items a) -> reads d stop (bind (get cur_type) f) items a.
Proof.
  intros Hi Hf p rest Ha Hr Hp. destruct items as [|i items]; [done|]. unfold bind, get. rewrite (ahead_type _ _ _ _ Ha). by apply (Hf (i_type i) Hi p rest).
Qed.

Lemma reads_return e : stmt_ok (STMT_RETURN e) -> (List.length (print_stmt (STMT_RETURN e)) <= m)%nat ->
  reads d stmt_stop (parse_statement strtod m rec) (print_stmt (STMT_RETURN e)) (STMT_RETURN e).
Proof.
  intros Hok Hl. destruct Hok as [->|He]; cbn [print_stmt] in *.
  - apply reads_keyword, reads_statement_keyword; [done| |done].
    eapply reads_test; [apply (reads_is_current _ _ _ TOKEN_SEMICOLON true)| |done]. cbn beta iota.
    eapply reads_test; [apply (parse_ret _ _ _ (fun _ => True))|apply reads_semicolon|done].
  - assert (match e with NULL_EXPR => [] | _ => print_expr e end = print_expr e) as E by (by destruct He as [He _]; destruct e). rewrite E in *.
    rewrite length_cons, length_app in Hl. apply reads_keyword, reads_statement_keyword; [done| |intros; rewrite <- app_assoc; by apply expr_error].
    eapply reads_test; [apply (reads_is_current _ _ _ TOKEN_SEMICOLON false)| |].
    + apply reads_expr_then; [apply Hparse; [done|lia]|cbn; lia|apply reads_semicolon].
    + intros rest _. apply starts_eqb. rewrite <- app_assoc. destruct He as [He _]. by apply (print_not []).
Qed.

(** A statement that is no declaration. *)
Lemma statement_step s : 10 <= d -> stmt_ok s -> is_declaration s = false -> (List.length (print_stmt s) <= m)%nat ->
  reads d (after s) (parse_statement strtod m rec) (print_stmt s) s.
Proof.
  intros Hd Hok Hs Hl. destruct s; try done; cbn [after].
  - apply (reads_by_type (fun t => expr_start t = true)).
    + cbn [print_stmt]. apply starts_app. apply (print_first [] 11), (proj1 Hok).
    + intros t Ht. cbn [print_stmt] in *. rewrite length_app in Hl.
      destruct t; try discriminate Ht; (apply reads_expression_statement; [done|lia]).
  - destruct Hok as [-> Hv]. apply (reads_by_type (fun t => t = TOKEN_IDENTIFIER)); [done|]. intros t ->. by apply reads_assignment.
  - cbn [print_stmt] in *. rewrite length_cons, length_app in Hl. apply reads_keyword.
    eapply reads_seq; [by apply reads_advance| |intros; rewrite <- app_assoc; by apply block_error]. apply reads_block; [done|cbn in Hl; lia].
  - apply reads_keyword. by apply reads_if_statement.
  - apply reads_keyword. by apply reads_while.
  - apply reads_keyword. by apply reads_foreach.
  - apply reads_keyword. by apply reads_for_range.
  - apply reads_keyword, reads_statement_keyword; [done|apply reads_semicolon|done].
  - apply reads_keyword, reads_statement_keyword; [done|apply reads_semicolon|done].
  - by apply reads_return.
  - cbn [print_stmt] in *. rewrite length_cons, length_app in Hl.
    apply reads_keyword, reads_statement_keyword; [done| |intros; rewrite <- app_assoc; by apply expr_error].
    apply reads_expr_then; [apply Hparse; [done|lia]|cbn; lia|apply reads_semicolon].
Qed.

(** *** Declarations *)

Lemma reads_annotation t : match t with Some t => writable [] t | None => True end -> (List.length (print_annotation t) <= m)%nat ->
  reads d (starts (fun t => t = TOKEN_ASSIGN \/ t = TOKEN_SEMICOLON)) (annotation strtod m rec) (print_annotation t) t.
Proof.
  intros Ht Hl. unfold annotation. destruct t as [t|]; cbn [print_annotation] in *.
  - eapply reads_seq; [by apply reads_match| |intros; by eapply type_first_error]. rewrite <- (app_nil_r (print_type t)).
    eapply parse_bind; [apply Htype; [done|cbn in Hl; lia]|apply parse_ret|]. intros [|i rest]; [done|]. cbn. by intros [-> | ->].
  - eapply reads_test; [apply reads_no_match|apply parse_ret|]. intros [|i rest]; [done|]. cbn. by intros [-> | ->].
Qed.

Lemma reads_var x t e is_mutable : stmt_ok (STMT_VAR_DECL true x t e is_mutable) ->
  (List.length (print_stmt (STMT_VAR_DECL true x t e is_mutable)) <= m)%nat ->
  reads d stmt_stop (parse_var_declaration strtod m rec is_mutable) (tail (print_stmt (STMT_VAR_DECL true x t e is_mutable)))
    (STMT_VAR_DECL true x t e is_mutable).
Proof.
  intros (_ & Ht & He) Hl. cbn [print_stmt tail] in *. rewrite !length_cons, !length_app in Hl. unfold parse_var_declaration.
  assert (forall rest, starts (fun t => t = TOKEN_ASSIGN \/ t = TOKEN_SEMICOLON) ((print_init e ++ [tok TOKEN_SEMICOLON]) ++ rest)) as Hi
    by (intros; destruct e; cbn; auto).
  eapply reads_test; [apply reads_no_match| |done]. cbn beta iota. apply reads_named.
  - eapply parse_bind; [apply reads_annotation; [done|lia]| |intros; apply Hi].
    destruct He as [[-> ->]|He].
    + eapply reads_test; [apply reads_no_match| |done]. cbn beta iota. eapply reads_test; [apply (parse_ret _ _ _ (fun _ => True))| |done].
      eapply reads_test; [apply (parse_ret _ _ _ (fun _ => True))|apply reads_semicolon|done].
    + assert (print_init e = tok TOKEN_ASSIGN :: print_expr e) as E by (by destruct He as [He _]; destruct e). rewrite E in *.
      eapply reads_seq; [by apply reads_match| |intros; rewrite <- app_assoc; by apply expr_error]. cbn beta iota.
      apply reads_expr_then; [apply Hparse; [done|cbn in Hl; lia]|cbn; lia|].
      rewrite (expr_not_null d e He), andb_false_r. eapply reads_test; [apply (parse_ret _ _ _ (fun _ => True))|apply reads_semicolon|done].
  - intros rest _. destruct t; [done|]. specialize (Hi rest). cbn [print_annotation app]. destruct (_ ++ rest); [done|].
    cbn in Hi |- *. by destruct Hi as [-> | ->].
Qed.

Lemma reads_signature ps ts r : List.length ps = List.length ts -> (forall t, t ∈ ts -> writable [] t) -> writable [] r ->
  (List.length (commas (map print_param (zip ps ts))) + List.length (print_type r) + 3 <= m)%nat ->
  reads d type_stop (parse_function_signature strtod m rec)
    (tok TOKEN_LPAREN :: commas (map print_param (zip ps ts)) ++ tok TOKEN_RPAREN :: tok TOKEN_COLON :: print_type r) (ps, ts, r).
Proof.
  intros Hlen Hts Hr Hl. unfold parse_function_signature.
  assert (forall x, x ∈ zip ps ts -> writable [] (snd x)) as Hz by (intros [x t] Hx%elem_of_zip_r; by apply Hts).
  assert (forall rest, no_error (commas (map print_param (zip ps ts)) ++ tok TOKEN_RPAREN :: rest)) as Hfirst
    by (intros; destruct (zip ps ts) as [|? [|]]; done).
  eapply reads_seq; [by apply reads_consume| |intros; rewrite <- app_assoc; apply Hfirst].
  eapply parse_bind with (a := zip ps ts) (stop1 := starts (fun t => t = TOKEN_RPAREN)); [| |done].
  - unfold list_unless. destruct (zip ps ts) as [|y l] eqn:E.
    + eapply reads_test; [apply (reads_is_current _ _ _ TOKEN_RPAREN true)|apply parse_ret|]. intros [|i rest]; [done|]. cbn. by intros ->.
    + rewrite <- E in *. eapply reads_test; [apply (reads_is_current _ _ _ TOKEN_RPAREN false)| |].
      * eapply (reads_list _ _ _ _ _ _ _ type_stop); [by rewrite E| | |done|done|].
        -- pose proof (commas_count print_param (zip ps ts) ltac:(done)). lia.
        -- intros [x t] Hx. pose proof (commas_in print_param _ _ Hx) as Hc. cbn [print_param List.length fst snd] in Hc.
           apply reads_name; [|done]. eapply reads_seq; [by apply reads_consume| |intros; eapply type_first_error, (Hz _ Hx)].
           cbn [fst snd]. rewrite <- (app_nil_r (print_type t)). eapply parse_bind; [apply Hctype; [apply (Hz _ Hx)|lia]|apply parse_ret|done].
        -- intros [|i rest]; [done|]. cbn. by intros ->.
      * intros rest _. rewrite E. by destruct l.
  - eapply reads_seq; [by apply reads_consume| |done]. eapply reads_seq; [by apply reads_match| |intros; by eapply type_first_error]. cbn beta iota.
    rewrite <- (app_nil_r (print_type r)). eapply parse_bind; [apply Hctype; [done|lia]| |done].
    replace (ps, ts, r) with (map fst (zip ps ts), map snd (zip ps ts), r) by (by rewrite fst_zip, snd_zip by lia).
    apply parse_ret.
Qed.

Lemma reads_function_body ss : stmt_ok (STMT_BLOCK ss) -> (List.length (flat_map print_stmt ss) < m)%nat ->
  reads d no_error (function_body strtod m rec false) (flat_map print_stmt ss ++ [tok TOKEN_RBRACE]) (STMT_BLOCK ss).
Proof.
  intros Hok Hl p rest Ha Hr Hp. destruct (reads_block ss Hok Hl p rest Ha Hr Hp) as (p' & E & H1 & H2).
  destruct Hp as (_ & _ & Hf & _). unfold function_body, bind, get, update. rewrite Hf.
  assert (set_async false p = p) as -> by (destruct p; cbn in Hf; by subst). rewrite E.
  assert (set_async false p' = p') as -> by (rewrite H2; destruct p; cbn in Hf; by subst). by exists p'.
Qed.

Lemma reads_func r x ps ts b : stmt_ok (STMT_FUNC_DECL true r x [] [] ps ts b false) ->
  (List.length (print_stmt (STMT_FUNC_DECL true r x [] [] ps ts b false)) <= m)%nat ->
  reads d stmt_stop (parse_func_declaration strtod m rec false) (tail (print_stmt (STMT_FUNC_DECL true r x [] [] ps ts b false)))
    (STMT_FUNC_DECL true r x [] [] ps ts b false).
Proof.
  intros (_ & Hr & _ & _ & Hlen & Hts & Hb & Hok & _) Hl. destruct b as [| | | | |ss| | | | | | | | | | | | | | | | | |]; try done.
  cbn [print_stmt tail] in *. rewrite !length_cons, !length_app, !length_cons, !length_app, !length_cons, !length_app in Hl.
  apply reads_named; [|done]. unfold parse_function_type_params, parse_type_params.
  eapply reads_test; [eapply reads_test; [apply reads_no_match|apply parse_ret|intros rest Hx; exact Hx]| |done]. cbn beta iota.
  rewrite <- (app_nil_r (tok TOKEN_LPAREN :: _)).
  eapply parse_bind with (stop1 := no_error) (a := (ps, ts, r, STMT_BLOCK ss)); [|apply parse_ret|apply stmt_stop_error].
  apply reads_with_params; [done|].
  change (tok TOKEN_RPAREN :: tok TOKEN_COLON :: print_type r ++ tok TOKEN_LBRACE :: flat_map print_stmt ss ++ [tok TOKEN_RBRACE])
    with ((tok TOKEN_RPAREN :: tok TOKEN_COLON :: print_type r) ++ tok TOKEN_LBRACE :: flat_map print_stmt ss ++ [tok TOKEN_RBRACE]).
  rewrite app_assoc, app_comm_cons.
  eapply parse_bind; [apply reads_signature; [done|intros t; by apply (foldr_in (writable []) ts)|done|lia]| |done]. cbn beta iota.
  eapply reads_seq; [by apply reads_consume| |intros; rewrite <- app_assoc; by apply block_error].
  rewrite <- (app_nil_r (_ ++ [_])). eapply parse_bind; [apply reads_function_body; [done|cbn in Hl; lia]|apply parse_ret|done].
Qed.

(** The keyword of a declaration without a modifier. *)
Lemma reads_modified t (k : M Stmt) items s :
  t <> TOKEN_EOF -> reads d stmt_stop k items s -> (forall rest, stmt_stop rest -> no_error (items ++ rest)) ->
  reads d stmt_stop (parser_advance strtod ;; let! s := k in parser_apply_visibility_modifier s false true) (tok t :: items) s.
Proof.
  intros Ht Hk Hs. apply reads_statement_keyword; [done| |done]. rewrite <- (app_nil_r items). eapply parse_bind; [exact Hk|apply parse_ret|done].
Qed.

Lemma declaration_step s : 10 <= d -> stmt_ok s -> (List.length (print_stmt s) <= m)%nat ->
  reads d stmt_stop (parse_declaration strtod m rec) (print_stmt s) s.
Proof.
  intros Hd Hok Hl. pose proof (stmt_first d s Hok) as Hf. unfold parse_declaration.
  eapply reads_test with (a := (false, true)) (stop1 := starts (fun t => t ∉ [TOKEN_KEYWORD_PUBLIC; TOKEN_KEYWORD_PRIVATE])).
  - eapply reads_test; [apply match_any_miss|apply parse_ret|done].
  - cbn beta iota zeta. destruct (is_declaration s) eqn:E.
    + destruct s; try done.
      * pose proof Hok as (-> & _). pose proof (reads_var _ _ _ _ Hok Hl).
        destruct is_mutable; apply reads_keyword, reads_modified; try done;
          (intros rest _; destruct type_annotation; [done|]; cbn; by destruct initializer).
      * pose proof Hok as (-> & _ & -> & -> & _ & _ & _ & _ & ->). apply reads_keyword, reads_modified; [done|by apply reads_func|done].
    + apply (reads_by_type (fun t => stmt_start t = true /\ declares t = false)); [done|]. intros t [Ht Ht'].
      assert (reads d stmt_stop (ret tt ;; parse_statement strtod m rec) (print_stmt s) s) as Hs.
      { eapply reads_test; [apply (parse_ret _ _ _ (fun _ => True))| |done].
        eapply reads_weaken; [by apply statement_step|done|apply after_stop]. }
      destruct t; try discriminate Ht; try discriminate Ht'; exact Hs.
  - intros rest _. destruct (print_stmt s) as [|i l]; [done|]. cbn in *. destruct Hf as [Hf _].
    intros Hin. repeat (apply elem_of_cons in Hin as [Hin|Hin]; [by rewrite Hin in Hf|]). by apply elem_of_nil in Hin.
Qed.
End OneLevel.

(** The parser reads back statements and declarations. *)
Lemma stmt_reads m : 10 <= d -> forall s, stmt_ok s -> (List.length (print_stmt s) <= m)%nat ->
  reads d stmt_stop (parse_declaration strtod m (parsers strtod m)) (print_stmt s) s
  /\ (is_declaration s = false -> reads d (after s) (parse_statement strtod m (parsers strtod m)) (print_stmt s) s).
Proof.
  intros Hd. assert (forall m e, expr_ok e -> (List.length (print_expr e) <= m)%nat ->
    reads d (stops 11) (parse_expression strtod m (parsers strtod m)) (print_expr e) e) as Hp.
  { intros m' e [He Hn] Hl. eapply reads_weaken; [by apply (expr_reads strtod [] m' 11)|done|done]. }
  induction m as [|m IH]; intros s Hs Hl; (split; [|intros Hdecl]; [apply declaration_step|apply statement_step]); try done;
    try (intros; by apply Hp); try (intros; by apply type_reads); try (intros; lia); intros.
  all: first [apply Hp; [done|lia]|apply type_reads; [done|lia]|apply IH; [done|lia|done]|apply IH; [done|lia]].
Qed.
End StmtReading.

(** ** Programs *)

Lemma reads_program strtod d m n ss : 10 <= d -> (forall s, s ∈ ss -> stmt_ok d s /\ (List.length (print_stmt s) <= m)%nat) -> (List.length ss < n)%nat ->
  forall acc, reads strtod [] d (starts (fun t => t = TOKEN_EOF)) (program_loop strtod m (parsers strtod m) n acc) (flat_map print_stmt ss) (acc ++ ss).
Proof.
  intros Hd. revert n. induction ss as [|s ss IH]; intros n Hs Hn acc; (destruct n as [|n]; [lia|]); cbn [program_loop flat_map].
  - rewrite app_nil_r. eapply reads_test; [apply (reads_is_current _ _ _ TOKEN_EOF true)|apply parse_ret|]. intros [|i rest]; [done|]. cbn. by intros ->.
  - destruct (Hs s) as [Hok Hl]; [set_solver|].
    eapply reads_test; [apply (reads_is_current _ _ _ TOKEN_EOF false)| |intros; apply starts_eqb; rewrite <- app_assoc; by apply (stmt_not d)].
    cbn beta iota. eapply parse_bind; [by apply stmt_reads| |].
    + eapply reads_test; [by apply (reads_get_ready _ _ _ _ false); intros p (_ & ? & _)| |done].
      eapply reads_test; [apply (parse_ret _ _ _ (fun _ => True))| |done].
      rewrite (stmt_not_null d s Hok), (snoc_app acc ss s). apply IH; [intros; apply Hs; set_solver|cbn in Hn; lia].
    + intros [|i rest] Hr; [done|]. cbn in Hr. apply (stmts_stop d); [intros; apply Hs; set_solver|by rewrite Hr..].
Qed.

(** C9: The parser reads back programs: for a text whose tokens are those that
    are printed for a list of statements, within the limit of nesting, it
    reports no error and gives these statements: operators with their
    precedence and associativity, casts, types, declarations, functions,
    branches and loops. *)
Theorem parser_roundtrip (strtod : list Z -> option Z) (n : nat) (source : list Z) (ss : list Stmt) :
  nexts strtod (lexer_init source) (flat_map print_stmt ss ++ [tok TOKEN_EOF]) ->
  foldr and True (map (stmt_ok PARSER_MAX_DEPTH) ss) -> (List.length (flat_map print_stmt ss) < n)%nat ->
  exists p, parser_parse strtod n source = Done (ss, None) p.
Proof.
  intros Hn Hok Hl. assert (forall s, s ∈ ss -> stmt_ok PARSER_MAX_DEPTH s) as Hs by (intros s; by apply (foldr_in (stmt_ok PARSER_MAX_DEPTH) ss)).
  destruct (reads_program strtod PARSER_MAX_DEPTH n n ss) with (acc := @nil Stmt) (p := parser_init strtod source) (rest := [tok TOKEN_EOF])
    as (p & E & _ & Hm).
  - done.
  - intros s Hin. split; [by apply Hs|]. pose proof (stmts_in ss s Hin). lia.
  - pose proof (stmts_count _ ss Hs). lia.
  - unfold parser_init. destruct (lexer_next_token strtod (lexer_init source)) as [t l] eqn:Et.
    destruct (flat_map print_stmt ss ++ [tok TOKEN_EOF]) as [|i items]; [done|]. cbn [nexts] in Hn. by rewrite Et in Hn.
  - done.
  - unfold parser_init. by destruct (lexer_next_token strtod (lexer_init source)).
  - exists p. unfold parser_parse. rewrite E. assert (had_error p = false) as ->; [|done].
    rewrite Hm. unfold parser_init. by destruct (lexer_next_token strtod (lexer_init source)).
Qed.

(** A program, its text and its tree. *)
Definition sample_source : list Z :=
  bytes "func f(a: int, b: array<string?>): int { var x = (a - 1) * -a; if (x < 2 && a != 3) { return x; } else { x = x + a as int; } while (true) { break; } }
const y: map<string, int> = nil; foreach (i in 1 .. y) { f; }".

Definition sample_program : list Stmt :=
  let a := EXPR_IDENTIFIER (bytes "a") in let x := EXPR_IDENTIFIER (bytes "x") in let y := EXPR_IDENTIFIER (bytes "y") in
  let num n := EXPR_LITERAL TYPE_INT (as_int n) in
  [STMT_FUNC_DECL true type_int (bytes "f") [] [] [bytes "a"; bytes "b"] [type_int; type_array (Simple TYPE_STRING true)]
     (STMT_BLOCK
       [STMT_VAR_DECL true (bytes "x") None (EXPR_BINARY (EXPR_BINARY a (num 1) TOKEN_MINUS) (EXPR_UNARY a TOKEN_MINUS) TOKEN_STAR) true;
        STMT_IF (EXPR_BINARY (EXPR_BINARY x (num 2) TOKEN_LT) (EXPR_BINARY a (num 3) TOKEN_BANG_EQ) TOKEN_AND)
          (STMT_BLOCK [STMT_RETURN x])
          (STMT_BLOCK [STMT_ASSIGN (bytes "x") (EXPR_BINARY x (EXPR_CAST a type_int) TOKEN_PLUS) TOKEN_ASSIGN]);
        STMT_WHILE (EXPR_LITERAL TYPE_BOOL (as_int 1)) (STMT_BLOCK [STMT_BREAK])]) false;
   STMT_VAR_DECL true (bytes "y") (Some (type_map type_string type_int)) EXPR_NIL false;
   STMT_FOR_RANGE (bytes "i") (num 1) y (STMT_BLOCK [STMT_EXPR (EXPR_IDENTIFIER (bytes "f"))])].

Lemma parser_roundtrip_witness :
  (List.length (flat_map print_stmt sample_program) < 100)%nat /\
  exists p, parser_parse (fun _ => None) 100 sample_source = Done (sample_program, None) p.
Proof.
  split; [vm_compute; lia|]. apply parser_roundtrip; [vm_compute; tauto| |vm_compute; lia].
  cbn. unfold expr_ok. cbn. unfold PARSER_MAX_DEPTH.
  repeat split; auto; try lia; try (by vm_compute); right; repeat split; try lia; first [by vm_compute|unfold prefix_operators; set_solver].
Defined.
