(* ===== verification/Types.v ===== *)
(** * Types: [src/src/types.c]

    The type objects of the checker and the operations on them: copying,
    equality, assignability and printing. The definitions of records and
    interfaces are shared objects that types point to; here a type holds the
    number of its definition, and equality of pointers is equality of numbers.
    A child of a type is never [NULL], except a constraint. *)

From Stdlib Require Import String.
From S2P Require Import Prelude Lexer Bytecode Ast Operators.

Open Scope Z_scope.
Open Scope list_scope.

(** The kinds without parts. *)
Inductive plain := P_BOOL | P_DOUBLE | P_BIGINT | P_STRING | P_BYTES | P_NIL | P_VOID | P_ANY.

Definition plain_kind (p : plain) : TypeKind :=
  match p with
  | P_BOOL => TYPE_BOOL
  | P_DOUBLE => TYPE_DOUBLE
  | P_BIGINT => TYPE_BIGINT
  | P_STRING => TYPE_STRING
  | P_BYTES => TYPE_BYTES
  | P_NIL => TYPE_NIL
  | P_VOID => TYPE_VOID
  | P_ANY => TYPE_ANY
  end.

(** [type_param_name] of an integer type is the name of an enumeration. *)
#[warnings="-register-all"]
Inductive Ty :=
  | T_PLAIN (kind : plain) (nullable : bool)
  | T_INT (nullable : bool) (type_param_name : option (list Z))
  | T_ARRAY (nullable : bool) (element_type : Ty)
  | T_FUTURE (nullable : bool) (element_type : Ty)
  | T_FUNCTION (nullable : bool) (return_type : Ty) (param_types : list Ty) (type_params : list (list Z * option Ty))
  | T_TYPE_PARAM (nullable : bool) (type_param_name : list Z)
  | T_TUPLE (nullable : bool) (element_types : list Ty)
  | T_MAP (nullable : bool) (key_type value_type : Ty)
  | T_SET (nullable : bool) (element_type : Ty)
  | T_RECORD (nullable : bool) (record_def : nat) (param_types : list Ty)
  | T_INTERFACE (nullable : bool) (interface_def : nat).

Definition kind (t : Ty) : TypeKind :=
  match t with
  | T_PLAIN k _ => plain_kind k
  | T_INT _ _ => TYPE_INT
  | T_ARRAY _ _ => TYPE_ARRAY
  | T_FUTURE _ _ => TYPE_FUTURE
  | T_FUNCTION _ _ _ _ => TYPE_FUNCTION
  | T_TYPE_PARAM _ _ => TYPE_TYPE_PARAM
  | T_TUPLE _ _ => TYPE_TUPLE
  | T_MAP _ _ _ => TYPE_MAP
  | T_SET _ _ => TYPE_SET
  | T_RECORD _ _ _ => TYPE_RECORD
  | T_INTERFACE _ _ => TYPE_INTERFACE
  end.

Definition nullable (t : Ty) : bool :=
  match t with
  | T_PLAIN _ q | T_INT q _ | T_ARRAY q _ | T_FUTURE q _ | T_FUNCTION q _ _ _ | T_TYPE_PARAM q _ | T_TUPLE q _ | T_MAP q _ _ | T_SET q _
  | T_RECORD q _ _ | T_INTERFACE q _ => q
  end.

Definition with_nullable (q : bool) (t : Ty) : Ty :=
  match t with
  | T_PLAIN k _ => T_PLAIN k q
  | T_INT _ x => T_INT q x
  | T_ARRAY _ e => T_ARRAY q e
  | T_FUTURE _ e => T_FUTURE q e
  | T_FUNCTION _ r ps xs => T_FUNCTION q r ps xs
  | T_TYPE_PARAM _ x => T_TYPE_PARAM q x
  | T_TUPLE _ es => T_TUPLE q es
  | T_MAP _ k v => T_MAP q k v
  | T_SET _ e => T_SET q e
  | T_RECORD _ d ps => T_RECORD q d ps
  | T_INTERFACE _ d => T_INTERFACE q d
  end.

Definition ty_any : Ty := T_PLAIN P_ANY false.
Definition ty_nil : Ty := T_PLAIN P_NIL false.

(** ** Loops over two arrays of the same length *)

Definition all2 {A B} (f : A -> B -> bool) : list A -> list B -> bool :=
  fix go l1 l2 :=
    match l1, l2 with
    | [], [] => true
    | a :: l1, b :: l2 => f a b && go l1 l2
    | _, _ => false
    end.

Definition both_or_none {A B} (f : A -> B -> bool) (a : option A) (b : option B) : bool :=
  match a, b with
  | None, None => true
  | Some a, Some b => f a b
  | _, _ => false
  end.

(** [strcmp(a, b) == 0] of two names. *)
Definition name_eqb (a b : list Z) : bool := bool_decide (a = b).

(** ** Operations *)

Fixpoint type_clone (t : Ty) : Ty :=
  match t with
  | T_PLAIN k q => T_PLAIN k q
  | T_INT q x => T_INT q x
  | T_ARRAY q e => T_ARRAY q (type_clone e)
  | T_FUTURE q e => T_FUTURE q (type_clone e)
  | T_FUNCTION q r ps xs => T_FUNCTION q (type_clone r) (map type_clone ps) (map (fun x => (fst x, option_map type_clone (snd x))) xs)
  | T_TYPE_PARAM q x => T_TYPE_PARAM q x
  | T_TUPLE q es => T_TUPLE q (map type_clone es)
  | T_MAP q k v => T_MAP q (type_clone k) (type_clone v)
  | T_SET q e => T_SET q (type_clone e)
  | T_RECORD q d ps => T_RECORD q d (map type_clone ps)
  | T_INTERFACE q d => T_INTERFACE q d
  end.

Definition type_nullable (t : Ty) : Ty := with_nullable true (type_clone t).

(** The definitions that a copy retains, and those that freeing releases. *)
Fixpoint clone_retains (t : Ty) : list nat :=
  match t with
  | T_PLAIN _ _ | T_INT _ _ | T_TYPE_PARAM _ _ => []
  | T_ARRAY _ e | T_FUTURE _ e | T_SET _ e => clone_retains e
  | T_FUNCTION _ r ps xs =>
      clone_retains r ++ flat_map clone_retains ps ++ flat_map (fun x => match snd x with Some c => clone_retains c | None => [] end) xs
  | T_TUPLE _ es => flat_map clone_retains es
  | T_MAP _ k v => clone_retains k ++ clone_retains v
  | T_RECORD _ d ps => d :: flat_map clone_retains ps
  | T_INTERFACE _ d => [d]
  end.
Fixpoint type_free (t : Ty) : list nat :=
  match t with
  | T_PLAIN _ _ | T_INT _ _ | T_TYPE_PARAM _ _ => []
  | T_ARRAY _ e | T_FUTURE _ e => type_free e
  | T_FUNCTION _ r ps xs =>
      type_free r ++ flat_map type_free ps ++ flat_map (fun x => match snd x with Some c => type_free c | None => [] end) xs
  | T_TUPLE _ es => flat_map type_free es
  | T_MAP _ k v => type_free k ++ type_free v
  | T_SET _ e => type_free e
  | T_RECORD _ d ps => flat_map type_free ps ++ [d]
  | T_INTERFACE _ d => [d]
  end.

Fixpoint type_equals (a b : Ty) : bool :=
  bool_decide (kind a = kind b) && Bool.eqb (nullable a) (nullable b) &&
  match a, b with
  | T_ARRAY _ x, T_ARRAY _ y | T_FUTURE _ x, T_FUTURE _ y => type_equals x y
  | T_FUNCTION _ r ps xs, T_FUNCTION _ r' ps' xs' =>
      (List.length ps =? List.length ps')%nat &&
      all2 (fun x y => name_eqb (fst x) (fst y) && both_or_none type_equals (snd x) (snd y)) xs xs' &&
      type_equals r r' && all2 type_equals ps ps'
  | T_TYPE_PARAM _ x, T_TYPE_PARAM _ y => name_eqb x y
  | T_RECORD _ d ps, T_RECORD _ d' ps' => (d =? d')%nat && all2 type_equals ps ps'
  | T_INTERFACE _ d, T_INTERFACE _ d' => (d =? d')%nat
  | T_TUPLE _ es, T_TUPLE _ es' => all2 type_equals es es'
  | T_MAP _ k v, T_MAP _ k' v' => type_equals k k' && type_equals v v'
  | T_SET _ x, T_SET _ y => type_equals x y
  | _, _ => true
  end.

Fixpoint type_assignable (to from : Ty) : bool :=
  if nullable to && bool_decide (kind from = TYPE_NIL) then true
  else if bool_decide (kind to = TYPE_ANY) || bool_decide (kind from = TYPE_ANY) then true
  else if bool_decide (kind from = TYPE_NIL) then nullable to
  else if negb (bool_decide (kind to = kind from)) then false
  else if negb (nullable to) && nullable from then false
  else
    match to, from with
    | T_ARRAY _ x, T_ARRAY _ y | T_FUTURE _ x, T_FUTURE _ y => type_assignable x y
    | T_FUNCTION _ r ps xs, T_FUNCTION _ r' ps' xs' =>
        (List.length ps =? List.length ps')%nat &&
        all2 (fun x y => name_eqb (fst x) (fst y) && both_or_none type_assignable (snd x) (snd y)) xs xs' &&
        type_assignable r r' && all2 type_assignable ps ps'
    | T_TYPE_PARAM _ x, T_TYPE_PARAM _ y => name_eqb x y
    | T_RECORD _ d ps, T_RECORD _ d' ps' => (d =? d')%nat && all2 type_assignable ps ps'
    | T_INTERFACE _ d, T_INTERFACE _ d' => (d =? d')%nat
    | T_TUPLE _ es, T_TUPLE _ es' => all2 type_assignable es es'
    | T_MAP _ k v, T_MAP _ k' v' => type_assignable k k' && type_assignable v v'
    | T_SET _ x, T_SET _ y => type_assignable x y
    | _, _ => true
    end.

(** ** Printing *)

Section Printing.
(** The names of the definitions. *)
Context (record_name interface_name : nat -> option (list Z)).

(** [strncat(dst, src, size - strlen(dst) - 1)]. *)
Definition strncat (size : nat) (dst src : list Z) : list Z := dst ++ take (size - List.length dst - 1) src.

(** The loops that append to a buffer, with a comma before all but the first. *)
Definition join (size : nat) (start : list Z) (texts : list (list Z)) : list Z :=
  snd (fold_left (fun '(first, buffer) text => (false, strncat size (if first : bool then buffer else strncat size buffer (bytes ", ")) text)) texts
         (true, start)).

Definition mark (q : bool) : list Z := if q then bytes "?" else [].

Fixpoint type_to_string (t : Ty) (size : nat) : list Z :=
  match t with
  | T_INT q _ => snprintf size (bytes "int" ++ mark q)
  | T_PLAIN P_BOOL q => snprintf size (bytes "bool" ++ mark q)
  | T_PLAIN P_DOUBLE q => snprintf size (bytes "double" ++ mark q)
  | T_PLAIN P_BIGINT q => snprintf size (bytes "bigint" ++ mark q)
  | T_PLAIN P_STRING q => snprintf size (bytes "string" ++ mark q)
  | T_PLAIN P_BYTES q => snprintf size (bytes "bytes" ++ mark q)
  | T_PLAIN P_NIL _ => snprintf size (bytes "nil")
  | T_PLAIN P_VOID _ => snprintf size (bytes "void")
  | T_PLAIN P_ANY _ => snprintf size (bytes "any")
  | T_ARRAY q e => snprintf size (bytes "array<" ++ type_to_string e 256 ++ bytes ">" ++ mark q)
  | T_FUTURE q e => snprintf size (bytes "Future<" ++ type_to_string e 256 ++ bytes ">" ++ mark q)
  | T_FUNCTION q r ps xs =>
      let type_params :=
        match xs with
        | [] => []
        | _ =>
            let texts := fold_left (fun '(first, buffer) x =>
              let buffer := strncat 256 (if first : bool then buffer else strncat 256 buffer (bytes ", ")) (fst x) in
              (false, match snd x with Some c => strncat 256 (strncat 256 buffer (bytes ": ")) (type_to_string c 128) | None => buffer end)) xs
              (true, strncat 256 [] (bytes "[")) in
            strncat 256 (snd texts) (bytes "]")
        end in
      snprintf size (bytes "func" ++ type_params ++ bytes "(" ++ join 512 [] (map (fun p => type_to_string p 256) ps) ++ bytes "): " ++ type_to_string r 256)
  | T_TYPE_PARAM q x => snprintf size (x ++ mark q)
  | T_RECORD q d ps =>
      let type_args :=
        match ps with [] => [] | _ => strncat 512 (join 512 (strncat 512 [] (bytes "[")) (map (fun p => type_to_string p 256) ps)) (bytes "]") end in
      match record_name d with
      | Some x =>
          if existsb (Z.eqb 91) x || bool_decide (type_args = []) then snprintf size (bytes "record " ++ x ++ mark q)
          else snprintf size (bytes "record " ++ x ++ type_args ++ mark q)
      | None => snprintf size (bytes "record" ++ type_args ++ mark q)
      end
  | T_INTERFACE q d =>
      match interface_name d with
      | Some x => snprintf size (bytes "interface " ++ x ++ mark q)
      | None => snprintf size (bytes "interface" ++ mark q)
      end
  | T_TUPLE q es => snprintf size (bytes "(" ++ join 512 [] (map (fun e => type_to_string e 256) es) ++ bytes ")" ++ mark q)
  | T_MAP q k v => snprintf size (bytes "map<" ++ type_to_string k 256 ++ bytes ", " ++ type_to_string v 256 ++ bytes ">" ++ mark q)
  | T_SET q e => snprintf size (bytes "set<" ++ type_to_string e 256 ++ bytes ">" ++ mark q)
  end.
End Printing.

(** ** Induction over types *)

Section Induction.
Context (P : Ty -> Prop).
Hypothesis Hplain : forall k q, P (T_PLAIN k q).
Hypothesis Hint : forall q x, P (T_INT q x).
Hypothesis Harray : forall q e, P e -> P (T_ARRAY q e).
Hypothesis Hfuture : forall q e, P e -> P (T_FUTURE q e).
Hypothesis Hfunction : forall q r ps xs, P r -> Forall P ps -> Forall (fun x => match snd x with Some c => P c | None => True end) xs -> P (T_FUNCTION q r ps xs).
Hypothesis Hparam : forall q x, P (T_TYPE_PARAM q x).
Hypothesis Htuple : forall q es, Forall P es -> P (T_TUPLE q es).
Hypothesis Hmap : forall q k v, P k -> P v -> P (T_MAP q k v).
Hypothesis Hset : forall q e, P e -> P (T_SET q e).
Hypothesis Hrecord : forall q d ps, Forall P ps -> P (T_RECORD q d ps).
Hypothesis Hinterface : forall q d, P (T_INTERFACE q d).

Lemma Ty_induction : forall t, P t.
Proof.
  fix IH 1. intros t. destruct t as [k q|q x|q e|q e|q r ps xs|q x|q es|q k v|q e|q d ps|q d].
  - apply Hplain.
  - apply Hint.
  - by apply Harray.
  - by apply Hfuture.
  - apply Hfunction; [apply IH|induction ps; by constructor|]. induction xs as [|[x [c|]] xs IHxs]; constructor; try done. apply IH.
  - apply Hparam.
  - apply Htuple. induction es; by constructor.
  - by apply Hmap.
  - by apply Hset.
  - apply Hrecord. induction ps; by constructor.
  - apply Hinterface.
Qed.
End Induction.

(** ** Copies *)

Lemma map_same {A} (f : A -> A) l : Forall (fun a => f a = a) l -> map f l = l.
Proof. induction 1; cbn; congruence. Qed.

Lemma type_clone_same t : type_clone t = t.
Proof.
  induction t using Ty_induction; cbn; try congruence; try (f_equal; by apply map_same).
  f_equal; [done|by apply map_same|]. apply map_same. eapply List.Forall_impl; [|eassumption]. intros [x [c|]]; cbn; congruence.
Qed.

Lemma flat_map_perm {A B} (f g : A -> list B) l : Forall (fun a => Permutation (f a) (g a)) l -> Permutation (flat_map f l) (flat_map g l).
Proof. induction 1; cbn; [done|]. by apply Permutation_app. Qed.

(** Freeing a copy gives back what making it retained. *)
Lemma type_free_balanced t : Permutation (type_free t) (clone_retains t).
Proof.
  induction t using Ty_induction; cbn; try done.
  - repeat apply Permutation_app; [done|by apply flat_map_perm|]. apply flat_map_perm. eapply List.Forall_impl; [|eassumption]. by intros [x [c|]].
  - by apply flat_map_perm.
  - by apply Permutation_app.
  - rewrite Permutation_app_comm. cbn. constructor. by apply flat_map_perm.
Qed.

(** ** Equality *)

(** A type without the names of enumerations. *)
Fixpoint erase (t : Ty) : Ty :=
  match t with
  | T_INT q _ => T_INT q None
  | T_ARRAY q e => T_ARRAY q (erase e)
  | T_FUTURE q e => T_FUTURE q (erase e)
  | T_FUNCTION q r ps xs => T_FUNCTION q (erase r) (map erase ps) (map (fun x => (fst x, option_map erase (snd x))) xs)
  | T_TUPLE q es => T_TUPLE q (map erase es)
  | T_MAP q k v => T_MAP q (erase k) (erase v)
  | T_SET q e => T_SET q (erase e)
  | T_RECORD q d ps => T_RECORD q d (map erase ps)
  | _ => t
  end.

Lemma all2_length {A B} (f : A -> B -> bool) l1 l2 : all2 f l1 l2 = true -> List.length l1 = List.length l2.
Proof. revert l2. induction l1 as [|a l1 IH]; intros [|b l2]; cbn; try done. intros [_ H]%andb_prop. f_equal. by apply IH. Qed.

Lemma all2_spec {A} (f : A -> A -> bool) (g : A -> A) l1 : Forall (fun a => forall b, f a b = true <-> g a = g b) l1 ->
  forall l2, all2 f l1 l2 = true <-> map g l1 = map g l2.
Proof.
  induction 1 as [|a l1 Ha _ IH]; intros [|b l2]; cbn; try done. rewrite andb_true_iff, Ha, IH. split; [by intros [-> ->]|by injection 1].
Qed.

Lemma name_eqb_spec a b : name_eqb a b = true <-> a = b.
Proof. apply bool_decide_eq_true. Qed.

Lemma constraints_spec (xs : list (list Z * option Ty)) :
  Forall (fun x => match snd x with Some c => forall b, type_equals c b = true <-> erase c = erase b | None => True end) xs ->
  Forall (fun x => forall y, name_eqb (fst x) (fst y) && both_or_none type_equals (snd x) (snd y) = true
    <-> (fst x, option_map erase (snd x)) = (fst y, option_map erase (snd y))) xs.
Proof.
  apply List.Forall_impl. intros [x c] H [y c']. cbn in *. rewrite andb_true_iff, name_eqb_spec.
  destruct c as [c|], c' as [c'|]; cbn; try rewrite H; intuition congruence.
Qed.

Lemma length_map_eq {A B} (f g : A -> B) l1 l2 : map f l1 = map g l2 -> List.length l1 = List.length l2.
Proof. intros H. apply (f_equal List.length) in H. by rewrite !length_map in H. Qed.

(** Two types are equal to [type_equals] when they differ in the names of
    enumerations only. *)
Lemma plain_kind_inj p p' : plain_kind p = plain_kind p' <-> p = p'.
Proof. destruct p, p'; cbn; split; congruence. Qed.

(** Two types are equal to [type_equals] when they differ in the names of
    enumerations only. *)
Lemma type_equals_spec a : forall b, type_equals a b = true <-> erase a = erase b.
Proof.
  induction a as [k q|q x|q e IH|q e IH|q r ps xs IHr IHps IHxs|q x|q es IH|q k v IHk IHv|q e IH|q d ps IH|q d] using Ty_induction; intros b;
    (destruct b as [k' q'|q' x'|q' e'|q' e'|q' r' ps' xs'|q' x'|q' es'|q' k' v'|q' e'|q' d' ps'|q' d'];
     cbn [type_equals kind nullable erase]; try (by destruct k); try (by destruct k'); try done);
    rewrite ?andb_true_iff, ?bool_decide_eq_true, ?Bool.eqb_true_iff.
  - rewrite plain_kind_inj. intuition congruence.
  - intuition congruence.
  - rewrite IH. intuition congruence.
  - rewrite IH. intuition congruence.
  - rewrite IHr, (all2_spec _ erase) by done.
    rewrite (all2_spec _ (fun x => (fst x, option_map erase (snd x)))) by (by apply constraints_spec). rewrite Nat.eqb_eq.
    split; [intuition congruence|]. injection 1 as <- <- Hps <-. split_and!; try done. by eapply length_map_eq.
  - rewrite name_eqb_spec. intuition congruence.
  - rewrite (all2_spec _ erase) by done. intuition congruence.
  - rewrite IHk, IHv. intuition congruence.
  - rewrite IH. intuition congruence.
  - rewrite (all2_spec _ erase) by done. rewrite Nat.eqb_eq. intuition congruence.
  - rewrite Nat.eqb_eq. intuition congruence.
Qed.

(** ** Assignability *)

(** Every part of a type satisfies [f]. *)
Fixpoint ty_all (f : Ty -> bool) (t : Ty) : bool :=
  f t &&
  match t with
  | T_PLAIN _ _ | T_INT _ _ | T_TYPE_PARAM _ _ | T_INTERFACE _ _ => true
  | T_ARRAY _ e | T_FUTURE _ e | T_SET _ e => ty_all f e
  | T_FUNCTION _ r ps xs => ty_all f r && forallb (ty_all f) ps && forallb (fun x => match snd x with Some c => ty_all f c | None => true end) xs
  | T_TUPLE _ es => forallb (ty_all f) es
  | T_MAP _ k v => ty_all f k && ty_all f v
  | T_RECORD _ _ ps => forallb (ty_all f) ps
  end.

Definition not_any (t : Ty) : bool := negb (bool_decide (kind t = TYPE_ANY)).
Definition not_nil (t : Ty) : bool := negb (bool_decide (kind t = TYPE_NIL)).

Lemma ty_all_here f t : ty_all f t = true -> f t = true.
Proof. destruct t; cbn; by intros [H _]%andb_prop. Qed.

(** The comparison of the parts of two types of the same kind. *)
Definition parts_assignable (to from : Ty) : bool :=
  match to, from with
  | T_ARRAY _ x, T_ARRAY _ y | T_FUTURE _ x, T_FUTURE _ y => type_assignable x y
  | T_FUNCTION _ r ps xs, T_FUNCTION _ r' ps' xs' =>
      (List.length ps =? List.length ps')%nat &&
      all2 (fun x y => name_eqb (fst x) (fst y) && both_or_none type_assignable (snd x) (snd y)) xs xs' &&
      type_assignable r r' && all2 type_assignable ps ps'
  | T_TYPE_PARAM _ x, T_TYPE_PARAM _ y => name_eqb x y
  | T_RECORD _ d ps, T_RECORD _ d' ps' => (d =? d')%nat && all2 type_assignable ps ps'
  | T_INTERFACE _ d, T_INTERFACE _ d' => (d =? d')%nat
  | T_TUPLE _ es, T_TUPLE _ es' => all2 type_assignable es es'
  | T_MAP _ k v, T_MAP _ k' v' => type_assignable k k' && type_assignable v v'
  | T_SET _ x, T_SET _ y => type_assignable x y
  | _, _ => true
  end.

Lemma assignable_unfold to from : type_assignable to from =
  if nullable to && bool_decide (kind from = TYPE_NIL) then true
  else if bool_decide (kind to = TYPE_ANY) || bool_decide (kind from = TYPE_ANY) then true
  else if bool_decide (kind from = TYPE_NIL) then nullable to
  else if negb (bool_decide (kind to = kind from)) then false
  else if negb (nullable to) && nullable from then false
  else parts_assignable to from.
Proof. by destruct to. Qed.

(** Without [any], a type takes [nil] when it is nullable, and otherwise types
    of its own kind. *)
Lemma assignable_cases to from : not_any to = true -> not_any from = true ->
  type_assignable to from = true <->
  (kind from = TYPE_NIL /\ nullable to = true)
  \/ (kind from <> TYPE_NIL /\ kind to = kind from /\ (nullable from = true -> nullable to = true) /\ parts_assignable to from = true).
Proof.
  unfold not_any. rewrite !negb_true_iff, !bool_decide_eq_false. intros Ht Hf. rewrite assignable_unfold.
  rewrite (bool_decide_false (kind to = TYPE_ANY)), (bool_decide_false (kind from = TYPE_ANY)) by done. cbn [orb].
  destruct (decide (kind from = TYPE_NIL)) as [E|E].
  - rewrite !(bool_decide_true (kind from = TYPE_NIL)) by done. destruct (nullable to); cbn; intuition congruence.
  - rewrite !(bool_decide_false (kind from = TYPE_NIL)) by done. rewrite andb_false_r.
    destruct (decide (kind to = kind from)) as [E'|E'].
    + rewrite (bool_decide_true (kind to = kind from)) by done. destruct (nullable to), (nullable from); cbn; intuition congruence.
    + rewrite (bool_decide_false (kind to = kind from)) by done. cbn. intuition congruence.
Qed.

Lemma all2_refl {A} (f : A -> A -> bool) (P Q : A -> bool) l :
  Forall (fun a => P a = true -> Q a = true -> f a a = true) l -> forallb P l = true -> forallb Q l = true -> all2 f l l = true.
Proof. induction 1 as [|a l Ha _ IH]; cbn; [done|]. intros [? ?]%andb_prop [? ?]%andb_prop. rewrite Ha, IH by done. done. Qed.

Lemma all2_trans {A} (f : A -> A -> bool) (P : A -> bool) l1 :
  Forall (fun a => forall b c, P a = true -> P b = true -> P c = true -> f a b = true -> f b c = true -> f a c = true) l1 ->
  forall l2 l3, forallb P l1 = true -> forallb P l2 = true -> forallb P l3 = true -> all2 f l1 l2 = true -> all2 f l2 l3 = true -> all2 f l1 l3 = true.
Proof.
  induction 1 as [|a l1 Ha _ IH]; intros [|b l2] [|c l3]; cbn; try done.
  intros [? ?]%andb_prop [? ?]%andb_prop [? ?]%andb_prop [? ?]%andb_prop [? ?]%andb_prop. apply andb_true_intro. split; [by apply (Ha b c)|by apply (IH l2 l3)].
Qed.

Lemma all2_antisym {A} (f g : A -> A -> bool) (P : A -> bool) l1 :
  Forall (fun a => forall b, P a = true -> P b = true -> f a b = true -> f b a = true -> g a b = true) l1 ->
  forall l2, forallb P l1 = true -> forallb P l2 = true -> all2 f l1 l2 = true -> all2 f l2 l1 = true -> all2 g l1 l2 = true.
Proof.
  induction 1 as [|a l1 Ha _ IH]; intros [|b l2]; cbn; try done.
  intros [? ?]%andb_prop [? ?]%andb_prop [? ?]%andb_prop [? ?]%andb_prop. apply andb_true_intro. split; [by apply Ha|by apply IH].
Qed.

(** The parts of a constraint. *)
Definition constraint_all (P : Ty -> bool) (x : list Z * option Ty) : bool := match snd x with Some c => P c | None => true end.

Lemma assignable_refl t : ty_all not_any t = true -> ty_all not_nil t = true -> type_assignable t t = true.
Proof.
  induction t as [k q|q x|q e IH|q e IH|q r ps xs IHr IHps IHxs|q x|q es IH|q k v IHk IHv|q e IH|q d ps IH|q d] using Ty_induction; intros Ha Hn;
    (apply assignable_cases; [by apply ty_all_here in Ha|by apply ty_all_here in Ha|]; right;
     split; [apply ty_all_here in Hn; unfold not_nil in Hn; by rewrite negb_true_iff, bool_decide_eq_false in Hn|]; split_and!; try done);
    cbn [parts_assignable]; cbn [ty_all] in Ha, Hn; rewrite ?andb_true_iff in Ha, Hn.
  - apply IH; tauto.
  - apply IH; tauto.
  - destruct Ha as (_ & (Ha1 & Ha2) & Ha3), Hn as (_ & (Hn1 & Hn2) & Hn3). rewrite Nat.eqb_refl, IHr by done. cbn.
    rewrite !andb_true_iff. split_and!; [|done|by apply (all2_refl _ (ty_all not_any) (ty_all not_nil))].
    apply (all2_refl _ (constraint_all (ty_all not_any)) (constraint_all (ty_all not_nil))); [|done..].
    eapply List.Forall_impl; [|exact IHxs]. intros [x [c|]] Hc; cbn; rewrite (proj2 (name_eqb_spec x x) eq_refl); auto.
  - by apply name_eqb_spec.
  - apply (all2_refl _ (ty_all not_any) (ty_all not_nil)); tauto.
  - rewrite IHk, IHv by tauto. done.
  - apply IH; tauto.
  - rewrite Nat.eqb_refl. apply (all2_refl _ (ty_all not_any) (ty_all not_nil)); tauto.
  - apply Nat.eqb_refl.
Qed.

Lemma assignable_trans a : forall b c, ty_all not_any a = true -> ty_all not_any b = true -> ty_all not_any c = true ->
  type_assignable a b = true -> type_assignable b c = true -> type_assignable a c = true.
Proof.
  induction a as [k q|q x|q e IH|q e IH|q r ps xs IHr IHps IHxs|q x|q es IH|q k v IHk IHv|q e IH|q d ps IH|q d] using Ty_induction; intros b c Ha Hb Hc Hab Hbc;
    pose proof (ty_all_here _ _ Ha) as Ha'; pose proof (ty_all_here _ _ Hb) as Hb'; pose proof (ty_all_here _ _ Hc) as Hc';
    apply assignable_cases in Hab as Hab'; try done; apply assignable_cases in Hbc as Hbc'; try done; apply assignable_cases; try done;
    (destruct Hbc' as [[Hk Hq]|(Hk & Hk' & Hq & Hp)]; [left; split; [done|]; destruct Hab' as [[_ ?]|(_ & _ & Hq' & _)]; auto|]);
    (destruct Hab' as [[Hk2 Hq2]|(Hk2 & Hk2' & Hq2 & Hp2)]; [congruence|]); right; split_and!; try done; try congruence; auto;
    destruct b as [kb qb|qb xb|qb eb|qb eb|qb rb psb xsb|qb xb|qb esb|qb kb vb|qb eb|qb db psb|qb db]; cbn in Hk2'; try congruence; try (by destruct kb);
    destruct c as [kc qc|qc xc|qc ec|qc ec|qc rc psc xsc|qc xc|qc esc|qc kc vc|qc ec|qc dc psc|qc dc]; cbn in Hk'; try congruence; try (by destruct kc);
    cbn [parts_assignable] in *; cbn [ty_all] in Ha, Hb, Hc; rewrite ?andb_true_iff, ?Nat.eqb_eq, ?name_eqb_spec in *.
  - apply (IH eb ec); tauto.
  - apply (IH eb ec); tauto.
  - destruct Hp2 as (((L & X) & R) & A), Hp as (((L' & X') & R') & A'), Ha as (_ & (Ha1 & Ha2) & Ha3), Hb as (_ & (Hb1 & Hb2) & Hb3), Hc as (_ & (Hc1 & Hc2) & Hc3).
    split_and!; [congruence| |by apply (IHr rb rc)|by apply (all2_trans _ (ty_all not_any) ps IHps psb psc)].
    apply (all2_trans _ (constraint_all (ty_all not_any)) xs) with (l2 := xsb); try done. eapply List.Forall_impl; [|exact IHxs].
    intros [x [cx|]] Hx [y [cy|]] [z [cz|]]; cbn; rewrite ?andb_true_iff, ?name_eqb_spec; intuition (try congruence). by apply (Hx cy cz).
  - congruence.
  - apply (all2_trans _ (ty_all not_any) es) with (l2 := esb); tauto.
  - split; [apply (IHk kb kc)|apply (IHv vb vc)]; tauto.
  - apply (IH eb ec); tauto.
  - split; [intuition congruence|]. apply (all2_trans _ (ty_all not_any) ps) with (l2 := psb); tauto.
  - congruence.
Qed.

Lemma assignable_both a b : not_any a = true -> not_any b = true -> type_assignable a b = true -> type_assignable b a = true ->
  kind b = kind a /\ nullable b = nullable a /\ (kind a = TYPE_NIL \/ parts_assignable a b = true /\ parts_assignable b a = true).
Proof.
  intros Ha Hb H1%assignable_cases H2%assignable_cases; [|done..].
  destruct H1 as [[? ?]|(? & ? & ? & ?)], H2 as [[? ?]|(? & ? & ? & ?)]; try congruence; split_and!; auto; try congruence.
  destruct (nullable a), (nullable b); intuition congruence.
Qed.

Lemma assignable_antisym a : forall b, ty_all not_any a = true -> ty_all not_any b = true ->
  type_assignable a b = true -> type_assignable b a = true -> type_equals a b = true.
Proof.
  induction a as [k q|q x|q e IH|q e IH|q r ps xs IHr IHps IHxs|q x|q es IH|q k v IHk IHv|q e IH|q d ps IH|q d] using Ty_induction; intros b Ha Hb Hab Hba;
    destruct (assignable_both _ b (ty_all_here _ _ Ha) (ty_all_here _ _ Hb) Hab Hba) as (Hk & Hq & Hp);
    destruct b as [kb qb|qb xb|qb eb|qb eb|qb rb psb xsb|qb xb|qb esb|qb kb vb|qb eb|qb db psb|qb db]; cbn in Hk, Hq;
    try congruence; try (by destruct kb); try (by destruct k); subst;
    cbn [type_equals kind nullable]; rewrite bool_decide_true, Bool.eqb_reflx by done; cbn [andb]; try done;
    (destruct Hp as [?|[Hp Hp']]; [done|]); cbn [parts_assignable] in *; cbn [ty_all] in Ha, Hb; rewrite ?andb_true_iff, ?Nat.eqb_eq, ?name_eqb_spec in *.
  - apply IH; tauto.
  - apply IH; tauto.
  - destruct Hp as (((L & X) & R) & A), Hp' as (((L' & X') & R') & A'), Ha as (_ & (Ha1 & Ha2) & Ha3), Hb as (_ & (Hb1 & Hb2) & Hb3).
    split_and!; [done| |by apply IHr|by apply (all2_antisym type_assignable _ (ty_all not_any) ps)].
    eapply (all2_antisym _ _ (constraint_all (ty_all not_any)) xs); try done. eapply List.Forall_impl; [|exact IHxs].
    intros [x [cx|]] Hx [y [cy|]]; cbn; rewrite ?andb_true_iff, ?name_eqb_spec; intuition.
  - done.
  - apply (all2_antisym type_assignable _ (ty_all not_any)); tauto.
  - split; [apply IHk|apply IHv]; tauto.
  - apply IH; tauto.
  - split; [tauto|]. apply (all2_antisym type_assignable _ (ty_all not_any)); tauto.
  - done.
Qed.

(** ** What the checker relies on *)

(** C38: Without [any], assignability orders types: it is transitive, types
    assignable to each other are equal to [type_equals], and a type without
    [nil] is assignable to itself. Equality compares everything but the names
    of enumerations, and copying a type gives an equal one whose references
    are balanced by freeing it. *)
Theorem type_assignable_order (a b c : Ty) :
  ty_all not_any a = true -> ty_all not_any b = true -> ty_all not_any c = true ->
  (type_assignable a b = true -> type_assignable b c = true -> type_assignable a c = true)
  /\ (type_assignable a b = true -> type_assignable b a = true -> type_equals a b = true)
  /\ (ty_all not_nil a = true -> type_assignable a a = true)
  /\ (type_equals a b = true <-> erase a = erase b)
  /\ type_equals (type_clone a) a = true /\ Permutation (clone_retains a) (type_free (type_clone a)).
Proof.
  intros Ha Hb Hc. split_and!.
  - by apply assignable_trans.
  - by apply assignable_antisym.
  - by apply assignable_refl.
  - apply type_equals_spec.
  - by rewrite type_clone_same, type_equals_spec.
  - rewrite type_clone_same. symmetry. apply type_free_balanced.
Qed.

Definition sample_type (q : bool) : Ty := T_MAP q (T_PLAIN P_STRING false) (T_TUPLE false [T_INT false None; T_RECORD true 3 [T_PLAIN P_BOOL false]]).

Lemma type_assignable_order_witness :
  type_assignable (sample_type true) (sample_type false) = true /\ type_assignable (sample_type false) (sample_type true) = false
  /\ type_assignable (sample_type true) (sample_type false) = true.
Proof.
  split; [reflexivity|]. split; [reflexivity|].
  apply (type_assignable_order (sample_type true) (sample_type true) (sample_type false)); reflexivity.
Defined.

(** ** Values *)

(** The values that types describe; [ob_record] is an object of a record
    definition. *)
#[warnings="-register-all"]
Inductive object :=
  | ob_nil
  | ob_bool (b : bool)
  | ob_int (n : Z)
  | ob_double (bits : Z)
  | ob_bigint (n : Z)
  | ob_string (s : list Z)
  | ob_bytes (s : list Z)
  | ob_array (l : list object)
  | ob_set (l : list object)
  | ob_map (l : list (object * object))
  | ob_tuple (l : list object)
  | ob_future (v : object)
  | ob_record (def : nat).

Section Values.
(** The objects that implement an interface. *)
Context (implements : nat -> object -> Prop).

Definition plain_holds (p : plain) (v : object) : Prop :=
  match p, v with
  | P_BOOL, ob_bool _ | P_DOUBLE, ob_double _ | P_BIGINT, ob_bigint _ | P_STRING, ob_string _ | P_BYTES, ob_bytes _ | P_NIL, ob_nil => True
  | P_ANY, _ => True
  | _, _ => False
  end.

(** [each] relates the elements of two lists. *)
Definition each {A B} (f : A -> B -> Prop) : list A -> list B -> Prop :=
  fix go l1 l2 :=
    match l1, l2 with
    | [], [] => True
    | a :: l1, b :: l2 => f a b /\ go l1 l2
    | _, _ => False
    end.

Fixpoint holds (t : Ty) (v : object) : Prop :=
  (nullable t = true /\ v = ob_nil) \/
  match t, v with
  | T_PLAIN p _, _ => plain_holds p v
  | T_INT _ _, ob_int _ => True
  | T_ARRAY _ e, ob_array l | T_SET _ e, ob_set l => Forall (holds e) l
  | T_FUTURE _ e, ob_future w => holds e w
  | T_TUPLE _ es, ob_tuple l => each holds es l
  | T_MAP _ k w, ob_map l => Forall (fun x => holds k (fst x) /\ holds w (snd x)) l
  | T_RECORD _ d _, ob_record d' => d = d'
  | T_INTERFACE _ d, _ => implements d v
  | _, _ => False
  end.

(** The types that describe data: no functions and no parameters. *)
Definition data (t : Ty) : bool := match t with T_FUNCTION _ _ _ _ | T_TYPE_PARAM _ _ => false | _ => true end.

Lemma each_all2 (f : Ty -> Ty -> bool) (P : Ty -> bool) es : Forall (fun to => forall from, P to = true -> P from = true -> f to from = true -> forall v, holds from v -> holds to v) es ->
  forall es' l, forallb P es = true -> forallb P es' = true -> all2 f es es' = true -> each holds es' l -> each holds es l.
Proof.
  induction 1 as [|e es He _ IH]; intros [|e' es'] [|v l]; cbn; try done.
  intros [? ?]%andb_prop [? ?]%andb_prop [? ?]%andb_prop [? ?]. split; [by eapply He|by eapply IH].
Qed.

Definition describes_data (t : Ty) : bool := ty_all (fun t => not_any t && data t) t.

Lemma describes_here t : describes_data t = true -> not_any t = true /\ data t = true.
Proof. intros H%ty_all_here. by apply andb_prop in H. Qed.

Lemma nil_holds t v : kind t = TYPE_NIL -> holds t v -> v = ob_nil.
Proof. destruct t as [[]| | | | | | | | | |]; try done. intros _ [[_ H]|H]; [done|]. by destruct v. Qed.

(** A value described by [from], unless it is [nil] at a nullable type, is
    described by its shape. *)
Lemma assignable_shape to from v : not_any to = true -> not_any from = true -> type_assignable to from = true -> holds from v ->
  (nullable to = true /\ v = ob_nil)
  \/ (kind to = kind from /\ parts_assignable to from = true /\ ((nullable from = true /\ v = ob_nil) -> nullable to = true)).
Proof.
  intros Ht Hf [[Hk Hq]|(_ & Hk & Hq & Hp)]%assignable_cases Hv; [left|right|done..].
  - split; [done|]. by eapply nil_holds.
  - split_and!; [done..|]. tauto.
Qed.

Lemma assignable_values to : forall from, describes_data to = true -> describes_data from = true -> type_assignable to from = true ->
  forall v, holds from v -> holds to v.
Proof.
  induction to as [k q|q x|q e IH|q e IH|q r ps xs IHr IHps IHxs|q x|q es IH|q k w IHk IHw|q e IH|q d ps IH|q d] using Ty_induction;
    intros from Hto Hfrom Hass v Hv; pose proof (describes_here _ Hto) as [Ha Hd]; try done; pose proof (describes_here _ Hfrom) as [Ha' Hd'];
    (destruct (assignable_shape _ _ _ Ha Ha' Hass Hv) as [[Hq ->]|(Hk & Hp & Hq)]; [left; split; [exact Hq|reflexivity]|]);
    destruct from as [k' q'|q' x'|q' e'|q' e'|q' r' ps' xs'|q' x'|q' es'|q' k' w'|q' e'|q' d' ps'|q' d']; cbn in Hk; try congruence; try (by destruct k); try (by destruct k');
    (destruct Hv as [Hnil|Hv]; [left; split; [by apply Hq|apply Hnil]|]; right);
    unfold describes_data in Hto, Hfrom; cbn [ty_all] in Hto, Hfrom; cbn [parts_assignable] in Hp; rewrite ?andb_true_iff in Hto, Hfrom, Hp;
    rewrite ?andb_true_iff in Hto, Hfrom.
  - apply plain_kind_inj in Hk as ->. done.
  - done.
  - destruct v; try done. eapply List.Forall_impl; [|exact Hv]. intros v. apply (IH e'); tauto.
  - destruct v; try done. apply (IH e'); tauto.
  - destruct v; try done. apply (each_all2 type_assignable describes_data es IH es'); tauto.
  - destruct v; try done. eapply List.Forall_impl; [|exact Hv]. intros [x y] [Hx Hy]. split; [apply (IHk k')|apply (IHw w')]; tauto.
  - destruct v; try done. eapply List.Forall_impl; [|exact Hv]. intros v. apply (IH e'); tauto.
  - destruct v; try done. destruct Hp as [Hp _]. apply Nat.eqb_eq in Hp. congruence.
  - apply Nat.eqb_eq in Hp as ->. done.
Qed.
End Values.



(** Where assignability is not sound or not what it should be: [nil] is not
    assignable to [nil]; a function of integers is assignable to a function
    type that takes [nil]; an integer is assignable to an enumeration, and an
    enumeration to any other. *)
Theorem type_assignable_gaps (implements : nat -> object -> Prop) (enum enum' : list Z) :
  (type_assignable ty_nil ty_nil = false /\ holds implements ty_nil ob_nil)
  /\ (let takes t := T_FUNCTION false (T_PLAIN P_VOID false) [t] [] in
      type_assignable (takes (T_INT true None)) (takes (T_INT false None)) = true
      /\ holds implements (T_INT true None) ob_nil /\ ~ holds implements (T_INT false None) ob_nil)
  /\ type_assignable (T_INT false (Some enum)) (T_INT false None) = true
  /\ type_assignable (T_INT false (Some enum)) (T_INT false (Some enum')) = true.
Proof. cbv zeta. split_and!; try done; try (by right); try (by left). intros H. cbn in H. by destruct H as [[? _]|?]. Qed.
