(* ===== verification/Checker.v ===== *)
(** * The checker's tables, interfaces and generics: [src/src/typechecker.c]

    Symbols and the tables that are looked up, what a record needs to implement
    an interface, assignability with interfaces, the inference of type
    arguments and their substitution, and the resolution of the types a program
    names. Errors are reported to the user; here a function gives what it
    returns, and [typechecker_resolve_type] the errors too. *)

From Stdlib Require Import String.
From S2P Require Import Prelude Lexer Bytecode Ast Operators Types.

Open Scope Z_scope.
Open Scope list_scope.

(** ** State *)

Record Symbol := mkSymbol { s_name : list Z; s_type : Ty; is_type_alias : bool; is_public : bool; decl_file : list Z }.
Record RecordDef := mkRecordDef { r_name : list Z; r_fields : list (list Z * Ty) }.
Record InterfaceDef := mkInterfaceDef { i_name : list Z; i_methods : list (list Z * Ty) }.

(** The pairs are method and function. *)
Record InterfaceImplMapping := mkMapping { m_interface : list Z; m_record : list Z; m_methods : list (list Z * list Z) }.

(** Definitions are numbered; no generic declaration is registered. The scopes
    are the innermost first. *)
Record TypeChecker := mkChecker {
  globals : list Symbol;
  locals : list (list Symbol);
  local_lookup_floor : nat;
  record_defs : list RecordDef;
  interface_defs : list InterfaceDef;
  impl_mappings : list InterfaceImplMapping;
  current_type_params : list (list Z * option Ty);
  current_file : list Z
}.

Definition record_def_of (tc : TypeChecker) (d : nat) : option RecordDef := record_defs tc !! d.
Definition interface_def_of (tc : TypeChecker) (d : nat) : option InterfaceDef := interface_defs tc !! d.

(** ** Names and tables *)

Definition c_bracket : Z := 91.
Definition c_underscore : Z := 95.

(** The name up to the bracket of type arguments. *)
Fixpoint base_name (x : list Z) : list Z :=
  match x with
  | [] => []
  | c :: x => if c =? c_bracket then [] else c :: base_name x
  end.
Definition typechecker_record_base_name_len (x : list Z) : nat := List.length (base_name x).
Definition typechecker_record_base_name_equals (a b : list Z) : bool := name_eqb (base_name a) (base_name b).

Definition symbol_table_get (table : list Symbol) (x : list Z) : option Symbol := find (fun s => name_eqb (s_name s) x) table.

Fixpoint lookup_scopes (scopes : list (list Symbol)) (x : list Z) : option Symbol :=
  match scopes with
  | [] => None
  | table :: scopes => match symbol_table_get table x with Some s => Some s | None => lookup_scopes scopes x end
  end.
(** The scopes below the floor are not looked at. *)
Definition typechecker_lookup (tc : TypeChecker) (x : list Z) : option Symbol :=
  lookup_scopes (take (List.length (locals tc) - local_lookup_floor tc) (locals tc) ++ [globals tc]) x.

Definition symbol_is_accessible_from_file (s : Symbol) (use_file : list Z) : bool :=
  is_public s || bool_decide (decl_file s = []) || (negb (bool_decide (use_file = [])) && name_eqb (decl_file s) use_file).

(** The first entry of an association list. *)
Definition assoc {A} (x : list Z) (l : list (list Z * A)) : option A := option_map snd (find (fun p => name_eqb (fst p) x) l).

Definition record_def_get_field_type (d : RecordDef) (x : list Z) : option Ty := assoc x (r_fields d).
Fixpoint index_of {A} (x : list Z) (l : list (list Z * A)) : option nat :=
  match l with
  | [] => None
  | (y, _) :: l => if name_eqb y x then Some O else option_map S (index_of x l)
  end.
Definition record_def_get_field_index (d : RecordDef) (x : list Z) : option nat := index_of x (r_fields d).
Definition interface_def_get_method_type (d : InterfaceDef) (x : list Z) : option Ty := assoc x (i_methods d).

(** ** Interfaces *)

Definition typechecker_find_impl_mapping_exact (tc : TypeChecker) (interface_name record_name : list Z) : option InterfaceImplMapping :=
  find (fun m => name_eqb (m_interface m) interface_name && name_eqb (m_record m) record_name) (impl_mappings tc).

Definition typechecker_find_impl_mapping (tc : TypeChecker) (interface_name record_name : list Z) : option InterfaceImplMapping :=
  match typechecker_find_impl_mapping_exact tc interface_name record_name with
  | Some m => Some m
  | None =>
      find (fun m => name_eqb (m_interface m) interface_name && negb (existsb (Z.eqb c_bracket) (m_record m))
                     && typechecker_record_base_name_equals (m_record m) record_name) (impl_mappings tc)
  end.

Definition typechecker_impl_lookup_function (m : InterfaceImplMapping) (method : list Z) : option (list Z) := assoc method (m_methods m).
Definition typechecker_impl_lookup_method (m : InterfaceImplMapping) (function : list Z) : option (list Z) :=
  option_map fst (find (fun p => name_eqb (snd p) function) (m_methods m)).

Fixpoint typechecker_type_contains_type_param (t : Ty) : bool :=
  match t with
  | T_TYPE_PARAM _ _ => true
  | T_ARRAY _ e | T_FUTURE _ e | T_SET _ e => typechecker_type_contains_type_param e
  | T_FUNCTION _ r ps xs =>
      typechecker_type_contains_type_param r || existsb typechecker_type_contains_type_param ps ||
      existsb (fun x => match snd x with Some c => typechecker_type_contains_type_param c | None => false end) xs
  | T_TUPLE _ es => existsb typechecker_type_contains_type_param es
  | T_MAP _ k v => typechecker_type_contains_type_param k || typechecker_type_contains_type_param v
  | T_RECORD _ _ ps => existsb typechecker_type_contains_type_param ps
  | _ => false
  end.

Definition mutually_assignable (a b : Ty) : bool := type_assignable a b && type_assignable b a.

(** The receiver is the first parameter of the function. *)
Definition typechecker_function_matches_interface_method (tc : TypeChecker) (impl iface receiver : Ty) : bool :=
  match impl, iface, receiver with
  | T_FUNCTION _ r (T_RECORD _ d args :: ps) _, T_FUNCTION _ r' ps' _, T_RECORD _ d' args' =>
      (List.length ps =? List.length ps')%nat &&
      ((d =? d')%nat ||
       match record_def_of tc d, record_def_of tc d' with
       | Some x, Some y => typechecker_record_base_name_equals (r_name x) (r_name y)
       | _, _ => false
       end) &&
      match args' with
      | [] => forallb typechecker_type_contains_type_param args
      | _ => all2 (fun a b => typechecker_type_contains_type_param a || mutually_assignable a b) args args'
      end &&
      all2 mutually_assignable ps' ps && mutually_assignable r' r
  | _, _, _ => false
  end.

Definition typechecker_record_implements_interface (tc : TypeChecker) (record interface : Ty) (use_file : list Z) : bool :=
  match record, interface with
  | T_RECORD _ d _, T_INTERFACE _ i =>
      match record_def_of tc d, interface_def_of tc i with
      | Some rec, Some iface =>
          let mapping := typechecker_find_impl_mapping tc (i_name iface) (r_name rec) in
          forallb (fun '(method, type) =>
            match (match mapping with Some m => typechecker_impl_lookup_function m method | None => Some method end) with
            | None => false
            | Some function =>
                match symbol_table_get (globals tc) function with
                | None => false
                | Some s => symbol_is_accessible_from_file s use_file && typechecker_function_matches_interface_method tc (s_type s) type record
                end
            end) (i_methods iface)
      | _, _ => false
      end
  | _, _ => false
  end.

Definition typechecker_type_param_constraint (tc : TypeChecker) (x : list Z) : option Ty :=
  match find (fun p => name_eqb (fst p) x) (current_type_params tc) with Some (_, c) => c | None => None end.

(** The loop that follows constraints that are parameters themselves. *)
Fixpoint follow_constraint (tc : TypeChecker) (x : list Z) (safety_limit : nat) (constraint : option Ty) : option Ty :=
  match safety_limit, constraint with
  | S n, Some (T_TYPE_PARAM _ y) => if name_eqb y x then constraint else follow_constraint tc x n (typechecker_type_param_constraint tc y)
  | _, _ => constraint
  end.
Definition typechecker_resolve_type_param_constraint (tc : TypeChecker) (t : Ty) : option Ty :=
  match t with
  | T_TYPE_PARAM _ x => follow_constraint tc x (S (List.length (current_type_params tc))) (typechecker_type_param_constraint tc x)
  | _ => None
  end.

(** [None]: the recursion is deeper than [n]. *)
Fixpoint typechecker_types_assignable (n : nat) (tc : TypeChecker) (to from : Ty) (file : list Z) : option bool :=
  match n with
  | O => None
  | S n =>
      if type_assignable to from then Some true
      else
        match to, from with
        | T_INTERFACE _ _, T_TYPE_PARAM _ _ =>
            match typechecker_resolve_type_param_constraint tc from with
            | Some c => typechecker_types_assignable n tc to c file
            | None => Some false
            end
        | T_INTERFACE _ _, T_RECORD _ _ _ => Some (typechecker_record_implements_interface tc from to file)
        | _, _ => Some false
        end
  end.

(** ** Generics *)

Fixpoint position (x : list Z) (names : list (list Z)) : option nat :=
  match names with
  | [] => None
  | y :: names => if name_eqb y x then Some O else option_map S (position x names)
  end.
Definition typechecker_type_param_binding_index (names : list (list Z)) (x : list Z) : option nat := position x names.

Definition is_any (t : Ty) : bool := bool_decide (kind t = TYPE_ANY).

(** A loop that stops where an inference fails. *)
Definition infer_each (infer : Ty -> Ty -> list (option Ty) -> option (bool * list (option Ty))) :
    list Ty -> list Ty -> list (option Ty) -> option (bool * list (option Ty)) :=
  fix go ps args bound :=
    match ps, args with
    | p :: ps, a :: args =>
        match infer p a bound with
        | Some (true, bound) => go ps args bound
        | r => r
        end
    | _, _ => Some (true, bound)
    end.

Section Inference.
Context (n : nat) (tc : TypeChecker) (names : list (list Z)) (file : list Z).

Definition infer_param (x : list Z) (arg : Ty) (bound : list (option Ty)) : option (bool * list (option Ty)) :=
  match typechecker_type_param_binding_index names x with
  | None => Some (true, bound)
  | Some i =>
      match default None (bound !! i) with
      | None => Some (true, <[i := Some (type_clone arg)]> bound)
      | Some t =>
          if is_any t && negb (is_any arg) then Some (true, <[i := Some (type_clone arg)]> bound)
          else if is_any arg && negb (is_any t) then Some (true, bound)
          else
            match typechecker_types_assignable n tc t arg file with
            | None => None
            | Some false => Some (false, bound)
            | Some true =>
                match typechecker_types_assignable n tc arg t file with
                | None => None
                | Some b => Some (b, bound)
                end
            end
      end
  end.

Fixpoint typechecker_infer_generic_bindings (param arg : Ty) (bound : list (option Ty)) : option (bool * list (option Ty)) :=
  match param with
  | T_TYPE_PARAM _ x => infer_param x arg bound
  | T_ARRAY _ e => match arg with T_ARRAY _ a => typechecker_infer_generic_bindings e a bound | _ => Some (true, bound) end
  | T_FUTURE _ e => match arg with T_FUTURE _ a => typechecker_infer_generic_bindings e a bound | _ => Some (true, bound) end
  | T_SET _ e => match arg with T_SET _ a => typechecker_infer_generic_bindings e a bound | _ => Some (true, bound) end
  | T_MAP _ k v =>
      match arg with
      | T_MAP _ ka va =>
          match typechecker_infer_generic_bindings k ka bound with
          | Some (true, bound) => typechecker_infer_generic_bindings v va bound
          | r => r
          end
      | _ => Some (true, bound)
      end
  | T_TUPLE _ es =>
      match arg with
      | T_TUPLE _ args =>
          if (List.length es =? List.length args)%nat then infer_each typechecker_infer_generic_bindings es args bound else Some (true, bound)
      | _ => Some (true, bound)
      end
  | T_FUNCTION _ r ps _ =>
      match arg with
      | T_FUNCTION _ ra args _ =>
          if (List.length ps =? List.length args)%nat then
            match typechecker_infer_generic_bindings r ra bound with
            | Some (true, bound) => infer_each typechecker_infer_generic_bindings ps args bound
            | r => r
            end
          else Some (true, bound)
      | _ => Some (true, bound)
      end
  | T_RECORD _ d ps =>
      match arg with
      | T_RECORD _ d' args =>
          match record_def_of tc d, record_def_of tc d' with
          | Some x, Some y =>
              if typechecker_record_base_name_equals (r_name x) (r_name y) && (List.length ps =? List.length args)%nat
              then infer_each typechecker_infer_generic_bindings ps args bound
              else Some (true, bound)
          | _, _ => Some (true, bound)
          end
      | _ => Some (true, bound)
      end
  | _ => Some (true, bound)
  end.
End Inference.

Section Substitution.
Context (names : list (list Z)) (bound : list (option Ty)).

Definition bound_of (x : list Z) : option Ty :=
  match typechecker_type_param_binding_index names x with Some i => default None (bound !! i) | None => None end.

Fixpoint typechecker_substitute_generic_type (t : Ty) : Ty :=
  match t with
  | T_TYPE_PARAM q x =>
      match bound_of x with
      | Some b => if q then with_nullable true (type_clone b) else type_clone b
      | None => T_PLAIN P_ANY q
      end
  | T_ARRAY q e => T_ARRAY q (typechecker_substitute_generic_type e)
  | T_FUTURE q e => T_FUTURE q (typechecker_substitute_generic_type e)
  | T_FUNCTION q r ps xs =>
      T_FUNCTION q (typechecker_substitute_generic_type r) (map typechecker_substitute_generic_type ps)
        (map (fun x => (fst x, option_map type_clone (snd x))) xs)
  | T_TUPLE q es => T_TUPLE q (map typechecker_substitute_generic_type es)
  | T_MAP q k v => T_MAP q (typechecker_substitute_generic_type k) (typechecker_substitute_generic_type v)
  | T_SET q e => T_SET q (typechecker_substitute_generic_type e)
  | T_RECORD q d ps => T_RECORD q d (map typechecker_substitute_generic_type ps)
  | _ => type_clone t
  end.

(** [out_unresolved]: a parameter without a type was met. *)
Fixpoint substitute_unresolved (t : Ty) : bool :=
  match t with
  | T_TYPE_PARAM _ x => match bound_of x with Some _ => false | None => true end
  | T_ARRAY _ e | T_FUTURE _ e | T_SET _ e => substitute_unresolved e
  | T_FUNCTION _ r ps _ => substitute_unresolved r || existsb substitute_unresolved ps
  | T_TUPLE _ es => existsb substitute_unresolved es
  | T_MAP _ k v => substitute_unresolved k || substitute_unresolved v
  | T_RECORD _ _ ps => existsb substitute_unresolved ps
  | _ => false
  end.
End Substitution.

Definition typechecker_has_unbound_generic_type_params (bound : list (option Ty)) : bool :=
  existsb (fun t => match t with Some t => is_any t | None => true end) bound.

(** The key under which an instance of a generic record or enumeration is
    stored. *)
Definition typechecker_build_generic_key (tc : TypeChecker) (x : list Z) (args : list Ty) : list Z :=
  let name_of d := option_map r_name (record_def_of tc d) in
  let interface_of d := option_map i_name (interface_def_of tc d) in
  let text t := match type_to_string name_of interface_of t 256 with [] => bytes "any" | s => s end in
  x ++ bytes "[" ++ match args with [] => [] | a :: args => text a ++ flat_map (fun a => bytes "," ++ text a) args end ++ bytes "]".

(** ** Resolution *)

Inductive resolve_error := FutureArguments | PrivateSymbol (x : list Z) | NotGeneric (x : list Z).

(** A loop that resolves types in place. *)
Definition resolve_each (resolve : Ty -> Ty * list resolve_error) : list Ty -> list Ty * list resolve_error :=
  fix go ts :=
    match ts with
    | [] => ([], [])
    | t :: ts => let '(t, e) := resolve t in let '(ts, es) := go ts in (t :: ts, e ++ es)
    end.

(** The end of the record case, for a name that is no generic declaration. *)
Definition resolve_named (tc : TypeChecker) (q : bool) (d : nat) (x : list Z) (ps : list Ty) : Ty * list resolve_error :=
  if name_eqb x (bytes "Future") then
    match ps with
    | [p] => (T_FUTURE q (type_clone p), [])
    | _ => (T_PLAIN P_ANY q, [FutureArguments])
    end
  else
    match symbol_table_get (globals tc) x with
    | None => (T_RECORD q d ps, [])
    | Some s =>
        let is_record := bool_decide (kind (s_type s) = TYPE_RECORD) in
        if negb (symbol_is_accessible_from_file s (current_file tc)) then (T_RECORD q d ps, [PrivateSymbol x])
        else if negb (bool_decide (ps = [])) && (is_type_alias s || is_record) then (T_PLAIN P_ANY q, [NotGeneric x])
        else if bool_decide (kind (s_type s) = TYPE_INTERFACE) || is_type_alias s then
          (with_nullable (nullable (s_type s) || q) (type_clone (s_type s)), [])
        else
          match s_type s with
          | T_RECORD _ d' _ => (T_RECORD q d' ps, [])
          | _ => (T_RECORD q d ps, [])
          end
    end.

Fixpoint resolve (tc : TypeChecker) (t : Ty) : Ty * list resolve_error :=
  match t with
  | T_ARRAY q e => let '(e, es) := resolve tc e in (T_ARRAY q e, es)
  | T_FUNCTION q r ps xs => let '(r, e) := resolve tc r in let '(ps, es) := resolve_each (resolve tc) ps in (T_FUNCTION q r ps xs, e ++ es)
  | T_TUPLE q ts => let '(ts, es) := resolve_each (resolve tc) ts in (T_TUPLE q ts, es)
  | T_MAP q k v => let '(k, e) := resolve tc k in let '(v, es) := resolve tc v in (T_MAP q k v, e ++ es)
  | T_SET q e => let '(e, es) := resolve tc e in (T_SET q e, es)
  | T_RECORD q d ps =>
      let '(ps, es) := resolve_each (resolve tc) ps in
      match record_def_of tc d with
      | Some def => let '(t, e) := resolve_named tc q d (r_name def) ps in (t, es ++ e)
      | None => (T_RECORD q d ps, es)
      end
  | _ => (t, [])
  end.
Definition typechecker_resolve_type (tc : TypeChecker) (t : Ty) : Ty := fst (resolve tc t).

(** ** Inference inverts substitution *)

Section Inversion.
Context (n : nat) (tc : TypeChecker) (names : list (list Z)) (file : list Z) (sigma : list (option Ty)).

(** The types that are substituted are not [any] and contain no [nil]. *)
Definition exact (t : Ty) : bool := ty_all not_any t && ty_all not_nil t.
Hypothesis Hsigma : forall i t, sigma !! i = Some (Some t) -> exact t = true.

Lemma assignable_self t : exact t = true -> typechecker_types_assignable (S n) tc t t file = Some true.
Proof. intros [H1 H2]%andb_prop. cbn [typechecker_types_assignable]. by rewrite assignable_refl. Qed.

(** The parameters that occur in a type and are substituted. *)
Fixpoint occurs (i : nat) (t : Ty) : bool :=
  match t with
  | T_TYPE_PARAM _ x => bool_decide (typechecker_type_param_binding_index names x = Some i)
  | T_ARRAY _ e | T_FUTURE _ e | T_SET _ e => occurs i e
  | T_FUNCTION _ r ps _ => occurs i r || existsb (occurs i) ps
  | T_TUPLE _ es => existsb (occurs i) es
  | T_MAP _ k v => occurs i k || occurs i v
  | T_RECORD _ _ ps => existsb (occurs i) ps
  | _ => false
  end.

(** Parameter types whose parameters are all in [sigma], not nullable, and
    whose records are defined. *)
Definition inferable (t : Ty) : bool :=
  ty_all (fun t =>
    match t with
    | T_TYPE_PARAM q x => negb q && match bound_of names sigma x with Some _ => true | None => false end
    | T_RECORD _ d _ => match record_def_of tc d with Some _ => true | None => false end
    | _ => true
    end) t.

(** What has been inferred so far agrees with [sigma]. *)
Definition agrees (bound : list (option Ty)) : Prop :=
  List.length bound = List.length sigma /\ forall i t, bound !! i = Some (Some t) -> sigma !! i = Some (Some t).

(** Inference from the instance of [p] succeeds, keeps agreement and what was
    bound, and binds the parameters of [p]. *)
Definition infers (r : list (option Ty) -> option (bool * list (option Ty))) (occ : nat -> bool) : Prop := forall bound, agrees bound ->
  exists bound', r bound = Some (true, bound') /\ agrees bound'
    /\ (forall i t, bound !! i = Some (Some t) -> bound' !! i = Some (Some t))
    /\ (forall i, occ i = true -> exists t, bound' !! i = Some (Some t)).

Lemma infers_nothing : infers (fun bound => Some (true, bound)) (fun _ => false).
Proof. intros bound Hb. exists bound. split_and!; try done. Qed.

Lemma infers_seq r1 r2 occ1 occ2 : infers r1 occ1 -> infers r2 occ2 ->
  infers (fun bound => match r1 bound with Some (true, bound) => r2 bound | r => r end) (fun i => occ1 i || occ2 i).
Proof.
  intros H1 H2 bound Hb. destruct (H1 bound Hb) as (b1 & -> & Hb1 & Hk1 & Ho1). destruct (H2 b1 Hb1) as (b2 & -> & Hb2 & Hk2 & Ho2).
  exists b2. split_and!; try done; [auto|]. intros i [H|H]%orb_prop; [|auto]. destruct (Ho1 i H) as [t Ht]. eauto.
Qed.

Lemma infers_ext r r' occ occ' : infers r occ -> (forall bound, r' bound = r bound) -> (forall i, occ' i = occ i) -> infers r' occ'.
Proof.
  intros H Hr Ho bound Hb. destruct (H bound Hb) as (b & E & H1 & H2 & H3). exists b. rewrite Hr. split_and!; try done. intros i. rewrite Ho. apply H3.
Qed.

Lemma infers_each (infer : Ty -> Ty -> list (option Ty) -> option (bool * list (option Ty))) (f : Ty -> Ty) ps :
  Forall (fun p => infers (infer p (f p)) (fun i => occurs i p)) ps -> infers (infer_each infer ps (map f ps)) (fun i => existsb (occurs i) ps).
Proof.
  induction 1 as [|p ps Hp _ IH]; [apply infers_nothing|]. cbn [map existsb]. eapply infers_ext; [apply (infers_seq _ _ _ _ Hp IH)|done|done].
Qed.

Lemma infers_param x : bound_of names sigma x <> None ->
  infers (infer_param (S n) tc names file x (type_clone (default ty_any (bound_of names sigma x))))
    (fun i => bool_decide (typechecker_type_param_binding_index names x = Some i)).
Proof.
  intros Hx bound [Hl Hb]. rewrite type_clone_same. unfold infer_param, bound_of in *.
  destruct (typechecker_type_param_binding_index names x) as [i|] eqn:E; [|done].
  destruct (sigma !! i) as [[t|]|] eqn:Es; cbn in *; try done. pose proof (Hsigma i t Es) as Ht.
  assert (i < List.length bound)%nat as Hi by (rewrite Hl; by apply lookup_lt_Some in Es).
  destruct (lookup_lt_is_Some_2 bound i Hi) as [o Ho]. rewrite Ho. cbn [default from_option id]. destruct o as [t'|]; cbn.
  - assert (t' = t) as -> by (apply Hb in Ho; congruence). apply andb_prop in Ht as [Ha Hn]. pose proof (ty_all_here _ _ Ha) as Ha'.
    unfold not_any in Ha'. apply negb_true_iff in Ha'. unfold is_any. rewrite Ha'. cbn.
    change (if type_assignable t t then Some true else _) with (typechecker_types_assignable (S n) tc t t file).
    rewrite assignable_self by (unfold exact; by rewrite Ha, Hn). exists bound. split_and!; try done.
    intros j Hj%bool_decide_eq_true. injection Hj as <-. eauto.
  - rewrite type_clone_same. exists (<[i:=Some t]> bound). split_and!; [done| | |].
    + split; [by rewrite length_insert|]. intros j t' Hj. destruct (decide (i = j)) as [<-|Hne].
      * rewrite list_lookup_insert_eq in Hj by done. congruence.
      * rewrite list_lookup_insert_ne in Hj by done. by apply Hb.
    + intros j t' Hj. destruct (decide (i = j)) as [<-|Hne]; [congruence|]. by rewrite list_lookup_insert_ne.
    + intros j Hj%bool_decide_eq_true. injection Hj as <-. exists t. by rewrite list_lookup_insert_eq.
Qed.

Lemma Forall_forallb (P : Ty -> Prop) (f : Ty -> bool) l : Forall (fun a => f a = true -> P a) l -> forallb f l = true -> Forall P l.
Proof. induction 1 as [|a l Ha _ IH]; cbn; [constructor|]. intros [? ?]%andb_prop. constructor; auto. Qed.

Lemma infer_instance p : inferable p = true ->
  infers (typechecker_infer_generic_bindings (S n) tc names file p (typechecker_substitute_generic_type names sigma p)) (fun i => occurs i p).
Proof.
  unfold inferable.
  induction p as [k q|q x|q e IH|q e IH|q r ps xs IHr IHps IHxs|q x|q es IH|q k v IHk IHv|q e IH|q d ps IH|q d] using Ty_induction; intros Hp;
    cbn [ty_all] in Hp; rewrite ?andb_true_iff in Hp; rewrite ?andb_true_iff in Hp;
    cbn [typechecker_infer_generic_bindings typechecker_substitute_generic_type occurs type_clone]; try apply infers_nothing.
  - apply IH; tauto.
  - apply IH; tauto.
  - destruct Hp as (_ & (Hr & Hps) & _). rewrite length_map, Nat.eqb_refl.
    apply infers_seq; [by apply IHr|]. apply infers_each. by eapply Forall_forallb.
  - destruct Hp as ((Hq & Hx) & _). destruct q; [done|]. pose proof (infers_param x) as H.
    destruct (bound_of names sigma x) as [t|]; [|done]. by apply H.
  - rewrite length_map, Nat.eqb_refl. apply infers_each. eapply Forall_forallb; [exact IH|tauto].
  - apply infers_seq; [apply IHk|apply IHv]; tauto.
  - apply IH; tauto.
  - destruct Hp as [Hd Hps]. destruct (record_def_of tc d) as [x|]; [|done].
    unfold typechecker_record_base_name_equals. rewrite (proj2 (name_eqb_spec _ _) eq_refl), length_map, Nat.eqb_refl.
    apply infers_each. by eapply Forall_forallb.
Qed.

Lemma map_agreeing (bound : list (option Ty)) (f g : Ty -> Ty) (F : Ty -> bool) ps :
  Forall (fun p => F p = true -> (forall i, occurs i p = true -> bound !! i = sigma !! i) -> f p = g p) ps ->
  forallb F ps = true -> (forall i, existsb (occurs i) ps = true -> bound !! i = sigma !! i) -> map f ps = map g ps.
Proof.
  induction 1 as [|p ps Hp _ IH]; cbn; [done|]. intros [? ?]%andb_prop Ho. f_equal.
  - apply Hp; [done|]. intros i Hi. apply Ho. by rewrite Hi.
  - apply IH; [done|]. intros i Hi. apply Ho. rewrite Hi. apply orb_true_r.
Qed.

(** Types that agree on the parameters of [p] give the same instance. *)
Lemma substitute_same (bound : list (option Ty)) p : inferable p = true -> (forall i, occurs i p = true -> bound !! i = sigma !! i) ->
  typechecker_substitute_generic_type names bound p = typechecker_substitute_generic_type names sigma p.
Proof.
  unfold inferable.
  induction p as [k q|q x|q e IH|q e IH|q r ps xs IHr IHps IHxs|q x|q es IH|q k v IHk IHv|q e IH|q d ps IH|q d] using Ty_induction; intros Hp Ho;
    cbn [ty_all] in Hp; rewrite ?andb_true_iff in Hp; rewrite ?andb_true_iff in Hp; cbn [typechecker_substitute_generic_type]; try done; cbn [occurs] in Ho.
  - f_equal. apply IH; tauto.
  - f_equal. apply IH; tauto.
  - destruct Hp as (_ & (Hr & Hps) & _). f_equal; [apply IHr; [done|]; intros i Hi; apply Ho; by rewrite Hi|].
    eapply map_agreeing; [exact IHps|done|]. intros i Hi. apply Ho. rewrite Hi. apply orb_true_r.
  - unfold bound_of. destruct (typechecker_type_param_binding_index names x) as [i|]; [|done]. rewrite (Ho i) by (by apply bool_decide_true). done.
  - f_equal. eapply map_agreeing; [exact IH|tauto|done].
  - f_equal; [apply IHk|apply IHv]; try tauto; intros i Hi; apply Ho; rewrite Hi; [done|apply orb_true_r].
  - f_equal. apply IH; tauto.
  - f_equal. eapply map_agreeing; [exact IH|tauto|done].
Qed.
End Inversion.


Definition small_checker : TypeChecker := mkChecker [] [] 0 [mkRecordDef (bytes "Box") []] [] [] [] [].
Definition sample_param : Ty :=
  T_FUNCTION false (T_TYPE_PARAM false (bytes "T")) [T_MAP false (T_PLAIN P_STRING false) (T_TYPE_PARAM false (bytes "U")); T_RECORD false 0 [T_TYPE_PARAM false (bytes "T")]] [].


(** ** Constraints that refer to each other *)

(** [fn f<T: U, U: T>]: only a constraint that names its own parameter is
    rejected where functions are declared. *)
Definition mutual_checker : TypeChecker :=
  mkChecker [] [] 0 [] [mkInterfaceDef (bytes "Show") []] []
    [(bytes "T", Some (T_TYPE_PARAM false (bytes "U"))); (bytes "U", Some (T_TYPE_PARAM false (bytes "T")))] [].

(** The constraint of [T] is [T] again, so that the question whether a [T] is
    assignable to an interface is asked without end. *)
Lemma mutual_constraints_diverge n file : typechecker_types_assignable n mutual_checker (T_INTERFACE false 0) (T_TYPE_PARAM false (bytes "T")) file = None.
Proof. induction n as [|n IH]; [done|exact IH]. Qed.
