(* ===== verification/MatchCheck.v ===== *)
(** * Exhaustive matches: [src/src/typechecker.c]

    Whether the patterns of a match cover all values of the subject's type: the
    checker expands a matrix of patterns column by column. Patterns are the
    expressions that the functions here look at; [PAT_NULL] is a missing
    pattern, which the code uses as a wildcard. *)

From Stdlib Require Import String.
From S2P Require Import Prelude Lexer Bytecode Ast Operators Types Checker.

Open Scope Z_scope.
Open Scope list_scope.

(** ** Patterns *)

#[warnings="-register-all"]
Inductive Pattern :=
  | PAT_NULL
  | PAT_NIL
  | PAT_LITERAL (type : TypeKind) (literal : constant_payload)
  | PAT_IDENTIFIER (identifier : list Z)
  | PAT_FIELD_ACCESS (object : Pattern) (field_name : list Z)
  | PAT_CALL (callee : Pattern) (args : list Pattern)
  | PAT_TUPLE (elements : list Pattern)
  | PAT_RECORD (fields : list (list Z * Pattern)) (pattern_type : option Ty) (allows_rest : bool)
  | PAT_OTHER.

Definition is_null_pattern (p : Pattern) : bool := match p with PAT_NULL => true | _ => false end.

Definition match_binding_name_looks_destructure (x : list Z) : bool :=
  match x with
  | [] => false
  | c :: _ => name_eqb x [c_underscore] || ((97 <=? c) && (c <=? 122))
  end.

Definition match_expr_is_bool_literal (p : Pattern) : option bool :=
  match p with PAT_LITERAL TYPE_BOOL (as_int v) => Some (negb (v =? 0)) | _ => None end.

(** ** Enumerations *)

Definition type_enum_name (t : Ty) : option (list Z) := match t with T_INT _ (Some (c :: x)) => Some (c :: x) | _ => None end.

Section Matching.
Context (tc : TypeChecker).

Definition symbol_enum_name (s : Symbol) : option (list Z) :=
  match type_enum_name (s_type s) with
  | Some x => Some x
  | None =>
      match s_type s with
      | T_FUNCTION _ r _ _ =>
          match type_enum_name r with
          | Some x => Some x
          | None => match r with T_RECORD _ d _ => option_map r_name (record_def_of tc d) | _ => None end
          end
      | _ => None
      end
  end.

(** What follows the name of the enumeration and the underscore. *)
Definition enum_symbol_suffix (symbol_name enum : list Z) : option (list Z) :=
  match base_name enum with
  | [] => None
  | base =>
      if name_eqb (take (List.length base) symbol_name) base then
        match drop (List.length base) symbol_name with
        | c :: d :: x => if c =? c_underscore then Some (d :: x) else None
        | _ => None
        end
      else None
  end.

Definition symbol_is_enum_member_for (s : Symbol) (enum : list Z) : option (list Z) :=
  if is_type_alias s then None
  else
    match symbol_enum_name s with
    | Some x => if typechecker_record_base_name_equals x enum then enum_symbol_suffix (s_name s) enum else None
    | None => None
    end.

(** [object.field]. *)
Definition qualified_member (object : Pattern) (field enum : list Z) : option (list Z) :=
  match object with
  | PAT_IDENTIFIER x => if typechecker_record_base_name_equals x enum then Some field else None
  | _ => None
  end.
Definition named_member (x enum : list Z) : option (list Z) :=
  match typechecker_lookup tc x with Some s => symbol_is_enum_member_for s enum | None => None end.

Definition match_expr_enum_member_name (p : Pattern) (enum : list Z) : option (list Z) :=
  match p with
  | PAT_IDENTIFIER x => named_member x enum
  | PAT_FIELD_ACCESS object field => qualified_member object field enum
  | PAT_CALL (PAT_IDENTIFIER x) _ => named_member x enum
  | PAT_CALL (PAT_FIELD_ACCESS object field) _ => qualified_member object field enum
  | _ => None
  end.

(** Without type arguments; no instance of a generic enumeration exists, so its
    parameters stay unbound. *)
Definition match_resolve_enum_payload_types_from_symbol (s : Symbol) (subject : Ty) : option (list Ty) :=
  match type_enum_name (typechecker_resolve_type tc subject) with
  | None => None
  | Some enum =>
      match symbol_is_enum_member_for s enum with
      | None => None
      | Some _ =>
          match s_type s with
          | T_FUNCTION _ _ ps [] => Some (map type_clone ps)
          | T_FUNCTION _ _ ps xs =>
              let names := map fst xs in
              Some (map (fun p => typechecker_resolve_type tc (typechecker_substitute_generic_type names (replicate (List.length xs) None) p)) ps)
          | _ => Some []
          end
      end
  end.

Definition match_enum_member_payload_types (subject : Ty) (member : list Z) : option (list Ty) :=
  let subject := typechecker_resolve_type tc subject in
  match type_enum_name subject with
  | None => None
  | Some enum =>
      match find (fun s => match symbol_is_enum_member_for s enum with Some m => name_eqb m member | None => false end) (globals tc) with
      | Some s => match_resolve_enum_payload_types_from_symbol s subject
      | None => None
      end
  end.

(** The members in the order of the symbol table. *)
Definition enum_members (enum : list Z) : list (list Z) :=
  omap (fun s => symbol_is_enum_member_for s enum) (globals tc).

(** ** Single patterns *)

Definition match_pattern_resolve_record_type (pattern_type : option Ty) (subject : Ty) : option Ty :=
  match option_map (typechecker_resolve_type tc) pattern_type with
  | Some (T_RECORD q d ps) => Some (T_RECORD q d ps)
  | _ => match typechecker_resolve_type tc subject with T_RECORD q d ps => Some (T_RECORD q d ps) | _ => None end
  end.

(** Called with [allow_identifier_binding] everywhere. *)
Fixpoint match_pattern_is_structurally_covering (p : Pattern) (subject : Ty) : bool :=
  let subject := typechecker_resolve_type tc subject in
  match p with
  | PAT_IDENTIFIER x => match_binding_name_looks_destructure x
  | PAT_TUPLE ps =>
      match subject with
      | T_TUPLE _ es => (List.length ps =? List.length es)%nat && all2 match_pattern_is_structurally_covering ps es
      | _ => false
      end
  | PAT_RECORD fields pattern_type allows_rest =>
      match match_pattern_resolve_record_type pattern_type subject with
      | Some (T_RECORD _ d _) =>
          match record_def_of tc d with
          | Some def =>
              (allows_rest || (List.length fields =? List.length (r_fields def))%nat) &&
              forallb (fun f =>
                match record_def_get_field_type def (fst f) with
                | Some t => match_pattern_is_structurally_covering (snd f) t
                | None => false
                end) fields
          | None => false
          end
      | _ => false
      end
  | _ => false
  end.

Definition match_pattern_is_binding_wildcard (p : Pattern) : bool :=
  match p with PAT_IDENTIFIER x => match_binding_name_looks_destructure x | _ => false end.

(** [NULL], or covering. *)
Definition use_wildcards (p : Pattern) (t : Ty) : bool := is_null_pattern p || match_pattern_is_structurally_covering p t.

Definition match_pattern_row_is_covering (row : list Pattern) (types : list Ty) : bool :=
  (List.length row =? List.length types)%nat && all2 use_wildcards row types.

(** ** The matrix *)

(** A loop that stops at the first [false]; [None] is a recursion that is too
    deep. *)
Fixpoint all_true {A} (f : A -> option bool) (l : list A) : option bool :=
  match l with
  | [] => Some true
  | a :: l => match f a with Some true => all_true f l | r => r end
  end.

(** The rows of a column of an enumeration, for one member; each gives the
    patterns of its payload. *)
Definition member_row (enum member : list Z) (t : Ty) (payload_count : nat) (p : Pattern) : option (list Pattern) :=
  if use_wildcards p t then Some (replicate payload_count PAT_NULL)
  else
    match match_expr_enum_member_name p enum with
    | Some m =>
        if name_eqb m member then
          match payload_count with
          | O => Some []
          | _ => match p with PAT_CALL _ args => if (List.length args =? payload_count)%nat then Some args else None | _ => None end
          end
        else None
    | None => None
    end.

Definition bool_row (branch : bool) (t : Ty) (p : Pattern) : option (list Pattern) :=
  if use_wildcards p t then Some []
  else match match_expr_is_bool_literal p with Some b => if Bool.eqb b branch then Some [] else None | None => None end.

Definition nil_row (t : Ty) (p : Pattern) : option (list Pattern) :=
  if use_wildcards p t then Some [] else match p with PAT_NIL => Some [] | _ => None end.

Definition tuple_row (t : Ty) (arity : nat) (p : Pattern) : option (list Pattern) :=
  if use_wildcards p t then Some (replicate arity PAT_NULL)
  else match p with PAT_TUPLE ps => if (List.length ps =? arity)%nat then Some ps else None | _ => None end.

(** The loop that puts the fields of a pattern into their columns. *)
Fixpoint record_columns (def : RecordDef) (fields : list (list Z * Pattern)) (columns : list Pattern) : option (list Pattern) :=
  match fields with
  | [] => Some columns
  | (x, p) :: fields =>
      match record_def_get_field_index def x with
      | Some i => record_columns def fields (<[i := p]> columns)
      | None => None
      end
  end.

Definition record_row (t : Ty) (d : nat) (def : RecordDef) (p : Pattern) : option (list Pattern) :=
  let blank := replicate (List.length (r_fields def)) PAT_NULL in
  if use_wildcards p t then Some blank
  else
    match p with
    | PAT_RECORD fields pattern_type _ =>
        match match_pattern_resolve_record_type pattern_type t with
        | Some (T_RECORD _ d' _) => if (d' =? d)%nat then record_columns def fields blank else None
        | _ => None
        end
    | _ => None
    end.

Definition default_row (t : Ty) (p : Pattern) : option (list Pattern) := if use_wildcards p t then Some [] else None.

(** The rows after the head column was replaced. *)
Definition expand (row_of : Pattern -> option (list Pattern)) (rows : list (list Pattern)) : list (list Pattern) :=
  omap (fun row => match row with p :: rest => option_map (fun ps => ps ++ rest) (row_of p) | [] => None end) rows.

(** [column_types] is [NULL] after the expansion of the last column by a member
    without payload. Tuples and records allocate their columns even when there
    are none left, and [calloc] gives a pointer for them. *)
Definition next_types (ts : list Ty) : option (list Ty) := match ts with [] => None | _ => Some ts end.

Fixpoint match_pattern_matrix_exhaustive (n : nat) (rows : list (list Pattern)) (column_types : option (list Ty)) : option bool :=
  match n with
  | O => None
  | S n =>
      let go row_of types := match expand row_of rows with [] => Some false | next => match_pattern_matrix_exhaustive n next types end in
      match rows, column_types with
      | [], _ | _, None => Some false
      | _, Some [] => Some true
      | _, Some (t :: ts) =>
          if existsb (fun row => match_pattern_row_is_covering row (t :: ts)) rows then Some true
          else
            let head := typechecker_resolve_type tc t in
            match type_enum_name head with
            | Some enum =>
                match enum_members enum with
                | [] => Some false
                | members =>
                    all_true (fun member =>
                      match match_enum_member_payload_types head member with
                      | None => Some false
                      | Some ps => go (member_row enum member head (List.length ps)) (next_types (ps ++ ts))
                      end) members
                end
            | None =>
                match head with
                | T_PLAIN P_BOOL _ => all_true (fun branch => go (bool_row branch head) (Some ts)) [false; true]
                | T_PLAIN P_NIL _ => go (nil_row head) (Some ts)
                | T_TUPLE _ es => go (tuple_row head (List.length es)) (Some (es ++ ts))
                | T_RECORD _ d _ =>
                    match record_def_of tc d with
                    | Some def => go (record_row head d def) (Some (map snd (r_fields def) ++ ts))
                    | None => go (default_row head) (Some ts)
                    end
                | _ => go (default_row head) (Some ts)
                end
            end
      end
  end.

Definition match_enum_member_patterns_exhaustive (n : nat) (patterns : list Pattern) (subject : Ty) (member : list Z) : option bool :=
  let subject := typechecker_resolve_type tc subject in
  match type_enum_name subject with
  | None => Some false
  | Some enum =>
      match match_enum_member_payload_types subject member with
      | None => Some false
      | Some ps =>
          match omap (member_row enum member subject (List.length ps)) patterns with
          | [] => Some false
          | rows => match ps with [] => Some true | _ => match_pattern_matrix_exhaustive n rows (Some ps) end
          end
      end
  end.

Definition match_enum_patterns_exhaustive (n : nat) (patterns : list Pattern) (subject : Ty) : option bool :=
  match type_enum_name subject with
  | None => Some false
  | Some enum =>
      if existsb (fun p => is_null_pattern p || match_pattern_is_binding_wildcard p) patterns then Some true
      else
        match enum_members enum with
        | [] => Some false
        | members => all_true (match_enum_member_patterns_exhaustive n patterns subject) members
        end
  end.

Definition match_tuple_patterns_exhaustive (n : nat) (patterns : list Pattern) (subject : Ty) : option bool :=
  match_pattern_matrix_exhaustive n (map (fun p => [p]) patterns) (Some [subject]).
Definition match_record_patterns_exhaustive (n : nat) (patterns : list Pattern) (subject : Ty) : option bool :=
  match_pattern_matrix_exhaustive n (map (fun p => [p]) patterns) (Some [subject]).

Definition match_patterns_exhaustive (n : nat) (patterns : list Pattern) (subject : Ty) : option bool :=
  let subject := typechecker_resolve_type tc subject in
  match patterns with
  | [] => Some false
  | _ =>
      if existsb (fun p => use_wildcards p subject) patterns then Some true
      else
        match type_enum_name subject with
        | Some _ => match_enum_patterns_exhaustive n patterns subject
        | None =>
            match subject with
            | T_PLAIN P_BOOL _ =>
                Some (existsb (fun p => bool_decide (match_expr_is_bool_literal p = Some true)) patterns
                      && existsb (fun p => bool_decide (match_expr_is_bool_literal p = Some false)) patterns)
            | T_TUPLE _ _ => match_tuple_patterns_exhaustive n patterns subject
            | T_RECORD _ _ _ => match_record_patterns_exhaustive n patterns subject
            | _ => Some false
            end
        end
  end.
End Matching.
