(* ===== verification/MatchProps.v ===== *)
(** * What an exhaustive match means

    The values that patterns match, as a reference; a match that the checker
    takes for exhaustive has a pattern for every value of the subject's type
    that has no [nil] at a nullable type. *)

From Stdlib Require Import String.
From S2P Require Import Prelude Lexer Bytecode Ast Operators Types Checker MatchCheck.

Open Scope Z_scope.
Open Scope list_scope.

(** ** Values and patterns *)

#[warnings="-register-all"]
Inductive mvalue :=
  | mv_nil
  | mv_bool (b : bool)
  | mv_tuple (l : list mvalue)
  | mv_record (def : nat) (l : list mvalue)
  | mv_member (member : list Z) (payload : list mvalue)
  | mv_other (n : Z).

(** A relation along two lists, as far as both go. *)
Definition along {A B} (f : A -> B -> Prop) : list A -> list B -> Prop :=
  fix go l1 l2 :=
    match l1, l2 with
    | a :: l1, b :: l2 => f a b /\ go l1 l2
    | _, _ => True
    end.

Section Spec.
Context (tc : TypeChecker).
Notation resolve_type := (typechecker_resolve_type tc).

(** Whether a pattern matches a value of a type. Literals of other types than
    [bool] match nothing here, which is the least they can do. *)
Inductive matches : Pattern -> Ty -> mvalue -> Prop :=
  | matches_null t v : matches PAT_NULL t v
  | matches_binding x t v : match_binding_name_looks_destructure x = true -> matches (PAT_IDENTIFIER x) t v
  | matches_nil t : matches PAT_NIL t mv_nil
  | matches_bool p b t : match_expr_is_bool_literal p = Some b -> matches p t (mv_bool b)
  | matches_tuple ps q es t vs : resolve_type t = T_TUPLE q es -> Forall3 matches ps es vs -> matches (PAT_TUPLE ps) t (mv_tuple vs)
  | matches_record fields pt rest t q d args def vs :
      resolve_type t = T_RECORD q d args -> record_def_of tc d = Some def ->
      Forall (fun f => exists i x ft v, record_def_get_field_index def (fst f) = Some i /\ r_fields def !! i = Some (x, ft) /\ vs !! i = Some v
                                        /\ matches (snd f) ft v) fields ->
      matches (PAT_RECORD fields pt rest) t (mv_record d vs)
  | matches_constant p t enum m :
      type_enum_name (resolve_type t) = Some enum -> match_expr_enum_member_name tc p enum = Some m -> matches p t (mv_member m [])
  | matches_member callee args t enum m ts vs :
      type_enum_name (resolve_type t) = Some enum -> match_expr_enum_member_name tc (PAT_CALL callee args) enum = Some m ->
      match_enum_member_payload_types tc t m = Some ts -> Forall3 matches args ts vs -> matches (PAT_CALL callee args) t (mv_member m vs).

(** Types that the checker does not look into. *)
Definition opaque (t : Ty) : bool :=
  match t with
  | T_PLAIN P_BOOL _ | T_PLAIN P_NIL _ | T_TUPLE _ _ => false
  | T_RECORD _ d _ => match record_def_of tc d with Some _ => false | None => true end
  | _ => match type_enum_name t with Some _ => false | None => true end
  end.

(** The values of a type; with [nulls], a nullable type has [nil] too. *)
Inductive has_type (nulls : bool) : Ty -> mvalue -> Prop :=
  | has_null t : nulls = true -> nullable (resolve_type t) = true -> has_type nulls t mv_nil
  | has_bool t q b : resolve_type t = T_PLAIN P_BOOL q -> has_type nulls t (mv_bool b)
  | has_nil t q : resolve_type t = T_PLAIN P_NIL q -> has_type nulls t mv_nil
  | has_tuple t q es vs : resolve_type t = T_TUPLE q es -> Forall2 (has_type nulls) es vs -> has_type nulls t (mv_tuple vs)
  | has_record t q d args def vs :
      resolve_type t = T_RECORD q d args -> record_def_of tc d = Some def -> Forall2 (has_type nulls) (map snd (r_fields def)) vs ->
      has_type nulls t (mv_record d vs)
  | has_member t enum m ts vs :
      type_enum_name (resolve_type t) = Some enum -> m ∈ enum_members tc enum -> match_enum_member_payload_types tc t m = Some ts ->
      Forall2 (has_type nulls) ts vs -> has_type nulls t (mv_member m vs)
  | has_other t n : opaque (resolve_type t) = true -> has_type nulls t (mv_other n).

(** ** What the checker has established before *)

Definition fixed (t : Ty) : Prop := resolve_type t = t.

(** The types of fields and payloads are resolved. *)
Definition stable : Prop :=
  (forall d def, record_def_of tc d = Some def -> Forall fixed (map snd (r_fields def)))
  /\ (forall t m ts, match_enum_member_payload_types tc t m = Some ts -> Forall fixed ts).

(** A record pattern is written for a record of its own definition and names a
    field once. *)
Fixpoint typed (p : Pattern) (t : Ty) : Prop :=
  match p with
  | PAT_TUPLE ps => match resolve_type t with T_TUPLE _ es => along typed ps es | _ => True end
  | PAT_CALL _ args =>
      forall enum m ts, match_expr_enum_member_name tc p enum = Some m -> match_enum_member_payload_types tc t m = Some ts -> along typed args ts
  | PAT_RECORD fields pt _ =>
      NoDup (map fst fields) /\
      match resolve_type t with
      | T_RECORD _ d _ =>
          (exists q ps, match_pattern_resolve_record_type tc pt t = Some (T_RECORD q d ps)) /\
          match record_def_of tc d with
          | Some def =>
              (fix go fs :=
                 match fs with
                 | [] => True
                 | (x, p) :: fs => match record_def_get_field_type def x with Some ft => typed p ft | None => True end /\ go fs
                 end) fields
          | None => True
          end
      | _ => False
      end
  | _ => True
  end.

(** ** Induction over patterns *)

Section Induction.
Context (P : Pattern -> Prop).
Hypothesis Hnull : P PAT_NULL.
Hypothesis Hnil : P PAT_NIL.
Hypothesis Hliteral : forall k l, P (PAT_LITERAL k l).
Hypothesis Hident : forall x, P (PAT_IDENTIFIER x).
Hypothesis Hfield : forall o x, P o -> P (PAT_FIELD_ACCESS o x).
Hypothesis Hcall : forall c args, P c -> Forall P args -> P (PAT_CALL c args).
Hypothesis Htuple : forall ps, Forall P ps -> P (PAT_TUPLE ps).
Hypothesis Hrecord : forall fields pt rest, Forall (fun f => P (snd f)) fields -> P (PAT_RECORD fields pt rest).
Hypothesis Hother : P PAT_OTHER.

Lemma Pattern_induction : forall p, P p.
Proof.
  fix IH 1. intros p. destruct p as [| |k l|x|o x|c args|ps|fields pt rest|].
  - apply Hnull.
  - apply Hnil.
  - apply Hliteral.
  - apply Hident.
  - by apply Hfield.
  - apply Hcall; [apply IH|]. induction args; by constructor.
  - apply Htuple. induction ps; by constructor.
  - apply Hrecord. induction fields as [|[x p] fields IHf]; constructor; [apply IH|done].
  - apply Hother.
Qed.
End Induction.

(** ** Covering patterns *)

Lemma resolve_each_fst ts : fst (resolve_each (resolve tc) ts) = map (fun t => fst (resolve tc t)) ts.
Proof. induction ts as [|t ts IH]; cbn; [done|]. destruct (resolve tc t), (resolve_each (resolve tc) ts). cbn in *. by rewrite IH. Qed.

Lemma fixed_tuple q es : fixed (T_TUPLE q es) -> Forall fixed es.
Proof.
  unfold fixed, typechecker_resolve_type. cbn. pose proof (resolve_each_fst es) as E. destruct (resolve_each (resolve tc) es) as [es' e].
  cbn in *. intros H. injection H as ->. apply Forall_lookup_2. intros i t Ht. pose proof Ht as Ht'. rewrite E, list_lookup_fmap, Ht in Ht'.
  by injection Ht'.
Qed.

Lemma field_index def x ft :
  record_def_get_field_type def x = Some ft -> exists i y, record_def_get_field_index def x = Some i /\ r_fields def !! i = Some (y, ft).
Proof.
  unfold record_def_get_field_type, record_def_get_field_index, assoc. induction (r_fields def) as [|[y t] l IH]; cbn; [done|].
  destruct (name_eqb y x); cbn.
  - intros H. injection H as ->. by exists O, y.
  - intros H. destruct (IH H) as (i & z & -> & Hi). by exists (S i), z.
Qed.

Lemma all2_lookup {A B} (f : A -> B -> bool) l1 l2 : all2 f l1 l2 = true -> Forall2 (fun a b => f a b = true) l1 l2.
Proof.
  revert l2. induction l1 as [|a l1 IH]; destruct l2 as [|b l2]; cbn; try done.
  intros H. apply andb_true_iff in H as [H1 H2]. constructor; auto.
Qed.

(** The fields of a pattern that is typed against a definition. *)
Definition fields_typed (def : RecordDef) (fields : list (list Z * Pattern)) : Prop :=
  Forall (fun f => match record_def_get_field_type def (fst f) with Some ft => typed (snd f) ft | None => True end) fields.

Lemma typed_fields fields pt rest t q d args def :
  typed (PAT_RECORD fields pt rest) t -> resolve_type t = T_RECORD q d args -> record_def_of tc d = Some def ->
  NoDup (map fst fields) /\ (exists q' ps, match_pattern_resolve_record_type tc pt t = Some (T_RECORD q' d ps)) /\ fields_typed def fields.
Proof.
  cbn. intros [HN H] Ht Hd. rewrite Ht, Hd in H. destruct H as [Hp Hf]. split; [done|]. split; [done|].
  clear HN. induction fields as [|[x p] fields IH]; constructor; cbn; [apply Hf|]. apply IH. apply Hf.
Qed.

Lemma covering_elements ps es vs :
  Forall (fun p => forall t v, match_pattern_is_structurally_covering tc p t = true -> typed p t -> fixed t -> has_type false t v -> matches p t v) ps ->
  all2 (match_pattern_is_structurally_covering tc) ps es = true -> along typed ps es -> Forall fixed es -> Forall2 (has_type false) es vs ->
  Forall3 matches ps es vs.
Proof.
  revert es vs. induction ps as [|p ps IH]; intros [|t es] vs HP Ha Ht Hf Hv; cbn in Ha; try done.
  - inversion Hv. constructor.
  - apply andb_true_iff in Ha as [Ha1 Ha2]. destruct Ht as [Ht1 Ht2]. inversion HP; inversion Hf; inversion Hv; subst. constructor; auto.
Qed.

Lemma covering_matches p : forall t v,
  stable -> match_pattern_is_structurally_covering tc p t = true -> typed p t -> fixed t -> has_type false t v -> matches p t v.
Proof.
  induction p as [| |k l|x|o x IH|c args IHc IHa|ps IH|fields pt rest IH|] using Pattern_induction; intros t v Hs Hc Ht Hf Hv; try done.
  - by apply matches_binding.
  - cbn in Hc, Ht. destruct (resolve_type t) as [| | | | | |q es| | | |] eqn:E; try done. apply andb_true_iff in Hc as [_ Hc].
    inversion Hv; subst; try congruence; try (rewrite E in *; cbn in *; congruence).
    assert (es0 = es) as -> by congruence. eapply matches_tuple; [done|]. apply covering_elements; try done.
    + eapply Forall_impl; [|exact IH]. intros p Hp t' v' ? ? ? ?. by apply Hp.
    + apply (fixed_tuple q). by rewrite <- E, Hf.
  - pose proof Hc as Hc'. cbn in Hc'. pose proof Ht as Ht'. cbn in Ht'.
    destruct (resolve_type t) as [| | | | | | | | |q d args|] eqn:E; try (by destruct Ht').
    assert (t = T_RECORD q d args) as -> by (unfold fixed in Hf; congruence).
    destruct Ht' as [_ [(q' & ps & Hp) _]]. rewrite Hp in Hc'. destruct (record_def_of tc d) as [def|] eqn:Ed; [|done].
    apply andb_true_iff in Hc' as [_ Hc']. destruct (typed_fields _ _ _ _ _ _ _ _ Ht E Ed) as (_ & _ & Hft).
    inversion Hv; subst; try congruence; try (rewrite E in *; cbn in *; congruence).
    2: { rewrite E in *. cbn in *. rewrite Ed in *. done. }
    assert (d0 = d) as -> by congruence. assert (def0 = def) as -> by congruence.
    eapply matches_record; [done|done|]. apply Forall_forall. intros [y p] Hin. rewrite forallb_forall in Hc'.
    specialize (Hc' _ Hin). cbn in *.
    destruct (record_def_get_field_type def y) as [ft|] eqn:Ey; [|done]. destruct (field_index _ _ _ Ey) as (i & z & Hi & Hz).
    pose proof (proj1 Hs _ _ Ed) as Hfix.
    assert (Hm : map snd (r_fields def) !! i = Some ft) by (rewrite list_lookup_fmap, Hz; done).
    destruct (Forall2_lookup_l _ _ _ _ _ H1 Hm) as (w & Hw & Htw). exists i, z, ft, w. do 3 (split; [done|]).
    rewrite Forall_forall in IH. apply (IH _ Hin); try done.
    + pose proof (proj1 (Forall_forall _ _) Hft _ Hin) as T. cbn in T. by rewrite Ey in T.
    + by apply (Forall_lookup_1 _ _ _ _ Hfix Hm).
Qed.

Lemma wildcard_matches p t v :
  stable -> use_wildcards tc p t = true -> typed p t -> fixed t -> has_type false t v -> matches p t v.
Proof.
  unfold use_wildcards. intros Hs H. apply orb_true_iff in H as [H|H]; [by destruct p; try done; constructor|]. by apply covering_matches.
Qed.

(** ** Rows *)

(** What replacing the head column by the columns of its parts must keep: a
    pattern matches the value when the patterns of its row match the parts. *)
Definition row_sound (t : Ty) (v : mvalue) (row_of : Pattern -> option (list Pattern)) (ts : list Ty) (vs : list mvalue) : Prop :=
  forall p ps, typed p t -> row_of p = Some ps -> Forall2 typed ps ts /\ (Forall3 matches ps ts vs -> matches p t v).

Lemma nulls_typed ts : Forall2 typed (replicate (List.length ts) PAT_NULL) ts.
Proof. induction ts; by constructor. Qed.

Lemma along_typed ps ts : along typed ps ts -> List.length ps = List.length ts -> Forall2 typed ps ts.
Proof. revert ts. induction ps as [|p ps IH]; intros [|t ts] H HL; try done. destruct H. constructor; auto. Qed.

Lemma default_sound t v : stable -> fixed t -> has_type false t v -> row_sound t v (default_row tc t) [] [].
Proof.
  unfold default_row. intros Hs Hf Hv p ps Hp H. destruct (use_wildcards tc p t) eqn:E; [|done]. injection H as <-.
  split; [constructor|]. intros _. by apply wildcard_matches.
Qed.

Lemma bool_sound t b : stable -> fixed t -> has_type false t (mv_bool b) -> row_sound t (mv_bool b) (bool_row tc b t) [] [].
Proof.
  unfold bool_row. intros Hs Hf Hv p ps Hp H. destruct (use_wildcards tc p t) eqn:E.
  - injection H as <-. split; [constructor|]. intros _. by apply wildcard_matches.
  - destruct (match_expr_is_bool_literal p) as [b'|] eqn:El; [|done]. destruct (Bool.eqb_spec b' b) as [->|]; [|done]. injection H as <-.
    split; [constructor|]. intros _. by apply matches_bool.
Qed.

Lemma nil_row_sound t : stable -> fixed t -> has_type false t mv_nil -> row_sound t mv_nil (nil_row tc t) [] [].
Proof.
  unfold nil_row. intros Hs Hf Hv p ps Hp H. destruct (use_wildcards tc p t) eqn:E.
  - injection H as <-. split; [constructor|]. intros _. by apply wildcard_matches.
  - destruct p; try done. injection H as <-. split; [constructor|]. intros _. apply matches_nil.
Qed.

Lemma tuple_sound q es vs :
  stable -> fixed (T_TUPLE q es) -> has_type false (T_TUPLE q es) (mv_tuple vs) ->
  row_sound (T_TUPLE q es) (mv_tuple vs) (tuple_row tc (T_TUPLE q es) (List.length es)) es vs.
Proof.
  unfold tuple_row. intros Hs Hf Hv p ps Hp H. destruct (use_wildcards tc p (T_TUPLE q es)) eqn:E.
  - injection H as <-. split; [apply nulls_typed|]. intros _. by apply wildcard_matches.
  - destruct p as [| | | | | |ps'| |]; try done. destruct (Nat.eqb_spec (List.length ps') (List.length es)) as [HL|]; [|done].
    injection H as ->. cbn [typed] in Hp. rewrite Hf in Hp. split; [by apply along_typed|]. by apply (matches_tuple _ q).
Qed.

Lemma member_sound t enum m ts vs :
  stable -> fixed t -> has_type false t (mv_member m vs) -> type_enum_name t = Some enum -> match_enum_member_payload_types tc t m = Some ts ->
  row_sound t (mv_member m vs) (member_row tc enum m t (List.length ts)) ts vs.
Proof.
  unfold member_row. intros Hs Hf Hv He Hts p ps Hp H. destruct (use_wildcards tc p t) eqn:E.
  - injection H as <-. split; [apply nulls_typed|]. intros _. by apply wildcard_matches.
  - destruct (match_expr_enum_member_name tc p enum) as [m'|] eqn:Em; [|done]. destruct (name_eqb m' m) eqn:En; [|done].
    apply name_eqb_spec in En as ->. rewrite <- Hf in He. destruct ts as [|t' ts].
    + injection H as <-. split; [constructor|]. intros H. inversion H; subst. by eapply matches_constant.
    + cbn in H. destruct p as [| | | | |c args| | |]; try done. destruct (Nat.eqb_spec (List.length args) (S (List.length ts))) as [HL|]; [|done].
      injection H as ->. cbn [typed] in Hp. split; [apply along_typed; [by eapply Hp|done]|]. by eapply matches_member.
Qed.

(** ** Records *)

Lemma index_of_lookup {A} x (l : list (list Z * A)) i : index_of x l = Some i -> exists a, l !! i = Some (x, a) /\ assoc x l = Some a.
Proof.
  revert i. unfold assoc. induction l as [|[y a] l IH]; intros i; cbn; [done|]. destruct (name_eqb y x) eqn:E; cbn.
  - intros H. injection H as <-. apply name_eqb_spec in E as ->. by exists a.
  - destruct (index_of x l) as [j|]; [|done]. intros H. injection H as <-. apply (IH j). done.
Qed.

Lemma record_columns_other def fields cols cols' i :
  record_columns def fields cols = Some cols' -> Forall (fun f => record_def_get_field_index def (fst f) <> Some i) fields -> cols' !! i = cols !! i.
Proof.
  revert cols. induction fields as [|[x p] fields IH]; cbn; intros cols H HF; [by injection H as ->|]. inversion HF as [|? ? Hx HF']; subst. cbn in Hx.
  destruct (record_def_get_field_index def x) as [j|] eqn:E; [|done]. rewrite (IH _ H HF'). rewrite list_lookup_insert_ne; [done|]. congruence.
Qed.

Lemma record_columns_field def fields cols cols' :
  record_columns def fields cols = Some cols' -> NoDup (map fst fields) -> List.length cols = List.length (r_fields def) ->
  Forall (fun f => exists i ft, record_def_get_field_index def (fst f) = Some i /\ r_fields def !! i = Some (fst f, ft)
                                /\ cols' !! i = Some (snd f)) fields.
Proof.
  revert cols. induction fields as [|[x p] fields IH]; cbn; intros cols H HN HL; [constructor|].
  destruct (record_def_get_field_index def x) as [i|] eqn:E; [|done]. inversion HN as [|? ? Hx HN']; subst.
  pose proof (index_of_lookup _ _ _ E) as (ft & Hi & _). constructor.
  - cbn. exists i, ft. do 2 (split; [done|]). rewrite (record_columns_other _ _ _ _ _ H).
    + apply list_lookup_insert_eq. rewrite HL. by eapply lookup_lt_Some.
    + apply Forall_forall. intros [y p'] Hin Hy. cbn in Hy. destruct (index_of_lookup _ _ _ Hy) as (ft' & Hi' & _).
      assert (y = x) as -> by congruence. apply Hx. apply list_elem_of_In. by apply (in_map fst _ _ Hin).
  - apply (IH _ H HN'). by rewrite length_insert.
Qed.

Lemma record_columns_typed def fields cols cols' :
  record_columns def fields cols = Some cols' -> fields_typed def fields -> Forall2 typed cols (map snd (r_fields def)) ->
  Forall2 typed cols' (map snd (r_fields def)).
Proof.
  revert cols. induction fields as [|[x p] fields IH]; cbn; intros cols H HF HT; [by injection H as ->|].
  destruct (record_def_get_field_index def x) as [i|] eqn:E; [|done]. inversion HF as [|? ? Hx HF']; subst. apply (IH _ H HF').
  pose proof (index_of_lookup _ _ _ E) as (ft & Hi & Ha). cbn in Hx. unfold record_def_get_field_type in Hx. rewrite Ha in Hx.
  rewrite <- (list_insert_id (map snd (r_fields def)) i ft); [by apply Forall2_insert|]. by rewrite list_lookup_fmap, Hi.
Qed.

Lemma record_sound q d args def vs :
  stable -> fixed (T_RECORD q d args) -> has_type false (T_RECORD q d args) (mv_record d vs) -> record_def_of tc d = Some def ->
  row_sound (T_RECORD q d args) (mv_record d vs) (record_row tc (T_RECORD q d args) d def) (map snd (r_fields def)) vs.
Proof.
  unfold record_row. intros Hs Hf Hv Hd p ps Hp H.
  assert (HB : Forall2 typed (replicate (List.length (r_fields def)) PAT_NULL) (map snd (r_fields def))).
  { rewrite <- (length_map snd). apply nulls_typed. }
  destruct (use_wildcards tc p (T_RECORD q d args)) eqn:E.
  - injection H as <-. split; [done|]. intros _. by apply wildcard_matches.
  - destruct p as [| | | | | | |fields pt rest|]; try done. destruct (typed_fields _ _ _ _ _ _ _ _ Hp Hf Hd) as (HN & (q' & ps' & HR) & HF).
    rewrite HR, Nat.eqb_refl in H. split; [by eapply record_columns_typed|]. intros HM. eapply matches_record; [exact Hf|exact Hd|].
    pose proof (record_columns_field _ _ _ _ H HN) as HC. rewrite length_replicate in HC. specialize (HC eq_refl).
    eapply Forall_impl; [|exact HC]. intros [x p] (i & ft & Hi & Hx & Hc). cbn in *.
    assert (Hm : map snd (r_fields def) !! i = Some ft) by (by rewrite list_lookup_fmap, Hx).
    destruct (Forall3_lookup_l _ _ _ _ _ _ HM Hc) as (ft' & w & H1 & H2 & H3). exists i, x, ft, w.
    assert (ft' = ft) as -> by congruence. done.
Qed.

(** ** The matrix *)

Notation covers rows types vs := (Exists (fun row => Forall3 matches row types vs) rows).
Notation rows_typed rows types := (Forall (fun row => Forall2 typed row types) rows).

Lemma matches_split ps rest pts ts pvs vs :
  Forall2 typed ps pts -> List.length pvs = List.length pts -> Forall3 matches (ps ++ rest) (pts ++ ts) (pvs ++ vs) ->
  Forall3 matches ps pts pvs /\ Forall3 matches rest ts vs.
Proof.
  intros H. revert pvs. induction H as [|p t ps pts Hp H IH]; intros [|v pvs] HL HM; try done.
  - split; [constructor|done].
  - cbn in HM. inversion HM; subst. destruct (IH pvs) as [H1 H2]; [by injection HL|done|]. split; [by constructor|done].
Qed.

Lemma expand_typed t v row_of pts pvs rows ts :
  row_sound t v row_of pts pvs -> rows_typed rows (t :: ts) -> rows_typed (expand row_of rows) (pts ++ ts).
Proof.
  intros HR. induction 1 as [|row rows Hr _ IH]; cbn; [constructor|]. inversion Hr as [|p ? rest ? Hp Hrest]; subst.
  destruct (row_of p) as [ps|] eqn:E; cbn; [|done]. constructor; [|done]. apply Forall2_app; [|done]. by apply (HR p).
Qed.

Lemma expand_covers t v row_of pts pvs rows ts vs :
  row_sound t v row_of pts pvs -> List.length pvs = List.length pts -> rows_typed rows (t :: ts) ->
  covers (expand row_of rows) (pts ++ ts) (pvs ++ vs) -> covers rows (t :: ts) (v :: vs).
Proof.
  intros HR HL. induction 1 as [|row rows Hr _ IH]; intros HE; cbn in HE; [inversion HE|]. inversion Hr as [|p ? rest ? Hp Hrest]; subst.
  destruct (row_of p) as [ps|] eqn:E; cbn in HE; [|by apply Exists_cons_tl, IH]. destruct (HR p ps Hp E) as [Ht HM].
  inversion HE as [? ? H|? ? H]; subst; [|by apply Exists_cons_tl, IH]. apply Exists_cons_hd.
  destruct (matches_split _ _ _ _ _ _ Ht HL H). constructor; auto.
Qed.

Definition matrix_sound_at (n : nat) : Prop := forall rows types vs,
  match_pattern_matrix_exhaustive tc n rows (Some types) = Some true -> rows_typed rows types -> Forall fixed types ->
  Forall2 (has_type false) types vs -> covers rows types vs.

(** One expansion of the head column. *)
Lemma expansion_sound n t v row_of pts pvs rows ts vs :
  matrix_sound_at n -> row_sound t v row_of pts pvs -> rows_typed rows (t :: ts) -> Forall fixed pts -> Forall fixed ts ->
  Forall2 (has_type false) pts pvs -> Forall2 (has_type false) ts vs ->
  match expand row_of rows with
  | [] => Some false
  | next => match_pattern_matrix_exhaustive tc n next (Some (pts ++ ts))
  end = Some true ->
  covers rows (t :: ts) (v :: vs).
Proof.
  intros IH HR HT Hp Hf Hpv Hv H. apply (expand_covers t v row_of pts pvs); try done; [symmetry; by eapply Forall2_length|].
  apply IH.
  - destruct (expand row_of rows); [done|exact H].
  - by eapply expand_typed.
  - by apply Forall_app.
  - by apply Forall2_app.
Qed.

Lemma all_true_in {A} (f : A -> option bool) l a : all_true f l = Some true -> In a l -> f a = Some true.
Proof.
  induction l as [|b l IH]; cbn; [done|]. destruct (f b) as [[]|] eqn:E; try done. intros H [->|Hin]; [done|]. by apply IH.
Qed.

(** A value of an enumeration is one of its members. *)
Lemma enum_value t enum v : fixed t -> type_enum_name t = Some enum -> has_type false t v ->
  exists m ts vs, v = mv_member m vs /\ In m (enum_members tc enum) /\ match_enum_member_payload_types tc t m = Some ts /\ Forall2 (has_type false) ts vs.
Proof.
  intros Hf He Hv. unfold fixed in Hf. inversion Hv; subst; rewrite Hf in *; try congruence; try (by subst).
  - assert (enum0 = enum) as -> by congruence. exists m, ts, vs. rewrite <- list_elem_of_In. done.
  - unfold opaque in *. destruct t as [[]| | | | | | | | | |]; try done. by rewrite He in *.
Qed.

Lemma covering_row row types vs :
  stable -> all2 (use_wildcards tc) row types = true -> Forall2 typed row types -> Forall fixed types -> Forall2 (has_type false) types vs ->
  Forall3 matches row types vs.
Proof.
  intros Hs Hc Ht. revert vs. induction Ht as [|p t row types Hp _ IH]; intros vs Hf Hv; inversion Hv; subst; [constructor|].
  cbn in Hc. apply andb_true_iff in Hc as [Hc1 Hc2]. inversion Hf; subst. constructor; [|by apply IH]. by apply wildcard_matches.
Qed.

Lemma member_branch n t enum v rows ts vs :
  stable -> matrix_sound_at n -> fixed t -> type_enum_name t = Some enum -> has_type false t v -> rows_typed rows (t :: ts) -> Forall fixed ts ->
  Forall2 (has_type false) ts vs ->
  all_true (fun member =>
    match match_enum_member_payload_types tc t member with
    | None => Some false
    | Some ps =>
        match expand (member_row tc enum member t (List.length ps)) rows with
        | [] => Some false
        | next => match_pattern_matrix_exhaustive tc n next (next_types (ps ++ ts))
        end
    end) (enum_members tc enum) = Some true ->
  covers rows (t :: ts) (v :: vs).
Proof.
  intros Hs IH Hf He Hv HT Hfs Hvs H. destruct (enum_value _ _ _ Hf He Hv) as (m & ps & pvs & -> & Hm & Hps & Hpvs).
  pose proof (all_true_in _ _ _ H Hm) as HA. cbn in HA. rewrite Hps in HA.
  eapply (expansion_sound n _ _ _ ps pvs); try done.
  - by apply member_sound.
  - by apply (proj2 Hs t m).
  - destruct (expand (member_row tc enum m t (List.length ps)) rows); [done|]. destruct (ps ++ ts); [by destruct n|exact HA].
Qed.

Lemma parts_branch n t v rows ts vs :
  stable -> matrix_sound_at n -> fixed t -> type_enum_name t = None -> has_type false t v -> rows_typed rows (t :: ts) -> Forall fixed ts ->
  Forall2 (has_type false) ts vs ->
  (let go row_of types := match expand row_of rows with [] => Some false | next => match_pattern_matrix_exhaustive tc n next types end in
   match t with
   | T_PLAIN P_BOOL _ => all_true (fun branch => go (bool_row tc branch t) (Some ts)) [false; true]
   | T_PLAIN P_NIL _ => go (nil_row tc t) (Some ts)
   | T_TUPLE _ es => go (tuple_row tc t (List.length es)) (Some (es ++ ts))
   | T_RECORD _ d _ =>
       match record_def_of tc d with
       | Some def => go (record_row tc t d def) (Some (map snd (r_fields def) ++ ts))
       | None => go (default_row tc t) (Some ts)
       end
   | _ => go (default_row tc t) (Some ts)
   end) = Some true ->
  covers rows (t :: ts) (v :: vs).
Proof.
  intros Hs IH Hf He Hv HT Hfs Hvs H. cbv zeta in H.
  assert (HD : match expand (default_row tc t) rows with [] => Some false | next => match_pattern_matrix_exhaustive tc n next (Some ts) end
               = Some true -> covers rows (t :: ts) (v :: vs)).
  { intros HA. eapply (expansion_sound n _ _ _ [] []); try done. by apply default_sound. }
  destruct t as [[]| | | | | |q es| | |q d args|]; try (by apply HD); inversion Hv; subst; rewrite Hf in *; try done.
  - assert (HA := all_true_in _ _ b H ltac:(destruct b; cbn; auto)). cbn in HA.
    eapply (expansion_sound n _ _ _ [] []); try done. by apply bool_sound.
  - eapply (expansion_sound n _ _ _ [] []); try done. by apply nil_row_sound.
  - injection H0 as <- <-. eapply (expansion_sound n _ _ _ es vs0); try done; [by apply tuple_sound|by eapply fixed_tuple].
  - injection H0 as <- <- <-. rewrite H1 in H. eapply (expansion_sound n _ _ _ (map snd (r_fields def)) vs0); try done; [by apply record_sound|by apply (proj1 Hs d)].
  - cbn in H0. destruct (record_def_of tc d); [done|]. by apply HD.
Qed.

Lemma matrix_sound n : stable -> matrix_sound_at n.
Proof.
  intros Hs. induction n as [|n IH]; intros rows types vs H HT Hf Hv; [done|]. destruct types as [|t ts].
  - destruct rows as [|row rows]; [done|]. inversion HT as [|? ? Hr]; subst. inversion Hr; subst. inversion Hv; subst. apply Exists_cons_hd. constructor.
  - cbn [match_pattern_matrix_exhaustive] in H. destruct rows as [|row0 rows0] eqn:Er; [done|]. rewrite <- Er in *.
    destruct (existsb (fun row => match_pattern_row_is_covering tc row (t :: ts)) rows) eqn:Ec.
    + apply existsb_exists in Ec as (row & Hin & Hc). apply List.Exists_exists. exists row. split; [done|].
      apply andb_true_iff in Hc as [_ Hc]. apply covering_row; try done. rewrite Forall_forall in HT. by apply HT.
    + inversion Hv as [|? v ? vs' Hv1 Hv2]; subst. inversion Hf as [|? ? Hf1 Hf2]; subst. rewrite Hf1 in H.
      destruct (type_enum_name t) as [enum|] eqn:Et.
      * eapply member_branch; try done. by destruct (enum_members tc enum).
      * by eapply parts_branch.
Qed.

(** ** Depth *)

Lemma all_true_mono {A} (f g : A -> option bool) l b :
  (forall a b, f a = Some b -> g a = Some b) -> all_true f l = Some b -> all_true g l = Some b.
Proof.
  intros H. induction l as [|a l IH]; cbn; [done|]. destruct (f a) as [b'|] eqn:E; [|done]. rewrite (H _ _ E). destruct b'; [exact IH|done].
Qed.

(** A result does not change with more depth. *)
Lemma matrix_depth n rows types b :
  match_pattern_matrix_exhaustive tc n rows types = Some b -> match_pattern_matrix_exhaustive tc (S n) rows types = Some b.
Proof.
  revert rows types b. induction n as [|n IH]; intros rows types b; [done|].
  assert (Hgo : forall row_of ts b,
    match expand row_of rows with [] => Some false | next => match_pattern_matrix_exhaustive tc n next ts end = Some b ->
    match expand row_of rows with [] => Some false | next => match_pattern_matrix_exhaustive tc (S n) next ts end = Some b).
  { intros row_of ts b'. destruct (expand row_of rows); [done|apply IH]. }
  remember (S n) as k eqn:Ek. rewrite Ek at 1. cbn [match_pattern_matrix_exhaustive].
  destruct rows as [|row rows0] eqn:Er; [done|]. rewrite <- Er in *. destruct types as [[|t ts]|]; try done.
  destruct (existsb _ rows); [done|]. destruct (type_enum_name _) as [enum|].
  - destruct (enum_members tc enum) as [|m ms]; [done|]. apply all_true_mono. intros m' b'.
    destruct (match_enum_member_payload_types tc _ m'); [apply Hgo|done].
  - destruct (typechecker_resolve_type tc t) as [[]| | | | | | | | |q d args|]; try apply Hgo.
    + apply all_true_mono. intros a b'. apply Hgo.
    + destruct (record_def_of tc d); apply Hgo.
Qed.

(** ** Whole matches *)

Lemma single_covers patterns t v : covers (map (fun p => [p]) patterns) [t] [v] -> Exists (fun p => matches p t v) patterns.
Proof.
  induction patterns as [|p patterns IH]; cbn; intros H; inversion H as [? ? HM|? ? HM]; subst; [|by apply Exists_cons_tl, IH].
  apply Exists_cons_hd. by inversion HM.
Qed.

Lemma singles_typed patterns t : Forall (fun p => typed p t) patterns -> rows_typed (map (fun p => [p]) patterns) [t].
Proof. induction 1; cbn; constructor; auto. Qed.

Lemma matrix_single n patterns t v :
  stable -> fixed t -> Forall (fun p => typed p t) patterns -> has_type false t v ->
  match_pattern_matrix_exhaustive tc n (map (fun p => [p]) patterns) (Some [t]) = Some true -> Exists (fun p => matches p t v) patterns.
Proof.
  intros Hs Hf Ht Hv H. apply single_covers. apply (matrix_sound n Hs); auto using singles_typed.
Qed.

Lemma member_rows t v row_of pts pvs patterns :
  row_sound t v row_of pts pvs -> Forall (fun p => typed p t) patterns ->
  rows_typed (omap row_of patterns) pts /\ (covers (omap row_of patterns) pts pvs -> Exists (fun p => matches p t v) patterns).
Proof.
  intros HR. induction 1 as [|p patterns Hp _ [IH1 IH2]]; cbn; [split; [constructor|intros H; inversion H]|].
  destruct (row_of p) as [ps|] eqn:E; [|split; [done|]; intros H; by apply Exists_cons_tl, IH2].
  destruct (HR p ps Hp E) as [H1 H2]. split; [by constructor|]. intros H.
  inversion H as [? ? HM|? ? HM]; subst; [by apply Exists_cons_hd, H2|by apply Exists_cons_tl, IH2].
Qed.

Lemma enum_patterns_sound n patterns t v :
  stable -> fixed t -> Forall (fun p => typed p t) patterns -> has_type false t v ->
  match_enum_patterns_exhaustive tc n patterns t = Some true -> Exists (fun p => matches p t v) patterns.
Proof.
  intros Hs Hf Ht Hv. unfold match_enum_patterns_exhaustive. destruct (type_enum_name t) as [enum|] eqn:Et; [|done].
  destruct (existsb (fun p => is_null_pattern p || match_pattern_is_binding_wildcard p) patterns) eqn:Ew.
  - intros _. apply existsb_exists in Ew as (p & Hin & Hp). apply List.Exists_exists. exists p. split; [done|].
    destruct p; try done; [apply matches_null|by apply matches_binding].
  - intros H. destruct (enum_value _ _ _ Hf Et Hv) as (m & ps & pvs & -> & Hm & Hps & Hpvs).
    assert (HA : match_enum_member_patterns_exhaustive tc n patterns t m = Some true).
    { destruct (enum_members tc enum); [done|]. by apply (all_true_in _ _ _ H). }
    unfold match_enum_member_patterns_exhaustive in HA. rewrite Hf, Et, Hps in HA.
    destruct (member_rows _ _ _ _ _ _ (member_sound _ _ _ _ _ Hs Hf Hv Et Hps) Ht) as [HT HC]. apply HC.
    destruct (omap (member_row tc enum m t (List.length ps)) patterns) as [|row rows] eqn:Eo; [done|]. destruct ps as [|p ps].
    + inversion HT as [|? ? Hr]; subst. inversion Hr; subst. inversion Hpvs; subst. apply Exists_cons_hd. constructor.
    + apply (matrix_sound n Hs); try done. by apply (proj2 Hs t m).
Qed.

Lemma literal_pattern patterns t b :
  existsb (fun p => bool_decide (match_expr_is_bool_literal p = Some b)) patterns = true -> Exists (fun p => matches p t (mv_bool b)) patterns.
Proof.
  intros H. apply existsb_exists in H as (p & Hin & Hp). apply bool_decide_eq_true_1 in Hp. apply List.Exists_exists. exists p.
  split; [done|by apply matches_bool].
Qed.


(** ** Tables whose types are resolved *)

Lemma stable_tables :
  Forall (fun def => Forall fixed (map snd (r_fields def))) (record_defs tc) ->
  Forall (fun s => match s_type s with T_FUNCTION _ _ ps xs => xs = [] /\ Forall fixed (map type_clone ps) | _ => True end) (globals tc) -> stable.
Proof.
  intros HR HG. split.
  - intros d def Hd. by apply (Forall_lookup_1 _ _ _ _ HR Hd).
  - intros t m ts. unfold match_enum_member_payload_types. destruct (type_enum_name (resolve_type t)) as [enum|]; [|done].
    destruct (find _ (globals tc)) as [s|] eqn:Ef; [|done]. apply find_some in Ef as [Hin _]. rewrite Forall_forall in HG. specialize (HG s Hin).
    unfold match_resolve_enum_payload_types_from_symbol. destruct (type_enum_name _); [|done].
    destruct (symbol_is_enum_member_for tc s _); [|done]. destruct (s_type s); intros H; try (injection H as <-; constructor).
    destruct HG as [-> HG]. by injection H as <-.
Qed.
End Spec.

(** ** Instances *)

Definition shape : list Z := bytes "Shape".
Definition shape_type : Ty := T_INT false (Some shape).
Definition member_symbol (x : list Z) (ps : list Ty) : Symbol :=
  mkSymbol x (match ps with [] => shape_type | _ => T_FUNCTION false shape_type ps [] end) false true [].

(** [enum Shape { Circle(bool), Point }] and [record Pair { left: Shape, flag: bool }]. *)
Definition shape_checker : TypeChecker :=
  mkChecker [member_symbol (bytes "Shape_Circle") [T_PLAIN P_BOOL false]; member_symbol (bytes "Shape_Point") []] [] 0
    [mkRecordDef (bytes "Pair") [(bytes "left", shape_type); (bytes "flag", T_PLAIN P_BOOL false)]] [] [] [] [].
Definition pair_type : Ty := T_RECORD false 0 [].

Definition p_bool (b : bool) : Pattern := PAT_LITERAL TYPE_BOOL (as_int (if b then 1 else 0)).
Definition p_member (x : string) (args : list Pattern) : Pattern :=
  match args with
  | [] => PAT_FIELD_ACCESS (PAT_IDENTIFIER shape) (bytes x)
  | _ => PAT_CALL (PAT_FIELD_ACCESS (PAT_IDENTIFIER shape) (bytes x)) args
  end.
Definition p_pair (left flag : Pattern) : Pattern := PAT_RECORD [(bytes "left", left); (bytes "flag", flag)] None false.

Definition pair_patterns : list Pattern :=
  [p_pair (p_member "Circle" [p_bool true]) (PAT_IDENTIFIER (bytes "f")); p_pair (p_member "Circle" [PAT_IDENTIFIER (bytes "_")]) (p_bool false);
   p_pair (p_member "Circle" [p_bool false]) (p_bool true); p_pair (p_member "Point" []) (PAT_IDENTIFIER (bytes "f"))].

Lemma shape_stable : stable shape_checker.
Proof. apply stable_tables; repeat constructor. Qed.


(** ** What the checker does not settle *)

Definition p_tuple2 (a b : Pattern) : Pattern := PAT_TUPLE [a; b].
Definition p_any : Pattern := PAT_IDENTIFIER [c_underscore].
Definition flag_shape : Ty := T_TUPLE false [T_PLAIN P_BOOL false; shape_type].
Definition flag_shape_patterns : list Pattern := [p_tuple2 p_any (p_member "Circle" [p_any]); p_tuple2 p_any (p_member "Point" [])].

Lemma shape_members v : has_type shape_checker false shape_type v ->
  (exists b, v = mv_member (bytes "Circle") [b]) \/ v = mv_member (bytes "Point") [].
Proof.
  intros H. destruct (enum_value shape_checker shape_type shape v eq_refl eq_refl H) as (m & ts & vs & -> & Hm & Hp & Hv).
  destruct Hm as [<-|[<-|[]]]; vm_compute in Hp; injection Hp as <-; inversion Hv as [|? ? ? ? ? Hv']; subst.
  - inversion Hv'. subst. left. eauto.
  - by right.
Qed.

Lemma flag_shape_covered v : has_type shape_checker false flag_shape v -> Exists (fun p => matches shape_checker p flag_shape v) flag_shape_patterns.
Proof.
  intros H. inversion H as [| | |? ? ? vs Hr Hvs| | |]; subst; try done. injection Hr as <- <-.
  inversion Hvs as [|? b ? vs' _ Hvs']; subst. inversion Hvs' as [|? e ? vs'' He Hn]; subst. inversion Hn; subst.
  destruct (shape_members _ He) as [[c ->]| ->]; [apply Exists_cons_hd|apply Exists_cons_tl, Exists_cons_hd];
    (eapply matches_tuple; [reflexivity|]; constructor; [by apply matches_binding|]; constructor; [|constructor]).
  - eapply (matches_member _ _ _ _ shape); try reflexivity. repeat constructor.
  - eapply (matches_constant _ _ _ shape); reflexivity.
Qed.

(** [record Node { next: Node? }]. *)
Definition node_checker : TypeChecker := mkChecker [] [] 0 [mkRecordDef (bytes "Node") [(bytes "next", T_RECORD true 0 [])]] [] [] [] [].
Definition node_patterns : list Pattern := [p_tuple2 p_any (p_bool true); p_tuple2 p_any (p_bool false)].

Lemma node_diverges n q p : is_null_pattern p = true \/ p = p_any ->
  match_pattern_matrix_exhaustive node_checker n [[p; p_bool true]; [p; p_bool false]] (Some [T_RECORD q 0 []; T_PLAIN P_BOOL false]) = None.
Proof.
  revert q p. induction n as [|n IH]; intros q p Hp; [done|].
  destruct Hp as [Hp| ->]; [destruct p; try done|]; destruct q; cbn -[match_pattern_matrix_exhaustive];
    (etransitivity; [|apply (IH true PAT_NULL (or_introl eq_refl))]); reflexivity.
Qed.

(** [fn Shape_parse(s: string): Shape] beside the enumeration. *)
Definition helper_checker : TypeChecker :=
  mkChecker (globals shape_checker ++ [member_symbol (bytes "Shape_parse") [T_PLAIN P_STRING false]]) [] 0 (record_defs shape_checker) [] [] [] [].
Definition shape_patterns : list Pattern := [p_member "Circle" [p_any]; p_member "Point" []].

