(* ===== verification/JitSummary.v ===== *)
(** * Summaries of function bodies: [src/src/compiler.c]

    The bytecode compiler recognises small bodies in the syntax tree and stores
    a summary and a plan with the function. This file has the recognition and
    an evaluator of such bodies; the plan of a recognised body computes what evaluating it does, and the
    stored metadata passes the validation of loaded programs. *)

From S2P Require Import Prelude Lexer.
From Stdlib Require Import String.
From stdpp Require Import gmap.
From S2P Require Import Values Bytecode Ast Doubles Operators Machine Jit JitProps JitQueue Artifact ArtifactLoad Validate.

Open Scope Z_scope.
Open Scope list_scope.

(** ** Recognition *)

(** The slot of a parameter: the first with the name. *)
Fixpoint find_from (i : Z) (name : list Z) (params : list (list Z)) : Z :=
  match params with
  | [] => -1
  | p :: params' => if bool_decide (p = name) then i else find_from (i + 1) name params'
  end.
Definition compiler_jit_find_param_slot (name : list Z) (params : list (list Z)) : Z := find_from 0 name params.

Fixpoint compiler_jit_unwrap_single_stmt_block (s : Stmt) : Stmt :=
  match s with
  | STMT_BLOCK [s'] => compiler_jit_unwrap_single_stmt_block s'
  | _ => s
  end.

Definition compiler_jit_expr_is_param_identifier (params : list (list Z)) (e : Expr) : option Z :=
  match e with
  | EXPR_IDENTIFIER _ name =>
      let slot := compiler_jit_find_param_slot name params in
      if (slot <? 0) || (255 <? slot) then None else Some slot
  | _ => None
  end.

Definition compiler_jit_expr_is_int_literal (e : Expr) : option Z :=
  match e with EXPR_LITERAL (Some TYPE_INT) (as_int i) => Some i | _ => None end.
Definition compiler_jit_expr_is_bool_literal (e : Expr) : option bool :=
  match e with EXPR_LITERAL (Some TYPE_BOOL) (as_int i) => Some (negb (i =? 0)) | _ => None end.

(** The value of a return statement, if it is one with a value. *)
Definition return_value_of (s : Stmt) : option Expr :=
  match compiler_jit_unwrap_single_stmt_block s with STMT_RETURN e => e | _ => None end.
Definition compiler_jit_stmt_is_return_param (params : list (list Z)) (s : Stmt) : option Z :=
  let? e := return_value_of s in compiler_jit_expr_is_param_identifier params e.
Definition compiler_jit_stmt_is_return_bool_literal (s : Stmt) : option bool :=
  let? e := return_value_of s in compiler_jit_expr_is_bool_literal e.
Definition compiler_jit_stmt_is_return_int_literal (s : Stmt) : option Z :=
  let? e := return_value_of s in compiler_jit_expr_is_int_literal e.

Definition compiler_jit_summary_op_from_token (op : TokenType) : option Z :=
  match op with
  | TOKEN_PLUS => Some JIT_SUMMARY_OP_ADD
  | TOKEN_MINUS => Some JIT_SUMMARY_OP_SUB
  | TOKEN_STAR => Some JIT_SUMMARY_OP_MUL
  | TOKEN_SLASH => Some JIT_SUMMARY_OP_DIV
  | TOKEN_PERCENT => Some JIT_SUMMARY_OP_MOD
  | TOKEN_BIT_AND => Some JIT_SUMMARY_OP_BIT_AND
  | TOKEN_BIT_OR => Some JIT_SUMMARY_OP_BIT_OR
  | TOKEN_BIT_XOR => Some JIT_SUMMARY_OP_BIT_XOR
  | TOKEN_LT => Some JIT_SUMMARY_OP_LT
  | TOKEN_LT_EQ => Some JIT_SUMMARY_OP_LE
  | TOKEN_EQ_EQ => Some JIT_SUMMARY_OP_EQ
  | TOKEN_BANG_EQ => Some JIT_SUMMARY_OP_NE
  | TOKEN_GT => Some JIT_SUMMARY_OP_GT
  | TOKEN_GT_EQ => Some JIT_SUMMARY_OP_GE
  | _ => None
  end.

(** The kinds of plans; the compiler has its own copies of these tables. *)
Definition compiler_binary_ops : list Z :=
  [JIT_SUMMARY_OP_ADD; JIT_SUMMARY_OP_SUB; JIT_SUMMARY_OP_MUL; JIT_SUMMARY_OP_DIV; JIT_SUMMARY_OP_MOD;
   JIT_SUMMARY_OP_BIT_AND; JIT_SUMMARY_OP_BIT_OR; JIT_SUMMARY_OP_BIT_XOR].
Definition compiler_jit_map_local_const_summary_kind (op : Z) (guarded : bool) : option Z :=
  when kind_in compiler_binary_ops op;
  Some (if guarded then JIT_COMPILED_KIND_INT_BINARY_GUARDED_LOCAL_CONST_GENERIC
        else JIT_COMPILED_KIND_INT_BINARY_LOCAL_CONST_GENERIC).
Definition compiler_twoarg_ops : list Z :=
  [JIT_SUMMARY_OP_ADD; JIT_SUMMARY_OP_SUB; JIT_SUMMARY_OP_MUL; JIT_SUMMARY_OP_BIT_AND; JIT_SUMMARY_OP_BIT_OR;
   JIT_SUMMARY_OP_BIT_XOR].
Definition compiler_jit_map_twoarg_int_summary_kind (op : Z) (guarded : bool) : option Z :=
  when kind_in compiler_twoarg_ops op;
  Some (if guarded then JIT_COMPILED_KIND_INT_BINARY_GUARDED_LOCALS_GENERIC else JIT_COMPILED_KIND_INT_BINARY_LOCALS_GENERIC).
Definition compiler_compare_ops : list Z :=
  [JIT_SUMMARY_OP_LT; JIT_SUMMARY_OP_LE; JIT_SUMMARY_OP_EQ; JIT_SUMMARY_OP_NE; JIT_SUMMARY_OP_GT; JIT_SUMMARY_OP_GE].
Definition compiler_jit_map_twoarg_bool_summary_kind (op : Z) (guarded : bool) : option Z :=
  when kind_in compiler_compare_ops op;
  Some (if guarded then JIT_COMPILED_KIND_BOOL_COMPARE_GUARDED_LOCALS_GENERIC
        else JIT_COMPILED_KIND_BOOL_COMPARE_LOCALS_GENERIC).
Definition compiler_jit_map_local_const_bool_summary_kind (op : Z) : option Z :=
  when kind_in compiler_compare_ops op; Some JIT_COMPILED_KIND_BOOL_COMPARE_LOCAL_CONST_GENERIC.
Definition compiler_order_ops : list Z := [JIT_SUMMARY_OP_LT; JIT_SUMMARY_OP_LE; JIT_SUMMARY_OP_GT; JIT_SUMMARY_OP_GE].
Definition compiler_jit_map_twoarg_selector_summary_kind (op : Z) (guarded : bool) : option Z :=
  when kind_in compiler_order_ops op;
  Some (if guarded then JIT_COMPILED_KIND_INT_SELECTOR_GUARDED_LOCALS_GENERIC
        else JIT_COMPILED_KIND_INT_SELECTOR_LOCALS_GENERIC).
Definition compiler_jit_map_local_const_selector_summary_kind (op : Z) (guarded return_local_when_true : bool) : option Z :=
  when kind_in compiler_order_ops op;
  Some (if guarded then JIT_COMPILED_KIND_INT_SELECTOR_GUARDED_LOCAL_CONST_GENERIC
        else JIT_COMPILED_KIND_INT_SELECTOR_LOCAL_CONST_GENERIC).

Definition compiler_jit_normalize_selector_compare_op (op : TokenType) (left_slot right_slot : Z) : option TokenType :=
  if (left_slot =? 0) && (right_slot =? 1) then Some op
  else
    when negb (negb (left_slot =? 1) || negb (right_slot =? 0));
    match op with
    | TOKEN_LT => Some TOKEN_GT
    | TOKEN_LT_EQ => Some TOKEN_GT_EQ
    | TOKEN_GT => Some TOKEN_LT
    | TOKEN_GT_EQ => Some TOKEN_LT_EQ
    | _ => None
    end.

Section Summaries.
Context (params : list (list Z)).

Notation param := (compiler_jit_expr_is_param_identifier params).
Notation lit := compiler_jit_expr_is_int_literal.

Definition divides_token (op : TokenType) : bool := match op with TOKEN_SLASH | TOKEN_PERCENT => true | _ => false end.

Definition compiler_jit_summarize_local_const_binary_expr (guarded : bool) (expr : Expr) : option JitFunctionSummary :=
  match expr with
  | EXPR_BINARY _ lhs rhs op =>
      let? slot := param lhs in
      let? rhs_const := lit rhs in
      when negb (divides_token op && (rhs_const =? 0));
      let? summary_op := compiler_jit_summary_op_from_token op in
      let? _ := compiler_jit_map_local_const_summary_kind summary_op guarded in
      Some (if guarded then mkSummary JIT_SUMMARY_KIND_INT_GUARDED_LOCAL_CONST_BINARY summary_op slot 0 0 rhs_const
            else mkSummary JIT_SUMMARY_KIND_INT_LOCAL_CONST_BINARY summary_op slot 0 rhs_const 0)
  | _ => None
  end.

Definition compiler_jit_summarize_twoarg_int_binary_expr (guarded : bool) (expr : Expr) : option JitFunctionSummary :=
  match expr with
  | EXPR_BINARY _ lhs rhs op =>
      let? left_slot := param lhs in
      let? right_slot := param rhs in
      when negb (left_slot =? right_slot);
      let? summary_op := compiler_jit_summary_op_from_token op in
      let? _ := compiler_jit_map_twoarg_int_summary_kind summary_op guarded in
      Some (mkSummary (if guarded then JIT_SUMMARY_KIND_INT_GUARDED_TWOARG_BINARY else JIT_SUMMARY_KIND_INT_TWOARG_BINARY)
              summary_op left_slot right_slot 0 0)
  | _ => None
  end.

Definition compiler_jit_summarize_twoarg_selector_stmt (guarded : bool) (stmt fallback_stmt : Stmt) : option JitFunctionSummary :=
  match stmt with
  | STMT_IF (Some (EXPR_BINARY _ lhs rhs op)) then_branch None =>
      let? left_slot := param lhs in
      let? right_slot := param rhs in
      when negb (left_slot =? right_slot);
      let? normalized_op := compiler_jit_normalize_selector_compare_op op left_slot right_slot in
      let? summary_op := compiler_jit_summary_op_from_token normalized_op in
      let? _ := compiler_jit_map_twoarg_selector_summary_kind summary_op guarded in
      let? true_slot := compiler_jit_stmt_is_return_param params (compiler_jit_unwrap_single_stmt_block then_branch) in
      let? false_slot := compiler_jit_stmt_is_return_param params (compiler_jit_unwrap_single_stmt_block fallback_stmt) in
      when negb ((1 <? true_slot) || (1 <? false_slot) || (true_slot =? false_slot));
      Some (mkSummary (if guarded then JIT_SUMMARY_KIND_INT_GUARDED_TWOARG_SELECTOR else JIT_SUMMARY_KIND_INT_TWOARG_SELECTOR)
              summary_op true_slot false_slot 0 0)
  | _ => None
  end.

(** A branch of a selector against a constant: whether it returns the local,
    if it returns the local in [slot] or the constant. *)
Definition selector_branch (slot compare_const : Z) (s : Stmt) : option bool :=
  match compiler_jit_stmt_is_return_param params s with
  | Some s' => when s' =? slot; Some true
  | None => let? c := compiler_jit_stmt_is_return_int_literal s in when c =? compare_const; Some false
  end.

Definition compiler_jit_summarize_local_const_selector_stmt (guarded : bool) (stmt fallback_stmt : Stmt) : option JitFunctionSummary :=
  match stmt with
  | STMT_IF (Some (EXPR_BINARY _ lhs rhs op)) then_branch None =>
      let? slot := param lhs in
      let? compare_const := lit rhs in
      let? normalized_op := compiler_jit_normalize_selector_compare_op op 0 1 in
      let? summary_op := compiler_jit_summary_op_from_token normalized_op in
      let? then_returns_local := selector_branch slot compare_const (compiler_jit_unwrap_single_stmt_block then_branch) in
      let? fallback_returns_local := selector_branch slot compare_const (compiler_jit_unwrap_single_stmt_block fallback_stmt) in
      when negb (eqb then_returns_local fallback_returns_local);
      let? _ := compiler_jit_map_local_const_selector_summary_kind summary_op guarded then_returns_local in
      let on_true := if then_returns_local then 1 else 0 in
      Some (if guarded then mkSummary JIT_SUMMARY_KIND_INT_GUARDED_LOCAL_CONST_SELECTOR summary_op slot on_true 0 compare_const
            else mkSummary JIT_SUMMARY_KIND_INT_LOCAL_CONST_SELECTOR summary_op slot on_true compare_const 0)
  | _ => None
  end.

Definition compiler_jit_summarize_twoarg_bool_compare_expr (guarded : bool) (expr : Expr) : option JitFunctionSummary :=
  match expr with
  | EXPR_BINARY _ lhs rhs op =>
      let? left_slot := param lhs in
      let? right_slot := param rhs in
      when negb (left_slot =? right_slot);
      let? summary_op := compiler_jit_summary_op_from_token op in
      let? _ := compiler_jit_map_twoarg_bool_summary_kind summary_op guarded in
      Some (mkSummary (if guarded then JIT_SUMMARY_KIND_BOOL_GUARDED_TWOARG_COMPARE else JIT_SUMMARY_KIND_BOOL_TWOARG_COMPARE)
              summary_op left_slot right_slot 0 0)
  | _ => None
  end.

Definition compiler_jit_summarize_local_const_bool_compare_expr (expr : Expr) : option JitFunctionSummary :=
  match expr with
  | EXPR_BINARY _ lhs rhs op =>
      let? slot := param lhs in
      let? rhs_const := lit rhs in
      let? summary_op := compiler_jit_summary_op_from_token op in
      let? _ := compiler_jit_map_local_const_bool_summary_kind summary_op in
      Some (mkSummary JIT_SUMMARY_KIND_BOOL_LOCAL_CONST_COMPARE summary_op slot 0 rhs_const 0)
  | _ => None
  end.

(** [if (param < c) return param;], as the slot and the constant. *)
Definition compiler_jit_match_guard_return_local (stmt : Stmt) : option (Z * Z) :=
  match stmt with
  | STMT_IF (Some (EXPR_BINARY _ lhs rhs TOKEN_LT)) then_branch None =>
      let? condition_slot := param lhs in
      let? guard_const := lit rhs in
      let? return_slot := compiler_jit_stmt_is_return_param params (compiler_jit_unwrap_single_stmt_block then_branch) in
      when return_slot =? condition_slot; Some (condition_slot, guard_const)
  | _ => None
  end.

(** [if (param < c) return true;] or [false]. *)
Definition compiler_jit_match_guard_return_bool (stmt : Stmt) : option (Z * Z * bool) :=
  match stmt with
  | STMT_IF (Some (EXPR_BINARY _ lhs rhs TOKEN_LT)) then_branch None =>
      let? condition_slot := param lhs in
      let? guard_const := lit rhs in
      let? guard_result := compiler_jit_stmt_is_return_bool_literal (compiler_jit_unwrap_single_stmt_block then_branch) in
      Some (condition_slot, guard_const, guard_result)
  | _ => None
  end.

(** [out_summary->int_const0 = c], and [int_const1]. *)
Definition set_const0 (c : Z) (s : JitFunctionSummary) : JitFunctionSummary :=
  mkSummary (s_kind s) (s_op s) (slot0 s) (slot1 s) c (s_const1 s).
Definition set_const1 (c : Z) (s : JitFunctionSummary) : JitFunctionSummary :=
  mkSummary (s_kind s) (s_op s) (slot0 s) (slot1 s) (s_const0 s) c.

Definition orelse {A} (a b : option A) : option A := match a with Some x => Some x | None => b end.

Definition is_int (t : TypeKind) : bool := match t with TYPE_INT => true | _ => false end.
Definition is_bool (t : TypeKind) : bool := match t with TYPE_BOOL => true | _ => false end.

(** One statement: a return. *)
Definition summarize_return (return_type : TypeKind) (e : Expr) : option JitFunctionSummary :=
  let n := Z.of_nat (List.length params) in
  orelse (when (n =? 1) && is_int return_type; compiler_jit_summarize_local_const_binary_expr false e)
  (orelse (when (n =? 2) && is_int return_type; compiler_jit_summarize_twoarg_int_binary_expr false e)
  (orelse (when (n =? 2) && is_bool return_type; compiler_jit_summarize_twoarg_bool_compare_expr false e)
          (when (n =? 1) && is_bool return_type; compiler_jit_summarize_local_const_bool_compare_expr e))).

(** Two statements, the second a return of [e1]. *)
Definition summarize_two (return_type : TypeKind) (s0 s1 : Stmt) (e1 : Expr) : option JitFunctionSummary :=
  let n := Z.of_nat (List.length params) in
  orelse (when (n =? 2) && is_int return_type; compiler_jit_summarize_twoarg_selector_stmt false s0 s1)
  (orelse (when (n =? 1) && is_int return_type; compiler_jit_summarize_local_const_selector_stmt false s0 s1)
  (orelse (when (n =? 1) && is_int return_type;
           let? (guard_slot, guard_const) := compiler_jit_match_guard_return_local s0 in
           let? s := compiler_jit_summarize_local_const_binary_expr true e1 in
           when slot0 s =? guard_slot; Some (set_const0 guard_const s))
  (orelse (when (n =? 2) && is_int return_type;
           let? (guard_slot, guard_const) := compiler_jit_match_guard_return_local s0 in
           let? s := compiler_jit_summarize_twoarg_int_binary_expr true e1 in
           when slot0 s =? guard_slot; Some (set_const0 guard_const s))
          (when (n =? 2) && is_bool return_type;
           let? (guard_slot, guard_const, guard_result) := compiler_jit_match_guard_return_bool s0 in
           let? s := compiler_jit_summarize_twoarg_bool_compare_expr true e1 in
           when slot0 s =? guard_slot; Some (set_const1 (if guard_result then 1 else 0) (set_const0 guard_const s)))))).

(** Three statements: a guard and a selector. *)
Definition summarize_three (return_type : TypeKind) (s0 s1 s2 : Stmt) : option JitFunctionSummary :=
  let n := Z.of_nat (List.length params) in
  orelse (when (n =? 2) && is_int return_type;
          let? (guard_slot, guard_const) := compiler_jit_match_guard_return_local s0 in
          when guard_slot =? 0;
          let? s := compiler_jit_summarize_twoarg_selector_stmt true s1 s2 in Some (set_const0 guard_const s))
         (when (n =? 1) && is_int return_type;
          let? (guard_slot, guard_const) := compiler_jit_match_guard_return_local s0 in
          let? s := compiler_jit_summarize_local_const_selector_stmt true s1 s2 in
          when slot0 s =? guard_slot; Some (set_const0 guard_const s)).

Definition compiler_jit_try_summarize_leaf_body (return_type : TypeKind) (body : list Stmt) : option JitFunctionSummary :=
  match params, body with
  | [], _ | _, [] => None
  | _, s0 :: _ =>
      orelse (let? e := return_value_of s0 in summarize_return return_type e)
        match body with
        | [_; s1] => let? e1 := return_value_of s1 in summarize_two return_type s0 s1 e1
        | [_; s1; s2] => let? _ := return_value_of s2 in summarize_three return_type s0 s1 s2
        | _ => None
        end
  end.
End Summaries.

(** ** Storing the metadata *)

Definition compiler_jit_plan_from_summary (s : JitFunctionSummary) : option JitCompiledPlan :=
  let op := s_op s in
  let on_true := negb (slot1 s =? 0) in
  let flags := if on_true then JIT_PLAN_FLAG_RETURN_LOCAL_ON_TRUE else JIT_PLAN_FLAG_NONE in
  let plan fl b c0 c1 (kind : option Z) := let? k := kind in Some (mkPlan k op fl (slot0 s) b c0 c1) in
  if s_kind s =? JIT_SUMMARY_KIND_NONE then None
  else if s_kind s =? JIT_SUMMARY_KIND_INT_LOCAL_CONST_BINARY then
    plan 0 0 (s_const0 s) 0 (compiler_jit_map_local_const_summary_kind op false)
  else if s_kind s =? JIT_SUMMARY_KIND_INT_GUARDED_LOCAL_CONST_BINARY then
    plan 0 0 (s_const0 s) (s_const1 s) (compiler_jit_map_local_const_summary_kind op true)
  else if s_kind s =? JIT_SUMMARY_KIND_INT_TWOARG_BINARY then
    plan 0 (slot1 s) 0 0 (compiler_jit_map_twoarg_int_summary_kind op false)
  else if s_kind s =? JIT_SUMMARY_KIND_INT_GUARDED_TWOARG_BINARY then
    plan 0 (slot1 s) (s_const0 s) 0 (compiler_jit_map_twoarg_int_summary_kind op true)
  else if s_kind s =? JIT_SUMMARY_KIND_BOOL_TWOARG_COMPARE then
    plan 0 (slot1 s) 0 0 (compiler_jit_map_twoarg_bool_summary_kind op false)
  else if s_kind s =? JIT_SUMMARY_KIND_BOOL_LOCAL_CONST_COMPARE then
    plan 0 0 (s_const0 s) 0 (compiler_jit_map_local_const_bool_summary_kind op)
  else if s_kind s =? JIT_SUMMARY_KIND_BOOL_GUARDED_TWOARG_COMPARE then
    plan 0 (slot1 s) (s_const0 s) (s_const1 s) (compiler_jit_map_twoarg_bool_summary_kind op true)
  else if s_kind s =? JIT_SUMMARY_KIND_INT_TWOARG_SELECTOR then
    plan 0 (slot1 s) 0 0 (compiler_jit_map_twoarg_selector_summary_kind op false)
  else if s_kind s =? JIT_SUMMARY_KIND_INT_GUARDED_TWOARG_SELECTOR then
    plan 0 (slot1 s) (s_const0 s) 0 (compiler_jit_map_twoarg_selector_summary_kind op true)
  else if s_kind s =? JIT_SUMMARY_KIND_INT_LOCAL_CONST_SELECTOR then
    plan flags 0 (s_const0 s) 0 (compiler_jit_map_local_const_selector_summary_kind op false on_true)
  else if s_kind s =? JIT_SUMMARY_KIND_INT_GUARDED_LOCAL_CONST_SELECTOR then
    plan flags 0 (s_const0 s) (s_const1 s) (compiler_jit_map_local_const_selector_summary_kind op true on_true)
  else None.

Definition set_jit (p : JitFunctionProfile) (h : JitCompiledPlan) (f : ObjFunction) : ObjFunction :=
  mkFunction (chunk f) (pool f) (param_count f) (local_count f) (debug_local_names f) (capture_count f) (capture_local_slots f)
    (is_async f) (defer_handler_ip f) (defer_return_slot f) (name f) (source_file f) p h.

Definition family_of_summary (kind : Z) : Z :=
  if kind_in [JIT_SUMMARY_KIND_INT_LOCAL_CONST_BINARY; JIT_SUMMARY_KIND_INT_GUARDED_LOCAL_CONST_BINARY;
              JIT_SUMMARY_KIND_INT_TWOARG_BINARY; JIT_SUMMARY_KIND_INT_GUARDED_TWOARG_BINARY] kind
  then JIT_PROFILE_NATIVE_FAMILY_ARITHMETIC
  else if kind_in [JIT_SUMMARY_KIND_BOOL_TWOARG_COMPARE; JIT_SUMMARY_KIND_BOOL_LOCAL_CONST_COMPARE;
                   JIT_SUMMARY_KIND_BOOL_GUARDED_TWOARG_COMPARE] kind
  then JIT_PROFILE_NATIVE_FAMILY_COMPARE
  else if kind_in [JIT_SUMMARY_KIND_INT_TWOARG_SELECTOR; JIT_SUMMARY_KIND_INT_GUARDED_TWOARG_SELECTOR;
                   JIT_SUMMARY_KIND_INT_LOCAL_CONST_SELECTOR; JIT_SUMMARY_KIND_INT_GUARDED_LOCAL_CONST_SELECTOR] kind
  then JIT_PROFILE_NATIVE_FAMILY_SELECTOR
  else JIT_PROFILE_NATIVE_FAMILY_NONE.

Definition compiler_refresh_jit_profile_metadata (f : ObjFunction) : ObjFunction :=
  let s := summary (jit_profile f) in
  let flags := Z.lor (if is_async f then Z.lor JIT_PROFILE_FLAG_NONE JIT_PROFILE_FLAG_ASYNC else JIT_PROFILE_FLAG_NONE)
                 (if negb (capture_count f =? 0) then JIT_PROFILE_FLAG_HAS_CAPTURES else 0) in
  let support :=
    if is_async f then JIT_PROFILE_SUPPORT_NONE
    else Z.lor (Z.lor JIT_PROFILE_SUPPORT_NONE JIT_PROFILE_SUPPORT_STUB)
           (if (capture_count f =? 0) && negb (s_kind s =? JIT_SUMMARY_KIND_NONE) &&
               negb (h_kind (jit_hint_plan f) =? JIT_COMPILED_KIND_NONE)
            then JIT_PROFILE_SUPPORT_NATIVE_SUMMARY else 0) in
  set_jit (mkProfile flags support (family_of_summary (s_kind s)) (param_count f) (local_count f) (capture_count f) s)
    (jit_hint_plan f) f.

Definition set_summary (s : JitFunctionSummary) (f : ObjFunction) : ObjFunction :=
  let p := jit_profile f in
  set_jit (mkProfile (p_flags p) (support_mask p) (native_family_mask p) (p_param_count p) (p_local_count p) (p_capture_count p) s)
    (jit_hint_plan f) f.

Definition compiler_reset_jit_profile (f : ObjFunction) : ObjFunction :=
  compiler_refresh_jit_profile_metadata (set_summary (mkSummary JIT_SUMMARY_KIND_NONE JIT_SUMMARY_OP_NONE 0 0 0 0) f).

(** [body] is the block of the function; [None] where the declaration has
    none, or no return type. *)
Definition compiler_try_assign_jit_hint (f : ObjFunction) (return_type : option TypeKind) (params : list (list Z))
    (param_types : list (option TypeKind)) (body : option Stmt) : ObjFunction :=
  let f := compiler_reset_jit_profile f in
  let f := set_jit (jit_profile f) (mkPlan JIT_COMPILED_KIND_NONE 0 0 0 0 0 0) f in
  if is_async f || negb (capture_count f =? 0) then f
  else
    match return_type, body with
    | Some return_type, Some (STMT_BLOCK statements) =>
        if negb (forallb (fun t => match t with Some TYPE_INT => true | _ => false end) param_types) then f
        else
          match compiler_jit_try_summarize_leaf_body params return_type statements with
          | None => f
          | Some s =>
              match compiler_jit_plan_from_summary s with
              | None => f
              | Some plan => compiler_refresh_jit_profile_metadata (set_summary s (set_jit (jit_profile f) plan f))
              end
          end
    | _, _ => f
    end.

(** ** Evaluating bodies *)

(** What a body of integer expressions, comparisons, conditionals and returns
    means: the result of evaluating it on the arguments. *)
Inductive result :=
  | Returned (v : Value)
  | Overflow
  | ZeroDivisor
  | Stuck.

Definition token_arith (op : TokenType) : option int_op :=
  match op with
  | TOKEN_PLUS => Some IAdd | TOKEN_MINUS => Some ISub | TOKEN_STAR => Some IMul | TOKEN_SLASH => Some IDiv
  | TOKEN_PERCENT => Some IMod | TOKEN_BIT_AND => Some IAnd | TOKEN_BIT_OR => Some IOr | TOKEN_BIT_XOR => Some IXor
  | _ => None
  end.
Definition token_compare (op : TokenType) : option (Z -> Z -> bool) :=
  match op with
  | TOKEN_LT => Some Z.ltb | TOKEN_LT_EQ => Some Z.leb | TOKEN_EQ_EQ => Some Z.eqb
  | TOKEN_BANG_EQ => Some (fun a b => negb (a =? b))
  | TOKEN_GT => Some (fun a b => b <? a) | TOKEN_GT_EQ => Some (fun a b => b <=? a)
  | _ => None
  end.

Definition eval_binary (op : TokenType) (x y : Z) : result :=
  match token_arith op with
  | Some o =>
      match zero_error o y with
      | Some _ => ZeroDivisor
      | None => match int_arith o x y with Some r => Returned (VAL_INT r) | None => Overflow end
      end
  | None => match token_compare op with Some f => Returned (VAL_BOOL (f x y)) | None => Stuck end
  end.

Section Evaluation.
Context (params : list (list Z)) (xs : list Z).

Fixpoint eval (e : Expr) : result :=
  match e with
  | EXPR_LITERAL (Some TYPE_INT) (as_int i) => Returned (VAL_INT i)
  | EXPR_LITERAL (Some TYPE_BOOL) (as_int i) => Returned (VAL_BOOL (negb (i =? 0)))
  | EXPR_IDENTIFIER _ name =>
      let slot := compiler_jit_find_param_slot name params in
      if slot <? 0 then Stuck else match xs !! Z.to_nat slot with Some x => Returned (VAL_INT x) | None => Stuck end
  | EXPR_BINARY _ lhs rhs op =>
      match eval lhs, eval rhs with
      | Returned (VAL_INT x), Returned (VAL_INT y) => eval_binary op x y
      | Returned _, Returned _ => Stuck
      | Returned _, r | r, _ => r
      end
  | _ => Stuck
  end.

(** [None]: the statement does not return. *)
Fixpoint exec_stmt (s : Stmt) : option result :=
  match s with
  | STMT_RETURN (Some e) => Some (eval e)
  | STMT_IF (Some c) t e =>
      match eval c with
      | Returned (VAL_BOOL true) => exec_stmt t
      | Returned (VAL_BOOL false) => match e with Some e => exec_stmt e | None => None end
      | Returned _ => Some Stuck
      | r => Some r
      end
  | STMT_BLOCK l =>
      (fix all (l : list Stmt) : option result :=
         match l with
         | [] => None
         | s :: l' => match exec_stmt s with Some r => Some r | None => all l' end
         end) l
  | _ => Some Stuck
  end.

Definition exec_body (body : list Stmt) : result :=
  match exec_stmt (STMT_BLOCK body) with Some r => r | None => Stuck end.

(** *** Evaluating what is recognised *)

Lemma exec_unwrap s : exec_stmt (compiler_jit_unwrap_single_stmt_block s) = exec_stmt s.
Proof.
  revert s. fix IH 1. intros [e|c t e|[|s [|s' l]]|]; try reflexivity.
  cbn [compiler_jit_unwrap_single_stmt_block]. rewrite (IH s). cbn. by destruct (exec_stmt s).
Qed.

Lemma exec_return s e : return_value_of s = Some e -> exec_stmt s = Some (eval e).
Proof.
  unfold return_value_of. rewrite <- (exec_unwrap s). by destruct (compiler_jit_unwrap_single_stmt_block s) as [[e'|]| | |]; intros [= ->].
Qed.

Lemma return_value_unwrap s : return_value_of (compiler_jit_unwrap_single_stmt_block s) = return_value_of s.
Proof.
  unfold return_value_of. f_equal. revert s. fix IH 1. intros [e|c t e|[|s [|s' l]]|]; try reflexivity.
  cbn [compiler_jit_unwrap_single_stmt_block]. f_equal. apply (IH s).
Qed.

Lemma find_from_bounds i n l : let r := find_from i n l in r = -1 \/ i <= r < i + Z.of_nat (List.length l).
Proof.
  revert i. induction l as [|p l IH]; intros i; cbn; [by left|]. destruct (bool_decide (p = n)); [right; lia|].
  destruct (IH (i + 1)) as [->|H]; [by left|right; lia].
Qed.

Lemma eval_param e slot :
  List.length xs = List.length params -> compiler_jit_expr_is_param_identifier params e = Some slot ->
  0 <= slot < Z.of_nat (List.length params) /\ exists x, xs !! Z.to_nat slot = Some x /\ eval e = Returned (VAL_INT x).
Proof.
  intros Hl. destruct e as [| t n | | | | |]; try done. cbn. set (s := compiler_jit_find_param_slot n params).
  destruct (Z.ltb_spec s 0); [done|]. destruct (255 <? s); [done|]. intros [= <-].
  destruct (find_from_bounds 0 n params) as [E|E]; fold (compiler_jit_find_param_slot n params) in E; fold s in E; [lia|].
  split; [lia|]. destruct (lookup_lt_is_Some_2 xs (Z.to_nat s)) as [x Hx]; [lia|]. exists x. by rewrite Hx.
Qed.

Lemma eval_literal e c : compiler_jit_expr_is_int_literal e = Some c -> eval e = Returned (VAL_INT c).
Proof. by destruct e as [[[]|] []| | | | | |]; intros [= <-]. Qed.

Lemma eval_bool_literal e b : compiler_jit_expr_is_bool_literal e = Some b -> eval e = Returned (VAL_BOOL b).
Proof. by destruct e as [[[]|] []| | | | | |]; intros [= <-]. Qed.

Lemma eval_operands t lhs rhs op x y :
  eval lhs = Returned (VAL_INT x) -> eval rhs = Returned (VAL_INT y) -> eval (EXPR_BINARY t lhs rhs op) = eval_binary op x y.
Proof. intros H1 H2. cbn. by rewrite H1, H2. Qed.
End Evaluation.

(** ** Plans of recognised bodies *)

Lemma compiler_plan_eq s : compiler_jit_plan_from_summary s = jit_plan_from_summary s.
Proof.
  unfold compiler_jit_plan_from_summary, jit_plan_from_summary. destruct (Z.eqb_spec (s_kind s) JIT_SUMMARY_KIND_NONE) as [->|_]; [reflexivity|].
  unfold compiler_jit_map_local_const_summary_kind, compiler_jit_map_twoarg_int_summary_kind, compiler_jit_map_twoarg_bool_summary_kind,
    compiler_jit_map_local_const_bool_summary_kind, compiler_jit_map_twoarg_selector_summary_kind,
    compiler_jit_map_local_const_selector_summary_kind, guarded_by, obind, jit_map_local_const_summary_kind,
    jit_map_twoarg_int_summary_kind, jit_map_twoarg_bool_summary_kind, jit_map_local_const_bool_summary_kind,
    jit_map_twoarg_selector_summary_kind, jit_map_local_const_selector_summary_kind.
  repeat match goal with |- (if ?b then _ else _) = _ => destruct b end; reflexivity.
Qed.

Lemma token_int_op op sop :
  compiler_jit_summary_op_from_token op = Some sop -> kind_in binary_ops sop = true ->
  exists o, token_arith op = Some o /\ op_of_kind summary_int_ops sop = Some o.
Proof. destruct op; intros [= <-] H; try discriminate H; eexists; split; reflexivity. Qed.

Lemma token_twoarg_op op sop :
  compiler_jit_summary_op_from_token op = Some sop -> kind_in twoarg_ops sop = true ->
  exists o, token_arith op = Some o /\ op_of_kind summary_int_ops sop = Some o /\ forall y, zero_error o y = None.
Proof. destruct op; intros [= <-] H; try discriminate H; eexists; repeat split; reflexivity. Qed.

Lemma token_compare_op op sop :
  compiler_jit_summary_op_from_token op = Some sop -> kind_in compare_ops sop = true ->
  token_arith op = None /\ exists f, token_compare op = Some f /\ op_of_kind summary_compare_ops sop = Some f.
Proof. destruct op; intros [= <-] H; try discriminate H; (split; [reflexivity|]); eexists; split; reflexivity. Qed.

Lemma order_is_compare sop : kind_in order_ops sop = true -> kind_in compare_ops sop = true.
Proof.
  unfold kind_in. cbn [existsb order_ops compare_ops]. rewrite !orb_true_iff. tauto.
Qed.

(** The hypothesis [let? ... = Some _] as its steps. *)
Ltac steps H :=
  repeat match type of H with
  | obind ?m _ = Some _ => let E := fresh "E" in destruct m eqn:E; [cbn [obind] in H|discriminate H]
  | guarded_by ?b _ = Some _ => let E := fresh "E" in destruct b eqn:E; [cbn [guarded_by] in H|discriminate H]
  end.

Section Bodies.
Context (params : list (list Z)) (below : list Value) (xs : list Z) (fc ic : Z) (cfg : VmConfig).
Context (Hroom : call_room below xs fc cfg) (Hlen : List.length xs = List.length params).

Notation here := (call_vm below xs fc ic cfg).
Notation native plan := (exec_plan (base below) here plan).

Definition outcome_of (r : result) : outcome :=
  match r with
  | Returned v => Finished (done_vm below fc ic cfg v)
  | Overflow => Undefined
  | ZeroDivisor | Stuck => Unmodelled
  end.

(** The plan of the summary computes the result. *)
Definition computes (s : JitFunctionSummary) (r : result) : Prop :=
  exists plan, jit_plan_from_summary s = Some plan /\ native plan = outcome_of r.

Lemma native_result_int x : vm_finish_native_compiled_call_int (base below) here x = outcome_of (Returned (VAL_INT x)).
Proof. apply (call_finish below xs fc ic cfg Hroom). Qed.
Lemma native_result_bool b : vm_finish_native_compiled_call_bool (base below) here b = outcome_of (Returned (VAL_BOOL b)).
Proof. apply (call_finish below xs fc ic cfg Hroom). Qed.

Lemma native_binary op sop o x y :
  token_arith op = Some o -> op_of_kind summary_int_ops sop = Some o -> zero_error o y = None ->
  vm_finish_native_int_binary_summary_op (base below) here sop x y = outcome_of (eval_binary op x y).
Proof.
  intros H1 H2 Hz. rewrite (native_summary below xs fc ic cfg Hroom sop o) by done. unfold eval_binary, arith_outcome.
  rewrite H1, Hz. by destruct (int_arith o x y).
Qed.

Lemma native_comparison op sop f x y :
  token_arith op = None -> token_compare op = Some f -> op_of_kind summary_compare_ops sop = Some f ->
  vm_finish_native_int_compare_summary_op (base below) here sop x y = outcome_of (eval_binary op x y).
Proof.
  intros H1 H2 H3. rewrite (native_compare below xs fc ic cfg Hroom sop f) by done. unfold eval_binary. by rewrite H1, H2.
Qed.

(** Guarding a result. *)
Definition guarded_result (x g : Z) (v : Value) (r : result) : result := if x <? g then Returned v else r.

Lemma local_const_computes (guarded : bool) e s g :
  compiler_jit_summarize_local_const_binary_expr params guarded e = Some s ->
  exists x, xs !! Z.to_nat (slot0 s) = Some x /\
    computes (if guarded then set_const0 g s else s)
      (if guarded then guarded_result x g (VAL_INT x) (eval params xs e) else eval params xs e).
Proof.
  destruct e as [| |t lhs rhs op| | | |]; try done. cbn [compiler_jit_summarize_local_const_binary_expr]. intros H. steps H.
  destruct (eval_param params xs lhs z Hlen E) as (_ & x & Hx & Hl). pose proof (eval_literal params xs rhs z0 E0) as Hr.
  unfold compiler_jit_map_local_const_summary_kind in E3. steps E3. change (kind_in binary_ops z1 = true) in E4.
  destruct (token_int_op op z1 E2 E4) as (o & Ho1 & Ho2).
  assert (zero_error o z0 = None) as Hz.
  { apply (zero_divides z1 o); [done|]. destruct op; try discriminate Ho1; injection E2 as <-; done. }
  injection H as <-. exists x. rewrite (eval_operands params xs t lhs rhs op x z0 Hl Hr). destruct guarded; (split; [exact Hx|]).
  - eexists. split; [unfold jit_plan_from_summary; cbn; unfold jit_map_local_const_summary_kind; by rewrite E4|].
    change (with_int (base below) here "Operands must be same numeric type" z
      (fun x => vm_finish_native_guarded_int_binary_summary_op (base below) here z1 x z0 g) = outcome_of (guarded_result x g (VAL_INT x) (eval_binary op x z0))).
    rewrite (call_int _ _ _ _ _ _ _ x) by done. unfold vm_finish_native_guarded_int_binary_summary_op, guarded_result.
    destruct (x <? g); [apply native_result_int|]. by eapply native_binary.
  - eexists. split; [unfold jit_plan_from_summary; cbn; unfold jit_map_local_const_summary_kind; by rewrite E4|].
    change (with_int (base below) here "Operands must be integer" z
      (fun x => vm_finish_native_int_binary_summary_op (base below) here z1 x z0) = outcome_of (eval_binary op x z0)).
    rewrite (call_int _ _ _ _ _ _ _ x) by done. by eapply native_binary.
Qed.

Lemma twoarg_computes (guarded : bool) e s g :
  compiler_jit_summarize_twoarg_int_binary_expr params guarded e = Some s ->
  exists x, xs !! Z.to_nat (slot0 s) = Some x /\
    computes (if guarded then set_const0 g s else s)
      (if guarded then guarded_result x g (VAL_INT x) (eval params xs e) else eval params xs e).
Proof.
  destruct e as [| |t lhs rhs op| | | |]; try done. cbn [compiler_jit_summarize_twoarg_int_binary_expr]. intros H. steps H.
  destruct (eval_param params xs lhs z Hlen E) as (_ & x & Hx & Hl).
  destruct (eval_param params xs rhs z0 Hlen E0) as (_ & y & Hy & Hr).
  unfold compiler_jit_map_twoarg_int_summary_kind in E3. steps E3. change (kind_in twoarg_ops z1 = true) in E4.
  destruct (token_twoarg_op op z1 E2 E4) as (o & Ho1 & Ho2 & Hz).
  injection H as <-. exists x. rewrite (eval_operands params xs t lhs rhs op x y Hl Hr). split; [exact Hx|].
  destruct guarded; (eexists; split; [unfold jit_plan_from_summary; cbn; unfold jit_map_twoarg_int_summary_kind; by rewrite E4|]).
  - change (with_ints (base below) here z z0 (fun x y => vm_finish_native_guarded_int_binary_summary_op (base below) here z1 x y g) =
      outcome_of (guarded_result x g (VAL_INT x) (eval_binary op x y))).
    rewrite (call_ints _ _ _ _ _ _ _ x y) by done. unfold vm_finish_native_guarded_int_binary_summary_op, guarded_result.
    destruct (x <? g); [apply native_result_int|]. by eapply native_binary.
  - change (with_ints (base below) here z z0 (vm_finish_native_int_binary_summary_op (base below) here z1) = outcome_of (eval_binary op x y)).
    rewrite (call_ints _ _ _ _ _ _ _ x y) by done. by eapply native_binary.
Qed.

Lemma compare_computes (guarded : bool) e s g (b : bool) :
  compiler_jit_summarize_twoarg_bool_compare_expr params guarded e = Some s ->
  exists x, xs !! Z.to_nat (slot0 s) = Some x /\
    computes (if guarded then set_const1 (if b then 1 else 0) (set_const0 g s) else s)
      (if guarded then guarded_result x g (VAL_BOOL b) (eval params xs e) else eval params xs e).
Proof.
  destruct e as [| |t lhs rhs op| | | |]; try done. cbn [compiler_jit_summarize_twoarg_bool_compare_expr]. intros H. steps H.
  destruct (eval_param params xs lhs z Hlen E) as (_ & x & Hx & Hl).
  destruct (eval_param params xs rhs z0 Hlen E0) as (_ & y & Hy & Hr).
  unfold compiler_jit_map_twoarg_bool_summary_kind in E3. steps E3. change (kind_in compare_ops z1 = true) in E4.
  destruct (token_compare_op op z1 E2 E4) as (Hn & f & Hf1 & Hf2).
  injection H as <-. exists x. rewrite (eval_operands params xs t lhs rhs op x y Hl Hr). split; [exact Hx|].
  destruct guarded; (eexists; split; [unfold jit_plan_from_summary; cbn; unfold jit_map_twoarg_bool_summary_kind; by rewrite E4|]).
  - change (with_ints (base below) here z z0
      (fun x y => vm_finish_native_guarded_int_compare_summary_op (base below) here z1 x y g (negb ((if b then 1 else 0) =? 0))) =
      outcome_of (guarded_result x g (VAL_BOOL b) (eval_binary op x y))).
    rewrite (call_ints _ _ _ _ _ _ _ x y) by done. unfold vm_finish_native_guarded_int_compare_summary_op, guarded_result.
    destruct (x <? g); [rewrite native_result_bool; by destruct b|]. by eapply native_comparison.
  - change (with_ints (base below) here z z0 (vm_finish_native_int_compare_summary_op (base below) here z1) = outcome_of (eval_binary op x y)).
    rewrite (call_ints _ _ _ _ _ _ _ x y) by done. by eapply native_comparison.
Qed.

Lemma compare_const_computes e s :
  compiler_jit_summarize_local_const_bool_compare_expr params e = Some s -> computes s (eval params xs e).
Proof.
  destruct e as [| |t lhs rhs op| | | |]; try done. cbn [compiler_jit_summarize_local_const_bool_compare_expr]. intros H. steps H.
  destruct (eval_param params xs lhs z Hlen E) as (_ & x & Hx & Hl). pose proof (eval_literal params xs rhs z0 E0) as Hr.
  unfold compiler_jit_map_local_const_bool_summary_kind in E2. steps E2. change (kind_in compare_ops z1 = true) in E3.
  destruct (token_compare_op op z1 E1 E3) as (Hn & f & Hf1 & Hf2).
  injection H as <-. rewrite (eval_operands params xs t lhs rhs op x z0 Hl Hr).
  eexists. split; [unfold jit_plan_from_summary; cbn; unfold jit_map_local_const_bool_summary_kind; by rewrite E3|].
  change (with_int (base below) here "Operands must be integer" z
    (fun x => vm_finish_native_int_compare_summary_op (base below) here z1 x z0) = outcome_of (eval_binary op x z0)).
  rewrite (call_int _ _ _ _ _ _ _ x) by done. by eapply native_comparison.
Qed.

(** *** Guards *)

Lemma return_param_exec s slot :
  compiler_jit_stmt_is_return_param params s = Some slot ->
  exists x, xs !! Z.to_nat slot = Some x /\ exec_stmt params xs s = Some (Returned (VAL_INT x)).
Proof.
  unfold compiler_jit_stmt_is_return_param. intros H. steps H. destruct (eval_param params xs e slot Hlen H) as (_ & x & Hx & He).
  exists x. split; [done|]. by rewrite (exec_return params xs s e E), He.
Qed.

Lemma return_int_exec s c :
  compiler_jit_stmt_is_return_int_literal s = Some c -> exec_stmt params xs s = Some (Returned (VAL_INT c)).
Proof.
  unfold compiler_jit_stmt_is_return_int_literal. intros H. steps H.
  by rewrite (exec_return params xs s e E), (eval_literal params xs e c H).
Qed.

Lemma return_bool_exec s b :
  compiler_jit_stmt_is_return_bool_literal s = Some b -> exec_stmt params xs s = Some (Returned (VAL_BOOL b)).
Proof.
  unfold compiler_jit_stmt_is_return_bool_literal. intros H. steps H.
  by rewrite (exec_return params xs s e E), (eval_bool_literal params xs e b H).
Qed.

Lemma exec_if t lhs rhs op then_branch x y f :
  eval params xs lhs = Returned (VAL_INT x) -> eval params xs rhs = Returned (VAL_INT y) ->
  token_arith op = None -> token_compare op = Some f ->
  exec_stmt params xs (STMT_IF (Some (EXPR_BINARY t lhs rhs op)) then_branch None) =
    if f x y then exec_stmt params xs then_branch else None.
Proof.
  intros H1 H2 H3 H4. cbn [exec_stmt]. rewrite (eval_operands params xs t lhs rhs op x y H1 H2). unfold eval_binary.
  rewrite H3, H4. by destruct (f x y).
Qed.

Lemma guard_local_exec s slot c :
  compiler_jit_match_guard_return_local params s = Some (slot, c) ->
  exists x, xs !! Z.to_nat slot = Some x /\
    exec_stmt params xs s = if x <? c then Some (Returned (VAL_INT x)) else None.
Proof.
  destruct s as [|[[| |t lhs rhs op| | | |]|] then_branch [|]| |]; try done; destruct op; try done.
  cbn [compiler_jit_match_guard_return_local]. intros H. steps H. injection H as <- <-.
  destruct (eval_param params xs lhs z Hlen E) as (_ & x & Hx & Hl). pose proof (eval_literal params xs rhs z0 E0) as Hr.
  destruct (return_param_exec _ _ E1) as (x' & Hx' & He). rewrite exec_unwrap in He. apply Z.eqb_eq in E2 as ->.
  exists x. split; [done|]. rewrite (exec_if t lhs rhs TOKEN_LT then_branch x z0 Z.ltb Hl Hr) by done. rewrite He.
  by replace x' with x by congruence.
Qed.

Lemma guard_bool_exec s slot c b :
  compiler_jit_match_guard_return_bool params s = Some (slot, c, b) ->
  exists x, xs !! Z.to_nat slot = Some x /\
    exec_stmt params xs s = if x <? c then Some (Returned (VAL_BOOL b)) else None.
Proof.
  destruct s as [|[[| |t lhs rhs op| | | |]|] then_branch [|]| |]; try done; destruct op; try done.
  cbn [compiler_jit_match_guard_return_bool]. intros H. steps H. injection H as <- <- <-.
  destruct (eval_param params xs lhs z Hlen E) as (_ & x & Hx & Hl). pose proof (eval_literal params xs rhs z0 E0) as Hr.
  pose proof (return_bool_exec _ _ E1) as He. rewrite exec_unwrap in He.
  exists x. split; [done|]. rewrite (exec_if t lhs rhs TOKEN_LT then_branch x z0 Z.ltb Hl Hr) by done. by rewrite He.
Qed.

(** *** Selectors *)

Lemma exec_body_two s0 s1 :
  exec_body params xs [s0; s1] =
    match exec_stmt params xs s0 with
    | Some r => r
    | None => match exec_stmt params xs s1 with Some r => r | None => Stuck end
    end.
Proof. unfold exec_body. cbn. destruct (exec_stmt params xs s0); [done|]. by destruct (exec_stmt params xs s1). Qed.

Lemma exec_body_guard s0 l x c v :
  exec_stmt params xs s0 = (if x <? c then Some (Returned v) else None) ->
  exec_body params xs (s0 :: l) = guarded_result x c v (exec_body params xs l).
Proof. intros H. unfold exec_body, guarded_result. cbn. rewrite H. by destruct (x <? c). Qed.

(** The comparison of a selector, with the arguments in the order of the
    parameters. *)
Lemma normalized_compare op l r op' sop x0 x1 x y :
  compiler_jit_normalize_selector_compare_op op l r = Some op' -> compiler_jit_summary_op_from_token op' = Some sop ->
  kind_in order_ops sop = true -> [x0; x1] !! Z.to_nat l = Some x -> [x0; x1] !! Z.to_nat r = Some y ->
  token_arith op = None /\ exists f f', token_compare op = Some f /\ op_of_kind summary_compare_ops sop = Some f' /\ f x y = f' x0 x1.
Proof.
  unfold compiler_jit_normalize_selector_compare_op. destruct ((l =? 0) && (r =? 1)) eqn:E.
  - apply andb_true_iff in E as [->%Z.eqb_eq ->%Z.eqb_eq]. intros [= <-] Hs Ho Hx Hy. injection Hx as <-. injection Hy as <-.
    destruct (token_compare_op op sop Hs (order_is_compare _ Ho)) as (Hn & f & Hf1 & Hf2). split; [done|]. by exists f, f.
  - destruct (negb (negb (l =? 1) || negb (r =? 0))) eqn:E2; [|discriminate].
    rewrite negb_true_iff, orb_false_iff, !negb_false_iff, !Z.eqb_eq in E2. destruct E2 as [-> ->]. cbn [guarded_by].
    intros Hop Hs Ho Hx Hy. injection Hx as <-. injection Hy as <-.
    destruct op; try discriminate Hop; injection Hop as <-; injection Hs as <-; (split; [reflexivity|]); do 2 eexists; repeat split; reflexivity.
Qed.

Lemma native_selector sop f x0 x1 a b va vb :
  xs = [x0; x1] -> kind_in order_ops sop = true -> op_of_kind summary_compare_ops sop = Some f ->
  xs !! Z.to_nat a = Some va -> xs !! Z.to_nat b = Some vb ->
  vm_finish_native_int_selector_summary_op (base below) here sop x0 x1 a b = outcome_of (Returned (VAL_INT (if f x0 x1 then va else vb))).
Proof.
  intros Hx Ho Hf Ha Hb. unfold vm_finish_native_int_selector_summary_op, vm_eval_native_int_selector_summary_op. rewrite Ho, Hf.
  destruct (f x0 x1).
  - rewrite (call_int below xs fc ic cfg _ a va _ Ha). apply native_result_int.
  - rewrite (call_int below xs fc ic cfg _ b vb _ Hb). apply native_result_int.
Qed.

Lemma twoarg_selector_computes (guarded : bool) s0 s1 s g x0 x1 :
  xs = [x0; x1] -> compiler_jit_summarize_twoarg_selector_stmt params guarded s0 s1 = Some s ->
  computes (if guarded then set_const0 g s else s)
    (if guarded then guarded_result x0 g (VAL_INT x0) (exec_body params xs [s0; s1]) else exec_body params xs [s0; s1]).
Proof.
  intros Hxs. destruct s0 as [|[[| |t lhs rhs op| | | |]|] then_branch [|]| |]; try done.
  cbn [compiler_jit_summarize_twoarg_selector_stmt]. intros H. steps H.
  destruct (eval_param params xs lhs z Hlen E) as (_ & x & Hx & Hl).
  destruct (eval_param params xs rhs z0 Hlen E0) as (_ & y & Hy & Hr).
  unfold compiler_jit_map_twoarg_selector_summary_kind in E4. steps E4. change (kind_in order_ops z1 = true) in E8.
  destruct (return_param_exec _ _ E5) as (vt & Hvt & Het). destruct (return_param_exec _ _ E6) as (vf & Hvf & Hef).
  rewrite exec_unwrap in Het, Hef. pose proof Hx as Hx'. pose proof Hy as Hy'. rewrite Hxs in Hx', Hy'.
  destruct (normalized_compare op z z0 t0 z1 x0 x1 x y E2 E3 E8 Hx' Hy') as (Hn & f & f' & Hf1 & Hf2 & Hff).
  assert (exec_body params xs [STMT_IF (Some (EXPR_BINARY t lhs rhs op)) then_branch None; s1] =
          Returned (VAL_INT (if f' x0 x1 then vt else vf))) as ->.
  { rewrite exec_body_two, (exec_if t lhs rhs op then_branch x y f Hl Hr Hn Hf1), Hff, Het, Hef. by destruct (f' x0 x1). }
  pose proof (native_selector z1 f' x0 x1 z3 z4 vt vf Hxs E8 Hf2 Hvt Hvf) as Hsel. injection H as <-.
  assert (xs !! Z.to_nat 0 = Some x0 /\ xs !! Z.to_nat 1 = Some x1) as [H0 H1] by (by rewrite Hxs).
  destruct guarded; (eexists; split; [unfold jit_plan_from_summary; cbn; unfold jit_map_twoarg_selector_summary_kind; by rewrite E8|]).
  - change (with_ints (base below) here 0 1
      (fun x y => vm_finish_native_guarded_int_selector_summary_op (base below) here z1 x y g z3 z4) =
      outcome_of (guarded_result x0 g (VAL_INT x0) (Returned (VAL_INT (if f' x0 x1 then vt else vf))))).
    rewrite (call_ints _ _ _ _ _ _ _ x0 x1) by done. unfold vm_finish_native_guarded_int_selector_summary_op, guarded_result.
    destruct (x0 <? g); [apply native_result_int|exact Hsel].
  - change (with_ints (base below) here 0 1
      (fun x y => vm_finish_native_int_selector_summary_op (base below) here z1 x y z3 z4) =
      outcome_of (Returned (VAL_INT (if f' x0 x1 then vt else vf)))).
    by rewrite (call_ints _ _ _ _ _ _ _ x0 x1).
Qed.

Lemma selector_branch_exec slot c s x r :
  xs !! Z.to_nat slot = Some x -> selector_branch params slot c s = Some r ->
  exec_stmt params xs s = Some (Returned (VAL_INT (if r then x else c))).
Proof.
  intros Hx. unfold selector_branch. destruct (compiler_jit_stmt_is_return_param params s) as [slot'|] eqn:Es; intros H; steps H.
  - injection H as <-. apply Z.eqb_eq in E as ->. destruct (return_param_exec _ _ Es) as (x' & Hx' & He). rewrite He. congruence.
  - injection H as <-. apply Z.eqb_eq in E0 as ->. by rewrite (return_int_exec _ _ E).
Qed.

Lemma local_const_selector_computes (guarded : bool) s0 s1 s g :
  compiler_jit_summarize_local_const_selector_stmt params guarded s0 s1 = Some s ->
  exists x, xs !! Z.to_nat (slot0 s) = Some x /\
    computes (if guarded then set_const0 g s else s)
      (if guarded then guarded_result x g (VAL_INT x) (exec_body params xs [s0; s1]) else exec_body params xs [s0; s1]).
Proof.
  destruct s0 as [|[[| |t lhs rhs op| | | |]|] then_branch [|]| |]; try done.
  cbn [compiler_jit_summarize_local_const_selector_stmt]. intros H. steps H.
  destruct (eval_param params xs lhs z Hlen E) as (_ & x & Hx & Hl). pose proof (eval_literal params xs rhs z0 E0) as Hr.
  cbn in E1. injection E1 as <-. unfold compiler_jit_map_local_const_selector_summary_kind in E6. steps E6.
  change (kind_in order_ops z1 = true) in E1. destruct (token_compare_op op z1 E2 (order_is_compare _ E1)) as (Hn & f & Hf1 & Hf2).
  pose proof (selector_branch_exec _ _ _ x _ Hx E3) as Ht. pose proof (selector_branch_exec _ _ _ x _ Hx E4) as Hf. rewrite exec_unwrap in Ht, Hf.
  assert (exec_body params xs [STMT_IF (Some (EXPR_BINARY t lhs rhs op)) then_branch None; s1] =
          Returned (VAL_INT (if eqb (f x z0) b then x else z0))) as ->.
  { rewrite exec_body_two, (exec_if t lhs rhs op then_branch x z0 f Hl Hr Hn Hf1), Ht, Hf. by destruct (f x z0), b, b0. }
  injection H as <-. exists x. split; [by destruct guarded|].
  assert (forall fl, (negb (Z.land fl JIT_PLAN_FLAG_RETURN_LOCAL_ON_TRUE =? 0)) = b ->
    vm_finish_native_int_selector_const_summary_op (base below) here z1 x z0 (negb (Z.land fl JIT_PLAN_FLAG_RETURN_LOCAL_ON_TRUE =? 0)) =
    outcome_of (Returned (VAL_INT (if eqb (f x z0) b then x else z0)))) as Hsel.
  { intros fl ->. unfold vm_finish_native_int_selector_const_summary_op, vm_eval_native_int_selector_summary_op. rewrite E1, Hf2.
    apply native_result_int. }
  set (fl := if negb ((if b then 1 else 0) =? 0) then JIT_PLAN_FLAG_RETURN_LOCAL_ON_TRUE else JIT_PLAN_FLAG_NONE).
  assert (negb (Z.land fl JIT_PLAN_FLAG_RETURN_LOCAL_ON_TRUE =? 0) = b) as Hfl by (by destruct b).
  destruct guarded; (eexists; split; [unfold jit_plan_from_summary; cbn; unfold jit_map_local_const_selector_summary_kind; by rewrite E1|]).
  - change (with_int (base below) here "Operands must be integer" z
      (fun x => vm_finish_native_guarded_int_selector_const_summary_op (base below) here z1 x g z0
                  (negb (Z.land fl JIT_PLAN_FLAG_RETURN_LOCAL_ON_TRUE =? 0))) =
      outcome_of (guarded_result x g (VAL_INT x) (Returned (VAL_INT (if eqb (f x z0) b then x else z0))))).
    rewrite (call_int _ _ _ _ _ _ _ x) by done. unfold vm_finish_native_guarded_int_selector_const_summary_op, guarded_result.
    destruct (x <? g); [apply native_result_int|by apply Hsel].
  - change (with_int (base below) here "Operands must be integer" z
      (fun x => vm_finish_native_int_selector_const_summary_op (base below) here z1 x z0
                  (negb (Z.land fl JIT_PLAN_FLAG_RETURN_LOCAL_ON_TRUE =? 0))) =
      outcome_of (Returned (VAL_INT (if eqb (f x z0) b then x else z0)))).
    rewrite (call_int _ _ _ _ _ _ _ x) by done. by apply Hsel.
Qed.

(** *** Bodies *)

Lemma orelse_some {A} (a b : option A) r : orelse a b = Some r -> a = Some r \/ a = None /\ b = Some r.
Proof. destruct a; cbn; [by left|by right]. Qed.

Lemma exec_body_return s0 l e : return_value_of s0 = Some e -> exec_body params xs (s0 :: l) = eval params xs e.
Proof. intros H. unfold exec_body. cbn. by rewrite (exec_return params xs s0 e H). Qed.

Lemma exec_body_last s1 e : return_value_of s1 = Some e -> exec_body params xs [s1] = eval params xs e.
Proof. apply exec_body_return. Qed.

Lemma two_args x : Z.of_nat (List.length params) = 2 -> xs !! Z.to_nat 0 = Some x -> exists y, xs = [x; y].
Proof.
  intros Hn H. destruct xs as [|a [|b [|c l]]]; cbn in *; try lia. injection H as ->. by exists b.
Qed.

Lemma return_computes ty e s : summarize_return params ty e = Some s -> computes s (eval params xs e).
Proof.
  unfold summarize_return. intros H.
  apply orelse_some in H as [H|[_ H]]; [steps H; by destruct (local_const_computes false e s 0 H) as (x & _ & Hc)|].
  apply orelse_some in H as [H|[_ H]]; [steps H; by destruct (twoarg_computes false e s 0 H) as (x & _ & Hc)|].
  apply orelse_some in H as [H|[_ H]]; [steps H; by destruct (compare_computes false e s 0 true H) as (x & _ & Hc)|].
  steps H. by apply compare_const_computes.
Qed.

Lemma two_computes ty s0 s1 e1 s :
  return_value_of s1 = Some e1 -> summarize_two params ty s0 s1 e1 = Some s -> computes s (exec_body params xs [s0; s1]).
Proof.
  intros He. unfold summarize_two. intros H.
  apply orelse_some in H as [H|[_ H]].
  { steps H. apply andb_true_iff in E as [En%Z.eqb_eq _].
    destruct (lookup_lt_is_Some_2 xs (Z.to_nat 0)) as [x Hx]; [lia|]. destruct (two_args x En Hx) as [y Hxs].
    by apply (twoarg_selector_computes false s0 s1 s 0 x y). }
  apply orelse_some in H as [H|[_ H]].
  { steps H. by destruct (local_const_selector_computes false s0 s1 s 0 H) as (x & _ & Hc). }
  apply orelse_some in H as [H|[_ H]].
  { steps H. destruct p as [gs gc]. steps H. injection H as <-.
    destruct (guard_local_exec s0 gs gc E0) as (x & Hx & Hg). apply Z.eqb_eq in E2.
    destruct (local_const_computes true e1 j gc E1) as (x' & Hx' & Hc). replace x' with x in Hc by congruence.
    by rewrite (exec_body_guard s0 [s1] x gc _ Hg), (exec_body_last s1 e1 He). }
  apply orelse_some in H as [H|[_ H]].
  { steps H. destruct p as [gs gc]. steps H. injection H as <-.
    destruct (guard_local_exec s0 gs gc E0) as (x & Hx & Hg). apply Z.eqb_eq in E2.
    destruct (twoarg_computes true e1 j gc E1) as (x' & Hx' & Hc). replace x' with x in Hc by congruence.
    by rewrite (exec_body_guard s0 [s1] x gc _ Hg), (exec_body_last s1 e1 He). }
  steps H. destruct p as [[gs gc] gb]. steps H. injection H as <-.
  destruct (guard_bool_exec s0 gs gc gb E0) as (x & Hx & Hg). apply Z.eqb_eq in E2.
  destruct (compare_computes true e1 j gc gb E1) as (x' & Hx' & Hc). replace x' with x in Hc by congruence.
  by rewrite (exec_body_guard s0 [s1] x gc _ Hg), (exec_body_last s1 e1 He).
Qed.

Lemma three_computes ty s0 s1 s2 s :
  summarize_three params ty s0 s1 s2 = Some s -> computes s (exec_body params xs [s0; s1; s2]).
Proof.
  unfold summarize_three. intros H. apply orelse_some in H as [H|[_ H]].
  - steps H. destruct p as [gs gc]. steps H. injection H as <-.
    destruct (guard_local_exec s0 gs gc E0) as (x & Hx & Hg). apply Z.eqb_eq in E1 as ->.
    apply andb_true_iff in E as [En%Z.eqb_eq _]. destruct (two_args x En Hx) as [y Hxs].
    rewrite (exec_body_guard s0 [s1; s2] x gc _ Hg). by apply (twoarg_selector_computes true s1 s2 j gc x y).
  - steps H. destruct p as [gs gc]. steps H. injection H as <-.
    destruct (guard_local_exec s0 gs gc E0) as (x & Hx & Hg). apply Z.eqb_eq in E2.
    destruct (local_const_selector_computes true s1 s2 j gc E1) as (x' & Hx' & Hc). replace x' with x in Hc by congruence.
    by rewrite (exec_body_guard s0 [s1; s2] x gc _ Hg).
Qed.

Lemma body_computes ty body s : compiler_jit_try_summarize_leaf_body params ty body = Some s -> computes s (exec_body params xs body).
Proof.
  unfold compiler_jit_try_summarize_leaf_body. destruct body as [|s0 l]; [by destruct params|].
  intros H0. match type of H0 with match params with [] => _ | _ :: _ => ?k end = _ => assert (k = Some s) as H by (by destruct params) end.
  apply orelse_some in H as [H|[_ H]].
  - steps H. rewrite (exec_body_return s0 l e E). by eapply return_computes.
  - destruct l as [|s1 [|s2 [|s3 l']]]; try done; steps H.
    + by eapply two_computes.
    + by eapply three_computes.
Qed.
End Bodies.

(** ** The metadata is accepted *)

Lemma accept_plan f plan label subject :
  outside (h_kind plan) JIT_COMPILED_KIND_NONE JIT_COMPILED_KIND_INT_BINARY_GUARDED_LOCALS_GENERIC = false ->
  0 <= local_slot plan < param_count f ->
  (runtime_jit_plan_uses_second_local_slot (h_kind plan) = true ->
     0 <= local_slot_b plan < param_count f /\ local_slot_b plan <> local_slot plan) ->
  check_plan_op plan label subject = None -> check_plan_flags plan label subject = None ->
  check_plan_constants plan label subject = None -> runtime_validate_jit_hint_plan f plan label subject = None.
Proof.
  intros Hk Ha Hb H1 H2 H3. unfold runtime_validate_jit_hint_plan. destruct (h_kind plan =? JIT_COMPILED_KIND_NONE); [done|].
  rewrite !and_then_none, !checks_cons. split_and!; try done.
  - rewrite orb_false_iff, !Z.leb_gt. lia.
  - destruct (runtime_jit_plan_uses_second_local_slot (h_kind plan)); [|done]. destruct Hb as [Hb Hne]; [done|].
    cbn [andb]. rewrite !orb_false_iff, !Z.leb_gt, Z.eqb_neq. lia.
Qed.

(** A summary whose plan and fields pass every check. *)
Definition summary_accepted (f : ObjFunction) (s : JitFunctionSummary) : Prop :=
  s_kind s <> JIT_SUMMARY_KIND_NONE /\
  outside (s_kind s) JIT_SUMMARY_KIND_NONE JIT_SUMMARY_KIND_INT_GUARDED_LOCAL_CONST_SELECTOR = false /\
  outside (s_op s) JIT_SUMMARY_OP_NONE JIT_SUMMARY_OP_GE = false /\
  (((s_kind s =? JIT_SUMMARY_KIND_INT_LOCAL_CONST_SELECTOR) || (s_kind s =? JIT_SUMMARY_KIND_INT_GUARDED_LOCAL_CONST_SELECTOR)) &&
     (1 <? slot1 s)) = false /\
  exists plan, jit_plan_from_summary s = Some plan /\
    forall label subject, runtime_validate_jit_hint_plan f plan label subject = None.

Section Accepting.
Context (f : ObjFunction) (params : list (list Z)) (Hparams : param_count f = Z.of_nat (List.length params)).

Lemma param_slot e slot : compiler_jit_expr_is_param_identifier params e = Some slot -> 0 <= slot < param_count f.
Proof. rewrite Hparams. intros H. by destruct (eval_param params (repeat 0 (List.length params)) e slot (repeat_length _ _) H). Qed.

Lemma return_slot s slot : compiler_jit_stmt_is_return_param params s = Some slot -> 0 <= slot < param_count f.
Proof. unfold compiler_jit_stmt_is_return_param. intros H. steps H. by eapply param_slot. Qed.

(** The checks of a plan with a known kind and operation. *)
Ltac accepted :=
  unfold summary_accepted; cbn; (split; [discriminate|]); (split; [reflexivity|]); (split; [reflexivity|]); (split; [reflexivity|]);
  (eexists; split; [reflexivity|]); intros ? ?; apply accept_plan; cbn;
  [reflexivity|lia|first [discriminate|intros _; lia]|reflexivity|try reflexivity|try reflexivity].

Lemma local_const_accepted guarded e s g :
  compiler_jit_summarize_local_const_binary_expr params guarded e = Some s ->
  summary_accepted f (if guarded then set_const0 g s else s).
Proof.
  destruct e as [| |t lhs rhs op| | | |]; try done. cbn [compiler_jit_summarize_local_const_binary_expr]. intros H. steps H.
  pose proof (param_slot _ _ E). unfold compiler_jit_map_local_const_summary_kind in E3. steps E3. injection H as <-.
  destruct op; try discriminate E2; injection E2 as <-; try discriminate E4; destruct guarded; accepted;
    unfold check_plan_constants; cbn; apply negb_true_iff in E1; cbn in E1; by rewrite E1.
Qed.

Lemma twoarg_accepted guarded e s g :
  compiler_jit_summarize_twoarg_int_binary_expr params guarded e = Some s ->
  summary_accepted f (if guarded then set_const0 g s else s).
Proof.
  destruct e as [| |t lhs rhs op| | | |]; try done. cbn [compiler_jit_summarize_twoarg_int_binary_expr]. intros H. steps H.
  pose proof (param_slot _ _ E). pose proof (param_slot _ _ E0). apply negb_true_iff, Z.eqb_neq in E1.
  unfold compiler_jit_map_twoarg_int_summary_kind in E3. steps E3. injection H as <-.
  destruct op; try discriminate E2; injection E2 as <-; try discriminate E4; destruct guarded; accepted.
Qed.

Lemma compare_accepted guarded e s g c :
  compiler_jit_summarize_twoarg_bool_compare_expr params guarded e = Some s ->
  summary_accepted f (if guarded then set_const1 c (set_const0 g s) else s).
Proof.
  destruct e as [| |t lhs rhs op| | | |]; try done. cbn [compiler_jit_summarize_twoarg_bool_compare_expr]. intros H. steps H.
  pose proof (param_slot _ _ E). pose proof (param_slot _ _ E0). apply negb_true_iff, Z.eqb_neq in E1.
  unfold compiler_jit_map_twoarg_bool_summary_kind in E3. steps E3. injection H as <-.
  destruct op; try discriminate E2; injection E2 as <-; try discriminate E4; destruct guarded; accepted.
Qed.

Lemma compare_const_accepted e s :
  compiler_jit_summarize_local_const_bool_compare_expr params e = Some s -> summary_accepted f s.
Proof.
  destruct e as [| |t lhs rhs op| | | |]; try done. cbn [compiler_jit_summarize_local_const_bool_compare_expr]. intros H. steps H.
  pose proof (param_slot _ _ E). unfold compiler_jit_map_local_const_bool_summary_kind in E2. steps E2. injection H as <-.
  destruct op; try discriminate E1; injection E1 as <-; try discriminate E3; accepted.
Qed.

Lemma twoarg_selector_accepted guarded s0 s1 s g :
  compiler_jit_summarize_twoarg_selector_stmt params guarded s0 s1 = Some s ->
  summary_accepted f (if guarded then set_const0 g s else s).
Proof.
  destruct s0 as [|[[| |t lhs rhs op| | | |]|] then_branch [|]| |]; try done.
  cbn [compiler_jit_summarize_twoarg_selector_stmt]. intros H. steps H.
  pose proof (return_slot _ _ E5). pose proof (return_slot _ _ E6).
  rewrite negb_true_iff, !orb_false_iff, !Z.ltb_ge, Z.eqb_neq in E7.
  unfold compiler_jit_map_twoarg_selector_summary_kind in E4. steps E4. injection H as <-.
  destruct t0; try discriminate E3; injection E3 as <-; try discriminate E8; destruct guarded; accepted.
Qed.

Lemma local_const_selector_accepted guarded s0 s1 s g :
  compiler_jit_summarize_local_const_selector_stmt params guarded s0 s1 = Some s ->
  summary_accepted f (if guarded then set_const0 g s else s).
Proof.
  destruct s0 as [|[[| |t lhs rhs op| | | |]|] then_branch [|]| |]; try done.
  cbn [compiler_jit_summarize_local_const_selector_stmt]. intros H. steps H.
  pose proof (param_slot _ _ E). unfold compiler_jit_map_local_const_selector_summary_kind in E6. steps E6. injection H as <-.
  destruct t0; try discriminate E2; injection E2 as <-; try discriminate E7; destruct guarded, b; accepted.
Qed.

Lemma body_accepted ty body s : compiler_jit_try_summarize_leaf_body params ty body = Some s -> summary_accepted f s.
Proof.
  unfold compiler_jit_try_summarize_leaf_body. destruct body as [|s0 l]; [by destruct params|].
  intros H0. match type of H0 with match params with [] => _ | _ :: _ => ?k end = _ => assert (k = Some s) as H by (by destruct params) end.
  apply orelse_some in H as [H|[_ H]].
  { steps H. unfold summarize_return in H.
    apply orelse_some in H as [H|[_ H]]; [steps H; by apply (local_const_accepted false e s 0)|].
    apply orelse_some in H as [H|[_ H]]; [steps H; by apply (twoarg_accepted false e s 0)|].
    apply orelse_some in H as [H|[_ H]]; [steps H; by apply (compare_accepted false e s 0 0)|].
    steps H. by apply (compare_const_accepted e). }
  destruct l as [|s1 [|s2 [|s3 l']]]; try done; steps H.
  - unfold summarize_two in H.
    apply orelse_some in H as [H|[_ H]]; [steps H; by apply (twoarg_selector_accepted false s0 s1 s 0)|].
    apply orelse_some in H as [H|[_ H]]; [steps H; by apply (local_const_selector_accepted false s0 s1 s 0)|].
    apply orelse_some in H as [H|[_ H]];
      [steps H; destruct p as [gs gc]; steps H; injection H as <-; by apply (local_const_accepted true e)|].
    apply orelse_some in H as [H|[_ H]];
      [steps H; destruct p as [gs gc]; steps H; injection H as <-; by apply (twoarg_accepted true e)|].
    steps H. destruct p as [[gs gc] gb]. steps H. injection H as <-. by apply (compare_accepted true e).
  - unfold summarize_three in H.
    apply orelse_some in H as [H|[_ H]];
      [steps H; destruct p as [gs gc]; steps H; injection H as <-; by apply (twoarg_selector_accepted true s1 s2)|].
    steps H. destruct p as [gs gc]. steps H. injection H as <-. by apply (local_const_selector_accepted true s1 s2).
Qed.
End Accepting.

(** What is stored: no hint and no summary, or the summary of the body with
    its plan. *)
Lemma assigned_cases f ty params types body :
  compiler_try_assign_jit_hint f ty params types body =
    set_jit (jit_profile (compiler_reset_jit_profile f)) (mkPlan JIT_COMPILED_KIND_NONE 0 0 0 0 0 0) f \/
  exists t statements s plan,
    ty = Some t /\ body = Some (STMT_BLOCK statements) /\ is_async f = false /\ capture_count f = 0 /\
    compiler_jit_try_summarize_leaf_body params t statements = Some s /\ jit_plan_from_summary s = Some plan /\
    compiler_try_assign_jit_hint f ty params types body =
      compiler_refresh_jit_profile_metadata (set_summary s (set_jit (jit_profile f) plan f)).
Proof.
  unfold compiler_try_assign_jit_hint.
  destruct (is_async f || negb (capture_count f =? 0)) eqn:Eac; cbn; rewrite Eac; [by left|].
  destruct ty as [t|]; [|by left]. destruct body as [[| |statements|]|]; try (by left).
  destruct (negb (forallb _ types)); [by left|].
  destruct (compiler_jit_try_summarize_leaf_body params t statements) as [s|] eqn:Es; [|by left].
  rewrite compiler_plan_eq. destruct (jit_plan_from_summary s) as [plan|] eqn:Ep; [|by left].
  right. exists t, statements, s, plan. apply orb_false_iff in Eac as [Ha Hc%negb_false_iff%Z.eqb_eq]. by split_and!.
Qed.

Lemma flags_expected f s plan :
  p_flags (jit_profile (compiler_refresh_jit_profile_metadata (set_summary s (set_jit (jit_profile f) plan f)))) = expected_flags f.
Proof. cbn. unfold expected_flags. by destruct (is_async f). Qed.

(** C36: What the compiler stores, the runtime accepts: for every function the
    hint and the profile pass the validation of loaded programs. *)
Theorem compiler_metadata_accepted f ty params types body label :
  param_count f = Z.of_nat (List.length params) ->
  let f' := compiler_try_assign_jit_hint f ty params types body in
  runtime_validate_jit_hint_semantics f' label = None /\ runtime_validate_jit_profile_semantics f' label = None.
Proof.
  intros Hp. cbv zeta. destruct (assigned_cases f ty params types body) as [->|(t & st & s & plan & -> & -> & Ha & Hc & Hs & Hplan & ->)].
  - split; [done|]. unfold runtime_validate_jit_profile_semantics. cbn. rewrite !Z.eqb_refl. cbn.
    unfold expected_flags, expected_support. cbn. by destruct (is_async f), (capture_count f =? 0).
  - destruct (body_accepted f params Hp t st s Hs) as (Hk & Hko & Hop & Hsel & plan' & Hplan' & Hval).
    replace plan' with plan in Hval by congruence. apply Z.eqb_neq in Hk.
    assert (forall label subject, runtime_validate_jit_hint_plan
      (compiler_refresh_jit_profile_metadata (set_summary s (set_jit (jit_profile f) plan f))) plan label subject = None) as Hval' by exact Hval.
    split; [apply Hval'|]. unfold runtime_validate_jit_profile_semantics. rewrite flags_expected.
    rewrite !and_then_none, !checks_cons. cbn [jit_profile compiler_refresh_jit_profile_metadata set_jit set_summary summary
      p_param_count p_local_count p_capture_count param_count local_count capture_count support_mask native_family_mask].
    rewrite Hk, !Z.eqb_refl. split; [split_and!; try done|].
    + unfold expected_support. cbn. rewrite Ha, Hc, Hk. by destruct (h_kind plan =? JIT_COMPILED_KIND_NONE).
    + unfold check_summary. cbn [jit_profile compiler_refresh_jit_profile_metadata set_jit set_summary summary jit_hint_plan].
      rewrite !and_then_none, !checks_cons. rewrite runtime_plan_eq, Hplan. split; [done|].
      rewrite !and_then_none, !checks_cons. split; [apply Hval'|]. split; [|done].
      unfold jit_compiled_plan_equals. rewrite !Z.eqb_refl. apply andb_false_r.
Qed.

Lemma compile_summary jf plan :
  supports JIT_PROFILE_SUPPORT_NATIVE_SUMMARY jf = true -> s_kind (summary (jit_profile (func jf))) <> JIT_SUMMARY_KIND_NONE ->
  jit_plan_from_summary (summary (jit_profile (func jf))) = Some plan ->
  exists jf', jit_try_compile_native_function jf = (true, jf') /\ jit_compiled_plan jf' = plan /\ func jf' = func jf.
Proof.
  intros Hs Hk Hp. unfold jit_try_compile_native_function. set (p0 := mkPlan _ _ _ _ _ _ _). set (j0 := set_plan NoEntry p0 jf).
  assert (supports JIT_PROFILE_SUPPORT_NATIVE_SUMMARY j0 = true) as Hs0 by exact Hs. rewrite Hs0. cbn [negb].
  unfold jit_try_apply_compiler_summary, apply_summary. rewrite Hs0. apply Z.eqb_neq in Hk.
  change (summary (jit_profile (func j0))) with (summary (jit_profile (func jf))). rewrite Hk, Hp, (jit_plan_supported _ _ Hp). cbn [negb].
  by eexists.
Qed.

(** C6: A hint never changes what a function returns: when the compiler
    stores one, the function is compiled to it, and for any integer arguments
    the native call gives what evaluating the body does, a value, or an
    [int64_t] overflow that has no defined result either way. *)
Theorem compiler_hint_correct f ty params types body jf below xs fc ic cfg :
  param_count f = Z.of_nat (List.length params) ->
  func jf = compiler_try_assign_jit_hint f ty params types body -> h_kind (jit_hint_plan (func jf)) <> JIT_COMPILED_KIND_NONE ->
  call_room below xs fc cfg -> List.length xs = List.length params ->
  exists statements jf',
    body = Some (STMT_BLOCK statements) /\ jit_try_compile_native_function jf = (true, jf') /\
    vm_jit_native_compiled_entry (base below) (call_vm below xs fc ic cfg) (func jf) (jit_compiled_plan jf') (Z.of_nat (List.length xs)) =
      outcome_of below fc ic cfg (exec_body params xs statements) /\
    match exec_body params xs statements with Returned _ | Overflow => True | ZeroDivisor | Stuck => False end.
Proof.
  intros Hp Hf Hk Hroom Hl.
  destruct (assigned_cases f ty params types body) as [E|(t & st & s & plan & -> & -> & Ha & Hc & Hs & Hplan & E)]; rewrite E in Hf.
  { by rewrite Hf in Hk. }
  destruct (body_accepted f params Hp t st s Hs) as (Hks & _ & _ & _ & plan' & Hplan' & Hval). replace plan' with plan in Hval by congruence.
  destruct (compile_summary jf plan) as (jf' & Hcomp & Hplanj & _); [|by rewrite Hf|by rewrite Hf|].
  { unfold supports. rewrite Hf in Hk |- *. cbn in Hk |- *. apply Z.eqb_neq in Hk. rewrite Ha, Hc. apply Z.eqb_neq in Hks. by rewrite Hks, Hk. }
  exists st, jf'. split; [done|]. split; [done|]. rewrite Hplanj.
  destruct (body_computes params below xs fc ic cfg Hroom Hl t st s Hs) as (plan'' & Hplan'' & Hrun). replace plan'' with plan in Hrun by congruence.
  assert (0 < List.length params)%nat as Hpos by (destruct params; [done|cbn; lia]).
  assert (vm_jit_native_compiled_entry (base below) (call_vm below xs fc ic cfg) (func jf) plan (Z.of_nat (List.length xs)) =
          outcome_of below fc ic cfg (exec_body params xs st)) as Hentry.
  { rewrite <- Hrun. unfold vm_jit_native_compiled_entry. rewrite Hf. cbn [param_count compiler_refresh_jit_profile_metadata set_jit set_summary].
    rewrite Hl, Hp, Z.eqb_refl. cbn [negb]. unfold count. cbn [stack call_vm]. rewrite length_app, length_args. unfold base.
    by destruct (Z.leb_spec (Z.of_nat (List.length below + List.length xs)) (Z.of_nat (List.length below))); [lia|]. }
  split; [done|].
  pose proof (accepted_plan_allowed f "" "" below (args xs) fc ic cfg) as Hallow.
  destruct Hroom as (_ & _ & _ & Hst). specialize (Hallow ltac:(lia) ltac:(rewrite length_args; lia) s plan Hplan (Hval _ _)).
  change (entry_vm below (args xs) fc ic cfg) with (call_vm below xs fc ic cfg) in Hallow.
  change (exec_plan (List.length below)) with (exec_plan (base below)) in Hallow. rewrite Hrun in Hallow.
  by destruct (exec_body params xs st).
Qed.

(** *** Instances *)

(** [func f(a: int, b: int): int { if (a < 10) { return a; } return a - b; }] *)
Definition name_a : list Z := [97].
Definition name_b : list Z := [98].
Definition var (n : list Z) : Expr := EXPR_IDENTIFIER (Some TYPE_INT) n.
Definition guarded_body : list Stmt :=
  [STMT_IF (Some (EXPR_BINARY (Some TYPE_BOOL) (var name_a) (EXPR_LITERAL (Some TYPE_INT) (as_int 10)) TOKEN_LT))
     (STMT_BLOCK [STMT_RETURN (Some (var name_a))]) None;
   STMT_RETURN (Some (EXPR_BINARY (Some TYPE_INT) (var name_a) (var name_b) TOKEN_MINUS))].

Definition two_params : ObjFunction :=
  mkFunction chunk_init constant_pool_init 2 2 None 0 None false (-1) (-1) None None
    (jit_profile (obj_function_create (0, 0))) (jit_hint_plan (obj_function_create (0, 0))).
Definition guarded_hinted : ObjFunction :=
  compiler_try_assign_jit_hint two_params (Some TYPE_INT) [name_a; name_b] [Some TYPE_INT; Some TYPE_INT] (Some (STMT_BLOCK guarded_body)).
Definition guarded_jit : JitFunction :=
  mkJit guarded_hinted 0 false JIT_FUNC_STATE_COLD JIT_REASON_NONE 0 NoEntry (mkPlan 0 0 0 0 0 0 0).

Lemma compiler_metadata_accepted_witness :
  h_kind (jit_hint_plan guarded_hinted) = JIT_COMPILED_KIND_INT_BINARY_GUARDED_LOCALS_GENERIC /\
  runtime_validate_jit_hint_semantics guarded_hinted "f" = None /\ runtime_validate_jit_profile_semantics guarded_hinted "f" = None.
Proof.
  split; [vm_compute; reflexivity|].
  apply (compiler_metadata_accepted two_params (Some TYPE_INT) [name_a; name_b] [Some TYPE_INT; Some TYPE_INT]
           (Some (STMT_BLOCK guarded_body)) "f"). reflexivity.
Defined.

Lemma compiler_hint_correct_witness :
  exec_body [name_a; name_b] [12; 5] guarded_body = Returned (VAL_INT 7) /\
  exists statements jf',
    Some (STMT_BLOCK guarded_body) = Some (STMT_BLOCK statements) /\ jit_try_compile_native_function guarded_jit = (true, jf') /\
    vm_jit_native_compiled_entry (base []) (call_vm [] [12; 5] 1 0 small_config) guarded_hinted (jit_compiled_plan jf') 2 =
      outcome_of [] 1 0 small_config (exec_body [name_a; name_b] [12; 5] statements) /\
    match exec_body [name_a; name_b] [12; 5] statements with Returned _ | Overflow => True | ZeroDivisor | Stuck => False end.
Proof.
  split; [vm_compute; reflexivity|].
  apply (compiler_hint_correct two_params (Some TYPE_INT) [name_a; name_b] [Some TYPE_INT; Some TYPE_INT]
           (Some (STMT_BLOCK guarded_body)) guarded_jit [] [12; 5] 1 0 small_config).
  - reflexivity.
  - reflexivity.
  - vm_compute. discriminate.
  - unfold call_room. simpl. lia.
  - reflexivity.
Defined.
