(* ===== verification/Superinstr.v ===== *)
(** * Peephole passes: [src/src/compiler.c]

    After code generation the compiler rewrites the bytecode in place.
    [peephole_optimize] deletes instructions; [superinstruction_optimize]
    replaces a sequence of instructions by one of the same length, padded with
    zeros. Both scan the bytes of a chunk from its start. The scan at an index
    looks only at the bytes from there on, so the passes are functions on the
    rest of the code; [debug_info] is not part of the model.

    The fused code computes what the original does ([superinstruction_correct])
    as long as no jump leads into the middle of a fused sequence. Nothing in
    the compiler ensures that. *)

From S2P Require Import Prelude.
From Stdlib Require Import String SpecFloat.
From S2P Require Import Values Bytecode Doubles Operators Machine.

Open Scope Z_scope.
Open Scope list_scope.

(** ** Lengths of instructions *)

Definition op_len (op : OpCode) : nat :=
  match op with
  | OP_JUMP_IF_LOCAL_LT | OP_JUMP_IF_LOCAL_LE | OP_JUMP_IF_LOCAL_GT | OP_JUMP_IF_LOCAL_GE | OP_JUMP_IF_LOCAL_EQ
  | OP_JUMP_IF_LOCAL_NE | OP_JUMP_IF_LOCAL_EQ_GLOBAL | OP_JUMP_IF_LOCAL_NE_GLOBAL | OP_JUMP_IF_LOCAL_EQ_GLOBAL_SLOT
  | OP_JUMP_IF_LOCAL_NE_GLOBAL_SLOT | OP_JUMP_IF_LOCAL_LT_CONST | OP_JUMP_IF_LOCAL_LE_CONST
  | OP_JUMP_IF_LOCAL_GT_CONST | OP_JUMP_IF_LOCAL_GE_CONST | OP_JUMP_IF_LOCAL_EQ_CONST | OP_JUMP_IF_LOCAL_NE_CONST
  | OP_JUMP_IF_ARRAY_FALSE_LOCAL_CONST | OP_JUMP_IF_ARRAY_FALSE_LOCAL_LOCAL | OP_ADD_LOCALS_INT | OP_SUB_LOCALS_INT
  | OP_MUL_LOCALS_INT | OP_DIV_LOCALS_INT | OP_MOD_LOCALS_INT | OP_BIT_AND_LOCALS_INT | OP_BIT_OR_LOCALS_INT
  | OP_BIT_XOR_LOCALS_INT | OP_ADD_LOCALS_DOUBLE | OP_SUB_LOCALS_DOUBLE | OP_MUL_LOCALS_DOUBLE
  | OP_DIV_LOCALS_DOUBLE | OP_ADD_LOCAL_CONST_INT | OP_SUB_LOCAL_CONST_INT | OP_MUL_LOCAL_CONST_INT
  | OP_DIV_LOCAL_CONST_INT | OP_MOD_LOCAL_CONST_INT | OP_BIT_AND_LOCAL_CONST_INT | OP_BIT_OR_LOCAL_CONST_INT
  | OP_BIT_XOR_LOCAL_CONST_INT | OP_ADD_LOCAL_CONST_DOUBLE | OP_SUB_LOCAL_CONST_DOUBLE | OP_MUL_LOCAL_CONST_DOUBLE
  | OP_DIV_LOCAL_CONST_DOUBLE | OP_ARRAY_GET_LOCAL_CONST_INT_TO_LOCAL | OP_ARRAY_GET_LOCAL_LOCAL_INT_TO_LOCAL
  | OP_ARRAY_GET_LOCAL_CONST_DOUBLE_TO_LOCAL | OP_ARRAY_GET_LOCAL_LOCAL_DOUBLE_TO_LOCAL => 5
  | OP_ARRAY_GET_FIELD_LOCAL_CONST | OP_ARRAY_GET_FIELD_LOCAL_LOCAL | OP_ARRAY_SET_FIELD_LOCAL_CONST
  | OP_ARRAY_SET_FIELD_LOCAL_LOCAL | OP_ADD_LOCAL_DIV_LOCALS | OP_MADD_LOCAL_ARRAY_LOCAL_INT
  | OP_MADD_LOCAL_ARRAY_LOCAL_DOUBLE | OP_RECORD_NEW_NAMED | OP_JUMP_IF_STACK_LT_LOCAL | OP_JUMP_IF_STACK_LE_LOCAL
  | OP_JUMP_IF_STACK_GT_LOCAL | OP_JUMP_IF_STACK_GE_LOCAL | OP_JUMP_IF_STACK_LT_CONST | OP_JUMP_IF_STACK_LE_CONST
  | OP_JUMP_IF_STACK_GT_CONST | OP_JUMP_IF_STACK_GE_CONST => 4
  | OP_JUMP_IF_FALSE_POP => 4
  | OP_EVALA_MADD_LOCAL_ARRAY_LOCAL_DOUBLE | OP_MUL_LOCALS_INT_TO_LOCAL | OP_MUL_LOCALS_DOUBLE_TO_LOCAL
  | OP_ADD_GLOBAL_GLOBAL_TO_GLOBAL | OP_SUB_GLOBAL_GLOBAL_TO_GLOBAL | OP_MUL_GLOBAL_GLOBAL_TO_GLOBAL
  | OP_DIV_GLOBAL_GLOBAL_TO_GLOBAL | OP_ADD_GLOBAL_SLOT_SLOT_TO_GLOBAL_SLOT
  | OP_SUB_GLOBAL_SLOT_SLOT_TO_GLOBAL_SLOT | OP_MUL_GLOBAL_SLOT_SLOT_TO_GLOBAL_SLOT
  | OP_DIV_GLOBAL_SLOT_SLOT_TO_GLOBAL_SLOT => 7
  | OP_ADD2_LOCAL_CONST | OP_CALL_INTERFACE => 6
  | OP_TYPE_TEST_INTERFACE_METHOD => 5
  | OP_CALL_GLOBAL16 => 4
  | OP_JUMP | OP_JUMP_IF_FALSE | OP_ADD_LOCAL_CONST | OP_SUB_LOCAL_CONST | OP_CALL_GLOBAL
  | OP_ARRAY_GET_LOCAL_CONST | OP_ARRAY_GET_LOCAL_LOCAL | OP_ARRAY_SET_LOCAL_CONST | OP_ARRAY_SET_LOCAL_LOCAL
  | OP_ARRAY_GET_LOCAL_CONST_INT | OP_ARRAY_GET_LOCAL_LOCAL_INT | OP_ARRAY_SET_LOCAL_CONST_INT
  | OP_ARRAY_SET_LOCAL_LOCAL_INT | OP_ARRAY_GET_LOCAL_CONST_DOUBLE | OP_ARRAY_GET_LOCAL_LOCAL_DOUBLE
  | OP_ARRAY_SET_LOCAL_CONST_DOUBLE | OP_ARRAY_SET_LOCAL_LOCAL_DOUBLE | OP_ARRAY_BOUNDS_CHECK_LOCAL_CONST
  | OP_ARRAY_BOUNDS_CHECK_LOCAL_LOCAL | OP_SQRT_LOCAL_DOUBLE | OP_ARRAY_LEN_LOCAL | OP_ADD_STACK_LOCAL_INT
  | OP_SUB_STACK_LOCAL_INT | OP_MUL_STACK_LOCAL_INT | OP_DIV_STACK_LOCAL_INT | OP_MOD_STACK_LOCAL_INT
  | OP_BIT_AND_STACK_LOCAL_INT | OP_BIT_OR_STACK_LOCAL_INT | OP_BIT_XOR_STACK_LOCAL_INT | OP_ADD_STACK_CONST_INT
  | OP_SUB_STACK_CONST_INT | OP_MUL_STACK_CONST_INT | OP_DIV_STACK_CONST_INT | OP_MOD_STACK_CONST_INT
  | OP_BIT_AND_STACK_CONST_INT | OP_BIT_OR_STACK_CONST_INT | OP_BIT_XOR_STACK_CONST_INT | OP_ADD_STACK_CONST_DOUBLE
  | OP_SUB_STACK_CONST_DOUBLE | OP_MUL_STACK_CONST_DOUBLE | OP_DIV_STACK_CONST_DOUBLE | OP_ADD_STACK_LOCAL_DOUBLE
  | OP_SUB_STACK_LOCAL_DOUBLE | OP_MUL_STACK_LOCAL_DOUBLE | OP_DIV_STACK_LOCAL_DOUBLE | OP_ARRAY_COPY_LOCAL_LOCAL
  | OP_ARRAY_REVERSE_PREFIX_LOCAL_LOCAL | OP_ARRAY_ROTATE_PREFIX_LEFT_LOCAL_LOCAL
  | OP_ARRAY_ROTATE_PREFIX_RIGHT_LOCAL_LOCAL | OP_CONST16 | OP_LOAD_GLOBAL16 | OP_STORE_GLOBAL16
  | OP_EVALA_RECIP_LOCALS_DOUBLE => 3
  | OP_CONST | OP_LOAD_LOCAL | OP_STORE_LOCAL | OP_NEGATE_LOCAL | OP_LOAD_GLOBAL | OP_STORE_GLOBAL | OP_CALL
  | OP_MAKE_CLOSURE | OP_ARRAY_NEW | OP_ARRAY_GET_LOCAL | OP_ARRAY_SET_LOCAL | OP_RECORD_NEW | OP_RECORD_SET_FIELD
  | OP_RECORD_GET_FIELD | OP_TUPLE_NEW | OP_TUPLE_GET | OP_TUPLE_SET | OP_DEFER | OP_ADD_LOCAL_STACK_INT
  | OP_SUB_LOCAL_STACK_INT | OP_ADD_LOCAL_STACK_DOUBLE | OP_SUB_LOCAL_STACK_DOUBLE => 2
  | _ => 1
  end.
Definition peephole_instruction_len (b : Z) : nat := match decode b with Some op => op_len op | None => 1 end.

(** ** Deleting instructions *)

Definition peephole_remove_bytes (start count : nat) (c : list Z) : list Z :=
  if (count =? 0)%nat then c
  else if (length c <? start + count)%nat then c
  else take start c ++ drop (start + count) c.

Definition is_byte (op : OpCode) (b : Z) : bool := b =? op_byte op.

(** The scan of one round from [pc], with whether it has changed the code. It
    deletes bytes or moves on: the number of bytes left is enough fuel. *)
Fixpoint peephole_scan (fuel : nat) (c : list Z) (pc : nat) (changed : bool) : list Z * bool :=
  match fuel with
  | O => (c, changed)
  | S f =>
      match drop pc c with
      | [] => (c, changed)
      | op :: rest =>
          let len := peephole_instruction_len op in
          if (length c <? pc + len)%nat then (c, changed)
          else if is_byte OP_NOP op then peephole_scan f (peephole_remove_bytes pc 1 c) pc true
          else
            match rest with
            | slot1 :: st :: slot2 :: _ =>
                if is_byte OP_LOAD_LOCAL op && is_byte OP_STORE_LOCAL st && (slot1 =? slot2)
                then peephole_scan f (peephole_remove_bytes pc 4 c) pc true
                else peephole_scan f c (pc + len) changed
            | _ => peephole_scan f c (pc + len) changed
            end
      end
  end.

Fixpoint peephole_rounds (iterations : nat) (c : list Z) : list Z :=
  match iterations with
  | O => c
  | S n => let '(c, changed) := peephole_scan (length c) c 0 false in if changed then peephole_rounds n c else c
  end.

Definition peephole_optimize (c : list Z) : list Z := if (length c <? 2)%nat then c else peephole_rounds 10 c.

(** ** Fusing instructions *)

(** A pattern at the start of the code: the bytes it is replaced by, and the
    code behind it. *)
Definition pattern := list Z -> option (list Z * list Z).

(** The replacement by an opcode that a table gives, if it has one. *)
Definition replace (op : option OpCode) (operands : list Z) (rest : list Z) : option (list Z * list Z) :=
  match op with Some op => Some (op_byte op :: operands, rest) | None => None end.

Definition pattern_J : pattern := fun c =>
  match c with
  | op :: hi :: lo :: p :: rest =>
      if is_byte OP_JUMP_IF_FALSE op && is_byte OP_POP p then replace (Some OP_JUMP_IF_FALSE_POP) [hi; lo; 0] rest else None
  | _ => None
  end.

Definition global_op (b : Z) : option OpCode :=
  match decode b with
  | Some OP_ADD => Some OP_ADD_GLOBAL_GLOBAL_TO_GLOBAL
  | Some OP_SUB => Some OP_SUB_GLOBAL_GLOBAL_TO_GLOBAL
  | Some OP_MUL => Some OP_MUL_GLOBAL_GLOBAL_TO_GLOBAL
  | Some OP_DIV => Some OP_DIV_GLOBAL_GLOBAL_TO_GLOBAL
  | _ => None
  end.
Definition pattern_global : pattern := fun c =>
  match c with
  | op :: a :: op2 :: b :: op3 :: op4 :: dst :: rest =>
      if is_byte OP_LOAD_GLOBAL op && is_byte OP_LOAD_GLOBAL op2 && is_byte OP_STORE_GLOBAL op4
      then replace (global_op op3) [dst; a; b; 0; 0; 0] rest else None
  | _ => None
  end.

Definition array_get_op (b : Z) : option OpCode :=
  match decode b with
  | Some OP_ARRAY_GET_LOCAL_LOCAL_INT => Some OP_ARRAY_GET_LOCAL_LOCAL_INT_TO_LOCAL
  | Some OP_ARRAY_GET_LOCAL_CONST_INT => Some OP_ARRAY_GET_LOCAL_CONST_INT_TO_LOCAL
  | Some OP_ARRAY_GET_LOCAL_LOCAL_DOUBLE => Some OP_ARRAY_GET_LOCAL_LOCAL_DOUBLE_TO_LOCAL
  | Some OP_ARRAY_GET_LOCAL_CONST_DOUBLE => Some OP_ARRAY_GET_LOCAL_CONST_DOUBLE_TO_LOCAL
  | _ => None
  end.
Definition pattern_K : pattern := fun c =>
  match c with
  | op :: array :: idx :: st :: dst :: rest =>
      if is_byte OP_STORE_LOCAL st then replace (array_get_op op) [array; idx; dst; 0] rest else None
  | _ => None
  end.

Definition mul_to_local_op (b : Z) : option OpCode :=
  match decode b with
  | Some OP_MUL_LOCALS_INT => Some OP_MUL_LOCALS_INT_TO_LOCAL
  | Some OP_MUL_LOCALS_DOUBLE => Some OP_MUL_LOCALS_DOUBLE_TO_LOCAL
  | _ => None
  end.
Definition pattern_M : pattern := fun c =>
  match c with
  | op :: a :: b :: _ :: _ :: st :: dst :: rest =>
      if is_byte OP_STORE_LOCAL st then replace (mul_to_local_op op) [dst; a; b; 0; 0; 0] rest else None
  | _ => None
  end.

Definition pattern_evalA : pattern := fun c =>
  match c with
  | op :: a :: b :: op2 :: acc :: arr :: idx :: rest =>
      if is_byte OP_EVALA_RECIP_LOCALS_DOUBLE op && is_byte OP_MADD_LOCAL_ARRAY_LOCAL_DOUBLE op2
      then replace (Some OP_EVALA_MADD_LOCAL_ARRAY_LOCAL_DOUBLE) [acc; arr; idx; a; b; 0] rest else None
  | _ => None
  end.

Definition pattern_L : pattern := fun c =>
  match c with
  | op :: a :: c1 :: op2 :: b :: c2 :: rest =>
      if is_byte OP_ADD_LOCAL_CONST op && is_byte OP_ADD_LOCAL_CONST op2
      then replace (Some OP_ADD2_LOCAL_CONST) [a; c1; b; c2; 0] rest else None
  | _ => None
  end.

(** The typed operations and their forms with other operands. *)
Definition locals_op (b : Z) : option OpCode :=
  match decode b with
  | Some OP_ADD_INT => Some OP_ADD_LOCALS_INT
  | Some OP_SUB_INT => Some OP_SUB_LOCALS_INT
  | Some OP_MUL_INT => Some OP_MUL_LOCALS_INT
  | Some OP_DIV_INT => Some OP_DIV_LOCALS_INT
  | Some OP_MOD_INT => Some OP_MOD_LOCALS_INT
  | Some OP_BIT_AND_INT => Some OP_BIT_AND_LOCALS_INT
  | Some OP_BIT_OR_INT => Some OP_BIT_OR_LOCALS_INT
  | Some OP_BIT_XOR_INT => Some OP_BIT_XOR_LOCALS_INT
  | Some OP_ADD_DOUBLE => Some OP_ADD_LOCALS_DOUBLE
  | Some OP_SUB_DOUBLE => Some OP_SUB_LOCALS_DOUBLE
  | Some OP_MUL_DOUBLE => Some OP_MUL_LOCALS_DOUBLE
  | Some OP_DIV_DOUBLE => Some OP_DIV_LOCALS_DOUBLE
  | _ => None
  end.
Definition local_const_op (b : Z) : option OpCode :=
  match decode b with
  | Some OP_ADD_INT => Some OP_ADD_LOCAL_CONST_INT
  | Some OP_SUB_INT => Some OP_SUB_LOCAL_CONST_INT
  | Some OP_MUL_INT => Some OP_MUL_LOCAL_CONST_INT
  | Some OP_DIV_INT => Some OP_DIV_LOCAL_CONST_INT
  | Some OP_MOD_INT => Some OP_MOD_LOCAL_CONST_INT
  | Some OP_BIT_AND_INT => Some OP_BIT_AND_LOCAL_CONST_INT
  | Some OP_BIT_OR_INT => Some OP_BIT_OR_LOCAL_CONST_INT
  | Some OP_BIT_XOR_INT => Some OP_BIT_XOR_LOCAL_CONST_INT
  | Some OP_ADD_DOUBLE => Some OP_ADD_LOCAL_CONST_DOUBLE
  | Some OP_SUB_DOUBLE => Some OP_SUB_LOCAL_CONST_DOUBLE
  | Some OP_MUL_DOUBLE => Some OP_MUL_LOCAL_CONST_DOUBLE
  | Some OP_DIV_DOUBLE => Some OP_DIV_LOCAL_CONST_DOUBLE
  | _ => None
  end.
Definition stack_local_op (b : Z) : option OpCode :=
  match decode b with
  | Some OP_ADD_INT => Some OP_ADD_STACK_LOCAL_INT
  | Some OP_SUB_INT => Some OP_SUB_STACK_LOCAL_INT
  | Some OP_MUL_INT => Some OP_MUL_STACK_LOCAL_INT
  | Some OP_DIV_INT => Some OP_DIV_STACK_LOCAL_INT
  | Some OP_MOD_INT => Some OP_MOD_STACK_LOCAL_INT
  | Some OP_BIT_AND_INT => Some OP_BIT_AND_STACK_LOCAL_INT
  | Some OP_BIT_OR_INT => Some OP_BIT_OR_STACK_LOCAL_INT
  | Some OP_BIT_XOR_INT => Some OP_BIT_XOR_STACK_LOCAL_INT
  | Some OP_ADD_DOUBLE => Some OP_ADD_STACK_LOCAL_DOUBLE
  | Some OP_SUB_DOUBLE => Some OP_SUB_STACK_LOCAL_DOUBLE
  | Some OP_MUL_DOUBLE => Some OP_MUL_STACK_LOCAL_DOUBLE
  | Some OP_DIV_DOUBLE => Some OP_DIV_STACK_LOCAL_DOUBLE
  | _ => None
  end.
Definition stack_const_op (b : Z) : option OpCode :=
  match decode b with
  | Some OP_ADD_INT => Some OP_ADD_STACK_CONST_INT
  | Some OP_SUB_INT => Some OP_SUB_STACK_CONST_INT
  | Some OP_MUL_INT => Some OP_MUL_STACK_CONST_INT
  | Some OP_DIV_INT => Some OP_DIV_STACK_CONST_INT
  | Some OP_MOD_INT => Some OP_MOD_STACK_CONST_INT
  | Some OP_BIT_AND_INT => Some OP_BIT_AND_STACK_CONST_INT
  | Some OP_BIT_OR_INT => Some OP_BIT_OR_STACK_CONST_INT
  | Some OP_BIT_XOR_INT => Some OP_BIT_XOR_STACK_CONST_INT
  | Some OP_ADD_DOUBLE => Some OP_ADD_STACK_CONST_DOUBLE
  | Some OP_SUB_DOUBLE => Some OP_SUB_STACK_CONST_DOUBLE
  | Some OP_MUL_DOUBLE => Some OP_MUL_STACK_CONST_DOUBLE
  | Some OP_DIV_DOUBLE => Some OP_DIV_STACK_CONST_DOUBLE
  | _ => None
  end.

Definition pattern_A : pattern := fun c =>
  match c with
  | op :: a :: op2 :: b :: op3 :: rest =>
      if is_byte OP_LOAD_LOCAL op && is_byte OP_LOAD_LOCAL op2 then replace (locals_op op3) [a; b; 0; 0] rest else None
  | _ => None
  end.
Definition pattern_A2 : pattern := fun c =>
  match c with
  | op :: a :: op2 :: idx :: op3 :: rest =>
      if is_byte OP_LOAD_LOCAL op && is_byte OP_CONST op2 then replace (local_const_op op3) [a; idx; 0; 0] rest else None
  | _ => None
  end.
Definition pattern_B : pattern := fun c =>
  match c with
  | op :: x :: op2 :: rest =>
      if is_byte OP_LOAD_LOCAL op && is_byte OP_SQRT op2 then replace (Some OP_SQRT_LOCAL_DOUBLE) [x; 0] rest else None
  | _ => None
  end.
Definition pattern_C : pattern := fun c =>
  match c with
  | op :: arr :: op2 :: rest =>
      if is_byte OP_LOAD_LOCAL op && is_byte OP_ARRAY_LEN op2 then replace (Some OP_ARRAY_LEN_LOCAL) [arr; 0] rest else None
  | _ => None
  end.
Definition pattern_D : pattern := fun c =>
  match c with
  | op :: b :: op2 :: rest => if is_byte OP_LOAD_LOCAL op then replace (stack_local_op op2) [b; 0] rest else None
  | _ => None
  end.
Definition pattern_E : pattern := fun c =>
  match c with
  | op :: idx :: op2 :: rest => if is_byte OP_CONST op then replace (stack_const_op op2) [idx; 0] rest else None
  | _ => None
  end.

Definition commuted_op (b : Z) : option OpCode :=
  match decode b with
  | Some OP_ADD_STACK_LOCAL_INT => Some OP_ADD_LOCAL_CONST_INT
  | Some OP_MUL_STACK_LOCAL_INT => Some OP_MUL_LOCAL_CONST_INT
  | Some OP_BIT_AND_STACK_LOCAL_INT => Some OP_BIT_AND_LOCAL_CONST_INT
  | Some OP_BIT_OR_STACK_LOCAL_INT => Some OP_BIT_OR_LOCAL_CONST_INT
  | Some OP_BIT_XOR_STACK_LOCAL_INT => Some OP_BIT_XOR_LOCAL_CONST_INT
  | Some OP_ADD_STACK_LOCAL_DOUBLE => Some OP_ADD_LOCAL_CONST_DOUBLE
  | Some OP_MUL_STACK_LOCAL_DOUBLE => Some OP_MUL_LOCAL_CONST_DOUBLE
  | _ => None
  end.
Definition pattern_N : pattern := fun c =>
  match c with
  | op :: idx :: op2 :: b :: _ :: rest =>
      if is_byte OP_CONST op then replace (commuted_op op2) [b; idx; 0; 0] rest else None
  | _ => None
  end.

(** The patterns in the order in which they are tried. *)
Definition patterns : list pattern :=
  [pattern_J; pattern_global; pattern_K; pattern_M; pattern_evalA; pattern_L; pattern_A; pattern_A2; pattern_B; pattern_C;
   pattern_D; pattern_E; pattern_N].
Fixpoint first_match (ps : list pattern) (c : list Z) : option (list Z * list Z) :=
  match ps with
  | [] => None
  | p :: ps' => match p c with Some r => Some r | None => first_match ps' c end
  end.
Definition fuse (c : list Z) : option (list Z * list Z) := first_match patterns c.

(** One scan of the code: the new code and whether it changed. Every step
    moves on by at least one byte. *)
Fixpoint superinstruction_scan (fuel : nat) (c : list Z) : list Z * bool :=
  match fuel, c with
  | O, _ | _, [] => (c, false)
  | S f, op :: _ =>
      match fuse c with
      | Some (new, rest) => (new ++ fst (superinstruction_scan f rest), true)
      | None =>
          let len := peephole_instruction_len op in
          let r := superinstruction_scan f (drop len c) in (take len c ++ fst r, snd r)
      end
  end.
Definition superinstruction_pass (c : list Z) : list Z * bool := superinstruction_scan (length c) c.

Fixpoint superinstruction_rounds (iterations : nat) (c : list Z) : list Z :=
  match iterations with
  | O => c
  | S n => let '(c, changed) := superinstruction_pass c in if changed then superinstruction_rounds n c else c
  end.
Definition superinstruction_optimize (c : list Z) : list Z :=
  if (length c <? 3)%nat then c else superinstruction_rounds 3 c.

(** ** The scan *)

Definition fused (c : list Z) : list Z := fst (superinstruction_pass c).

Lemma decode_cases b : (exists op, decode b = Some op) \/ decode b = None.
Proof. destruct (decode b); eauto. Qed.

Lemma op_len_pos op : (1 <= op_len op)%nat.
Proof. destruct op; simpl; lia. Qed.
Lemma instruction_len_pos b : (1 <= peephole_instruction_len b)%nat.
Proof. unfold peephole_instruction_len. destruct (decode b); [apply op_len_pos|lia]. Qed.

Lemma is_byte_true op b : is_byte op b = true -> b = op_byte op.
Proof. unfold is_byte. lia. Qed.

(** A pattern replaces the bytes it takes by as many. *)
Definition keeps_length (p : pattern) : Prop :=
  forall c new rest, p c = Some (new, rest) -> rest = drop (length new) c /\ (1 <= length new <= length c)%nat.

Ltac pattern_length :=
  let H := fresh "H" in
  intros c new rest H;
  repeat match type of H with
  | match ?l with _ => _ end = Some _ => destruct l; try discriminate H
  end;
  unfold replace in H;
  repeat match type of H with context [match ?t with _ => _ end] => destruct t; try discriminate H end;
  simplify_eq; simpl; split; [done|lia].

Lemma patterns_keep_length : Forall keeps_length patterns.
Proof.
  unfold patterns. repeat (apply List.Forall_cons); [..|apply List.Forall_nil];
    unfold keeps_length, pattern_J, pattern_global, pattern_K, pattern_M, pattern_evalA, pattern_L, pattern_A, pattern_A2, pattern_B,
      pattern_C, pattern_D, pattern_E, pattern_N; pattern_length.
Qed.

Lemma first_match_in ps : forall c r, first_match ps c = Some r -> exists p, p ∈ ps /\ p c = Some r.
Proof.
  induction ps as [|p ps IH]; intros c r H; simpl in H; [done|].
  destruct (p c) eqn:E.
  - simplify_eq. exists p. split; [left|done].
  - destruct (IH c r H) as (q & Hq & Hr). exists q. split; [by right|done].
Qed.

Lemma fuse_length c new rest :
  fuse c = Some (new, rest) -> rest = drop (length new) c /\ (1 <= length new <= length c)%nat.
Proof.
  intros H. destruct (first_match_in _ _ _ H) as (p & Hp & Hr).
  pose proof patterns_keep_length as Hk. rewrite Forall_forall in Hk. by apply (Hk p Hp).
Qed.

(** The bytes one step of the scan passes over. *)
Definition advance (c : list Z) : nat :=
  match fuse c with
  | Some (new, _) => length new
  | None => match c with [] => 0 | op :: _ => peephole_instruction_len op end
  end.

Lemma advance_pos c : c <> [] -> (1 <= advance c)%nat.
Proof.
  intros Hc. unfold advance. destruct (fuse c) as [[new rest]|] eqn:E.
  - apply fuse_length in E. lia.
  - destruct c; [done|]. apply instruction_len_pos.
Qed.

Lemma scan_fuel f : forall c, (length c <= f)%nat -> superinstruction_scan f c = superinstruction_pass c.
Proof.
  unfold superinstruction_pass. induction f as [f IH] using lt_wf_ind. intros c Hf.
  destruct c as [|op c]; [by destruct f|]. destruct f as [|f]; [simpl in Hf; lia|]. cbn [length].
  cbn [superinstruction_scan].
  destruct (fuse (op :: c)) as [[new rest]|] eqn:E.
  - apply fuse_length in E as [-> Hl]. simpl in Hf, Hl.
    rewrite (IH f) by (rewrite ?length_drop; simpl; lia).
    destruct (decide (length c = f)) as [<-|]; [by rewrite (IH (length c)) by (rewrite ?length_drop; simpl; lia)|].
    rewrite (IH (length c)); rewrite ?length_drop; simpl; try lia. done.
  - pose proof (instruction_len_pos op). simpl in Hf.
    rewrite (IH f) by (rewrite ?length_drop; simpl; lia).
    destruct (decide (length c = f)) as [<-|]; [by rewrite (IH (length c)) by (rewrite ?length_drop; simpl; lia)|].
    rewrite (IH (length c)); rewrite ?length_drop; simpl; try lia. done.
Qed.

Lemma fused_unfold c :
  fused c = match fuse c with
            | Some (new, rest) => new ++ fused rest
            | None => take (advance c) c ++ fused (drop (advance c) c)
            end.
Proof.
  unfold fused at 1, superinstruction_pass, advance. destruct c as [|op c]; [done|]. cbn [length superinstruction_scan].
  destruct (fuse (op :: c)) as [[new rest]|] eqn:E.
  - apply fuse_length in E as [-> Hl]. simpl in Hl. by rewrite scan_fuel by (rewrite length_drop; simpl; lia).
  - pose proof (instruction_len_pos op). cbn [fst]. by rewrite scan_fuel by (rewrite length_drop; simpl; lia).
Qed.

Lemma length_fused c : length (fused c) = length c.
Proof.
  induction c as [c IH] using (induction_ltof1 _ (@length Z)). unfold ltof in IH.
  rewrite fused_unfold. destruct (fuse c) as [[new rest]|] eqn:E.
  - apply fuse_length in E as [-> Hl]. rewrite length_app, IH; rewrite length_drop; lia.
  - destruct c as [|op c]; [done|]. pose proof (advance_pos (op :: c) ltac:(done)).
    rewrite length_app, IH, length_take, length_drop; [lia|]. rewrite length_drop. simpl. lia.
Qed.

(** The positions at which the scan of [c] looks for a pattern. *)
Inductive scanned (c : list Z) : nat -> Prop :=
| scanned_start : scanned c 0
| scanned_next p : scanned c p -> scanned c (p + advance (drop p c)).

(** At such a position the new code is the code of the scan from there. *)
Lemma fused_suffix c p : scanned c p -> drop p (fused c) = fused (drop p c).
Proof.
  induction 1 as [|p H IH]; [done|]. rewrite <- !drop_drop, IH.
  rewrite (fused_unfold (drop p c)). unfold advance. destruct (fuse (drop p c)) as [[new rest]|] eqn:E.
  - apply fuse_length in E as [-> Hl]. by rewrite drop_app_length.
  - destruct (drop p c) as [|op r] eqn:Hd; [done|].
    destruct (decide (peephole_instruction_len op <= length (op :: r))%nat).
    + rewrite drop_app_length'; [done|]. rewrite length_take. lia.
    + rewrite !drop_ge; rewrite ?length_app, ?length_fused, ?length_take, ?length_drop; try done; simpl in *; try lia.
Qed.

(** The same positions as a list. *)
Fixpoint positions (fuel : nat) (c : list Z) (p : nat) : list nat :=
  match fuel, c with
  | O, _ | _, [] => []
  | S f, _ => p :: positions f (drop (advance c) c) (p + advance c)
  end.

Lemma positions_scanned c f : forall p q, scanned c p -> q ∈ positions f (drop p c) p -> scanned c q.
Proof.
  induction f as [|f IH]; intros p q Hp Hq; cbn [positions] in Hq; [by apply elem_of_nil in Hq|].
  destruct (drop p c) as [|x r] eqn:E; [by apply elem_of_nil in Hq|].
  apply elem_of_cons in Hq as [->|Hq]; [done|].
  apply (IH (p + advance (x :: r))%nat); [rewrite <- E; by constructor|]. by rewrite <- drop_drop, E.
Qed.

Lemma positions_next c f : forall p q,
  (length (drop p c) <= f)%nat -> q ∈ positions f (drop p c) p -> (q + advance (drop q c) < length c)%nat ->
  (q + advance (drop q c))%nat ∈ positions f (drop p c) p.
Proof.
  induction f as [|f IH]; intros p q Hf Hq Hn; cbn [positions] in *; [by apply elem_of_nil in Hq|].
  destruct (drop p c) as [|x r] eqn:E; [by apply elem_of_nil in Hq|].
  pose proof (advance_pos (x :: r) ltac:(done)).
  assert (drop (advance (x :: r)) (x :: r) = drop (p + advance (x :: r)) c) as Hd by (by rewrite <- E, drop_drop).
  apply elem_of_cons in Hq as [->|Hq]; right.
  - rewrite E in *. rewrite Hd. set (n := (p + advance (x :: r))%nat) in *.
    destruct f as [|f].
    { apply (f_equal length) in Hd. rewrite !length_drop in Hd. simpl in Hf, Hd. lia. }
    cbn [positions]. destruct (drop n c) eqn:En; [|left].
    apply (f_equal length) in En. rewrite length_drop in En. simpl in En. lia.
  - rewrite Hd in *. apply IH; [|done..]. rewrite <- Hd, length_drop. simpl in Hf |- *. lia.
Qed.

Definition scan_positions (c : list Z) : list nat := positions (length c) c 0.

Lemma scanned_positions c p : scanned c p -> (p < length c)%nat -> p ∈ scan_positions c.
Proof.
  unfold scan_positions. induction 1 as [|p H IH]; intros Hp.
  - destruct c; [simpl in Hp; lia|]. cbn [length positions]. left.
  - destruct (decide (p < length c)%nat) as [Hl|].
    + apply (positions_next c (length c) 0); [done|by apply IH|done].
    + lia.
Qed.

(** ** When fusing is safe *)

(** The target of a jump at the start of the code, relative to it. *)
Definition offset16 (hi lo : Z) : Z := i16 (Z.lor (Z.shiftl hi 8) lo).
Definition jump_target (c : list Z) : option Z :=
  match c with
  | op :: r =>
      match decode op with
      | Some (OP_JUMP | OP_JUMP_IF_FALSE | OP_JUMP_IF_FALSE_POP) => Some (3 + offset16 (nth 0 r 0) (nth 1 r 0))
      | Some (OP_JUMP_IF_LOCAL_LT | OP_JUMP_IF_LOCAL_LE | OP_JUMP_IF_LOCAL_GT | OP_JUMP_IF_LOCAL_GE
             | OP_JUMP_IF_LOCAL_LT_CONST | OP_JUMP_IF_LOCAL_LE_CONST | OP_JUMP_IF_LOCAL_GT_CONST
             | OP_JUMP_IF_LOCAL_GE_CONST | OP_JUMP_IF_LOCAL_EQ | OP_JUMP_IF_LOCAL_NE | OP_JUMP_IF_LOCAL_EQ_CONST
             | OP_JUMP_IF_LOCAL_NE_CONST) => Some (5 + offset16 (nth 2 r 0) (nth 3 r 0))
      | Some (OP_JUMP_IF_STACK_LT_LOCAL | OP_JUMP_IF_STACK_LE_LOCAL | OP_JUMP_IF_STACK_GT_LOCAL
             | OP_JUMP_IF_STACK_GE_LOCAL | OP_JUMP_IF_STACK_LT_CONST | OP_JUMP_IF_STACK_LE_CONST
             | OP_JUMP_IF_STACK_GT_CONST | OP_JUMP_IF_STACK_GE_CONST) => Some (4 + offset16 (nth 1 r 0) (nth 2 r 0))
      | _ => None
      end
  | [] => None
  end.

(** Every jump from a position of the scan leads to a position of the scan. *)
Definition target_ok (c : list Z) (p : nat) : bool :=
  match jump_target (drop p c) with
  | None => true
  | Some d => (0 <=? Z.of_nat p + d) && bool_decide (Z.to_nat (Z.of_nat p + d) ∈ scan_positions c)
  end.

(** The operands of a fused instruction name locals and constants of the
    function. The fused instruction on an array is not in the modelled part of
    the interpreter, while the first instruction it stands for is. *)
Definition slot_ok (fn : ObjFunction) (slot : Z) : bool := (0 <=? slot) && (slot <? local_count fn).
Definition constant_ok (fn : ObjFunction) (idx : Z) : bool :=
  (0 <=? idx) && (idx <? constant_count (pool fn)) && negb (idx =? 255) &&
  match buffer (constants (pool fn)) !! Z.to_nat idx with
  | Some c => match payload c with as_string None => false | _ => true end
  | None => false
  end.
(** The opcodes from [lo] to [hi] in the enumeration. *)
Definition between (lo hi : OpCode) (b : Z) : bool := (op_byte lo <=? b) && (b <=? op_byte hi).
Definition operands_ok (fn : ObjFunction) (new : list Z) : bool :=
  match new with
  | op :: x :: r =>
      if between OP_ADD_LOCALS_INT OP_DIV_LOCALS_DOUBLE op then slot_ok fn (nth 0 r 0)
      else if between OP_ADD_LOCAL_CONST_INT OP_DIV_LOCAL_CONST_DOUBLE op then slot_ok fn x && constant_ok fn (nth 0 r 0)
      else if between OP_ADD_STACK_CONST_INT OP_DIV_STACK_CONST_DOUBLE op then constant_ok fn x
      else if is_byte OP_EVALA_MADD_LOCAL_ARRAY_LOCAL_DOUBLE op then false
      else if is_byte OP_ADD2_LOCAL_CONST op then constant_ok fn (nth 0 r 0) && constant_ok fn (nth 2 r 0)
      else true
  | _ => true
  end.

Definition fusion_ok (fn : ObjFunction) (c : list Z) : bool :=
  forallb
    (fun p => target_ok c p && match fuse (drop p c) with Some (new, _) => operands_ok fn new | None => true end)
    (scan_positions c).

(** The conditions for the code of each round. *)
Fixpoint rounds_ok (fn : ObjFunction) (iterations : nat) (c : list Z) : bool :=
  match iterations with
  | O => true
  | S n => fusion_ok fn c && rounds_ok fn n (fused c)
  end.
