(* ===== verification/SuperinstrStep.v ===== *)
(** * Steps of fused and original code

    What single instructions of the interpreter do, for the comparison of
    fused code with the original: the typed operations in their five operand
    forms, that an instruction reads its own operands only, and where it
    leads. *)

From S2P Require Import Prelude.
From Stdlib Require Import String SpecFloat.
From S2P Require Import Values Bytecode Doubles Operators Machine Superinstr.

Open Scope Z_scope.
Open Scope list_scope.

(** ** Running the code *)

Definition recode (c : list Z) (fn : ObjFunction) : ObjFunction :=
  mkFunction (mkChunk (Some c) (debug_info (chunk fn)) (Z.of_nat (length c)) (code_capacity (chunk fn))) (pool fn)
    (param_count fn) (local_count fn) (debug_local_names fn) (capture_count fn) (capture_local_slots fn) (is_async fn)
    (defer_handler_ip fn) (defer_return_slot fn) (name fn) (source_file fn) (jit_profile fn) (jit_hint_plan fn).

(** A run in which the locals of the frame are on the stack throughout. *)
Fixpoint run_framed (fn : ObjFunction) (ss : nat) (fuel : nat) (vm : VM) (ip : Z) : option outcome :=
  match fuel with
  | O => None
  | S n =>
      if (Z.of_nat (length (stack vm)) <? Z.of_nat ss + local_count fn) then None
      else match step fn ss vm ip with Continue vm ip => run_framed fn ss n vm ip | o => Some o end
  end.

Lemma run_framed_run fn ss fuel : forall vm ip o,
  run_framed fn ss fuel vm ip = Some o -> run fn ss fuel vm ip = Some o.
Proof.
  induction fuel as [|n IH]; intros vm ip o H; simpl in *; [done|].
  destruct (_ <? _); [done|]. destruct (step fn ss vm ip); simplify_eq; auto.
Qed.

(** What a fused run must reproduce: runs without undefined behaviour, within
    the model, and within the limit of the stack, which fused code reaches
    later. *)
Definition benign (o : outcome) : Prop :=
  match o with
  | Halted vm => error_message vm <> Some "Stack overflow"%string
  | Undefined | Unmodelled | Continue _ _ => False
  | _ => True
  end.

(** The same result; after an error, the same message. *)
Definition same_outcome (o o' : outcome) : Prop :=
  match o, o' with
  | Halted vm, Halted vm' => error_message vm = error_message vm'
  | _, _ => o = o'
  end.

Lemma same_outcome_refl o : same_outcome o o.
Proof. by destruct o. Qed.
Lemma same_outcome_trans o1 o2 o3 : same_outcome o1 o2 -> same_outcome o2 o3 -> same_outcome o1 o3.
Proof. destruct o1, o2, o3; simpl; intros; simplify_eq; congruence. Qed.
Lemma same_outcome_benign o o' : same_outcome o o' -> benign o -> benign o'.
Proof. destruct o, o'; simpl; intros; simplify_eq; congruence. Qed.

(** ** Typed operations in their five forms *)

Inductive typed_op := TInt (op : int_op) | TDouble (op : double_op).

Definition typed_error (t : typed_op) : string :=
  match t with TInt _ => "Operands must be integer" | TDouble _ => "Operands must be double" end.
Definition typed_result (t : typed_op) (a b : Value) : arith_result :=
  match t, a, b with
  | TInt op, VAL_INT x, VAL_INT y =>
      match zero_error op y with Some m => Failed m | None => int_result (int_arith op x y) end
  | TDouble op, VAL_DOUBLE x, VAL_DOUBLE y =>
      match double_zero_error op y with Some m => Failed m | None => Computed (VAL_DOUBLE (double_arith op x y)) end
  | _, _, _ => Failed (typed_error t)
  end.

Definition stack_opcode (t : typed_op) : OpCode :=
  match t with
  | TInt IAdd => OP_ADD_INT | TInt ISub => OP_SUB_INT | TInt IMul => OP_MUL_INT | TInt IDiv => OP_DIV_INT
  | TInt IMod => OP_MOD_INT | TInt IAnd => OP_BIT_AND_INT | TInt IOr => OP_BIT_OR_INT | TInt IXor => OP_BIT_XOR_INT
  | TDouble DAdd => OP_ADD_DOUBLE | TDouble DSub => OP_SUB_DOUBLE | TDouble DMul => OP_MUL_DOUBLE
  | TDouble DDiv => OP_DIV_DOUBLE
  end.
Definition locals_opcode (t : typed_op) : OpCode :=
  match t with
  | TInt IAdd => OP_ADD_LOCALS_INT | TInt ISub => OP_SUB_LOCALS_INT | TInt IMul => OP_MUL_LOCALS_INT
  | TInt IDiv => OP_DIV_LOCALS_INT | TInt IMod => OP_MOD_LOCALS_INT | TInt IAnd => OP_BIT_AND_LOCALS_INT
  | TInt IOr => OP_BIT_OR_LOCALS_INT | TInt IXor => OP_BIT_XOR_LOCALS_INT | TDouble DAdd => OP_ADD_LOCALS_DOUBLE
  | TDouble DSub => OP_SUB_LOCALS_DOUBLE | TDouble DMul => OP_MUL_LOCALS_DOUBLE | TDouble DDiv => OP_DIV_LOCALS_DOUBLE
  end.
Definition local_const_opcode (t : typed_op) : OpCode :=
  match t with
  | TInt IAdd => OP_ADD_LOCAL_CONST_INT | TInt ISub => OP_SUB_LOCAL_CONST_INT | TInt IMul => OP_MUL_LOCAL_CONST_INT
  | TInt IDiv => OP_DIV_LOCAL_CONST_INT | TInt IMod => OP_MOD_LOCAL_CONST_INT | TInt IAnd => OP_BIT_AND_LOCAL_CONST_INT
  | TInt IOr => OP_BIT_OR_LOCAL_CONST_INT | TInt IXor => OP_BIT_XOR_LOCAL_CONST_INT | TDouble DAdd => OP_ADD_LOCAL_CONST_DOUBLE
  | TDouble DSub => OP_SUB_LOCAL_CONST_DOUBLE | TDouble DMul => OP_MUL_LOCAL_CONST_DOUBLE | TDouble DDiv => OP_DIV_LOCAL_CONST_DOUBLE
  end.
Definition stack_local_opcode (t : typed_op) : OpCode :=
  match t with
  | TInt IAdd => OP_ADD_STACK_LOCAL_INT | TInt ISub => OP_SUB_STACK_LOCAL_INT | TInt IMul => OP_MUL_STACK_LOCAL_INT
  | TInt IDiv => OP_DIV_STACK_LOCAL_INT | TInt IMod => OP_MOD_STACK_LOCAL_INT | TInt IAnd => OP_BIT_AND_STACK_LOCAL_INT
  | TInt IOr => OP_BIT_OR_STACK_LOCAL_INT | TInt IXor => OP_BIT_XOR_STACK_LOCAL_INT | TDouble DAdd => OP_ADD_STACK_LOCAL_DOUBLE
  | TDouble DSub => OP_SUB_STACK_LOCAL_DOUBLE | TDouble DMul => OP_MUL_STACK_LOCAL_DOUBLE | TDouble DDiv => OP_DIV_STACK_LOCAL_DOUBLE
  end.
Definition stack_const_opcode (t : typed_op) : OpCode :=
  match t with
  | TInt IAdd => OP_ADD_STACK_CONST_INT | TInt ISub => OP_SUB_STACK_CONST_INT | TInt IMul => OP_MUL_STACK_CONST_INT
  | TInt IDiv => OP_DIV_STACK_CONST_INT | TInt IMod => OP_MOD_STACK_CONST_INT | TInt IAnd => OP_BIT_AND_STACK_CONST_INT
  | TInt IOr => OP_BIT_OR_STACK_CONST_INT | TInt IXor => OP_BIT_XOR_STACK_CONST_INT | TDouble DAdd => OP_ADD_STACK_CONST_DOUBLE
  | TDouble DSub => OP_SUB_STACK_CONST_DOUBLE | TDouble DMul => OP_MUL_STACK_CONST_DOUBLE | TDouble DDiv => OP_DIV_STACK_CONST_DOUBLE
  end.

Ltac pick_typed_op :=
  first [ by exists (TInt IAdd) | by exists (TInt ISub) | by exists (TInt IMul) | by exists (TInt IDiv)
        | by exists (TInt IMod) | by exists (TInt IAnd) | by exists (TInt IOr) | by exists (TInt IXor)
        | by exists (TDouble DAdd) | by exists (TDouble DSub) | by exists (TDouble DMul) | by exists (TDouble DDiv) ].
Ltac table_spec f :=
  unfold f; intros H; match type of H with context [decode ?b] => destruct (decode b) as [[]|] end; simplify_eq; pick_typed_op.

Lemma locals_op_spec b r :
  locals_op b = Some r -> exists t, decode b = Some (stack_opcode t) /\ r = locals_opcode t.
Proof. table_spec locals_op. Qed.
Lemma local_const_op_spec b r :
  local_const_op b = Some r -> exists t, decode b = Some (stack_opcode t) /\ r = local_const_opcode t.
Proof. table_spec local_const_op. Qed.
Lemma stack_local_op_spec b r :
  stack_local_op b = Some r -> exists t, decode b = Some (stack_opcode t) /\ r = stack_local_opcode t.
Proof. table_spec stack_local_op. Qed.
Lemma stack_const_op_spec b r :
  stack_const_op b = Some r -> exists t, decode b = Some (stack_opcode t) /\ r = stack_const_opcode t.
Proof. table_spec stack_const_op. Qed.

(** The operations whose operands may be exchanged. *)
Definition commutes (t : typed_op) : bool :=
  match t with
  | TInt (IAdd | IMul | IAnd | IOr | IXor) | TDouble (DAdd | DMul) => true
  | _ => false
  end.
Lemma commuted_op_spec b r :
  commuted_op b = Some r ->
  exists t, decode b = Some (stack_local_opcode t) /\ r = local_const_opcode t /\ commutes t = true.
Proof. table_spec commuted_op. Qed.

Lemma typed_result_comm t a b : commutes t = true -> typed_result t a b = typed_result t b a.
Proof.
  destruct t as [[]|[]]; try done; intros _; destruct a, b; try done; cbn [typed_result zero_error double_zero_error int_arith].
  - by rewrite Z.add_comm.
  - by rewrite Z.mul_comm.
  - by rewrite Z.land_comm.
  - by rewrite Z.lor_comm.
  - by rewrite Z.lxor_comm.
  - unfold double_arith. by rewrite SFadd_comm.
  - unfold double_arith. by rewrite SFmul_comm.
Qed.

(** ** Executing single instructions *)

(** What an instruction does with the result of its operation. *)
Definition does (o : outcome) (r : arith_result) (k : Value -> outcome) : Prop :=
  match r with
  | Computed v => o = k v
  | Failed m => exists vm, o = Halted vm /\ error_message vm = Some m
  | ComputeUndefined => o = Undefined
  | ComputeUnmodelled => o = Unmodelled
  end.

Section Steps.
Context (fn : ObjFunction) (ss : nat) (d : list Z).
Notation F := (recode d fn).

Lemma code_at_0 i : code_at F (Z.of_nat i) = nth 0 (drop i d) 0.
Proof. unfold code_at, recode. simpl. rewrite Nat2Z.id, !nth_lookup, lookup_drop. by rewrite Nat.add_0_r. Qed.
Lemma code_at_z i z : 0 <= z -> code_at F (Z.of_nat i + z) = nth (Z.to_nat z) (drop i d) 0.
Proof.
  intros Hz. unfold code_at, recode. simpl. rewrite Z2Nat.inj_add, Nat2Z.id, !nth_lookup, lookup_drop by lia. done.
Qed.
Lemma ensure_true vm i n k : 1 <= n <= Z.of_nat (length (drop i d)) -> ensure F vm (Z.of_nat i) n k = k.
Proof.
  intros Hn. unfold ensure, recode. simpl. rewrite length_drop in Hn.
  assert ((Z.of_nat i <? 0) || (Z.of_nat (length d) <? Z.of_nat i + n) = false) as -> by lia. done.
Qed.

Ltac type_cases c := repeat match goal with |- context [type_index c =? ?n] => destruct (type_index c =? n) end.

(** Reads the operands of an instruction from the code at [i]. *)
Ltac operands Hd :=
  rewrite ?ensure_true by (rewrite Hd; simpl; lia);
  unfold offset_at; rewrite <- ?Z.add_assoc; rewrite ?code_at_0, ?code_at_z by lia; rewrite ?Hd;
  cbn [Z.add Pos.add Pos.succ];
  repeat match goal with
  | |- context [Z.to_nat (Zpos ?p)] => let n := eval vm_compute in (Z.to_nat (Zpos p)) in change (Z.to_nat (Zpos p)) with n
  end;
  cbn [nth].

Lemma exec_load vm i a r : drop i d = a :: r ->
  exec F ss OP_LOAD_LOCAL vm (Z.of_nat i) = with_local ss vm a (fun v => Continue (push vm v) (Z.of_nat i + 1)).
Proof. intros Hd. cbn [exec]. by operands Hd. Qed.

Lemma exec_store vm i a r : drop i d = a :: r ->
  exec F ss OP_STORE_LOCAL vm (Z.of_nat i) =
  (let '(v, vm) := pop vm in match set_local ss vm a v with Some vm => Continue vm (Z.of_nat i + 1) | None => Undefined end).
Proof. intros Hd. cbn [exec]. by operands Hd. Qed.

Lemma exec_const vm i a r : drop i d = a :: r -> a <> 255 ->
  exec F ss OP_CONST vm (Z.of_nat i) = vm_push_constant_by_index F vm a (Z.of_nat i + 1).
Proof. intros Hd Ha. cbn [exec]. operands Hd. by assert (a =? 255 = false) as -> by lia. Qed.

Lemma exec_jump_false vm i hi lo r : drop i d = hi :: lo :: r ->
  exec F ss OP_JUMP_IF_FALSE vm (Z.of_nat i) =
  (let '(condition, vm) := peek0 vm in
   match condition with
   | VAL_BOOL c => Continue vm (if negb c then Z.of_nat i + (2 + offset16 hi lo) else Z.of_nat i + 2)
   | _ => fail vm "Condition must be bool"
   end).
Proof. intros Hd. cbn [exec]. unfold exec_jump_if_false. operands Hd. done. Qed.

Lemma exec_jump_false_pop vm i hi lo x r : drop i d = hi :: lo :: x :: r ->
  exec F ss OP_JUMP_IF_FALSE_POP vm (Z.of_nat i) =
  (let '(condition, vm) := peek0 vm in
   match condition with
   | VAL_BOOL c => if negb c then Continue vm (Z.of_nat i + (2 + offset16 hi lo)) else Continue (snd (pop vm)) (Z.of_nat i + 3)
   | _ => fail vm "Condition must be bool"
   end).
Proof. intros Hd. cbn [exec]. unfold exec_jump_if_false_pop. operands Hd. done. Qed.

Lemma exec_add_local_const vm i a x r : drop i d = a :: x :: r ->
  exec F ss OP_ADD_LOCAL_CONST vm (Z.of_nat i) =
  add_local_const F ss false vm a x (fun vm => Continue vm (Z.of_nat i + 2)).
Proof. intros Hd. cbn [exec]. by operands Hd. Qed.

Lemma exec_add2_local_const vm i a x b y z r : drop i d = a :: x :: b :: y :: z :: r ->
  exec F ss OP_ADD2_LOCAL_CONST vm (Z.of_nat i) =
  with_constant F vm x (fun _ => with_constant F vm y (fun _ =>
    add_local_const F ss false vm a x (fun vm => add_local_const F ss false vm b y (fun vm => Continue vm (Z.of_nat i + 5))))).
Proof. intros Hd. cbn [exec]. by operands Hd. Qed.

Lemma exec_typed_stack t vm i s a b : stack vm = s ++ [a; b] ->
  does (exec F ss (stack_opcode t) vm i) (typed_result t a b) (fun v => Continue (with_stack (s ++ [v]) vm) i).
Proof.
  intros Hs.
  assert (reverse (stack vm) = b :: a :: reverse s) as Hr by (by rewrite Hs, reverse_app).
  assert (forall v, reverse (v :: reverse s) = s ++ [v]) as Hv by (intros v; by rewrite reverse_cons, reverse_involutive).
  destruct t as [op|op].
  - assert (exec F ss (stack_opcode (TInt op)) vm i = exec_stack_int op vm i) as -> by (by destruct op).
    unfold exec_stack_int. rewrite Hr. destruct a, b; cbn [typed_result does]; try (eexists; split; [done|done]).
    unfold compute. destruct (zero_error op i1); [eexists; by split|].
    unfold int_result. destruct (int_arith op i0 i1); cbn [does]; [|done]. by rewrite Hv.
  - assert (exec F ss (stack_opcode (TDouble op)) vm i = exec_stack_double op vm i) as -> by (by destruct op).
    unfold exec_stack_double. rewrite Hr. destruct a, b; cbn [typed_result does]; try (eexists; split; [done|done]).
    unfold compute_double. destruct (double_zero_error op bits0); [eexists; by split|]. cbn [does]. by rewrite Hv.
Qed.

(** A constant as an operand and as a pushed value are the same to a typed
    operation. *)
Definition constant_operand (c : Constant) : Value :=
  match payload c with
  | as_int i => if type_index c =? 0 then VAL_INT i else if type_index c =? 4 then VAL_BOOL (negb (i =? 0)) else VAL_NIL
  | as_double x => if type_index c =? 1 then VAL_DOUBLE x else VAL_NIL
  | as_string (Some s) =>
      if type_index c =? 2 then VAL_STRING (Some (mkStr UINT32_MAX (Some s)))
      else if type_index c =? 3 then VAL_BIGINT (Some (BigIntText.obj_bigint_from_string s)) else VAL_NIL
  | as_string None => VAL_NIL
  end.

Lemma push_constant vm idx ip : constant_ok fn idx = true ->
  exists c, buffer (constants (pool fn)) !! Z.to_nat idx = Some c /\
  vm_push_constant_by_index F vm idx ip = Continue (push vm (constant_operand c)) ip.
Proof.
  unfold constant_ok. intros H. destruct (buffer (constants (pool fn)) !! Z.to_nat idx) as [c|] eqn:E; [|by rewrite andb_false_r in H].
  apply andb_true_iff in H as [H Hp]. exists c. split; [done|].
  unfold vm_push_constant_by_index, with_constant, recode. cbn [pool].
  assert (constant_count (pool fn) <=? idx = false) as -> by lia. rewrite E.
  unfold constant_operand. destruct (payload c) as [| |[]]; try done; by type_cases c.
Qed.

Lemma with_constant_ok vm idx k c : constant_ok fn idx = true -> buffer (constants (pool fn)) !! Z.to_nat idx = Some c ->
  with_constant F vm idx k = k c.
Proof.
  unfold constant_ok, with_constant, recode. cbn [pool]. intros H E.
  assert (constant_count (pool fn) <=? idx = false) as -> by lia. by rewrite E.
Qed.

(** The result of the operation with a constant, as the instructions compute
    it. *)
Lemma int_constant_operand c :
  match constant_operand c with VAL_INT y => int_constant c = Some y | _ => int_constant c = None end.
Proof. unfold constant_operand, int_constant. destruct (payload c) as [| |[]]; type_cases c; done. Qed.
Lemma double_constant_operand c :
  match constant_operand c with VAL_DOUBLE y => double_constant c = Some y | _ => double_constant c = None end.
Proof. unfold constant_operand, double_constant. destruct (payload c) as [| |[]]; type_cases c; done. Qed.

Ltac typed_cases :=
  repeat match goal with
  | |- does (match ?v with VAL_INT _ => _ | _ => _ end) _ _ => is_var v; destruct v
  | |- does (match ?v with VAL_DOUBLE _ => _ | _ => _ end) _ _ => is_var v; destruct v
  end; cbn [typed_result does];
  try (eexists; split; [done|done]);
  unfold compute, compute_double;
  repeat match goal with
  | |- context [zero_error ?op ?y] => destruct (zero_error op y); [eexists; by split|]
  | |- context [double_zero_error ?op ?y] => destruct (double_zero_error op y); [eexists; by split|]
  | |- context [int_result ?r] => destruct r; cbn [int_result does]; [|done]
  end; try done.

Lemma exec_typed_locals t vm i x y u w r a b : drop i d = x :: y :: u :: w :: r ->
  local ss vm x = Some a -> local ss vm y = Some b ->
  does (exec F ss (locals_opcode t) vm (Z.of_nat i)) (typed_result t a b) (fun v => Continue (push vm v) (Z.of_nat i + 4)).
Proof.
  intros Hd Ha Hb. destruct t as [op|op].
  - assert (exec F ss (locals_opcode (TInt op)) vm (Z.of_nat i) = exec_locals_int F ss op vm (Z.of_nat i)) as -> by (by destruct op).
    unfold exec_locals_int. operands Hd. unfold with_local. rewrite Ha, Hb. typed_cases.
  - assert (exec F ss (locals_opcode (TDouble op)) vm (Z.of_nat i) = exec_locals_double F ss op vm (Z.of_nat i)) as -> by (by destruct op).
    unfold exec_locals_double. operands Hd. unfold with_local. rewrite Ha, Hb. typed_cases.
Qed.

Lemma exec_typed_locals_missing t vm i x y u w r : drop i d = x :: y :: u :: w :: r ->
  local ss vm x = None \/ local ss vm y = None -> exec F ss (locals_opcode t) vm (Z.of_nat i) = Undefined.
Proof.
  intros Hd Ha. destruct t as [[]|[]]; cbn [exec locals_opcode]; unfold exec_locals_int, exec_locals_double; operands Hd;
    unfold with_local; destruct (local ss vm x); try done; by destruct Ha as [Ha|Ha]; rewrite ?Ha.
Qed.

Lemma exec_typed_stack_local t vm i x u r s a b : drop i d = x :: u :: r ->
  stack vm = s ++ [a] -> local ss vm x = Some b ->
  does (exec F ss (stack_local_opcode t) vm (Z.of_nat i)) (typed_result t a b)
    (fun v => Continue (with_stack (s ++ [v]) vm) (Z.of_nat i + 2)).
Proof.
  intros Hd Hs Hb.
  assert (last (stack vm) = Some a) as Hl by (by rewrite Hs, last_snoc).
  assert (forall v, set_top vm v = with_stack (s ++ [v]) vm) as Ht by (intros v; unfold set_top; by rewrite Hs, removelast_last).
  destruct t as [op|op].
  - assert (exec F ss (stack_local_opcode (TInt op)) vm (Z.of_nat i) = exec_stack_local_int F ss op vm (Z.of_nat i)) as -> by (by destruct op).
    unfold exec_stack_local_int. operands Hd. rewrite Hl. unfold with_local. rewrite Hb. typed_cases; by rewrite Ht.
  - assert (exec F ss (stack_local_opcode (TDouble op)) vm (Z.of_nat i) = exec_stack_local_double F ss op vm (Z.of_nat i)) as -> by (by destruct op).
    unfold exec_stack_local_double. operands Hd. rewrite Hl. unfold with_local. rewrite Hb. typed_cases; by rewrite Ht.
Qed.

Lemma exec_typed_local_const t vm i x y u w r a c : drop i d = x :: y :: u :: w :: r ->
  local ss vm x = Some a -> constant_ok fn y = true -> buffer (constants (pool fn)) !! Z.to_nat y = Some c ->
  does (exec F ss (local_const_opcode t) vm (Z.of_nat i)) (typed_result t a (constant_operand c))
    (fun v => Continue (push vm v) (Z.of_nat i + 4)).
Proof.
  intros Hd Ha Hy Hc. destruct t as [op|op].
  - assert (exec F ss (local_const_opcode (TInt op)) vm (Z.of_nat i) = exec_local_const_int F ss op vm (Z.of_nat i)) as -> by (by destruct op).
    unfold exec_local_const_int. operands Hd. rewrite (with_constant_ok _ _ _ c) by done. unfold with_local. rewrite Ha.
    pose proof (int_constant_operand c) as Hk. destruct (constant_operand c); rewrite Hk; typed_cases.
  - assert (exec F ss (local_const_opcode (TDouble op)) vm (Z.of_nat i) = exec_local_const_double F ss op vm (Z.of_nat i)) as -> by (by destruct op).
    unfold exec_local_const_double. operands Hd. rewrite (with_constant_ok _ _ _ c) by done. unfold with_local. rewrite Ha.
    pose proof (double_constant_operand c) as Hk. destruct (constant_operand c); rewrite Hk; typed_cases.
Qed.

Lemma exec_typed_stack_const t vm i x u r s a c : drop i d = x :: u :: r ->
  stack vm = s ++ [a] -> constant_ok fn x = true -> buffer (constants (pool fn)) !! Z.to_nat x = Some c ->
  does (exec F ss (stack_const_opcode t) vm (Z.of_nat i)) (typed_result t a (constant_operand c))
    (fun v => Continue (with_stack (s ++ [v]) vm) (Z.of_nat i + 2)).
Proof.
  intros Hd Hs Hx Hc.
  assert (last (stack vm) = Some a) as Hl by (by rewrite Hs, last_snoc).
  assert (forall v, set_top vm v = with_stack (s ++ [v]) vm) as Ht by (intros v; unfold set_top; by rewrite Hs, removelast_last).
  destruct t as [op|op].
  - assert (exec F ss (stack_const_opcode (TInt op)) vm (Z.of_nat i) = exec_stack_const_int F op vm (Z.of_nat i)) as -> by (by destruct op).
    unfold exec_stack_const_int. operands Hd. rewrite Hl. rewrite (with_constant_ok _ _ _ c) by done.
    pose proof (int_constant_operand c) as Hk. destruct (constant_operand c); rewrite Hk; typed_cases; by rewrite Ht.
  - assert (exec F ss (stack_const_opcode (TDouble op)) vm (Z.of_nat i) = exec_stack_const_double F op vm (Z.of_nat i)) as -> by (by destruct op).
    unfold exec_stack_const_double. operands Hd. rewrite Hl. rewrite (with_constant_ok _ _ _ c) by done.
    pose proof (double_constant_operand c) as Hk. destruct (constant_operand c); rewrite Hk; typed_cases; by rewrite Ht.
Qed.

(** Too few operands. *)
Lemma exec_typed_stack_short t vm i v : stack vm = [v] -> exec F ss (stack_opcode t) vm i = fail vm "Stack underflow".
Proof. intros Hs. destruct t as [[]|[]]; cbn [exec stack_opcode]; unfold exec_stack_int, exec_stack_double; by rewrite Hs. Qed.
Lemma exec_typed_stack_const_empty t vm i x u r : drop i d = x :: u :: r -> stack vm = [] ->
  exec F ss (stack_const_opcode t) vm (Z.of_nat i) = fail vm "Stack underflow".
Proof.
  intros Hd Hs. destruct t as [[]|[]]; cbn [exec stack_const_opcode]; unfold exec_stack_const_int, exec_stack_const_double;
    operands Hd; by rewrite Hs.
Qed.

Definition mul_opcode (t : typed_op) : OpCode := match t with TInt _ => OP_MUL_LOCALS_INT_TO_LOCAL | TDouble _ => OP_MUL_LOCALS_DOUBLE_TO_LOCAL end.
Definition store_result (vm : VM) (slot : Z) (ip : Z) (v : Value) : outcome :=
  match set_local ss vm slot v with Some vm => Continue vm ip | None => Undefined end.

Lemma exec_typed_mul_to_local t vm i z x y u w q r a b : drop i d = z :: x :: y :: u :: w :: q :: r ->
  t = TInt IMul \/ t = TDouble DMul -> local ss vm x = Some a -> local ss vm y = Some b ->
  does (exec F ss (mul_opcode t) vm (Z.of_nat i)) (typed_result t a b) (store_result vm z (Z.of_nat i + 6)).
Proof.
  intros Hd [-> | ->] Ha Hb; cbn [exec mul_opcode]; unfold exec_mul_to_local, exec_mul_double_to_local; operands Hd;
    unfold with_local; rewrite Ha, Hb; typed_cases.
Qed.

(** One iteration of the loop at an instruction. *)
Definition ready (vm : VM) : Prop := error_message vm = None /\ max_instructions (config vm) <= 0.

Lemma step_op vm i b op r : ready vm -> drop i d = b :: r -> decode b = Some op ->
  step F ss vm (Z.of_nat i) = exec F ss op vm (Z.of_nat (S i)).
Proof.
  intros [He Hm] Hd Hb. unfold step. rewrite He.
  assert (0 <? max_instructions (config vm) = false) as -> by lia. cbn [andb].
  rewrite ensure_true by (rewrite Hd; simpl; lia). rewrite code_at_0, Hd. cbn [nth]. rewrite Hb. f_equal. lia.
Qed.
End Steps.

(** An instruction reads its own operands only. *)
Section Agreement.
Context (fn : ObjFunction) (ss : nat) (d1 d2 : list Z) (Hlen : length d1 = length d2).

Lemma ensure_agree vm ip n k : ensure (recode d1 fn) vm ip n k = ensure (recode d2 fn) vm ip n k.
Proof. unfold ensure, recode. simpl. by rewrite Hlen. Qed.

Lemma exec_agree op vm i :
  (forall k, (k < op_len op - 1)%nat -> nth k (drop i d1) 0 = nth k (drop i d2) 0) ->
  exec (recode d1 fn) ss op vm (Z.of_nat i) = exec (recode d2 fn) ss op vm (Z.of_nat i).
Proof.
  intros Hk.
  assert (forall z, 0 <= z < Z.of_nat (op_len op) - 1 ->
    code_at (recode d1 fn) (Z.of_nat i + z) = code_at (recode d2 fn) (Z.of_nat i + z)) as Hz.
  { intros z Hz. rewrite !code_at_z by lia. apply Hk. lia. }
  assert (1 < Z.of_nat (op_len op) -> code_at (recode d1 fn) (Z.of_nat i) = code_at (recode d2 fn) (Z.of_nat i)) as H0.
  { intros H. rewrite !code_at_0. apply Hk. lia. }
  destruct op; try done; cbn [op_len] in Hz, H0; cbn [exec];
    unfold exec_jump_if_false, exec_jump_if_false_pop, exec_jump_locals, exec_jump_local_const, exec_jump_stack_local,
      exec_jump_stack_const, exec_jump_locals_equal, exec_jump_local_const_equal, exec_locals_int, exec_locals_double,
      exec_local_const_int, exec_local_const_double, exec_stack_local_int, exec_stack_local_double, exec_stack_const_int,
      exec_stack_const_double, exec_local_stack_int, exec_local_stack_double, exec_mul_to_local, exec_mul_double_to_local,
      exec_add_local_div_locals, exec_evala_recip, offset_at;
    rewrite ensure_agree; rewrite <- ?Z.add_assoc;
    try rewrite H0 by lia; try rewrite (Hz 1) by lia; try rewrite (Hz 2) by lia; try rewrite (Hz 3) by lia;
    try rewrite (Hz (1 + 1)) by lia; try rewrite (Hz (2 + 1)) by lia; done.
Qed.

Lemma step_agree vm p b op r1 r2 :
  drop p d1 = b :: r1 -> drop p d2 = b :: r2 -> decode b = Some op -> take (op_len op) (drop p d1) = take (op_len op) (drop p d2) ->
  step (recode d1 fn) ss vm (Z.of_nat p) = step (recode d2 fn) ss vm (Z.of_nat p).
Proof.
  intros H1 H2 Hb Ht. unfold step. destruct (error_message vm); [done|].
  destruct (_ && _); [done|]. rewrite ensure_agree. f_equal. rewrite !code_at_0, H1, H2. cbn [nth]. rewrite Hb.
  assert (Z.of_nat p + 1 = Z.of_nat (S p)) as -> by lia. apply exec_agree. intros k Hk.
  assert (nth (S k) (take (op_len op) (drop p d1)) 0 = nth (S k) (take (op_len op) (drop p d2)) 0) as H by (by rewrite Ht).
  rewrite !nth_lookup, !lookup_take, !decide_True, !lookup_drop in H by lia.
  rewrite !nth_lookup, !lookup_drop. by replace (S p + k)%nat with (p + S k)%nat by lia.
Qed.
End Agreement.

(** ** Where an instruction leads *)

Lemma ensure_continue fn vm ip n k vm' q : ensure fn vm ip n k = Continue vm' q -> k = Continue vm' q.
Proof. unfold ensure. by destruct (_ || _). Qed.
Lemma with_local_continue ss vm a k vm' q : with_local ss vm a k = Continue vm' q -> exists v, k v = Continue vm' q.
Proof. unfold with_local. destruct (local ss vm a); [eauto|done]. Qed.
Lemma with_constant_continue fn vm i k vm' q : with_constant fn vm i k = Continue vm' q -> exists c, k c = Continue vm' q.
Proof. unfold with_constant. destruct (_ <=? _); [done|]. destruct (_ !! _); [eauto|done]. Qed.

Lemma push_config vm v : config (push vm v) = config vm.
Proof. unfold push, vm_stack_reserve. repeat case_match; done. Qed.
Lemma pop_config vm : config (snd (pop vm)) = config vm.
Proof. unfold pop. by case_match. Qed.
Lemma peek_config vm : config (snd (peek0 vm)) = config vm.
Proof. unfold peek0. by case_match. Qed.
Lemma set_local_config ss vm a v vm' : set_local ss vm a v = Some vm' -> config vm' = config vm.
Proof. unfold set_local. destruct (local ss vm a); [|done]. by intros [= <-]. Qed.

Ltac continue_inv H :=
  repeat (
    first
      [ apply ensure_continue in H
      | apply with_local_continue in H as [? H]
      | apply with_constant_continue in H as [? H]
      | progress unfold compute, compute_double, jump_if, jump_if_equal, finish_arith, fail in H
      | discriminate H
      | match type of H with
        | (let '(_, _) := pop ?vm in _) = _ => let E := fresh "Ep" in pose proof (pop_config vm) as E; destruct (pop vm); cbn [snd] in E
        | (let '(_, _) := peek0 ?vm in _) = _ => let E := fresh "Ep" in pose proof (peek_config vm) as E; destruct (peek0 vm); cbn [snd] in E
        | match set_local ?ss ?vm ?a ?v with _ => _ end = _ =>
            let E := fresh "Es" in destruct (set_local ss vm a v) eqn:E; [apply set_local_config in E|discriminate H]
        | match ?x with _ => _ end = _ => destruct x; try discriminate H
        end ]); injection H as <- <-.

(** The next instruction is the one behind, or the target of a jump. *)
Definition leads_to (c : list Z) (p : nat) (op : OpCode) (q : Z) : Prop :=
  q = Z.of_nat (p + op_len op) \/ exists d, jump_target (drop p c) = Some d /\ q = Z.of_nat p + d.

Section Next.
Context (fn : ObjFunction) (ss : nat) (c : list Z).

Lemma offset_at_next p b r k : drop p c = b :: r -> 0 <= k ->
  offset_at (recode c fn) (Z.of_nat (S p) + k) = offset16 (nth (Z.to_nat k) r 0) (nth (Z.to_nat (k + 1)) r 0).
Proof.
  intros Hd Hk. assert (drop (S p) c = r) as Hr by (by rewrite <- Nat.add_1_r, <- drop_drop, Hd).
  unfold offset_at. rewrite <- Z.add_assoc, !code_at_z by lia. by rewrite Hr.
Qed.

Lemma exec_next op vm p b r vm' q :
  drop p c = b :: r -> decode b = Some op -> exec (recode c fn) ss op vm (Z.of_nat (S p)) = Continue vm' q ->
  leads_to c p op q /\ config vm' = config vm.
Proof.
  intros Hd Hb H.
  pose proof (offset_at_next p b r 0 Hd ltac:(lia)) as O0. rewrite Z.add_0_r in O0.
  pose proof (offset_at_next p b r 1 Hd ltac:(lia)) as O1. pose proof (offset_at_next p b r 2 Hd ltac:(lia)) as O2.
  assert (forall d, jump_target (drop p c) = Some d -> forall q, q = Z.of_nat p + d -> leads_to c p op q) as Hj
    by (intros d Hj ? ->; right; eauto).
  unfold jump_target in Hj. rewrite Hd, Hb in Hj.
  destruct op; try discriminate H; cbn [exec] in H;
    unfold exec_jump_if_false, exec_jump_if_false_pop, exec_jump_locals, exec_jump_local_const, exec_jump_stack_local,
      exec_jump_stack_const, exec_jump_locals_equal, exec_jump_local_const_equal, exec_locals_int, exec_locals_double,
      exec_local_const_int, exec_local_const_double, exec_stack_local_int, exec_stack_local_double, exec_stack_const_int,
      exec_stack_const_double, exec_local_stack_int, exec_local_stack_double, exec_mul_to_local, exec_mul_double_to_local,
      exec_add_local_div_locals, exec_evala_recip, exec_recip, exec_stack_int, exec_stack_double, exec_arith1, exec_arith2, exec_compare, exec_equal,
      exec_logic, exec_unary_int, exec_neg_double, exec_return, add_local_const, vm_push_constant_by_index in H;
    continue_inv H;
    repeat match goal with |- context [if ?x then _ else _] => destruct x end;
    (split;
     [ first [left; cbn [op_len]; lia
             | eapply Hj; [reflexivity|];
               rewrite ?O0, ?O1, ?O2; change (Z.to_nat 0) with 0%nat; change (Z.to_nat 1) with 1%nat;
               change (Z.to_nat 2) with 2%nat; change (Z.to_nat (0 + 1)) with 1%nat; change (Z.to_nat (1 + 1)) with 2%nat;
               change (Z.to_nat (2 + 1)) with 3%nat; lia]
     | rewrite ?push_config, ?pop_config; simpl in *; congruence]).
Qed.
End Next.
