(* ===== verification/SuperinstrProps.v ===== *)
(** * Fused code against the original

    Running code after [superinstruction_optimize] gives what running it before
    gives: a simulation in which one fused instruction stands for the sequence
    it replaced. *)

From S2P Require Import Prelude.
From Stdlib Require Import String.
From S2P Require Import Values Bytecode Doubles Operators Machine Superinstr SuperinstrStep.

Open Scope Z_scope.
Open Scope list_scope.

(** ** One pass *)

Lemma push_ok vm v : error_message vm = None -> count vm < max_stack_size (config vm) ->
  push vm v = with_stack (stack vm ++ [v]) vm.
Proof.
  intros He Hc. unfold push, vm_stack_reserve.
  assert (max_stack_size (config vm) <=? count vm = false) as -> by lia.
  assert (max_stack_size (config vm) <? count vm + 1 = false) as -> by lia. simpl. by rewrite He.
Qed.
Lemma push_full vm v : max_stack_size (config vm) <= count vm -> push vm v = vm_runtime_error vm "Stack overflow".
Proof. intros Hc. unfold push. by assert (max_stack_size (config vm) <=? count vm = true) as -> by lia. Qed.

Lemma last_cases {A} (l : list A) : l = [] \/ exists s x, l = s ++ [x].
Proof. destruct l using rev_ind; eauto. Qed.

(** The code a pattern matches. *)
Ltac pattern_inv :=
  let H := fresh "H" in
  intros H;
  repeat match type of H with
  | (if ?b then _ else _) = Some _ => destruct b eqn:?; try discriminate H
  | match ?l with _ => _ end = Some _ => destruct l; try discriminate H
  end;
  unfold replace in H;
  repeat match goal with
  | Hb : _ && _ = true |- _ => apply andb_true_iff in Hb as [? ?]
  | Hb : is_byte _ _ = true |- _ => apply is_byte_true in Hb; subst
  end;
  try match type of H with match ?t with _ => _ end = Some _ => destruct t eqn:?; try discriminate H end;
  injection H as <- <-.

Lemma pattern_J_inv c new rest : pattern_J c = Some (new, rest) ->
  exists hi lo, c = op_byte OP_JUMP_IF_FALSE :: hi :: lo :: op_byte OP_POP :: rest /\
  new = [op_byte OP_JUMP_IF_FALSE_POP; hi; lo; 0].
Proof. unfold pattern_J. pattern_inv. eauto. Qed.
Lemma pattern_global_inv c new rest : pattern_global c = Some (new, rest) -> exists r, c = op_byte OP_LOAD_GLOBAL :: r.
Proof. unfold pattern_global. pattern_inv. eauto. Qed.
Lemma pattern_K_inv c new rest : pattern_K c = Some (new, rest) ->
  exists b r op, c = b :: r /\ decode b = Some op /\ forall fn ss v i, exec fn ss op v i = Unmodelled.
Proof.
  unfold pattern_K. pattern_inv. unfold array_get_op in *. destruct (decode _) as [[]|] eqn:E; try done; eauto 10.
Qed.
Lemma pattern_M_inv c new rest : pattern_M c = Some (new, rest) ->
  exists op1 a b x y dst t, c = op1 :: a :: b :: x :: y :: op_byte OP_STORE_LOCAL :: dst :: rest /\
  decode op1 = Some (locals_opcode t) /\ (t = TInt IMul \/ t = TDouble DMul) /\ new = [op_byte (mul_opcode t); dst; a; b; 0; 0; 0].
Proof.
  unfold pattern_M. pattern_inv. unfold mul_to_local_op in *. destruct (decode _) as [[]|] eqn:E; simplify_eq.
  - do 6 eexists. exists (TInt IMul). eauto.
  - do 6 eexists. exists (TDouble DMul). eauto.
Qed.
Lemma pattern_evalA_inv c new rest : pattern_evalA c = Some (new, rest) ->
  exists a r, new = op_byte OP_EVALA_MADD_LOCAL_ARRAY_LOCAL_DOUBLE :: a :: r.
Proof. unfold pattern_evalA. pattern_inv. eauto. Qed.
Lemma pattern_L_inv c new rest : pattern_L c = Some (new, rest) ->
  exists a x b y, c = op_byte OP_ADD_LOCAL_CONST :: a :: x :: op_byte OP_ADD_LOCAL_CONST :: b :: y :: rest /\
  new = [op_byte OP_ADD2_LOCAL_CONST; a; x; b; y; 0].
Proof. unfold pattern_L. pattern_inv. eauto 10. Qed.
Lemma pattern_A_inv c new rest : pattern_A c = Some (new, rest) ->
  exists a b op3 t, c = op_byte OP_LOAD_LOCAL :: a :: op_byte OP_LOAD_LOCAL :: b :: op3 :: rest /\
  decode op3 = Some (stack_opcode t) /\ new = [op_byte (locals_opcode t); a; b; 0; 0].
Proof. unfold pattern_A. pattern_inv. match goal with H : locals_op _ = Some _ |- _ => apply locals_op_spec in H as (t & ? & ->) end. eauto 10. Qed.
Lemma pattern_A2_inv c new rest : pattern_A2 c = Some (new, rest) ->
  exists a x op3 t, c = op_byte OP_LOAD_LOCAL :: a :: op_byte OP_CONST :: x :: op3 :: rest /\
  decode op3 = Some (stack_opcode t) /\ new = [op_byte (local_const_opcode t); a; x; 0; 0].
Proof. unfold pattern_A2. pattern_inv. match goal with H : local_const_op _ = Some _ |- _ => apply local_const_op_spec in H as (t & ? & ->) end. eauto 10. Qed.
Lemma pattern_B_inv c new rest : pattern_B c = Some (new, rest) -> exists x, c = op_byte OP_LOAD_LOCAL :: x :: op_byte OP_SQRT :: rest.
Proof. unfold pattern_B. pattern_inv. eauto. Qed.
Lemma pattern_C_inv c new rest : pattern_C c = Some (new, rest) -> exists x, c = op_byte OP_LOAD_LOCAL :: x :: op_byte OP_ARRAY_LEN :: rest.
Proof. unfold pattern_C. pattern_inv. eauto. Qed.
Lemma pattern_D_inv c new rest : pattern_D c = Some (new, rest) ->
  exists b op2 t, c = op_byte OP_LOAD_LOCAL :: b :: op2 :: rest /\ decode op2 = Some (stack_opcode t) /\
  new = [op_byte (stack_local_opcode t); b; 0].
Proof. unfold pattern_D. pattern_inv. match goal with H : stack_local_op _ = Some _ |- _ => apply stack_local_op_spec in H as (t & ? & ->) end. eauto 10. Qed.
Lemma pattern_E_inv c new rest : pattern_E c = Some (new, rest) ->
  exists x op2 t, c = op_byte OP_CONST :: x :: op2 :: rest /\ decode op2 = Some (stack_opcode t) /\
  new = [op_byte (stack_const_opcode t); x; 0].
Proof. unfold pattern_E. pattern_inv. match goal with H : stack_const_op _ = Some _ |- _ => apply stack_const_op_spec in H as (t & ? & ->) end. eauto 10. Qed.
Lemma pattern_N_inv c new rest : pattern_N c = Some (new, rest) ->
  exists x op2 b y t, c = op_byte OP_CONST :: x :: op2 :: b :: y :: rest /\ decode op2 = Some (stack_local_opcode t) /\
  commutes t = true /\ new = [op_byte (local_const_opcode t); b; x; 0; 0].
Proof. unfold pattern_N. pattern_inv. match goal with H : commuted_op _ = Some _ |- _ => apply commuted_op_spec in H as (t & ? & -> & ?) end. eauto 10. Qed.

(** The conditions on the operands of each kind of fused instruction. *)
Lemma operands_locals fn t a b : operands_ok fn [op_byte (locals_opcode t); a; b; 0; 0] = true -> slot_ok fn b = true.
Proof. by destruct t as [[]|[]]. Qed.
Lemma operands_local_const fn t a x :
  operands_ok fn [op_byte (local_const_opcode t); a; x; 0; 0] = true -> slot_ok fn a = true /\ constant_ok fn x = true.
Proof. intros H. apply andb_true_iff. by destruct t as [[]|[]]. Qed.
Lemma operands_stack_const fn t x : operands_ok fn [op_byte (stack_const_opcode t); x; 0] = true -> constant_ok fn x = true.
Proof. by destruct t as [[]|[]]. Qed.
Lemma operands_add2 fn a x b y :
  operands_ok fn [op_byte OP_ADD2_LOCAL_CONST; a; x; b; y; 0] = true -> constant_ok fn x = true /\ constant_ok fn y = true.
Proof. intros H. by apply andb_true_iff. Qed.

Section Pass.
Context (fn : ObjFunction) (ss : nat) (c : list Z).
Notation F := (recode c fn).
Notation F' := (recode (fused c) fn).

Definition framed (vm : VM) : Prop := Z.of_nat ss + local_count fn <= Z.of_nat (length (stack vm)).

(** The fused code takes one step for what the original does in some. *)
Definition simulated (n : nat) (vm : VM) (p : nat) (o : outcome) : Prop :=
  (exists o', step F' ss vm (Z.of_nat p) = o' /\ same_outcome o o') \/
  (exists vm' q m, (m < n)%nat /\ run_framed F ss m vm' (Z.of_nat q) = Some o /\
     step F' ss vm (Z.of_nat p) = Continue vm' (Z.of_nat q) /\ max_instructions (config vm') <= 0 /\ scanned c q).

Lemma run_framed_S n vm p o :
  run_framed F ss n vm p = Some o ->
  framed vm /\ exists m, n = S m /\
  match step F ss vm p with Continue vm ip => run_framed F ss m vm ip | o => Some o end = Some o.
Proof.
  destruct n as [|m]; simpl; [done|]. destruct (_ <? _) eqn:E; [done|]. intros H. split; [unfold framed; lia|].
  exists m. by split.
Qed.

(** A run from a state with an error ends at once. *)
Lemma run_framed_error n vm p m o :
  error_message vm = Some m -> run_framed F ss n vm p = Some o -> o = Halted vm.
Proof.
  intros He H. apply run_framed_S in H as (_ & k & -> & H). unfold step in H. rewrite He in H. by simplify_eq.
Qed.

Lemma overflow_not_benign n vm p o :
  run_framed F ss n (vm_runtime_error vm "Stack overflow") p = Some o -> benign o -> False.
Proof. intros H Hb. by rewrite (run_framed_error n (vm_runtime_error vm "Stack overflow") p "Stack overflow" o eq_refl H) in Hb. Qed.

(** The original code up to the operation that is fused. *)
Lemma run_load n vm p b a r o :
  ready vm -> drop p c = b :: a :: r -> b = op_byte OP_LOAD_LOCAL -> run_framed F ss n vm (Z.of_nat p) = Some o -> benign o ->
  exists v m, local ss vm a = Some v /\ count vm < max_stack_size (config vm) /\ n = S m /\
  run_framed F ss m (with_stack (stack vm ++ [v]) vm) (Z.of_nat (p + 2)) = Some o.
Proof.
  intros Hr Hd -> H Hb. apply run_framed_S in H as (Hf & m & -> & H).
  rewrite (step_op fn ss c vm p _ OP_LOAD_LOCAL (a :: r)) in H by done.
  rewrite (exec_load fn ss c vm (S p) a r) in H by (by rewrite <- Nat.add_1_r, <- drop_drop, Hd).
  unfold with_local in H. destruct (local ss vm a) as [v|] eqn:Ea; [|by simplify_eq].
  exists v, m. split; [done|]. destruct (decide (count vm < max_stack_size (config vm))) as [Hc|Hc].
  - split; [done|]. split; [done|]. rewrite push_ok in H by (try done; apply Hr).
    by replace (Z.of_nat (p + 2)) with (Z.of_nat (S p) + 1) by lia.
  - rewrite push_full in H by lia. by apply overflow_not_benign in H.
Qed.

Lemma run_const n vm p b a r o :
  ready vm -> drop p c = b :: a :: r -> b = op_byte OP_CONST -> constant_ok fn a = true ->
  run_framed F ss n vm (Z.of_nat p) = Some o -> benign o ->
  exists k m, buffer (constants (pool fn)) !! Z.to_nat a = Some k /\ count vm < max_stack_size (config vm) /\ n = S m /\
  run_framed F ss m (with_stack (stack vm ++ [constant_operand k]) vm) (Z.of_nat (p + 2)) = Some o.
Proof.
  intros Hr Hd -> Ha H Hb. apply run_framed_S in H as (Hf & m & -> & H).
  rewrite (step_op fn ss c vm p _ OP_CONST (a :: r)) in H by done.
  rewrite (exec_const fn ss c vm (S p) a r) in H.
  2: by rewrite <- Nat.add_1_r, <- drop_drop, Hd.
  2: { intros ->. unfold constant_ok in Ha. by rewrite andb_false_r in Ha. }
  destruct (push_constant fn c vm a (Z.of_nat (S p) + 1) Ha) as (k & Hk & Hp). rewrite Hp in H.
  exists k, m. split; [done|]. destruct (decide (count vm < max_stack_size (config vm))) as [Hc|Hc].
  - split; [done|]. split; [done|]. rewrite push_ok in H by (try done; apply Hr).
    by replace (Z.of_nat (p + 2)) with (Z.of_nat (S p) + 1) by lia.
  - rewrite push_full in H by lia. by apply overflow_not_benign in H.
Qed.

Definition continues (n : nat) (o : outcome) (k : outcome) : Prop :=
  match k with
  | Continue vm q => exists m, (m < n)%nat /\ run_framed F ss m vm q = Some o
  | _ => o = k
  end.

Lemma run_does n vm p b op r o res k :
  ready vm -> drop p c = b :: r -> decode b = Some op -> does (exec F ss op vm (Z.of_nat (S p))) res k ->
  run_framed F ss n vm (Z.of_nat p) = Some o -> benign o ->
  match res with
  | Computed v => continues n o (k v)
  | Failed m => exists vm', o = Halted vm' /\ error_message vm' = Some m
  | _ => False
  end.
Proof.
  intros Hr Hd Hb Hdo H Hbe. apply run_framed_S in H as (Hf & m & -> & H).
  rewrite (step_op fn ss c vm p b op r) in H by done. destruct res; cbn [does] in Hdo.
  - rewrite Hdo in H. unfold continues. destruct (k v); simplify_eq; try done. exists m. split; [lia|done].
  - destruct Hdo as (vm' & Hh & Hm). rewrite Hh in H. simplify_eq. eauto.
  - rewrite Hdo in H. by simplify_eq.
  - rewrite Hdo in H. by simplify_eq.
Qed.

(** The fused instruction has the result of the operation that it fuses. *)
Lemma simulated_does n vm p b op r o res k k' q :
  ready vm -> drop p (fused c) = b :: r -> decode b = Some op ->
  does (exec F' ss op vm (Z.of_nat (S p))) res k' ->
  (forall v, k v = k' v) -> (forall v vm' q', k' v = Continue vm' q' -> q' = Z.of_nat q /\ config vm' = config vm) -> scanned c q ->
  match res with
  | Computed v => exists n', (n' <= n)%nat /\ continues n' o (k v)
  | Failed m => exists vm', o = Halted vm' /\ error_message vm' = Some m
  | _ => False
  end -> simulated n vm p o.
Proof.
  intros Hr Hd Hb Hdo Hk Hq Hs Ho. pose proof (step_op fn ss (fused c) vm p b op r Hr Hd Hb) as Hst.
  unfold simulated. rewrite Hst. destruct res as [v|m| |]; cbn [does] in Hdo; [|destruct Hdo as (vm' & -> & Hm)|done..].
  - rewrite Hdo. rewrite Hk in Ho. destruct Ho as (n' & Hn' & Ho). specialize (Hq v). unfold continues in Ho.
    destruct (k' v) as [vm' q'| | | | |]; [|left; eexists; split; [reflexivity|subst o; apply same_outcome_refl]..].
    right. destruct Ho as (m & Hm & Ho). destruct (Hq _ _ eq_refl) as [-> Hc]. exists vm', q, m. split; [lia|].
    split; [done|]. split; [done|]. split; [|done]. rewrite Hc. apply Hr.
  - destruct Ho as (vm2 & -> & Hm2). left. eexists. split; [reflexivity|]. simpl. congruence.
Qed.

Lemma local_app vm b v : framed vm -> slot_ok fn b = true -> local ss (with_stack (stack vm ++ [v]) vm) b = local ss vm b.
Proof.
  unfold framed, slot_ok, local. intros Hf Hb. cbn [stack with_stack]. apply lookup_app_l. lia.
Qed.

Lemma drop_next {A} p k (l r : list A) : drop p l = r -> drop (p + k) l = drop k r.
Proof. intros <-. by rewrite drop_drop. Qed.

Section Group.
Context (n : nat) (vm : VM) (p : nat) (o : outcome) (rest rest' : list Z).
Context (Hr : ready vm) (Hrun : run_framed F ss n vm (Z.of_nat p) = Some o) (Hbe : benign o).

Lemma simulated_A a b t op3 :
  drop p c = op_byte OP_LOAD_LOCAL :: a :: op_byte OP_LOAD_LOCAL :: b :: op3 :: rest -> decode op3 = Some (stack_opcode t) ->
  drop p (fused c) = op_byte (locals_opcode t) :: a :: b :: 0 :: 0 :: rest' -> slot_ok fn b = true -> scanned c (p + 5) ->
  simulated n vm p o.
Proof.
  intros Hd Ht Hd' Hb Hs. pose proof (run_framed_S _ _ _ _ Hrun) as (Hf & _).
  destruct (run_load n vm p _ a _ o Hr Hd eq_refl Hrun Hbe) as (va & n1 & Ha & Hc & -> & H1).
  destruct (run_load n1 (with_stack (stack vm ++ [va]) vm) (p + 2) _ b (op3 :: rest) o Hr (drop_next _ 2 _ _ Hd) eq_refl H1 Hbe) as (vb & n2 & Hb' & Hc2 & -> & H2).
  rewrite local_app in Hb' by done. cbn [stack with_stack] in H2. rewrite <- app_assoc in H2.
  set (vm2 := with_stack (stack vm ++ [va; vb]) vm). change (run_framed F ss n2 vm2 (Z.of_nat (p + 2 + 2)) = Some o) in H2.
  assert (drop (p + 2 + 2) c = op3 :: rest) as Hd2 by (rewrite <- Nat.add_assoc; apply (drop_next _ 4 _ _ Hd)).
  pose proof (run_does n2 vm2 (p + 2 + 2) op3 _ rest o _ _ Hr Hd2 Ht (exec_typed_stack fn ss c t vm2 _ (stack vm) va vb eq_refl) H2 Hbe) as Ho.
  assert (drop (S p) (fused c) = a :: b :: 0 :: 0 :: rest') as Hd3 by (rewrite <- Nat.add_1_r; apply (drop_next _ 1 _ _ Hd')).
  eapply (simulated_does _ vm p _ _ _ o _ _ _ (p + 5) Hr Hd' (decode_op_byte _) (exec_typed_locals fn ss _ t vm (S p) a b 0 0 rest' va vb Hd3 Ha Hb')); [| |done|].
  3: { destruct (typed_result t va vb); [|done..]. exists n2. split; [lia|exact Ho]. }
  - intros v. rewrite push_ok by (try done; apply Hr). unfold with_stack. cbn. f_equal. lia.
  - intros v vm' q'. rewrite push_ok by (try done; apply Hr). intros [= <- <-]. split; [lia|done].
Qed.

Lemma simulated_A2 a x t op3 :
  drop p c = op_byte OP_LOAD_LOCAL :: a :: op_byte OP_CONST :: x :: op3 :: rest -> decode op3 = Some (stack_opcode t) ->
  drop p (fused c) = op_byte (local_const_opcode t) :: a :: x :: 0 :: 0 :: rest' -> constant_ok fn x = true ->
  scanned c (p + 5) -> simulated n vm p o.
Proof.
  intros Hd Ht Hd' Hx Hs.
  destruct (run_load n vm p _ a _ o Hr Hd eq_refl Hrun Hbe) as (va & n1 & Ha & Hc & -> & H1).
  destruct (run_const n1 (with_stack (stack vm ++ [va]) vm) (p + 2) _ x (op3 :: rest) o Hr (drop_next _ 2 _ _ Hd) eq_refl Hx H1 Hbe)
    as (k & n2 & Hk & Hc2 & -> & H2).
  cbn [stack with_stack] in H2. rewrite <- app_assoc in H2.
  set (vm2 := with_stack (stack vm ++ [va; constant_operand k]) vm).
  change (run_framed F ss n2 vm2 (Z.of_nat (p + 2 + 2)) = Some o) in H2.
  assert (drop (p + 2 + 2) c = op3 :: rest) as Hd2 by (rewrite <- Nat.add_assoc; apply (drop_next _ 4 _ _ Hd)).
  pose proof (run_does n2 vm2 (p + 2 + 2) op3 _ rest o _ _ Hr Hd2 Ht (exec_typed_stack fn ss c t vm2 _ (stack vm) va _ eq_refl) H2 Hbe) as Ho.
  assert (drop (S p) (fused c) = a :: x :: 0 :: 0 :: rest') as Hd3 by (rewrite <- Nat.add_1_r; apply (drop_next _ 1 _ _ Hd')).
  eapply (simulated_does _ vm p _ _ _ o _ _ _ (p + 5) Hr Hd' (decode_op_byte _)
    (exec_typed_local_const fn ss _ t vm (S p) a x 0 0 rest' va k Hd3 Ha Hx Hk)); [| |done|].
  3: { destruct (typed_result t va _); [|done..]. exists n2. split; [lia|exact Ho]. }
  - intros v. rewrite push_ok by (try done; apply Hr). unfold with_stack. cbn. f_equal. lia.
  - intros v vm' q'. rewrite push_ok by (try done; apply Hr). intros [= <- <-]. split; [lia|done].
Qed.

Lemma simulated_D b t op2 :
  drop p c = op_byte OP_LOAD_LOCAL :: b :: op2 :: rest -> decode op2 = Some (stack_opcode t) ->
  drop p (fused c) = op_byte (stack_local_opcode t) :: b :: 0 :: rest' -> scanned c (p + 3) -> simulated n vm p o.
Proof.
  intros Hd Ht Hd' Hs.
  destruct (run_load n vm p _ b _ o Hr Hd eq_refl Hrun Hbe) as (vb & n1 & Hb & Hc & -> & H1).
  destruct (last_cases (stack vm)) as [He|(s & va & He)]; [unfold local in Hb; by rewrite He in Hb|].
  assert (stack (with_stack (stack vm ++ [vb]) vm) = s ++ [va; vb]) as Hs1 by (simpl; by rewrite He, <- app_assoc).
  pose proof (run_does n1 (with_stack (stack vm ++ [vb]) vm) (p + 2) op2 _ rest o _ _ Hr (drop_next _ 2 _ _ Hd) Ht
    (exec_typed_stack fn ss c t _ _ s va vb Hs1) H1 Hbe) as Ho.
  assert (drop (S p) (fused c) = b :: 0 :: rest') as Hd3 by (rewrite <- Nat.add_1_r; apply (drop_next _ 1 _ _ Hd')).
  eapply (simulated_does _ vm p _ _ _ o _ _ _ (p + 3) Hr Hd' (decode_op_byte _)
    (exec_typed_stack_local fn ss _ t vm (S p) b 0 rest' s va vb Hd3 He Hb)); [| |done|].
  3: { destruct (typed_result t va _); [|done..]. exists n1. split; [lia|exact Ho]. }
  - intros v. unfold with_stack. cbn. f_equal. lia.
  - intros v vm' q' [= <- <-]. split; [lia|done].
Qed.

Lemma simulated_E x t op2 :
  drop p c = op_byte OP_CONST :: x :: op2 :: rest -> decode op2 = Some (stack_opcode t) ->
  drop p (fused c) = op_byte (stack_const_opcode t) :: x :: 0 :: rest' -> constant_ok fn x = true -> scanned c (p + 3) ->
  simulated n vm p o.
Proof.
  intros Hd Ht Hd' Hx Hs.
  destruct (run_const n vm p _ x _ o Hr Hd eq_refl Hx Hrun Hbe) as (k & n1 & Hk & Hc & -> & H1).
  assert (drop (S p) (fused c) = x :: 0 :: rest') as Hd3 by (rewrite <- Nat.add_1_r; apply (drop_next _ 1 _ _ Hd')).
  destruct (last_cases (stack vm)) as [He|(s & va & He)].
  - left. rewrite (step_op fn ss _ vm p _ _ _ Hr Hd' (decode_op_byte _)). eexists. split; [reflexivity|].
    rewrite exec_typed_stack_const_empty with (x := x) (u := 0) (r := rest') by done.
    apply run_framed_S in H1 as (_ & m & -> & H1).
    rewrite (step_op fn ss c _ (p + 2) op2 _ rest) in H1 by (try done; apply (drop_next _ 2 _ _ Hd)).
    rewrite (exec_typed_stack_short fn ss c t _ _ (constant_operand k)) in H1 by (cbn [stack with_stack]; by rewrite He).
    injection H1 as <-. done.
  - assert (stack (with_stack (stack vm ++ [constant_operand k]) vm) = s ++ [va; constant_operand k]) as Hs1
      by (simpl; by rewrite He, <- app_assoc).
    pose proof (run_does n1 (with_stack (stack vm ++ [constant_operand k]) vm) (p + 2) op2 _ rest o _ _ Hr (drop_next _ 2 _ _ Hd) Ht
      (exec_typed_stack fn ss c t _ _ s va _ Hs1) H1 Hbe) as Ho.
    eapply (simulated_does _ vm p _ _ _ o _ _ _ (p + 3) Hr Hd' (decode_op_byte _)
      (exec_typed_stack_const fn ss _ t vm (S p) x 0 rest' s va k Hd3 He Hx Hk)); [| |done|].
    3: { destruct (typed_result t va _); [|done..]. exists n1. split; [lia|exact Ho]. }
    + intros v. unfold with_stack. cbn. f_equal. lia.
    + intros v vm' q' [= <- <-]. split; [lia|done].
Qed.

Lemma simulated_N x b t op2 y :
  drop p c = op_byte OP_CONST :: x :: op2 :: b :: y :: rest -> decode op2 = Some (stack_local_opcode t) -> commutes t = true ->
  drop p (fused c) = op_byte (local_const_opcode t) :: b :: x :: 0 :: 0 :: rest' -> constant_ok fn x = true ->
  slot_ok fn b = true -> scanned c (p + 5) -> simulated n vm p o.
Proof.
  intros Hd Ht Hcomm Hd' Hx Hb Hs. pose proof (run_framed_S _ _ _ _ Hrun) as (Hf & _).
  destruct (run_const n vm p _ x _ o Hr Hd eq_refl Hx Hrun Hbe) as (k & n1 & Hk & Hc & -> & H1).
  assert (drop (S p) (fused c) = b :: x :: 0 :: 0 :: rest') as Hd3 by (rewrite <- Nat.add_1_r; apply (drop_next _ 1 _ _ Hd')).
  assert (exists vb, local ss vm b = Some vb) as [vb Hvb].
  { unfold local. apply lookup_lt_is_Some_2. unfold framed, slot_ok in *. lia. }
  assert (drop (S (p + 2)) c = b :: y :: rest) as Hd2 by (rewrite <- Nat.add_1_r, <- Nat.add_assoc; apply (drop_next _ 3 _ _ Hd)).
  assert (local ss (with_stack (stack vm ++ [constant_operand k]) vm) b = Some vb) as Hvb2 by (by rewrite local_app).
  pose proof (run_does n1 (with_stack (stack vm ++ [constant_operand k]) vm) (p + 2) op2 _ (b :: y :: rest) o _ _ Hr
    (drop_next _ 2 _ _ Hd) Ht (exec_typed_stack_local fn ss c t (with_stack (stack vm ++ [constant_operand k]) vm)
      (S (p + 2)) b y rest (stack vm) _ vb Hd2 eq_refl Hvb2) H1 Hbe) as Ho.
  rewrite typed_result_comm in Ho by done.
  eapply (simulated_does _ vm p _ _ _ o _ _ _ (p + 5) Hr Hd' (decode_op_byte _)
    (exec_typed_local_const fn ss _ t vm (S p) b x 0 0 rest' vb k Hd3 Hvb Hx Hk)); [| |done|].
  3: { destruct (typed_result t vb _); [|done..]. exists n1. split; [lia|exact Ho]. }
  - intros v. rewrite push_ok by (try done; apply Hr). unfold with_stack. cbn. f_equal. lia.
  - intros v vm' q'. rewrite push_ok by (try done; apply Hr). intros [= <- <-]. split; [lia|done].
Qed.

Lemma with_stack_self (v : VM) : with_stack (stack v) v = v.
Proof. by destruct v. Qed.
Lemma pop_snoc v x : pop (with_stack (stack v ++ [x]) v) = (x, v).
Proof. unfold pop. cbn [stack with_stack]. rewrite last_snoc, removelast_last. by destruct v. Qed.

Lemma simulated_M a b t op1 dst x y :
  drop p c = op1 :: a :: b :: x :: y :: op_byte OP_STORE_LOCAL :: dst :: rest -> decode op1 = Some (locals_opcode t) ->
  t = TInt IMul \/ t = TDouble DMul ->
  drop p (fused c) = op_byte (mul_opcode t) :: dst :: a :: b :: 0 :: 0 :: 0 :: rest' -> scanned c (p + 7) -> simulated n vm p o.
Proof.
  intros Hd Ht Hmul Hd' Hs.
  assert (drop (S p) c = a :: b :: x :: y :: op_byte OP_STORE_LOCAL :: dst :: rest) as Hd1
    by (rewrite <- Nat.add_1_r; apply (drop_next _ 1 _ _ Hd)).
  assert (drop (S p) (fused c) = dst :: a :: b :: 0 :: 0 :: 0 :: rest') as Hd3 by (rewrite <- Nat.add_1_r; apply (drop_next _ 1 _ _ Hd')).
  assert (exists va vb, local ss vm a = Some va /\ local ss vm b = Some vb) as (va & vb & Ha & Hvb).
  { destruct (local ss vm a) as [va|] eqn:Ha, (local ss vm b) as [vb|] eqn:Hb; [eauto|exfalso..];
      apply run_framed_S in Hrun as (_ & m & -> & H); rewrite (step_op fn ss c vm p _ _ _ Hr Hd Ht) in H;
      rewrite (exec_typed_locals_missing fn ss c t vm (S p) a b x y _ Hd1) in H by eauto; by simplify_eq. }
  pose proof (run_does n vm p op1 _ _ o _ _ Hr Hd Ht (exec_typed_locals fn ss c t vm (S p) a b x y _ va vb Hd1 Ha Hvb) Hrun Hbe) as Ho.
  eapply (simulated_does _ vm p _ _ _ o _ _ _ (p + 7) Hr Hd' (decode_op_byte _)
    (exec_typed_mul_to_local fn ss _ t vm (S p) dst a b 0 0 0 rest' va vb Hd3 Hmul Ha Hvb)); [done| |done|].
  - intros v vm' q'. unfold store_result. destruct (set_local ss vm dst v) as [vm1|] eqn:E; [|done]. intros [= <- <-].
    split; [lia|]. by apply set_local_config in E.
  - destruct (typed_result t va vb) as [v| | |]; [|done..]. destruct Ho as (m & Hm & Ho). exists m. split; [lia|].
    destruct (decide (count vm < max_stack_size (config vm))) as [Hc|Hc].
    2: { rewrite push_full in Ho by lia. by apply overflow_not_benign in Ho. }
    rewrite push_ok in Ho by (try done; apply Hr). replace (Z.of_nat (S p) + 4) with (Z.of_nat (p + 5)) in Ho by lia.
    apply run_framed_S in Ho as (_ & k & -> & Ho).
    rewrite (step_op fn ss c _ (p + 5) _ OP_STORE_LOCAL (dst :: rest)) in Ho by (try done; apply (drop_next _ 5 _ _ Hd)).
    rewrite (exec_store fn ss c _ (S (p + 5)) dst rest) in Ho
      by (rewrite <- Nat.add_1_r, <- Nat.add_assoc; apply (drop_next _ 6 _ _ Hd)).
    rewrite pop_snoc in Ho. unfold store_result, continues. destruct (set_local ss vm dst v) as [vm1|]; [|by simplify_eq].
    exists k. split; [lia|]. by replace (Z.of_nat (S p) + 6) with (Z.of_nat (S (p + 5)) + 1) by lia.
Qed.

Lemma simulated_J hi lo :
  drop p c = op_byte OP_JUMP_IF_FALSE :: hi :: lo :: op_byte OP_POP :: rest ->
  drop p (fused c) = op_byte OP_JUMP_IF_FALSE_POP :: hi :: lo :: 0 :: rest' ->
  (exists q, Z.of_nat p + (3 + offset16 hi lo) = Z.of_nat q /\ scanned c q) -> scanned c (p + 4) -> simulated n vm p o.
Proof.
  intros Hd Hd' (q & Hq & Hsq) Hs. apply run_framed_S in Hrun as (Hf & m & -> & H).
  rewrite (step_op fn ss c vm p _ OP_JUMP_IF_FALSE _ Hr Hd (decode_op_byte _)) in H.
  rewrite (exec_jump_false fn ss c vm (S p) hi lo (op_byte OP_POP :: rest)) in H by (rewrite <- Nat.add_1_r; apply (drop_next _ 1 _ _ Hd)).
  unfold simulated. rewrite (step_op fn ss (fused c) vm p _ OP_JUMP_IF_FALSE_POP _ Hr Hd' (decode_op_byte _)).
  rewrite (exec_jump_false_pop fn ss (fused c) vm (S p) hi lo 0 rest') by (rewrite <- Nat.add_1_r; apply (drop_next _ 1 _ _ Hd')).
  unfold peek0 in *. destruct (last_cases (stack vm)) as [He|(s & v & He)].
  { rewrite He in *. simpl in H |- *. injection H as <-. left. eexists. split; [reflexivity|done]. }
  rewrite He, last_snoc in *. destruct v; try (injection H as <-; left; eexists; split; [reflexivity|done]).
  destruct b; cbn [negb] in *.
  - right. replace (Z.of_nat (S p) + 2) with (Z.of_nat (p + 3)) in H by lia. apply run_framed_S in H as (_ & k & -> & H).
    rewrite (step_op fn ss c vm (p + 3) _ OP_POP rest Hr (drop_next _ 3 _ _ Hd) (decode_op_byte _)) in H. cbn [exec] in H.
    exists (snd (pop vm)), (p + 4)%nat, k. split; [lia|].
    replace (Z.of_nat (p + 4)) with (Z.of_nat (S (p + 3))) by lia. split; [done|].
    replace (Z.of_nat (S (p + 3))) with (Z.of_nat (S p) + 3) by lia. split; [done|]. rewrite pop_config. split; [apply Hr|done].
  - right. exists vm, q, m. split; [lia|]. replace (Z.of_nat q) with (Z.of_nat (S p) + (2 + offset16 hi lo)) by lia.
    split; [done|]. split; [done|]. split; [apply Hr|done].
Qed.

(** An addition to a local as a step of its own. *)
Lemma add_local_const_steps v a x : constant_ok fn x = true ->
  exists r : outcome + VM,
    (forall k, add_local_const F ss false v a x k = match r with inl o => o | inr v' => k v' end) /\
    (forall k, add_local_const F' ss false v a x k = match r with inl o => o | inr v' => k v' end) /\
    match r with inl o => o = Undefined \/ o = fail v "Operands must be numbers" | inr v' => config v' = config v /\ error_message v' = error_message v end.
Proof.
  intros Hx. destruct (push_constant fn c v x 0 Hx) as (k & Hk & _).
  assert (forall d K, with_constant (recode d fn) v x K = K k) as Hw by (intros; by apply (with_constant_ok fn)).
  assert (forall w, exists r, set_local ss v a w = r /\ match r with Some v' => config v' = config v /\ error_message v' = error_message v | None => True end) as Hset.
  { intros w. eexists. split; [reflexivity|]. unfold set_local. by destruct (local ss v a). }
  unfold add_local_const. setoid_rewrite Hw. unfold with_local. destruct (local ss v a) as [va|]; [|exists (inl Undefined); eauto].
  destruct va; try (eexists (inl _); split; [reflexivity|]; split; [reflexivity|]; by right).
  - destruct (int_constant k); [|eexists (inl _); split; [reflexivity|]; split; [reflexivity|]; by right].
    destruct (int_arith IAdd i z) as [r|]; [|exists (inl Undefined); eauto].
    destruct (Hset (VAL_INT r)) as ([v'|] & -> & Hv); [exists (inr v')|exists (inl Undefined)]; eauto.
  - destruct (double_constant k); [|eexists (inl _); split; [reflexivity|]; split; [reflexivity|]; by right].
    destruct (Hset (VAL_DOUBLE (double_arith DAdd bits z))) as ([v'|] & -> & Hv); [exists (inr v')|exists (inl Undefined)]; eauto.
Qed.

Lemma simulated_L a x b y :
  drop p c = op_byte OP_ADD_LOCAL_CONST :: a :: x :: op_byte OP_ADD_LOCAL_CONST :: b :: y :: rest ->
  drop p (fused c) = op_byte OP_ADD2_LOCAL_CONST :: a :: x :: b :: y :: 0 :: rest' ->
  constant_ok fn x = true -> constant_ok fn y = true -> scanned c (p + 6) -> simulated n vm p o.
Proof.
  intros Hd Hd' Hx Hy Hs. apply run_framed_S in Hrun as (Hf & m & -> & H).
  rewrite (step_op fn ss c vm p _ OP_ADD_LOCAL_CONST _ Hr Hd (decode_op_byte _)) in H.
  rewrite (exec_add_local_const fn ss c vm (S p) a x _) in H by (rewrite <- Nat.add_1_r; apply (drop_next _ 1 _ _ Hd)).
  unfold simulated. rewrite (step_op fn ss (fused c) vm p _ OP_ADD2_LOCAL_CONST _ Hr Hd' (decode_op_byte _)).
  rewrite (exec_add2_local_const fn ss (fused c) vm (S p) a x b y 0 rest') by (rewrite <- Nat.add_1_r; apply (drop_next _ 1 _ _ Hd')).
  destruct (push_constant fn c vm x 0 Hx) as (kx & Hkx & _). destruct (push_constant fn c vm y 0 Hy) as (ky & Hky & _).
  rewrite (with_constant_ok fn (fused c) vm x _ kx Hx Hkx), (with_constant_ok fn (fused c) vm y _ ky Hy Hky).
  destruct (add_local_const_steps vm a x Hx) as (r & Hr1 & Hr2 & Hr3). rewrite Hr1 in H. rewrite Hr2.
  destruct r as [o1|vm1].
  { left. exists o1. split; [done|]. destruct Hr3 as [-> | ->]; injection H as <-; done. }
  destruct Hr3 as [Hc1 He1]. replace (Z.of_nat (S p) + 2) with (Z.of_nat (p + 3)) in H by lia.
  assert (ready vm1) as Hr' by (unfold ready in *; by rewrite Hc1, He1).
  apply run_framed_S in H as (_ & k & -> & H).
  rewrite (step_op fn ss c vm1 (p + 3) _ OP_ADD_LOCAL_CONST _ Hr' (drop_next _ 3 _ _ Hd) (decode_op_byte _)) in H.
  rewrite (exec_add_local_const fn ss c vm1 (S (p + 3)) b y rest) in H by (rewrite <- Nat.add_1_r, <- Nat.add_assoc; apply (drop_next _ 4 _ _ Hd)).
  destruct (add_local_const_steps vm1 b y Hy) as (r & Hq1 & Hq2 & Hq3). rewrite Hq1 in H. rewrite Hq2.
  destruct r as [o2|vm2].
  { left. exists o2. split; [done|]. destruct Hq3 as [-> | ->]; injection H as <-; done. }
  right. exists vm2, (p + 6)%nat, k. split; [lia|]. replace (Z.of_nat (p + 6)) with (Z.of_nat (S (p + 3)) + 2) by lia.
  split; [done|]. replace (Z.of_nat (S (p + 3)) + 2) with (Z.of_nat (S p) + 5) by lia. split; [done|].
  destruct Hq3 as [-> _]. split; [apply Hr'|done].
Qed.
End Group.

Lemma unmodelled_run n vm p b op r o :
  ready vm -> drop p c = b :: r -> decode b = Some op -> (forall v i, exec F ss op v i = Unmodelled) ->
  run_framed F ss n vm (Z.of_nat p) = Some o -> benign o -> False.
Proof.
  intros Hr Hd Hb Hu H Hbe. apply run_framed_S in H as (_ & m & -> & H).
  rewrite (step_op fn ss c vm p b op r Hr Hd Hb), Hu in H. by simplify_eq.
Qed.

Lemma unmodelled_after_load n vm p a b op r o :
  ready vm -> drop p c = op_byte OP_LOAD_LOCAL :: a :: b :: r -> decode b = Some op -> (forall v i, exec F ss op v i = Unmodelled) ->
  run_framed F ss n vm (Z.of_nat p) = Some o -> benign o -> False.
Proof.
  intros Hr Hd Hb Hu H Hbe. destruct (run_load n vm p _ a _ o Hr Hd eq_refl H Hbe) as (v & m & _ & _ & -> & H1).
  by apply (unmodelled_run m (with_stack (stack vm ++ [v]) vm) (p + 2) b op r o Hr (drop_next _ 2 _ _ Hd) Hb Hu).
Qed.

Context (Hok : fusion_ok fn c = true).

Lemma fusion_ok_at p : scanned c p -> (p < length c)%nat ->
  target_ok c p = true /\ forall new rest, fuse (drop p c) = Some (new, rest) -> operands_ok fn new = true.
Proof.
  intros Hs Hp. unfold fusion_ok in Hok. rewrite forallb_forall in Hok.
  pose proof (Hok p (proj1 (list_elem_of_In _ _) (scanned_positions c p Hs Hp))) as H.
  apply andb_true_iff in H as [H1 H2]. split; [done|]. intros new rest Hf. by rewrite Hf in H2.
Qed.

Lemma jump_scanned p d : scanned c p -> (p < length c)%nat -> jump_target (drop p c) = Some d ->
  exists q, Z.of_nat p + d = Z.of_nat q /\ scanned c q.
Proof.
  intros Hs Hp Hj. destruct (fusion_ok_at p Hs Hp) as [Ht _]. unfold target_ok in Ht. rewrite Hj in Ht.
  apply andb_true_iff in Ht as [H1 H2]. apply bool_decide_eq_true in H2. exists (Z.to_nat (Z.of_nat p + d)).
  split; [lia|]. by apply (positions_scanned c (length c) 0); [constructor|].
Qed.

Ltac use_group :=
  try match goal with
  | H : ?P |- ?P => exact H
  | H : drop ?p (fused c) = _ |- drop ?p (fused c) = _ => exact H
  | H : scanned c _ |- scanned c _ => exact H
  | H : drop ?p c = _ |- drop ?p c = _ => exact H
  end.

Lemma simulated_fused n vm p new rest o :
  scanned c p -> ready vm -> fuse (drop p c) = Some (new, rest) -> run_framed F ss n vm (Z.of_nat p) = Some o -> benign o ->
  simulated n vm p o.
Proof.
  intros Hs Hr Hf H Hb. pose proof (fuse_length _ _ _ Hf) as [_ Hl]. rewrite length_drop in Hl.
  destruct (fusion_ok_at p Hs ltac:(lia)) as [_ Hop]. specialize (Hop new rest Hf).
  assert (scanned c (p + length new)) as Hn.
  { pose proof (scanned_next c p Hs) as Hn. unfold advance in Hn. by rewrite Hf in Hn. }
  assert (drop p (fused c) = new ++ fused rest) as Hd' by (by rewrite (fused_suffix c p Hs), fused_unfold, Hf).
  assert (forall d, jump_target (drop p c) = Some d -> exists q, Z.of_nat p + d = Z.of_nat q /\ scanned c q) as Hj
    by (intros d; apply jump_scanned; [done|lia]).
  destruct (first_match_in _ _ _ Hf) as (pat & Hp & Hm). clear Hf Hl.
  unfold patterns in Hp. repeat (apply elem_of_cons in Hp as [-> | Hp]); [..|by apply elem_of_nil in Hp].
  - destruct (pattern_J_inv _ _ _ Hm) as (hi & lo & Hd & ->).
    eapply simulated_J; use_group. apply Hj. by rewrite Hd.
  - destruct (pattern_global_inv _ _ _ Hm) as (r & Hd). exfalso. by eapply unmodelled_run; eauto using decode_op_byte.
  - destruct (pattern_K_inv _ _ _ Hm) as (b & r & op & Hd & Ho & Hu). exfalso. by eapply unmodelled_run; eauto.
  - destruct (pattern_M_inv _ _ _ Hm) as (op1 & a & b & x & y & dst & t & Hd & Ht & Hmul & ->). eapply simulated_M; use_group; eauto.
  - destruct (pattern_evalA_inv _ _ _ Hm) as (a & r & ->). by vm_compute in Hop.
  - destruct (pattern_L_inv _ _ _ Hm) as (a & x & b & y & Hd & ->). apply operands_add2 in Hop as [? ?]. eapply simulated_L; use_group; eauto.
  - destruct (pattern_A_inv _ _ _ Hm) as (a & b & op3 & t & Hd & Ht & ->). apply operands_locals in Hop. eapply simulated_A; use_group; eauto.
  - destruct (pattern_A2_inv _ _ _ Hm) as (a & x & op3 & t & Hd & Ht & ->). apply operands_local_const in Hop as [? ?].
    eapply simulated_A2; use_group; eauto.
  - destruct (pattern_B_inv _ _ _ Hm) as (x & Hd). exfalso. by eapply unmodelled_after_load; eauto using decode_op_byte.
  - destruct (pattern_C_inv _ _ _ Hm) as (x & Hd). exfalso. by eapply unmodelled_after_load; eauto using decode_op_byte.
  - destruct (pattern_D_inv _ _ _ Hm) as (b & op2 & t & Hd & Ht & ->). eapply simulated_D; use_group; eauto.
  - destruct (pattern_E_inv _ _ _ Hm) as (x & op2 & t & Hd & Ht & ->). apply operands_stack_const in Hop. eapply simulated_E; use_group; eauto.
  - destruct (pattern_N_inv _ _ _ Hm) as (x & op2 & b & y & t & Hd & Ht & Hc & ->). apply operands_local_const in Hop as [? ?].
    eapply simulated_N; use_group; eauto.
Qed.

Lemma unfused_step vm p : scanned c p -> fuse (drop p c) = None -> step F ss vm (Z.of_nat p) = step F' ss vm (Z.of_nat p).
Proof.
  intros Hs Hf. assert (drop p (fused c) = take (advance (drop p c)) (drop p c) ++ fused (drop (advance (drop p c)) (drop p c))) as Hd'
    by (by rewrite (fused_suffix c p Hs), fused_unfold, Hf).
  unfold advance in Hd'. rewrite Hf in Hd'. destruct (drop p c) as [|b r] eqn:Hd.
  - unfold step. destruct (error_message vm); [done|]. destruct (_ && _); [done|]. rewrite (ensure_agree fn c (fused c))
      by (by rewrite length_fused). unfold ensure. simpl. rewrite length_fused. apply (f_equal length) in Hd. rewrite length_drop in Hd.
    simpl in Hd. by assert ((Z.of_nat p <? 0) || (Z.of_nat (length c) <? Z.of_nat p + 1) = true) as -> by lia.
  - pose proof (instruction_len_pos b) as Hl.
    assert (exists r', drop p (fused c) = b :: r') as [r' Hd2].
    { rewrite Hd'. destruct (peephole_instruction_len b); [lia|]. simpl. eauto. }
    destruct (decode b) as [op|] eqn:Hb.
    + apply (step_agree fn ss c (fused c) ltac:(by rewrite length_fused) vm p b op r r'); [done..|].
      rewrite Hd', Hd. unfold peephole_instruction_len. rewrite Hb.
      rewrite take_app, take_take, Nat.min_id.
      destruct (decide (op_len op <= length (b :: r))%nat) as [Hle|Hgt].
      * rewrite length_take, (Nat.min_l _ _ Hle), Nat.sub_diag, take_0. by rewrite app_nil_r.
      * assert (drop (op_len op) (b :: r) = []) as -> by (apply drop_ge; lia).
        assert (fused [] = []) as -> by done. by rewrite take_nil, app_nil_r.
    + unfold step. destruct (error_message vm); [done|]. destruct (_ && _); [done|].
      rewrite (ensure_agree fn c (fused c)) by (by rewrite length_fused). f_equal.
      rewrite !code_at_0, Hd, Hd2. cbn [nth]. by rewrite Hb.
Qed.

Lemma next_scanned vm p vm' q : scanned c p -> (p < length c)%nat -> ready vm -> fuse (drop p c) = None ->
  step F ss vm (Z.of_nat p) = Continue vm' q ->
  config vm' = config vm /\ exists q', q = Z.of_nat q' /\ scanned c q'.
Proof.
  intros Hs Hp Hr Hf H. destruct (drop p c) as [|b r] eqn:Hd.
  { apply (f_equal length) in Hd. rewrite length_drop in Hd. simpl in Hd. lia. }
  destruct (decode b) as [op|] eqn:Hb.
  - rewrite (step_op fn ss c vm p b op r Hr Hd Hb) in H.
    destruct (exec_next fn ss c op vm p b r vm' q Hd Hb H) as [[-> | (d & Hj & ->)] Hc]; split; try done.
    + exists (p + op_len op)%nat. split; [done|]. pose proof (scanned_next c p Hs) as Hn.
      unfold advance, peephole_instruction_len in Hn. by rewrite Hd, Hf, Hb in Hn.
    + by apply jump_scanned.
  - unfold step in H. destruct Hr as [He Hm]. rewrite He in H.
    assert (0 <? max_instructions (config vm) = false) as Hl by lia. rewrite Hl in H. cbn [andb] in H.
    rewrite ensure_true in H by (rewrite Hd; simpl; lia). rewrite code_at_0, Hd in H. cbn [nth] in H. by rewrite Hb in H.
Qed.

Lemma run_framed_halt n vm p o : framed vm -> step F' ss vm p = o -> (forall vm' q, o <> Continue vm' q) ->
  run_framed F' ss (S n) vm p = Some o.
Proof.
  intros Hf <- Hn. cbn [run_framed]. unfold framed in Hf. change (local_count F') with (local_count fn).
  assert (Z.of_nat (length (stack vm)) <? Z.of_nat ss + local_count fn = false) as -> by lia.
  destruct (step F' ss vm p); try done. by destruct (Hn vm0 ip).
Qed.

Lemma run_framed_step n vm p vm' q : framed vm -> step F' ss vm p = Continue vm' q ->
  run_framed F' ss (S n) vm p = run_framed F' ss n vm' q.
Proof.
  intros Hf Hn. cbn [run_framed]. unfold framed in Hf. change (local_count F') with (local_count fn).
  assert (Z.of_nat (length (stack vm)) <? Z.of_nat ss + local_count fn = false) as -> by lia. by rewrite Hn.
Qed.

(** One pass keeps what the code does. *)
Lemma pass_simulates n : forall vm p o,
  scanned c p -> max_instructions (config vm) <= 0 -> run_framed F ss n vm (Z.of_nat p) = Some o -> benign o ->
  exists m o', run_framed F' ss m vm (Z.of_nat p) = Some o' /\ same_outcome o o'.
Proof.
  induction n as [n IH] using lt_wf_ind. intros vm p o Hs Hm H Hb.
  pose proof (run_framed_S _ _ _ _ H) as (Hf & m & -> & H1).
  assert (forall o', step F' ss vm (Z.of_nat p) = o' -> same_outcome o o' ->
    exists m o', run_framed F' ss m vm (Z.of_nat p) = Some o' /\ same_outcome o o') as Hhalt.
  { intros o' Ho Hso. exists 1%nat, o'. split; [|done]. apply run_framed_halt; [done..|].
    intros vm' q ->. destruct o; simpl in Hso; try done. }
  destruct (error_message vm) as [msg|] eqn:He.
  { apply (Hhalt (Halted vm)).
    - unfold step. by rewrite He.
    - rewrite (run_framed_error _ _ _ _ _ He H). apply same_outcome_refl. }
  assert (ready vm) as Hr by done.
  destruct (fuse (drop p c)) as [[new rest]|] eqn:Hfu.
  - destruct (simulated_fused (S m) vm p new rest o Hs Hr Hfu H Hb) as [(o' & Ho & Hso)|(vm' & q & k & Hk & Hrun & Hst & Hm' & Hq)].
    + by apply (Hhalt o').
    + destruct (IH k Hk vm' q o Hq Hm' Hrun Hb) as (m' & o' & Hr' & Hso). exists (S m'), o'. split; [|done].
      by rewrite (run_framed_step m' vm _ vm' (Z.of_nat q)).
  - pose proof (unfused_step vm p Hs Hfu) as Hst. destruct (step F ss vm (Z.of_nat p)) as [vm' q| | | | |] eqn:Hsf;
      try (simplify_eq; by apply (Hhalt _ (eq_sym Hst)), same_outcome_refl).
    destruct (decide (p < length c)%nat) as [Hp|Hp].
    + destruct (next_scanned vm p vm' q Hs Hp Hr Hfu Hsf) as [Hc (q' & -> & Hq)].
      destruct (IH m ltac:(lia) vm' q' o Hq ltac:(by rewrite Hc) H1 Hb) as (m' & o' & Hr' & Hso). exists (S m'), o'. split; [|done].
      by rewrite (run_framed_step m' vm _ vm' (Z.of_nat q')).
    + exfalso. unfold step in Hsf. rewrite He in Hsf. destruct (_ && _); [done|]. unfold ensure in Hsf. simpl in Hsf.
      by assert ((Z.of_nat p <? 0) || (Z.of_nat (length c) <? Z.of_nat p + 1) = true) as E by lia; rewrite E in Hsf.
Qed.
End Pass.

(** ** All rounds *)

Lemma recode_recode d c fn : recode d (recode c fn) = recode d fn.
Proof. done. Qed.

Lemma rounds_simulate fn ss n : forall c m vm o,
  rounds_ok fn n c = true -> max_instructions (config vm) <= 0 ->
  run_framed (recode c fn) ss m vm 0 = Some o -> benign o ->
  exists m' o', run_framed (recode (superinstruction_rounds n c) fn) ss m' vm 0 = Some o' /\ same_outcome o o'.
Proof.
  induction n as [|n IH]; intros c m vm o Hok Hm H Hb; cbn [superinstruction_rounds rounds_ok] in *.
  { exists m, o. split; [done|apply same_outcome_refl]. }
  apply andb_true_iff in Hok as [H1 H2].
  destruct (pass_simulates fn ss c H1 m vm 0%nat o ltac:(constructor) Hm H Hb) as (m1 & o1 & Hr1 & Ho1).
  unfold fused in *. destruct (superinstruction_pass c) as [c' ch]. cbn [fst] in *. destruct ch; [|eauto].
  destruct (IH c' m1 vm o1 H2 Hm Hr1 (same_outcome_benign _ _ Ho1 Hb)) as (m2 & o2 & Hr2 & Ho2).
  exists m2, o2. split; [done|]. by eapply same_outcome_trans.
Qed.

Lemma recode_same c fn : code (chunk fn) = Some c -> code_count (chunk fn) = Z.of_nat (length c) -> recode c fn = fn.
Proof. destruct fn as [[] ]. simpl. intros -> ->. done. Qed.

Lemma enter_config vm fn base argc vm0 ip :
  vm_enter_sync_function_from_call vm fn base argc = Continue vm0 ip -> config vm0 = config vm.
Proof.
  unfold vm_enter_sync_function_from_call, push_nil_count, vm_stack_reserve, fail, vm_runtime_error.
  intros H. repeat (case_match; try discriminate H); by injection H as <- _.
Qed.

(** A short function is left alone; the others are fused up to three times. *)
Lemma optimize_simulates fn ss c m vm o :
  rounds_ok fn 3 c = true -> max_instructions (config vm) <= 0 -> run_framed (recode c fn) ss m vm 0 = Some o -> benign o ->
  exists m' o', run_framed (recode (superinstruction_optimize c) fn) ss m' vm 0 = Some o' /\ same_outcome o o'.
Proof.
  intros Hok Hm H Hb. unfold superinstruction_optimize. destruct (length c <? 3)%nat.
  - exists m, o. split; [done|apply same_outcome_refl].
  - by eapply rounds_simulate.
Qed.

(** ** Properties *)

(** C11: fusing instructions keeps what a function does. When the code passes
    [rounds_ok] (no jump leads into the middle of a fused group, and operands
    name locals and constants of the function), a call that the original code
    carries to a result or to an error, with the locals on the stack
    throughout, is carried by the code of [superinstruction_optimize] to the
    same result or the same error. *)
Theorem superinstruction_correct fn c vm base argc vm0 fuel o :
  code (chunk fn) = Some c -> code_count (chunk fn) = Z.of_nat (length c) -> rounds_ok fn 3 c = true ->
  max_instructions (config vm) <= 0 ->
  vm_enter_sync_function_from_call vm fn (Z.of_nat base) argc = Continue vm0 0 ->
  run_framed fn base fuel vm0 0 = Some o -> benign o ->
  interpret fuel vm fn base argc = Some o /\
  exists fuel' o',
    interpret fuel' vm (recode (superinstruction_optimize c) fn) base argc = Some o' /\ same_outcome o o'.
Proof.
  intros Hc Hn Hok Hm He Hr Hb.
  assert (config vm0 = config vm) as Hcfg by by eapply enter_config.
  assert (run_framed (recode c fn) base fuel vm0 0 = Some o) as Hr' by by rewrite recode_same.
  destruct (optimize_simulates fn base c fuel vm0 o Hok ltac:(by rewrite Hcfg) Hr' Hb) as (m' & o' & H1 & H2).
  split; [unfold interpret; rewrite He; by apply run_framed_run|].
  exists m', o'. split; [|done]. unfold interpret.
  change (vm_enter_sync_function_from_call vm (recode (superinstruction_optimize c) fn) (Z.of_nat base) argc)
    with (vm_enter_sync_function_from_call vm fn (Z.of_nat base) argc). rewrite He. by apply run_framed_run.
Qed.

(** *** Instances *)

Definition function_of (params locals : Z) (c : list Z) (ks : list constant_payload) : ObjFunction :=
  mkFunction (mkChunk (Some c) None (Z.of_nat (length c)) (Z.of_nat (length c)))
    (mkPool (Some (map (fun k => mkConstant k 0) ks)) (Z.of_nat (length ks)) (Z.of_nat (length ks)))
    params locals None 0 None false (-1) (-1) None None
    (jit_profile (obj_function_create (0, 0))) (jit_hint_plan (obj_function_create (0, 0))).
Definition called_with (args : list Value) : VM := mkVM args 1 0 None (mkConfig 16 64 1024 0).
Definition assemble (l : list (OpCode * list Z)) : list Z := concat (map (fun '(op, operands) => op_byte op :: operands) l).

(** [while (n > 0) { acc = acc + n; n = n - 1; } return acc * 2;] *)
Definition sum_code : list Z :=
  assemble
    [(OP_JUMP_IF_LOCAL_LE_CONST, [0; 0; 0; 13]); (OP_LOAD_LOCAL, [1]); (OP_LOAD_LOCAL, [0]); (OP_ADD_INT, []);
     (OP_STORE_LOCAL, [1]); (OP_SUB_LOCAL_CONST, [0; 1]); (OP_JUMP, [255; 238]); (OP_LOAD_LOCAL, [1]); (OP_CONST, [2]);
     (OP_MUL_INT, []); (OP_RET, [])].
Definition sum_function : ObjFunction := function_of 2 2 sum_code [as_int 0; as_int 1; as_int 2].

Lemma superinstruction_correct_witness :
  length (scan_positions (superinstruction_optimize sum_code)) = 7%nat /\
  interpret 40 (called_with [VAL_INT 4; VAL_INT 0]) sum_function 0 2 = Some (Finished (called_with [VAL_INT 20])) /\
  exists fuel' o',
    interpret fuel' (called_with [VAL_INT 4; VAL_INT 0]) (recode (superinstruction_optimize sum_code) sum_function) 0 2 = Some o' /\
    same_outcome (Finished (called_with [VAL_INT 20])) o'.
Proof.
  split; [vm_compute; reflexivity|].
  apply (superinstruction_correct sum_function sum_code (called_with [VAL_INT 4; VAL_INT 0]) 0 2
           (mkVM [VAL_INT 4; VAL_INT 0] 2 0 None (mkConfig 16 64 1024 0)) 40 (Finished (called_with [VAL_INT 20]))).
  - reflexivity.
  - reflexivity.
  - vm_compute. reflexivity.
  - simpl. lia.
  - reflexivity.
  - vm_compute. reflexivity.
  - exact I.
Defined.

(** [if (a < b) { x = x + 1; } y = y + 1; return y;] as [compile_if] and
    [compile_assign] emit it: the jump over the first assignment leads to the
    second one. *)
Definition guarded_code : list Z :=
  assemble
    [(OP_JUMP_IF_LOCAL_GE, [0; 1; 0; 3]); (OP_ADD_LOCAL_CONST, [2; 0]); (OP_ADD_LOCAL_CONST, [3; 0]); (OP_LOAD_LOCAL, [3]);
     (OP_RET, [])].
Definition guarded_function : ObjFunction := function_of 4 4 guarded_code [as_int 1].

(** The fusion does not look at jump targets. In this function the jump
    over the first assignment lands inside the fused instruction: for [a = 4],
    [b = 0] and [y = 20] the function returns 21 before the pass and 20 after
    it. *)
Theorem superinstruction_defect :
  rounds_ok guarded_function 3 guarded_code = false /\
  let vm := called_with [VAL_INT 4; VAL_INT 0; VAL_INT 10; VAL_INT 20] in
  interpret 10 vm guarded_function 0 4 = Some (Finished (called_with [VAL_INT 21])) /\
  interpret 10 vm (recode (superinstruction_optimize guarded_code) guarded_function) 0 4 = Some (Finished (called_with [VAL_INT 20])).
Proof. vm_compute. done. Qed.
