(* ===== verification/Eval.v ===== *)
(** * Meaning of expressions

    The value of an expression of the syntax tree under values for its
    variables: operands from left to right, [&&] and [||] by need, operators
    and conversions as the machine computes them. An evaluation gives a value,
    fails with a message, or has no defined result where an [int64_t]
    overflows. This is the reference for constant folding, for the type checker
    and for code generation. *)

From S2P Require Import Prelude Lexer.
From Stdlib Require Import String SpecFloat.
From S2P Require Import Doubles BigIntObj BigIntText Values Bytecode Ast Operators.

Open Scope Z_scope.
Open Scope list_scope.

(** ** Evaluation *)

Definition rbind (r : arith_result) (k : Value -> arith_result) : arith_result :=
  match r with Computed v => k v | _ => r end.

Definition eval_equality (negate : bool) (a b : Value) : arith_result :=
  match value_equals a b with Some r => Computed (VAL_BOOL (xorb negate r)) | None => ComputeUnmodelled end.
Definition eval_comparison (op : cmp_op) (a b : Value) : arith_result :=
  match vm_compute_comparison_op op a b with inl message => Failed message | inr r => Computed (VAL_BOOL r) end.
(** [OP_MOD_INT] on integers, [OP_MOD] else. *)
Definition eval_mod (a b : Value) : arith_result :=
  match a, b with
  | VAL_INT x, VAL_INT y => match zero_error IMod y with Some m => Failed m | None => int_result (int_arith IMod x y) end
  | _, _ => compute_mod a b
  end.

(** An operator that evaluates both operands. [limit] is the longest string. *)
Definition eval_operator (limit : Z) (op : TokenType) (a b : Value) : arith_result :=
  match op with
  | TOKEN_PLUS => vm_compute_arithmetic_op limit GAdd a b
  | TOKEN_MINUS => vm_compute_arithmetic_op limit GSub a b
  | TOKEN_STAR => vm_compute_arithmetic_op limit GMul a b
  | TOKEN_SLASH => vm_compute_arithmetic_op limit GDiv a b
  | TOKEN_PERCENT => eval_mod a b
  | TOKEN_BIT_AND => compute_bits BAnd a b
  | TOKEN_BIT_OR => compute_bits BOr a b
  | TOKEN_BIT_XOR => compute_bits BXor a b
  | TOKEN_EQ_EQ => eval_equality false a b
  | TOKEN_BANG_EQ => eval_equality true a b
  | TOKEN_LT => eval_comparison CLt a b
  | TOKEN_LT_EQ => eval_comparison CLe a b
  | TOKEN_GT => eval_comparison CGt a b
  | TOKEN_GT_EQ => eval_comparison CGe a b
  | _ => ComputeUnmodelled
  end.

Definition eval_unary (op : TokenType) (a : Value) : arith_result :=
  match op with
  | TOKEN_MINUS => compute_neg a
  | TOKEN_NOT => match a with VAL_BOOL x => Computed (VAL_BOOL (negb x)) | _ => Failed "Operand must be bool for logical not" end
  | TOKEN_BIT_NOT => compute_bit_not a
  | _ => ComputeUnmodelled
  end.

Definition eval_cast (target : TypeKind) (a : Value) : arith_result :=
  match target with
  | TYPE_INT => compute_cast_int a
  | TYPE_BOOL => compute_cast_bool a
  | TYPE_DOUBLE => compute_cast_double a
  | TYPE_STRING => compute_cast_string a
  | TYPE_BIGINT => compute_cast_bigint a
  | _ => Computed a
  end.

(** What [vm_push_constant_by_index] makes of the constant of a literal. *)
Definition eval_literal (type : option TypeKind) (p : constant_payload) : arith_result :=
  match type, p with
  | Some TYPE_DOUBLE, as_double d => Computed (VAL_DOUBLE d)
  | Some TYPE_BOOL, as_int i => Computed (VAL_BOOL (negb (i =? 0)))
  | Some TYPE_BIGINT, as_string (Some s) => Computed (VAL_BIGINT (Some (obj_bigint_from_string s)))
  | Some TYPE_STRING, as_string (Some s) => Computed (VAL_STRING (Some (mkStr UINT32_MAX (Some s))))
  | Some TYPE_INT, as_int i => Computed (VAL_INT i)
  | _, _ => ComputeUnmodelled
  end.

(** [a && b] and [a || b]; [absorbing] is the value that decides. *)
Definition eval_logic (absorbing : bool) (a : Value) (b : arith_result) : arith_result :=
  match a with
  | VAL_BOOL x => if eqb x absorbing then Computed a else b
  | _ => Failed "Condition must be bool"
  end.

Section Evaluation.
Context (limit : Z) (env : list Z -> option Value).

Fixpoint eval_expr (e : Expr) : arith_result :=
  match e with
  | EXPR_LITERAL type p => eval_literal type p
  | EXPR_NIL _ => Computed VAL_NIL
  | EXPR_IDENTIFIER _ name => match env name with Some v => Computed v | None => ComputeUnmodelled end
  | EXPR_BINARY _ l r op =>
      match op with
      | TOKEN_AND => rbind (eval_expr l) (fun a => eval_logic false a (eval_expr r))
      | TOKEN_OR => rbind (eval_expr l) (fun a => eval_logic true a (eval_expr r))
      | _ => rbind (eval_expr l) (fun a => rbind (eval_expr r) (fun b => eval_operator limit op a b))
      end
  | EXPR_UNARY _ o op => rbind (eval_expr o) (eval_unary op)
  | EXPR_CAST _ v (Some target) => rbind (eval_expr v) (eval_cast target)
  | EXPR_CAST _ _ None | EXPR_OTHER _ => ComputeUnmodelled
  end.
End Evaluation.

(** ** Values that no expression tells apart *)

(** Doubles up to the sign of zero and the bits of NaN; strings up to the
    cached hash. *)
Definition value_close (a b : Value) : Prop :=
  a = b \/
  match a, b with
  | VAL_DOUBLE x, VAL_DOUBLE y => double_close x y
  | VAL_STRING (Some s), VAL_STRING (Some t) => chars s = chars t
  | _, _ => False
  end.
#[global] Instance value_close_equivalence : Equivalence value_close.
Proof.
  unfold value_close. split.
  - by left.
  - intros a b [->|H]; [by left|right]. destruct a as [| | | |[]| | | | | | | | | | |], b as [| | | |[]| | | | | | | | | | |]; done.
  - intros a b c [->|H] [->|H']; [by left|by right..|right].
    destruct a as [| | | |[]| | | | | | | | | | |], b as [| | | |[]| | | | | | | | | | |]; try done; destruct c as [| | | |[]| | | | | | | | | | |]; try done;
      by etransitivity.
Qed.

Definition result_close (r r' : arith_result) : Prop :=
  match r, r' with Computed a, Computed b => value_close a b | _, _ => r = r' end.
#[global] Instance result_close_equivalence : Equivalence result_close.
Proof.
  split.
  - intros []; simpl; reflexivity.
  - intros [] []; simpl; try done; by symmetry.
  - intros [] [] []; simpl; try done; try congruence. by etransitivity.
Qed.

Lemma value_close_inv a b : value_close a b ->
  a = b \/ (exists x y, a = VAL_DOUBLE x /\ b = VAL_DOUBLE y /\ double_close x y) \/
  (exists s t, a = VAL_STRING (Some s) /\ b = VAL_STRING (Some t) /\ chars s = chars t).
Proof.
  intros [->|H]; [by left|right]. destruct a as [| | | |[]| | | | | | | | | | |], b as [| | | |[]| | | | | | | | | | |]; try done; [left|right]; eauto.
Qed.

Ltac close_cases Ha Hb :=
  destruct (value_close_inv _ _ Ha) as [->|[(?x & ?y & -> & -> & ?Hx)|(?s & ?t & -> & -> & ?Hs)]];
  destruct (value_close_inv _ _ Hb) as [->|[(?x & ?y & -> & -> & ?Hx)|(?s & ?t & -> & -> & ?Hs)]]; try reflexivity.
Ltac other_operand := match goal with v : Value |- _ => destruct v; try reflexivity end.

Lemma computed_double x y : double_close x y -> result_close (Computed (VAL_DOUBLE x)) (Computed (VAL_DOUBLE y)).
Proof. intros H. right. exact H. Qed.
#[local] Hint Resolve computed_double : core.

Section Congruence.
Context (limit : Z).

Lemma double_operation_close op x x' y y' : double_close x x' -> double_close y y' ->
  result_close
    match double_zero_error op y with Some m => Failed m | None => Computed (VAL_DOUBLE (double_arith op x y)) end
    match double_zero_error op y' with Some m => Failed m | None => Computed (VAL_DOUBLE (double_arith op x' y')) end.
Proof.
  intros Hx Hy. assert (double_zero_error op y = double_zero_error op y') as <- by (unfold double_zero_error; destruct op; try done; by rewrite Hy).
  destruct (double_zero_error op y) eqn:E; [reflexivity|]. apply computed_double, double_arith_close; [|done..].
  intros ->. cbn in E. by destruct (double_eq y 0).
Qed.

Lemma concat_close s s' t t' : chars s = chars s' -> chars t = chars t' ->
  result_close (concat_strings limit s t) (concat_strings limit s' t').
Proof. intros H1 H2. unfold concat_strings, string_chars. by rewrite H1, H2. Qed.

Lemma arithmetic_close op a a' b b' : value_close a a' -> value_close b b' ->
  result_close (vm_compute_arithmetic_op limit op a b) (vm_compute_arithmetic_op limit op a' b').
Proof.
  intros Ha Hb. close_cases Ha Hb; try other_operand; cbn;
    try (by apply double_operation_close); destruct op; try reflexivity;
    try (destruct s0 as [s0|]; [|reflexivity]); by apply concat_close.
Qed.

Lemma mod_close a a' b b' : value_close a a' -> value_close b b' -> result_close (eval_mod a b) (eval_mod a' b').
Proof. intros Ha Hb. close_cases Ha Hb; other_operand. Qed.
Lemma bits_close op a a' b b' : value_close a a' -> value_close b b' -> result_close (compute_bits op a b) (compute_bits op a' b').
Proof. intros Ha Hb. close_cases Ha Hb; other_operand. Qed.
Lemma comparison_close op a a' b b' : value_close a a' -> value_close b b' ->
  result_close (eval_comparison op a b) (eval_comparison op a' b').
Proof.
  intros Ha Hb. close_cases Ha Hb; try other_operand; unfold eval_comparison; cbn; left; by rewrite ?Hx, ?Hx0.
Qed.
Lemma equality_close n a a' b b' : value_close a a' -> value_close b b' -> result_close (eval_equality n a b) (eval_equality n a' b').
Proof.
  intros Ha Hb. close_cases Ha Hb; try other_operand; unfold eval_equality; cbn; try (left; by rewrite ?Hx, ?Hx0);
    try (destruct s0 as [s0|]; [|reflexivity]); by rewrite ?Hs, ?Hs0.
Qed.

Lemma operator_close op a a' b b' : value_close a a' -> value_close b b' ->
  result_close (eval_operator limit op a b) (eval_operator limit op a' b').
Proof.
  intros Ha Hb. destruct op; try reflexivity; cbn [eval_operator];
    auto using arithmetic_close, mod_close, bits_close, comparison_close, equality_close.
Qed.
End Congruence.

Lemma near_cases x y : double_close x y ->
  double_isnan x = double_isnan y /\ double_isinf x = double_isinf y /\ double_trunc x = double_trunc y.
Proof.
  unfold double_close, double_isnan, double_isinf, double_trunc. intros [->|H]; [done|].
  by destruct (double_of_bits x), (double_of_bits y).
Qed.


Lemma double_neg_of x : double_of_bits (double_neg x) = SFopp (double_of_bits x).
Proof.
  unfold double_of_bits, double_neg.
  assert (Z.testbit (Z.lxor x (2 ^ 63)) 63 = negb (Z.testbit x 63)) as -> by (rewrite Z.lxor_spec; by destruct (Z.testbit x 63)).
  assert (forall n, 0 <= n < 63 -> Z.testbit (Z.lxor x (2 ^ 63)) n = Z.testbit x n) as Hn.
  { intros n Hn. rewrite Z.lxor_spec, Z.pow2_bits_eqb by lia. assert (63 =? n = false) as -> by lia. by destruct (Z.testbit x n). }
  change 2047 with (Z.ones 11). change (2 ^ 52 - 1) with (Z.ones 52).
  assert (Z.land (Z.shiftr (Z.lxor x (2 ^ 63)) 52) (Z.ones 11) = Z.land (Z.shiftr x 52) (Z.ones 11)) as ->.
  { apply Z.bits_inj'. intros n H0. rewrite !Z.land_spec, !Z.shiftr_spec, Z.testbit_ones_nonneg by lia.
    destruct (Z.ltb_spec n 11); [by rewrite Hn by lia|by rewrite !andb_false_r]. }
  assert (Z.land (Z.lxor x (2 ^ 63)) (Z.ones 52) = Z.land x (Z.ones 52)) as ->.
  { apply Z.bits_inj'. intros n H0. rewrite !Z.land_spec, Z.testbit_ones_nonneg by lia.
    destruct (Z.ltb_spec n 52); [by rewrite Hn by lia|by rewrite !andb_false_r]. }
  repeat case_match; done.
Qed.
Lemma double_neg_close x y : double_close x y -> double_close (double_neg x) (double_neg y).
Proof.
  unfold double_close. rewrite !double_neg_of. intros [->|H]; [reflexivity|right]. by destruct (double_of_bits x), (double_of_bits y).
Qed.

Lemma unary_close op a a' : value_close a a' -> result_close (eval_unary op a) (eval_unary op a').
Proof.
  intros H. destruct (value_close_inv _ _ H) as [->|[(x & y & -> & -> & Hx)|(s & t & -> & -> & Hs)]]; [reflexivity| |by destruct op].
  destruct op; try reflexivity. by apply computed_double, double_neg_close.
Qed.

Lemma fmt_0f_zero x y s t : double_of_bits x = S754_zero s -> double_of_bits y = S754_zero t ->
  obj_bigint_from_string (snprintf 128 (fmt_0f x)) = obj_bigint_from_string (snprintf 128 (fmt_0f y)).
Proof. intros H1 H2. unfold fmt_0f. rewrite H1, H2. by destruct s, t. Qed.

Lemma cast_int_close x y : double_close x y -> compute_cast_int (VAL_DOUBLE x) = compute_cast_int (VAL_DOUBLE y).
Proof. intros H. unfold compute_cast_int. destruct (near_cases x y H) as (-> & -> & ->). by rewrite !H. Qed.
Lemma cast_bool_close x y : double_close x y -> compute_cast_bool (VAL_DOUBLE x) = compute_cast_bool (VAL_DOUBLE y).
Proof. intros H. unfold compute_cast_bool. destruct (near_cases x y H) as (-> & _ & _). by rewrite H. Qed.
Lemma cast_bigint_close x y : double_close x y -> compute_cast_bigint (VAL_DOUBLE x) = compute_cast_bigint (VAL_DOUBLE y).
Proof.
  intros H. unfold compute_cast_bigint. destruct (near_cases x y H) as (-> & -> & _). do 3 f_equal. case_match; [done|].
  destruct H as [E|E]; [unfold fmt_0f; by rewrite E|].
  destruct (double_of_bits x) eqn:E1, (double_of_bits y) eqn:E2; try done. by eapply fmt_0f_zero.
Qed.
Lemma cast_string_close target s t : chars s = chars t ->
  result_close (eval_cast target (VAL_STRING (Some s))) (eval_cast target (VAL_STRING (Some t))).
Proof.
  destruct s as [h c], t as [h' c']. cbn [chars]. intros ->. destruct target; first [left; reflexivity | reflexivity | right; reflexivity].
Qed.

Lemma cast_close target a a' : value_close a a' -> result_close (eval_cast target a) (eval_cast target a').
Proof.
  intros H. destruct (value_close_inv _ _ H) as [->|[(x & y & -> & -> & Hx)|(s & t & -> & -> & Hs)]]; [reflexivity| |by apply cast_string_close].
  destruct target; cbn [eval_cast]; try (by apply computed_double).
  - by rewrite (cast_int_close x y Hx).
  - by rewrite (cast_bool_close x y Hx).
  - by rewrite (cast_bigint_close x y Hx).
  - reflexivity.
Qed.
