(* ===== verification/TypeCheck.v ===== *)
(** * Type checker: operators and primitive types, [src/src/typechecker.c]

    The checker gives every expression a type and reports the first error. This
    file has the checking of literals, variables, operators and casts; types are
    their kinds, and a symbol says whether its type is nullable, which the
    modelled rules do not look at. Function literals, which record the variables
    they capture, and generic types are not modelled.

    An expression that is accepted and has no operand of type [any] or of a
    nullable type evaluates to a value of its type, or fails for one of the
    reasons no type can rule out. *)

From S2P Require Import Prelude Lexer.
From Stdlib Require Import String.
From S2P Require Import Doubles BigIntObj BigIntText Values Bytecode Ast Operators Eval.

Open Scope Z_scope.
Open Scope list_scope.

(** ** Symbols *)

Record Symbol := mkSymbol {
  sym_name : list Z;
  sym_type : option TypeKind;
  sym_nullable : bool;
  is_type_alias : bool;
  is_public : bool;
  decl_file : list Z
}.

Inductive type_error :=
  | TypeError (message : string)
  | UndeclaredIdentifier (name : list Z)
  | PrivateSymbol (name : list Z)
  | AliasAsValue (name : list Z).

Record TypeChecker := mkChecker {
  globals : list Symbol;
  locals : list (list Symbol);
  local_lookup_floor : Z;
  error : option type_error
}.

(** Only the first error is kept. *)
Definition typechecker_error (tc : TypeChecker) (e : type_error) : TypeChecker :=
  match error tc with
  | Some _ => tc
  | None => mkChecker (globals tc) (locals tc) (local_lookup_floor tc) (Some e)
  end.

Fixpoint symbol_table_get (table : list Symbol) (name : list Z) : option Symbol :=
  match table with
  | [] => None
  | s :: table' => if bool_decide (sym_name s = name) then Some s else symbol_table_get table' name
  end.

(** The scopes from the innermost one, which is the last, to the floor. *)
Fixpoint lookup_scopes (inner_first : list (list Symbol)) (name : list Z) : option Symbol :=
  match inner_first with
  | [] => None
  | t :: ts => match symbol_table_get t name with Some s => Some s | None => lookup_scopes ts name end
  end.
Definition typechecker_lookup (tc : TypeChecker) (name : list Z) : option Symbol :=
  let n := Z.of_nat (length (locals tc)) in
  let floor := Z.min (Z.max (local_lookup_floor tc) 0) n in
  match lookup_scopes (rev (drop (Z.to_nat floor) (locals tc))) name with
  | Some s => Some s
  | None => symbol_table_get (globals tc) name
  end.

Definition symbol_is_accessible_from_file (sym : Symbol) (use_file : list Z) : bool :=
  if is_public sym then true
  else if bool_decide (decl_file sym = []) then true
  else if bool_decide (use_file = []) then false
  else bool_decide (decl_file sym = use_file).

(** ** Types of expressions *)

(** The names that stand for functions of the library, whatever is declared. *)
Definition builtin_function_names : list string :=
  ["print"; "println"; "panic"; "must"; "wrapError"; "len"; "gcCollect"; "str"; "formatDouble"; "toInt"; "toDouble";
   "toBigInt"; "toHexBigInt"; "bytesToHex"; "hexToBytes"; "stringToBytes"; "bytesToString"; "sha256Bytes";
   "hmacSha256Bytes"; "pbkdf2HmacSha256Bytes"; "hkdfHmacSha256Bytes"; "constantTimeBytesEqual"; "aesCtrBytes";
   "aesGcmSealBytes"; "aesGcmOpenBytes"; "bytesWithSize"; "bytesJoin"; "urlEncode"; "urlDecode"; "substring"; "find";
   "split"; "trim"; "startsWith"; "endsWith"; "replace"; "absBigInt"; "signBigInt"; "digitsBigInt"; "isEvenBigInt";
   "isOddBigInt"; "powBigInt"; "gcdBigInt"; "lcmBigInt"; "modPowBigInt"; "modInverseBigInt"; "isProbablePrimeBigInt";
   "compareBigInt"; "absCmpBigInt"; "clampBigInt"; "isZeroBigInt"; "isNegativeBigInt"; "absInt"; "absDouble"; "min";
   "max"; "floor"; "ceil"; "round"; "sqrt"; "pow"; "typeOf"; "futurePending"; "futureResolved"; "futureIsReady";
   "futureComplete"; "futureGet"; "extPostedCallbackPendingCount"; "extDrainPostedCallbacks";
   "extSetPostedCallbackAutoDrain"; "asyncSleep"; "asyncChannelSend"; "asyncChannelSendTyped"; "asyncChannelRecv";
   "asyncChannelRecvTyped"; "jsonParse"; "jsonStringify"; "jsonStringifyPretty"; "jsonDecode"; "timeNowMillis";
   "timeNowNanos"; "timeMonotonicMillis"; "timeSinceMillis"; "utcDateTime"; "localDateTime"; "logJson"; "random";
   "randomSeed"; "randomInt"; "randomDouble"; "randomBigIntBits"; "randomBigIntRange"; "randomFillInt";
   "randomFillDouble"; "randomFillBigIntBits"; "randomFillBigIntRange"; "secureRandom"; "secureRandomInt";
   "secureRandomDouble"; "secureRandomBigIntBits"; "secureRandomBigIntRange"; "secureRandomFillInt";
   "secureRandomFillDouble"; "secureRandomFillBigIntBits"; "secureRandomFillBigIntRange"; "arrayWithSize"; "push";
   "copyInto"; "reversePrefix"; "rotatePrefixLeft"; "rotatePrefixRight"; "pop"; "keys"; "values"; "sort"; "reverse";
   "findArray"; "contains"; "slice"; "join"; "read_line"; "read_all"; "write_line"; "write_all"; "file_open";
   "file_read_line"; "file_close"; "ioReadLine"; "ioReadAll"; "ioReadChunk"; "ioReadChunkBytes"; "ioReadExactlyBytes";
   "ioWriteAll"; "ioWriteBytesAll"; "ioCopy"; "readBytes"; "writeBytes"; "appendBytes"; "stdoutWriteBytes"; "envGet";
   "exists"; "delete"; "httpGet"; "httpGetWithHeaders"; "httpPost"; "httpPostWithHeaders"; "httpRequest";
   "httpRequestHead"; "httpRequestWithOptions"; "httpRequestHeadWithOptions"; "httpReadRequest"; "httpWriteResponse";
   "tcpConnect"; "tcpListen"; "tcpAccept"; "tcpSend"; "tcpReceive"; "tcpClose"; "tlsIsAvailable"; "tlsConnect";
   "tlsSend"; "tlsReceive"; "tlsClose"; "sqliteIsAvailable"; "sqliteOpen"; "sqliteClose"; "sqliteExec"; "sqliteQuery";
   "sqlitePrepare"; "sqliteBindInt"; "sqliteBindDouble"; "sqliteBindString"; "sqliteBindBytes"; "sqliteBindNull";
   "sqliteReset"; "sqliteClearBindings"; "sqliteChanges"; "sqliteLastInsertRowId"; "sqliteStep"; "sqliteFinalize";
   "processSpawn"; "processWriteStdin"; "processCloseStdin"; "processReadStdout"; "processReadStderr"; "processWait";
   "processKill"; "syncChannelCreate"; "syncChannelSend"; "syncChannelSendTyped"; "syncChannelRecv";
   "syncChannelRecvTyped"; "syncChannelClose"; "syncSharedCreate"; "syncSharedCreateTyped"; "syncSharedGet";
   "syncSharedGetTyped"; "syncSharedSet"; "syncSharedSetTyped"; "syncThreadSpawn"; "syncThreadSpawnTyped";
   "syncThreadJoin"; "syncThreadJoinTyped"; "syncThreadInbox"; "syncThreadOutbox"; "syncThreadArgTyped";
   "syncArcCreate"; "syncArcClone"; "syncArcGuardAcquire"; "syncArcGuardRead"; "syncArcGuardWrite";
   "syncArcGuardRelease"; "mapGet"; "mapGetString"; "mapSet"; "mapSetString"; "mapHas"; "mapHasString"; "mapDelete";
   "mapDeleteString"; "mapCount"; "setAdd"; "setAddString"; "setHas"; "setHasString"; "setRemove"; "setRemoveString";
   "setCount"; "setToArray"]%string.

Definition typecheck_identifier (tc : TypeChecker) (file name : list Z) : TypeChecker * TypeKind :=
  if existsb (fun b => bool_decide (bytes b = name)) builtin_function_names then (tc, TYPE_FUNCTION)
  else if bool_decide (bytes "argv" = name) then (tc, TYPE_ARRAY)
  else
    match typechecker_lookup tc name with
    | None => (typechecker_error tc (UndeclaredIdentifier name), TYPE_ANY)
    | Some sym =>
        if negb (symbol_is_accessible_from_file sym file) then (typechecker_error tc (PrivateSymbol name), TYPE_ANY)
        else if is_type_alias sym then (typechecker_error tc (AliasAsValue name), TYPE_ANY)
        else (tc, match sym_type sym with Some t => t | None => TYPE_ANY end)
    end.

Definition typecheck_literal (type : option TypeKind) : TypeKind := match type with Some t => t | None => TYPE_INT end.
Definition typecheck_nil (type : option TypeKind) : TypeKind := match type with Some t => t | None => TYPE_NIL end.

(** [if (!any && kind is none of these) error]. *)
Definition require (tc : TypeChecker) (t : TypeKind) (kinds : list TypeKind) (message : string) : TypeChecker :=
  if bool_decide (t = TYPE_ANY) || bool_decide (t ∈ kinds) then tc else typechecker_error tc (TypeError message).
Definition mixed (a b left right : TypeKind) : bool :=
  (bool_decide (left = a) && bool_decide (right = b)) || (bool_decide (left = b) && bool_decide (right = a)).
Definition either (a left right : TypeKind) : bool := bool_decide (left = a) || bool_decide (right = a).

Definition typecheck_arithmetic (tc : TypeChecker) (op : TokenType) (left right : TypeKind) : TypeChecker * TypeKind :=
  let numeric := [TYPE_INT; TYPE_DOUBLE; TYPE_BIGINT; TYPE_STRING] in
  let tc := require tc left numeric "Left operand must be int/double/bigint/string" in
  let tc := require tc right numeric "Right operand must be int/double/bigint/string" in
  match op with
  | TOKEN_PERCENT =>
      let tc := require tc left [TYPE_INT; TYPE_BIGINT] "Left operand must be int/bigint for %" in
      let tc := require tc right [TYPE_INT; TYPE_BIGINT] "Right operand must be int/bigint for %" in
      (tc, if either TYPE_BIGINT left right then TYPE_BIGINT else TYPE_INT)
  | _ =>
      if match op with TOKEN_PLUS => true | _ => false end && bool_decide (left = TYPE_STRING) && bool_decide (right = TYPE_STRING)
      then (tc, TYPE_STRING)
      else if negb (either TYPE_ANY left right) && either TYPE_STRING left right then (tc, TYPE_ANY)
      else if mixed TYPE_BIGINT TYPE_DOUBLE left right then (typechecker_error tc (TypeError "Cannot mix bigint and double"), TYPE_ANY)
      else if either TYPE_BIGINT left right then (tc, TYPE_BIGINT)
      else if mixed TYPE_INT TYPE_DOUBLE left right
      then (typechecker_error tc (TypeError "Mixed int/double operands require an explicit cast"), TYPE_ANY)
      else if either TYPE_DOUBLE left right then (tc, TYPE_DOUBLE)
      else if either TYPE_STRING left right then (tc, TYPE_ANY)
      else (tc, TYPE_INT)
  end.

Definition typecheck_binary (tc : TypeChecker) (op : TokenType) (left right : TypeKind) : TypeChecker * TypeKind :=
  match op with
  | TOKEN_PLUS | TOKEN_MINUS | TOKEN_STAR | TOKEN_SLASH | TOKEN_PERCENT => typecheck_arithmetic tc op left right
  | TOKEN_AND | TOKEN_OR =>
      let tc := require tc left [TYPE_BOOL] "Left operand must be bool for logical operation" in
      (require tc right [TYPE_BOOL] "Right operand must be bool for logical operation", TYPE_BOOL)
  | TOKEN_BIT_AND | TOKEN_BIT_OR | TOKEN_BIT_XOR =>
      let tc := require tc left [TYPE_INT; TYPE_BIGINT] "Left operand must be int/bigint for bitwise operation" in
      (require tc right [TYPE_INT; TYPE_BIGINT] "Right operand must be int/bigint for bitwise operation",
       if either TYPE_BIGINT left right then TYPE_BIGINT else TYPE_INT)
  | TOKEN_EQ_EQ | TOKEN_BANG_EQ => (tc, TYPE_BOOL)
  | TOKEN_LT | TOKEN_LT_EQ | TOKEN_GT | TOKEN_GT_EQ =>
      let numeric := [TYPE_INT; TYPE_DOUBLE; TYPE_BIGINT] in
      let tc := require tc left numeric "Left operand must be numeric for comparison" in
      let tc := require tc right numeric "Right operand must be numeric for comparison" in
      let tc := if mixed TYPE_INT TYPE_DOUBLE left right
                then typechecker_error tc (TypeError "Mixed int/double comparison requires an explicit cast") else tc in
      (if mixed TYPE_BIGINT TYPE_DOUBLE left right
       then typechecker_error tc (TypeError "Mixed bigint/double comparison requires an explicit cast") else tc, TYPE_BOOL)
  | _ => (tc, TYPE_ANY)
  end.

Definition typecheck_unary (tc : TypeChecker) (op : TokenType) (operand : TypeKind) : TypeChecker * TypeKind :=
  match op with
  | TOKEN_MINUS =>
      (require tc operand [TYPE_INT; TYPE_DOUBLE; TYPE_BIGINT] "Operand must be numeric",
       match operand with TYPE_BIGINT => TYPE_BIGINT | TYPE_DOUBLE => TYPE_DOUBLE | _ => TYPE_INT end)
  | TOKEN_NOT => (require tc operand [TYPE_BOOL] "Operand must be bool for logical not", TYPE_BOOL)
  | TOKEN_BIT_NOT =>
      (require tc operand [TYPE_INT; TYPE_BIGINT] "Operand must be int/bigint for bitwise not",
       match operand with TYPE_BIGINT => TYPE_BIGINT | _ => TYPE_INT end)
  | _ => (tc, TYPE_ANY)
  end.

(** The checker, the expression with its types, and the type of the whole.
    Expressions of other kinds keep the type they have. *)
Fixpoint typecheck_expression (tc : TypeChecker) (file : list Z) (e : Expr) : TypeChecker * Expr * TypeKind :=
  match e with
  | EXPR_LITERAL t p => let t := typecheck_literal t in (tc, EXPR_LITERAL (Some t) p, t)
  | EXPR_NIL t => let t := typecheck_nil t in (tc, EXPR_NIL (Some t), t)
  | EXPR_IDENTIFIER _ name => let '(tc, t) := typecheck_identifier tc file name in (tc, EXPR_IDENTIFIER (Some t) name, t)
  | EXPR_BINARY _ l r op =>
      let '(tc, l, lt) := typecheck_expression tc file l in
      let '(tc, r, rt) := typecheck_expression tc file r in
      let '(tc, t) := typecheck_binary tc op lt rt in
      (tc, EXPR_BINARY (Some t) l r op, t)
  | EXPR_UNARY _ o op =>
      let '(tc, o, ot) := typecheck_expression tc file o in
      let '(tc, t) := typecheck_unary tc op ot in
      (tc, EXPR_UNARY (Some t) o op, t)
  | EXPR_CAST _ v target =>
      let '(tc, v, _) := typecheck_expression tc file v in
      let t := match target with Some t => t | None => TYPE_ANY end in
      (tc, EXPR_CAST (Some t) v target, t)
  | EXPR_OTHER t => (tc, e, match t with Some t => t | None => TYPE_ANY end)
  end.

(** ** Values of types *)

(** A string without NUL characters. *)
Definition plain (s : ObjString) : Prop := exists cs, chars s = Some cs /\ Forall (fun c => c <> 0) cs.

Definition has_type (v : Value) (t : TypeKind) : Prop :=
  match t with
  | TYPE_INT => match v with VAL_INT _ => True | _ => False end
  | TYPE_BOOL => match v with VAL_BOOL _ => True | _ => False end
  | TYPE_DOUBLE => match v with VAL_DOUBLE _ => True | _ => False end
  | TYPE_BIGINT => match v with VAL_BIGINT (Some _) => True | _ => False end
  | TYPE_STRING => match v with VAL_STRING (Some s) => plain s | _ => False end
  | TYPE_NIL => v = VAL_NIL
  | TYPE_ANY => True
  | _ => match v with VAL_INT _ | VAL_BOOL _ | VAL_DOUBLE _ | VAL_BIGINT _ | VAL_STRING _ | VAL_NIL => False | _ => True end
  end.

(** The errors that types do not rule out. *)
Definition value_errors : list string := ["Division by zero"; "Modulo by zero"; string_limit_error]%string.
Definition result_typed (r : arith_result) (t : TypeKind) : Prop :=
  match r with
  | Computed v => has_type v t
  | Failed m => m ∈ value_errors
  | ComputeUndefined | ComputeUnmodelled => True
  end.

Lemma typed_inv v t : has_type v t ->
  match t with
  | TYPE_INT => exists i, v = VAL_INT i
  | TYPE_BOOL => exists b, v = VAL_BOOL b
  | TYPE_DOUBLE => exists d, v = VAL_DOUBLE d
  | TYPE_BIGINT => exists b, v = VAL_BIGINT (Some b)
  | TYPE_STRING => exists s, v = VAL_STRING (Some s) /\ plain s
  | _ => True
  end.
Proof. destruct t; try done; destruct v as [| | |[]|[]| | | | | | | | | | |]; try done; eauto. Qed.

Lemma plain_new cs : has_type (new_string cs) TYPE_STRING.
Proof. eexists. split; [reflexivity|]. apply c_string_nonzero. Qed.

Ltac value_error := cbn; unfold value_errors; set_solver.
Lemma int_result_typed o : result_typed (int_result o) TYPE_INT.
Proof. by destruct o. Qed.
Lemma int_operation_typed op x y :
  result_typed (match zero_error op y with Some m => Failed m | None => int_result (int_arith op x y) end) TYPE_INT.
Proof.
  destruct (zero_error op y) as [m|] eqn:E; [|apply int_result_typed]. destruct op; try done; cbn in E; destruct (y =? 0); try done;
    injection E as <-; value_error.
Qed.
Lemma double_operation_typed op x y :
  result_typed (match double_zero_error op y with Some m => Failed m | None => Computed (VAL_DOUBLE (double_arith op x y)) end) TYPE_DOUBLE.
Proof.
  destruct (double_zero_error op y) as [m|] eqn:E; [|done]. destruct op; try done; cbn in E. destruct (double_eq y 0); try done.
  injection E as <-. value_error.
Qed.
Lemma bigint_divided_typed r : result_typed (bigint_divided r) TYPE_BIGINT.
Proof. destruct r as [b []]; [value_error|done]. Qed.
Lemma concat_typed limit s t : result_typed (concat_strings limit s t) TYPE_STRING.
Proof. unfold concat_strings. destruct (_ <? _); [done|]. destruct (_ <? _); [value_error|apply plain_new]. Qed.

(** The type of an operator the checker accepts, for operands that are not of
    type [any]. *)
Definition accepted (r : TypeChecker * TypeKind) (t : TypeKind) : Prop := error (fst r) = None /\ snd r = t.

Lemma typechecker_error_none tc e : error (typechecker_error tc e) <> None.
Proof. unfold typechecker_error. by destruct (error tc) eqn:E; [rewrite E|]. Qed.
Lemma require_none tc t kinds m : error (require tc t kinds m) = None -> t <> TYPE_ANY -> t ∈ kinds /\ error tc = None.
Proof.
  unfold require. intros H Ht. destruct (bool_decide_reflect (t = TYPE_ANY)); [done|]. cbn [orb] in H.
  destruct (bool_decide_reflect (t ∈ kinds)); [done|]. by apply typechecker_error_none in H.
Qed.
Lemma require_mono tc t kinds m : error (require tc t kinds m) = None -> error tc = None.
Proof. unfold require. destruct (_ || _); [done|]. by intros H%typechecker_error_none. Qed.

(** The operands of an accepted operator. *)
Ltac member H := repeat (apply elem_of_cons in H as [->|H]; [|]); [..|by apply elem_of_nil in H].
Ltac typed_operand Ha := apply typed_inv in Ha; cbn in Ha; destruct Ha as [? Ha];
  match type of Ha with _ /\ _ => destruct Ha as [-> ?] | _ => subst end.

Lemma arithmetic_operands tc op l r t : accepted (typecheck_arithmetic tc op l r) t -> l <> TYPE_ANY -> r <> TYPE_ANY ->
  let numeric := [TYPE_INT; TYPE_DOUBLE; TYPE_BIGINT; TYPE_STRING] in l ∈ numeric /\ r ∈ numeric.
Proof.
  intros [H _] Hl Hr numeric. unfold typecheck_arithmetic in H.
  set (tc2 := require (require tc l numeric "Left operand must be int/double/bigint/string") r numeric
                "Right operand must be int/double/bigint/string") in *.
  assert (error tc2 = None) as H2.
  { fold numeric in H. fold tc2 in H. destruct op; repeat case_match; cbn [fst] in H; try done; try (by apply typechecker_error_none in H);
      by apply require_mono, require_mono in H. }
  apply require_none in H2 as [? H2]; [|done]. by apply require_none in H2 as [? _].
Qed.

Lemma arithmetic_typed limit tc op l r t a b :
  accepted (typecheck_arithmetic tc op l r) t -> l <> TYPE_ANY -> r <> TYPE_ANY -> t <> TYPE_ANY -> has_type a l -> has_type b r ->
  match op with TOKEN_PLUS | TOKEN_MINUS | TOKEN_STAR | TOKEN_SLASH | TOKEN_PERCENT => true | _ => false end = true ->
  result_typed (eval_operator limit op a b) t.
Proof.
  intros H Hl Hr Ht Ha Hb Hop. pose proof (arithmetic_operands tc op l r t H Hl Hr) as [Ml Mr]. destruct H as [H1 H2].
  destruct op; try done; clear Hop; member Ml; member Mr; cbn in H2; try done; try (by apply typechecker_error_none in H1); subst t;
    typed_operand Ha; typed_operand Hb;
    cbn [eval_operator eval_mod vm_compute_arithmetic_op compute_mod is_bigint is_double orb andb bigint_from_value gen_int gen_double];
    first [apply int_operation_typed | apply double_operation_typed | apply bigint_divided_typed | apply concat_typed
          | cbn [result_typed has_type]; exact I].
Qed.

Lemma bits_typed tc op l r t a b :
  accepted (require (require tc l [TYPE_INT; TYPE_BIGINT] "Left operand must be int/bigint for bitwise operation") r [TYPE_INT; TYPE_BIGINT]
              "Right operand must be int/bigint for bitwise operation", if either TYPE_BIGINT l r then TYPE_BIGINT else TYPE_INT) t ->
  l <> TYPE_ANY -> r <> TYPE_ANY -> has_type a l -> has_type b r -> result_typed (compute_bits op a b) t.
Proof.
  intros [H H2] Hl Hr Ha Hb. cbn [fst snd] in *. apply require_none in H as [Mr H]; [|done]. apply require_none in H as [Ml _]; [|done].
  member Ml; member Mr; cbn in H2; subst t; typed_operand Ha; typed_operand Hb; cbn [compute_bits is_bigint orb bigint_from_value result_typed has_type]; exact I.
Qed.

Lemma comparison_typed op tc l r a b :
  let numeric := [TYPE_INT; TYPE_DOUBLE; TYPE_BIGINT] in
  let tc := require tc l numeric "Left operand must be numeric for comparison" in
  let tc := require tc r numeric "Right operand must be numeric for comparison" in
  let tc := if mixed TYPE_INT TYPE_DOUBLE l r
            then typechecker_error tc (TypeError "Mixed int/double comparison requires an explicit cast") else tc in
  error (if mixed TYPE_BIGINT TYPE_DOUBLE l r
         then typechecker_error tc (TypeError "Mixed bigint/double comparison requires an explicit cast") else tc) = None ->
  l <> TYPE_ANY -> r <> TYPE_ANY -> has_type a l -> has_type b r -> result_typed (eval_comparison op a b) TYPE_BOOL.
Proof.
  intros numeric tc1 tc2 tc3 H Hl Hr Ha Hb.
  destruct (mixed TYPE_BIGINT TYPE_DOUBLE l r) eqn:E1; [by apply typechecker_error_none in H|].
  unfold tc3 in H. destruct (mixed TYPE_INT TYPE_DOUBLE l r) eqn:E2; [by apply typechecker_error_none in H|].
  apply require_none in H as [Mr H]; [|done]. apply require_none in H as [Ml _]; [|done]. unfold numeric in *. clear tc1 tc2 tc3 numeric.
  member Ml; member Mr; try discriminate E1; try discriminate E2; typed_operand Ha; typed_operand Hb; unfold eval_comparison;
    cbn [vm_compute_comparison_op is_bigint is_double orb andb bigint_from_value result_typed has_type]; exact I.
Qed.

Lemma equality_typed n a b : result_typed (eval_equality n a b) TYPE_BOOL.
Proof. unfold eval_equality. by destruct (value_equals a b). Qed.

Definition logical (op : TokenType) : bool := match op with TOKEN_AND | TOKEN_OR => true | _ => false end.

Lemma operator_typed limit tc op l r t a b :
  accepted (typecheck_binary tc op l r) t -> l <> TYPE_ANY -> r <> TYPE_ANY -> t <> TYPE_ANY -> has_type a l -> has_type b r ->
  logical op = false -> result_typed (eval_operator limit op a b) t.
Proof.
  intros H Hl Hr Ht Ha Hb Ho.
  destruct op; try done; cbn [typecheck_binary] in H; try (by destruct H as [_ H]; cbn in H; subst t);
    try (by eapply arithmetic_typed); try (by eapply bits_typed);
    destruct H as [H <-]; cbn [fst snd eval_operator] in *; try apply equality_typed; by eapply comparison_typed.
Qed.

Lemma unary_typed tc op o t a : accepted (typecheck_unary tc op o) t -> o <> TYPE_ANY -> t <> TYPE_ANY -> has_type a o ->
  result_typed (eval_unary op a) t.
Proof.
  intros [H H2] Ho Ht Ha. destruct op; cbn [typecheck_unary fst snd] in *; try (by subst t); apply require_none in H as [M _]; try done;
    member M; cbn in H2; subst t; typed_operand Ha; cbn [eval_unary compute_neg compute_bit_not]; first [apply int_result_typed | exact I].
Qed.

Definition primitive (t : TypeKind) : bool :=
  match t with TYPE_INT | TYPE_BOOL | TYPE_DOUBLE | TYPE_BIGINT | TYPE_STRING => true | _ => false end.
Ltac of_value := cbn [result_typed has_type]; exact I.
Lemma cast_int_typed a : result_typed (compute_cast_int a) TYPE_INT.
Proof.
  unfold compute_cast_int. destruct a; lazymatch goal with |- context [double_isnan] => idtac | _ => of_value end.
  destruct (_ || _); [of_value|]. destruct (double_compare _ _ _); [of_value|]. destruct (double_compare _ _ _); [of_value|].
  apply int_result_typed.
Qed.
Lemma cast_typed target t a : primitive target = true -> t <> TYPE_ANY -> has_type a t -> result_typed (eval_cast target a) target.
Proof.
  intros Hp Ht Ha. destruct target; try discriminate Hp; cbn [eval_cast].
  - apply cast_int_typed.
  - unfold compute_cast_bool. of_value.
  - unfold compute_cast_double. destruct a; of_value.
  - unfold compute_cast_bigint. destruct a; try of_value. destruct b; [of_value|]. by destruct t.
  - unfold compute_cast_string. destruct a; cbn [result_typed]; try exact I; try apply plain_new. by destruct t.
Qed.

(** ** Soundness *)

Section Soundness.
Context (limit : Z) (env : list Z -> option Value) (file : list Z).

(** The values of the variables have the types of their symbols. *)
Definition env_typed (tc : TypeChecker) : Prop :=
  forall name sym t v, typechecker_lookup tc name = Some sym -> sym_type sym = Some t -> env name = Some v ->
    has_type v t \/ sym_nullable sym = true /\ v = VAL_NIL.

(** Literals hold the member that their type says. *)
Definition literal_ok (type : option TypeKind) (p : constant_payload) : bool :=
  match type, p with
  | (Some TYPE_INT | None), as_int _ | Some TYPE_DOUBLE, as_double _ | Some TYPE_BIGINT, as_string (Some _) => true
  | Some TYPE_BOOL, as_int i => (i =? 0) || (i =? 1)
  | Some TYPE_STRING, as_string (Some s) => forallb (fun c => negb (c =? 0)) s
  | _, _ => false
  end.

(** No operand of type [any], no variable of a nullable type, casts to
    primitive types only. *)
Fixpoint static (tc : TypeChecker) (e : Expr) : bool :=
  negb (bool_decide (type_of e = Some TYPE_ANY)) &&
  match e with
  | EXPR_LITERAL t p => literal_ok t p
  | EXPR_NIL t => bool_decide (t = Some TYPE_NIL)
  | EXPR_IDENTIFIER t name =>
      match typechecker_lookup tc name with
      | Some sym => negb (sym_nullable sym) && bool_decide (sym_type sym = t)
      | None => false
      end
  | EXPR_BINARY _ l r _ => static tc l && static tc r
  | EXPR_UNARY _ o _ => static tc o
  | EXPR_CAST _ v target => static tc v && match target with Some t => primitive t | None => false end
  | EXPR_OTHER _ => false
  end.

(** The checker changes nothing but its error. *)
Definition same_scopes (tc tc' : TypeChecker) : Prop := forall name, typechecker_lookup tc' name = typechecker_lookup tc name.
Lemma error_scopes tc e : same_scopes tc (typechecker_error tc e).
Proof. intros name. unfold typechecker_error. by destruct (error tc). Qed.
Definition extends (tc tc' : TypeChecker) : Prop := same_scopes tc tc' /\ (error tc' = None -> error tc = None).
#[global] Instance extends_preorder : PreOrder extends.
Proof.
  split; [done|]. intros a b c [H1 H2] [H3 H4]. split; [|auto]. intros name. by rewrite H3.
Qed.
Lemma error_extends tc e : extends tc (typechecker_error tc e).
Proof. split; [apply error_scopes|]. by intros H%typechecker_error_none. Qed.
Lemma require_extends tc t kinds m : extends tc (require tc t kinds m).
Proof. unfold require. destruct (_ || _); [reflexivity|apply error_extends]. Qed.
#[local] Hint Resolve error_extends require_extends : core.

Ltac extend := cbn [fst]; repeat first [done | apply error_extends | apply require_extends | case_match; [|] | etransitivity; [|apply error_extends]
                              | etransitivity; [|apply require_extends]].
Lemma binary_extends tc op l r : extends tc (fst (typecheck_binary tc op l r)).
Proof. unfold typecheck_binary, typecheck_arithmetic. destruct op; extend. Qed.
Lemma unary_extends tc op o : extends tc (fst (typecheck_unary tc op o)).
Proof. destruct op; extend. Qed.
Lemma identifier_extends tc name : extends tc (fst (typecheck_identifier tc file name)).
Proof. unfold typecheck_identifier. repeat case_match; extend. Qed.

Lemma expression_extends e : forall tc, extends tc (typecheck_expression tc file e).1.1.
Proof.
  induction e as [t p|t n|t l IHl r IHr op|t o IHo op|t v IHv target|t|t]; intros tc; cbn [typecheck_expression]; try done.
  - pose proof (identifier_extends tc n). by destruct (typecheck_identifier tc file n).
  - specialize (IHl tc). destruct (typecheck_expression tc file l) as [[tc1 l'] lt].
    specialize (IHr tc1). destruct (typecheck_expression tc1 file r) as [[tc2 r'] rt].
    pose proof (binary_extends tc2 op lt rt). destruct (typecheck_binary tc2 op lt rt). cbn [fst] in *. by rewrite IHl, IHr.
  - specialize (IHo tc). destruct (typecheck_expression tc file o) as [[tc1 o'] ot].
    pose proof (unary_extends tc1 op ot). destruct (typecheck_unary tc1 op ot). cbn [fst] in *. by rewrite IHo.
  - specialize (IHv tc). by destruct (typecheck_expression tc file v) as [[tc1 v'] vt].
Qed.

Lemma static_scopes tc tc' e : same_scopes tc tc' -> static tc' e = static tc e.
Proof.
  intros H. induction e as [| |t l IHl r IHr op|t o IHo op|t v IHv target| |]; cbn [static]; rewrite ?H; try done.
  - by rewrite IHl, IHr.
  - by rewrite IHo.
  - by rewrite IHv.
Qed.
Lemma env_scopes tc tc' : same_scopes tc tc' -> env_typed tc -> env_typed tc'.
Proof. intros H He name sym t v. rewrite H. apply He. Qed.

(** An expression that is checked without error has the type of its values. *)
Lemma expression_typed e : forall tc tc' e' t,
  typecheck_expression tc file e = (tc', e', t) -> error tc' = None -> static tc e' = true -> env_typed tc ->
  type_of e' = Some t /\ t <> TYPE_ANY /\ result_typed (eval_expr limit env e') t.
Proof.
  assert (forall e t tc, static tc e = true -> type_of e = Some t -> t <> TYPE_ANY) as Hany.
  { intros e0 t0 tc Hs Ht ->. destruct e0; cbn in *; subst; done. }
  induction e as [ty p|ty n|ty l IHl r IHr op|ty o IHo op|ty v IHv target|ty|ty]; intros tc tc' e' t H He Hs Henv; cbn [typecheck_expression] in H.
  - injection H as <- <- <-. split; [done|]. split; [by eapply Hany|]. cbn [static type_of] in Hs. apply andb_true_iff in Hs as [_ Hs].
    destruct ty as [[]|], p as [| |[]]; try done. cbn. exists l. split; [done|]. apply Forall_forall. intros c Hc ->.
    cbn [literal_ok typecheck_literal] in Hs. rewrite forallb_forall in Hs. by apply list_elem_of_In, Hs in Hc.
  - destruct (typecheck_identifier tc file n) as [tc1 t1] eqn:Ei. injection H as <- <- <-. split; [done|]. split; [by eapply Hany|].
    cbn [static] in Hs. apply andb_true_iff in Hs as [_ Hs]. cbn [eval_expr].
    destruct (typechecker_lookup tc n) as [sym|] eqn:El; [|done]. apply andb_true_iff in Hs as [Hn Ht]. apply bool_decide_eq_true in Ht.
    destruct (env n) as [v|] eqn:Ev; [|exact I]. destruct (Henv n sym t1 v El Ht Ev) as [|[E _]]; [done|]. by rewrite E in Hn.
  - pose proof (expression_extends l tc) as Xl. destruct (typecheck_expression tc file l) as [[tc1 l'] lt] eqn:El.
    pose proof (expression_extends r tc1) as Xr. destruct (typecheck_expression tc1 file r) as [[tc2 r'] rt] eqn:Er.
    pose proof (binary_extends tc2 op lt rt) as Xb. destruct (typecheck_binary tc2 op lt rt) as [tc3 t3] eqn:Eb. injection H as <- <- <-.
    cbn [fst] in *. split; [done|]. split; [by eapply Hany|]. pose proof (Hany _ _ _ Hs eq_refl) as Ht3.
    cbn [static] in Hs. apply andb_true_iff in Hs as [_ Hs]. apply andb_true_iff in Hs as [Hsl Hsr].
    assert (error tc2 = None) as E2 by (by apply Xb). assert (error tc1 = None) as E1 by (by apply Xr).
    destruct (IHl _ _ _ _ El E1 Hsl Henv) as (_ & Hlt & Tl).
    destruct (IHr _ _ _ _ Er E2) as (_ & Hrt & Tr); [by rewrite (static_scopes tc tc1) by apply Xl|eapply env_scopes; [apply Xl|done]|].
    assert (accepted (typecheck_binary tc2 op lt rt) t3) as Hacc by (by rewrite Eb).
    destruct (logical op) eqn:Hlog.
    + assert (lt ∈ [TYPE_BOOL] /\ rt ∈ [TYPE_BOOL] /\ t3 = TYPE_BOOL) as (Ml & Mr & ->).
      { destruct op; try done; cbn in Eb; injection Eb as <- <-; apply require_none in He as [? He]; try done; by apply require_none in He as [? _]. }
      apply list_elem_of_singleton in Ml as ->, Mr as ->.
      destruct op; try done; cbn [eval_expr]; destruct (eval_expr limit env l') as [a| | |]; try done; cbn [rbind]; apply (typed_inv a TYPE_BOOL) in Tl as [b ->];
        cbn [eval_logic]; by destruct (eqb b _).
    + assert (eval_expr limit env (EXPR_BINARY (Some t3) l' r' op) =
        rbind (eval_expr limit env l') (fun a => rbind (eval_expr limit env r') (fun b => eval_operator limit op a b))) as -> by (by destruct op).
      destruct (eval_expr limit env l') as [a| | |]; try done; destruct (eval_expr limit env r') as [b| | |]; try done. cbn [rbind].
      by eapply operator_typed.
  - pose proof (expression_extends o tc) as Xo. destruct (typecheck_expression tc file o) as [[tc1 o'] ot] eqn:Eo.
    pose proof (unary_extends tc1 op ot) as Xu. destruct (typecheck_unary tc1 op ot) as [tc3 t3] eqn:Eu. injection H as <- <- <-.
    cbn [fst] in *. split; [done|]. split; [by eapply Hany|]. pose proof (Hany _ _ _ Hs eq_refl) as Ht3.
    cbn [static] in Hs. apply andb_true_iff in Hs as [_ Hs]. destruct (IHo _ _ _ _ Eo ltac:(by apply Xu) Hs Henv) as (_ & Hot & To).
    cbn [eval_expr]. destruct (eval_expr limit env o') as [a| | |]; try done. cbn [rbind]. eapply unary_typed; [by rewrite Eu|done..].
  - destruct (typecheck_expression tc file v) as [[tc1 v'] vt] eqn:Ev. injection H as <- <- <-. split; [done|]. split; [by eapply Hany|].
    cbn [static] in Hs. apply andb_true_iff in Hs as [_ Hs]. apply andb_true_iff in Hs as [Hs Hp].
    destruct (IHv _ _ _ _ Ev He Hs Henv) as (_ & Hvt & Tv). destruct target as [target|]; [|done].
    cbn [eval_expr]. destruct (eval_expr limit env v') as [a| | |]; try done. cbn [rbind]. by eapply cast_typed.
  - injection H as <- <- <-. split; [done|]. cbn [static] in Hs. apply andb_true_iff in Hs as [_ Hs]. apply bool_decide_eq_true in Hs.
    injection Hs as ->. done.
  - injection H as <- <- <-. cbn [static] in Hs. by rewrite andb_false_r in Hs.
Qed.
End Soundness.

(** ** Properties *)

(** C12: the type checker is sound for expressions of operators, casts,
    literals and variables: when it accepts an expression in which nothing has
    type [any] or a nullable type, evaluating the expression gives a value of
    the type it reports, has no defined result because an [int64_t] overflows,
    or fails because a divisor is zero or a string is too long; an operand of a
    wrong type is never met. *)
Theorem typecheck_sound limit env file tc e tc' e' t :
  typecheck_expression tc file e = (tc', e', t) -> error tc' = None -> static tc e' = true -> env_typed env tc ->
  match eval_expr limit env e' with
  | Computed v => has_type v t
  | Failed m => m = "Division by zero"%string \/ m = "Modulo by zero"%string \/ m = "String length exceeds maximum allowed"%string
  | ComputeUndefined | ComputeUnmodelled => True
  end.
Proof.
  intros H He Hs Henv. destruct (expression_typed limit env file e tc tc' e' t H He Hs Henv) as (_ & _ & Hr).
  destruct (eval_expr limit env e'); try done. unfold result_typed, value_errors, string_limit_error in Hr. set_solver.
Qed.

(** *** Instances *)

Definition local_symbol (name : string) (t : TypeKind) (nullable : bool) : Symbol := mkSymbol (bytes name) (Some t) nullable false false [].
Definition checker_with (syms : list Symbol) : TypeChecker := mkChecker [] [syms] 0 None.
Definition variable (name : string) : Expr := EXPR_IDENTIFIER None (bytes name).
Definition binary (op : TokenType) (l r : Expr) : Expr := EXPR_BINARY None l r op.
Definition int_lit (i : Z) : Expr := EXPR_LITERAL (Some TYPE_INT) (as_int i).
Definition env_of (vars : list (string * Value)) (name : list Z) : option Value :=
  option_map snd (List.find (fun p => bool_decide (bytes (fst p) = name)) vars).

(** [n % 2 == 0 && d < 1.5] with [n : int] and [d : double]. *)
Definition typed_sample : Expr :=
  binary TOKEN_AND (binary TOKEN_EQ_EQ (binary TOKEN_PERCENT (variable "n") (int_lit 2)) (int_lit 0))
    (binary TOKEN_LT (variable "d") (EXPR_LITERAL (Some TYPE_DOUBLE) (as_double (Z.shiftl 4095 51)))).
Definition sample_checker : TypeChecker := checker_with [local_symbol "n" TYPE_INT false; local_symbol "d" TYPE_DOUBLE false].
Definition sample_env : list Z -> option Value := env_of [("n"%string, VAL_INT 6); ("d"%string, VAL_DOUBLE double_one)].

Lemma lookup_single syms name : typechecker_lookup (checker_with syms) name = symbol_table_get syms name.
Proof.
  unfold typechecker_lookup, checker_with. cbn [locals local_lookup_floor globals length].
  change (Z.to_nat (Z.min (Z.max 0 0) (Z.of_nat 1))) with 0%nat. cbn [drop rev app lookup_scopes]. by destruct (symbol_table_get syms name).
Qed.
Lemma sample_env_typed : env_typed sample_env sample_checker.
Proof.
  intros name sym t v Hl Ht Hv. left. unfold sample_env, env_of in Hv. cbn -[bytes] in Hv.
  unfold sample_checker in Hl. rewrite lookup_single in Hl. cbn -[bytes] in Hl.
  destruct (bool_decide_reflect (bytes "n" = name)); cbn -[bytes] in *; [injection Hl as <-; cbn in Ht; by simplify_eq|].
  destruct (bool_decide_reflect (bytes "d" = name)); cbn -[bytes] in *; [injection Hl as <-; cbn in Ht; by simplify_eq|done].
Qed.

Lemma typecheck_sound_witness :
  exists e' t,
    typecheck_expression sample_checker [] typed_sample = (sample_checker, e', t) /\ t = TYPE_BOOL /\
    eval_expr 100 sample_env e' = Computed (VAL_BOOL false) /\
    match eval_expr 100 sample_env e' with
    | Computed v => has_type v t
    | Failed m => m = "Division by zero"%string \/ m = "Modulo by zero"%string \/ m = "String length exceeds maximum allowed"%string
    | ComputeUndefined | ComputeUnmodelled => True
    end.
Proof.
  do 2 eexists. split; [vm_compute; reflexivity|]. split; [reflexivity|]. split; [vm_compute; reflexivity|].
  eapply (typecheck_sound 100 sample_env [] sample_checker typed_sample sample_checker).
  - vm_compute. reflexivity.
  - reflexivity.
  - vm_compute. reflexivity.
  - apply sample_env_typed.
Defined.

(** Outside that part the checker accepts expressions that meet operands of
    wrong types: [a + 1] with [a : any] is given the type [int] while its value
    can be a big integer, [(a + 1) * 2] is then compiled for integers; [x + 1]
    with [x : int?] is accepted and fails on [nil]; and [s - s] for strings is
    accepted and always fails. *)
Theorem typecheck_dynamic_gap :
  let a1 := binary TOKEN_PLUS (variable "a") (int_lit 1) in
  let x1 := binary TOKEN_PLUS (variable "x") (int_lit 1) in
  let ss := binary TOKEN_MINUS (variable "s") (variable "s") in
  let tc := checker_with [local_symbol "a" TYPE_ANY false; local_symbol "x" TYPE_INT true; local_symbol "s" TYPE_STRING false] in
  let env := env_of [("a"%string, VAL_BIGINT (Some (obj_bigint_from_int64 5))); ("x"%string, VAL_NIL); ("s"%string, new_string (bytes "t"))] in
  (exists e', typecheck_expression tc [] a1 = (tc, e', TYPE_INT) /\
     eval_expr 100 env e' = Computed (VAL_BIGINT (Some (obj_bigint_from_int64 6)))) /\
  (exists e', typecheck_expression tc [] x1 = (tc, e', TYPE_INT) /\
     eval_expr 100 env e' = Failed "Operands must be numbers or strings") /\
  (exists e', typecheck_expression tc [] ss = (tc, e', TYPE_ANY) /\ eval_expr 100 env e' = Failed "Operands must be numbers").
Proof.
  repeat split; eexists; (split; [vm_compute; reflexivity|]); vm_compute; reflexivity.
Qed.
