(* ===== verification/ConstFold.v ===== *)
(** * Constant folding: [src/src/compiler.c]

    [fold_binary], [fold_unary] and [fold_expression_recursive] rewrite an
    expression before code is generated: operators on literals are computed and
    neutral operands dropped. The compiler computes with the C operators, so
    that folding an integer operation that overflows is undefined here.

    Folding a checked expression keeps its value, up to the sign of zero. *)

From S2P Require Import Prelude Lexer.
From Stdlib Require Import String SpecFloat.
From S2P Require Import Doubles BigIntObj BigIntText Values Bytecode Ast Operators Eval TypeCheck.

Open Scope Z_scope.
Open Scope list_scope.

(** ** The code *)

(** [NotFolded] is the null pointer. *)
Inductive fold_result :=
  | Folded (e : Expr)
  | NotFolded
  | FoldUndefined.

Definition is_literal (e : Expr) : bool := match e with EXPR_LITERAL _ _ | EXPR_NIL _ => true | _ => false end.
Definition has_kind (t : TypeKind) (e : Expr) : bool := bool_decide (type_of e = Some t).
Definition literal_of (t : TypeKind) (e : Expr) : bool := match e with EXPR_LITERAL _ _ => has_kind t e | _ => false end.
Definition is_double_literal : Expr -> bool := literal_of TYPE_DOUBLE.
Definition is_bigint_literal : Expr -> bool := literal_of TYPE_BIGINT.
Definition is_string_literal : Expr -> bool := literal_of TYPE_STRING.
Definition is_bool_literal : Expr -> bool := literal_of TYPE_BOOL.
Definition is_nil (e : Expr) : bool := match e with EXPR_NIL _ => true | _ => false end.

Definition is_noop_primitive_cast (from_type to_type : option TypeKind) : bool :=
  match from_type, to_type with
  | Some f, Some t => bool_decide (f = t) && match t with TYPE_INT | TYPE_BOOL | TYPE_DOUBLE | TYPE_STRING | TYPE_BIGINT => true | _ => false end
  | _, _ => false
  end.

(** The members of the union. *)
Definition lit_int (e : Expr) : option Z := match e with EXPR_LITERAL _ (as_int i) => Some i | _ => None end.
Definition lit_double (e : Expr) : option Z := match e with EXPR_LITERAL _ (as_double d) => Some d | _ => None end.
Definition lit_string (e : Expr) : list Z := match e with EXPR_LITERAL _ (as_string (Some s)) => c_string s | _ => [] end.

Definition int_const (k : Z) (e : Expr) : bool :=
  literal_of TYPE_INT e && match lit_int e with Some i => i =? k | None => false end.
Definition double_const (k : Z) (e : Expr) : bool :=
  literal_of TYPE_DOUBLE e && match lit_double e with Some d => double_eq d k | None => false end.
Definition bool_const (k : bool) (e : Expr) : bool :=
  is_bool_literal e && match lit_int e with Some i => eqb (negb (i =? 0)) k | None => false end.
Definition empty_string (e : Expr) : bool := is_string_literal e && bool_decide (lit_string e = []).
Definition both (t : TypeKind) (l r : Expr) : bool := has_kind t l && has_kind t r.

(** The first of the expressions whose condition holds. *)
Fixpoint first_of (cases : list (bool * Expr)) : option Expr :=
  match cases with [] => None | (b, e) :: cases' => if b then Some e else first_of cases' end.

(** Identities that keep what is evaluated. *)
Definition fold_identity (op : TokenType) (l r : Expr) : option Expr :=
  match op with
  | TOKEN_PLUS =>
      if both TYPE_INT l r then first_of [(int_const 0 r, l); (int_const 0 l, r)]
      else if both TYPE_DOUBLE l r then first_of [(double_const 0 r, l); (double_const 0 l, r)]
      else first_of [(empty_string l && has_kind TYPE_STRING r, r); (empty_string r && has_kind TYPE_STRING l, l)]
  | TOKEN_MINUS => first_of [(both TYPE_INT l r && int_const 0 r, l); (both TYPE_DOUBLE l r && double_const 0 r, l)]
  | TOKEN_STAR =>
      if both TYPE_INT l r then first_of [(int_const 1 r, l); (int_const 1 l, r)]
      else if both TYPE_DOUBLE l r then first_of [(double_const double_one r, l); (double_const double_one l, r)]
      else None
  | TOKEN_SLASH => first_of [(both TYPE_INT l r && int_const 1 r, l); (both TYPE_DOUBLE l r && double_const double_one r, l)]
  | TOKEN_AND =>
      if both TYPE_BOOL l r
      then first_of [(bool_const false l, expr_create_literal_bool false); (bool_const true l, r); (bool_const true r, l)] else None
  | TOKEN_OR =>
      if both TYPE_BOOL l r
      then first_of [(bool_const true l, expr_create_literal_bool true); (bool_const false l, r); (bool_const false r, l)] else None
  | _ => None
  end.

Definition fold_bool (b : bool) : fold_result := Folded (expr_create_literal_bool b).
(** Both operands read as [int64_t]. *)
Definition with_lit_ints (l r : Expr) (k : Z -> Z -> fold_result) : fold_result :=
  match lit_int l, lit_int r with Some x, Some y => k x y | _, _ => FoldUndefined end.
Definition with_lit_doubles (l r : Expr) (k : Z -> Z -> fold_result) : fold_result :=
  match lit_double l, lit_double r with Some x, Some y => k x y | _, _ => FoldUndefined end.

Definition literals_equal (l r : Expr) : option bool :=
  if is_string_literal l && is_string_literal r then Some (bool_decide (lit_string l = lit_string r))
  else if is_double_literal l && is_double_literal r
  then match lit_double l, lit_double r with Some x, Some y => Some (double_eq x y) | _, _ => None end
  else if (is_bool_literal l && is_bool_literal r) || both TYPE_INT l r
  then match lit_int l, lit_int r with Some x, Some y => Some (x =? y) | _, _ => None end
  else Some false.
Definition fold_equality (negate : bool) (l r : Expr) : fold_result :=
  match literals_equal l r with Some b => fold_bool (xorb negate b) | None => FoldUndefined end.

Definition fold_bits (op : bit_op) (l r : Expr) : fold_result :=
  if both TYPE_INT l r then with_lit_ints l r (fun x y => Folded (expr_create_literal_int (bit_int op x y))) else NotFolded.

Definition fold_compare (op : cmp_op) (l r : Expr) : fold_result :=
  if negb (eqb (is_double_literal l) (is_double_literal r)) then NotFolded
  else if is_double_literal l then with_lit_doubles l r (fun x y => fold_bool (double_compare op x y))
  else if both TYPE_INT l r then with_lit_ints l r (fun x y => fold_bool (int_compare op x y))
  else NotFolded.

Definition fold_int (op : int_op) (x y : Z) : fold_result :=
  match zero_error op y with
  | Some _ => NotFolded
  | None => match int_arith op x y with Some r => Folded (expr_create_literal_int r) | None => FoldUndefined end
  end.
Definition fold_double (op : double_op) (x y : Z) : fold_result :=
  match double_zero_error op y with
  | Some _ => NotFolded
  | None => Folded (expr_create_literal_double (double_arith op x y))
  end.

(** [dop] is [None] for [%]. *)
Definition fold_arithmetic (concat : bool) (iop : int_op) (dop : option double_op) (l r : Expr) : fold_result :=
  if concat && is_string_literal l && is_string_literal r then Folded (expr_create_literal_string (lit_string l ++ lit_string r))
  else if is_string_literal l || is_string_literal r then NotFolded
  else
    let use_double := is_double_literal l || is_double_literal r in
    match dop with
    | None => if use_double then NotFolded else with_lit_ints l r (fold_int iop)
    | Some dop =>
        if negb use_double then with_lit_ints l r (fold_int iop)
        else if negb (is_double_literal l && is_double_literal r) then NotFolded
        else with_lit_doubles l r (fold_double dop)
    end.

Definition fold_logic (conj : bool) (l r : Expr) : fold_result :=
  if negb (is_bool_literal l && is_bool_literal r) then NotFolded
  else with_lit_ints l r (fun x y => fold_bool ((if conj then andb else orb) (negb (x =? 0)) (negb (y =? 0)))).

Definition fold_literals (op : TokenType) (l r : Expr) : fold_result :=
  if negb (is_literal l) || negb (is_literal r) then NotFolded
  else if is_bigint_literal l || is_bigint_literal r then NotFolded
  else if is_nil l || is_nil r then
    match op with
    | TOKEN_EQ_EQ => fold_bool (is_nil l && is_nil r)
    | TOKEN_BANG_EQ => fold_bool (negb (is_nil l && is_nil r))
    | _ => NotFolded
    end
  else
    match op with
    | TOKEN_EQ_EQ => fold_equality false l r
    | TOKEN_BANG_EQ => fold_equality true l r
    | TOKEN_AND => fold_logic true l r
    | TOKEN_OR => fold_logic false l r
    | TOKEN_BIT_AND => fold_bits BAnd l r
    | TOKEN_BIT_OR => fold_bits BOr l r
    | TOKEN_BIT_XOR => fold_bits BXor l r
    | TOKEN_LT => fold_compare CLt l r
    | TOKEN_LT_EQ => fold_compare CLe l r
    | TOKEN_GT => fold_compare CGt l r
    | TOKEN_GT_EQ => fold_compare CGe l r
    | TOKEN_PLUS => fold_arithmetic true IAdd (Some DAdd) l r
    | TOKEN_MINUS => fold_arithmetic false ISub (Some DSub) l r
    | TOKEN_STAR => fold_arithmetic false IMul (Some DMul) l r
    | TOKEN_SLASH => fold_arithmetic false IDiv (Some DDiv) l r
    | TOKEN_PERCENT => fold_arithmetic false IMod None l r
    | _ => NotFolded
    end.

Definition fold_binary (op : TokenType) (l r : Expr) : fold_result :=
  match fold_identity op l r with Some e => Folded e | None => fold_literals op l r end.

Definition fold_unary (op : TokenType) (o : Expr) : fold_result :=
  if negb (is_literal o) || is_bigint_literal o || is_nil o then NotFolded
  else
    match op with
    | TOKEN_NOT => if is_bool_literal o then match lit_int o with Some v => fold_bool (v =? 0) | None => FoldUndefined end else NotFolded
    | TOKEN_BIT_NOT =>
        if has_kind TYPE_INT o then match lit_int o with Some v => Folded (expr_create_literal_int (Z.lnot v)) | None => FoldUndefined end
        else NotFolded
    | TOKEN_MINUS =>
        if has_kind TYPE_DOUBLE o
        then match lit_double o with Some v => Folded (expr_create_literal_double (double_neg v)) | None => FoldUndefined end
        else if has_kind TYPE_INT o
        then match lit_int o with
             | Some v => match c_int64 (- v) with Some r => Folded (expr_create_literal_int r) | None => FoldUndefined end
             | None => FoldUndefined
             end
        else NotFolded
    | _ => NotFolded
    end.

(** The folded operand, or the operand itself. *)
Definition or_original (f : fold_result) (e : Expr) (k : Expr -> fold_result) : fold_result :=
  match f with Folded e' => k e' | NotFolded => k e | FoldUndefined => FoldUndefined end.

Fixpoint fold_expression_recursive (e : Expr) : fold_result :=
  match e with
  | EXPR_BINARY _ l r op =>
      or_original (fold_expression_recursive l) l (fun l' =>
        or_original (fold_expression_recursive r) r (fun r' => fold_binary op l' r'))
  | EXPR_UNARY _ o op => or_original (fold_expression_recursive o) o (fun o' => fold_unary op o')
  | EXPR_CAST _ v (Some target) =>
      match fold_expression_recursive v with
      | FoldUndefined => FoldUndefined
      | NotFolded => if is_noop_primitive_cast (type_of v) (Some target) then Folded v else NotFolded
      | Folded v' => Folded (if is_noop_primitive_cast (type_of v') (Some target) then v' else expr_create_cast v' (Some target))
      end
  | _ => NotFolded
  end.

(** ** What folding gives is smaller *)

Lemma expr_size_pos e : (1 <= expr_size e)%nat.
Proof. destruct e; simpl; lia. Qed.

(** A folded binary operator is one of its operands or a literal. *)
Definition operand_or_literal (l r e : Expr) : Prop := e = l \/ e = r \/ exists t p, e = EXPR_LITERAL (Some t) p /\ literal_ok (Some t) p = true.

Lemma first_of_some cases e : first_of cases = Some e -> exists b, In (b, e) cases /\ b = true.
Proof.
  induction cases as [|[b e'] cases IH]; cbn; [done|]. destruct b; [intros [= ->]; eauto|]. intros H. destruct (IH H) as (b & Hin & Hb). eauto.
Qed.
Lemma bool_literal_ok l r b : operand_or_literal l r (expr_create_literal_bool b).
Proof. right; right. exists TYPE_BOOL. eexists. split; [done|]. by destruct b. Qed.
Lemma int_literal_ok l r i : operand_or_literal l r (expr_create_literal_int i).
Proof. right; right. by exists TYPE_INT, (as_int i). Qed.
Lemma double_literal_ok l r d : operand_or_literal l r (expr_create_literal_double d).
Proof. right; right. by exists TYPE_DOUBLE, (as_double d). Qed.
Lemma plain_forallb s : Forall (fun c => c <> 0) s -> forallb (fun c => negb (c =? 0)) s = true.
Proof. intros H. apply forallb_forall. intros c Hc. rewrite Forall_forall in H. specialize (H c). rewrite list_elem_of_In in H. specialize (H Hc). lia. Qed.
Lemma string_literal_ok l r a b : operand_or_literal l r (expr_create_literal_string (lit_string a ++ lit_string b)).
Proof.
  right; right. exists TYPE_STRING. eexists. split; [done|]. apply plain_forallb, Forall_app. unfold lit_string.
  split; repeat case_match; try apply c_string_nonzero; constructor.
Qed.
#[local] Hint Resolve bool_literal_ok int_literal_ok double_literal_ok string_literal_ok : core.

Lemma fold_identity_shape op l r e : fold_identity op l r = Some e -> operand_or_literal l r e.
Proof.
  unfold fold_identity. intros H. destruct op; try done; repeat (case_match; try done);
    apply first_of_some in H as (b & Hin & _); cbn [In] in Hin; destruct_or?; simplify_eq; auto; try (by left); by right; left.
Qed.
Definition shaped (l r : Expr) (f : fold_result) : Prop := forall e, f = Folded e -> operand_or_literal l r e.
Lemma shaped_if l r (b : bool) f g : shaped l r f -> shaped l r g -> shaped l r (if b then f else g).
Proof. by destruct b. Qed.
Lemma shaped_none l r : shaped l r NotFolded /\ shaped l r FoldUndefined.
Proof. done. Qed.
Lemma shaped_bool l r b : shaped l r (fold_bool b).
Proof. intros e [= <-]. auto. Qed.
Lemma shaped_ints l r k : (forall x y, shaped l r (k x y)) -> shaped l r (with_lit_ints l r k).
Proof. intros H. unfold with_lit_ints. destruct (lit_int l), (lit_int r); try apply shaped_none; apply H. Qed.
Lemma shaped_doubles l r k : (forall x y, shaped l r (k x y)) -> shaped l r (with_lit_doubles l r k).
Proof. intros H. unfold with_lit_doubles. destruct (lit_double l), (lit_double r); try apply shaped_none; apply H. Qed.
Lemma shaped_int l r op x y : shaped l r (fold_int op x y).
Proof. unfold fold_int. destruct (zero_error op y); [apply shaped_none|]. destruct (int_arith op x y); [|apply shaped_none]. intros e [= <-]. auto. Qed.
Lemma shaped_double l r op x y : shaped l r (fold_double op x y).
Proof. unfold fold_double. destruct (double_zero_error op y); [apply shaped_none|]. intros e [= <-]. auto. Qed.
Lemma shaped_arithmetic c iop dop l r : shaped l r (fold_arithmetic c iop dop l r).
Proof.
  unfold fold_arithmetic. apply shaped_if; [intros e [= <-]; auto|]. apply shaped_if; [apply shaped_none|].
  destruct dop; repeat apply shaped_if; try apply shaped_none; auto using shaped_ints, shaped_doubles, shaped_int, shaped_double.
Qed.
Lemma shaped_equality n l r : shaped l r (fold_equality n l r).
Proof. unfold fold_equality. destruct (literals_equal l r); [apply shaped_bool|apply shaped_none]. Qed.
Lemma shaped_bits op l r : shaped l r (fold_bits op l r).
Proof. apply shaped_if; [|apply shaped_none]. apply shaped_ints. intros x y e [= <-]. auto. Qed.
Lemma shaped_compare op l r : shaped l r (fold_compare op l r).
Proof. repeat apply shaped_if; try apply shaped_none; auto using shaped_ints, shaped_doubles, shaped_bool. Qed.
Lemma shaped_logic c l r : shaped l r (fold_logic c l r).
Proof. apply shaped_if; [apply shaped_none|]. auto using shaped_ints, shaped_bool. Qed.
Lemma fold_literals_shape op l r : shaped l r (fold_literals op l r).
Proof.
  unfold fold_literals. repeat apply shaped_if; try apply shaped_none; destruct op;
    auto using shaped_arithmetic, shaped_equality, shaped_bits, shaped_compare, shaped_logic, shaped_bool; apply shaped_none.
Qed.
Lemma fold_binary_shape op l r e : fold_binary op l r = Folded e -> operand_or_literal l r e.
Proof.
  unfold fold_binary. destruct (fold_identity op l r) eqn:E; [intros [= <-]; by eapply fold_identity_shape|apply fold_literals_shape].
Qed.
Lemma fold_unary_shape op o e : fold_unary op o = Folded e -> exists t p, e = EXPR_LITERAL (Some t) p /\ literal_ok (Some t) p = true.
Proof.
  unfold fold_unary, fold_bool. intros H. destruct op; repeat (case_match; try discriminate H); simplify_eq; do 2 eexists; (split; [reflexivity|]);
    try reflexivity; by case_match.
Qed.

Lemma fold_size e : forall e', fold_expression_recursive e = Folded e' -> (expr_size e' < expr_size e)%nat.
Proof.
  assert (forall f e k e', or_original f e k = Folded e' ->
    (forall e0, f = Folded e0 -> (expr_size e0 < expr_size e)%nat) -> exists e0, (expr_size e0 <= expr_size e)%nat /\ k e0 = Folded e') as Hor.
  { intros [e0| |] e1 k e' H Hs; cbn in H; [|eauto|done]. exists e0. split; [|done]. specialize (Hs e0 eq_refl). lia. }
  induction e as [| |t l IHl r IHr op|t o IHo op|t v IHv target| |]; intros e' H; cbn [fold_expression_recursive] in H; try done.
  - apply Hor in H as (l' & Hl & H); [|done]. apply Hor in H as (r' & Hr & H); [|done].
    apply fold_binary_shape in H as [->|[->|(? & ? & -> & _)]]; simpl; pose proof (expr_size_pos l); pose proof (expr_size_pos r); lia.
  - apply Hor in H as (o' & Ho & H); [|done]. apply fold_unary_shape in H as (? & ? & -> & _). simpl. pose proof (expr_size_pos o). lia.
  - destruct target as [target|]; [|done]. destruct (fold_expression_recursive v) as [v'| |] eqn:E; [|case_match; simplify_eq; simpl; lia|done].
    specialize (IHv v' eq_refl). injection H as <-. case_match; simpl; lia.
Qed.

(** ** What folding keeps *)

Section Folding.
Context (limit : Z) (env : list Z -> option Value).
Notation eval := (eval_expr limit env).

(** [r'] is what becomes of [r]: nothing is said of an overflow, and a string
    that would be too long for the machine is not noticed when it is built by
    the compiler. *)
Definition refines (r r' : arith_result) : Prop := r = ComputeUndefined \/ r = Failed string_limit_error \/ result_close r r'.
#[local] Instance refines_preorder : PreOrder refines.
Proof.
  unfold refines. split; [right; right; reflexivity|]. intros a b c [->|[->|H1]] H2; auto.
  destruct H2 as [->|[->|H2]]; [left|right; left|right; right; by etransitivity]; by destruct a.
Qed.
Lemma close_refines r r' : result_close r r' -> refines r r'.
Proof. unfold refines. auto. Qed.

(** Every part of the expression has the type it is annotated with; a
    remainder of integers is annotated as an integer. *)
Fixpoint annotated (e : Expr) : Prop :=
  (exists t, type_of e = Some t /\ t <> TYPE_ANY /\ result_typed (eval e) t) /\
  match e with
  | EXPR_LITERAL t p => literal_ok t p = true
  | EXPR_BINARY t l r op => annotated l /\ annotated r /\ (op = TOKEN_PERCENT -> both TYPE_INT l r = true -> t = Some TYPE_INT)
  | EXPR_UNARY _ o _ => annotated o
  | EXPR_CAST _ v target => annotated v /\ exists t, target = Some t /\ primitive t = true
  | _ => True
  end.
Lemma annotated_typed e : annotated e -> exists t, type_of e = Some t /\ t <> TYPE_ANY /\ result_typed (eval e) t.
Proof. destruct e; by intros [H _]. Qed.
Lemma annotated_kind t e : annotated e -> has_kind t e = true -> result_typed (eval e) t.
Proof. intros H Hk. destruct (annotated_typed e H) as (t' & H1 & _ & H2). apply bool_decide_eq_true in Hk. congruence. Qed.
Lemma annotated_literal e : annotated e -> match e with EXPR_LITERAL t p => literal_ok t p = true | _ => True end.
Proof. destruct e; try done. by intros [_ H]. Qed.
Lemma literal_annotated t p : literal_ok (Some t) p = true -> annotated (EXPR_LITERAL (Some t) p).
Proof.
  intros H. split; [|done]. exists t. split; [done|]. destruct t, p as [| |[]]; try done. split; [done|]. eexists. split; [reflexivity|].
  apply Forall_forall. intros c Hc ->. cbn in H. rewrite forallb_forall in H. by apply list_elem_of_In, H in Hc.
Qed.

(** *** Literals *)

Lemma literal_of_inv t e : literal_of t e = true -> exists p, e = EXPR_LITERAL (Some t) p.
Proof. destruct e; try done. cbn. intros H. apply bool_decide_eq_true in H. cbn in H. subst. eauto. Qed.
Lemma int_const_eval k e : int_const k e = true -> eval e = Computed (VAL_INT k).
Proof.
  unfold int_const. intros [Hl H]%andb_true_iff. apply literal_of_inv in Hl as (p & ->). destruct p; try done. cbn in H. by apply Z.eqb_eq in H as ->.
Qed.
Lemma double_const_eval k e : double_const k e = true -> exists d, eval e = Computed (VAL_DOUBLE d) /\ double_eq d k = true.
Proof.
  unfold double_const. intros [Hl H]%andb_true_iff. apply literal_of_inv in Hl as (p & ->). destruct p; try done. eauto.
Qed.
Lemma bool_const_eval k e : bool_const k e = true -> eval e = Computed (VAL_BOOL k).
Proof.
  unfold bool_const, is_bool_literal. intros [Hl H]%andb_true_iff. apply literal_of_inv in Hl as (p & ->). destruct p; try done. cbn in H.
  apply eqb_prop in H as <-. done.
Qed.
Lemma empty_string_eval e : annotated e -> empty_string e = true -> eval e = Computed (VAL_STRING (Some (mkStr UINT32_MAX (Some [])))).
Proof.
  unfold empty_string, is_string_literal. intros Ha [Hl H]%andb_true_iff. apply literal_of_inv in Hl as (p & ->). apply annotated_literal in Ha.
  destruct p as [| |[[|c s]|]]; try done. apply bool_decide_eq_true in H. cbn in Ha, H. by destruct (c =? 0).
Qed.

(** *** Neutral operands *)

Definition binary_value (op : TokenType) (a b : arith_result) : arith_result := rbind a (fun x => rbind b (fun y => eval_operator limit op x y)).
Lemma eval_binary t op l r : logical op = false -> eval (EXPR_BINARY t l r op) = binary_value op (eval l) (eval r).
Proof. by destruct op. Qed.

Lemma neutral_right op t a b k : result_typed a t -> b = Computed k ->
  (forall x, has_type x t -> refines (eval_operator limit op x k) (Computed x)) -> refines (binary_value op a b) a.
Proof. intros Ha -> H. destruct a as [x| | |]; [by apply H|apply close_refines; reflexivity..]. Qed.
Lemma neutral_left op t a b k : result_typed b t -> a = Computed k ->
  (forall x, has_type x t -> refines (eval_operator limit op k x) (Computed x)) -> refines (binary_value op a b) b.
Proof. intros Hb -> H. destruct b as [x| | |]; [by apply H|apply close_refines; reflexivity..]. Qed.

Lemma int_result_refines y x : y = x -> refines (int_result (c_int64 y)) (Computed (VAL_INT x)).
Proof. intros ->. unfold c_int64. destruct (_ && _); [by right; right; left|by left]. Qed.
Lemma double_refines x y : double_close x y -> refines (Computed (VAL_DOUBLE x)) (Computed (VAL_DOUBLE y)).
Proof. intros H. apply close_refines. by right. Qed.
Lemma concat_refines s t u : (u = s /\ string_chars t = [] \/ u = t /\ string_chars s = []) -> plain u ->
  refines (concat_strings limit s t) (Computed (VAL_STRING (Some u))).
Proof.
  intros Hu (cs & Hc & Hp). unfold concat_strings. destruct (_ <? _); [by left|]. destruct (_ <? _); [by right; left|].
  right; right. right. cbn. rewrite Hc. f_equal. assert (string_chars u = cs) as Hcs by (unfold string_chars; by rewrite Hc).
  destruct Hu as [[-> Ht]|[-> Ht]]; rewrite Ht, Hcs, ?app_nil_r; by apply c_string_id.
Qed.

(** The right operand is a zero or a one. *)
Lemma int_neutral op k : match op with TOKEN_PLUS | TOKEN_MINUS => k = 0 | TOKEN_STAR | TOKEN_SLASH => k = 1 | _ => False end ->
  forall x, has_type x TYPE_INT -> refines (eval_operator limit op x (VAL_INT k)) (Computed x).
Proof.
  intros Hk x [i ->]%typed_inv. destruct op; try done; subst k; apply int_result_refines; rewrite ?Z.quot_1_r; lia.
Qed.
Lemma int_neutral_left op k : match op with TOKEN_PLUS => k = 0 | TOKEN_STAR => k = 1 | _ => False end ->
  forall x, has_type x TYPE_INT -> refines (eval_operator limit op (VAL_INT k) x) (Computed x).
Proof. intros Hk x [i ->]%typed_inv. destruct op; try done; subst k; apply int_result_refines; lia. Qed.
Lemma double_neutral op d :
  match op with TOKEN_PLUS | TOKEN_MINUS => double_eq d 0 = true | TOKEN_STAR | TOKEN_SLASH => double_eq d double_one = true | _ => False end ->
  forall x, has_type x TYPE_DOUBLE -> refines (eval_operator limit op x (VAL_DOUBLE d)) (Computed x).
Proof.
  intros Hd x [i ->]%typed_inv. destruct op; try done; cbn [eval_operator].
  - by apply double_refines, double_add_zero.
  - by apply double_refines, double_sub_zero.
  - by apply double_refines, double_mul_one.
  - cbn -[double_arith double_eq]. destruct (double_eq d 0) eqn:E; [|by apply double_refines, double_div_one].
    apply double_eq_zero in E as [s E]. apply double_eq_one in Hd. rewrite E in Hd. discriminate Hd.
Qed.
Lemma double_neutral_left op d :
  match op with TOKEN_PLUS => double_eq d 0 = true | TOKEN_STAR => double_eq d double_one = true | _ => False end ->
  forall x, has_type x TYPE_DOUBLE -> refines (eval_operator limit op (VAL_DOUBLE d) x) (Computed x).
Proof.
  intros Hd x [i ->]%typed_inv. destruct op; try done; cbn [eval_operator]; apply double_refines;
    [rewrite double_add_comm; by apply double_add_zero|rewrite double_mul_comm; by apply double_mul_one].
Qed.

Ltac by_kind H := apply andb_true_iff in H as [? ?].
Lemma fold_identity_correct op l r t e : annotated l -> annotated r -> fold_identity op l r = Some e ->
  refines (eval (EXPR_BINARY t l r op)) (eval e).
Proof.
  intros Ha Hb H.
  assert (forall T e, annotated e -> has_kind T e = true -> result_typed (eval e) T) as K by (intros; by apply annotated_kind).
  assert (forall T, both T l r = true -> result_typed (eval l) T /\ result_typed (eval r) T) as B
    by (intros T HB; apply andb_true_iff in HB as [? ?]; auto).
  unfold fold_identity in H. destruct op; try done; try rewrite eval_binary by done.
  - destruct (both TYPE_INT l r) eqn:E1; [|destruct (both TYPE_DOUBLE l r) eqn:E2].
    + destruct (B _ E1). apply first_of_some in H as (b & [[= <- <-]|[[= <- <-]|[]]] & Hc); apply int_const_eval in Hc;
        [eapply neutral_right|eapply neutral_left]; eauto; [by apply int_neutral|by apply int_neutral_left].
    + destruct (B _ E2). apply first_of_some in H as (b & [[= <- <-]|[[= <- <-]|[]]] & Hc); apply double_const_eval in Hc as (d & Hd & Hz);
        [eapply neutral_right|eapply neutral_left]; eauto; [by apply double_neutral|by apply double_neutral_left].
    + apply first_of_some in H as (b & [[= <- <-]|[[= <- <-]|[]]] & Hc); apply andb_true_iff in Hc as [Hc Hk];
        (apply empty_string_eval in Hc; [|done]); [eapply neutral_left|eapply neutral_right]; eauto;
        intros x (s & -> & Hp)%typed_inv; cbn [eval_operator vm_compute_arithmetic_op is_bigint is_double orb andb];
        (apply concat_refines; [|done]); auto.
  - apply first_of_some in H as (b & [[= <- <-]|[[= <- <-]|[]]] & Hc); apply andb_true_iff in Hc as [HB Hc]; destruct (B _ HB).
    + apply int_const_eval in Hc. eapply neutral_right; eauto. by apply int_neutral.
    + apply double_const_eval in Hc as (d & Hd & Hz). eapply neutral_right; eauto. by apply double_neutral.
  - destruct (both TYPE_INT l r) eqn:E1; [|destruct (both TYPE_DOUBLE l r) eqn:E2; [|done]].
    + destruct (B _ E1). apply first_of_some in H as (b & [[= <- <-]|[[= <- <-]|[]]] & Hc); apply int_const_eval in Hc;
        [eapply neutral_right|eapply neutral_left]; eauto; [by apply int_neutral|by apply int_neutral_left].
    + destruct (B _ E2). apply first_of_some in H as (b & [[= <- <-]|[[= <- <-]|[]]] & Hc); apply double_const_eval in Hc as (d & Hd & Hz);
        [eapply neutral_right|eapply neutral_left]; eauto; [by apply double_neutral|by apply double_neutral_left].
  - apply first_of_some in H as (b & [[= <- <-]|[[= <- <-]|[]]] & Hc); apply andb_true_iff in Hc as [HB Hc]; destruct (B _ HB).
    + apply int_const_eval in Hc. eapply neutral_right; eauto. by apply int_neutral.
    + apply double_const_eval in Hc as (d & Hd & Hz). eapply neutral_right; eauto. by apply double_neutral.
  - destruct (both TYPE_BOOL l r) eqn:E1; [|done]. destruct (B _ E1) as [Tl Tr]. apply close_refines. cbn [eval_expr].
    apply first_of_some in H as (b & [[= <- <-]|[[= <- <-]|[[= <- <-]|[]]]] & Hc); apply bool_const_eval in Hc.
    + by rewrite Hc.
    + by rewrite Hc.
    + destruct (eval l) as [x| | |]; try reflexivity. apply (typed_inv x TYPE_BOOL) in Tl as [[] ->]; [by rewrite Hc|reflexivity].
  - destruct (both TYPE_BOOL l r) eqn:E1; [|done]. destruct (B _ E1) as [Tl Tr]. apply close_refines. cbn [eval_expr].
    apply first_of_some in H as (b & [[= <- <-]|[[= <- <-]|[[= <- <-]|[]]]] & Hc); apply bool_const_eval in Hc.
    + by rewrite Hc.
    + by rewrite Hc.
    + destruct (eval l) as [x| | |]; try reflexivity. apply (typed_inv x TYPE_BOOL) in Tl as [[] ->]; [reflexivity|by rewrite Hc].
Qed.

(** *** Operators on literals *)

Inductive lit_view : Expr -> Value -> Prop :=
  | view_int i : lit_view (EXPR_LITERAL (Some TYPE_INT) (as_int i)) (VAL_INT i)
  | view_bool (b : bool) : lit_view (EXPR_LITERAL (Some TYPE_BOOL) (as_int (if b then 1 else 0))) (VAL_BOOL b)
  | view_double d : lit_view (EXPR_LITERAL (Some TYPE_DOUBLE) (as_double d)) (VAL_DOUBLE d)
  | view_string s : Forall (fun c => c <> 0) s ->
      lit_view (EXPR_LITERAL (Some TYPE_STRING) (as_string (Some s))) (VAL_STRING (Some (mkStr UINT32_MAX (Some s))))
  | view_nil t : lit_view (EXPR_NIL t) VAL_NIL.

Lemma literal_view e : annotated e -> is_literal e = true -> is_bigint_literal e = false -> exists v, lit_view e v /\ eval e = Computed v.
Proof.
  intros Ha Hl Hb. destruct e as [t p| | | | |t|]; try done; [|exists VAL_NIL; split; [constructor|done]].
  pose proof (annotated_typed _ Ha) as (t' & Ht & _). cbn in Ht. subst t. apply annotated_literal in Ha.
  destruct t', p as [i| |[s|]]; try done; eexists; (split; [|reflexivity]); try constructor.
  - cbn in Ha. destruct (Z.eqb_spec i 0) as [->|]; [apply (view_bool false)|]. destruct (Z.eqb_spec i 1) as [->|]; [apply (view_bool true)|done].
  - apply Forall_forall. intros c Hc ->. cbn in Ha. rewrite forallb_forall in Ha. by apply list_elem_of_In, Ha in Hc.
Qed.

Definition folds (f : fold_result) (r : arith_result) : Prop :=
  match f with Folded e => refines r (eval e) | NotFolded | FoldUndefined => True end.

Lemma folds_int x r : refines r (Computed (VAL_INT x)) -> folds (Folded (expr_create_literal_int x)) r.
Proof. done. Qed.
Lemma folds_bool b : folds (fold_bool b) (Computed (VAL_BOOL b)).
Proof. apply close_refines. by destruct b; left. Qed.
Lemma folds_fold_int op x y :
  folds (fold_int op x y) (match zero_error op y with Some m => Failed m | None => int_result (int_arith op x y) end).
Proof.
  unfold fold_int. destruct (zero_error op y); [done|]. destruct (int_arith op x y); [|done]. apply close_refines. by left.
Qed.
Lemma folds_fold_double op x y :
  folds (fold_double op x y) (match double_zero_error op y with Some m => Failed m | None => Computed (VAL_DOUBLE (double_arith op x y)) end).
Proof. unfold fold_double. destruct (double_zero_error op y); [done|]. apply close_refines. by left. Qed.

Ltac lit_cases Hl Hr := inversion Hl; subst; inversion Hr; subst.
Ltac literal_simpl :=
  unfold is_string_literal, is_double_literal, is_bool_literal, literal_of, both, has_kind; cbn [type_of lit_int lit_double lit_string];
  repeat match goal with |- context [bool_decide (Some ?a = Some ?b)] =>
    first [rewrite (bool_decide_eq_true_2 (Some a = Some b)) by reflexivity | rewrite (bool_decide_eq_false_2 (Some a = Some b)) by discriminate] end;
  cbn [andb orb negb].

Lemma equality_folds n l r a b : lit_view l a -> lit_view r b -> is_nil l || is_nil r = false -> folds (fold_equality n l r) (eval_equality n a b).
Proof.
  intros Hl Hr Hn. unfold fold_equality, literals_equal, eval_equality. lit_cases Hl Hr; try discriminate Hn; literal_simpl; cbn [value_equals];
    try apply folds_bool.
  - destruct b0, b1; apply folds_bool.
  - cbn [chars option_map]. rewrite !c_string_id by done.
    replace (bool_decide (Some s = Some s0)) with (bool_decide (s = s0)) by (apply bool_decide_ext; split; congruence). apply folds_bool.
Qed.

Ltac not_folded := lazymatch goal with |- folds NotFolded _ => exact I end.
Lemma bits_folds op l r a b : lit_view l a -> lit_view r b -> is_nil l || is_nil r = false ->
  folds (fold_bits op l r) (compute_bits op a b).
Proof.
  intros Hl Hr Hn. unfold fold_bits. lit_cases Hl Hr; try discriminate Hn; literal_simpl; try not_folded. apply close_refines. by left.
Qed.
Lemma compare_folds op l r a b : lit_view l a -> lit_view r b -> is_nil l || is_nil r = false ->
  folds (fold_compare op l r) (eval_comparison op a b).
Proof.
  intros Hl Hr Hn. unfold fold_compare. lit_cases Hl Hr; try discriminate Hn; literal_simpl; cbn [eqb negb]; try not_folded; apply folds_bool.
Qed.

(** An operation of wrong types has no value; the checker rules it out. *)
Definition type_safe (r : arith_result) : Prop := forall m, r = Failed m -> m ∈ value_errors.

Lemma arithmetic_folds op g l r a b c iop dop :
  match op with
  | TOKEN_PLUS => g = GAdd /\ c = true /\ iop = IAdd /\ dop = Some DAdd
  | TOKEN_MINUS => g = GSub /\ c = false /\ iop = ISub /\ dop = Some DSub
  | TOKEN_STAR => g = GMul /\ c = false /\ iop = IMul /\ dop = Some DMul
  | TOKEN_SLASH => g = GDiv /\ c = false /\ iop = IDiv /\ dop = Some DDiv
  | _ => False
  end ->
  lit_view l a -> lit_view r b -> is_nil l || is_nil r = false -> type_safe (eval_operator limit op a b) ->
  folds (fold_arithmetic c iop dop l r) (eval_operator limit op a b).
Proof.
  assert (forall m r f, m ∉ value_errors -> type_safe r -> r = Failed m -> folds f r) as Bad by (intros m r0 f Hm Hs ->; exfalso; apply Hm, Hs; done).
  intros Hop Hl Hr Hn Hs. unfold fold_arithmetic.
  lit_cases Hl Hr; try discriminate Hn; destruct op; try done; destruct Hop as (-> & -> & -> & ->); literal_simpl; try not_folded;
    lazymatch goal with
    | |- folds (with_lit_ints _ _ _) (eval_operator _ _ (VAL_INT _) (VAL_INT _)) => apply folds_fold_int
    | |- folds (with_lit_doubles _ _ _) _ => apply folds_fold_double
    | |- folds (with_lit_ints _ _ _) _ => eapply Bad; [|exact Hs|reflexivity]; unfold value_errors; set_solver
    | _ => idtac
    end.
  cbn [eval_operator vm_compute_arithmetic_op is_bigint is_double orb andb folds]. rewrite !c_string_id by done.
  unfold concat_strings, string_chars. cbn [chars]. destruct (_ <? _); [by left|]. destruct (_ <? _); [by right; left|].
  apply close_refines. left. unfold new_string. rewrite c_string_id; [done|]. by apply Forall_app.
Qed.
Lemma mod_folds l r a b : lit_view l a -> lit_view r b -> is_nil l || is_nil r = false -> type_safe (eval_mod a b) ->
  folds (fold_arithmetic false IMod None l r) (eval_mod a b).
Proof.
  intros Hl Hr Hn Hs. unfold fold_arithmetic. lit_cases Hl Hr; try discriminate Hn; literal_simpl; try not_folded; try apply (folds_fold_int IMod).
  all: exfalso; pose proof (Hs _ eq_refl) as Hm; unfold value_errors in Hm; set_solver.
Qed.

Lemma logic_folds absorbing l r a b : lit_view l a -> lit_view r b -> is_nil l || is_nil r = false ->
  folds (fold_logic (negb absorbing) l r) (eval_logic absorbing a (Computed b)).
Proof.
  intros Hl Hr Hn. unfold fold_logic. lit_cases Hl Hr; try discriminate Hn; literal_simpl; try not_folded.
  destruct absorbing, b0, b1; apply folds_bool.
Qed.

Lemma fold_literals_correct op l r t e : annotated l -> annotated r -> type_safe (eval (EXPR_BINARY t l r op)) ->
  fold_literals op l r = Folded e -> refines (eval (EXPR_BINARY t l r op)) (eval e).
Proof.
  intros Ha Hb Hs H. unfold fold_literals in H. destruct (is_literal l) eqn:Ll, (is_literal r) eqn:Lr; try done. cbn [negb orb] in H.
  destruct (is_bigint_literal l) eqn:Bl, (is_bigint_literal r) eqn:Br; try done. cbn [orb] in H.
  destruct (literal_view l Ha Ll Bl) as (a & Va & Ea), (literal_view r Hb Lr Br) as (b & Vb & Eb).
  destruct (is_nil l || is_nil r) eqn:Hn.
  - destruct op; try done; rewrite eval_binary, Ea, Eb by done; injection H as <-; lit_cases Va Vb; try discriminate Hn; apply close_refines; by left.
  - assert (forall f rr, f = Folded e -> folds f rr -> refines rr (eval e)) as F by (by intros f rr ->).
    destruct op; try done; try (rewrite eval_binary in Hs by done; rewrite eval_binary by done); cbn [eval_expr] in Hs |- *; rewrite Ea, Eb in Hs; rewrite Ea, Eb; cbn [binary_value rbind eval_operator] in *;
      try (eapply F; [exact H|]; first
        [ by apply equality_folds | by apply bits_folds | by apply compare_folds
        | by apply mod_folds | by apply (logic_folds false) | by apply (logic_folds true)
        | by apply (arithmetic_folds TOKEN_PLUS GAdd) | by apply (arithmetic_folds TOKEN_MINUS GSub)
        | by apply (arithmetic_folds TOKEN_STAR GMul) | by apply (arithmetic_folds TOKEN_SLASH GDiv) ]).
Qed.

Lemma fold_binary_correct op l r t e : annotated l -> annotated r -> type_safe (eval (EXPR_BINARY t l r op)) ->
  fold_binary op l r = Folded e -> refines (eval (EXPR_BINARY t l r op)) (eval e).
Proof.
  intros Ha Hb Hs. unfold fold_binary. destruct (fold_identity op l r) eqn:E; [intros [= <-]; by apply fold_identity_correct|].
  by apply fold_literals_correct.
Qed.

Lemma fold_unary_correct op o t e : annotated o -> fold_unary op o = Folded e -> refines (eval (EXPR_UNARY t o op)) (eval e).
Proof.
  intros Ha H. unfold fold_unary in H. destruct (is_literal o) eqn:Ll; [|done]. destruct (is_bigint_literal o) eqn:Bl; [done|].
  destruct (literal_view o Ha Ll Bl) as (a & Va & Ea). cbn [eval_expr]. rewrite Ea. cbn [rbind]. destruct (is_nil o) eqn:Hn; [done|].
  cbn [negb orb] in H.
  assert (forall f rr, f = Folded e -> folds f rr -> refines rr (eval e)) as F by (by intros f rr ->). apply (F _ _ H). clear F H.
  inversion Va; subst; try discriminate Hn; destruct op; try exact I; literal_simpl; try not_folded; cbn [eval_unary compute_neg compute_bit_not].
  - destruct (c_int64 (- i)); [|exact I]. apply close_refines. by left.
  - apply close_refines. by left.
  - destruct b; apply folds_bool.
  - apply close_refines. by left.
Qed.

(** *** Parts of an expression *)

Lemma logic_refines absorbing a b b' : refines b b' -> refines (eval_logic absorbing a b) (eval_logic absorbing a b').
Proof. intros H. destruct a; cbn; try reflexivity. by destruct (eqb _ _). Qed.
Lemma logic_close absorbing a a' b : value_close a a' -> result_close (eval_logic absorbing a b) (eval_logic absorbing a' b).
Proof.
  intros H. destruct (value_close_inv _ _ H) as [->|[(x & y & -> & -> & _)|(s & t & -> & -> & _)]]; reflexivity.
Qed.
Lemma rbind_refines a a' k k' : refines a a' -> (forall x, refines (k x) (k' x)) ->
  (forall x y, value_close x y -> result_close (k x) (k y)) -> refines (rbind a k) (rbind a' k').
Proof.
  intros Ha Hk Hc. destruct Ha as [->|[->|Ha]]; [by left|by right; left|].
  destruct a as [x| | |], a' as [y| | |]; try (simplify_eq/=; apply close_refines; reflexivity). cbn [rbind].
  transitivity (k y); [by apply close_refines, Hc|apply Hk].
Qed.
Lemma binary_refines t op l r l' r' : refines (eval l) (eval l') -> refines (eval r) (eval r') ->
  refines (eval (EXPR_BINARY t l r op)) (eval (EXPR_BINARY t l' r' op)).
Proof.
  intros Hl Hr. destruct (logical op) eqn:Ho.
  - destruct op; try done; cbn [eval_expr]; apply rbind_refines; auto using logic_refines, logic_close.
  - rewrite !eval_binary by done. apply rbind_refines; [done|..].
    + intros x. apply rbind_refines; [done|reflexivity|]. intros y z H. by apply operator_close.
    + intros x y H. destruct (eval r) as [z| | |]; cbn [rbind]; try reflexivity. by apply operator_close.
Qed.

Lemma has_type_close a b t : value_close a b -> has_type a t -> has_type b t.
Proof.
  intros H. destruct (value_close_inv _ _ H) as [->|[(x & y & -> & -> & _)|(s & u & -> & -> & Hs)]]; [done|by destruct t|].
  destruct t; try done. cbn. unfold plain. by rewrite Hs.
Qed.
Lemma cast_same t a : has_type a t -> primitive t = true -> eval_cast t a = Computed a.
Proof. intros Ha Hp. destruct t; try done; apply typed_inv in Ha; cbn in Ha; destruct_and?; naive_solver. Qed.
Lemma noop_inv f t : is_noop_primitive_cast f (Some t) = true -> f = Some t /\ primitive t = true.
Proof.
  unfold is_noop_primitive_cast. destruct f as [f|]; [|done]. intros [H1 H2]%andb_true_iff. apply bool_decide_eq_true in H1 as ->. by destruct t.
Qed.
Lemma noop_cast ty v t : annotated v -> is_noop_primitive_cast (type_of v) (Some t) = true ->
  eval (EXPR_CAST ty v (Some t)) = eval v.
Proof.
  intros Ha [Ht Hp]%noop_inv. destruct (annotated_typed v Ha) as (t' & Ht' & _ & Hr). replace t' with t in Hr by congruence.
  cbn [eval_expr]. destruct (eval v) as [x| | |]; try done. by apply cast_same.
Qed.
Lemma type_safe_refines r r' : refines r r' -> type_safe r -> type_safe r' \/ r = ComputeUndefined \/ r = Failed string_limit_error.
Proof.
  intros [->|[->|H]] Hs; [auto..|left]. intros m ->. apply Hs. by destruct r; simplify_eq/=.
Qed.

Lemma fold_correct e : forall e', annotated e -> fold_expression_recursive e = Folded e' -> annotated e' /\ refines (eval e) (eval e').
Proof.
  assert (forall e f k e', annotated e -> or_original f e k = Folded e' -> (forall e0, f = Folded e0 -> annotated e0 /\ refines (eval e) (eval e0)) ->
    exists e0, annotated e0 /\ refines (eval e) (eval e0) /\ k e0 = Folded e') as Hor.
  { intros e1 [e0| |] k e' Ha H Hf; cbn in H; [|exists e1; split; [done|split; [reflexivity|done]]|done].
    destruct (Hf e0 eq_refl). eauto. }
  induction e as [| |t l IHl r IHr op|t o IHo op|t v IHv target| |]; intros e' Ha H; cbn [fold_expression_recursive] in H; try done.
  - destruct Ha as [(ty & _ & _ & Ht) (Hl & Hr & _)].
    apply Hor in H as (l' & Al & Rl & H); [|done|auto]. apply Hor in H as (r' & Ar & Rr & H); [|done|auto].
    pose proof (binary_refines t op l r l' r' Rl Rr) as Hb. split.
    + apply fold_binary_shape in H as [->|[->|(? & ? & -> & Hok)]]; [done..|by apply literal_annotated].
    + assert (type_safe (eval (EXPR_BINARY t l r op))) as Hs by (intros m E; by rewrite E in Ht).
      destruct (type_safe_refines _ _ Hb Hs) as [Hs'|[->| ->]]; [|by left|by right; left].
      etransitivity; [exact Hb|]. by apply fold_binary_correct.
  - destruct Ha as [_ Ho]. apply Hor in H as (o' & Ao & Ro & H); [|done|auto]. split.
    + apply fold_unary_shape in H as (? & ? & -> & Hok). by apply literal_annotated.
    + etransitivity; [|by eapply (fold_unary_correct op o' t)]. cbn [eval_expr]. apply rbind_refines; [done|reflexivity|]. intros x y. apply unary_close.
  - destruct target as [target|]; [|done]. destruct Ha as [_ (Hv & tt & [= <-] & Hp)].
    destruct (fold_expression_recursive v) as [v'| |] eqn:E; [|destruct (is_noop_primitive_cast (type_of v) (Some target)) eqn:En; [|done]|done].
    + destruct (IHv v' Hv eq_refl) as [Av Rv]. injection H as <-.
      assert (refines (eval (EXPR_CAST t v (Some target))) (eval (EXPR_CAST (Some target) v' (Some target)))) as Hr.
      { cbn [eval_expr]. apply rbind_refines; [done|reflexivity|]. intros x y. apply cast_close. }
      destruct (is_noop_primitive_cast (type_of v') (Some target)) eqn:En.
      * split; [done|]. by rewrite <- (noop_cast (Some target) v' target Av En).
      * split; [|done]. split; [|eauto]. exists target. split; [done|]. split; [by destruct target|].
        destruct (annotated_typed v' Av) as (vt & _ & Hvt & Tv). cbn [expr_create_cast eval_expr]. destruct (eval v') as [x| | |]; try done.
        by eapply cast_typed.
    + injection H as <-. split; [done|]. rewrite (noop_cast t v target Hv En). reflexivity.
Qed.
End Folding.

(** ** Folding checked expressions *)

Lemma typecheck_annotated limit env file e : forall tc tc' e' t,
  typecheck_expression tc file e = (tc', e', t) -> error tc' = None -> static tc e' = true -> env_typed env tc -> annotated limit env e'.
Proof.
  induction e as [ty p|ty n|ty l IHl r IHr op|ty o IHo op|ty v IHv target|ty|ty]; intros tc tc' e' t H He Hs Henv;
    pose proof (expression_typed limit env file _ tc tc' e' t H He Hs Henv) as (T1 & T2 & T3); cbn [typecheck_expression] in H.
  - injection H as <- <- <-. split; [eauto|]. cbn [static] in Hs. by apply andb_true_iff in Hs as [_ Hs].
  - destruct (typecheck_identifier tc file n). injection H as <- <- <-. split; [eauto|done].
  - pose proof (expression_extends file l tc) as Xl. destruct (typecheck_expression tc file l) as [[tc1 l'] lt] eqn:El.
    pose proof (expression_extends file r tc1) as Xr. destruct (typecheck_expression tc1 file r) as [[tc2 r'] rt] eqn:Er.
    pose proof (binary_extends tc2 op lt rt) as Xb. destruct (typecheck_binary tc2 op lt rt) as [tc3 t3] eqn:Eb. injection H as <- <- <-.
    cbn [fst static] in *. apply andb_true_iff in Hs as [_ Hs]. apply andb_true_iff in Hs as [Hsl Hsr].
    assert (error tc2 = None) as E2 by (by apply Xb). assert (error tc1 = None) as E1 by (by apply Xr).
    split; [eauto|]. split; [by eapply IHl|]. split.
    { eapply IHr; [exact Er|done| |]; [by rewrite (static_scopes tc tc1) by apply Xl|eapply env_scopes; [apply Xl|done]]. }
    intros -> [Kl Kr]%andb_true_iff. apply bool_decide_eq_true in Kl, Kr.
    destruct (expression_typed limit env file l tc tc1 l' lt El E1 Hsl Henv) as (Tl & _ & _).
    destruct (expression_typed limit env file r tc1 tc2 r' rt Er E2) as (Tr & _ & _);
      [by rewrite (static_scopes tc tc1) by apply Xl|eapply env_scopes; [apply Xl|done]|].
    assert (lt = TYPE_INT) as -> by congruence. assert (rt = TYPE_INT) as -> by congruence. by injection Eb as _ <-.
  - destruct (typecheck_expression tc file o) as [[tc1 o'] ot] eqn:Eo. pose proof (unary_extends tc1 op ot) as Xu.
    destruct (typecheck_unary tc1 op ot) as [tc3 t3] eqn:Eu. injection H as <- <- <-. cbn [fst static] in *.
    apply andb_true_iff in Hs as [_ Hs]. split; [eauto|]. eapply IHo; eauto. by apply Xu.
  - destruct (typecheck_expression tc file v) as [[tc1 v'] vt] eqn:Ev. injection H as <- <- <-. cbn [static] in Hs.
    apply andb_true_iff in Hs as [_ Hs]. apply andb_true_iff in Hs as [Hs Hp]. split; [eauto|]. split; [by eapply IHv|].
    destruct target; [eauto|done].
  - injection H as <- <- <-. split; [eauto|done].
  - injection H as <- <- <-. cbn [static] in Hs. by rewrite andb_false_r in Hs.
Qed.


(** *** Instances *)

(** [(n * 1 + (2 * 3 - 6)) as int], folded to [n]. *)
Definition fold_sample : Expr :=
  EXPR_CAST None
    (binary TOKEN_PLUS (binary TOKEN_STAR (variable "n") (int_lit 1)) (binary TOKEN_MINUS (binary TOKEN_STAR (int_lit 2) (int_lit 3)) (int_lit 6)))
    (Some TYPE_INT).


(** Two ways in which folding is not exact. [x + 0.0] is folded to [x],
    but for [x = -0.0] the sum is [0.0]; and the compiler evaluates
    [INT64_MIN / -1], which is undefined, in an operand that the program never
    evaluates. *)
Theorem fold_defects :
  let x := EXPR_IDENTIFIER (Some TYPE_DOUBLE) (bytes "x") in
  let sum := EXPR_BINARY (Some TYPE_DOUBLE) x (expr_create_literal_double 0) TOKEN_PLUS in
  let env := env_of [("x"%string, VAL_DOUBLE (2 ^ 63))] in
  let quotient := EXPR_BINARY (Some TYPE_INT) (expr_create_literal_int INT64_MIN) (expr_create_literal_int (-1)) TOKEN_SLASH in
  let dead := EXPR_BINARY (Some TYPE_BOOL) (expr_create_literal_bool false)
                (EXPR_BINARY (Some TYPE_BOOL) quotient (expr_create_literal_int 0) TOKEN_EQ_EQ) TOKEN_AND in
  (fold_expression_recursive sum = Folded x /\ eval_expr 100 env sum = Computed (VAL_DOUBLE 0) /\
   eval_expr 100 env x = Computed (VAL_DOUBLE (2 ^ 63))) /\
  (fold_expression_recursive dead = FoldUndefined /\ eval_expr 100 env dead = Computed (VAL_BOOL false)).
Proof. vm_compute. done. Qed.
