(* ===== verification/CodeGen.v ===== *)
(** * Code generation for expressions: [src/src/compiler.c]

    The emitting helpers of the compiler and the compilation of literals,
    variables, operators and casts. The state is the part of [Compiler] these
    touch: the bytes of the chunk, the constant pool, the names of the local
    slots, the declared enumerations and the first error. Line numbers are left
    out. [None] is a construct outside the model, or an undefined evaluation by
    the constant folder. *)

From S2P Require Import Prelude Lexer.
From Stdlib Require Import String.
From S2P Require Import Doubles Values Bytecode Ast Operators Machine Eval TypeCheck ConstFold.

Open Scope Z_scope.
Open Scope list_scope.

Record EnumDecl := mkEnum { enum_name : list Z; member_names : list (list Z); has_payload_members : bool }.

Record Compiler := mkCompiler {
  ccode : list Z;
  cconstants : list Constant;
  local_names : list (option (list Z));
  enum_decls : list EnumDecl;
  compile_error : option string
}.

Definition with_code (c : list Z) (comp : Compiler) : Compiler :=
  mkCompiler c (cconstants comp) (local_names comp) (enum_decls comp) (compile_error comp).

(** ** Emitting *)

Definition emit_byte (b : Z) (comp : Compiler) : Compiler := with_code (ccode comp ++ [b]) comp.
Definition emit_op (op : OpCode) : Compiler -> Compiler := emit_byte (op_byte op).
Definition emit_byte2 (b1 b2 : Z) (comp : Compiler) : Compiler := emit_byte b2 (emit_byte b1 comp).
Definition emit_u16_operand (value : Z) (comp : Compiler) : Compiler :=
  emit_byte (Z.land value 255) (emit_byte (Z.land (Z.shiftr value 8) 255) comp).

Definition compiler_set_error (message : string) (comp : Compiler) : Compiler :=
  match compile_error comp with
  | Some _ => comp
  | None => mkCompiler (ccode comp) (cconstants comp) (local_names comp) (enum_decls comp) (Some message)
  end.

(** The index of the new constant; [None] is [-1]. *)
Definition add_constant_checked (c : Constant) (comp : Compiler) : Compiler * option Z :=
  let index := Z.of_nat (length (cconstants comp)) in
  let comp := mkCompiler (ccode comp) (cconstants comp ++ [c]) (local_names comp) (enum_decls comp) (compile_error comp) in
  if 65535 <? index then (compiler_set_error "Too many constants in function (max 65536)" comp, None) else (comp, Some index).

Definition emit_constant_index (index : option Z) (comp : Compiler) : Compiler :=
  match index with
  | None => comp
  | Some i => if i <=? 254 then emit_byte2 (op_byte OP_CONST) i comp else emit_u16_operand i (emit_op OP_CONST16 comp)
  end.
Definition emit_constant (c : Constant) (comp : Compiler) : Compiler :=
  let '(comp, index) := add_constant_checked c comp in emit_constant_index index comp.

Definition make_constant_string (value : list Z) : Compiler -> Compiler * option Z := add_constant_checked (mkConstant (as_string (Some value)) 2).
Definition emit_load_global_name (name_idx : option Z) (comp : Compiler) : Compiler :=
  match name_idx with
  | None => comp
  | Some i => if i <=? 255 then emit_byte2 (op_byte OP_LOAD_GLOBAL) i comp else emit_u16_operand i (emit_op OP_LOAD_GLOBAL16 comp)
  end.

(** The position of the offset that [patch_jump] fills in. *)
Definition emit_jump (op : OpCode) (comp : Compiler) : Compiler * Z :=
  let comp := emit_byte 255 (emit_byte 255 (emit_op op comp)) in (comp, Z.of_nat (length (ccode comp)) - 2).

(** A jump that is too long is only reported on the standard output. *)
Definition patch_jump (offset : Z) (comp : Compiler) : Compiler :=
  let jump := Z.of_nat (length (ccode comp)) - offset - 2 in
  if 32767 <? jump then comp
  else
    let c := <[Z.to_nat offset := Z.land (Z.shiftr jump 8) 255]> (ccode comp) in
    with_code (<[Z.to_nat (offset + 1) := Z.land jump 255]> c) comp.

(** The last slot with the name. *)
Fixpoint resolve_from (i : Z) (names_rev : list (option (list Z))) (name : list Z) : Z :=
  match names_rev with
  | [] => -1
  | n :: names' => if bool_decide (n = Some name) then i else resolve_from (i - 1) names' name
  end.
Definition resolve_local (comp : Compiler) (name : list Z) : Z :=
  resolve_from (Z.of_nat (length (local_names comp)) - 1) (rev (local_names comp)) name.

Definition find_enum_member_decl (comp : Compiler) (symbol_name : list Z) : option EnumDecl :=
  List.find (fun d =>
    let n := length (enum_name d) in
    bool_decide (take n symbol_name = enum_name d) &&
    match drop n symbol_name with
    | c :: member => (c =? 95) && negb (bool_decide (member = [])) && existsb (fun m => bool_decide (m = member)) (member_names d)
    | [] => false
    end) (enum_decls comp).

(** ** Patterns of operands *)

Fixpoint expr_inline_eligible (e : Expr) : bool :=
  match e with
  | EXPR_LITERAL t _ => bool_decide (t ∈ [Some TYPE_INT; Some TYPE_DOUBLE; Some TYPE_BOOL])
  | EXPR_IDENTIFIER _ _ => true
  | EXPR_BINARY _ l r _ => expr_inline_eligible l && expr_inline_eligible r
  | EXPR_UNARY _ o _ => expr_inline_eligible o
  | EXPR_CAST _ v target => bool_decide (target ∈ [Some TYPE_INT; Some TYPE_DOUBLE; Some TYPE_BOOL]) && expr_inline_eligible v
  | _ => false
  end.

Definition literal_equals (t : TypeKind) (p q : constant_payload) : bool :=
  match t, p, q with
  | (TYPE_INT | TYPE_BOOL), as_int x, as_int y => x =? y
  | TYPE_DOUBLE, as_double x, as_double y => double_eq x y
  | TYPE_STRING, as_string x, as_string y => bool_decide (c_string (default [] x) = c_string (default [] y))
  | _, _, _ => false
  end.
Fixpoint expr_equals (a b : Expr) : bool :=
  match a, b with
  | EXPR_LITERAL (Some t) p, EXPR_LITERAL (Some u) q => bool_decide (t = u) && literal_equals t p q
  | EXPR_IDENTIFIER _ n, EXPR_IDENTIFIER _ m => bool_decide (n = m)
  | EXPR_BINARY _ l r op, EXPR_BINARY _ l' r' op' => bool_decide (op = op') && (expr_equals l l' && expr_equals r r')
  | EXPR_UNARY _ o op, EXPR_UNARY _ o' op' => bool_decide (op = op') && expr_equals o o'
  | EXPR_CAST _ v (Some t), EXPR_CAST _ v' (Some t') => bool_decide (t = t') && expr_equals v v'
  | EXPR_NIL _, EXPR_NIL _ => true
  | _, _ => false
  end.

Definition int_one (e : Expr) : bool := int_const 1 e.
(** [e + 1] and [1 + e]; the first operand is tried first. *)
Definition plus_one (e : Expr) : option Expr :=
  match e with
  | EXPR_BINARY _ l r TOKEN_PLUS => if int_one l then Some r else if int_one r then Some l else None
  | _ => None
  end.

(** The operands [a] and [b] of [(t * (t + 1)) / 2 + a + 1] with
    [t = a + b], in the orders that are recognised. *)
Definition match_evalA (denom : Expr) : option (list Z * list Z) :=
  match denom with
  | EXPR_BINARY _ (EXPR_BINARY _ x y TOKEN_PLUS) one TOKEN_PLUS =>
      when int_one one;
      let? (div, a) :=
        match x, y with
        | _, EXPR_IDENTIFIER _ _ => Some (x, y)
        | EXPR_IDENTIFIER _ _, _ => Some (y, x)
        | _, _ => None
        end in
      when has_kind TYPE_INT a;
      match div with
      | EXPR_BINARY _ (EXPR_BINARY _ lhs rhs TOKEN_STAR) two TOKEN_SLASH =>
          when int_const 2 two;
          let? (t, t_plus_one) :=
            match plus_one rhs, plus_one lhs with
            | Some _, _ => Some (lhs, rhs)
            | None, Some _ => Some (rhs, lhs)
            | None, None => None
            end in
          match t with
          | EXPR_BINARY _ (EXPR_IDENTIFIER ta na as a_in_t) (EXPR_IDENTIFIER tb nb) TOKEN_PLUS =>
              when bool_decide (ta = Some TYPE_INT) && bool_decide (tb = Some TYPE_INT);
              when expr_equals a a_in_t;
              let? other := plus_one t_plus_one in
              when expr_equals other t;
              Some (na, nb)
          | _ => None
          end
      | _ => None
      end
  | _ => None
  end.
Definition match_evalA_denom_locals (comp : Compiler) (denom : Expr) : option (Z * Z) :=
  let? (na, nb) := match_evalA denom in
  let a := resolve_local comp na in
  let b := resolve_local comp nb in
  when negb ((a <? 0) || (b <? 0) || (255 <? a) || (255 <? b)); Some (a, b).

(** [base * (base + c)] in either order, with [c] and [base]. *)
Definition shared_sum (base sum : Expr) : option Z :=
  match sum with
  | EXPR_BINARY _ l r TOKEN_PLUS =>
      when expr_inline_eligible base;
      if expr_equals l base && literal_of TYPE_INT r then lit_int r
      else if expr_equals r base && literal_of TYPE_INT l then lit_int l
      else None
  | _ => None
  end.
Definition shared_factor (a b : Expr) : option (Expr * Z) :=
  match shared_sum a b with
  | Some c => Some (a, c)
  | None => match shared_sum b a with Some c => Some (b, c) | None => None end
  end.

(** ** Expressions *)

Definition literal_constant (type : option TypeKind) (p : constant_payload) : Constant :=
  match type with
  | Some TYPE_DOUBLE => mkConstant p 1
  | Some TYPE_BOOL => mkConstant p 4
  | Some TYPE_BIGINT => mkConstant p 3
  | Some TYPE_STRING => mkConstant p 2
  | _ => mkConstant p 0
  end.

Definition compile_identifier (type : option TypeKind) (name : list Z) (comp : Compiler) : option Compiler :=
  let local := resolve_local comp name in
  if 0 <=? local then Some (emit_byte2 (op_byte OP_LOAD_LOCAL) (u8 local) comp)
  else
    match find_enum_member_decl comp name with
    | Some d =>
        if has_payload_members d && negb (bool_decide (type = Some TYPE_FUNCTION)) then None
        else let '(comp, i) := make_constant_string name comp in Some (emit_load_global_name i comp)
    | None => let '(comp, i) := make_constant_string name comp in Some (emit_load_global_name i comp)
    end.

Definition double_opcode (op : TokenType) : option OpCode :=
  match op with
  | TOKEN_PLUS => Some OP_ADD_DOUBLE | TOKEN_MINUS => Some OP_SUB_DOUBLE | TOKEN_STAR => Some OP_MUL_DOUBLE | TOKEN_SLASH => Some OP_DIV_DOUBLE
  | _ => None
  end.
Definition int_opcode (op : TokenType) : option OpCode :=
  match op with
  | TOKEN_PLUS => Some OP_ADD_INT | TOKEN_MINUS => Some OP_SUB_INT | TOKEN_STAR => Some OP_MUL_INT | TOKEN_SLASH => Some OP_DIV_INT
  | TOKEN_PERCENT => Some OP_MOD_INT | TOKEN_BIT_AND => Some OP_BIT_AND_INT | TOKEN_BIT_OR => Some OP_BIT_OR_INT
  | TOKEN_BIT_XOR => Some OP_BIT_XOR_INT
  | _ => None
  end.
Definition generic_opcode (op : TokenType) : option OpCode :=
  match op with
  | TOKEN_PLUS => Some OP_ADD | TOKEN_MINUS => Some OP_SUB | TOKEN_STAR => Some OP_MUL | TOKEN_SLASH => Some OP_DIV
  | TOKEN_PERCENT => Some OP_MOD | TOKEN_AND => Some OP_AND | TOKEN_OR => Some OP_OR | TOKEN_BIT_AND => Some OP_BIT_AND
  | TOKEN_BIT_OR => Some OP_BIT_OR | TOKEN_BIT_XOR => Some OP_BIT_XOR | TOKEN_EQ_EQ => Some OP_EQ | TOKEN_BANG_EQ => Some OP_NE
  | TOKEN_LT => Some OP_LT | TOKEN_LT_EQ => Some OP_LE | TOKEN_GT => Some OP_GT | TOKEN_GT_EQ => Some OP_GE
  | _ => None
  end.
Definition all_of (t : TypeKind) (type : option TypeKind) (l r : Expr) : bool := bool_decide (type = Some t) && both t l r.
Definition binary_opcode (type : option TypeKind) (op : TokenType) (l r : Expr) : option OpCode :=
  match (if all_of TYPE_DOUBLE type l r then double_opcode op else None) with
  | Some o => Some o
  | None =>
      match (if all_of TYPE_INT type l r then int_opcode op else None) with
      | Some o => Some o
      | None => generic_opcode op
      end
  end.
Definition emit_some (o : option OpCode) (comp : Compiler) : Compiler := match o with Some o => emit_op o comp | None => comp end.

Definition unary_opcode (type : option TypeKind) (op : TokenType) (o : Expr) : option OpCode :=
  let typed t := bool_decide (type = Some t) && has_kind t o in
  match op with
  | TOKEN_MINUS => Some (if typed TYPE_DOUBLE then OP_NEG_DOUBLE else if typed TYPE_INT then OP_NEG_INT else OP_NEG)
  | TOKEN_NOT => Some OP_NOT
  | TOKEN_BIT_NOT => Some (if typed TYPE_INT then OP_BIT_NOT_INT else OP_BIT_NOT)
  | _ => None
  end.
Definition cast_opcode (target : option TypeKind) : option OpCode :=
  match target with
  | Some TYPE_INT => Some OP_CAST_INT | Some TYPE_BOOL => Some OP_CAST_BOOL | Some TYPE_DOUBLE => Some OP_CAST_DOUBLE
  | Some TYPE_STRING => Some OP_CAST_STRING | Some TYPE_BIGINT => Some OP_CAST_BIGINT
  | _ => None
  end.

(** [1.0 / (x as double)] with an integer [x]. *)
Definition reciprocal (type : option TypeKind) (op : TokenType) (l r : Expr) : option Expr :=
  match op, r with
  | TOKEN_SLASH, EXPR_CAST _ v (Some TYPE_DOUBLE) =>
      when bool_decide (type = Some TYPE_DOUBLE) && double_const double_one l && has_kind TYPE_INT v; Some v
  | _, _ => None
  end.

(** The factor that [base * (base + 1)] shares. *)
Definition shared_base (type : option TypeKind) (op : TokenType) (l r : Expr) : option Expr :=
  when bool_decide (op = TOKEN_STAR) && all_of TYPE_INT type l r;
  let? (base, c) := shared_factor l r in
  when c =? 1; Some base.

Notation "'let*' x ':=' m 'in' k" := (match m with Some x => k | None => None end) (at level 10, x name, k at level 200).

(** The operators, with the compilation of their operands. *)
Section Operators.
Context (compile : Expr -> Compiler -> option Compiler).

Definition compile_and (l r : Expr) (comp : Compiler) : option Compiler :=
  let* comp := compile l comp in
  let '(comp, end_jump) := emit_jump OP_JUMP_IF_FALSE comp in
  let comp := emit_op OP_POP comp in
  let* comp := compile r comp in
  Some (patch_jump end_jump comp).

Definition compile_or (l r : Expr) (comp : Compiler) : option Compiler :=
  let* comp := compile l comp in
  let '(comp, rhs_jump) := emit_jump OP_JUMP_IF_FALSE comp in
  let '(comp, end_jump) := emit_jump OP_JUMP comp in
  let comp := patch_jump rhs_jump comp in
  let comp := emit_op OP_POP comp in
  let* comp := compile r comp in
  Some (patch_jump end_jump comp).

Definition compile_reciprocal (v : Expr) (comp : Compiler) : option Compiler :=
  match match_evalA_denom_locals comp v with
  | Some (a, b) => Some (emit_byte b (emit_byte a (emit_op OP_EVALA_RECIP_LOCALS_DOUBLE comp)))
  | None => let* comp := compile v comp in Some (emit_op OP_RECIP_INT_TO_DOUBLE comp)
  end.

(** [base * (base + 1)] with [base] computed once. *)
Definition compile_shared (base : Expr) (comp : Compiler) : option Compiler :=
  let* comp := compile base comp in
  Some (emit_op OP_MUL_INT (emit_op OP_ADD_INT (emit_constant (mkConstant (as_int 1) 0) (emit_op OP_DUP comp)))).

Definition compile_operands (type : option TypeKind) (l r : Expr) (op : TokenType) (comp : Compiler) : option Compiler :=
  let* comp := compile l comp in
  let* comp := compile r comp in
  Some (emit_some (binary_opcode type op l r) comp).

Definition compile_operator (type : option TypeKind) (l r : Expr) (op : TokenType) (comp : Compiler) : option Compiler :=
  match reciprocal type op l r with
  | Some v => compile_reciprocal v comp
  | None =>
      match shared_base type op l r with
      | Some base => compile_shared base comp
      | None => compile_operands type l r op comp
      end
  end.

Definition compile_binary (type : option TypeKind) (l r : Expr) (op : TokenType) (comp : Compiler) : option Compiler :=
  match op with
  | TOKEN_AND => compile_and l r comp
  | TOKEN_OR => compile_or l r comp
  | _ => compile_operator type l r op comp
  end.
End Operators.

(** The recursion is on folded expressions too, which are smaller. *)
Fixpoint compile_expression (fuel : nat) (e : Expr) (comp : Compiler) : option Compiler :=
  match fuel with
  | O => None
  | S n =>
      match e with
      | EXPR_LITERAL t p => Some (emit_constant (literal_constant t p) comp)
      | EXPR_NIL _ => Some (emit_byte 255 (emit_op OP_CONST comp))
      | EXPR_IDENTIFIER t name => compile_identifier t name comp
      | EXPR_BINARY t l r op =>
          match fold_expression_recursive e with
          | FoldUndefined => None
          | Folded e' => compile_expression n e' comp
          | NotFolded => compile_binary (compile_expression n) t l r op comp
          end
      | EXPR_UNARY t o op =>
          match fold_expression_recursive e with
          | FoldUndefined => None
          | Folded e' => compile_expression n e' comp
          | NotFolded => let* comp := compile_expression n o comp in Some (emit_some (unary_opcode t op o) comp)
          end
      | EXPR_CAST _ v target =>
          let* comp := compile_expression n v comp in
          Some (if is_noop_primitive_cast (type_of v) target then comp else emit_some (cast_opcode target) comp)
      | EXPR_OTHER _ => None
      end
  end.

(** ** Return *)

(** [defer_return_slot] is the slot of a function with deferred calls; the jump
    to them, which is patched at the end of the function, is handed back. *)
Definition compile_return (is_top_level : bool) (defer_return_slot : option Z) (return_value : option Expr) (comp : Compiler)
    : option (Compiler * option Z) :=
  if is_top_level then Some (compiler_set_error "return used outside of a function" comp, None)
  else
    let* comp :=
      match return_value with
      | Some e => compile_expression (expr_size e) e comp
      | None => Some (emit_byte 255 (emit_op OP_CONST comp))
      end in
    match defer_return_slot with
    | Some slot => let '(comp, j) := emit_jump OP_JUMP (emit_byte2 (op_byte OP_STORE_LOCAL) (u8 slot) comp) in Some (comp, Some j)
    | None => Some (emit_op OP_RET comp, None)
    end.
