(* ===== verification/CodeGenSteps.v ===== *)
(** * Steps of compiled expressions

    What the instructions that [compile_expression] emits do with the operands
    on top of the stack, as results of the reference evaluation: [yields] says
    that the code from one position to another pushes the value of a result, or
    stops with its message. *)

From S2P Require Import Prelude Lexer.
From Stdlib Require Import String SpecFloat.
From S2P Require Import Doubles Values Bytecode Ast Operators Machine Superinstr SuperinstrStep SuperinstrProps Eval TypeCheck ConstFold CodeGen.

Open Scope Z_scope.
Open Scope list_scope.

(** The machine with a value on top. *)
Definition on (vm : VM) (v : Value) : VM := with_stack (stack vm ++ [v]) vm.

Section Running.
Context (fn : ObjFunction) (ss : nat) (c : list Z).
Notation F := (recode c fn).

(** The locals of the frame are on the stack. *)
Definition held (vm : VM) : Prop := Z.of_nat ss + local_count fn <= Z.of_nat (length (stack vm)).
Definition runs (vm : VM) : Prop := ready vm /\ held vm.
Lemma runs_on vm v : runs vm -> runs (on vm v).
Proof. intros [Hr Hh]. split; [exact Hr|]. unfold held in *. cbn. rewrite length_app. simpl. lia. Qed.

Inductive star : VM -> Z -> VM -> Z -> Prop :=
  | star_refl vm p : star vm p vm p
  | star_step vm p vm1 p1 vm2 p2 : held vm -> step F ss vm p = Continue vm1 p1 -> star vm1 p1 vm2 p2 -> star vm p vm2 p2.

Lemma star_trans vm p vm1 p1 vm2 p2 : star vm p vm1 p1 -> star vm1 p1 vm2 p2 -> star vm p vm2 p2.
Proof. induction 1; eauto using star. Qed.

(** A run that ends in an outcome. *)
Lemma star_run vm p vm1 p1 n o : star vm p vm1 p1 -> run_framed F ss n vm1 p1 = Some o -> exists m, run_framed F ss m vm p = Some o.
Proof.
  induction 1 as [|vm p vm1 p1 vm2 p2 Hh Hs _ IH]; intros H; [eauto|]. destruct (IH H) as [m Hm]. exists (S m). cbn [run_framed]. rewrite Hs.
  unfold held in Hh. change (local_count F) with (local_count fn). by assert (Z.of_nat (length (stack vm)) <? Z.of_nat ss + local_count fn = false) as -> by lia.
Qed.
Lemma run_last vm p o : held vm -> step F ss vm p = o -> (forall vm' p', o <> Continue vm' p') -> run_framed F ss 1 vm p = Some o.
Proof.
  intros Hh Hs Ho. cbn [run_framed]. unfold held in Hh. change (local_count F) with (local_count fn).
  assert (Z.of_nat (length (stack vm)) <? Z.of_nat ss + local_count fn = false) as -> by lia. rewrite Hs. by destruct o; try (exfalso; by eapply Ho).
Qed.

Definition stops (vm : VM) (p : nat) (m : string) : Prop :=
  exists vm1 p1 vm2, star vm (Z.of_nat p) vm1 p1 /\ held vm1 /\ step F ss vm1 p1 = Halted vm2 /\ error_message vm2 = Some m.

(** The code from [p] to [q] pushes the value of [r] on the stack of [vm0];
    the limit on strings is not applied to those the compiler has built. *)
Definition yields (vm : VM) (p : nat) (vm0 : VM) (q : nat) (r : arith_result) : Prop :=
  match r with
  | Computed v => exists v', value_close v v' /\ star vm (Z.of_nat p) (on vm0 v') (Z.of_nat q)
  | Failed m => m = string_limit_error \/ stops vm p m
  | ComputeUndefined | ComputeUnmodelled => True
  end.

Lemma yields_refines vm p vm0 q r r' : refines r r' -> yields vm p vm0 q r' -> yields vm p vm0 q r.
Proof.
  intros [->|[->|H]]; [done|by left|]. destruct r as [v| | |], r' as [v'| | |]; simplify_eq/=; try done.
  intros (w & Hw & Hs). exists w. split; [by etransitivity|done].
Qed.
Lemma yields_close vm p vm0 q r r' : result_close r r' -> yields vm p vm0 q r' -> yields vm p vm0 q r.
Proof. intros H. apply yields_refines. by right; right. Qed.

Lemma stops_star vm p vm1 p1 m : star vm (Z.of_nat p) vm1 (Z.of_nat p1) -> stops vm1 p1 m -> stops vm p m.
Proof. intros H (vm2 & p2 & vm3 & Hs & He). exists vm2, p2, vm3. split; [by eapply star_trans|done]. Qed.
Lemma yields_star vm p vm1 p1 vm0 q r : star vm (Z.of_nat p) vm1 (Z.of_nat p1) -> yields vm1 p1 vm0 q r -> yields vm p vm0 q r.
Proof.
  intros H. destruct r as [v|m| |]; [|intros [->|Hm]; [by left|right; by eapply stops_star]|done..].
  intros (w & Hw & Hs). exists w. split; [done|]. by eapply star_trans.
Qed.

Lemma yields_rbind vm p vm1 q vm2 q' r k : yields vm p vm1 q r ->
  (forall v v', r = Computed v -> value_close v v' -> yields (on vm1 v') q vm2 q' (k v')) ->
  (forall v v', value_close v v' -> result_close (k v) (k v')) -> yields vm p vm2 q' (rbind r k).
Proof.
  destruct r as [v|m| |]; [|done..]. intros (w & Hw & Hs) Hk Hc. cbn [rbind].
  eapply yields_close; [by apply Hc|]. eapply yields_star; [exact Hs|]. by eapply Hk.
Qed.

(** ** Single instructions *)

Lemma code_drop p b : c !! p = Some b -> drop p c = b :: drop (S p) c.
Proof. intros H. by apply drop_S. Qed.

Lemma yields_does vm p op r vm0 q : runs vm -> c !! p = Some (op_byte op) ->
  does (exec F ss op vm (Z.of_nat (S p))) r (fun v => Continue (on vm0 v) (Z.of_nat q)) -> yields vm p vm0 q r.
Proof.
  intros [Hr Hh] Hp Hd. pose proof (step_op fn ss c vm p _ op _ Hr (code_drop _ _ Hp) (decode_op_byte op)) as Hs.
  destruct r as [v|m| |]; cbn [does] in Hd; [| |done..].
  - exists v. split; [reflexivity|]. eapply star_step; [done|by rewrite Hs, Hd|constructor].
  - destruct Hd as (vm1 & Hd & He). right. exists vm, (Z.of_nat p), vm1. split; [constructor|]. split; [done|]. by rewrite Hs, Hd.
Qed.

Section Operands.
Context (vm : VM) (s : list Value) (ip : Z) (Hok : error_message vm = None) (Hroom : Z.of_nat (length s) < max_stack_size (config vm)).
Notation next v := (Continue (with_stack (s ++ [v]) vm) ip).

Lemma push_on v : push (with_stack s vm) v = with_stack (s ++ [v]) vm.
Proof. by rewrite push_ok. Qed.
Lemma pop_last t v : stack vm = t ++ [v] -> pop vm = (v, with_stack t vm).
Proof. intros H. unfold pop. by rewrite H, last_snoc, removelast_last. Qed.

Lemma finish_does r : does (finish_arith (with_stack s vm) ip r) r (fun v => next v).
Proof. destruct r; cbn [finish_arith does]; try done; [by rewrite push_on|eexists; by split]. Qed.
Lemma arith1_does f a : stack vm = s ++ [a] -> does (exec_arith1 f vm ip) (f a) (fun v => next v).
Proof. intros Hs. unfold exec_arith1. rewrite (pop_last s a Hs). apply finish_does. Qed.
End Operands.

Section Operands2.
Context (vm : VM) (s : list Value) (a b : Value) (ip : Z) (Hok : error_message vm = None).
Context (Hs : stack vm = s ++ [a; b]) (Hroom : Z.of_nat (length s) < max_stack_size (config vm)).
Notation next v := (Continue (with_stack (s ++ [v]) vm) ip).

Lemma pop_two : pop vm = (b, with_stack (s ++ [a]) vm) /\ pop (with_stack (s ++ [a]) vm) = (a, with_stack s vm).
Proof. split; [apply pop_last; by rewrite Hs, <- app_assoc|by apply (pop_last (with_stack (s ++ [a]) vm))]. Qed.

Lemma arith2_does f : does (exec_arith2 f vm ip) (f a b) (fun v => next v).
Proof. unfold exec_arith2. destruct pop_two as [-> ->]. by apply finish_does. Qed.
Lemma compare_does op : does (exec_compare op vm ip) (eval_comparison op a b) (fun v => next v).
Proof.
  unfold exec_compare, eval_comparison. destruct pop_two as [-> ->]. destruct (vm_compute_comparison_op op a b); [eexists; by split|].
  cbn [does]. by rewrite push_on.
Qed.
Lemma equal_does n : does (exec_equal n vm ip) (eval_equality n a b) (fun v => next v).
Proof.
  unfold exec_equal, eval_equality. destruct pop_two as [-> ->]. destruct (value_equals a b) as [r|]; [|done].
  cbn [does]. rewrite push_on by done. by destruct n, r.
Qed.
End Operands2.

(** *** Constants, locals and jumps *)

Definition payload_present (k : Constant) : Prop := payload k <> as_string None.
Lemma push_pooled vm idx k ip : buffer (constants (pool fn)) !! Z.to_nat idx = Some k -> idx < constant_count (pool fn) -> payload_present k ->
  vm_push_constant_by_index F vm idx ip = Continue (push vm (constant_operand k)) ip.
Proof.
  intros Hk Hi Hp. unfold vm_push_constant_by_index, with_constant, recode. cbn [pool].
  assert (constant_count (pool fn) <=? idx = false) as -> by lia. rewrite Hk. unfold constant_operand, payload_present in *.
  destruct (payload k) as [| |[]]; try done; repeat match goal with |- context [type_index k =? ?n] => destruct (type_index k =? n) end; done.
Qed.

Lemma byte_pair j : 0 <= j <= 65535 -> Z.lor (Z.shiftl (Z.land (Z.shiftr j 8) 255) 8) (Z.land j 255) = j.
Proof.
  intros Hj. apply Z.bits_inj'. intros n Hn. rewrite Z.lor_spec. change 255 with (Z.ones 8).
  rewrite (Z.land_spec j), Z.testbit_ones_nonneg by lia. destruct (Z.ltb_spec n 8).
  - rewrite Z.shiftl_spec_low by lia. by rewrite andb_true_r.
  - rewrite Z.shiftl_spec, Z.land_spec, Z.shiftr_spec, Z.testbit_ones_nonneg, andb_false_r, orb_false_r by lia.
    replace (n - 8 + 8) with n by lia. destruct (Z.ltb_spec (n - 8) 8); [by rewrite andb_true_r|].
    rewrite andb_false_r. symmetry. apply Z.testbit_false; [lia|]. rewrite Z.div_small; [done|]. split; [lia|].
    apply Z.lt_le_trans with (2 ^ 16); [lia|]. apply Z.pow_le_mono_r; lia.
Qed.
Lemma offset16_pair j : 0 <= j <= 32767 -> offset16 (Z.land (Z.shiftr j 8) 255) (Z.land j 255) = j.
Proof. intros Hj. unfold offset16. rewrite byte_pair by lia. unfold i16, signed. rewrite Z.mod_small by lia. case_match; lia. Qed.

Lemma exec_const16 vm i hi lo r : drop i c = hi :: lo :: r ->
  exec F ss OP_CONST16 vm (Z.of_nat i) = vm_push_constant_by_index F vm (Z.lor (Z.shiftl hi 8) lo) (Z.of_nat i + 2).
Proof.
  intros Hd. cbn [exec]. rewrite ensure_true by (rewrite Hd; simpl; lia). rewrite code_at_0, code_at_z by lia. by rewrite Hd.
Qed.
Lemma exec_jump vm i hi lo r : drop i c = hi :: lo :: r -> exec F ss OP_JUMP vm (Z.of_nat i) = Continue vm (Z.of_nat i + (2 + offset16 hi lo)).
Proof.
  intros Hd. cbn [exec]. rewrite ensure_true by (rewrite Hd; simpl; lia). unfold offset_at. rewrite code_at_0, code_at_z by lia. rewrite Hd. rewrite <- Z.add_assoc. done.
Qed.
Lemma exec_nil vm i r : drop i c = 255 :: r -> exec F ss OP_CONST vm (Z.of_nat i) = Continue (push vm VAL_NIL) (Z.of_nat i + 1).
Proof. intros Hd. cbn [exec]. rewrite ensure_true by (rewrite Hd; simpl; lia). by rewrite code_at_0, Hd. Qed.

Lemma exec_evala vm i a b r x y d : drop i c = a :: b :: r -> local ss vm a = Some (VAL_INT x) -> local ss vm b = Some (VAL_INT y) -> evala_denom x y = Some d ->
  exec F ss OP_EVALA_RECIP_LOCALS_DOUBLE vm (Z.of_nat i) = finish_arith vm (Z.of_nat i + 2) (recip_int d).
Proof.
  intros Hd Ha Hb Hn. cbn [exec]. unfold exec_evala_recip. rewrite ensure_true by (rewrite Hd; simpl; lia). rewrite code_at_0, code_at_z by lia. rewrite Hd.
  change (Z.to_nat 1) with 1%nat. cbn [nth]. unfold with_local. by rewrite Ha, Hb, Hn.
Qed.

Lemma star_op vm p op vm1 q : runs vm -> c !! p = Some (op_byte op) -> exec F ss op vm (Z.of_nat (S p)) = Continue vm1 q -> star vm (Z.of_nat p) vm1 q.
Proof.
  intros [Hr Hh] Hp He. eapply star_step; [done| |constructor]. by rewrite (step_op fn ss c vm p _ op _ Hr (code_drop _ _ Hp) (decode_op_byte op)).
Qed.

(** ** Operators *)

(** The value has the type that the operand is annotated with. *)
Definition operand (e : Expr) (v : Value) : Prop := exists t, type_of e = Some t /\ t <> TYPE_ANY /\ has_type v t.
Lemma operand_kind t e v : operand e v -> has_kind t e = true -> has_type v t.
Proof. intros (t' & Ht & _ & Hv) Hk. apply bool_decide_eq_true in Hk. congruence. Qed.
Lemma operand_int e i : operand e (VAL_INT i) -> has_kind TYPE_INT e = true.
Proof. intros (t & Ht & Ha & Hv). apply bool_decide_eq_true. destruct t; done. Qed.
Lemma operand_close e v v' : operand e v -> value_close v v' -> operand e v'.
Proof. intros (t & Ht & Ha & Hv) H. exists t. split; [done|]. split; [done|]. by eapply has_type_close. Qed.

Definition mod_annotated (t : option TypeKind) (op : TokenType) (l r : Expr) : Prop :=
  op = TOKEN_PERCENT -> both TYPE_INT l r = true -> t = Some TYPE_INT.

Lemma double_opcode_spec op o : double_opcode op = Some o ->
  exists d, o = stack_opcode (TDouble d) /\ forall limit x y, typed_result (TDouble d) (VAL_DOUBLE x) (VAL_DOUBLE y) = eval_operator limit op (VAL_DOUBLE x) (VAL_DOUBLE y).
Proof. destruct op; intros [= <-]; [exists DAdd|exists DSub|exists DMul|exists DDiv]; done. Qed.
Lemma int_opcode_spec op o : int_opcode op = Some o ->
  exists i, o = stack_opcode (TInt i) /\ forall limit x y, typed_result (TInt i) (VAL_INT x) (VAL_INT y) = eval_operator limit op (VAL_INT x) (VAL_INT y).
Proof. destruct op; intros [= <-]; [exists IAdd|exists ISub|exists IMul|exists IDiv|exists IMod|exists IAnd|exists IOr|exists IXor]; done. Qed.
Lemma generic_mod t l r a b : operand l a -> operand r b -> mod_annotated t TOKEN_PERCENT l r -> all_of TYPE_INT t l r = false ->
  eval_mod a b = compute_mod a b.
Proof.
  intros Ha Hb Hm Hn. unfold eval_mod. destruct a; try done. destruct b; try done. exfalso.
  assert (both TYPE_INT l r = true) as Hi by (apply andb_true_iff; split; by eapply operand_int).
  unfold all_of in Hn. rewrite (Hm eq_refl Hi), Hi in Hn. by rewrite bool_decide_true in Hn.
Qed.

Lemma binary_does t op l r o vm s a b ip :
  logical op = false -> binary_opcode t op l r = Some o -> operand l a -> operand r b -> mod_annotated t op l r ->
  error_message vm = None -> stack vm = s ++ [a; b] -> Z.of_nat (length s) < max_stack_size (config vm) ->
  does (exec F ss o vm ip) (eval_operator (max_string_length (config vm)) op a b) (fun v => Continue (with_stack (s ++ [v]) vm) ip).
Proof.
  intros Hl Ho Ha Hb Hm Hok Hs Hroom. unfold binary_opcode in Ho.
  destruct (all_of TYPE_DOUBLE t l r) eqn:Ed.
  { destruct (double_opcode op) eqn:E; [injection Ho as <-|].
    - apply double_opcode_spec in E as (d & -> & Hd). apply andb_true_iff in Ed as [_ [Kl Kr]%andb_true_iff].
      destruct (typed_inv a _ (operand_kind _ _ _ Ha Kl)) as [x ->]. destruct (typed_inv b _ (operand_kind _ _ _ Hb Kr)) as [y ->].
      rewrite <- Hd. by apply exec_typed_stack.
    - assert (all_of TYPE_INT t l r = false) as Ei.
      { apply not_true_iff_false. unfold all_of in *. intros [E1 _]%andb_true_iff. apply andb_true_iff in Ed as [E2 _].
        apply bool_decide_eq_true in E1, E2. congruence. }
      rewrite Ei in Ho. destruct op; try done; injection Ho as <-; cbn [exec eval_operator];
        try rewrite (generic_mod t l r) by done; auto using arith2_does, compare_does, equal_does. }
  destruct (all_of TYPE_INT t l r) eqn:Ei.
  { destruct (int_opcode op) eqn:E; [injection Ho as <-|].
    - apply int_opcode_spec in E as (d & -> & Hd). apply andb_true_iff in Ei as [_ [Kl Kr]%andb_true_iff].
      destruct (typed_inv a _ (operand_kind _ _ _ Ha Kl)) as [x ->]. destruct (typed_inv b _ (operand_kind _ _ _ Hb Kr)) as [y ->].
      rewrite <- Hd. by apply exec_typed_stack.
    - destruct op; try done; injection Ho as <-; cbn [exec eval_operator]; auto using arith2_does, compare_does, equal_does. }
  destruct op; try done; injection Ho as <-; cbn [exec eval_operator];
    try rewrite (generic_mod t l r) by done; auto using arith2_does, compare_does, equal_does.
Qed.

Lemma set_top_on vm s a v : stack vm = s ++ [a] -> set_top vm v = with_stack (s ++ [v]) vm.
Proof. intros Hs. unfold set_top. by rewrite Hs, removelast_last. Qed.

Section Operand1.
Context (vm : VM) (s : list Value) (a : Value) (ip : Z) (Hok : error_message vm = None).
Context (Hs : stack vm = s ++ [a]) (Hroom : Z.of_nat (length s) < max_stack_size (config vm)).
Notation next v := (Continue (with_stack (s ++ [v]) vm) ip).

Lemma unary_does t op o e : unary_opcode t op e = Some o -> operand e a -> does (exec F ss o vm ip) (eval_unary op a) (fun v => next v).
Proof.
  intros Ho Ha.
  assert (forall f x, a = VAL_INT x -> does (exec_unary_int f vm ip) (int_result (f x)) (fun v => next v)) as Hint.
  { intros f x ->. unfold exec_unary_int. rewrite Hs, last_snoc. destruct (f x); [|done]. cbn [int_result does]. by rewrite (set_top_on vm s (VAL_INT x)). }
  unfold unary_opcode in Ho. destruct op; simplify_eq.
  - destruct (bool_decide (t = Some TYPE_DOUBLE) && has_kind TYPE_DOUBLE e) eqn:Ed.
    { apply andb_true_iff in Ed as [_ K]. destruct (typed_inv a _ (operand_kind _ _ _ Ha K)) as [x Hx]. cbn [exec]. unfold exec_neg_double.
      rewrite Hs, last_snoc, Hx. cbn. by rewrite (set_top_on vm s a). }
    destruct (bool_decide (t = Some TYPE_INT) && has_kind TYPE_INT e) eqn:Ei; [|by apply arith1_does].
    apply andb_true_iff in Ei as [_ K]. destruct (typed_inv a _ (operand_kind _ _ _ Ha K)) as [x Hx].
    replace (eval_unary TOKEN_MINUS a) with (int_result (c_int64 (- x))) by (by rewrite Hx). by apply (Hint (fun x => c_int64 (- x))).
  - cbn [exec]. rewrite (pop_last vm s a Hs). destruct a; cbn [eval_unary does]; try (eexists; by split). by rewrite push_on.
  - destruct (bool_decide (t = Some TYPE_INT) && has_kind TYPE_INT e) eqn:Ei; [|by apply arith1_does].
    apply andb_true_iff in Ei as [_ K]. destruct (typed_inv a _ (operand_kind _ _ _ Ha K)) as [x Hx].
    replace (eval_unary TOKEN_BIT_NOT a) with (int_result (Some (Z.lnot x))) by (by rewrite Hx). by apply (Hint (fun x => Some (Z.lnot x))).
Qed.

Lemma cast_does target o : cast_opcode (Some target) = Some o -> does (exec F ss o vm ip) (eval_cast target a) (fun v => next v).
Proof. intros Ho. destruct target; try discriminate Ho; injection Ho as <-; cbn [exec eval_cast]; by apply arith1_does. Qed.

Lemma recip_does x : a = VAL_INT x -> does (exec F ss OP_RECIP_INT_TO_DOUBLE vm ip) (recip_int x) (fun v => next v).
Proof.
  intros Hx. cbn [exec]. unfold exec_recip. rewrite Hs, reverse_app, Hx. simpl. unfold recip_int.
  destruct (x =? 0); [eexists; by split|]. cbn [does]. by rewrite (set_top_on vm s a).
Qed.
Lemma dup_does : Z.of_nat (length s) + 1 < max_stack_size (config vm) -> exec F ss OP_DUP vm ip = Continue (on vm a) ip.
Proof. intros H. cbn [exec]. rewrite Hs, last_snoc. rewrite push_ok; [done|done|]. unfold count. rewrite Hs, length_app. simpl. lia. Qed.
End Operand1.
End Running.

(** ** Numbers *)

(** [1.0 / (x as double)] is what the reciprocal instruction computes. *)
Lemma recip_close limit d x : double_eq d double_one = true ->
  result_close (rbind (compute_cast_double (VAL_INT x)) (eval_operator limit TOKEN_SLASH (VAL_DOUBLE d))) (recip_int x).
Proof.
  intros Hd. cbn. unfold recip_int. rewrite double_of_int_zero. destruct (x =? 0); [reflexivity|]. apply computed_double.
  unfold double_arith. by rewrite (double_eq_one d Hd).
Qed.

(** The halved product of two successive numbers, without the overflow of the
    product. *)
Lemma half_product t : Z.quot (t * (t + 1)) 2 = if negb (Z.land t 1 =? 0) then t * Z.quot (t + 1) 2 else Z.quot t 2 * (t + 1).
Proof.
  change 1 with (Z.ones 1) at 2. rewrite Z.land_ones by lia. change (2 ^ 1) with 2. rewrite Zmod_odd. destruct (Z.odd t) eqn:E; cbn [negb Z.eqb].
  - apply Z.odd_spec in E as [k ->]. replace (2 * k + 1 + 1) with ((k + 1) * 2) by lia. rewrite Z.mul_assoc, !Z.quot_mul by lia. done.
  - assert (Z.even t = true) as Ee by (by rewrite <- Z.negb_odd, E). apply Z.even_spec in Ee as [k ->].
    replace (2 * k * (2 * k + 1)) with (k * (2 * k + 1) * 2) by lia. replace (2 * k) with (k * 2) at 2 by lia. rewrite !Z.quot_mul by lia. done.
Qed.

Lemma c_int64_some x y : c_int64 x = Some y -> x = y.
Proof. unfold c_int64. case_match; [by intros [= ->]|done]. Qed.
Lemma evala_denom_spec i j t p q s r :
  c_int64 (i + j) = Some t -> c_int64 (t + 1) = Some p -> c_int64 (t * p) = Some q -> c_int64 (Z.quot q 2 + i) = Some s -> c_int64 (s + 1) = Some r ->
  evala_denom i j = Some r.
Proof.
  assert (forall x y, c_int64 x = Some y -> Z.abs x <= 2 ^ 63) as Hr by (unfold c_int64, INT64_MIN, INT64_MAX; intros x y; case_match; [lia|done]).
  intros Ht Hp Hq Hs Hl. unfold evala_denom. rewrite Ht. cbn [obind]. rewrite Hp. cbn [obind]. pose proof (c_int64_some _ _ Hp) as <-. pose proof (c_int64_some _ _ Hq) as Eq.
  rewrite <- half_product, Eq.
  assert (c_int64 (Z.quot q 2) = Some (Z.quot q 2)) as ->.
  { pose proof (Hr _ _ Hq) as H. rewrite Eq in H. assert (Z.abs (Z.quot q 2) <= Z.quot (Z.abs q) 2) by (rewrite <- Z.quot_abs by lia; done).
    assert (Z.quot (Z.abs q) 2 <= Z.quot (2 ^ 63) 2) by (apply Z.quot_le_mono; lia). change (Z.quot (2 ^ 63) 2) with (2 ^ 62) in *.
    unfold c_int64, INT64_MIN, INT64_MAX. case_match; [done|lia]. }
  cbn [obind]. by rewrite Hs.
Qed.
