(* ===== verification/CodeGenProps.v ===== *)
(** * Code generation: growth, fuel and patterns

    [compile_expression] only appends to the code and the constants, and needs
    as much fuel as the expression has nodes. The patterns of operands that
    have code of their own have the values which that code computes. *)

From S2P Require Import Prelude Lexer.
From Stdlib Require Import String SpecFloat.
From S2P Require Import Doubles Values Bytecode Ast Operators Machine Superinstr SuperinstrStep SuperinstrProps Eval TypeCheck ConstFold CodeGen CodeGenSteps.

Open Scope Z_scope.
Open Scope list_scope.

(** ** What is emitted *)

Definition append (l : list Z) (comp : Compiler) : Compiler := with_code (ccode comp ++ l) comp.
Notation size comp := (length (ccode comp)).

Lemma append_append l l' comp : append l' (append l comp) = append (l ++ l') comp.
Proof. unfold append, with_code. simpl. by rewrite app_assoc. Qed.
Lemma emit_op_append o comp : emit_op o comp = append [op_byte o] comp.
Proof. done. Qed.
Lemma emit_byte_append b comp : emit_byte b comp = append [b] comp.
Proof. done. Qed.
Lemma emit_byte2_append a b comp : emit_byte2 a b comp = append [a; b] comp.
Proof. apply (append_append [a] [b]). Qed.
Lemma emit_jump_append o comp : emit_jump o comp = (append [op_byte o; 255; 255] comp, Z.of_nat (S (size comp))).
Proof.
  unfold emit_jump, emit_op. rewrite !emit_byte_append, !append_append. f_equal. cbn [append with_code ccode]. rewrite length_app. simpl. lia.
Qed.

(** The compiler with more code and constants. *)
Record grows (comp comp' : Compiler) : Prop := {
  grows_code : ccode comp `prefix_of` ccode comp';
  grows_constants : cconstants comp `prefix_of` cconstants comp';
  grows_names : local_names comp' = local_names comp;
  grows_enums : enum_decls comp' = enum_decls comp;
  grows_error : compile_error comp' = None -> compile_error comp = None
}.
#[global] Instance grows_preorder : PreOrder grows.
Proof.
  split; [by intros comp; split|]. intros a b d [] []. split; [by etransitivity|by etransitivity|congruence|congruence|auto].
Qed.
Lemma grows_append l comp : grows comp (append l comp).
Proof. split; try done. by exists l. Qed.
Lemma grows_length comp comp' : grows comp comp' -> (size comp <= size comp')%nat.
Proof. intros [H]. by apply prefix_length. Qed.

Lemma grows_add k comp : grows comp (fst (add_constant_checked k comp)).
Proof.
  unfold add_constant_checked. assert (forall e, (e = None -> compile_error comp = None) -> grows comp (mkCompiler (ccode comp) (cconstants comp ++ [k]) (local_names comp) (enum_decls comp) e)) as H
    by (intros e He; split; try done; by exists [k]).
  destruct (_ <? _); cbn [fst]; [|by apply H]. unfold compiler_set_error. cbn. destruct (compile_error comp) eqn:E; apply H; by rewrite ?E.
Qed.
Lemma grows_constant k comp : grows comp (emit_constant k comp).
Proof.
  unfold emit_constant. pose proof (grows_add k comp) as H. destruct (add_constant_checked k comp) as [comp1 [i|]]; cbn [fst emit_constant_index] in *; [|done].
  etransitivity; [exact H|]. destruct (_ <=? _); [rewrite emit_byte2_append|unfold emit_u16_operand; rewrite !emit_byte_append, emit_op_append, !append_append]; apply grows_append.
Qed.
Lemma grows_global name comp : grows comp (let '(comp, i) := make_constant_string name comp in emit_load_global_name i comp).
Proof.
  unfold make_constant_string. pose proof (grows_add (mkConstant (as_string (Some name)) 2) comp) as H.
  destruct (add_constant_checked _ comp) as [comp1 [i|]]; cbn [fst emit_load_global_name] in *; [|done].
  etransitivity; [exact H|]. destruct (_ <=? _); [rewrite emit_byte2_append|unfold emit_u16_operand; rewrite !emit_byte_append, emit_op_append, !append_append]; apply grows_append.
Qed.
Lemma grows_some o comp : grows comp (emit_some o comp).
Proof. destruct o; [apply grows_append|reflexivity]. Qed.
Lemma grows_patch comp comp' p : grows comp comp' -> (size comp <= p)%nat -> grows comp (patch_jump (Z.of_nat p) comp').
Proof.
  intros [[l Hl]] Hp. unfold patch_jump. destruct (_ <? _); [split; try done; by exists l|]. split; try done. cbn [with_code ccode].
  rewrite Hl, !insert_app_r_alt by lia. by eexists.
Qed.
Lemma grows_identifier t name comp comp' : compile_identifier t name comp = Some comp' -> grows comp comp'.
Proof.
  unfold compile_identifier. destruct (_ <=? _); [intros [= <-]; rewrite emit_byte2_append; apply grows_append|].
  pose proof (grows_global name comp) as H. destruct (make_constant_string name comp).
  destruct (find_enum_member_decl _ _) as [d|]; [destruct (_ && _); [done|]|]; by intros [= <-].
Qed.

Create HintDb emitted.
#[export] Hint Resolve grows_append grows_constant grows_some grows_identifier : emitted.
(** Takes a chain of compilations apart. *)
Ltac steps H :=
  repeat match type of H with
  | (let* _ := ?m in _) = Some _ => let E := fresh "E" in destruct m eqn:E; [|discriminate H]
  | Some _ = Some _ => injection H as <-
  end.

Section Grows.
Context (compile : Expr -> Compiler -> option Compiler).
Context (IH : forall e comp comp', compile e comp = Some comp' -> grows comp comp').

Lemma and_grows l r comp comp' : compile_and compile l r comp = Some comp' -> grows comp comp'.
Proof.
  unfold compile_and. intros H. steps H. rewrite emit_jump_append, emit_op_append, append_append in H. steps H.
  etransitivity; [by eapply IH|]. apply grows_patch; [|lia]. etransitivity; [apply grows_append|by eapply IH].
Qed.
Lemma or_grows l r comp comp' : compile_or compile l r comp = Some comp' -> grows comp comp'.
Proof.
  unfold compile_or. intros H. steps H. rewrite !emit_jump_append in H. rewrite append_append, emit_op_append in H. steps H.
  etransitivity; [by eapply IH|]. apply grows_patch; [|cbn; rewrite length_app; simpl; lia]. etransitivity; [|by eapply IH].
  etransitivity; [|apply grows_append]. apply grows_patch; [apply grows_append|lia].
Qed.
Lemma reciprocal_grows v comp comp' : compile_reciprocal compile v comp = Some comp' -> grows comp comp'.
Proof.
  unfold compile_reciprocal. destruct (match_evalA_denom_locals comp v) as [[a b]|]; intros H; steps H.
  - rewrite emit_op_append, !emit_byte_append, !append_append. auto with emitted.
  - etransitivity; [by eapply IH|]. rewrite emit_op_append. auto with emitted.
Qed.
Lemma shared_grows e comp comp' : compile_shared compile e comp = Some comp' -> grows comp comp'.
Proof.
  unfold compile_shared. intros H. steps H. rewrite !emit_op_append, append_append.
  etransitivity; [by eapply IH|]. etransitivity; [apply grows_append|]. etransitivity; [apply grows_constant|]. auto with emitted.
Qed.
Lemma operands_grow t l r op comp comp' : compile_operands compile t l r op comp = Some comp' -> grows comp comp'.
Proof.
  unfold compile_operands. intros H. steps H. etransitivity; [by eapply IH|]. etransitivity; [by eapply IH|]. auto with emitted.
Qed.
Lemma binary_grows t l r op comp comp' : compile_binary compile t l r op comp = Some comp' -> grows comp comp'.
Proof.
  assert (compile_operator compile t l r op comp = Some comp' -> grows comp comp') as Hop.
  { unfold compile_operator. destruct (reciprocal t op l r); [apply reciprocal_grows|].
    destruct (shared_base t op l r); eauto using operands_grow, shared_grows. }
  destruct op; eauto using and_grows, or_grows.
Qed.
End Grows.

Lemma compile_grows n : forall e comp comp', compile_expression n e comp = Some comp' -> grows comp comp'.
Proof.
  induction n as [|n IH]; intros e comp comp' H; [done|]. cbn [compile_expression] in H. destruct e as [t p|t name|t l r op|t o op|t v target|t|t].
  - steps H. auto with emitted.
  - eauto with emitted.
  - destruct (fold_expression_recursive _) as [e'| |]; [by eapply IH|by eapply binary_grows|done].
  - destruct (fold_expression_recursive _) as [e'| |]; [by eapply IH| |done]. steps H. etransitivity; [by eapply IH|]. auto with emitted.
  - steps H. etransitivity; [by eapply IH|]. destruct (is_noop_primitive_cast _ _); [reflexivity|auto with emitted].
  - steps H. rewrite emit_op_append, emit_byte_append, append_append. auto with emitted.
  - done.
Qed.

(** ** Patterns *)

Lemma reciprocal_inv t op l r v : reciprocal t op l r = Some v ->
  op = TOKEN_SLASH /\ double_const double_one l = true /\ has_kind TYPE_INT v = true /\ exists ty, r = EXPR_CAST ty v (Some TYPE_DOUBLE).
Proof.
  unfold reciprocal. destruct op; try done. destruct r as [| | | |ty w [[]|]| |]; try done.
  destruct (_ && _) eqn:E; [|done]. intros [= ->]. apply andb_true_iff in E as [E ?]. apply andb_true_iff in E as [_ ?]. eauto.
Qed.

(** [sum] is [x + 1] or [1 + x] with an [x] equal to [base]. *)
Definition successor_of (base sum : Expr) : Prop :=
  expr_inline_eligible base = true /\
  exists t x one, expr_equals x base = true /\ int_const 1 one = true /\ (sum = EXPR_BINARY t x one TOKEN_PLUS \/ sum = EXPR_BINARY t one x TOKEN_PLUS).
Lemma shared_sum_one base sum : shared_sum base sum = Some 1 -> successor_of base sum.
Proof.
  unfold shared_sum. destruct sum as [| |t l r []| | | |]; try done. unfold guarded_by. destruct (expr_inline_eligible base) eqn:Ee; [|done].
  assert (forall e, literal_of TYPE_INT e = true -> lit_int e = Some 1 -> int_const 1 e = true) as H1 by (intros e H1 H2; unfold int_const; by rewrite H1, H2).
  destruct (expr_equals l base && literal_of TYPE_INT r) eqn:El.
  { apply andb_true_iff in El as [? ?]. intros ?. split; [done|]. exists t, l, r. split; [done|]. split; [by apply H1|by left]. }
  destruct (expr_equals r base && literal_of TYPE_INT l) eqn:Er; [|done].
  apply andb_true_iff in Er as [? ?]. intros ?. split; [done|]. exists t, r, l. split; [done|]. split; [by apply H1|by right].
Qed.
Lemma shared_base_inv t op l r base : shared_base t op l r = Some base ->
  op = TOKEN_STAR /\ both TYPE_INT l r = true /\ (base = l /\ successor_of l r \/ base = r /\ successor_of r l).
Proof.
  unfold shared_base, guarded_by. destruct (bool_decide (op = TOKEN_STAR) && all_of TYPE_INT t l r) eqn:E; [|done].
  apply andb_true_iff in E as [E1%bool_decide_eq_true [_ E2]%andb_true_iff]. unfold shared_factor.
  assert (forall (b : Expr) z base, (let? (b, z) := Some (b, z) in if z =? 1 then Some b else None) = Some base -> z = 1 /\ base = b) as Hz.
  { intros b z b' H. cbn in H. destruct (Z.eqb_spec z 1) as [->|]; by simplify_eq. }
  destruct (shared_sum l r) as [z|] eqn:El; [|destruct (shared_sum r l) as [z|] eqn:Er; [|done]]; intros [-> ->]%Hz; split_and!; try done;
    [left|right]; (split; [done|by apply shared_sum_one]).
Qed.

(** ** Enough fuel *)

Section Fuel.
Context (compile compile' : Expr -> Compiler -> option Compiler).

(** Operators compile their operands, or a part of them, only. *)
Lemma binary_same t l r op comp :
  (forall e comp, (expr_size e <= expr_size l + expr_size r)%nat -> compile e comp = compile' e comp) ->
  compile_binary compile t l r op comp = compile_binary compile' t l r op comp.
Proof.
  intros H. pose proof (expr_size_pos l) as Pl. pose proof (expr_size_pos r) as Pr.
  assert (forall comp, compile l comp = compile' l comp) as Hl by (intros; apply H; lia).
  assert (forall comp, compile r comp = compile' r comp) as Hr by (intros; apply H; lia).
  assert (compile_operator compile t l r op comp = compile_operator compile' t l r op comp) as Ho.
  { unfold compile_operator. destruct (reciprocal t op l r) as [v|] eqn:Er.
    { apply reciprocal_inv in Er as (_ & _ & _ & ty & ->). unfold compile_reciprocal. cbn [expr_size] in *. by rewrite H by lia. }
    destruct (shared_base t op l r) as [b|] eqn:Eb.
    { apply shared_base_inv in Eb as (_ & _ & [[-> _]|[-> _]]); unfold compile_shared; by rewrite ?Hl, ?Hr. }
    unfold compile_operands. rewrite Hl. destruct (compile' l comp); [by rewrite Hr|done]. }
  unfold compile_binary, compile_and, compile_or. rewrite Hl.
  destruct op; try done; destruct (compile' l comp); try done; cbn -[patch_jump emit_op]; by rewrite Hr.
Qed.
End Fuel.

(** The expression has as many nodes as fuel is needed. *)
Lemma compile_fuel n m : forall e comp, (expr_size e <= n)%nat -> (expr_size e <= m)%nat -> compile_expression n e comp = compile_expression m e comp.
Proof.
  revert m. induction n as [|n IH]; intros m e comp Hn Hm; [pose proof (expr_size_pos e); lia|].
  destruct m as [|m]; [pose proof (expr_size_pos e); lia|]. cbn [compile_expression].
  destruct e as [t p|t name|t l r op|t o op|t v target|t|t]; try done; cbn [expr_size] in *.
  - destruct (fold_expression_recursive _) as [e'| |] eqn:E; [|apply binary_same; intros; apply IH; lia|done].
    apply fold_size in E. cbn [expr_size] in E. apply IH; lia.
  - destruct (fold_expression_recursive _) as [e'| |] eqn:E; [|by rewrite (IH m) by lia|done].
    apply fold_size in E. cbn [expr_size] in E. apply IH; lia.
  - by rewrite (IH m) by lia.
Qed.

(** ** Which expressions are compiled *)

(** No construct outside the model: no other kind of expression, and no name of
    an enumeration member that builds a function. *)
Fixpoint supported (comp : Compiler) (e : Expr) : bool :=
  match e with
  | EXPR_LITERAL _ _ | EXPR_NIL _ => true
  | EXPR_IDENTIFIER t name =>
      (0 <=? resolve_local comp name) ||
      match find_enum_member_decl comp name with Some d => negb (has_payload_members d && negb (bool_decide (t = Some TYPE_FUNCTION))) | None => true end
  | EXPR_BINARY _ l r _ => supported comp l && supported comp r
  | EXPR_UNARY _ o _ => supported comp o
  | EXPR_CAST _ v target => supported comp v && bool_decide (target <> None)
  | EXPR_OTHER _ => false
  end.
Lemma supported_same comp comp' e : local_names comp' = local_names comp -> enum_decls comp' = enum_decls comp -> supported comp' e = supported comp e.
Proof.
  intros Hn He. induction e as [| | ? l IHl r IHr| | | |]; cbn [supported]; try done; [|by rewrite IHl, IHr|by rewrite IHe].
  unfold resolve_local, find_enum_member_decl. by rewrite Hn, He.
Qed.
Lemma grows_supported comp comp' e : grows comp comp' -> supported comp e = true -> supported comp' e = true.
Proof. intros H He. by rewrite (supported_same comp comp') by apply H. Qed.
Lemma patch_supported p comp e : supported comp e = true -> supported (patch_jump p comp) e = true.
Proof. intros H. rewrite (supported_same comp); [done|unfold patch_jump; by case_match..]. Qed.

Definition fold_defined (e : Expr) : Prop := fold_expression_recursive e <> FoldUndefined.
Lemma fold_defined_operands t l r op : fold_defined (EXPR_BINARY t l r op) -> fold_defined l /\ fold_defined r.
Proof.
  unfold fold_defined. cbn [fold_expression_recursive]. intros H. split; intros E; apply H; rewrite E; [done|].
  by destruct (fold_expression_recursive l).
Qed.
Lemma fold_defined_cast t v target : fold_defined (EXPR_CAST t v (Some target)) -> fold_defined v.
Proof. unfold fold_defined. cbn [fold_expression_recursive]. intros H E. apply H. by rewrite E. Qed.

(** A folded expression is supported, and folding it again is defined. *)
Lemma fold_supported comp e : forall e', supported comp e = true -> fold_expression_recursive e = Folded e' -> supported comp e' = true /\ fold_defined e'.
Proof.
  assert (forall e f k e', supported comp e = true -> fold_expression_recursive e = f -> or_original f e k = Folded e' ->
    (forall e0, fold_expression_recursive e = Folded e0 -> supported comp e0 = true /\ fold_defined e0) -> exists e0, (supported comp e0 = true /\ fold_defined e0) /\ k e0 = Folded e') as Hor.
  { intros e1 [e0| |] k e' Hs Ef H Hf; cbn in H; [exists e0; auto| |done]. exists e1. split; [|done]. split; [done|]. unfold fold_defined. by rewrite Ef. }
  induction e as [| |t l IHl r IHr op|t o IHo op|t v IHv target| |]; intros e' Hs H; cbn [fold_expression_recursive supported] in *; try done.
  - apply andb_true_iff in Hs as [Sl Sr]. eapply Hor in H as (l' & Al & H); [|done|done|auto]. eapply Hor in H as (r' & Ar & H); [|done|done|auto].
    by apply fold_binary_shape in H as [->|[->|(? & ? & -> & _)]].
  - eapply Hor in H as (o' & _ & H); [|done|done|auto]. by apply fold_unary_shape in H as (? & ? & -> & _).
  - apply andb_true_iff in Hs as [Sv _]. destruct target as [target|]; [|done].
    destruct (fold_expression_recursive v) as [v'| |] eqn:E; [|destruct (is_noop_primitive_cast _ _); [|done]|done].
    + destruct (IHv v' Sv eq_refl) as [Sv' Dv]. injection H as <-. destruct (is_noop_primitive_cast _ _); [done|]. split; [cbn; by rewrite Sv'|].
      unfold fold_defined in *. cbn [expr_create_cast fold_expression_recursive]. destruct (fold_expression_recursive v'); [done| |done]. by case_match.
    + injection H as <-. split; [done|]. unfold fold_defined. by rewrite E.
Qed.

Section Total.
Context (compile : Expr -> Compiler -> option Compiler) (bound : nat).
Context (Hgrow : forall e comp comp', compile e comp = Some comp' -> grows comp comp').
Context (IH : forall e comp, (expr_size e <= bound)%nat -> supported comp e = true -> fold_defined e -> exists comp', compile e comp = Some comp').

Lemma binary_total t l r op comp : (expr_size l <= bound)%nat -> (expr_size r <= bound)%nat -> supported comp l = true -> supported comp r = true ->
  fold_defined l -> fold_defined r -> exists comp', compile_binary compile t l r op comp = Some comp'.
Proof.
  intros Bl Br Sl Sr Dl Dr. destruct (IH l comp Bl Sl Dl) as [comp1 El]. pose proof (Hgrow _ _ _ El) as Gl. pose proof (grows_supported _ _ _ Gl Sr) as Sr1.
  assert (forall l', exists comp', compile r (append l' comp1) = Some comp') as Hr by (intros; apply IH; [done| |done]; eapply grows_supported; [apply grows_append|done]).
  assert (exists comp', compile_operator compile t l r op comp = Some comp') as Hop.
  { unfold compile_operator. destruct (reciprocal t op l r) as [v|] eqn:Er.
    { destruct (reciprocal_inv _ _ _ _ _ Er) as (_ & _ & _ & ty & ->). cbn [supported expr_size] in *. apply andb_true_iff in Sr as [Sv _]. apply fold_defined_cast in Dr.
      unfold compile_reciprocal. destruct (match_evalA_denom_locals comp v) as [[]|]; [eauto|]. destruct (IH v comp) as [comp2 ->]; [lia|done|done|eauto]. }
    destruct (shared_base t op l r) as [b|] eqn:Eb.
    { unfold compile_shared. apply shared_base_inv in Eb as (_ & _ & [[-> _]|[-> _]]); [rewrite El; eauto|]. destruct (IH r comp Br Sr Dr) as [comp2 ->]. eauto. }
    unfold compile_operands. rewrite El. destruct (IH r comp1 Br Sr1 Dr) as [comp2 ->]. eauto. }
  destruct op; try done; unfold compile_binary, compile_and, compile_or; rewrite El.
  - rewrite emit_jump_append, emit_op_append, append_append. destruct (Hr ([op_byte OP_JUMP_IF_FALSE; 255; 255] ++ [op_byte OP_POP])) as [comp2 ->]. eauto.
  - rewrite !emit_jump_append, append_append. destruct (IH r (emit_op OP_POP (patch_jump (Z.of_nat (S (size comp1))) (append ([op_byte OP_JUMP_IF_FALSE; 255; 255] ++ [op_byte OP_JUMP; 255; 255]) comp1)))) as [comp2 E2]; [done| |done|].
    + eapply grows_supported; [apply (grows_append [op_byte OP_POP])|]. apply patch_supported. eapply grows_supported; [apply grows_append|done].
    + rewrite E2. eauto.
Qed.
End Total.

Lemma compile_total n : forall e comp, (expr_size e <= n)%nat -> supported comp e = true -> fold_defined e -> exists comp', compile_expression n e comp = Some comp'.
Proof.
  induction n as [|n IH]; intros e comp Hn Hs Hd; [pose proof (expr_size_pos e); lia|]. cbn [compile_expression].
  assert (forall e', fold_expression_recursive e = Folded e' -> exists comp', compile_expression n e' comp = Some comp') as Hfold.
  { intros e' E. destruct (fold_supported comp e e' Hs E) as [Se De]. apply fold_size in E. apply IH; [lia|done|done]. }
  destruct e as [t p|t name|t l r op|t o op|t v target|t|t]; cbn [expr_size supported] in *; try done; eauto.
  - unfold compile_identifier. apply orb_true_iff in Hs as [->|Hs]; [eauto|]. destruct (_ <=? _); [eauto|]. destruct (make_constant_string name comp).
    destruct (find_enum_member_decl comp name) as [d|]; [destruct (_ && _); [done|]|]; eauto.
  - apply andb_true_iff in Hs as [Sl Sr]. destruct (fold_defined_operands _ _ _ _ Hd) as [Dl Dr].
    destruct (fold_expression_recursive (EXPR_BINARY t l r op)) eqn:E; [auto| |done]. apply (binary_total _ n); eauto using compile_grows; lia.
  - assert (fold_defined o) as Do. { unfold fold_defined in *. cbn [fold_expression_recursive] in Hd. intros E. apply Hd. by rewrite E. }
    destruct (fold_expression_recursive (EXPR_UNARY t o op)) eqn:E; [auto| |done]. destruct (IH o comp) as [comp1 ->]; [lia|done|done|eauto].
  - apply andb_true_iff in Hs as [Sv Ht]. destruct target as [target|]; [|done]. apply fold_defined_cast in Hd.
    destruct (IH v comp) as [comp1 ->]; [lia|done|done|eauto].
Qed.

(** ** Equal expressions *)

Lemma double_eq_close x y : double_eq x y = true -> double_close x y.
Proof.
  unfold double_eq, double_close, near. destruct (double_of_bits x) as [| [] | | [] m e], (double_of_bits y) as [| [] | | [] m' e']; try done; cbn; auto;
    destruct (Z.compare_spec e e') as [->| |]; try done; destruct (Pos.compare_cont Eq m m') eqn:E; try done; apply Pos.compare_eq in E as ->; auto.
Qed.

Lemma equals_identifier a t n : expr_equals a (EXPR_IDENTIFIER t n) = true -> exists t', a = EXPR_IDENTIFIER t' n.
Proof. destruct a as [[]| | | |? ? []| |]; try done. intros ->%bool_decide_eq_true. eauto. Qed.
Lemma equals_binary a t l r op : expr_equals a (EXPR_BINARY t l r op) = true ->
  exists t' l' r', a = EXPR_BINARY t' l' r' op /\ expr_equals l' l = true /\ expr_equals r' r = true.
Proof.
  destruct a as [[]| | | |? ? []| |]; try done. intros [->%bool_decide_eq_true [? ?]%andb_true_iff]%andb_true_iff. eauto 6.
Qed.

Section Equal.
Context (limit : Z) (env : list Z -> option Value).
Notation eval := (eval_expr limit env).

Lemma rbind_close a a' k k' : result_close a a' -> (forall x y, value_close x y -> result_close (k x) (k' y)) -> result_close (rbind a k) (rbind a' k').
Proof. destruct a, a'; cbn; intros H Hk; simplify_eq; try reflexivity. by apply Hk. Qed.

Lemma equals_close a : forall b, expr_inline_eligible b = true -> expr_equals a b = true -> result_close (eval a) (eval b).
Proof.
  induction a as [t p|t name|t l IHl r IHr op|t o IHo op|t v IHv target|t|t]; intros b He H; cbn [expr_equals] in H.
  - destruct t as [t|]; [|done]. destruct b as [[u|] q| | | | | |]; try done. apply andb_true_iff in H as [->%bool_decide_eq_true H].
    destruct u, p, q; try done; cbn in H |- *.
    + apply Z.eqb_eq in H as ->. reflexivity.
    + apply Z.eqb_eq in H as ->. reflexivity.
    + by apply computed_double, double_eq_close.
  - destruct b; try done. apply bool_decide_eq_true in H as ->. reflexivity.
  - destruct b as [| |t' l' r' op'| | | |]; try done. apply andb_true_iff in H as [<-%bool_decide_eq_true [Hl Hr]%andb_true_iff].
    cbn in He. apply andb_true_iff in He as [El Er]. pose proof (IHl _ El Hl) as Cl. pose proof (IHr _ Er Hr) as Cr.
    destruct (logical op) eqn:Ho.
    + destruct op; try done; cbn [eval_expr]; (apply rbind_close; [done|]); intros x y Hx; (etransitivity; [by apply logic_close|]);
        destruct y; cbn; try reflexivity; by destruct (eqb _ _).
    + rewrite !eval_binary by done. apply rbind_close; [done|]. intros x y Hx. apply rbind_close; [done|]. intros. by apply operator_close.
  - destruct b as [| | |t' o' op'| | |]; try done. apply andb_true_iff in H as [<-%bool_decide_eq_true H].
    cbn [eval_expr]. apply rbind_close; [by apply IHo|]. intros. by apply unary_close.
  - destruct target as [target|]; [|done]. destruct b as [| | | |t' v' [target'|]| |]; try done. apply andb_true_iff in H as [<-%bool_decide_eq_true H].
    cbn in He. apply andb_true_iff in He as [_ He]. cbn [eval_expr]. apply rbind_close; [by apply IHv|]. intros. by apply cast_close.
  - by destruct b.
  - done.
Qed.

(** ** Values of the patterns *)

Definition int_typed (r : arith_result) : Prop := result_typed r TYPE_INT.
Lemma int_typed_inv r : int_typed r -> match r with Computed v => exists x, v = VAL_INT x | _ => True end.
Proof. destruct r; try done. apply typed_inv. Qed.

Lemma successor_eval base sum : int_typed (eval base) -> successor_of base sum ->
  eval sum = match eval base with Computed (VAL_INT x) => int_result (c_int64 (x + 1)) | r => r end.
Proof.
  intros Hi (He & t & x & one & Hx & H1 & Hs). pose proof (equals_close x base He Hx) as Hc.
  apply int_const_eval with (limit := limit) (env := env) in H1. apply int_typed_inv in Hi.
  destruct (eval base) as [v| | |]; [destruct Hi as [i ->]|..];
    (destruct (eval x) as [w| | |] eqn:Ex; simplify_eq/=; try done);
    try (apply value_close_inv in Hc as [->|[(? & ? & -> & ? & _)|(? & ? & -> & ? & _)]]; [|done..]);
    destruct Hs as [-> | ->]; rewrite eval_binary by done; unfold binary_value; rewrite Ex, H1; try done; cbn. by rewrite Z.add_comm.
Qed.

(** [base * (base + 1)] with the typed instructions. *)
Definition shared_value (v : Value) : arith_result :=
  rbind (typed_result (TInt IAdd) v (VAL_INT 1)) (typed_result (TInt IMul) v).

Lemma shared_refines t l r base : annotated limit env l -> annotated limit env r -> shared_base t TOKEN_STAR l r = Some base ->
  refines (eval (EXPR_BINARY t l r TOKEN_STAR)) (rbind (eval base) shared_value).
Proof.
  intros Al Ar (_ & [Kl Kr]%andb_true_iff & Hb)%shared_base_inv.
  pose proof (annotated_kind limit env _ _ Al Kl) as Tl. pose proof (annotated_kind limit env _ _ Ar Kr) as Tr.
  rewrite eval_binary by done. unfold binary_value.
  assert (forall o x, result_close (rbind (int_result o) (fun y => eval_operator limit TOKEN_STAR (VAL_INT x) y)) (rbind (int_result o) (typed_result (TInt IMul) (VAL_INT x)))) as H1
    by (intros [] x; reflexivity).
  assert (forall o x, result_close (rbind (int_result o) (fun y => eval_operator limit TOKEN_STAR y (VAL_INT x))) (rbind (int_result o) (typed_result (TInt IMul) (VAL_INT x)))) as H2
    by (intros [] x; cbn; rewrite 1?Z.mul_comm; reflexivity).
  destruct Hb as [[-> Hs]|[-> Hs]].
  - rewrite (successor_eval _ _ Tl Hs). apply int_typed_inv in Tl. destruct (eval l) as [v| | |]; [destruct Tl as [x ->]|..]; cbn [rbind]; [by apply close_refines, H1|by right; right|by left|by right; right].
  - rewrite (successor_eval _ _ Tr Hs). apply int_typed_inv in Tr. destruct (eval r) as [v| | |]; [destruct Tr as [x ->]|..]; cbn [rbind]; [by apply close_refines, H2|by right; right|by left|by right; right].
Qed.

Definition recip_value (v : Value) : arith_result := match v with VAL_INT x => recip_int x | _ => ComputeUnmodelled end.
Lemma reciprocal_close t op l r v : annotated limit env v -> reciprocal t op l r = Some v ->
  result_close (eval (EXPR_BINARY t l r op)) (rbind (eval v) recip_value).
Proof.
  intros Av (-> & Hl & Hk & ty & ->)%reciprocal_inv. pose proof (annotated_kind limit env _ _ Av Hk) as Tv. apply int_typed_inv in Tv.
  destruct (double_const_eval limit env _ _ Hl) as (d & Ed & Hd). rewrite eval_binary by done. unfold binary_value. rewrite Ed. cbn [rbind eval_expr].
  destruct (eval v) as [w| | |]; [destruct Tv as [x ->]|reflexivity..]. by apply recip_close.
Qed.

(** *** The denominator of Spectral-Norm *)

(** An integer expression, with [None] for an overflow. *)
Definition evals (e : Expr) (o : option Z) : Prop := eval e = int_result o.
Lemma evals_eq e o o' : evals e o -> o = o' -> evals e o'.
Proof. by intros H <-. Qed.
Lemma evals_binary t l r op f a b : evals l a -> evals r b -> logical op = false ->
  (forall x y, eval_operator limit op (VAL_INT x) (VAL_INT y) = int_result (f x y)) ->
  evals (EXPR_BINARY t l r op) (let? x := a in let? y := b in f x y).
Proof.
  unfold evals. intros Hl Hr Ho Hf. rewrite eval_binary by done. unfold binary_value. rewrite Hl, Hr.
  destruct a; [|done]. destruct b; [|done]. cbn. apply Hf.
Qed.
Lemma evals_sum t l r a b : evals l a -> evals r b -> evals (EXPR_BINARY t l r TOKEN_PLUS) (let? x := a in let? y := b in c_int64 (x + y)).
Proof. intros Hl Hr. by apply evals_binary. Qed.
Lemma evals_product t l r a b : evals l a -> evals r b -> evals (EXPR_BINARY t l r TOKEN_STAR) (let? x := a in let? y := b in c_int64 (x * y)).
Proof. intros Hl Hr. by apply evals_binary. Qed.
Lemma evals_half t l two a : evals l a -> int_const 2 two = true -> evals (EXPR_BINARY t l two TOKEN_SLASH) (let? x := a in c_int64 (Z.quot x 2)).
Proof.
  unfold evals. intros Hl H2. rewrite eval_binary by done. unfold binary_value. rewrite Hl, (int_const_eval limit env 2 two H2). by destruct a.
Qed.
Lemma evals_one one : int_const 1 one = true -> evals one (Some 1).
Proof. apply int_const_eval. Qed.
Lemma evals_plus_one e x a : plus_one e = Some x -> evals x a -> evals e (let? x := a in c_int64 (x + 1)).
Proof.
  unfold plus_one, int_one. destruct e as [| |t l r []| | | |]; try done. destruct (int_const 1 l) eqn:El.
  - intros [= ->] Hx. pose proof (evals_sum t l x _ _ (evals_one _ El) Hx) as H. unfold evals in *. rewrite H. destruct a; [|done]. cbn. by rewrite Z.add_comm.
  - destruct (int_const 1 r) eqn:Er; [|done]. intros [= ->] Hx. pose proof (evals_sum t x r _ _ Hx (evals_one _ Er)) as H. unfold evals in *. rewrite H. by destruct a.
Qed.

Definition evalA_sum (t ta tb : option TypeKind) (na nb : list Z) : Expr := EXPR_BINARY t (EXPR_IDENTIFIER ta na) (EXPR_IDENTIFIER tb nb) TOKEN_PLUS.
Inductive evalA_shape (na nb : list Z) : Expr -> Prop :=
  | evalA_expr t1 t2 t3 t4 t5 t6 tc td x y one two lhs rhs s div a :
      int_const 1 one = true -> int_const 2 two = true -> (x = div /\ y = a \/ x = a /\ y = div) -> (exists ta, a = EXPR_IDENTIFIER ta na) ->
      div = EXPR_BINARY t3 (EXPR_BINARY t4 lhs rhs TOKEN_STAR) two TOKEN_SLASH ->
      (let t := evalA_sum t5 (Some TYPE_INT) (Some TYPE_INT) na nb in lhs = t /\ rhs = s \/ lhs = s /\ rhs = t) ->
      plus_one s = Some (evalA_sum t6 tc td na nb) ->
      evalA_shape na nb (EXPR_BINARY t1 (EXPR_BINARY t2 x y TOKEN_PLUS) one TOKEN_PLUS).

Lemma match_evalA_inv denom na nb : match_evalA denom = Some (na, nb) -> evalA_shape na nb denom.
Proof.
  unfold match_evalA. destruct denom as [| |t1 [| |t2 x y []| | | |] one []| | | |]; try done. unfold guarded_by, int_one at 1.
  destruct (int_const 1 one) eqn:E1; [|done].
  match goal with |- obind ?m _ = _ -> _ => set (pick := m) end.
  assert (match pick with Some (div, a) => (x = div /\ y = a \/ x = a /\ y = div) /\ exists ta n, a = EXPR_IDENTIFIER ta n | None => True end) as Hp
    by (unfold pick; destruct x, y; eauto 6).
  destruct pick as [[div a]|]; [|done]. destruct Hp as [Hp (ta & n & ->)]. cbn [obind]. destruct (has_kind _ _); [|done].
  destruct div as [| |t3 [| |t4 lhs rhs []| | | |] two []| | | |]; try done. destruct (int_const 2 two) eqn:E2; [|done].
  match goal with |- obind ?m _ = _ -> _ => set (split := m) end.
  assert (match split with Some (t, s) => lhs = t /\ rhs = s \/ lhs = s /\ rhs = t | None => True end) as Hs
    by (unfold split; destruct (plus_one rhs), (plus_one lhs); auto).
  destruct split as [[t s]|]; [|done]. cbn [obind]. destruct t as [| |t5 [] [] []| | | |]; try done.
  destruct (_ && _) eqn:Et; [|done]. apply andb_true_iff in Et as [->%bool_decide_eq_true ->%bool_decide_eq_true].
  destruct (expr_equals _ _) eqn:Ea; [|done]. apply equals_identifier in Ea as (? & [= -> ->]).
  destruct (plus_one s) as [other|] eqn:Ep; [|done]. cbn [obind]. destruct (expr_equals other _) eqn:Eo; [|done]. intros [= <- <-].
  apply equals_binary in Eo as (t6 & l & r & -> & (? & ->)%equals_identifier & (? & ->)%equals_identifier).
  econstructor; eauto.
Qed.

Lemma evalA_eval denom na nb va vb : match_evalA denom = Some (na, nb) -> annotated limit env denom -> env na = Some va -> env nb = Some vb ->
  exists i j, va = VAL_INT i /\ vb = VAL_INT j /\
  (eval denom = ComputeUndefined \/ exists r, eval denom = Computed (VAL_INT r) /\ evala_denom i j = Some r).
Proof.
  intros Hm%match_evalA_inv Ha Hna Hnb. destruct Hm as [t1 t2 t3 t4 t5 t6 tc td x y one two lhs rhs s div a H1 H2 Hxy [ta ->] -> Hlr Hs].
  assert (annotated limit env (evalA_sum t5 (Some TYPE_INT) (Some TYPE_INT) na nb)) as At.
  { destruct Ha as (_ & (_ & Ax & Ay & _) & _).
    assert (annotated limit env (EXPR_BINARY t3 (EXPR_BINARY t4 lhs rhs TOKEN_STAR) two TOKEN_SLASH)) as Ad by (by destruct Hxy as [[-> ->]|[-> ->]]).
    destruct Ad as (_ & (_ & Al & Ar & _) & _). by destruct Hlr as [[-> ->]|[-> ->]]. }
  destruct At as (_ & At1 & At2 & _).
  pose proof (int_typed_inv _ (annotated_kind limit env TYPE_INT _ At1 eq_refl)) as Hi.
  pose proof (int_typed_inv _ (annotated_kind limit env TYPE_INT _ At2 eq_refl)) as Hj.
  cbn [eval_expr] in Hi, Hj. rewrite Hna in Hi. rewrite Hnb in Hj. destruct Hi as [i ->], Hj as [j ->]. exists i, j. split; [done|]. split; [done|].
  assert (forall t, evals (EXPR_IDENTIFIER t na) (Some i)) as Ti by (intros t; unfold evals; cbn; by rewrite Hna).
  assert (forall t, evals (EXPR_IDENTIFIER t nb) (Some j)) as Tj by (intros t; unfold evals; cbn; by rewrite Hnb).
  assert (forall t ta tb, evals (evalA_sum t ta tb na nb) (c_int64 (i + j))) as Ts by (intros; apply (evals_sum _ _ _ (Some i) (Some j)); auto).
  pose proof (evals_plus_one s _ _ Hs (Ts t6 tc td)) as Tp.
  assert (evals (EXPR_BINARY t4 lhs rhs TOKEN_STAR) (let? t := c_int64 (i + j) in let? p := c_int64 (t + 1) in c_int64 (t * p))) as Tm.
  { destruct Hlr as [[-> ->]|[-> ->]]; (eapply evals_eq; [by apply evals_product; [apply Ts || apply Tp..]|]);
      destruct (c_int64 (i + j)) as [t|]; try done; cbn [obind]; destruct (c_int64 (t + 1)) as [p|]; try done; cbn [obind]; by rewrite 1?Z.mul_comm. }
  pose proof (evals_half t3 _ _ _ Tm H2) as Td.
  assert (evals (EXPR_BINARY t2 x y TOKEN_PLUS) (let? t := c_int64 (i + j) in let? p := c_int64 (t + 1) in let? q := c_int64 (t * p) in
    let? h := c_int64 (Z.quot q 2) in c_int64 (h + i))) as Tx.
  { destruct Hxy as [[-> ->]|[-> ->]]; (eapply evals_eq; [by apply evals_sum; [apply Ti || apply Td..]|]);
      destruct (c_int64 (i + j)) as [t|]; try done; cbn [obind]; destruct (c_int64 (t + 1)) as [p|]; try done; cbn [obind];
      destruct (c_int64 (t * p)) as [q|]; try done; cbn [obind]; destruct (c_int64 (Z.quot q 2)); try done; cbn [obind]; by rewrite 1?Z.add_comm. }
  pose proof (evals_sum t1 _ _ _ _ Tx (evals_one _ H1)) as T. unfold evals in T. rewrite T.
  destruct (c_int64 (i + j)) as [t|] eqn:Et; [|by left]. cbn [obind]. destruct (c_int64 (t + 1)) as [p|] eqn:Ep; [|by left]. cbn [obind].
  destruct (c_int64 (t * p)) as [q|] eqn:Eq; [|by left]. cbn [obind]. destruct (c_int64 (Z.quot q 2)) as [h|] eqn:Eh; [|by left]. cbn [obind].
  destruct (c_int64 (h + i)) as [r|] eqn:Er; [|by left]. cbn [obind]. destruct (c_int64 (r + 1)) as [w|] eqn:Ew; [|by left]. right.
  exists w. split; [done|]. apply c_int64_some in Eh as <-. by eapply evala_denom_spec.
Qed.
End Equal.
