(* ===== verification/CodeGenCorrect.v ===== *)
(** * Compiled expressions compute their values

    The code that [compile_expression] appends, run by the interpreter in a
    frame with the locals of the compiler on the stack, pushes the value that
    the reference evaluation gives the expression, or stops with its error. *)

From S2P Require Import Prelude Lexer.
From Stdlib Require Import String SpecFloat.
From S2P Require Import Doubles Values Bytecode Ast Operators Machine Superinstr SuperinstrStep SuperinstrProps Eval TypeCheck ConstFold CodeGen CodeGenSteps CodeGenProps.

Open Scope Z_scope.
Open Scope list_scope.

(** The variables of a frame: [names] are the names of its slots, which are on
    the stack [base] from [ss] on. *)
Definition frame_env (names : list (option (list Z))) (base : list Value) (ss : nat) (name : list Z) : option Value :=
  let i := resolve_from (Z.of_nat (length names) - 1) (rev names) name in
  if 0 <=? i then base !! (ss + Z.to_nat i)%nat else None.

Lemma resolve_from_bounds names name : forall i, i = Z.of_nat (length names) - 1 -> -1 <= resolve_from i names name <= i.
Proof.
  induction names as [|n names IH]; intros i Hi; cbn [resolve_from] in *; simpl in Hi; [lia|]. destruct (bool_decide _); [lia|].
  specialize (IH (i - 1) ltac:(lia)). lia.
Qed.
Lemma resolve_local_bounds comp name : -1 <= resolve_local comp name < Z.of_nat (length (local_names comp)).
Proof. pose proof (resolve_from_bounds (rev (local_names comp)) name _ eq_refl) as H. unfold resolve_local. rewrite length_rev in H. lia. Qed.

Section Correct.
Context (fn : ObjFunction) (ss : nat) (c : list Z) (names : list (option (list Z))) (base : list Value) (limit : Z).
Context (Hnames : (length names <= 256)%nat) (Hframe : (ss + length names <= length base)%nat).
Notation F := (recode c fn).
Notation env := (frame_env names base ss).
Notation eval := (eval_expr limit env).
Notation yields := (yields fn ss c).
Notation star := (star fn ss c).

(** The code from [comp] to [comp'] is part of the function, and its constants
    are in the pool. *)
Record compiled (comp comp' : Compiler) : Prop := {
  compiled_error : compile_error comp' = None;
  compiled_short : Z.of_nat (size comp') <= 32767;
  compiled_names : local_names comp = names;
  compiled_code : forall i b, (size comp <= i)%nat -> ccode comp' !! i = Some b -> c !! i = Some b;
  compiled_pool : forall i k, cconstants comp' !! i = Some k -> buffer (constants (pool fn)) !! i = Some k /\ Z.of_nat i < constant_count (pool fn)
}.

(** [comp2], from [p] on, is part of [comp']. *)
Record part_of (p : nat) (comp2 comp' : Compiler) : Prop := {
  part_code : forall i b, (p <= i)%nat -> ccode comp2 !! i = Some b -> ccode comp' !! i = Some b;
  part_length : (size comp2 <= size comp')%nat;
  part_constants : cconstants comp2 `prefix_of` cconstants comp';
  part_error : compile_error comp' = None -> compile_error comp2 = None
}.
Lemma grows_part p comp comp' : grows comp comp' -> part_of p comp comp'.
Proof. intros H. split; [|by apply grows_length|apply H..]. intros i b _ Hb. by eapply prefix_lookup_Some, H. Qed.
Lemma part_trans p a b d : part_of p a b -> part_of p b d -> part_of p a d.
Proof. intros [] []. split; eauto; [lia|by etransitivity]. Qed.

Lemma compiled_part comp comp1 comp2 comp' : compiled comp comp' -> grows comp comp1 -> part_of (size comp1) comp2 comp' -> compiled comp1 comp2.
Proof.
  intros [H1 H2 H3 H4 H5] Hg [P1 P2 P3 P4]. pose proof (grows_length _ _ Hg) as Hl. split.
  - auto.
  - lia.
  - by rewrite (grows_names _ _ Hg).
  - intros i b Hi Hb. apply H4; [lia|]. by apply P1.
  - intros i k Hk. apply H5. by eapply prefix_lookup_Some.
Qed.
Lemma compiled_first comp comp1 comp' : compiled comp comp' -> grows comp1 comp' -> compiled comp comp1.
Proof. intros H Hg. eapply compiled_part; [exact H|reflexivity|]. by apply grows_part. Qed.
Lemma compiled_rest comp comp1 comp' : compiled comp comp' -> grows comp comp1 -> compiled comp1 comp'.
Proof. intros H Hg. eapply compiled_part; [exact H|exact Hg|]. by apply grows_part. Qed.

(** The bytes that were appended. *)
Lemma appended_at comp l k b comp' : compiled comp comp' -> part_of (size comp) (append l comp) comp' -> l !! k = Some b -> c !! (size comp + k)%nat = Some b.
Proof.
  intros Hc [Hp] Hk. apply (compiled_code _ _ Hc); [lia|]. apply Hp; [lia|]. cbn. rewrite lookup_app_r by lia.
  by replace (size comp + k - size comp)%nat with k by lia.
Qed.

(** A state of the frame with room for [k] more values. *)
Record framed (k : nat) (vm : VM) : Prop := {
  framed_runs : runs fn ss vm;
  framed_limit : max_string_length (config vm) = limit;
  framed_base : base `prefix_of` stack vm;
  framed_room : count vm + Z.of_nat k <= max_stack_size (config vm)
}.
Lemma framed_on k vm v : framed (S k) vm -> framed k (on vm v).
Proof.
  intros [H1 H2 [l H3] H4]. split; [by apply runs_on|done|exists (l ++ [v]); cbn; by rewrite H3, app_assoc|]. unfold count in *. cbn. rewrite length_app. simpl. lia.
Qed.
Ltac in_frame := repeat apply runs_on; match goal with H : framed _ _ |- _ => apply (framed_runs _ _ H) end.
Lemma framed_le k k' vm : (k' <= k)%nat -> framed k vm -> framed k' vm.
Proof. intros Hk [H1 H2 H3 H4]. split; [done..|lia]. Qed.

(** What the instruction of an operator does with its operands. *)
Lemma emitted_does comp comp' vm vm0 o r :
  compiled comp comp' -> part_of (size comp) (append [op_byte o] comp) comp' -> runs fn ss vm ->
  does (exec F ss o vm (Z.of_nat (S (size comp)))) r (fun v => Continue (on vm0 v) (Z.of_nat (S (size comp)))) ->
  yields vm (size comp) vm0 (size (append [op_byte o] comp)) r.
Proof.
  intros Hc Hp Hr Hd. pose proof (appended_at comp _ 0 _ comp' Hc Hp eq_refl) as Hb. rewrite Nat.add_0_r in Hb.
  replace (size (append [op_byte o] comp)) with (S (size comp)) by (cbn; rewrite length_app; simpl; lia). by eapply yields_does.
Qed.

(** *** Constants and locals *)

Lemma size_append l comp : size (append l comp) = (size comp + length l)%nat.
Proof. cbn. by rewrite length_app. Qed.
Lemma drop_appended comp l comp' k b r : compiled comp comp' -> part_of (size comp) (append l comp) comp' -> drop k l = b :: r ->
  exists rest, drop (size comp + k) c = b :: r ++ rest.
Proof.
  intros Hc Hp. revert k b. induction r as [|x r IH]; intros k b Hd.
  - eexists. rewrite (code_drop c _ b); [done|]. eapply appended_at; [done..|]. rewrite <- (Nat.add_0_r k), <- lookup_drop, Hd. done.
  - assert (drop (S k) l = x :: r) as Hx by (by rewrite <- Nat.add_1_r, <- drop_drop, Hd).
    destruct (IH (S k) x Hx) as [rest Hr]. exists rest. rewrite (code_drop c _ b).
    + replace (S (size comp + k)) with (size comp + S k)%nat by lia. by rewrite Hr.
    + eapply appended_at; [done..|]. rewrite <- (Nat.add_0_r k), <- lookup_drop, Hd. done.
Qed.

Lemma push_framed k vm v : framed (S k) vm -> push vm v = on vm v.
Proof. intros [[[He _] _] _ _ Hr]. by rewrite push_ok by (try done; lia). Qed.

Lemma constant_runs k comp comp' vm : compiled comp comp' -> part_of (size comp) (emit_constant k comp) comp' -> framed 1 vm -> payload_present k ->
  star vm (Z.of_nat (size comp)) (on vm (constant_operand k)) (Z.of_nat (size (emit_constant k comp))).
Proof.
  intros Hc Hp Hf Hk. unfold emit_constant, add_constant_checked in *.
  set (idx := Z.of_nat (length (cconstants comp))) in *. set (comp1 := mkCompiler _ _ _ _ _) in *.
  destruct (Z.ltb_spec 65535 idx) as [Hi|Hi].
  { exfalso. pose proof (part_error _ _ _ Hp (compiled_error _ _ Hc)) as He. cbn in He. unfold compiler_set_error in He. by destruct (compile_error comp1) eqn:E; rewrite ?E in He. }
  assert (grows comp comp1) as Hg by (split; try done; by exists [k]).
  assert (compiled comp1 comp') as Hc1.
  { destruct Hc as [H1 H2 H3 H4 H5]. split; try done. }
  assert (cconstants comp' !! Z.to_nat idx = Some k) as Hl.
  { assert (cconstants comp1 `prefix_of` cconstants comp') as Hx.
    { pose proof (part_constants _ _ _ Hp) as Hx. cbn [emit_constant_index] in Hx. by destruct (idx <=? 254). }
    eapply prefix_lookup_Some, Hx. cbn. unfold idx. rewrite Nat2Z.id, lookup_app_r, Nat.sub_diag by lia. done. }
  destruct (compiled_pool _ _ Hc _ _ Hl) as [Hb Hn]. rewrite Z2Nat.id in Hn by lia.
  assert (forall ip, vm_push_constant_by_index F vm idx ip = Continue (on vm (constant_operand k)) ip) as Hpush.
  { intros ip. rewrite (push_pooled fn c vm idx k) by done. by rewrite (push_framed 0). }
  change (size comp) with (size comp1) in *. cbn [emit_constant_index] in *. destruct (Z.leb_spec idx 254).
  - rewrite emit_byte2_append in *. destruct (drop_appended comp1 _ comp' 0 (op_byte OP_CONST) [idx] Hc1 Hp eq_refl) as [r Hd].
    rewrite Nat.add_0_r in Hd. rewrite size_append. eapply star_op; [in_frame| |].
    + by rewrite <- (Nat.add_0_r (size comp1)), <- lookup_drop, Hd.
    + rewrite (exec_const fn ss c vm _ idx r); [|by rewrite <- Nat.add_1_r, <- drop_drop, Hd|lia]. rewrite Hpush. f_equal. simpl. lia.
  - unfold emit_u16_operand in *. rewrite !emit_byte_append, emit_op_append, !append_append in *. cbn [app] in *.
    destruct (drop_appended comp1 _ comp' 0 _ _ Hc1 Hp eq_refl) as [r Hd].
    rewrite Nat.add_0_r in Hd. rewrite size_append. eapply star_op; [in_frame| |].
    + by rewrite <- (Nat.add_0_r (size comp1)), <- lookup_drop, Hd.
    + erewrite exec_const16; [|by rewrite <- Nat.add_1_r, <- drop_drop, Hd]. rewrite byte_pair, Hpush by lia. f_equal. simpl. lia.
Qed.

Definition sound (e : Expr) (comp comp' : Compiler) : Prop :=
  annotated limit env e -> compiled comp comp' -> forall vm, framed (expr_size e) vm -> yields vm (size comp) vm (size comp') (eval e).

Lemma self_part comp comp' : part_of (size comp) comp' comp'.
Proof. by apply grows_part. Qed.

Lemma literal_sound t p comp : sound (EXPR_LITERAL t p) comp (emit_constant (literal_constant t p) comp).
Proof.
  intros [_ Hl] Hc vm Hf. cbn [eval_expr annotated] in *.
  assert (eval_literal t p = ComputeUnmodelled \/ eval_literal t p = Computed (constant_operand (literal_constant t p)) /\ payload_present (literal_constant t p)) as H
    by (unfold payload_present; destruct t as [[]|], p as [| |[]]; try done; auto).
  destruct H as [->|[-> Hp]]; [done|]. eexists. split; [reflexivity|]. by eapply constant_runs; [exact Hc|apply self_part|..].
Qed.

Lemma nil_sound t comp : sound (EXPR_NIL t) comp (emit_byte 255 (emit_op OP_CONST comp)).
Proof.
  intros _ Hc vm Hf. rewrite emit_op_append, emit_byte_append, append_append in *. cbn [app] in *.
  destruct (drop_appended comp _ _ 0 _ _ Hc (self_part _ _) eq_refl) as [r Hd]. rewrite Nat.add_0_r in Hd.
  exists VAL_NIL. split; [reflexivity|]. rewrite size_append. eapply star_op; [in_frame| |].
  - by rewrite <- (Nat.add_0_r (size comp)), <- lookup_drop, Hd.
  - erewrite exec_nil; [|by rewrite <- Nat.add_1_r, <- drop_drop, Hd]. rewrite (push_framed 0) by done. f_equal. simpl. lia.
Qed.

(** The slot that [frame_env] reads. *)
Lemma frame_env_local comp name v vm k : local_names comp = names -> env name = Some v -> framed k vm ->
  0 <= resolve_local comp name < 256 /\ local ss vm (resolve_local comp name) = Some v.
Proof.
  intros Hn He Hf. pose proof (resolve_local_bounds comp name) as Hb. unfold frame_env in He. rewrite <- Hn in He. unfold resolve_local in *.
  destruct (Z.leb_spec 0 (resolve_from (Z.of_nat (length (local_names comp)) - 1) (rev (local_names comp)) name)); [|done].
  split; [rewrite Hn in *; lia|]. unfold local. eapply prefix_lookup_Some, Hf. done.
Qed.

Lemma identifier_sound t name comp comp' : compile_identifier t name comp = Some comp' -> sound (EXPR_IDENTIFIER t name) comp comp'.
Proof.
  intros H _ Hc vm Hf. cbn [eval_expr]. destruct (env name) as [v|] eqn:Ee; [|done].
  destruct (frame_env_local comp name v vm _ (compiled_names _ _ Hc) Ee Hf) as [Hb Hl].
  unfold compile_identifier in H. assert (0 <=? resolve_local comp name = true) as E by lia. rewrite E in H. injection H as <-.
  rewrite emit_byte2_append in *. destruct (drop_appended comp _ _ 0 _ _ Hc (self_part _ _) eq_refl) as [r Hd]. rewrite Nat.add_0_r in Hd.
  exists v. split; [reflexivity|]. rewrite size_append. eapply (star_op _ _ _ _ _ OP_LOAD_LOCAL); [in_frame| |].
  - by rewrite <- (Nat.add_0_r (size comp)), <- lookup_drop, Hd.
  - erewrite exec_load; [|by rewrite <- Nat.add_1_r, <- drop_drop, Hd]. unfold with_local. rewrite u8_small by (unfold is_u8; lia).
    rewrite Hl, (push_framed 0) by done. f_equal. simpl. lia.
Qed.

(** *** Jumps *)

Definition hi (j : nat) : Z := Z.land (Z.shiftr (Z.of_nat j) 8) 255.
Definition lo (j : nat) : Z := Z.land (Z.of_nat j) 255.

(** The jump at [p] over the code that follows its offset. *)
Lemma patched p comp : (p + 2 <= size comp)%nat -> Z.of_nat (size comp) <= 32767 ->
  let comp' := patch_jump (Z.of_nat p) comp in
  ccode comp' !! p = Some (hi (size comp - p - 2)) /\ ccode comp' !! S p = Some (lo (size comp - p - 2)) /\
  (forall i, i <> p -> i <> S p -> ccode comp' !! i = ccode comp !! i).
Proof.
  intros Hp Hs. cbv zeta. unfold patch_jump. replace (Z.of_nat (size comp) - Z.of_nat p - 2) with (Z.of_nat (size comp - p - 2)) by lia.
  assert (32767 <? Z.of_nat (size comp - p - 2) = false) as -> by (apply Z.ltb_ge; lia). cbn [with_code ccode].
  replace (Z.to_nat (Z.of_nat p + 1)) with (S p) by lia. rewrite Nat2Z.id. split; [|split].
  - rewrite list_lookup_insert_ne, list_lookup_insert_eq by lia. done.
  - rewrite list_lookup_insert_eq by (rewrite length_insert; lia). done.
  - intros i H1 H2. by rewrite !list_lookup_insert_ne by lia.
Qed.
Lemma size_patched p comp : size (patch_jump p comp) = size comp.
Proof. unfold patch_jump. case_match; [done|]. cbn. by rewrite !length_insert. Qed.
Lemma patched_part p q comp : (p + 2 <= q)%nat -> (p + 2 <= size comp)%nat -> Z.of_nat (size comp) <= 32767 -> part_of q comp (patch_jump (Z.of_nat p) comp).
Proof.
  intros Hq Hp Hs. destruct (patched p comp Hp Hs) as (_ & _ & H). split.
  - intros i b Hi Hb. by rewrite H by lia.
  - by rewrite size_patched.
  - unfold patch_jump. by case_match.
  - unfold patch_jump. by case_match.
Qed.

Lemma pop_star vm v p : runs fn ss vm -> c !! p = Some (op_byte OP_POP) -> star (on vm v) (Z.of_nat p) vm (Z.of_nat (S p)).
Proof.
  intros Hr Hp. eapply star_op; [by apply runs_on|exact Hp|]. cbn [exec]. rewrite (pop_last (on vm v) (stack vm) v) by done. by destruct vm.
Qed.

(** [OP_JUMP_IF_FALSE] on a value. *)
Lemma jump_false_does vm v p j : runs fn ss vm -> c !! p = Some (op_byte OP_JUMP_IF_FALSE) -> c !! S p = Some (hi j) -> c !! S (S p) = Some (lo j) -> Z.of_nat j <= 32767 ->
  match v with
  | VAL_BOOL x => star (on vm v) (Z.of_nat p) (on vm v) (Z.of_nat (p + 3 + if x then 0 else j))
  | _ => stops fn ss c (on vm v) p "Condition must be bool"
  end.
Proof.
  intros Hr H0 H1 H2 Hj. pose proof (exec_jump_false fn ss c (on vm v) (S p) (hi j) (lo j) (drop (S (S (S p))) c)) as He.
  rewrite (code_drop c _ _ H1), (code_drop c _ _ H2) in He. specialize (He eq_refl). unfold hi, lo in He. rewrite offset16_pair in He by lia.
  assert (peek0 (on vm v) = (v, on vm v)) as Hp by (unfold peek0; cbn; by rewrite last_snoc). rewrite Hp in He.
  pose proof (step_op fn ss c (on vm v) p _ OP_JUMP_IF_FALSE _ (proj1 Hr) (code_drop _ _ _ H0) (decode_op_byte _)) as Hst. rewrite He in Hst.
  destruct v as [|x| | | | | | | | | | | | | |]; try (do 3 eexists; split; [constructor|]; split; [by apply runs_on|by split]).
  eapply star_op; [by apply runs_on|exact H0|]. rewrite He. f_equal. destruct x; cbn [negb]; lia.
Qed.
Lemma jump_star vm p j : runs fn ss vm -> c !! p = Some (op_byte OP_JUMP) -> c !! S p = Some (hi j) -> c !! S (S p) = Some (lo j) -> Z.of_nat j <= 32767 ->
  star vm (Z.of_nat p) vm (Z.of_nat (p + 3 + j)).
Proof.
  intros Hr H0 H1 H2 Hj. eapply star_op; [exact Hr|exact H0|].
  rewrite (exec_jump fn ss c vm (S p) (hi j) (lo j) (drop (S (S (S p))) c)) by (by rewrite (code_drop c _ _ H1), (code_drop c _ _ H2)).
  unfold hi, lo. rewrite offset16_pair by lia. f_equal. lia.
Qed.

(** *** Operators *)

Section Operators.
Context (compile : Expr -> Compiler -> option Compiler) (bound : nat).
Context (Hgrow : forall e comp comp', compile e comp = Some comp' -> grows comp comp').
Context (IH : forall e comp comp', (expr_size e <= bound)%nat -> compile e comp = Some comp' -> sound e comp comp').

(** The values that the machine has for an annotated expression. *)
Lemma annotated_operand e v v' : annotated limit env e -> eval e = Computed v -> value_close v v' -> operand e v'.
Proof.
  intros Ha He Hv. destruct (annotated_typed limit env e Ha) as (t & Ht & Hn & Hr). rewrite He in Hr. eapply operand_close; [|exact Hv]. by exists t.
Qed.

Lemma operands_sound t l r op comp comp' : (expr_size l <= bound)%nat -> (expr_size r <= bound)%nat -> logical op = false ->
  compile_operands compile t l r op comp = Some comp' -> sound (EXPR_BINARY t l r op) comp comp'.
Proof.
  intros Bl Br Ho H Ha Hc vm Hf. unfold compile_operands in H.
  destruct (compile l comp) as [comp1|] eqn:El; [|done]. destruct (compile r comp1) as [comp2|] eqn:Er; [|done]. injection H as <-.
  destruct Ha as (_ & Al & Ar & Hm). cbn [expr_size] in Hf. pose proof (expr_size_pos l) as Pl.
  pose proof (Hgrow _ _ _ El) as Gl. pose proof (Hgrow _ _ _ Er) as Gr. pose proof (grows_some (binary_opcode t op l r) comp2) as Gs.
  rewrite eval_binary by done. eapply yields_rbind.
  - eapply (IH l comp comp1); [done|done|done| |by eapply framed_le, Hf; lia]. eapply compiled_first; [exact Hc|by etransitivity].
  - intros a a' Ea Ca. eapply yields_rbind.
    + eapply (IH r comp1 comp2); [done|done|done| |].
      * eapply compiled_rest; [|exact Gl]. by eapply compiled_first.
      * apply framed_on. eapply framed_le, Hf. lia.
    + intros b b' Eb Cb. destruct (binary_opcode t op l r) as [o|] eqn:Eo.
      * cbn [emit_some]. rewrite emit_op_append in *. eapply emitted_does; [|apply self_part|in_frame|].
        { eapply compiled_rest; [exact Hc|by etransitivity]. }
        rewrite <- (framed_limit _ _ Hf). change (config vm) with (config (on (on vm a') b')).
        eapply (binary_does fn ss c t op l r o (on (on vm a') b') (stack vm) a' b'); try done.
        -- by eapply annotated_operand.
        -- by eapply annotated_operand.
        -- apply Hf.
        -- cbn. by rewrite <- app_assoc.
        -- destruct Hf as [_ _ _ Hr]. unfold count in Hr. cbn. lia.
      * assert (eval_operator limit op a' b' = ComputeUnmodelled) as ->; [|done].
        unfold binary_opcode in Eo. repeat (case_match; try done); destruct op; done.
    + intros x y Hx. by apply operator_close.
  - intros x y Hx. destruct (eval r); try reflexivity. by apply operator_close.
Qed.

Lemma and_sound t l r comp comp' : (expr_size l <= bound)%nat -> (expr_size r <= bound)%nat ->
  compile_and compile l r comp = Some comp' -> sound (EXPR_BINARY t l r TOKEN_AND) comp comp'.
Proof.
  intros Bl Br H Ha Hc vm Hf. unfold compile_and in H. destruct (compile l comp) as [comp1|] eqn:El; [|done].
  rewrite emit_jump_append, emit_op_append, append_append in H. cbn [app] in H. set (comp3 := append _ comp1) in H.
  destruct (compile r comp3) as [comp4|] eqn:Er; [|done]. injection H as <-.
  destruct Ha as (_ & Al & Ar & _). cbn [expr_size] in Hf. pose proof (expr_size_pos l) as Pl.
  pose proof (Hgrow _ _ _ El) as Gl. pose proof (Hgrow _ _ _ Er) as Gr. pose proof (grows_append [op_byte OP_JUMP_IF_FALSE; 255; 255; op_byte OP_POP] comp1) as Ga.
  change (append _ comp1) with comp3 in Ga.
  pose proof (compiled_short _ _ Hc) as Hs. rewrite size_patched in Hs. pose proof (grows_length _ _ Gr) as Lr. unfold comp3 in Lr at 1. rewrite size_append in Lr. simpl in Lr.
  destruct (patched (S (size comp1)) comp4 ltac:(lia) ltac:(lia)) as (P1 & P2 & P3).
  set (j := (size comp4 - S (size comp1) - 2)%nat) in *. set (comp' := patch_jump _ comp4) in *.
  assert (forall k b, (k = 0 \/ k = 3)%nat -> [op_byte OP_JUMP_IF_FALSE; 255; 255; op_byte OP_POP] !! k = Some b -> c !! (size comp1 + k)%nat = Some b) as Hb.
  { intros k b Hk Hl. apply (compiled_code _ _ Hc); [pose proof (grows_length _ _ Gl); lia|]. rewrite P3 by lia. eapply prefix_lookup_Some, Gr.
    cbn. rewrite lookup_app_r by lia. by replace (size comp1 + k - size comp1)%nat with k by lia. }
  pose proof (Hb 0%nat _ ltac:(lia) eq_refl) as H0. rewrite Nat.add_0_r in H0. pose proof (Hb 3%nat _ ltac:(lia) eq_refl) as H3.
  pose proof (grows_length _ _ Gl) as Ll. apply (compiled_code _ _ Hc) in P1; [|lia]. apply (compiled_code _ _ Hc) in P2; [|lia].
  cbn [eval_expr]. eapply yields_rbind; [..|intros; by apply logic_close].
  - eapply (IH l comp comp1); [done|done|done| |by eapply framed_le, Hf; lia]. eapply compiled_first; [exact Hc|]. apply grows_patch; [|lia]. by etransitivity.
  - intros v v' Ev Cv. pose proof (jump_false_does vm v' (size comp1) j ltac:(in_frame) H0 P1 P2 ltac:(lia)) as Hj.
    destruct v' as [|x| | | | | | | | | | | | | |]; try (by right). cbn [eval_logic]. destruct x; cbn [eqb].
    + eapply yields_star; [exact Hj|]. eapply yields_star; [apply pop_star; [in_frame|by rewrite Nat.add_0_r]|].
      replace (S (size comp1 + 3 + 0)) with (size comp3) by (unfold comp3; rewrite size_append; simpl; lia).
      unfold comp' in *. rewrite size_patched. eapply (IH r comp3 comp4); [done|done|done| |by eapply framed_le, Hf; lia].
      eapply compiled_part; [exact Hc|by etransitivity|]. apply patched_part; [unfold comp3; rewrite size_append; simpl; lia|lia|lia].
    + exists (VAL_BOOL false). split; [reflexivity|]. unfold comp'. rewrite size_patched. replace (size comp4) with (size comp1 + 3 + j)%nat by lia. exact Hj.
Qed.

(** The first jump of [||] leads over the second one. *)
Lemma or_jumps comp : patch_jump (Z.of_nat (S (size comp))) (append [op_byte OP_JUMP_IF_FALSE; 255; 255; op_byte OP_JUMP; 255; 255] comp) =
  append [op_byte OP_JUMP_IF_FALSE; 0; 3; op_byte OP_JUMP; 255; 255] comp.
Proof.
  unfold patch_jump. rewrite size_append. cbn [length].
  replace (Z.of_nat (size comp + 6) - Z.of_nat (S (size comp)) - 2) with 3 by lia. cbn [Z.ltb Z.compare].
  replace (Z.to_nat (Z.of_nat (S (size comp)) + 1)) with (size comp + 2)%nat by lia. rewrite Nat2Z.id.
  replace (S (size comp)) with (size comp + 1)%nat by lia. unfold append. cbn [with_code ccode]. by rewrite !insert_app_r.
Qed.

Lemma or_sound t l r comp comp' : (expr_size l <= bound)%nat -> (expr_size r <= bound)%nat ->
  compile_or compile l r comp = Some comp' -> sound (EXPR_BINARY t l r TOKEN_OR) comp comp'.
Proof.
  intros Bl Br H Ha Hc vm Hf. unfold compile_or in H. destruct (compile l comp) as [comp1|] eqn:El; [|done].
  rewrite !emit_jump_append, append_append in H. cbn [app] in H. rewrite or_jumps, emit_op_append, append_append, size_append in H. cbn [app length] in H.
  set (comp3 := append _ comp1) in H. destruct (compile r comp3) as [comp4|] eqn:Er; [|done]. injection H as <-.
  destruct Ha as (_ & Al & Ar & _). cbn [expr_size] in Hf. pose proof (expr_size_pos l) as Pl.
  pose proof (Hgrow _ _ _ El) as Gl. pose proof (Hgrow _ _ _ Er) as Gr.
  assert (grows comp1 comp3) as Ga by apply grows_append.
  pose proof (compiled_short _ _ Hc) as Hs. rewrite size_patched in Hs. pose proof (grows_length _ _ Gr) as Lr. unfold comp3 in Lr at 1. rewrite size_append in Lr. simpl in Lr.
  destruct (patched (S (size comp1 + 3)) comp4 ltac:(lia) ltac:(lia)) as (P1 & P2 & P3).
  set (j := (size comp4 - S (size comp1 + 3) - 2)%nat) in *. set (comp' := patch_jump _ comp4) in *. pose proof (grows_length _ _ Gl) as Ll.
  assert (forall k b, (k < 4 \/ k = 6)%nat -> [op_byte OP_JUMP_IF_FALSE; 0; 3; op_byte OP_JUMP; 255; 255; op_byte OP_POP] !! k = Some b -> c !! (size comp1 + k)%nat = Some b) as Hb.
  { intros k b Hk Hl. apply (compiled_code _ _ Hc); [lia|]. rewrite P3 by lia. eapply prefix_lookup_Some, Gr.
    cbn. rewrite lookup_app_r by lia. by replace (size comp1 + k - size comp1)%nat with k by lia. }
  pose proof (Hb 0%nat _ ltac:(lia) eq_refl) as H0. rewrite Nat.add_0_r in H0. pose proof (Hb 1%nat _ ltac:(lia) eq_refl) as H1. rewrite Nat.add_1_r in H1.
  pose proof (Hb 2%nat _ ltac:(lia) eq_refl) as H2. replace (size comp1 + 2)%nat with (S (S (size comp1))) in H2 by lia.
  pose proof (Hb 3%nat _ ltac:(lia) eq_refl) as H3. pose proof (Hb 6%nat _ ltac:(lia) eq_refl) as H6.
  apply (compiled_code _ _ Hc) in P1; [|lia]. apply (compiled_code _ _ Hc) in P2; [|lia].
  cbn [eval_expr]. eapply yields_rbind; [..|intros; by apply logic_close].
  - eapply (IH l comp comp1); [done|done|done| |by eapply framed_le, Hf; lia]. eapply compiled_first; [exact Hc|]. apply grows_patch; [by etransitivity|lia].
  - intros v v' Ev Cv. pose proof (jump_false_does vm v' (size comp1) 3 ltac:(in_frame) H0 H1 H2 ltac:(lia)) as Hj.
    destruct v' as [|x| | | | | | | | | | | | | |]; try (by right). cbn [eval_logic]. destruct x; cbn [eqb].
    + exists (VAL_BOOL true). split; [reflexivity|]. unfold comp'. rewrite size_patched. eapply star_trans; [exact Hj|].
      replace (size comp4) with (size comp1 + 3 + 3 + j)%nat by lia. rewrite Nat.add_0_r. apply jump_star; [in_frame|done..|lia].
    + eapply yields_star; [exact Hj|]. eapply yields_star; [apply pop_star; [in_frame|by rewrite <- Nat.add_assoc]|].
      replace (S (size comp1 + 3 + 3)) with (size comp3) by (unfold comp3; rewrite size_append; simpl; lia).
      unfold comp' in *. rewrite size_patched. eapply (IH r comp3 comp4); [done|done|done| |by eapply framed_le, Hf; lia].
      eapply compiled_part; [exact Hc|by etransitivity|]. apply patched_part; [unfold comp3; rewrite size_append; simpl; lia|lia|lia].
Qed.

Lemma recip_sound t l r op v comp comp1 : (expr_size v <= bound)%nat -> (expr_size v <= expr_size (EXPR_BINARY t l r op))%nat -> annotated limit env v -> reciprocal t op l r = Some v ->
  compile v comp = Some comp1 -> sound (EXPR_BINARY t l r op) comp (emit_op OP_RECIP_INT_TO_DOUBLE comp1).
Proof.
  intros Bv Bs Av Hr Ev Ha Hc vm Hf. rewrite emit_op_append in *. pose proof (Hgrow _ _ _ Ev) as Gv. pose proof (grows_append [op_byte OP_RECIP_INT_TO_DOUBLE] comp1) as Ga.
  eapply yields_close; [by apply (reciprocal_close limit env t op l r v)|]. eapply yields_rbind.
  - eapply (IH v comp comp1); [done|done|done| |by eapply framed_le, Hf]. by eapply compiled_first.
  - intros w w' Ew Cw. destruct (annotated_operand v w w' Av Ew Cw) as (tv & Ht & _ & Hw).
    apply reciprocal_inv in Hr as (_ & _ & Hk & _). apply bool_decide_eq_true in Hk. assert (tv = TYPE_INT) as -> by congruence.
    destruct (typed_inv _ _ Hw) as [x ->]. eapply emitted_does; [|apply self_part|in_frame|].
    + by eapply compiled_rest.
    + apply (recip_does fn ss c (on vm (VAL_INT x)) (stack vm) (VAL_INT x)); done.
  - intros x y Hx. destruct (value_close_inv _ _ Hx) as [->|[(? & ? & -> & -> & _)|(? & ? & -> & -> & _)]]; reflexivity.
Qed.

(** A name that is resolved has a value. *)
Lemma resolved_env comp name : local_names comp = names -> 0 <= resolve_local comp name -> exists v, env name = Some v.
Proof.
  intros Hn Hr. pose proof (resolve_local_bounds comp name) as Hb. unfold frame_env. unfold resolve_local in *. rewrite Hn in *.
  assert (0 <=? resolve_from (Z.of_nat (length names) - 1) (rev names) name = true) as -> by lia. apply lookup_lt_is_Some. lia.
Qed.

Lemma evala_sound t l r op v a b comp : annotated limit env v -> reciprocal t op l r = Some v -> match_evalA_denom_locals comp v = Some (a, b) ->
  sound (EXPR_BINARY t l r op) comp (append [op_byte OP_EVALA_RECIP_LOCALS_DOUBLE; a; b] comp).
Proof.
  intros Av Hr Hm Ha Hc vm Hf. unfold match_evalA_denom_locals in Hm. destruct (match_evalA v) as [[na nb]|] eqn:Em; [|done]. cbn [obind] in Hm. unfold guarded_by in Hm.
  destruct (negb _) eqn:En; [|done]. injection Hm as <- <-. pose proof (compiled_names _ _ Hc) as Hn.
  destruct (resolved_env comp na Hn ltac:(lia)) as [va Ea]. destruct (resolved_env comp nb Hn ltac:(lia)) as [vb Eb].
  destruct (frame_env_local comp na va vm _ Hn Ea Hf) as [_ La]. destruct (frame_env_local comp nb vb vm _ Hn Eb Hf) as [_ Lb].
  eapply yields_close; [by apply (reciprocal_close limit env t op l r v)|]. destruct (evalA_eval limit env v na nb va vb Em Av Ea Eb) as (i & j & -> & -> & [->|(d & -> & Hd)]); [done|].
  cbn [rbind recip_value]. destruct (drop_appended comp _ _ 0 _ _ Hc (self_part _ _) eq_refl) as [rest Hdr]. rewrite Nat.add_0_r in Hdr. rewrite size_append.
  eapply yields_does; [in_frame|by rewrite <- (Nat.add_0_r (size comp)), <- lookup_drop, Hdr|].
  erewrite exec_evala; [|by rewrite <- Nat.add_1_r, <- drop_drop, Hdr|exact La|exact Lb|exact Hd].
  replace (Z.of_nat (S (size comp)) + 2) with (Z.of_nat (size comp + length [op_byte OP_EVALA_RECIP_LOCALS_DOUBLE; resolve_local comp na; resolve_local comp nb])) by (simpl; lia).
  unfold recip_int. destruct (d =? 0); [eexists; by split|]. cbn [finish_arith does]. by rewrite (push_framed (expr_size l + expr_size r)).
Qed.

Lemma int_operation_close i v a b : value_close a b -> result_close (typed_result (TInt i) v a) (typed_result (TInt i) v b).
Proof. intros H. destruct (value_close_inv _ _ H) as [->|[(? & ? & -> & -> & _)|(? & ? & -> & -> & _)]]; by destruct v. Qed.
Lemma shared_value_close a b : value_close a b -> result_close (shared_value a) (shared_value b).
Proof. intros H. destruct (value_close_inv _ _ H) as [->|[(? & ? & -> & -> & _)|(? & ? & -> & -> & _)]]; reflexivity. Qed.

(** [OP_ADD_INT; OP_MUL_INT] on [v], [v] and 1. *)
Lemma add_mul_yields comp comp' vm v : compiled comp comp' -> part_of (size comp) (append [op_byte OP_ADD_INT; op_byte OP_MUL_INT] comp) comp' -> runs fn ss vm ->
  yields (on (on (on vm v) v) (VAL_INT 1)) (size comp) vm (size comp + 2) (shared_value v).
Proof.
  intros Hc Hp Hr. pose proof (appended_at comp _ 0 _ comp' Hc Hp eq_refl) as H0. pose proof (appended_at comp _ 1 _ comp' Hc Hp eq_refl) as H1.
  rewrite Nat.add_0_r in H0. unfold shared_value. eapply (yields_rbind _ _ _ _ _ (on vm v) (S (size comp))).
  - eapply (yields_does _ _ _ _ _ OP_ADD_INT); [by repeat apply runs_on|exact H0|].
    apply (exec_typed_stack fn ss c (TInt IAdd) (on (on (on vm v) v) (VAL_INT 1)) _ (stack (on vm v)) v (VAL_INT 1)). cbn. by rewrite <- !app_assoc.
  - intros s s' _ _. eapply (yields_does _ _ _ _ _ OP_MUL_INT); [by repeat apply runs_on|by rewrite <- Nat.add_1_r|]. replace (size comp + 2)%nat with (S (S (size comp))) by lia.
    apply (exec_typed_stack fn ss c (TInt IMul) (on (on vm v) s') _ (stack vm) v s'). cbn. by rewrite <- !app_assoc.
  - intros. by apply int_operation_close.
Qed.

Lemma shared_sound t l r base0 comp comp' : (expr_size l <= bound)%nat -> (expr_size r <= bound)%nat -> shared_base t TOKEN_STAR l r = Some base0 ->
  compile_shared compile base0 comp = Some comp' -> sound (EXPR_BINARY t l r TOKEN_STAR) comp comp'.
Proof.
  intros Bl Br Hb H Ha Hc vm Hf. unfold compile_shared in H. destruct (compile base0 comp) as [comp1|] eqn:Eb; [|done]. injection H as <-.
  destruct Ha as (_ & Al & Ar & _). eapply yields_refines; [by apply shared_refines|].
  rewrite !emit_op_append in *. set (comp2 := append _ comp1) in *. set (k := mkConstant _ _) in *. set (comp3 := emit_constant k comp2) in *. rewrite append_append in *. cbn [app] in *.
  pose proof (Hgrow _ _ _ Eb) as G1. assert (grows comp1 comp2) as G2 by apply grows_append. assert (grows comp2 comp3) as G3 by apply grows_constant.
  pose proof (grows_append [op_byte OP_ADD_INT; op_byte OP_MUL_INT] comp3) as G4. set (comp' := append _ comp3) in *.
  assert (3 <= expr_size l + expr_size r)%nat as Hsz.
  { pose proof (expr_size_pos l). pose proof (expr_size_pos r). apply shared_base_inv in Hb as (_ & _ & [[-> (_ & ? & x & y & _ & _ & [-> | ->])]|[-> (_ & ? & x & y & _ & _ & [-> | ->])]]);
      cbn [expr_size]; pose proof (expr_size_pos x); pose proof (expr_size_pos y); lia. }
  assert (annotated limit env base0 /\ (expr_size base0 <= bound)%nat /\ (expr_size base0 <= expr_size l + expr_size r)%nat) as (A0 & B0 & S0).
  { apply shared_base_inv in Hb as (_ & _ & [[-> _]|[-> _]]); split_and!; try done; lia. }
  cbn [expr_size] in Hf. eapply yields_rbind; [..|intros; by apply shared_value_close].
  - eapply (IH base0 comp comp1); [done|done|done| |by eapply framed_le, Hf; lia]. eapply compiled_first; [exact Hc|]. do 2 (etransitivity; [eassumption|]). exact G4.
  - intros w v _ _. assert (compiled comp1 comp') as C1 by (by eapply compiled_rest).
    assert (grows comp2 comp') as G24 by (by etransitivity).
    assert (star (on vm v) (Z.of_nat (size comp1)) (on (on vm v) v) (Z.of_nat (size comp2))) as Hdup.
    { eapply (star_op _ _ _ _ _ OP_DUP); [in_frame| |].
      - pose proof (appended_at comp1 [op_byte OP_DUP] 0 _ comp' C1 ltac:(by apply grows_part) eq_refl) as H0. by rewrite Nat.add_0_r in H0.
      - unfold comp2. rewrite size_append. replace (size comp1 + length [op_byte OP_DUP])%nat with (S (size comp1)) by (simpl; lia).
        apply (dup_does fn ss c (on vm v) (stack vm) v); [apply Hf|done|]. destruct Hf as [_ _ _ Hr]. unfold count in Hr. cbn. lia. }
    eapply yields_star; [exact Hdup|]. eapply yields_star.
    + apply (constant_runs k comp2 comp'); [by eapply compiled_rest|by apply grows_part|do 2 apply framed_on; eapply framed_le, Hf; lia|done].
    + replace (size comp') with (size comp3 + 2)%nat by (unfold comp'; by rewrite size_append).
      change (constant_operand k) with (VAL_INT 1). eapply (add_mul_yields comp3 comp'); [|apply self_part|in_frame]. eapply compiled_rest; [exact C1|by etransitivity].
Qed.

Lemma operator_sound t l r op comp comp' : (expr_size l <= bound)%nat -> (expr_size r <= bound)%nat -> logical op = false ->
  compile_operator compile t l r op comp = Some comp' -> sound (EXPR_BINARY t l r op) comp comp'.
Proof.
  intros Bl Br Ho H. unfold compile_operator in H. destruct (reciprocal t op l r) as [v|] eqn:Er.
  { intros Ha. assert (annotated limit env v /\ (S (expr_size v) = expr_size r)%nat) as [Av Sv].
    { destruct (reciprocal_inv _ _ _ _ _ Er) as (_ & _ & _ & ty & ->). destruct Ha as (_ & _ & (_ & Av & _) & _). done. }
    unfold compile_reciprocal in H. revert Ha. destruct (match_evalA_denom_locals comp v) as [[a b]|] eqn:Em.
    - injection H as <-. rewrite emit_op_append, !emit_byte_append, !append_append. by eapply evala_sound.
    - destruct (compile v comp) as [comp1|] eqn:Ev; [|done]. injection H as <-. apply (recip_sound t l r op v comp comp1); [lia|cbn [expr_size]; lia|done..]. }
  destruct (shared_base t op l r) as [base0|] eqn:Eb; [|by apply operands_sound].
  destruct (shared_base_inv _ _ _ _ _ Eb) as (-> & _). by eapply shared_sound.
Qed.
Lemma binary_sound t l r op comp comp' : (expr_size l <= bound)%nat -> (expr_size r <= bound)%nat ->
  compile_binary compile t l r op comp = Some comp' -> sound (EXPR_BINARY t l r op) comp comp'.
Proof. intros Bl Br H. destruct op; try (by apply operator_sound); [by apply and_sound|by apply or_sound]. Qed.

Lemma unary_sound t o op comp comp1 : (expr_size o <= bound)%nat -> compile o comp = Some comp1 ->
  sound (EXPR_UNARY t o op) comp (emit_some (unary_opcode t op o) comp1).
Proof.
  intros Bo Eo [_ Ao] Hc vm Hf. cbn [eval_expr expr_size] in *. pose proof (Hgrow _ _ _ Eo) as Go. pose proof (grows_some (unary_opcode t op o) comp1) as Gs.
  eapply yields_rbind; [..|intros; by apply unary_close].
  - eapply (IH o comp comp1); [done|done|done| |by eapply framed_le, Hf; lia]. by eapply compiled_first.
  - intros v v' Ev Cv. destruct (unary_opcode t op o) as [i|] eqn:Ei.
    + cbn [emit_some]. rewrite emit_op_append in *. eapply emitted_does; [by eapply compiled_rest|apply self_part|in_frame|].
      eapply (unary_does fn ss c (on vm v') (stack vm) v'); [apply Hf|done| |exact Ei|by eapply annotated_operand].
      destruct Hf as [_ _ _ Hr]. unfold count in Hr. cbn. lia.
    + by destruct op.
Qed.

Lemma cast_sound t v target comp comp1 : (expr_size v <= bound)%nat -> compile v comp = Some comp1 ->
  sound (EXPR_CAST t v target) comp (if is_noop_primitive_cast (type_of v) target then comp1 else emit_some (cast_opcode target) comp1).
Proof.
  intros Bv Ev (_ & Av & tt & -> & Hp) Hc vm Hf. cbn [expr_size] in *. pose proof (Hgrow _ _ _ Ev) as Gv. pose proof (grows_some (cast_opcode (Some tt)) comp1) as Gs.
  destruct (is_noop_primitive_cast (type_of v) (Some tt)) eqn:En.
  { rewrite (noop_cast limit env t v tt) by done. eapply (IH v comp comp1); [done|done|done|done|by eapply framed_le, Hf; lia]. }
  cbn [eval_expr]. eapply yields_rbind; [..|intros; by apply cast_close].
  - eapply (IH v comp comp1); [done|done|done| |by eapply framed_le, Hf; lia]. by eapply compiled_first.
  - intros w w' _ _. destruct (cast_opcode (Some tt)) as [i|] eqn:Ei; [|by destruct tt].
    cbn [emit_some]. rewrite emit_op_append in *. eapply emitted_does; [by eapply compiled_rest|apply self_part|in_frame|].
    eapply (cast_does fn ss c (on vm w') (stack vm) w'); [apply Hf|done| |exact Ei]. destruct Hf as [_ _ _ Hr]. unfold count in Hr. cbn. lia.
Qed.
End Operators.

Lemma compile_sound n : forall e comp comp', (expr_size e <= n)%nat -> compile_expression n e comp = Some comp' -> sound e comp comp'.
Proof.
  induction n as [|n IH]; intros e comp comp' Hn H; [done|]. cbn [compile_expression] in H.
  assert (forall e e', expr_size e = S n \/ (expr_size e <= n)%nat -> fold_expression_recursive e = Folded e' -> compile_expression n e' comp = Some comp' -> sound e comp comp') as Hfold.
  { intros e0 e' He Ef Hc Ha Hk vm Hf. destruct (fold_correct limit env e0 e' Ha Ef) as [Aa Rr]. apply fold_size in Ef.
    eapply yields_refines; [exact Rr|]. eapply (IH e' comp comp'); [lia|done|done|done|]. eapply framed_le, Hf. lia. }
  destruct e as [t p|t name|t l r op|t o op|t v target|t|t]; cbn [expr_size] in Hn.
  - injection H as <-. apply literal_sound.
  - by apply identifier_sound.
  - destruct (fold_expression_recursive (EXPR_BINARY t l r op)) as [e'| |] eqn:E; [|by eapply (binary_sound (compile_expression n) n); eauto using compile_grows; lia|done].
    eapply Hfold; [|done|done]. cbn [expr_size]. lia.
  - destruct (fold_expression_recursive (EXPR_UNARY t o op)) as [e'| |] eqn:E; [eapply Hfold; [|done|done]; cbn [expr_size]; lia| |done].
    destruct (compile_expression n o comp) as [comp1|] eqn:Eo; [|done]. injection H as <-.
    eapply (unary_sound (compile_expression n) n); eauto using compile_grows. lia.
  - destruct (compile_expression n v comp) as [comp1|] eqn:Ev; [|done]. injection H as <-.
    eapply (cast_sound (compile_expression n) n); eauto using compile_grows. lia.
  - injection H as <-. apply nil_sound.
  - done.
Qed.
End Correct.

(** ** Functions that return an expression *)

(** The compiler at the start of a function with these locals. *)
Definition function_compiler (names : list (option (list Z))) (enums : list EnumDecl) : Compiler := mkCompiler [] [] names enums None.

(** The function holds what the compiler has emitted. *)
Definition holds (fn : ObjFunction) (comp : Compiler) : Prop :=
  code (chunk fn) = Some (ccode comp) /\ code_count (chunk fn) = Z.of_nat (size comp) /\
  buffer (constants (pool fn)) = cconstants comp /\ constant_count (pool fn) = Z.of_nat (length (cconstants comp)).

(** What [OP_RET] leaves to the calling frame. *)
Definition returned (vm : VM) (ss : nat) (v : Value) : VM := with_frames (frame_count vm - 1) (with_stack (take ss (stack vm) ++ [v]) vm).

Section Return.
Context (fn : ObjFunction) (ss : nat) (vm : VM) (names : list (option (list Z))) (enums : list EnumDecl) (e : Expr) (comp : Compiler).
Context (Hcomp : compile_return false None (Some e) (function_compiler names enums) = Some (comp, None)).
Context (Herror : compile_error comp = None) (Hshort : Z.of_nat (size comp) <= 32767) (Hholds : holds fn comp).
Context (Hnames : (length names <= 256)%nat) (Hframe : (ss + length names <= length (stack vm))%nat) (Hruns : runs fn ss vm).
Context (Hcalled : 1 < frame_count vm) (Hroom : count vm + Z.of_nat (expr_size e) <= max_stack_size (config vm)).
Notation limit := (max_string_length (config vm)).
Notation env := (frame_env names (stack vm) ss).

Lemma return_inv : exists comp1, compile_expression (expr_size e) e (function_compiler names enums) = Some comp1 /\ comp = append [op_byte OP_RET] comp1.
Proof.
  unfold compile_return in Hcomp. destruct (compile_expression _ _ _) as [comp1|]; [|done]. injection Hcomp as <-. by exists comp1.
Qed.

Lemma ret_step comp1 v : comp = append [op_byte OP_RET] comp1 -> step (recode (ccode comp) fn) ss (on vm v) (Z.of_nat (size comp1)) = Finished (returned vm ss v).
Proof.
  intros Hc. assert (drop (size comp1) (ccode comp) = [op_byte OP_RET]) as Hd by (rewrite Hc; cbn; by rewrite drop_app_length).
  rewrite (step_op fn ss (ccode comp) (on vm v) (size comp1) _ OP_RET [] (proj1 (runs_on fn ss vm v Hruns)) Hd (decode_op_byte _)).
  cbn [exec]. unfold exec_return. rewrite (pop_last (on vm v) (stack vm) v) by done. destruct Hruns as [[He _] _]. cbn. rewrite He.
  assert (frame_count vm - 1 =? 0 = false) as -> by lia. f_equal. rewrite push_ok; [done|done|]. pose proof (expr_size_pos e).
  unfold count in *. cbn. rewrite length_take. lia.
Qed.

Lemma return_runs : annotated limit env e ->
  match eval_expr limit env e with
  | Computed v => exists n v', run_framed fn ss n vm 0 = Some (Finished (returned vm ss v')) /\ value_close v v'
  | Failed m => m = string_limit_error \/ exists n vm', run_framed fn ss n vm 0 = Some (Halted vm') /\ error_message vm' = Some m
  | ComputeUndefined | ComputeUnmodelled => True
  end.
Proof.
  intros Ha. destruct return_inv as (comp1 & H1 & Hc). destruct Hholds as (Hcode & Hcount & Hpool & Hpc).
  assert (recode (ccode comp) fn = fn) as Hf by (by apply recode_same).
  assert (compiled fn (ccode comp) names (function_compiler names enums) comp1) as Hk.
  { pose proof (grows_append [op_byte OP_RET] comp1) as Hg. rewrite <- Hc in Hg. pose proof (grows_length _ _ Hg). split.
    - by apply (grows_error _ _ Hg).
    - lia.
    - done.
    - intros i b _ Hi. by eapply prefix_lookup_Some, Hg.
    - intros i k Hi. rewrite Hc in Hpool, Hpc. cbn in Hpool, Hpc. rewrite Hpool. split; [done|]. apply lookup_lt_Some in Hi. lia. }
  pose proof (compile_sound fn ss (ccode comp) names (stack vm) limit Hnames Hframe _ _ _ _ (le_n _) H1 Ha Hk vm) as Hy.
  specialize (Hy ltac:(split; [done|done|done|lia])). cbn [ccode function_compiler length Z.of_nat] in Hy. unfold yields in Hy.
  destruct (eval_expr limit env e) as [v|m| |]; [| |done..].
  - destruct Hy as (v' & Hv & Hs). apply star_run with (n := 1%nat) (o := Finished (returned vm ss v')) in Hs as [n Hn].
    + exists n, v'. by rewrite Hf in Hn.
    + apply run_last; [by apply runs_on|by apply ret_step|done].
  - destruct Hy as [->|(vm1 & p1 & vm2 & Hs & Hh & Hst & Hm)]; [by left|right].
    apply star_run with (n := 1%nat) (o := Halted vm2) in Hs as [n Hn]; [|by apply run_last]. exists n, vm2. by rewrite Hf in Hn.
Qed.
End Return.



(** C14: the compiler terminates: for an expression of the modelled kinds whose
    constants can be folded, recursion as deep as the expression has nodes is
    enough, more makes no difference, and the result extends the code, the
    constants and nothing else. *)
Theorem compile_expression_total e comp :
  supported comp e = true -> fold_expression_recursive e <> FoldUndefined ->
  exists comp', (forall fuel, (expr_size e <= fuel)%nat -> compile_expression fuel e comp = Some comp') /\
    (exists code, ccode comp' = ccode comp ++ code) /\ (exists pool, cconstants comp' = cconstants comp ++ pool) /\
    local_names comp' = local_names comp /\ enum_decls comp' = enum_decls comp.
Proof.
  intros Hs Hd. destruct (compile_total (expr_size e) e comp (le_n _) Hs Hd) as [comp' Hc]. exists comp'.
  pose proof (compile_grows _ _ _ _ Hc) as [H1 H2 H3 H4 _]. split; [|done]. intros n Hn. by rewrite (compile_fuel n (expr_size e)).
Qed.

(** *** Instances *)

(** [1.0 / ((n * (n + 1)) as double) > d || n % 4 == 1 + 1], with [n] and [d] in
    the first two locals. *)
Definition compiled_sample : Expr :=
  binary TOKEN_OR
    (binary TOKEN_GT
       (binary TOKEN_SLASH (EXPR_LITERAL (Some TYPE_DOUBLE) (as_double double_one))
          (EXPR_CAST None (binary TOKEN_STAR (variable "n") (binary TOKEN_PLUS (variable "n") (int_lit 1))) (Some TYPE_DOUBLE)))
       (variable "d"))
    (binary TOKEN_EQ_EQ (binary TOKEN_PERCENT (variable "n") (int_lit 4)) (binary TOKEN_PLUS (int_lit 1) (int_lit 1))).
Definition checked_sample : Expr := (typecheck_expression sample_checker [] compiled_sample).1.2.
Definition sample_names : list (option (list Z)) := [Some (bytes "n"); Some (bytes "d")].
Definition sample_frame : VM := mkVM [VAL_NIL; VAL_INT 6; VAL_DOUBLE double_one] 2 0 None (mkConfig 16 64 1024 0).
Definition sample_compiler : Compiler :=
  match compile_return false None (Some checked_sample) (function_compiler sample_names []) with Some (comp, _) => comp | None => function_compiler [] [] end.
Definition function_holding (params : Z) (comp : Compiler) : ObjFunction :=
  mkFunction (mkChunk (Some (ccode comp)) None (Z.of_nat (size comp)) (Z.of_nat (size comp)))
    (mkPool (Some (cconstants comp)) (Z.of_nat (length (cconstants comp))) (Z.of_nat (length (cconstants comp))))
    params params None 0 None false (-1) (-1) None None
    (jit_profile (obj_function_create (0, 0))) (jit_hint_plan (obj_function_create (0, 0))).
Definition sample_function : ObjFunction := function_holding 2 sample_compiler.

Lemma sample_frame_typed : env_typed (frame_env sample_names (stack sample_frame) 1) sample_checker.
Proof.
  intros name sym t v Hl Ht Hv. left. unfold sample_checker in Hl. rewrite lookup_single in Hl. cbn -[bytes] in Hl. unfold frame_env, sample_names in Hv. cbn -[bytes] in Hv.
  destruct (bool_decide_reflect (Some (bytes "d") = Some name)) as [[= <-]|Nd]; [by vm_compute in Hl; vm_compute in Hv; simplify_eq/=; simplify_eq|].
  destruct (bool_decide_reflect (Some (bytes "n") = Some name)) as [[= <-]|Nn]; [by vm_compute in Hl; vm_compute in Hv; simplify_eq/=; simplify_eq|done].
Qed.



Lemma compile_expression_total_witness :
  exists comp', (forall fuel, (expr_size checked_sample <= fuel)%nat -> compile_expression fuel checked_sample (function_compiler sample_names []) = Some comp') /\
    (exists code, ccode comp' = ccode (function_compiler sample_names []) ++ code) /\ (exists pool, cconstants comp' = cconstants (function_compiler sample_names []) ++ pool) /\
    local_names comp' = local_names (function_compiler sample_names []) /\ enum_decls comp' = enum_decls (function_compiler sample_names []).
Proof.
  apply (compile_expression_total checked_sample (function_compiler sample_names [])); [vm_compute; reflexivity|vm_compute; discriminate].
Defined.
